(* ===== verification/_CoqProject ===== *)
-Q . S2P
Prelude.v
Linear.v
Prog.v
Machine.v
Logic.v
Spans.v
Atomics.v
Rules.v
Adt.v
LfNode.v
Treiber.v
LfStack.v
LfQueue.v
LfElimination.v
Order.v
Avl.v
DequeTree.v
MapTree.v
Universal.v
UniversalSteps.v
UniversalProof.v
WfStack.v
WfDeque.v
WfMap.v
RingBuffer.v
MapAdt.v
SplitOrder.v
ListShape.v
ListInv.v
ListSteps.v
ListCommon.v
ListBudget.v
ListSearch.v
ListCalls.v
ListOps.v
ListCode.v
ListMethods.v
ListObject.v
LfList.v
LfHashMap.v
SkipCode.v
SkipInv.v
SkipSteps.v
SkipWalk.v
SkipFind.v
SkipSeek.v
SkipOps.v
SkipGets.v
SkipDel.v
SkipBuild.v
SkipLink.v
SkipSet.v
LfSkipList.v
SplitCode.v
SplitTable.v
SplitInsert.v
SplitMethods.v
LfSplitHashMap.v
Search.v
Arithmetic.v
WfQueueCode.v
WfQueueInv.v
WfQueueSteps.v
WfQueueWrites.v
WfQueueSlots.v
WfQueueCalls.v
WfQueueHelp.v
WfQueueLoops.v
WfQueueMethods.v
WfQueueObject.v
Chronicle.v
DequeOrder.v
DequeCode.v
DequeInv.v
DequeSteps.v
DequeWrites.v
DequeLinks.v
DequeWalk.v
DequeHelp.v
LfDeque.v
