(* ===== verification/Prelude.v ===== *)
(** * The golang-design/lockfree library, verified

    The Go module [golang.design/x/lockfree] offers concurrent data structures
    in two packages: [lf], lock-free, and [wf], wait-free.  Its contracts
    ([interfaces.go], [doc.go]) are that each structure behaves like its
    abstract data type, atomically, and makes progress without locks.  This
    development models the structures at the level of their atomic
    instructions and proves both, for every schedule of any number of
    goroutines.

    ** How the code is modelled

    - Prog.v: goroutine code is a tree of atomic actions on a shared memory,
      with [for] loops as a constructor ([loop], [continue], [break]).  An
      action that returns [None] is a panic.
    - Atomics.v: one action per [sync/atomic] call and per dereference of a
      pointer or slice: [load], [store], [cas], [add_u64], [load_at], [cas_at],
      [load_idx], ....  Go's atomics are sequentially consistent, so a shared
      memory with interleaving is their semantics.  A pointer is an index
      into a heap that only grows: an address is not reused while somebody
      holds it, which Go's garbage collector guarantees and the ABA-freedom of
      the code depends on.
    - Machine.v: an [object] is an initial memory, the code of each operation
      and the contract on who may call what; [exec] runs a schedule of calls
      and steps, one atomic action at a time, in any order; [reaches] are its
      runs and [sy_hist] the history of calls and returns of a run.
    - Machine integers are [Z] with the wrap-around written out ([u64], [i64]
      below).
    - Adt.v, MapAdt.v: the abstract data types as sequential specifications.
      Linear.v defines linearizability of a history: some order of the
      operations that respects real time is a run of the specification with
      the same responses.  A specification may leave a response open, and says
      then which ones it allows ([spec_free]): any for the approximate
      [Length] or [Len] of the lock-free structures and for [Len], [IsFull] and
      [IsEmpty] of the ring buffer, any value set since the key was inserted
      for [Del] of the lock-free maps, any ascending keys within the bounds
      for their [Range].  What a [Range] reports and which value a [Del] returns
      is stated besides, of the states between the call and the return
      ([ranges_observed], [dels_observed]).

    ** How it is proved

    Logic.v is a rely/guarantee logic over worlds (memory, linearization log,
    ghost state): [wp] is verified code under a budget of steps, [verified]
    what an object has to establish.  Its adequacy theorems
    ([verified_linearizable], [verified_no_crash], [verified_waitfree],
    [verified_lockfree], [verified_inv]) turn that into statements about every
    schedule.  Wait-freedom is an absolute bound on an operation's own steps;
    lock-freedom bounds them by the number of operations that overlap it, so
    that an operation can only be delayed by others that take effect; the
    allowance per operation may depend on how many took effect before
    ([LockFreeIn]), as for a traversal of a list.  [verified_state] relates the
    abstract state that the invariant speaks of to a linearization of the history.
    Spans.v adds facts of the states between the call and the return of an operation
    ([verified_with], [facts_linearization]), for operations that do not take
    effect at one instant.  [verified_world] gives the
    worlds themselves; from their logs Chronicle.v derives linearizability for
    operations that take effect at an instant of their past which is only
    decided later.  Rules.v has a proof rule per
    atomic action.  A structure's file gives its
    invariant, what each goroutine may rely on, and a lemma per write.

    ** The structures

    - LfStack.v ([lf/stack.go], [lf/node.go]): Treiber's stack; linearizable,
      lock-free (6 steps), no nil dereference, the length counter is exact when no
      operation is pending, and a run in which [Length] reads 2^64 - 1.
    - LfQueue.v ([lf/queue.go]): the Michael-Scott queue with a lagging tail;
      the same properties (16 steps).
    - LfElimination.v ([lf/elimination.go]): the elimination-backoff stack
      over the central stack of Treiber.v, which it shares with LfStack.v.
      The random numbers are a parameter.  A [Pop] that meets a [Push] in a
      slot takes its value, and both take effect at once; linearizable,
      lock-free up to the spins, no slot index out of range.
    - ListShape.v, ListInv.v, ListSteps.v: sorted lists whose [next] points to
      an immutable pair of a node and a deletion mark, over any memory layout
      ([Shape]), order of the nodes ([NodeOrder]) and sentinels ([Capacity]).
      ListInv.v has their invariant and the rely of a goroutine, ListSteps.v a
      lemma per write (insert, insert a sentinel, mark, unlink, update of a
      value).  ListCommon.v is the code that such lists share, ListBudget.v
      what a goroutine may spend in them, ListSearch.v the traversals,
      ListCalls.v and ListOps.v what operations know halfway.
    - ListCode.v ([lf/list.go]): the code of the Harris-Michael list and its
      instance of the above, ListMethods.v its methods, ListObject.v fresh
      lists and objects made of lists.  The proofs are about any number of
      lists in one memory, the list of a key being given by a function
      [bucket]; LfList.v is the case of one list, LfHashMap.v
      ([lf/hashmap.go]) that of an array of them.  An update of a value takes
      effect when it is stored or, if its node is marked before, just before
      the deletion; so the value [Del] returns may have been overwritten by then,
      but it was the current one at some moment since the call.  A [Range]
      reports ascending keys within its bounds, each with a value it had between the
      call and the return, and misses no key that was present all that time; the
      keys it reports need never have been present together.  The budget of an
      operation is a traversal for each node that may have to be unlinked (which
      makes a traversal start again) and two more; a traversal is linear in the
      number of nodes ever linked.
    - SplitOrder.v, SplitCode.v ([lf/splithashmap.go]): the split-ordered hash
      table: one such list in the order of the bit-reversed hashes, with a
      sentinel per bucket and a table of segments that grows.  SplitOrder.v shows
      that the keys of a bucket lie behind its sentinel, for every number of
      buckets.  The table is what
      [Rest] stands for: SplitTable.v has its invariant (a set bucket pointer leads
      to the linked sentinel of the bucket) and its accesses, SplitInsert.v
      the recursive initialisation of buckets, whose recursion is
      bounded by the 16 bits of a bucket (the fuel of [initBucket]),
      SplitMethods.v the methods and LfSplitHashMap.v the object.  The sentinels
      still to be added ([blanks]) count as pending changes in the budgets.
    - SkipCode.v ([lf/skiplist.go]): the lock-free skip list of Herlihy and Shavit.
      Its lowest level is such a sorted list and carries the meaning of the
      map; SkipInv.v has the invariant of the levels above it, shortcuts whose
      pointers lead to later nodes and which are marked from the top down,
      SkipSteps.v a lemma per write.  SkipWalk.v has the accesses to the levels
      and the budgets, SkipFind.v the search of [Set] and [Del] with its
      retries and SkipSeek.v that of the other methods; both are proved for
      any purpose of the search (a record [finder]).  SkipGets.v, SkipDel.v, SkipBuild.v,
      SkipLink.v and SkipSet.v are the methods, and LfSkipList.v the object, for
      all random numbers, with [lf/orderedmap.go], which wraps it.  [Range] reports
      what it does in a list.
      What is left to change at the levels is a potential ([slack]): every pointer
      counts with the nodes behind its target, a link still to be made with
      more than all nodes; so an operation is allowed a search for each
      change that may come.
    - Universal.v, UniversalSteps.v, UniversalProof.v: Herlihy's wait-free
      universal construction, which [wf/stack.go], [wf/deque.go] and
      [wf/map.go] each spell out for their own sequential object.  It is
      modelled once over any sequential object [seq_object] (the zero values,
      the [switch] of [publish] and what a method returns), with the contract
      [Implements] between the object and its specification.  The proof covers
      the helping order, so an operation takes at most [23 * n + 50] steps with
      [n] handles, whatever the others do.
    - WfStack.v, WfDeque.v, WfMap.v: the three instances, with every method.
      [NewX] panics on fewer than one handle; [Handle] beyond [n] panics.  A
      handle is used by one goroutine at a time: the model labels that
      goroutine with the handle's id ([allowed]), and a run has fewer than
      2^62 calls and returns, so that the 64-bit sequence numbers do not wrap.
    - WfQueueCode.v ([wf/queue.go]): the wait-free queue of Kogan and Petrank,
      in which every operation is announced with a phase and completed by whoever
      comes first.  WfQueueInv.v has its invariant, WfQueueSteps.v,
      WfQueueWrites.v, WfQueueSlots.v and WfQueueCalls.v a lemma per write,
      WfQueueHelp.v, WfQueueLoops.v and WfQueueMethods.v the code.  An enqueue
      takes effect when its node is linked, a dequeue when the head node is
      claimed for it or when a helper reads that the queue is empty and then
      completes it; so an operation may take effect in a step of any
      participant.  A loop that helps an operation only goes round when
      something was linked, claimed or recorded, and at most two operations of
      each participant may do so before the helped one is settled: the potential of the operation ([pot], at most [max_pot]).
      Hence the bound of [232 * n * n + 244 * n + 21] steps with [n] handles
      (WfQueueObject.v).  Handles are used as in Universal.v.
    - DequeCode.v ([lf/deque.go], with the helpers it takes from
      [lf/splithashmap.go]): the doubly linked lock-free deque of Sundell and
      Tsigas, whose [next] and [prev] point to immutable pairs of a node and a deletion
      mark.  The chain of the [next] links from head to tail is what the deque
      holds; the [prev] links are hints that [helpInsert] repairs.  DequeInv.v has
      the invariant, DequeSteps.v, DequeWrites.v and DequeLinks.v what the
      goroutines rely on and a lemma per write, DequeWalk.v and DequeHelp.v the walks
      back and the helpers, LfDeque.v the methods and the object.  A push takes
      effect when [next] of its left neighbour is swung to the node, [PopBack]
      when [next] of its node is marked.  So is it for [PopFront], except that
      nodes may have been pushed in front of the one it marks: it takes effect
      when it read [head.next], which only the later compare-and-swap
      confirms.  Hence its linearization is found at the end (Chronicle.v,
      DequeOrder.v).
    - Avl.v, DequeTree.v, MapTree.v: the persistent AVL trees of [wf/deque.go]
      and [wf/map.go]; every function returns an option, [None] where it would
      dereference nil.  The operations are equal to their references on the
      in-order sequence and keep the tree balanced, hence of logarithmic
      height.  Order.v has [Less] of [common.go], a strict weak order, and
      sorted association lists.
    - RingBuffer.v ([wf/ringbuffer.go]): the single-producer/single-consumer
      ring buffer, with goroutine 0 the producer and goroutine 1 the consumer;
      linearizable to a bounded queue across the wrap-around of its cursors,
      wait-free (6 steps), empty slots keep no reference and the cursors count the
      items when neither of the two is at work; [nextPowerOfTwo] is
      right up to 2^62 and runs forever above it.
    - Search.v ([search.go]): [BinarySearch], correct on ascending slices in
      [log2 (len + 1) + 2] rounds (its loop takes a number of rounds as fuel).
    - Arithmetic.v ([arithmetic.go]): [AddFloat64] adds atomically and
      lock-free, but returns 0 instead of the new value.  The bits of a sum
      that is NaN are a parameter, because the platform chooses them.

    ** What is not modelled

    The progress of [lf.Deque]: it is documented as lock-free, and is proved safe
    and linearizable only.  Garbage collection is not modelled beyond addresses
    being fresh (so not what the anchors and cursors of the wait-free structures
    keep alive), nor padding against false sharing.  [make] does not fail: the
    panics of [NewHashMap] and [NewRingBuffer] when a slice would be too large are
    left out.  [runtime.Gosched] is no action on the memory and is left out too: a
    schedule may switch goroutines at every step.  The conformance suites of
    [internal/conformtest], the tests and the benchmarks are no part of the
    library's behaviour.

    This file: machine integers and lemmas shared by all files. *)

From stdpp Require Export base list gmap.
From Stdlib Require Export ZArith Lia.

(** ** Machine integers *)

Definition two64 : Z := 2 ^ 64.

(** A [uint64] is a [Z] in [0, 2^64); every arithmetic result is reduced. *)
Definition u64 (z : Z) : Z := z mod two64.

(** An [int] (64 bits on the supported platforms) is a [Z] in
    [-2^63, 2^63); [i64] is the two's complement reduction of a result. *)
Definition i64 (z : Z) : Z := (z + 2 ^ 63) mod two64 - 2 ^ 63.

(** ** Lemmas on machine integers *)

Lemma two64_val : two64 = 18446744073709551616%Z.
Proof. reflexivity. Qed.

Lemma u64_range z : (0 <= u64 z < two64)%Z.
Proof. apply Z.mod_pos_bound. reflexivity. Qed.

Lemma u64_small z : (0 <= z < two64)%Z → u64 z = z.
Proof. apply Z.mod_small. Qed.

Lemma u64_add_l a b : u64 (u64 a + b) = u64 (a + b).
Proof. apply Zplus_mod_idemp_l. Qed.

Lemma u64_add_r a b : u64 (a + u64 b) = u64 (a + b).
Proof. apply Zplus_mod_idemp_r. Qed.

Lemma u64_sub_l a b : u64 (u64 a - b) = u64 (a - b).
Proof. apply Zminus_mod_idemp_l. Qed.

Lemma u64_sub_r a b : u64 (a - u64 b) = u64 (a - b).
Proof. apply Zminus_mod_idemp_r. Qed.

Lemma i64_small z : (- 2 ^ 63 <= z < 2 ^ 63)%Z → i64 z = z.
Proof.
  intros H. unfold i64. rewrite Z.mod_small; [lia|].
  rewrite two64_val. lia.
Qed.

Lemma i64_range z : (- 2 ^ 63 <= i64 z < 2 ^ 63)%Z.
Proof.
  unfold i64. pose proof (Z.mod_pos_bound (z + 2 ^ 63) two64) as H.
  rewrite two64_val in *. lia.
Qed.

Create HintDb lockfree.
Create Rewrite HintDb lockfree_rw.
#[export] Hint Rewrite u64_add_l u64_add_r u64_sub_l u64_sub_r : lockfree_rw.

(** ** Lemmas on lists *)

Section lists.
Context {A : Type}.
Implicit Types l k : list A.

Lemma lookup_snoc_inv l x i y :
  (l ++ [x]) !! i = Some y ↔ l !! i = Some y ∨ (i = length l ∧ y = x).
Proof.
  rewrite lookup_app_Some. split.
  - intros [?|[? Hi]]; [by left|right].
    destruct (i - length l) as [|m] eqn:E; simplify_eq/=.
    split; [lia|done].
  - intros [?|[-> ->]]; [by left|right].
    rewrite Nat.sub_diag. split; [lia|done].
Qed.

Lemma lookup_snoc_l l x i y : l !! i = Some y → (l ++ [x]) !! i = Some y.
Proof. intros. by apply lookup_app_l_Some. Qed.

Lemma lookup_snoc_eq l x : (l ++ [x]) !! length l = Some x.
Proof. apply lookup_snoc_inv. by right. Qed.

Lemma prefix_lookup_Some' l k i x :
  l `prefix_of` k → l !! i = Some x → k !! i = Some x.
Proof. intros [k' ->] ?. by apply lookup_app_l_Some. Qed.

Lemma prefix_snoc l x : l `prefix_of` l ++ [x].
Proof. by exists [x]. Qed.

Lemma take_of_prefix l k n :
  l `prefix_of` k → n ≤ length l → take n k = take n l.
Proof.
  intros [k' ->] ?. rewrite take_app_le; done.
Qed.
End lists.

(** ** Sums *)

Section sums.
Context {A : Type}.
Implicit Types (f g : A → nat) (l : list A).

Lemma sum_list_le f g l :
  (∀ x, x ∈ l → f x ≤ g x) → sum_list_with f l ≤ sum_list_with g l.
Proof.
  induction l as [|x l IH]; intros H; simpl; [lia|].
  pose proof (H x (list_elem_of_here _ _)).
  specialize (IH (λ y Hy, H y (list_elem_of_further _ _ _ Hy))). lia.
Qed.

(** Only one element may grow. *)
Lemma sum_list_change `{EqDecision A} f g l x0 :
  NoDup l → (∀ x, x ≠ x0 → x ∈ l → f x ≤ g x) → x0 ∈ l →
  sum_list_with f l + g x0 ≤ sum_list_with g l + f x0.
Proof.
  induction l as [|x l IH]; intros Hnd Hle Hin; [by apply not_elem_of_nil in Hin|].
  apply NoDup_cons in Hnd as [Hx Hnd]. simpl. destruct (decide (x = x0)) as [->|Hne].
  - enough (sum_list_with f l ≤ sum_list_with g l) by lia. apply sum_list_le. intros y Hy.
    apply Hle; [congruence|by right].
  - apply elem_of_cons in Hin as [?|Hin]; [congruence|].
    specialize (IH Hnd (λ y Hne Hy, Hle y Hne (list_elem_of_further _ _ _ Hy)) Hin).
    pose proof (Hle x Hne (list_elem_of_here _ _)). lia.
Qed.

Lemma sum_list_one `{EqDecision A} f g l x0 :
  NoDup l → x0 ∈ l → (∀ x, x ≠ x0 → f x = g x) →
  sum_list_with f l + g x0 = sum_list_with g l + f x0.
Proof.
  intros Hnd Hin Heq. apply Nat.le_antisymm.
  - apply sum_list_change; [done| |done]. intros x Hx _. by rewrite Heq.
  - apply sum_list_change; [done| |done]. intros x Hx _. by rewrite Heq.
Qed.
End sums.
