(* ===== verification/Linear.v ===== *)
(** Sequential specifications, concurrent histories and linearizability.

    [spec] is the abstract object a concurrent structure promises to
    implement; [linearizable] is Herlihy and Wing's condition on a history of
    invocations and responses.  [stamped] is the bookkeeping that an execution
    maintains (a log of the operations that took effect, in order, and the
    read-only operations with the log position they observed), and
    [stamped_linearizable] turns such bookkeeping into a linearization. *)

From S2P Require Export Prelude.
From stdpp Require Import sorting.

(** A sequential object.  The response to an operation is [Some], the only one
    the object gives, or [None], any response that [spec_free] allows; an
    operation that changes the state is then given by [spec_pick] a response to
    stand for it until it returns. *)
Record spec (St Op Resp : Type) := RelSpec {
  spec_init : St;
  spec_step : St → Op → St * option Resp;
  spec_free : St → Op → Resp → Prop;
  spec_pick : St → Op → option Resp;
  spec_pick_free : ∀ s o r, spec_pick s o = Some r → spec_free s o r
}.
Arguments RelSpec {_ _ _}.
Arguments spec_init {_ _ _}.
Arguments spec_step {_ _ _}.
Arguments spec_free {_ _ _}.
Arguments spec_pick {_ _ _}.
Arguments spec_pick_free {_ _ _}.

(** An object that promises nothing about an undetermined response, such as
    that of an approximate counter. *)
Definition Spec {St Op Resp} (init : St) (step : St → Op → St * option Resp)
    : spec St Op Resp :=
  RelSpec init step (λ _ _ _, True) (λ _ _, None) (λ _ _ _ _, I).

(** Histories: [EInv t id o] is the call of [o] by goroutine [t], [id] is the
    position of that event in the history; [ERes t id r] is its return. *)
Inductive event (Op Resp : Type) :=
  | EInv (t id : nat) (o : Op)
  | ERes (t id : nat) (r : Resp).
Arguments EInv {_ _}.
Arguments ERes {_ _}.

Record entry (Op Resp : Type) := Entry {
  e_id : nat;
  e_op : Op;
  e_resp : Resp
}.
Arguments Entry {_ _}.
Arguments e_id {_ _}.
Arguments e_op {_ _}.
Arguments e_resp {_ _}.

Section linearizability.
Context {St Op Resp : Type} (Sp : spec St Op Resp).
Implicit Types (s : St) (L log : list (entry Op Resp)) (H : list (event Op Resp)).
Implicit Types (reads : list (nat * nat * entry Op Resp)).

(** The abstract state after a sequence of operations. *)
Fixpoint run s L : St :=
  match L with
  | [] => s
  | e :: L => run (spec_step Sp s (e_op e)).1 L
  end.

(** The object may answer [r] to [o] in state [s]. *)
Definition answers s (o : Op) (r : Resp) : Prop :=
  match (spec_step Sp s o).2 with
  | Some r' => r' = r
  | None => spec_free Sp s o r
  end.

(** The responses of the sequence are the ones the object gives. *)
Fixpoint legal s L : Prop :=
  match L with
  | [] => True
  | e :: L =>
      answers s (e_op e) (e_resp e)
      ∧ legal (spec_step Sp s (e_op e)).1 L
  end.

Record linearization H L : Prop := {
  lz_legal : legal (spec_init Sp) L;
  lz_nodup : NoDup (e_id <$> L);
  lz_called : ∀ e, e ∈ L → ∃ t, H !! e_id e = Some (EInv t (e_id e) (e_op e));
  lz_complete : ∀ t id r,
    ERes t id r ∈ H → ∃ o, Entry id o r ∈ L;
  lz_realtime : ∀ i j t t' r o a b e e',
    H !! i = Some (ERes t (e_id e) r) → H !! j = Some (EInv t' (e_id e') o) →
    i < j → L !! a = Some e → L !! b = Some e' → a < b
}.

Definition linearizable H : Prop := ∃ L, linearization H L.

(** ** Bookkeeping of an execution

    [lens !! i] is the length of the log when event [i] happened.  A member
    [(n, q, e)] of [reads] is a completed read-only operation that observed
    the abstract state after [n] log entries and returned at event [q]. *)
Record stamped H (lens : list nat) log (reads : list (nat * nat * entry Op Resp))
    : Prop := {
  st_length : length lens = length H;
  st_mono : ∀ i j a b,
    lens !! i = Some a → lens !! j = Some b → i ≤ j → a ≤ b;
  st_bound : ∀ i a, lens !! i = Some a → a ≤ length log;
  st_legal : legal (spec_init Sp) log;
  st_log_inv : ∀ j e, log !! j = Some e →
    ∃ t a, H !! e_id e = Some (EInv t (e_id e) (e_op e))
           ∧ lens !! e_id e = Some a ∧ a ≤ j;
  st_log_res : ∀ j e q t r, log !! j = Some e → H !! q = Some (ERes t (e_id e) r) →
    r = e_resp e ∧ ∃ b, lens !! q = Some b ∧ j < b;
  st_reads_inv : ∀ n q e, (n, q, e) ∈ reads →
    ∃ t a, H !! e_id e = Some (EInv t (e_id e) (e_op e))
           ∧ lens !! e_id e = Some a ∧ a ≤ n;
  st_reads_res : ∀ n q e, (n, q, e) ∈ reads →
    ∃ t b, H !! q = Some (ERes t (e_id e) (e_resp e)) ∧ lens !! q = Some b ∧ n ≤ b;
  st_reads_legal : ∀ n q e, (n, q, e) ∈ reads →
    let s := run (spec_init Sp) (take n log) in
    (spec_step Sp s (e_op e)).1 = s ∧ answers s (e_op e) (e_resp e);
  st_reads_sorted : StronglySorted (λ x y, x.1.2 < y.1.2) reads;
  st_inv_pos : ∀ i t id o, H !! i = Some (EInv t id o) → i = id;
  st_res_after : ∀ q t id r, H !! q = Some (ERes t id r) → id < q;
  st_res_unique : ∀ q q' t t' id r r',
    H !! q = Some (ERes t id r) → H !! q' = Some (ERes t' id r') → q = q';
  st_log_ids : ∀ i j e e', log !! i = Some e → log !! j = Some e' →
    e_id e = e_id e' → i = j;
  st_disjoint : ∀ e n q e', e ∈ log → (n, q, e') ∈ reads → e_id e ≠ e_id e';
  st_complete : ∀ q t id r, H !! q = Some (ERes t id r) →
    (∃ e, e ∈ log ∧ e_id e = id) ∨ (∃ n e, (n, q, e) ∈ reads ∧ e_id e = id)
}.

(** The log entries in order, each read-only operation inserted at the
    position it observed.  An element carries its sort key. *)
Definition read_item (i : nat) (x : nat * nat * entry Op Resp)
    : option (nat * nat * entry Op Resp) :=
  if decide (x.1.1 = i) then Some (2 * i, x.1.2, x.2) else None.

Fixpoint merge (i : nat) log (reads : list (nat * nat * entry Op Resp))
    : list (nat * nat * entry Op Resp) :=
  omap (read_item i) reads ++
  match log with
  | [] => []
  | e :: log' => (2 * i + 1, 0, e) :: merge (S i) log' reads
  end.

Definition key_lt (x y : nat * nat * entry Op Resp) : Prop :=
  x.1.1 < y.1.1 ∨ (x.1.1 = y.1.1 ∧ x.1.2 < y.1.2).

Lemma run_app s L1 L2 : run s (L1 ++ L2) = run (run s L1) L2.
Proof. revert s; induction L1 as [|e L1 IH]; intros s; [done|apply IH]. Qed.

Lemma legal_app s L1 L2 : legal s (L1 ++ L2) ↔ legal s L1 ∧ legal (run s L1) L2.
Proof.
  revert s; induction L1 as [|e L1 IH]; intros s; simpl; [tauto|].
  rewrite IH. tauto.
Qed.

Lemma elem_of_read_items i x reads :
  x ∈ omap (read_item i) reads ↔ ∃ q e, (i, q, e) ∈ reads ∧ x = (2 * i, q, e).
Proof.
  rewrite list_elem_of_omap. unfold read_item. split.
  - intros ([[n q] e] & ? & ?). simpl in *. case_decide; simplify_eq. eauto.
  - intros (q & e & ? & ->). exists (i, q, e). split; [done|].
    simpl. by rewrite decide_True.
Qed.

Lemma elem_of_merge log i reads x :
  x ∈ merge i log reads ↔
    (∃ k e, log !! k = Some e ∧ x = (2 * (i + k) + 1, 0, e)) ∨
    (∃ n q e, (n, q, e) ∈ reads ∧ i ≤ n ≤ i + length log ∧ x = (2 * n, q, e)).
Proof.
  revert i. induction log as [|e log IH]; intros i; simpl;
    rewrite elem_of_app, elem_of_read_items.
  - split.
    + intros [(q & e & ? & ->)|[]%elem_of_nil]. right. exists i, q, e.
      repeat split; auto with lia.
    + intros [(k & e & ? & _)|(n & q & e & ? & ? & ->)]; [done|].
      left. replace n with i in * by lia. eauto.
  - rewrite elem_of_cons, IH. split.
    + intros [(q & e' & ? & ->)|[->|[(k & e' & ? & ->)|(n & q & e' & ? & ? & ->)]]].
      * right. exists i, q, e'. repeat split; auto with lia.
      * left. exists 0, e. split; [done|]. repeat f_equal; lia.
      * left. exists (S k), e'. split; [done|]. repeat f_equal; lia.
      * right. exists n, q, e'. repeat split; auto with lia.
    + intros [([|k] & e' & ? & ->)|(n & q & e' & ? & ? & ->)]; simplify_eq/=.
      * right. left. repeat f_equal; lia.
      * right. right. left. exists k, e'. split; [done|]. repeat f_equal; lia.
      * destruct (decide (n = i)) as [->|]; [left; eauto|].
        right. right. right. exists n, q, e'. repeat split; auto with lia.
Qed.

Lemma read_items_sorted i reads :
  StronglySorted (λ x y, x.1.2 < y.1.2) reads →
  StronglySorted key_lt (omap (read_item i) reads).
Proof.
  induction 1 as [|[[n q] e] reads _ IH Hall]; simpl; [constructor|].
  unfold read_item at 1; simpl. case_decide; [|done]. subst.
  constructor; [done|]. rewrite Forall_forall in Hall |- *.
  intros x (q' & e' & Hin & ->)%elem_of_read_items.
  right. simpl. split; [done|]. by specialize (Hall _ Hin).
Qed.

Lemma merge_sorted log i reads :
  StronglySorted (λ x y, x.1.2 < y.1.2) reads →
  StronglySorted key_lt (merge i log reads).
Proof.
  intros Hs. revert i. induction log as [|e log IH]; intros i; simpl.
  - rewrite app_nil_r. by apply read_items_sorted.
  - apply StronglySorted_app_2; [|by apply read_items_sorted|].
    + intros x y (q & e' & ? & ->)%elem_of_read_items Hy.
      apply elem_of_cons in Hy as [->|Hy]; [left; simpl; lia|].
      apply elem_of_merge in Hy as [(k & ? & _ & ->)|(n & ? & ? & _ & ? & ->)];
        left; simpl; lia.
    + constructor; [apply IH|]. rewrite Forall_forall. intros y Hy.
      apply elem_of_merge in Hy as [(k & ? & _ & ->)|(n & ? & ? & _ & ? & ->)];
        left; simpl; lia.
Qed.

Lemma StronglySorted_lookup (l : list (nat * nat * entry Op Resp)) a b x y :
  StronglySorted key_lt l → l !! a = Some x → l !! b = Some y →
  key_lt x y → a < b.
Proof.
  intros Hs Ha Hb Hlt.
  assert (∀ i j u v, l !! i = Some u → l !! j = Some v → i < j → key_lt u v) as Hord.
  { clear -Hs. induction Hs as [|z l _ IH Hall]; intros i j u v Hi Hj ?; [done|].
    destruct j as [|j]; [lia|]. destruct i as [|i]; simplify_eq/=.
    - rewrite Forall_forall in Hall. eauto using list_elem_of_lookup_2.
    - eapply IH; eauto with lia. }
  destruct (decide (a < b)) as [|Hge]; [done|].
  destruct (decide (a = b)) as [->|].
  - simplify_eq. unfold key_lt in Hlt. lia.
  - pose proof (Hord b a y x Hb Ha ltac:(lia)). unfold key_lt in *. lia.
Qed.

Lemma legal_readonly s L :
  (∀ e, e ∈ L → (spec_step Sp s (e_op e)).1 = s
                ∧ answers s (e_op e) (e_resp e)) →
  legal s L ∧ run s L = s.
Proof.
  induction L as [|e L IH]; intros HL; [done|]; simpl.
  destruct (HL e) as [-> ?]; [by left|].
  destruct IH; [|done]. intros. apply HL. by right.
Qed.

Lemma merge_legal log1 log2 reads :
  (∀ n q e, (n, q, e) ∈ reads →
     let s := run (spec_init Sp) (take n (log1 ++ log2)) in
     (spec_step Sp s (e_op e)).1 = s ∧ answers s (e_op e) (e_resp e)) →
  legal (run (spec_init Sp) log1) log2 →
  legal (run (spec_init Sp) log1) (snd <$> merge (length log1) log2 reads).
Proof.
  revert log1. induction log2 as [|e log2 IH]; intros log1 Hreads Hlegal; simpl;
    rewrite fmap_app, legal_app;
    (destruct (legal_readonly (run (spec_init Sp) log1)
                 (snd <$> omap (read_item (length log1)) reads)) as [? ->];
     [intros e' (? & -> & (q & e'' & Hin & ->)%elem_of_read_items)%list_elem_of_fmap;
      specialize (Hreads _ _ _ Hin); rewrite take_app_length in Hreads; done|]).
  - done.
  - destruct Hlegal as [? Hlegal]. split; [done|]. split; [done|].
    specialize (IH (log1 ++ [e])). rewrite <-app_assoc, length_app in IH. simpl in IH.
    rewrite run_app, Nat.add_1_r in IH. apply IH; done.
Qed.

(** The read-only entries leave the state as it is. *)
Lemma merge_run log1 log2 reads :
  (∀ n q e, (n, q, e) ∈ reads →
     let s := run (spec_init Sp) (take n (log1 ++ log2)) in
     (spec_step Sp s (e_op e)).1 = s ∧ answers s (e_op e) (e_resp e)) →
  run (run (spec_init Sp) log1) (snd <$> merge (length log1) log2 reads) =
  run (spec_init Sp) (log1 ++ log2).
Proof.
  revert log1. induction log2 as [|e log2 IH]; intros log1 Hreads; simpl;
    rewrite fmap_app, run_app;
    (destruct (legal_readonly (run (spec_init Sp) log1)
                 (snd <$> omap (read_item (length log1)) reads)) as [_ ->];
     [intros e' (? & -> & (q & e'' & Hin & ->)%elem_of_read_items)%list_elem_of_fmap;
      specialize (Hreads _ _ _ Hin); rewrite take_app_length in Hreads; done|]).
  - by rewrite app_nil_r.
  - specialize (IH (log1 ++ [e])). rewrite <-app_assoc, length_app in IH. simpl in IH.
    rewrite run_app, Nat.add_1_r in IH. apply IH; done.
Qed.

Lemma merge_key_lt i log reads a b x y :
  StronglySorted (λ x y, x.1.2 < y.1.2) reads →
  merge i log reads !! a = Some x → merge i log reads !! b = Some y →
  a < b → key_lt x y.
Proof.
  intros Hs Ha Hb ?. pose proof (merge_sorted log i _ Hs) as Hm. revert a b Ha Hb H.
  induction Hm as [|z l _ IH Hall]; intros a b Ha Hb ?; [done|].
  destruct b as [|b]; [lia|]. destruct a as [|a]; simplify_eq/=; [|eauto with lia].
  rewrite Forall_forall in Hall. eauto using list_elem_of_lookup_2.
Qed.

Section stamped.
Context H lens log reads (Hst : stamped H lens log reads).

(** Two members with the same operation id are the same member. *)
Lemma stamped_key_inj x y :
  x ∈ merge 0 log reads → y ∈ merge 0 log reads →
  e_id x.2 = e_id y.2 → x.1 = y.1.
Proof.
  intros Hx Hy Hid.
  apply elem_of_merge in Hx as [(k & e & Hk & ->)|(n & q & e & Hr & _ & ->)],
    Hy as [(k' & e' & Hk' & ->)|(n' & q' & e' & Hr' & _ & ->)]; simpl in *.
  - by rewrite (st_log_ids _ _ _ _ Hst _ _ _ _ Hk Hk' Hid).
  - edestruct (st_disjoint _ _ _ _ Hst); eauto using list_elem_of_lookup_2.
  - edestruct (st_disjoint _ _ _ _ Hst); eauto using list_elem_of_lookup_2.
  - destruct (st_reads_res _ _ _ _ Hst _ _ _ Hr) as (t & b & HH & Hb & ?).
    destruct (st_reads_res _ _ _ _ Hst _ _ _ Hr') as (t' & b' & HH' & Hb' & ?).
    rewrite Hid in HH.
    pose proof (st_res_unique _ _ _ _ Hst _ _ _ _ _ _ _ HH HH'). subst q'.
    pose proof (st_reads_sorted _ _ _ _ Hst) as Hs.
    apply list_elem_of_lookup in Hr as [i Hi], Hr' as [j Hj].
    enough (i = j) as -> by naive_solver.
    clear -Hs Hi Hj. revert i j Hi Hj.
    induction Hs as [|z l _ IH Hall]; intros [|i] [|j] Hi Hj; simplify_eq/=; [done|..].
    + rewrite Forall_forall in Hall.
      specialize (Hall _ (list_elem_of_lookup_2 _ _ _ Hj)). simpl in *. lia.
    + rewrite Forall_forall in Hall.
      specialize (Hall _ (list_elem_of_lookup_2 _ _ _ Hi)). simpl in *. lia.
    + f_equal. eauto.
Qed.

Lemma stamped_member e :
  e ∈ snd <$> merge 0 log reads ↔ e ∈ log ∨ ∃ n q, (n, q, e) ∈ reads.
Proof.
  rewrite list_elem_of_fmap. setoid_rewrite elem_of_merge. split.
  - intros (? & -> & [(k & e' & ? & ->)|(n & q & e' & ? & ? & ->)]); simpl;
      eauto using list_elem_of_lookup_2.
  - intros [[k Hk]%list_elem_of_lookup|(n & q & Hr)].
    + eexists (_, e). split; [done|]. left. eauto.
    + eexists (_, e). split; [done|]. right. exists n, q, e. repeat split; [done|lia|].
      destruct (st_reads_res _ _ _ _ Hst _ _ _ Hr) as (t & b & _ & Hb & ?).
      apply (st_bound _ _ _ _ Hst) in Hb. lia.
Qed.

(** A returned operation takes its position before any later call. *)
Lemma stamped_realtime x y q j t t' r o :
  x ∈ merge 0 log reads → y ∈ merge 0 log reads →
  H !! q = Some (ERes t (e_id x.2) r) → H !! j = Some (EInv t' (e_id y.2) o) →
  q < j → key_lt x y.
Proof.
  intros Hx Hy Hq Hj Hlt.
  pose proof (st_inv_pos _ _ _ _ Hst _ _ _ _ Hj) as ->.
  assert (∀ n m, lens !! q = Some n → lens !! e_id y.2 = Some m → n ≤ m) as Hle.
  { intros. eapply (st_mono _ _ _ _ Hst); eauto with lia. }
  assert (∃ n, lens !! q = Some n ∧
    ((x.1 = (2 * n, q) ∨ x.1.1 < 2 * n))) as (n & Hn & Hx').
  { apply elem_of_merge in Hx as [(k & e & Hk & ->)|(n & q1 & e & Hr & _ & ->)];
      simpl in *.
    - destruct (st_log_res _ _ _ _ Hst _ _ _ _ _ Hk Hq) as (_ & b & Hb & ?).
      exists b. split; [done|]. right. lia.
    - destruct (st_reads_res _ _ _ _ Hst _ _ _ Hr) as (t1 & b & Hq1 & Hb & ?).
      pose proof (st_res_unique _ _ _ _ Hst _ _ _ _ _ _ _ Hq Hq1) as ->.
      exists b. split; [done|]. destruct (decide (n = b)) as [->|]; [by left|].
      right. lia. }
  apply elem_of_merge in Hy as [(k & e & Hk & ->)|(n' & q' & e & Hr & _ & ->)];
    simpl in *; unfold key_lt; simpl.
  - destruct (st_log_inv _ _ _ _ Hst _ _ Hk) as (? & a & _ & Ha & ?).
    specialize (Hle _ _ Hn Ha). destruct Hx' as [->|?]; simpl; lia.
  - destruct (st_reads_inv _ _ _ _ Hst _ _ _ Hr) as (? & a & _ & Ha & ?).
    destruct (st_reads_res _ _ _ _ Hst _ _ _ Hr) as (t1 & b & Hq1 & Hb & ?).
    specialize (Hle _ _ Hn Ha).
    pose proof (st_res_after _ _ _ _ Hst _ _ _ _ Hq1).
    destruct Hx' as [->|?]; simpl; lia.
Qed.
End stamped.

Lemma stamped_linearization H lens log reads :
  stamped H lens log reads → linearization H (snd <$> merge 0 log reads).
Proof.
  intros Hst. set (M := merge 0 log reads).
  assert (∀ a b x y, M !! a = Some x → M !! b = Some y → a < b → key_lt x y) as Hord.
  { intros. eapply merge_key_lt; eauto. apply Hst. }
  split.
  - apply (merge_legal [] log reads); [|apply Hst].
    intros n q e Hr. by apply (st_reads_legal _ _ _ _ Hst _ _ _ Hr).
  - apply NoDup_alt. intros i j id.
    rewrite !list_lookup_fmap. intros Hi Hj.
    destruct (M !! i) as [x|] eqn:Ex, (M !! j) as [y|] eqn:Ey; simplify_eq/=.
    assert (x.1 = y.1) as Hk.
    { eapply stamped_key_inj; eauto using list_elem_of_lookup_2. }
    destruct (decide (i < j)) as [?|]; [|destruct (decide (j < i)) as [?|]; [|lia]].
    + pose proof (Hord _ _ _ _ Ex Ey ltac:(lia)) as Hlt. unfold key_lt in Hlt.
      rewrite Hk in Hlt. lia.
    + pose proof (Hord _ _ _ _ Ey Ex ltac:(lia)) as Hlt. unfold key_lt in Hlt.
      rewrite Hk in Hlt. lia.
  - intros e [[k Hk]%list_elem_of_lookup|(n & q & Hr)]%(stamped_member _ _ _ _ Hst).
    + destruct (st_log_inv _ _ _ _ Hst _ _ Hk) as (t & a & ? & _). eauto.
    + destruct (st_reads_inv _ _ _ _ Hst _ _ _ Hr) as (t & a & ? & _). eauto.
  - intros t id r [q Hq]%list_elem_of_lookup.
    destruct (st_complete _ _ _ _ Hst _ _ _ _ Hq)
      as [([id' o r'] & Hin & Hid)|(n & [id' o r'] & Hr & Hid)]; simpl in Hid; subst id'.
    + exists o. apply (stamped_member _ _ _ _ Hst). left.
      pose proof Hin as [k Hk]%list_elem_of_lookup.
      by destruct (st_log_res _ _ _ _ Hst _ _ _ _ _ Hk Hq) as [-> _].
    + exists o. apply (stamped_member _ _ _ _ Hst). right.
      destruct (st_reads_res _ _ _ _ Hst _ _ _ Hr) as (t1 & b & Hq1 & _ & _).
      simplify_eq/=. eauto.
  - intros i j t t' r o a b e e' Hi Hj Hij Ha Hb.
    rewrite list_lookup_fmap in Ha, Hb.
    destruct (M !! a) as [x|] eqn:Ex, (M !! b) as [y|] eqn:Ey; simplify_eq/=.
    eapply StronglySorted_lookup; [eapply merge_sorted; apply Hst|exact Ex|exact Ey|].
    eapply stamped_realtime; eauto using list_elem_of_lookup_2.
Qed.

(** It ends in the state that the log leads to. *)
Lemma stamped_run H lens log reads :
  stamped H lens log reads →
  run (spec_init Sp) (snd <$> merge 0 log reads) = run (spec_init Sp) log.
Proof.
  intros Hst. apply (merge_run [] log reads).
  intros n q e Hr. by apply (st_reads_legal _ _ _ _ Hst _ _ _ Hr).
Qed.

Theorem stamped_linearizable H lens log reads :
  stamped H lens log reads → linearizable H.
Proof. intros Hst. eexists. by eapply stamped_linearization. Qed.

(** ** How the bookkeeping grows along an execution *)

Lemma stamped_nil : stamped [] [] [] [].
Proof.
  split; try (intros; simplify_eq; done); try (intros; set_solver); constructor.
Qed.

Lemma stamped_call H lens log reads t o :
  stamped H lens log reads →
  stamped (H ++ [EInv t (length H) o]) (lens ++ [length log]) log reads.
Proof.
  intros Hst. pose proof (st_length _ _ _ _ Hst) as Hlen. split.
  - rewrite !length_app, Hlen. done.
  - intros i j a b Hi Hj ?. apply lookup_snoc_inv in Hi as [Hi|[-> ->]],
      Hj as [Hj|[-> ->]].
    + eapply (st_mono _ _ _ _ Hst); eauto.
    + by eapply (st_bound _ _ _ _ Hst).
    + apply lookup_lt_Some in Hj. lia.
    + done.
  - intros i a [Hi|[_ ->]]%lookup_snoc_inv; [|done].
    by eapply (st_bound _ _ _ _ Hst).
  - apply Hst.
  - intros j e Hj. destruct (st_log_inv _ _ _ _ Hst _ _ Hj) as (t' & a & ? & ? & ?).
    exists t', a. eauto using lookup_snoc_l.
  - intros j e q t' r Hj [Hq|[_ ?]]%lookup_snoc_inv; [|done].
    destruct (st_log_res _ _ _ _ Hst _ _ _ _ _ Hj Hq) as (? & b & ? & ?).
    eauto using lookup_snoc_l.
  - intros n q e Hr. destruct (st_reads_inv _ _ _ _ Hst _ _ _ Hr) as (t' & a & ? & ? & ?).
    exists t', a. eauto using lookup_snoc_l.
  - intros n q e Hr. destruct (st_reads_res _ _ _ _ Hst _ _ _ Hr) as (t' & a & ? & ? & ?).
    exists t', a. eauto using lookup_snoc_l.
  - apply Hst.
  - apply Hst.
  - intros i t' id o' [Hi|[-> ?]]%lookup_snoc_inv; [|by simplify_eq].
    by eapply (st_inv_pos _ _ _ _ Hst).
  - intros q t' id r [Hq|[_ ?]]%lookup_snoc_inv; [|done].
    by eapply (st_res_after _ _ _ _ Hst).
  - intros q q' t1 t2 id r r' [Hq|[_ ?]]%lookup_snoc_inv
      [Hq'|[_ ?]]%lookup_snoc_inv; try done.
    by eapply (st_res_unique _ _ _ _ Hst).
  - apply Hst.
  - apply Hst.
  - intros q t' id r [Hq|[_ ?]]%lookup_snoc_inv; [|done].
    by eapply (st_complete _ _ _ _ Hst).
Qed.

Lemma stamped_lin H lens log reads t e a :
  stamped H lens log reads →
  H !! e_id e = Some (EInv t (e_id e) (e_op e)) →
  lens !! e_id e = Some a →
  (∀ q t r, H !! q ≠ Some (ERes t (e_id e) r)) →
  (∀ e', e' ∈ log → e_id e' ≠ e_id e) →
  answers (run (spec_init Sp) log) (e_op e) (e_resp e) →
  stamped H lens (log ++ [e]) reads.
Proof.
  intros Hst Hinv Ha Hres Hnew Hall.
  assert (∀ n q e, (n, q, e) ∈ reads → n ≤ length log) as Hreads.
  { intros n q e' Hr. destruct (st_reads_res _ _ _ _ Hst _ _ _ Hr) as (? & b & _ & Hb & ?).
    apply (st_bound _ _ _ _ Hst) in Hb. lia. }
  split; try apply Hst.
  - intros i b Hb%(st_bound _ _ _ _ Hst). rewrite length_app; simpl; lia.
  - apply legal_app. split; [apply Hst|]. simpl. done.
  - intros j e' [Hj|[-> ->]]%lookup_snoc_inv; [by apply (st_log_inv _ _ _ _ Hst)|].
    exists t, a. repeat split; [done..|]. by eapply (st_bound _ _ _ _ Hst).
  - intros j e' q t' r [Hj|[-> ->]]%lookup_snoc_inv Hq;
      [by eapply (st_log_res _ _ _ _ Hst)|]. by destruct (Hres q t' r).
  - intros n q e' Hr. rewrite take_app_le by eauto.
    by apply (st_reads_legal _ _ _ _ Hst _ _ _ Hr).
  - intros i j e1 e2 [Hi|[-> ->]]%lookup_snoc_inv [Hj|[-> ->]]%lookup_snoc_inv Hid.
    + by eapply (st_log_ids _ _ _ _ Hst).
    + destruct (Hnew e1); eauto using list_elem_of_lookup_2.
    + destruct (Hnew e2); eauto using list_elem_of_lookup_2.
    + done.
  - intros e' n q e'' [Hin| ->%list_elem_of_singleton]%elem_of_app Hr.
    + by eapply (st_disjoint _ _ _ _ Hst).
    + intros Hid. destruct (st_reads_res _ _ _ _ Hst _ _ _ Hr) as (t' & ? & Hq & _).
      rewrite <-Hid in Hq. by eapply Hres.
  - intros q t' id r Hq. destruct (st_complete _ _ _ _ Hst _ _ _ _ Hq)
      as [(e' & ? & ?)|?]; [left|by right]. exists e'. split; [|done].
    apply elem_of_app. by left.
Qed.

(** The response of an operation in the log may be replaced by another one the
    object allows, as long as the operation has not returned. *)
Lemma run_ops s L L' : e_op <$> L = e_op <$> L' → run s L = run s L'.
Proof.
  revert s L'. induction L as [|e L IH]; intros s [|e' L'] Heq; simplify_eq/=; [done|].
  rewrite H. by apply IH.
Qed.

Lemma legal_reply s L j id o r0 r :
  legal s L → L !! j = Some (Entry id o r0) → answers (run s (take j L)) o r →
  legal s (<[j := Entry id o r]> L).
Proof.
  revert s j. induction L as [|e L IH]; intros s j HL Hj Hr; [done|].
  destruct HL as [? HL]. destruct j as [|j]; simplify_eq/=; split; try done. by apply IH.
Qed.

Lemma ops_reply L j id o r0 r :
  L !! j = Some (Entry id o r0) → e_op <$> <[j := Entry id o r]> L = e_op <$> L.
Proof.
  intros Hj. rewrite list_fmap_insert. simpl. apply list_insert_id.
  by rewrite list_lookup_fmap, Hj.
Qed.

Lemma lookup_reply L j id o r0 r k e :
  L !! j = Some (Entry id o r0) → <[j := Entry id o r]> L !! k = Some e →
  ∃ e0, L !! k = Some e0 ∧ e_id e0 = e_id e ∧ e_op e0 = e_op e ∧
    (k = j ∧ e = Entry id o r ∨ e0 = e).
Proof.
  intros Hj [(<- & <- & _)|[? ?]]%list_lookup_insert_Some.
  - exists (Entry id o r0). split_and!; [done..|by left].
  - exists e. split_and!; [done..|by right].
Qed.

Lemma stamped_reply H lens log reads j id o r0 r :
  stamped H lens log reads → log !! j = Some (Entry id o r0) →
  (∀ q t r, H !! q ≠ Some (ERes t id r)) →
  answers (run (spec_init Sp) (take j log)) o r →
  stamped H lens (<[j := Entry id o r]> log) reads.
Proof.
  intros Hst Hj Hres Hr. pose proof (λ k e, lookup_reply log j id o r0 r k e Hj) as Hlook.
  split; try apply Hst.
  - intros i a Ha. rewrite length_insert. by apply (st_bound _ _ _ _ Hst _ _ Ha).
  - by eapply legal_reply; [apply Hst|..].
  - intros k e (e0 & Hk & <- & <- & _)%Hlook. by apply (st_log_inv _ _ _ _ Hst).
  - intros k e q t r' (e0 & Hk & Hid & _ & Hor)%Hlook Hq.
    destruct Hor as [[-> ->]|<-]; [by apply Hres in Hq|].
    by eapply (st_log_res _ _ _ _ Hst).
  - intros n q e Hin. rewrite (run_ops _ _ (take n log)); [by eapply (st_reads_legal _ _ _ _ Hst)|].
    rewrite !fmap_take. f_equal. by eapply ops_reply.
  - intros i k e e' (e0 & Hi & <- & _)%Hlook (e1 & Hk & <- & _)%Hlook Heq.
    by eapply (st_log_ids _ _ _ _ Hst).
  - intros e n q e' [k Hk]%list_elem_of_lookup Hin.
    apply Hlook in Hk as (e0 & Hk & <- & _).
    by eapply (st_disjoint _ _ _ _ Hst); [eapply list_elem_of_lookup_2|].
  - intros q t id' r' Hq. destruct (st_complete _ _ _ _ Hst _ _ _ _ Hq)
      as [(e & [k Hk]%list_elem_of_lookup & Hid)|?]; [left|by right].
    destruct (decide (k = j)) as [->|].
    + simplify_eq/=. by apply Hres in Hq.
    + exists e. split; [|done]. apply (list_elem_of_lookup_2 _ k).
      by rewrite list_lookup_insert_ne.
Qed.

(** An operation returns.  [reads'] extends [reads] by at most the returning
    operation, which then observed the state after [n] log entries. *)
Lemma stamped_ret H lens log reads reads' t id o r a :
  stamped H lens log reads →
  H !! id = Some (EInv t id o) →
  lens !! id = Some a →
  (∀ q t r, H !! q ≠ Some (ERes t id r)) →
  (∀ e, e ∈ log → e_id e = id → e_resp e = r) →
  (∀ x, x ∈ reads' → x ∈ reads ∨
     ∃ n, x = (n, length H, Entry id o r) ∧ (∀ e, e ∈ log → e_id e ≠ id) ∧
       a ≤ n ≤ length log ∧
       let s := run (spec_init Sp) (take n log) in
       (spec_step Sp s o).1 = s ∧ answers s o r) →
  (∀ x, x ∈ reads → x ∈ reads') →
  StronglySorted (λ x y, x.1.2 < y.1.2) reads' →
  ((∃ e, e ∈ log ∧ e_id e = id) ∨ ∃ n, (n, length H, Entry id o r) ∈ reads') →
  stamped (H ++ [ERes t id r]) (lens ++ [length log]) log reads'.
Proof.
  intros Hst Hinv Ha Hres Hlogr Hnewr Hsub Hsorted Hcomplete.
  pose proof (st_length _ _ _ _ Hst) as Hlen. split.
  - rewrite !length_app, Hlen. done.
  - intros i j b c Hi Hj ?. apply lookup_snoc_inv in Hi as [Hi|[-> ->]],
      Hj as [Hj|[-> ->]].
    + eapply (st_mono _ _ _ _ Hst); eauto.
    + by eapply (st_bound _ _ _ _ Hst).
    + apply lookup_lt_Some in Hj. lia.
    + done.
  - intros i b [Hi|[_ ->]]%lookup_snoc_inv; [|done].
    by eapply (st_bound _ _ _ _ Hst).
  - apply Hst.
  - intros j e Hj. destruct (st_log_inv _ _ _ _ Hst _ _ Hj) as (t' & b & ? & ? & ?).
    exists t', b. eauto using lookup_snoc_l.
  - intros j e q t' r' Hj [Hq|[-> [= <- <- <-]]]%lookup_snoc_inv.
    + destruct (st_log_res _ _ _ _ Hst _ _ _ _ _ Hj Hq) as (? & b & ? & ?).
      eauto using lookup_snoc_l.
    + split; [symmetry; eapply Hlogr; eauto using list_elem_of_lookup_2|].
      exists (length log). rewrite <-Hlen. split; [apply lookup_snoc_eq|].
      by eapply lookup_lt_Some.
  - intros n q e [Hr|(n' & [= -> -> ->] & _ & ? & _)]%Hnewr.
    + destruct (st_reads_inv _ _ _ _ Hst _ _ _ Hr) as (t' & b & ? & ? & ?).
      exists t', b. eauto using lookup_snoc_l.
    + exists t, a. simpl. repeat split; eauto using lookup_snoc_l. lia.
  - intros n q e [Hr|(n' & [= -> -> ->] & _ & ? & _)]%Hnewr.
    + destruct (st_reads_res _ _ _ _ Hst _ _ _ Hr) as (t' & b & ? & ? & ?).
      exists t', b. eauto using lookup_snoc_l.
    + exists t, (length log). simpl. split; [apply lookup_snoc_eq|].
      rewrite <-Hlen. split; [apply lookup_snoc_eq|lia].
  - intros n q e [Hr|(n' & [= -> -> ->] & _ & _ & ?)]%Hnewr; [|done].
    by apply (st_reads_legal _ _ _ _ Hst _ _ _ Hr).
  - done.
  - intros i t' id' o' [Hi|[_ ?]]%lookup_snoc_inv; [|done].
    by eapply (st_inv_pos _ _ _ _ Hst).
  - intros q t' id' r' [Hq|[-> [= -> -> ->]]]%lookup_snoc_inv.
    + by eapply (st_res_after _ _ _ _ Hst).
    + by eapply lookup_lt_Some.
  - intros q q' t1 t2 id' r1 r2 Hq Hq'.
    apply lookup_snoc_inv in Hq as [Hq|[-> [= -> -> ->]]],
      Hq' as [Hq'|[-> Heq]]; simplify_eq.
    + by eapply (st_res_unique _ _ _ _ Hst).
    + by apply Hres in Hq.
    + by apply Hres in Hq'.
    + done.
  - apply Hst.
  - intros e n q e' Hin [Hr|(n' & [= -> -> ->] & Hfresh & _)]%Hnewr; [|by apply Hfresh].
    by eapply (st_disjoint _ _ _ _ Hst).
  - intros q t' id' r' [Hq|[-> [= -> -> ->]]]%lookup_snoc_inv.
    + destruct (st_complete _ _ _ _ Hst _ _ _ _ Hq) as [?|(n & e & ? & ?)]; [by left|].
      right. eauto.
    + destruct Hcomplete as [?|(n & ?)]; [by left|]. right. by eexists _, _.
Qed.

(** ** Overlapping operations *)

Definition called_ids H : list nat :=
  omap (λ ev, match ev with EInv _ id _ => Some id | ERes _ _ _ => None end) H.

Definition returned_ids H : list nat :=
  omap (λ ev, match ev with EInv _ _ _ => None | ERes _ id _ => Some id end) H.

(** The number of calls in [H] not returned before the call at event [id]. *)
Definition overlap H (id : nat) : nat :=
  length (filter (λ id', id' ∉ returned_ids (take id H)) (called_ids H)).

(** What took effect was called. *)
Lemma log_called H lens log reads :
  stamped H lens log reads → length log ≤ length (called_ids H).
Proof.
  intros Hst. rewrite <-(length_fmap e_id log). apply submseteq_length, NoDup_submseteq.
  - apply NoDup_alt. intros i j x Hi Hj. rewrite list_lookup_fmap in Hi, Hj.
    destruct (log !! i) as [e|] eqn:Ei, (log !! j) as [e'|] eqn:Ej; simplify_eq/=.
    by apply (st_log_ids _ _ _ _ Hst _ _ _ _ Ei Ej).
  - intros x (e & -> & [i Hi]%list_elem_of_lookup)%list_elem_of_fmap.
    destruct (st_log_inv _ _ _ _ Hst _ _ Hi) as (t & a & Hinv & _ & _).
    apply list_elem_of_omap. eexists. split; [by eapply list_elem_of_lookup_2|done].
Qed.

(** What took effect after the call at [id] belongs to calls overlapping it. *)
Lemma log_overlap H lens log reads id lo :
  stamped H lens log reads → lens !! id = Some lo →
  length (drop lo log) ≤ overlap H id.
Proof.
  intros Hst Hlo. rewrite <-(length_fmap e_id (drop lo log)).
  apply submseteq_length, NoDup_submseteq.
  - apply NoDup_alt. intros i j x Hi Hj. rewrite list_lookup_fmap, lookup_drop in Hi, Hj.
    destruct (log !! (lo + i)) as [e|] eqn:Ei, (log !! (lo + j)) as [e'|] eqn:Ej;
      simplify_eq/=.
    pose proof (st_log_ids _ _ _ _ Hst _ _ _ _ Ei Ej ltac:(done)). lia.
  - intros x (e & -> & [i Hi]%list_elem_of_lookup)%list_elem_of_fmap.
    rewrite lookup_drop in Hi. apply list_elem_of_filter.
    destruct (st_log_inv _ _ _ _ Hst _ _ Hi) as (t & a & Hinv & _ & _). split.
    + intros (ev & Hev & Hr)%list_elem_of_omap.
      destruct ev as [|t' id' r]; simplify_eq.
      apply list_elem_of_lookup in Hev as [q Hq].
      apply lookup_take_Some in Hq as [Hq Hlt].
      destruct (st_log_res _ _ _ _ Hst _ _ _ _ _ Hi Hq) as (_ & b & Hb & ?).
      pose proof (st_mono _ _ _ _ Hst _ _ _ _ Hb Hlo ltac:(lia)). lia.
    + apply list_elem_of_omap. eexists. split; [by eapply list_elem_of_lookup_2|done].
Qed.

(** ** States during an operation

    [s] is a state of the object between the events [i] and [j], in the
    linearization [L]: the one after operations of which none was called after
    [j] and which include all that returned before [i]. *)
Definition span H L (i j : nat) s : Prop := ∃ L1 L2,
  L = L1 ++ L2 ∧ run (spec_init Sp) L1 = s ∧ (∀ e, e ∈ L1 → e_id e < j) ∧
  ∀ e q t r, e ∈ L2 → H !! q = Some (ERes t (e_id e) r) → i < q.

(** The sorted items before and after event [c]. *)
Lemma read_items_cut i c reads :
  StronglySorted (λ x y, x.1.2 < y.1.2) reads → ∃ I1 I2,
  omap (read_item i) reads = I1 ++ I2 ∧
  (∀ x, x ∈ I1 → x.1.2 < c) ∧ ∀ x, x ∈ I2 → c ≤ x.1.2.
Proof.
  intros Hs. pose proof (read_items_sorted i _ Hs) as Hk.
  assert (∀ x, x ∈ omap (read_item i) reads → x.1.1 = 2 * i) as Hi.
  { by intros x (q & e & _ & ->)%elem_of_read_items. }
  induction Hk as [|x l _ IH Hall].
  { exists [], []. split; [done|]. by split; intros x ?%elem_of_nil. }
  destruct IH as (I1 & I2 & -> & H1 & H2); [intros; apply Hi; by right|].
  rewrite Forall_forall in Hall. destruct (decide (x.1.2 < c)) as [Hx|Hx].
  - exists (x :: I1), I2. split; [done|]. split; [|done]. by intros y [->|?%H1]%elem_of_cons.
  - exists [], (x :: I1 ++ I2). split; [done|]. split; [by intros y ?%elem_of_nil|].
    intros y [->|Hy]%elem_of_cons; [lia|]. pose proof (Hall y Hy) as Hlt. unfold key_lt in Hlt.
    rewrite (Hi x), (Hi y) in Hlt by (by left || by right). lia.
Qed.

(** The merged list up to the operations of [log1], and the reads that observed
    their effect and returned before [c]. *)
Lemma merge_cut c log0 log1 log2 reads :
  StronglySorted (λ x y, x.1.2 < y.1.2) reads →
  (∀ n q e, (n, q, e) ∈ reads →
     let s := run (spec_init Sp) (take n (log0 ++ log1 ++ log2)) in
     (spec_step Sp s (e_op e)).1 = s ∧ answers s (e_op e) (e_resp e)) →
  let n := length (log0 ++ log1) in ∃ M1 M2,
  merge (length log0) (log1 ++ log2) reads = M1 ++ M2 ∧
  run (run (spec_init Sp) log0) (snd <$> M1) = run (spec_init Sp) (log0 ++ log1) ∧
  (∀ x, x ∈ M1 → x.1.1 < 2 * n ∨ x.1.1 = 2 * n ∧ x.1.2 < c) ∧
  ∀ x, x ∈ M2 → 2 * n < x.1.1 ∨ x.1.1 = 2 * n ∧ c ≤ x.1.2.
Proof.
  intros Hs. revert log0. induction log1 as [|e log1 IH]; intros log0 Hr n.
  all: assert (∀ I1, (∀ x, x ∈ I1 → x ∈ omap (read_item (length log0)) reads) →
    run (run (spec_init Sp) log0) (snd <$> I1) = run (spec_init Sp) log0) as Hrun.
  1,3: intros I1 HI1; apply legal_readonly; intros e' (x & -> & Hx%HI1)%list_elem_of_fmap;
    apply elem_of_read_items in Hx as (q & e'' & Hin & ->); specialize (Hr _ _ _ Hin);
    by rewrite take_app_length in Hr.
  - destruct (read_items_cut (length log0) c _ Hs) as (I1 & I2 & Heq & H1 & H2).
    assert (∀ x, x ∈ I1 ++ I2 → x.1.1 = 2 * n) as Hi.
    { rewrite <-Heq. unfold n. rewrite app_nil_r. by intros x (q & e' & _ & ->)%elem_of_read_items. }
    assert (merge (length log0) log2 reads = I1 ++ (I2 ++ match log2 with [] => [] |
      e :: l => (2 * length log0 + 1, 0, e) :: merge (S (length log0)) l reads end)) as Hm.
    { by destruct log2; simpl; rewrite Heq, <-app_assoc. }
    eexists I1, _. split; [exact Hm|]. rewrite app_nil_r. split.
    { apply Hrun. intros x Hx. rewrite Heq. apply elem_of_app. by left. }
    split; [intros x Hx; right; split; [apply Hi, elem_of_app; by left|by apply H1]|].
    intros x [Hx|Hx]%elem_of_app; [right; split; [apply Hi, elem_of_app; by right|by apply H2]|left].
    unfold n. rewrite app_nil_r. destruct log2 as [|e l]; [by apply elem_of_nil in Hx|].
    apply elem_of_cons in Hx as [->|Hx]; [simpl; lia|].
    apply elem_of_merge in Hx as [(k & e' & _ & ->)|(m & q & e' & _ & ? & ->)]; simpl; lia.
  - destruct (IH (log0 ++ [e])) as (M1 & M2 & Heq & Hst & H1 & H2).
    { intros m q e' Hin. rewrite <-app_assoc. by apply (Hr _ _ _ Hin). }
    rewrite <-app_assoc in Hst, H1, H2. simpl in *. rewrite length_app, Nat.add_1_r in Heq.
    exists (omap (read_item (length log0)) reads ++ (2 * length log0 + 1, 0, e) :: M1), M2.
    split; [by rewrite <-app_assoc, Heq|]. split.
    { rewrite fmap_app, run_app, Hrun by done. simpl. rewrite run_app in Hst. exact Hst. }
    split; [|done].
    assert (length log0 < n) as Hn by (unfold n; rewrite length_app; simpl; lia).
    intros x [(q & e' & _ & ->)%elem_of_read_items|[->|Hx]%elem_of_cons]%elem_of_app;
      [simpl; lia..|by apply H1].
Qed.

(** The states that the bookkeeping passed through between two events. *)
Lemma stamped_span H lens log reads i j t id o lo hi n :
  stamped H lens log reads → H !! i = Some (EInv t id o) →
  lens !! i = Some lo → lens !! j = Some hi → i ≤ j → lo ≤ n ≤ hi →
  span H (snd <$> merge 0 log reads) i j (run (spec_init Sp) (take n log)).
Proof.
  intros Hst Hi Hlo Hhi Hij Hn. pose proof (st_bound _ _ _ _ Hst _ _ Hhi) as Hhl.
  destruct (merge_cut i [] (take n log) (drop n log) reads) as (M1 & M2 & Heq & Hrun & H1 & H2);
    [apply Hst|intros m q e Hin; simpl; rewrite take_drop; by apply (st_reads_legal _ _ _ _ Hst _ _ _ Hin)|].
  simpl in *. rewrite take_drop in Heq. rewrite length_take_le in H1, H2 by lia.
  assert (∀ p a, lens !! p = Some a → a < hi → p < j) as Hbefore.
  { intros p a Hp Ha. destruct (decide (p < j)); [done|].
    pose proof (st_mono _ _ _ _ Hst _ _ _ _ Hhi Hp ltac:(lia)). lia. }
  assert (∀ q b, lens !! q = Some b → lo < b → i < q) as Hafter.
  { intros q b Hq Hb. destruct (decide (i < q)); [done|].
    pose proof (st_mono _ _ _ _ Hst _ _ _ _ Hq Hlo ltac:(lia)). lia. }
  exists (snd <$> M1), (snd <$> M2). split; [by rewrite Heq, fmap_app|]. split; [done|]. split.
  - intros e (x & -> & Hx)%list_elem_of_fmap. pose proof (H1 x Hx) as Hkey.
    assert (x ∈ merge 0 log reads) as Hin by (rewrite Heq; apply elem_of_app; by left).
    apply elem_of_merge in Hin as [(k & e & Hk & ->)|(m & q & e & Hr & _ & ->)]; simpl in *.
    + destruct (st_log_inv _ _ _ _ Hst _ _ Hk) as (_ & a & _ & Ha & ?). apply (Hbefore _ a Ha). lia.
    + destruct (st_reads_inv _ _ _ _ Hst _ _ _ Hr) as (_ & a & _ & Ha & ?).
      destruct Hkey as [?|[_ ?]]; [apply (Hbefore _ a Ha); lia|].
      destruct (st_reads_res _ _ _ _ Hst _ _ _ Hr) as (t' & b & Hq & _).
      apply (st_res_after _ _ _ _ Hst) in Hq. lia.
  - intros e q t' r (x & -> & Hx)%list_elem_of_fmap Hq. pose proof (H2 x Hx) as Hkey.
    assert (x ∈ merge 0 log reads) as Hin by (rewrite Heq; apply elem_of_app; by right).
    apply elem_of_merge in Hin as [(k & e & Hk & ->)|(m & q' & e & Hr & _ & ->)]; simpl in *.
    + destruct (st_log_res _ _ _ _ Hst _ _ _ _ _ Hk Hq) as (_ & b & Hb & ?). apply (Hafter _ b Hb). lia.
    + destruct (st_reads_res _ _ _ _ Hst _ _ _ Hr) as (t1 & b & Hq' & Hb & ?).
      pose proof (st_res_unique _ _ _ _ Hst _ _ _ _ _ _ _ Hq Hq') as ->.
      destruct Hkey as [?|[_ ?]]; [apply (Hafter _ b Hb); lia|].
      destruct (decide (q' = i)) as [->|]; [by simplify_eq|lia].
Qed.
End linearizability.
