(* ===== verification/Prog.v ===== *)
(** Goroutine code: programs over a shared memory.

    A program is a tree of atomic actions on the shared memory.  An action is a
    function of the memory: it returns its result and the new memory, or [None]
    where the Go code panics (a nil dereference, an index out of range).  A
    [for] loop is the constructor [Loop]: its body returns [inl a] to go round
    again with loop variables [a] and [inr b] to leave the loop with [b]. *)

From S2P Require Export Prelude.
From Stdlib Require Import FunctionalExtensionality.

Section prog.
Context {Mem : Type}.

Inductive prog (R : Type) : Type :=
  | Ret (r : R)
  | Act {X : Type} (a : Mem → option (X * Mem)) (k : X → prog R)
  | Loop {A B : Type} (body : A → prog (A + B)) (a : A) (k : B → prog R).

Global Arguments Ret {_} _.
Global Arguments Act {_ _} _ _.
Global Arguments Loop {_ _ _} _ _ _.

Fixpoint bind {R R'} (p : prog R) (f : R → prog R') : prog R' :=
  match p with
  | Ret r => f r
  | Act a k => Act a (λ x, bind (k x) f)
  | Loop body a k => Loop body a (λ b, bind (k b) f)
  end.

(** One atomic action; a whole loop; leaving and repeating a loop. *)
Definition act {X} (a : Mem → option (X * Mem)) : prog X := Act a Ret.
Definition loop {A B} (body : A → prog (A + B)) (a : A) : prog B := Loop body a Ret.

(** The code a loop stands for when it is entered with variables [a]. *)
Definition unfold_loop {A B R} (body : A → prog (A + B)) (k : B → prog R) (a : A)
    : prog R :=
  bind (body a) (λ x, match x with inl a' => Loop body a' k | inr b => k b end).

Lemma bind_bind {R R' R''} (p : prog R) (f : R → prog R') (g : R' → prog R'') :
  bind (bind p f) g = bind p (λ x, bind (f x) g).
Proof.
  revert R' R'' f g.
  induction p as [R r|R X a k IH|R A B body _ a k IH]; intros R' R'' f g; simpl;
    [done|f_equal; apply functional_extensionality; intros; apply IH..].
Qed.

Lemma bind_ext {R R'} (p : prog R) (f g : R → prog R') :
  (∀ x, f x = g x) → bind p f = bind p g.
Proof. intros H. f_equal. by apply functional_extensionality. Qed.

Lemma loop_ext {A B} (body body' : A → prog (A + B)) (a : A) :
  (∀ x, body x = body' x) → loop body a = loop body' a.
Proof. intros H. unfold loop. f_equal. by apply functional_extensionality. Qed.

Lemma Act_ext {R X} (a : Mem → option (X * Mem)) (k k' : X → prog R) :
  (∀ x, k x = k' x) → Act a k = Act a k'.
Proof. intros H. f_equal. by apply functional_extensionality. Qed.

(** A failure of the code itself: dereferencing nil in a pure computation. *)
Definition panic {R} : prog R := Act (λ _, None) (λ e : Empty_set, match e with end).

Lemma bind_panic {R R'} (f : R → prog R') : bind panic f = panic.
Proof. apply Act_ext. by intros []. Qed.

Lemma bind_unfold_loop {A B R R'} body (k : B → prog R) (a : A) (f : R → prog R') :
  bind (unfold_loop body k a) f = unfold_loop body (λ b, bind (k b) f) a.
Proof.
  unfold unfold_loop. rewrite bind_bind. f_equal.
  apply functional_extensionality. by intros [].
Qed.
End prog.

Arguments prog : clear implicits.

Declare Scope prog_scope.
Delimit Scope prog_scope with prog.
Notation "'let!' x := p 'in' q" := (bind p (λ x, q))
  (at level 10, x name, p at level 100, q at level 200,
   format "'[v' 'let!'  x  :=  p  'in' '/' q ']'") : prog_scope.
Notation "p ;;; q" := (bind p (λ _, q))
  (at level 199, q at level 200, right associativity,
   format "'[v' p  ;;; '/' q ']'") : prog_scope.
Notation "'continue' a" := (Ret (inl a)) (at level 10, a at level 9) : prog_scope.
Notation "'break' b" := (Ret (inr b)) (at level 10, b at level 9) : prog_scope.
Open Scope prog_scope.
