(* ===== verification/Machine.v ===== *)
(** Concurrent execution.

    [exec] runs a schedule: goroutines call operations of the object, and their
    code takes one atomic step at a time in any order.  A [world] adds to the
    shared memory the ghost state of a proof: the log of the operations that
    took effect and, for each goroutine, its pending operation. *)

From S2P Require Export Linear Prog.
From stdpp Require Import sorting.

(** ** The machine *)

(** An implementation: the initial memory, the code that goroutine [t] runs
    for an operation, and the contract on who may call what: [ob_allowed t n o m]
    says whether [t] may call [o] when the memory is [m] and the history has
    [n] events. *)
Record object (Mem Op Resp : Type) := Object {
  ob_init : Mem;
  ob_code : nat → Op → prog Mem Resp;
  ob_allowed : nat → nat → Op → Mem → bool
}.
Arguments Object {_ _ _}.
Arguments ob_init {_ _ _}.
Arguments ob_code {_ _ _}.
Arguments ob_allowed {_ _ _}.

Section machine.
Context {Mem Op Resp : Type} (I : object Mem Op Resp).

(** A pending operation: its id, the code left to run, the steps taken. *)
Record running := Running {
  r_id : nat;
  r_op : Op;
  r_prog : prog Mem Resp;
  r_steps : nat
}.

Record sys := Sys {
  sy_mem : Mem;
  sy_thr : gmap nat running;
  sy_hist : list (event Op Resp)
}.

Inductive cmd :=
  | Call (t : nat) (o : Op)
  | Step (t : nat).

Inductive outcome :=
  | Fine (s : sys)
  | Refused
  | Crash.

Definition exec1 (c : cmd) (s : sys) : outcome :=
  match c with
  | Call t o =>
      match sy_thr s !! t with
      | Some _ => Refused
      | None =>
          let id := length (sy_hist s) in
          if ob_allowed I t id o (sy_mem s) then
            Fine (Sys (sy_mem s)
                   (<[t := Running id o (ob_code I t o) 0]> (sy_thr s))
                   (sy_hist s ++ [EInv t id o]))
          else Refused
      end
  | Step t =>
      match sy_thr s !! t with
      | None => Refused
      | Some r =>
          match r_prog r with
          | Ret v => Fine (Sys (sy_mem s) (delete t (sy_thr s))
                             (sy_hist s ++ [ERes t (r_id r) v]))
          | Act a k =>
              match a (sy_mem s) with
              | None => Crash
              | Some (x, m) =>
                  Fine (Sys m (<[t := Running (r_id r) (r_op r) (k x) (S (r_steps r))]>
                                 (sy_thr s)) (sy_hist s))
              end
          | Loop body a k =>
              Fine (Sys (sy_mem s)
                     (<[t := Running (r_id r) (r_op r) (unfold_loop body k a)
                               (S (r_steps r))]> (sy_thr s)) (sy_hist s))
          end
      end
  end.

Fixpoint exec (cs : list cmd) (s : sys) : outcome :=
  match cs with
  | [] => Fine s
  | c :: cs => match exec1 c s with Fine s' => exec cs s' | res => res end
  end.

Definition start : sys := Sys (ob_init I) ∅ [].

(** The schedule [cs] runs the object from its initial state to [s]. *)
Definition reaches (cs : list cmd) (s : sys) : Prop := exec cs start = Fine s.

(** Observations of a run that evaluate without its code: the history it
    leaves, whether every operation returned, the steps [t] took so far. *)
Definition run_history (cs : list cmd) : option (list (event Op Resp)) :=
  match exec cs start with Fine s => Some (sy_hist s) | _ => None end.

Definition run_quiet (cs : list cmd) : bool :=
  match exec cs start with Fine s => bool_decide (dom (sy_thr s) = ∅) | _ => false end.

Definition run_steps (cs : list cmd) (t : nat) : option nat :=
  match exec cs start with Fine s => r_steps <$> sy_thr s !! t | _ => None end.

Lemma run_history_reaches cs H :
  run_history cs = Some H → ∃ s, reaches cs s ∧ sy_hist s = H.
Proof.
  unfold run_history, reaches. destruct (exec cs start) as [s| |]; intros; simplify_eq.
  eauto.
Qed.

Definition run_mem (cs : list cmd) : option Mem :=
  match exec cs start with Fine s => Some (sy_mem s) | _ => None end.

Lemma run_mem_reaches cs m : run_mem cs = Some m → ∃ s, reaches cs s ∧ sy_mem s = m.
Proof.
  unfold run_mem, reaches. destruct (exec cs start) as [s| |]; intros; simplify_eq. eauto.
Qed.

Lemma run_quiet_reaches cs : run_quiet cs = true → ∃ s, reaches cs s ∧ sy_thr s = ∅.
Proof.
  unfold run_quiet, reaches. destruct (exec cs start) as [s| |]; intros Hq; try done.
  apply bool_decide_eq_true, dom_empty_inv_L in Hq. eauto.
Qed.

Lemma run_steps_reaches cs t n :
  run_steps cs t = Some n →
  ∃ s r, reaches cs s ∧ sy_thr s !! t = Some r ∧ r_steps r = n.
Proof.
  unfold run_steps, reaches. destruct (exec cs start) as [s| |]; intros Hn; try done.
  apply fmap_Some in Hn as (r & ? & ->). eauto.
Qed.

Lemma exec_app cs1 cs2 s :
  exec (cs1 ++ cs2) s = match exec cs1 s with Fine s' => exec cs2 s' | res => res end.
Proof.
  revert s. induction cs1 as [|c cs1 IH]; intros s; simpl; [done|].
  by destruct (exec1 c s).
Qed.
End machine.

Arguments running : clear implicits.
Arguments sys : clear implicits.
Arguments cmd : clear implicits.
Arguments outcome : clear implicits.
Arguments Running {_ _ _}.
Arguments r_id {_ _ _}.
Arguments r_op {_ _ _}.
Arguments r_prog {_ _ _}.
Arguments r_steps {_ _ _}.
Arguments Sys {_ _ _}.
Arguments sy_mem {_ _ _}.
Arguments sy_thr {_ _ _}.
Arguments sy_hist {_ _ _}.
Arguments Call {_}.
Arguments Step {_}.
Arguments Fine {_ _ _}.
Arguments Refused {_ _ _}.
Arguments Crash {_ _ _}.

(** ** Ghost state *)

(** A pending operation as the proof sees it: [p_lo] is the length of the log
    at its call, [p_lin] what is known once it has taken effect: its response,
    or its position in the log when the response is still open. *)
Record pend (Op Resp : Type) := Pend {
  p_id : nat;
  p_op : Op;
  p_lo : nat;
  p_lin : option (Resp + nat)
}.
Arguments Pend {_ _}.
Arguments p_id {_ _}.
Arguments p_op {_ _}.
Arguments p_lo {_ _}.
Arguments p_lin {_ _}.

(** [g_now] counts the events of the history; [g_hist] is that history, each
    event with the length of the log when it happened. *)
Record ghost (Op Resp : Type) := Ghost {
  g_log : list (entry Op Resp);
  g_thr : gmap nat (pend Op Resp);
  g_now : nat;
  g_hist : list (event Op Resp * nat)
}.
Arguments Ghost {_ _}.
Arguments g_log {_ _}.
Arguments g_thr {_ _}.
Arguments g_now {_ _}.
Arguments g_hist {_ _}.

Record world (Mem Op Resp X : Type) := World {
  w_mem : Mem;
  w_gh : ghost Op Resp;
  w_aux : X
}.
Arguments World {_ _ _ _}.
Arguments w_mem {_ _ _ _}.
Arguments w_gh {_ _ _ _}.
Arguments w_aux {_ _ _ _}.

Section ghost_ops.
Context {St Op Resp : Type} (Sp : spec St Op Resp).
Implicit Types g : ghost Op Resp.

(** The abstract state: the specification run over the log. *)
Definition g_state g : St := run Sp (spec_init Sp) (g_log g).

(** The pending operation of [t] takes effect now. *)
Definition lin1 g (t : nat) : ghost Op Resp :=
  match g_thr g !! t with
  | Some (Pend id o lo None) =>
      match (spec_step Sp (g_state g) o).2 with
      | Some r => Ghost (g_log g ++ [Entry id o r])
                    (<[t := Pend id o lo (Some (inl r))]> (g_thr g)) (g_now g) (g_hist g)
      | None =>
          match spec_pick Sp (g_state g) o with
          | Some r => Ghost (g_log g ++ [Entry id o r])
                        (<[t := Pend id o lo (Some (inr (length (g_log g))))]> (g_thr g))
                        (g_now g) (g_hist g)
          | None => g
          end
      end
  | _ => g
  end.

Definition lins (ts : list nat) g : ghost Op Resp := foldl lin1 g ts.

Definition g_call (t id : nat) (o : Op) g : ghost Op Resp :=
  Ghost (g_log g) (<[t := Pend id o (length (g_log g)) None]> (g_thr g)) (S (g_now g))
    (g_hist g ++ [(EInv t id o, length (g_log g))]).

Definition g_ret (t : nat) (r : Resp) g : ghost Op Resp :=
  Ghost (g_log g) (delete t (g_thr g)) (S (g_now g))
    (g_hist g ++ [(ERes t (from_option p_id 0 (g_thr g !! t)) r, length (g_log g))]).

(** A response the operation may give: the one it took effect with, or one
    that the state in which it took effect allows or, when it never changed the
    abstract state, one justified by an abstract state observed between its call
    and its return. *)
Definition ret_ok g (p : pend Op Resp) (r : Resp) : Prop :=
  match p_lin p with
  | Some (inl r') => r' = r
  | Some (inr n) => answers Sp (run Sp (spec_init Sp) (take n (g_log g))) (p_op p) r
  | None => ∃ n, p_lo p ≤ n ≤ length (g_log g) ∧
      let s := run Sp (spec_init Sp) (take n (g_log g)) in
      (spec_step Sp s (p_op p)).1 = s ∧ answers Sp s (p_op p) r
  end.
End ghost_ops.

(** ** What a goroutine knows about its own operation *)

Section thread_facts.
Context {St Op Resp : Type} (Sp : spec St Op Resp).
Implicit Types g : ghost Op Resp.

(** The others neither complete nor forget the operation of [t]. *)
Definition quiet (t : nat) g g' : Prop :=
  g_thr g' !! t = g_thr g !! t ∧ g_log g `prefix_of` g_log g'.

(** The pending operation of [t] is [o] and has not taken effect. *)
Definition pending g (t : nat) (o : Op) : Prop :=
  ∃ id lo, g_thr g !! t = Some (Pend id o lo None) ∧ lo ≤ length (g_log g).

(** The pending operation of [t] took effect with response [r]. *)
Definition finished g (t : nat) (r : Resp) : Prop :=
  ∃ id o lo, g_thr g !! t = Some (Pend id o lo (Some (inl r))).

(** The pending operation [o] of [t] took effect as entry [n] of the log, with
    its response still open. *)
Definition opened g (t : nat) (o : Op) (n : nat) : Prop :=
  ∃ id lo, g_thr g !! t = Some (Pend id o lo (Some (inr n))) ∧ n < length (g_log g).

Global Instance quiet_preorder t : PreOrder (quiet t).
Proof.
  split; [done|]. intros g1 g2 g3 [? ?] [? ?]. split; [congruence|by etrans].
Qed.

Lemma quiet_refl t g : quiet t g g.
Proof. reflexivity. Qed.

Lemma quiet_lin1 t u g : u ≠ t → quiet t g (lin1 Sp g u).
Proof.
  intros Hne. unfold lin1. destruct (g_thr g !! u) as [[id o lo [r|]]|]; try done.
  destruct (spec_step _ _ _).2; [|destruct (spec_pick _ _ _); [|done]];
    (split; simpl; [by rewrite lookup_insert_ne by done|apply prefix_snoc]).
Qed.

Lemma quiet_call t u id o g : u ≠ t → quiet t g (g_call u id o g).
Proof. intros Hne. split; simpl; [by rewrite lookup_insert_ne by done|done]. Qed.

Lemma quiet_ret t u r g : u ≠ t → quiet t g (g_ret u r g).
Proof. intros Hne. split; simpl; [by rewrite lookup_delete_ne by done|done]. Qed.

(** The others may complete the operation of [t] on its behalf, but do not
    replace it or change a response. *)
Definition helped (t : nat) g g' : Prop :=
  g_log g `prefix_of` g_log g' ∧
  match g_thr g !! t with
  | None => g_thr g' !! t = None
  | Some p => ∃ p', g_thr g' !! t = Some p' ∧ p_id p' = p_id p ∧ p_op p' = p_op p ∧
      p_lo p' = p_lo p ∧ (p_lin p = None ∨ p_lin p' = p_lin p)
  end.

Global Instance helped_preorder t : PreOrder (helped t).
Proof.
  split.
  - intros g. split; [done|]. destruct (g_thr g !! t); eauto 10.
  - intros g1 g2 g3 [? H1] [? H2]. split; [by etrans|].
    destruct (g_thr g1 !! t) as [p1|].
    + destruct H1 as (p2 & H1 & ? & ? & ? & ?). rewrite H1 in H2.
      destruct H2 as (p3 & ? & ? & ? & ? & ?). exists p3.
      repeat split; [congruence..|]. naive_solver congruence.
    + by rewrite H1 in H2.
Qed.

Lemma quiet_helped t g g' : quiet t g g' → helped t g g'.
Proof. intros [Heq ?]. split; [done|]. rewrite Heq. destruct (g_thr g !! t); eauto 10. Qed.

Lemma helped_lin1 t u g : helped t g (lin1 Sp g u).
Proof.
  unfold lin1. destruct (g_thr g !! u) as [[id o lo [r|]]|] eqn:Eu; try reflexivity.
  assert (∀ l e, helped t g
    (Ghost (g_log g ++ [e]) (<[u := Pend id o lo (Some l)]> (g_thr g)) (g_now g) (g_hist g))).
  { intros l e. split; simpl; [apply prefix_snoc|].
    destruct (decide (t = u)) as [->|].
    - rewrite Eu. rewrite lookup_insert_eq. eauto 10.
    - rewrite lookup_insert_ne by done. destruct (g_thr g !! t); eauto 10. }
  destruct (spec_step _ _ _).2; [done|]. by destruct (spec_pick _ _ _).
Qed.

Lemma finished_helped g g' t r : finished g t r → helped t g g' → finished g' t r.
Proof.
  intros (id & o & lo & Ht) [_ H]. rewrite Ht in H.
  destruct H as ([id' o' lo' l'] & ? & ? & ? & ? & [?|?]); simplify_eq/=.
  by exists id, o, lo.
Qed.

Lemma pending_quiet g g' t o : pending g t o → quiet t g g' → pending g' t o.
Proof.
  intros (id & lo & Ht & ?) [Heq Hp]. exists id, lo. rewrite Heq. split; [done|].
  apply prefix_length in Hp. lia.
Qed.

Lemma finished_quiet g g' t r : finished g t r → quiet t g g' → finished g' t r.
Proof. intros (id & o & lo & ?) [Heq _]. exists id, o, lo. by rewrite Heq. Qed.

Lemma opened_helped g g' t o n : opened g t o n → helped t g g' → opened g' t o n.
Proof.
  intros (id & lo & Ht & Hn) [Hp%prefix_length H]. rewrite Ht in H.
  destruct H as ([id' o' lo' l'] & ? & ? & ? & ? & [?|?]); simplify_eq/=.
  exists id, lo. split; [done|lia].
Qed.

Lemma pending_call g t id o : pending (g_call t id o g) t o.
Proof.
  exists id, (length (g_log g)). simpl. by rewrite lookup_insert_eq.
Qed.

(** Taking effect, for the abstract state and for the goroutine. *)
Lemma lin1_pending g t o r :
  pending g t o → (spec_step Sp (g_state Sp g) o).2 = Some r →
  finished (lin1 Sp g t) t r ∧
  g_state Sp (lin1 Sp g t) = (spec_step Sp (g_state Sp g) o).1 ∧
  length (g_log (lin1 Sp g t)) = S (length (g_log g)) ∧
  (∀ u, g_thr (lin1 Sp g t) !! u = None ↔ g_thr g !! u = None).
Proof.
  intros (id & lo & Ht & _) Hr. unfold lin1. rewrite Ht, Hr. unfold g_state at 1.
  simpl. split; [|split; [|split]].
  - exists id, o, lo. simpl. by rewrite lookup_insert_eq.
  - by rewrite run_app.
  - rewrite length_app. simpl. lia.
  - intros u. destruct (decide (u = t)) as [->|].
    + by rewrite lookup_insert_eq, Ht.
    + by rewrite lookup_insert_ne by done.
Qed.

Lemma lin1_dom g t o r u :
  pending g t o → (spec_step Sp (g_state Sp g) o).2 = Some r →
  g_thr (lin1 Sp g t) !! u = None → g_thr g !! u = None ∧ u ≠ t.
Proof.
  intros Hp Hr Hu. destruct (lin1_pending _ _ _ _ Hp Hr) as (Hf & _ & _ & Hdom).
  apply Hdom in Hu as Hu'. split; [done|]. intros ->.
  destruct Hf as (? & ? & ? & Hf). by rewrite Hf in Hu.
Qed.

(** Taking effect with an open response. *)
Lemma lin1_open g t o r :
  pending g t o → (spec_step Sp (g_state Sp g) o).2 = None →
  spec_pick Sp (g_state Sp g) o = Some r →
  opened (lin1 Sp g t) t o (length (g_log g)) ∧
  g_state Sp (lin1 Sp g t) = (spec_step Sp (g_state Sp g) o).1 ∧
  (∃ e, g_log (lin1 Sp g t) = g_log g ++ [e]) ∧
  (∀ u, g_thr (lin1 Sp g t) !! u = None ↔ g_thr g !! u = None).
Proof.
  intros (id & lo & Ht & _) Hs Hr. unfold lin1. rewrite Ht, Hs, Hr. unfold g_state at 1.
  simpl. split; [|split; [|split; [by eexists|]]].
  - exists id, lo. simpl. rewrite lookup_insert_eq, length_app. simpl. split; [done|lia].
  - by rewrite run_app.
  - intros u. destruct (decide (u = t)) as [->|].
    + by rewrite lookup_insert_eq, Ht.
    + by rewrite lookup_insert_ne by done.
Qed.

(** A read-only operation observed the abstract state after [n] operations,
    at some moment since its call. *)
Definition observed g (t : nat) (o : Op) (r : Resp) : Prop :=
  ∃ id lo n, g_thr g !! t = Some (Pend id o lo None) ∧ lo ≤ n ≤ length (g_log g) ∧
    let s := run Sp (spec_init Sp) (take n (g_log g)) in
    (spec_step Sp s o).1 = s ∧ answers Sp s o r.

Lemma observed_now g t o r :
  pending g t o → (spec_step Sp (g_state Sp g) o).1 = g_state Sp g →
  answers Sp (g_state Sp g) o r → observed g t o r.
Proof.
  intros (id & lo & Ht & Hlo) Hs Hr. exists id, lo, (length (g_log g)).
  rewrite firstn_all. auto.
Qed.

Lemma observed_quiet g g' t o r : observed g t o r → quiet t g g' → observed g' t o r.
Proof.
  intros (id & lo & n & Ht & Hn & Hs) [Heq Hp]. exists id, lo, n.
  rewrite Heq, (take_of_prefix _ _ _ Hp) by lia. apply prefix_length in Hp.
  split; [done|]. split; [lia|done].
Qed.

Lemma observed_ret_ok g t o r :
  observed g t o r → ∃ p, g_thr g !! t = Some p ∧ ret_ok Sp g p r.
Proof. intros (id & lo & n & Ht & Hn & Hs). eexists. split; [done|]. by exists n. Qed.

Lemma g_state_call g t id o : g_state Sp (g_call t id o g) = g_state Sp g.
Proof. done. Qed.

Lemma g_state_ret g t r : g_state Sp (g_ret t r g) = g_state Sp g.
Proof. done. Qed.

Lemma finished_ret_ok g t r :
  finished g t r → ∃ p, g_thr g !! t = Some p ∧ ret_ok Sp g p r.
Proof. intros (id & o & lo & ?). eexists. split; [done|]. done. Qed.

Lemma opened_ret_ok g t o n r :
  opened g t o n → answers Sp (run Sp (spec_init Sp) (take n (g_log g))) o r →
  ∃ p, g_thr g !! t = Some p ∧ ret_ok Sp g p r.
Proof. intros (id & lo & ? & _) Hr. eexists. by split. Qed.

(** An operation whose response the specification leaves open. *)
Lemma pending_ret_ok_open g t o r :
  pending g t o → (∀ s, (spec_step Sp s o).1 = s ∧ answers Sp s o r) →
  ∃ p, g_thr g !! t = Some p ∧ ret_ok Sp g p r.
Proof.
  intros (id & lo & Ht & Hlo) Hopen. eexists. split; [done|]. simpl.
  exists (length (g_log g)). split; [simpl; lia|]. simpl.
  apply Hopen.
Qed.
End thread_facts.

#[export] Hint Resolve quiet_refl quiet_lin1 quiet_call quiet_ret : lockfree.
#[export] Hint Resolve quiet_helped helped_lin1 finished_helped opened_helped : lockfree.
#[export] Hint Resolve pending_quiet finished_quiet observed_quiet pending_call : lockfree.
