(* ===== verification/Logic.v ===== *)
(** The proof rules for concurrent objects.

    A rely/guarantee logic over worlds (shared memory, linearization log and
    object-specific ghost state).  [wp] is verified code, [verified] is what an
    object has to prove, and the theorems at the end say what follows for every
    schedule: no panic, a linearizable history, the invariant, and a bound on
    the steps of an operation, absolute for a wait-free object and relative to
    the progress of the others for a lock-free one. *)

From S2P Require Export Machine.
From stdpp Require Import sorting.

(** How the goroutines sharing an object cooperate: the invariant of every
    reachable world, and what each goroutine may rely on the others to respect. *)
Record protocol (Mem Op Resp X : Type) := Protocol {
  pr_inv : world Mem Op Resp X → Prop;
  pr_rely : nat → relation (world Mem Op Resp X);
  pr_order : ∀ t, PreOrder (pr_rely t)
}.
Arguments Protocol {_ _ _ _}.
Arguments pr_inv {_ _ _ _}.
Arguments pr_rely {_ _ _ _}.
Arguments pr_order {_ _ _ _}.
#[export] Existing Instance pr_order.

(** ** Step budgets

    [Free] code may run forever.  [Steps n] code has [n] steps left.  Code with
    [Refill n L] has [n] steps left, and gets a full allowance again once an
    operation took effect after the first [L] of the log. *)
Inductive budget :=
  | Free
  | Steps (n : nat)
  | Refill (n L : nat).

(** What an object promises: nothing, every operation finishes in [n] steps, or
    every operation finishes in [K len] steps unless others take effect, where
    [len] is the number of operations that took effect before. *)
Inductive progress :=
  | Blocking
  | WaitFree (n : nat)
  | LockFreeIn (K : nat → nat).

Abbreviation LockFree K := (LockFreeIn (λ _, K)).

(** The allowances of [n] refills, the first at log length [a]. *)
Fixpoint credit (K : nat → nat) (a n : nat) : nat :=
  match n with
  | 0 => 0
  | S n => K a + credit K (S a) n
  end.

Lemma credit_add K a n m : credit K a (n + m) = credit K a n + credit K (a + n) m.
Proof.
  revert a. induction n as [|n IH]; intros a; simpl; [by rewrite Nat.add_0_r|].
  rewrite IH. replace (S a + n) with (a + S n) by lia. lia.
Qed.

Lemma credit_const K a n : credit (λ _, K) a n = n * K.
Proof. revert a. induction n as [|n IH]; intros a; simpl; [done|]. by rewrite IH. Qed.

Lemma credit_mono K a n b :
  (∀ i, a ≤ i < a + n → K i ≤ b) → credit K a n ≤ b * n.
Proof.
  revert a. induction n as [|n IH]; intros a HK; simpl; [lia|].
  pose proof (HK a ltac:(lia)). specialize (IH (S a)).
  rewrite Nat.mul_succ_r. enough (credit K (S a) n ≤ b * n) by lia.
  apply IH. intros i Hi. apply HK. lia.
Qed.

(** A refill in place of all the allowances since [L]. *)
Lemma credit_refill K lo L len :
  lo ≤ L → L < len →
  credit K lo (S (L - lo)) + K len ≤ credit K lo (S (len - lo)).
Proof.
  intros. replace (S (len - lo)) with (S (L - lo) + (len - L)) by lia.
  rewrite credit_add. replace (lo + S (L - lo)) with (S L) by lia.
  replace (len - L) with ((len - L - 1) + 1) by lia. rewrite credit_add.
  replace (S L + (len - L - 1)) with len by lia. simpl. lia.
Qed.

Definition budget_step (b : budget) : option budget :=
  match b with
  | Free => Some Free
  | Steps 0 | Refill 0 _ => None
  | Steps (S n) => Some (Steps n)
  | Refill (S n) L => Some (Refill n L)
  end.

Definition initial_budget (pg : progress) (len : nat) : budget :=
  match pg with
  | Blocking => Free
  | WaitFree n => Steps n
  | LockFreeIn K => Refill (K len) len
  end.

(** The budget [b] may be used as [b'] when the log has length [len]: refilled,
    or with fewer steps. *)
Definition usable (pg : progress) (len : nat) (b b' : budget) : Prop :=
  b' = b ∨
  (∃ K n m L, pg = LockFreeIn K ∧ b = Refill n L ∧ L < len ∧ m ≤ K len ∧ b' = Refill m len) ∨
  (∃ n m, m ≤ n ∧ (b = Steps n ∧ b' = Steps m ∨ ∃ L, b = Refill n L ∧ b' = Refill m L)).

Lemma usable_refl pg len b : usable pg len b b.
Proof. by left. Qed.

Lemma usable_trans pg len b1 b2 b3 :
  usable pg len b1 b2 → usable pg len b2 b3 → usable pg len b1 b3.
Proof.
  intros [->|[(K & n & m & L & -> & -> & ? & ? & ->)|(n & m & ? & [[-> ->]|(L & -> & ->)])]]; [done|..].
  - intros [->|[(K' & n' & m' & L' & ? & ? & ? & ? & ?)|(n' & m' & ? & [[? ?]|(L' & ? & ->)])]];
      [right; left; eauto 10|simplify_eq; lia|done|].
    right. left. simplify_eq. eexists K, n, m', _. split_and!; try done; lia.
  - intros [->|[(? & ? & ? & ? & _ & ? & _)|(n' & m' & ? & [[? ->]|(L' & ? & _)])]];
      [right; right; eauto 10|done| |done].
    right. right. exists n, m'. simplify_eq. split; [lia|by left].
  - intros [->|[(K & n' & m' & L' & -> & ? & ? & ? & ->)|(n' & m' & ? & [[? _]|(L' & ? & ->)])]];
      [right; right; eauto 10| |done|]; simplify_eq.
    + right. left. eexists K, n, m', _. split_and!; try done.
    + right. right. exists n, m'. split; [lia|right]. by eexists.
Qed.

(** ** Verified code *)

Section wp.
Context {Mem St Op Resp X : Type} (Sp : spec St Op Resp).
Abbreviation world := (world Mem Op Resp X).
Context (Π : protocol Mem Op Resp X) (pg : progress).
Abbreviation Inv := (pr_inv Π).
Abbreviation R := (pr_rely Π).

Definition w_len (w : world) : nat := length (g_log (w_gh w)).

(** One step of verified code of goroutine [t]: from any world the others may
    have produced, the action does not panic, re-establishes the invariant
    after operations [us] took effect, and respects what the others rely on. *)
Definition wp_step (t : nat) {A} (Q : budget → A → world → Prop)
    (Φ : budget → prog Mem A → world → Prop)
    (b : budget) (p : prog Mem A) (w : world) : Prop :=
  ∀ w', R t w w' → Inv w' → ∃ b1, usable pg (w_len w') b b1 ∧
  match p with
  | Ret r => Q b1 r w'
  | Act a k => ∃ b' v m us x,
      budget_step b1 = Some b' ∧ a (w_mem w') = Some (v, m) ∧
      let w'' := World m (lins Sp us (w_gh w')) x in
      Inv w'' ∧ (∀ u, u ≠ t → R u w' w'') ∧ Φ b' (k v) w''
  | Loop body a k => ∃ b',
      budget_step b1 = Some b' ∧ Φ b' (unfold_loop body k a) w'
  end.

(** Verified code is the greatest predicate closed under [wp_step]. *)
Definition wp (t : nat) {A} (Q : budget → A → world → Prop)
    (b : budget) (p : prog Mem A) (w : world) : Prop :=
  ∃ Φ, Φ b p w ∧ ∀ b p w, Φ b p w → wp_step t Q Φ b p w.

Section rules.
Context (t : nat) {A : Type}.
Implicit Types Q : budget → A → world → Prop.

Lemma wp_step_mono Q (Φ Ψ : budget → prog Mem A → world → Prop) b p w :
  (∀ b p w, Φ b p w → Ψ b p w) → wp_step t Q Φ b p w → wp_step t Q Ψ b p w.
Proof.
  intros Himp Hs w' HRw HI. destruct (Hs w' HRw HI) as (b1 & Hu & Hp).
  exists b1. split; [done|]. destruct p; [done|..].
  - destruct Hp as (b' & v & m & us & x & ? & ? & ? & ? & ?). exists b', v, m, us, x.
    naive_solver.
  - destruct Hp as (b' & ? & ?). exists b'. naive_solver.
Qed.

Lemma wp_unfold Q b p w : wp t Q b p w ↔ wp_step t Q (wp t Q) b p w.
Proof.
  split.
  - intros (Φ & HΦ & Hcl). eapply wp_step_mono; [|by apply Hcl].
    intros b' p' w' ?. by exists Φ.
  - intros Hs. exists (wp_step t Q (wp t Q)). split; [done|].
    intros b' p' w'. apply wp_step_mono. intros b'' p'' w'' (Φ & HΦ & Hcl).
    eapply wp_step_mono; [|by apply Hcl]. intros ????. by exists Φ.
Qed.

Lemma wp_stable Q b p w w' : wp t Q b p w → R t w w' → wp t Q b p w'.
Proof.
  rewrite !wp_unfold. intros Hs ? w'' ? ?. apply Hs; [|done]. by etrans.
Qed.

(** The budget may be exchanged for a usable one first. *)
Lemma wp_usable Q b p w :
  (∀ w', R t w w' → Inv w' → ∃ b1, usable pg (w_len w') b b1 ∧ wp t Q b1 p w') →
  wp t Q b p w.
Proof.
  intros Hs. apply wp_unfold. intros w' HRw HI.
  destruct (Hs w' HRw HI) as (b1 & Hu & Hp). rewrite wp_unfold in Hp.
  destruct (Hp w' ltac:(reflexivity) HI) as (b2 & ? & ?).
  exists b2. split; [by eapply usable_trans|done].
Qed.

Lemma wp_refill Q K n L p w :
  pg = LockFree K →
  (∀ w', R t w w' → Inv w' → L < w_len w' ∧ wp t Q (Refill K (w_len w')) p w') →
  wp t Q (Refill n L) p w.
Proof.
  intros Hpg Hs. apply wp_usable. intros w' HRw HI. destruct (Hs w' HRw HI).
  eexists. split; [right; left; eexists _, _, _, _; split_and!; [exact Hpg|done..]|done].
Qed.

Lemma wp_refill_in Q K n L p w :
  pg = LockFreeIn K →
  (∀ w', R t w w' → Inv w' → L < w_len w' ∧ wp t Q (Refill (K (w_len w')) (w_len w')) p w') →
  wp t Q (Refill n L) p w.
Proof.
  intros Hpg Hs. apply wp_usable. intros w' HRw HI. destruct (Hs w' HRw HI).
  eexists. split; [right; left; eexists _, _, _, _; split_and!; [exact Hpg|done..]|done].
Qed.

(** Steps that are not needed may be given up. *)
Lemma wp_give_up Q n m p w : m ≤ n → wp t Q (Steps m) p w → wp t Q (Steps n) p w.
Proof.
  intros Hle Hp. apply wp_usable. intros w' HRw HI. exists (Steps m).
  split; [right; right; eauto 10|by eapply wp_stable].
Qed.

Lemma wp_less Q n m L p w : m ≤ n → wp t Q (Refill m L) p w → wp t Q (Refill n L) p w.
Proof.
  intros Hle Hp. apply wp_usable. intros w' HRw HI. exists (Refill m L).
  split; [right; right; eauto 10|by eapply wp_stable].
Qed.

Lemma wp_ret Q b r w :
  (∀ w', R t w w' → Inv w' → Q b r w') → wp t Q b (Ret r) w.
Proof.
  intros HQ. apply wp_unfold. intros w' ? ?. exists b. split; [apply usable_refl|].
  by apply HQ.
Qed.

Lemma wp_act {B} Q b b' (a : Mem → option (B * Mem)) k w :
  budget_step b = Some b' →
  (∀ w', R t w w' → Inv w' → ∃ v m us x,
     a (w_mem w') = Some (v, m) ∧
     let w'' := World m (lins Sp us (w_gh w')) x in
     Inv w'' ∧ (∀ u, u ≠ t → R u w' w'') ∧ wp t Q b' (k v) w'') →
  wp t Q b (Act a k) w.
Proof.
  intros Hb Hs. apply wp_unfold. intros w' HRw HI. exists b.
  split; [apply usable_refl|].
  destruct (Hs w' HRw HI) as (v & m & us & x & ?). by exists b', v, m, us, x.
Qed.

(** An action that only reads the memory. *)
Lemma wp_read {B} Q b b' (a : Mem → option (B * Mem)) k w :
  budget_step b = Some b' →
  (∀ w', R t w w' → Inv w' → ∃ v,
     a (w_mem w') = Some (v, w_mem w') ∧ wp t Q b' (k v) w') →
  wp t Q b (Act a k) w.
Proof.
  intros Hb Hs. eapply wp_act; [done|]. intros w' HRw HI.
  destruct (Hs w' HRw HI) as (v & ? & ?). exists v, (w_mem w'), [], (w_aux w').
  by destruct w'.
Qed.

Lemma wp_loop_unfold {B C} Q b b' (body : B → prog Mem (B + C)) k a w :
  budget_step b = Some b' →
  (∀ w', R t w w' → Inv w' → wp t Q b' (unfold_loop body k a) w') →
  wp t Q b (Loop body a k) w.
Proof.
  intros Hb Hs. apply wp_unfold. intros w' HRw HI. exists b.
  split; [apply usable_refl|]. exists b'. eauto.
Qed.

Lemma wp_mono Q Q' b p w :
  (∀ b r w, Inv w → Q b r w → Q' b r w) → wp t Q b p w → wp t Q' b p w.
Proof.
  intros HQ (Φ & HΦ & Hcl). exists Φ. split; [done|]. intros b' p' w' H w'' HR HI.
  destruct (Hcl _ _ _ H w'' HR HI) as (b1 & ? & Hp). exists b1. split; [done|].
  destruct p'; naive_solver.
Qed.

(** A fact that nobody's steps spoil holds throughout. *)
Lemma wp_frame Q (S : world → Prop) b p w :
  (∀ u w w', R u w w' → S w → S w') → S w → wp t Q b p w →
  wp t (λ b r w, Q b r w ∧ S w) b p w.
Proof.
  intros HS HSw Hp. exists (λ b p w, S w ∧ wp t Q b p w). split; [done|].
  clear b p w HSw Hp. intros b p w [HSw Hp] w' HRw HI. rewrite wp_unfold in Hp.
  destruct (Hp w' HRw HI) as (b1 & Hu & Hp1). exists b1. split; [done|].
  pose proof (HS _ _ _ HRw HSw) as HSw'. destruct p as [r|Y a k|Y Z body a k]; [done|..].
  - destruct Hp1 as (b' & v & m & us & x & Hb & Ha & HI' & HR' & Hk).
    exists b', v, m, us, x. do 4 (split; [done|]). split; [|done].
    apply (HS (Datatypes.S t) w'); [apply HR'; lia|done].
  - destruct Hp1 as (b' & ? & ?). by exists b'.
Qed.
End rules.

Lemma wp_bind t {A B} (Q : budget → B → world → Prop) b
    (p : prog Mem A) (f : A → prog Mem B) w :
  wp t (λ b r w, wp t Q b (f r) w) b p w → wp t Q b (bind p f) w.
Proof.
  intros Hp.
  exists (λ b q w, wp t Q b q w ∨
           ∃ p, q = bind p f ∧ wp t (λ b r w, wp t Q b (f r) w) b p w).
  split; [right; by exists p|]. clear b p w Hp. intros b q w [Hq|(p & -> & Hp)].
  - eapply wp_step_mono; [|by apply wp_unfold]. auto.
  - rewrite wp_unfold in Hp. intros w' HRw HI.
    destruct (Hp w' HRw HI) as (b1 & Hu & Hp1).
    destruct p as [r|Y a k|C D body a k]; simpl.
    + rewrite wp_unfold in Hp1.
      destruct (Hp1 w' ltac:(reflexivity) HI) as (b2 & Hu2 & Hp2).
      exists b2. split; [by eapply usable_trans|]. destruct (f r); naive_solver.
    + destruct Hp1 as (b' & v & m & us & x & ? & ? & ? & ? & ?).
      exists b1. split; [done|]. exists b', v, m, us, x. naive_solver.
    + destruct Hp1 as (b' & ? & ?). exists b1. split; [done|].
      exists b'. split; [done|]. right. rewrite <-bind_unfold_loop. eauto.
Qed.

(** Loops: an invariant of the loop variables and the budget that the body
    preserves.  Going round costs a step, so a budget ends the loop. *)
Lemma wp_loop t {A B C} (Q : budget → A → world → Prop)
    (LI : budget → B → world → Prop) (body : B → prog Mem (B + C)) k b a w :
  (∀ b a w, LI b a w → Inv w → ∃ b', budget_step b = Some b' ∧
     wp t (λ b x w, match x with inl a' => LI b a' w | inr c => wp t Q b (k c) w end)
       b' (body a) w) →
  (∀ b a w w', LI b a w → R t w w' → LI b a w') →
  LI b a w → wp t Q b (Loop body a k) w.
Proof.
  intros Hbody Hstable HLI.
  set (Q' := λ b x w,
         match x with inl a' => LI b a' w | inr c => wp t Q b (k c) w end).
  set (g := λ x : B + C, match x with inl a' => Loop body a' k | inr c => k c end).
  exists (λ b q w, wp t Q b q w ∨ (∃ a, q = Loop body a k ∧ LI b a w) ∨
           ∃ p, q = bind p g ∧ wp t Q' b p w).
  split; [right; left; eauto|]. clear b a w HLI.
  intros b q w [Hq|[(a & -> & HLI)|(p & -> & Hp)]].
  - eapply wp_step_mono; [|by apply wp_unfold]. auto.
  - intros w' HRw HI. exists b. split; [apply usable_refl|].
    destruct (Hbody b a w') as (b' & ? & ?); [by eapply Hstable|done|].
    exists b'. split; [done|]. right. right. by exists (body a).
  - rewrite wp_unfold in Hp. intros w' HRw HI.
    destruct (Hp w' HRw HI) as (b1 & Hu & Hp1).
    destruct p as [[a'|c]|Y a' k'|D E body' a' k']; simpl in *.
    + exists b1. split; [done|]. destruct (Hbody b1 a' w' Hp1 HI) as (b' & ? & ?).
      exists b'. split; [done|]. right. right. by exists (body a').
    + rewrite wp_unfold in Hp1.
      destruct (Hp1 w' ltac:(reflexivity) HI) as (b2 & ? & Hp2).
      exists b2. split; [by eapply usable_trans|]. destruct (k c); naive_solver.
    + destruct Hp1 as (b' & v & m & us & x & ? & ? & ? & ? & ?).
      exists b1. split; [done|]. exists b', v, m, us, x. naive_solver.
    + destruct Hp1 as (b' & ? & ?). exists b1. split; [done|]. exists b'.
      split; [done|]. right. right. rewrite <-bind_unfold_loop. eauto.
Qed.

(** ** Verified objects *)

(** What the code of goroutine [t] must establish when it returns [r]. *)
Definition post (t : nat) (_ : budget) (r : Resp) (w : world) : Prop :=
  ∃ p, g_thr (w_gh w) !! t = Some p ∧ ret_ok Sp (w_gh w) p r ∧
    ∃ x, let w' := World (w_mem w) (g_ret t r (w_gh w)) x in
      Inv w' ∧ ∀ u, u ≠ t → R u w w'.

Record verified (I : object Mem Op Resp) : Prop := {
  v_init : ∃ x, Inv (World (ob_init I) (Ghost [] ∅ 0 []) x);
  v_call : ∀ t id o w,
    Inv w → g_thr (w_gh w) !! t = None → id = g_now (w_gh w) →
    ob_allowed I t id o (w_mem w) = true →
    ∃ x, let w' := World (w_mem w) (g_call t id o (w_gh w)) x in
      Inv w' ∧ (∀ u, u ≠ t → R u w w') ∧
      wp t (post t) (initial_budget pg (w_len w)) (ob_code I t o) w'
}.
End wp.

Section adequacy.
Context {Mem St Op Resp X : Type} (Sp : spec St Op Resp).
Abbreviation world := (world Mem Op Resp X).
Context (Π : protocol Mem Op Resp X).
Abbreviation Inv := (pr_inv Π).
Abbreviation R := (pr_rely Π).
Context (I : object Mem Op Resp) (pg : progress).

(** The steps taken by an operation called when the log had length [lo], and
    the budget [b] it has left when the log has length [len]. *)
Definition budget_ok (steps lo len : nat) (b : budget) : Prop :=
  match pg, b with
  | Blocking, Free => True
  | WaitFree n, Steps m => steps + m ≤ n
  | LockFreeIn K, Refill m L =>
      lo ≤ L ≤ len ∧ steps + m ≤ credit K lo (S (L - lo))
  | _, _ => False
  end.

(** Two logs of the same operations; the responses may differ. *)
Definition same_ops (log log' : list (entry Op Resp)) : Prop :=
  Forall2 (λ e e', e_id e = e_id e' ∧ e_op e = e_op e') log log'.

(** A pending operation's ghost record agrees with the history. *)
Definition pend_ok (H : list (event Op Resp)) (lens : list nat)
    (log : list (entry Op Resp)) (t : nat) (p : pend Op Resp) : Prop :=
  H !! p_id p = Some (EInv t (p_id p) (p_op p)) ∧
  lens !! p_id p = Some (p_lo p) ∧
  (∀ q t r, H !! q ≠ Some (ERes t (p_id p) r)) ∧
  match p_lin p with
  | None => ∀ e, e ∈ log → e_id e ≠ p_id p
  | Some (inl r) => (∃ e, e ∈ log ∧ e_id e = p_id p) ∧
              ∀ e, e ∈ log → e_id e = p_id p → e_resp e = r
  | Some (inr n) => ∃ r, log !! n = Some (Entry (p_id p) (p_op p) r)
  end.

Definition thread_ok (w : world) (t : nat) (r : running Mem Op Resp) : Prop :=
  ∃ p b, g_thr (w_gh w) !! t = Some p ∧ p_id p = r_id r ∧ p_op p = r_op r ∧
    budget_ok (r_steps r) (p_lo p) (w_len w) b ∧
    wp Sp Π pg t (post Sp Π t) b (r_prog r) w.

(** The invariant of the whole machine.  The log [log] of the bookkeeping has the
    actual response of an operation that took effect with an open one. *)
Definition sys_ok (s : sys Mem Op Resp) : Prop := ∃ w lens reads log,
  w_mem w = sy_mem s ∧ Inv w ∧ same_ops log (g_log (w_gh w)) ∧
  stamped Sp (sy_hist s) lens log reads ∧
  (∀ t p, g_thr (w_gh w) !! t = Some p → pend_ok (sy_hist s) lens log t p) ∧
  (∀ t, sy_thr s !! t = None ↔ g_thr (w_gh w) !! t = None) ∧
  g_now (w_gh w) = length (sy_hist s) ∧
  g_hist (w_gh w) = zip (sy_hist s) lens ∧
  (∀ t r, sy_thr s !! t = Some r → thread_ok w t r).

Lemma budget_ok_initial lo : budget_ok 0 lo lo (initial_budget pg lo).
Proof.
  unfold budget_ok, initial_budget. destruct pg; rewrite ?Nat.sub_diag; simpl; lia.
Qed.

Lemma budget_ok_step steps lo len b b1 b' :
  budget_ok steps lo len b → usable pg len b b1 → budget_step b1 = Some b' →
  budget_ok (S steps) lo len b'.
Proof.
  unfold budget_ok.
  intros Hb [->|[(K & n & m & L & -> & -> & ? & ? & ->)|(n & m & ? & [[-> ->]|(L & -> & ->)])]] Hs.
  - destruct pg as [|N|K], b as [|[|m]|[|m] L]; simplify_eq/=; try done; lia.
  - destruct m as [|m]; simplify_eq/=.
    destruct Hb as [[? ?] Hb]. split; [lia|].
    pose proof (credit_refill K lo L len ltac:(lia) ltac:(lia)). simpl in *. lia.
  - destruct pg as [|N|K], m as [|m]; simplify_eq/=; try done; lia.
  - destruct pg as [|N|K], m as [|m]; simplify_eq/=; try done; lia.
Qed.

Lemma budget_ok_grow steps lo len len' b :
  budget_ok steps lo len b → len ≤ len' → budget_ok steps lo len' b.
Proof.
  unfold budget_ok. destruct pg as [|N|K], b as [|m|m L]; try done. intros [? ?] ?.
  split; [lia|done].
Qed.

Lemma pend_ids_distinct H lens log t t' p p' :
  pend_ok H lens log t p → pend_ok H lens log t' p' → t ≠ t' → p_id p ≠ p_id p'.
Proof. intros (Hp & _) (Hp' & _) ? Heq. rewrite Heq in Hp. by simplify_eq. Qed.

Lemma same_ops_run log log' n s :
  same_ops log log' → run Sp s (take n log) = run Sp s (take n log').
Proof.
  intros Hsame. apply run_ops. rewrite !fmap_take. f_equal.
  induction Hsame as [|e e' ? ? [_ ?] _ IH]; [done|]. rewrite !fmap_cons. by f_equal.
Qed.

Lemma same_ops_state log g : same_ops log (g_log g) → run Sp (spec_init Sp) log = g_state Sp g.
Proof.
  intros Hsame. pose proof (same_ops_run _ _ (length log) (spec_init Sp) Hsame) as Heq.
  rewrite firstn_all, (Forall2_length _ _ _ Hsame), firstn_all in Heq. done.
Qed.

(** An operation of the others enters the log, or gets its response there. *)
Lemma pend_ok_snoc H lens log t p e :
  pend_ok H lens log t p → p_id p ≠ e_id e → pend_ok H lens (log ++ [e]) t p.
Proof.
  intros (? & ? & ? & Hlin) Hid. split_and!; [done..|].
  destruct (p_lin p) as [[r|n]|].
  - destruct Hlin as [(e0 & ? & ?) Hlin]. split; [exists e0; split; [set_solver|done]|].
    intros e' [He| ->%list_elem_of_singleton]%elem_of_app ?; [by apply Hlin|congruence].
  - destruct Hlin as [r Hn]. exists r. by apply lookup_snoc_l.
  - intros e' [He| ->%list_elem_of_singleton]%elem_of_app; [by apply Hlin|congruence].
Qed.

Lemma pend_ok_reply H lens log t p j id o r0 r :
  pend_ok H lens log t p → log !! j = Some (Entry id o r0) → p_id p ≠ id →
  pend_ok H lens (<[j := Entry id o r]> log) t p.
Proof.
  intros (? & ? & ? & Hlin) Hj Hid. split_and!; [done..|].
  destruct (p_lin p) as [[r'|n]|].
  - destruct Hlin as [(e0 & [k Hk]%list_elem_of_lookup & ?) Hlin]. split.
    + exists e0. split; [|done]. apply (list_elem_of_lookup_2 _ k).
      rewrite list_lookup_insert_ne; [done|]. intros ->. by simplify_eq/=.
    + intros e' [k' Hk']%list_elem_of_lookup ?.
      apply (lookup_reply _ _ _ _ _ _ _ _ Hj) in Hk' as (e1 & Hk' & ? & ? & [[-> ->]|<-]);
        [done|]. apply Hlin; [by eapply list_elem_of_lookup_2|done].
  - destruct Hlin as [r' Hn]. exists r'. rewrite list_lookup_insert_ne; [done|].
    intros ->. by simplify_eq/=.
  - intros e' [k' Hk']%list_elem_of_lookup.
    apply (lookup_reply _ _ _ _ _ _ _ _ Hj) in Hk' as (e1 & Hk' & <- & _).
    apply Hlin. by eapply list_elem_of_lookup_2.
Qed.

Lemma same_ops_reply log log' j id o r0 r :
  same_ops log log' → log !! j = Some (Entry id o r0) →
  same_ops (<[j := Entry id o r]> log) log'.
Proof.
  intros Hsame Hj. apply Forall2_same_length_lookup. apply Forall2_same_length_lookup in Hsame as [Hlen Hsame].
  split; [by rewrite length_insert|]. intros k e e' Hk Hk'.
  apply (lookup_reply _ _ _ _ _ _ _ _ Hj) in Hk as (e1 & Hk & <- & <- & _).
  by eapply Hsame.
Qed.

(** Taking effect keeps the bookkeeping. *)
Lemma lin1_ok H lens log reads g t :
  stamped Sp H lens log reads → same_ops log (g_log g) →
  (∀ t p, g_thr g !! t = Some p → pend_ok H lens log t p) →
  ∃ log', stamped Sp H lens log' reads ∧ same_ops log' (g_log (lin1 Sp g t)) ∧
  (∀ u p, g_thr (lin1 Sp g t) !! u = Some p → pend_ok H lens log' u p).
Proof.
  intros Hst Hsame Hp. unfold lin1. destruct (g_thr g !! t) as [[id o lo [r|]]|] eqn:Et;
    [by eexists| |by eexists].
  pose proof (Hp _ _ Et) as (Hinv & Hlo & Hres & Hnew). simpl in *.
  assert (∀ r l, answers Sp (g_state Sp g) o r →
    pend_ok H lens (log ++ [Entry id o r]) t (Pend id o lo (Some l)) →
    ∃ log', stamped Sp H lens log' reads ∧ same_ops log' (g_log g ++ [Entry id o r]) ∧
    (∀ u p, <[t := Pend id o lo (Some l)]> (g_thr g) !! u = Some p →
       pend_ok H lens log' u p)) as Htake.
  { intros r l Hr Hl. exists (log ++ [Entry id o r]). split; [|split].
    - eapply stamped_lin; simpl; eauto. by rewrite (same_ops_state _ _ Hsame).
    - apply Forall2_app; [done|]. by repeat constructor.
    - intros u p [[<- <-]|[Hne Hu]]%lookup_insert_Some; [done|].
      apply pend_ok_snoc; [by apply Hp|]. apply not_eq_sym.
      exact (pend_ids_distinct _ _ _ _ _ _ _ (Hp _ _ Et) (Hp _ _ Hu) Hne). }
  destruct (spec_step Sp (g_state Sp g) o).2 as [r|] eqn:Er.
  - apply Htake; [unfold answers; by rewrite Er|]. split_and!; [done..|]. simpl. split.
    + exists (Entry id o r). split; [|done]. apply elem_of_app. right. by left.
    + intros e [He| ->%list_elem_of_singleton]%elem_of_app Hid; [|done].
      by destruct (Hnew e).
  - destruct (spec_pick Sp (g_state Sp g) o) as [r|] eqn:Ep; [|by eexists].
    apply Htake; [unfold answers; rewrite Er; by apply spec_pick_free|].
    split_and!; [done..|]. exists r. simpl.
    rewrite <-(Forall2_length _ _ _ Hsame). apply lookup_snoc_eq.
Qed.

Lemma lins_ok us H lens log reads g :
  stamped Sp H lens log reads → same_ops log (g_log g) →
  (∀ t p, g_thr g !! t = Some p → pend_ok H lens log t p) →
  ∃ log', stamped Sp H lens log' reads ∧ same_ops log' (g_log (lins Sp us g)) ∧
  (∀ u p, g_thr (lins Sp us g) !! u = Some p → pend_ok H lens log' u p).
Proof.
  revert log g. induction us as [|u us IH]; intros log g Hst Hsame Hp; [by eexists|]. simpl.
  destruct (lin1_ok _ _ _ _ _ u Hst Hsame Hp) as (log' & ? & ? & ?). by eapply IH.
Qed.

Lemma lin1_thr g t u p :
  g_thr g !! u = Some p →
  ∃ p', g_thr (lin1 Sp g t) !! u = Some p' ∧ p_id p' = p_id p ∧ p_op p' = p_op p
        ∧ p_lo p' = p_lo p ∧ (p_lin p = p_lin p' ∨ p_lin p = None ∧ u = t).
Proof.
  intros Hu. unfold lin1. destruct (g_thr g !! t) as [[id o lo [r|]]|] eqn:Et; eauto 10.
  destruct (spec_step _ _ _).2; [|destruct (spec_pick _ _ _)]; simpl; eauto 10;
    (destruct (decide (u = t)) as [->|];
      [simplify_eq; eexists; rewrite lookup_insert_eq; eauto 10|
       rewrite lookup_insert_ne by done; eauto 10]).
Qed.

Lemma lins_thr us g u p :
  g_thr g !! u = Some p →
  ∃ p', g_thr (lins Sp us g) !! u = Some p' ∧ p_id p' = p_id p ∧ p_op p' = p_op p
        ∧ p_lo p' = p_lo p ∧ (p_lin p = p_lin p' ∨ p_lin p = None ∧ u ∈ us).
Proof.
  revert g p. induction us as [|t us IH]; intros g p Hu; [simpl; eauto 10|].
  destruct (lin1_thr g t u p Hu) as (p1 & Hp1 & Hid & Hop & Hlo & Hl).
  destruct (IH _ _ Hp1) as (p2 & Hp2 & Hid' & Hop' & Hlo' & Hl').
  exists p2. split; [done|]. split; [congruence|]. split; [congruence|].
  split; [congruence|]. rewrite elem_of_cons.
  destruct Hl as [Hl|[? ->]], Hl' as [Hl'|[? ?]]; rewrite ?Hl in *; auto.
Qed.

Lemma lins_thr_None us g u : g_thr g !! u = None → g_thr (lins Sp us g) !! u = None.
Proof.
  revert g. induction us as [|t us IH]; intros g Hu; [done|]. apply IH.
  unfold lin1. destruct (g_thr g !! t) as [[id o lo [r|]]|] eqn:Et; try done.
  destruct (spec_step _ _ _).2; [|destruct (spec_pick _ _ _); [|done]]; simpl;
    (rewrite lookup_insert_ne; [done|]; by intros ->; rewrite Et in Hu).
Qed.

Lemma lins_thr_None_iff us g u :
  g_thr (lins Sp us g) !! u = None ↔ g_thr g !! u = None.
Proof.
  split; [|apply lins_thr_None]. intros Hu. destruct (g_thr g !! u) eqn:E; [|done].
  destruct (lins_thr us _ _ _ E) as (p' & Hp & _). by rewrite Hu in Hp.
Qed.

Lemma lins_now us g : g_now (lins Sp us g) = g_now g.
Proof.
  revert g. induction us as [|t us IH]; intros g; [done|]. simpl. rewrite IH.
  unfold lin1. by repeat case_match.
Qed.

Lemma lins_hist us g : g_hist (lins Sp us g) = g_hist g.
Proof.
  revert g. induction us as [|t us IH]; intros g; [done|]. simpl. rewrite IH.
  unfold lin1. by repeat case_match.
Qed.

Lemma sys_ok_start : verified Sp Π pg I → sys_ok (start I).
Proof.
  intros [[x Hx] _]. exists (World (ob_init I) (Ghost [] ∅ 0 []) x), [], [], []. simpl.
  split; [done|]. split; [done|]. split; [constructor|]. split; [apply stamped_nil|].
  split; [done|]. split; [done|]. split; [done|]. done.
Qed.

Lemma lins_len us g : length (g_log g) ≤ length (g_log (lins Sp us g)).
Proof.
  revert g. induction us as [|t us IH]; intros g; [done|]. simpl.
  etrans; [|apply IH]. unfold lin1. repeat case_match; simpl; try lia;
    rewrite length_app; simpl; lia.
Qed.

(** Another goroutine's step leaves a verified goroutine verified. *)
Lemma thread_ok_other w w' u r :
  thread_ok w u r → R u w w' → w_len w ≤ w_len w' →
  (∀ p, g_thr (w_gh w) !! u = Some p →
    ∃ p', g_thr (w_gh w') !! u = Some p' ∧ p_id p' = p_id p ∧ p_op p' = p_op p
          ∧ p_lo p' = p_lo p) →
  thread_ok w' u r.
Proof.
  intros (p & b & Hp & ? & ? & ? & Hwp) HRw Hlen Hthr.
  destruct (Hthr _ Hp) as (p' & ? & ? & ? & Hlo). exists p', b.
  split; [done|]. split; [congruence|]. split; [congruence|].
  rewrite Hlo. split; [by eapply budget_ok_grow|by eapply wp_stable].
Qed.

Lemma sys_ok_call t o s s' :
  verified Sp Π pg I → sys_ok s → exec1 I (Call t o) s = Fine s' → sys_ok s'.
Proof.
  intros [_ Hcall] (w & lens & reads & log & Hmem & HI & Hsame & Hst & Hpend & Hdom & Hnow & Hhist & Hthr)
    Hex. pose proof (Forall2_length _ _ _ Hsame) as Hloglen.
  simpl in Hex. destruct (sy_thr s !! t) eqn:Et; [done|].
  destruct (ob_allowed I t (length (sy_hist s)) o (sy_mem s)) eqn:Ea; simplify_eq.
  assert (g_thr (w_gh w) !! t = None) as Hnone by by apply Hdom.
  rewrite <-Hmem in Ea.
  destruct (Hcall t (length (sy_hist s)) o w HI Hnone (eq_sym Hnow) Ea) as (x & HI' & HR' & Hwp).
  exists (World (w_mem w) (g_call t (length (sy_hist s)) o (w_gh w)) x),
    (lens ++ [length (g_log (w_gh w))]), reads, log.
  split; [exact Hmem|]. split; [exact HI'|]. split; [exact Hsame|]. simpl.
  pose proof (st_length _ _ _ _ _ Hst) as Hlen.
  split; [rewrite <-Hloglen; by apply stamped_call|].
  split; [|split; [|split; [rewrite length_app, Hnow; simpl; lia|split; [by rewrite Hhist, zip_with_app by by rewrite Hlen|]]]].
  - intros u p [[<- <-]|[? Hu]]%lookup_insert_Some.
    + unfold pend_ok. simpl. split; [apply lookup_snoc_eq|].
      rewrite <-Hlen. split; [apply lookup_snoc_eq|]. split.
      * intros q t' r [Hq|[_ ?]]%lookup_snoc_inv; [|done].
        apply (st_res_after _ _ _ _ _ Hst) in Hq as Hlt.
        apply lookup_lt_Some in Hq. lia.
      * intros e [j Hj]%list_elem_of_lookup Hid.
        destruct (st_log_inv _ _ _ _ _ Hst _ _ Hj) as (? & ? & Hq & _).
        apply lookup_lt_Some in Hq. lia.
    + destruct (Hpend _ _ Hu) as (Hi & ? & Hres & ?). split; [by apply lookup_snoc_l|].
      split; [by apply lookup_snoc_l|]. split; [|done].
      intros q t' r [Hq|[_ ?]]%lookup_snoc_inv; [by eapply Hres|done].
  - intros u. destruct (decide (u = t)) as [->|]; [by rewrite !lookup_insert_eq|].
    rewrite !lookup_insert_ne by done. apply Hdom.
  - intros u r [[<- <-]|[Hne Hu]]%lookup_insert_Some.
    + eexists _, _. simpl. rewrite lookup_insert_eq. split; [done|].
      repeat split; [|exact Hwp]. apply budget_ok_initial.
    + eapply thread_ok_other; [by apply Hthr|by apply HR'|done|].
      intros p Hp. exists p. simpl. by rewrite lookup_insert_ne by done.
Qed.

(** The response of a returning operation is entered in the log, or its read in
    the reads. *)
Lemma ret_stamped H lens log reads g t p v :
  same_ops log (g_log g) → stamped Sp H lens log reads →
  pend_ok H lens log t p → ret_ok Sp g p v →
  ∃ log' reads', same_ops log' (g_log g) ∧
    stamped Sp (H ++ [ERes t (p_id p) v]) (lens ++ [length (g_log g)]) log' reads' ∧
    ∀ u p', pend_ok H lens log u p' → p_id p ≠ p_id p' → pend_ok H lens log' u p'.
Proof.
  intros Hsame Hst (Hinv & Hlo & Hres & Hlin) Hret.
  rewrite <-(Forall2_length _ _ _ Hsame). unfold ret_ok in Hret.
  destruct (p_lin p) as [[r'|n]|].
  - subst r'. exists log, reads. destruct Hlin as [Hex Hlin]. split; [done|]. split; [|done].
    eapply (stamped_ret Sp _ _ _ _ reads); eauto. apply Hst.
  - destruct Hlin as [r Hn]. set (log' := <[n := Entry (p_id p) (p_op p) v]> log).
    rewrite <-(same_ops_run _ _ _ _ Hsame) in Hret.
    pose proof (stamped_reply _ _ _ _ _ _ _ _ _ _ Hst Hn Hres Hret) as Hst'.
    assert (log' !! n = Some (Entry (p_id p) (p_op p) v)) as Hn'.
    { apply list_lookup_insert_eq. by eapply lookup_lt_Some. }
    exists log', reads. split; [by eapply same_ops_reply|]. split.
    + rewrite <-(length_insert log n (Entry (p_id p) (p_op p) v)).
      eapply (stamped_ret Sp _ _ log' _ reads); eauto; [|by apply Hst'|].
      * intros e [k Hk]%list_elem_of_lookup Hid.
        rewrite (st_log_ids _ _ _ _ _ Hst' _ _ _ _ Hk Hn' Hid) in Hk. by simplify_eq.
      * left. eexists. split; [by eapply list_elem_of_lookup_2|done].
    + intros u p' ? ?. by eapply pend_ok_reply.
  - destruct Hret as (n & Hn & Hs). rewrite <-(same_ops_run _ _ _ _ Hsame) in Hs.
    rewrite <-(Forall2_length _ _ _ Hsame) in Hn.
    exists log, (reads ++ [(n, length H, Entry (p_id p) (p_op p) v)]).
    split; [done|]. split; [|done].
    eapply (stamped_ret Sp _ _ _ _ _ _ _ _ _ _ Hst Hinv Hlo Hres).
    + intros e He Hid'. by destruct (Hlin e).
    + intros y [?| ->%list_elem_of_singleton]%elem_of_app; [by left|right; eauto 10].
    + intros y ?. apply elem_of_app. by left.
    + apply StronglySorted_app_2; [|apply Hst|repeat constructor].
      intros [[n1 q1] e1] y Hy ->%list_elem_of_singleton. simpl.
      destruct (st_reads_res _ _ _ _ _ Hst _ _ _ Hy) as (? & ? & Hq & _).
      by eapply lookup_lt_Some.
    + right. exists n. apply elem_of_app. right. by left.
Qed.

(** A goroutine returns. *)
Lemma sys_ok_ret t s r v :
  sys_ok s → sy_thr s !! t = Some r → r_prog r = Ret v →
  sys_ok (Sys (sy_mem s) (delete t (sy_thr s)) (sy_hist s ++ [ERes t (r_id r) v])).
Proof.
  intros (w & lens & reads & log & Hmem & HI & Hsame & Hst & Hpend & Hdom & Hnow & Hhist & Hthr) Et Ep.
  pose proof (Forall2_length _ _ _ Hsame) as Hloglen.
  destruct (Hthr _ _ Et) as (p & b & Hp & Hid & Hop & Hb & Hwp).
  rewrite Ep, wp_unfold in Hwp.
  destruct (Hwp w ltac:(reflexivity) HI) as (b1 & _ & p' & Hp' & Hret & x & HI' & HR').
  rewrite Hp in Hp'. simplify_eq. destruct (Hpend _ _ Hp) as (Hinv & Hlo & Hres & Hlin).
  destruct (ret_stamped _ _ _ _ _ _ _ _ Hsame Hst (Hpend _ _ Hp) Hret)
    as (log' & reads' & Hsame' & Hst' & Hkeep).
  exists (World (w_mem w) (g_ret t v (w_gh w)) x), (lens ++ [length (g_log (w_gh w))]),
    reads', log'. split; [exact Hmem|]. split; [exact HI'|]. split; [exact Hsame'|]. simpl.
  rewrite Hid in Hst'. split; [exact Hst'|].
  split; [|split; [|split; [rewrite length_app, Hnow; simpl; lia|split; [|]]]].
  3: { rewrite Hhist, Hp. simpl. rewrite Hid, zip_with_app; [done|].
    by rewrite (st_length _ _ _ _ _ Hst). }
  - intros u pu [Hne Hu]%lookup_delete_Some.
    pose proof (pend_ids_distinct _ _ _ _ _ _ _ (Hpend _ _ Hp) (Hpend _ _ Hu) Hne).
    destruct (Hkeep _ _ (Hpend _ _ Hu)) as (Hi & ? & Hresu & ?); [done|].
    split; [by apply lookup_snoc_l|]. split; [by apply lookup_snoc_l|]. split; [|done].
    intros q t' r' [Hq|[_ ?]]%lookup_snoc_inv; [by eapply Hresu|]. simplify_eq.
    congruence.
  - intros u. destruct (decide (u = t)) as [->|]; [by rewrite !lookup_delete_eq|].
    rewrite !lookup_delete_ne by done. apply Hdom.
  - intros u ru [Hne Hu]%lookup_delete_Some.
    eapply thread_ok_other; [by apply Hthr|by apply HR'|done|].
    intros pu Hpu. exists pu. simpl. by rewrite lookup_delete_ne by done.
Qed.

(** A goroutine takes a step. *)
Lemma sys_ok_step t s :
  sys_ok s →
  match exec1 I (Step t) s with
  | Fine s' => sys_ok s'
  | Refused => True
  | Crash => False
  end.
Proof.
  intros Hok. simpl. destruct (sy_thr s !! t) as [r|] eqn:Et; [|done].
  destruct (r_prog r) as [v|Y a k|B C body a k] eqn:Ep; [by eapply sys_ok_ret|..];
    destruct Hok as (w & lens & reads & log & Hmem & HI & Hsame & Hst & Hpend & Hdom & Hnow & Hhist & Hthr);
    destruct (Hthr _ _ Et) as (p & b & Hp & Hid & Hop & Hb & Hwp);
    rewrite Ep, wp_unfold in Hwp;
    destruct (Hwp w ltac:(reflexivity) HI) as (b1 & Hus & Hwp1); clear Hwp.
  - destruct Hwp1 as (b' & v & m & us & x & Hbs & Ha & HI' & HR' & Hk).
    pose proof (lins_len us (w_gh w)) as Hlen.
    rewrite <-Hmem, Ha.
    destruct (lins_ok us _ _ _ _ _ Hst Hsame Hpend) as (log' & Hst' & Hsame' & Hpend').
    exists (World m (lins Sp us (w_gh w)) x), lens, reads, log'.
    split; [done|]. split; [done|]. split; [exact Hsame'|]. split; [exact Hst'|]. split; [exact Hpend'|].
    split; [|split; [by simpl; rewrite lins_now|split; [by simpl; rewrite lins_hist|]]].
    + intros u. simpl. rewrite lins_thr_None_iff, <-Hdom.
      destruct (decide (u = t)) as [->|]; [by rewrite lookup_insert_eq, Et|].
      by rewrite lookup_insert_ne by done.
    + intros u ru Hur. simpl in Hur. apply lookup_insert_Some in Hur as [[<- <-]|[Hne Hu]].
      * destruct (lins_thr us _ _ _ Hp) as (p' & Hp' & ? & ? & Hlo & _).
        exists p', b'. simpl. split; [done|]. split; [congruence|]. split; [congruence|].
        rewrite Hlo. split; [|done].
        eapply budget_ok_grow; [by eapply budget_ok_step|exact Hlen].
      * eapply thread_ok_other; [by apply Hthr|by apply HR'|exact Hlen|]. intros pu Hpu.
        destruct (lins_thr us _ _ _ Hpu) as (p' & Hp' & ? & ? & ? & _). eauto 10.
  - destruct Hwp1 as (b' & Hbs & Hk). exists w, lens, reads, log.
    split; [done|]. split; [done|]. split; [done|]. split; [done|]. split; [done|].
    split; [|split; [done|split; [done|]]].
    + intros u. simpl. rewrite <-Hdom.
      destruct (decide (u = t)) as [->|]; [by rewrite lookup_insert_eq, Et|].
      by rewrite lookup_insert_ne by done.
    + intros u ru Hur. simpl in Hur. apply lookup_insert_Some in Hur as [[<- <-]|[Hne Hu]]; [|by apply Hthr].
      exists p, b'. simpl. repeat split; eauto using budget_ok_step.
Qed.

Lemma sys_ok_exec cs s :
  verified Sp Π pg I → sys_ok s →
  match exec I cs s with
  | Fine s' => sys_ok s'
  | Refused => True
  | Crash => False
  end.
Proof.
  intros HV. revert s. induction cs as [|[t o|t] cs IH]; intros s Hok;
    cbn [exec]; [done|..].
  - destruct (exec1 I (Call t o) s) as [s'| |] eqn:E; [|done|].
    + apply IH. by eapply sys_ok_call.
    + simpl in E. repeat case_match; simplify_eq.
  - pose proof (sys_ok_step t s Hok) as Hs.
    destruct (exec1 I (Step t) s); [by apply IH|done|done].
Qed.

(** ** What a verified object gives, for every schedule *)

Theorem verified_no_crash cs : verified Sp Π pg I → exec I cs (start I) ≠ Crash.
Proof.
  intros HV Hc. unfold reaches in Hc. pose proof (sys_ok_exec cs _ HV (sys_ok_start HV)) as Hs.
  by rewrite Hc in Hs.
Qed.

Theorem verified_linearizable cs s :
  verified Sp Π pg I → reaches I cs s →
  linearizable Sp (sy_hist s).
Proof.
  intros HV Hc. unfold reaches in Hc. pose proof (sys_ok_exec cs _ HV (sys_ok_start HV)) as Hs.
  rewrite Hc in Hs. destruct Hs as (w & lens & reads & log & _ & _ & _ & Hst & _).
  by eapply stamped_linearizable.
Qed.

(** The invariant, with the ghost state it needs; a goroutine has a ghost
    record exactly while an operation of it is pending. *)
Theorem verified_inv cs s :
  verified Sp Π pg I → reaches I cs s →
  ∃ w, w_mem w = sy_mem s ∧ Inv w ∧
    ∀ t, sy_thr s !! t = None ↔ g_thr (w_gh w) !! t = None.
Proof.
  intros HV Hc. unfold reaches in Hc. pose proof (sys_ok_exec cs _ HV (sys_ok_start HV)) as Hs.
  rewrite Hc in Hs. destruct Hs as (w & lens & reads & log & ? & ? & _ & _ & _ & ? & _). eauto.
Qed.

(** The same, with the bookkeeping of the run. *)
Theorem verified_world cs s :
  verified Sp Π pg I → reaches I cs s →
  ∃ w lens reads log, w_mem w = sy_mem s ∧ Inv w ∧
    same_ops log (g_log (w_gh w)) ∧ stamped Sp (sy_hist s) lens log reads ∧
    g_hist (w_gh w) = zip (sy_hist s) lens.
Proof.
  intros HV Hc. unfold reaches in Hc. pose proof (sys_ok_exec cs _ HV (sys_ok_start HV)) as Hs.
  rewrite Hc in Hs. destruct Hs as (w & lens & reads & log & ? & ? & ? & ? & _ & _ & _ & ? & _).
  eauto 10.
Qed.

(** The abstract state is the one that a linearization of the history leaves. *)
Theorem verified_state cs s :
  verified Sp Π pg I → reaches I cs s → ∃ w L,
    w_mem w = sy_mem s ∧ Inv w ∧ (∀ t, sy_thr s !! t = None ↔ g_thr (w_gh w) !! t = None) ∧
    linearization Sp (sy_hist s) L ∧ run Sp (spec_init Sp) L = g_state Sp (w_gh w).
Proof.
  intros HV Hc. unfold reaches in Hc. pose proof (sys_ok_exec cs _ HV (sys_ok_start HV)) as Hs.
  rewrite Hc in Hs. destruct Hs as (w & lens & reads & log & ? & ? & Hsame & Hst & _ & ? & _).
  exists w. eexists. do 3 (split; [done|]). split; [by eapply stamped_linearization|].
  rewrite <-(same_ops_state _ _ Hsame). by eapply stamped_run.
Qed.

(** Wait-freedom: no pending operation has taken more than [n] steps, and one
    that has taken [n] is about to return. *)
Theorem verified_waitfree cs s t r n :
  verified Sp Π pg I → pg = WaitFree n →
  reaches I cs s → sy_thr s !! t = Some r →
  r_steps r ≤ n ∧ (r_steps r = n → ∃ v, r_prog r = Ret v).
Proof.
  intros HV Hn Hc Ht. unfold reaches in Hc. pose proof (sys_ok_exec cs _ HV (sys_ok_start HV)) as Hs.
  rewrite Hc in Hs. destruct Hs as (w & lens & reads & log & _ & HI & _ & _ & _ & _ & _ & _ & Hthr).
  destruct (Hthr _ _ Ht) as (p & b & _ & _ & _ & Hb & Hwp).
  unfold budget_ok in Hb. rewrite Hn in Hb. destruct b as [|m|]; try done.
  split; [lia|]. intros ?. assert (m = 0) as -> by lia.
  rewrite wp_unfold in Hwp. destruct (Hwp w ltac:(reflexivity) HI) as (b1 & Hu & Hp).
  destruct Hu as [->|[(? & ? & ? & ? & _ & ? & _)|(? & m & ? & [[? ->]|(? & ? & _)])]];
    [|done|simplify_eq; assert (m = 0) as -> by lia|done].
  all: destruct (r_prog r); [eauto| |].
  all: try by destruct Hp as (? & ? & ? & ? & ? & ? & _).
  all: by destruct Hp as (? & ? & _).
Qed.

(** Lock-freedom: an operation runs for at most [K n] steps after [n] operations
    took effect, for each that takes effect while it is pending; so it can only
    be kept from finishing by others that do finish. *)
Theorem verified_lockfree_in cs s t r K b :
  verified Sp Π pg I → pg = LockFreeIn K →
  reaches I cs s → sy_thr s !! t = Some r →
  (∀ n, n ≤ length (called_ids (sy_hist s)) → K n ≤ b) →
  r_steps r ≤ b * (1 + overlap (sy_hist s) (r_id r)).
Proof.
  intros HV HK Hc Ht Hb'. unfold reaches in Hc.
  pose proof (sys_ok_exec cs _ HV (sys_ok_start HV)) as Hs.
  rewrite Hc in Hs.
  destruct Hs as (w & lens & reads & log & _ & HI & Hsame & Hst & Hpend & _ & _ & _ & Hthr).
  destruct (Hthr _ _ Ht) as (p & bu & Hp & Hid & _ & Hb & _).
  unfold budget_ok in Hb. rewrite HK in Hb. destruct bu as [| |m L]; try done.
  destruct (Hpend _ _ Hp) as (_ & Hlo & _).
  pose proof (Forall2_length _ _ _ Hsame) as Hlen. unfold w_len in Hb.
  assert (length log - p_lo p ≤ overlap (sy_hist s) (p_id p)) as Hle.
  { rewrite <-length_drop. by eapply log_overlap. }
  pose proof (log_called _ _ _ _ _ Hst) as Hcalled.
  pose proof (credit_mono K (p_lo p) (S (L - p_lo p)) b) as Hm.
  specialize (Hm ltac:(intros i ?; apply Hb'; lia)).
  rewrite Hid in Hle. destruct Hb as [? Hb]. nia.
Qed.

Theorem verified_lockfree cs s t r K :
  verified Sp Π pg I → pg = LockFree K →
  reaches I cs s → sy_thr s !! t = Some r →
  r_steps r ≤ K * (1 + overlap (sy_hist s) (r_id r)).
Proof. intros HV HK Hc Ht. by eapply verified_lockfree_in. Qed.
End adequacy.
