(* ===== verification/Spans.v ===== *)
(** Operations that do not take effect at once.

    A traversal of a map reports what it comes across, which need never have been
    the contents at any one moment.  What such an operation promises is a [fact] of
    the states of the object between its call and its return.  A client proves
    the fact where the operation returns, besides linearizability
    ([verified_with]); [facts_linearization] states it for every history, about the
    states of one linearization. *)

From S2P Require Export Logic.

Section spans.
Context {Mem St Op Resp X : Type} (Sp : spec St Op Resp).
Abbreviation world := (world Mem Op Resp X).
Context (Π : protocol Mem Op Resp X) (pg : progress) (I : object Mem Op Resp).
Abbreviation Inv := (pr_inv Π).
Abbreviation R := (pr_rely Π).
Implicit Types (g : ghost Op Resp) (w : world) (t : nat) (o : Op) (r : Resp).

(** [fact S lo hi o r]: the states [S lo], ..., [S hi] allow the response [r]. *)
Context (fact : (nat → St) → nat → nat → Op → Resp → Prop).
Context (Hfact : ∀ S S' lo hi o r,
  (∀ n, n ≤ hi → S' n = S n) → fact S lo hi o r → fact S' lo hi o r).

(** The state after the first [n] operations. *)
Definition nth_state (L : list (entry Op Resp)) (n : nat) : St :=
  run Sp (spec_init Sp) (take n L).

Lemma fact_prefix L L' lo hi o r :
  L `prefix_of` L' → hi ≤ length L → fact (nth_state L) lo hi o r → fact (nth_state L') lo hi o r.
Proof using Hfact.
  intros Hp Hhi. apply Hfact. intros n Hn. unfold nth_state.
  by rewrite (take_of_prefix _ _ _ Hp) by lia.
Qed.

(** What is kept of the history: the log lengths at calls, and the facts of the
    operations that returned. *)
Record spanned g : Prop := {
  sp_now : length (g_hist g) = g_now g;
  sp_calls : ∀ t p, g_thr g !! t = Some p →
    g_hist g !! p_id p = Some (EInv t (p_id p) (p_op p), p_lo p);
  sp_lens : ∀ i ev n, g_hist g !! i = Some (ev, n) → n ≤ length (g_log g);
  sp_after : ∀ i j u r hi, g_hist g !! j = Some (ERes u i r, hi) → i < j;
  sp_facts : ∀ i j t u o r lo hi, g_hist g !! i = Some (EInv t i o, lo) →
    g_hist g !! j = Some (ERes u i r, hi) → fact (nth_state (g_log g)) lo hi o r
}.

Lemma helped_lins u us g : helped u g (lins Sp us g).
Proof.
  revert g. induction us as [|t us IH]; intros g; [reflexivity|]. simpl.
  etrans; [apply (helped_lin1 Sp)|apply IH].
Qed.

Lemma spanned_lins us g : spanned g → spanned (lins Sp us g).
Proof using Hfact.
  intros Hg. pose proof (λ u, helped_lins u us g) as Hh.
  pose proof (proj1 (Hh 0)) as Hp. split; rewrite ?lins_hist, ?lins_now; try apply Hg.
  - intros t p' Hp'. specialize (Hh t) as [_ Hh]. destruct (g_thr g !! t) as [p|] eqn:E;
      [|congruence]. destruct Hh as (p1 & ? & Hid & Hop & Hlo & _). simplify_eq.
    rewrite Hid, Hop, Hlo. by apply Hg.
  - intros i ev n Hn. etrans; [by eapply (sp_lens _ Hg)|by apply prefix_length].
  - intros i j t u o r lo hi Hi Hj. eapply fact_prefix; [done|by eapply (sp_lens _ Hg)|].
    by eapply (sp_facts _ Hg).
Qed.

Lemma spanned_call g t id o : spanned g → id = g_now g → spanned (g_call t id o g).
Proof.
  intros Hg ->. split; simpl.
  - rewrite length_app, (sp_now _ Hg). simpl. lia.
  - intros u p [[<- <-]|[_ Hu]]%lookup_insert_Some; simpl.
    + rewrite <-(sp_now _ Hg). apply lookup_snoc_eq.
    + by apply lookup_snoc_l, Hg.
  - intros i ev n [Hn|[_ ?]]%lookup_snoc_inv; [by eapply (sp_lens _ Hg)|by simplify_eq].
  - intros i j u r hi [Hj|[_ ?]]%lookup_snoc_inv; [by eapply (sp_after _ Hg)|done].
  - intros i j u u' o' r lo hi Hi [Hj|[_ ?]]%lookup_snoc_inv; [|done].
    apply lookup_snoc_inv in Hi as [Hi|[-> ?]]; [by eapply (sp_facts _ Hg)|].
    pose proof (sp_after _ Hg _ _ _ _ _ Hj). apply lookup_lt_Some in Hj. lia.
Qed.

Lemma spanned_ret g t p r :
  spanned g → g_thr g !! t = Some p →
  fact (nth_state (g_log g)) (p_lo p) (length (g_log g)) (p_op p) r → spanned (g_ret t r g).
Proof.
  intros Hg Hp Hr. pose proof (sp_calls _ Hg _ _ Hp) as Hcall. split; simpl; rewrite ?Hp; simpl.
  - rewrite length_app, (sp_now _ Hg). simpl. lia.
  - intros u p' [_ Hu]%lookup_delete_Some. by apply lookup_snoc_l, Hg.
  - intros i ev n [Hn|[_ ?]]%lookup_snoc_inv; [by eapply (sp_lens _ Hg)|by simplify_eq].
  - intros i j u r' hi [Hj|[-> ?]]%lookup_snoc_inv; [by eapply (sp_after _ Hg)|].
    simplify_eq. by eapply lookup_lt_Some.
  - intros i j u u' o r' lo hi [Hi|[_ ?]]%lookup_snoc_inv [Hj|[_ ?]]%lookup_snoc_inv; try done.
    + by eapply (sp_facts _ Hg).
    + simplify_eq. done.
Qed.

(** ** The protocol with these facts *)

Definition span_rely t : relation world := λ w w', R t w w' ∧ helped t (w_gh w) (w_gh w').

Lemma span_order t : PreOrder (span_rely t).
Proof.
  split; [by intros w; split|]. intros w1 w2 w3 [? ?] [? ?]. by split; [trans w2|trans (w_gh w2)].
Qed.

Definition span_proto : protocol Mem Op Resp X :=
  Protocol (λ w, Inv w ∧ spanned (w_gh w)) span_rely span_order.

(** What the code of [t] for [o] must establish when it returns [r]: the fact as
    well. *)
Definition post_with t o (b : budget) (r : Resp) w : Prop :=
  post Sp Π t b r w ∧ ∀ p, g_thr (w_gh w) !! t = Some p → p_op p = o →
    fact (nth_state (g_log (w_gh w))) (p_lo p) (w_len w) o r.

Record verified_with : Prop := {
  vw_init : ∃ x, Inv (World (ob_init I) (Ghost [] ∅ 0 []) x);
  vw_call : ∀ t id o w,
    Inv w → g_thr (w_gh w) !! t = None → id = g_now (w_gh w) → ob_allowed I t id o (w_mem w) = true →
    ∃ x, let w' := World (w_mem w) (g_call t id o (w_gh w)) x in
      Inv w' ∧ (∀ u, u ≠ t → R u w w') ∧
      wp Sp Π pg t (post_with t o) (initial_budget pg (w_len w)) (ob_code I t o) w'
}.

(** The pending operation of [t] is [o]. *)
Definition calls t o g : Prop := ∃ p, g_thr g !! t = Some p ∧ p_op p = o.

Lemma calls_helped t o g g' : helped t g g' → calls t o g → calls t o g'.
Proof.
  intros [_ Hh] (p & Hp & <-). rewrite Hp in Hh. destruct Hh as (p' & Hp' & _ & ? & _). by exists p'.
Qed.

(** Verified code keeps the facts. *)
Lemma wp_spanned t o {A} (Q : budget → A → world → Prop) b p w :
  wp Sp Π pg t Q b p w → calls t o (w_gh w) →
  wp Sp span_proto pg t (λ b a w, Q b a w ∧ calls t o (w_gh w)) b p w.
Proof using Hfact.
  intros Hp Ho. exists (λ b p w, wp Sp Π pg t Q b p w ∧ calls t o (w_gh w)). split; [done|].
  clear b p w Hp Ho. intros b p w [Hp Ho] w' [HR Hh] [HI Hs]. rewrite wp_unfold in Hp.
  pose proof (calls_helped _ _ _ _ Hh Ho) as Ho'.
  destruct (Hp w' HR HI) as (b1 & Hu & Hp1). exists b1. split; [done|].
  destruct p as [a|Y act k|Y Z body a k]; [done|..].
  - destruct Hp1 as (b' & v & m & us & x & Hb & Ha & HI' & HR' & Hk).
    exists b', v, m, us, x. split; [done|]. split; [done|]. cbn zeta in *.
    split; [split; [done|by apply spanned_lins]|]. split.
    + intros u Hne. split; [by apply HR'|]. apply helped_lins.
    + split; [done|]. eapply calls_helped; [apply helped_lins|done].
  - destruct Hp1 as (b' & ? & ?). by exists b'.
Qed.

Theorem verified_spanned : verified_with → verified Sp span_proto pg I.
Proof using Hfact.
  intros [[x0 Hinit] Hcall]. split.
  - exists x0. split; [done|]. split; try done; intros *; by rewrite ?lookup_nil.
  - intros t id o w [HI Hs] Hnone Hid Hok.
    destruct (Hcall t id o w HI Hnone Hid Hok) as (x & HI' & HR' & Hp). exists x. cbn zeta in *.
    split; [split; [done|by apply spanned_call]|].
    split; [intros u Hu; split; [by apply HR'|]; by apply quiet_helped, quiet_call|].
    eapply wp_mono; [|apply (wp_spanned t o); [exact Hp|]].
    2:{ eexists. simpl. by rewrite lookup_insert_eq. }
    clear -Hfact. intros b r w [HI Hs] [[(p & Hp & Hret & x & HI' & HR') Hf] (p' & Hp' & Ho)].
    rewrite Hp in Hp'. injection Hp' as <-.
    exists p. split; [done|]. split; [done|]. exists x. cbn zeta in *.
    split; [split; [done|eapply spanned_ret; [done..|]; rewrite Ho; by apply Hf]|].
    intros u Hu. split; [by apply HR'|]. by apply quiet_helped, quiet_ret.
Qed.

(** Without the facts it is verified as well. *)
Lemma verified_without : verified_with → verified Sp Π pg I.
Proof.
  intros [Hinit Hcall]. split; [exact Hinit|]. intros t id o w HI Hnone Hid Hok.
  destruct (Hcall t id o w HI Hnone Hid Hok) as (x & HI' & HR' & Hp). exists x.
  split; [done|]. split; [done|]. eapply wp_mono; [|exact Hp]. by intros b r w1 _ [? _].
Qed.

(** Every history has a linearization in which what returned was allowed by states
    between its call and its return. *)
Theorem facts_linearization cs s :
  verified_with → reaches I cs s → ∃ L, linearization Sp (sy_hist s) L ∧
  ∀ i j t u o r, sy_hist s !! i = Some (EInv t i o) → sy_hist s !! j = Some (ERes u i r) →
    ∃ S lo hi, fact S lo hi o r ∧
      ∀ n, lo ≤ n ≤ hi → span Sp (sy_hist s) L i j (S n).
Proof using Hfact.
  intros HV Hs. destruct (verified_world Sp _ _ _ _ _ (verified_spanned HV) Hs)
    as (w & lens & reads & log & _ & [_ Hsp] & Hsame & Hst & Hhist).
  exists (snd <$> Linear.merge 0 log reads). split; [by eapply stamped_linearization|].
  intros i j t u o r Hi Hj. pose proof (st_length _ _ _ _ _ Hst) as Hlen.
  destruct (lookup_lt_is_Some_2 lens i) as [lo Hlo]; [rewrite Hlen; by eapply lookup_lt_Some|].
  destruct (lookup_lt_is_Some_2 lens j) as [hi Hhi]; [rewrite Hlen; by eapply lookup_lt_Some|].
  pose proof (st_res_after _ _ _ _ _ Hst _ _ _ _ Hj) as Hij.
  exists (nth_state log), lo, hi. split.
  - apply (Hfact (nth_state (g_log (w_gh w)))); [intros n _; by apply (same_ops_run Sp)|].
    apply (sp_facts _ Hsp i j t u); rewrite Hhist, lookup_zip_with.
    + by rewrite Hi, Hlo.
    + by rewrite Hj, Hhi.
  - intros n Hn. by eapply stamped_span; [..|lia|].
Qed.
End spans.
