(* ===== verification/Atomics.v ===== *)
(** Go's [sync/atomic] operations and pointer dereferences, as atomic actions.

    Atomic accesses in Go are sequentially consistent, so each is one action on
    the shared memory.  A heap is a list of records and a pointer an index into
    it: allocation appends, and addresses are never reused, which is what the
    garbage collector guarantees for every address some goroutine still holds. *)

From S2P Require Export Prelude.

Abbreviation loc := nat.

(** A field of a record, for updates in place. *)
Record field (S A : Type) := Field { f_get : S → A; f_set : A → S → S }.
Arguments Field {_ _}.
Arguments f_get {_ _}.
Arguments f_set {_ _}.

Section atomics.
Context {S A : Type}.

(** [x.Load()], and [x.Store(v)] on a field of the shared state. *)
Definition load (f : S → A) : S → option (A * S) := λ s, Some (f s, s).
Definition store (f : field S A) (v : A) : S → option (unit * S) :=
  λ s, Some (tt, f_set f v s).

(** [x.CompareAndSwap(old, new)]. *)
Definition cas `{EqDecision A} (f : field S A) (old new : A) : S → option (bool * S) :=
  λ s, if decide (f_get f s = old) then Some (true, f_set f new s) else Some (false, s).
End atomics.

(** [x.Add(delta)] on an [atomic.Uint64]; the result is the new value. *)
Definition add_u64 {S} (f : field S Z) (delta : Z) : S → option (Z * S) :=
  λ s, let n := u64 (f_get f s + delta) in Some (n, f_set f n s).

(** The same on an [atomic.Int64]. *)
Definition add_i64 {S} (f : field S Z) (delta : Z) : S → option (Z * S) :=
  λ s, let n := i64 (f_get f s + delta) in Some (n, f_set f n s).

Section heap.
Context {S N A : Type}.

(** [&N{...}]: the address of a fresh record. *)
Definition new (h : field S (list N)) (n : N) : S → option (loc * S) :=
  λ s, Some (length (f_get h s), f_set h (f_get h s ++ [n]) s).

(** Reading a field of [*p]; a bad address panics. *)
Definition load_at (h : S → list N) (p : loc) (f : N → A) : S → option (A * S) :=
  λ s, match h s !! p with Some n => Some (f n, s) | None => None end.

(** Writing a field of [*p]. *)
Definition store_at (h : field S (list N)) (p : loc) (f : field N A) (v : A)
    : S → option (unit * S) :=
  λ s, match f_get h s !! p with
       | Some n => Some (tt, f_set h (<[p := f_set f v n]> (f_get h s)) s)
       | None => None
       end.

Definition cas_at `{EqDecision A} (h : field S (list N)) (p : loc) (f : field N A)
    (old new : A) : S → option (bool * S) :=
  λ s, match f_get h s !! p with
       | Some n =>
           if decide (f_get f n = old)
           then Some (true, f_set h (<[p := f_set f new n]> (f_get h s)) s)
           else Some (false, s)
       | None => None
       end.

(** [p.f.Add(delta)] on an [atomic.Uint64] field. *)
Definition add_u64_at (h : field S (list N)) (p : loc) (f : field N Z) (delta : Z)
    : S → option (Z * S) :=
  λ s, match f_get h s !! p with
       | Some n =>
           let v := u64 (f_get f n + delta) in
           Some (v, f_set h (<[p := f_set f v n]> (f_get h s)) s)
       | None => None
       end.

(** The same through a pointer that may be nil; dereferencing nil panics. *)
Definition load_ptr (h : S → list N) (p : option loc) (f : N → A)
    : S → option (A * S) :=
  match p with Some l => load_at h l f | None => λ _, None end.

Definition cas_ptr `{EqDecision A} (h : field S (list N)) (p : option loc)
    (f : field N A) (old new : A) : S → option (bool * S) :=
  match p with Some l => cas_at h l f old new | None => λ _, None end.

(** [x.CompareAndSwap(nil, new)] on a pointer to immutable data, which is
    represented by the data itself. *)
Definition cas_nil_ptr (h : field S (list N)) (p : option loc) (f : field N (option A))
    (new : A) : S → option (bool * S) :=
  match p with
  | Some l => λ s,
      match f_get h s !! l with
      | Some n =>
          match f_get f n with
          | None => Some (true, f_set h (<[l := f_set f (Some new) n]> (f_get h s)) s)
          | Some _ => Some (false, s)
          end
      | None => None
      end
  | None => λ _, None
  end.
End heap.

(** Slices: the element at index [i]; an index out of range panics. *)
Section slices.
Context {S A : Type}.

Definition in_range (i : Z) (l : list A) : bool :=
  bool_decide (0 <= i < Z.of_nat (length l))%Z.

Definition load_idx (f : S → list A) (i : Z) : S → option (A * S) :=
  λ s, if in_range i (f s) then (λ x, (x, s)) <$> f s !! Z.to_nat i else None.

Definition store_idx (f : field S (list A)) (i : Z) (v : A) : S → option (unit * S) :=
  λ s, if in_range i (f_get f s)
       then Some (tt, f_set f (<[Z.to_nat i := v]> (f_get f s)) s) else None.

Definition cas_idx `{EqDecision A} (f : field S (list A)) (i : Z) (old new : A)
    : S → option (bool * S) :=
  λ s, if in_range i (f_get f s) then
         if decide (f_get f s !! Z.to_nat i = Some old)
         then Some (true, f_set f (<[Z.to_nat i := new]> (f_get f s)) s)
         else Some (false, s)
       else None.
End slices.

(** The element at index [i] of the slice [p.f]; the pointer and the slice are
    read by the way, because they are never changed after [*p] was made. *)
Section slots.
Context {S N A : Type}.

Definition load_slot (h : S → list N) (p : option loc) (f : N → list A) (i : Z)
    : S → option (A * S) :=
  λ s, match p with
       | Some l => match h s !! l with
                   | Some n => (λ x, (x.1, s)) <$> load_idx f i n
                   | None => None
                   end
       | None => None
       end.

Definition store_slot (h : field S (list N)) (p : loc) (f : field N (list A)) (i : Z) (v : A)
    : S → option (unit * S) :=
  λ s, match f_get h s !! p with
       | Some n => (λ x, (tt, f_set h (<[p := x.2]> (f_get h s)) s)) <$> store_idx f i v n
       | None => None
       end.

Definition cas_slot `{EqDecision A} (h : field S (list N)) (p : option loc)
    (f : field N (list A)) (i : Z) (old new : A) : S → option (bool * S) :=
  λ s, match p with
       | Some l => match f_get h s !! l with
                   | Some n => (λ x, (x.1, f_set h (<[l := x.2]> (f_get h s)) s)) <$>
                                 cas_idx f i old new n
                   | None => None
                   end
       | None => None
       end.
End slots.
