(* ===== verification/Rules.v ===== *)
(** Proof rules for the [sync/atomic] operations in verified code.

    Each rule reduces one action of a goroutine to the worlds in which it may
    find the memory; an action that does not write leaves the world as it is. *)

From S2P Require Export Logic Atomics.

Section rules.
Context {Mem St Op Resp X : Type} (Sp : spec St Op Resp).
Context (Π : protocol Mem Op Resp X) (pg : progress) (t : nat) {A : Type}.
Context (Q : budget → A → world Mem Op Resp X → Prop).
Abbreviation world := (world Mem Op Resp X).
Abbreviation wp := (wp Sp Π pg t Q).
Abbreviation Inv := (pr_inv Π).
Abbreviation R := (pr_rely Π).

(** The world [w] after memory [m], effects of [us] and ghost state [x]. *)
Definition upd (w : world) (m : Mem) (us : list nat) (x : X) : world :=
  World m (lins Sp us (w_gh w)) x.

(** The step from [w] to [w'] keeps the invariant and what the others rely on. *)
Definition good_step (w w' : world) : Prop :=
  Inv w' ∧ ∀ u, u ≠ t → R u w w'.

Lemma upd_id w : upd w (w_mem w) [] (w_aux w) = w.
Proof. by destruct w. Qed.

Lemma good_step_refl w : Inv w → good_step w w.
Proof. intros HI. split; [done|]. intros u _. reflexivity. Qed.

Lemma wp_step_to {B} b b' (a : Mem → option (B * Mem)) k w :
  budget_step b = Some b' →
  (∀ w', R t w w' → Inv w' → ∃ v m us x,
     a (w_mem w') = Some (v, m) ∧ good_step w' (upd w' m us x) ∧
     wp b' (k v) (upd w' m us x)) →
  wp b (Act a k) w.
Proof.
  intros Hb Hs. eapply wp_act; [done|]. intros w' HR HI.
  destruct (Hs w' HR HI) as (v & m & us & x & ? & [? ?] & ?).
  by exists v, m, us, x.
Qed.

Lemma wp_load {B} b b' (f : Mem → B) k w :
  budget_step b = Some b' →
  (∀ w', R t w w' → Inv w' → wp b' (k (f (w_mem w'))) w') →
  wp b (Act (load f) k) w.
Proof. intros Hb Hs. eapply wp_read; [done|]. intros w' HR HI. eauto. Qed.

(** A load that is the moment the operations of [us] take effect. *)
Lemma wp_load_lin {B} b b' (f : Mem → B) k w :
  budget_step b = Some b' →
  (∀ w', R t w w' → Inv w' → ∃ us x,
     good_step w' (upd w' (w_mem w') us x) ∧
     wp b' (k (f (w_mem w'))) (upd w' (w_mem w') us x)) →
  wp b (Act (load f) k) w.
Proof.
  intros Hb Hs. eapply wp_step_to; [done|]. intros w' HR HI.
  destruct (Hs w' HR HI) as (us & x & ? & ?). eexists _, _, us, x. eauto.
Qed.

Lemma wp_load_at {N B} b b' (h : Mem → list N) p (f : N → B) k w :
  budget_step b = Some b' →
  (∀ w', R t w w' → Inv w' → ∃ n, h (w_mem w') !! p = Some n ∧ wp b' (k (f n)) w') →
  wp b (Act (load_at h p f) k) w.
Proof.
  intros Hb Hs. eapply wp_read; [done|]. intros w' HR HI.
  destruct (Hs w' HR HI) as (n & Hn & ?). exists (f n). unfold load_at. by rewrite Hn.
Qed.

Lemma wp_store {B} b b' (f : field Mem B) v k w :
  budget_step b = Some b' →
  (∀ w', R t w w' → Inv w' → ∃ us x,
     let w'' := upd w' (f_set f v (w_mem w')) us x in
     good_step w' w'' ∧ wp b' (k tt) w'') →
  wp b (Act (store f v) k) w.
Proof.
  intros Hb Hs. eapply wp_step_to; [done|]. intros w' HR HI.
  destruct (Hs w' HR HI) as (us & x & ? & ?). eexists _, _, us, x. eauto.
Qed.

Lemma wp_cas {B} `{EqDecision B} b b' (f : field Mem B) old new k w :
  budget_step b = Some b' →
  (∀ w', R t w w' → Inv w' → f_get f (w_mem w') = old → ∃ us x,
     let w'' := upd w' (f_set f new (w_mem w')) us x in
     good_step w' w'' ∧ wp b' (k true) w'') →
  (∀ w', R t w w' → Inv w' → f_get f (w_mem w') ≠ old → wp b' (k false) w') →
  wp b (Act (cas f old new) k) w.
Proof.
  intros Hb Ht Hf. eapply wp_step_to; [done|]. intros w' HR HI. unfold cas.
  destruct (decide (f_get f (w_mem w') = old)) as [Heq|Hne].
  - destruct (Ht w' HR HI Heq) as (us & x & ? & ?). eexists _, _, us, x. eauto.
  - exists false, (w_mem w'), [], (w_aux w'). rewrite upd_id.
    auto using good_step_refl.
Qed.

Lemma wp_cas_at {N B} `{EqDecision B} b b' (h : field Mem (list N)) p
    (f : field N B) old new k w :
  budget_step b = Some b' →
  (∀ w', R t w w' → Inv w' → ∃ n, f_get h (w_mem w') !! p = Some n ∧
     (f_get f n = old → ∃ us x,
        let w'' := upd w' (f_set h (<[p := f_set f new n]> (f_get h (w_mem w')))
                             (w_mem w')) us x in
        good_step w' w'' ∧ wp b' (k true) w'') ∧
     (f_get f n ≠ old → wp b' (k false) w')) →
  wp b (Act (cas_at h p f old new) k) w.
Proof.
  intros Hb Hs. eapply wp_step_to; [done|]. intros w' HR HI. unfold cas_at.
  destruct (Hs w' HR HI) as (n & -> & Ht & Hf).
  destruct (decide (f_get f n = old)) as [Heq|Hne].
  - destruct (Ht Heq) as (us & x & ? & ?). eexists _, _, us, x. eauto.
  - exists false, (w_mem w'), [], (w_aux w'). rewrite upd_id.
    auto using good_step_refl.
Qed.

Lemma wp_store_at {N B} b b' (h : field Mem (list N)) p (f : field N B) v k w :
  budget_step b = Some b' →
  (∀ w', R t w w' → Inv w' → ∃ n us x, f_get h (w_mem w') !! p = Some n ∧
     let w'' := upd w' (f_set h (<[p := f_set f v n]> (f_get h (w_mem w')))
                          (w_mem w')) us x in
     good_step w' w'' ∧ wp b' (k tt) w'') →
  wp b (Act (store_at h p f v) k) w.
Proof.
  intros Hb Hs. eapply wp_step_to; [done|]. intros w' HR HI.
  destruct (Hs w' HR HI) as (n & us & x & Hn & ? & ?). unfold store_at. rewrite Hn.
  eexists _, _, us, x. eauto.
Qed.

Lemma wp_new {N} b b' (h : field Mem (list N)) n k w :
  budget_step b = Some b' →
  (∀ w', R t w w' → Inv w' → ∃ us x,
     let w'' := upd w' (f_set h (f_get h (w_mem w') ++ [n]) (w_mem w')) us x in
     good_step w' w'' ∧ wp b' (k (length (f_get h (w_mem w')))) w'') →
  wp b (Act (new h n) k) w.
Proof.
  intros Hb Hs. eapply wp_step_to; [done|]. intros w' HR HI.
  destruct (Hs w' HR HI) as (us & x & ? & ?). eexists _, _, us, x. eauto.
Qed.

Lemma wp_add_u64 b b' (f : field Mem Z) d k w :
  budget_step b = Some b' →
  (∀ w', R t w w' → Inv w' → ∃ us x,
     let n := u64 (f_get f (w_mem w') + d) in
     let w'' := upd w' (f_set f n (w_mem w')) us x in
     good_step w' w'' ∧ wp b' (k n) w'') →
  wp b (Act (add_u64 f d) k) w.
Proof.
  intros Hb Hs. eapply wp_step_to; [done|]. intros w' HR HI.
  destruct (Hs w' HR HI) as (us & x & ? & ?). eexists _, _, us, x. eauto.
Qed.
Lemma wp_add_i64 b b' (f : field Mem Z) d k w :
  budget_step b = Some b' →
  (∀ w', R t w w' → Inv w' → ∃ us x,
     let n := i64 (f_get f (w_mem w') + d) in
     let w'' := upd w' (f_set f n (w_mem w')) us x in
     good_step w' w'' ∧ wp b' (k n) w'') →
  wp b (Act (add_i64 f d) k) w.
Proof.
  intros Hb Hs. eapply wp_step_to; [done|]. intros w' HR HI.
  destruct (Hs w' HR HI) as (us & x & ? & ?). eexists _, _, us, x. eauto.
Qed.

Lemma wp_load_idx {B} b b' (f : Mem → list B) (i : nat) k w :
  budget_step b = Some b' →
  (∀ w', R t w w' → Inv w' → ∃ v, f (w_mem w') !! i = Some v ∧ wp b' (k v) w') →
  wp b (Act (load_idx f (Z.of_nat i)) k) w.
Proof.
  intros Hb Hs. eapply wp_read; [done|]. intros w' HR HI.
  destruct (Hs w' HR HI) as (v & Hv & ?). exists v. unfold load_idx, in_range.
  pose proof (lookup_lt_Some _ _ _ Hv). rewrite bool_decide_true by lia.
  by rewrite Nat2Z.id, Hv.
Qed.

Lemma wp_store_idx {B} b b' (f : field Mem (list B)) (i : nat) v k w :
  budget_step b = Some b' →
  (∀ w', R t w w' → Inv w' → i < length (f_get f (w_mem w')) ∧ ∃ us x,
     let w'' := upd w' (f_set f (<[i := v]> (f_get f (w_mem w'))) (w_mem w')) us x in
     good_step w' w'' ∧ wp b' (k tt) w'') →
  wp b (Act (store_idx f (Z.of_nat i) v) k) w.
Proof.
  intros Hb Hs. eapply wp_step_to; [done|]. intros w' HR HI.
  destruct (Hs w' HR HI) as (Hi & us & x & ? & ?). unfold store_idx, in_range.
  rewrite bool_decide_true by lia. rewrite Nat2Z.id. eexists _, _, us, x. eauto.
Qed.

Lemma wp_cas_idx {B} `{EqDecision B} b b' (f : field Mem (list B)) (i : nat) old new k w :
  budget_step b = Some b' →
  (∀ w', R t w w' → Inv w' → i < length (f_get f (w_mem w')) ∧
     (f_get f (w_mem w') !! i = Some old → ∃ us x,
        let w'' := upd w' (f_set f (<[i := new]> (f_get f (w_mem w'))) (w_mem w')) us x in
        good_step w' w'' ∧ wp b' (k true) w'') ∧
     (f_get f (w_mem w') !! i ≠ Some old → wp b' (k false) w')) →
  wp b (Act (cas_idx f (Z.of_nat i) old new) k) w.
Proof.
  intros Hb Hs. eapply wp_step_to; [done|]. intros w' HR HI.
  destruct (Hs w' HR HI) as (Hi & Ht & Hf). unfold cas_idx, in_range.
  rewrite bool_decide_true by lia. rewrite Nat2Z.id.
  destruct (decide (f_get f (w_mem w') !! i = Some old)) as [Heq|Hne].
  - destruct (Ht Heq) as (us & x & ? & ?). eexists _, _, us, x. eauto.
  - exists false, (w_mem w'), [], (w_aux w'). rewrite upd_id.
    auto using good_step_refl.
Qed.

Lemma wp_cas_nil_at {N B} b b' (h : field Mem (list N)) p (f : field N (option B))
    new k w :
  budget_step b = Some b' →
  (∀ w', R t w w' → Inv w' → ∃ n, f_get h (w_mem w') !! p = Some n ∧
     (f_get f n = None → ∃ us x,
        let w'' := upd w' (f_set h (<[p := f_set f (Some new) n]> (f_get h (w_mem w')))
                             (w_mem w')) us x in
        good_step w' w'' ∧ wp b' (k true) w'') ∧
     (f_get f n ≠ None → wp b' (k false) w')) →
  wp b (Act (cas_nil_ptr h (Some p) f new) k) w.
Proof.
  intros Hb Hs. eapply wp_step_to; [done|]. intros w' HR HI. unfold cas_nil_ptr.
  destruct (Hs w' HR HI) as (n & -> & Ht & Hf). destruct (f_get f n) eqn:E.
  - exists false, (w_mem w'), [], (w_aux w'). rewrite upd_id.
    auto using good_step_refl.
  - destruct (Ht eq_refl) as (us & x & ? & ?). eexists _, _, us, x. eauto.
Qed.
End rules.

(** [wp_pure] computes the code up to its next action. *)
Ltac wp_pure := cbn [bind act loop load_ptr cas_ptr].

(** Shape-directed application of a rule: the world found by the action is
    introduced as [w'], related to the old one by [HR], with invariant [HI]. *)
Tactic Notation "wp_go" uconstr(lem) "as" ident(w) ident(HR) ident(HI) :=
  wp_pure; eapply lem; [reflexivity|intros w HR HI..].
