(* ===== verification/Adt.v ===== *)
(** The abstract data types of [interfaces.go] as sequential objects.

    Each lock-free or wait-free structure is proved linearizable with respect
    to one of these. *)

From S2P Require Export Linear.

(** What a method returns: nothing, the Go pair [(v T, ok bool)], a count, or
    a boolean. *)
Inductive resp (T : Type) :=
  | RDone
  | RVal (v : T) (ok : bool)
  | RLen (n : Z)
  | RBool (b : bool).
Arguments RDone {_}.
Arguments RVal {_}.
Arguments RLen {_}.
Arguments RBool {_}.

(** [Stack[T]], with the [Length] the implementations add; an approximate
    count, so the abstract stack leaves its value open. *)
Inductive stack_op (T : Type) :=
  | Push (v : T)
  | Pop
  | StackLength.
Arguments Push {_}.
Arguments Pop {_}.
Arguments StackLength {_}.

(** [Queue[T]], with [Length]. *)
Inductive queue_op (T : Type) :=
  | Enqueue (v : T)
  | Dequeue
  | QueueLength.
Arguments Enqueue {_}.
Arguments Dequeue {_}.
Arguments QueueLength {_}.

(** [Deque[T]]. *)
Inductive deque_op (T : Type) :=
  | PushFront (v : T)
  | PushBack (v : T)
  | PopFront
  | PopBack.
Arguments PushFront {_}.
Arguments PushBack {_}.
Arguments PopFront {_}.
Arguments PopBack {_}.

(** [Map[K, V]]. *)
Inductive map_op (K V : Type) :=
  | Set_ (k : K) (v : V)
  | Get (k : K)
  | Del (k : K).
Arguments Set_ {_ _}.
Arguments Get {_ _}.
Arguments Del {_ _}.

Section specs.
Context {T : Type} (zero : T).

Definition stack_step (s : list T) (o : stack_op T) : list T * option (resp T) :=
  match o with
  | Push v => (v :: s, Some RDone)
  | Pop =>
      match s with
      | [] => ([], Some (RVal zero false))
      | v :: s' => (s', Some (RVal v true))
      end
  | StackLength => (s, None)
  end.

Definition stack_spec : spec (list T) (stack_op T) (resp T) := Spec [] stack_step.

Definition queue_step (s : list T) (o : queue_op T) : list T * option (resp T) :=
  match o with
  | Enqueue v => (s ++ [v], Some RDone)
  | Dequeue =>
      match s with
      | [] => ([], Some (RVal zero false))
      | v :: s' => (s', Some (RVal v true))
      end
  | QueueLength => (s, None)
  end.

Definition queue_spec : spec (list T) (queue_op T) (resp T) := Spec [] queue_step.

(** A deque, front first. *)
Definition deque_step (s : list T) (o : deque_op T) : list T * option (resp T) :=
  match o with
  | PushFront v => (v :: s, Some RDone)
  | PushBack v => (s ++ [v], Some RDone)
  | PopFront =>
      match s with
      | [] => ([], Some (RVal zero false))
      | v :: s' => (s', Some (RVal v true))
      end
  | PopBack =>
      match last s with
      | None => (s, Some (RVal zero false))
      | Some v => (take (pred (length s)) s, Some (RVal v true))
      end
  end.

Definition deque_spec : spec (list T) (deque_op T) (resp T) := Spec [] deque_step.
End specs.

(** A map is a function from keys, up to the sameness [same] of keys. *)
Section map_spec.
Context {K V : Type} (zero : V) (same : K → K → bool).

Definition found (o : option V) : resp V :=
  match o with Some v => RVal v true | None => RVal zero false end.

Definition map_step (s : K → option V) (o : map_op K V)
    : (K → option V) * option (resp V) :=
  match o with
  | Set_ k v => (λ k', if same k' k then Some v else s k', Some RDone)
  | Get k => (s, Some (found (s k)))
  | Del k => (λ k', if same k' k then None else s k', Some (found (s k)))
  end.

Definition map_spec : spec (K → option V) (map_op K V) (resp V) :=
  Spec (λ _, None) map_step.
End map_spec.
