(* ===== verification/LfNode.v ===== *)
(** What [lf.Stack] and [lf.Queue] share: the linked node of [lf/node.go], and
    the reasoning about their approximate length counters. *)

From S2P Require Export Atomics.

(** [directItem[T]] of [lf/node.go], shared by the stacks and the queue. *)
Record directItem (T : Type) := DirectItem {
  di_next : option loc;
  di_v : T
}.
Arguments DirectItem {_}.
Arguments di_next {_}.
Arguments di_v {_}.

Definition next_f {T} : field (directItem T) (option loc) :=
  Field di_next (λ p n, DirectItem p (di_v n)).

(** The values of the nodes linked from [p]. *)
Fixpoint linked {T} (h : list (directItem T)) (p : option loc) (vs : list T) : Prop :=
  match vs with
  | [] => p = None
  | v :: vs' => ∃ l nx, p = Some l ∧ h !! l = Some (DirectItem nx v) ∧ linked h nx vs'
  end.

(** ** The length counters

    An operation adjusts the counter a step after it takes effect.  What the
    pending operations still owe is a map from goroutines to corrections, and
    the counter is the length of the structure less the sum of that map. *)

Definition adj_sum (a : gmap nat Z) : Z := map_fold (λ _ z acc, (z + acc)%Z) 0%Z a.

Lemma adj_sum_empty : adj_sum ∅ = 0%Z.
Proof. apply map_fold_empty. Qed.

Lemma adj_sum_insert a t z :
  a !! t = None → adj_sum (<[t:=z]> a) = (z + adj_sum a)%Z.
Proof. intros Ht. unfold adj_sum. rewrite map_fold_insert_L; [done| |done]. lia. Qed.

Lemma adj_sum_delete a t z :
  a !! t = Some z → adj_sum a = (z + adj_sum (delete t a))%Z.
Proof.
  intros Ht. rewrite <-(insert_delete_id a t z) at 1 by done.
  apply adj_sum_insert, lookup_delete_eq.
Qed.
