(* ===== verification/Treiber.v ===== *)
(** The linked stack that [lf.Stack] and [lf.EliminationStack] share.

    Memory and ghost state of Treiber's stack without the goroutines: the heap
    of [directItem]s, the top pointer, the length counter, who allocated a
    node that is not pushed yet ([own]), and what pending operations still owe
    the counter ([adj]). *)

From S2P Require Export LfNode.

Section treiber.
Context {T : Type}.
Implicit Types (h : list (directItem T)) (o : gmap loc nat) (a : gmap nat Z).
Implicit Types (p : option loc) (vs : list T) (n : directItem T) (t u : nat).

(** The nodes reachable from [p] hold the values [vs] and are public. *)
Fixpoint stack_at h o p vs : Prop :=
  match vs with
  | [] => p = None
  | v :: vs' => ∃ l nx, p = Some l ∧ h !! l = Some (DirectItem nx v) ∧ o !! l = None
                        ∧ stack_at h o nx vs'
  end.

Record central h p (len : Z) o a vs : Prop := {
  c_stack : stack_at h o p vs;
  c_own : ∀ l u, o !! l = Some u → l < length h;
  c_len : len = u64 (Z.of_nat (length vs) - adj_sum a)
}.

(** What goroutine [u] relies on: public nodes never change, nor do its own. *)
Record nodes_kept u h o h' o' : Prop := {
  k_public : ∀ l n, h !! l = Some n → o !! l = None → h' !! l = Some n ∧ o' !! l = None;
  k_own : ∀ l, o !! l = Some u → o' !! l = Some u ∧ h' !! l = h !! l
}.

Lemma nodes_kept_refl u h o : nodes_kept u h o h o.
Proof. by split. Qed.

Lemma nodes_kept_trans u h1 o1 h2 o2 h3 o3 :
  nodes_kept u h1 o1 h2 o2 → nodes_kept u h2 o2 h3 o3 → nodes_kept u h1 o1 h3 o3.
Proof.
  intros [P1 O1] [P2 O2]. split.
  - intros l n Hl Ho. destruct (P1 _ _ Hl Ho). eauto.
  - intros l Ho. destruct (O1 _ Ho) as [? <-]. eauto.
Qed.

Lemma stack_at_public h o h' o' p vs :
  (∀ l n, h !! l = Some n → o !! l = None → h' !! l = Some n ∧ o' !! l = None) →
  stack_at h o p vs → stack_at h' o' p vs.
Proof.
  intros Hp. revert p. induction vs as [|v vs IH]; intros p; simpl; [done|].
  intros (l & nx & -> & Hl & Ho & ?). destruct (Hp _ _ Hl Ho). eauto 10.
Qed.

Lemma stack_at_linked h o p vs : stack_at h o p vs → linked h p vs.
Proof.
  revert p. induction vs as [|v vs IH]; intros p; simpl; [done|].
  intros (l & nx & ? & ? & _ & ?). eauto 10.
Qed.

Lemma central_empty h len o a vs : central h None len o a vs → vs = [].
Proof. intros [Hs _ _]. destruct vs; [done|]. by destruct Hs as (? & ? & ? & _). Qed.

Lemma central_top h l len o a vs :
  central h (Some l) len o a vs → ∃ n, h !! l = Some n ∧ o !! l = None.
Proof.
  intros [Hs _ _]. destruct vs; [done|]. destruct Hs as (l' & nx & [= <-] & ? & ? & _). eauto.
Qed.

(** The top pointer moves to the next node: the first value is gone. *)
Lemma central_pop t h l n len o a vs :
  central h (Some l) len o a vs → h !! l = Some n → a !! t = None →
  ∃ vs', vs = di_v n :: vs' ∧ central h (di_next n) len o (<[t := (-1)%Z]> a) vs'.
Proof.
  intros [Hs Ho Hl] Hn Ha. destruct vs as [|v vs]; [done|].
  destruct Hs as (l' & nx & [= <-] & Hn' & _ & Hs). simplify_eq/=.
  exists vs. split; [done|]. split; [done|done|].
  rewrite adj_sum_insert by done. f_equal. lia.
Qed.

(** An allocation. *)
Lemma central_new t h p len o a vs n :
  central h p len o a vs →
  let o' := <[length h := t]> o in
  central (h ++ [n]) p len o' a vs ∧ ∀ u, nodes_kept u h o (h ++ [n]) o'.
Proof.
  intros [Hs Ho Hl] o'.
  assert (o !! length h = None) as Hfresh.
  { destruct (o !! length h) eqn:E; [|done]. apply Ho in E. lia. }
  assert (∀ u, nodes_kept u h o (h ++ [n]) o') as Hk.
  { intros u. split.
    - intros l n' Hl' ?. split; [by apply lookup_snoc_l|].
      apply lookup_lt_Some in Hl'. subst o'. by rewrite lookup_insert_ne by lia.
    - intros l Hl'. pose proof (Ho _ _ Hl'). subst o'.
      rewrite lookup_insert_ne by lia. split; [done|]. by apply lookup_app_l. }
  split; [|exact Hk]. split; [| |done].
  - eapply stack_at_public; [apply (Hk 0)|done].
  - intros l u. subst o'. rewrite length_app. simpl.
    intros [[<- _]|[_ Hl'%Ho]]%lookup_insert_Some; lia.
Qed.

(** A store into a node that is not pushed yet. *)
Lemma central_store t h p len o a vs l n n' :
  central h p len o a vs → o !! l = Some t → h !! l = Some n →
  central (<[l := n']> h) p len o a vs ∧
  ∀ u, u ≠ t → nodes_kept u h o (<[l := n']> h) o.
Proof.
  intros [Hs Ho Hl] Hlo Hln.
  assert (∀ l' m, h !! l' = Some m → o !! l' = None →
    <[l := n']> h !! l' = Some m ∧ o !! l' = None) as Hp.
  { intros l' m Hl' Ho'. split; [|done].
    rewrite list_lookup_insert_ne; [done|]. intros ->; congruence. }
  split.
  - split; [by eapply stack_at_public| |done]. intros l' u. rewrite length_insert. apply Ho.
  - intros u Hu. split; [done|]. intros l' Hl'. split; [done|].
    rewrite list_lookup_insert_ne; [done|]. intros ->; congruence.
Qed.

(** The top pointer moves to a node of [t] that links to the old top. *)
Lemma central_push t h p len o a vs l v :
  central h p len o a vs → o !! l = Some t → h !! l = Some (DirectItem p v) →
  a !! t = None →
  central h (Some l) len (delete l o) (<[t := 1%Z]> a) (v :: vs) ∧
  ∀ u, u ≠ t → nodes_kept u h o h (delete l o).
Proof.
  intros [Hs Ho Hl] Hlo Hln Ha.
  assert (∀ l' m, h !! l' = Some m → o !! l' = None →
    h !! l' = Some m ∧ delete l o !! l' = None) as Hp.
  { intros l' m ? ?. split; [done|]. rewrite lookup_delete. by case_decide. }
  split.
  - split.
    + exists l, p. split; [done|]. split; [done|]. split; [apply lookup_delete_eq|].
      by eapply stack_at_public.
    + intros l' u [_ ?]%lookup_delete_Some. by eapply Ho.
    + rewrite adj_sum_insert by done. rewrite Hl. f_equal. simpl. lia.
  - intros u Hu. split; [done|]. intros l' Hl'.
    rewrite lookup_delete_ne by (intros ->; congruence). done.
Qed.

(** [length.Add(d)] settles what [t] owed. *)
Lemma central_settle t z d h p len o a vs :
  central h p len o a vs → a !! t = Some z → u64 d = u64 z →
  central h p (u64 (len + d)) o (delete t a) vs.
Proof.
  intros [Hs Ho Hl] Ha Hd. split; [done|done|].
  rewrite <-u64_add_r, Hd, u64_add_r, Hl, u64_add_l. f_equal.
  rewrite (adj_sum_delete _ _ _ Ha). lia.
Qed.
End treiber.

#[export] Hint Resolve nodes_kept_refl : lockfree.
