(* ===== verification/LfStack.v ===== *)
(** [lf.Stack]: Treiber's lock-free stack ([lf/stack.go], [lf/node.go]).

    The memory is the heap of [directItem]s, the top pointer and the length
    counter.  [Stack.Push] and [Stack.Pop] are the two CAS loops of the code. *)

From S2P Require Export Rules Adt Treiber.

Module Stack.
Section stack.
Context {T : Type} (zero : T).

Record mem := Mem {
  heap : list (directItem T);
  top : option loc;
  len : Z
}.

Definition heap_f : field mem (list (directItem T)) :=
  Field heap (λ h m, Mem h (top m) (len m)).
Definition top_f : field mem (option loc) :=
  Field top (λ p m, Mem (heap m) p (len m)).
Definition len_f : field mem Z := Field len (λ n m, Mem (heap m) (top m) n).

Definition NewStack : mem := Mem [] None 0.

Definition Pop : prog mem (resp T) :=
  loop (λ _ : unit,
    let! top := act (load top) in
    match top with
    | None => break (RVal zero false)
    | Some p =>
        let! next := act (load_at heap p di_next) in
        let! ok := act (cas top_f (Some p) next) in
        if ok : bool then
          act (add_u64 len_f (two64 - 1)) ;;;
          let! v := act (load_at heap p di_v) in
          break (RVal v true)
        else continue tt
    end) tt.

Definition Push (v : T) : prog mem (resp T) :=
  let! item := act (new heap_f (DirectItem None v)) in
  loop (λ _ : unit,
    let! top := act (load top) in
    act (store_at heap_f item next_f top) ;;;
    let! ok := act (cas top_f top (Some item)) in
    if ok : bool then
      act (add_u64 len_f 1) ;;;
      break RDone
    else continue tt) tt.

Definition Length : prog mem (resp T) :=
  let! n := act (load len) in
  Ret (RLen n).

Definition code (_ : nat) (o : stack_op T) : prog mem (resp T) :=
  match o with
  | Adt.Push v => Push v
  | Adt.Pop => Pop
  | StackLength => Length
  end.

(** Any goroutine may call any method. *)
Definition stack_object : object mem (stack_op T) (resp T) :=
  Object NewStack code (λ _ _ _ _, true).

(** ** The invariant *)

(** Ghost state: who allocated a node that is not on the stack yet, and by
    how much a pending operation still has to adjust the length. *)
Record aux := Aux {
  own : gmap loc nat;
  adj : gmap nat Z
}.

Abbreviation world := (world mem (stack_op T) (resp T) aux).

Definition g_vals (w : world) : list T := g_state (stack_spec zero) (w_gh w).

Record Inv (w : world) : Prop := {
  i_central : central (heap (w_mem w)) (top (w_mem w)) (len (w_mem w))
    (own (w_aux w)) (adj (w_aux w)) (g_vals w);
  i_adj : ∀ u, g_thr (w_gh w) !! u = None → adj (w_aux w) !! u = None
}.

(** What goroutine [t] may rely on. *)
Record R (t : nat) (w w' : world) : Prop := {
  r_nodes : nodes_kept t (heap (w_mem w)) (own (w_aux w)) (heap (w_mem w')) (own (w_aux w'));
  r_adj : adj (w_aux w') !! t = adj (w_aux w) !! t;
  r_top : w_len w' = w_len w → top (w_mem w') = top (w_mem w);
  r_quiet : quiet t (w_gh w) (w_gh w')
}.

Lemma stack_R_order t : PreOrder (R t).
Proof.
  split.
  - split; auto with lockfree.
  - intros w1 w2 w3 [N1 A1 T1 Q1] [N2 A2 T2 Q2]. split.
    + by eapply nodes_kept_trans.
    + congruence.
    + intros Hlen. destruct Q1 as [_ ?%prefix_length], Q2 as [_ ?%prefix_length].
      unfold w_len in *. rewrite T2, T1; [done|lia..].
    + by etrans.
Qed.

Abbreviation Sp := (stack_spec zero).
Definition proto : protocol mem (stack_op T) (resp T) aux := Protocol Inv R stack_R_order.
Abbreviation rely := (pr_rely proto).
(** An operation takes at most [steps] steps when no other takes effect. *)
Definition steps : nat := 6.
Abbreviation pg := (LockFree steps).
Abbreviation wp t := (wp Sp proto pg t (post Sp proto t)).

(** ** What a goroutine knows, and that the others respect it *)

(** The operation [o] of [t] is under way: not in effect, nothing owed. *)
Definition ready (t : nat) (o : stack_op T) (w : world) : Prop :=
  pending (w_gh w) t o ∧ adj (w_aux w) !! t = None.

(** The operation of [t] took effect with response [r]; the length counter
    still lags by [z] on account of it. *)
Definition owing (t : nat) (z : option Z) (r : resp T) (w : world) : Prop :=
  finished (w_gh w) t r ∧ adj (w_aux w) !! t = z.

(** A node that was once on the stack: immutable. *)
Definition node (l : loc) (n : directItem T) (w : world) : Prop :=
  heap (w_mem w) !! l = Some n ∧ own (w_aux w) !! l = None.

(** A node that [t] allocated and has not pushed yet. *)
Definition private (t : nat) (l : loc) (n : directItem T) (w : world) : Prop :=
  heap (w_mem w) !! l = Some n ∧ own (w_aux w) !! l = Some t.

Lemma stack_ready_stable t o w w' : rely t w w' → ready t o w → ready t o w'.
Proof.
  intros HR [? Ha]. split; [eapply pending_quiet; [done|apply (r_quiet _ _ _ HR)]|].
  by rewrite (r_adj _ _ _ HR).
Qed.

Lemma stack_owing_stable t z r w w' : rely t w w' → owing t z r w → owing t z r w'.
Proof.
  intros HR [? Ha]. split; [eapply finished_quiet; [done|apply (r_quiet _ _ _ HR)]|].
  by rewrite (r_adj _ _ _ HR).
Qed.

Lemma node_stable t l n w w' : rely t w w' → node l n w → node l n w'.
Proof. intros HR [? ?]. by apply (k_public _ _ _ _ _ (r_nodes _ _ _ HR)). Qed.

Lemma stack_private_stable t l n w w' : rely t w w' → private t l n w → private t l n w'.
Proof.
  intros HR [Hh Ho]. destruct (k_own _ _ _ _ _ (r_nodes _ _ _ HR) _ Ho) as [? Heq]. split; [|done].
  by rewrite Heq.
Qed.

(** Since the log had length [L], the top was [p] or something took effect. *)
Definition seen (p : option loc) (L : nat) (w : world) : Prop :=
  L ≤ w_len w ∧ (top (w_mem w) ≠ p → L < w_len w).

Lemma seen_stable t p L w w' : rely t w w' → seen p L w → seen p L w'.
Proof.
  intros HR [HL Hp]. destruct (r_quiet _ _ _ HR) as [_ Hle%prefix_length].
  unfold seen, w_len in *. split; [lia|]. intros Hne.
  destruct (decide (length (g_log (w_gh w')) = length (g_log (w_gh w)))) as [Heq|]; [|lia].
  rewrite (r_top _ _ _ HR) in Hne by done. rewrite Heq. auto.
Qed.

Hint Resolve stack_ready_stable stack_owing_stable node_stable stack_private_stable seen_stable
  : lockfree.

Lemma top_node w p : Inv w → top (w_mem w) = Some p → ∃ n, node p n w.
Proof.
  intros HI Htop. pose proof (i_central _ HI) as Hc. rewrite Htop in Hc.
  by apply central_top in Hc.
Qed.

(** ** The writes of the code keep the invariant *)

(** The [CompareAndSwap] of [Pop] succeeds: the pop takes effect. *)
Lemma pop_cas t p n w :
  Inv w → ready t Adt.Pop w → top (w_mem w) = Some p → node p n w →
  let w' := upd Sp w (f_set top_f (di_next n) (w_mem w)) [t]
              (Aux (own (w_aux w)) (<[t := (-1)%Z]> (adj (w_aux w)))) in
  good_step proto t w w' ∧ owing t (Some (-1)%Z) (RVal (di_v n) true) w'.
Proof.
  intros HI [Hp Ha] Htop [Hh Ho] w'. pose proof (i_central _ HI) as Hc.
  rewrite Htop in Hc. destruct (central_pop t _ _ _ _ _ _ _ Hc Hh Ha) as (vs & Est & Hc').
  unfold g_vals in Est.
  assert ((spec_step Sp (g_state Sp (w_gh w)) Adt.Pop).2 = Some (RVal (di_v n) true)) as Hr
    by by rewrite Est.
  destruct (lin1_pending Sp _ _ _ _ Hp Hr) as (Hf & Hst & Hlen & _).
  rewrite Est in Hst. simpl in Hst.
  split; [split|split; [exact Hf|apply lookup_insert_eq]].
  - split; unfold g_vals; simpl; rewrite ?Hst; [done|].
    intros u Hu. destruct (lin1_dom _ _ _ _ _ _ Hp Hr Hu).
    rewrite lookup_insert_ne by done. by apply HI.
  - intros u Hu. split; simpl; auto with lockfree; unfold w_len; simpl.
    + by rewrite lookup_insert_ne by done.
    + rewrite Hlen. lia.
Qed.

(** [Pop] loads a [nil] top: the pop takes effect on an empty stack. *)
Lemma pop_empty t w :
  Inv w → ready t Adt.Pop w → top (w_mem w) = None →
  let w' := upd Sp w (w_mem w) [t] (w_aux w) in
  good_step proto t w w' ∧ owing t None (RVal zero false) w'.
Proof.
  intros HI [Hp Ha] Htop w'. pose proof (i_central _ HI) as Hc.
  rewrite Htop in Hc. apply central_empty in Hc as Est. unfold g_vals in Est.
  assert ((spec_step Sp (g_state Sp (w_gh w)) Adt.Pop).2 = Some (RVal zero false)) as Hr
    by by rewrite Est.
  destruct (lin1_pending Sp _ _ _ _ Hp Hr) as (Hf & Hst & Hlen & _).
  rewrite Est in Hst. simpl in Hst. split; [split|split; [exact Hf|done]].
  - split; unfold g_vals; simpl; rewrite ?Hst, <-?Est; [by apply HI|].
    intros u Hu. destruct (lin1_dom _ _ _ _ _ _ Hp Hr Hu). by apply HI.
  - intros u Hu. split; simpl; auto with lockfree.
Qed.

(** [Push] allocates its node. *)
Lemma push_new t o n w :
  Inv w → ready t o w →
  let w' := upd Sp w (f_set heap_f (heap (w_mem w) ++ [n]) (w_mem w)) []
              (Aux (<[length (heap (w_mem w)) := t]> (own (w_aux w))) (adj (w_aux w))) in
  good_step proto t w w' ∧ ready t o w' ∧ private t (length (heap (w_mem w))) n w'.
Proof.
  intros HI Hready w'.
  destruct (central_new t _ _ _ _ _ _ n (i_central _ HI)) as [Hc Hk].
  split; [split|split; [exact Hready|]].
  - split; simpl; [exact Hc|apply HI].
  - intros u Hu. split; simpl; auto with lockfree.
  - split; simpl; [apply lookup_snoc_eq|apply lookup_insert_eq].
Qed.

(** [item.next.Store(top)] on the private node. *)
Lemma push_store t o l n p w :
  Inv w → ready t o w → private t l n w →
  let n' := f_set next_f p n in
  let w' := upd Sp w (f_set heap_f (<[l := n']> (heap (w_mem w))) (w_mem w)) []
              (w_aux w) in
  good_step proto t w w' ∧ ready t o w' ∧ private t l n' w'.
Proof.
  intros HI Hready [Hh Ho] n' w'.
  destruct (central_store t _ _ _ _ _ _ l n n' (i_central _ HI) Ho Hh) as [Hc Hk].
  split; [split|split; [exact Hready|]].
  - split; simpl; [exact Hc|apply HI].
  - intros u Hu. split; simpl; auto with lockfree.
  - split; [|done]. simpl. apply list_lookup_insert_eq. by eapply lookup_lt_Some.
Qed.

(** The [CompareAndSwap] of [Push] succeeds: the push takes effect. *)
Lemma push_cas t l v w :
  Inv w → ready t (Adt.Push v) w → private t l (DirectItem (top (w_mem w)) v) w →
  let w' := upd Sp w (f_set top_f (Some l) (w_mem w)) [t]
              (Aux (delete l (own (w_aux w))) (<[t := 1%Z]> (adj (w_aux w)))) in
  good_step proto t w w' ∧ owing t (Some 1%Z) RDone w'.
Proof.
  intros HI [Hp Ha] [Hh Ho] w'.
  destruct (central_push t _ _ _ _ _ _ l v (i_central _ HI) Ho Hh Ha) as [Hc Hk].
  assert ((spec_step Sp (g_state Sp (w_gh w)) (Adt.Push v)).2 = Some RDone) as Hr by done.
  destruct (lin1_pending Sp _ _ _ _ Hp Hr) as (Hf & Hst & Hlen & _). simpl in Hst.
  split; [split|split; [exact Hf|apply lookup_insert_eq]].
  - split; unfold g_vals; simpl; rewrite ?Hst; [done|].
    intros u Hu. destruct (lin1_dom _ _ _ _ _ _ Hp Hr Hu).
    rewrite lookup_insert_ne by done. by apply HI.
  - intros u Hu. split; simpl; auto with lockfree.
    + by rewrite lookup_insert_ne by done.
    + unfold w_len. simpl. rewrite Hlen. lia.
Qed.

(** [s.len.Add(d)] settles what the operation owed. *)
Lemma stack_settle t r z d w :
  Inv w → owing t (Some z) r w → u64 d = u64 z →
  let w' := upd Sp w (f_set len_f (u64 (len (w_mem w) + d)) (w_mem w)) []
              (Aux (own (w_aux w)) (delete t (adj (w_aux w)))) in
  good_step proto t w w' ∧ owing t None r w'.
Proof.
  intros HI [Hf Ha] Hd w'. split; [split|split; [exact Hf|apply lookup_delete_eq]].
  - split; simpl; [eapply central_settle; [apply HI|done..]|].
    intros u. rewrite lookup_delete. case_decide; [done|]. apply HI.
  - intros u Hu. split; simpl; auto with lockfree. by rewrite lookup_delete_ne by done.
Qed.

(** ** The methods *)

Lemma stack_return_world t r w :
  Inv w → adj (w_aux w) !! t = None →
  good_step proto t w (World (w_mem w) (g_ret t r (w_gh w)) (w_aux w)).
Proof.
  intros HI Ha. split.
  - split; simpl; try apply HI. intros u. rewrite lookup_delete. case_decide.
    + by subst.
    + apply HI.
  - intros u Hu. split; simpl; auto with lockfree.
Qed.

Lemma stack_return_finished t b r w : owing t None r w → wp t b (Ret r) w.
Proof.
  intros Hdone. apply wp_ret. intros w' HR HI.
  eapply stack_owing_stable in Hdone as [Hf Ha]; [|exact HR].
  destruct (finished_ret_ok Sp _ _ _ Hf) as (p & Hp & Hret).
  exists p. split; [done|]. split; [done|]. exists (w_aux w').
  by apply stack_return_world.
Qed.

Lemma stack_Length_wp t n L w : ready t StackLength w → wp t (Refill (S n) L) Length w.
Proof.
  intros Hready. wp_go wp_load as w1 HR1 HI1.
  apply wp_ret. intros w2 HR2 HI2.
  assert (ready t StackLength w2) as [Hp Ha] by eauto with lockfree.
  destruct (pending_ret_ok_open Sp _ _ _ (RLen (len (w_mem w1))) Hp)
    as (p & Hp' & Hret); [done|].
  exists p. split; [done|]. split; [done|]. exists (w_aux w2). by apply stack_return_world.
Qed.

(** The length update after the operation took effect. *)
Lemma wp_stack_settle {A} t r z d m L Q (k : Z → prog mem A) w :
  owing t (Some z) r w → u64 d = u64 z →
  (∀ n w', owing t None r w' → (∀ l n, node l n w → node l n w') →
     Logic.wp Sp proto pg t Q (Refill m L) (k n) w') →
  Logic.wp Sp proto pg t Q (Refill (S m) L) (Act (add_u64 len_f d) k) w.
Proof.
  intros Howe Hd Hk. wp_go wp_add_u64 as w1 HR1 HI1.
  eapply stack_owing_stable in Howe; [|exact HR1].
  destruct (stack_settle t r z d w1 HI1 Howe Hd) as [Hgood Howe1].
  eexists [], _. split; [exact Hgood|]. apply Hk; [exact Howe1|].
  intros l n Hn. by apply (node_stable _ _ _ _ _ HR1).
Qed.

(** At the head of the loops there are [c] steps left. *)
Definition at_head (c : nat) (b : budget) (w : world) : Prop :=
  ∃ n L, b = Refill (c + n) L ∧ L ≤ w_len w.

Lemma stack_at_head_stable t c b w w' : rely t w w' → at_head c b w → at_head c b w'.
Proof.
  intros HR (n & L & ? & ?). destruct (r_quiet _ _ _ HR) as [_ Hle%prefix_length].
  exists n, L. unfold w_len in *. split; [done|lia].
Qed.

(** A failed [CompareAndSwap] on the top pointer: go round, with a new budget. *)
Lemma wp_stack_retry {A} t c n L p (P : world → Prop) Q w :
  c ≤ steps →
  (∀ w w', rely t w w' → P w → P w') →
  seen p L w → top (w_mem w) ≠ p → P w →
  (∀ b w, at_head c b w → P w → Q b (inl tt) w) →
  Logic.wp Sp proto pg t Q (Refill n L) (continue tt : prog mem (unit + A)) w.
Proof.
  intros Hc HP Hseen Htop HPw HQ. destruct Hseen as [_ Hgrow].
  apply Hgrow in Htop. eapply wp_refill; [done|]. intros w' HR _.
  destruct (r_quiet _ _ _ HR) as [_ Hle%prefix_length]. unfold w_len in *.
  split; [lia|]. apply wp_ret. intros w'' HR' _.
  destruct (r_quiet _ _ _ HR') as [_ Hle'%prefix_length].
  apply HQ; [|by eapply HP, HP]. exists (steps - c), (length (g_log (w_gh w'))).
  split; [f_equal; lia|unfold w_len; lia].
Qed.

Lemma Pop_wp t b w : at_head 6 b w → ready t Adt.Pop w → wp t b Pop w.
Proof.
  intros Hb Hready. apply (wp_loop Sp proto pg t _
    (λ b _ w, at_head 6 b w ∧ ready t Adt.Pop w));
    [clear b w Hb Hready|intros ? _ w1 w2 [? ?] ?; split;
       [by eapply stack_at_head_stable|by eauto with lockfree]|done].
  intros b _ w [(n0 & L & -> & HL) Hready] _. eexists. split; [reflexivity|].
  wp_go wp_load_lin as w1 HR1 HI1. assert (ready t Adt.Pop w1) by eauto with lockfree.
  destruct (top (w_mem w1)) as [p|] eqn:Etop.
  - exists [], (w_aux w1). rewrite upd_id. split; [by apply good_step_refl|].
    destruct (top_node _ _ HI1 Etop) as (n & Hn).
    assert (seen (Some p) L w1) as Hseen.
    { destruct (r_quiet _ _ _ HR1) as [_ Hle%prefix_length]. unfold seen, w_len in *.
      split; [lia|]. by rewrite Etop. }
    wp_go wp_load_at as w2 HR2 HI2. exists n. split; [by eapply node_stable|].
    assert (node p n w2) by by eapply node_stable.
    wp_go wp_cas as w3 HR3 HI3; intros Etop3; simpl in Etop3.
    + edestruct (pop_cas t p n w3) as [Hgood Howe]; eauto with lockfree.
      eexists _, _. split; [exact Hgood|]. wp_pure.
      eapply wp_stack_settle; [exact Howe|done|]. intros _ w4 Howe4 Hnode.
      wp_go wp_load_at as w5 HR5 HI5. exists n. split.
      { eapply node_stable; [done|]. apply Hnode. by apply (node_stable _ _ _ _ _ HR3). }
      wp_pure. apply wp_ret. intros w6 HR6 _. apply stack_return_finished.
      eauto with lockfree.
    + eapply (wp_stack_retry t 6 _ L (Some p) (ready t Adt.Pop));
        [unfold steps; lia|apply stack_ready_stable|by eauto with lockfree..|done].
  - destruct (pop_empty t w1) as [Hgood Howe]; [done..|].
    eexists _, _. split; [exact Hgood|]. apply wp_ret. intros w2 HR2 _.
    apply stack_return_finished. eauto with lockfree.
Qed.

Lemma Push_wp t v n0 L0 w :
  L0 ≤ w_len w → ready t (Adt.Push v) w → wp t (Refill (6 + n0) L0) (Push v) w.
Proof.
  intros HL Hready. wp_go wp_new as w1 HR1 HI1.
  edestruct (push_new t (Adt.Push v) (DirectItem None v) w1)
    as (Hgood & Hready1 & Hpriv); [done|by eauto with lockfree|].
  eexists _, _. split; [exact Hgood|]. simpl in Hpriv |- *.
  set (item := length (heap (w_mem w1))) in *. clearbody item.
  apply (wp_loop Sp proto pg t _ (λ b _ w, at_head 5 b w ∧
    ready t (Adt.Push v) w ∧ ∃ p, private t item (DirectItem p v) w));
    [|intros ? _ w2 w3 (? & ? & p & ?) ?; split_and!;
       [by eapply stack_at_head_stable|by eauto with lockfree|exists p; by eauto with lockfree]|].
  2:{ split_and!; [|done|by eauto]. exists n0, L0. split; [done|].
      destruct (r_quiet _ _ _ HR1) as [_ Hle%prefix_length]. unfold w_len in *.
      simpl. lia. }
  clear. intros b _ w ((n & L & -> & HL) & Hready & p & Hpriv) _.
  eexists. split; [reflexivity|].
  wp_go wp_load as w1 HR1 HI1.
  assert (seen (top (w_mem w1)) L w1) as Hseen.
  { destruct (r_quiet _ _ _ HR1) as [_ Hle%prefix_length]. unfold seen, w_len in *.
    split; [lia|done]. }
  wp_go wp_store_at as w2 HR2 HI2.
  edestruct (push_store t (Adt.Push v) item (DirectItem p v) (top (w_mem w1)) w2)
    as (Hgood2 & Hready2 & Hpriv2); [done|by eauto with lockfree..|].
  eexists _, _, _. split; [|split; [exact Hgood2|]].
  { apply (stack_private_stable _ _ _ _ _ HR2), (stack_private_stable _ _ _ _ _ HR1), Hpriv. }
  eapply seen_stable in Hseen; [|exact HR2].
  wp_go wp_cas as w3 HR3 HI3; intros Etop; simpl in Etop.
  - edestruct (push_cas t item v w3) as [Hgood3 Howe3];
      [done|by eauto with lockfree| |].
    { rewrite Etop. by eapply stack_private_stable. }
    eexists _, _. split; [exact Hgood3|]. wp_pure.
    eapply wp_stack_settle; [exact Howe3|done|]. intros _ w4 Howe4 _.
    apply wp_ret. intros w5 HR5 _. apply stack_return_finished. eauto with lockfree.
  - eapply (wp_stack_retry t 5 _ L (top (w_mem w1)) (λ w, ready t (Adt.Push v) w ∧
      ∃ p, private t item (DirectItem p v) w)); [unfold steps; lia|..|done| |done].
    + intros w4 w5 HR [? (q & ?)]. split; [|exists q]; by eauto with lockfree.
    + eapply seen_stable; [exact HR3|exact Hseen].
    + split; [by eauto with lockfree|]. exists (top (w_mem w1)).
      eapply stack_private_stable; [exact HR3|exact Hpriv2].
Qed.

Lemma stack_verified : verified Sp proto pg stack_object.
Proof.
  split.
  - exists (Aux ∅ ∅). by split.
  - intros t id o w HI Hnone _ _. exists (w_aux w).
    assert (good_step proto t w (World (w_mem w) (g_call t id o (w_gh w)) (w_aux w)))
      as [HI' HR'].
    { split.
      - split; simpl; try apply HI. intros u [? ?]%lookup_insert_None. by apply HI.
      - intros u Hu. split; simpl; auto with lockfree. }
    split; [exact HI'|]. split; [exact HR'|].
    assert (ready t o (World (w_mem w) (g_call t id o (w_gh w)) (w_aux w))).
    { split; [apply pending_call|by apply HI]. }
    destruct o; [by apply (Push_wp t v 0)| |by apply stack_Length_wp].
    apply Pop_wp; [|done]. by exists 0, (w_len w).
Qed.

(** ** Properties *)

(** C1. Treiber's stack is linearizable: whatever the goroutines call and
    however their steps interleave, the calls and returns are those of a
    sequential LIFO stack in some order that respects real time.  [Length] may
    return anything (see [stack_length_underflow]). *)
Theorem stack_linearizable cs s :
  reaches stack_object cs s → linearizable (stack_spec zero) (sy_hist s).
Proof. apply (verified_linearizable Sp proto _ pg), stack_verified. Qed.

(** No schedule makes [Push], [Pop] or [Length] dereference a nil or
    dangling pointer. *)
Theorem stack_no_panic cs : exec stack_object cs (start stack_object) ≠ Crash.
Proof. apply (verified_no_crash Sp proto _ pg), stack_verified. Qed.

(** C5. Lock-freedom: a pending operation has taken at most six steps for each
    operation that overlaps it, and six of its own. *)
Theorem stack_lock_free cs s t r :
  reaches stack_object cs s → sy_thr s !! t = Some r →
  r_steps r ≤ steps * (1 + overlap (sy_hist s) (r_id r)).
Proof. apply (verified_lockfree Sp proto _ pg); [apply stack_verified|done]. Qed.

(** C36. When no operation is pending, the nodes linked from the top pointer hold the
    stack that is left by a linearization of the history so far, and the length
    counter is the number of its values. *)
Theorem stack_length_quiescent cs s :
  reaches stack_object cs s → sy_thr s = ∅ →
  ∃ L, linearization Sp (sy_hist s) L ∧ let vs := run Sp [] L in
    linked (heap (sy_mem s)) (top (sy_mem s)) vs ∧
    len (sy_mem s) = u64 (Z.of_nat (length vs)).
Proof.
  intros Hc Hq. destruct (verified_state Sp proto _ pg _ _ stack_verified Hc)
    as (w & L & Hw & HI & Hthr & HL & Hrun).
  exists L. split; [done|]. simpl in Hrun. cbn zeta. rewrite Hrun.
  change (g_state Sp (w_gh w)) with (g_vals w). rewrite <-Hw. split; [by eapply stack_at_linked, c_stack, i_central|].
  rewrite (c_len _ _ _ _ _ _ (i_central _ HI)). f_equal.
  enough (adj (w_aux w) = ∅) as -> by (rewrite adj_sum_empty; lia).
  apply map_eq. intros u. rewrite lookup_empty. apply HI, Hthr. by rewrite Hq.
Qed.
End stack.

(** Two concurrent pushes and pops, interleaved step by step. *)
Definition demo_schedule : list (cmd (stack_op nat)) :=
  [Call 0 (Adt.Push 7); Call 1 (Adt.Push 8); Step 0; Step 1; Step 0; Step 1; Step 0;
   Step 1] ++ replicate 4 (Step 0) ++ replicate 8 (Step 1) ++
  Call 2 Adt.Pop :: replicate 7 (Step 2).

Lemma stack_linearizable_witness : ∃ s,
  reaches (stack_object 0) demo_schedule s ∧
  sy_hist s = [EInv 0 0 (Adt.Push 7); EInv 1 1 (Adt.Push 8); ERes 0 0 RDone;
               ERes 1 1 RDone; EInv 2 4 Adt.Pop; ERes 2 4 (RVal 8 true)] ∧
  linearizable (stack_spec 0) (sy_hist s).
Proof.
  destruct (run_history_reaches (stack_object 0) demo_schedule _
    ltac:(vm_compute; reflexivity)) as (s & Hs & Hh).
  exists s. split; [exact Hs|]. split; [exact Hh|].
  exact (stack_linearizable 0 demo_schedule s Hs).
Defined.

Lemma stack_length_quiescent_witness : ∃ s L,
  reaches (stack_object 0) demo_schedule s ∧ linearization (stack_spec 0) (sy_hist s) L ∧
  linked (heap (sy_mem s)) (top (sy_mem s)) (run (stack_spec 0) [] L) ∧
  len (sy_mem s) = u64 (Z.of_nat (length (run (stack_spec 0) [] L))).
Proof.
  destruct (run_quiet_reaches (stack_object 0) demo_schedule
    ltac:(vm_compute; reflexivity)) as (s & Hs & Hq).
  destruct (stack_length_quiescent 0 demo_schedule s Hs Hq) as (L & HL).
  exists s, L. split; [exact Hs|exact HL].
Defined.

Lemma stack_lock_free_witness : ∃ s r,
  reaches (stack_object 0) (take 13 demo_schedule) s ∧ sy_thr s !! 1 = Some r ∧
  r_steps r = 4 ∧ r_steps r ≤ steps * (1 + overlap (sy_hist s) (r_id r)).
Proof.
  destruct (run_steps_reaches (stack_object 0) (take 13 demo_schedule) 1 4
    ltac:(vm_compute; reflexivity)) as (s & r & Hs & Hr & Hn).
  exists s, r. split; [exact Hs|]. split; [exact Hr|]. split; [exact Hn|].
  exact (stack_lock_free 0 (take 13 demo_schedule) s 1 r Hs Hr).
Defined.

(** A push whose node is linked but not yet counted, and a pop of that node. *)
Definition underflow_schedule : list (cmd (stack_op nat)) :=
  Call 0 (Adt.Push 7) :: replicate 5 (Step 0) ++
  Call 1 Adt.Pop :: replicate 7 (Step 1) ++
  Call 1 StackLength :: replicate 2 (Step 1) ++
  replicate 2 (Step 0).

(** C39. [Length] can read 2^64 - 1 although the stack never held more than one
    item: the pop of a node is counted before its push. *)
Theorem stack_length_underflow : ∃ s id,
  reaches (stack_object 0) underflow_schedule s ∧
  ERes 1 id (RLen (two64 - 1)) ∈ sy_hist s.
Proof.
  destruct (run_history_reaches (stack_object 0) underflow_schedule _
    ltac:(vm_compute; reflexivity)) as (s & Hs & Hh).
  exists s, 3. split; [exact Hs|]. rewrite Hh. do 4 right. left.
Qed.
End Stack.
