(* ===== verification/LfQueue.v ===== *)
(** [lf.Queue]: the lock-free queue of Michael and Scott ([lf/queue.go]).

    The nodes ever linked form a chain: [chain] of the ghost state lists them
    with their values, [front] and [back] are the positions of the head and the
    tail pointers in it, and the queue holds the values after [front]. *)

From S2P Require Export Rules Adt LfNode.

Module Queue.
Section queue.
Context {T : Type} (zero : T).

Record mem := Mem {
  heap : list (directItem T);
  head : option loc;
  tail : option loc;
  len : Z
}.

Definition heap_f : field mem (list (directItem T)) :=
  Field heap (λ h m, Mem h (head m) (tail m) (len m)).
Definition head_f : field mem (option loc) :=
  Field head (λ p m, Mem (heap m) p (tail m) (len m)).
Definition tail_f : field mem (option loc) :=
  Field tail (λ p m, Mem (heap m) (head m) p (len m)).
Definition len_f : field mem Z :=
  Field len (λ n m, Mem (heap m) (head m) (tail m) n).

(** Both pointers point to the sentinel. *)
Definition NewQueue : mem := Mem [DirectItem None zero] (Some 0) (Some 0) 0.

Definition Enqueue (v : T) : prog mem (resp T) :=
  let! i := act (new heap_f (DirectItem None v)) in
  loop (λ _ : unit,
    let! last := act (load tail) in
    let! lastnext := act (load_ptr heap last di_next) in
    let! tail' := act (load tail) in
    if decide (last = tail') then
      match lastnext with
      | None =>
          let! ok := act (cas_ptr heap_f last next_f None (Some i)) in
          if ok : bool then
            act (cas tail_f last (Some i)) ;;;
            act (add_u64 len_f 1) ;;;
            break RDone
          else continue tt
      | Some _ =>
          act (cas tail_f last lastnext) ;;;
          continue tt
      end
    else continue tt) tt.

Definition Dequeue : prog mem (resp T) :=
  loop (λ _ : unit,
    let! first := act (load head) in
    let! last := act (load tail) in
    let! firstnext := act (load_ptr heap first di_next) in
    let! head' := act (load head) in
    if decide (first = head') then
      if decide (first = last) then
        match firstnext with
        | None => break (RVal zero false)
        | Some _ =>
            act (cas tail_f last firstnext) ;;;
            continue tt
        end
      else
        let! v := act (load_ptr heap firstnext di_v) in
        let! ok := act (cas head_f first firstnext) in
        if ok : bool then
          act (add_u64 len_f (two64 - 1)) ;;;
          break (RVal v true)
        else continue tt
    else continue tt) tt.

Definition Length : prog mem (resp T) :=
  let! n := act (load len) in
  Ret (RLen n).

Definition code (_ : nat) (o : queue_op T) : prog mem (resp T) :=
  match o with
  | Adt.Enqueue v => Enqueue v
  | Adt.Dequeue => Dequeue
  | QueueLength => Length
  end.

(** Any goroutine may call any method. *)
Definition queue_object : object mem (queue_op T) (resp T) :=
  Object NewQueue code (λ _ _ _ _, true).

(** ** The invariant *)

Record aux := Aux {
  chain : list (loc * T);
  front : nat;
  back : nat;
  own : gmap loc nat;
  adj : gmap nat Z
}.

Abbreviation world := (world mem (queue_op T) (resp T) aux).

(** The node at position [k] of the chain. *)
Definition at_pos (k : nat) (l : loc) (v : T) (w : world) : Prop :=
  chain (w_aux w) !! k = Some (l, v).

(** The successor of position [k], as its next pointer. *)
Definition succ (k : nat) (w : world) : option loc :=
  fst <$> chain (w_aux w) !! S k.

Definition g_vals (w : world) : list T := g_state (queue_spec zero) (w_gh w).

Record Inv (w : world) : Prop := {
  i_node : ∀ k l v, at_pos k l v w →
    heap (w_mem w) !! l = Some (DirectItem (succ k w) v) ∧ own (w_aux w) !! l = None;
  i_nodup : NoDup (chain (w_aux w)).*1;
  i_vals : g_vals w = (drop (S (front (w_aux w))) (chain (w_aux w))).*2;
  i_head : ∃ l v, at_pos (front (w_aux w)) l v w ∧ head (w_mem w) = Some l;
  i_tail : ∃ l v, at_pos (back (w_aux w)) l v w ∧ tail (w_mem w) = Some l;
  i_order : front (w_aux w) ≤ back (w_aux w);
  i_lag : length (chain (w_aux w)) ≤ S (S (back (w_aux w)));
  i_own : ∀ l u, own (w_aux w) !! l = Some u → l < length (heap (w_mem w));
  i_len : len (w_mem w) = u64 (Z.of_nat (length (g_vals w)) - adj_sum (adj (w_aux w)));
  i_adj : ∀ u, g_thr (w_gh w) !! u = None → adj (w_aux w) !! u = None
}.

(** The tail pointer is at the last node. *)
Definition caught_up (w : world) : Prop :=
  S (back (w_aux w)) = length (chain (w_aux w)).

(** What goroutine [t] may rely on. *)
Record R (t : nat) (w w' : world) : Prop := {
  r_chain : chain (w_aux w) `prefix_of` chain (w_aux w');
  r_front : front (w_aux w) ≤ front (w_aux w');
  r_back : back (w_aux w) ≤ back (w_aux w');
  r_own : ∀ l, own (w_aux w) !! l = Some t →
    own (w_aux w') !! l = Some t ∧ heap (w_mem w') !! l = heap (w_mem w) !! l;
  r_adj : adj (w_aux w') !! t = adj (w_aux w) !! t;
  r_log : w_len w' = w_len w →
    chain (w_aux w') = chain (w_aux w) ∧ front (w_aux w') = front (w_aux w) ∧
    (caught_up w → caught_up w');
  r_quiet : quiet t (w_gh w) (w_gh w')
}.

Lemma queue_R_order t : PreOrder (R t).
Proof.
  split.
  - by split.
  - intros w1 w2 w3 [C1 F1 B1 O1 A1 L1 Q1] [C2 F2 B2 O2 A2 L2 Q2]. split.
    + by etrans.
    + lia.
    + lia.
    + intros l Ho. destruct (O1 _ Ho) as [? <-]. eauto.
    + congruence.
    + intros Hlen. destruct Q1 as [_ ?%prefix_length], Q2 as [_ ?%prefix_length].
      unfold w_len in *. destruct L1 as (? & ? & ?), L2 as (? & ? & ?); [lia..|].
      split_and!; [congruence|lia|auto].
    + by etrans.
Qed.

Abbreviation Sp := (queue_spec zero).
Definition proto : protocol mem (queue_op T) (resp T) aux := Protocol Inv R queue_R_order.
Abbreviation rely := (pr_rely proto).

Lemma rely_len t w w' : rely t w w' → w_len w ≤ w_len w'.
Proof. intros HR. apply prefix_length, (r_quiet _ _ _ HR). Qed.

(** ** What a goroutine knows, and that the others respect it *)

(** The operation [o] of [t] is under way: not in effect, nothing owed. *)
Definition ready (t : nat) (o : queue_op T) (w : world) : Prop :=
  pending (w_gh w) t o ∧ adj (w_aux w) !! t = None.

(** The operation of [t] took effect with response [r]; the length counter
    still lags by [z] on account of it. *)
Definition owing (t : nat) (z : option Z) (r : resp T) (w : world) : Prop :=
  finished (w_gh w) t r ∧ adj (w_aux w) !! t = z.

(** A node that [t] allocated and has not linked yet. *)
Definition private (t : nat) (l : loc) (v : T) (w : world) : Prop :=
  heap (w_mem w) !! l = Some (DirectItem None v) ∧ own (w_aux w) !! l = Some t.

(** The queue was empty at some moment since the call of [t]'s [Dequeue]. *)
Definition seen_empty (t : nat) (w : world) : Prop :=
  observed Sp (w_gh w) t Adt.Dequeue (RVal zero false).

(** Unless an operation took effect since the log had length [N], the chain is
    [ch] and the head at position [fr]. *)
Definition frozen (N : nat) (ch : list (loc * T)) (fr : nat) (w : world) : Prop :=
  N ≤ w_len w ∧
  (w_len w = N → chain (w_aux w) = ch ∧ front (w_aux w) = fr).

(** Unless an operation took effect since the log had length [L], the tail
    points to the last node. *)
Definition fresh (L : nat) (w : world) : Prop :=
  L ≤ w_len w ∧ (w_len w = L → caught_up w).

Lemma queue_ready_stable t o w w' : rely t w w' → ready t o w → ready t o w'.
Proof.
  intros HR [? Ha]. split; [eapply pending_quiet; [done|apply (r_quiet _ _ _ HR)]|].
  by rewrite (r_adj _ _ _ HR).
Qed.

Lemma queue_owing_stable t z r w w' : rely t w w' → owing t z r w → owing t z r w'.
Proof.
  intros HR [? Ha]. split; [eapply finished_quiet; [done|apply (r_quiet _ _ _ HR)]|].
  by rewrite (r_adj _ _ _ HR).
Qed.

Lemma queue_private_stable t l v w w' : rely t w w' → private t l v w → private t l v w'.
Proof.
  intros HR [Hh Ho]. destruct (r_own _ _ _ HR _ Ho) as [? Heq]. split; [|done].
  by rewrite Heq.
Qed.

Lemma at_pos_stable t k l v w w' : rely t w w' → at_pos k l v w → at_pos k l v w'.
Proof. intros HR. apply prefix_lookup_Some', (r_chain _ _ _ HR). Qed.

Lemma seen_empty_stable t w w' : rely t w w' → seen_empty t w → seen_empty t w'.
Proof. intros HR ?. eapply observed_quiet; [done|apply (r_quiet _ _ _ HR)]. Qed.

Lemma frozen_stable t N ch fr w w' :
  rely t w w' → frozen N ch fr w → frozen N ch fr w'.
Proof.
  intros HR [HN Hch]. pose proof (rely_len _ _ _ HR). split; [lia|]. intros HN'.
  destruct (r_log _ _ _ HR) as (-> & -> & _); [lia|]. apply Hch. lia.
Qed.

Lemma fresh_stable t L w w' : rely t w w' → fresh L w → fresh L w'.
Proof.
  intros HR [HL Hc]. pose proof (rely_len _ _ _ HR). split; [lia|]. intros HL'.
  apply (r_log _ _ _ HR); [lia|]. apply Hc. lia.
Qed.

Hint Resolve queue_ready_stable queue_owing_stable queue_private_stable at_pos_stable
  seen_empty_stable frozen_stable fresh_stable : lockfree.

(** Positions and addresses determine each other. *)
Lemma at_pos_inj k k' l v v' w :
  Inv w → at_pos k l v w → at_pos k' l v' w → k = k'.
Proof.
  intros HI Hk Hk'. eapply NoDup_lookup; [apply (i_nodup _ HI)|..];
    rewrite list_lookup_fmap; by rewrite ?Hk, ?Hk'.
Qed.

Lemma at_pos_fun k l l' v v' w :
  at_pos k l v w → at_pos k l' v' w → l = l' ∧ v = v'.
Proof. unfold at_pos. intros ? ?. by simplify_eq. Qed.

Lemma at_pos_lt k l v w : at_pos k l v w → k < length (chain (w_aux w)).
Proof. apply lookup_lt_Some. Qed.

Lemma succ_Some k w l : succ k w = Some l ↔ ∃ v, at_pos (S k) l v w.
Proof.
  unfold succ, at_pos. rewrite fmap_Some. split.
  - intros ([l' v] & ? & ->). eauto.
  - intros [v ?]. by exists (l, v).
Qed.

Lemma succ_None k w : succ k w = None ↔ length (chain (w_aux w)) ≤ S k.
Proof. unfold succ. by rewrite fmap_None, lookup_ge_None. Qed.

Lemma at_pos_intro k w :
  k < length (chain (w_aux w)) → ∃ l v, at_pos k l v w.
Proof. intros [[l v] ?]%lookup_lt_is_Some. by exists l, v. Qed.

Lemma back_lt w : Inv w → back (w_aux w) < length (chain (w_aux w)).
Proof. intros HI. destruct (i_tail _ HI) as (l & v & Hp & _). by eapply at_pos_lt. Qed.

(** ** The writes of the code keep the invariant *)

(** What the others may rely on across a step that leaves the chain alone. *)
Lemma rely_same t w w' :
  chain (w_aux w') = chain (w_aux w) → front (w_aux w') = front (w_aux w) →
  back (w_aux w) ≤ back (w_aux w') ≤ length (chain (w_aux w)) - 1 →
  (∀ l, own (w_aux w) !! l = Some t →
    own (w_aux w') !! l = Some t ∧ heap (w_mem w') !! l = heap (w_mem w) !! l) →
  adj (w_aux w') !! t = adj (w_aux w) !! t →
  quiet t (w_gh w) (w_gh w') → R t w w'.
Proof.
  intros Hc Hf Hb Ho Ha Hq. split; rewrite ?Hc, ?Hf; try done; try lia.
  intros _. split_and!; [done..|]. unfold caught_up. rewrite Hc. lia.
Qed.

(** [q.tail.CompareAndSwap(last, next)] succeeds: the tail catches up. *)
Lemma swing k l v l' w :
  Inv w → at_pos k l v w → tail (w_mem w) = Some l → succ k w = Some l' →
  let w' := upd Sp w (f_set tail_f (Some l') (w_mem w)) []
              (Aux (chain (w_aux w)) (front (w_aux w)) (S k) (own (w_aux w))
                 (adj (w_aux w))) in
  Inv w' ∧ ∀ u, R u w w'.
Proof.
  intros HI Hk Htail [v' Hk']%succ_Some w'.
  destruct (i_tail _ HI) as (l2 & v2 & Hb & Htail2). simplify_eq.
  assert (back (w_aux w) = k) as Hbk by by eapply at_pos_inj.
  pose proof (at_pos_lt _ _ _ _ Hk') as Hlt. split.
  - split; simpl; try apply HI.
    + exists l', v'. by split.
    + pose proof (i_order _ HI). lia.
    + pose proof (i_lag _ HI). lia.
  - intros u. apply rely_same; simpl; auto with lockfree. lia.
Qed.

(** A failed or successful swing leaves the tail past position [k]. *)
Lemma swing_fail k l v w :
  Inv w → at_pos k l v w → k ≤ back (w_aux w) → tail (w_mem w) ≠ Some l →
  S k ≤ back (w_aux w).
Proof.
  intros HI Hk Hle Hne. destruct (decide (back (w_aux w) = k)) as [<-|]; [|lia].
  destruct (i_tail _ HI) as (l2 & v2 & Hb & Htail).
  destruct (at_pos_fun _ _ _ _ _ _ Hb Hk). by subst.
Qed.

(** [Enqueue] allocates its node. *)
Lemma enq_new t o v w :
  Inv w → ready t o w →
  let i := length (heap (w_mem w)) in
  let w' := upd Sp w (f_set heap_f (heap (w_mem w) ++ [DirectItem None v]) (w_mem w)) []
              (Aux (chain (w_aux w)) (front (w_aux w)) (back (w_aux w))
                 (<[i := t]> (own (w_aux w))) (adj (w_aux w))) in
  good_step proto t w w' ∧ ready t o w' ∧ private t i v w'.
Proof.
  intros HI Hready i w'. pose proof (back_lt _ HI).
  split; [split|split; [exact Hready|]].
  - split; simpl; try apply HI.
    + intros k l u Hk. destruct (i_node _ HI _ _ _ Hk) as [Hh Ho].
      split; [by apply lookup_snoc_l|]. apply lookup_lt_Some in Hh.
      by rewrite lookup_insert_ne by (subst i; lia).
    + intros l u Hl. rewrite length_app. simpl.
      destruct (decide (l = i)) as [->|]; [subst i; lia|].
      rewrite lookup_insert_ne in Hl by done. apply (i_own _ HI) in Hl. lia.
  - intros u Hu. apply rely_same; simpl; auto with lockfree; [lia|].
    intros l Hl. pose proof (i_own _ HI _ _ Hl).
    rewrite lookup_insert_ne by (subst i; lia). split; [done|]. by apply lookup_app_l.
  - split; simpl; [apply lookup_snoc_eq|apply lookup_insert_eq].
Qed.

(** Linking a private node after the last one extends the chain. *)
Lemma private_fresh t i v k l u w :
  Inv w → private t i v w → at_pos k l u w → l ≠ i.
Proof. intros HI [_ Ho] Hk ->. destruct (i_node _ HI _ _ _ Hk). congruence. Qed.

Lemma link_node t k l u i v w k' l' v' :
  Inv w → private t i v w → at_pos k l u w → succ k w = None →
  (chain (w_aux w) ++ [(i, v)]) !! k' = Some (l', v') →
  <[l := DirectItem (Some i) u]> (heap (w_mem w)) !! l' =
    Some (DirectItem (fst <$> (chain (w_aux w) ++ [(i, v)]) !! S k') v') ∧
  delete i (own (w_aux w)) !! l' = None.
Proof.
  intros HI Hpriv Hk Hs%succ_None Hk'. pose proof (at_pos_lt _ _ _ _ Hk) as Hlt.
  assert (length (chain (w_aux w)) = S k) as Hck by lia.
  destruct (i_node _ HI _ _ _ Hk) as [Hl _].
  apply lookup_snoc_inv in Hk' as [Hk'|[-> [= -> ->]]].
  - destruct (i_node _ HI _ _ _ Hk') as [Hl' Ho']. split.
    + destruct (decide (k' = k)) as [->|Hne].
      * destruct (at_pos_fun _ _ _ _ _ _ Hk Hk') as [-> ->].
        rewrite list_lookup_insert_eq by (by eapply lookup_lt_Some).
        by rewrite <-Hck, lookup_snoc_eq.
      * rewrite list_lookup_insert_ne by (intros ->; by eapply Hne, at_pos_inj).
        rewrite Hl'. apply lookup_lt_Some in Hk'. by rewrite lookup_app_l by lia.
    + rewrite lookup_delete. by case_decide.
  - rewrite list_lookup_insert_ne by by eapply private_fresh.
    destruct Hpriv as [-> _]. rewrite lookup_delete_eq. split; [|done].
    rewrite (lookup_ge_None_2 _ (S (length _))); [done|]. rewrite length_app. simpl. lia.
Qed.

(** [last.next.CompareAndSwap(nil, i)] succeeds: the enqueue takes effect. *)
Lemma link_cas t k l u i v w :
  Inv w → ready t (Adt.Enqueue v) w → private t i v w → at_pos k l u w →
  succ k w = None → k ≤ back (w_aux w) →
  let m := w_mem w in
  let w' := upd Sp w (f_set heap_f (<[l := f_set next_f (Some i) (DirectItem None u)]>
                                      (heap m)) m) [t]
              (Aux (chain (w_aux w) ++ [(i, v)]) (front (w_aux w)) (back (w_aux w))
                 (delete i (own (w_aux w))) (<[t := 1%Z]> (adj (w_aux w)))) in
  good_step proto t w w' ∧ owing t (Some 1%Z) RDone w' ∧ at_pos (S k) i v w' ∧
  succ k w' = Some i.
Proof.
  intros HI [Hp Ha] Hpriv Hk Hs Hback m w'. subst m.
  assert ((spec_step Sp (g_state Sp (w_gh w)) (Adt.Enqueue v)).2 = Some RDone) as Hr
    by done.
  destruct (lin1_pending Sp _ _ _ _ Hp Hr) as (Hf & Hst & Hlen & _). simpl in Hst.
  apply succ_None in Hs as Hs'. pose proof (at_pos_lt _ _ _ _ Hk) as Hlt.
  assert (length (chain (w_aux w)) = S k) as Hck by lia.
  destruct (i_node _ HI _ _ _ Hk) as [Hl Hol].
  assert (at_pos (S k) i v w') as Hnew.
  { unfold at_pos. simpl. rewrite <-Hck. apply lookup_snoc_eq. }
  pose proof (back_lt _ HI) as Hb. pose proof (i_order _ HI) as Hfb.
  split; [split|split_and!; [by split; [exact Hf|apply lookup_insert_eq]|exact Hnew|]].
  - split; unfold g_vals; simpl; rewrite ?Hst.
    + intros k' l' v' Hk'. by eapply (link_node t k l u).
    + rewrite fmap_app. apply NoDup_app. split; [apply HI|]. split; [|apply NoDup_singleton].
      intros l' ([l2 v2] & -> & [k' Hk']%list_elem_of_lookup)%list_elem_of_fmap
        Hi%list_elem_of_singleton.
      by eapply (private_fresh t i v k' _ v2).
    + rewrite drop_app_le by lia. rewrite fmap_app.
      fold (g_vals w). by rewrite (i_vals _ HI).
    + destruct (i_head _ HI) as (lh & vh & ? & ?). exists lh, vh.
      split; [by apply lookup_snoc_l|done].
    + destruct (i_tail _ HI) as (lt & vt & ? & ?). exists lt, vt.
      split; [by apply lookup_snoc_l|done].
    + done.
    + rewrite length_app. simpl. lia.
    + intros l' u' [_ Hl']%lookup_delete_Some. rewrite length_insert.
      by eapply i_own.
    + rewrite (i_len _ HI), adj_sum_insert by done. unfold g_vals.
      rewrite length_app. simpl. f_equal. lia.
    + intros u' Hu'. destruct (lin1_dom _ _ _ _ _ _ Hp Hr Hu').
      rewrite lookup_insert_ne by done. by apply HI.
  - intros u' Hu'. split; simpl; auto with lockfree.
    + apply prefix_snoc.
    + destruct Hpriv as [_ Ho].
      intros l' Hl'. assert (l' ≠ i) by (intros ->; congruence).
      rewrite lookup_delete_ne by done. split; [done|].
      rewrite list_lookup_insert_ne; [done|]. intros ->. congruence.
    + by rewrite lookup_insert_ne by done.
    + unfold w_len. simpl. rewrite Hlen. lia.
  - apply succ_Some. eauto.
Qed.

(** [q.head.CompareAndSwap(first, firstnext)] succeeds: the dequeue takes effect. *)
Lemma deq_cas t k l u l' v w :
  Inv w → ready t Adt.Dequeue w → head (w_mem w) = Some l → at_pos k l u w →
  at_pos (S k) l' v w → S k ≤ back (w_aux w) →
  let w' := upd Sp w (f_set head_f (Some l') (w_mem w)) [t]
              (Aux (chain (w_aux w)) (S k) (back (w_aux w)) (own (w_aux w))
                 (<[t := (-1)%Z]> (adj (w_aux w)))) in
  good_step proto t w w' ∧ owing t (Some (-1)%Z) (RVal v true) w'.
Proof.
  intros HI [Hp Ha] Hhead Hk Hk' Hback w'.
  destruct (i_head _ HI) as (lh & vh & Hf & Hhead2). simplify_eq.
  assert (front (w_aux w) = k) as Hfk by by eapply at_pos_inj.
  pose proof (i_vals _ HI) as Hv. rewrite Hfk in Hv.
  rewrite (drop_S _ _ _ Hk') in Hv. simpl in Hv. unfold g_vals in Hv.
  assert ((spec_step Sp (g_state Sp (w_gh w)) Adt.Dequeue).2 = Some (RVal v true)) as Hr
    by by rewrite Hv.
  destruct (lin1_pending Sp _ _ _ _ Hp Hr) as (Hfin & Hst & Hlen & _).
  rewrite Hv in Hst. simpl in Hst.
  split; [split|split; [exact Hfin|apply lookup_insert_eq]].
  - split; unfold g_vals; simpl; rewrite ?Hst; try apply HI; try done.
    + exists l', v. by split.
    + rewrite (i_len _ HI), adj_sum_insert by done. unfold g_vals. rewrite Hv.
      simpl. f_equal. lia.
    + intros u' Hu'. destruct (lin1_dom _ _ _ _ _ _ Hp Hr Hu').
      rewrite lookup_insert_ne by done. by apply HI.
  - intros u' Hu'. split; simpl; auto with lockfree.
    + lia.
    + by rewrite lookup_insert_ne by done.
    + unfold w_len. simpl. rewrite Hlen. lia.
Qed.

(** The head points to a last node: the queue is empty at this moment. *)
Lemma empty_now t k w :
  Inv w → ready t Adt.Dequeue w → front (w_aux w) = k → succ k w = None →
  seen_empty t w.
Proof.
  intros HI [Hp _] <- Hs%succ_None. pose proof (i_vals _ HI) as Hv.
  rewrite drop_ge in Hv by done. unfold g_vals in Hv.
  apply observed_now; [done|by rewrite Hv..].
Qed.

(** [q.len.Add(d)] settles what the operation owed. *)
Lemma queue_settle t r z d w :
  Inv w → owing t (Some z) r w → u64 d = u64 z →
  let w' := upd Sp w (f_set len_f (u64 (len (w_mem w) + d)) (w_mem w)) []
              (Aux (chain (w_aux w)) (front (w_aux w)) (back (w_aux w))
                 (own (w_aux w)) (delete t (adj (w_aux w)))) in
  good_step proto t w w' ∧ owing t None r w'.
Proof.
  intros HI [Hf Ha] Hd w'. pose proof (back_lt _ HI).
  split; [split|split; [exact Hf|apply lookup_delete_eq]].
  - split; simpl; try apply HI.
    + rewrite <-u64_add_r, Hd, u64_add_r, (i_len _ HI), u64_add_l. f_equal.
      rewrite (adj_sum_delete _ _ _ Ha). unfold g_vals. simpl. lia.
    + intros u. rewrite lookup_delete. case_decide; [done|]. apply HI.
  - intros u Hu. apply rely_same; simpl; auto with lockfree; [lia|].
    by rewrite lookup_delete_ne by done.
Qed.

(** ** The methods *)

Lemma queue_return_world t r w :
  Inv w → adj (w_aux w) !! t = None →
  good_step proto t w (World (w_mem w) (g_ret t r (w_gh w)) (w_aux w)).
Proof.
  intros HI Ha. pose proof (back_lt _ HI). split.
  - split; simpl; try apply HI. intros u. rewrite lookup_delete. case_decide.
    + by subst.
    + apply HI.
  - intros u Hu. apply rely_same; simpl; auto with lockfree. lia.
Qed.

(** An operation takes at most [steps] steps when no other takes effect: one
    to allocate, a round that fails because the tail lags, a last round. *)
Definition steps : nat := 16.
Abbreviation pg := (LockFree steps).
Abbreviation wp t := (wp Sp proto pg t (post Sp proto t)).

Lemma queue_return_finished t b r w : owing t None r w → wp t b (Ret r) w.
Proof.
  intros Hdone. apply wp_ret. intros w' HR HI.
  eapply queue_owing_stable in Hdone as [Hf Ha]; [|exact HR].
  destruct (finished_ret_ok Sp _ _ _ Hf) as (p & Hp & Hret).
  exists p. split; [done|]. split; [done|]. exists (w_aux w').
  by apply queue_return_world.
Qed.

Lemma return_empty t b w :
  ready t Adt.Dequeue w → seen_empty t w → wp t b (Ret (RVal zero false)) w.
Proof.
  intros Hr Hs. apply wp_ret. intros w' HR HI.
  eapply queue_ready_stable in Hr as [_ Ha]; [|exact HR].
  eapply seen_empty_stable in Hs; [|exact HR].
  destruct (observed_ret_ok Sp _ _ _ _ Hs) as (p & Hp & Hret).
  exists p. split; [done|]. split; [done|]. exists (w_aux w').
  by apply queue_return_world.
Qed.

Lemma queue_Length_wp t n L w : ready t QueueLength w → wp t (Refill (S n) L) Length w.
Proof.
  intros Hready. wp_go wp_load as w1 HR1 HI1.
  apply wp_ret. intros w2 HR2 HI2.
  assert (ready t QueueLength w2) as [Hp Ha] by eauto with lockfree.
  destruct (pending_ret_ok_open Sp _ _ _ (RLen (len (w_mem w1))) Hp)
    as (p & Hp' & Hret); [done|].
  exists p. split; [done|]. split; [done|]. exists (w_aux w2). by apply queue_return_world.
Qed.

(** The length update after the operation took effect. *)
Lemma wp_queue_settle {A} t r z d m L Q (k : Z → prog mem A) w :
  owing t (Some z) r w → u64 d = u64 z →
  (∀ n w', owing t None r w' → Logic.wp Sp proto pg t Q (Refill m L) (k n) w') →
  Logic.wp Sp proto pg t Q (Refill (S m) L) (Act (add_u64 len_f d) k) w.
Proof.
  intros Howe Hd Hk. wp_go wp_add_u64 as w1 HR1 HI1.
  eapply queue_owing_stable in Howe; [|exact HR1].
  destruct (queue_settle t r z d w1 HI1 Howe Hd) as [Hgood Howe1].
  eexists [], _. split; [exact Hgood|]. by apply Hk.
Qed.

(** At the head of the loops there are eight steps left for a round, and seven
    for a round that fails if the tail may lag. *)
Definition at_head (b : budget) (w : world) : Prop :=
  ∃ n L, b = Refill (8 + n) L ∧ L ≤ w_len w ∧ (7 ≤ n ∨ fresh L w).

Lemma queue_at_head_stable t b w w' : rely t w w' → at_head b w → at_head b w'.
Proof.
  intros HR (n & L & -> & ? & Hn). pose proof (rely_len _ _ _ HR).
  exists n, L. split; [done|]. split; [lia|]. destruct Hn; eauto with lockfree.
Qed.

(** What a goroutine knows during a round that began when the log had length [N],
    the chain was [ch], the head at [fr] and the tail at [j]: its own facts
    [P], and that the tail did not lag if that was known, or [n] steps are spare. *)
Record round (P : world → Prop) (n L N : nat) (ch : list (loc * T)) (fr j : nat)
    (w : world) : Prop := {
  rd_own : P w;
  rd_frozen : frozen N ch fr w;
  rd_start : L ≤ N;
  rd_fresh : 7 ≤ n ∨ (N = L → S j = length ch);
  rd_lag : length ch ≤ S (S j)
}.

Lemma round_start t P n L w w1 :
  rely t w w1 → Inv w1 → L ≤ w_len w → 7 ≤ n ∨ fresh L w → P w1 →
  round P n L (w_len w1) (chain (w_aux w1)) (front (w_aux w1)) (back (w_aux w1)) w1.
Proof.
  intros HR HI HL Hn HP. pose proof (rely_len _ _ _ HR).
  split; [done|by split|lia| |by apply i_lag].
  destruct Hn as [?|Hf]; [by left|right]. intros Heq.
  by apply (fresh_stable _ _ _ _ HR Hf).
Qed.

Definition stable (t : nat) (P : world → Prop) : Prop :=
  ∀ w w', rely t w w' → P w → P w'.

Lemma round_stable t P n L N ch fr j w w' :
  stable t P → rely t w w' → round P n L N ch fr j w → round P n L N ch fr j w'.
Proof. intros HP HR []. split; eauto with lockfree. Qed.

(** While nothing took effect, successors do not change. *)
Lemma round_succ t P n L N ch fr j w w' k :
  round P n L N ch fr j w → rely t w w' → w_len w' = N → succ k w' = succ k w.
Proof.
  intros [_ [HN _] _ _ _] HR Hlen. pose proof (rely_len _ _ _ HR).
  destruct (r_log _ _ _ HR) as (Hc & _); [lia|]. unfold succ. by rewrite Hc.
Qed.

(** A round fails: an operation took effect since its beginning, or the tail
    lagged then and does not now. *)
Lemma wp_queue_retry {A} t m n L N ch fr j (P : world → Prop) Q w :
  stable t P → Inv w → n < m → round P n L N ch fr j w →
  (w_len w = N → S j ≤ back (w_aux w)) →
  (∀ b w, at_head b w → P w → Q b (inl tt) w) →
  Logic.wp Sp proto pg t Q (Refill m L) (continue tt : prog mem (unit + A)) w.
Proof.
  intros HP HI Hm [HPw [HN Hch] HL Hn Hlag] Hback HQ. pose proof (back_lt _ HI) as Hlt.
  destruct (decide (w_len w = L)) as [Heq|Hne].
  - destruct Hch as [Hch _]; [lia|]. rewrite Hch in Hlt.
    specialize (Hback ltac:(lia)).
    assert (fresh L w) as Hfresh by (split; [lia|]; intros _; unfold caught_up;
      rewrite Hch; lia).
    apply wp_ret. intros w' HR _. pose proof (rely_len _ _ _ HR).
    apply HQ; [|by eapply HP]. exists (m - 8), L. destruct Hn as [Hn|Hn];
      [|specialize (Hn ltac:(lia)); lia].
    split; [f_equal; lia|]. split; [lia|]. right. by eapply fresh_stable.
  - eapply wp_refill; [done|]. intros w' HR _. pose proof (rely_len _ _ _ HR).
    split; [lia|]. apply wp_ret. intros w'' HR' _. pose proof (rely_len _ _ _ HR').
    apply HQ; [|by eapply HP, HP]. exists 8, (w_len w'). split; [done|]. split; [lia|].
    left. lia.
Qed.

(** The node at a position, read through the heap. *)
Lemma node_at k l v w :
  Inv w → at_pos k l v w → heap (w_mem w) !! l = Some (DirectItem (succ k w) v).
Proof. intros HI Hk. by apply (i_node _ HI). Qed.

(** [q.tail.CompareAndSwap(last, next)] whatever the tail is: afterwards it is past
    position [k], and what the goroutine knows is still true. *)
Lemma wp_swing {A} t m L k l v l' v' Q (c : bool → prog mem A) w :
  at_pos k l v w → at_pos (S k) l' v' w → k ≤ back (w_aux w) →
  (∀ b w', rely t w w' → Inv w' → S k ≤ back (w_aux w') →
     Logic.wp Sp proto pg t Q (Refill m L) (c b) w') →
  Logic.wp Sp proto pg t Q (Refill (S m) L) (Act (cas tail_f (Some l) (Some l')) c) w.
Proof.
  intros Hk Hk' Hback Hc. wp_go wp_cas as w1 HR HI; simpl; intros Htail.
  - destruct (swing k l v l' w1 HI) as [HI' HR'];
      [by eapply at_pos_stable|done|apply succ_Some; eauto using at_pos_stable|].
    eexists [], _. split; [split; [exact HI'|intros u _; apply HR']|].
    apply Hc; [etrans; [exact HR|apply HR']|exact HI'|done].
  - apply Hc; [done|done|]. eapply swing_fail; [done|by eapply at_pos_stable| |done].
    pose proof (r_back _ _ _ HR). lia.
Qed.

(** The node is linked: swing the tail, count, go on. *)
Lemma wp_linked {A} t m L k l v i u Q (p : prog mem A) w :
  at_pos k l v w → at_pos (S k) i u w → k ≤ back (w_aux w) →
  owing t (Some 1%Z) RDone w →
  (∀ w', owing t None RDone w' → Logic.wp Sp proto pg t Q (Refill m L) p w') →
  Logic.wp Sp proto pg t Q (Refill (2 + m) L)
    (Act (cas tail_f (Some l) (Some i)) (λ _, Act (add_u64 len_f 1) (λ _, p))) w.
Proof.
  intros Hk Hk' Hb Howe Hp. eapply wp_swing; [done..|]. intros ok w1 HR1 _ _.
  eapply wp_queue_settle; [by eapply queue_owing_stable|done|]. intros c w2 Howe2. by apply Hp.
Qed.

(** What [Enqueue] knows at the head of its loop. *)
Definition enqueuing (t : nat) (i : loc) (v : T) (w : world) : Prop :=
  ready t (Adt.Enqueue v) w ∧ private t i v w.

Lemma enqueuing_stable t i v : stable t (enqueuing t i v).
Proof. intros w w' HR [? ?]. split; eauto with lockfree. Qed.
Hint Resolve enqueuing_stable : lockfree.

Lemma Enqueue_wp t v n0 L0 w :
  L0 ≤ w_len w → ready t (Adt.Enqueue v) w → wp t (Refill (16 + n0) L0) (Enqueue v) w.
Proof.
  intros HL Hready. wp_go wp_new as w1 HR1 HI1.
  edestruct (enq_new t (Adt.Enqueue v) v w1)
    as (Hgood & Hready1 & Hpriv); [done|by eauto with lockfree|].
  eexists _, _. split; [exact Hgood|]. simpl in Hpriv |- *.
  set (i := length (heap (w_mem w1))) in *. clearbody i.
  apply (wp_loop Sp proto pg t _ (λ b _ w, at_head b w ∧ enqueuing t i v w));
    [|intros ? _ w2 w3 [? ?] ?; split;
        [by eapply queue_at_head_stable|by eapply enqueuing_stable]|].
  2:{ split; [|done]. exists (7 + n0), L0. pose proof (rely_len _ _ _ HR1).
      split; [done|]. split; [unfold w_len in *; simpl; lia|]. left. lia. }
  clear. intros b _ w [(n & L & -> & HL & Hn) HPw] _.
  eexists. split; [reflexivity|].
  wp_go wp_load as w1 HR1 HI1.
  eapply enqueuing_stable in HPw; [|exact HR1].
  pose proof (round_start _ _ _ _ _ _ HR1 HI1 HL Hn HPw) as Hrd1.
  destruct (i_tail _ HI1) as (l & u & Hk & ->).
  set (N := w_len w1) in *. set (j := back (w_aux w1)) in *.
  wp_go wp_load_at as w2 HR2 HI2. exists (DirectItem (succ j w2) u).
  split; [apply node_at; eauto with lockfree|].
  pose proof (round_stable _ _ _ _ _ _ _ _ _ _ (enqueuing_stable t i v) HR2 Hrd1) as Hrd2.
  wp_go wp_load as w3 HR3 HI3.
  pose proof (round_stable _ _ _ _ _ _ _ _ _ _ (enqueuing_stable t i v) HR3 Hrd2) as Hrd3.
  assert (j ≤ back (w_aux w3)) as Hj3.
  { pose proof (r_back _ _ _ HR2). pose proof (r_back _ _ _ HR3). subst j; lia. }
  assert (at_pos j l u w3) as Hk3 by eauto using at_pos_stable.
  case_decide as Htail.
  2:{ eapply wp_queue_retry; [apply enqueuing_stable|done| |exact Hrd3| |by auto]; [lia|].
      intros _. eapply swing_fail; eauto. }
  destruct (succ j w2) as [l'|] eqn:Es; cbn [di_next].
  { apply succ_Some in Es as [v' Hk']. wp_pure.
    eapply wp_swing; [done|by eapply at_pos_stable|done|]. intros ok w4 HR4 HI4 Hb4.
    eapply wp_queue_retry; [apply enqueuing_stable|done| |
      by eapply round_stable; [apply enqueuing_stable|..]| |by auto]; [lia|done]. }
  wp_go wp_cas_at as w4 HR4 HI4. exists (DirectItem (succ j w4) u).
  split; [apply node_at; eauto with lockfree|].
  pose proof (round_stable _ _ _ _ _ _ _ _ _ _ (enqueuing_stable t i v) HR4 Hrd3) as Hrd4.
  pose proof (r_back _ _ _ HR4) as Hj4. cbn [f_get next_f di_next].
  assert (at_pos j l u w4) as Hk4 by eauto using at_pos_stable.
  split; intros Hs.
  - destruct (rd_own _ _ _ _ _ _ _ _ Hrd4) as [Hready4 Hpriv4].
    destruct (link_cas t j l u i v w4) as (Hgood & Howe & Hki & _); [done..|lia|].
    rewrite Hs. eexists _, _. split; [exact Hgood|]. wp_pure.
    eapply (wp_linked t (1 + n)); [by apply lookup_snoc_l|exact Hki|simpl; lia|exact Howe|].
    intros w5 Howe5. apply wp_ret. intros w6 HR6 _. apply queue_return_finished.
    by eapply queue_owing_stable.
  - eapply wp_queue_retry; [apply enqueuing_stable|done| |exact Hrd4| |by auto]; [lia|].
    intros Hlen. exfalso. apply Hs. rewrite <-Es.
    eapply (round_succ t); [exact Hrd2|by etrans|done].
Qed.

Lemma dequeuing_stable t : stable t (ready t Adt.Dequeue).
Proof. intros w w' ? ?. by eapply queue_ready_stable. Qed.

(** The head was at position [k] and the tail is past it: read the value of the
    next node, move the head there. *)
Lemma wp_take {A} t n L N ch fr j k l u l' v Q (p : T → prog mem (unit + A)) w :
  at_pos k l u w → at_pos (S k) l' v w → S k ≤ back (w_aux w) →
  round (ready t Adt.Dequeue) n L N ch fr j w → fr = k →
  (∀ b w, at_head b w → ready t Adt.Dequeue w → Q b (inl tt) w) →
  (∀ w', owing t None (RVal v true) w' → Logic.wp Sp proto pg t Q (Refill n L) (p v) w') →
  Logic.wp Sp proto pg t Q (Refill (3 + n) L)
    (Act (load_at heap l' di_v) (λ v, Act (cas head_f (Some l) (Some l')) (λ ok,
       if ok then Act (add_u64 len_f (two64 - 1)) (λ _, p v) else continue tt))) w.
Proof.
  intros Hk Hk' Hb Hrd -> HQ Hp.
  wp_go wp_load_at as w1 HR1 HI1. exists (DirectItem (succ (S k) w1) v).
  split; [apply node_at; eauto with lockfree|]. cbn [di_v].
  pose proof (round_stable _ _ _ _ _ _ _ _ _ _ (dequeuing_stable t) HR1 Hrd) as Hrd1.
  pose proof (r_back _ _ _ HR1).
  wp_go wp_cas as w2 HR2 HI2; intros Hhead; simpl in Hhead;
    pose proof (r_back _ _ _ HR2);
    pose proof (round_stable _ _ _ _ _ _ _ _ _ _ (dequeuing_stable t) HR2 Hrd1) as Hrd2.
  - destruct (deq_cas t k l u l' v w2) as [Hgood Howe];
      [done|by apply Hrd2|done|by eauto using at_pos_stable..|lia|].
    eexists _, _. split; [exact Hgood|]. wp_pure.
    eapply wp_queue_settle; [exact Howe|done|]. intros c w3 Howe3. by apply Hp.
  - eapply wp_queue_retry; [apply dequeuing_stable|done| |exact Hrd2| |done]; [lia|].
    intros Hlen. destruct (rd_frozen _ _ _ _ _ _ _ _ Hrd2) as [_ [_ Hfr]]; [done|].
    destruct (i_head _ HI2) as (l3 & u3 & Hk3 & Hhead3). rewrite Hfr in Hk3.
    assert (at_pos k l u w2) as Hk2 by eauto using at_pos_stable.
    by destruct (at_pos_fun _ _ _ _ _ _ Hk2 Hk3) as [<- _].
Qed.

Lemma Dequeue_wp t b w : at_head b w → ready t Adt.Dequeue w → wp t b Dequeue w.
Proof.
  intros Hb Hready. apply (wp_loop Sp proto pg t _
    (λ b _ w, at_head b w ∧ ready t Adt.Dequeue w));
    [|intros ? _ w2 w3 [? ?] ?; split; [by eapply queue_at_head_stable|by eauto with lockfree]
     |done].
  clear. intros b _ w [(n & L & -> & HL & Hn) Hready] _.
  pose proof (dequeuing_stable t) as Hst.
  eexists. split; [reflexivity|].
  wp_go wp_load as w1 HR1 HI1. apply (Hst _ _ HR1) in Hready.
  pose proof (round_start _ _ _ _ _ _ HR1 HI1 HL Hn Hready) as Hrd1.
  pose proof (i_order _ HI1) as Ho1.
  destruct (i_head _ HI1) as (l & u & Hk & ->).
  set (N := w_len w1) in *. set (j := back (w_aux w1)) in *. set (k := front (w_aux w1)) in *.
  wp_go wp_load as w2 HR2 HI2.
  pose proof (round_stable _ _ _ _ _ _ _ _ _ _ Hst HR2 Hrd1) as Hrd2.
  pose proof (r_back _ _ _ HR2) as Hj2.
  destruct (i_tail _ HI2) as (l2 & u2 & Hk2 & ->).
  set (j2 := back (w_aux w2)) in *.
  wp_go wp_load_at as w3 HR3 HI3. exists (DirectItem (succ k w3) u).
  split; [apply node_at; eauto with lockfree|].
  pose proof (round_stable _ _ _ _ _ _ _ _ _ _ Hst HR3 Hrd2) as Hrd3.
  pose proof (r_front _ _ _ HR2) as Hf2. pose proof (r_front _ _ _ HR3) as Hf3.
  wp_go wp_load as w4 HR4 HI4.
  pose proof (round_stable _ _ _ _ _ _ _ _ _ _ Hst HR4 Hrd3) as Hrd4.
  pose proof (r_front _ _ _ HR4) as Hf4.
  pose proof (r_back _ _ _ HR3) as Hj3. pose proof (r_back _ _ _ HR4) as Hj4.
  assert (at_pos k l u w4) as Hk4 by eauto using at_pos_stable.
  case_decide as Hhead.
  2:{ eapply wp_queue_retry; [exact Hst|done| |exact Hrd4| |by auto]; [lia|].
      intros Hlen. destruct (rd_frozen _ _ _ _ _ _ _ _ Hrd4) as [_ [_ Hfr]]; [done|].
      destruct (i_head _ HI4) as (l4 & u4 & Hk' & Hhead4). rewrite Hfr in Hk'.
      destruct (at_pos_fun _ _ _ _ _ _ Hk4 Hk'); congruence. }
  destruct (i_head _ HI4) as (l4 & u4 & Hk' & Hhead4).
  rewrite <-Hhead in Hhead4. injection Hhead4 as <-.
  assert (front (w_aux w4) = k) as Hfr by by eapply at_pos_inj.
  assert (at_pos j2 l2 u2 w4) as Hj4' by eauto using at_pos_stable.
  destruct (decide (l = l2)) as [<-|Hne].
  - rewrite decide_True by done. assert (j2 = k) as Hjk by by eapply at_pos_inj.
    destruct (succ k w3) as [l'|] eqn:Es; cbn [di_next].
    + apply succ_Some in Es as [v' Hs]. wp_pure.
      eapply wp_swing; [exact Hk4|by eapply at_pos_stable|lia|]. intros ok w5 HR5 HI5 Hb5.
      eapply wp_queue_retry; [exact Hst|done| |by eapply round_stable| |by auto]; lia.
    + apply wp_ret. intros w5 HR5 HI5. apply return_empty; [eapply Hst; [exact HR5|apply Hrd4]|].
      apply (seen_empty_stable t w3); [by etrans|].
      apply empty_now with k; [done|apply Hrd3|lia|done].
  - rewrite decide_False by congruence.
    assert (k ≠ j2) as Hkj by (intros ->; by destruct (at_pos_fun _ _ _ _ _ _ Hk4 Hj4')).
    destruct (at_pos_intro (S k) w2) as (l' & v' & Hs).
    { apply at_pos_lt in Hk2. lia. }
    assert (at_pos (S k) l' v' w3) as Hs3 by eauto with lockfree.
    rewrite (proj2 (succ_Some k w3 l')) by eauto. cbn [di_next]. wp_pure.
    eapply (wp_take t n L N _ _ j k _ _ _ _ _ (λ v, break (RVal v true))); [exact Hk4|by eauto using at_pos_stable|lia|exact Hrd4|done|by auto|].
    intros w5 Howe5. apply wp_ret. intros w6 HR6 _. apply queue_return_finished.
    by eapply queue_owing_stable.
Qed.

Lemma queue_verified : verified Sp proto pg queue_object.
Proof.
  split.
  - exists (Aux [(0, zero)] 0 0 ∅ ∅). split; simpl; try done.
    + intros [|k] l v Hk; [|done]. by injection Hk as <- <-.
    + apply NoDup_singleton.
    + by exists 0, zero.
    + by exists 0, zero.
    + lia.
  - intros t id o w HI Hnone _ _. exists (w_aux w). pose proof (back_lt _ HI).
    assert (good_step proto t w (World (w_mem w) (g_call t id o (w_gh w)) (w_aux w)))
      as [HI' HR'].
    { split.
      - split; simpl; try apply HI. intros u [? ?]%lookup_insert_None. by apply HI.
      - intros u Hu. apply rely_same; simpl; auto with lockfree. lia. }
    split; [exact HI'|]. split; [exact HR'|].
    assert (ready t o (World (w_mem w) (g_call t id o (w_gh w)) (w_aux w))).
    { split; [apply pending_call|by apply HI]. }
    destruct o; [by apply (Enqueue_wp t v 0)| |by apply queue_Length_wp].
    apply Dequeue_wp; [|done]. exists 8, (w_len w). split; [done|]. split; [done|].
    left. lia.
Qed.

(** ** Properties *)

(** C2. The Michael-Scott queue is linearizable: under every interleaving, the
    calls and returns of [Enqueue] and [Dequeue] are those of a sequential FIFO
    queue in some order that respects real time; in particular a [Dequeue] that
    reports an empty queue overlaps a moment at which it was empty. *)
Theorem queue_linearizable cs s :
  reaches queue_object cs s → linearizable (queue_spec zero) (sy_hist s).
Proof. apply (verified_linearizable Sp proto _ pg), queue_verified. Qed.

(** C6. Lock-freedom: a pending operation has taken at most sixteen steps for
    each operation that overlaps it, and sixteen of its own, even when another
    goroutine stopped between linking its node and moving the tail. *)
Theorem queue_lock_free cs s t r :
  reaches queue_object cs s → sy_thr s !! t = Some r →
  r_steps r ≤ steps * (1 + overlap (sy_hist s) (r_id r)).
Proof. apply (verified_lockfree Sp proto _ pg); [apply queue_verified|done]. Qed.

(** No schedule makes a method dereference a nil pointer: the head never
    passes the tail, so [firstnext.v] is read only from an existing node. *)
Theorem queue_no_panic cs : exec queue_object cs (start queue_object) ≠ Crash.
Proof. apply (verified_no_crash Sp proto _ pg), queue_verified. Qed.

Lemma chain_linked w k vs :
  Inv w → (drop k (chain (w_aux w))).*2 = vs →
  linked (heap (w_mem w)) (fst <$> chain (w_aux w) !! k) vs.
Proof.
  intros HI. revert k. induction vs as [|v vs IH]; intros k Hvs.
  - apply fmap_nil_inv in Hvs. simpl. rewrite fmap_None, lookup_ge_None.
    apply (f_equal length) in Hvs. rewrite length_drop in Hvs. simpl in Hvs. lia.
  - destruct (chain (w_aux w) !! k) as [[l v']|] eqn:Hk.
    + rewrite (drop_S _ _ _ Hk) in Hvs. simpl in Hvs. simplify_eq.
      exists l, (succ k w). split; [done|].
      split; [by apply (node_at k)|]. by apply IH.
    + apply lookup_ge_None in Hk. rewrite drop_ge in Hvs by done. done.
Qed.

(** C37. When no operation is pending, the head points to the sentinel, the nodes
    linked behind it hold the queue that is left by a linearization of the history
    so far, and the length counter is the number of its values. *)
Theorem queue_length_quiescent cs s :
  reaches queue_object cs s → sy_thr s = ∅ →
  ∃ L l n, linearization Sp (sy_hist s) L ∧ let vs := run Sp [] L in
    head (sy_mem s) = Some l ∧ heap (sy_mem s) !! l = Some n ∧
    linked (heap (sy_mem s)) (di_next n) vs ∧
    len (sy_mem s) = u64 (Z.of_nat (length vs)).
Proof.
  intros Hc Hq. destruct (verified_state Sp proto _ pg _ _ queue_verified Hc)
    as (w & L & Hw & HI & Hthr & HL & Hrun).
  destruct (i_head _ HI) as (l & v & Hk & Hhead). rewrite <-Hw.
  eexists L, l, _. split; [done|]. simpl in Hrun. cbn zeta. rewrite Hrun.
  change (g_state Sp (w_gh w)) with (g_vals w). split; [done|]. split; [by apply (node_at (front (w_aux w)))|].
  split; [by apply chain_linked; rewrite ?(i_vals _ HI)|].
  rewrite (i_len _ HI). f_equal.
  enough (adj (w_aux w) = ∅) as -> by (rewrite adj_sum_empty; lia).
  apply map_eq. intros u. rewrite lookup_empty. apply HI, Hthr. by rewrite Hq.
Qed.
End queue.

(** An enqueue stops between linking its node and moving the tail; another
    enqueue and two dequeues run to the end meanwhile. *)
Definition demo_schedule : list (cmd (queue_op nat)) :=
  Call 0 (Adt.Enqueue 7) :: replicate 6 (Step 0) ++
  Call 1 (Adt.Enqueue 8) :: replicate 14 (Step 1) ++
  Call 2 Adt.Dequeue :: replicate 9 (Step 2).

Definition demo_drain : list (cmd (queue_op nat)) :=
  demo_schedule ++ replicate 3 (Step 0).

Lemma queue_linearizable_witness : ∃ s,
  reaches (queue_object 0) demo_schedule s ∧
  sy_hist s = [EInv 0 0 (Adt.Enqueue 7); EInv 1 1 (Adt.Enqueue 8); ERes 1 1 RDone;
               EInv 2 3 Adt.Dequeue; ERes 2 3 (RVal 7 true)] ∧
  linearizable (queue_spec 0) (sy_hist s).
Proof.
  destruct (run_history_reaches (queue_object 0) demo_schedule _
    ltac:(vm_compute; reflexivity)) as (s & Hs & Hh).
  exists s. split; [exact Hs|]. split; [exact Hh|].
  exact (queue_linearizable 0 demo_schedule s Hs).
Defined.

Lemma queue_lock_free_witness : ∃ s r,
  reaches (queue_object 0) demo_schedule s ∧ sy_thr s !! 0 = Some r ∧
  r_steps r = 6 ∧ r_steps r ≤ steps * (1 + overlap (sy_hist s) (r_id r)).
Proof.
  destruct (run_steps_reaches (queue_object 0) demo_schedule 0 6
    ltac:(vm_compute; reflexivity)) as (s & r & Hs & Hr & Hn).
  exists s, r. split; [exact Hs|]. split; [exact Hr|]. split; [exact Hn|].
  exact (queue_lock_free 0 demo_schedule s 0 r Hs Hr).
Defined.

Lemma queue_length_quiescent_witness : ∃ s L l n,
  reaches (queue_object 0) demo_drain s ∧ linearization (queue_spec 0) (sy_hist s) L ∧
  head (sy_mem s) = Some l ∧ heap (sy_mem s) !! l = Some n ∧
  linked (heap (sy_mem s)) (di_next n) (run (queue_spec 0) [] L) ∧
  len (sy_mem s) = u64 (Z.of_nat (length (run (queue_spec 0) [] L))).
Proof.
  destruct (run_quiet_reaches (queue_object 0) demo_drain
    ltac:(vm_compute; reflexivity)) as (s & Hs & Hq).
  destruct (queue_length_quiescent 0 demo_drain s Hs Hq) as (L & l & n & HL).
  exists s, L, l, n. split; [exact Hs|exact HL].
Defined.

(** An enqueue that is linked but not counted yet, and a dequeue of its value. *)
Definition underflow_schedule : list (cmd (queue_op nat)) :=
  Call 0 (Adt.Enqueue 7) :: replicate 7 (Step 0) ++
  Call 1 Adt.Dequeue :: replicate 9 (Step 1) ++
  Call 1 QueueLength :: replicate 2 (Step 1).

(** [Length] can read 2^64 - 1: a dequeue is counted before its enqueue. *)
Theorem queue_length_underflow : ∃ s id,
  reaches (queue_object 0) underflow_schedule s ∧
  ERes 1 id (RLen (two64 - 1)) ∈ sy_hist s.
Proof.
  destruct (run_history_reaches (queue_object 0) underflow_schedule _
    ltac:(vm_compute; reflexivity)) as (s & Hs & Hh).
  exists s, 3. split; [exact Hs|]. rewrite Hh. do 4 right. left.
Qed.
End Queue.
