(* ===== verification/LfElimination.v ===== *)
(** [lf.EliminationStack]: Treiber's stack with an elimination array
    ([lf/elimination.go]).

    A push and a pop that lose the race for the top pointer may meet in an
    exchanger and cancel out.  The goroutine that completes an exchange
    ([matcher]) makes both operations take effect, push first. *)

From S2P Require Export Rules Adt Treiber.

Module EliminationStack.

Definition elimDefaultSlots : Z := 16.
Definition elimDefaultSpins : Z := 32.

Inductive exState :=
  | exEmpty
  | exWaiting
  | exBusy.

(** An immutable pair; [sv_item] is the offered value, nil for a pop. *)
Record slotVal (T : Type) := SlotVal {
  sv_item : option T;
  sv_state : exState
}.
Arguments SlotVal {_}.
Arguments sv_item {_}.
Arguments sv_state {_}.

Section elimination.
Context {T : Type} (zero : T).

(** [vals] is the heap of [slotVal]s and [slots] the pointers of the exchangers.
    [rng] are the random numbers to come. *)
Record mem := Mem {
  heap : list (directItem T);
  top : option loc;
  length_ : Z;
  vals : list (slotVal T);
  slots : list (option loc);
  spins : Z;
  eliminations : Z;
  rng : nat → nat
}.

Definition heap_f : field mem (list (directItem T)) := Field heap (λ h m,
  Mem h (top m) (length_ m) (vals m) (slots m) (spins m) (eliminations m) (rng m)).
Definition top_f : field mem (option loc) := Field top (λ p m,
  Mem (heap m) p (length_ m) (vals m) (slots m) (spins m) (eliminations m) (rng m)).
Definition length_f : field mem Z := Field length_ (λ n m,
  Mem (heap m) (top m) n (vals m) (slots m) (spins m) (eliminations m) (rng m)).
Definition vals_f : field mem (list (slotVal T)) := Field vals (λ v m,
  Mem (heap m) (top m) (length_ m) v (slots m) (spins m) (eliminations m) (rng m)).
Definition slots_f : field mem (list (option loc)) := Field slots (λ s m,
  Mem (heap m) (top m) (length_ m) (vals m) s (spins m) (eliminations m) (rng m)).
Definition eliminations_f : field mem Z := Field eliminations (λ n m,
  Mem (heap m) (top m) (length_ m) (vals m) (slots m) (spins m) n (rng m)).
Definition rng_f : field mem (nat → nat) := Field rng (λ r m,
  Mem (heap m) (top m) (length_ m) (vals m) (slots m) (spins m) (eliminations m) r).

(** [rand.IntN(n)]: the next random number, reduced; it panics unless [0 < n]. *)
Definition randIntN (n : Z) : mem → option (Z * mem) := λ m,
  if bool_decide (0 < n)%Z
  then Some ((Z.of_nat (rng m 0) mod n)%Z, f_set rng_f (λ i, rng m (S i)) m)
  else None.

Definition newEliminationStack (rng : nat → nat) (slots spins : Z) : option mem :=
  if bool_decide (slots < 0)%Z then None
  else Some (Mem [] None 0 [] (replicate (Z.to_nat slots) None) spins 0 rng).

Definition NewEliminationStack (rng : nat → nat) : option mem :=
  newEliminationStack rng elimDefaultSlots elimDefaultSpins.

(** After posting [mine]: wait for a partner, or withdraw. *)
Definition await (e : Z) (mine : loc) (spins : Z) : prog mem (option T * bool) :=
  let! met := loop (λ i : Z,
    if bool_decide (i < spins)%Z then
      let! c := act (load_idx slots e) in
      if decide (c = Some mine) then continue ((i + 1)%Z)
      else
        match c with
        | None => break (Some (None, false))
        | Some l =>
            act (cas_idx slots_f e c None) ;;;
            let! item := act (load_at vals l sv_item) in
            break (Some (item, true))
        end
    else break None) 0%Z in
  match met with
  | Some r => Ret r
  | None =>
      let! ok := act (cas_idx slots_f e (Some mine) None) in
      if ok : bool then Ret (None, false)
      else
        let! c := act (load_idx slots e) in
        match c with
        | None => Ret (None, false)
        | Some l =>
            act (cas_idx slots_f e c None) ;;;
            let! item := act (load_at vals l sv_item) in
            Ret (item, true)
        end
  end.

(** The [switch] of [exchange], with [cur] in the slot. *)
Definition exchange_switch (e : Z) (my : option T) (spins : Z) (cur : option loc)
    (st : exState) : prog mem (option T * bool) :=
  match st with
  | exEmpty =>
      let! mine := act (new vals_f (SlotVal my exWaiting)) in
      let! ok := act (cas_idx slots_f e cur (Some mine)) in
      if negb ok then Ret (None, false) else await e mine spins
  | exWaiting =>
      let! busy := act (new vals_f (SlotVal my exBusy)) in
      let! ok := act (cas_idx slots_f e cur (Some busy)) in
      if ok : bool then
        let! item := act (load_ptr vals cur sv_item) in
        Ret (item, true)
      else Ret (None, false)
  | exBusy => Ret (None, false)
  end.

Definition exchange (e : Z) (my : option T) (spins : Z) : prog mem (option T * bool) :=
  let! cur := act (load_idx slots e) in
  let! st :=
    match cur with
    | None => Ret exEmpty
    | Some c => act (load_at vals c sv_state)
    end in
  exchange_switch e my spins cur st.

(** [&s.slots[rand.IntN(len(s.slots))]] *)
Definition randomSlot : prog mem Z :=
  let! n := act (load (λ m, Z.of_nat (length (slots m)))) in
  act (randIntN n).

Definition Push (v : T) : prog mem (resp T) :=
  let! node := act (new heap_f (DirectItem None v)) in
  loop (λ _ : unit,
    let! top := act (load top) in
    act (store_at heap_f node next_f top) ;;;
    let! ok := act (cas top_f top (Some node)) in
    if ok : bool then
      act (add_u64 length_f 1) ;;;
      break RDone
    else
      let! slot := randomSlot in
      let! spins := act (load spins) in
      let! met := exchange slot (Some v) spins in
      match met with
      | (None, true) =>
          act (add_u64 eliminations_f 1) ;;;
          break RDone
      | _ => continue tt
      end) tt.

Definition Pop : prog mem (resp T) :=
  loop (λ _ : unit,
    let! top := act (load top) in
    match top with
    | None => break (RVal zero false)
    | Some p =>
        let! next := act (load_at heap p di_next) in
        let! ok := act (cas top_f (Some p) next) in
        if ok : bool then
          act (add_u64 length_f (two64 - 1)) ;;;
          let! v := act (load_at heap p di_v) in
          break (RVal v true)
        else
          let! slot := randomSlot in
          let! spins := act (load spins) in
          let! met := exchange slot None spins in
          match met with
          | (Some x, true) =>
              act (add_u64 eliminations_f 1) ;;;
              break (RVal x true)
          | _ => continue tt
          end
    end) tt.

Definition Length : prog mem (resp T) :=
  let! n := act (load length_) in
  Ret (RLen n).

Definition code (_ : nat) (o : stack_op T) : prog mem (resp T) :=
  match o with
  | Adt.Push v => Push v
  | Adt.Pop => Pop
  | StackLength => Length
  end.

(** Any goroutine may call any method. *)
Definition elimination_object (m : mem) : object mem (stack_op T) (resp T) :=
  Object m code (λ _ _ _ _, true).

(** ** The invariant *)

(** [spinning] is the constant [s.spins] and [width] the number of slots. *)
Context (spinning : Z) (width : nat).

(** Ghost state, besides that of the central stack: the slot in which a
    goroutine waits, and the pair it posted there. *)
Record aux := Aux {
  own : gmap loc nat;
  adj : gmap nat Z;
  wait : gmap nat (nat * loc)
}.

Abbreviation world := (world mem (stack_op T) (resp T) aux).
Abbreviation Sp := (stack_spec zero).
Implicit Types (w : world) (t u e : nat) (my it : option T) (mine c : loc).

Definition g_vals w : list T := g_state Sp (w_gh w).

(** The operation that offers [my], and its response when the partner offered
    [it]; nothing when both are of the same kind. *)
Definition op_of my : stack_op T :=
  match my with Some v => Adt.Push v | None => Adt.Pop end.

Definition elim my it : option (resp T) :=
  match my, it with
  | Some _, None => Some RDone
  | None, Some x => Some (RVal x true)
  | _, _ => None
  end.

(** The operation after an exchange of [my] for [it]. *)
Definition settled t my it w : Prop :=
  match elim my it with
  | Some r => finished (w_gh w) t r
  | None => pending (w_gh w) t (op_of my)
  end.

(** The slot of a waiting goroutine holds its pair or the partner's. *)
Definition offer t e mine my w : Prop :=
  (slots (w_mem w) !! e = Some (Some mine) ∧ pending (w_gh w) t (op_of my)) ∨
  (∃ b it, slots (w_mem w) !! e = Some (Some b) ∧
     vals (w_mem w) !! b = Some (SlotVal it exBusy) ∧ settled t my it w).

Record Inv w : Prop := {
  i_central : central (heap (w_mem w)) (top (w_mem w)) (length_ (w_mem w))
    (own (w_aux w)) (adj (w_aux w)) (g_vals w);
  i_idle : ∀ u, g_thr (w_gh w) !! u = None →
    adj (w_aux w) !! u = None ∧ wait (w_aux w) !! u = None;
  i_width : length (slots (w_mem w)) = width;
  i_spins : spins (w_mem w) = spinning;
  i_vals : ∀ c v, vals (w_mem w) !! c = Some v → sv_state v ≠ exEmpty;
  i_wait : ∀ u e mine, wait (w_aux w) !! u = Some (e, mine) → ∃ my,
    vals (w_mem w) !! mine = Some (SlotVal my exWaiting) ∧ offer u e mine my w;
  i_slot : ∀ e c, slots (w_mem w) !! e = Some (Some c) →
    is_Some (vals (w_mem w) !! c) ∧ ∃ u mine, wait (w_aux w) !! u = Some (e, mine);
  i_one : ∀ u u' e m m', wait (w_aux w) !! u = Some (e, m) →
    wait (w_aux w) !! u' = Some (e, m') → u = u'
}.

Record R (t : nat) w w' : Prop := {
  r_nodes : nodes_kept t (heap (w_mem w)) (own (w_aux w)) (heap (w_mem w')) (own (w_aux w'));
  r_adj : adj (w_aux w') !! t = adj (w_aux w) !! t;
  r_top : w_len w' = w_len w → top (w_mem w') = top (w_mem w);
  r_vals : vals (w_mem w) `prefix_of` vals (w_mem w');
  r_wait : wait (w_aux w') !! t = wait (w_aux w) !! t;
  r_slot : ∀ e mine b, wait (w_aux w) !! t = Some (e, mine) →
    slots (w_mem w) !! e = Some (Some b) → b ≠ mine →
    slots (w_mem w') !! e = Some (Some b);
  r_helped : helped t (w_gh w) (w_gh w');
  r_quiet : wait (w_aux w) !! t = None → quiet t (w_gh w) (w_gh w')
}.

Lemma elimination_R_order t : PreOrder (R t).
Proof.
  split.
  - by split; auto with lockfree.
  - intros w1 w2 w3 [N1 A1 T1 V1 W1 S1 H1 Q1] [N2 A2 T2 V2 W2 S2 H2 Q2]. split.
    + by eapply nodes_kept_trans.
    + congruence.
    + intros Hlen. destruct H1 as [?%prefix_length _], H2 as [?%prefix_length _].
      unfold w_len in *. rewrite T2, T1; [done|lia..].
    + by etrans.
    + congruence.
    + intros e mine b Hw Hs Hb. eapply S2; [by rewrite W1|by eapply S1|done].
    + by etrans.
    + intros Hw. etrans; [by apply Q1|]. apply Q2. congruence.
Qed.

Definition proto : protocol mem (stack_op T) (resp T) aux :=
  Protocol Inv R elimination_R_order.
Abbreviation rely := (pr_rely proto).
(** The steps of an exchange, and of an operation between two effects. *)
Definition exchange_steps : nat := 2 * Z.to_nat spinning + 9.
Definition steps : nat := 2 * Z.to_nat spinning + 20.
Abbreviation pg := (LockFree steps).
Abbreviation wp t := (Logic.wp Sp proto pg t).

(** ** What a goroutine knows, and that the others respect it *)

(** The operation [o] of [t] is under way: not in effect, nothing offered. *)
Definition ready t (o : stack_op T) w : Prop :=
  pending (w_gh w) t o ∧ adj (w_aux w) !! t = None ∧ wait (w_aux w) !! t = None.

(** It took effect with response [r]; the counter lags by [z]. *)
Definition owing t (z : option Z) (r : resp T) w : Prop :=
  finished (w_gh w) t r ∧ adj (w_aux w) !! t = z ∧ wait (w_aux w) !! t = None.

Definition node l (n : directItem T) w : Prop :=
  heap (w_mem w) !! l = Some n ∧ own (w_aux w) !! l = None.

Definition private t l (n : directItem T) w : Prop :=
  heap (w_mem w) !! l = Some n ∧ own (w_aux w) !! l = Some t.

Definition pair_at c (v : slotVal T) w : Prop := vals (w_mem w) !! c = Some v.

(** [t] posted [mine] in slot [e] and waits. *)
Definition offering t e mine my w : Prop :=
  wait (w_aux w) !! t = Some (e, mine) ∧ pair_at mine (SlotVal my exWaiting) w ∧
  adj (w_aux w) !! t = None.

(** A partner replaced it by [b]. *)
Definition matched t e mine my b it w : Prop :=
  offering t e mine my w ∧ slots (w_mem w) !! e = Some (Some b) ∧
  pair_at b (SlotVal it exBusy) w.

(** After an exchange that returned [met]. *)
Definition exchanged t my (met : option T * bool) w : Prop :=
  match (if met.2 then elim my met.1 else None) with
  | Some r => owing t None r w
  | None => ready t (op_of my) w
  end.

(** Since the log had length [L], the top was [p] or something took effect. *)
Definition seen (p : option loc) (L : nat) w : Prop :=
  L ≤ w_len w ∧ (top (w_mem w) ≠ p → L < w_len w).

Section stability.
Context (t : nat) (w w' : world) (HR : rely t w w').

Lemma elim_ready_stable o : ready t o w → ready t o w'.
Proof using HR.
  intros (Hp & Ha & Hw). split; [eapply pending_quiet; [exact Hp|by apply (r_quiet _ _ _ HR)]|].
  by rewrite (r_adj _ _ _ HR), (r_wait _ _ _ HR).
Qed.

Lemma elim_owing_stable z r : owing t z r w → owing t z r w'.
Proof using HR.
  intros (Hf & Ha & Hw). split; [eapply finished_helped; [exact Hf|apply (r_helped _ _ _ HR)]|].
  by rewrite (r_adj _ _ _ HR), (r_wait _ _ _ HR).
Qed.

Lemma elim_node_stable l n : node l n w → node l n w'.
Proof using HR. intros [? ?]. by apply (k_public _ _ _ _ _ (r_nodes _ _ _ HR)). Qed.

Lemma elim_private_stable l n : private t l n w → private t l n w'.
Proof using HR.
  intros [Hh Ho]. destruct (k_own _ _ _ _ _ (r_nodes _ _ _ HR) _ Ho) as [? Heq].
  split; [|done]. by rewrite Heq.
Qed.

Lemma pair_stable c v : pair_at c v w → pair_at c v w'.
Proof using HR. apply prefix_lookup_Some', (r_vals _ _ _ HR). Qed.

Lemma offering_stable e mine my : offering t e mine my w → offering t e mine my w'.
Proof using HR.
  intros (Hw & Hm & Ha). split; [by rewrite (r_wait _ _ _ HR)|].
  split; [by apply pair_stable|by rewrite (r_adj _ _ _ HR)].
Qed.

Lemma matched_stable e mine my b it :
  matched t e mine my b it w → matched t e mine my b it w'.
Proof using HR.
  intros (Ho & Hs & Hb). split; [by apply offering_stable|].
  split; [|by apply pair_stable]. eapply (r_slot _ _ _ HR); [apply Ho|done|].
  intros ->. destruct Ho as (_ & Hm & _). unfold pair_at in *. congruence.
Qed.

Lemma exchanged_stable my met : exchanged t my met w → exchanged t my met w'.
Proof using HR.
  unfold exchanged. destruct (if met.2 then _ else _);
    [apply elim_owing_stable|apply elim_ready_stable].
Qed.

Lemma elim_len_stable : w_len w ≤ w_len w'.
Proof using HR. destruct (r_helped _ _ _ HR) as [?%prefix_length _]. done. Qed.

Lemma elim_seen_stable p L : seen p L w → seen p L w'.
Proof using HR.
  intros [HL Hp]. pose proof elim_len_stable as Hle. split; [lia|]. intros Hne.
  destruct (decide (w_len w' = w_len w)) as [Heq|]; [|lia].
  rewrite (r_top _ _ _ HR) in Hne by done. rewrite Heq. auto.
Qed.
End stability.

Hint Resolve elim_ready_stable elim_owing_stable elim_node_stable elim_private_stable
  elim_seen_stable offering_stable matched_stable pair_stable : lockfree.

Lemma elim_top_node w p : Inv w → top (w_mem w) = Some p → ∃ n, node p n w.
Proof.
  intros HI Htop. pose proof (i_central _ HI) as Hc. rewrite Htop in Hc.
  by apply central_top in Hc.
Qed.

(** ** The writes of the code keep the invariant *)

(** Changes of the log that the waiting goroutines do not notice. *)
Lemma offer_quiet u e mine my w w' :
  slots (w_mem w') !! e = slots (w_mem w) !! e →
  vals (w_mem w) `prefix_of` vals (w_mem w') →
  quiet u (w_gh w) (w_gh w') → offer u e mine my w → offer u e mine my w'.
Proof.
  intros Hs Hv Hq [[? ?]|(b & it & ? & ? & Hset)].
  - left. rewrite Hs. split; [done|]. by eapply pending_quiet.
  - right. exists b, it. rewrite Hs. split; [done|].
    split; [by eapply prefix_lookup_Some'|]. unfold settled in *.
    destruct (elim my it); [by eapply finished_quiet|by eapply pending_quiet].
Qed.

(** A goroutine that does not wait takes effect on the central stack. *)
Lemma effect_step t o r w (m' : mem) o' a' :
  Inv w → ready t o w → (spec_step Sp (g_vals w) o).2 = Some r →
  central (heap m') (top m') (length_ m') o' a' (spec_step Sp (g_vals w) o).1 →
  vals m' = vals (w_mem w) → slots m' = slots (w_mem w) → spins m' = spins (w_mem w) →
  (∀ u, u ≠ t → a' !! u = adj (w_aux w) !! u ∧
     nodes_kept u (heap (w_mem w)) (own (w_aux w)) (heap m') o') →
  let w' := upd Sp w m' [t] (Aux o' a' (wait (w_aux w))) in
  good_step proto t w w' ∧ owing t (a' !! t) r w'.
Proof.
  intros HI (Hp & Ha & Hw) Hr Hc Hvals Hslots Hspins Hothers w'.
  destruct (lin1_pending Sp _ _ _ _ Hp Hr) as (Hf & Hst & Hlen & _).
  assert (∀ u, u ≠ t → quiet u (w_gh w) (lin1 Sp (w_gh w) t)) as Hq
    by (intros u Hu; by apply quiet_lin1).
  split; [split|split; [exact Hf|done]].
  - split; simpl; rewrite ?Hvals, ?Hslots, ?Hspins; try apply HI.
    + unfold g_vals. simpl. by rewrite Hst.
    + intros u Hu. destruct (lin1_dom _ _ _ _ _ _ Hp Hr Hu) as [Hu' Hne].
      rewrite (proj1 (Hothers u Hne)). by apply HI.
    + intros u e mine Hu. destruct (i_wait _ HI _ _ _ Hu) as (my & ? & ?).
      exists my. split; [done|]. apply (offer_quiet u e mine my w); simpl;
        [by rewrite Hslots|by rewrite Hvals| |done]. apply Hq. congruence.
  - intros u Hu. destruct (Hothers u Hu). split; simpl; rewrite ?Hvals, ?Hslots; try done.
    + unfold w_len. simpl. rewrite Hlen. lia.
    + by apply quiet_helped, Hq.
    + intros _. by apply Hq.
Qed.

Lemma elim_pop_cas t p n w :
  Inv w → ready t Adt.Pop w → top (w_mem w) = Some p → node p n w →
  let w' := upd Sp w (f_set top_f (di_next n) (w_mem w)) [t]
              (Aux (own (w_aux w)) (<[t := (-1)%Z]> (adj (w_aux w))) (wait (w_aux w))) in
  good_step proto t w w' ∧ owing t (Some (-1)%Z) (RVal (di_v n) true) w'.
Proof.
  intros HI Hready Htop [Hh Ho]. pose proof Hready as (_ & Ha & _).
  pose proof (i_central _ HI) as Hc. rewrite Htop in Hc.
  destruct (central_pop t _ _ _ _ _ _ _ Hc Hh Ha) as (vs & Est & Hc').
  destruct (effect_step t Adt.Pop (RVal (di_v n) true) w (f_set top_f (di_next n) (w_mem w))
    (own (w_aux w)) (<[t := (-1)%Z]> (adj (w_aux w))) HI Hready) as [Hgood Howe];
    rewrite ?Est; try done.
  - intros u Hu. rewrite lookup_insert_ne by done. auto with lockfree.
  - rewrite lookup_insert_eq in Howe. by split.
Qed.

Lemma elim_pop_empty t w :
  Inv w → ready t Adt.Pop w → top (w_mem w) = None →
  let w' := upd Sp w (w_mem w) [t]
              (Aux (own (w_aux w)) (adj (w_aux w)) (wait (w_aux w))) in
  good_step proto t w w' ∧ owing t None (RVal zero false) w'.
Proof.
  intros HI Hready Htop. pose proof Hready as (_ & Ha & _).
  pose proof (i_central _ HI) as Hc. rewrite Htop in Hc. apply central_empty in Hc as Est.
  destruct (effect_step t Adt.Pop (RVal zero false) w (w_mem w) (own (w_aux w))
    (adj (w_aux w)) HI Hready) as [Hgood Howe]; rewrite ?Est; try done.
  - simpl. rewrite Htop. by rewrite <-Est.
  - rewrite Ha in Howe. by split.
Qed.

Lemma elim_push_cas t l v w :
  Inv w → ready t (Adt.Push v) w → private t l (DirectItem (top (w_mem w)) v) w →
  let w' := upd Sp w (f_set top_f (Some l) (w_mem w)) [t]
              (Aux (delete l (own (w_aux w))) (<[t := 1%Z]> (adj (w_aux w))) (wait (w_aux w))) in
  good_step proto t w w' ∧ owing t (Some 1%Z) RDone w'.
Proof.
  intros HI Hready [Hh Ho]. pose proof Hready as (_ & Ha & _).
  destruct (central_push t _ _ _ _ _ _ l v (i_central _ HI) Ho Hh Ha) as [Hc Hk].
  destruct (effect_step t (Adt.Push v) RDone w (f_set top_f (Some l) (w_mem w))
    (delete l (own (w_aux w))) (<[t := 1%Z]> (adj (w_aux w))) HI Hready) as [Hgood Howe];
    try done.
  - intros u Hu. rewrite lookup_insert_ne by done. auto.
  - rewrite lookup_insert_eq in Howe. by split.
Qed.

(** A write that takes no effect and does not touch the slots. *)
Lemma plain_step t w (m' : mem) o' a' :
  Inv w → g_thr (w_gh w) !! t ≠ None →
  central (heap m') (top m') (length_ m') o' a' (g_vals w) →
  top m' = top (w_mem w) → slots m' = slots (w_mem w) → spins m' = spins (w_mem w) →
  vals (w_mem w) `prefix_of` vals m' →
  (∀ c v, vals m' !! c = Some v → sv_state v ≠ exEmpty) →
  (∀ u, u ≠ t → a' !! u = adj (w_aux w) !! u ∧
     nodes_kept u (heap (w_mem w)) (own (w_aux w)) (heap m') o') →
  good_step proto t w (upd Sp w m' [] (Aux o' a' (wait (w_aux w)))).
Proof.
  intros HI Ht Hc Htop Hslots Hspins Hvals Hstates Hothers. split.
  - split; simpl; rewrite ?Hslots, ?Hspins; try apply HI; try done.
    + intros u Hu. rewrite (proj1 (Hothers u ltac:(congruence))). by apply HI.
    + intros u e mine Hu. destruct (i_wait _ HI _ _ _ Hu) as (my & ? & ?).
      exists my. split; [by eapply prefix_lookup_Some'|].
      apply (offer_quiet u e mine my w); simpl; [by rewrite Hslots|done|done|done].
    + intros e c Hec. destruct (i_slot _ HI _ _ Hec) as [[v Hv] ?]. split; [|done].
      exists v. by eapply prefix_lookup_Some'.
  - intros u Hu. destruct (Hothers u Hu). split; simpl; rewrite ?Hslots; try done.
Qed.

Lemma pending_running t o w : pending (w_gh w) t o → g_thr (w_gh w) !! t ≠ None.
Proof. intros (id & lo & Ht & _). congruence. Qed.

(** [Push] allocates its node. *)
Lemma elim_push_new t o n w :
  Inv w → ready t o w →
  let w' := upd Sp w (f_set heap_f (heap (w_mem w) ++ [n]) (w_mem w)) []
              (Aux (<[length (heap (w_mem w)) := t]> (own (w_aux w))) (adj (w_aux w))
                 (wait (w_aux w))) in
  good_step proto t w w' ∧ ready t o w' ∧ private t (length (heap (w_mem w))) n w'.
Proof.
  intros HI Hready w'.
  destruct (central_new t _ _ _ _ _ _ n (i_central _ HI)) as [Hc Hk].
  split; [|split; [exact Hready|]].
  - apply plain_step; try done; [by eapply pending_running, Hready|apply (i_vals _ HI)].
  - split; simpl; [apply lookup_snoc_eq|apply lookup_insert_eq].
Qed.

Lemma elim_push_store t o l n p w :
  Inv w → ready t o w → private t l n w →
  let n' := f_set next_f p n in
  let w' := upd Sp w (f_set heap_f (<[l := n']> (heap (w_mem w))) (w_mem w)) []
              (Aux (own (w_aux w)) (adj (w_aux w)) (wait (w_aux w))) in
  good_step proto t w w' ∧ ready t o w' ∧ private t l n' w'.
Proof.
  intros HI Hready [Hh Ho] n' w'.
  destruct (central_store t _ _ _ _ _ _ l n n' (i_central _ HI) Ho Hh) as [Hc Hk].
  split; [|split; [exact Hready|]].
  - apply plain_step; try done; [by eapply pending_running, Hready|apply (i_vals _ HI)|].
    intros u Hu. split; [done|by apply Hk].
  - split; [|done]. simpl. apply list_lookup_insert_eq. by eapply lookup_lt_Some.
Qed.

Lemma elim_settle t r z d w :
  Inv w → owing t (Some z) r w → u64 d = u64 z →
  let w' := upd Sp w (f_set length_f (u64 (length_ (w_mem w) + d)) (w_mem w)) []
              (Aux (own (w_aux w)) (delete t (adj (w_aux w))) (wait (w_aux w))) in
  good_step proto t w w' ∧ owing t None r w'.
Proof.
  intros HI (Hf & Ha & Hw) Hd w'.
  split; [|split; [exact Hf|split; [apply lookup_delete_eq|done]]].
  apply plain_step; try done.
  - destruct Hf as (? & ? & ? & ->). done.
  - eapply central_settle; [apply HI|done..].
  - apply (i_vals _ HI).
  - intros u Hu. rewrite lookup_delete_ne by done. auto with lockfree.
Qed.

(** Writes to the other variables: the random numbers, the statistics. *)
Lemma elim_other_step t w (m' : mem) :
  Inv w → g_thr (w_gh w) !! t ≠ None →
  heap m' = heap (w_mem w) → top m' = top (w_mem w) → length_ m' = length_ (w_mem w) →
  slots m' = slots (w_mem w) → spins m' = spins (w_mem w) → vals m' = vals (w_mem w) →
  good_step proto t w (upd Sp w m' [] (Aux (own (w_aux w)) (adj (w_aux w)) (wait (w_aux w)))).
Proof.
  intros HI Ht Hh Htop Hl Hs Hsp Hv. apply plain_step; rewrite ?Hh, ?Htop, ?Hl, ?Hv; try done.
  - apply HI.
  - apply (i_vals _ HI).
Qed.

(** A fresh pair. *)
Lemma pair_new t o v w :
  Inv w → ready t o w → sv_state v ≠ exEmpty →
  let w' := upd Sp w (f_set vals_f (vals (w_mem w) ++ [v]) (w_mem w)) []
              (Aux (own (w_aux w)) (adj (w_aux w)) (wait (w_aux w))) in
  good_step proto t w w' ∧ ready t o w' ∧ pair_at (length (vals (w_mem w))) v w'.
Proof.
  intros HI Hready Hv w'. split; [|split; [exact Hready|apply lookup_snoc_eq]].
  apply plain_step; try done; [by eapply pending_running, Hready|apply (i_central _ HI)|..].
  - apply prefix_snoc.
  - intros c v' [?|[_ ->]]%lookup_snoc_inv; [by eapply (i_vals _ HI)|done].
Qed.

(** A slot changes from [c]: the other waiting goroutines are in other slots. *)
Lemma waiting_slot t w e (c : option loc) :
  Inv w → slots (w_mem w) !! e = Some c →
  (∀ u mine, wait (w_aux w) !! u = Some (e, mine) → u = t) →
  ∀ u e' mine (c' : option loc), wait (w_aux w) !! u = Some (e', mine) → u ≠ t →
    <[e := c']> (slots (w_mem w)) !! e' = slots (w_mem w) !! e'.
Proof.
  intros HI He Hone u e' mine c' Hu Hne. apply list_lookup_insert_ne. intros <-.
  by apply Hne, (Hone _ _ Hu).
Qed.

(** An empty slot has nobody waiting. *)
Lemma empty_slot w e u mine :
  Inv w → slots (w_mem w) !! e = Some None → wait (w_aux w) !! u ≠ Some (e, mine).
Proof.
  intros HI He Hu. destruct (i_wait _ HI _ _ _ Hu) as (my & _ & [[? _]|(b & it & ? & _)]);
    congruence.
Qed.

(** [e.p.CompareAndSwap(nil, mine)]: [t] waits. *)
Lemma post_step t e my mine w :
  Inv w → ready t (op_of my) w → pair_at mine (SlotVal my exWaiting) w →
  slots (w_mem w) !! e = Some None →
  let w' := upd Sp w (f_set slots_f (<[e := Some mine]> (slots (w_mem w))) (w_mem w)) []
              (Aux (own (w_aux w)) (adj (w_aux w)) (<[t := (e, mine)]> (wait (w_aux w)))) in
  good_step proto t w w' ∧ offering t e mine my w'.
Proof.
  intros HI (Hp & Ha & Hw) Hm He w'.
  pose proof (lookup_lt_Some _ _ _ He) as Hlt.
  assert (∀ u e' mine' (c' : option loc), wait (w_aux w) !! u = Some (e', mine') →
    <[e := c']> (slots (w_mem w)) !! e' = slots (w_mem w) !! e') as Hother.
  { intros u e' mine' c' Hu. apply list_lookup_insert_ne. intros <-.
    by eapply empty_slot in Hu. }
  split; [split|split; [apply lookup_insert_eq|done]].
  - split; simpl; try apply HI.
    + intros u Hu. destruct (i_idle _ HI u Hu). split; [done|].
      rewrite lookup_insert_ne; [done|]. intros ->. by eapply pending_running in Hp.
    + rewrite length_insert. apply HI.
    + intros u e' mine' [[<- [= <- <-]]|[Hne Hu]]%lookup_insert_Some.
      * exists my. split; [done|]. left. simpl. by rewrite list_lookup_insert_eq.
      * destruct (i_wait _ HI _ _ _ Hu) as (my' & ? & Hoff). exists my'. split; [done|].
        apply (offer_quiet u e' mine' my' w); simpl; [by eapply Hother|done|done|done].
    + intros e' c [(<- & [= <-] & _)|[Hne Hc]]%list_lookup_insert_Some.
      * split; [by eexists|]. exists t, mine. apply lookup_insert_eq.
      * destruct (i_slot _ HI _ _ Hc) as [? (u & mine' & Hu)]. split; [done|].
        exists u, mine'. rewrite lookup_insert_ne; [done|]. intros ->. congruence.
    + intros u u' e' m m' [[<- [= <- <-]]|[Hne Hu]]%lookup_insert_Some
        [[<- [= <-]]|[Hne' Hu']]%lookup_insert_Some; try done.
      * by eapply empty_slot in Hu'.
      * by eapply empty_slot in Hu.
      * by eapply (i_one _ HI).
  - intros u Hu. split; simpl; try done; auto with lockfree.
    + by rewrite lookup_insert_ne by done.
    + intros e' mine' b Hwu Hs _. by rewrite (Hother _ _ _ _ Hwu).
Qed.

(** The waiting goroutine empties its slot. *)
Lemma leave_step t e mine my (c : option loc) w :
  Inv w → offering t e mine my w → slots (w_mem w) !! e = Some c →
  let w' := upd Sp w (f_set slots_f (<[e := None]> (slots (w_mem w))) (w_mem w)) []
              (Aux (own (w_aux w)) (adj (w_aux w)) (delete t (wait (w_aux w)))) in
  good_step proto t w w' ∧ wait (w_aux w') !! t = None.
Proof.
  intros HI (Hw & Hm & Ha) He w'.
  pose proof (lookup_lt_Some _ _ _ He) as Hlt.
  assert (∀ u e' mine' (c' : option loc), wait (w_aux w) !! u = Some (e', mine') → u ≠ t →
    <[e := c']> (slots (w_mem w)) !! e' = slots (w_mem w) !! e') as Hother.
  { apply (waiting_slot t w e c HI He). intros u mine' Hu. by eapply (i_one _ HI). }
  split; [split|apply lookup_delete_eq].
  - split; simpl; try apply HI.
    + intros u Hu. destruct (i_idle _ HI u Hu). split; [done|].
      rewrite lookup_delete. by case_decide.
    + rewrite length_insert. apply HI.
    + intros u e' mine' [Hne Hu]%lookup_delete_Some.
      destruct (i_wait _ HI _ _ _ Hu) as (my' & ? & Hoff). exists my'. split; [done|].
      apply (offer_quiet u e' mine' my' w); simpl; [by eapply Hother|done|done|done].
    + intros e' c' [(_ & ? & _)|[Hne Hc]]%list_lookup_insert_Some; [done|].
      destruct (i_slot _ HI _ _ Hc) as [? (u & mine' & Hu)]. split; [done|].
      exists u, mine'. rewrite lookup_delete_ne; [done|]. intros ->. congruence.
    + intros u u' e' m m' [_ Hu]%lookup_delete_Some [_ Hu']%lookup_delete_Some.
      by eapply (i_one _ HI).
  - intros u Hu. split; simpl; try done; auto with lockfree.
    + by rewrite lookup_delete_ne by done.
    + intros e' mine' b Hwu Hs _. by rewrite (Hother _ _ _ _ Hwu).
Qed.

(** A push of [t] and a pop of [u] take effect one after the other. *)
Lemma eliminate t u v g :
  t ≠ u → pending g t (Adt.Push v) → pending g u Adt.Pop →
  let g' := lins Sp [t; u] g in
  finished g' t RDone ∧ finished g' u (RVal v true) ∧ g_state Sp g' = g_state Sp g ∧
  (∀ x, g_thr g' !! x = None → g_thr g !! x = None) ∧
  length (g_log g) < length (g_log g') ∧
  (∀ x, x ≠ t → x ≠ u → quiet x g g') ∧ ∀ x, helped x g g'.
Proof.
  intros Hne Hpush Hpop g'. set (g1 := lin1 Sp g t).
  destruct (lin1_pending Sp g t _ RDone Hpush) as (Hf1 & Hst1 & Hlen1 & Hdom1); [done|].
  simpl in Hst1. fold g1 in Hf1, Hst1, Hlen1, Hdom1.
  assert (pending g1 u Adt.Pop) as Hpop1.
  { eapply pending_quiet; [exact Hpop|]. by apply quiet_lin1. }
  destruct (lin1_pending Sp g1 u Adt.Pop (RVal v true)) as (Hf2 & Hst2 & Hlen2 & Hdom2);
    [done|by rewrite Hst1|].
  rewrite Hst1 in Hst2. simpl in Hst2. change (lin1 Sp g1 u) with g' in *.
  split_and!; try done.
  - eapply finished_quiet; [exact Hf1|]. apply quiet_lin1. congruence.
  - intros x Hx. by apply Hdom1, Hdom2.
  - lia.
  - intros x Hxt Hxu. trans g1; apply (quiet_lin1 Sp); congruence.
  - intros x. trans g1; apply (helped_lin1 Sp).
Qed.

(** [t] replaces the pair of the waiting [u] by its own. *)
Lemma swap_step t u e my it c b us w :
  Inv w → ready t (op_of my) w → slots (w_mem w) !! e = Some (Some c) → t ≠ u →
  wait (w_aux w) !! u = Some (e, c) → pair_at c (SlotVal it exWaiting) w →
  pair_at b (SlotVal my exBusy) w →
  let g' := lins Sp us (w_gh w) in
  let w' := upd Sp w (f_set slots_f (<[e := Some b]> (slots (w_mem w))) (w_mem w)) us
              (Aux (own (w_aux w)) (adj (w_aux w)) (wait (w_aux w))) in
  g_state Sp g' = g_vals w → settled t my it w' → settled u it my w' →
  (∀ x, g_thr g' !! x = None → g_thr (w_gh w) !! x = None) →
  (∀ x, x ≠ t → x ≠ u → quiet x (w_gh w) g') → (∀ x, helped x (w_gh w) g') →
  good_step proto t w w' ∧ exchanged t my (it, true) w'.
Proof.
  intros HI (Hp & Ha & Hw) He Htu Hu Hc Hb g' w' Hst Hset Hset' Hdom Hq Hh.
  pose proof (lookup_lt_Some _ _ _ He) as Hlt.
  pose proof (waiting_slot u w e (Some c) HI He) as Hother.
  specialize (Hother ltac:(intros u' mine Hu'; by eapply (i_one _ HI))).
  split; [split|].
  - split; simpl; try apply HI.
    + change (central (heap (w_mem w)) (top (w_mem w)) (length_ (w_mem w))
        (own (w_aux w)) (adj (w_aux w)) (g_state Sp g')).
      rewrite Hst. apply HI.
    + intros x Hx. by apply HI, Hdom.
    + rewrite length_insert. apply HI.
    + intros x e' mine Hx. destruct (i_wait _ HI _ _ _ Hx) as (my' & Hm & Hoff).
      exists my'. split; [done|]. destruct (decide (x = u)) as [->|Hxu].
      * simplify_eq. right. exists b, my. simpl. rewrite list_lookup_insert_eq by done.
        unfold pair_at in *. by simplify_eq.
      * apply (offer_quiet x e' mine my' w); simpl; [by eapply Hother|done| |done].
        apply Hq; [|done]. congruence.
    + intros e' c' [(<- & [= <-] & _)|[Hne Hc']]%list_lookup_insert_Some.
      * split; [by eexists|by exists u, c].
      * by apply (i_slot _ HI).
  - intros x Hx. split; simpl; try done; auto with lockfree.
    + intros e' mine b' Hwx Hs Hb'. destruct (decide (x = u)) as [->|Hxu].
      * simplify_eq.
      * by rewrite (Hother _ _ _ _ Hwx).
    + intros Hwx. apply Hq; [done|]. congruence.
  - unfold exchanged, settled in *. simpl. destruct (elim my it); by split.
Qed.

Lemma match_step t e my it c b w :
  Inv w → ready t (op_of my) w → slots (w_mem w) !! e = Some (Some c) →
  pair_at c (SlotVal it exWaiting) w → pair_at b (SlotVal my exBusy) w →
  ∃ us, let w' := upd Sp w (f_set slots_f (<[e := Some b]> (slots (w_mem w))) (w_mem w)) us
              (Aux (own (w_aux w)) (adj (w_aux w)) (wait (w_aux w))) in
  good_step proto t w w' ∧ exchanged t my (it, true) w'.
Proof.
  intros HI Hready He Hc Hb. pose proof Hready as (Hp & _ & Hw).
  destruct (i_slot _ HI _ _ He) as [_ (u & mine & Hu)].
  destruct (i_wait _ HI _ _ _ Hu) as (my' & Hm & Hoff).
  assert (t ≠ u) as Htu by congruence.
  assert (mine = c ∧ my' = it ∧ pending (w_gh w) u (op_of it)) as (-> & -> & Hpu).
  { unfold pair_at in *. destruct Hoff as [[??]|(b' & it' & ? & ? & _)]; by simplify_eq. }
  destruct my as [v|], it as [x|]; simpl in Hp, Hpu.
  - exists []. by apply (swap_step t u e (Some v) (Some x) c b).
  - exists [t; u]. destruct (eliminate t u v _ Htu Hp Hpu) as (? & ? & ? & ? & ? & ? & ?).
    by apply (swap_step t u e (Some v) None c b).
  - exists [u; t]. destruct (eliminate u t x _ (not_eq_sym Htu) Hpu Hp)
      as (? & ? & ? & ? & ? & ? & ?).
    apply (swap_step t u e None (Some x) c b); auto.
  - exists []. by apply (swap_step t u e None None c b).
Qed.

(** ** [exchange] *)

(** What a caller of [exchange] knows besides: it does not depend on the slots. *)
Definition frame t (P : world → Prop) : Prop :=
  (∀ w w', rely t w w' → P w → P w') ∧
  ∀ w w', heap (w_mem w') = heap (w_mem w) → own (w_aux w') = own (w_aux w) →
    w_len w ≤ w_len w' → P w → P w'.

Lemma good_step_len t w w' : good_step proto t w w' → w_len w ≤ w_len w'.
Proof. intros [_ HR]. apply (elim_len_stable (S t)), HR. lia. Qed.

Lemma settled_exchanged t my it w :
  settled t my it w → adj (w_aux w) !! t = None → wait (w_aux w) !! t = None →
  exchanged t my (it, true) w.
Proof.
  unfold settled, exchanged. simpl. destruct (elim my it); by split.
Qed.

(** The pair in the slot of a waiting goroutine. *)
Lemma offering_slot t e mine my w :
  Inv w → offering t e mine my w → ∃ b, slots (w_mem w) !! e = Some (Some b) ∧
    (b = mine ∧ pending (w_gh w) t (op_of my) ∨
     b ≠ mine ∧ ∃ it, matched t e mine my b it w ∧ settled t my it w).
Proof.
  intros HI Ho. pose proof Ho as (Hw & Hm & _).
  destruct (i_wait _ HI _ _ _ Hw) as (my' & Hm' & Hoff). unfold pair_at in *. simplify_eq.
  destruct Hoff as [[? ?]|(b & it & ? & ? & ?)]; [by exists mine; auto|].
  exists b. split; [done|]. right. split; [congruence|]. by exists it.
Qed.

(** The waiting goroutine takes what the partner left. *)
Lemma wp_collect {A} {t e mine my b it m L} P Q (k : option T → prog mem A) w :
  frame t P → matched t e mine my b it w → P w →
  (∀ w', exchanged t my (it, true) w' → P w' → wp t Q (Refill m L) (k it) w') →
  wp t Q (Refill (2 + m) L)
    (Act (cas_idx slots_f (Z.of_nat e) (Some b) None) (λ _,
       Act (load_at vals b sv_item) k)) w.
Proof.
  intros [HP1 HP2] Hm HP Hk. eapply wp_cas_idx; [reflexivity|]. intros w1 HR1 HI1.
  apply (matched_stable _ _ _ HR1) in Hm. pose proof Hm as (Ho & Hs & Hb).
  split; [by eapply lookup_lt_Some|]. split; [intros _|done].
  destruct (offering_slot _ _ _ _ _ HI1 Ho) as (b' & Hs' & Hor). simplify_eq.
  assert (settled t my it w1) as Hset.
  { destruct Hor as [[-> _]|(_ & it' & (_ & _ & Hb') & ?)].
    - destruct Ho as (_ & Hm' & _). unfold pair_at in *. congruence.
    - unfold pair_at in *. by simplify_eq. }
  destruct (leave_step t e mine my (Some b) w1 HI1 Ho Hs) as [Hgood Hw].
  eexists [], _. split; [exact Hgood|].
  assert (∀ w2, rely t (upd Sp w1 (f_set slots_f (<[e:=None]> (slots (w_mem w1))) (w_mem w1)) []
    (Aux (own (w_aux w1)) (adj (w_aux w1)) (delete t (wait (w_aux w1))))) w2 →
    exchanged t my (it, true) w2 ∧ P w2) as Hafter.
  { intros w2 HR2. split.
    - eapply exchanged_stable; [exact HR2|]. apply settled_exchanged; [exact Hset|apply Ho|exact Hw].
    - eapply HP1; [exact HR2|]. eapply (HP2 w1); [done..|]. by eapply HP1. }
  wp_go wp_load_at as w2 HR2 HI2. exists (SlotVal it exBusy). split.
  { exact (pair_stable _ _ _ HR2 b _ Hb). }
  destruct (Hafter w2 HR2). by apply Hk.
Qed.
(** The loop that waits for a partner, and the withdrawal after it. *)
Lemma wp_spin {t e mine my m L} (P : world → Prop) Q w :
  frame t P → offering t e mine my w → P w →
  (∀ met m' w', m ≤ m' → exchanged t my met w' → P w' → Q (Refill m' L) met w') →
  wp t Q (Refill (2 * Z.to_nat spinning + 5 + m) L)
    (await (Z.of_nat e) mine spinning) w.
Proof.
  intros Hframe Hoff HP HQ. pose proof Hframe as [HPs HPw].
  eapply (wp_loop Sp proto pg t _ (λ bu i w, ∃ m', bu = Refill m' L ∧
    2 * Z.to_nat (spinning - i) + 5 + m ≤ m' ∧ offering t e mine my w ∧ P w)).
  3:{ eexists. split; [reflexivity|]. rewrite Z.sub_0_r. by auto. }
  2:{ intros bu i w1 w2 (m' & ? & ? & ? & ?) HR. exists m'.
      split_and!; eauto with lockfree. }
  clear w Hoff HP. intros bu i w (m' & -> & Hm & Hoff & HP) HI.
  destruct m' as [|[|[|[|[|m']]]]]; try lia. eexists. split; [reflexivity|].
  case_bool_decide as Hi.
  - wp_go wp_load_idx as w1 HR1 HI1.
    assert (offering t e mine my w1) as Hoff1 by eauto with lockfree.
    destruct (offering_slot _ _ _ _ _ HI1 Hoff1) as (b & Hs & Hor).
    exists (Some b). split; [exact Hs|]. case_decide as Hb.
    + apply wp_ret. intros w2 HR2 HI2. eexists. split; [reflexivity|].
      split; [lia|]. split; eauto with lockfree.
    + destruct Hor as [[-> _]|(_ & it & Hmatch & _)]; [done|]. wp_pure.
      eapply wp_collect; [exact Hframe|exact Hmatch|by eauto|].
      intros w2 Hex HP2. apply wp_ret. intros w3 HR3 _. apply wp_ret. intros w4 HR4 _.
      apply HQ; [lia| |by eauto].
      by eapply exchanged_stable, exchanged_stable.
  - apply wp_ret. intros w0 HR0 _.
    wp_go wp_cas_idx as w1 HR1 HI1.
    assert (offering t e mine my w1) as Hoff1 by eauto with lockfree.
    assert (P w1) as HP1 by eauto.
    destruct (offering_slot _ _ _ _ _ HI1 Hoff1) as (b & Hs & Hor).
    split; [by eapply lookup_lt_Some|]. split; intros Hb.
    + destruct Hor as [[-> Hp]|(Hne & _)]; [|cbn in Hb; congruence].
      destruct (leave_step t e mine my (Some mine) w1 HI1 Hoff1 Hs) as [Hgood Hw].
      eexists [], _. split; [exact Hgood|].
      apply wp_ret. intros w2 HR2 _. apply HQ; [lia| |].
      * eapply elim_ready_stable; [exact HR2|]. split; [exact Hp|].
        split; [apply Hoff1|exact Hw].
      * eapply HPs; [exact HR2|]. by eapply (HPw w1).
    + destruct Hor as [[-> _]|(_ & it & Hmatch & _)]; [by destruct Hb|].
      wp_go wp_load_idx as w2 HR2 HI2.
      assert (matched t e mine my b it w2) as Hmatch2 by eauto with lockfree.
      exists (Some b). split; [apply Hmatch2|]. wp_pure.
      eapply wp_collect; [exact Hframe|exact Hmatch2|by eauto|].
      intros w3 Hex HP3. apply wp_ret. intros w4 HR4 _. apply HQ; [lia| |by eauto].
      by eapply exchanged_stable.
Qed.

(** What a loaded slot holds. *)
Lemma slot_pair w e c :
  Inv w → slots (w_mem w) !! e = Some (Some c) →
  ∃ v, pair_at c v w ∧ sv_state v ≠ exEmpty.
Proof.
  intros HI Hc. destruct (i_slot _ HI _ _ Hc) as [[v Hv] _]. exists v.
  split; [exact Hv|by eapply (i_vals _ HI)].
Qed.

(** The cases of [exchange]: in each [t] has [my] to offer in slot [e]. *)
Section cases.
Context {t e m L : nat} {my : option T} (P : world → Prop).
Context (Q : budget → option T * bool → world → Prop).
Context (He : e < width) (Hframe : frame t P).
Context (HQ : ∀ met m' w', m ≤ m' → exchanged t my met w' → P w' → Q (Refill m' L) met w').

Lemma wp_lost m' w :
  m ≤ m' → ready t (op_of my) w → P w → wp t Q (Refill m' L) (Ret (None, false)) w.
Proof using Hframe HQ.
  destruct Hframe as [HPs _]. intros Hm Hready HP. apply wp_ret. intros w1 HR1 _.
  apply HQ; [done| |by eauto]. unfold exchanged. simpl. eauto with lockfree.
Qed.

Lemma width_slot w : Inv w → is_Some (slots (w_mem w) !! e).
Proof using He. intros HI. apply lookup_lt_is_Some. by rewrite (i_width _ HI). Qed.

(** Allocating a pair. *)
Lemma wp_new_pair {m' v w} (k : loc → prog mem (option T * bool)) :
  ready t (op_of my) w → P w → sv_state v ≠ exEmpty →
  (∀ c w', ready t (op_of my) w' → P w' → pair_at c v w' →
     (∀ c' v', pair_at c' v' w → pair_at c' v' w') → wp t Q (Refill m' L) (k c) w') →
  wp t Q (Refill (S m') L) (Act (new vals_f v) k) w.
Proof using Hframe.
  destruct Hframe as [HPs HPw]. intros Hready HP Hv Hk. wp_go wp_new as w1 HR1 HI1.
  destruct (pair_new t (op_of my) v w1 HI1) as (Hgood & Hready1 & Hnew);
    [by eauto with lockfree|done|].
  eexists [], _. split; [exact Hgood|]. apply Hk; [exact Hready1| |exact Hnew|].
  - eapply (HPw w1); [done..|]. by eauto.
  - intros c' v' Hc'. eapply prefix_lookup_Some'; [apply prefix_snoc|].
    by apply (pair_stable _ _ _ HR1).
Qed.

(** The slot is empty: post a pair and wait. *)
Lemma wp_exchange_empty m' w :
  m ≤ m' → ready t (op_of my) w → P w →
  wp t Q (Refill (2 + (2 * Z.to_nat spinning + 5 + m')) L)
    (exchange_switch (Z.of_nat e) my spinning None exEmpty) w.
Proof using All.
  pose proof Hframe as [HPs HPw]. intros Hm Hready HP. unfold exchange_switch. wp_pure.
  apply wp_new_pair; [done..|]. intros mine w1 Hready1 HP1 Hmine _.
  wp_go wp_cas_idx as w2 HR2 HI2. destruct (width_slot _ HI2) as [c Hc].
  split; [by eapply lookup_lt_Some|]. split; intros Heq;
    [|apply wp_lost; [lia|by eauto with lockfree..]].
  edestruct (post_step t e my mine w2 HI2) as (Hgood & Hoff);
    [by eauto with lockfree..|exact Heq|].
  eexists [], _. split; [exact Hgood|]. cbn [negb].
  eapply wp_spin; [exact Hframe|exact Hoff| |].
  - eapply (HPw w2); [done..|]. by eauto.
  - intros met m'' w3 ?. apply HQ. lia.
Qed.

(** A goroutine waits there with the pair [c]: replace it. *)
Lemma wp_exchange_waiting m' c it w :
  m ≤ m' → ready t (op_of my) w → P w → pair_at c (SlotVal it exWaiting) w →
  wp t Q (Refill (3 + m') L)
    (exchange_switch (Z.of_nat e) my spinning (Some c) exWaiting) w.
Proof using All.
  pose proof Hframe as [HPs HPw]. intros Hm Hready HP Hpair.
  unfold exchange_switch. wp_pure.
  apply wp_new_pair; [done..|]. intros busy w1 Hready1 HP1 Hbusy Hkeep.
  apply Hkeep in Hpair.
  wp_go wp_cas_idx as w2 HR2 HI2. destruct (width_slot _ HI2) as [c' Hc'].
  split; [by eapply lookup_lt_Some|]. split; intros Heq;
    [|apply wp_lost; [lia|by eauto with lockfree..]].
  destruct (match_step t e my it c busy w2 HI2) as (us & Hgood & Hex);
    [by eauto with lockfree|exact Heq|by eauto with lockfree..|].
  eexists us, _. split; [exact Hgood|]. wp_pure.
  wp_go wp_load_at as w3 HR3 HI3. exists (SlotVal it exWaiting).
  split. { apply (pair_stable _ _ _ HR3), (pair_stable _ _ _ HR2), Hpair. }
  apply wp_ret. intros w4 HR4 _. apply HQ; [lia| |].
  - by eapply exchanged_stable, exchanged_stable.
  - eapply HPs, HPs; [exact HR4|exact HR3|].
    eapply (HPw w2); [done..|by eapply good_step_len|]. by eauto.
Qed.

Lemma wp_exchange w :
  ready t (op_of my) w → P w →
  wp t Q (Refill (exchange_steps + m) L) (exchange (Z.of_nat e) my spinning) w.
Proof using All.
  pose proof Hframe as [HPs HPw]. intros Hready HP.
  replace (exchange_steps + m) with (2 + (2 + (2 * Z.to_nat spinning + 5 + m)))
    by (unfold exchange_steps; lia).
  unfold exchange. wp_go wp_load_idx as w1 HR1 HI1.
  destruct (width_slot _ HI1) as [[c|] Hc]; eexists; (split; [exact Hc|]).
  - destruct (slot_pair _ _ _ HI1 Hc) as ([it st] & Hpair & Hst).
    wp_go wp_load_at as w2 HR2 HI2. exists (SlotVal it st).
    split; [exact (pair_stable _ _ _ HR2 _ _ Hpair)|]. cbn [sv_state] in *.
    destruct st; [done| |apply wp_lost; [lia|by eauto with lockfree..]].
    replace (2 + (2 * Z.to_nat spinning + 5 + m))
      with (3 + (2 * Z.to_nat spinning + 4 + m)) by lia.
    apply (wp_exchange_waiting _ c it); [lia|by eauto with lockfree..].
  - wp_pure. replace (S (2 + (2 * Z.to_nat spinning + 5 + m)))
      with (2 + (2 * Z.to_nat spinning + 5 + S m)) by lia.
    apply wp_exchange_empty; [lia|by eauto with lockfree..].
Qed.
End cases.
(** ** The methods *)

Lemma elim_return_world t r w :
  Inv w → adj (w_aux w) !! t = None → wait (w_aux w) !! t = None →
  good_step proto t w (World (w_mem w) (g_ret t r (w_gh w)) (w_aux w)).
Proof.
  intros HI Ha Hw. split.
  - split; simpl; try apply HI.
    + intros u. rewrite lookup_delete. case_decide; [by subst|]. apply HI.
    + intros u e mine Hu. destruct (i_wait _ HI _ _ _ Hu) as (my & ? & ?).
      exists my. split; [done|]. apply (offer_quiet u e mine my w); simpl; try done.
      assert (u ≠ t) by congruence. auto with lockfree.
  - intros u Hu. split; simpl; auto with lockfree.
Qed.

Lemma elim_return_finished t b r w : owing t None r w → wp t (post Sp proto t) b (Ret r) w.
Proof.
  intros Hdone. apply wp_ret. intros w' HR HI.
  eapply elim_owing_stable in Hdone as (Hf & Ha & Hw); [|exact HR].
  destruct (finished_ret_ok Sp _ _ _ Hf) as (p & Hp & Hret).
  exists p. split; [done|]. split; [done|]. exists (w_aux w').
  by apply elim_return_world.
Qed.

Lemma elim_Length_wp t n L w :
  0 < n → ready t StackLength w → wp t (post Sp proto t) (Refill n L) Length w.
Proof.
  destruct n as [|n]; [lia|]. intros _ Hready. wp_go wp_load as w1 HR1 HI1.
  apply wp_ret. intros w2 HR2 HI2.
  assert (ready t StackLength w2) as (Hp & Ha & Hw) by eauto with lockfree.
  destruct (pending_ret_ok_open Sp _ _ _ (RLen (length_ (w_mem w1))) Hp)
    as (p & Hp' & Hret); [done|].
  exists p. split; [done|]. split; [done|]. exists (w_aux w2). by apply elim_return_world.
Qed.

(** The length update after the operation took effect. *)
Lemma wp_elim_settle {A} t r z d m L Q (k : Z → prog mem A) w :
  owing t (Some z) r w → u64 d = u64 z →
  (∀ n w', owing t None r w' → (∀ l n, node l n w → node l n w') →
     wp t Q (Refill m L) (k n) w') →
  wp t Q (Refill (S m) L) (Act (add_u64 length_f d) k) w.
Proof.
  intros Howe Hd Hk. wp_go wp_add_u64 as w1 HR1 HI1.
  eapply elim_owing_stable in Howe; [|exact HR1].
  destruct (elim_settle t r z d w1 HI1 Howe Hd) as [Hgood Howe1].
  eexists [], _. split; [exact Hgood|]. apply Hk; [exact Howe1|].
  intros l n Hn. by apply (elim_node_stable _ _ _ HR1).
Qed.

(** The statistics of a completed elimination. *)
Lemma wp_eliminations {A} t r m L Q (k : Z → prog mem A) w :
  owing t None r w → (∀ n w', owing t None r w' → wp t Q (Refill m L) (k n) w') →
  wp t Q (Refill (S m) L) (Act (add_u64 eliminations_f 1) k) w.
Proof.
  intros Howe Hk. wp_go wp_add_u64 as w1 HR1 HI1.
  eapply elim_owing_stable in Howe; [|exact HR1].
  assert (g_thr (w_gh w1) !! t ≠ None) as Ht.
  { destruct Howe as [(? & ? & ? & ->) _]. done. }
  eexists [], _. split; [by apply elim_other_step|]. apply Hk. exact Howe.
Qed.

(** At the head of the loops there are [c] steps left. *)
Definition at_head (c : nat) (b : budget) w : Prop :=
  ∃ n L, b = Refill n L ∧ c ≤ n ∧ L ≤ w_len w.

Lemma elim_at_head_stable t c b w w' : rely t w w' → at_head c b w → at_head c b w'.
Proof.
  intros HR (n & L & ? & ? & ?). pose proof (elim_len_stable _ _ _ HR).
  exists n, L. split_and!; [done..|lia].
Qed.

(** A failed [CompareAndSwap] on the top pointer: offer [my] in some slot, with
    a new budget. *)
Lemma wp_contend {A} t my (p : option loc) L n P Q
    (k : option T * bool → prog mem A) w :
  0 < width → frame t P → seen p L w → top (w_mem w) ≠ p → ready t (op_of my) w → P w →
  (∀ met b w', at_head 7 b w' → exchanged t my met w' → P w' → wp t Q b (k met) w') →
  wp t Q (Refill n L)
    (let! slot := randomSlot in let! spins := act (load spins) in
     let! met := exchange slot my spins in k met) w.
Proof.
  intros Hwidth [HPs HPw] [_ Hgrow] Htop Hready HP Hk. apply Hgrow in Htop.
  eapply wp_refill; [done|]. intros w0 HR0 HI0.
  pose proof (elim_len_stable _ _ _ HR0). split; [lia|]. set (L0 := w_len w0).
  unfold randomSlot. rewrite !bind_bind.
  replace (Refill steps L0) with (Refill (3 + (exchange_steps + 8)) L0)
    by (unfold steps, exchange_steps; f_equal; lia).
  wp_go wp_load as w1 HR1 HI1. rewrite (i_width _ HI1).
  wp_go wp_step_to as w2 HR2 HI2. unfold randIntN. rewrite bool_decide_true by lia.
  rewrite <-Nat2Z.inj_mod. set (e := rng (w_mem w2) 0 mod width).
  assert (ready t (op_of my) w2) as Hready2 by eauto with lockfree.
  eexists (Z.of_nat e), _, [], _. split; [done|]. split.
  { apply elim_other_step; try done. by eapply pending_running, Hready2. }
  assert (L0 ≤ w_len w2).
  { pose proof (elim_len_stable _ _ _ HR1). pose proof (elim_len_stable _ _ _ HR2). lia. }
  wp_go wp_load as w3 HR3 HI3. rewrite (i_spins _ HI3). apply wp_bind.
  apply (wp_exchange (λ w, P w ∧ L0 ≤ w_len w)).
  - by apply Nat.mod_upper_bound, Nat.neq_0_lt_0.
  - split.
    + intros w4 w5 HR [? ?]. pose proof (elim_len_stable _ _ _ HR). split; [eauto|lia].
    + intros w4 w5 ? ? ? [? ?]. split; [by eapply HPw|lia].
  - intros met m' w4 Hm Hex [HP4 HL4]. apply Hk; [|done..].
    exists m', L0. split_and!; [done|lia|done].
  - eapply elim_ready_stable; [exact HR3|exact Hready2].
  - pose proof (elim_len_stable _ _ _ HR3) as Hle. split; [|unfold w_len in *; simpl in *; lia].
    eapply HPs; [exact HR3|]. eapply (HPw w2); [done..|]. by eauto.
Qed.

Lemma private_frame t l n : frame t (λ w, private t l n w).
Proof.
  split; [by eauto with lockfree|]. intros w w' Hh Ho _. unfold private. by rewrite Hh, Ho.
Qed.

Lemma true_frame t : frame t (λ _, True).
Proof. by split. Qed.

Lemma elim_Pop_wp t b w :
  0 < width → at_head 7 b w → ready t Adt.Pop w → wp t (post Sp proto t) b Pop w.
Proof.
  intros Hwidth Hb Hready. apply (wp_loop Sp proto pg t _
    (λ b _ w, at_head 7 b w ∧ ready t Adt.Pop w));
    [clear b w Hb Hready|intros ? _ w1 w2 [? ?] ?; split;
       [by eapply elim_at_head_stable|by eauto with lockfree]|done].
  intros b _ w [(n0 & L & -> & Hn0 & HL) Hready] _.
  destruct n0 as [|[|[|[|[|[|n0]]]]]]; try lia. eexists. split; [reflexivity|].
  wp_go wp_load_lin as w1 HR1 HI1. assert (ready t Adt.Pop w1) by eauto with lockfree.
  destruct (top (w_mem w1)) as [p|] eqn:Etop.
  - exists [], (w_aux w1). rewrite upd_id. split; [by apply good_step_refl|].
    destruct (elim_top_node _ _ HI1 Etop) as (n & Hn).
    assert (seen (Some p) L w1) as Hseen.
    { pose proof (elim_len_stable _ _ _ HR1). split; [lia|]. by rewrite Etop. }
    wp_go wp_load_at as w2 HR2 HI2. exists n. split; [by eapply elim_node_stable|].
    wp_go wp_cas as w3 HR3 HI3; intros Etop3; simpl in Etop3.
    + destruct (elim_pop_cas t p n w3) as [Hgood Howe]; [by eauto with lockfree..|].
      eexists _, _. split; [exact Hgood|]. wp_pure.
      eapply wp_elim_settle; [exact Howe|done|]. intros _ w4 Howe4 Hnode.
      wp_go wp_load_at as w5 HR5 HI5. exists n. split.
      { apply (elim_node_stable _ _ _ HR5), Hnode.
        by apply (elim_node_stable _ _ _ HR3), (elim_node_stable _ _ _ HR2). }
      wp_pure. apply wp_ret. intros w6 HR6 _. apply elim_return_finished.
      eauto with lockfree.
    + eapply (wp_contend t None (Some p) L _ (λ _, True));
        [done|apply true_frame|by eauto with lockfree|done|by eauto with lockfree|done|].
      intros [[x|] [|]] b w4 Hb Hex _; cbn in Hex.
      * destruct Hb as (n' & L' & -> & Hn' & _). destruct n' as [|n']; [lia|].
        eapply wp_eliminations; [exact Hex|]. intros _ w5 Howe.
        apply wp_ret. intros w6 HR6 _. apply elim_return_finished. eauto with lockfree.
      * apply wp_ret. intros w5 HR5 _. split; [by eapply elim_at_head_stable|].
        eauto with lockfree.
      * apply wp_ret. intros w5 HR5 _. split; [by eapply elim_at_head_stable|].
        eauto with lockfree.
      * apply wp_ret. intros w5 HR5 _. split; [by eapply elim_at_head_stable|].
        eauto with lockfree.
  - destruct (elim_pop_empty t w1) as [Hgood Howe]; [done..|].
    eexists _, _. split; [exact Hgood|]. apply wp_ret. intros w2 HR2 _.
    apply elim_return_finished. eauto with lockfree.
Qed.

Lemma elim_Push_wp t v w :
  0 < width → ready t (Adt.Push v) w →
  wp t (post Sp proto t) (Refill steps (w_len w)) (Push v) w.
Proof.
  intros Hwidth Hready.
  replace (Refill steps (w_len w)) with (Refill (8 + (2 * Z.to_nat spinning + 12)) (w_len w))
    by (unfold steps; f_equal; lia).
  wp_go wp_new as w1 HR1 HI1.
  edestruct (elim_push_new t (Adt.Push v) (DirectItem None v) w1)
    as (Hgood & Hready1 & Hpriv); [done|by eauto with lockfree|].
  eexists _, _. split; [exact Hgood|]. simpl in Hpriv |- *.
  set (item := length (heap (w_mem w1))) in *. clearbody item.
  apply (wp_loop Sp proto pg t _ (λ b _ w, at_head 7 b w ∧
    ready t (Adt.Push v) w ∧ ∃ p, private t item (DirectItem p v) w));
    [|intros ? _ w2 w3 (? & ? & p & ?) ?; split_and!;
       [by eapply elim_at_head_stable|by eauto with lockfree|exists p; by eauto with lockfree]|].
  2:{ split_and!; [|done|by eauto]. eexists _, _. split; [reflexivity|].
      split; [lia|]. etrans; [exact (elim_len_stable _ _ _ HR1)|].
      exact (good_step_len _ _ _ Hgood). }
  clear -Hwidth. intros b _ w ((n0 & L & -> & Hn0 & HL) & Hready & p & Hpriv) _.
  destruct n0 as [|[|[|[|[|[|n0]]]]]]; try lia. eexists. split; [reflexivity|].
  wp_go wp_load as w1 HR1 HI1.
  assert (seen (top (w_mem w1)) L w1) as Hseen.
  { pose proof (elim_len_stable _ _ _ HR1). split; [lia|done]. }
  wp_go wp_store_at as w2 HR2 HI2.
  edestruct (elim_push_store t (Adt.Push v) item (DirectItem p v) (top (w_mem w1)) w2)
    as (Hgood2 & Hready2 & Hpriv2); [done|by eauto with lockfree..|].
  eexists _, _, _. split; [|split; [exact Hgood2|]].
  { apply (elim_private_stable _ _ _ HR2), (elim_private_stable _ _ _ HR1), Hpriv. }
  eapply elim_seen_stable in Hseen; [|exact HR2].
  wp_go wp_cas as w3 HR3 HI3; intros Etop; simpl in Etop.
  - edestruct (elim_push_cas t item v w3) as [Hgood3 Howe3];
      [done|by eauto with lockfree| |].
    { rewrite Etop. by eapply elim_private_stable. }
    eexists _, _. split; [exact Hgood3|]. wp_pure.
    eapply wp_elim_settle; [exact Howe3|done|]. intros _ w4 Howe4 _.
    apply wp_ret. intros w5 HR5 _. apply elim_return_finished. eauto with lockfree.
  - set (n' := f_set next_f (top (w_mem w1)) (DirectItem p v)) in *.
    eapply (wp_contend t (Some v) (top (w_mem w1)) L _ (private t item n'));
      [done|by apply private_frame|by eapply elim_seen_stable|done|
       by eauto with lockfree|by eapply elim_private_stable|].
    assert (∀ b w, at_head 7 b w → ready t (Adt.Push v) w → private t item n' w →
      wp t (λ b x w, match x with
        | inl _ => at_head 7 b w ∧ ready t (Adt.Push v) w ∧
            ∃ p, private t item (DirectItem p v) w
        | inr r => wp t (post Sp proto t) b (Ret r) w end) b (continue tt) w) as Hagain.
    { intros b w4 Hb Hready4 Hpriv4. apply wp_ret. intros w5 HR5 _.
      split; [by eapply elim_at_head_stable|]. split; [by eauto with lockfree|].
      exists (top (w_mem w1)). by eapply elim_private_stable. }
    intros [[x|] [|]] b w4 Hb Hex Hpriv4; cbn in Hex; try by apply Hagain.
    destruct Hb as (m & L' & -> & Hm & _). destruct m as [|m]; [lia|].
    eapply wp_eliminations; [exact Hex|]. intros _ w5 Howe.
    apply wp_ret. intros w6 HR6 _. apply elim_return_finished. eauto with lockfree.
Qed.

Lemma elimination_verified rng m :
  newEliminationStack rng (Z.of_nat width) spinning = Some m → 0 < width →
  verified Sp proto pg (elimination_object m).
Proof.
  unfold newEliminationStack. rewrite bool_decide_false by lia. intros [= <-] Hwidth.
  rewrite Nat2Z.id. split.
  - exists (Aux ∅ ∅ ∅). split; simpl; try done.
    + apply length_replicate.
    + by intros e c [? _]%lookup_replicate.
  - intros t id o w HI Hnone _ _. exists (w_aux w).
    assert (good_step proto t w (World (w_mem w) (g_call t id o (w_gh w)) (w_aux w)))
      as [HI' HR'].
    { destruct (i_idle _ HI _ Hnone) as [_ Hwait]. split.
      - split; simpl; try apply HI.
        + intros u [? ?]%lookup_insert_None. by apply HI.
        + intros u e mine Hu. destruct (i_wait _ HI _ _ _ Hu) as (my & ? & ?).
          exists my. split; [done|]. apply (offer_quiet u e mine my w); simpl; try done.
          assert (u ≠ t) by congruence. auto with lockfree.
      - intros u Hu. split; simpl; auto with lockfree. }
    split; [exact HI'|]. split; [exact HR'|].
    assert (ready t o (World (w_mem w) (g_call t id o (w_gh w)) (w_aux w))) as H.
    { split; [apply pending_call|by apply HI]. }
    destruct o as [v| |]; [exact (elim_Push_wp t v _ Hwidth H)| |
      by apply elim_Length_wp; [unfold steps; lia|]].
    apply elim_Pop_wp; [done| |done]. eexists _, _. split; [reflexivity|].
    split; [unfold steps; lia|done].
Qed.
End elimination.

(** ** Properties *)

Section properties.
Context {T : Type} (zero : T) (rng : nat → nat) (slots : nat) (spins : Z) (m : mem (T:=T)).
Context (Hnew : newEliminationStack (T:=T) rng (Z.of_nat slots) spins = Some m).
Context (Hslots : 0 < slots).

(** C9. The elimination stack is linearizable to a sequential LIFO stack, for
    all random numbers, numbers of slots and spins: a push and a pop that
    exchange their value in the array without touching the stack take effect one
    after the other, push first. *)
Theorem elimination_linearizable cs s :
  reaches (elimination_object zero m) cs s →
  linearizable (stack_spec zero) (sy_hist s).
Proof using All.
  apply (verified_linearizable (stack_spec zero) (proto zero spins slots) _ (LockFree (steps spins))).
  by eapply elimination_verified.
Qed.

(** C10. Lock-freedom: the steps of an operation are bounded by the number of
    operations that overlap it; elimination spins a bounded number of times. *)
Theorem elimination_lock_free cs s t r :
  reaches (elimination_object zero m) cs s → sy_thr s !! t = Some r →
  r_steps r ≤ steps spins * (1 + overlap (sy_hist s) (r_id r)).
Proof using All.
  apply (verified_lockfree (stack_spec zero) (proto zero spins slots) _
    (LockFree (steps spins))); [by eapply elimination_verified|done].
Qed.

(** No schedule makes an operation dereference nil, use a slot out of range,
    or draw a random number below zero. *)
Theorem elimination_no_panic cs :
  exec (elimination_object zero m) cs (start (elimination_object zero m)) ≠ Crash.
Proof using All.
  apply (verified_no_crash (stack_spec zero) (proto zero spins slots) _ (LockFree (steps spins))).
  by eapply elimination_verified.
Qed.
End properties.

(** One slot.  A push and a pop load the top, a second push changes it; the pop
    and the first push fail their [CompareAndSwap] and meet in the slot. *)
Definition demo_mem : mem (T:=nat) := Mem [] None 0 [] [None] 3 0 (λ _, 0).

Definition demo_schedule : list (cmd (stack_op nat)) :=
  Call 0 (Adt.Push 7) :: replicate 7 (Step 0) ++
  Call 1 (Adt.Push 8) :: replicate 4 (Step 1) ++
  Call 2 Adt.Pop :: replicate 3 (Step 2) ++
  Call 0 (Adt.Push 9) :: replicate 7 (Step 0) ++
  replicate 9 (Step 1) ++ replicate 11 (Step 2) ++ replicate 6 (Step 1).

Lemma elimination_linearizable_witness : ∃ s,
  reaches (elimination_object 0 demo_mem) demo_schedule s ∧
  sy_hist s = [EInv 0 0 (Adt.Push 7); ERes 0 0 RDone; EInv 1 2 (Adt.Push 8);
               EInv 2 3 Adt.Pop; EInv 0 4 (Adt.Push 9); ERes 0 4 RDone;
               ERes 2 3 (RVal 8 true); ERes 1 2 RDone] ∧
  linearizable (stack_spec 0) (sy_hist s).
Proof.
  destruct (run_history_reaches (elimination_object 0 demo_mem) demo_schedule _
    ltac:(vm_compute; reflexivity)) as (s & Hs & Hh).
  exists s. split; [exact Hs|]. split; [exact Hh|].
  exact (elimination_linearizable 0 (λ _, 0) 1 3 demo_mem eq_refl
    ltac:(apply Nat.lt_0_1) demo_schedule s Hs).
Defined.

Lemma elimination_lock_free_witness : ∃ s r,
  reaches (elimination_object 0 demo_mem) (removelast demo_schedule) s ∧
  sy_thr s !! 1 = Some r ∧ r_steps r = 18 ∧
  r_steps r ≤ steps 3 * (1 + overlap (sy_hist s) (r_id r)).
Proof.
  destruct (run_steps_reaches (elimination_object 0 demo_mem) (removelast demo_schedule) 1 18
    ltac:(vm_compute; reflexivity)) as (s & r & Hs & Hr & Hn).
  exists s, r. split; [exact Hs|]. split; [exact Hr|]. split; [exact Hn|].
  exact (elimination_lock_free 0 (λ _, 0) 1 3 demo_mem eq_refl
    ltac:(apply Nat.lt_0_1) (removelast demo_schedule) s 1 r Hs Hr).
Defined.

Lemma elimination_no_panic_witness :
  exec (elimination_object 0 demo_mem) demo_schedule
    (start (elimination_object 0 demo_mem)) ≠ Crash.
Proof.
  exact (elimination_no_panic 0 (λ _, 0) 1 3 demo_mem eq_refl
    ltac:(apply Nat.lt_0_1) demo_schedule).
Defined.
End EliminationStack.
