(* ===== verification/Order.v ===== *)
(** [Less[T]] of [common.go]: the order a caller passes to the ordered
    structures, and sorted association lists as their reference. *)

From S2P Require Export Prelude.
From stdpp Require Import sorting.

Definition Less (K : Type) : Type := K → K → bool.

(** What the structures rely on: [less] is a strict weak order. *)
Class WeakOrder {K} (less : Less K) : Prop := {
  less_irrefl a : less a a = false;
  less_trans a b c : less a b = true → less b c = true → less a c = true;
  less_split a b c : less a c = true → less a b = true ∨ less b c = true
}.

Section order.
Context {K : Type} (less : Less K) `{!WeakOrder less}.

(** Neither key is smaller: they are the same key. *)
Definition same_key (a b : K) : bool := negb (less a b) && negb (less b a).

Lemma less_asym a b : less a b = true → less b a = false.
Proof.
  intros Hab. destruct (less b a) eqn:Hba; [|done].
  rewrite <-(less_irrefl a). symmetry. by eapply less_trans.
Qed.

Lemma less_not_same a b : less a b = true → same_key a b = false ∧ same_key b a = false.
Proof. intros H. unfold same_key. by rewrite H, (less_asym _ _ H). Qed.

Lemma same_key_spec a b : same_key a b = true ↔ less a b = false ∧ less b a = false.
Proof. unfold same_key. rewrite andb_true_iff, !negb_true_iff. done. Qed.

Lemma less_same_r a b c : less a b = true → same_key b c = true → less a c = true.
Proof.
  intros Hab [Hbc Hcb]%same_key_spec. destruct (less_split a c b Hab) as [?|?]; congruence.
Qed.

Lemma less_same_l a b c : less b c = true → same_key a b = true → less a c = true.
Proof.
  intros Hbc [Hab Hba]%same_key_spec. destruct (less_split b a c Hbc) as [?|?]; congruence.
Qed.

Lemma same_key_refl a : same_key a a = true.
Proof. apply same_key_spec. by rewrite less_irrefl. Qed.

Lemma same_key_sym a b : same_key a b = same_key b a.
Proof. unfold same_key. apply andb_comm. Qed.

Lemma same_key_trans a b c :
  same_key a b = true → same_key b c = true → same_key a c = true.
Proof.
  rewrite !same_key_spec. intros [Hab Hba] [Hbc Hcb]. split.
  - destruct (less a c) eqn:E; [|done]. destruct (less_split a b c E); congruence.
  - destruct (less c a) eqn:E; [|done]. destruct (less_split c b a E); congruence.
Qed.

(** ** Sorted association lists *)

Section assoc.
Context {V : Type}.
Implicit Types (l : list (K * V)) (x y : K * V).

Definition before x y : Prop := less x.1 y.1 = true.
Definition sorted l : Prop := StronglySorted before l.

(** [sorted] as a test. *)
Fixpoint sortedb l : bool :=
  match l with
  | [] => true
  | x :: l' => forallb (λ y, less x.1 y.1) l' && sortedb l'
  end.

Lemma sortedb_sorted l : sortedb l = true → sorted l.
Proof.
  induction l as [|x l IH]; simpl; [constructor|]. intros [Hx Hl]%andb_true_iff.
  constructor; [by apply IH|]. apply Forall_forall. intros y Hy.
  by apply (proj1 (forallb_forall _ _) Hx), list_elem_of_In.
Qed.

(** The reference insertion keeps the key that was there. *)
Fixpoint ins (k : K) (v : V) l : list (K * V) :=
  match l with
  | [] => [(k, v)]
  | (k', v') :: l' =>
      if less k k' then (k, v) :: l
      else if less k' k then (k', v') :: ins k v l'
      else (k', v) :: l'
  end.

Fixpoint find (k : K) l : option V :=
  match l with
  | [] => None
  | (k', v') :: l' => if same_key k k' then Some v' else find k l'
  end.

Fixpoint del (k : K) l : list (K * V) :=
  match l with
  | [] => []
  | (k', v') :: l' => if same_key k k' then l' else (k', v') :: del k l'
  end.

Lemma sorted_app l1 x l2 :
  sorted (l1 ++ x :: l2) ↔
    sorted l1 ∧ sorted l2 ∧ Forall (λ y, before y x) l1 ∧ Forall (before x) l2.
Proof.
  unfold sorted. rewrite !Forall_forall. split.
  - intros Hs. apply StronglySorted_app in Hs as (Hlt & H1 & H2).
    apply StronglySorted_inv in H2 as [H2 Hx]. rewrite Forall_forall in Hx.
    split_and!; try done. intros y Hy. apply Hlt; [done|left].
  - intros (H1 & H2 & Hlx & Hxl). apply StronglySorted_app_2; [|done|].
    + intros y z Hy [->|Hz]%elem_of_cons; [by apply Hlx|].
      eapply less_trans; [by apply Hlx|by apply Hxl].
    + constructor; [done|]. by apply Forall_forall.
Qed.

(** Where a key belongs in a list split around a pair. *)
Lemma ins_l k v k' v' l1 l2 :
  less k k' = true →
  ins k v (l1 ++ (k', v') :: l2) = ins k v l1 ++ (k', v') :: l2.
Proof.
  intros Hlt. induction l1 as [|[y w] l1 IH]; simpl; [by rewrite Hlt|].
  destruct (less k y); [done|]. destruct (less y k); [by rewrite IH|done].
Qed.

Lemma ins_r k v k' v' l1 l2 :
  Forall (λ y, less y.1 k = true) l1 → less k' k = true →
  ins k v (l1 ++ (k', v') :: l2) = l1 ++ (k', v') :: ins k v l2.
Proof.
  intros Hl Hlt. induction Hl as [|[y w] l1 Hy _ IH]; simpl in *.
  - by rewrite (less_asym _ _ Hlt), Hlt.
  - by rewrite (less_asym _ _ Hy), Hy, IH.
Qed.

Lemma ins_eq k v k' v' l1 l2 :
  Forall (λ y, less y.1 k = true) l1 → same_key k k' = true →
  ins k v (l1 ++ (k', v') :: l2) = l1 ++ (k', v) :: l2.
Proof.
  intros Hl [Hkk' Hk'k]%same_key_spec. induction Hl as [|[y w] l1 Hy _ IH]; simpl in *.
  - by rewrite Hkk', Hk'k.
  - by rewrite (less_asym _ _ Hy), Hy, IH.
Qed.

Definition absent (k : K) l : Prop := Forall (λ y, same_key k y.1 = false) l.

Lemma absent_gt k l : Forall (λ y, less y.1 k = true) l → absent k l.
Proof.
  intros H. eapply Forall_impl; [exact H|]. intros y Hy. apply (less_not_same _ _ Hy).
Qed.

Lemma absent_lt k l : Forall (λ y, less k y.1 = true) l → absent k l.
Proof.
  intros H. eapply Forall_impl; [exact H|]. intros y Hy. apply (less_not_same _ _ Hy).
Qed.

Lemma find_absent k l1 l2 : absent k l1 → find k (l1 ++ l2) = find k l2.
Proof. induction 1 as [|[y w] l1 Hy _ IH]; simpl in *; [done|]. by rewrite Hy. Qed.

Lemma find_app k l1 l2 :
  find k (l1 ++ l2) = match find k l1 with Some v => Some v | None => find k l2 end.
Proof.
  induction l1 as [|[y w] l1 IH]; simpl; [done|]. by destruct (same_key k y).
Qed.

Lemma find_None k l : absent k l → find k l = None.
Proof. intros H. by rewrite <-(app_nil_r l), find_absent. Qed.

Lemma del_absent k l1 l2 : absent k l1 → del k (l1 ++ l2) = l1 ++ del k l2.
Proof. induction 1 as [|[y w] l1 Hy _ IH]; simpl in *; [done|]. by rewrite Hy, IH. Qed.

Lemma del_absent_all k l : absent k l → del k l = l.
Proof. intros H. rewrite <-(app_nil_r l) at 1. by rewrite del_absent, app_nil_r. Qed.

Lemma del_app_r k l1 l2 : absent k l2 → del k (l1 ++ l2) = del k l1 ++ l2.
Proof.
  intros H. induction l1 as [|[y w] l1 IH]; simpl; [by apply del_absent_all|].
  destruct (same_key k y); [done|]. by rewrite IH.
Qed.

(** Deleting keeps a list sorted. *)
Lemma del_elem k l y : y ∈ del k l → y ∈ l.
Proof.
  induction l as [|[z w] l IH]; simpl; [done|]. rewrite elem_of_cons.
  case_match; [auto|]. rewrite elem_of_cons. naive_solver.
Qed.

Lemma ins_elem k v l y : y ∈ ins k v l → y ∈ l ∨ same_key k y.1 = true.
Proof.
  induction l as [|[z w] l IH]; simpl.
  - intros ->%list_elem_of_singleton. right. apply same_key_spec. simpl. by rewrite less_irrefl.
  - case_match eqn:E1; [|case_match eqn:E2]; rewrite !elem_of_cons.
    + intros [->|?]; [|auto]. right. apply same_key_spec. simpl. by rewrite less_irrefl.
    + naive_solver.
    + intros [->|?]; [|auto]. right. by apply same_key_spec.
Qed.

Lemma sorted_cons x l : sorted (x :: l) ↔ sorted l ∧ Forall (before x) l.
Proof.
  split; [apply StronglySorted_inv|]. intros [? ?]. by constructor.
Qed.

Lemma ins_sorted k v l : sorted l → sorted (ins k v l).
Proof.
  induction l as [|[y w] l IH]; simpl; [intros _; repeat constructor|].
  rewrite !sorted_cons, !Forall_forall. intros [Hl Hy].
  destruct (less k y) eqn:E1; [|destruct (less y k) eqn:E2]; rewrite !sorted_cons,
    !Forall_forall.
  - split; [done|]. intros z [->|Hz]%elem_of_cons; [done|].
    eapply less_trans; [exact E1|by apply Hy].
  - split; [by apply IH|]. intros z [Hz|Hz]%ins_elem; [by apply Hy|].
    by eapply less_same_r.
  - by split.
Qed.

Lemma del_sorted k l : sorted l → sorted (del k l).
Proof.
  induction l as [|[y w] l IH]; simpl; [done|].
  rewrite !sorted_cons, !Forall_forall. intros [Hl Hy]. case_match; [done|].
  rewrite sorted_cons, Forall_forall. split; [by apply IH|].
  intros z Hz%del_elem. by apply Hy.
Qed.

(** Lookups after an update. *)
Lemma find_ins k k' v l :
  sorted l → find k' (ins k v l) = if same_key k' k then Some v else find k' l.
Proof.
  induction l as [|[y w] l IH]; [done|]. rewrite sorted_cons. intros [Hl Hy]. simpl.
  destruct (less k y) eqn:E1; [done|]. destruct (less y k) eqn:E2; simpl.
  - rewrite IH by done. destruct (same_key k' y) eqn:E3; [|done].
    destruct (less_not_same k' k) as [-> _]; [|done]. by eapply less_same_l.
  - assert (same_key k y = true) as Hky by by apply same_key_spec.
    destruct (same_key k' k) eqn:E3.
    + by rewrite (same_key_trans k' k y).
    + destruct (same_key k' y) eqn:E4; [|done].
      enough (same_key k' k = true) by congruence.
      eapply same_key_trans; [exact E4|by rewrite same_key_sym].
Qed.

Lemma find_del k k' l :
  sorted l → find k' (del k l) = if same_key k' k then None else find k' l.
Proof.
  induction l as [|[y w] l IH]; [by destruct (same_key k' k)|].
  rewrite sorted_cons. intros [Hl Hy]. simpl.
  destruct (same_key k y) eqn:E1; simpl.
  - destruct (same_key k' k) eqn:E2.
    + apply find_None, absent_lt. eapply Forall_impl; [exact Hy|]. intros z Hz.
      eapply less_same_l; [exact Hz|]. by eapply same_key_trans.
    + destruct (same_key k' y) eqn:E3; [|done].
      enough (same_key k' k = true) by congruence.
      eapply same_key_trans; [exact E3|by rewrite same_key_sym].
  - rewrite IH by done. destruct (same_key k' y) eqn:E3; [|done].
    destruct (same_key k' k) eqn:E2; [|done].
    enough (same_key k y = true) by congruence.
    eapply same_key_trans; [|exact E3]. by rewrite same_key_sym.
Qed.
End assoc.
End order.

(** Integers in their usual order. *)
#[export] Instance Z_ltb_order : WeakOrder Z.ltb.
Proof. split; intros *; rewrite ?Z.ltb_lt, ?Z.ltb_irrefl; [done|lia..]. Qed.
