(* ===== verification/Avl.v ===== *)
(** The persistent AVL trees of [wf/deque.go] and [wf/map.go].

    Both files contain the same tree code, over a value in one and over a key
    and a value in the other; [tree A] is that code over a payload [A].  A nil
    pointer is [Leaf]; an operation is [None] where the Go code would
    dereference a nil pointer.  [elems] is the in-order traversal, [avl] the
    balance invariant, and [rebalance_mk] the lemma behind every update. *)

From S2P Require Export Prelude.
Open Scope Z_scope.

Inductive tree (A : Type) :=
  | Leaf
  | Node (val : A) (left right : tree A) (hgt : Z).
Arguments Leaf {_}.
Arguments Node {_}.

Section avl.
Context {A : Type}.
Implicit Types (n t l r : tree A) (v x : A).

Definition height n : Z :=
  match n with Leaf => 0 | Node _ _ _ h => h end.

Definition mk v l r : tree A :=
  let h := height l in
  let h := if bool_decide (height r > h) then height r else h in
  Node v l r (h + 1).

Definition rotateRight n : option (tree A) :=
  match n with
  | Node v (Node lv ll lr _) r _ => Some (mk lv ll (mk v lr r))
  | _ => None
  end.

Definition rotateLeft n : option (tree A) :=
  match n with
  | Node v l (Node rv rl rr _) _ => Some (mk rv (mk v l rl) rr)
  | _ => None
  end.

Definition rebalance n : option (tree A) :=
  match n with
  | Leaf => None
  | Node v l r _ =>
      let bf := height l - height r in
      if bool_decide (bf > 1) then
        match l with
        | Leaf => None
        | Node _ ll lr _ =>
            if bool_decide (height ll >= height lr) then rotateRight n
            else l' ← rotateLeft l; rotateRight (mk v l' r)
        end
      else if bool_decide (bf < -1) then
        match r with
        | Leaf => None
        | Node _ rl rr _ =>
            if bool_decide (height rr >= height rl) then rotateLeft n
            else r' ← rotateRight r; rotateLeft (mk v l r')
        end
      else Some n
  end.

Global Instance leaf_dec n : Decision (n = Leaf).
Proof. by destruct n; [left|right]. Defined.

(** ** What the trees mean, and the balance invariant *)

Fixpoint elems n : list A :=
  match n with Leaf => [] | Node v l r _ => elems l ++ v :: elems r end.

(** The stored heights are right and siblings differ by at most one. *)
Fixpoint avl n : Prop :=
  match n with
  | Leaf => True
  | Node v l r h =>
      avl l ∧ avl r ∧ h = 1 + height l `max` height r ∧
      -1 <= height l - height r <= 1
  end.

(** The invariant as a test. *)
Fixpoint avlb n : bool :=
  match n with
  | Leaf => true
  | Node v l r h =>
      avlb l && avlb r && bool_decide (h = 1 + height l `max` height r) &&
      bool_decide (-1 <= height l - height r <= 1)
  end.

Lemma avlb_avl n : avlb n = true → avl n.
Proof.
  induction n as [|v l IHl r IHr h]; simpl; [done|].
  rewrite !andb_true_iff, !bool_decide_eq_true. naive_solver.
Qed.

Lemma height_mk v l r : height (mk v l r) = 1 + height l `max` height r.
Proof. unfold mk. simpl. case_bool_decide; lia. Qed.

Lemma elems_mk v l r : elems (mk v l r) = elems l ++ v :: elems r.
Proof. done. Qed.

Lemma avl_mk v l r :
  avl l → avl r → -1 <= height l - height r <= 1 → avl (mk v l r).
Proof.
  intros Hl Hr Hb. split_and!; try done; [|lia..]. case_bool_decide; lia.
Qed.

Lemma avl_height n : avl n → 0 <= height n.
Proof. induction n as [|v l IHl r IHr h]; simpl; [lia|]. intros (? & ? & -> & _). naive_solver lia. Qed.

Lemma avl_node_height v l r h : avl (Node v l r h) → h = 1 + height l `max` height r.
Proof. by intros (_ & _ & ? & _). Qed.

(** [rebalance] of a node whose subtrees differ by at most two: it succeeds,
    keeps the sequence, restores the balance, and changes the height by at most
    one, and only when there was something to repair. *)
Definition rebalanced (es : list A) (hl hr : Z) (o : option (tree A)) : Prop :=
  ∃ t, o = Some t ∧ avl t ∧ elems t = es ∧
    hl `max` hr <= height t <= 1 + hl `max` hr ∧
    (-1 <= hl - hr <= 1 → height t = 1 + hl `max` hr).

(** What the four rotations of [rebalance] build. *)
Lemma rotate_ll v lv ll lr h r :
  rotateRight (mk v (Node lv ll lr h) r) = Some (mk lv ll (mk v lr r)).
Proof. done. Qed.

Lemma rotate_rr v l rv rl rr h :
  rotateLeft (mk v l (Node rv rl rr h)) = Some (mk rv (mk v l rl) rr).
Proof. done. Qed.

Lemma rotate_lr v lv ll mv ml mr h' h r :
  (l' ← rotateLeft (Node lv ll (Node mv ml mr h') h); rotateRight (mk v l' r)) =
  Some (mk mv (mk lv ll ml) (mk v mr r)).
Proof. done. Qed.

Lemma rotate_rl v l rv mv ml mr h' h rr :
  (r' ← rotateRight (Node rv (Node mv ml mr h') rr h); rotateLeft (mk v l r')) =
  Some (mk mv (mk v l ml) (mk rv mr rr)).
Proof. done. Qed.

Lemma rebalance_eq v l r :
  rebalance (mk v l r) =
    if bool_decide (height l - height r > 1) then
      match l with
      | Leaf => None
      | Node _ ll lr _ =>
          if bool_decide (height ll >= height lr) then rotateRight (mk v l r)
          else l' ← rotateLeft l; rotateRight (mk v l' r)
      end
    else if bool_decide (height l - height r < -1) then
      match r with
      | Leaf => None
      | Node _ rl rr _ =>
          if bool_decide (height rr >= height rl) then rotateLeft (mk v l r)
          else r' ← rotateRight r; rotateLeft (mk v l r')
      end
    else Some (mk v l r).
Proof. done. Qed.

Lemma avl_nonleaf n : avl n → 0 < height n → ∃ v l r h, n = Node v l r h.
Proof. destruct n; simpl; [lia|eauto]. Qed.

(** Closes a goal on heights and balance of a rebuilt node. *)
Ltac avl_solve :=
  repeat match goal with
  | |- avl (mk _ _ _) => apply avl_mk
  | |- context [height (mk _ _ _)] => rewrite height_mk
  end; (done || lia).

Lemma rebalance_left v l r :
  avl l → avl r → height l - height r = 2 →
  rebalanced (elems l ++ v :: elems r) (height l) (height r) (rebalance (mk v l r)).
Proof.
  intros Hl Hr Hd. pose proof (avl_height r Hr).
  destruct (avl_nonleaf l Hl ltac:(lia)) as (lv & ll & lr & h & ->).
  pose proof (avl_node_height _ _ _ _ Hl) as Hh. destruct Hl as (Hll & Hlr & _ & Hb).
  pose proof (avl_height ll Hll). pose proof (avl_height lr Hlr).
  rewrite rebalance_eq. change (height (Node lv ll lr h)) with h in *.
  rewrite bool_decide_true by lia.
  case_bool_decide as Hc.
  - rewrite rotate_ll. eexists. split; [done|]. rewrite !elems_mk. cbn [elems].
    split; [avl_solve|]. split; [by simplify_list_eq|]. split_and!; avl_solve.
  - destruct (avl_nonleaf lr Hlr ltac:(lia)) as (mv & ml & mr & h' & ->).
    pose proof (avl_node_height _ _ _ _ Hlr). destruct Hlr as (? & ? & _ & ?).
    change (height (Node mv ml mr h')) with h' in *.
    rewrite rotate_lr. eexists. split; [done|]. rewrite !elems_mk. cbn [elems].
    split; [avl_solve|].
    split; [by simplify_list_eq|]. split_and!; avl_solve.
Qed.

Lemma rebalance_right v l r :
  avl l → avl r → height l - height r = -2 →
  rebalanced (elems l ++ v :: elems r) (height l) (height r) (rebalance (mk v l r)).
Proof.
  intros Hl Hr Hd. pose proof (avl_height l Hl).
  destruct (avl_nonleaf r Hr ltac:(lia)) as (rv & rl & rr & h & ->).
  pose proof (avl_node_height _ _ _ _ Hr) as Hh. destruct Hr as (Hrl & Hrr & _ & Hb).
  pose proof (avl_height rl Hrl). pose proof (avl_height rr Hrr).
  rewrite rebalance_eq. change (height (Node rv rl rr h)) with h in *.
  rewrite bool_decide_false, bool_decide_true by lia.
  case_bool_decide as Hc.
  - rewrite rotate_rr. eexists. split; [done|]. rewrite !elems_mk. cbn [elems].
    split; [avl_solve|]. split; [by simplify_list_eq|]. split_and!; avl_solve.
  - destruct (avl_nonleaf rl Hrl ltac:(lia)) as (mv & ml & mr & h' & ->).
    pose proof (avl_node_height _ _ _ _ Hrl). destruct Hrl as (? & ? & _ & ?).
    change (height (Node mv ml mr h')) with h' in *.
    rewrite rotate_rl. eexists. split; [done|]. rewrite !elems_mk. cbn [elems].
    split; [avl_solve|].
    split; [by simplify_list_eq|]. split_and!; avl_solve.
Qed.

Lemma rebalance_mk v l r :
  avl l → avl r → -2 <= height l - height r <= 2 →
  rebalanced (elems l ++ v :: elems r) (height l) (height r) (rebalance (mk v l r)).
Proof.
  intros Hl Hr Hd. destruct (decide (height l - height r = 2)); [by apply rebalance_left|].
  destruct (decide (height l - height r = -2)); [by apply rebalance_right|].
  rewrite rebalance_eq, !bool_decide_false by lia.
  exists (mk v l r). split; [done|]. split; [avl_solve|].
  split; [done|]. split_and!; avl_solve.
Qed.

(** An update of [n] that returns [t]: balanced, with elements [es], and its
    height is that of [n] give or take [lo] and [hi]. *)
Definition updated n (lo hi : Z) (es : list A) t : Prop :=
  avl t ∧ elems t = es ∧ height n + lo <= height t <= height n + hi.

Lemma updated_leaf v : updated Leaf 0 1 [v] (mk v Leaf Leaf).
Proof. split; [by apply avl_mk|]. split; [done|]. simpl. lia. Qed.

Lemma rebalance_left_updated v l r h l' es lo hi :
  avl (Node v l r h) → updated l lo hi es l' → -1 <= lo → hi <= 1 → lo <= 0 <= hi →
  ∃ t, rebalance (mk v l' r) = Some t ∧
       updated (Node v l r h) lo hi (es ++ v :: elems r) t.
Proof.
  intros (Hl & Hr & Hh & Hb) (Hl' & <- & ?) ? ? ?.
  destruct (rebalance_mk v l' r Hl' Hr) as (t & ? & ? & ? & ? & ?); [lia|].
  exists t. split; [done|]. split; [done|]. split; [done|]. simpl. lia.
Qed.

Lemma rebalance_right_updated v l r h r' es lo hi :
  avl (Node v l r h) → updated r lo hi es r' → -1 <= lo → hi <= 1 → lo <= 0 <= hi →
  ∃ t, rebalance (mk v l r') = Some t ∧
       updated (Node v l r h) lo hi (elems l ++ v :: es) t.
Proof.
  intros (Hl & Hr & Hh & Hb) (Hr' & <- & ?) ? ? ?.
  destruct (rebalance_mk v l r' Hl Hr') as (t & ? & ? & ? & ? & ?); [lia|].
  exists t. split; [done|]. split; [done|]. split; [done|]. simpl. lia.
Qed.

(** The child that takes the place of a node without the other child. *)
Lemma updated_child v l r h c :
  avl (Node v l r h) → (l = Leaf ∧ c = r) ∨ (r = Leaf ∧ c = l) →
  updated (Node v l r h) (-1) 0 (elems c) c.
Proof.
  intros (Hl & Hr & Hh & Hb) [[-> ->]|[-> ->]];
    (split; [done|]; split; [done|]); simpl in *.
  - pose proof (avl_height r Hr). lia.
  - pose proof (avl_height l Hl). lia.
Qed.

(** An AVL tree of height [h] has at least [2^(h/2)] nodes, short of one. *)
Lemma avl_size n : avl n → 2 ^ height n <= (Z.of_nat (length (elems n)) + 1) ^ 2.
Proof.
  induction n as [|v l IHl r IHr h]; simpl; [done|].
  intros (Hl & Hr & -> & Hb). specialize (IHl Hl). specialize (IHr Hr).
  pose proof (avl_height l Hl). pose proof (avl_height r Hr).
  rewrite length_app. simpl. set (a := Z.of_nat (length (elems l))) in *.
  replace (Z.of_nat _ + 1) with ((a + 1) + (Z.of_nat (length (elems r)) + 1)) by lia.
  set (b := Z.of_nat (length (elems r))) in *.
  assert (0 <= a) by lia. assert (0 <= b) by lia. clearbody a b.
  assert (∀ z, 0 <= z → 2 ^ (1 + z) = 2 * 2 ^ z) as Hp
    by (intros; rewrite Z.pow_add_r by lia; lia).
  assert (height l = height r ∨ height l = 1 + height r ∨ height r = 1 + height l)
    as [Heq|[Heq|Heq]] by lia; rewrite Heq in *.
  - rewrite Z.max_id, Hp by lia. nia.
  - rewrite Z.max_l, !Hp in * by lia. assert (2 ^ height r <= (a + 1) * (b + 1)) by nia. nia.
  - rewrite Z.max_r, !Hp in * by lia. assert (2 ^ height l <= (a + 1) * (b + 1)) by nia. nia.
Qed.

(** A balanced tree of [k] values is at most [2 * log2_up (k + 1)] high. *)
Lemma avl_tree_height n :
  avl n → height n <= 2 * Z.log2_up (Z.of_nat (length (elems n)) + 1).
Proof.
  intros Hn. pose proof (avl_size n Hn) as Hs. pose proof (avl_height n Hn).
  set (m := Z.of_nat (length (elems n)) + 1) in *. assert (1 <= m) by lia. clearbody m.
  apply (Z.pow_le_mono_r_iff 2); [lia|pose proof (Z.log2_up_nonneg m); lia|].
  etrans; [exact Hs|]. rewrite Z.mul_comm, Z.pow_mul_r; [|apply Z.log2_up_nonneg|lia].
  apply Z.pow_le_mono_l. pose proof (Z.log2_up_le_pow2 m (Z.log2_up m)). lia.
Qed.
End avl.

#[global] Arguments rebalance {_} _ : simpl never.
#[global] Arguments mk {_} _ _ _ : simpl never.

