(* ===== verification/DequeTree.v ===== *)
(** The sequential deque of [wf/deque.go]: pushes and pops at both ends of a
    persistent AVL tree whose in-order traversal is the deque, front first. *)

From S2P Require Export Avl.
Open Scope Z_scope.

Section deque_tree.
Context {T : Type} (zero : T).
Implicit Types (n t l r : tree T) (x v : T).

Fixpoint treePushFront n x : option (tree T) :=
  match n with
  | Leaf => Some (mk x Leaf Leaf)
  | Node v l r _ => l' ← treePushFront l x; rebalance (mk v l' r)
  end.

Fixpoint treePushBack n x : option (tree T) :=
  match n with
  | Leaf => Some (mk x Leaf Leaf)
  | Node v l r _ => r' ← treePushBack r x; rebalance (mk v l r')
  end.

Fixpoint treePopFront n : option (tree T * T * bool) :=
  match n with
  | Leaf => Some (Leaf, zero, false)
  | Node v Leaf r _ => Some (r, v, true)
  | Node v l r _ =>
      '(newLeft, x, ok) ← treePopFront l;
      t ← rebalance (mk v newLeft r);
      Some (t, x, ok)
  end.

Fixpoint treePopBack n : option (tree T * T * bool) :=
  match n with
  | Leaf => Some (Leaf, zero, false)
  | Node v l Leaf _ => Some (l, v, true)
  | Node v l r _ =>
      '(newRight, x, ok) ← treePopBack r;
      t ← rebalance (mk v l newRight);
      Some (t, x, ok)
  end.

Lemma elems_nil n : elems n = [] → n = Leaf.
Proof. destruct n as [|v l r h]; simpl; [done|]. by destruct (elems l). Qed.

Lemma treePushFront_ok n x :
  avl n → ∃ t, treePushFront n x = Some t ∧ updated n 0 1 (x :: elems n) t.
Proof.
  induction n as [|v l IHl r _ h]; intros Hn; simpl.
  - exists (mk x Leaf Leaf). split; [done|]. by apply updated_leaf.
  - destruct (IHl (proj1 Hn)) as (l' & -> & Hl'). simpl.
    destruct (rebalance_left_updated v l r h l' _ _ _ Hn Hl') as (t & Ht & Hu);
      [lia..|]. by exists t.
Qed.

Lemma treePushBack_ok n x :
  avl n → ∃ t, treePushBack n x = Some t ∧ updated n 0 1 (elems n ++ [x]) t.
Proof.
  induction n as [|v l _ r IHr h]; intros Hn; simpl.
  - exists (mk x Leaf Leaf). split; [done|]. by apply updated_leaf.
  - destruct (IHr (proj1 (proj2 Hn))) as (r' & -> & Hr'). simpl.
    destruct (rebalance_right_updated v l r h r' _ _ _ Hn Hr') as (t & Ht & Hu);
      [lia..|]. exists t. by rewrite <-app_assoc.
Qed.

(** What a pop at one end returns. *)
Definition popped n (es : list T) (v : T) (res : option (tree T * T * bool)) : Prop :=
  ∃ t, res = Some (t, v, true) ∧ updated n (-1) 0 es t.

Lemma treePopFront_ok n v es :
  avl n → elems n = v :: es → popped n es v (treePopFront n).
Proof.
  revert es. induction n as [|x l IHl r _ h]; intros es Hn He; [done|].
  destruct l as [|lx ll lr lh].
  - simpl in He. simplify_eq. exists r. split; [done|]. eapply updated_child; [done|auto].
  - destruct (elems (Node lx ll lr lh)) as [|v' es'] eqn:El;
      [by apply elems_nil in El|].
    change (elems (Node lx ll lr lh) ++ x :: elems r = v :: es) in He.
    rewrite El in He. injection He as -> <-.
    destruct (IHl es' (proj1 Hn) eq_refl) as (l' & Hl' & Hu).
    destruct (rebalance_left_updated x _ r h l' _ _ _ Hn Hu) as (t & Ht & Hut); [lia..|].
    exists t. split; [|done]. change (treePopFront (Node x (Node lx ll lr lh) r h)) with
      ('(newLeft, x', ok) ← treePopFront (Node lx ll lr lh);
       t ← rebalance (mk x newLeft r); Some (t, x', ok)).
    rewrite Hl'. cbn [mbind option_bind]. by rewrite Ht.
Qed.

Lemma treePopBack_ok n v es :
  avl n → elems n = es ++ [v] → popped n es v (treePopBack n).
Proof.
  revert es. induction n as [|x l _ r IHr h]; intros es Hn He; [by destruct es|].
  destruct r as [|rx rl rr rh].
  - simpl in He. apply app_inj_tail in He as [<- <-]. exists l. split; [done|].
    eapply updated_child; [done|auto].
  - destruct (exists_last (l:=elems (Node rx rl rr rh))) as (es' & v' & Er).
    { intros E. by apply elems_nil in E. }
    change (elems l ++ x :: elems (Node rx rl rr rh) = es ++ [v]) in He.
    rewrite Er, app_comm_cons, app_assoc in He.
    apply app_inj_tail in He as [<- <-].
    destruct (IHr es' (proj1 (proj2 Hn)) Er) as (r' & Hr' & Hu).
    destruct (rebalance_right_updated x l _ h r' _ _ _ Hn Hu) as (t & Ht & Hut); [lia..|].
    exists t. split; [|done]. change (treePopBack (Node x l (Node rx rl rr rh) h)) with
      ('(newRight, x', ok) ← treePopBack (Node rx rl rr rh);
       t ← rebalance (mk x l newRight); Some (t, x', ok)).
    rewrite Hr'. cbn [mbind option_bind]. by rewrite Ht.
Qed.

(** ** Properties *)

(** Pushing on a balanced tree succeeds at either end, gives a balanced tree
    at most one higher, and adds the value at that end of the sequence. *)
Theorem deque_tree_push n x :
  avl n →
  (∃ t, treePushFront n x = Some t ∧ avl t ∧ elems t = x :: elems n ∧
        height n <= height t <= height n + 1) ∧
  (∃ t, treePushBack n x = Some t ∧ avl t ∧ elems t = elems n ++ [x] ∧
        height n <= height t <= height n + 1).
Proof.
  intros Hn. destruct (treePushFront_ok n x Hn) as (t1 & ? & ? & ? & ?).
  destruct (treePushBack_ok n x Hn) as (t2 & ? & ? & ? & ?).
  split; eexists; split_and!; done || lia.
Qed.

(** C32. Popping a balanced tree never dereferences nil and gives a balanced tree
    at most one lower without its first (last) value, which is returned; only
    the empty tree reports false. *)
Theorem deque_tree_pop n :
  avl n →
  match elems n with
  | [] => treePopFront n = Some (Leaf, zero, false) ∧ treePopBack n = Some (Leaf, zero, false)
  | x :: es => ∃ t, treePopFront n = Some (t, x, true) ∧ avl t ∧ elems t = es ∧
                    height n - 1 <= height t <= height n
  end ∧
  ∀ es x, elems n = es ++ [x] → ∃ t, treePopBack n = Some (t, x, true) ∧ avl t ∧
    elems t = es ∧ height n - 1 <= height t <= height n.
Proof.
  intros Hn. split.
  - destruct (elems n) as [|x es] eqn:E; [by apply elems_nil in E as ->|].
    destruct (treePopFront_ok n x es Hn E) as (t & ? & ? & ? & ?).
    exists t. split_and!; done || lia.
  - intros es x E. destruct (treePopBack_ok n x es Hn E) as (t & ? & ? & ? & ?).
    exists t. split_and!; done || lia.
Qed.

End deque_tree.

(** The deque 1 2 3 4 5 built by pushes at both ends. *)
Definition sample : option (tree Z) :=
  t ← treePushBack Leaf 3; t ← treePushBack t 4; t ← treePushBack t 5;
  t ← treePushFront t 2; treePushFront t 1.

Lemma deque_tree_push_witness : ∃ n, sample = Some n ∧ elems n = [1; 2; 3; 4; 5] ∧
  ∃ t, treePushFront n 0 = Some t ∧ elems t = [0; 1; 2; 3; 4; 5].
Proof.
  eexists. split; [reflexivity|]. split; [reflexivity|].
  match goal with |- ∃ t, treePushFront ?n 0 = _ ∧ _ =>
    destruct (deque_tree_push n 0 (avlb_avl n eq_refl)) as [(t & Ht & _ & He & _) _] end.
  exists t. split; [exact Ht|exact He].
Defined.

Lemma deque_tree_pop_witness : ∃ n, sample = Some n ∧
  (∃ t, treePopFront 0 n = Some (t, 1, true) ∧ elems t = [2; 3; 4; 5]) ∧
  ∃ t, treePopBack 0 n = Some (t, 5, true) ∧ elems t = [1; 2; 3; 4].
Proof.
  eexists. split; [reflexivity|].
  match goal with |- (∃ t, treePopFront 0 ?n = _ ∧ _) ∧ _ =>
    destruct (deque_tree_pop 0 n (avlb_avl n eq_refl)) as [(t & Ht & _ & He & _) Hback] end.
  destruct (Hback [1; 2; 3; 4] 5 eq_refl) as (t' & Ht' & _ & He' & _).
  split; [exists t|exists t']; split; assumption.
Defined.
