(* ===== verification/MapTree.v ===== *)
(** The sequential ordered map of [wf/map.go]: a persistent AVL search tree.

    [mapTreeNode] is the tree of Avl.v over pairs of a key and a value; each
    operation is proved equal to its reference on the sorted association list
    of the in-order traversal (Order.v). *)

From S2P Require Export Avl Order.
Open Scope Z_scope.

Section map_tree.
Context {K V : Type} (zero : V) (less : Less K).

Definition mapTreeNode : Type := tree (K * V).
Implicit Types (n t l r : mapTreeNode) (k key : K) (v val : V).

Definition mapHeight n : Z := height n.
Definition mkMapNode key val l r : mapTreeNode := mk (key, val) l r.
Definition rotateMapRight n : option mapTreeNode := rotateRight n.
Definition rotateMapLeft n : option mapTreeNode := rotateLeft n.
Definition rebalanceMap n : option mapTreeNode := rebalance n.
Arguments rebalanceMap : simpl never.

Fixpoint mapInsert n key val : option mapTreeNode :=
  match n with
  | Leaf => Some (mkMapNode key val Leaf Leaf)
  | Node (nk, nv) l r _ =>
      if less key nk then
        l' ← mapInsert l key val; rebalanceMap (mkMapNode nk nv l' r)
      else if less nk key then
        r' ← mapInsert r key val; rebalanceMap (mkMapNode nk nv l r')
      else Some (mkMapNode nk val l r)
  end.

Fixpoint mapLookup n key : V * bool :=
  match n with
  | Leaf => (zero, false)
  | Node (nk, nv) l r _ =>
      if less key nk then mapLookup l key
      else if less nk key then mapLookup r key
      else (nv, true)
  end.

Fixpoint mapMin n : option (K * V) :=
  match n with
  | Leaf => None
  | Node kv Leaf _ _ => Some kv
  | Node _ l _ _ => mapMin l
  end.

Fixpoint mapDelete n key : option (mapTreeNode * V * bool) :=
  match n with
  | Leaf => Some (Leaf, zero, false)
  | Node (nk, nv) l r _ =>
      if less key nk then
        '(nl, old, ok) ← mapDelete l key;
        t ← rebalanceMap (mkMapNode nk nv nl r); Some (t, old, ok)
      else if less nk key then
        '(nr, old, ok) ← mapDelete r key;
        t ← rebalanceMap (mkMapNode nk nv l nr); Some (t, old, ok)
      else
        match l, r with
        | Leaf, _ => Some (r, nv, true)
        | _, Leaf => Some (l, nv, true)
        | _, _ =>
            '(sk, sv) ← mapMin r;
            '(nr, _, _) ← mapDelete r sk;
            t ← rebalanceMap (mkMapNode sk sv l nr); Some (t, nv, true)
        end
  end.

(** What [Get] and [Del] report about a key of a sorted list. *)
Definition report (o : option V) : V * bool :=
  match o with Some v => (v, true) | None => (zero, false) end.

(** ** Correctness *)

Context `{!WeakOrder less}.

Abbreviation sorted := (sorted less).
Abbreviation ins := (ins less).
Abbreviation find := (find less).
Abbreviation del := (del less).

(** The two sides of a search node, for a key on its left and on its right. *)
Lemma node_sorted nk nv l r h :
  sorted (elems (Node (nk, nv) l r h)) →
  sorted (elems l) ∧ sorted (elems r) ∧
  (∀ key, less key nk = true → absent less key ((nk, nv) :: elems r)) ∧
  (∀ key, less nk key = true → Forall (λ y, less y.1 key = true) (elems l ++ [(nk, nv)])) ∧
  (∀ key, same_key less key nk = true → Forall (λ y, less y.1 key = true) (elems l)) ∧
  (∀ key, same_key less key nk = true → absent less key (elems r)).
Proof.
  simpl. rewrite sorted_app by done. intros (Hl & Hr & Hlx & Hxr).
  split; [done|]. split; [done|]. split_and!.
  - intros key Hk. apply absent_lt; [done|]. constructor; [done|].
    eapply Forall_impl; [exact Hxr|]. intros y Hy. eapply less_trans; [exact Hk|exact Hy].
  - intros key Hk. apply Forall_app_2; [|by constructor; [exact Hk|constructor]].
    eapply Forall_impl; [exact Hlx|]. intros y Hy. eapply less_trans; [exact Hy|exact Hk].
  - intros key Hk. eapply Forall_impl; [exact Hlx|]. intros y Hy.
    eapply less_same_r; [done|exact Hy|]. by rewrite same_key_sym.
  - intros key Hk. apply absent_lt; [done|]. eapply Forall_impl; [exact Hxr|].
    intros y Hy. eapply less_same_l; [done|exact Hy|exact Hk].
Qed.

Lemma not_less_same key nk :
  less key nk = false → less nk key = false → same_key less key nk = true.
Proof. intros. by apply same_key_spec. Qed.

Lemma mapInsert_ok n key val :
  avl n → sorted (elems n) →
  ∃ t, mapInsert n key val = Some t ∧ updated n 0 1 (ins key val (elems n)) t.
Proof.
  induction n as [|[nk nv] l IHl r IHr h]; intros Hn Hs; simpl.
  - eexists. split; [done|]. by apply updated_leaf.
  - apply node_sorted in Hs as (Hl & Hr & _ & Hgt & Heq & _).
    destruct (less key nk) eqn:E1; [|destruct (less nk key) eqn:E2].
    + destruct (IHl (proj1 Hn) Hl) as (l' & -> & Hu). rewrite ins_l by done.
      by apply (rebalance_left_updated _ l r h l' _ _ _ Hn Hu).
    + destruct (IHr (proj1 (proj2 Hn)) Hr) as (r' & -> & Hu).
      rewrite ins_r; [|done| |done].
      * by apply (rebalance_right_updated _ l r h r' _ _ _ Hn Hu).
      * apply Hgt in E2. by apply Forall_app in E2 as [? _].
    + pose proof (not_less_same _ _ E1 E2) as E.
      rewrite ins_eq; [|done|by apply Heq|done]. eexists. split; [done|].
      destruct Hn as (? & ? & -> & ?). split; [by apply avl_mk|]. split; [done|].
      unfold mkMapNode. rewrite height_mk. simpl. lia.
Qed.

Lemma mapLookup_ok n key :
  sorted (elems n) → mapLookup n key = report (find key (elems n)).
Proof.
  induction n as [|[nk nv] l IHl r IHr h]; intros Hs; simpl; [done|].
  apply node_sorted in Hs as (Hl & Hr & Hlt & Hgt & Heq & _).
  destruct (less key nk) eqn:E1; [|destruct (less nk key) eqn:E2].
  - rewrite find_app, (find_None _ key _ (Hlt _ E1)), IHl by done.
    by destruct (find key (elems l)).
  - rewrite cons_middle, app_assoc, find_absent by (apply absent_gt; auto). by apply IHr.
  - pose proof (not_less_same _ _ E1 E2) as E.
    rewrite find_absent by (apply absent_gt; auto). simpl. by rewrite E.
Qed.

Lemma mapMin_ok n :
  n ≠ Leaf → ∃ kv es, mapMin n = Some kv ∧ elems n = kv :: es.
Proof.
  induction n as [|kv l IHl r _ h]; intros Hn; [done|].
  destruct l as [|lkv ll lr lh]; [by exists kv, (elems r)|].
  destruct IHl as (kv' & es & Hm & He); [done|]. exists kv', (es ++ kv :: elems r).
  split; [exact Hm|]. change (elems (Node lkv ll lr lh) ++ kv :: elems r = (kv' :: es) ++ kv :: elems r).
  by rewrite He.
Qed.

Lemma mapDelete_both nk nv l r h key :
  l ≠ Leaf → r ≠ Leaf → less key nk = false → less nk key = false →
  mapDelete (Node (nk, nv) l r h) key =
    ('(sk, sv) ← mapMin r;
     '(nr, _, _) ← mapDelete r sk;
     t ← rebalanceMap (mkMapNode sk sv l nr); Some (t, nv, true)).
Proof. simpl. intros Hl Hr -> ->. by destruct l, r. Qed.

(** What a deletion of [key] from [n] returns. *)
Definition deleted n key (res : option (mapTreeNode * V * bool)) : Prop :=
  ∃ t old ok, res = Some (t, old, ok) ∧ (old, ok) = report (find key (elems n)) ∧
    updated n (-1) 0 (del key (elems n)) t.

(** The key is at the root. *)
Lemma mapDelete_root nk nv l r h key :
  avl (Node (nk, nv) l r h) → sorted (elems (Node (nk, nv) l r h)) →
  (∀ k, deleted r k (mapDelete r k)) → less key nk = false → less nk key = false →
  deleted (Node (nk, nv) l r h) key (mapDelete (Node (nk, nv) l r h) key).
Proof.
  intros Hn Hs IHr E1 E2. apply node_sorted in Hs as (Hl & Hr & _ & _ & Hlt & Hgt).
  pose proof (not_less_same _ _ E1 E2) as E.
  assert (find key (elems (Node (nk, nv) l r h)) = Some nv) as Hf.
  { simpl. rewrite find_absent by (apply absent_gt; auto). simpl. by rewrite E. }
  assert (del key (elems (Node (nk, nv) l r h)) = elems l ++ elems r) as Hd.
  { simpl. rewrite del_absent by (apply absent_gt; auto). simpl. by rewrite E. }
  unfold deleted. rewrite Hf, Hd.
  destruct (decide (l = Leaf)) as [->|Hnl].
  { exists r, nv, true. simpl mapDelete. rewrite E1, E2. split; [done|]. split; [done|].
    eapply updated_child; [exact Hn|auto]. }
  destruct (decide (r = Leaf)) as [->|Hnr].
  { exists l, nv, true. simpl mapDelete. rewrite E1, E2. rewrite app_nil_r.
    split; [by destruct l|]. split; [done|]. eapply updated_child; [exact Hn|auto]. }
  rewrite mapDelete_both by done.
  destruct (mapMin_ok r Hnr) as ([sk sv] & es & -> & He). simpl.
  destruct (IHr sk) as (nr & old & ok & -> & _ & Hu).
  rewrite He in Hu |- *. simpl in Hu. rewrite same_key_refl in Hu by done.
  destruct (rebalance_right_updated (sk, sv) l r h nr _ _ _ Hn Hu) as (t & Ht & Hut);
    [lia..|].
  unfold rebalanceMap, mkMapNode. cbn [mbind option_bind]. rewrite Ht. by exists t, nv, true.
Qed.

Lemma mapDelete_ok n key :
  avl n → sorted (elems n) → deleted n key (mapDelete n key).
Proof.
  revert key. induction n as [|[nk nv] l IHl r IHr h]; intros key Hn Hs.
  { exists Leaf, zero, false. split; [done|]. split; [done|]. by split_and!. }
  apply node_sorted in Hs as Hs'. destruct Hs' as (Hl & Hr & Hlt & Hgt & _ & _).
  destruct (less key nk) eqn:E1; [|destruct (less nk key) eqn:E2].
  - destruct (IHl key (proj1 Hn) Hl) as (l' & old & ok & Hl' & Ho & Hu).
    destruct (rebalance_left_updated (nk, nv) l r h l' _ _ _ Hn Hu) as (t & Ht & Hut);
      [lia..|].
    exists t, old, ok. simpl. rewrite E1, Hl'. cbn [mbind option_bind].
    unfold rebalanceMap, mkMapNode. rewrite Ht. split; [done|].
    rewrite find_app, (find_None _ key _ (Hlt _ E1)), del_app_r by auto.
    split; [|done]. by destruct (find key (elems l)).
  - destruct (IHr key (proj1 (proj2 Hn)) Hr) as (r' & old & ok & Hr' & Ho & Hu).
    destruct (rebalance_right_updated (nk, nv) l r h r' _ _ _ Hn Hu) as (t & Ht & Hut);
      [lia..|].
    exists t, old, ok. simpl. rewrite E1, E2, Hr'. cbn [mbind option_bind].
    unfold rebalanceMap, mkMapNode. rewrite Ht. split; [done|].
    pose proof (absent_gt less key _ (Hgt _ E2)) as Hab.
    rewrite cons_middle, app_assoc, find_absent, del_absent by done.
    by rewrite <-app_assoc.
  - apply mapDelete_root; try done. intros k. by apply IHr; [apply Hn|].
Qed.

(** ** Properties *)

(** A balanced tree whose keys ascend. *)
Definition search_tree n : Prop := avl n ∧ sorted (elems n).

(** [mapInsert] on a search tree never dereferences nil, gives a search tree
    at most one higher, and afterwards the key has the new value and every
    other key what it had. *)
Theorem map_tree_insert n key val :
  search_tree n → ∃ t, mapInsert n key val = Some t ∧ search_tree t ∧
    height n <= height t <= height n + 1 ∧
    ∀ k, mapLookup t k = if same_key less k key then (val, true) else mapLookup n k.
Proof.
  intros [Hn Hs]. destruct (mapInsert_ok n key val Hn Hs) as (t & Ht & Ha & He & Hh).
  assert (sorted (elems t)) as Hst by (rewrite He; by apply ins_sorted).
  exists t. split; [done|]. split; [done|]. split; [lia|]. intros k.
  rewrite !mapLookup_ok, He, find_ins by done. by destruct (same_key less k key).
Qed.

(** C30. [mapDelete] on a search tree never dereferences nil, also when the node
    has two children; it gives a search tree at most one lower, returns what
    [mapLookup] would have, and afterwards exactly the key is absent. *)
Theorem map_tree_delete n key :
  search_tree n → ∃ t old ok, mapDelete n key = Some (t, old, ok) ∧ search_tree t ∧
    height n - 1 <= height t <= height n ∧ (old, ok) = mapLookup n key ∧
    ∀ k, mapLookup t k = if same_key less k key then (zero, false) else mapLookup n k.
Proof.
  intros [Hn Hs]. destruct (mapDelete_ok n key Hn Hs) as (t & old & ok & Ht & Ho & Ha & He & Hh).
  assert (sorted (elems t)) as Hst by (rewrite He; by apply del_sorted).
  exists t, old, ok. split; [done|]. split; [done|]. split; [lia|].
  rewrite mapLookup_ok by done. split; [done|]. intros k.
  rewrite !mapLookup_ok, He, find_del by done. by destruct (same_key less k key).
Qed.

(** C31. [mapLookup] finds what a scan of the entries in order finds. *)
Theorem map_tree_lookup n key :
  search_tree n → mapLookup n key = report (find key (elems n)).
Proof. intros [_ Hs]. by apply mapLookup_ok. Qed.
End map_tree.

(** The map 1, ..., 5 of integers built in the order 3, 1, 2, 5, 4, which takes
    a single and a double rotation. *)
Definition map_sample : mapTreeNode (K:=Z) (V:=Z) := default Leaf (
  t ← mapInsert Z.ltb Leaf 3 30; t ← mapInsert Z.ltb t 1 10;
  t ← mapInsert Z.ltb t 2 20; t ← mapInsert Z.ltb t 5 50; mapInsert Z.ltb t 4 40).

Lemma map_sample_ok : search_tree Z.ltb map_sample.
Proof. exact (conj (avlb_avl map_sample eq_refl) (sortedb_sorted Z.ltb (elems map_sample) eq_refl)). Qed.

Lemma map_tree_insert_witness : ∃ t,
  mapInsert Z.ltb map_sample 2 22 = Some t ∧ mapLookup 0 Z.ltb t 2 = (22, true) ∧
  mapLookup 0 Z.ltb t 4 = (40, true).
Proof.
  destruct (map_tree_insert 0 Z.ltb map_sample 2 22 map_sample_ok)
    as (t & Ht & _ & _ & Hl).
  exists t. split; [exact Ht|]. split; [exact (Hl 2)|exact (Hl 4)].
Defined.

Lemma map_tree_delete_witness : ∃ t,
  mapDelete 0 Z.ltb map_sample 2 = Some (t, 20, true) ∧
  mapLookup 0 Z.ltb t 2 = (0, false) ∧ mapLookup 0 Z.ltb t 4 = (40, true).
Proof.
  destruct (map_tree_delete 0 Z.ltb map_sample 2 map_sample_ok)
    as (t & old & ok & Ht & _ & _ & Ho & Hl).
  injection Ho as -> ->.
  exists t. split; [exact Ht|]. split; [exact (Hl 2)|exact (Hl 4)].
Defined.

Lemma map_tree_lookup_witness : mapLookup 0 Z.ltb map_sample 4 = (40, true).
Proof. exact (map_tree_lookup 0 Z.ltb map_sample 4 map_sample_ok). Defined.
