(* ===== verification/Universal.v ===== *)
(** Herlihy's wait-free universal construction.

    [wf/stack.go], [wf/deque.go] and [wf/map.go] contain the same construction
    over three sequential objects.  This file is that code over any sequential
    object [O]: the announce array, the consensus list of operation nodes, the
    helping loop [apply], [publish] and [advanceAnchor].  The three structures
    instantiate it in WfStack.v, WfDeque.v and WfMap.v. *)

From S2P Require Export Rules.

(** The sequential object as the construction uses it: the zero value of an
    operation with its arguments, the zero result (the empty object), the
    [switch] of [publish] ([None] where it would dereference nil), what a
    method returns of the result of its operation, and what it would return of
    a nil result ([None] if it dereferences it). *)
Record seq_object (Arg Res Resp : Type) := SeqObject {
  so_zero : Arg;
  so_init : Res;
  so_compute : Res → Arg → option Res;
  so_view : Arg → Res → Resp;
  so_nil : Arg → option Resp
}.
Arguments SeqObject {_ _ _}.
Arguments so_zero {_ _ _}.
Arguments so_init {_ _ _}.
Arguments so_compute {_ _ _}.
Arguments so_view {_ _ _}.
Arguments so_nil {_ _ _}.

(** The contract between the construction and its object: [compute] implements
    the sequential specification on the results that represent its states. *)
Class Implements {Arg Res Resp St} (O : seq_object Arg Res Resp)
    (Sp : spec St Arg Resp) (rep : Res → St → Prop) : Prop := {
  im_init : rep (so_init O) (spec_init Sp);
  im_step r s a : rep r s → ∃ r', so_compute O r a = Some r' ∧
    rep r' (spec_step Sp s a).1 ∧ (spec_step Sp s a).2 = Some (so_view O a r')
}.

(** The concurrent object: [UHandle] registers a participant, and [UApply tid a]
    is a method called through the handle of participant [tid]. *)
Inductive uop (Arg : Type) :=
  | UHandle
  | UApply (tid : nat) (a : Arg).
Arguments UHandle {_}.
Arguments UApply {_}.

Inductive uresp (Resp : Type) :=
  | RHandle (tid : Z)
  | RPanic
  | RApply (r : Resp).
Arguments RHandle {_}.
Arguments RPanic {_}.
Arguments RApply {_}.

(** Its specification: the object, and the number of [Handle] calls so far; the
    calls beyond the first [n] panic. *)
Definition uspec {St Arg Resp} (Sp : spec St Arg Resp) (n : nat)
    : spec (St * Z) (uop Arg) (uresp Resp) :=
  Spec (spec_init Sp, 0%Z) (λ s o,
    match o with
    | UHandle =>
        ((s.1, (s.2 + 1)%Z),
         Some (if bool_decide (s.2 >= Z.of_nat n)%Z then RPanic else RHandle s.2))
    | UApply _ a => (((spec_step Sp s.1 a).1, s.2), RApply <$> (spec_step Sp s.1 a).2)
    end).

Module Universal.

(** An operation node: an entry of the consensus list. *)
Record node (Arg Res : Type) := Node {
  op : Arg;
  next : option loc;
  res : option Res;
  seq : Z
}.
Arguments Node {_ _}.
Arguments op {_ _}.
Arguments next {_ _}.
Arguments res {_ _}.
Arguments seq {_ _}.

Record mem (Arg Res : Type) := Mem {
  heap : list (node Arg Res);
  anchor : option loc;
  head : list (option loc);
  announce : list (option loc);
  cursor : Z
}.
Arguments Mem {_ _}.
Arguments heap {_ _}.
Arguments anchor {_ _}.
Arguments head {_ _}.
Arguments announce {_ _}.
Arguments cursor {_ _}.

Section code.
Context {Arg Res Resp : Type} (O : seq_object Arg Res Resp).
Abbreviation node := (node Arg Res).
Abbreviation mem := (mem Arg Res).

Definition next_f : field node (option loc) :=
  Field next (λ p x, Node (op x) p (res x) (seq x)).
Definition res_f : field node (option Res) :=
  Field res (λ r x, Node (op x) (next x) r (seq x)).
Definition seq_f : field node Z :=
  Field seq (λ s x, Node (op x) (next x) (res x) s).

Definition heap_f : field mem (list node) :=
  Field heap (λ h m, Mem h (anchor m) (head m) (announce m) (cursor m)).
Definition anchor_f : field mem (option loc) :=
  Field anchor (λ p m, Mem (heap m) p (head m) (announce m) (cursor m)).
Definition head_f : field mem (list (option loc)) :=
  Field head (λ l m, Mem (heap m) (anchor m) l (announce m) (cursor m)).
Definition announce_f : field mem (list (option loc)) :=
  Field announce (λ l m, Mem (heap m) (anchor m) (head m) l (cursor m)).
Definition cursor_f : field mem Z :=
  Field cursor (λ c m, Mem (heap m) (anchor m) (head m) (announce m) c).

(** The memory the constructor sets up: the sentinel, numbered 1, carries the
    empty object and is the anchor; no participant is registered. *)
Definition new_mem (n : nat) : mem :=
  Mem [Node (so_zero O) None (Some (so_init O)) 1] (Some 0)
    (replicate n None) (replicate n None) 0.

(** The constructor; [None] is its panic. *)
Definition New (maxHandles : Z) : option mem :=
  if bool_decide (maxHandles < 1)%Z then None
  else Some (new_mem (Z.to_nat maxHandles)).

(** [n] is the field of that name, which never changes. *)
Context (n : nat).

Definition Handle : prog mem (uresp Resp) :=
  let! c := act (add_i64 cursor_f 1) in
  let id := i64 (c - 1) in
  if bool_decide (id >= Z.of_nat n)%Z then Ret RPanic
  else
    let! frontier := act (load anchor) in
    act (store_idx head_f id frontier) ;;;
    act (store_idx announce_f id frontier) ;;;
    Ret (RHandle id).

Definition maxFrontier : prog mem (option loc) :=
  let! best := act (load anchor) in
  let! bestSeq := act (load_ptr heap best seq) in
  loop (λ '(i, best, bestSeq),
    if bool_decide (i < Z.of_nat n)%Z then
      let! nd := act (load_idx head i) in
      match nd with
      | None => continue ((i + 1)%Z, best, bestSeq)
      | Some l =>
          let! sq := act (load_at heap l seq) in
          if bool_decide (sq > bestSeq)%Z
          then continue ((i + 1)%Z, Some l, sq)
          else continue ((i + 1)%Z, best, bestSeq)
      end
    else break best) (0%Z, best, bestSeq).

Definition publish (before after : option loc) : prog mem unit :=
  let! br := act (load_ptr heap before res) in
  let! a := act (load_ptr heap after op) in
  match (br ← br; so_compute O br a) with
  | None => panic
  | Some nr =>
      act (cas_nil_ptr heap_f after res_f nr) ;;;
      let! s := act (load_ptr heap before seq) in
      act (cas_ptr heap_f after seq_f 0%Z (i64 (s + 1))) ;;;
      Ret tt
  end.

Definition advanceAnchor (nd : loc) : prog mem unit :=
  loop (λ _ : unit,
    let! cur := act (load anchor) in
    let! ns := act (load_at heap nd seq) in
    let! cs := act (load_ptr heap cur seq) in
    if bool_decide (ns <= cs)%Z then break tt
    else
      let! ok := act (cas anchor_f cur (Some nd)) in
      if ok : bool then break tt else continue tt) tt.

(** One round of the helping loop, after the check [mine.seq.Load() == 0]. *)
Definition round (tid : nat) (mine : loc) : prog mem unit :=
  let! before := act (load_idx head (Z.of_nat tid)) in
  let! bs := act (load_ptr heap before seq) in
  let helpIdx := Z.rem (i64 (bs + 1)) (Z.of_nat n) in
  let! cand := act (load_idx announce helpIdx) in
  let! prefer :=
    match cand with
    | Some c =>
        let! cs := act (load_at heap c seq) in
        Ret (if bool_decide (cs = 0%Z) then c else mine)
    | None => Ret mine
    end in
  act (cas_ptr heap_f before next_f None (Some prefer)) ;;;
  let! after := act (load_ptr heap before next) in
  let! s := act (load_ptr heap after seq) in
  (if bool_decide (s = 0%Z) then publish before after else Ret tt) ;;;
  act (store_idx head_f (Z.of_nat tid) after).

Definition apply (tid : nat) (a : Arg) : prog mem (option Res) :=
  let! mine := act (new heap_f (Node a None None 0)) in
  act (store_idx announce_f (Z.of_nat tid) (Some mine)) ;;;
  let! f := maxFrontier in
  act (store_idx head_f (Z.of_nat tid) f) ;;;
  loop (λ _ : unit,
    let! s := act (load_at heap mine seq) in
    if bool_decide (s = 0%Z) then
      round tid mine ;;;
      continue tt
    else break tt) tt ;;;
  let! r := act (load_at heap mine res) in
  act (store_idx head_f (Z.of_nat tid) (Some mine)) ;;;
  advanceAnchor mine ;;;
  Ret r.

(** A method: [apply], and what it returns of the result. *)
Definition method (tid : nat) (a : Arg) : prog mem (uresp Resp) :=
  let! r := apply tid a in
  match r with
  | Some r => Ret (RApply (so_view O a r))
  | None =>
      match so_nil O a with Some v => Ret (RApply v) | None => panic end
  end.

Definition code (_ : nat) (o : uop Arg) : prog mem (uresp Resp) :=
  match o with
  | UHandle => Handle
  | UApply tid a => method tid a
  end.

(** The contract of the handles: a handle is used after [Handle] returned it,
    and by one goroutine at a time, which is then labelled with its id.  A
    program calls fewer than 2^62 methods, so the 64-bit counters do not wrap. *)
Definition allowed (t calls : nat) (o : uop Arg) (m : mem) : bool :=
  bool_decide (Z.of_nat calls < 2 ^ 62)%Z &&
  match o with
  | UHandle => true
  | UApply tid _ => bool_decide (t = tid) && bool_decide (is_Some (mjoin (announce m !! tid)))
  end.

Definition universal_object : object mem (uop Arg) (uresp Resp) :=
  Object (new_mem n) code allowed.
End code.

(** ** The invariant *)

Section invariant.
Context {Arg Res Resp St : Type} (O : seq_object Arg Res Resp) (Sp : spec St Arg Resp).
Context (rep : Res → St → Prop) (n : nat).
Abbreviation node := (node Arg Res).
Abbreviation mem := (mem Arg Res).

(** Ghost state.  [chain] lists the consensus list, each node with its result.
    [own] maps every operation node to its participant, [cur] a participant to
    its operation node until the operation moves the anchor or returns, and
    [since] to the length of the chain when it announced the node; [pub] holds
    the nodes announced so far.  [floor] is
    a position that the participant's cursor never falls behind.  [reg] maps a
    handle id to the goroutine that registers it, and [todo] holds the called
    operations that did not yet allocate; [calls] counts the calls. *)
Record aux := Aux {
  chain : list (loc * Res);
  own : gmap loc nat;
  cur : gmap nat loc;
  since : gmap nat nat;
  pub : gset loc;
  floor : gmap nat nat;
  reg : gmap nat nat;
  todo : gset nat;
  calls : nat
}.

Abbreviation world := (world mem (uop Arg) (uresp Resp) aux).
Abbreviation USp := (uspec Sp n).
Implicit Types (w : world) (k q j : nat) (l c : loc) (r : Res) (u x : nat).

(** The node at position [k] of the chain, with its result. *)
Definition at_pos k l r w : Prop := chain (w_aux w) !! k = Some (l, r).

Definition linked c w : Prop := c ∈ (chain (w_aux w)).*1.

Global Instance linked_dec c w : Decision (linked c w).
Proof. unfold linked. apply _. Defined.

Definition succ k w : option loc := fst <$> chain (w_aux w) !! S k.

(** The node [l] with its immutable operation. *)
Definition op_at l (a : Arg) w : Prop := ∃ nd, heap (w_mem w) !! l = Some nd ∧ op nd = a.

(** Position [k] is published: its node has its result and its number. *)
Definition numbered k l r w : Prop :=
  at_pos k l r w ∧ ∃ nd, heap (w_mem w) !! l = Some nd ∧
    seq nd = Z.of_nat (S k) ∧ res nd = Some r.

Definition floor_of u w : nat := default 0 (floor (w_aux w) !! u).

(** The participants that may still move the anchor to a position below [q]. *)
Definition behind q w : gmap nat loc :=
  filter (λ uc, uc.2 ∈ (take q (chain (w_aux w))).*1) (cur (w_aux w)).

Definition g_st w : St * Z := g_state USp (w_gh w).

Record Inv w : Prop := {
  (* the consensus list *)
  i_chain : ∀ k l r, at_pos k l r w → ∃ nd, heap (w_mem w) !! l = Some nd ∧
    next nd = succ k w ∧
    ((seq nd = 0%Z ∧ (res nd = None ∨ res nd = Some r) ∧ S k = length (chain (w_aux w)) ∧ 0 < k)
     ∨ (seq nd = Z.of_nat (S k) ∧ res nd = Some r));
  i_nodup : NoDup (chain (w_aux w)).*1;
  i_step : ∀ k l r l' r' a, at_pos k l r w → at_pos (S k) l' r' w → op_at l' a w →
    so_compute O r a = Some r';
  i_state : ∃ k l r, at_pos k l r w ∧ S k = length (chain (w_aux w)) ∧ rep r (g_st w).1;
  (* operation nodes *)
  i_fresh : ∀ c u, own (w_aux w) !! c = Some u → ¬ linked c w → ∃ a,
    heap (w_mem w) !! c = Some (Node a None None 0) ∧ cur (w_aux w) !! u = Some c ∧
    pending (w_gh w) u (UApply u a);
  i_done : ∀ u c k r a, cur (w_aux w) !! u = Some c → at_pos k c r w → op_at c a w →
    finished (w_gh w) u (RApply (so_view O a r));
  i_cur : ∀ u c, cur (w_aux w) !! u = Some c → own (w_aux w) !! c = Some u ∧ u < n;
  (* the arrays *)
  i_len_head : length (head (w_mem w)) = n;
  i_len_ann : length (announce (w_mem w)) = n;
  i_head : ∀ i p, head (w_mem w) !! i = Some p →
    match p with
    | None => announce (w_mem w) !! i = Some None
    | Some l => ∃ k r, numbered k l r w ∧ floor_of i w ≤ k
    end;
  i_unreg : ∀ i, announce (w_mem w) !! i = Some None → floor_of i w = 0;
  i_ann : ∀ i l, announce (w_mem w) !! i = Some (Some l) →
    own (w_aux w) !! l = Some i ∨ ∃ k r, numbered k l r w;
  i_anchor : ∃ k l r, anchor (w_mem w) = Some l ∧ numbered k l r w;
  (* helping *)
  i_floor : ∀ u, floor_of u w < length (chain (w_aux w));
  i_floor_cur : ∀ u c k r, cur (w_aux w) !! u = Some c → at_pos k c r w → floor_of u w ≤ k;
  i_front : length (chain (w_aux w)) ≤ 2 ∨
    ∃ u, u < n ∧ length (chain (w_aux w)) ≤ floor_of u w + 2;
  i_since : ∀ u A, since (w_aux w) !! u = Some A → ∃ c,
    cur (w_aux w) !! u = Some c ∧ announce (w_mem w) !! u = Some (Some c) ∧
    A ≤ length (chain (w_aux w)) ∧
    (∀ q r, at_pos q c r w → q ≤ A + n) ∧
    (¬ linked c w → ∀ j, A ≤ j → S j < length (chain (w_aux w)) → (j + 2) mod n ≠ u);
  i_pub : ∀ c u, own (w_aux w) !! c = Some u →
    (linked c w → c ∈ pub (w_aux w)) ∧
    (c ∈ pub (w_aux w) → cur (w_aux w) !! u = Some c → is_Some (since (w_aux w) !! u));
  i_pub_own : ∀ c, c ∈ pub (w_aux w) → is_Some (own (w_aux w) !! c);
  i_ann_pub : ∀ i c, announce (w_mem w) !! i = Some (Some c) →
    own (w_aux w) !! c = Some i → c ∈ pub (w_aux w);
  (* registration and counters *)
  i_reg : ∀ i, (cursor (w_mem w) ≤ Z.of_nat i)%Z →
    reg (w_aux w) !! i = None ∧ ∀ l, announce (w_mem w) !! i ≠ Some (Some l);
  i_cursor : cursor (w_mem w) = (g_st w).2 ∧ (0 ≤ cursor (w_mem w))%Z;
  i_calls : (cursor (w_mem w) + Z.of_nat (length (heap (w_mem w))) +
    Z.of_nat (size (todo (w_aux w))) ≤ Z.of_nat (S (calls (w_aux w))))%Z;
  i_limit : calls (w_aux w) ≤ g_now (w_gh w) ∧ (Z.of_nat (calls (w_aux w)) ≤ 2 ^ 62)%Z;
  i_gone : ∀ u, g_thr (w_gh w) !! u = None →
    cur (w_aux w) !! u = None ∧ u ∉ todo (w_aux w)
}.

(** ** What the others respect *)

Definition registered u w : Prop := ∃ l, announce (w_mem w) !! u = Some (Some l).

Record R (t : nat) w w' : Prop := {
  r_chain : chain (w_aux w) `prefix_of` chain (w_aux w');
  r_node : ∀ l nd, heap (w_mem w) !! l = Some nd → ∃ nd', heap (w_mem w') !! l = Some nd' ∧
    op nd' = op nd ∧ (seq nd ≠ 0%Z → seq nd' = seq nd) ∧ (is_Some (res nd) → res nd' = res nd);
  r_own : ∀ c u, own (w_aux w) !! c = Some u → own (w_aux w') !! c = Some u;
  r_cur : cur (w_aux w') !! t = cur (w_aux w) !! t;
  r_since : since (w_aux w') !! t = since (w_aux w) !! t;
  r_announced : ∀ u c A, cur (w_aux w') !! u = Some c → since (w_aux w') !! u = Some A →
    (cur (w_aux w) !! u = Some c ∧ since (w_aux w) !! u = Some A) ∨
    length (chain (w_aux w)) ≤ A;
  r_slot : registered t w → head (w_mem w') !! t = head (w_mem w) !! t ∧
    announce (w_mem w') !! t = announce (w_mem w) !! t;
  r_registered : ∀ u, registered u w → registered u w';
  r_floor : ∀ u, floor_of u w ≤ floor_of u w' ∧ (u = t → floor_of u w' = floor_of u w);
  r_reg : ∀ i, reg (w_aux w) !! i = Some t → reg (w_aux w') !! i = Some t ∧
    (announce (w_mem w) !! i = Some None →
     announce (w_mem w') !! i = Some None ∧ head (w_mem w') !! i = head (w_mem w) !! i);
  r_pub : pub (w_aux w) ⊆ pub (w_aux w') ∧
    ∀ c, own (w_aux w) !! c = Some t → c ∈ pub (w_aux w') → c ∈ pub (w_aux w);
  r_behind : ∀ q, q ≤ length (chain (w_aux w)) → behind q w' ⊆ behind q w ∧
    (anchor (w_mem w') = anchor (w_mem w) ∨
     (∃ k l r, anchor (w_mem w') = Some l ∧ at_pos k l r w' ∧ q ≤ k) ∨
     behind q w' ⊂ behind q w);
  r_todo : t ∈ todo (w_aux w') ↔ t ∈ todo (w_aux w);
  r_helped : helped t (w_gh w) (w_gh w');
  r_quiet : cur (w_aux w) !! t = None → quiet t (w_gh w) (w_gh w')
}.

Lemma prefix_at_pos k l r w w' :
  chain (w_aux w) `prefix_of` chain (w_aux w') → at_pos k l r w → at_pos k l r w'.
Proof. intros Hp. by apply prefix_lookup_Some'. Qed.

Lemma R_behind_trans w1 w2 w3 q :
  chain (w_aux w2) `prefix_of` chain (w_aux w3) →
  behind q w2 ⊆ behind q w1 ∧
    (anchor (w_mem w2) = anchor (w_mem w1) ∨
     (∃ k l r, anchor (w_mem w2) = Some l ∧ at_pos k l r w2 ∧ q ≤ k) ∨
     behind q w2 ⊂ behind q w1) →
  behind q w3 ⊆ behind q w2 ∧
    (anchor (w_mem w3) = anchor (w_mem w2) ∨
     (∃ k l r, anchor (w_mem w3) = Some l ∧ at_pos k l r w3 ∧ q ≤ k) ∨
     behind q w3 ⊂ behind q w2) →
  behind q w3 ⊆ behind q w1 ∧
    (anchor (w_mem w3) = anchor (w_mem w1) ∨
     (∃ k l r, anchor (w_mem w3) = Some l ∧ at_pos k l r w3 ∧ q ≤ k) ∨
     behind q w3 ⊂ behind q w1).
Proof.
  intros Hp [Hs1 H1] [Hs2 H2]. split; [by etrans|].
  destruct H2 as [H2|[H2|H2]]; [|by auto|right; right; by eapply strict_trans_l].
  destruct H1 as [H1|[(k & l & r & Ha & Hk & Hq)|H1]].
  - left. congruence.
  - right. left. exists k, l, r. rewrite H2. split; [done|].
    split; [by eapply prefix_at_pos|done].
  - right. right. by eapply strict_trans_r.
Qed.

Lemma universal_R_order t : PreOrder (R t).
Proof.
  split.
  - intros w. split; try done; try by auto.
    intros l nd Hl. by exists nd.
  - intros w1 w2 w3 HR1 HR2. split.
    + etrans; [apply (r_chain _ _ _ HR1)|apply (r_chain _ _ _ HR2)].
    + intros l nd1 Hl. destruct (r_node _ _ _ HR1 _ _ Hl) as (nd2 & Hl2 & Ho & Hs & Hr).
      destruct (r_node _ _ _ HR2 _ _ Hl2) as (nd3 & Hl3 & Ho' & Hs' & Hr').
      exists nd3. split; [done|]. split; [congruence|]. split.
      * intros H. rewrite Hs'; [by apply Hs|]. by rewrite Hs.
      * intros H. rewrite Hr'; [by apply Hr|]. by rewrite Hr.
    + intros c u H. by apply (r_own _ _ _ HR2), (r_own _ _ _ HR1).
    + by rewrite (r_cur _ _ _ HR2), (r_cur _ _ _ HR1).
    + by rewrite (r_since _ _ _ HR2), (r_since _ _ _ HR1).
    + intros u c A Hc Hs. pose proof (prefix_length _ _ (r_chain _ _ _ HR1)).
      destruct (r_announced _ _ _ HR2 _ _ _ Hc Hs) as [[Hc2 Hs2]|?]; [|right; lia].
      by apply (r_announced _ _ _ HR1).
    + intros Hreg. destruct (r_slot _ _ _ HR1 Hreg) as [<- <-].
      by apply (r_slot _ _ _ HR2), (r_registered _ _ _ HR1).
    + intros u H. by apply (r_registered _ _ _ HR2), (r_registered _ _ _ HR1).
    + intros u. destruct (r_floor _ _ _ HR1 u) as [? H1], (r_floor _ _ _ HR2 u) as [? H2].
      split; [lia|]. intros ->. rewrite H2, H1; done.
    + intros i Hi. destruct (r_reg _ _ _ HR1 i Hi) as [Hi2 Ha].
      destruct (r_reg _ _ _ HR2 i Hi2) as [? Ha']. split; [done|]. intros Hn.
      destruct (Ha Hn) as [Hn2 <-]. by apply Ha'.
    + destruct (r_pub _ _ _ HR1) as [? H1], (r_pub _ _ _ HR2) as [? H2].
      split; [by etrans|]. intros c Hc Hp. apply H1, H2; [done..| |done].
      by apply (r_own _ _ _ HR1).
    + intros q Hq. pose proof (prefix_length _ _ (r_chain _ _ _ HR1)).
      eapply R_behind_trans; [apply (r_chain _ _ _ HR2)|by apply (r_behind _ _ _ HR1)|].
      apply (r_behind _ _ _ HR2). lia.
    + by rewrite (r_todo _ _ _ HR2), (r_todo _ _ _ HR1).
    + etrans; [apply (r_helped _ _ _ HR1)|apply (r_helped _ _ _ HR2)].
    + intros Hc. etrans; [by apply (r_quiet _ _ _ HR1)|apply (r_quiet _ _ _ HR2)].
      by rewrite (r_cur _ _ _ HR1).
Qed.

End invariant.
End Universal.
