(* ===== verification/UniversalSteps.v ===== *)
(** The universal construction: what a goroutine knows, and the writes.

    Each fact is shown to survive the steps of the other goroutines, and each
    write of the code to keep the invariant of Universal.v. *)

From S2P Require Export Universal.
Import Universal.

Section steps.
Context {Arg Res Resp St : Type} (O : seq_object Arg Res Resp) (Sp : spec St Arg Resp).
Context (rep : Res → St → Prop) `{!Implements O Sp rep} (n : nat).
Abbreviation node := (node Arg Res).
Abbreviation mem := (mem Arg Res).
Abbreviation aux := (aux (Res:=Res)).
Abbreviation world := (world mem (uop Arg) (uresp Resp) aux).
Abbreviation USp := (uspec Sp n).
Abbreviation Inv := (Inv O Sp rep n).
Definition proto : protocol mem (uop Arg) (uresp Resp) aux :=
  Protocol Inv R universal_R_order.
Abbreviation rely := (pr_rely proto).
Implicit Types (w : world) (t u k q j : nat) (l c : loc) (r : Res) (a : Arg).

(** ** Positions *)

Lemma pos_inj k k' l r r' w : Inv w → at_pos k l r w → at_pos k' l r' w → k = k'.
Proof.
  intros HI Hk Hk'. eapply NoDup_lookup; [apply (i_nodup _ _ _ _ _ HI)|..];
    rewrite list_lookup_fmap; by rewrite ?Hk, ?Hk'.
Qed.

Lemma pos_fun k l l' r r' w : at_pos k l r w → at_pos k l' r' w → l = l' ∧ r = r'.
Proof. unfold at_pos. intros ? ?. by simplify_eq. Qed.

Lemma pos_lt k l r w : at_pos k l r w → k < length (chain (w_aux w)).
Proof. apply lookup_lt_Some. Qed.

Lemma pos_linked k l r w : at_pos k l r w → linked l w.
Proof. intros Hk. apply list_elem_of_fmap. exists (l, r). by split; [|eapply list_elem_of_lookup_2]. Qed.

Lemma taken_linked q l w : l ∈ (take q (chain (w_aux w))).*1 → linked l w.
Proof.
  intros Hl. unfold linked. rewrite <-(take_drop q (chain (w_aux w))), fmap_app.
  apply elem_of_app. by left.
Qed.

Lemma linked_pos l w : linked l w → ∃ k r, at_pos k l r w.
Proof.
  intros ([l' r] & -> & [k Hk]%list_elem_of_lookup)%list_elem_of_fmap. by exists k, r.
Qed.

Lemma pos_intro k w : k < length (chain (w_aux w)) → ∃ l r, at_pos k l r w.
Proof. intros [[l r] ?]%lookup_lt_is_Some. by exists l, r. Qed.

Lemma succ_at k w l : succ k w = Some l ↔ ∃ r, at_pos (S k) l r w.
Proof.
  unfold succ, at_pos. rewrite fmap_Some. split.
  - intros ([l' r] & ? & ->). eauto.
  - intros [r ?]. by exists (l, r).
Qed.

Lemma succ_end k w : succ k w = None ↔ length (chain (w_aux w)) ≤ S k.
Proof. unfold succ. by rewrite fmap_None, lookup_ge_None. Qed.

Lemma pos_heap k l r w : Inv w → at_pos k l r w → ∃ nd, heap (w_mem w) !! l = Some nd.
Proof. intros HI Hk. destruct (i_chain _ _ _ _ _ HI _ _ _ Hk) as (nd & ? & _). by exists nd. Qed.

Lemma own_heap c u w :
  Inv w → own (w_aux w) !! c = Some u → ∃ nd, heap (w_mem w) !! c = Some nd.
Proof.
  intros HI Hc. destruct (decide (linked c w)) as [Hl|Hl].
  - apply linked_pos in Hl as (k & r & Hk). by eapply pos_heap.
  - destruct (i_fresh _ _ _ _ _ HI _ _ Hc Hl) as (a & ? & _). eauto.
Qed.

(** A node before the end of the chain is numbered. *)
Lemma pos_numbered k l r w :
  Inv w → at_pos k l r w → k = 0 ∨ S k < length (chain (w_aux w)) → numbered k l r w.
Proof.
  intros HI Hk Hlt. split; [done|].
  destruct (i_chain _ _ _ _ _ HI _ _ _ Hk) as (nd & ? & _ & [(_ & _ & ? & ?)|[? ?]]);
    [lia|by exists nd].
Qed.

(** A node with a number other than zero is in the chain. *)
Lemma seq_numbered l nd w :
  Inv w → heap (w_mem w) !! l = Some nd → seq nd ≠ 0%Z →
  (∃ u, own (w_aux w) !! l = Some u) ∨ linked l w → ∃ k r, numbered k l r w.
Proof.
  intros HI Hl Hs Ho. destruct (decide (linked l w)) as [Hk|Hk].
  - apply linked_pos in Hk as (k & r & Hk). exists k, r. split; [done|].
    destruct (i_chain _ _ _ _ _ HI _ _ _ Hk) as (nd' & ? & _ & [(? & _)|[? ?]]);
      simplify_eq; eauto.
  - destruct Ho as [[u Ho]|?]; [|done].
    destruct (i_fresh _ _ _ _ _ HI _ _ Ho Hk) as (a & ? & _). by simplify_eq.
Qed.

(** ** Facts of a goroutine, and that the others respect them *)

(** The operation of [t] is under way and has not allocated. *)
Definition ready t (o : uop Arg) w : Prop :=
  pending (w_gh w) t o ∧ cur (w_aux w) !! t = None ∧ t ∈ todo (w_aux w).

(** The operation node of [t] is [c]. *)
Definition active t c a w : Prop :=
  own (w_aux w) !! c = Some t ∧ cur (w_aux w) !! t = Some c ∧ op_at c a w ∧
  registered t w ∧ t ∉ todo (w_aux w).

(** It is not announced, so nobody links it. *)
Definition private t c w : Prop := c ∉ pub (w_aux w).

(** It was announced when the chain had length [A]. *)
Definition announced t c A w : Prop :=
  announce (w_mem w) !! t = Some (Some c) ∧ since (w_aux w) !! t = Some A ∧
  A ≤ length (chain (w_aux w)) ∧ c ∈ pub (w_aux w).

(** The cursor of [t] is at position [k]. *)
Definition cursor_at t k l r w : Prop :=
  registered t w ∧ head (w_mem w) !! t = Some (Some l) ∧ numbered k l r w ∧
  floor_of t w ≤ k.

(** The operation of [t] is complete with response [rs] and [t] owns no node. *)
Definition complete t (rs : uresp Resp) w : Prop :=
  finished (w_gh w) t rs ∧ t ∉ todo (w_aux w).

(** [t] registers handle [i]. *)
Definition registering t i w : Prop :=
  reg (w_aux w) !! i = Some t ∧ announce (w_mem w) !! i = Some None.

(** [c] is not in a chain of length [S j], or no longer of that length. *)
Definition unlinked j c w : Prop :=
  length (chain (w_aux w)) = S j → ¬ linked c w.

Section stability.
Context (t : nat) (w w' : world) (HR : rely t w w').

Lemma rely_chain_len : length (chain (w_aux w)) ≤ length (chain (w_aux w')).
Proof. apply prefix_length, (r_chain _ _ _ HR). Qed.

Lemma pos_stable k l r : at_pos k l r w → at_pos k l r w'.
Proof. apply prefix_at_pos, (r_chain _ _ _ HR). Qed.

Lemma op_at_stable l a : op_at l a w → op_at l a w'.
Proof.
  intros (nd & Hl & <-). destruct (r_node _ _ _ HR _ _ Hl) as (nd' & ? & ? & _).
  by exists nd'.
Qed.

Lemma numbered_stable k l r : numbered k l r w → numbered k l r w'.
Proof.
  intros (Hk & nd & Hl & Hs & Hr). split; [by apply pos_stable|].
  destruct (r_node _ _ _ HR _ _ Hl) as (nd' & ? & _ & Hs' & Hr'). exists nd'.
  split; [done|]. rewrite Hs', Hr'; [done|..]; rewrite ?Hs, ?Hr; [done|lia].
Qed.

Lemma uni_ready_stable o : ready t o w → ready t o w'.
Proof.
  unfold ready. intros (Hp & Hc & Ht). split; [eapply pending_quiet; [done|by apply (r_quiet _ _ _ HR)]|].
  rewrite (r_cur _ _ _ HR). split; [done|]. by apply (r_todo _ _ _ HR).
Qed.

Lemma active_stable c a : active t c a w → active t c a w'.
Proof.
  unfold active. intros (Ho & Hc & Ha & Hr & Ht). split; [by apply (r_own _ _ _ HR)|].
  rewrite (r_cur _ _ _ HR). split; [done|]. split; [by apply op_at_stable|].
  split; [by apply (r_registered _ _ _ HR)|]. by rewrite (r_todo _ _ _ HR).
Qed.

Lemma uni_private_stable c : own (w_aux w) !! c = Some t → private t c w → private t c w'.
Proof. intros Ho Hp Hp'. by apply Hp, (proj2 (r_pub _ _ _ HR)). Qed.

Lemma announced_stable c A : announced t c A w → announced t c A w'.
Proof.
  unfold announced. intros (Ha & Hs & HA & Hp). assert (registered t w) as Hreg by by exists c.
  destruct (r_slot _ _ _ HR Hreg) as [_ ->]. rewrite (r_since _ _ _ HR).
  pose proof rely_chain_len. split; [done|]. split; [done|]. split; [lia|].
  by apply (proj1 (r_pub _ _ _ HR)).
Qed.

Lemma cursor_at_stable k l r : cursor_at t k l r w → cursor_at t k l r w'.
Proof.
  unfold cursor_at. intros (Hreg & Hh & Hk & Hf). destruct (r_slot _ _ _ HR Hreg) as [-> _].
  split; [by apply (r_registered _ _ _ HR)|]. split; [done|].
  split; [by apply numbered_stable|].
  by rewrite (proj2 (r_floor _ _ _ HR t)) by done.
Qed.

Lemma complete_stable rs : complete t rs w → complete t rs w'.
Proof.
  unfold complete. intros [Hf Ht]. split; [eapply finished_helped; [done|apply (r_helped _ _ _ HR)]|].
  by rewrite (r_todo _ _ _ HR).
Qed.

Lemma registering_stable i : registering t i w → registering t i w'.
Proof. intros [Hr Ha]. destruct (r_reg _ _ _ HR i Hr) as [? H]. split; [done|by apply H]. Qed.

Lemma unlinked_stable j c :
  j < length (chain (w_aux w)) → unlinked j c w → unlinked j c w'.
Proof.
  intros Hj Hu Hlen. destruct (r_chain _ _ _ HR) as [ch Hch].
  assert (ch = []) as ->.
  { apply length_zero_iff_nil. rewrite Hch, length_app in Hlen. lia. }
  rewrite app_nil_r in Hch. unfold unlinked, linked in *. rewrite Hch in *. by apply Hu.
Qed.
End stability.

(** ** The writes of the code keep the invariant *)

Lemma behind_same q w w' :
  chain (w_aux w') = chain (w_aux w) → cur (w_aux w') = cur (w_aux w) →
  behind q w' = behind q w.
Proof. intros Hc Hu. unfold behind. by rewrite Hc, Hu. Qed.

(** A step that changes only the memory, as the goroutine [u] sees it. *)
Lemma rely_mem u w (m : mem) :
  let w' := upd USp w m [] (w_aux w) in
  (∀ l nd, heap (w_mem w) !! l = Some nd → ∃ nd', heap m !! l = Some nd' ∧
    op nd' = op nd ∧ (seq nd ≠ 0%Z → seq nd' = seq nd) ∧
    (is_Some (res nd) → res nd' = res nd)) →
  (registered u w → head m !! u = head (w_mem w) !! u ∧
                    announce m !! u = announce (w_mem w) !! u) →
  (∀ v, registered v w → registered v w') →
  (∀ i, reg (w_aux w) !! i = Some u → announce (w_mem w) !! i = Some None →
    announce m !! i = Some None ∧ head m !! i = head (w_mem w) !! i) →
  anchor m = anchor (w_mem w) → R u w w'.
Proof.
  intros w' Hnode Hslot Hreg Hi Ha. split; simpl; try done; try by auto.
Qed.

Lemma same_nodes w : ∀ l nd, heap (w_mem w) !! l = Some nd →
  ∃ nd', heap (w_mem w) !! l = Some nd' ∧ op nd' = op nd ∧
    (seq nd ≠ 0%Z → seq nd' = seq nd) ∧ (is_Some (res nd) → res nd' = res nd).
Proof. intros l nd Hl. by exists nd. Qed.

(** [head[tid].Store(l)] at a numbered node that is not behind the floor. *)
Lemma head_step t k l r w :
  Inv w → registered t w → numbered k l r w → floor_of t w ≤ k →
  let w' := upd USp w (f_set head_f (<[t := Some l]> (head (w_mem w))) (w_mem w)) []
              (w_aux w) in
  good_step proto t w w' ∧ cursor_at t k l r w'.
Proof.
  intros HI Hreg Hk Hf w'. pose proof Hreg as [l0 Hl0].
  assert (t < length (head (w_mem w))) as Hlt.
  { rewrite (i_len_head _ _ _ _ _ HI), <-(i_len_ann _ _ _ _ _ HI).
    by eapply lookup_lt_Some. }
  split; [split|].
  - split; simpl; try apply HI.
    + rewrite length_insert. apply HI.
    + intros i p [(<- & <- & _)|[Hne Hp]]%list_lookup_insert_Some; [by exists k, r|].
      by apply (i_head _ _ _ _ _ HI).
  - intros u Hu. apply rely_mem; simpl; [apply same_nodes|..|done].
    + intros _. by rewrite list_lookup_insert_ne by done.
    + by intros v [l' ?]; exists l'.
    + intros i Hi Hn. split; [done|]. apply list_lookup_insert_ne. intros ->. congruence.
  - split; [done|]. simpl. rewrite list_lookup_insert_eq by done. by split.
Qed.

(** The stores of [Handle] into the slot that it registers. *)
Lemma register_head t i k l r w :
  Inv w → registering t i w → numbered k l r w →
  let w' := upd USp w (f_set head_f (<[i := Some l]> (head (w_mem w))) (w_mem w)) []
              (w_aux w) in
  good_step proto t w w' ∧ registering t i w' ∧ head (w_mem w') !! i = Some (Some l).
Proof.
  intros HI [Hr Ha] Hk w'.
  assert (i < length (head (w_mem w))) as Hlt.
  { rewrite (i_len_head _ _ _ _ _ HI), <-(i_len_ann _ _ _ _ _ HI).
    by eapply lookup_lt_Some. }
  split; [split|split; [by split|by apply list_lookup_insert_eq]].
  - split; simpl; try apply HI.
    + rewrite length_insert. apply HI.
    + intros i' p [(<- & <- & _)|[Hne Hp]]%list_lookup_insert_Some.
      * exists k, r. split; [done|]. apply Nat.le_trans with 0; [|lia].
        by apply Nat.eq_le_incl, (i_unreg _ _ _ _ _ HI).
      * by apply (i_head _ _ _ _ _ HI).
  - intros u Hu. apply rely_mem; simpl; [apply same_nodes|..|done].
    + intros [l' Hl']. split; [|done]. apply list_lookup_insert_ne. intros ->. congruence.
    + by intros v [l' ?]; exists l'.
    + intros j Hj Hn. split; [done|]. apply list_lookup_insert_ne. intros ->. congruence.
Qed.

Lemma register_announce t i k l r w :
  Inv w → registering t i w → head (w_mem w) !! i = Some (Some l) → numbered k l r w →
  good_step proto t w
    (upd USp w (f_set announce_f (<[i := Some l]> (announce (w_mem w))) (w_mem w)) []
       (w_aux w)).
Proof.
  intros HI [Hr Ha] Hh Hk.
  pose proof (lookup_lt_Some _ _ _ Ha) as Hlt.
  split.
  - split; simpl; try apply HI.
    + rewrite length_insert. apply HI.
    + intros j p Hp. pose proof (i_head _ _ _ _ _ HI j p Hp) as Hi. destruct p; [done|].
      rewrite list_lookup_insert_ne; [done|]. intros ->. congruence.
    + intros j [(_ & ? & _)|[_ Hj]]%list_lookup_insert_Some; [done|].
      by apply (i_unreg _ _ _ _ _ HI).
    + intros j c [(<- & [= <-] & _)|[_ Hj]]%list_lookup_insert_Some; [right; by exists k, r|].
      by apply (i_ann _ _ _ _ _ HI).
    + intros u A Hs. destruct (i_since _ _ _ _ _ HI _ _ Hs) as (c & ? & ? & ?).
      exists c. rewrite list_lookup_insert_ne; [done|]. intros ->. congruence.
    + intros j c [(<- & [= <-] & _)|[_ Hj]]%list_lookup_insert_Some Ho.
      * apply (i_pub _ _ _ _ _ HI _ _ Ho). eapply pos_linked, Hk.
      * by apply (i_ann_pub _ _ _ _ _ HI j).
    + intros j Hj. destruct (i_reg _ _ _ _ _ HI j Hj) as [? Hn]. split; [done|].
      intros c [(<- & _)|[_ ?]]%list_lookup_insert_Some; [congruence|by eapply Hn].
  - intros u Hu. apply rely_mem; simpl; [apply same_nodes|..|done].
    + intros [l' Hl']. split; [done|]. apply list_lookup_insert_ne. intros ->. congruence.
    + intros v [l' Hl']. destruct (decide (v = i)) as [->|Hne].
      * exists l. by apply list_lookup_insert_eq.
      * exists l'. simpl. by rewrite list_lookup_insert_ne by done.
    + intros j Hj Hn. split; [|done]. rewrite list_lookup_insert_ne; [done|].
      intros ->. congruence.
Qed.

(** [announce[tid].Store(mine)]: from now on the others help. *)
Lemma announce_step t c a w :
  Inv w → active t c a w → private t c w →
  let x := w_aux w in
  let w' := upd USp w (f_set announce_f (<[t := Some c]> (announce (w_mem w))) (w_mem w)) []
              (Aux (chain x) (own x) (cur x) (<[t := length (chain x)]> (since x))
                 ({[c]} ∪ pub x) (floor x) (reg x) (todo x) (calls x)) in
  good_step proto t w w' ∧ active t c a w' ∧ announced t c (length (chain x)) w'.
Proof.
  intros HI Hact Hpriv x w'. subst x. pose proof Hact as (Ho & Hc & Ha & [l0 Hl0] & Ht).
  pose proof (lookup_lt_Some _ _ _ Hl0) as Hlt.
  assert (¬ linked c w) as Hnl by (intros Hl; by apply Hpriv, (i_pub _ _ _ _ _ HI _ _ Ho)).
  assert (∀ v, registered v w → registered v w') as Hmono.
  { intros v [l' Hl']. destruct (decide (v = t)) as [->|Hne].
    - exists c. by apply list_lookup_insert_eq.
    - exists l'. simpl. by rewrite list_lookup_insert_ne by done. }
  split; [split|split].
  - split; simpl; try apply HI.
    + rewrite length_insert. apply HI.
    + intros j p Hp. pose proof (i_head _ _ _ _ _ HI j p Hp) as Hi. destruct p; [done|].
      rewrite list_lookup_insert_ne; [done|]. intros <-. congruence.
    + intros j [(_ & ? & _)|[_ Hj]]%list_lookup_insert_Some; [done|].
      by apply (i_unreg _ _ _ _ _ HI).
    + intros j c' [(<- & [= <-] & _)|[_ Hj]]%list_lookup_insert_Some; [by left|].
      by apply (i_ann _ _ _ _ _ HI).
    + intros u A [[<- <-]|[Hne Hs]]%lookup_insert_Some.
      * exists c. split; [done|]. split; [by apply list_lookup_insert_eq|].
        split; [done|]. split; [|lia].
        intros q r Hq. destruct Hnl. exact (pos_linked q c r w Hq).
      * rewrite list_lookup_insert_ne by done. by apply (i_since _ _ _ _ _ HI).
    + intros c' u Hu. destruct (i_pub _ _ _ _ _ HI c' u Hu) as [H1 H2].
      split; [intros ?; apply elem_of_union; auto|].
      intros [->%elem_of_singleton|Hp]%elem_of_union Hcu.
      * simplify_eq. by rewrite lookup_insert_eq.
      * destruct (decide (u = t)) as [->|]; [by rewrite lookup_insert_eq|].
        rewrite lookup_insert_ne by done. by apply H2.
    + intros c' [->%elem_of_singleton|?]%elem_of_union; [by exists t|].
      by apply (i_pub_own _ _ _ _ _ HI).
    + intros j c' [(<- & [= <-] & _)|[_ Hj]]%list_lookup_insert_Some Hu; [set_solver|].
      apply elem_of_union. right. by apply (i_ann_pub _ _ _ _ _ HI j).
    + intros j Hj. destruct (i_reg _ _ _ _ _ HI j Hj) as [? Hn]. split; [done|].
      intros c' [(<- & _)|[_ ?]]%list_lookup_insert_Some; by eapply Hn.
  - intros u Hu. split; simpl; try done; try by auto.
    + apply same_nodes.
    + by rewrite lookup_insert_ne by done.
    + intros v c' A Hv [[<- <-]|[? ?]]%lookup_insert_Some; auto.
    + intros _. by rewrite list_lookup_insert_ne by done.
    + intros i Hi. split; [done|]. intros Hn. split; [|done].
      rewrite list_lookup_insert_ne; [done|]. intros ->. congruence.
    + split; [set_solver|]. intros c' Hc'. set_unfold. intros [->|?]; [congruence|done].
  - split; [done|]. split; [done|]. split; [done|]. split; [|done].
    apply Hmono. by exists l0.
  - split; [by apply list_lookup_insert_eq|]. split; [by apply lookup_insert_eq|].
    split; [done|]. set_solver.
Qed.

(** A write to the result or the number of a chain node, as [publish] does. *)
Lemma node_step t k l r nd nd' w :
  Inv w → at_pos k l r w → heap (w_mem w) !! l = Some nd → 0 < k →
  op nd' = op nd → next nd' = next nd → seq nd = 0%Z →
  (seq nd' = 0%Z ∨ seq nd' = Z.of_nat (S k)) → res nd' = Some r →
  (is_Some (res nd) → res nd' = res nd) →
  let w' := upd USp w (f_set heap_f (<[l := nd']> (heap (w_mem w))) (w_mem w)) []
              (w_aux w) in
  good_step proto t w w' ∧ ∀ u, R u w w'.
Proof.
  intros HI Hk Hl Hk0 Hop Hnx Hs Hs' Hr' Hres w'.
  destruct (i_chain _ _ _ _ _ HI _ _ _ Hk) as (nd0 & ? & Hn0 & [(_ & _ & Hend & _)|[? _]]);
    simplify_eq; [|lia].
  pose proof (lookup_lt_Some _ _ _ Hl) as Hlt.
  assert (∀ l0 nd0, heap (w_mem w) !! l0 = Some nd0 → ∃ nd1, heap (w_mem w') !! l0 = Some nd1 ∧
    op nd1 = op nd0 ∧ (seq nd0 ≠ 0%Z → seq nd1 = seq nd0) ∧
    (is_Some (res nd0) → res nd1 = res nd0)) as Hnode.
  { intros l0 nd0 Hl0. destruct (decide (l0 = l)) as [->|Hne].
    - simplify_eq. exists nd'. split; [by apply list_lookup_insert_eq|]. by rewrite Hs.
    - exists nd0. split; [|done]. simpl. by rewrite list_lookup_insert_ne by done. }
  assert (∀ l0 a0, op_at l0 a0 w' → op_at l0 a0 w) as Hop'.
  { intros l0 a0 (nd1 & [(<- & <- & _)|[_ H1]]%list_lookup_insert_Some & <-).
    - rewrite Hop. by exists nd.
    - by exists nd1. }
  assert (∀ u, R u w w') as HR by (intros u; by apply rely_mem).
  assert (∀ k l r, numbered k l r w → numbered k l r w') as Hnum
    by (intros k0 l1 r0; by apply (numbered_stable t), HR).
  split; [split|done].
  - split; simpl; try apply HI.
    + intros k0 l0 r0 Hk0'. destruct (decide (l0 = l)) as [->|Hne].
      * assert (k0 = k) as -> by by eapply pos_inj.
        destruct (pos_fun _ _ _ _ _ _ Hk Hk0') as [_ <-].
        exists nd'. split; [by apply list_lookup_insert_eq|]. split; [by rewrite Hnx|].
        destruct Hs'; [left|by right]. auto.
      * rewrite list_lookup_insert_ne by done. by apply (i_chain _ _ _ _ _ HI).
    + intros k1 l1 r1 l2 r2 a2 H1 H2 Ho. by apply (i_step _ _ _ _ _ HI k1 l1 r1 l2); auto.
    + intros c u Ho Hnl. destruct (i_fresh _ _ _ _ _ HI c u Ho Hnl) as (a & ? & ?).
      exists a. rewrite list_lookup_insert_ne; [done|]. intros ->.
      by apply Hnl, (pos_linked k _ r).
    + intros u c k1 r1 a1 Hu H1 Ho. by apply (i_done _ _ _ _ _ HI u c k1); auto.
    + intros i p Hp. pose proof (i_head _ _ _ _ _ HI i p Hp) as Hi. destruct p; [|done].
      destruct Hi as (k1 & r1 & ? & ?). exists k1, r1. auto.
    + intros i l1 Hi. destruct (i_ann _ _ _ _ _ HI i l1 Hi) as [?|(k1 & r1 & ?)]; [by left|].
      right. exists k1, r1. auto.
    + destruct (i_anchor _ _ _ _ _ HI) as (k1 & l1 & r1 & ? & ?). exists k1, l1, r1. auto.
    + rewrite length_insert. apply HI.
  - intros u _. apply HR.
Qed.

(** A call. *)
Lemma call_step t o w :
  Inv w → g_thr (w_gh w) !! t = None → (Z.of_nat (g_now (w_gh w)) < 2 ^ 62)%Z →
  let x := w_aux w in
  let w' := World (w_mem w) (g_call t (g_now (w_gh w)) o (w_gh w))
              (Aux (chain x) (own x) (cur x) (since x) (pub x) (floor x) (reg x)
                 ({[t]} ∪ todo x) (S (calls x))) in
  good_step proto t w w' ∧ ready t o w'.
Proof.
  intros HI Hnone Hlim x w'. subst x.
  destruct (i_gone _ _ _ _ _ HI _ Hnone) as [Hcur Htodo].
  destruct (i_limit _ _ _ _ _ HI) as [Hnow Hmax].
  split; [split|split; [apply pending_call|split; [done|set_solver]]].
  - split; try apply HI; simpl.
    + intros c u Ho Hnl. destruct (i_fresh _ _ _ _ _ HI _ _ Ho Hnl) as (a & ? & Hc & ?).
      exists a. split; [done|]. split; [done|]. eapply pending_quiet; [done|].
      apply quiet_call. congruence.
    + intros u c k r a Hc Hk Ha. eapply finished_quiet; [by eapply (i_done _ _ _ _ _ HI)|].
      apply quiet_call. congruence.
    + rewrite size_union, size_singleton by set_solver.
      pose proof (i_calls _ _ _ _ _ HI). lia.
    + lia.
    + intros u [? ?]%lookup_insert_None. destruct (i_gone _ _ _ _ _ HI u); [done|].
      split; [done|set_solver].
  - intros u Hu. split; simpl; try done; try by auto.
    + apply same_nodes.
    + set_solver.
    + by apply quiet_helped, quiet_call.
    + intros _. by apply quiet_call.
Qed.

Lemma own_lt c u w : Inv w → own (w_aux w) !! c = Some u → c < length (heap (w_mem w)).
Proof. intros HI Hc. destruct (own_heap _ _ _ HI Hc) as (nd & ?). by eapply lookup_lt_Some. Qed.

Lemma pos_heap_lt k l r w : Inv w → at_pos k l r w → l < length (heap (w_mem w)).
Proof. intros HI Hc. destruct (pos_heap _ _ _ _ HI Hc) as (nd & ?). by eapply lookup_lt_Some. Qed.

Lemma registered_lt t w : Inv w → registered t w → t < n.
Proof.
  intros HI [l Hl]. rewrite <-(i_len_ann _ _ _ _ _ HI). by eapply lookup_lt_Some.
Qed.

(** [apply] allocates its node. *)
Lemma alloc_step t a w :
  Inv w → ready t (UApply t a) w → registered t w →
  let x := w_aux w in
  let c := length (heap (w_mem w)) in
  let w' := upd USp w (f_set heap_f (heap (w_mem w) ++ [Node a None None 0]) (w_mem w)) []
              (Aux (chain x) (<[c := t]> (own x)) (<[t := c]> (cur x)) (since x) (pub x)
                 (floor x) (reg x) (todo x ∖ {[t]}) (calls x)) in
  good_step proto t w w' ∧ active t c a w' ∧ private t c w'.
Proof.
  intros HI (Hp & Hcur & Htodo) Hreg x c w'. subst x.
  assert (own (w_aux w) !! c = None) as Hfresh.
  { destruct (own (w_aux w) !! c) eqn:E; [|done]. apply (own_lt _ _ _ HI) in E. lia. }
  assert (∀ k l r, at_pos k l r w → l ≠ c) as Hne.
  { intros k l r Hk ->. apply (pos_heap_lt _ _ _ _ HI) in Hk. lia. }
  assert (¬ linked c w) as Hnl by (intros (k & r & Hk)%linked_pos; by eapply Hne).
  assert (∀ l nd, heap (w_mem w) !! l = Some nd → heap (w_mem w') !! l = Some nd) as Hheap
    by (intros; by apply lookup_snoc_l).
  assert (∀ l a0, l ≠ c → op_at l a0 w' → op_at l a0 w) as Hop.
  { intros l a0 Hl (nd & [?|[-> _]]%lookup_snoc_inv & ?); [by exists nd|done]. }
  assert (∀ k l r, numbered k l r w → numbered k l r w') as Hnum.
  { intros k l r (? & nd & ? & ?). split; [done|]. exists nd. auto. }
  split; [split|split].
  - split; try apply HI; simpl.
    + intros k l r Hk. destruct (i_chain _ _ _ _ _ HI _ _ _ Hk) as (nd & ? & ?).
      exists nd. split; [by apply lookup_snoc_l|done].
    + intros k l r l' r' a0 Hk Hk' Ho. apply (i_step _ _ _ _ _ HI k l r l'); try done.
      apply Hop; [by eapply Hne|done].
    + intros c' u [[<- <-]|[Hc' Ho]]%lookup_insert_Some Hnl'.
      * exists a. split; [apply lookup_snoc_eq|]. by rewrite lookup_insert_eq.
      * destruct (i_fresh _ _ _ _ _ HI c' u Ho Hnl') as (a0 & ? & ? & ?). exists a0.
        split; [by apply lookup_snoc_l|]. split; [|done].
        rewrite lookup_insert_ne; [done|]. intros ->. congruence.
    + intros u c' k r a0 [[<- <-]|[Hu Hc']]%lookup_insert_Some Hk Ho; [by destruct (Hne _ _ _ Hk)|].
      apply (i_done _ _ _ _ _ HI u c' k); try done. apply Hop; [by eapply Hne|done].
    + intros u c' [[<- <-]|[Hu Hc']]%lookup_insert_Some.
      * rewrite lookup_insert_eq. split; [done|]. by eapply registered_lt.
      * destruct (i_cur _ _ _ _ _ HI _ _ Hc') as [Ho ?]. split; [|done].
        rewrite lookup_insert_ne; [done|]. intros ->. congruence.
    + intros i p Hi. pose proof (i_head _ _ _ _ _ HI i p Hi) as H. destruct p; [|done].
      destruct H as (k & r & ? & ?). exists k, r. auto.
    + intros i l Hi. destruct (i_ann _ _ _ _ _ HI i l Hi) as [Ho|(k & r & ?)].
      * left. rewrite lookup_insert_ne; [done|]. intros <-. congruence.
      * right. exists k, r. auto.
    + destruct (i_anchor _ _ _ _ _ HI) as (k & l & r & ? & ?). exists k, l, r. auto.
    + intros u c' k r [[<- <-]|[Hu Hc']]%lookup_insert_Some Hk; [by destruct (Hne _ _ _ Hk)|].
      by apply (i_floor_cur _ _ _ _ _ HI u c' k r).
    + intros u A Hs. destruct (i_since _ _ _ _ _ HI _ _ Hs) as (c' & Hc' & ?).
      exists c'. split; [|done]. rewrite lookup_insert_ne; [done|]. intros <-. congruence.
    + intros c' u [[<- <-]|[Hc' Ho]]%lookup_insert_Some; [split; [done|]|].
      * intros Hpub. destruct (i_pub_own _ _ _ _ _ HI _ Hpub). congruence.
      * destruct (i_pub _ _ _ _ _ HI _ _ Ho) as [? H2]. split; [done|].
        intros ? [[<- <-]|[? ?]]%lookup_insert_Some; [done|by apply H2].
    + intros c' Hpub. rewrite lookup_insert_is_Some. destruct (decide (c = c')); [by left|].
      right. split; [done|]. by apply (i_pub_own _ _ _ _ _ HI).
    + intros i c' Hi [[<- <-]|[? Ho]]%lookup_insert_Some; [|by eapply (i_ann_pub _ _ _ _ _ HI)].
      destruct (i_ann _ _ _ _ _ HI _ _ Hi) as [?|(k & r & Hk & _)]; [congruence|].
      by destruct (Hne _ _ _ Hk).
    + rewrite length_app, size_difference, size_singleton by set_solver. simpl.
      pose proof (i_calls _ _ _ _ _ HI).
      assert (size (todo (w_aux w)) ≠ 0) by (rewrite size_non_empty_iff; set_solver). lia.
    + intros u Hu. destruct (i_gone _ _ _ _ _ HI u Hu). split; [|set_solver].
      rewrite lookup_insert_ne; [done|]. intros <-. destruct Hp as (? & ? & ? & _). congruence.
  - intros u Hu. split; simpl; try done; try by auto.
    + intros l nd Hl. exists nd. split; [by apply lookup_snoc_l|done].
    + intros c' v Hc'. rewrite lookup_insert_ne; [done|]. intros <-. congruence.
    + by rewrite lookup_insert_ne by done.
    + intros v c' A [[<- <-]|[? ?]]%lookup_insert_Some Hs; [|auto].
      destruct (i_since _ _ _ _ _ HI _ _ Hs) as (? & ? & _). congruence.
    + intros q _. split; [|by left]. apply map_subseteq_spec. intros v c'.
      unfold behind. rewrite !map_lookup_filter_Some. simpl. intros [[[<- <-]|[? ?]]%lookup_insert_Some Hin].
      * destruct Hnl. by eapply taken_linked.
      * done.
    + set_solver.
  - split; [by apply lookup_insert_eq|]. split; [by apply lookup_insert_eq|].
    split; [|split; [exact Hreg|set_solver]].
    exists (Node a None None 0). split; [apply lookup_snoc_eq|done].
  - intros Hpub. destruct (i_pub_own _ _ _ _ _ HI _ Hpub). congruence.
Qed.

(** The operation of [t] gives up its node: it moves the anchor, or returns. *)
Definition drop t (x : aux) : aux :=
  Aux (chain x) (own x) (delete t (cur x)) (delete t (since x)) (pub x) (floor x) (reg x)
    (todo x) (calls x).

Lemma drop_behind t q w w' :
  w_aux w' = drop t (w_aux w) → behind q w' ⊆ behind q w.
Proof.
  intros Hx. apply map_subseteq_spec. intros v c. unfold behind. rewrite Hx.
  rewrite !map_lookup_filter_Some. simpl. intros [[_ ?]%lookup_delete_Some ?]. done.
Qed.

(** The numbered node of an operation gives its response. *)
Lemma active_complete t c a k r w :
  Inv w → active t c a w → numbered k c r w → complete t (RApply (so_view O a r)) w.
Proof.
  intros HI (_ & Hc & Ha & _ & Ht) [Hk _]. split; [|done].
  by eapply (i_done _ _ _ _ _ HI).
Qed.

(** What dropping keeps of the invariant, in a world whose ghost log is [g] and
    whose anchor is [p]. *)
Lemma drop_inv t rs w g p :
  Inv w → complete t rs w →
  g_state USp g = g_state USp (w_gh w) → g_now (w_gh w) ≤ g_now g →
  (∀ u, u ≠ t → g_thr g !! u = g_thr (w_gh w) !! u) →
  g_log g = g_log (w_gh w) →
  (∃ k l r, p = Some l ∧ numbered k l r w) →
  Inv (World (f_set anchor_f p (w_mem w)) g (drop t (w_aux w))).
Proof.
  intros HI [(id & o & lo & Hfin) Ht] Hst Hnow Hthr Hlog Hp.
  assert (∀ u o, u ≠ t → pending (w_gh w) u o → pending g u o) as Hpend.
  { intros u o' Hu (? & ? & ?). unfold pending. rewrite Hthr, Hlog by done. eauto. }
  split; try apply HI; simpl.
  - unfold g_st. simpl. rewrite Hst. apply HI.
  - intros c u Ho Hnl. destruct (i_fresh _ _ _ _ _ HI _ _ Ho Hnl) as (a & ? & ? & Hpd).
    exists a. assert (u ≠ t).
    { intros ->. destruct Hpd as (? & ? & ? & _). congruence. }
    rewrite lookup_delete_ne by done. auto.
  - intros u c k r a [Hu Hc]%lookup_delete_Some Hk Ha. unfold finished.
    rewrite Hthr by done. by apply (i_done _ _ _ _ _ HI u c k).
  - intros u c [Hu Hc]%lookup_delete_Some. by apply (i_cur _ _ _ _ _ HI).
  - exact Hp.
  - intros u c k r [Hu Hc]%lookup_delete_Some. by apply (i_floor_cur _ _ _ _ _ HI).
  - intros u A [Hu Hs]%lookup_delete_Some.
    destruct (i_since _ _ _ _ _ HI _ _ Hs) as (c & ? & ?). exists c.
    by rewrite lookup_delete_ne by done.
  - intros c u Ho. destruct (i_pub _ _ _ _ _ HI _ _ Ho) as [? H2]. split; [done|].
    intros Hpub [Hu Hc]%lookup_delete_Some. rewrite lookup_delete_ne by done. by apply H2.
  - unfold g_st. simpl. rewrite Hst. apply HI.
  - destruct (i_limit _ _ _ _ _ HI). split; [lia|done].
  - intros u Hu. destruct (decide (u = t)) as [->|Hne]; [by rewrite lookup_delete_eq|].
    rewrite lookup_delete_ne by done. apply (i_gone _ _ _ _ _ HI). by rewrite <-Hthr.
Qed.

(** [anchor.CompareAndSwap(cur, n)] succeeds. *)
Lemma anchor_step t c a k r w :
  Inv w → active t c a w → numbered k c r w →
  let rs := RApply (so_view O a r) in
  let w' := upd USp w (f_set anchor_f (Some c) (w_mem w)) [] (drop t (w_aux w)) in
  good_step proto t w w' ∧ complete t rs w'.
Proof.
  intros HI Hact Hk rs w'. pose proof (active_complete _ _ _ _ _ _ HI Hact Hk) as Hdone.
  pose proof Hact as (Ho & Hc & _). split; [split|done].
  - eapply drop_inv; eauto.
  - intros u Hu. split; simpl; try done; try by auto.
    + apply same_nodes.
    + by rewrite lookup_delete_ne by done.
    + by rewrite lookup_delete_ne by done.
    + intros v c' A [_ ?]%lookup_delete_Some [_ ?]%lookup_delete_Some. auto.
    + intros q Hq. pose proof (drop_behind t q w w' eq_refl) as Hsub. split; [done|].
      right. destruct (decide (q ≤ k)) as [|Hgt]; [left; exists k, c, r; by destruct Hk|].
      right. split; [done|]. intros Hsup.
      assert (behind q w !! t = Some c) as Hin.
      { apply map_lookup_filter_Some. split; [done|]. simpl.
        apply list_elem_of_fmap. exists (c, r). split; [done|].
        apply list_elem_of_lookup_2 with k. rewrite lookup_take_lt by lia. apply Hk. }
      eapply lookup_weaken in Hin; [|exact Hsup].
      apply map_lookup_filter_Some in Hin as [Hin _]. simpl in Hin.
      by rewrite lookup_delete_eq in Hin.
Qed.

Lemma return_step t rs res w :
  Inv w → complete t rs w →
  good_step proto t w (World (w_mem w) (g_ret t res (w_gh w)) (drop t (w_aux w))).
Proof.
  intros HI Hdone. split.
  - assert (Inv (World (f_set anchor_f (anchor (w_mem w)) (w_mem w)) (g_ret t res (w_gh w))
      (drop t (w_aux w)))) as H; [|by destruct w as [[] ? ?]].
    eapply drop_inv; eauto.
    + simpl. lia.
    + intros u Hu. simpl. by rewrite lookup_delete_ne by done.
    + destruct (i_anchor _ _ _ _ _ HI) as (k & l & r & ? & ?). eauto.
  - intros u Hu. split; simpl; try done; try by auto.
    + apply same_nodes.
    + by rewrite lookup_delete_ne by done.
    + by rewrite lookup_delete_ne by done.
    + intros v c A [_ ?]%lookup_delete_Some [_ ?]%lookup_delete_Some. auto.
    + intros q Hq. split; [by eapply drop_behind|by left].
    + by apply quiet_helped, quiet_ret.
    + intros _. by apply quiet_ret.
Qed.

Lemma cursor_range w : Inv w → (0 <= cursor (w_mem w) <= 2 ^ 62)%Z.
Proof.
  intros HI. destruct (i_cursor _ _ _ _ _ HI). destruct (i_limit _ _ _ _ _ HI).
  pose proof (i_calls _ _ _ _ _ HI).
  assert (0 < length (heap (w_mem w))); [|lia].
  destruct (i_anchor _ _ _ _ _ HI) as (k & l & r & _ & Hk & _).
  apply (pos_heap_lt _ _ _ _ HI) in Hk. lia.
Qed.

Lemma chain_range w : Inv w → (Z.of_nat (length (chain (w_aux w))) <= 2 ^ 62 + 1)%Z.
Proof.
  intros HI. assert (length (chain (w_aux w)) ≤ length (heap (w_mem w))) as Hle.
  { rewrite <-(length_fmap fst), <-(length_seq (length (heap (w_mem w))) 0).
    apply submseteq_length, NoDup_submseteq; [apply HI|]. intros l Hl.
    apply linked_pos in Hl as (k & r & Hk). apply elem_of_seq.
    apply (pos_heap_lt _ _ _ _ HI) in Hk. lia. }
  pose proof (cursor_range _ HI). destruct (i_limit _ _ _ _ _ HI).
  pose proof (i_calls _ _ _ _ _ HI). lia.
Qed.

(** [cursor.Add(1)]: a [Handle] call takes effect and gets its number. *)
Lemma handle_step t w :
  Inv w → ready t UHandle w →
  let x := w_aux w in
  let id := cursor (w_mem w) in
  let rs := if bool_decide (id >= Z.of_nat n)%Z then RPanic else RHandle id in
  let w' := upd USp w (f_set cursor_f (id + 1)%Z (w_mem w)) [t]
              (Aux (chain x) (own x) (cur x) (since x) (pub x) (floor x)
                 (<[Z.to_nat id := t]> (reg x)) (todo x ∖ {[t]}) (calls x)) in
  good_step proto t w w' ∧ complete t rs w' ∧
  ((id < Z.of_nat n)%Z → registering t (Z.to_nat id) w').
Proof.
  intros HI (Hp & Hcur & Htodo) x id rs w'. subst x.
  destruct (cursor_range _ HI) as [Hge Hle]. fold id in Hge, Hle.
  destruct (i_cursor _ _ _ _ _ HI) as [Hst _]. fold id in Hst.
  destruct (i_reg _ _ _ _ _ HI (Z.to_nat id)) as [Hreg Hann]; [lia|].
  assert ((spec_step USp (g_state USp (w_gh w)) UHandle).2 = Some rs) as Hr
    by (unfold g_st in Hst; simpl; by rewrite <-Hst).
  destruct (lin1_pending USp _ _ _ _ Hp Hr) as (Hfin & Hst' & _ & Hdom).
  assert (∀ u, cur (w_aux w) !! u ≠ None → u ≠ t) as Hne by (intros u ? ->; done).
  split; [split|split].
  - split; try apply HI; simpl.
    + unfold g_st. simpl. rewrite Hst'. apply HI.
    + intros c u Ho Hnl. destruct (i_fresh _ _ _ _ _ HI _ _ Ho Hnl) as (a & ? & Hc & ?).
      exists a. split; [done|]. split; [done|]. eapply pending_quiet; [done|].
      apply quiet_lin1. intros <-. congruence.
    + intros u c k r a Hc Hk Ha.
      eapply finished_helped; [by eapply (i_done _ _ _ _ _ HI)|apply helped_lin1].
    + intros i Hi. destruct (i_reg _ _ _ _ _ HI i) as [? Hn]; [lia|]. split; [|done].
      rewrite lookup_insert_ne; [done|]. lia.
    + unfold g_st. simpl. rewrite Hst'. simpl. fold id. unfold g_st in Hst. rewrite <-Hst.
      split; [done|lia].
    + rewrite size_difference, size_singleton by set_solver.
      pose proof (i_calls _ _ _ _ _ HI). fold id in H.
      assert (size (todo (w_aux w)) ≠ 0) by (rewrite size_non_empty_iff; set_solver). lia.
    + destruct (i_limit _ _ _ _ _ HI). split; [|done].
      pose proof (lins_now USp [t] (w_gh w)) as E. simpl in E. lia.
    + intros u Hu. apply Hdom in Hu. destruct (i_gone _ _ _ _ _ HI u Hu).
      split; [done|set_solver].
  - intros u Hu. split; simpl; try done; try by auto.
    + apply same_nodes.
    + intros i Hi. split; [|by auto]. rewrite lookup_insert_ne; [done|].
      intros <-. congruence.
    + set_solver.
    + apply helped_lin1.
    + intros _. by apply quiet_lin1.
  - split; [exact Hfin|set_solver].
  - intros Hid. split; [apply lookup_insert_eq|]. simpl.
    destruct (lookup_lt_is_Some_2 (announce (w_mem w)) (Z.to_nat id)) as [[l|] Hl].
    + rewrite (i_len_ann _ _ _ _ _ HI). lia.
    + by destruct (Hann l).
    + done.
Qed.

(** ** The consensus step *)

(** Since participant [u] announced its node at length [A] of the chain, no
    position whose turn is [u] was decided without it; so there is at most one
    round of turns. *)
Lemma help_bound A L u :
  u < n → (∀ j, A ≤ j → S j < L → (j + 2) mod n ≠ u) → L ≤ A + n.
Proof.
  intros Hu Hno. destruct (decide (L ≤ A + n)) as [|Hgt]; [done|].
  (* the turn of [u] among positions A, ..., A + n - 1 *)
  set (d := (u + n - (A + 2) mod n) mod n).
  assert ((A + 2) mod n < n) as Hm by (apply Nat.mod_upper_bound; lia).
  assert (d < n) as Hd by (apply Nat.mod_upper_bound; lia).
  destruct (Hno (A + d)); [lia|lia|].
  replace (A + d + 2) with ((A + 2) + d) by lia.
  rewrite <-Nat.Div0.add_mod_idemp_l. unfold d. rewrite Nat.Div0.add_mod_idemp_r.
  replace ((A + 2) mod n + (u + n - (A + 2) mod n)) with (u + 1 * n) by lia.
  rewrite Nat.Div0.mod_add. by apply Nat.mod_small.
Qed.

(** The participant whose turn it is to follow position [j], if it announced its
    node before position [j] was decided, was seen to have announced [cand]. *)
Definition turn j (cand : option loc) w : Prop :=
  ∀ u c A, u = (j + 2) mod n → cur (w_aux w) !! u = Some c →
    since (w_aux w) !! u = Some A → A ≤ j → length (chain (w_aux w)) = S j →
    cand = Some c ∨ linked c w.

Lemma turn_stable t j cand w w' :
  rely t w w' → j < length (chain (w_aux w)) → turn j cand w → turn j cand w'.
Proof.
  intros HR Hj Hturn v c A Hv Hc Hs HA Hlen. pose proof (rely_chain_len _ _ _ HR).
  destruct (r_announced _ _ _ HR _ _ _ Hc Hs) as [[Hc' Hs']|]; [|lia].
  destruct (Hturn v c A) as [|Hl]; try done; [lia|by left|right].
  destruct (linked_pos _ _ Hl) as (k & r & Hk). eapply pos_linked. by eapply pos_stable.
Qed.

(** What [t] knows of the node [p] it proposes as the successor of position [j]:
    nobody links it there unnoticed, and it is the node of the participant whose
    turn it is, if that one announced in time. *)
Definition proposal j p w : Prop :=
  (∃ u, own (w_aux w) !! p = Some u) ∧ p ∈ pub (w_aux w) ∧ unlinked j p w ∧
  turn j (Some p) w.

Lemma proposal_stable t j p w w' :
  rely t w w' → j < length (chain (w_aux w)) → proposal j p w → proposal j p w'.
Proof.
  intros HR Hj ((u & Ho) & Hpub & Hun & Hturn). split.
  { exists u. by apply (r_own _ _ _ HR). }
  split; [by apply (proj1 (r_pub _ _ _ HR))|]. split; [by eapply unlinked_stable|].
  by eapply turn_stable.
Qed.

Lemma floor_of_insert t j w (x : aux) u :
  floor x = <[t := j]> (floor (w_aux w)) →
  floor_of u (World (w_mem w) (w_gh w) x) = if decide (u = t) then j else floor_of u w.
Proof.
  intros Hx. unfold floor_of. simpl. rewrite Hx, lookup_insert.
  destruct (decide (t = u)), (decide (u = t)); naive_solver.
Qed.

(** [before.next.CompareAndSwap(nil, prefer)] succeeds: the operation of
    participant [u], whose node is [p], takes effect. *)
Section link.
Context (t u j : nat) (l p mine : loc) (r r' : Res) (a a' : Arg) (nd : node) (w : world).
Context (HI : Inv w) (Hcursor : cursor_at t j l r w) (Hend : length (chain (w_aux w)) = S j).
Context (Hprop : proposal j p w) (Hact : active t mine a w) (Hmine : unlinked j mine w).
Context (Hl : heap (w_mem w) !! l = Some nd).
Context (Hp : heap (w_mem w) !! p = Some (Node a' None None 0)).
Context (Hown : own (w_aux w) !! p = Some u) (Hcur : cur (w_aux w) !! u = Some p).
Context (Hpend : pending (w_gh w) u (UApply u a')).
Context (Hcomp : so_compute O r a' = Some r').
Context (Hrep : rep r' (spec_step Sp (g_st Sp n w).1 a').1).
Context (Hview : (spec_step Sp (g_st Sp n w).1 a').2 = Some (so_view O a' r')).

Definition link_world : world :=
  let x := w_aux w in
  upd USp w (f_set heap_f (<[l := f_set next_f (Some p) nd]> (heap (w_mem w))) (w_mem w)) [u]
    (Aux (chain x ++ [(p, r')]) (own x) (cur x) (since x) (pub x) (<[t := j]> (floor x))
       (reg x) (todo x) (calls x)).

Lemma link_new : ¬ linked p w.
Proof. by apply (proj1 (proj2 (proj2 Hprop))). Qed.

Lemma link_at k l0 r0 :
  at_pos k l0 r0 link_world ↔ at_pos k l0 r0 w ∨ (k = S j ∧ l0 = p ∧ r0 = r').
Proof.
  unfold at_pos. simpl. rewrite lookup_snoc_inv, Hend. naive_solver.
Qed.

Lemma link_linked c : linked c link_world ↔ linked c w ∨ c = p.
Proof.
  unfold linked. simpl. rewrite fmap_app, elem_of_app. simpl. by rewrite list_elem_of_singleton.
Qed.

Lemma link_length : length (chain (w_aux link_world)) = S (S j).
Proof. simpl. rewrite length_app, Hend. simpl. lia. Qed.

Lemma link_heap l0 nd0 :
  heap (w_mem w) !! l0 = Some nd0 → ∃ nd1, heap (w_mem link_world) !! l0 = Some nd1 ∧
    op nd1 = op nd0 ∧ seq nd1 = seq nd0 ∧ res nd1 = res nd0.
Proof.
  intros H0. simpl. destruct (decide (l0 = l)) as [->|Hne].
  - simplify_eq. eexists. rewrite list_lookup_insert_eq by (by eapply lookup_lt_Some).
    split; [done|]. done.
  - rewrite list_lookup_insert_ne by done. by exists nd0.
Qed.

Lemma link_op_at l0 a0 : op_at l0 a0 link_world → op_at l0 a0 w.
Proof.
  intros (nd0 & [(<- & <- & _)|[_ H]]%list_lookup_insert_Some & <-).
  - by exists nd.
  - by exists nd0.
Qed.

Lemma link_numbered k l0 r0 : numbered k l0 r0 w → numbered k l0 r0 link_world.
Proof.
  intros (Hk & nd0 & H0 & ? & ?). split; [apply link_at; by left|].
  destruct (link_heap _ _ H0) as (nd1 & ? & _ & ? & ?). exists nd1.
  split; [done|]. split; congruence.
Qed.

(** The linearization point. *)
Lemma link_lp :
  finished (w_gh link_world) u (RApply (so_view O a' r')) ∧
  g_st Sp n link_world = ((spec_step Sp (g_st Sp n w).1 a').1, (g_st Sp n w).2) ∧
  ∀ v, g_thr (w_gh link_world) !! v = None ↔ g_thr (w_gh w) !! v = None.
Proof.
  assert ((spec_step USp (g_state USp (w_gh w)) (UApply u a')).2 =
    Some (RApply (so_view O a' r'))) as Hr.
  { unfold g_st in Hview. simpl. by rewrite Hview. }
  destruct (lin1_pending USp _ _ _ _ Hpend Hr) as (Hf & Hst & _ & Hdom).
  split; [exact Hf|]. split; [exact Hst|exact Hdom].
Qed.

Lemma link_floor v : floor_of v link_world = if decide (v = t) then j else floor_of v w.
Proof. by apply (floor_of_insert t j w). Qed.

Lemma link_node_pos k l0 r0 :
  at_pos k l0 r0 w → ∃ nd0, heap (w_mem link_world) !! l0 = Some nd0 ∧
    next nd0 = succ k link_world ∧ seq nd0 = Z.of_nat (S k) ∧ res nd0 = Some r0.
Proof.
  intros Hk. destruct Hcursor as (_ & _ & (Hj & ndj & Hlj & Hsj & Hrj) & _). simplify_eq.
  destruct (i_chain _ _ _ _ _ HI _ _ _ Hk) as (nd0 & H0 & Hn & Hs).
  unfold succ. simpl. destruct (decide (l0 = l)) as [->|Hne].
  - assert (k = j) as -> by by eapply pos_inj.
    destruct (pos_fun _ _ _ _ _ _ Hk Hj) as [_ ->].
    eexists. rewrite list_lookup_insert_eq by (by eapply lookup_lt_Some).
    split; [done|]. split; [|done]. simpl. by rewrite <-Hend, lookup_snoc_eq.
  - assert (k ≠ j) by (intros ->; by destruct (pos_fun _ _ _ _ _ _ Hk Hj)).
    pose proof (pos_lt _ _ _ _ Hk). exists nd0.
    rewrite list_lookup_insert_ne by done. split; [done|].
    rewrite lookup_app_l by lia. split; [done|].
    destruct Hs as [(_ & _ & ? & _)|?]; [lia|done].
Qed.

Lemma link_since v A :
  since (w_aux w) !! v = Some A → ∃ c,
    cur (w_aux w) !! v = Some c ∧ announce (w_mem w) !! v = Some (Some c) ∧
    A ≤ S (S j) ∧
    (∀ q r, at_pos q c r link_world → q ≤ A + n) ∧
    (¬ linked c link_world → ∀ i, A ≤ i → S i < S (S j) → (i + 2) mod n ≠ v).
Proof.
  intros Hs. destruct (i_since _ _ _ _ _ HI _ _ Hs) as (c & Hc & Ha & HA & Hq & Hno).
  exists c. split; [done|]. split; [done|]. split; [lia|]. split.
  - intros q r0 [Hk|(-> & -> & _)]%link_at; [by eapply Hq|].
    specialize (Hno link_new). destruct (i_cur _ _ _ _ _ HI _ _ Hc) as [_ Hvn].
    pose proof (help_bound A _ v Hvn Hno). lia.
  - rewrite link_linked. intros Hnl i Hi Hlt Heq.
    destruct (decide (i = j)) as [->|].
    + destruct Hprop as (_ & _ & _ & Hturn).
      destruct (Hturn v c A) as [|]; naive_solver.
    + apply (Hno ltac:(naive_solver) i); [done|lia|done].
Qed.

Lemma link_inv : Inv link_world.
Proof.
  destruct link_lp as (Hfin & Hst & Hdom). pose proof link_new as Hnew.
  destruct Hcursor as (Hreg & Hh & Hj & Hfl). destruct Hact as (Hmo & Hmc & _).
  split; try apply HI.
  - intros k l0 r0 [Hk|(-> & -> & ->)]%link_at.
    + destruct (link_node_pos _ _ _ Hk) as (nd0 & ? & ? & ?). eauto 10.
    + exists (Node a' None None 0). split.
      * simpl. rewrite list_lookup_insert_ne; [done|]. intros ->.
        by eapply Hnew, pos_linked, Hj.
      * rewrite link_length. split; [|left; split_and!; auto; lia].
        symmetry. apply succ_end. rewrite link_length. lia.
  - simpl. rewrite fmap_app. apply NoDup_app. split; [apply HI|].
    split; [|apply NoDup_singleton]. intros c Hc ->%list_elem_of_singleton. by apply Hnew.
  - intros k l1 r1 l2 r2 a2 [H1|(-> & _)]%link_at [H2|(Hk & -> & ->)]%link_at Ho%link_op_at.
    + by eapply (i_step _ _ _ _ _ HI).
    + simplify_eq. destruct (pos_fun _ _ _ _ _ _ H1 (proj1 Hj)) as [_ ->].
      destruct Ho as (nd2 & ? & <-). by simplify_eq.
    + apply pos_lt in H2. lia.
    + lia.
  - exists (S j), p, r'. rewrite Hst, link_length. split; [apply link_at; auto|done].
  - intros c v Ho Hnl. rewrite link_linked in Hnl.
    destruct (i_fresh _ _ _ _ _ HI c v Ho) as (a0 & Hc0 & Hcv & Hpv); [naive_solver|].
    exists a0. split; [|split; [done|]].
    + simpl. rewrite list_lookup_insert_ne; [done|]. intros ->.
      apply Hnl. left. eapply pos_linked, Hj.
    + eapply pending_quiet; [done|]. apply quiet_lin1. intros ->. naive_solver congruence.
  - intros v c k r0 a0 Hv [Hk|(-> & -> & ->)]%link_at Ho%link_op_at.
    + eapply finished_helped; [by eapply (i_done _ _ _ _ _ HI)|apply helped_lin1].
    + destruct (i_cur _ _ _ _ _ HI _ _ Hv). destruct Ho as (nd2 & ? & <-). simplify_eq. done.
  - intros i q Hi. pose proof (i_head _ _ _ _ _ HI i q Hi) as H. destruct q; [|done].
    rewrite link_floor. destruct (decide (i = t)) as [->|].
    + simpl in Hi. rewrite Hh in Hi. simplify_eq. exists j, r. split; [by apply link_numbered|done].
    + destruct H as (k & r0 & ? & ?). exists k, r0. split; [by apply link_numbered|done].
  - intros i Hi. rewrite link_floor. destruct (decide (i = t)) as [->|].
    + destruct Hreg as [? Hreg]. simpl in Hi. congruence.
    + by apply (i_unreg _ _ _ _ _ HI).
  - intros i l0 Hi. destruct (i_ann _ _ _ _ _ HI i l0 Hi) as [|(k & r0 & ?)]; [by left|].
    right. exists k, r0. by apply link_numbered.
  - destruct (i_anchor _ _ _ _ _ HI) as (k & l0 & r0 & ? & ?). exists k, l0, r0.
    split; [done|by apply link_numbered].
  - intros v. rewrite link_floor, link_length. pose proof (i_floor _ _ _ _ _ HI v).
    destruct (decide (v = t)); lia.
  - intros v c k r0 Hv Hk. rewrite link_floor. apply link_at in Hk as [Hk|(-> & -> & _)].
    + destruct (decide (v = t)) as [->|]; [|by apply (i_floor_cur _ _ _ _ _ HI v c k r0)].
      simpl in Hv. simplify_eq. destruct (Hmine Hend). by eapply pos_linked.
    + pose proof (i_floor _ _ _ _ _ HI v). destruct (decide (v = t)); lia.
  - right. exists t. rewrite link_floor, link_length, decide_True by done.
    split; [by eapply registered_lt|lia].
  - intros v A Hs. rewrite link_length. by apply link_since.
  - intros c v Ho. destruct (i_pub _ _ _ _ _ HI _ _ Ho) as [H1 H2]. split; [|done].
    intros [Hc| ->]%link_linked; [by apply H1|apply Hprop].
  - rewrite Hst. apply HI.
  - simpl. rewrite length_insert. apply HI.
  - destruct (i_limit _ _ _ _ _ HI). split; [|done].
    pose proof (lins_now USp [u] (w_gh w)) as E. simpl in E |- *. lia.
  - intros v Hv. apply (i_gone _ _ _ _ _ HI). by apply Hdom.
Qed.

Lemma link_rely v : v ≠ t → R v w link_world.
Proof.
  intros Hv. destruct Hcursor as (Hreg & Hh & Hj & Hfl).
  split; simpl; try done; try by auto.
  - apply prefix_snoc.
  - intros l0 nd0 H0. destruct (link_heap _ _ H0) as (nd1 & ? & ? & ? & ?). eauto 10.
  - intros x. rewrite link_floor. pose proof (i_floor _ _ _ _ _ HI x).
    destruct (decide (x = t)) as [->|]; [|done]. split; [lia|by intros <-].
  - intros q Hq. rewrite Hend in Hq.
    assert (behind q link_world = behind q w) as ->; [|by split; [|left]].
    unfold behind. simpl. by rewrite take_app_le by lia.
  - apply helped_lin1.
  - intros Hc. apply quiet_lin1. intros ->. congruence.
Qed.

(** What [t] knows afterwards. *)
Lemma link_active : active t mine a link_world.
Proof.
  destruct Hact as (? & ? & (nd0 & H0 & <-) & ? & ?). split; [done|]. split; [done|].
  split; [|done]. destruct (link_heap _ _ H0) as (nd1 & ? & ? & _). by exists nd1.
Qed.

Lemma link_announced A : announced t mine A w → announced t mine A link_world.
Proof.
  intros (? & ? & ? & ?). split; [done|]. split; [done|]. split; [|done].
  rewrite link_length. lia.
Qed.

Lemma link_cursor : cursor_at t j l r link_world.
Proof.
  destruct Hcursor as (? & ? & ? & ?). split; [done|]. split; [done|].
  split; [by apply link_numbered|]. rewrite link_floor. by rewrite decide_True.
Qed.

Lemma link_pos : at_pos (S j) p r' link_world.
Proof. apply link_at. auto. Qed.

Lemma link_step : good_step proto t w link_world.
Proof. split; [apply link_inv|apply link_rely]. Qed.
End link.
End steps.

#[export] Hint Resolve pos_stable op_at_stable numbered_stable uni_ready_stable
  active_stable uni_private_stable announced_stable cursor_at_stable complete_stable
  registering_stable unlinked_stable : lockfree.
