(* ===== verification/UniversalProof.v ===== *)
(** The universal construction is correct and wait-free.

    The proof rules of Logic.v applied to the code of Universal.v, with the
    writes of UniversalSteps.v; [universal_verified] is what the instances
    use. *)

From S2P Require Export UniversalSteps.
From Stdlib Require Import FunctionalExtensionality.
Import Universal.

Section proof.
Context {Arg Res Resp St : Type} (O : seq_object Arg Res Resp) (Sp : spec St Arg Resp).
Context (rep : Res → St → Prop) `{!Implements O Sp rep} (n : nat).
Abbreviation node := (node Arg Res).
Abbreviation mem := (mem Arg Res).
Abbreviation aux := (aux (Res:=Res)).
Abbreviation world := (world mem (uop Arg) (uresp Resp) aux).
Abbreviation USp := (uspec Sp n).
Abbreviation Inv := (Inv O Sp rep n).
Abbreviation proto := (proto O Sp rep n).
Abbreviation rely := (pr_rely proto).
Abbreviation turn := (turn n).
Abbreviation proposal := (proposal n).
Implicit Types (w : world) (t u k q j : nat) (l c : loc) (r : Res) (a : Arg).

(** The bound on the steps of an operation with [n] handles. *)
Definition advance_steps : nat := 5 * (n + 2).
Definition apply_steps : nat :=
  2 + (3 + 3 * n) + 1 + 15 * (n + 2) + 2 + 2 + advance_steps.
Abbreviation pg := (WaitFree apply_steps).
Abbreviation wp t := (Logic.wp USp proto pg t).

Lemma node_num k l r w :
  numbered k l r w → ∃ nd, heap (w_mem w) !! l = Some nd ∧ seq nd = Z.of_nat (S k) ∧
    res nd = Some r.
Proof. by intros (_ & nd & ?); exists nd. Qed.

(** A node whose number is still zero is not in a chain that ends with a
    numbered node. *)
Lemma seq0_unlinked j l r c nd w :
  Inv w → numbered j l r w → heap (w_mem w) !! c = Some nd → seq nd = 0%Z → unlinked j c w.
Proof.
  intros HI [Hj (ndj & Hlj & Hsj & _)] Hc Hs Hlen (k & rk & Hk)%linked_pos.
  destruct (i_chain _ _ _ _ _ HI _ _ _ Hk) as (ndk & ? & _ & [(_ & _ & Hend & _)|[? _]]);
    simplify_eq; [|lia].
  assert (k = j) as -> by lia. destruct (pos_fun _ _ _ _ _ _ Hk Hj) as [-> _].
  simplify_eq. lia.
Qed.

(** ** [maxFrontier] *)

(** The scan up to index [i], begun in world [w0]: the best node so far is at
    position [k], which is not behind the cursors scanned. *)
Definition scan t A m w0 (b : budget) (v : Z * option loc * Z) w : Prop :=
  ∃ i k l r, v = (Z.of_nat i, Some l, Z.of_nat (S k)) ∧ i ≤ n ∧
    b = Steps (1 + (3 * (n - i) + m)) ∧ rely t w0 w ∧ numbered k l r w ∧
    (floor_of t w ≤ k ∨ i ≤ t) ∧
    (A ≤ k + 2 ∨ ∃ x, i ≤ x < n ∧ A ≤ floor_of x w + 2).

Lemma scan_stable t A m w0 b v w w' :
  rely t w w' → scan t A m w0 b v w → scan t A m w0 b v w'.
Proof.
  intros HR (i & k & l & r & ? & ? & ? & HR0 & Hk & Hf & Hx). exists i, k, l, r.
  split; [done|]. split; [done|]. split; [done|]. split; [by etrans|].
  split; [by eapply numbered_stable|]. split.
  - by rewrite (proj2 (r_floor _ _ _ HR t)) by done.
  - destruct Hx as [?|(x & ? & ?)]; [by left|right; exists x].
    destruct (r_floor _ _ _ HR x). split; [done|lia].
Qed.

(** One slot of the scan. *)
Lemma scan_step t A m w0 i k l r p w :
  Inv w → i < n → rely t w0 w → numbered k l r w →
  (floor_of t w ≤ k ∨ i ≤ t) → (A ≤ k + 2 ∨ ∃ x, i ≤ x < n ∧ A ≤ floor_of x w + 2) →
  registered t w → head (w_mem w) !! i = Some p →
  match p with
  | None => scan t A m w0 (Steps (1 + (3 * (n - S i) + m)))
              (Z.of_nat (S i), Some l, Z.of_nat (S k)) w
  | Some l' => ∃ k' r', numbered k' l' r' w ∧
      if decide (k < k')
      then scan t A m w0 (Steps (1 + (3 * (n - S i) + m)))
             (Z.of_nat (S i), Some l', Z.of_nat (S k')) w
      else scan t A m w0 (Steps (1 + (3 * (n - S i) + m)))
             (Z.of_nat (S i), Some l, Z.of_nat (S k)) w
  end.
Proof.
  intros HI Hi HR Hk Hf Hx Hreg Hp. pose proof (i_head _ _ _ _ _ HI i p Hp) as Hh.
  destruct p as [l'|].
  - destruct Hh as (k' & r' & Hk' & Hf'). exists k', r'. split; [done|].
    case_decide as Hlt; [exists (S i), k', l', r'|exists (S i), k, l, r];
      (split; [done|]; split; [lia|]; split; [done|]; split; [done|]; split; [done|]).
    + split.
      * destruct Hf as [|]; [left; lia|]. destruct (decide (i = t)) as [->|]; [by left|].
        right. lia.
      * destruct Hx as [|(x & ? & ?)]; [left; lia|].
        destruct (decide (x = i)) as [->|]; [left; lia|right; exists x; lia].
    + split.
      * destruct Hf as [|]; [by left|]. destruct (decide (i = t)) as [->|]; [left; lia|].
        right. lia.
      * destruct Hx as [|(x & ? & ?)]; [by left|].
        destruct (decide (x = i)) as [->|]; [left; lia|right; exists x; lia].
  - pose proof (i_unreg _ _ _ _ _ HI i Hh) as H0. exists (S i), k, l, r.
    split; [done|]. split; [done|]. split; [done|]. split; [done|]. split; [done|]. split.
    + destruct Hf as [|]; [by left|]. right. enough (i ≠ t) by lia. intros ->.
      destruct Hreg. congruence.
    + destruct Hx as [|(x & ? & ?)]; [by left|].
      destruct (decide (x = i)) as [->|]; [left; lia|right; exists x; lia].
Qed.

Lemma wp_maxFrontier {t A m} Q w :
  registered t w → t < n →
  (A ≤ 2 ∨ ∃ x, x < n ∧ A ≤ floor_of x w + 2) →
  (∀ w' k l r, rely t w w' → numbered k l r w' → floor_of t w' ≤ k → A ≤ k + 2 →
     Q (Steps m) (Some l) w') →
  wp t Q (Steps (3 + (3 * n + m))) (maxFrontier n) w.
Proof.
  intros Hreg Htn Hlow HQ. wp_go wp_load as w1 HR1 HI1.
  destruct (i_anchor _ _ _ _ _ HI1) as (k & l & r & -> & Hk).
  wp_go wp_load_at as w2 HR2 HI2.
  pose proof (numbered_stable _ _ _ _ _ _ _ HR2 _ _ _ Hk) as Hk2.
  destruct (node_num _ _ _ _ Hk2) as (nd & Hnd & Hs & _). exists nd. split; [done|].
  rewrite Hs.
  apply (wp_loop USp proto pg t _ (scan t A m w)).
  - clear - HQ Hreg Htn. intros b v w1 (i & k & l & r & -> & Hi & -> & HR & Hk & Hf & Hx) HI1.
    eexists. split; [reflexivity|]. cbn beta iota.
    case_bool_decide as Hin.
    + replace (3 * (n - i) + m) with (2 + (1 + (3 * (n - S i) + m))) by lia.
      wp_go wp_load_idx as w2 HR2 HI2.
      assert (scan t A m w (Steps (1 + (3 * (n - i) + m)))
        (Z.of_nat i, Some l, Z.of_nat (S k)) w1) as Hscan by (exists i, k, l, r; auto 10).
      eapply scan_stable in Hscan; [|exact HR2].
      destruct Hscan as (i' & k' & l2 & r2 & [= ? <- ?] & _ & _ & HR' & Hk2 & Hf2 & Hx2).
      assert (i' = i) as -> by lia. assert (k' = k) as -> by lia.
      destruct (lookup_lt_is_Some_2 (head (w_mem w2)) i) as [p Hp];
        [rewrite (i_len_head _ _ _ _ _ HI2); lia|].
      exists p. split; [done|].
      assert (registered t w2) as Hreg2 by by apply (r_registered _ _ _ HR').
      pose proof (scan_step t A m w i k l r2 p w2 HI2 ltac:(lia) HR' Hk2 Hf2 Hx2 Hreg2 Hp)
        as Hstep.
      destruct p as [l'|].
      * destruct Hstep as (k' & r' & Hk' & Hstep).
        wp_go wp_load_at as w3 HR3 HI3.
        destruct (node_num _ _ _ _ (numbered_stable _ _ _ _ _ _ _ HR3 _ _ _ Hk'))
          as (nd & Hnd & Hs & _).
        exists nd. split; [done|]. rewrite Hs.
        replace (Z.of_nat i + 1)%Z with (Z.of_nat (S i)) by lia.
        case_bool_decide; destruct (decide (k < k')); try lia;
          apply wp_ret; intros w4 HR4 _; apply (scan_stable _ _ _ _ _ _ w2);
          [by etrans|exact Hstep|by etrans|exact Hstep].
      * apply wp_give_up with (1 + (3 * (n - S i) + m)); [lia|].
        replace (Z.of_nat i + 1)%Z with (Z.of_nat (S i)) by lia.
        apply wp_ret. intros w3 HR3 _. eapply scan_stable; [exact HR3|exact Hstep].
    + assert (i = n) as -> by lia. apply wp_give_up with m; [lia|].
      apply wp_ret. intros w2 HR2 _. apply wp_ret. intros w3 HR3 _.
      assert (rely t w1 w3) as HR13 by by etrans.
      apply (HQ _ k l r).
      * by etrans.
      * by eapply numbered_stable.
      * rewrite (proj2 (r_floor _ _ _ HR13 t)) by done. lia.
      * destruct Hx as [|(x & ? & ?)]; lia.
  - intros b v w3 w4 ? ?. by eapply scan_stable.
  - exists 0, k, l, r. split; [done|]. split; [lia|]. split; [f_equal; lia|].
    split; [by etrans|]. split; [done|]. split; [right; lia|].
    destruct Hlow as [?|(x & ? & ?)]; [left; lia|right].
    exists x. destruct (r_floor _ _ _ HR1 x), (r_floor _ _ _ HR2 x). lia.
Qed.

(** ** [publish] *)

(** The successor of position [k] has its result. *)
Definition resulted k l r w : Prop :=
  at_pos k l r w ∧ ∃ nd, heap (w_mem w) !! l = Some nd ∧ res nd = Some r.

Lemma resulted_stable t k l r w w' : rely t w w' → resulted k l r w → resulted k l r w'.
Proof.
  intros HR (Hk & nd & Hl & Hr). split; [by eapply pos_stable|].
  destruct (r_node _ _ _ HR _ _ Hl) as (nd' & ? & _ & _ & Hr'). exists nd'.
  split; [done|]. rewrite Hr'; [done|]. by rewrite Hr.
Qed.

(** [after.res.CompareAndSwap(nil, nr)] in any state: the result is there. *)
Lemma wp_set_result {A} {t m k l r} Q (c : bool → prog mem A) w :
  at_pos k l r w → 0 < k →
  (∀ b w', rely t w w' → resulted k l r w' → wp t Q (Steps m) (c b) w') →
  wp t Q (Steps (S m)) (Act (cas_nil_ptr heap_f (Some l) res_f r) c) w.
Proof.
  intros Hk Hk0 Hc. eapply wp_cas_nil_at; [reflexivity|]. intros w1 HR1 HI1.
  assert (at_pos k l r w1) as Hk1 by by eapply pos_stable.
  destruct (i_chain _ _ _ _ _ HI1 _ _ _ Hk1) as (nd & Hnd & Hn & Hs).
  exists nd. split; [done|]. cbn [f_get res_f]. split; intros Hr.
  - destruct Hs as [(Hs & _ & _)|[_ Hr']]; [|congruence].
    destruct (node_step O Sp rep n t k l r nd (f_set res_f (Some r) nd) w1)
      as [Hgood HR]; simpl; auto; [rewrite Hr; by intros []|].
    eexists [], _. split; [exact Hgood|]. apply Hc; [etrans; [exact HR1|apply HR]|].
    split; [done|]. eexists. cbn [upd w_mem f_set heap_f heap].
    split; [by rewrite list_lookup_insert_eq by (by eapply lookup_lt_Some)|done].
  - apply Hc; [done|]. split; [done|]. exists nd. split; [done|].
    destruct Hs as [(_ & [?|?] & _)|[_ ?]]; congruence.
Qed.

(** [after.seq.CompareAndSwap(0, before.seq + 1)]: the number is there. *)
Lemma wp_set_number {A} {t m k l r} Q (c : bool → prog mem A) w :
  resulted k l r w → 0 < k →
  (∀ b w', rely t w w' → numbered k l r w' → wp t Q (Steps m) (c b) w') →
  wp t Q (Steps (S m))
    (Act (cas_ptr heap_f (Some l) seq_f 0%Z (Z.of_nat (S k))) c) w.
Proof.
  intros Hk Hk0 Hc. wp_pure. eapply wp_cas_at; [reflexivity|]. intros w1 HR1 HI1.
  destruct (resulted_stable _ _ _ _ _ _ HR1 Hk) as (Hk1 & nd & Hnd & Hr).
  destruct (i_chain _ _ _ _ _ HI1 _ _ _ Hk1) as (nd' & ? & Hn & Hs).
  exists nd. split; [done|]. simplify_eq. cbn [f_get seq_f]. split; intros Hz.
  - destruct (node_step O Sp rep n t k l r nd (f_set seq_f (Z.of_nat (S k)) nd) w1)
      as [Hgood HR]; cbn [f_set seq_f op next res seq]; auto.
    eexists [], _. split; [exact Hgood|]. apply Hc; [etrans; [exact HR1|apply HR]|].
    split; [done|]. eexists. cbn [upd w_mem f_set heap_f heap].
    split; [by rewrite list_lookup_insert_eq by (by eapply lookup_lt_Some)|done].
  - apply Hc; [done|]. split; [done|]. exists nd. split; [done|].
    destruct Hs as [(? & _)|[? ?]]; [congruence|done].
Qed.

Lemma number_range w k : Inv w → k < length (chain (w_aux w)) → 
  i64 (Z.of_nat (S k) + 1) = Z.of_nat (S (S k)).
Proof.
  intros HI Hk. pose proof (chain_range _ _ _ _ _ HI). rewrite i64_small; lia.
Qed.

Lemma wp_publish {t m k l r l' r'} Q w :
  numbered k l r w → at_pos (S k) l' r' w →
  (∀ w', rely t w w' → numbered (S k) l' r' w' → Q (Steps m) tt w') →
  wp t Q (Steps (5 + m)) (publish O (Some l) (Some l')) w.
Proof.
  intros Hk Hk' HQ. wp_go wp_load_at as w1 HR1 HI1.
  pose proof (numbered_stable _ _ _ _ _ _ _ HR1 _ _ _ Hk) as Hk1.
  destruct (node_num _ _ _ _ Hk1) as (nd & Hnd & _ & Hr).
  exists nd. split; [done|]. rewrite Hr.
  wp_go wp_load_at as w2 HR2 HI2. assert (rely t w w2) as HR02 by by etrans.
  pose proof (numbered_stable _ _ _ _ _ _ _ HR02 _ _ _ Hk) as Hk2.
  pose proof (pos_stable _ _ _ _ _ _ _ HR02 _ _ _ Hk') as Hk2'.
  destruct (pos_heap _ _ _ _ _ _ _ _ HI2 Hk2') as (nd' & Hnd'). exists nd'. split; [done|].
  cbn [mbind option_bind].
  rewrite (i_step _ _ _ _ _ HI2 _ _ _ _ _ _ (proj1 Hk2) Hk2') by (by exists nd').
  eapply wp_set_result; [exact Hk2'|lia|]. intros _ w3 HR3 Hr3.
  wp_go wp_load_at as w4 HR4 HI4.
  assert (rely t w2 w4) as HR24 by by etrans.
  pose proof (numbered_stable _ _ _ _ _ _ _ HR24 _ _ _ Hk2) as Hk4.
  destruct (node_num _ _ _ _ Hk4) as (nd4 & Hnd4 & Hs4 & _). exists nd4.
  split; [done|]. rewrite Hs4. rewrite (number_range w4 k HI4) by by eapply pos_lt, Hk4.
  eapply wp_set_number; [exact (resulted_stable _ _ _ _ _ _ HR4 Hr3)|lia|]. intros _ w5 HR5 Hk5.
  apply wp_ret. intros w6 HR6 _. apply HQ; [|by eapply numbered_stable].
  etrans; [exact HR02|]. etrans; [exact HR24|]. by etrans.
Qed.

(** ** One round of the helping loop *)

(** What [t] knows during the round that decides the successor of position [j]. *)
Definition helping t mine a A j l r w : Prop :=
  active t mine a w ∧ announced t mine A w ∧ cursor_at t j l r w ∧ unlinked j mine w.

Lemma helping_stable t mine a A j l r w w' :
  rely t w w' → helping t mine a A j l r w → helping t mine a A j l r w'.
Proof.
  intros HR (Ha & Hn & Hc & Hu). split; [by eapply active_stable|].
  split; [by eapply announced_stable|]. split; [by eapply cursor_at_stable|].
  eapply unlinked_stable; [exact HR| |exact Hu]. eapply pos_lt, Hc.
Qed.

Lemma helping_lt t mine a A j l r w :
  helping t mine a A j l r w → j < length (chain (w_aux w)).
Proof. intros (_ & _ & (_ & _ & Hk & _) & _). eapply pos_lt, Hk. Qed.

(** Whose turn it is. *)
Lemma help_index w j :
  Inv w → j < length (chain (w_aux w)) → 0 < n →
  Z.rem (i64 (Z.of_nat (S j) + 1)) (Z.of_nat n) = Z.of_nat ((j + 2) mod n).
Proof.
  intros HI Hj Hn. rewrite (number_range w j HI Hj).
  rewrite Z.rem_mod_nonneg by lia. rewrite Nat2Z.inj_mod. f_equal. lia.
Qed.

(** Reading the announced node of the participant whose turn it is. *)
Lemma turn_now j cand w :
  Inv w → announce (w_mem w) !! ((j + 2) mod n) = Some cand → turn j cand w.
Proof.
  intros HI Ha u c A -> Hc Hs _ _.
  destruct (i_since _ _ _ _ _ HI _ _ Hs) as (c' & ? & ? & _). left. congruence.
Qed.

(** The choice of [prefer] is a proposal. *)
Lemma prefer_mine t mine a A j l r cand w :
  helping t mine a A j l r w → turn j cand w →
  (∀ c, cand = Some c → linked c w) → proposal j mine w.
Proof.
  intros ((Ho & _) & (_ & _ & _ & Hp) & _ & Hu) Hturn Hc.
  split; [by exists t|]. split; [done|]. split; [done|].
  intros u c A' Hu' Hcu Hs HA Hlen.
  destruct (Hturn u c A') as [->|]; try done; [right; by apply Hc|by right].
Qed.

Lemma prefer_cand j l r c nd w :
  Inv w → numbered j l r w → turn j (Some c) w → c ∈ pub (w_aux w) →
  heap (w_mem w) !! c = Some nd → seq nd = 0%Z → proposal j c w.
Proof.
  intros HI Hj Hturn Hp Hc Hs. split.
  { by apply (i_pub_own _ _ _ _ _ HI). }
  split; [done|]. split; [by eapply seq0_unlinked|done].
Qed.

(** [head[tid].Store(l)] of a node that is not behind the cursor. *)
Lemma wp_set_cursor {A} {t m k l r} Q (p : unit → prog mem A) w :
  registered t w → numbered k l r w → floor_of t w ≤ k →
  (∀ w', Inv w' → cursor_at t k l r w' → (∀ c a, active t c a w → active t c a w') →
     (∀ c A, announced t c A w → announced t c A w') → wp t Q (Steps m) (p tt) w') →
  wp t Q (Steps (S m)) (Act (store_idx head_f (Z.of_nat t) (Some l)) p) w.
Proof.
  intros Hreg Hk Hf Hp. eapply wp_store_idx; [reflexivity|]. intros w1 HR1 HI1.
  assert (registered t w1) as Hreg1 by by apply (r_registered _ _ _ HR1).
  split; [simpl; rewrite (i_len_head _ _ _ _ _ HI1);
    exact (registered_lt _ _ _ _ _ _ HI1 Hreg1)|].
  destruct (head_step O Sp rep n t k l r w1 HI1 Hreg1) as [Hgood Hcur].
  { by eapply numbered_stable. }
  { by rewrite (proj2 (r_floor _ _ _ HR1 t)) by done. }
  eexists [], _. split; [exact Hgood|]. apply Hp; [apply Hgood|exact Hcur|..].
  - intros c a Ha. exact (active_stable _ _ _ _ _ _ _ HR1 _ _ Ha).
  - intros c A' Hn. exact (announced_stable _ _ _ _ _ _ _ HR1 _ _ Hn).
Qed.

(** The end of the round: [after] is decided; publish it and move on. *)
Lemma wp_round_end {t mine a A j l r l' r' m} Q w :
  helping t mine a A j l r w → at_pos (S j) l' r' w →
  (∀ w', active t mine a w' → announced t mine A w' → cursor_at t (S j) l' r' w' →
     Q (Steps m) tt w') →
  wp t Q (Steps (8 + m))
    (let! after := act (load_ptr heap (Some l) next) in
     let! s := act (load_ptr heap after seq) in
     (if bool_decide (s = 0%Z) then publish O (Some l) after else Ret tt) ;;;
     act (store_idx head_f (Z.of_nat t) after)) w.
Proof.
  intros Hh Hk HQ. wp_go wp_load_at as w1 HR1 HI1.
  pose proof (helping_stable _ _ _ _ _ _ _ _ _ HR1 Hh) as Hh1.
  pose proof (pos_stable _ _ _ _ _ _ _ HR1 _ _ _ Hk) as Hk1.
  pose proof Hh1 as (_ & _ & (_ & _ & Hj1 & _) & _).
  destruct (i_chain _ _ _ _ _ HI1 _ _ _ (proj1 Hj1)) as (nd & Hnd & Hnx & _).
  exists nd. split; [done|].
  rewrite Hnx, (proj2 (succ_at j w1 l')) by by exists r'.
  wp_go wp_load_at as w2 HR2 HI2.
  pose proof (helping_stable _ _ _ _ _ _ _ _ _ HR2 Hh1) as Hh2.
  pose proof (pos_stable _ _ _ _ _ _ _ HR2 _ _ _ Hk1) as Hk2.
  destruct (i_chain _ _ _ _ _ HI2 _ _ _ Hk2) as (nd2 & Hnd2 & _ & Hs).
  exists nd2. split; [done|].
  assert (∀ w3, rely t w2 w3 → numbered (S j) l' r' w3 →
    wp t Q (Steps (S m)) (act (store_idx head_f (Z.of_nat t) (Some l'))) w3) as Hend.
  { intros w3 HR3 Hk3.
    destruct (helping_stable _ _ _ _ _ _ _ _ _ HR3 Hh2) as (Ha3 & Hn3 & Hc3 & _).
    unfold act. apply (wp_set_cursor (k := S j) (r := r')); [apply Ha3|done| |].
    - destruct Hc3 as (_ & _ & _ & ?). lia.
    - intros w4 _ Hc4 Ha4 Hn4. specialize (Ha4 _ _ Ha3). specialize (Hn4 _ _ Hn3).
      apply wp_ret. intros w5 HR5 _. apply HQ; eauto using active_stable,
        announced_stable, cursor_at_stable. }
  case_bool_decide as Hz.
  - apply wp_bind. eapply (wp_publish _ w2); [apply Hh2|exact Hk2|].
    intros w3 HR3 Hk3. by apply Hend.
  - apply wp_give_up with (S m); [lia|]. wp_pure. apply Hend; [reflexivity|].
    split; [done|]. exists nd2. destruct Hs as [[? _]|?]; done.
Qed.

(** [before.next.CompareAndSwap(nil, prefer)]: the successor is decided. *)
Lemma wp_decide {B} {t mine a A j l r p m} Q (c : bool → prog mem B) w :
  helping t mine a A j l r w → proposal j p w →
  (∀ b w' l' r', helping t mine a A j l r w' → at_pos (S j) l' r' w' →
     wp t Q (Steps m) (c b) w') →
  wp t Q (Steps (S m)) (Act (cas_ptr heap_f (Some l) next_f None (Some p)) c) w.
Proof.
  intros Hh Hp Hc. wp_pure. eapply wp_cas_at; [reflexivity|]. intros w1 HR1 HI1.
  assert (proposal j p w1) as Hp1.
  { eapply proposal_stable; [exact HR1|by eapply helping_lt|exact Hp]. }
  apply (helping_stable _ _ _ _ _ _ _ _ _ HR1) in Hh as Hh1. clear Hh Hp HR1.
  pose proof Hh1 as (Hact & Hann & Hcur & Hun). pose proof Hcur as (_ & _ & Hj & _).
  destruct (i_chain _ _ _ _ _ HI1 _ _ _ (proj1 Hj)) as (nd & Hnd & Hnx & _).
  exists nd. split; [done|]. cbn [f_get next_f]. rewrite Hnx. split; intros Hs.
  - apply succ_end in Hs. pose proof (pos_lt _ _ _ _ (proj1 Hj)).
    assert (length (chain (w_aux w1)) = S j) as Hend by lia.
    pose proof Hp1 as ((u & Hown) & _ & Hnew & _). specialize (Hnew Hend).
    destruct (i_fresh _ _ _ _ _ HI1 _ _ Hown Hnew) as (a' & Hpn & Hcu & Hpend).
    destruct (i_state _ _ _ _ _ HI1) as (k & lk & rk & Hk & Hke & Hrep).
    assert (k = j) as -> by lia. destruct (pos_fun _ _ _ _ _ _ Hk (proj1 Hj)) as [-> ->].
    destruct (im_step r (g_st Sp n w1).1 a' Hrep) as (r' & Hcomp & Hrep' & Hview).
    pose (w2 := link_world Sp n t u j l p r' nd w1).
    exists [u], (w_aux w2). split.
    + change (good_step proto t w1 w2). by eapply link_step.
    + change (wp t Q (Steps m) (c true) w2). apply (Hc true w2 p r').
      * split; [by eapply link_active|]. split; [by eapply link_announced|].
        split; [by eapply link_cursor|]. intros Hlen.
        pose proof (link_length Sp n t u j l p r' nd w1 Hend). subst w2. lia.
      * by eapply link_pos.
  - destruct (succ j w1) as [l'|] eqn:E; [|done]. apply succ_at in E as [r' Hk'].
    by eapply Hc.
Qed.

Lemma wp_round {t mine a A j l r m} Q w :
  helping t mine a A j l r w → 0 < n →
  (∀ w' l' r', active t mine a w' → announced t mine A w' →
     cursor_at t (S j) l' r' w' → Q (Steps m) tt w') →
  wp t Q (Steps (13 + m)) (round O n t mine) w.
Proof.
  intros Hh Hn HQ. wp_go wp_load_idx as w1 HR1 HI1.
  pose proof (helping_stable _ _ _ _ _ _ _ _ _ HR1 Hh) as Hh1.
  exists (Some l). split; [apply Hh1|].
  wp_go wp_load_at as w2 HR2 HI2.
  pose proof (helping_stable _ _ _ _ _ _ _ _ _ HR2 Hh1) as Hh2.
  pose proof Hh2 as (_ & _ & (_ & _ & Hj2 & _) & _).
  destruct (node_num _ _ _ _ Hj2) as (nd & Hnd & Hs & _). exists nd. split; [done|].
  rewrite Hs, (help_index w2 j HI2); [|by eapply helping_lt|done].
  wp_go wp_load_idx as w3 HR3 HI3.
  pose proof (helping_stable _ _ _ _ _ _ _ _ _ HR3 Hh2) as Hh3.
  destruct (lookup_lt_is_Some_2 (announce (w_mem w3)) ((j + 2) mod n)) as [cand Hcand].
  { rewrite (i_len_ann _ _ _ _ _ HI3). apply Nat.mod_upper_bound. lia. }
  exists cand. split; [done|].
  pose proof (turn_now _ _ _ HI3 Hcand) as Hturn.
  assert (∀ p w4, helping t mine a A j l r w4 → proposal j p w4 →
    wp t Q (Steps (9 + m))
      (Act (cas_ptr heap_f (Some l) next_f None (Some p)) (λ _,
        let! after := act (load_ptr heap (Some l) next) in
        let! s := act (load_ptr heap after seq) in
        (if bool_decide (s = 0%Z) then publish O (Some l) after else Ret tt) ;;;
        act (store_idx head_f (Z.of_nat t) after))) w4) as Hend.
  { intros p w4 Hh4 Hp4. eapply wp_decide; [exact Hh4|exact Hp4|].
    intros b w5 l' r' Hh5 Hk5. eapply wp_round_end; [exact Hh5|exact Hk5|]. eauto. }
  destruct cand as [c|].
  - assert (∃ nd, heap (w_mem w3) !! c = Some nd) as (ndc & Hndc).
    { destruct (i_ann _ _ _ _ _ HI3 _ _ Hcand) as [Ho|(k & rk & Hk)];
        [exact (own_heap _ _ _ _ _ _ _ HI3 Ho)|]. destruct Hk as (_ & ndc & ? & _). by exists ndc. }
    wp_go wp_load_at as w4 HR4 HI4.
    pose proof (helping_stable _ _ _ _ _ _ _ _ _ HR4 Hh3) as Hh4.
    destruct (r_node _ _ _ HR4 _ _ Hndc) as (ndc4 & Hndc4 & _). exists ndc4.
    split; [done|]. wp_pure.
    assert (turn j (Some c) w4) as Hturn4.
    { eapply turn_stable; [exact HR4|by eapply helping_lt|exact Hturn]. }
    apply Hend; [done|]. case_bool_decide as Hz.
    + eapply prefer_cand; [exact HI4|apply Hh4|exact Hturn4| |done|done].
      apply (proj1 (r_pub _ _ _ HR4)).
      destruct (i_ann _ _ _ _ _ HI3 _ _ Hcand) as [Ho|(k & rk & Hk)];
        [by eapply (i_ann_pub _ _ _ _ _ HI3)|].
      destruct (node_num _ _ _ _ (numbered_stable _ _ _ _ _ _ _ HR4 _ _ _ Hk))
        as (nd' & ? & ? & _). simplify_eq. lia.
    + eapply prefer_mine; [exact Hh4|exact Hturn4|]. intros c' [= <-].
      destruct (i_ann _ _ _ _ _ HI3 _ _ Hcand) as [Ho|(k & rk & Hk)].
      * destruct (seq_numbered _ _ _ _ _ _ _ HI4 Hndc4 Hz) as (k & rk & Hk);
          [left; eexists; by apply (r_own _ _ _ HR4)|]. eapply pos_linked, Hk.
      * eapply pos_linked, (pos_stable _ _ _ _ _ _ _ HR4), Hk.
  - apply wp_give_up with (9 + m); [lia|]. wp_pure.
    apply Hend; [done|]. eapply prefer_mine; [exact Hh3|exact Hturn|done].
Qed.

(** ** [advanceAnchor] *)

Lemma behind_size q w : Inv w → size (behind q w) ≤ n.
Proof.
  intros HI. etrans; [apply map_size_filter|].
  rewrite <-size_dom, <-(size_set_seq (C:=gset nat) 0 n). apply subseteq_size.
  intros u [c Hc]%elem_of_dom. apply elem_of_set_seq.
  destruct (i_cur _ _ _ _ _ HI _ _ Hc). lia.
Qed.

(** The anchor is not behind position [k]. *)
Definition past k w : Prop :=
  ∃ k' l r, anchor (w_mem w) = Some l ∧ at_pos k' l r w ∧ k ≤ k'.

(** [B] steps suffice to move the anchor to position [k] or find it there: each
    failed attempt is due to another participant that is done with its own. *)
Definition enough k (B : nat) w : Prop :=
  5 * (size (behind k w) + 2) ≤ B ∨ (past k w ∧ 5 * (size (behind k w) + 1) ≤ B).

Lemma enough_step t k B w w' :
  rely t w w' → k ≤ length (chain (w_aux w)) →
  (past k w ∨ anchor (w_mem w') ≠ anchor (w_mem w)) →
  5 * (size (behind k w) + 1) ≤ B → enough k B w'.
Proof.
  intros HR Hk Hp HB. destruct (r_behind _ _ _ HR k Hk) as [Hsub Ha].
  pose proof (map_subseteq_size _ _ Hsub) as Hle.
  destruct Ha as [Ha|[(k' & l & r & ?)|Hlt]].
  - destruct Hp as [(k' & l & r & ? & ? & ?)|]; [|done]. right. split; [|lia].
    exists k', l, r. split; [congruence|]. split; [by eapply pos_stable|done].
  - right. split; [by exists k', l, r|lia].
  - left. pose proof (map_subset_size _ _ Hlt). lia.
Qed.

Lemma enough_stable t k B w w' :
  rely t w w' → k ≤ length (chain (w_aux w)) → enough k B w → enough k B w'.
Proof.
  intros HR Hk [HB|[Hp HB]]; [|by eapply enough_step; [|done|left|]].
  left. destruct (r_behind _ _ _ HR k Hk) as [Hsub _].
  pose proof (map_subseteq_size _ _ Hsub). lia.
Qed.

(** The loop invariant, and leaving the loop. *)
Definition advancing t c a k r m (b : budget) (_ : unit) w : Prop :=
  active t c a w ∧ numbered k c r w ∧ ∃ B, b = Steps (B + m) ∧ enough k B w.

Lemma advancing_stable t c a k r m b v w w' :
  advancing t c a k r m b v w → rely t w w' → advancing t c a k r m b v w'.
Proof.
  intros (Ha & Hn & B & -> & He) HR.
  split; [by eapply active_stable|]. split; [by eapply numbered_stable|].
  exists B. split; [done|]. eapply enough_stable; [done| |done].
  apply Nat.lt_le_incl. eapply pos_lt, Hn.
Qed.

Lemma wp_leave {t rs m n'} (LI : budget → unit → world → Prop) Q w :
  complete t rs w → m ≤ n' → (∀ w', complete t rs w' → Q (Steps m) tt w') →
  wp t (λ b (x : unit + unit) w,
          match x with inl v => LI b v w | inr d => wp t Q b (Ret d) w end)
    (Steps n') (break tt) w.
Proof.
  intros Hdone Hle HQ. apply wp_give_up with m; [done|].
  apply wp_ret. intros w1 HR1 _. apply wp_ret. intros w2 HR2 _. apply HQ.
  eapply complete_stable; [exact HR2|]. by eapply complete_stable.
Qed.

Lemma wp_advance {t c a k r m} Q w :
  active t c a w → numbered k c r w → enough k advance_steps w →
  (∀ w', complete t (RApply (so_view O a r)) w' → Q (Steps m) tt w') →
  wp t Q (Steps (advance_steps + m)) (advanceAnchor c) w.
Proof.
  intros Hact Hk Hen HQ.
  apply (wp_loop USp proto pg t _ (advancing t c a k r m));
    [|intros b v w1 w2; apply advancing_stable|by split; eauto].
  clear Hact Hk Hen w. intros b _ w (Hact & Hk & B & -> & Hen) HI.
  assert (∃ B', B = 5 + B') as [B' ->].
  { exists (B - 5). destruct Hen as [?|[_ ?]]; lia. }
  replace (5 + B' + m) with (5 + (B' + m)) by lia. eexists. split; [reflexivity|].
  wp_go wp_load as w1 HR1 HI1.
  pose proof (active_stable _ _ _ _ _ _ _ HR1 _ _ Hact) as Hact1.
  pose proof (numbered_stable _ _ _ _ _ _ _ HR1 _ _ _ Hk) as Hk1.
  pose proof (Nat.lt_le_incl _ _ (pos_lt _ _ _ _ (proj1 Hk1))) as Hle1.
  eapply enough_stable in Hen as Hen1;
    [|exact HR1|apply Nat.lt_le_incl; eapply pos_lt, Hk].
  destruct (i_anchor _ _ _ _ _ HI1) as (k0 & l0 & r0 & Hanc & Hk0). rewrite Hanc.
  wp_go wp_load_at as w2 HR2 HI2.
  pose proof (numbered_stable _ _ _ _ _ _ _ HR2 _ _ _ Hk1) as Hk2.
  destruct (node_num _ _ _ _ Hk2) as (nd & Hnd & Hs & _). exists nd. split; [done|].
  wp_go wp_load_at as w3 HR3 HI3. assert (rely t w1 w3) as HR13 by by etrans.
  destruct (node_num _ _ _ _ (numbered_stable _ _ _ _ _ _ _ HR13 _ _ _ Hk0))
    as (nd0 & Hnd0 & Hs0 & _). exists nd0. split; [done|]. rewrite Hs, Hs0.
  pose proof (active_stable _ _ _ _ _ _ _ HR13 _ _ Hact1) as Hact3.
  pose proof (numbered_stable _ _ _ _ _ _ _ HR13 _ _ _ Hk1) as Hk3.
  case_bool_decide as Hcmp.
  - eapply (wp_leave (m := m)); [|lia|exact HQ].
    exact (active_complete _ _ _ _ _ _ _ _ _ _ HI3 Hact3 Hk3).
  - assert (k0 < k) as Hlt by lia.
    assert (5 * (size (behind k w1) + 2) ≤ 5 + B') as HB.
    { destruct Hen1 as [?|[(k' & l' & r' & Ha' & Hp' & ?) _]]; [done|].
      assert (l' = l0) as -> by congruence.
      assert (k' = k0) as -> by (eapply pos_inj; [exact HI1|exact Hp'|apply Hk0]). lia. }
    wp_go wp_cas as w4 HR4 HI4; simpl; intros Hanc4;
      pose proof (active_stable _ _ _ _ _ _ _ HR4 _ _ Hact3) as Hact4;
      pose proof (numbered_stable _ _ _ _ _ _ _ HR4 _ _ _ Hk3) as Hk4.
    + destruct (anchor_step O Sp rep n t c a k r w4 HI4 Hact4 Hk4) as [Hgood Hdone].
      eexists [], _. split; [exact Hgood|].
      eapply (wp_leave (m := m)); [exact Hdone|lia|exact HQ].
    + apply wp_ret. intros w5 HR5 _.
      split; [by eapply active_stable|]. split; [by eapply numbered_stable|].
      exists B'. split; [done|].
      eapply enough_stable; [exact HR5|apply Nat.lt_le_incl; eapply pos_lt, Hk4|].
      eapply (enough_step t k B' w1); [by etrans|done| |lia]. right. congruence.
Qed.

(** ** [apply] *)

(** The node of a participant is linked at most [n] positions after the chain's
    length when it was announced; a cursor that has not met it is before that. *)
Lemma cursor_bound t mine a A p l r nd w :
  Inv w → active t mine a w → announced t mine A w → cursor_at t p l r w →
  heap (w_mem w) !! mine = Some nd → seq nd = 0%Z → p < A + n.
Proof.
  intros HI (Ho & Hc & _ & Hreg & _) (_ & Hs & _ & _) (_ & _ & Hp & _) Hnd Hz.
  destruct (i_since _ _ _ _ _ HI _ _ Hs) as (c & Hc' & _ & _ & Hq & Hno). simplify_eq.
  pose proof (pos_lt _ _ _ _ (proj1 Hp)) as Hlt.
  destruct (decide (linked mine w)) as [(q & rq & Hk)%linked_pos|Hnl].
  - specialize (Hq _ _ Hk). destruct (i_chain _ _ _ _ _ HI _ _ _ Hk)
      as (nd' & ? & _ & [(_ & _ & ? & _)|[? _]]); simplify_eq; [|lia].
    enough (p ≠ q) by lia. intros ->.
    destruct Hp as (Hp & nd' & ? & ? & _).
    destruct (pos_fun _ _ _ _ _ _ Hk Hp) as [-> _]. simplify_eq. lia.
  - pose proof (help_bound n A _ t (registered_lt _ _ _ _ _ _ HI Hreg) (Hno Hnl)). lia.
Qed.

Definition looping t mine a A m (b : budget) (_ : unit) w : Prop :=
  active t mine a w ∧ announced t mine A w ∧ ∃ p l r,
    cursor_at t p l r w ∧ b = Steps (15 * (A + n - p) + (2 + m)).

Lemma looping_stable t mine a A m b v w w' :
  looping t mine a A m b v w → rely t w w' → looping t mine a A m b v w'.
Proof.
  intros (Ha & Hn & p & l & r & Hc & ->) HR.
  split; [by eapply active_stable|]. split; [by eapply announced_stable|].
  exists p, l, r. split; [by eapply cursor_at_stable|done].
Qed.

Lemma wp_help_loop {t mine a A m} Q w b :
  0 < n → looping t mine a A m b tt w →
  (∀ w' k r, active t mine a w' → numbered k mine r w' → Q (Steps m) tt w') →
  wp t Q b
    (loop (λ _ : unit,
       let! s := act (load_at heap mine seq) in
       if bool_decide (s = 0%Z) then round O n t mine ;;; continue tt
       else break tt) tt) w.
Proof.
  intros Hn HLI HQ. apply (wp_loop USp proto pg t _ (looping t mine a A m));
    [|intros b' v w1 w2; apply looping_stable|exact HLI].
  clear b w HLI. intros b [] w HLI HI.
  assert (∃ B, b = Steps (2 + B)) as [B Hb'].
  { destruct HLI as (_ & _ & p & l & r & _ & ->).
    exists (15 * (A + n - p) + m). f_equal. lia. }
  rewrite Hb' in HLI |- *. clear b Hb'. eexists. split; [reflexivity|]. wp_go wp_load_at as w1 HR1 HI1.
  apply (looping_stable _ _ _ _ _ _ _ _ w1) in HLI as (Ha & Hann & p & l & r & Hc & Hb);
    [|exact HR1]. injection Hb as HB.
  destruct (own_heap _ _ _ _ _ _ _ HI1 (proj1 Ha)) as (nd & Hnd).
  exists nd. split; [done|]. case_bool_decide as Hz.
  - pose proof (cursor_bound _ _ _ _ _ _ _ _ _ HI1 Ha Hann Hc Hnd Hz).
    replace B with (13 + (15 * (A + n - S p) + (2 + m))) by lia.
    apply wp_bind. eapply (wp_round _ w1); [|done|].
    { split; [exact Ha|]. split; [exact Hann|]. split; [exact Hc|].
      eapply seq0_unlinked; [exact HI1|apply Hc|done|done]. }
    intros w2 l' r' Ha2 Hann2 Hc2. apply wp_ret. intros w3 HR3 _.
    eapply looping_stable; [|exact HR3]. split; [done|]. split; [done|]. eauto.
  - destruct (seq_numbered _ _ _ _ _ _ _ HI1 Hnd Hz) as (k & rk & Hk);
      [left; exists t; apply Ha|].
    apply wp_give_up with m; [lia|]. apply wp_ret. intros w2 HR2 _.
    apply wp_ret. intros w3 HR3 _. assert (rely t w1 w3) as HR13 by by etrans.
    eapply HQ; [by eapply active_stable|by eapply numbered_stable].
Qed.

Lemma wp_apply {t a m} Q w :
  0 < n → ready t (UApply t a) w → registered t w →
  (∀ w' r, complete t (RApply (so_view O a r)) w' → Q (Steps m) (Some r) w') →
  wp t Q (Steps (apply_steps + m)) (apply O n t a) w.
Proof.
  intros Hn Hready Hreg HQ.
  replace (apply_steps + m) with (2 + (3 + (3 * n + (1 + (15 * (n + 2) +
    (2 + (2 + (advance_steps + m)))))))) by (unfold apply_steps; lia).
  wp_go wp_new as w1 HR1 HI1.
  destruct (alloc_step O Sp rep n t a w1 HI1) as (Hgood1 & Ha1 & Hp1);
    [by eapply uni_ready_stable|by apply (r_registered _ _ _ HR1)|].
  eexists [], _. split; [exact Hgood1|]. cbn [f_get heap_f] in *.
  set (c := length (heap (w_mem w1))) in *. clearbody c.
  wp_go wp_store_idx as w2 HR2 HI2.
  apply (active_stable _ _ _ _ _ _ _ HR2) in Ha1 as Ha2.
  apply (uni_private_stable _ _ _ _ _ _ _ HR2 _ (proj1 Ha1)) in Hp1 as Hp2.
  split.
  { simpl. rewrite (i_len_ann _ _ _ _ _ HI2).
    apply (registered_lt _ _ _ _ _ _ HI2), Ha2. }
  destruct (announce_step O Sp rep n t c a w2 HI2 Ha2 Hp2) as (Hgood2 & Ha2' & Hann2).
  eexists [], _. split; [exact Hgood2|]. wp_pure. apply wp_bind.
  pose proof (registered_lt _ _ _ _ _ _ (proj1 Hgood2) (proj1 (proj2 (proj2 (proj2 Ha2')))))
    as Htn.
  eapply (wp_maxFrontier _ _ (proj1 (proj2 (proj2 (proj2 Ha2')))) Htn).
  { exact (i_front _ _ _ _ _ HI2). }
  intros w3 k l r HR3 Hk3 Hf3 Hlow.
  pose proof (active_stable _ _ _ _ _ _ _ HR3 _ _ Ha2') as Ha3.
  pose proof (announced_stable _ _ _ _ _ _ _ HR3 _ _ Hann2) as Hann3.
  eapply (wp_set_cursor (k := k) (r := r)); [apply Ha3|done|done|].
  intros w4 _ Hc4 Ha4 Hann4. specialize (Ha4 _ _ Ha3). specialize (Hann4 _ _ Hann3).
  set (A := length (chain (w_aux w2))) in *.
  apply wp_give_up with (15 * (A + n - k) + (2 + (2 + (advance_steps + m)))); [lia|].
  match goal with |- wp _ _ _ (Loop ?f ?u ?k) _ => change (Loop f u k) with (bind (loop f u) k) end.
  apply wp_bind. eapply (wp_help_loop _ w4); [done|split; [exact Ha4|split; [exact Hann4|exists k, l, r; split; [exact Hc4|reflexivity]]]|].
  clear - Implements0 HQ. intros w k r Ha Hk.
  wp_go wp_load_at as w1 HR1 HI1.
  pose proof (active_stable _ _ _ _ _ _ _ HR1 _ _ Ha) as Ha1.
  pose proof (numbered_stable _ _ _ _ _ _ _ HR1 _ _ _ Hk) as Hk1.
  destruct (node_num _ _ _ _ Hk1) as (nd & Hnd & _ & Hr). exists nd. split; [done|].
  rewrite Hr. eapply (wp_set_cursor (k := k) (r := r)); [apply Ha1|done| |].
  { eapply (i_floor_cur _ _ _ _ _ HI1); [apply Ha1|apply Hk1]. }
  intros w2 HI2 (_ & _ & Hk2 & _) Ha2 _. specialize (Ha2 _ _ Ha1).
  apply wp_bind. eapply (wp_advance (m := m)); [exact Ha2|exact Hk2| |].
  - left. pose proof (behind_size k _ HI2). unfold advance_steps. lia.
  - intros w3 Hdone. apply wp_ret. intros w4 HR4 _. apply HQ.
    eapply complete_stable; [exact HR4|exact Hdone].
Qed.

(** ** The operations *)

Lemma complete_post t b rs w : Inv w → complete t rs w → post USp proto t b rs w.
Proof.
  intros HI Hdone. destruct (return_step O Sp rep n t rs rs w HI Hdone) as [HI' HR].
  destruct (finished_ret_ok USp _ _ _ (proj1 Hdone)) as (p & Hp & Hr).
  exists p. split; [exact Hp|]. split; [exact Hr|]. by exists (drop t (w_aux w)).
Qed.

Lemma wp_complete t b rs w :
  complete t rs w → wp t (post USp proto t) b (Ret rs) w.
Proof.
  intros Hdone. apply wp_ret. intros w1 HR1 HI1. apply complete_post; [done|].
  exact (complete_stable _ _ _ _ _ _ _ HR1 _ Hdone).
Qed.

Lemma method_wp t a w :
  0 < n → ready t (UApply t a) w → registered t w →
  wp t (post USp proto t) (Steps apply_steps) (method O n t a) w.
Proof.
  intros Hn Hready Hreg. apply wp_give_up with (apply_steps + 0); [lia|].
  apply wp_bind. eapply (wp_apply (m := 0)); [done..|].
  intros w1 r Hdone. by apply wp_complete.
Qed.

(** [Handle] after its number is drawn: it fills the slot of that number. *)
Lemma wp_register t i rs w :
  registering t i w → complete t rs w →
  wp t (post USp proto t) (Steps 3)
    (let! frontier := act (load anchor) in
     act (store_idx head_f (Z.of_nat i) frontier) ;;;
     act (store_idx announce_f (Z.of_nat i) frontier) ;;;
     Ret rs) w.
Proof.
  intros Hreg Hdone. wp_go wp_load as w1 HR1 HI1.
  apply (complete_stable _ _ _ _ _ _ _ HR1) in Hdone.
  apply (registering_stable _ _ _ _ _ _ _ HR1) in Hreg.
  destruct (i_anchor _ _ _ _ _ HI1) as (k & l & r & -> & Hk).
  wp_go wp_store_idx as w2 HR2 HI2.
  apply (complete_stable _ _ _ _ _ _ _ HR2) in Hdone.
  apply (registering_stable _ _ _ _ _ _ _ HR2) in Hreg.
  apply (numbered_stable _ _ _ _ _ _ _ HR2) in Hk.
  pose proof (lookup_lt_Some _ _ _ (proj2 Hreg)) as Hlt.
  rewrite (i_len_ann _ _ _ _ _ HI2) in Hlt.
  split; [simpl; by rewrite (i_len_head _ _ _ _ _ HI2)|].
  destruct (register_head O Sp rep n t i k l r w2 HI2 Hreg Hk) as (Hgood & Hreg' & Hhd).
  eexists [], _. split; [exact Hgood|].
  wp_go wp_store_idx as w3 HR3 HI3.
  apply (complete_stable _ _ _ _ _ _ _ HR3) in Hdone.
  destruct (r_reg _ _ _ HR3 _ (proj1 Hreg')) as [Hr3 Hs3].
  destruct (Hs3 (proj2 Hreg')) as [Ha3 Hh3]. pose proof (eq_trans Hh3 Hhd) as Hhd3.
  pose proof (numbered_stable _ _ _ _ _ _ _ HR3 _ _ _ Hk) as Hk3.
  split; [simpl; by rewrite (i_len_ann _ _ _ _ _ HI3)|].
  pose proof (register_announce O Sp rep n t i k l r w3 HI3 (conj Hr3 Ha3) Hhd3 Hk3) as Hgood3.
  eexists [], _. split; [exact Hgood3|]. by apply wp_complete.
Qed.

Lemma Handle_wp t w :
  ready t UHandle w → wp t (post USp proto t) (Steps 4) (Handle n) w.
Proof.
  intros Hready. wp_go wp_add_i64 as w1 HR1 HI1.
  pose proof (cursor_range _ _ _ _ _ HI1) as Hrange.
  destruct (handle_step O Sp rep n t w1 HI1) as (Hgood & Hdone & Hregs);
    [by eapply uni_ready_stable|].
  cbn [f_get cursor_f]. rewrite i64_small by lia.
  eexists [t], _. split; [exact Hgood|].
  replace (cursor (w_mem w1) + 1 - 1)%Z with (cursor (w_mem w1)) by lia.
  rewrite i64_small by lia.
  case_bool_decide as Hid; [by apply wp_complete|].
  specialize (Hregs ltac:(lia)).
  pose proof (wp_register _ _ _ _ Hregs Hdone) as Hwp.
  by rewrite Z2Nat.id in Hwp by lia.
Qed.

(** ** The object *)

Definition new_world : world :=
  World (new_mem O n) (Ghost [] ∅ 0 []) (Aux [(0, so_init O)] ∅ ∅ ∅ ∅ ∅ ∅ ∅ 0).

Lemma new_pos k l r : at_pos k l r new_world → k = 0 ∧ l = 0 ∧ r = so_init O.
Proof. destruct k as [|[]]; by intros [=]. Qed.

Lemma new_sentinel : numbered 0 0 (so_init O) new_world.
Proof. split; [done|]. by eexists. Qed.

Lemma new_inv : 0 < n → Inv new_world.
Proof.
  intros Hn. split; simpl; try done.
  - intros k l r (-> & -> & ->)%new_pos. eexists. split; [done|]. split; [done|]. by right.
  - apply NoDup_singleton.
  - exists 0, 0, (so_init O). split; [done|]. split; [done|]. apply im_init.
  - apply length_replicate.
  - apply length_replicate.
  - intros i p [-> ?]%lookup_replicate. by apply lookup_replicate_2.
  - by intros i l [? ?]%lookup_replicate.
  - exists 0, 0, (so_init O). split; [done|]. apply new_sentinel.
  - intros u. apply Nat.lt_0_1.
  - left. lia.
  - intros i _. split; [done|]. by intros l [? ?]%lookup_replicate.
Qed.

Theorem universal_verified : 0 < n → verified USp proto pg (universal_object O n).
Proof.
  intros Hn. split; [eexists; by apply new_inv|].
  intros t id o w HI Hnone -> [Hcalls Hop]%andb_true_iff.
  apply bool_decide_eq_true in Hcalls.
  destruct (call_step O Sp rep n t o w HI Hnone Hcalls) as [[HI' HR] Hready].
  eexists. split; [exact HI'|]. split; [exact HR|].
  destruct o as [|tid a]; simpl in Hop |- *.
  - apply wp_give_up with 4; [unfold apply_steps; lia|]. by apply Handle_wp.
  - apply andb_true_iff in Hop as [<-%bool_decide_eq_true Hann%bool_decide_eq_true].
    apply method_wp; [done|done|].
    destruct Hann as [l Hl]. exists l. simpl. 
    destruct (announce (w_mem w) !! t) as [[l'|]|]; simplify_eq/=. done.
Qed.

Lemma New_ok m : New O (Z.of_nat n) = Some m → 0 < n ∧ m = new_mem O n.
Proof.
  unfold New. case_bool_decide; [done|]. intros [= <-]. rewrite Nat2Z.id. split; [lia|done].
Qed.

Lemma apply_steps_eq : apply_steps = 23 * n + 50.
Proof. unfold apply_steps, advance_steps. lia. Qed.
End proof.

(** What the instances use: their code is the one of the construction, at the
    memory that the constructor returns. *)
Section instances.
Context {Arg Res Resp St : Type} (O : seq_object Arg Res Resp) (Sp : spec St Arg Resp).
Context (rep : Res → St → Prop) `{!Implements O Sp rep} (n : nat).
Context (I : object (Universal.mem Arg Res) (uop Arg) (uresp Resp)).
Context (Hnew : New O (Z.of_nat n) = Some (ob_init I)).
Context (Hcode : ∀ t o, ob_code I t o = Universal.code O n t o).
Context (Hallowed : ob_allowed I = allowed).

Lemma instance_verified :
  verified (uspec Sp n) (proto O Sp rep n) (WaitFree (apply_steps n)) I.
Proof.
  destruct (New_ok _ _ _ Hnew) as [Hn Hm].
  enough (I = universal_object O n) as -> by by apply universal_verified.
  destruct I as [m c a]. simpl in *. unfold universal_object. f_equal; [done| |done].
  do 2 (apply functional_extensionality; intros). apply Hcode.
Qed.

Lemma instance_linearizable cs s : reaches I cs s → linearizable (uspec Sp n) (sy_hist s).
Proof. eapply verified_linearizable, instance_verified. Qed.

Lemma instance_no_crash cs : exec I cs (start I) ≠ Crash.
Proof. eapply verified_no_crash, instance_verified. Qed.

Lemma instance_wait_free cs s t r :
  reaches I cs s → sy_thr s !! t = Some r →
  r_steps r ≤ 23 * n + 50 ∧ (r_steps r = 23 * n + 50 → ∃ v, r_prog r = Ret v).
Proof.
  rewrite <-apply_steps_eq. eapply verified_waitfree; [apply instance_verified|done].
Qed.
End instances.
