(* ===== verification/WfStack.v ===== *)
(** The wait-free stack, [wf/stack.go]: the universal construction over a
    persistent list. *)

From S2P Require Export UniversalProof Adt.
Import Universal.

Module Stack.
Section stack.
Context {T : Type} (zero : T).

(** The operations with their argument: the fields [op] and [arg] of a node. *)
Inductive stackOp :=
  | stackPush (arg : T)
  | stackPop.

(** Immutable cells, linked by [next]; nil is the empty list. *)
Definition stackCell : Type := list T.

Record stackResult := StackResult {
  top : stackCell;
  val : T;
  ok : bool
}.

Definition stackNode : Type := node stackOp stackResult.

(** The [switch] of [publish]. *)
Definition compute (br : stackResult) (op : stackOp) : stackResult :=
  match op with
  | stackPush arg => StackResult (arg :: top br) zero false
  | stackPop =>
      match top br with
      | [] => StackResult [] zero false
      | v :: next => StackResult next v true
      end
  end.

(** What [Push] and [Pop] return of the result of their operation. *)
Definition view (op : stackOp) (r : stackResult) : resp T :=
  match op with
  | stackPush _ => RDone
  | stackPop => RVal (val r) (ok r)
  end.

Definition stack_seq : seq_object stackOp stackResult (resp T) :=
  SeqObject (stackPush zero) (StackResult [] zero false)
    (λ br op, Some (compute br op)) view
    (λ op, match op with stackPush _ => Some RDone | stackPop => None end).

(** ** The methods *)

Definition Stack : Type := mem stackOp stackResult.

Definition NewStack (maxHandles : Z) : option Stack := New stack_seq maxHandles.

Context (n : nat).

Definition Handle : prog Stack (uresp (resp T)) := Universal.Handle n.

Definition maxFrontier : prog Stack (option loc) := Universal.maxFrontier n.

Definition publish (before after : option loc) : prog Stack unit :=
  Universal.publish stack_seq before after.

Definition advanceAnchor (nd : loc) : prog Stack unit := Universal.advanceAnchor nd.

Definition apply (tid : nat) (op : stackOp) : prog Stack (option stackResult) :=
  Universal.apply stack_seq n tid op.

Definition Push (tid : nat) (v : T) : prog Stack (resp T) :=
  apply tid (stackPush v) ;;; Ret RDone.

Definition Pop (tid : nat) : prog Stack (resp T) :=
  let! r := apply tid stackPop in
  match r with Some r => Ret (RVal (val r) (ok r)) | None => panic end.

Definition stack_code (_ : nat) (o : uop stackOp) : prog Stack (uresp (resp T)) :=
  match o with
  | UHandle => Handle
  | UApply tid (stackPush v) => let! r := Push tid v in Ret (RApply r)
  | UApply tid stackPop => let! r := Pop tid in Ret (RApply r)
  end.

(** The object in the memory [m] that [NewStack] returned. *)
Definition stack_object (m : Stack) : object Stack (uop stackOp) (uresp (resp T)) :=
  Object m stack_code allowed.

(** ** The contract of the construction *)

(** The sequential stack, and the handles. *)
Definition stack_adt (op : stackOp) : Adt.stack_op T :=
  match op with stackPush v => Adt.Push v | stackPop => Adt.Pop end.

Definition wf_stack_spec : spec (list T) stackOp (resp T) :=
  Spec [] (λ s op, stack_step zero s (stack_adt op)).

Definition rep (r : stackResult) (s : list T) : Prop := top r = s.

#[export] Instance stack_implements : Implements stack_seq wf_stack_spec rep.
Proof.
  split; [done|]. intros [tp v0 ok0] s op [= <-]. simpl.
  eexists. split; [done|]. by destruct op, tp.
Qed.

Lemma stack_code_ok t o : stack_code t o = Universal.code stack_seq n t o.
Proof.
  destruct o as [|tid [v|]]; cbn [stack_code Universal.code]; [done| |];
    (unfold Push, Pop; rewrite bind_bind; apply bind_ext; intros []; [done|by rewrite ?bind_panic]).
Qed.

(** C3. The wait-free stack is linearizable: whatever its at most [n] participants
    call and however their steps interleave, the calls and returns are those
    of a sequential LIFO stack in some order that respects real time; the
    [Handle] calls return 0, 1, ... and panic beyond [n]. *)
Theorem wf_stack_linearizable m cs s :
  NewStack (Z.of_nat n) = Some m → reaches (stack_object m) cs s →
  linearizable (uspec wf_stack_spec n) (sy_hist s).
Proof. intros Hm. exact (instance_linearizable _ _ rep n (stack_object m) Hm stack_code_ok eq_refl cs s). Qed.

(** C4. It is wait-free: under any schedule an operation has returned, or is about
    to, after [23 * n + 50] steps of its own. *)
Theorem wf_stack_wait_free m cs s t r :
  NewStack (Z.of_nat n) = Some m → reaches (stack_object m) cs s →
  sy_thr s !! t = Some r →
  r_steps r ≤ 23 * n + 50 ∧ (r_steps r = 23 * n + 50 → ∃ v, r_prog r = Ret v).
Proof.
  intros Hm. exact (instance_wait_free _ wf_stack_spec rep n (stack_object m) Hm stack_code_ok eq_refl cs s t r).
Qed.

(** No schedule makes a method of the wait-free stack dereference nil or index
    out of range. *)
Theorem wf_stack_no_panic m cs :
  NewStack (Z.of_nat n) = Some m → exec (stack_object m) cs (start (stack_object m)) ≠ Crash.
Proof.
  intros Hm. exact (instance_no_crash _ wf_stack_spec rep n (stack_object m) Hm stack_code_ok eq_refl cs).
Qed.
End stack.

(** Two participants register; one pushes 7 while the other pops, their
    steps alternating, and a third [Handle] call panics. *)
Definition demo_memory : Stack := default (new_mem (stack_seq 0) 0) (NewStack 0 2).

Definition demo_object : object Stack (uop stackOp) (uresp (resp nat)) :=
  stack_object 0 2 demo_memory.

Definition demo_schedule : list (cmd (uop stackOp)) :=
  Call 0 UHandle :: replicate 5 (Step 0) ++ Call 1 UHandle :: replicate 5 (Step 1) ++
  Call 0 (UApply 0 (stackPush 7)) :: Call 1 (UApply 1 stackPop) ::
  concat (replicate 37 [Step 0; Step 1]) ++ replicate 15 (Step 1) ++
  Call 2 UHandle :: replicate 2 (Step 2).

Lemma wf_stack_demo_new : NewStack 0 (Z.of_nat 2) = Some demo_memory.
Proof. reflexivity. Qed.

Lemma wf_stack_linearizable_witness : ∃ s,
  reaches demo_object demo_schedule s ∧
  sy_hist s = [EInv 0 0 UHandle; ERes 0 0 (RHandle 0); EInv 1 2 UHandle;
               ERes 1 2 (RHandle 1); EInv 0 4 (UApply 0 (stackPush 7));
               EInv 1 5 (UApply 1 stackPop); ERes 0 4 (RApply RDone);
               ERes 1 5 (RApply (RVal 7 true)); EInv 2 8 UHandle; ERes 2 8 RPanic] ∧
  linearizable (uspec (wf_stack_spec 0) 2) (sy_hist s).
Proof.
  destruct (run_history_reaches demo_object demo_schedule _
    ltac:(vm_compute; reflexivity)) as (s & Hs & Hh).
  exists s. split; [exact Hs|]. split; [exact Hh|].
  exact (wf_stack_linearizable 0 2 demo_memory demo_schedule s wf_stack_demo_new Hs).
Defined.

Lemma wf_stack_wait_free_witness : ∃ s r,
  reaches demo_object (take 80 demo_schedule) s ∧ sy_thr s !! 1 = Some r ∧
  r_steps r = 33 ∧ r_steps r ≤ 23 * 2 + 50.
Proof.
  destruct (run_steps_reaches demo_object (take 80 demo_schedule) 1 33
    ltac:(vm_compute; reflexivity)) as (s & r & Hs & Hr & Hn).
  exists s, r. split; [exact Hs|]. split; [exact Hr|]. split; [exact Hn|].
  exact (proj1 (wf_stack_wait_free 0 2 demo_memory _ s 1 r wf_stack_demo_new Hs Hr)).
Defined.

Lemma wf_stack_no_panic_witness :
  exec demo_object demo_schedule (start demo_object) ≠ Crash.
Proof. exact (wf_stack_no_panic 0 2 demo_memory demo_schedule wf_stack_demo_new). Defined.
End Stack.
