(* ===== verification/WfDeque.v ===== *)
(** The wait-free deque, [wf/deque.go]: the universal construction over the
    persistent balanced tree of DequeTree.v. *)

From S2P Require Export UniversalProof Adt DequeTree.
Import Universal.
Close Scope Z_scope.

Module Deque.
Section deque.
Context {T : Type} (zero : T).

(** The operations with their argument: the fields [op] and [arg] of a node. *)
Inductive dequeOp :=
  | dqPushFront (arg : T)
  | dqPushBack (arg : T)
  | dqPopFront
  | dqPopBack.

Record dequeResult := DequeResult {
  root : tree T;
  val : T;
  ok : bool
}.

Definition dequeNode : Type := node dequeOp dequeResult.

(** The [switch] of [publish]. *)
Definition compute (br : dequeResult) (op : dequeOp) : option dequeResult :=
  match op with
  | dqPushFront arg =>
      root ← treePushFront (root br) arg; Some (DequeResult root zero false)
  | dqPushBack arg =>
      root ← treePushBack (root br) arg; Some (DequeResult root zero false)
  | dqPopFront =>
      '(root, v, ok) ← treePopFront zero (root br); Some (DequeResult root v ok)
  | dqPopBack =>
      '(root, v, ok) ← treePopBack zero (root br); Some (DequeResult root v ok)
  end.

(** What the methods return of the result of their operation. *)
Definition view (op : dequeOp) (r : dequeResult) : resp T :=
  match op with
  | dqPushFront _ | dqPushBack _ => RDone
  | dqPopFront | dqPopBack => RVal (val r) (ok r)
  end.

Definition deque_seq : seq_object dequeOp dequeResult (resp T) :=
  SeqObject (dqPushFront zero) (DequeResult Leaf zero false) compute view
    (λ op, match op with
           | dqPushFront _ | dqPushBack _ => Some RDone
           | dqPopFront | dqPopBack => None
           end).

(** ** The methods *)

Definition Deque : Type := mem dequeOp dequeResult.

Definition NewDeque (maxHandles : Z) : option Deque := New deque_seq maxHandles.

Context (n : nat).

Definition Handle : prog Deque (uresp (resp T)) := Universal.Handle n.

Definition maxFrontier : prog Deque (option loc) := Universal.maxFrontier n.

Definition publish (before after : option loc) : prog Deque unit :=
  Universal.publish deque_seq before after.

Definition advanceAnchor (nd : loc) : prog Deque unit := Universal.advanceAnchor nd.

Definition apply (tid : nat) (op : dequeOp) : prog Deque (option dequeResult) :=
  Universal.apply deque_seq n tid op.

Definition PushFront (tid : nat) (v : T) : prog Deque (resp T) :=
  apply tid (dqPushFront v) ;;; Ret RDone.

Definition PushBack (tid : nat) (v : T) : prog Deque (resp T) :=
  apply tid (dqPushBack v) ;;; Ret RDone.

Definition PopFront (tid : nat) : prog Deque (resp T) :=
  let! r := apply tid dqPopFront in
  match r with Some r => Ret (RVal (val r) (ok r)) | None => panic end.

Definition PopBack (tid : nat) : prog Deque (resp T) :=
  let! r := apply tid dqPopBack in
  match r with Some r => Ret (RVal (val r) (ok r)) | None => panic end.

Definition deque_code (_ : nat) (o : uop dequeOp) : prog Deque (uresp (resp T)) :=
  match o with
  | UHandle => Handle
  | UApply tid (dqPushFront v) => let! r := PushFront tid v in Ret (RApply r)
  | UApply tid (dqPushBack v) => let! r := PushBack tid v in Ret (RApply r)
  | UApply tid dqPopFront => let! r := PopFront tid in Ret (RApply r)
  | UApply tid dqPopBack => let! r := PopBack tid in Ret (RApply r)
  end.

(** The object in the memory [m] that [NewDeque] returned. *)
Definition deque_object (m : Deque) : object Deque (uop dequeOp) (uresp (resp T)) :=
  Object m deque_code allowed.

(** ** The contract of the construction *)

(** The sequential deque, and what represents it. *)
Definition deque_adt (op : dequeOp) : Adt.deque_op T :=
  match op with
  | dqPushFront v => Adt.PushFront v
  | dqPushBack v => Adt.PushBack v
  | dqPopFront => Adt.PopFront
  | dqPopBack => Adt.PopBack
  end.

Definition wf_deque_spec : spec (list T) dequeOp (resp T) :=
  Spec [] (λ s op, deque_step zero s (deque_adt op)).

Definition rep (r : dequeResult) (s : list T) : Prop :=
  avl (root r) ∧ elems (root r) = s.

#[export] Instance deque_implements : Implements deque_seq wf_deque_spec rep.
Proof.
  split; [done|]. intros [t v0 ok0] s op [Ht He]. simpl in Ht, He. destruct op as [x|x| |].
  - destruct (treePushFront_ok t x Ht) as (t' & E & Ha & He' & _).
    exists (DequeResult t' zero false). simpl. rewrite E, <-He. by split_and!.
  - destruct (treePushBack_ok t x Ht) as (t' & E & Ha & He' & _).
    exists (DequeResult t' zero false). simpl. rewrite E, <-He. by split_and!.
  - destruct s as [|x s].
    + apply elems_nil in He as ->. by exists (DequeResult Leaf zero false).
    + destruct (treePopFront_ok zero t x s Ht He) as (t' & E & Ha & He' & _).
      exists (DequeResult t' x true). simpl. rewrite E. by split_and!.
  - destruct s as [|x s _] using rev_ind.
    + apply elems_nil in He as ->. by exists (DequeResult Leaf zero false).
    + destruct (treePopBack_ok zero t x s Ht He) as (t' & E & Ha & He' & _).
      exists (DequeResult t' x true). simpl. rewrite E, last_snoc. split_and!; try done.
      rewrite length_app, Nat.add_1_r. simpl. by rewrite take_app_length.
Qed.

Lemma deque_code_ok t o : deque_code t o = Universal.code deque_seq n t o.
Proof.
  destruct o as [|tid [v|v| |]]; cbn [deque_code Universal.code]; [done| | | |];
    (unfold PushFront, PushBack, PopFront, PopBack; rewrite bind_bind; apply bind_ext;
     intros []; [done|by rewrite ?bind_panic]).
Qed.

(** C25. The wait-free deque is linearizable: whatever its at most [n] participants
    call and however their steps interleave, the calls and returns are those
    of a sequential double-ended queue in some order that respects real time. *)
Theorem wf_deque_linearizable m cs s :
  NewDeque (Z.of_nat n) = Some m → reaches (deque_object m) cs s →
  linearizable (uspec wf_deque_spec n) (sy_hist s).
Proof.
  intros Hm. exact (instance_linearizable _ _ rep n (deque_object m) Hm deque_code_ok eq_refl cs s).
Qed.

(** It is wait-free: under any schedule an operation has returned, or is about
    to, after [23 * n + 50] steps of its own (the tree update of a [publish],
    logarithmic by [avl_tree_height], is one of them). *)
Theorem wf_deque_wait_free m cs s t r :
  NewDeque (Z.of_nat n) = Some m → reaches (deque_object m) cs s →
  sy_thr s !! t = Some r →
  r_steps r ≤ 23 * n + 50 ∧ (r_steps r = 23 * n + 50 → ∃ v, r_prog r = Ret v).
Proof.
  intros Hm. exact (instance_wait_free _ wf_deque_spec rep n (deque_object m) Hm
    deque_code_ok eq_refl cs s t r).
Qed.

(** No schedule makes a method of the wait-free deque dereference nil, in the
    rotations of its trees included, or index out of range. *)
Theorem wf_deque_no_panic m cs :
  NewDeque (Z.of_nat n) = Some m → exec (deque_object m) cs (start (deque_object m)) ≠ Crash.
Proof.
  intros Hm. exact (instance_no_crash _ wf_deque_spec rep n (deque_object m) Hm
    deque_code_ok eq_refl cs).
Qed.
End deque.

(** One participant pushes 1 at the front, then 2 at the back while the other
    pops at the back, their steps alternating. *)
Definition demo_memory : Deque := default (new_mem (deque_seq 0) 0) (NewDeque 0 2).

Definition demo_object : object Deque (uop dequeOp) (uresp (resp nat)) :=
  deque_object 0 2 demo_memory.

Definition demo_schedule : list (cmd (uop dequeOp)) :=
  Call 0 UHandle :: replicate 5 (Step 0) ++ Call 1 UHandle :: replicate 5 (Step 1) ++
  Call 0 (UApply 0 (dqPushFront 1)) :: replicate 37 (Step 0) ++
  Call 0 (UApply 0 (dqPushBack 2)) :: Call 1 (UApply 1 dqPopBack) ::
  concat (replicate 37 [Step 0; Step 1]) ++ replicate 15 (Step 0).

Lemma wf_deque_demo_new : NewDeque 0 (Z.of_nat 2) = Some demo_memory.
Proof. reflexivity. Qed.

Lemma wf_deque_linearizable_witness : ∃ s,
  reaches demo_object demo_schedule s ∧
  sy_hist s = [EInv 0 0 UHandle; ERes 0 0 (RHandle 0); EInv 1 2 UHandle;
               ERes 1 2 (RHandle 1); EInv 0 4 (UApply 0 (dqPushFront 1));
               ERes 0 4 (RApply RDone); EInv 0 6 (UApply 0 (dqPushBack 2));
               EInv 1 7 (UApply 1 dqPopBack); ERes 1 7 (RApply (RVal 1 true));
               ERes 0 6 (RApply RDone)] ∧
  linearizable (uspec (wf_deque_spec 0) 2) (sy_hist s).
Proof.
  destruct (run_history_reaches demo_object demo_schedule _
    ltac:(vm_compute; reflexivity)) as (s & Hs & Hh).
  exists s. split; [exact Hs|]. split; [exact Hh|].
  exact (wf_deque_linearizable 0 2 demo_memory demo_schedule s wf_deque_demo_new Hs).
Defined.

Lemma wf_deque_wait_free_witness : ∃ s r,
  reaches demo_object (take 120 demo_schedule) s ∧ sy_thr s !! 0 = Some r ∧
  r_steps r = 34 ∧ r_steps r ≤ 23 * 2 + 50.
Proof.
  destruct (run_steps_reaches demo_object (take 120 demo_schedule) 0 34
    ltac:(vm_compute; reflexivity)) as (s & r & Hs & Hr & Hn).
  exists s, r. split; [exact Hs|]. split; [exact Hr|]. split; [exact Hn|].
  exact (proj1 (wf_deque_wait_free 0 2 demo_memory _ s 0 r wf_deque_demo_new Hs Hr)).
Defined.

Lemma wf_deque_no_panic_witness :
  exec demo_object demo_schedule (start demo_object) ≠ Crash.
Proof. exact (wf_deque_no_panic 0 2 demo_memory demo_schedule wf_deque_demo_new). Defined.
End Deque.
