(* ===== verification/WfMap.v ===== *)
(** The wait-free ordered map, [wf/map.go]: the universal construction over the
    persistent search tree of MapTree.v. *)

From S2P Require Export UniversalProof Adt MapTree.
Import Universal.
Close Scope Z_scope.

Module Map.
Section map.
Context {K V : Type} (zeroK : K) (zeroV : V) (less : Less K).

(** The operations with their arguments: the fields [op], [key] and [val] of a
    node ([Get] and [Del] store a zero value there, which nothing reads). *)
Inductive mapOp :=
  | mapSet (key : K) (val : V)
  | mapGet (key : K)
  | mapDel (key : K).

Record mapResult := MapResult {
  root : mapTreeNode (K:=K) (V:=V);
  val : V;
  ok : bool
}.

Definition mapNode : Type := node mapOp mapResult.

(** The [switch] of [publish]. *)
Definition compute (br : mapResult) (op : mapOp) : option mapResult :=
  match op with
  | mapSet key val =>
      root ← mapInsert less (root br) key val; Some (MapResult root zeroV false)
  | mapGet key =>
      let '(v, ok) := mapLookup zeroV less (root br) key in
      Some (MapResult (root br) v ok)
  | mapDel key =>
      '(root, v, ok) ← mapDelete zeroV less (root br) key; Some (MapResult root v ok)
  end.

(** What the methods return of the result of their operation. *)
Definition view (op : mapOp) (r : mapResult) : resp V :=
  match op with
  | mapSet _ _ => RDone
  | mapGet _ | mapDel _ => RVal (val r) (ok r)
  end.

Definition map_seq : seq_object mapOp mapResult (resp V) :=
  SeqObject (mapSet zeroK zeroV) (MapResult Leaf zeroV false) compute view
    (λ op, match op with mapSet _ _ => Some RDone | mapGet _ | mapDel _ => None end).

(** ** The methods *)

Definition Map : Type := mem mapOp mapResult.

Definition NewMap (maxHandles : Z) : option Map := New map_seq maxHandles.

Context (n : nat).

Definition Handle : prog Map (uresp (resp V)) := Universal.Handle n.

Definition maxFrontier : prog Map (option loc) := Universal.maxFrontier n.

Definition publish (before after : option loc) : prog Map unit :=
  Universal.publish map_seq before after.

Definition advanceAnchor (nd : loc) : prog Map unit := Universal.advanceAnchor nd.

Definition apply (tid : nat) (op : mapOp) : prog Map (option mapResult) :=
  Universal.apply map_seq n tid op.

Definition Set_ (tid : nat) (k : K) (v : V) : prog Map (resp V) :=
  apply tid (mapSet k v) ;;; Ret RDone.

Definition Get (tid : nat) (k : K) : prog Map (resp V) :=
  let! r := apply tid (mapGet k) in
  match r with Some r => Ret (RVal (val r) (ok r)) | None => panic end.

Definition Del (tid : nat) (k : K) : prog Map (resp V) :=
  let! r := apply tid (mapDel k) in
  match r with Some r => Ret (RVal (val r) (ok r)) | None => panic end.

Definition map_code (_ : nat) (o : uop mapOp) : prog Map (uresp (resp V)) :=
  match o with
  | UHandle => Handle
  | UApply tid (mapSet k v) => let! r := Set_ tid k v in Ret (RApply r)
  | UApply tid (mapGet k) => let! r := Get tid k in Ret (RApply r)
  | UApply tid (mapDel k) => let! r := Del tid k in Ret (RApply r)
  end.

(** The object in the memory [m] that [NewMap] returned. *)
Definition map_object (m : Map) : object Map (uop mapOp) (uresp (resp V)) :=
  Object m map_code allowed.

(** ** The contract of the construction *)

(** The abstract map, from keys to values, and the trees that represent it. *)
Definition map_adt (op : mapOp) : Adt.map_op K V :=
  match op with
  | mapSet k v => Adt.Set_ k v
  | mapGet k => Adt.Get k
  | mapDel k => Adt.Del k
  end.

Definition wf_map_spec : spec (K → option V) mapOp (resp V) :=
  Spec (λ _, None) (λ s op, map_step zeroV (same_key less) s (map_adt op)).

Definition rep (r : mapResult) (s : K → option V) : Prop :=
  avl (root r) ∧ sorted less (elems (root r)) ∧ ∀ k, find less k (elems (root r)) = s k.

Context `{!WeakOrder less}.

#[export] Instance map_implements : Implements map_seq wf_map_spec rep.
Proof.
  split; [by split_and!; [|constructor|]|].
  intros [t v0 ok0] s op (Ht & Hs & Hf). simpl in Ht, Hs, Hf. destruct op as [k x|k|k].
  - destruct (mapInsert_ok less t k x Ht Hs) as (t' & E & Ha & He & _).
    exists (MapResult t' zeroV false). simpl. rewrite E. split; [done|]. split; [|done].
    unfold rep. simpl. rewrite He. split_and!; [done|by apply ins_sorted|].
    intros k'. by rewrite find_ins, Hf by done.
  - simpl. rewrite (mapLookup_ok zeroV less t k Hs), Hf.
    destruct (report zeroV (s k)) as [v ok] eqn:E. exists (MapResult t v ok).
    split; [done|]. split; [done|]. destruct (s k); by injection E as <- <-.
  - destruct (mapDelete_ok zeroV less t k Ht Hs) as (t' & old & ok & E & Ho & Ha & He & _).
    exists (MapResult t' old ok). simpl. rewrite E. split; [done|]. split.
    + unfold rep. simpl. rewrite He. split_and!; [done|by apply del_sorted|].
      intros k'. by rewrite find_del, Hf by done.
    + rewrite Hf in Ho. destruct (s k); by injection Ho as -> ->.
Qed.

Lemma map_code_ok t o : map_code t o = Universal.code map_seq n t o.
Proof.
  destruct o as [|tid [k v|k|k]]; cbn [map_code Universal.code]; [done| | |];
    (unfold Set_, Get, Del; rewrite bind_bind; apply bind_ext;
     intros []; [done|by rewrite ?bind_panic]).
Qed.

(** C26. The wait-free map is linearizable: whatever its at most [n] participants
    call and however their steps interleave, the calls and returns are those
    of a map, with keys the same when neither is less than the other, in some
    order that respects real time. *)
Theorem wf_map_linearizable m cs s :
  NewMap (Z.of_nat n) = Some m → reaches (map_object m) cs s →
  linearizable (uspec wf_map_spec n) (sy_hist s).
Proof.
  intros Hm. exact (instance_linearizable _ _ rep n (map_object m) Hm map_code_ok eq_refl cs s).
Qed.

(** It is wait-free: under any schedule an operation has returned, or is about
    to, after [23 * n + 50] steps of its own (a tree operation of a [publish]
    is one of them). *)
Theorem wf_map_wait_free m cs s t r :
  NewMap (Z.of_nat n) = Some m → reaches (map_object m) cs s →
  sy_thr s !! t = Some r →
  r_steps r ≤ 23 * n + 50 ∧ (r_steps r = 23 * n + 50 → ∃ v, r_prog r = Ret v).
Proof.
  intros Hm. exact (instance_wait_free _ wf_map_spec rep n (map_object m) Hm
    map_code_ok eq_refl cs s t r).
Qed.

(** C35. No schedule makes a method of the wait-free map dereference nil, in the
    operations on its trees included, or index out of range. *)
Theorem wf_map_no_panic m cs :
  NewMap (Z.of_nat n) = Some m → exec (map_object m) cs (start (map_object m)) ≠ Crash.
Proof.
  intros Hm. exact (instance_no_crash _ wf_map_spec rep n (map_object m) Hm
    map_code_ok eq_refl cs).
Qed.
End map.

(** One participant sets 3, then 5, while the other deletes 3, their steps
    alternating. *)
Definition demo_memory : Map :=
  default (new_mem (map_seq 0%Z 0%Z Z.ltb) 0) (NewMap 0%Z 0%Z Z.ltb 2).

Definition demo_object : object Map (uop mapOp) (uresp (resp Z)) :=
  map_object 0%Z 0%Z Z.ltb 2 demo_memory.

Definition demo_schedule : list (cmd (uop mapOp)) :=
  Call 0 UHandle :: replicate 5 (Step 0) ++ Call 1 UHandle :: replicate 5 (Step 1) ++
  Call 0 (UApply 0 (mapSet 3 30)%Z) :: replicate 37 (Step 0) ++
  Call 1 (UApply 1 (mapDel 3%Z)) :: Call 0 (UApply 0 (mapSet 5 50)%Z) ::
  concat (replicate 37 [Step 0; Step 1]) ++ replicate 15 (Step 0).

Lemma wf_map_demo_new : NewMap 0%Z 0%Z Z.ltb (Z.of_nat 2) = Some demo_memory.
Proof. reflexivity. Qed.

Lemma wf_map_linearizable_witness : ∃ s,
  reaches demo_object demo_schedule s ∧
  sy_hist s = [EInv 0 0 UHandle; ERes 0 0 (RHandle 0); EInv 1 2 UHandle;
               ERes 1 2 (RHandle 1); EInv 0 4 (UApply 0 (mapSet 3 30)%Z);
               ERes 0 4 (RApply RDone); EInv 1 6 (UApply 1 (mapDel 3%Z));
               EInv 0 7 (UApply 0 (mapSet 5 50)%Z); ERes 1 6 (RApply (RVal 30%Z true));
               ERes 0 7 (RApply RDone)] ∧
  linearizable (uspec (wf_map_spec 0%Z Z.ltb) 2) (sy_hist s).
Proof.
  destruct (run_history_reaches demo_object demo_schedule _
    ltac:(vm_compute; reflexivity)) as (s & Hs & Hh).
  exists s. split; [exact Hs|]. split; [exact Hh|].
  exact (wf_map_linearizable 0%Z 0%Z Z.ltb 2 demo_memory demo_schedule s wf_map_demo_new Hs).
Defined.

Lemma wf_map_wait_free_witness : ∃ s r,
  reaches demo_object (take 120 demo_schedule) s ∧ sy_thr s !! 0 = Some r ∧
  r_steps r = 34 ∧ r_steps r ≤ 23 * 2 + 50.
Proof.
  destruct (run_steps_reaches demo_object (take 120 demo_schedule) 0 34
    ltac:(vm_compute; reflexivity)) as (s & r & Hs & Hr & Hn).
  exists s, r. split; [exact Hs|]. split; [exact Hr|]. split; [exact Hn|].
  exact (proj1 (wf_map_wait_free 0%Z 0%Z Z.ltb 2 demo_memory _ s 0 r wf_map_demo_new Hs Hr)).
Defined.

Lemma wf_map_no_panic_witness :
  exec demo_object demo_schedule (start demo_object) ≠ Crash.
Proof. exact (wf_map_no_panic 0%Z 0%Z Z.ltb 2 demo_memory demo_schedule wf_map_demo_new). Defined.
End Map.
