(* ===== verification/RingBuffer.v ===== *)
(** [wf.RingBuffer]: the single-producer/single-consumer ring buffer
    ([wf/ringbuffer.go]).

    Goroutine 0 is the producer and goroutine 1 the consumer; everyone may
    observe.  The cursors are 64-bit counters that wrap around; they count the
    items ever put and ever got. *)

From S2P Require Export Rules Adt.

(** ** [nextPowerOfTwo] *)

(** The loop with the variable [p], given [fuel] rounds; [None] when it is still
    running then. *)
Fixpoint nextPowerOfTwo_loop (fuel : nat) (p n : Z) : option Z :=
  match fuel with
  | 0 => None
  | S fuel =>
      if bool_decide (p < n)%Z then nextPowerOfTwo_loop fuel (i64 (Z.shiftl p 1)) n
      else Some p
  end.

Definition nextPowerOfTwo (fuel : nat) (n : Z) : option Z :=
  if bool_decide (n < 1)%Z then Some 1%Z else nextPowerOfTwo_loop fuel 1 n.

(** Once [p] has overflowed, the loop runs forever. *)
Lemma loop_zero fuel n : (0 < n)%Z → nextPowerOfTwo_loop fuel 0 n = None.
Proof. intros Hn. induction fuel; simpl; [done|]. by rewrite bool_decide_true by lia. Qed.

Lemma loop_negative fuel n : (0 < n)%Z → nextPowerOfTwo_loop fuel (- 2 ^ 63) n = None.
Proof.
  intros Hn. destruct fuel; [done|]. cbn [nextPowerOfTwo_loop].
  rewrite bool_decide_true by lia. by apply loop_zero.
Qed.

Lemma loop_double k : (0 <= k <= 61)%Z → i64 (Z.shiftl (2 ^ k) 1) = (2 ^ (k + 1))%Z.
Proof.
  intros Hk. rewrite Z.shiftl_mul_pow2, Z.pow_1_r, Z.pow_add_r, Z.pow_1_r by lia.
  apply i64_small. pose proof (Z.pow_le_mono_r 2 k 61). pose proof (Z.pow_pos_nonneg 2 k). lia.
Qed.

(** The result, if there is one, is the least power of two that is large enough. *)
Lemma loop_result fuel k n c :
  (0 < n)%Z → (0 <= k <= 62)%Z → nextPowerOfTwo_loop fuel (2 ^ k) n = Some c →
  ∃ k', (k <= k' <= 62)%Z ∧ c = (2 ^ k')%Z ∧ (n <= c)%Z ∧
        (k' = k ∨ k < k' ∧ 2 ^ (k' - 1) < n)%Z.
Proof.
  intros Hn. revert k. induction fuel as [|fuel IH]; [done|]. intros k Hk.
  cbn [nextPowerOfTwo_loop]. case_bool_decide as Hlt.
  - destruct (decide (k = 62)%Z) as [->|].
    + change (i64 (Z.shiftl (2 ^ 62) 1)) with (- 2 ^ 63)%Z. by rewrite loop_negative.
    + rewrite loop_double by lia. intros (k' & ? & -> & ? & Hmin)%IH; [|lia].
      exists k'. split; [lia|]. split; [done|]. split; [done|]. right.
      destruct Hmin as [->|]; [|lia]. split; [lia|].
      by replace (k + 1 - 1)%Z with k by lia.
  - intros [= <-]. exists k. split; [lia|]. split; [done|]. split; [lia|by left].
Qed.

(** It is reached in at most [64 - k] rounds when it fits an [int]. *)
Lemma loop_terminates fuel k n :
  (n <= 2 ^ 62)%Z → (0 <= k <= 62)%Z → (62 - k < Z.of_nat fuel)%Z →
  is_Some (nextPowerOfTwo_loop fuel (2 ^ k) n).
Proof.
  intros Hn. revert k. induction fuel as [|fuel IH]; intros k Hk Hf; [lia|].
  cbn [nextPowerOfTwo_loop]. case_bool_decide as Hlt; [|done].
  destruct (decide (k = 62)%Z) as [->|]; [lia|]. rewrite loop_double by lia. apply IH; lia.
Qed.

Lemma nextPowerOfTwo_result fuel n c :
  nextPowerOfTwo fuel n = Some c → ∃ k, (0 <= k <= 62)%Z ∧ c = (2 ^ k)%Z ∧ (n <= c)%Z ∧
    ∀ j, (0 <= j)%Z → (n <= 2 ^ j)%Z → (k <= j)%Z.
Proof.
  unfold nextPowerOfTwo. case_bool_decide.
  - intros [= <-]. exists 0%Z. split; [lia|]. split; [done|]. split; [lia|]. by intros.
  - change 1%Z with (2 ^ 0)%Z. intros (k & ? & -> & ? & Hmin)%loop_result; [|lia..].
    exists k. split; [lia|]. split; [done|]. split; [done|]. intros j Hj Hle.
    destruct Hmin as [->|[_ Hmin]]; [lia|]. enough (¬ j ≤ k - 1)%Z by lia. intros Hjk.
    pose proof (Z.pow_le_mono_r 2 j (k - 1)). lia.
Qed.

(** C34. For every capacity up to 2^62, [nextPowerOfTwo] ends within 63 rounds with
    the least power of two that is at least the capacity (1 when that is not
    positive). *)
Theorem nextPowerOfTwo_least n :
  (n <= 2 ^ 62)%Z → ∃ k, (0 <= k <= 62)%Z ∧ nextPowerOfTwo 63 n = Some (2 ^ k)%Z ∧
    (n <= 2 ^ k)%Z ∧ ∀ j, (0 <= j)%Z → (n <= 2 ^ j)%Z → (k <= j)%Z.
Proof.
  intros Hn. assert (is_Some (nextPowerOfTwo 63 n)) as [c E].
  { unfold nextPowerOfTwo. case_bool_decide; [done|].
    change 1%Z with (2 ^ 0)%Z. apply loop_terminates; lia. }
  destruct (nextPowerOfTwo_result _ _ _ E) as (k & ? & -> & ? & ?). eauto.
Qed.

(** C40. For every larger capacity its loop does not end: the variable overflows to
    a negative number, then to zero, and stays there. *)
Theorem nextPowerOfTwo_diverges n fuel :
  (2 ^ 62 < n)%Z → nextPowerOfTwo fuel n = None.
Proof.
  intros Hn. destruct (nextPowerOfTwo fuel n) as [c|] eqn:E; [|done].
  destruct (nextPowerOfTwo_result _ _ _ E) as (k & ? & -> & ? & _).
  pose proof (Z.pow_le_mono_r 2 k 62). lia.
Qed.

Module RingBuffer.

Inductive ring_op (T : Type) :=
  | RingPut (x : T)
  | RingGet
  | RingLen
  | RingCap
  | RingIsFull
  | RingIsEmpty.
Arguments RingPut {_}.
Arguments RingGet {_}.
Arguments RingLen {_}.
Arguments RingCap {_}.
Arguments RingIsFull {_}.
Arguments RingIsEmpty {_}.

Section ring.
Context {T : Type} (zero : T).

Record mem := Mem {
  buf : list T;
  mask : Z;
  head : Z;
  tail : Z
}.

Definition buf_f : field mem (list T) :=
  Field buf (λ b m, Mem b (mask m) (head m) (tail m)).
Definition head_f : field mem Z :=
  Field head (λ h m, Mem (buf m) (mask m) h (tail m)).
Definition tail_f : field mem Z :=
  Field tail (λ t m, Mem (buf m) (mask m) (head m) t).

Definition NewRingBuffer (fuel : nat) (capacity : Z) : option mem :=
  c ← nextPowerOfTwo fuel capacity;
  Some (Mem (replicate (Z.to_nat c) zero) (u64 (c - 1)) 0 0).

(** [uint64(len(rb.buf))] *)
Definition bufLen (m : mem) : Z := Z.of_nat (length (buf m)).

Definition Put (x : T) : prog mem (resp T) :=
  let! tail := act (load tail) in
  let! head := act (load head) in
  let! c := act (load bufLen) in
  if bool_decide (u64 (tail - head) >= c)%Z then Ret (RBool false)
  else
    let! mask := act (load mask) in
    act (store_idx buf_f (Z.land tail mask) x) ;;;
    act (store tail_f (u64 (tail + 1))) ;;;
    Ret (RBool true).

Definition Get : prog mem (resp T) :=
  let! head := act (load head) in
  let! tail := act (load tail) in
  if bool_decide (head = tail) then Ret (RVal zero false)
  else
    let! mask := act (load mask) in
    let! x := act (load_idx buf (Z.land head mask)) in
    act (store_idx buf_f (Z.land head mask) zero) ;;;
    act (store head_f (u64 (head + 1))) ;;;
    Ret (RVal x true).

Definition Len : prog mem (resp T) :=
  let! t := act (load tail) in
  let! h := act (load head) in
  Ret (RLen (i64 (u64 (t - h)))).

Definition Cap : prog mem (resp T) :=
  let! c := act (load bufLen) in Ret (RLen c).

Definition IsFull : prog mem (resp T) :=
  let! t := act (load tail) in
  let! h := act (load head) in
  let! c := act (load bufLen) in
  Ret (RBool (bool_decide (u64 (t - h) >= c)%Z)).

Definition IsEmpty : prog mem (resp T) :=
  let! h := act (load head) in
  let! t := act (load tail) in
  Ret (RBool (bool_decide (h = t))).

Definition code (_ : nat) (o : ring_op T) : prog mem (resp T) :=
  match o with
  | RingPut x => Put x
  | RingGet => Get
  | RingLen => Len
  | RingCap => Cap
  | RingIsFull => IsFull
  | RingIsEmpty => IsEmpty
  end.

(** The contract: one producer and one consumer. *)
Definition allowed (t _ : nat) (o : ring_op T) (_ : mem) : bool :=
  match o with
  | RingPut _ => bool_decide (t = 0)
  | RingGet => bool_decide (t = 1)
  | _ => true
  end.

Definition ring_object (m : mem) : object mem (ring_op T) (resp T) :=
  Object m code allowed.

(** ** The specification: a bounded queue *)

(** [Len], [IsFull] and [IsEmpty] are best-effort: the specification leaves
    their results open; [ring_quiescent] is about the cursors they read. *)
Definition ring_step (c : nat) (s : list T) (o : ring_op T) : list T * option (resp T) :=
  match o with
  | RingPut x =>
      if bool_decide (length s < c) then (s ++ [x], Some (RBool true))
      else (s, Some (RBool false))
  | RingGet =>
      match s with
      | [] => ([], Some (RVal zero false))
      | x :: s' => (s', Some (RVal x true))
      end
  | RingCap => (s, Some (RLen (Z.of_nat c)))
  | RingLen | RingIsFull | RingIsEmpty => (s, None)
  end.

Definition ring_spec (c : nat) : spec (list T) (ring_op T) (resp T) :=
  Spec [] (ring_step c).

(** ** The invariant *)

(** The capacity is a power of two that an [int] can hold. *)
Context (c : nat) (Hc : ∃ k, (0 <= k <= 62)%Z ∧ Z.of_nat c = (2 ^ k)%Z).
Abbreviation Sp := (ring_spec c).

(** Ghost state: how many items were got so far, the item that the producer
    wrote and did not publish yet, and whether the consumer cleared the slot
    of the item that it is getting. *)
Record aux := Aux {
  gone : nat;
  filled : option T;
  taken : bool
}.

Abbreviation world := (world mem (ring_op T) (resp T) aux).
Implicit Types (w : world) (t i j : nat).

Definition items w : list T := g_state Sp (w_gh w).
Definition size w : nat := length (items w).

(** What the slot [i] places behind the head cursor holds, when the queue is
    [its]. *)
Definition content (its : list T) (fl : option T) (tk : bool) i : option T :=
  if decide (i < length its) then
    if decide (i = 0 ∧ tk = true) then Some zero else its !! i
  else Some (if decide (i = length its) then default zero fl else zero).

Record Inv w : Prop := {
  i_cap : length (buf (w_mem w)) = c;
  i_mask : mask (w_mem w) = (Z.of_nat c - 1)%Z;
  i_head : head (w_mem w) = u64 (Z.of_nat (gone (w_aux w)));
  i_tail : tail (w_mem w) = u64 (Z.of_nat (gone (w_aux w) + size w));
  i_size : size w ≤ c;
  i_slots : ∀ i, i < c → buf (w_mem w) !! ((gone (w_aux w) + i) mod c) =
    content (items w) (filled (w_aux w)) (taken (w_aux w)) i;
  i_filled : is_Some (filled (w_aux w)) → size w < c;
  i_taken : taken (w_aux w) = true → 0 < size w;
  i_idle0 : g_thr (w_gh w) !! 0 = None → filled (w_aux w) = None;
  i_idle1 : g_thr (w_gh w) !! 1 = None → taken (w_aux w) = false
}.

Record R (t : nat) w w' : Prop := {
  r_put : t = 0 → gone (w_aux w) + size w = gone (w_aux w') + size w' ∧
    gone (w_aux w) ≤ gone (w_aux w') ∧ filled (w_aux w') = filled (w_aux w);
  r_get : t = 1 → gone (w_aux w') = gone (w_aux w) ∧ items w `prefix_of` items w' ∧
    taken (w_aux w') = taken (w_aux w);
  r_quiet : quiet t (w_gh w) (w_gh w')
}.

Lemma ring_R_order t : PreOrder (R t).
Proof.
  split.
  - by split.
  - intros w1 w2 w3 [P1 G1 Q1] [P2 G2 Q2]. split.
    + intros Ht. destruct (P1 Ht) as (? & ? & <-), (P2 Ht) as (? & ? & <-).
      split; [lia|]. split; [lia|done].
    + intros Ht. destruct (G1 Ht) as (<- & ? & <-), (G2 Ht) as (<- & ? & <-).
      split; [done|]. split; [by etrans|done].
    + by etrans.
Qed.

Definition proto : protocol mem (ring_op T) (resp T) aux := Protocol Inv R ring_R_order.
Abbreviation rely := (pr_rely proto).
Definition steps : nat := 6.
Abbreviation pg := (WaitFree steps).
Abbreviation wp t := (wp Sp proto pg t (post Sp proto t)).

(** ** Arithmetic of the cursors *)

Lemma cap_pos : 0 < c.
Proof using Hc. destruct Hc as (k & ? & E). pose proof (Z.pow_pos_nonneg 2 k). lia. Qed.

Lemma cap_range : (Z.of_nat c <= 2 ^ 62)%Z.
Proof using Hc.
  destruct Hc as (k & ? & E). pose proof (Z.pow_le_mono_r 2 k 62). lia.
Qed.

(** Masking a cursor is taking it modulo the capacity, also after it wrapped. *)
Lemma mask_index j :
  Z.land (u64 (Z.of_nat j)) (Z.of_nat c - 1) = Z.of_nat (j mod c).
Proof using Hc.
  destruct Hc as (k & Hk & E). rewrite Nat2Z.inj_mod, E.
  replace (2 ^ k - 1)%Z with (Z.ones k) by (rewrite Z.ones_equiv; lia).
  rewrite Z.land_ones by lia. unfold u64, two64.
  rewrite Z.mod_mod_divide; [done|]. exists (2 ^ (64 - k))%Z.
  rewrite <-Z.pow_add_r by lia. f_equal. lia.
Qed.

Lemma cursor_diff g k : k ≤ c → u64 (u64 (Z.of_nat (g + k)) - u64 (Z.of_nat g)) = Z.of_nat k.
Proof using Hc.
  intros Hk. rewrite u64_sub_l, u64_sub_r, u64_small; [lia|].
  pose proof cap_range. rewrite two64_val. lia.
Qed.

Lemma cursor_eq g k : k ≤ c → u64 (Z.of_nat g) = u64 (Z.of_nat (g + k)) → k = 0.
Proof using Hc.
  intros Hk E. pose proof (cursor_diff g k Hk) as Hd. rewrite <-E in Hd.
  rewrite Z.sub_diag in Hd. unfold u64 in Hd. rewrite Z.mod_0_l in Hd by done. lia.
Qed.

(** Slots at different distances behind the head are different. *)
Lemma slot_inj g i j : i < c → j < c → (g + i) mod c = (g + j) mod c → i = j.
Proof using Hc.
  intros Hi Hj E. pose proof cap_pos.
  pose proof (Nat.div_mod_eq (g + i) c) as Ei. pose proof (Nat.div_mod_eq (g + j) c) as Ej.
  rewrite E in Ei. destruct (Nat.lt_trichotomy ((g + i) / c) ((g + j) / c)) as [?|[?|?]]; nia.
Qed.

Lemma slot_lt w j : Inv w → j mod c < length (buf (w_mem w)).
Proof using Hc.
  intros HI. rewrite (i_cap _ HI). apply Nat.mod_upper_bound. pose proof cap_pos. lia.
Qed.

(** ** The slots before and after a write *)

Lemma content_new its fl tk : content its fl tk (length its) = Some (default zero fl).
Proof using. unfold content. by rewrite decide_False, decide_True by lia. Qed.

Lemma content_old its fl fl' tk i :
  i ≠ length its → content its fl tk i = content its fl' tk i.
Proof using. intros. unfold content. by rewrite !(decide_False (P := i = length its)). Qed.

Lemma content_push its x tk i :
  (tk = true → 0 < length its) → content (its ++ [x]) None tk i = content its (Some x) tk i.
Proof using.
  intros Htk. unfold content. rewrite length_app. simpl.
  destruct (decide (i < length its)) as [Hlt|Hge].
  - rewrite decide_True by lia. by rewrite lookup_app_l.
  - destruct (decide (i = length its)) as [->|Hne].
    + rewrite decide_True, lookup_app_r, Nat.sub_diag by lia.
      rewrite decide_False; [done|]. intros [E Ht]. specialize (Htk Ht). lia.
    + rewrite decide_False by lia. by destruct (decide _).
Qed.

Lemma content_clear its fl i :
  i ≠ 0 → content its fl false i = content its fl true i.
Proof using. intros. unfold content. by rewrite !(decide_False (P := i = 0 ∧ _)) by (by intros []). Qed.

Lemma content_cleared x its fl : content (x :: its) fl true 0 = Some zero.
Proof using. done. Qed.

Lemma content_head x its fl : content (x :: its) fl false 0 = Some x.
Proof using. done. Qed.

Lemma content_free its fl tk i :
  length its ≤ i → (i = length its → fl = None) → content its fl tk i = Some zero.
Proof using.
  intros Hle Hfl. unfold content. rewrite decide_False by lia.
  destruct (decide (i = length its)) as [E|]; [|done]. by rewrite (Hfl E).
Qed.

Lemma content_pop x its fl i : content its fl false i = content (x :: its) fl true (S i).
Proof using.
  unfold content. simpl. destruct (decide (i < length its)).
  - rewrite !decide_False by (by intros []). by rewrite decide_True by lia.
  - rewrite (decide_False (P := S i < _)) by lia.
    by destruct (decide (i = length its)), (decide (S i = S (length its))); try lia.
Qed.

(** ** What a goroutine knows, and that the others respect it *)

(** Neither half of the work of [t] is visible. *)
Definition idle t w : Prop :=
  (t = 0 → filled (w_aux w) = None) ∧ (t = 1 → taken (w_aux w) = false).

Definition ready t (o : ring_op T) w : Prop := pending (w_gh w) t o ∧ idle t w.

Definition complete t (r : resp T) w : Prop := finished (w_gh w) t r ∧ idle t w.

(** The producer knows its cursor and that there is room. *)
Definition room w : Prop := size w < c.

(** It wrote [x] and has to publish it. *)
Definition putting x w : Prop :=
  pending (w_gh w) 0 (RingPut x) ∧ filled (w_aux w) = Some x.

(** The consumer knows the item at the head. *)
Definition next_item x w : Prop := ∃ s, items w = x :: s.

(** It cleared the slot of [x] and has to publish that. *)
Definition getting x w : Prop :=
  pending (w_gh w) 1 RingGet ∧ taken (w_aux w) = true ∧ next_item x w.

Section stability.
Context (t : nat) (w w' : world) (HR : rely t w w').

Lemma idle_stable : idle t w → idle t w'.
Proof using HR.
  intros [H0 H1]. split; intros Ht.
  - destruct (r_put _ _ _ HR Ht) as (_ & _ & ->). auto.
  - destruct (r_get _ _ _ HR Ht) as (_ & _ & ->). auto.
Qed.

Lemma ring_ready_stable o : ready t o w → ready t o w'.
Proof using HR.
  intros [Hp Hi]. split; [|by apply idle_stable].
  eapply pending_quiet; [exact Hp|apply (r_quiet _ _ _ HR)].
Qed.

Lemma ring_complete_stable r : complete t r w → complete t r w'.
Proof using HR.
  intros [Hf Hi]. split; [|by apply idle_stable].
  eapply finished_quiet; [exact Hf|apply (r_quiet _ _ _ HR)].
Qed.

Lemma room_stable : t = 0 → room w → room w'.
Proof using HR. intros Ht Hr. destruct (r_put _ _ _ HR Ht). unfold room in *. lia. Qed.

Lemma put_cursor_stable : t = 0 → gone (w_aux w) + size w = gone (w_aux w') + size w'.
Proof using HR. intros Ht. apply (r_put _ _ _ HR Ht). Qed.

Lemma putting_stable x : t = 0 → putting x w → putting x w'.
Proof using HR.
  intros Ht [Hp Hf]. destruct (r_put _ _ _ HR Ht) as (_ & _ & Hf').
  split; [|congruence]. subst t.
  eapply pending_quiet; [exact Hp|apply (r_quiet _ _ _ HR)].
Qed.

Lemma next_item_stable x : t = 1 → next_item x w → next_item x w'.
Proof using HR.
  intros Ht [s Hs]. destruct (r_get _ _ _ HR Ht) as (_ & [k Hk] & _).
  exists (s ++ k). by rewrite Hk, Hs.
Qed.

Lemma getting_stable x : t = 1 → getting x w → getting x w'.
Proof using HR.
  intros Ht (Hp & Htk & Hx). destruct (r_get _ _ _ HR Ht) as (_ & _ & Htk').
  split; [|split; [congruence|by apply next_item_stable]]. subst t.
  eapply pending_quiet; [exact Hp|apply (r_quiet _ _ _ HR)].
Qed.
End stability.

(** ** The writes of the code keep the invariant *)

#[local] Arguments Nat.modulo : simpl never.

(** An operation that leaves the queue as it is takes effect. *)
Lemma observe_step t o r w :
  Inv w → ready t o w → ring_step c (items w) o = (items w, Some r) →
  let w' := upd Sp w (w_mem w) [t] (w_aux w) in
  good_step proto t w w' ∧ complete t r w'.
Proof.
  intros HI [Hp Hi] Hstep w'.
  assert ((spec_step Sp (g_state Sp (w_gh w)) o).2 = Some r) as Hr
    by (unfold items in Hstep; simpl; by rewrite Hstep).
  destruct (lin1_pending Sp _ _ _ _ Hp Hr) as (Hf & Hst & _ & Hdom).
  assert (items w' = items w) as Hit.
  { unfold items in *. simpl. rewrite Hst. simpl. by rewrite Hstep. }
  assert (size w' = size w) as Hsz by (unfold size; by rewrite Hit).
  split; [split|by split].
  - split; try apply HI; rewrite ?Hsz; try apply HI.
    + intros i Hlt. rewrite Hit. exact (i_slots _ HI i Hlt).
    + intros H0. by apply (i_idle0 _ HI), Hdom.
    + intros H1. by apply (i_idle1 _ HI), Hdom.
  - intros u Hu. split.
    + intros _. rewrite Hsz. by split.
    + intros _. rewrite Hit. by split.
    + by apply quiet_lin1.
Qed.

(** [rb.buf[tail&rb.mask] = x] *)
Lemma put_write x w :
  Inv w → ready 0 (RingPut x) w → room w →
  let m := w_mem w in
  let w' := upd Sp w (f_set buf_f (<[(gone (w_aux w) + size w) mod c := x]> (buf m)) m) []
              (Aux (gone (w_aux w)) (Some x) (taken (w_aux w))) in
  good_step proto 0 w w' ∧ putting x w'.
Proof using Hc.
  intros HI [Hp Hi] Hroom m w'. subst m.
  split; [split|by split].
  - split; try apply HI; simpl.
    + rewrite length_insert. apply HI.
    + intros i Hlt. change (items _) with (items w).
      destruct (decide (i = size w)) as [->|Hne].
      * rewrite list_lookup_insert_eq by by apply slot_lt. by rewrite content_new.
      * rewrite list_lookup_insert_ne by (intros E%slot_inj; [by subst|done..]).
        rewrite (i_slots _ HI i Hlt). by apply content_old.
    + intros _. exact Hroom.
    + intros H0. destruct Hp as (? & ? & ? & ?). simplify_eq/=.
  - intros u Hu. split; [done| |done]. intros _. by split.
Qed.

(** [rb.tail.Store(tail + 1)]: the put takes effect. *)
Lemma put_publish x w :
  Inv w → putting x w →
  let m := w_mem w in
  let w' := upd Sp w (f_set tail_f (u64 (tail m + 1)) m) [0]
              (Aux (gone (w_aux w)) None (taken (w_aux w))) in
  good_step proto 0 w w' ∧ complete 0 (RBool true) w'.
Proof using Hc.
  intros HI [Hp Hf] m w'. subst m.
  assert (size w < c) as Hroom by (apply (i_filled _ HI); by rewrite Hf).
  assert (ring_step c (items w) (RingPut x) = (items w ++ [x], Some (RBool true))) as Hstep
    by (simpl; by rewrite bool_decide_true by exact Hroom).
  assert ((spec_step Sp (g_state Sp (w_gh w)) (RingPut x)).2 = Some (RBool true)) as Hr
    by (unfold items in Hstep; simpl in *; by rewrite Hstep).
  destruct (lin1_pending Sp _ _ _ _ Hp Hr) as (Hfin & Hst & _ & Hdom).
  assert (items w' = items w ++ [x]) as Hit.
  { unfold items in *. simpl in *. by rewrite Hst, Hstep. }
  assert (size w' = S (size w)) as Hsz.
  { unfold size. rewrite Hit, length_app. simpl. lia. }
  split; [split|by split].
  - split; try apply HI; rewrite ?Hsz.
    + simpl. rewrite (i_tail _ HI), u64_add_l. f_equal. lia.
    + exact Hroom.
    + intros i Hlt. rewrite Hit. simpl. rewrite content_push by apply (i_taken _ HI).
      rewrite <-Hf. exact (i_slots _ HI i Hlt).
    + by intros [].
    + intros Htk. lia.
    + done.
    + intros H1. by apply (i_idle1 _ HI), Hdom.
  - intros u Hu. split; [done| |].
    + intros _. rewrite Hit. split; [done|]. split; [apply prefix_snoc|done].
    + by apply quiet_lin1.
Qed.

(** [rb.buf[head&rb.mask] = zero] *)
Lemma get_clear x w :
  Inv w → ready 1 RingGet w → next_item x w →
  let m := w_mem w in
  let w' := upd Sp w (f_set buf_f (<[gone (w_aux w) mod c := zero]> (buf m)) m) []
              (Aux (gone (w_aux w)) (filled (w_aux w)) true) in
  good_step proto 1 w w' ∧ getting x w'.
Proof using Hc.
  intros HI [Hp [_ Hi]] [s Hs] m w'. subst m. specialize (Hi eq_refl).
  split; [split|split; [done|by split; [|exists s]]].
  - split; try apply HI; simpl.
    + rewrite length_insert. apply HI.
    + intros i Hlt. change (items _) with (items w).
      replace (gone (w_aux w) mod c) with ((gone (w_aux w) + 0) mod c) by (f_equal; lia).
      destruct (decide (i = 0)) as [->|Hne].
      * rewrite list_lookup_insert_eq by by apply slot_lt.
        by rewrite Hs, content_cleared.
      * rewrite list_lookup_insert_ne
          by (intros E%slot_inj; [congruence|apply cap_pos|done]).
        rewrite (i_slots _ HI i Hlt), Hi. by apply content_clear.
    + intros _. change (0 < length (items w)). rewrite Hs. simpl. lia.
    + intros H1. destruct Hp as (? & ? & ? & ?). by simplify_eq/=.
  - intros u Hu. split; [|done|done]. intros _. by split.
Qed.

(** [rb.head.Store(head + 1)]: the get takes effect. *)
Lemma get_publish x w :
  Inv w → getting x w →
  let m := w_mem w in
  let w' := upd Sp w (f_set head_f (u64 (head m + 1)) m) [1]
              (Aux (S (gone (w_aux w))) (filled (w_aux w)) false) in
  good_step proto 1 w w' ∧ complete 1 (RVal x true) w'.
Proof using Hc.
  intros HI (Hp & Htk & s & Hs) m w'. subst m.
  assert ((spec_step Sp (g_state Sp (w_gh w)) RingGet).2 = Some (RVal x true)) as Hr
    by (unfold items in Hs; simpl; by rewrite Hs).
  destruct (lin1_pending Sp _ _ _ _ Hp Hr) as (Hfin & Hst & _ & Hdom).
  assert (items w' = s) as Hit.
  { unfold items in *. simpl in *. by rewrite Hst, Hs. }
  assert (size w = S (size w')) as Hsz by (unfold size; by rewrite Hs, Hit).
  pose proof (i_size _ HI) as Hle.
  split; [split|by split].
  - split; try apply HI.
    + simpl. rewrite (i_head _ HI), u64_add_l. f_equal. lia.
    + simpl. rewrite (i_tail _ HI). do 2 f_equal. unfold items in *. lia.
    + lia.
    + intros i Hlt. rewrite Hit. simpl. rewrite (content_pop x), <-Hs, <-Htk.
      destruct (decide (S i < c)) as [Hlt'|].
      * rewrite <-(i_slots _ HI (S i) Hlt'). do 2 f_equal. lia.
      * assert (S i = c) as Hi by lia.
        replace (S (gone (w_aux w) + i)) with (gone (w_aux w) + 0 + 1 * c) by lia.
        rewrite Nat.Div0.mod_add, (i_slots _ HI 0) by lia. rewrite Htk, Hs, content_cleared.
        symmetry. rewrite <-Hs. apply content_free; [unfold size in *; lia|].
        intros E. destruct (filled (w_aux w)) eqn:Hf; [|done].
        pose proof (i_filled _ HI). rewrite Hf in H. unfold size in *.
        specialize (H ltac:(done)). lia.
    + intros Hf. pose proof (i_filled _ HI Hf). lia.
    + done.
    + intros H0. by apply (i_idle0 _ HI), Hdom.
    + done.
  - intros u Hu. split; [|done|].
    + intros _. simpl. split; [lia|]. split; [lia|done].
    + by apply quiet_lin1.
Qed.

(** ** The methods *)

Lemma ring_return_world t r w :
  Inv w → idle t w → good_step proto t w (World (w_mem w) (g_ret t r (w_gh w)) (w_aux w)).
Proof using.
  intros HI [H0 H1]. split.
  - split; try apply HI; simpl.
    + intros [?%H0|?%(i_idle0 _ HI)]%lookup_delete_None; done.
    + intros [?%H1|?%(i_idle1 _ HI)]%lookup_delete_None; done.
  - intros u Hu. split; [done| |by apply quiet_ret]. intros _. by split.
Qed.

Lemma ring_call_world t id o w :
  Inv w → g_thr (w_gh w) !! t = None →
  let w' := World (w_mem w) (g_call t id o (w_gh w)) (w_aux w) in
  good_step proto t w w' ∧ ready t o w'.
Proof using.
  intros HI Hnone w'. split; [split|split; [apply pending_call|]].
  - split; try apply HI; simpl.
    + intros [? _]%lookup_insert_None. by apply (i_idle0 _ HI).
    + intros [? _]%lookup_insert_None. by apply (i_idle1 _ HI).
  - intros u Hu. split; [done| |by apply quiet_call]. intros _. by split.
  - split; intros ->; simpl; [by apply (i_idle0 _ HI)|by apply (i_idle1 _ HI)].
Qed.

Lemma ring_return t b r w : complete t r w → wp t b (Ret r) w.
Proof using.
  intros Hdone. apply wp_ret. intros w1 HR HI.
  destruct (ring_complete_stable _ _ _ HR _ Hdone) as [Hf Hi].
  destruct (finished_ret_ok Sp _ _ _ Hf) as (p & Hp & Hret).
  exists p. split; [done|]. split; [done|]. exists (w_aux w1).
  by apply ring_return_world.
Qed.

(** An observation may return anything. *)
Lemma ring_return_open t b o r w :
  ready t o w → (∀ s, ring_step c s o = (s, None)) → wp t b (Ret r) w.
Proof using.
  intros Hready Ho. apply wp_ret. intros w1 HR HI.
  destruct (ring_ready_stable _ _ _ HR _ Hready) as [Hp Hi].
  destruct (pending_ret_ok_open Sp _ _ _ r Hp) as (p & Hp' & Hret);
    [intros s; unfold answers; simpl; by rewrite Ho|].
  exists p. split; [done|]. split; [done|]. exists (w_aux w1).
  by apply ring_return_world.
Qed.

Lemma put_wp x n w : ready 0 (RingPut x) w → wp 0 (Steps (6 + n)) (Put x) w.
Proof using Hc.
  intros Hready. wp_go wp_load as w1 HR1 HI1.
  apply (ring_ready_stable _ _ _ HR1) in Hready as Hready1.
  rewrite (i_tail _ HI1). wp_go wp_load_lin as w2 HR2 HI2.
  apply (ring_ready_stable _ _ _ HR2) in Hready1 as Hready2.
  rewrite (i_head _ HI2), (put_cursor_stable _ _ _ HR2 eq_refl).
  destruct (decide (size w2 < c)) as [Hroom|Hfull].
  - exists [], (w_aux w2). rewrite upd_id. split; [by apply good_step_refl|].
    wp_go wp_load as w3 HR3 HI3.
    unfold bufLen. rewrite (i_cap _ HI3), cursor_diff by lia.
    rewrite bool_decide_false by lia.
    wp_go wp_load as w4 HR4 HI4. rewrite (i_mask _ HI4), mask_index.
    wp_go wp_store_idx as w5 HR5 HI5. split; [by apply slot_lt|].
    assert (rely 0 w2 w5) as HR25 by (etrans; [exact HR3|]; by etrans).
    destruct (put_write x w5 HI5) as [Hgood Hput];
      [by eapply ring_ready_stable|by eapply room_stable|].
    rewrite (put_cursor_stable _ _ _ HR25 eq_refl).
    eexists [], _. split; [exact Hgood|].
    wp_go wp_store as w6 HR6 HI6. apply (putting_stable _ _ _ HR6) in Hput; [|done].
    destruct (put_publish x w6 HI6 Hput) as [Hgood6 Hdone].
    rewrite (i_tail _ HI6), <-(put_cursor_stable _ _ _ HR6 eq_refl) in Hgood6, Hdone.
    eexists [0], _. split; [exact Hgood6|]. by apply ring_return.
  - assert (size w2 = c) as Hsz by (pose proof (i_size _ HI2); lia).
    destruct (observe_step 0 (RingPut x) (RBool false) w2 HI2 Hready2) as [Hgood Hdone].
    { simpl. by rewrite bool_decide_false by done. }
    eexists _, _. split; [exact Hgood|].
    wp_go wp_load as w3 HR3 HI3.
    unfold bufLen. rewrite (i_cap _ HI3), cursor_diff by lia.
    rewrite bool_decide_true by lia. apply ring_return.
    exact (ring_complete_stable _ _ _ HR3 _ Hdone).
Qed.

Lemma get_wp n w : ready 1 RingGet w → wp 1 (Steps (6 + n)) Get w.
Proof using Hc.
  intros Hready. wp_go wp_load as w1 HR1 HI1.
  apply (ring_ready_stable _ _ _ HR1) in Hready as Hready1.
  rewrite (i_head _ HI1). wp_go wp_load_lin as w2 HR2 HI2.
  apply (ring_ready_stable _ _ _ HR2) in Hready1 as Hready2.
  rewrite (i_tail _ HI2), <-(proj1 (r_get _ _ _ HR2 eq_refl)).
  destruct (items w2) as [|x s] eqn:Hs.
  - destruct (observe_step 1 RingGet (RVal zero false) w2 HI2 Hready2) as [Hgood Hdone];
      [by rewrite Hs|].
    eexists _, _. split; [exact Hgood|].
    rewrite bool_decide_true; [by apply ring_return|].
    unfold size. rewrite Hs. simpl. by rewrite Nat.add_0_r.
  - exists [], (w_aux w2). rewrite upd_id. split; [by apply good_step_refl|].
    rewrite bool_decide_false.
    2:{ intros E%cursor_eq; [|apply HI2]. unfold size in E. by rewrite Hs in E. }
    assert (next_item x w2) as Hx by by exists s.
    wp_go wp_load as w3 HR3 HI3. rewrite (i_mask _ HI3), mask_index.
    wp_go wp_load_idx as w4 HR4 HI4.
    assert (rely 1 w2 w4) as HR24 by by etrans.
    apply (next_item_stable _ _ _ HR24) in Hx as Hx4; [|done].
    assert (ready 1 RingGet w4) as Hready4 by by eapply ring_ready_stable.
    exists x. split.
    { rewrite <-(proj1 (r_get _ _ _ HR24 eq_refl)).
      rewrite <-(Nat.add_0_r (gone _)), (i_slots _ HI4) by apply cap_pos.
      destruct Hx4 as [s4 ->]. by rewrite (proj2 (proj2 Hready4) eq_refl). }
    wp_go wp_store_idx as w5 HR5 HI5. split; [by apply slot_lt|].
    assert (rely 1 w2 w5) as HR25 by by etrans.
    destruct (get_clear x w5 HI5) as [Hgood Hget];
      [by eapply ring_ready_stable|by eapply next_item_stable|].
    rewrite <-(proj1 (r_get _ _ _ HR25 eq_refl)).
    eexists [], _. split; [exact Hgood|].
    wp_go wp_store as w6 HR6 HI6. apply (getting_stable _ _ _ HR6) in Hget; [|done].
    destruct (get_publish x w6 HI6 Hget) as [Hgood6 Hdone].
    rewrite (i_head _ HI6), (proj1 (r_get _ _ _ HR6 eq_refl)) in Hgood6, Hdone.
    eexists [1], _. split; [exact Hgood6|]. by apply ring_return.
Qed.

(** [Len], [IsFull], [IsEmpty]: only loads. *)
Lemma wp_observe {B} t m o (f : mem → B) k w :
  ready t o w → (∀ v w', ready t o w' → wp t (Steps m) (k v) w') →
  wp t (Steps (S m)) (Act (load f) k) w.
Proof using.
  intros Hready Hk. wp_go wp_load as w1 HR1 HI1. apply Hk. by eapply ring_ready_stable.
Qed.

Lemma observers_wp t n o w :
  ready t o w → (∀ s, ring_step c s o = (s, None)) →
  wp t (Steps (6 + n)) Len w ∧ wp t (Steps (6 + n)) IsFull w ∧ wp t (Steps (6 + n)) IsEmpty w.
Proof using.
  intros Hready Ho.
  split_and!; repeat (wp_pure; eapply wp_observe; [eassumption|]; clear w Hready;
    intros ? w Hready; wp_pure); by eapply ring_return_open.
Qed.

Lemma capacity_wp t n w : ready t RingCap w → wp t (Steps (6 + n)) Cap w.
Proof using.
  intros Hready. wp_go wp_load_lin as w1 HR1 HI1. unfold bufLen. rewrite (i_cap _ HI1).
  destruct (observe_step t RingCap (RLen (Z.of_nat c)) w1 HI1) as [Hgood Hdone];
    [by eapply ring_ready_stable|done|].
  eexists _, _. split; [exact Hgood|]. by apply ring_return.
Qed.

(** The memory that the constructor sets up for the capacity [c]. *)
Definition ring_init : mem := Mem (replicate c zero) (Z.of_nat c - 1) 0 0.

Lemma ring_verified : verified Sp proto pg (ring_object ring_init).
Proof using Hc.
  split.
  - exists (Aux 0 None false). split; simpl; try done.
    + apply length_replicate.
    + unfold size. simpl. lia.
    + intros i Hi. rewrite Nat.mod_small, lookup_replicate_2 by done.
      unfold content. simpl. by destruct (decide (i = 0)).
  - intros t id o w HI Hnone _ Hallowed.
    destruct (ring_call_world t id o w HI Hnone) as [[HI' HR] Hready].
    eexists. split; [exact HI'|]. split; [exact HR|]. simpl in Hallowed.
    change (initial_budget _ _) with (Steps (6 + 0)).
    destruct o; simpl in Hallowed; try apply bool_decide_eq_true in Hallowed as ->.
    + by apply put_wp.
    + by apply get_wp.
    + eapply observers_wp; [exact Hready|done].
    + by apply capacity_wp.
    + eapply observers_wp; [exact Hready|done].
    + eapply observers_wp; [exact Hready|done].
Qed.
End ring.

Section ring_properties.
Context {T : Type} (zero : T).

Lemma NewRingBuffer_init fuel capacity m :
  NewRingBuffer zero fuel capacity = Some m → ∃ c,
    m = ring_init zero c ∧ length (buf m) = c ∧
    ∃ k, (0 <= k <= 62)%Z ∧ Z.of_nat c = (2 ^ k)%Z.
Proof.
  unfold NewRingBuffer. intros (c & Hc & [= <-])%bind_Some.
  destruct (nextPowerOfTwo_result _ _ _ Hc) as (k & Hk & -> & _).
  pose proof (Z.pow_pos_nonneg 2 k). pose proof (Z.pow_le_mono_r 2 k 62).
  exists (Z.to_nat (2 ^ k)). split; [|split; [apply length_replicate|]].
  - unfold ring_init. f_equal. rewrite Z2Nat.id, u64_small; [done| |lia].
    rewrite two64_val. lia.
  - exists k. split; [done|]. lia.
Qed.

(** C27. The ring buffer is linearizable with respect to the bounded queue of its
    capacity, with one producer and one consumer: for every interleaving of
    their steps with each other and with the observers, and across the
    wrap-around of the cursors, [Put] fails only on a full queue, [Get] only on
    an empty one, and items come out in the order they went in. *)
Theorem ring_linearizable fuel capacity m cs s :
  NewRingBuffer zero fuel capacity = Some m → reaches (ring_object zero m) cs s →
  linearizable (ring_spec zero (length (buf m))) (sy_hist s).
Proof.
  intros (c & -> & Hl & Hc)%NewRingBuffer_init. rewrite Hl.
  eapply verified_linearizable, ring_verified, Hc.
Qed.

(** C33. It is wait-free: every method ends within six steps of its own. *)
Theorem ring_wait_free fuel capacity m cs s t r :
  NewRingBuffer zero fuel capacity = Some m → reaches (ring_object zero m) cs s →
  sy_thr s !! t = Some r → r_steps r ≤ 6 ∧ (r_steps r = 6 → ∃ v, r_prog r = Ret v).
Proof.
  intros (c & -> & _ & Hc)%NewRingBuffer_init.
  eapply verified_waitfree; [exact (ring_verified zero c Hc)|done].
Qed.

(** The masked cursors never index the buffer out of range. *)
Theorem ring_no_panic fuel capacity m cs :
  NewRingBuffer zero fuel capacity = Some m →
  exec (ring_object zero m) cs (start (ring_object zero m)) ≠ Crash.
Proof.
  intros (c & -> & _ & Hc)%NewRingBuffer_init. eapply verified_no_crash, ring_verified, Hc.
Qed.

Lemma content_idle its i : content zero its None false i = Some (default zero (its !! i)).
Proof.
  unfold content. destruct (decide (i < length its)) as [Hlt|].
  - rewrite decide_False by (by intros []).
    apply lookup_lt_is_Some_2 in Hlt as [x ->]. done.
  - rewrite lookup_ge_None_2 by lia. by destruct (decide _).
Qed.

(** C38. While neither producer nor consumer is at work, the distance of the
    cursors, from which [Len], [IsFull] and [IsEmpty] are computed, is the length of
    the queue that is left by a linearization of the history so far, each of its
    items is in its slot, and every other slot holds the zero value: no reference to
    an item that was taken out is kept. *)
Theorem ring_quiescent fuel capacity m cs s :
  NewRingBuffer zero fuel capacity = Some m → reaches (ring_object zero m) cs s →
  sy_thr s !! 0 = None → sy_thr s !! 1 = None →
  let m' := sy_mem s in
  ∃ L g, linearization (ring_spec zero (length (buf m))) (sy_hist s) L ∧
    let its := run (ring_spec zero (length (buf m))) [] L in
    length its ≤ length (buf m') ∧
    head m' = u64 (Z.of_nat g) ∧ u64 (tail m' - head m') = Z.of_nat (length its) ∧
    ∀ i, i < length (buf m') →
      buf m' !! ((g + i) mod length (buf m')) = Some (default zero (its !! i)).
Proof.
  intros (c & -> & Hl & Hc)%NewRingBuffer_init Hs H0 H1. rewrite Hl.
  destruct (verified_state _ _ _ _ _ _ (ring_verified zero c Hc) Hs)
    as (w & L & <- & HI & Hthr & HL & Hrun).
  apply Hthr in H0, H1. exists L, (gone (w_aux w)). split; [done|]. simpl in Hrun.
  cbn zeta. rewrite Hrun. change (g_state (ring_spec zero c) (w_gh w)) with (items zero c w).
  rewrite (i_cap _ _ _ HI), (i_tail _ _ _ HI), (i_head _ _ _ HI).
  split; [apply HI|]. split; [done|]. split.
  - apply (cursor_diff c Hc). apply HI.
  - intros i Hi. rewrite (i_slots _ _ _ HI i Hi), (i_idle0 _ _ _ HI H0).
    rewrite (i_idle1 _ _ _ HI H1). apply content_idle.
Qed.
End ring_properties.

(** A buffer of capacity 2 (asked for: 2), filled, then drained by one item while
    the producer tries to put a third. *)
Definition demo_memory : mem := ring_init 0 2.

Definition demo_object : object mem (ring_op nat) (resp nat) := ring_object 0 demo_memory.

Definition demo_schedule : list (cmd (ring_op nat)) :=
  Call 0 (RingPut 7) :: replicate 7 (Step 0) ++ Call 0 (RingPut 8) :: replicate 7 (Step 0) ++
  Call 0 (RingPut 9) :: Call 1 RingGet :: concat (replicate 4 [Step 0; Step 1]) ++
  replicate 3 (Step 1) ++ Call 2 RingLen :: replicate 3 (Step 2).

Lemma ring_demo_new : NewRingBuffer 0 63 2 = Some demo_memory.
Proof. reflexivity. Qed.

Lemma ring_linearizable_witness : ∃ s,
  reaches demo_object demo_schedule s ∧
  sy_hist s = [EInv 0 0 (RingPut 7); ERes 0 0 (RBool true); EInv 0 2 (RingPut 8);
               ERes 0 2 (RBool true); EInv 0 4 (RingPut 9); EInv 1 5 RingGet;
               ERes 0 4 (RBool false); ERes 1 5 (RVal 7 true); EInv 2 8 RingLen;
               ERes 2 8 (RLen 1)] ∧
  linearizable (ring_spec 0 2) (sy_hist s).
Proof.
  destruct (run_history_reaches demo_object demo_schedule _
    ltac:(vm_compute; reflexivity)) as (s & Hs & Hh).
  exists s. split; [exact Hs|]. split; [exact Hh|].
  exact (ring_linearizable 0 63 2 demo_memory demo_schedule s ring_demo_new Hs).
Defined.

Lemma ring_wait_free_witness : ∃ s r,
  reaches demo_object (take 24 demo_schedule) s ∧ sy_thr s !! 1 = Some r ∧
  r_steps r = 3 ∧ r_steps r ≤ 6.
Proof.
  destruct (run_steps_reaches demo_object (take 24 demo_schedule) 1 3
    ltac:(vm_compute; reflexivity)) as (s & r & Hs & Hr & Hn).
  exists s, r. split; [exact Hs|]. split; [exact Hr|]. split; [exact Hn|].
  exact (proj1 (ring_wait_free 0 63 2 demo_memory _ s 1 r ring_demo_new Hs Hr)).
Defined.

Lemma ring_no_panic_witness : exec demo_object demo_schedule (start demo_object) ≠ Crash.
Proof. exact (ring_no_panic 0 63 2 demo_memory demo_schedule ring_demo_new). Defined.

Lemma ring_quiescent_witness : ∃ s L,
  reaches demo_object demo_schedule s ∧ linearization (ring_spec 0 2) (sy_hist s) L ∧
  u64 (tail (sy_mem s) - head (sy_mem s)) = Z.of_nat (length (run (ring_spec 0 2) [] L)).
Proof.
  destruct (run_quiet_reaches demo_object demo_schedule
    ltac:(vm_compute; reflexivity)) as (s & Hs & Hq).
  assert (∀ t, sy_thr s !! t = None) as Hn by (intros t; rewrite Hq; apply lookup_empty).
  destruct (ring_quiescent 0 63 2 demo_memory demo_schedule s ring_demo_new Hs (Hn 0) (Hn 1))
    as (L & g & HL & _ & _ & Hlen & _).
  exists s, L. split; [exact Hs|]. split; [exact HL|exact Hlen].
Defined.
End RingBuffer.

Lemma nextPowerOfTwo_least_witness : nextPowerOfTwo 63 5 = Some 8%Z ∧ ∃ k,
  (0 <= k <= 62)%Z ∧ nextPowerOfTwo 63 5 = Some (2 ^ k)%Z.
Proof.
  split; [reflexivity|].
  destruct (nextPowerOfTwo_least 5 ltac:(lia)) as (k & Hk & E & _).
  exists k. split; [exact Hk|exact E].
Defined.

Lemma nextPowerOfTwo_diverges_witness :
  (2 ^ 62 < 2 ^ 62 + 1)%Z ∧ nextPowerOfTwo 1000 (2 ^ 62 + 1) = None.
Proof. split; [reflexivity|]. exact (nextPowerOfTwo_diverges (2 ^ 62 + 1) 1000 ltac:(lia)). Defined.
