(* ===== verification/MapAdt.v ===== *)
(** The lock-free maps as a sequential object.

    The maps of [lf] update the value of a present key in place, so that a
    deletion may return a value that a concurrent [Set] has just replaced, as
    [lf/list.go] documents: the abstract map keeps for each key the values set
    since it was inserted, the current one first; [Get] returns the current value,
    [Del] any of them.  [Set], [Get], [Contains], what [Del] removes and whether it
    did are exact.  [Len] is left open.

    [Range] reads one node after the other, so that what it reports need not be the
    contents at any one moment.  [lmap_spec] only has the keys ascend within
    the bounds; [ranges_observed] says what it reports of the states between its
    call and its return, and [dels_observed] that the value of a [Del] was the
    current one in such a state. *)

From S2P Require Export Spans Order.

Inductive lmap_op (K V : Type) :=
  | MSet (k : K) (v : V)
  | MGet (k : K)
  | MContains (k : K)
  | MDel (k : K)
  | MLen
  | MRange (from to : K).
Arguments MSet {_ _}.
Arguments MGet {_ _}.
Arguments MContains {_ _}.
Arguments MDel {_ _}.
Arguments MLen {_ _}.
Arguments MRange {_ _}.

Inductive lmap_resp (K V : Type) :=
  | MRDone
  | MRVal (v : V) (ok : bool)
  | MRBool (b : bool)
  | MRLen (n : Z)
  | MRRange (kvs : list (K * V)).
Arguments MRDone {_ _}.
Arguments MRVal {_ _}.
Arguments MRBool {_ _}.
Arguments MRLen {_ _}.
Arguments MRRange {_ _}.

Section lmap.
Context {K V : Type} (zero : V) (same : K → K → bool).
(** What a traversal of a range of keys may report. *)
Context (range_ok : K → K → list (K * V) → Prop).

Definition lmap_state : Type := K → option (list V).
Implicit Types (s : lmap_state) (k : K) (v : V).

Definition lmap_get s k : lmap_resp K V :=
  match s k with
  | Some (v :: _) => MRVal v true
  | _ => MRVal zero false
  end.

Definition lmap_step s (o : lmap_op K V) : lmap_state * option (lmap_resp K V) :=
  match o with
  | MSet k v =>
      (λ k', if same k' k then Some (v :: default [] (s k)) else s k', Some MRDone)
  | MGet k => (s, Some (lmap_get s k))
  | MContains k => (s, Some (MRBool (bool_decide (is_Some (s k)))))
  | MDel k =>
      match s k with
      | Some _ => (λ k', if same k' k then None else s k', None)
      | None => (s, Some (MRVal zero false))
      end
  | MLen | MRange _ _ => (s, None)
  end.

(** The responses left open. *)
Definition lmap_free s (o : lmap_op K V) (r : lmap_resp K V) : Prop :=
  match o, r with
  | MDel k, MRVal v true => ∃ vs, s k = Some vs ∧ v ∈ vs
  | MDel _, _ => False
  | MLen, MRLen _ => True
  | MLen, _ => False
  | MRange from to, MRRange kvs => range_ok from to kvs
  | MRange _ _, _ => False
  | _, _ => True
  end.

Definition lmap_pick s (o : lmap_op K V) : option (lmap_resp K V) :=
  match o with
  | MDel k =>
      match s k with
      | Some (v :: _) => Some (MRVal v true)
      | _ => None
      end
  | _ => None
  end.

Lemma lmap_pick_free s o r : lmap_pick s o = Some r → lmap_free s o r.
Proof.
  destruct o; simpl; try done. destruct (s k) as [[|v vs]|]; intros [= <-].
  eexists. split; [done|left].
Qed.

Definition lmap_spec : spec lmap_state (lmap_op K V) (lmap_resp K V) :=
  RelSpec (λ _, None) lmap_step lmap_free lmap_pick lmap_pick_free.
End lmap.

(** A range traversal reports ascending keys within its bounds. *)
Definition ascending_range {K V} (less : Less K) (from to : K) (kvs : list (K * V)) : Prop :=
  sorted less kvs ∧ Forall (λ x, less x.1 from = false ∧ less x.1 to = true) kvs.

(** ** [Range] and [Del] between their call and their return *)

Section observed.
Context {K V : Type} (zero : V) (less : Less K).
Abbreviation Sp := (lmap_spec zero (same_key less) (ascending_range (V:=V) less)).
Abbreviation state := (lmap_state (K:=K) (V:=V)).
Abbreviation history := (list (event (lmap_op K V) (lmap_resp K V))).
Abbreviation log := (list (entry (lmap_op K V) (lmap_resp K V))).
Implicit Types (s : state) (k : K) (v : V) (kvs : list (K * V)) (H : history) (L : log).

(** What a traversal reports, of the states [D] that it met: a pair was in one of
    them, and a key within the bounds that was in all of them is reported. *)
Definition observed_range (D : state → Prop) (from to : K) kvs : Prop :=
  (∀ k v, (k, v) ∈ kvs → ∃ s, D s ∧ lmap_get zero s k = MRVal v true) ∧
  ∀ k, less k from = false → less k to = true → (∀ s, D s → is_Some (s k)) →
    ∃ k' v, (k', v) ∈ kvs ∧ same_key less k' k = true.

(** The value of a deleted key was the current one in one of them. *)
Definition observed_value (D : state → Prop) k v : Prop :=
  ∃ s, D s ∧ lmap_get zero s k = MRVal v true.

Lemma observed_range_mono (D D' : state → Prop) from to kvs :
  (∀ s, D s → D' s) → observed_range D from to kvs → observed_range D' from to kvs.
Proof.
  intros HD [Hin Hall]. split.
  - intros k v (s & Hs & ?)%Hin. eauto.
  - intros k Hf Ht Hk. apply Hall; auto.
Qed.

(** Every [Range] of the history observed the states between its call and its
    return, in the linearization [L], and so did every [Del] that returned a value. *)
Definition ranges_observed H L : Prop := ∀ i j t u from to kvs,
  H !! i = Some (EInv t i (MRange from to)) → H !! j = Some (ERes u i (MRRange kvs)) →
  observed_range (span Sp H L i j) from to kvs.

Definition dels_observed H L : Prop := ∀ i j t u k v,
  H !! i = Some (EInv t i (MDel k)) → H !! j = Some (ERes u i (MRVal v true)) →
  observed_value (span Sp H L i j) k v.

(** The same as a fact of the states with the numbers [lo] to [hi]. *)
Definition map_fact (S : nat → state) (lo hi : nat) (o : lmap_op K V) (r : lmap_resp K V) : Prop :=
  let D s := ∃ n, lo ≤ n ≤ hi ∧ s = S n in
  match o, r with
  | MRange from to, MRRange kvs => observed_range D from to kvs
  | MDel k, MRVal v true => observed_value D k v
  | _, _ => True
  end.

Lemma map_fact_ext S S' lo hi o r :
  (∀ n, n ≤ hi → S' n = S n) → map_fact S lo hi o r → map_fact S' lo hi o r.
Proof.
  intros HS. destruct o as [| | |k| |], r as [|v' [|]| | |]; try done.
  - intros (s & (n & Hn & ->) & Hv). exists (S' n). rewrite HS by lia. split; [exists n|done].
    by rewrite HS by lia.
  - apply observed_range_mono. intros s (n & Hn & ->). exists n. rewrite HS; [done|lia].
Qed.

(** Of the other operations there is no more to say. *)
Definition no_fact (o : lmap_op K V) : bool :=
  match o with MDel _ | MRange _ _ => false | _ => true end.

Lemma no_fact_post {Mem X} (Π : protocol Mem _ _ X) t o b r w :
  no_fact o = true → post Sp Π t b r w → post_with Sp Π map_fact t o b r w.
Proof. intros Ho Hp. split; [done|]. intros p _ _. by destruct o. Qed.

Theorem map_facts_linearization {Mem X} (Π : protocol Mem _ _ X) pg I cs sy :
  verified_with Sp Π pg I map_fact → reaches I cs sy → ∃ L,
  linearization Sp (sy_hist sy) L ∧
  ranges_observed (sy_hist sy) L ∧ dels_observed (sy_hist sy) L.
Proof.
  intros HV Hs. destruct (facts_linearization Sp Π pg I _ map_fact_ext cs sy HV Hs) as (L & HL & Hf).
  exists L. split; [done|]. split.
  - intros i j t u from to kvs Hi Hj.
    destruct (Hf _ _ _ _ _ _ Hi Hj) as (S & lo & hi & Hr & Hspan).
    eapply observed_range_mono; [|exact Hr]. intros st (n & Hn & ->). by apply Hspan.
  - intros i j t u k v Hi Hj.
    destruct (Hf _ _ _ _ _ _ Hi Hj) as (S & lo & hi & (s & (n & Hn & ->) & Hv) & Hspan).
    exists (S n). split; [by apply Hspan|done].
Qed.
End observed.
