(* ===== verification/SplitOrder.v ===== *)
(** The split order of [lf/splithashmap.go]: keys and sentinels are sorted by
    their bit-reversed hash, so that the keys of a bucket are neighbours and
    stay so when the number of buckets doubles. *)

From S2P Require Export Prelude.
Local Open Scope Z_scope.

(** ** The code *)

(** [bits.Reverse32] and [bits.Len64] of Go's [math/bits]. *)
Fixpoint reverse (n : nat) (x : Z) : Z :=
  match n with
  | O => 0
  | S n => x mod 2 * 2 ^ Z.of_nat n + reverse n (x / 2)
  end.
Definition Reverse32 (x : Z) : Z := reverse 32 x.
Definition Len64 (x : Z) : Z := if bool_decide (x = 0) then 0 else Z.log2 x + 1.

(** A [uint32] conversion. *)
Definition u32 (z : Z) : Z := z mod 2 ^ 32.

Definition soRegular (h : Z) : Z := Reverse32 (Z.lor h 0x80000000).
Definition soDummy (b : Z) : Z := Reverse32 (u32 b).

(** Nothing where the shift panics. *)
Definition parentBucket (b : Z) : option Z :=
  let s := Len64 b - 1 in
  if bool_decide (s < 0) then None else Some (Z.ldiff b (u64 (Z.shiftl 1 s))).

(** ** Bit reversal *)

Lemma reverse_range n x : 0 ≤ reverse n x < 2 ^ Z.of_nat n.
Proof.
  revert x. induction n as [|n IH]; intros x; [simpl; lia|].
  cbn [reverse]. rewrite Nat2Z.inj_succ, Z.pow_succ_r by lia.
  pose proof (IH (x / 2)). pose proof (Z.mod_pos_bound x 2). nia.
Qed.

Lemma reverse_0 n : reverse n 0 = 0.
Proof.
  induction n as [|n IH]; [done|]. cbn [reverse].
  rewrite Z.mod_0_l, Z.div_0_l, IH by lia. lia.
Qed.

(** The low bits become the high ones. *)
Lemma reverse_split k n x :
  reverse (k + n) x = reverse k (x mod 2 ^ Z.of_nat k) * 2 ^ Z.of_nat n +
    reverse n (x / 2 ^ Z.of_nat k).
Proof.
  revert x. induction k as [|k IH]; intros x.
  { cbn [reverse Nat.add]. by rewrite Z.div_1_r. }
  cbn [reverse Nat.add]. rewrite IH.
  assert (0 < 2 ^ Z.of_nat k) by (apply Z.pow_pos_nonneg; lia).
  rewrite Nat2Z.inj_succ, Z.pow_succ_r by lia.
  rewrite Z.div_div by lia.
  replace ((x mod (2 * 2 ^ Z.of_nat k)) mod 2) with (x mod 2).
  2:{ rewrite (Z.rem_mul_r x 2), (Z.mul_comm 2), Z.mod_add by lia. by rewrite Z.mod_mod by lia. }
  replace (x mod (2 * 2 ^ Z.of_nat k) / 2) with ((x / 2) mod 2 ^ Z.of_nat k).
  2:{ rewrite (Z.rem_mul_r x 2), (Z.mul_comm 2), Z.div_add by lia.
      rewrite (Z.div_small (x mod 2) 2) by (apply Z.mod_pos_bound; lia). lia. }
  rewrite Nat2Z.inj_add, Z.pow_add_r by lia. ring.
Qed.

Lemma reverse_mod n x : reverse n (x mod 2 ^ Z.of_nat n) = reverse n x.
Proof.
  pose proof (reverse_split n 0 x) as H. rewrite Nat.add_0_r in H. cbn [reverse] in H. lia.
Qed.

(** A single bit, at the top. *)
Lemma reverse_top n : reverse (S n) (2 ^ Z.of_nat n) = 1.
Proof.
  pose proof (reverse_split n 1 (2 ^ Z.of_nat n)) as H.
  assert (0 < 2 ^ Z.of_nat n) by (apply Z.pow_pos_nonneg; lia).
  rewrite Nat.add_1_r in H. rewrite H, Z.mod_same, Z.div_same, reverse_0 by lia. done.
Qed.

Lemma reverse_pos n x : 0 < x < 2 ^ Z.of_nat n → 0 < reverse n x.
Proof.
  revert x. induction n as [|n IH]; intros x; [simpl; lia|].
  rewrite Nat2Z.inj_succ, Z.pow_succ_r by lia. intros Hx. cbn [reverse].
  assert (0 < 2 ^ Z.of_nat n) by (apply Z.pow_pos_nonneg; lia).
  pose proof (reverse_range n (x / 2)). pose proof (Z.div_mod x 2 ltac:(lia)).
  pose proof (Z.mod_pos_bound x 2 ltac:(lia)).
  destruct (decide (x mod 2 = 0)) as [E|]; [|nia].
  specialize (IH (x / 2)). rewrite E. lia.
Qed.

Lemma reverse_involutive n x : 0 ≤ x < 2 ^ Z.of_nat n → reverse n (reverse n x) = x.
Proof.
  revert x. induction n as [|n IH]; intros x; [simpl; lia|].
  rewrite Nat2Z.inj_succ, Z.pow_succ_r by lia. intros Hx.
  assert (0 < 2 ^ Z.of_nat n) by (apply Z.pow_pos_nonneg; lia).
  pose proof (reverse_split n 1 (reverse (S n) x)) as H1. rewrite Nat.add_1_r in H1.
  rewrite H1. cbn [reverse]. pose proof (reverse_range n (x / 2)).
  assert (0 ≤ x / 2 < 2 ^ Z.of_nat n)
    by (split; [apply Z.div_pos|apply Z.div_lt_upper_bound]; lia).
  rewrite (Z.add_comm (x mod 2 * _)), Z.mod_add, Z.div_add by lia.
  rewrite Z.mod_small, (Z.div_small (reverse _ _)), IH by lia.
  pose proof (Z.div_mod x 2 ltac:(lia)). rewrite Z.add_0_l, Z.mod_mod by lia.
  simpl Z.of_nat. lia.
Qed.

(** ** The places of keys and sentinels *)

Lemma pow2_pos n : 0 < 2 ^ Z.of_nat n.
Proof. apply Z.pow_pos_nonneg; lia. Qed.

Lemma reverse32_split (k n : nat) x : (k + n = 32)%nat →
  Reverse32 x = reverse k (x mod 2 ^ Z.of_nat k) * 2 ^ Z.of_nat n + reverse n (x / 2 ^ Z.of_nat k).
Proof. intros E. unfold Reverse32. rewrite <-E. apply reverse_split. Qed.

(** The mark of a regular key. *)
Lemma lor_mark h : 0 ≤ h < 2 ^ 32 → 0 ≤ Z.lor h 0x80000000 < 2 ^ 32.
Proof.
  intros Hh. split; [apply Z.lor_nonneg; lia|].
  assert (Z.lor h 0x80000000 / 2 ^ 32 = 0) as E.
  { rewrite <-Z.shiftr_div_pow2, Z.shiftr_lor, !Z.shiftr_div_pow2 by lia.
    by rewrite (Z.div_small h) by lia. }
  pose proof (Z.div_mod (Z.lor h 0x80000000) (2 ^ 32) ltac:(lia)).
  pose proof (Z.mod_pos_bound (Z.lor h 0x80000000) (2 ^ 32) ltac:(lia)). lia.
Qed.

Lemma lor_mark_mod h (k : nat) : (k ≤ 31)%nat →
  Z.lor h 0x80000000 mod 2 ^ Z.of_nat k = h mod 2 ^ Z.of_nat k.
Proof.
  intros Hk. rewrite <-!Z.land_ones, Z.land_lor_distr_l by lia.
  replace (Z.land 0x80000000 (Z.ones (Z.of_nat k))) with 0; [apply Z.lor_0_r|].
  rewrite Z.land_ones by lia. change 0x80000000 with (2 ^ 31).
  replace 31 with (31 - Z.of_nat k + Z.of_nat k) by lia.
  rewrite Z.pow_add_r by lia. symmetry. apply Z.mod_mul. pose proof (pow2_pos k). lia.
Qed.

Lemma lor_mark_div h (k : nat) : 0 ≤ h < 2 ^ 32 → (k ≤ 31)%nat →
  0 < Z.lor h 0x80000000 / 2 ^ Z.of_nat k < 2 ^ Z.of_nat (32 - k).
Proof.
  intros Hh Hk. pose proof (lor_mark h Hh). pose proof (pow2_pos k).
  assert (Z.lor h 0x80000000 / 2 ^ Z.of_nat k ≠ 0) as Hne.
  { rewrite <-Z.shiftr_div_pow2, Z.shiftr_lor, !Z.shiftr_div_pow2, Z.lor_eq_0_iff by lia.
    intros [_ E]. change 0x80000000 with (2 ^ 31) in E.
    rewrite <-Z.pow_sub_r in E by lia. pose proof (Z.pow_pos_nonneg 2 (31 - Z.of_nat k)). lia. }
  assert (0 ≤ Z.lor h 0x80000000 / 2 ^ Z.of_nat k) by (apply Z.div_pos; lia).
  split; [lia|]. apply Z.div_lt_upper_bound; [done|].
  rewrite <-Z.pow_add_r by lia. replace (Z.of_nat k + Z.of_nat (32 - k)) with 32 by lia. lia.
Qed.

(** With [2 ^ k] buckets the high [k] bits of a place are those of its bucket. *)
Lemma soDummy_place b (k : nat) : (k ≤ 32)%nat → 0 ≤ b < 2 ^ Z.of_nat k →
  soDummy b = reverse k b * 2 ^ Z.of_nat (32 - k).
Proof.
  intros Hk Hb. unfold soDummy, u32.
  assert (2 ^ Z.of_nat k ≤ 2 ^ 32) by (apply Z.pow_le_mono_r; lia).
  rewrite (Z.mod_small b (2 ^ 32)), (reverse32_split k (32 - k)) by lia.
  rewrite Z.mod_small, Z.div_small, reverse_0 by lia. lia.
Qed.

Lemma soRegular_place h (k : nat) : (k ≤ 31)%nat → 0 ≤ h < 2 ^ 32 → ∃ r,
  soRegular h = reverse k (h mod 2 ^ Z.of_nat k) * 2 ^ Z.of_nat (32 - k) + r ∧ 0 < r < 2 ^ Z.of_nat (32 - k).
Proof.
  intros Hk Hh. unfold soRegular. rewrite (reverse32_split k (32 - k)), lor_mark_mod by lia.
  eexists. split; [done|]. split; [|apply reverse_range].
  apply reverse_pos. by apply lor_mark_div.
Qed.

(** C23. The regions of the buckets: with [2 ^ k] buckets, a key comes after the
    sentinel of its bucket and before every place that belongs to another. *)
Theorem split_order_regions h h' (k : nat) : (k ≤ 31)%nat →
  0 ≤ h < 2 ^ 32 → 0 ≤ h' < 2 ^ 32 →
  let b := h mod 2 ^ Z.of_nat k in let b' := h' mod 2 ^ Z.of_nat k in
  soDummy b < soRegular h ∧
  (soDummy b < soDummy b' → soRegular h < soDummy b') ∧
  (soDummy b = soDummy b' ↔ b = b').
Proof.
  intros Hk Hh Hh' b b'. pose proof (pow2_pos k). pose proof (pow2_pos (32 - k)).
  assert (0 ≤ b < 2 ^ Z.of_nat k) as Hb by (apply Z.mod_pos_bound; lia).
  assert (0 ≤ b' < 2 ^ Z.of_nat k) as Hb' by (apply Z.mod_pos_bound; lia).
  destruct (soRegular_place h k Hk Hh) as (r & -> & Hr). fold b.
  rewrite !(soDummy_place _ k) by lia. split; [lia|]. split.
  { intros Hlt. apply Z.mul_lt_mono_pos_r in Hlt; [|done].
    pose proof (Z.mul_le_mono_nonneg_r _ _ (2 ^ Z.of_nat (32 - k)) ltac:(lia)
      (proj2 (Z.le_succ_l _ _) Hlt)). lia. }
  split; [|by intros ->]. intros E. apply Z.mul_cancel_r in E; [|lia].
  by rewrite <-(reverse_involutive k b), E, reverse_involutive.
Qed.

Lemma split_order_regions_witness : (8 ≤ 31)%nat ∧
  let b := 300 mod 2 ^ Z.of_nat 8 in let b' := 9 mod 2 ^ Z.of_nat 8 in
  soDummy b < soRegular 300 ∧
  (soDummy b < soDummy b' → soRegular 300 < soDummy b') ∧
  (soDummy b = soDummy b' ↔ b = b').
Proof. split; [lia|]. apply split_order_regions; lia. Defined.

(** A key's place is odd, a sentinel's is even. *)
Lemma soRegular_odd h : 0 ≤ h < 2 ^ 32 → soRegular h mod 2 = 1.
Proof.
  intros Hh. destruct (soRegular_place h 31 ltac:(lia) Hh) as (r & -> & Hr).
  change (2 ^ Z.of_nat (32 - 31)) with 2 in *. replace r with 1 by lia.
  by rewrite Z.add_comm, Z.mod_add by lia.
Qed.

Lemma soDummy_even b : 0 ≤ b < 2 ^ 31 → soDummy b mod 2 = 0.
Proof.
  intros Hb. rewrite (soDummy_place b 31) by lia. change (2 ^ Z.of_nat (32 - 31)) with 2.
  apply Z.mod_mul. lia.
Qed.

Lemma soDummy_inj b b' : 0 ≤ b < 2 ^ 32 → 0 ≤ b' < 2 ^ 32 → soDummy b = soDummy b' → b = b'.
Proof.
  intros Hb Hb' E. unfold soDummy, u32 in E. rewrite !Z.mod_small in E by lia.
  unfold Reverse32 in E. by rewrite <-(reverse_involutive 32 b), E, reverse_involutive.
Qed.

Lemma soDummy_before h (k : nat) : (k ≤ 31)%nat → 0 ≤ h < 2 ^ 32 →
  soDummy (h mod 2 ^ Z.of_nat k) < soRegular h.
Proof.
  intros Hk Hh. destruct (soRegular_place h k Hk Hh) as (r & -> & Hr).
  pose proof (pow2_pos k). rewrite (soDummy_place _ k); [lia..|].
  apply Z.mod_pos_bound. lia.
Qed.

Lemma soDummy_pos b : 0 < b < 2 ^ 32 → 0 < soDummy b.
Proof. intros Hb. unfold soDummy, u32. rewrite Z.mod_small by lia. by apply (reverse_pos 32). Qed.

(** ** Parents *)

(** Without its highest bit a bucket's number is below that bit; the parent's
    sentinel comes first. *)
Lemma parentBucket_spec b : 0 < b < 2 ^ 32 → ∃ p,
  parentBucket b = Some p ∧ 0 ≤ p < 2 ^ Z.log2 b ∧ soDummy p < soDummy b.
Proof.
  intros Hb. pose proof (Z.log2_spec b ltac:(lia)) as [Hl Hu].
  pose proof (Z.log2_nonneg b). assert (Z.log2 b < 32) by (apply Z.log2_lt_pow2; lia).
  set (l := Z.log2 b) in *. rewrite Z.pow_succ_r in Hu by lia.
  assert (0 < 2 ^ l) by (apply Z.pow_pos_nonneg; lia).
  assert (b / 2 ^ l = 1) as Hd by (symmetry; apply (Z.div_unique b _ 1 (b - 2 ^ l)); lia).
  exists (b mod 2 ^ l). split; [|split].
  - unfold parentBucket, Len64. rewrite (bool_decide_false (b = 0)) by lia. fold l.
    replace (l + 1 - 1) with l by lia. rewrite bool_decide_false by lia. f_equal.
    rewrite Z.shiftl_1_l, u64_small.
    2:{ split; [lia|]. apply (Z.pow_lt_mono_r 2 l 64); lia. }
    rewrite <-Z.sub_nocarry_ldiff; [rewrite Z.mod_eq, Hd by lia; lia|].
    apply Z.bits_inj'. intros i Hi. rewrite Z.ldiff_spec, Z.bits_0.
    destruct (decide (i = l)) as [->|].
    + unfold l at 2. by rewrite Z.bit_log2, andb_false_r by lia.
    + by rewrite Z.pow2_bits_false by lia.
  - by apply Z.mod_pos_bound.
  - assert (∃ n : nat, Z.of_nat n = l) as [n El] by (exists (Z.to_nat l); lia).
    clearbody l. subst l.
    pose proof (Z.mod_pos_bound b (2 ^ Z.of_nat n) ltac:(lia)).
    rewrite (soDummy_place (b mod 2 ^ Z.of_nat n) n) by lia.
    unfold soDummy, u32. rewrite (Z.mod_small b (2 ^ 32)) by lia.
    rewrite (reverse32_split n (32 - n)), Hd by lia.
    assert (0 < reverse (32 - n) 1); [|lia]. apply reverse_pos. split; [lia|].
    apply Z.pow_gt_1; lia.
Qed.
