(* ===== verification/ListShape.v ===== *)
(** What the lock-free lists of [lf] have in common.

    [lf/list.go] and [lf/splithashmap.go] keep sorted lists whose [next] points
    to an immutable pair of a node and a deletion mark.  [Shape] says how a
    structure lays them out in its memory, [NodeOrder] how it orders its nodes;
    the invariant and the proofs about writes use nothing else. *)

From S2P Require Export Rules MapAdt.

(** An immutable pair; a reference is changed by installing a fresh one.
    [markedVal] of [lf/splithashmap.go] is the same. *)
Record listMarkable := ListMarkable {
  lm_ref : option loc;
  lm_marked : bool
}.

(** ** Memory layout *)

(** A heap of nodes, each with a signature that never changes, a value and the
    [next] pointer; a heap of pairs; the first nodes of the lists; and the rest.
    [sh_nil] is what a nil [next] pointer stands for, nothing where it is a
    panic. *)
Class Shape (Mem N G V X : Type) := {
  sh_nodes : field Mem (list N);
  sh_marks : field Mem (list listMarkable);
  sh_heads : Mem → list loc;
  sh_rest : Mem → X;
  sh_sig : N → G;
  sh_val : field N (option V);
  sh_next : field N (option loc);
  sh_nil : option listMarkable;
  sh_nodes_get m x : f_get sh_nodes (f_set sh_nodes x m) = x;
  sh_nodes_marks m x : f_get sh_marks (f_set sh_nodes x m) = f_get sh_marks m;
  sh_nodes_heads m x : sh_heads (f_set sh_nodes x m) = sh_heads m;
  sh_nodes_rest m x : sh_rest (f_set sh_nodes x m) = sh_rest m;
  sh_marks_get m x : f_get sh_marks (f_set sh_marks x m) = x;
  sh_marks_nodes m x : f_get sh_nodes (f_set sh_marks x m) = f_get sh_nodes m;
  sh_marks_heads m x : sh_heads (f_set sh_marks x m) = sh_heads m;
  sh_marks_rest m x : sh_rest (f_set sh_marks x m) = sh_rest m;
  sh_val_get n v : f_get sh_val (f_set sh_val v n) = v;
  sh_val_sig n v : sh_sig (f_set sh_val v n) = sh_sig n;
  sh_val_next n v : f_get sh_next (f_set sh_val v n) = f_get sh_next n;
  sh_next_get n c : f_get sh_next (f_set sh_next c n) = c;
  sh_next_sig n c : sh_sig (f_set sh_next c n) = sh_sig n;
  sh_next_val n c : f_get sh_val (f_set sh_next c n) = f_get sh_val n
}.

Section shape.
Context {Mem N G V X : Type} `{!Shape Mem N G V X}.
Implicit Types (m : Mem) (l x y : loc) (v : V).

Definition node_at m l : option N := f_get sh_nodes m !! l.
Definition sig_of m l : option G := sh_sig <$> node_at m l.
Definition val_of m l : option V := n ← node_at m l; f_get sh_val n.

(** The pointer of [l] to its pair, the pair, and the node after [l]. *)
Definition cell m l : option loc := n ← node_at m l; f_get sh_next n.
Definition pair_of m (c : option loc) : option listMarkable :=
  match c with Some c => f_get sh_marks m !! c | None => sh_nil end.
Definition link m l : option listMarkable := n ← node_at m l; pair_of m (f_get sh_next n).
Definition succ m l : option loc := c ← link m l; lm_ref c.

Lemma cell_link m l : is_Some (node_at m l) → link m l = pair_of m (cell m l).
Proof. intros [n Hn]. unfold link, cell. by rewrite Hn. Qed.

Lemma link_is_node m l mk : link m l = Some mk → is_Some (node_at m l).
Proof. unfold link. destruct (node_at m l); [by eexists|done]. Qed.

Lemma sig_node m l g : sig_of m l = Some g → is_Some (node_at m l).
Proof. unfold sig_of. destruct (node_at m l); [by eexists|done]. Qed.

Lemma succ_link m l mk : link m l = Some mk → succ m l = lm_ref mk.
Proof. unfold succ. by intros ->. Qed.

Lemma pair_prefix m m' (c : option loc) mk :
  f_get sh_marks m `prefix_of` f_get sh_marks m' → pair_of m c = Some mk → pair_of m' c = Some mk.
Proof. destruct c; [|done]. intros ? ?. by eapply prefix_lookup_Some'. Qed.

Lemma link_prefix m m' l mk :
  link m l = Some mk → is_Some (node_at m' l) → cell m' l = cell m l →
  f_get sh_marks m `prefix_of` f_get sh_marks m' → link m' l = Some mk.
Proof.
  intros Hl Hn Hc Hp. pose proof (link_is_node _ _ _ Hl).
  rewrite cell_link, Hc by done. rewrite cell_link in Hl by done. by eapply pair_prefix.
Qed.

Lemma nodes_fields m m' l :
  node_at m' l = node_at m l →
  sig_of m' l = sig_of m l ∧ val_of m' l = val_of m l ∧ cell m' l = cell m l.
Proof. unfold sig_of, val_of, cell. by intros ->. Qed.

(** ** Paths *)

Definition reach m : relation loc := rtc (λ x y, succ m x = Some y).

(** Inserting [n] between [p] and what comes after it. *)
Lemma reach_insert m m' (p n a b : loc) :
  succ m' p = Some n → succ m' n = succ m p →
  (∀ y, y ≠ p → is_Some (succ m y) → succ m' y = succ m y) →
  reach m a b → reach m' a b.
Proof.
  intros Hp' Hn Hother. induction 1 as [a|a a1 b Ha _ IH]; [reflexivity|].
  destruct (decide (a = p)) as [->|Hne].
  - eapply rtc_l; [exact Hp'|]. eapply rtc_l; [|exact IH]. by rewrite Hn.
  - eapply rtc_l; [|exact IH]. rewrite Hother; [done..|by eexists].
Qed.

(** Unlinking [c] behind [p]. *)
Lemma reach_unlink m m' (p c a b : loc) :
  p ≠ c → succ m p = Some c → succ m' p = succ m c →
  (∀ y, y ≠ p → succ m' y = succ m y) → b ≠ c →
  reach m a b → reach m' a b.
Proof.
  intros Hpc Hp Hp' Hother Hb. induction 1 as [a|a a1 b Ha _ IH]; [reflexivity|].
  specialize (IH Hb). destruct (decide (a = p)) as [->|Hne].
  - simplify_eq. inversion IH as [|? a2 ? Ha2 Hr]; simplify_eq.
    rewrite Hother in Ha2 by done. eapply rtc_l; [|exact Hr]. by rewrite Hp'.
  - eapply rtc_l; [|exact IH]. by rewrite Hother.
Qed.

(** A set of nodes that is closed under [succ] and does not change. *)
Lemma reach_same (P : loc → Prop) m m' (a b : loc) :
  (∀ x y, P x → succ m x = Some y → P y ∧ succ m' x = Some y) →
  P a → reach m a b → reach m' a b.
Proof.
  intros Hs Ha. induction 1 as [a|a a1 b Hstep _ IH]; [reflexivity|].
  destruct (Hs _ _ Ha Hstep). eapply rtc_l; [done|]. by apply IH.
Qed.

(** A list does not branch. *)
Lemma reach_linear m (a b c : loc) : reach m a b → reach m a c → reach m b c ∨ reach m c b.
Proof.
  induction 1 as [a|a a1 b Hstep Hr IH]; [by left|].
  intros Hac. inversion Hac as [|? a2 ? Hstep2 Hr2]; simplify_eq.
  - right. by eapply rtc_l.
  - by apply IH.
Qed.

(** ** Changing a node *)

Definition set_node l (f : N → N) m : Mem :=
  match node_at m l with
  | Some n => f_set sh_nodes (<[l := f n]> (f_get sh_nodes m)) m
  | None => m
  end.
Definition set_val l v : Mem → Mem := set_node l (f_set sh_val (Some v)).
Definition set_next l (c : loc) : Mem → Mem := set_node l (f_set sh_next (Some c)).

Lemma set_node_at m l f x :
  node_at (set_node l f m) x = if decide (x = l) then f <$> node_at m l else node_at m x.
Proof.
  unfold set_node, node_at. destruct (f_get sh_nodes m !! l) as [n|] eqn:Hl.
  - rewrite sh_nodes_get. case_decide as Hx.
    + subst. apply list_lookup_insert_eq. by eapply lookup_lt_Some.
    + by rewrite list_lookup_insert_ne.
  - case_decide; [|done]. by subst.
Qed.

Lemma set_node_marks m l f : f_get sh_marks (set_node l f m) = f_get sh_marks m.
Proof. unfold set_node. destruct (node_at m l); [apply sh_nodes_marks|done]. Qed.
Lemma set_node_heads m l f : sh_heads (set_node l f m) = sh_heads m.
Proof. unfold set_node. destruct (node_at m l); [apply sh_nodes_heads|done]. Qed.

Lemma set_node_rest m l f : sh_rest (set_node l f m) = sh_rest m.
Proof. unfold set_node. destruct (node_at m l); [apply sh_nodes_rest|done]. Qed.

Lemma set_node_sig m l f x : (∀ n, sh_sig (f n) = sh_sig n) → sig_of (set_node l f m) x = sig_of m x.
Proof.
  intros Hf. unfold sig_of. rewrite set_node_at. case_decide; [subst|done].
  destruct (node_at m l); [|done]. simpl. by rewrite Hf.
Qed.

Lemma set_val_marks m l v : f_get sh_marks (set_val l v m) = f_get sh_marks m.
Proof. apply set_node_marks. Qed.
Lemma set_val_heads m l v : sh_heads (set_val l v m) = sh_heads m.
Proof. apply set_node_heads. Qed.
Lemma set_val_rest m l v : sh_rest (set_val l v m) = sh_rest m.
Proof. apply set_node_rest. Qed.
Lemma set_val_sig m l v x : sig_of (set_val l v m) x = sig_of m x.
Proof. apply set_node_sig. intros n. apply sh_val_sig. Qed.

Lemma set_val_cell m l v x : cell (set_val l v m) x = cell m x.
Proof.
  unfold cell, set_val. rewrite set_node_at. case_decide; [subst|done].
  destruct (node_at m l); [|done]. simpl. apply sh_val_next.
Qed.

Lemma set_val_link m l v x : link (set_val l v m) x = link m x.
Proof.
  unfold link, pair_of. rewrite set_val_marks. unfold set_val. rewrite set_node_at.
  case_decide; [subst|done]. destruct (node_at m l); [|done]. simpl. by rewrite sh_val_next.
Qed.
Lemma set_val_succ m l v x : succ (set_val l v m) x = succ m x.
Proof. unfold succ. by rewrite set_val_link. Qed.

Lemma set_val_val m l v x :
  is_Some (node_at m l) →
  val_of (set_val l v m) x = if decide (x = l) then Some v else val_of m x.
Proof.
  intros [n Hn]. unfold val_of, set_val. rewrite set_node_at, Hn. case_decide; [|done].
  apply sh_val_get.
Qed.

Lemma set_next_eq m l n (c : loc) :
  node_at m l = Some n →
  f_set sh_nodes (<[l := f_set sh_next (Some c) n]> (f_get sh_nodes m)) m = set_next l c m.
Proof. intros Hl. unfold set_next, set_node. by rewrite Hl. Qed.

Lemma set_val_eq m l n v :
  node_at m l = Some n →
  f_set sh_nodes (<[l := f_set sh_val (Some v) n]> (f_get sh_nodes m)) m = set_val l v m.
Proof. intros Hl. unfold set_val, set_node. by rewrite Hl. Qed.

Lemma set_next_marks m l (c : loc) : f_get sh_marks (set_next l c m) = f_get sh_marks m.
Proof. apply set_node_marks. Qed.
Lemma set_next_heads m l (c : loc) : sh_heads (set_next l c m) = sh_heads m.
Proof. apply set_node_heads. Qed.
Lemma set_next_rest m l (c : loc) : sh_rest (set_next l c m) = sh_rest m.
Proof. apply set_node_rest. Qed.
Lemma set_next_sig m l (c : loc) x : sig_of (set_next l c m) x = sig_of m x.
Proof. apply set_node_sig. intros n. apply sh_next_sig. Qed.

Lemma set_next_val m l (c : loc) x : val_of (set_next l c m) x = val_of m x.
Proof.
  unfold val_of, set_next. rewrite set_node_at. case_decide; [subst|done].
  destruct (node_at m l); [|done]. simpl. apply sh_next_val.
Qed.

Lemma set_next_node m l (c : loc) x : is_Some (node_at m x) → is_Some (node_at (set_next l c m) x).
Proof.
  intros [n Hn]. unfold set_next. rewrite set_node_at. case_decide; [subst; rewrite Hn|rewrite Hn];
    by eexists.
Qed.

Lemma set_next_cell m l (c : loc) x :
  is_Some (node_at m l) →
  cell (set_next l c m) x = if decide (x = l) then Some c else cell m x.
Proof.
  intros [n Hn]. unfold cell, set_next. rewrite set_node_at, Hn. case_decide; [|done].
  apply sh_next_get.
Qed.

Lemma set_next_link m l (c : loc) x :
  is_Some (node_at m l) →
  link (set_next l c m) x = if decide (x = l) then f_get sh_marks m !! c else link m x.
Proof.
  intros [n Hn]. unfold link, pair_of. rewrite set_next_marks. unfold set_next.
  rewrite set_node_at, Hn. case_decide; [|done]. simpl. by rewrite sh_next_get.
Qed.

Lemma set_next_succ m l (c : loc) x :
  is_Some (node_at m l) →
  succ (set_next l c m) x =
    if decide (x = l) then cl ← f_get sh_marks m !! c; lm_ref cl else succ m x.
Proof. intros Hn. unfold succ. rewrite set_next_link by done. by case_decide. Qed.
(** A new pair. *)
Definition add_mark (mk : listMarkable) m : Mem := f_set sh_marks (f_get sh_marks m ++ [mk]) m.

Lemma add_mark_node m mk l : node_at (add_mark mk m) l = node_at m l.
Proof. unfold node_at, add_mark. by rewrite sh_marks_nodes. Qed.
Lemma add_mark_prefix m mk : f_get sh_marks m `prefix_of` f_get sh_marks (add_mark mk m).
Proof. unfold add_mark. rewrite sh_marks_get. apply prefix_snoc. Qed.
Lemma add_mark_lookup m mk :
  f_get sh_marks (add_mark mk m) !! length (f_get sh_marks m) = Some mk.
Proof. unfold add_mark. rewrite sh_marks_get. by apply list_lookup_middle. Qed.
End shape.

Create Rewrite HintDb list_mem.
#[export] Hint Rewrite @set_next_sig @set_next_val @set_next_marks @set_next_heads @set_next_rest
  @set_val_sig @set_val_cell @set_val_link @set_val_succ @set_val_marks @set_val_heads
  @set_val_rest : list_mem.

(** What a structure keeps besides its lists: a condition on it, which may name
    linked nodes by their lists and signatures and the parts [spare] that are still private
    to a goroutine, and how it may change. *)
Class Rest (G X : Type) := {
  rest_ok : X → gmap loc nat → (loc → nat → G → Prop) → Prop;
  rest_le : relation X;
  rest_ok_mono x spare (P P' : loc → nat → G → Prop) :
    (∀ l b s, P l b s → P' l b s) → rest_ok x spare P → rest_ok x spare P';
  rest_le_order :: PreOrder rest_le
}.

(** ** Order *)

(** The order of the nodes, seen from their signatures.  [key_of] is the key of
    a node that is no sentinel, [sig_for k] the signature to look for to find the
    key [k].  A node whose signature is [bounded] is never the last. *)
Class NodeOrder {K : Type} (less : Less K) (G : Type) := {
  node_less : Less G;
  key_of : G → option K;
  sig_for : K → G;
  node_ok : G → Prop;
  bounded : G → Prop;
  node_less_weak :: WeakOrder node_less;
  sig_for_key k : key_of (sig_for k) = Some k;
  sig_for_ok k : node_ok (sig_for k);
  same_keys s s' k k' :
    node_ok s → node_ok s' → key_of s = Some k → key_of s' = Some k' →
    same_key node_less s s' = same_key less k k';
  same_is_key s s' :
    node_ok s → node_ok s' → same_key node_less s s' = true →
    is_Some (key_of s) → is_Some (key_of s');
  bounded_less s s' : node_less s s' = true → bounded s' → bounded s;
  bounded_key s s' : bounded s → node_ok s' → is_Some (key_of s') → bounded s'
}.
Arguments node_less {K} less {G _}.
Arguments key_of {K} less {G _}.
Arguments sig_for {K} less {G _}.
Arguments node_ok {K} less {G _}.
Arguments bounded {K} less {G _}.

Section order.
Context {K G : Type} (less : Less K) `{!NodeOrder less G}.
Implicit Types (s : G) (k : K).

(** The node [s] holds what [s'] stands for. *)
Definition holds s s' : bool := same_key (node_less less) s s'.

Lemma holds_key s k :
  node_ok less s → holds s (sig_for less k) = true ↔
    ∃ k', key_of less s = Some k' ∧ same_key less k' k = true.
Proof.
  intros Hok. split.
  - intros Hh. destruct (same_is_key (sig_for less k) s) as [k' Hk'];
      [apply sig_for_ok|done|by rewrite same_key_sym|by rewrite sig_for_key|].
    exists k'. split; [done|]. rewrite <-Hh. symmetry.
    apply same_keys; [done|apply sig_for_ok|done|apply sig_for_key].
  - intros (k' & Hk' & Hk). rewrite <-Hk.
    apply same_keys; [done|apply sig_for_ok|done|apply sig_for_key].
Qed.

(** A node that does not come before [s'], nor holds it, comes after those that
    do. *)
Lemma not_below_less s s' s1 :
  node_less less s s' = false → holds s s' = false → holds s1 s' = true →
  node_less less s1 s = true.
Proof.
  unfold holds. intros Hb Hh H1. unfold same_key in Hh. rewrite Hb in Hh. simpl in Hh.
  apply negb_false_iff in Hh. by apply (less_same_l _ _ _ _ Hh).
Qed.

Lemma below_less s s' s1 :
  node_less less s s' = true → holds s1 s' = true → node_less less s s1 = true.
Proof. intros Hb H1. apply (less_same_r _ _ _ _ Hb). by rewrite same_key_sym. Qed.

Lemma below_not_holds s s' : node_less less s s' = true → holds s s' = false.
Proof. intros Hb. exact (proj1 (less_not_same _ _ _ Hb)). Qed.

Lemma node_less_neq s s' : node_less less s s' = true → s ≠ s'.
Proof. intros Hlt ->. by rewrite less_irrefl in Hlt. Qed.
End order.

(** How many nodes a structure starts with, the sentinels it may add, numbered
    up to [nblanks], and the traversals an operation may need when nobody
    interferes. *)
Class Capacity (G : Type) := {
  nbase : nat;
  nblanks : nat;
  blank : nat → option G;
  nrounds : nat
}.
