(* ===== verification/ListInv.v ===== *)
(** The invariant of the lock-free lists, and what goroutines rely on.

    A node that was linked stays in [home]; it is dead once marked, and then in
    [limbo] until it is unlinked.  The nodes with a key that are not dead are the
    abstract map.  Sentinels are never marked; [blanks] are those still to be
    added. *)

From S2P Require Export ListShape.

(** ** The abstract map *)

Section state.
Context {K V : Type} (zeroV : V) (less : Less K) `{!WeakOrder less}.
Abbreviation Sp := (lmap_spec zeroV (same_key less) (ascending_range (V:=V) less)).
Implicit Types (L : list (entry (lmap_op K V) (lmap_resp K V))).

(** The map after the first [n] operations. *)
Definition st_at L (n : nat) : lmap_state (K:=K) (V:=V) := run Sp (spec_init Sp) (take n L).
Definition st_now L : lmap_state (K:=K) (V:=V) := run Sp (spec_init Sp) L.

Lemma st_at_now L : st_at L (length L) = st_now L.
Proof. unfold st_at. by rewrite firstn_all. Qed.

Lemma st_at_prefix L L' n : L `prefix_of` L' → n ≤ length L → st_at L' n = st_at L n.
Proof. intros Hp Hn. unfold st_at. by rewrite (take_of_prefix _ _ _ Hp). Qed.

(** It does not tell equal keys apart, and keeps a value for each key. *)
Definition map_ok (s : lmap_state (K:=K) (V:=V)) : Prop :=
  (∀ a b, same_key less a b = true → s a = s b) ∧ ∀ k, s k ≠ Some [].

Lemma map_ok_step s o : map_ok s → map_ok (lmap_step zeroV (same_key less) s o).1.
Proof.
  intros [Hs Hn]. destruct o as [k v|k|k|k| |]; try done; simpl.
  - split.
    + intros a b Hab. destruct (same_key less a k) eqn:Ha, (same_key less b k) eqn:Hb;
        [done| | |by apply Hs].
      * rewrite same_key_sym in Hab. by rewrite (same_key_trans less _ _ _ Hab Ha) in Hb.
      * by rewrite (same_key_trans less _ _ _ Hab Hb) in Ha.
    + intros a. by destruct (same_key less a k).
  - destruct (s k) eqn:Hk; [|done]. simpl. split.
    + intros a b Hab. destruct (same_key less a k) eqn:Ha, (same_key less b k) eqn:Hb;
        [done| | |by apply Hs].
      * rewrite same_key_sym in Hab. by rewrite (same_key_trans less _ _ _ Hab Ha) in Hb.
      * by rewrite (same_key_trans less _ _ _ Hab Hb) in Ha.
    + intros a. by destruct (same_key less a k).
Qed.

Lemma map_ok_run s L : map_ok s → map_ok (run Sp s L).
Proof.
  revert s. induction L as [|e L IH]; intros s Hs; [done|]. simpl. by apply IH, map_ok_step.
Qed.

Lemma st_at_ok L n : map_ok (st_at L n).
Proof. by apply map_ok_run. Qed.

Lemma st_now_ok L : map_ok (st_now L).
Proof. by apply map_ok_run. Qed.
End state.

(** ** The invariant *)

Record list_aux {V : Type} := ListAux {
  home : gmap loc nat;
  own : gmap loc nat;
  dead : gmap loc (nat * nat);
  limbo : gset loc;
  commit : gmap nat (loc * V);
  blanks : gset nat;
  spare : gmap loc nat
}.
Arguments list_aux : clear implicits.
Arguments ListAux {_}.

Section inv.
Context {Mem N G K V X : Type} `{!Shape Mem N G V X} `{!Rest G X}.
Context (zeroV : V) (less : Less K) `{!WeakOrder less} `{!NodeOrder less G} `{!Capacity G}.
(** [bucket k] is the list that keeps the key [k]. *)
Context (bucket : K → nat) (nlists : nat).
Abbreviation Sp := (lmap_spec zeroV (same_key less) (ascending_range (V:=V) less)).
Abbreviation aux := (list_aux V).
Abbreviation world := (world Mem (lmap_op K V) (lmap_resp K V) aux).
Abbreviation log := (list (entry (lmap_op K V) (lmap_resp K V))).
Implicit Types (w : world) (t u b n : nat) (l x y c : loc) (k : K) (v : V) (m : Mem).

Definition state_at w n : lmap_state (K:=K) (V:=V) := st_at zeroV less (g_log (w_gh w)) n.
Definition state_now w : lmap_state (K:=K) (V:=V) := st_now zeroV less (g_log (w_gh w)).

(** The key of a node that is no sentinel. *)
Definition key_at m l : option K := s ← sig_of m l; key_of less s.

(** A linked node. *)
Record pub_ok m (a : aux) l b (s : G) (mk : listMarkable) : Prop := {
  p_sig : sig_of m l = Some s;
  p_link : link m l = Some mk;
  p_kind : node_ok less s;
  p_bucket : ∀ k, key_of less s = Some k → bucket k = b;
  p_marked : lm_marked mk = true ↔ is_Some (dead a !! l);
  p_sentinel : lm_marked mk = true → is_Some (key_of less s);
  p_bounded : bounded less s → is_Some (lm_ref mk);
  p_next : ∀ y, lm_ref mk = Some y → home a !! y = Some b ∧
    ∃ s', sig_of m y = Some s' ∧ node_less less s s' = true
}.

(** [v] was the current value of [k] at some moment from [d0] to [dp], and one of
    its values at [dp]. *)
Definition was L k d0 dp v : Prop :=
  (∃ n vs, d0 ≤ n ≤ dp ∧ st_at zeroV less L n k = Some (v :: vs)) ∧
  ∃ vs, st_at zeroV less L dp k = Some vs ∧ v ∈ vs.

(** The deletion of [l], entry [dp] of the log; it was marked when the log had
    length [d0]. *)
Definition dead_ok m L l d0 dp : Prop :=
  ∃ k v, key_at m l = Some k ∧ val_of m l = Some v ∧ d0 ≤ dp < length L ∧
    was L k d0 dp v ∧ st_at zeroV less L (S dp) k = None.

(** [t] found the key of its [Set] in node [l] and is about to update it. *)
Definition commit_ok w t l v : Prop :=
  ∃ k k' b, key_at (w_mem w) l = Some k ∧ same_key less k' k = true ∧
    home (w_aux w) !! l = Some b ∧
    match dead (w_aux w) !! l with
    | None => pending (w_gh w) t (MSet k' v)
    | Some (d0, dp) => finished (w_gh w) t MRDone ∧ was (g_log (w_gh w)) k d0 dp v
    end.

(** The linked nodes, their lists and signatures. *)
Definition pub_sig m (a : aux) l b (s : G) : Prop :=
  home a !! l = Some b ∧ sig_of m l = Some s.

(** Linked from the head: not unlinked yet. *)
Definition linked (a : aux) l : Prop := dead a !! l = None ∨ l ∈ limbo a.

Record Inv w : Prop := {
  i_pub : ∀ l b, home (w_aux w) !! l = Some b → ∃ s mk, pub_ok (w_mem w) (w_aux w) l b s mk;
  i_lists : length (sh_heads (w_mem w)) = nlists;
  i_head : ∀ b h, sh_heads (w_mem w) !! b = Some h →
    home (w_aux w) !! h = Some b ∧ ∃ s, sig_of (w_mem w) h = Some s ∧
    key_of less s = None ∧ ∀ k, node_less less s (sig_for less k) = true;
  i_alive : ∀ l b h, home (w_aux w) !! l = Some b → dead (w_aux w) !! l = None →
    sh_heads (w_mem w) !! b = Some h → reach (w_mem w) h l;
  i_sound : ∀ l b k, home (w_aux w) !! l = Some b → dead (w_aux w) !! l = None →
    key_at (w_mem w) l = Some k →
    ∃ v vs, state_now w k = Some (v :: vs) ∧ val_of (w_mem w) l = Some v;
  i_complete : ∀ k, is_Some (state_now w k) → ∃ l b k', home (w_aux w) !! l = Some b ∧
    dead (w_aux w) !! l = None ∧ key_at (w_mem w) l = Some k' ∧
    same_key less k' k = true;
  i_dead : ∀ l d0 dp, dead (w_aux w) !! l = Some (d0, dp) →
    is_Some (home (w_aux w) !! l) ∧ dead_ok (w_mem w) (g_log (w_gh w)) l d0 dp;
  i_commit : ∀ t l v, commit (w_aux w) !! t = Some (l, v) → commit_ok w t l v;
  i_idle : ∀ t, g_thr (w_gh w) !! t = None → commit (w_aux w) !! t = None;
  i_own : ∀ l t, own (w_aux w) !! l = Some t →
    home (w_aux w) !! l = None ∧ is_Some (node_at (w_mem w) l);
  i_limbo : ∀ l, l ∈ limbo (w_aux w) → is_Some (dead (w_aux w) !! l);
  i_linked : ∀ l b y, home (w_aux w) !! l = Some b → linked (w_aux w) l →
    succ (w_mem w) l = Some y → linked (w_aux w) y;
  i_inj : ∀ l b l' b' y, home (w_aux w) !! l = Some b → home (w_aux w) !! l' = Some b' →
    linked (w_aux w) l → linked (w_aux w) l' →
    succ (w_mem w) l = Some y → succ (w_mem w) l' = Some y → l = l';
  i_size : size (home (w_aux w)) + size (blanks (w_aux w)) ≤ nbase + w_len w;
  i_deads : size (dead (w_aux w)) ≤ w_len w;
  i_blanks : ∀ b, b ∈ blanks (w_aux w) → b < nblanks;
  i_filled : ∀ b, b < nblanks → b ∉ blanks (w_aux w) →
    ∃ l, home (w_aux w) !! l = Some 0 ∧ sig_of (w_mem w) l = blank b;
  i_rest : rest_ok (sh_rest (w_mem w)) (spare (w_aux w)) (pub_sig (w_mem w) (w_aux w))
}.

(** The changes of the links that may happen without an effect on the map: nodes
    to be unlinked and sentinels to be added. *)
Definition unrest w : nat := size (limbo (w_aux w)) + size (blanks (w_aux w)).

(** What goroutine [t] relies on. *)
Record R t w w' : Prop := {
  r_home : home (w_aux w) ⊆ home (w_aux w');
  r_sig : ∀ l, is_Some (home (w_aux w) !! l) → sig_of (w_mem w') l = sig_of (w_mem w) l;
  r_marks : f_get sh_marks (w_mem w) `prefix_of` f_get sh_marks (w_mem w');
  r_lists : sh_heads (w_mem w') = sh_heads (w_mem w);
  r_own : ∀ l, own (w_aux w) !! l = Some t →
    own (w_aux w') !! l = Some t ∧ node_at (w_mem w') l = node_at (w_mem w) l;
  r_dead : dead (w_aux w) ⊆ dead (w_aux w');
  r_death : ∀ x d0 dp k, dead (w_aux w') !! x = Some (d0, dp) → dead (w_aux w) !! x = None →
    is_Some (home (w_aux w) !! x) → key_at (w_mem w) x = Some k →
    w_len w ≤ d0 ∧ d0 ≤ dp < w_len w' ∧ state_at w' (S dp) k = None;
  r_frozen : ∀ x, is_Some (dead (w_aux w) !! x) → cell (w_mem w') x = cell (w_mem w) x;
  r_reach : ∀ l x, is_Some (home (w_aux w) !! l) → reach (w_mem w) l x →
    dead (w_aux w') !! x = None → reach (w_mem w') l x;
  r_commit : commit (w_aux w') !! t = commit (w_aux w) !! t;
  r_helped : helped t (w_gh w) (w_gh w');
  r_quiet : commit (w_aux w) !! t = None → quiet t (w_gh w) (w_gh w');
  r_spare : ∀ a, spare (w_aux w) !! a = Some t → spare (w_aux w') !! a = Some t;
  r_rest : rest_le (sh_rest (w_mem w)) (sh_rest (w_mem w'));
  r_blanks : blanks (w_aux w') ⊆ blanks (w_aux w);
  r_still : w_len w' = w_len w →
    dead (w_aux w') = dead (w_aux w) ∧
    size (limbo (w_aux w')) ≤ size (limbo (w_aux w)) ∧
    size (home (w_aux w')) + size (blanks (w_aux w')) ≤
      size (home (w_aux w)) + size (blanks (w_aux w)) ∧
    ∀ l, is_Some (home (w_aux w) !! l) → cell (w_mem w') l = cell (w_mem w) l ∨
      unrest w' < unrest w
}.

Lemma r_log t w w' : R t w w' → g_log (w_gh w) `prefix_of` g_log (w_gh w').
Proof. intros HR. apply (r_helped _ _ _ HR). Qed.

Lemma r_len t w w' : R t w w' → w_len w ≤ w_len w'.
Proof. intros HR. by apply prefix_length, (r_log t). Qed.

Lemma state_at_mono t w w' n : R t w w' → n ≤ w_len w → state_at w' n = state_at w n.
Proof. intros HR Hn. apply st_at_prefix; [by eapply r_log|done]. Qed.

Lemma list_R_order t : PreOrder (R t).
Proof.
  split.
  - intros w. split; auto with lockfree; try done; intros; simplify_eq; naive_solver.
  - intros w1 w2 w3 H12 H23.
    assert (∀ l, is_Some (home (w_aux w1) !! l) → is_Some (home (w_aux w2) !! l)) as Hhome.
    { intros l [b Hl]. exists b. by eapply lookup_weaken; [|apply (r_home _ _ _ H12)]. }
    pose proof (r_len _ _ _ H12) as L12. pose proof (r_len _ _ _ H23) as L23. split.
    + etrans; [apply (r_home _ _ _ H12)|apply (r_home _ _ _ H23)].
    + intros l Hl. rewrite (r_sig _ _ _ H23), (r_sig _ _ _ H12); auto.
    + etrans; [apply (r_marks _ _ _ H12)|apply (r_marks _ _ _ H23)].
    + by rewrite (r_lists _ _ _ H23), (r_lists _ _ _ H12).
    + intros l Hl. destruct (r_own _ _ _ H12 _ Hl) as [Hl2 <-]. by apply (r_own _ _ _ H23).
    + etrans; [apply (r_dead _ _ _ H12)|apply (r_dead _ _ _ H23)].
    + intros x d0 dp k Hd Hn Hx Hs. destruct (dead (w_aux w2) !! x) as [[d0' dp']|] eqn:E.
      * assert (dead (w_aux w3) !! x = Some (d0', dp')) as E'
          by by eapply lookup_weaken; [|apply (r_dead _ _ _ H23)].
        simplify_eq. destruct (r_death _ _ _ H12 _ _ _ _ E Hn Hx Hs) as (? & ? & Hst).
        split_and!; [lia..|]. rewrite (state_at_mono _ _ _ _ H23) by lia. done.
      * destruct (r_death _ _ _ H23 _ _ _ k Hd E (Hhome _ Hx)) as (? & ? & Hst);
          [unfold key_at; by rewrite (r_sig _ _ _ H12)|]. split_and!; [lia..|done].
    + intros x Hx. rewrite (r_frozen _ _ _ H23), (r_frozen _ _ _ H12); [done..|].
      destruct Hx as [d Hx]. exists d. by eapply lookup_weaken; [|apply (r_dead _ _ _ H12)].
    + intros l x Hl Hr Hx. apply (r_reach _ _ _ H23); [auto| |done].
      apply (r_reach _ _ _ H12); [done..|]. destruct (dead (w_aux w2) !! x) eqn:E; [|done].
      by rewrite (lookup_weaken _ _ _ _ E (r_dead _ _ _ H23)) in Hx.
    + by rewrite (r_commit _ _ _ H23), (r_commit _ _ _ H12).
    + etrans; [apply (r_helped _ _ _ H12)|apply (r_helped _ _ _ H23)].
    + intros Hc. etrans; [by apply (r_quiet _ _ _ H12)|].
      apply (r_quiet _ _ _ H23). by rewrite (r_commit _ _ _ H12).
    + intros a Ha. by apply (r_spare _ _ _ H23), (r_spare _ _ _ H12).
    + etrans; [apply (r_rest _ _ _ H12)|apply (r_rest _ _ _ H23)].
    + etrans; [apply (r_blanks _ _ _ H23)|apply (r_blanks _ _ _ H12)].
    + intros Hlen. destruct (r_still _ _ _ H12) as (E & Hle & Hb & Hc); [lia|].
      destruct (r_still _ _ _ H23) as (E' & Hle' & Hb' & Hc'); [lia|].
      pose proof (subseteq_size _ _ (r_blanks _ _ _ H12)).
      pose proof (subseteq_size _ _ (r_blanks _ _ _ H23)).
      split; [congruence|]. split; [lia|]. split; [lia|].
      intros l Hl. unfold unrest in *. destruct (Hc l Hl) as [<-|?]; [|right; lia].
      destruct (Hc' l (Hhome _ Hl)) as [?|?]; [by left|right; lia].
Qed.

Definition list_proto : protocol Mem (lmap_op K V) (lmap_resp K V) aux :=
  Protocol Inv R list_R_order.
End inv.
