(* ===== verification/ListSteps.v ===== *)
(** The writes of the lock-free lists keep their invariant. *)

From S2P Require Export ListInv.

Section steps.
Context {Mem N G K V X : Type} `{!Shape Mem N G V X} `{!Rest G X}.
Context (zeroV : V) (less : Less K) `{!WeakOrder less} `{!NodeOrder less G} `{!Capacity G}.
Context (bucket : K → nat) (nlists : nat).
Context (Hbucket : ∀ k1 k2, same_key less k1 k2 = true → bucket k1 = bucket k2).
Context (Hrange : ∀ k, bucket k < nlists).
Abbreviation Sp := (lmap_spec zeroV (same_key less) (ascending_range (V:=V) less)).
Abbreviation aux := (list_aux V).
Abbreviation world := (world Mem (lmap_op K V) (lmap_resp K V) aux).
Abbreviation Inv := (Inv zeroV less bucket nlists).
Abbreviation proto := (list_proto zeroV less bucket nlists).
Abbreviation rely := (pr_rely proto).
Abbreviation good_step := (good_step proto).
Implicit Types (w : world) (t u b n : nat) (l x y p : loc) (k : K) (v : V) (m : Mem).
Implicit Types (o : lmap_op K V) (r : lmap_resp K V) (s tg : G) (c : option loc).

(** ** What a goroutine knows, and that the others respect it *)

Definition pub l b s w : Prop :=
  home (w_aux w) !! l = Some b ∧ sig_of (w_mem w) l = Some s.

Definition private t l (nd : N) w : Prop :=
  own (w_aux w) !! l = Some t ∧ node_at (w_mem w) l = Some nd.

Definition mark_at c (mk : listMarkable) w : Prop := pair_of (w_mem w) c = Some mk.

(** The operation [o] of [t] is under way and has not taken effect. *)
Definition ready t o w : Prop := pending (w_gh w) t o ∧ commit (w_aux w) !! t = None.

(** It took effect with response [r], or as entry [n] of the log with a response
    still open. *)
Definition done_with t r w : Prop := finished (w_gh w) t r ∧ commit (w_aux w) !! t = None.
Definition open_at t o n w : Prop := opened (w_gh w) t o n ∧ commit (w_aux w) !! t = None.

(** The log had length [n] after the call of [t], if one is pending. *)
Definition after_call t n w : Prop := ∀ pe : pend _ _, g_thr (w_gh w) !! t = Some pe → p_lo pe ≤ n.

(** [l] was in the map at some moment since the call of [t]. *)
Definition since_call t l w : Prop :=
  ∃ id o lo, g_thr (w_gh w) !! t = Some (Pend id o lo None) ∧ lo ≤ w_len w ∧
    commit (w_aux w) !! t = None ∧
    ∀ d0 dp, dead (w_aux w) !! l = Some (d0, dp) → lo ≤ d0.

(** [k] was not in the map at some moment since the call of [t]. *)
Definition absent t k w : Prop :=
  ∃ id o lo n, g_thr (w_gh w) !! t = Some (Pend id o lo None) ∧ lo ≤ n ≤ w_len w ∧
    commit (w_aux w) !! t = None ∧ state_at zeroV less w n k = None.

(** A node with the key of [tg] can be reached from [l], or it was absent. *)
Definition finds t tg l w : Prop :=
  ∀ k, key_of less tg = Some k → absent t k w ∨ ∃ x b s k', pub x b s w ∧
    dead (w_aux w) !! x = None ∧ key_of less s = Some k' ∧ same_key less k' k = true ∧
    reach (w_mem w) l x.

(** The steps of one traversal when the log has length [L], and the allowance of
    an operation: a traversal for each change of the links that may make it start
    again, and those it needs itself. *)
Definition traversal (L : nat) : nat := 20 * (nbase + L) + 100.
Definition allowance (L : nat) : nat := (nblanks + L + nrounds) * traversal L.

(** Unless the log has grown since it had length [L], the reserve [B] pays for
    another round, for [e] more, and for all that the changes of links by others
    may cause. *)
Definition can_retry (e L B : nat) w : Prop :=
  L ≤ w_len w ∧ (w_len w = L → (unrest w + 1 + e) * traversal L ≤ B).

(** The same when [l] no longer points to the pair [c]. *)
Definition watch (e : nat) l c (L B : nat) w : Prop :=
  L ≤ w_len w ∧ (w_len w = L →
    (unrest w + 1 + e) * traversal L ≤ B ∨
    ((unrest w + e) * traversal L ≤ B ∧ cell (w_mem w) l = c)).

(** [l] was not marked when the log had length [L]. *)
Definition alive_at l (L : nat) w : Prop :=
  L ≤ w_len w ∧ (dead (w_aux w) !! l = None ∨ L < w_len w).

Section stability.
Context {t : nat} {w w' : world} (HR : rely t w w').

Lemma pub_stable l b s : pub l b s w → pub l b s w'.
Proof using HR.
  intros [Hl Hs]. split; [by eapply lookup_weaken; [|apply (r_home _ _ _ _ _ HR)]|].
  by rewrite (r_sig _ _ _ _ _ HR); [|eexists].
Qed.

Lemma list_private_stable l nd : private t l nd w → private t l nd w'.
Proof using HR.
  intros [Ho Hn]. destruct (r_own _ _ _ _ _ HR _ Ho) as [? Heq].
  split; [done|by rewrite Heq].
Qed.

Lemma mark_stable c mk : mark_at c mk w → mark_at c mk w'.
Proof using HR. apply pair_prefix, (r_marks _ _ _ _ _ HR). Qed.

Lemma dead_stable l d : dead (w_aux w) !! l = Some d → dead (w_aux w') !! l = Some d.
Proof using HR. intros ?. by eapply lookup_weaken; [|apply (r_dead _ _ _ _ _ HR)]. Qed.

Lemma list_len_stable : w_len w ≤ w_len w'.
Proof using HR. exact (r_len _ _ _ _ _ HR). Qed.

Lemma list_ready_stable o : ready t o w → ready t o w'.
Proof using HR.
  intros [Hp Hc]. split; [|by rewrite (r_commit _ _ _ _ _ HR)].
  eapply pending_quiet; [exact Hp|by apply (r_quiet _ _ _ _ _ HR)].
Qed.

Lemma done_with_stable r : done_with t r w → done_with t r w'.
Proof using HR.
  intros [Hp Hc]. split; [|by rewrite (r_commit _ _ _ _ _ HR)].
  eapply finished_helped; [exact Hp|by apply (r_helped _ _ _ _ _ HR)].
Qed.

Lemma open_at_stable o n : open_at t o n w → open_at t o n w'.
Proof using HR.
  intros [Hp Hc]. split; [|by rewrite (r_commit _ _ _ _ _ HR)].
  eapply opened_helped; [exact Hp|by apply (r_helped _ _ _ _ _ HR)].
Qed.

Lemma after_call_stable n : after_call t n w → after_call t n w'.
Proof using HR.
  intros Hn p' Hp'. destruct (r_helped _ _ _ _ _ HR) as [_ Hh].
  destruct (g_thr (w_gh w) !! t) as [p|] eqn:E; [|congruence].
  destruct Hh as (p1 & Hp1 & _ & _ & Hlo & _). rewrite Hp1 in Hp'. injection Hp' as <-.
  rewrite Hlo. by apply Hn.
Qed.

Lemma since_call_stable l b s :
  pub l b s w → is_Some (key_of less s) → since_call t l w → since_call t l w'.
Proof using HR.
  intros [Hl Hs] [k Hk] (id & o & lo & Ht & Hlo & Hc & Hd). exists id, o, lo.
  destruct (r_quiet _ _ _ _ _ HR Hc) as [-> _]. pose proof list_len_stable.
  rewrite (r_commit _ _ _ _ _ HR). split_and!; [done|lia|done|]. intros d0 dp Hdead.
  destruct (dead (w_aux w) !! l) as [[d0' dp']|] eqn:E.
  - pose proof (dead_stable _ _ E). simplify_eq. eauto.
  - destruct (r_death _ _ _ _ _ HR _ _ _ k Hdead E ltac:(by eexists)); [|lia].
    unfold key_at. by rewrite Hs.
Qed.

Lemma absent_stable k : absent t k w → absent t k w'.
Proof using HR.
  intros (id & o & lo & n & Ht & Hn & Hc & Hk). exists id, o, lo, n.
  destruct (r_quiet _ _ _ _ _ HR Hc) as [-> _]. pose proof list_len_stable.
  rewrite (r_commit _ _ _ _ _ HR), (state_at_mono _ _ _ _ _ _ HR) by lia.
  split_and!; [done|lia..|done|done].
Qed.

Lemma finds_stable tg l b s o :
  ready t o w → pub l b s w → finds t tg l w → finds t tg l w'.
Proof using HR WeakOrder0.
  intros [(id & lo & Ht & Hlo) Hc] [Hl _] Hf k Hk.
  destruct (Hf k Hk) as [Habs|(x & b' & s' & k' & Hx & Hd & Hk' & Hsk & Hr)];
    [left; by apply absent_stable|].
  destruct (dead (w_aux w') !! x) as [[d0 dp]|] eqn:E.
  - left. destruct Hx as [Hx Hs].
    destruct (r_death _ _ _ _ _ HR _ _ _ k' E Hd ltac:(by eexists)) as (? & ? & Hnone);
      [unfold key_at; by rewrite Hs|].
    exists id, o, lo, (Datatypes.S dp).
    destruct (r_quiet _ _ _ _ _ HR Hc) as [-> _]. rewrite (r_commit _ _ _ _ _ HR).
    split_and!; [done|unfold w_len in *; lia|lia|done|].
    destruct (st_at_ok zeroV less (g_log (w_gh w')) (Datatypes.S dp)) as [Hsame _].
    unfold state_at. by rewrite <-(Hsame _ _ Hsk).
  - right. exists x, b', s', k'. split; [by apply pub_stable|]. do 3 (split; [done|]).
    apply (r_reach _ _ _ _ _ HR); [by eexists|done..].
Qed.

Lemma unrest_stable : w_len w' = w_len w → unrest w' ≤ unrest w.
Proof using HR.
  intros Hlen. destruct (r_still _ _ _ _ _ HR Hlen) as (_ & Hlim & _).
  pose proof (subseteq_size _ _ (r_blanks _ _ _ _ _ HR)). unfold unrest. lia.
Qed.

Lemma can_retry_stable e L B : can_retry e L B w → can_retry e L B w'.
Proof using HR.
  intros [HL HN]. pose proof list_len_stable as Hle. split; [lia|]. intros Hlen.
  pose proof (unrest_stable ltac:(lia)). specialize (HN ltac:(lia)). nia.
Qed.

Lemma watch_stable e l b s c L B : pub l b s w → watch e l c L B w → watch e l c L B w'.
Proof using HR.
  intros [Hl _] [HL HN]. pose proof list_len_stable as Hle. split; [lia|]. intros Hlen.
  pose proof (unrest_stable ltac:(lia)).
  destruct (r_still _ _ _ _ _ HR ltac:(lia)) as (_ & _ & _ & Hcell).
  destruct (HN ltac:(lia)) as [?|[? Hc]]; [left; nia|].
  destruct (Hcell l ltac:(by eexists)) as [->|?]; [|left; nia].
  right. split; [nia|done].
Qed.

Lemma alive_at_stable l L : alive_at l L w → alive_at l L w'.
Proof using HR.
  pose proof list_len_stable as Hle. intros [? [Hd|?]]; (split; [lia|]); [|right; lia].
  destruct (decide (w_len w' = w_len w)) as [Heq|]; [|right; lia].
  destruct (r_still _ _ _ _ _ HR Heq) as (-> & _). by left.
Qed.
End stability.
(** ** Writes that the linked nodes do not see *)

Hint Resolve pub_stable list_private_stable mark_stable dead_stable
  list_ready_stable done_with_stable open_at_stable : lockfree.

Lemma pub_ok_mono m m' (a a' : aux) l b s mk :
  pub_ok less bucket m a l b s mk → home a !! l = Some b →
  (∀ x, is_Some (home a !! x) → sig_of m' x = sig_of m x) →
  link m' l = Some mk → home a ⊆ home a' → dead a' !! l = dead a !! l →
  pub_ok less bucket m' a' l b s mk.
Proof.
  intros [? ? ? ? ? ? ? Hn] Hl Hsig Hlink Hhome Hdead.
  split; rewrite ?Hdead; try done; [rewrite Hsig; [done|by eexists]|].
  intros y Hy. destruct (Hn y Hy) as (Hh & s' & ? & ?). split; [by eapply lookup_weaken|].
  exists s'. rewrite Hsig; [done|by eexists].
Qed.

Lemma pub_link w l b : Inv w → home (w_aux w) !! l = Some b → is_Some (link (w_mem w) l).
Proof. intros HI Hl. destruct (i_pub _ _ _ _ _ HI _ _ Hl) as (s & mk & [? ? _ _ _ _ _ _]). by eexists. Qed.

Lemma pub_node w l b : Inv w → home (w_aux w) !! l = Some b → is_Some (node_at (w_mem w) l).
Proof. intros HI Hl. destruct (pub_link _ _ _ HI Hl). by eapply link_is_node. Qed.

Lemma pub_pub_ok w l b s mk :
  Inv w → pub l b s w → link (w_mem w) l = Some mk →
  pub_ok less bucket (w_mem w) (w_aux w) l b s mk.
Proof.
  intros HI [Hl Hs] Hm. destruct (i_pub _ _ _ _ _ HI _ _ Hl) as (s' & mk' & Hok).
  rewrite (p_link _ _ _ _ _ _ _ _ Hok) in Hm. rewrite (p_sig _ _ _ _ _ _ _ _ Hok) in Hs.
  by simplify_eq.
Qed.

Lemma pub_kind w l b s : Inv w → pub l b s w → node_ok less s.
Proof.
  intros HI Hl. destruct (pub_link _ _ _ HI (proj1 Hl)) as [mk Hmk].
  apply (p_kind _ _ _ _ _ _ _ _ (pub_pub_ok _ _ _ _ _ HI Hl Hmk)).
Qed.

Lemma pub_key_at w l b s k : Inv w → pub l b s w → key_of less s = Some k →
  bucket k = b ∧ key_at less (w_mem w) l = Some k.
Proof.
  intros HI Hl Hk. destruct (pub_link _ _ _ HI (proj1 Hl)) as [mk Hmk].
  pose proof (pub_pub_ok _ _ _ _ _ HI Hl Hmk) as Hok. split; [by apply Hok|].
  unfold key_at. by rewrite (proj2 Hl).
Qed.

Lemma key_at_sig m l k : key_at less m l = Some k → ∃ s, sig_of m l = Some s ∧ key_of less s = Some k.
Proof. unfold key_at. destruct (sig_of m l) as [s|]; [|done]. by exists s. Qed.

(** The node after a linked node is linked, in the same list. *)
Lemma pub_succ w l b y :
  Inv w → home (w_aux w) !! l = Some b → succ (w_mem w) l = Some y →
  home (w_aux w) !! y = Some b.
Proof.
  intros HI Hl Hy. destruct (i_pub _ _ _ _ _ HI _ _ Hl) as (s & mk & Hok).
  rewrite (succ_link _ _ _ (p_link _ _ _ _ _ _ _ _ Hok)) in Hy. by apply Hok.
Qed.

Lemma reach_pub w l b y :
  Inv w → home (w_aux w) !! l = Some b → reach (w_mem w) l y → home (w_aux w) !! y = Some b.
Proof.
  intros HI Hl Hr. induction Hr as [|x x1 y Hx _ IH]; [done|]. eapply IH, pub_succ; eauto.
Qed.

(** Paths go up. *)
Lemma reach_less w l b y s s' :
  Inv w → pub l b s w → sig_of (w_mem w) y = Some s' → reach (w_mem w) l y →
  l = y ∨ node_less less s s' = true.
Proof.
  intros HI Hl Hy Hr. revert s Hl. induction Hr as [x|x x1 y Hx _ IH]; intros s [Hl Hs];
    [by left|right].
  destruct (i_pub _ _ _ _ _ HI _ _ Hl) as (s0 & mk & Hok).
  rewrite (p_sig _ _ _ _ _ _ _ _ Hok) in Hs. simplify_eq.
  rewrite (succ_link _ _ _ (p_link _ _ _ _ _ _ _ _ Hok)) in Hx.
  destruct (p_next _ _ _ _ _ _ _ _ Hok _ Hx) as (Hx1 & s1 & Hs1 & Hlt).
  destruct (IH Hy s1) as [->|Hlt']; [by split| |].
  - by simplify_eq.
  - by eapply less_trans.
Qed.

(** The ghost state [a] with other private nodes, and other private parts of the
    rest.  The linked nodes may change where the list does not look. *)
Definition with_own (a : aux) (own' spare' : gmap loc nat) : aux :=
  ListAux (home a) own' (dead a) (limbo a) (commit a) (blanks a) spare'.

Lemma list_touch_step t w m' (own' spare' : gmap loc nat) :
  Inv w →
  (∀ l, is_Some (home (w_aux w) !! l) → is_Some (node_at m' l) ∧
     sig_of m' l = sig_of (w_mem w) l ∧ val_of m' l = val_of (w_mem w) l ∧
     cell m' l = cell (w_mem w) l) →
  f_get sh_marks (w_mem w) `prefix_of` f_get sh_marks m' →
  sh_heads m' = sh_heads (w_mem w) →
  (∀ l u, own' !! l = Some u → home (w_aux w) !! l = None ∧ is_Some (node_at m' l)) →
  (∀ u l, u ≠ t → own (w_aux w) !! l = Some u →
     own' !! l = Some u ∧ node_at m' l = node_at (w_mem w) l) →
  (∀ u a, u ≠ t → spare (w_aux w) !! a = Some u → spare' !! a = Some u) →
  rest_ok (sh_rest m') spare' (pub_sig (w_mem w) (w_aux w)) →
  rest_le (sh_rest (w_mem w)) (sh_rest m') →
  good_step t w (upd Sp w m' [] (with_own (w_aux w) own' spare')).
Proof.
  intros HI Hn Hm Hh Ho Hothers Hspare Hrest Hle.
  assert (∀ x, is_Some (home (w_aux w) !! x) → sig_of m' x = sig_of (w_mem w) x ∧
    val_of m' x = val_of (w_mem w) x ∧ cell m' x = cell (w_mem w) x) as Hf.
  { intros x Hx. by apply Hn. }
  assert (∀ x, is_Some (home (w_aux w) !! x) → key_at less m' x = key_at less (w_mem w) x) as Hk.
  { intros x Hx. unfold key_at. by rewrite (proj1 (Hf x Hx)). }
  assert (∀ x mk, is_Some (home (w_aux w) !! x) → link (w_mem w) x = Some mk →
    link m' x = Some mk) as Hlink.
  { intros x mk Hx Hl. eapply link_prefix; [exact Hl|by apply Hn|by apply Hf|done]. }
  assert (∀ x, is_Some (home (w_aux w) !! x) → succ m' x = succ (w_mem w) x) as Hsucc.
  { intros x [b Hx]. destruct (pub_link _ _ _ HI Hx) as [mk Hl].
    rewrite (succ_link _ _ _ Hl). apply succ_link, Hlink; [by eexists|done]. }
  assert (∀ x y, is_Some (home (w_aux w) !! x) → reach (w_mem w) x y → reach m' x y) as Hreach.
  { intros x y. apply (reach_same (λ x, is_Some (home (w_aux w) !! x))).
    intros x' y' [b Hx'] Hs. split.
    - exists b. by eapply pub_succ.
    - rewrite Hsucc; [done|by eexists]. }
  split.
  - split; simpl; try apply HI; try done.
    + intros l b Hl. destruct (i_pub _ _ _ _ _ HI _ _ Hl) as (s & mk & Hok). exists s, mk.
      eapply pub_ok_mono; [exact Hok|done|by intros; apply Hf| |done..].
      apply Hlink; [by eexists|apply Hok].
    + rewrite Hh. apply HI.
    + rewrite Hh. intros b h Hb. destruct (i_head _ _ _ _ _ HI _ _ Hb) as [Hhd ?]. split; [done|].
      by rewrite (proj1 (Hf _ ltac:(by eexists))).
    + rewrite Hh. intros l b h Hl Hd Hb.
      apply Hreach; [eexists; by apply (i_head _ _ _ _ _ HI)|]. by eapply (i_alive _ _ _ _ _ HI).
    + intros l b k Hl Hd Hs. destruct (Hf l ltac:(by eexists)) as (_ & -> & _).
      rewrite (Hk l) in Hs by by eexists. by eapply (i_sound _ _ _ _ _ HI).
    + intros k Hks. destruct (i_complete _ _ _ _ _ HI k Hks) as (l & b & k' & ? & ? & ? & ?).
      exists l, b, k'. rewrite (Hk l) by by eexists. done.
    + intros l d0 dp Hd. destruct (i_dead _ _ _ _ _ HI _ _ _ Hd) as [Hl (k & v & ? & ? & ?)].
      split; [done|]. destruct (Hf l Hl) as (_ & Hv & _). exists k, v. by rewrite (Hk l), Hv.
    + intros u l v Hu. destruct (i_commit _ _ _ _ _ HI _ _ _ Hu) as (k & k' & b & ? & ? & ? & ?).
      exists k, k', b. simpl. rewrite (Hk l) by by eexists. done.
    + intros l b y Hl. rewrite Hsucc by by eexists. by eapply (i_linked _ _ _ _ _ HI).
    + intros l b l' b' y Hl Hl'. rewrite !Hsucc by by eexists. by eapply (i_inj _ _ _ _ _ HI).
    + intros b Hb Hnb. destruct (i_filled _ _ _ _ _ HI b Hb Hnb) as (l & ? & ?).
      exists l. by rewrite (proj1 (Hf l ltac:(by eexists))).
    + eapply rest_ok_mono; [|exact Hrest]. intros l b s [? Hs]. split; [done|].
      by rewrite (proj1 (Hf l ltac:(done))).
  - intros u Hu. split; simpl; try done; auto with lockfree.
    + intros l Hl. by apply Hf.
    + naive_solver.
    + intros x [d Hd]. apply Hf, (i_dead _ _ _ _ _ HI _ d.1 d.2). by destruct d.
    + intros _. split_and!; try done. intros l Hl. left. by apply Hf.
Qed.

Lemma list_plain_step t w m' (own' spare' : gmap loc nat) :
  Inv w →
  (∀ l, is_Some (home (w_aux w) !! l) → node_at m' l = node_at (w_mem w) l) →
  f_get sh_marks (w_mem w) `prefix_of` f_get sh_marks m' →
  sh_heads m' = sh_heads (w_mem w) →
  (∀ l u, own' !! l = Some u → home (w_aux w) !! l = None ∧ is_Some (node_at m' l)) →
  (∀ u l, u ≠ t → own (w_aux w) !! l = Some u →
     own' !! l = Some u ∧ node_at m' l = node_at (w_mem w) l) →
  (∀ u a, u ≠ t → spare (w_aux w) !! a = Some u → spare' !! a = Some u) →
  rest_ok (sh_rest m') spare' (pub_sig (w_mem w) (w_aux w)) →
  rest_le (sh_rest (w_mem w)) (sh_rest m') →
  good_step t w (upd Sp w m' [] (with_own (w_aux w) own' spare')).
Proof.
  intros HI Hn. apply list_touch_step; [done|]. intros l Hl. split; [|by apply nodes_fields, Hn].
  rewrite Hn by done. destruct Hl as [b Hl]. by eapply pub_node.
Qed.

(** ** Changing a link *)

(** [tg] belongs between [p] and the node [x] after it. *)
Definition gap p b s c tg w : Prop :=
  pub p b s w ∧ node_less less s tg = true ∧
  link (w_mem w) p = Some (ListMarkable c false) ∧
  ∀ x, c = Some x → ∃ sx, pub x b sx w ∧ node_less less sx tg = false ∧ holds less sx tg = false.

Lemma pub_sentinel w p b s mk :
  Inv w → pub p b s w → link (w_mem w) p = Some mk →
  lm_marked mk = false ↔ dead (w_aux w) !! p = None.
Proof.
  intros HI Hp Hl. pose proof (p_marked _ _ _ _ _ _ _ _ (pub_pub_ok _ _ _ _ _ HI Hp Hl)) as Hm.
  rewrite eq_None_not_Some, <-Hm. by destruct (lm_marked mk).
Qed.

Lemma gap_alive w p b s c tg : Inv w → gap p b s c tg w → dead (w_aux w) !! p = None.
Proof. intros HI (Hp & _ & Hl & _). by eapply pub_sentinel. Qed.

(** No node that is not dead is there already. *)
Lemma gap_none w p b sp c tg y sy :
  Inv w → b < nlists → gap p b sp c tg w → pub y b sy w → dead (w_aux w) !! y = None →
  holds less sy tg = false.
Proof.
  intros HI Hb Hgap Hy Hdy. pose proof (gap_alive _ _ _ _ _ _ HI Hgap) as Hdp.
  destruct Hgap as (Hp & Hlt & Hl & Hx).
  destruct (holds less sy tg) eqn:Hh; [|done]. exfalso.
  pose proof (below_less _ _ _ _ Hlt Hh) as Hpy.
  destruct (lookup_lt_is_Some_2 (sh_heads (w_mem w)) b) as [h Hhd];
    [by rewrite (i_lists _ _ _ _ _ HI)|].
  destruct (reach_linear _ _ p y (i_alive _ _ _ _ _ HI _ _ _ (proj1 Hp) Hdp Hhd)
    (i_alive _ _ _ _ _ HI _ _ _ (proj1 Hy) Hdy Hhd)) as [Hr|Hr].
  - inversion Hr as [|? x ? Hpx Hr']; subst.
    + destruct Hp as [_ Hs], Hy as [_ Hs']. rewrite Hs in Hs'. injection Hs' as <-.
      by rewrite less_irrefl in Hpy.
    + rewrite (succ_link _ _ _ Hl) in Hpx. destruct (Hx x Hpx) as (sx & Hxp & Hbx & Hhx).
      pose proof (not_below_less _ _ _ _ Hbx Hhx Hh) as Hyx.
      destruct (reach_less _ _ _ _ _ _ HI Hxp (proj2 Hy) Hr') as [->|Hxy].
      * destruct Hxp as [_ Hs], Hy as [_ Hs']. rewrite Hs in Hs'. injection Hs' as <-.
        by rewrite less_irrefl in Hyx.
      * by rewrite (less_asym _ _ _ Hyx) in Hxy.
  - destruct (reach_less _ _ _ _ _ _ HI Hy (proj2 Hp) Hr) as [->|Hyp].
    + destruct Hp as [_ Hs], Hy as [_ Hs']. rewrite Hs in Hs'. injection Hs' as <-.
      by rewrite less_irrefl in Hpy.
    + by rewrite (less_asym _ _ _ Hpy) in Hyp.
Qed.

(** So a key that belongs there is absent. *)
Lemma gap_absent w p sp c tg k :
  Inv w → key_of less tg = Some k → node_ok less tg → gap p (bucket k) sp c tg w →
  state_now zeroV less w k = None.
Proof.
  intros HI Htg Hok Hgap. destruct (state_now zeroV less w k) eqn:E; [|done]. exfalso.
  destruct (i_complete _ _ _ _ _ HI k ltac:(by eexists)) as (y & b & k' & Hy & Hdy & Hk' & Hk).
  destruct (key_at_sig _ _ _ Hk') as (s & Hs & Hks).
  assert (pub y b s w) as Hpy by done.
  destruct (pub_key_at _ _ _ _ _ HI Hpy Hks) as [<- _]. rewrite (Hbucket _ _ Hk) in Hpy.
  pose proof (gap_none _ _ _ _ _ _ _ _ HI (Hrange k) Hgap Hpy Hdy) as Hh.
  unfold holds in Hh.
  rewrite (same_keys _ _ _ _ (pub_kind _ _ _ _ HI Hpy) Hok Hks Htg) in Hh. congruence.
Qed.

(** The facts of the write [l.next := c]. *)
Lemma relink_other w l b (c : loc) x bx (a' : aux) :
  Inv w → home (w_aux w) !! l = Some b → home (w_aux w) !! x = Some bx → x ≠ l →
  home (w_aux w) ⊆ home a' → dead a' !! x = dead (w_aux w) !! x →
  ∃ s mk, pub_ok less bucket (set_next l c (w_mem w)) a' x bx s mk.
Proof.
  intros HI Hl Hx Hne Hhome Hdead.
  destruct (i_pub _ _ _ _ _ HI _ _ Hx) as (s & mk & Hok). exists s, mk.
  eapply pub_ok_mono; [exact Hok|done|by intros; autorewrite with list_mem| |done..].
  rewrite set_next_link by by eapply pub_node. rewrite decide_False by done. apply Hok.
Qed.

Lemma set_next_key m l (c : loc) x : key_at less (set_next l c m) x = key_at less m x.
Proof. unfold key_at. by autorewrite with list_mem. Qed.

Lemma set_val_key m l v x : key_at less (set_val l v m) x = key_at less m x.
Proof. unfold key_at. by autorewrite with list_mem. Qed.

(** The ghost facts of dead nodes and committed goroutines persist. *)
Lemma was_mono L L' k d0 dp v :
  was zeroV less L k d0 dp v → L `prefix_of` L' → dp ≤ length L →
  was zeroV less L' k d0 dp v.
Proof.
  intros [(n & vs & Hn & Hs) (vs' & Hs' & Hv)] Hp Hle. split.
  - exists n, vs. split; [done|]. by rewrite (st_at_prefix _ _ L L') by (done || lia).
  - exists vs'. by rewrite (st_at_prefix _ _ L L').
Qed.

Lemma dead_ok_mono m m' L L' l d0 dp :
  dead_ok zeroV less m L l d0 dp → L `prefix_of` L' →
  key_at less m' l = key_at less m l → val_of m' l = val_of m l →
  dead_ok zeroV less m' L' l d0 dp.
Proof.
  intros (k & v & Hs & Hv & Hd & Hw & Hn) Hp Hs' Hv'. pose proof (prefix_length _ _ Hp).
  exists k, v. rewrite Hs', Hv'. split_and!; [done..|lia|lia| |].
  - eapply was_mono; [done..|lia].
  - by rewrite (st_at_prefix _ _ L L') by (done || lia).
Qed.

Lemma commit_ok_mono w w' u l v :
  commit_ok zeroV less w u l v →
  key_at less (w_mem w') l = key_at less (w_mem w) l → home (w_aux w) ⊆ home (w_aux w') →
  dead (w_aux w') !! l = dead (w_aux w) !! l → quiet u (w_gh w) (w_gh w') →
  Inv w → commit_ok zeroV less w' u l v.
Proof.
  intros (k & k' & b & Hs & Hk & Hh & Hd) Hs' Hhome Hdead Hq HI. exists k, k', b.
  rewrite Hs', Hdead. split_and!; [done..|by eapply lookup_weaken|].
  destruct (dead (w_aux w) !! l) as [[d0 dp]|] eqn:E; [|by eapply pending_quiet].
  destruct Hd as [Hf Hw]. split; [by eapply finished_quiet|].
  destruct (i_dead _ _ _ _ _ HI _ _ _ E) as [_ (? & ? & _ & _ & ? & _)].
  eapply was_mono; [done|apply Hq|lia].
Qed.

Lemma filled_mono m m' (a a' : aux) (bl : gset nat) :
  (∀ b, b < nblanks → b ∉ bl → ∃ l, home a !! l = Some 0 ∧ sig_of m l = blank b) →
  home a ⊆ home a' → (∀ x, is_Some (home a !! x) → sig_of m' x = sig_of m x) →
  ∀ b, b < nblanks → b ∉ bl → ∃ l, home a' !! l = Some 0 ∧ sig_of m' l = blank b.
Proof.
  intros Hf Hh Hs b Hb Hnb. destruct (Hf b Hb Hnb) as (l & Hl & Hsl). exists l.
  split; [by eapply lookup_weaken|]. rewrite Hs; [done|by eexists].
Qed.

Lemma pub_sig_mono m m' (a a' : aux) (z : X) free :
  rest_ok z free (pub_sig m a) → home a ⊆ home a' →
  (∀ l, is_Some (home a !! l) → sig_of m' l = sig_of m l) → rest_ok z free (pub_sig m' a').
Proof.
  intros Hr Hh Hs. eapply rest_ok_mono; [|exact Hr]. intros l b s [Hl Hsl].
  split; [by eapply lookup_weaken|]. rewrite Hs; [done|by eexists].
Qed.
Section insert.
Context (t : nat) (p n c b : nat) (y : option loc) (sp sn : G) (bl : gset nat) (w : world).
Context (HI : Inv w) (Hb : b < nlists) (Hgap : gap p b sp y sn w) (Hok : node_ok less sn).
Context (Hkb : ∀ k, key_of less sn = Some k → bucket k = b).
Context (Hcm : commit (w_aux w) !! t = None) (Hown : own (w_aux w) !! n = Some t).
Context (Hsn : sig_of (w_mem w) n = Some sn).
Context (Hln : link (w_mem w) n = Some (ListMarkable y false)).
Context (Hc : mark_at (Some c) (ListMarkable (Some n) false) w).
Context (Hbl : bl ⊆ blanks (w_aux w)).

Let a' : aux := ListAux (<[n := b]> (home (w_aux w))) (delete n (own (w_aux w)))
  (dead (w_aux w)) (limbo (w_aux w)) (commit (w_aux w)) bl (spare (w_aux w)).
Let m' := set_next p c (w_mem w).

Lemma insert_facts :
  dead (w_aux w) !! p = None ∧ dead (w_aux w) !! n = None ∧
  home (w_aux w) !! p = Some b ∧ home (w_aux w) !! n = None ∧ n ≠ p ∧ y ≠ Some n ∧
  home (w_aux w) ⊆ home a'.
Proof using All.
  assert (home (w_aux w) !! n = None) as Hhn by by eapply (i_own _ _ _ _ _ HI).
  pose proof (gap_alive _ _ _ _ _ _ HI Hgap) as Hdp.
  destruct Hgap as ([Hhp Hsp] & _ & _ & Hy). split_and!; try done.
  - destruct (dead (w_aux w) !! n) as [[d0 dp]|] eqn:E; [|done].
    destruct (i_dead _ _ _ _ _ HI _ _ _ E) as [[? ?] _]. congruence.
  - congruence.
  - intros ->. destruct (Hy n eq_refl) as (sx & [Hhy _] & _). congruence.
  - by apply insert_subseteq.
Qed.

Lemma insert_link z : link m' z = if decide (z = p) then Some (ListMarkable (Some n) false)
  else link (w_mem w) z.
Proof using HI Hgap Hc.
  unfold m'. rewrite set_next_link by by eapply pub_node, Hgap. case_decide; [exact Hc|done].
Qed.

Lemma insert_succ z : succ m' z = if decide (z = p) then Some n else succ (w_mem w) z.
Proof using HI Hgap Hc. unfold succ. rewrite insert_link. by case_decide. Qed.

Lemma insert_next : succ (w_mem w) p = y ∧ succ (w_mem w) n = y.
Proof using Hgap Hln.
  destruct Hgap as (_ & _ & Hl & _). by rewrite (succ_link _ _ _ Hl), (succ_link _ _ _ Hln).
Qed.

Lemma insert_pub l b' : home a' !! l = Some b' → ∃ s mk, pub_ok less bucket m' a' l b' s mk.
Proof using All.
  destruct insert_facts as (Hdp & Hdn & Hhp & Hhn & Hnp & Hyn & Hsub).
  destruct Hgap as (Hp & Hlt & Hlp & Hy).
  pose proof (pub_pub_ok _ _ _ _ _ HI Hp Hlp) as Hokp.
  simpl. intros [[<- <-]|[Hne Hl]]%lookup_insert_Some.
  - exists sn, (ListMarkable y false). split; simpl; try done.
    + unfold m'. by autorewrite with list_mem.
    + rewrite insert_link. by rewrite decide_False.
    + rewrite Hdn. split; [done|by intros [? ?]].
    + intros Hbd. apply (p_bounded _ _ _ _ _ _ _ _ Hokp). by eapply bounded_less.
    + intros x Hx. destruct (Hy x Hx) as (sx & [Hhx Hsx] & Hbx & Hhsx).
      split; [by eapply lookup_weaken; [|exact Hsub]|]. exists sx. unfold m'.
      autorewrite with list_mem. split; [done|]. apply (not_below_less _ _ sn); [done..|].
      by apply same_key_refl, node_less_weak.
  - destruct (decide (l = p)) as [->|Hlp']; [|by eapply relink_other].
    rewrite Hhp in Hl. injection Hl as <-. exists sp, (ListMarkable (Some n) false).
    destruct Hokp as [? ? ? ? ? ? ? ?]. split; simpl; try done.
    + unfold m'. by autorewrite with list_mem.
    + rewrite insert_link. by rewrite decide_True.
    + intros z [= <-]. split; [by rewrite lookup_insert_eq|]. exists sn. unfold m'.
      by autorewrite with list_mem.
Qed.

Lemma insert_reach z z' : reach (w_mem w) z z' → reach m' z z'.
Proof using All.
  destruct insert_facts as (_ & _ & _ & _ & Hnp & _). destruct insert_next as [Hsp Hsn'].
  apply (reach_insert _ _ p n).
  - rewrite insert_succ. by rewrite decide_True.
  - rewrite insert_succ, decide_False by done. congruence.
  - intros z1 Hz1 _. by rewrite insert_succ, decide_False.
Qed.

Lemma insert_linked l b1 z :
  home a' !! l = Some b1 → linked a' l → succ m' l = Some z → linked a' z.
Proof using All.
  destruct insert_facts as (Hdp & Hdn & Hhp & _ & Hnp & _). destruct insert_next as [Hsp Hsn'].
  simpl. intros Hl Hlk Hz. rewrite insert_succ in Hz. case_decide; [simplify_eq; by left|].
  apply lookup_insert_Some in Hl as [[<- _]|[_ Hl]].
  - eapply (i_linked _ _ _ _ _ HI p); [done|by left|congruence].
  - by eapply (i_linked _ _ _ _ _ HI l).
Qed.

Lemma insert_inj l b1 l' b2 z :
  home a' !! l = Some b1 → home a' !! l' = Some b2 → linked a' l → linked a' l' →
  succ m' l = Some z → succ m' l' = Some z → l = l'.
Proof using All.
  destruct insert_facts as (Hdp & Hdn & Hhp & Hhn & Hnp & Hyn & _).
  destruct insert_next as [Hsp Hsn'].
  assert (∀ z bz, home (w_aux w) !! z = Some bz → succ (w_mem w) z ≠ Some n) as Hnn.
  { intros z1 bz Hz Hsz. eapply pub_succ in Hsz; [|done..]. congruence. }
  assert (∀ z1 bz z, home (w_aux w) !! z1 = Some bz → linked (w_aux w) z1 →
    y = Some z → succ (w_mem w) z1 = Some z → z1 = p) as Hyp.
  { intros z1 bz z' Hz Hlz Hyz Hsz.
    eapply (i_inj _ _ _ _ _ HI); [done|exact Hhp|done|by left|done|congruence]. }
  simpl. intros Hl Hl' Hlk Hlk' Hz Hz'. rewrite insert_succ in Hz, Hz'.
  destruct (decide (l = p)) as [E|E], (decide (l' = p)) as [E'|E']; [congruence|..].
  - injection Hz as <-. apply lookup_insert_Some in Hl' as [[<- _]|[_ Hl']]; [congruence|].
    by destruct (Hnn _ _ Hl').
  - injection Hz' as <-. apply lookup_insert_Some in Hl as [[<- _]|[_ Hl]]; [congruence|].
    by destruct (Hnn _ _ Hl).
  - apply lookup_insert_Some in Hl as [[<- _]|[_ Hl]],
      Hl' as [[<- _]|[_ Hl']]; [done|..].
    + destruct E'. apply (Hyp _ _ z Hl' Hlk'); congruence.
    + destruct E. apply (Hyp _ _ z Hl Hlk); congruence.
    + by eapply (i_inj _ _ _ _ _ HI l _ l').
Qed.

(** All of the invariant that does not depend on the map. *)
Lemma insert_step_with us :
  let w' := upd Sp w m' us a' in
  (∀ u, u ≠ t → quiet u (w_gh w) (w_gh w')) →
  (∀ u, g_thr (w_gh w') !! u = None → g_thr (w_gh w) !! u = None) →
  (∀ l b1 k, home a' !! l = Some b1 → dead (w_aux w) !! l = None →
    key_at less (w_mem w) l = Some k →
    ∃ v vs, state_now zeroV less w' k = Some (v :: vs) ∧ val_of (w_mem w) l = Some v) →
  (∀ k, is_Some (state_now zeroV less w' k) → is_Some (state_now zeroV less w k) ∨
    ∃ k', key_of less sn = Some k' ∧ same_key less k' k = true) →
  S (size (home (w_aux w)) + size bl) ≤ nbase + w_len w' →
  (w_len w' = w_len w → size bl < size (blanks (w_aux w))) →
  (∀ b1, b1 ∈ blanks (w_aux w) → b1 ∉ bl → b = 0 ∧ blank b1 = Some sn) →
  good_step t w w'.
Proof using All.
  intros w' Hq Hnone Hsound Hcomplete Hsize Hstill Hfilled.
  destruct insert_facts as (Hdp & Hdn & Hhp & Hhn & Hnp & Hyn & Hsub).
  assert (g_log (w_gh w) `prefix_of` g_log (w_gh w')) as Hpre by apply (Hq (S t)), Nat.neq_succ_diag_l.
  pose proof (prefix_length _ _ Hpre) as Hle.
  assert (∀ l, sig_of m' l = sig_of (w_mem w) l) as Hsig
    by (intros l; unfold m'; by autorewrite with list_mem).
  assert (∀ l, key_at less m' l = key_at less (w_mem w) l) as Hkey
    by (intros l; unfold m'; apply set_next_key).
  assert (∀ l, val_of m' l = val_of (w_mem w) l) as Hval
    by (intros l; unfold m'; by autorewrite with list_mem).
  assert (∀ l, l ≠ p → node_at m' l = node_at (w_mem w) l) as Hnode.
  { intros l Hl. unfold m', set_next. by rewrite set_node_at, decide_False. }
  assert (sh_heads m' = sh_heads (w_mem w)) as Hheads by (unfold m'; by autorewrite with list_mem).
  assert (sh_rest m' = sh_rest (w_mem w)) as Hrest by (unfold m'; by autorewrite with list_mem).
  split.
  - split; simpl; try apply HI.
    + exact insert_pub.
    + rewrite Hheads. apply HI.
    + rewrite Hheads. intros b1 h Hh. destruct (i_head _ _ _ _ _ HI _ _ Hh) as [Hhh ?].
      rewrite Hsig. split; [|done]. by eapply lookup_weaken; [|exact Hsub].
    + rewrite Hheads. intros l b1 h Hl Hd Hh. apply lookup_insert_Some in Hl as [[<- <-]|[_ Hl]].
      * trans p; [by apply insert_reach, (i_alive _ _ _ _ _ HI _ _ _ Hhp)|].
        apply rtc_once. rewrite insert_succ. by rewrite decide_True.
      * apply insert_reach. by eapply (i_alive _ _ _ _ _ HI).
    + intros l b1 k. rewrite Hkey, Hval. apply Hsound.
    + intros k Hk. destruct (Hcomplete k Hk) as [Hk0|(k' & Hk' & Hs)].
      * destruct (i_complete _ _ _ _ _ HI k Hk0) as (l & b1 & k1 & ? & ? & ? & ?).
        exists l, b1, k1. rewrite Hkey. split_and!; [|done..].
        by eapply lookup_weaken; [|exact Hsub].
      * exists n, b, k'. rewrite lookup_insert_eq, Hkey. unfold key_at. by rewrite Hsn.
    + intros l d0 dp Hd. destruct (i_dead _ _ _ _ _ HI _ _ _ Hd) as [[b1 Hl] ?].
      split; [exists b1; by eapply lookup_weaken; [|exact Hsub]|]. by eapply dead_ok_mono.
    + intros u l v Hu. assert (u ≠ t) by congruence.
      eapply (commit_ok_mono w); [by eapply (i_commit _ _ _ _ _ HI)|done|exact Hsub|done| |done].
      by apply Hq.
    + intros u Hu. by apply (i_idle _ _ _ _ _ HI), Hnone.
    + intros l u [Hne Hu]%lookup_delete_Some.
      destruct (i_own _ _ _ _ _ HI _ _ Hu) as [? ?]. split; [by rewrite lookup_insert_ne|].
      rewrite Hnode; [done|]. congruence.
    + exact insert_linked.
    + exact insert_inj.
    + change (w_len (upd Sp w m' us a')) with (w_len w'). by rewrite map_size_insert_None.
    + etrans; [apply (i_deads _ _ _ _ _ HI)|done].
    + intros b1 Hb1. by apply (i_blanks _ _ _ _ _ HI), Hbl.
    + intros b1 Hb1 Hnb. destruct (decide (b1 ∈ blanks (w_aux w))) as [Hin|Hnin].
      * destruct (Hfilled b1 Hin Hnb) as [-> ->]. exists n. by rewrite lookup_insert_eq, Hsig.
      * destruct (i_filled _ _ _ _ _ HI b1 Hb1 Hnin) as (l & ? & ?). exists l. rewrite Hsig.
        split; [|done]. by eapply lookup_weaken; [|exact Hsub].
    + rewrite Hrest. eapply pub_sig_mono; [apply HI|exact Hsub|by intros].
  - intros u Hu. split; simpl; try done; rewrite ?Hheads, ?Hrest; try done.
    + unfold m'. by autorewrite with list_mem.
    + intros l Hl. assert (l ≠ n) by congruence. rewrite lookup_delete_ne by done.
      split; [done|]. apply Hnode. intros ->. destruct (i_own _ _ _ _ _ HI _ _ Hl). congruence.
    + naive_solver.
    + intros z [d Hz]. unfold m'. rewrite set_next_cell by by eapply pub_node.
      rewrite decide_False; [done|congruence].
    + intros l z _ Hr _. by apply insert_reach.
    + by apply quiet_helped, Hq.
    + intros _. by apply Hq.
    + intros E. specialize (Hstill E). rewrite map_size_insert_None by done.
      split_and!; [done..|lia|]. intros l _. right. unfold unrest. simpl. lia.
Qed.
End insert.
(** The [CompareAndSwap] of [Set] links the new node. *)
Lemma insert_step t k v (p n c : loc) (y : option loc) sp w :
  Inv w → ready t (MSet k v) w → gap p (bucket k) sp y (sig_for less k) w →
  own (w_aux w) !! n = Some t → sig_of (w_mem w) n = Some (sig_for less k) →
  val_of (w_mem w) n = Some v → link (w_mem w) n = Some (ListMarkable y false) →
  mark_at (Some c) (ListMarkable (Some n) false) w →
  let w' := upd Sp w (set_next p c (w_mem w)) [t] (ListAux (<[n := bucket k]> (home (w_aux w)))
    (delete n (own (w_aux w))) (dead (w_aux w)) (limbo (w_aux w)) (commit (w_aux w))
    (blanks (w_aux w)) (spare (w_aux w))) in
  good_step t w w' ∧ done_with t MRDone w'.
Proof using Hbucket Hrange WeakOrder0.
  intros HI [Hpend Hcm] Hgap Hown Hsn Hvn Hln Hc. cbn zeta.
  destruct (lin1_pending Sp _ _ _ MRDone Hpend eq_refl) as (Hf & Hst & Hlen & Hdom).
  pose proof (gap_absent _ _ _ _ _ _ HI (sig_for_key k) (sig_for_ok k) Hgap) as Habs.
  split; [|by split].
  assert (∀ m' a' k', state_now zeroV less (upd Sp w m' [t] a') k' =
    if same_key less k' k then Some [v] else state_now zeroV less w k') as Hnow.
  { intros m' a' k'. change (state_now zeroV less (upd Sp w m' [t] a'))
      with (g_state Sp (lin1 Sp (w_gh w) t)).
    rewrite Hst. simpl. change (g_state Sp (w_gh w)) with (state_now zeroV less w).
    by rewrite Habs. }
  assert (∀ k', key_of less (sig_for less k) = Some k' → bucket k' = bucket k) as Hkb.
  { intros k'. rewrite sig_for_key. by intros [= ->]. }
  apply (insert_step_with t p n c (bucket k) y sp (sig_for less k) (blanks (w_aux w)) w HI
    (Hrange k) Hgap (sig_for_ok k) Hkb Hcm Hown Hsn Hln Hc (reflexivity _) [t]).
  - intros u Hu. by apply (quiet_lin1 Sp).
  - intros u. by rewrite Hdom.
  - cbn [home]. intros l b k' Hl Hd Hk'. rewrite Hnow. destruct (decide (l = n)) as [->|Hne].
    + unfold key_at in Hk'. rewrite Hsn in Hk'. simpl in Hk'. rewrite sig_for_key in Hk'.
      injection Hk' as <-. rewrite same_key_refl by done. by exists v, [].
    + rewrite lookup_insert_ne in Hl by done.
      destruct (i_sound _ _ _ _ _ HI _ _ _ Hl Hd Hk') as (v' & vs & Hv & Hval).
      destruct (same_key less k' k) eqn:E; [|by exists v', vs].
      destruct (st_now_ok zeroV less (g_log (w_gh w))) as [Hsm _].
      unfold state_now in *. rewrite (Hsm _ _ E) in Hv. congruence.
  - intros k' Hk'. rewrite Hnow in Hk'. destruct (same_key less k' k) eqn:E; [right|by left].
    exists k. by rewrite same_key_sym, sig_for_key.
  - pose proof (i_size _ _ _ _ _ HI). unfold w_len in *. simpl. lia.
  - unfold w_len. simpl. lia.
  - by intros b1 ? [].
Qed.

(** A sentinel that is still missing is linked. *)
Lemma sentinel_step t b1 (p n c : loc) (y : option loc) sp sb w :
  Inv w → commit (w_aux w) !! t = None → 0 < nlists → b1 < nblanks → blank b1 = Some sb →
  node_ok less sb → key_of less sb = None → gap p 0 sp y sb w →
  own (w_aux w) !! n = Some t → sig_of (w_mem w) n = Some sb →
  link (w_mem w) n = Some (ListMarkable y false) →
  mark_at (Some c) (ListMarkable (Some n) false) w →
  let w' := upd Sp w (set_next p c (w_mem w)) [] (ListAux (<[n := 0]> (home (w_aux w)))
    (delete n (own (w_aux w))) (dead (w_aux w)) (limbo (w_aux w)) (commit (w_aux w))
    (blanks (w_aux w) ∖ {[b1]}) (spare (w_aux w))) in
  good_step t w w' ∧ pub n 0 sb w'.
Proof using Hbucket Hrange WeakOrder0.
  intros HI Hcm Hn Hb1 Hbl Hok Hkey Hgap Hown Hsn Hln Hc. cbn zeta.
  assert (b1 ∈ blanks (w_aux w)) as Hin.
  { destruct (decide (b1 ∈ blanks (w_aux w))) as [?|Hnin]; [done|exfalso].
    destruct (i_filled _ _ _ _ _ HI b1 Hb1 Hnin) as (l & Hl & Hs).
    rewrite Hbl in Hs. assert (pub l 0 sb w) as Hpl by done.
    destruct (pub_link _ _ _ HI Hl) as [mk Hmk].
    pose proof (pub_pub_ok _ _ _ _ _ HI Hpl Hmk) as Hokl.
    assert (dead (w_aux w) !! l = None) as Hd.
    { apply (pub_sentinel _ _ _ _ _ HI Hpl Hmk). destruct (lm_marked mk) eqn:E; [|done].
      destruct (p_sentinel _ _ _ _ _ _ _ _ Hokl E). congruence. }
    pose proof (gap_none _ _ _ _ _ _ _ _ HI Hn Hgap Hpl Hd) as Hh.
    unfold holds in Hh. by rewrite same_key_refl in Hh by apply node_less_weak. }
  assert (size (blanks (w_aux w) ∖ {[b1]}) < size (blanks (w_aux w))) as Hsize.
  { apply subset_size. set_solver. }
  split; [|split; simpl; [by rewrite lookup_insert_eq|by autorewrite with list_mem]].
  assert (∀ k', key_of less sb = Some k' → bucket k' = 0) as Hkb
    by (intros k'; by rewrite Hkey).
  apply (insert_step_with t p n c 0 y sp sb (blanks (w_aux w) ∖ {[b1]}) w HI
    Hn Hgap Hok Hkb Hcm Hown Hsn Hln Hc ltac:(set_solver) []); try done.
  - cbn [home]. intros l b2 k Hl Hd Hk. destruct (decide (l = n)) as [->|Hne].
    + unfold key_at in Hk. rewrite Hsn in Hk. simpl in Hk. congruence.
    + rewrite lookup_insert_ne in Hl by done. by eapply (i_sound _ _ _ _ _ HI).
  - intros k Hk. by left.
  - pose proof (i_size _ _ _ _ _ HI). unfold w_len in *. simpl. lia.
  - intros b2 Hb2 Hnb. split; [done|].
    destruct (decide (b2 = b1)) as [->|Hne]; [done|]. destruct Hnb.
    by apply elem_of_difference; rewrite elem_of_singleton.
Qed.

(** The [CompareAndSwap] of [search] and [Del] unlinks the marked node [d]. *)
Section unlink.
Context (t : nat) (p d c : loc) (y : option loc) (b : nat) (sp : G) (w : world).
Context (HI : Inv w) (Hp : pub p b sp w).
Context (Hlink : link (w_mem w) p = Some (ListMarkable (Some d) false)).
Context (Hld : link (w_mem w) d = Some (ListMarkable y true)).
Context (Hc : mark_at (Some c) (ListMarkable y false) w).

Let a' : aux := ListAux (home (w_aux w)) (own (w_aux w)) (dead (w_aux w))
  (limbo (w_aux w) ∖ {[d]}) (commit (w_aux w)) (blanks (w_aux w)) (spare (w_aux w)).
Let m' := set_next p c (w_mem w).

Lemma unlink_facts :
  dead (w_aux w) !! p = None ∧ home (w_aux w) !! d = Some b ∧ is_Some (dead (w_aux w) !! d) ∧
  d ∈ limbo (w_aux w) ∧ p ≠ d ∧ y ≠ Some d ∧
  succ (w_mem w) p = Some d ∧ succ (w_mem w) d = y.
Proof using All.
  pose proof (succ_link _ _ _ Hlink) as Hsp. pose proof (succ_link _ _ _ Hld) as Hsd.
  simpl in Hsp, Hsd.
  assert (dead (w_aux w) !! p = None) as Hdp by by eapply pub_sentinel.
  destruct Hp as [Hhp _]. pose proof (pub_succ _ _ _ _ HI Hhp Hsp) as Hhd.
  destruct (i_pub _ _ _ _ _ HI _ _ Hhd) as (sd & mk & Hok).
  pose proof (p_link _ _ _ _ _ _ _ _ Hok) as Hl. rewrite Hld in Hl. injection Hl as <-.
  pose proof (proj1 (p_marked _ _ _ _ _ _ _ _ Hok) eq_refl) as Hdd.
  assert (y ≠ Some d) as Hxd.
  { intros ->. destruct (p_next _ _ _ _ _ _ _ _ Hok d eq_refl) as (_ & s' & Hs & Hlt).
    rewrite (p_sig _ _ _ _ _ _ _ _ Hok) in Hs. injection Hs as <-. by rewrite less_irrefl in Hlt. }
  split_and!; try done.
  - destruct (i_linked _ _ _ _ _ HI p _ d Hhp (or_introl Hdp) Hsp) as [Hd|?]; [|done].
    rewrite Hd in Hdd. by destruct Hdd.
  - intros ->. congruence.
Qed.

Lemma unlink_succ z : succ m' z = if decide (z = p) then y else succ (w_mem w) z.
Proof using HI Hp Hc.
  unfold m'. rewrite set_next_succ by by eapply pub_node, Hp. case_decide; [|done].
  unfold mark_at in Hc. simpl in Hc. by rewrite Hc.
Qed.

Lemma unlink_pub l b' : home (w_aux w) !! l = Some b' → ∃ s mk, pub_ok less bucket m' a' l b' s mk.
Proof using All.
  destruct unlink_facts as (Hdp & Hhd & _). intros Hl.
  destruct (decide (l = p)) as [->|Hlp]; [|eapply relink_other; [done|apply Hp|done..]].
  rewrite (proj1 Hp) in Hl. injection Hl as <-. exists sp, (ListMarkable y false).
  pose proof (pub_pub_ok _ _ _ _ _ HI Hp Hlink) as [Q1 Q2 Q3 Q4 Q5 Q6 Q7 Hn].
  destruct (i_pub _ _ _ _ _ HI _ _ Hhd) as (sd & mkd & Hok).
  pose proof (p_link _ _ _ _ _ _ _ _ Hok) as Hl. rewrite Hld in Hl. injection Hl as <-.
  destruct (Hn d eq_refl) as (_ & s' & Hs' & Hlt).
  rewrite (p_sig _ _ _ _ _ _ _ _ Hok) in Hs'. injection Hs' as <-. unfold m'.
  split; simpl; try done.
  - by autorewrite with list_mem.
  - rewrite set_next_link by by eapply pub_node, Hp. by rewrite decide_True.
  - intros Hbd. apply (p_bounded _ _ _ _ _ _ _ _ Hok).
    eapply bounded_key; [exact Hbd|apply Hok|by apply (p_sentinel _ _ _ _ _ _ _ _ Hok)].
  - intros z Hz. destruct (p_next _ _ _ _ _ _ _ _ Hok z Hz) as (? & s'' & ? & ?).
    split; [done|]. exists s''. autorewrite with list_mem. split; [done|]. by eapply less_trans.
Qed.

Lemma unlink_step :
  let w' := upd Sp w m' [] a' in good_step t w w' ∧ unrest w' < unrest w.
Proof using All.
  destruct unlink_facts as (Hdp & Hhd & Hdd & Hlim & Hpd & Hxd & Hsp & Hsd).
  assert (size (limbo (w_aux w) ∖ {[d]}) < size (limbo (w_aux w))) as Hsize.
  { apply subset_size. set_solver. }
  assert (∀ l, linked a' l ↔ linked (w_aux w) l ∧ l ≠ d) as Hlk.
  { intros l. unfold linked. simpl. rewrite elem_of_difference, not_elem_of_singleton.
    split; [|tauto]. intros [Hl|[? ?]]; [|auto]. split; [by left|]. intros ->.
    rewrite Hl in Hdd. by destruct Hdd. }
  assert (∀ l z, reach (w_mem w) l z → dead (w_aux w) !! z = None → reach m' l z) as Hreach.
  { intros l z Hr Hz. eapply (reach_unlink _ _ p d); [done..| | | |exact Hr].
    - rewrite unlink_succ, decide_True by done. congruence.
    - intros z' Hz'. by rewrite unlink_succ, decide_False.
    - intros ->. rewrite Hz in Hdd. by destruct Hdd. }
  assert (∀ l, key_at less m' l = key_at less (w_mem w) l) as Hkey
    by (intros l; unfold m'; apply set_next_key).
  assert (∀ l, l ≠ p → node_at m' l = node_at (w_mem w) l) as Hnode.
  { intros l Hl. unfold m', set_next. by rewrite set_node_at, decide_False. }
  split; [split|unfold unrest; simpl; lia].
  - split; simpl; unfold m'; autorewrite with list_mem; try apply HI; fold m'.
    + exact unlink_pub.
    + intros b' h Hh. unfold m'. autorewrite with list_mem. by apply (i_head _ _ _ _ _ HI).
    + intros l b' h Hl Hd Hh. apply Hreach; [|done]. by eapply (i_alive _ _ _ _ _ HI).
    + intros l b' k. rewrite Hkey. unfold m'. autorewrite with list_mem. apply (i_sound _ _ _ _ _ HI).
    + intros k Hk. destruct (i_complete _ _ _ _ _ HI k Hk) as (l & b' & k' & ? & ? & ? & ?).
      exists l, b', k'. by rewrite Hkey.
    + intros l d0 dp Hd. destruct (i_dead _ _ _ _ _ HI _ _ _ Hd) as [? Hok].
      split; [done|]. eapply dead_ok_mono; [exact Hok|done|done|].
      unfold m'. by autorewrite with list_mem.
    + intros u l v Hu. by eapply (commit_ok_mono w); [by eapply (i_commit _ _ _ _ _ HI)|..].
    + intros l u Hu. destruct (i_own _ _ _ _ _ HI _ _ Hu). split; [done|].
      rewrite Hnode; [done|]. intros ->. destruct Hp. congruence.
    + intros l [? _]%elem_of_difference. by apply (i_limbo _ _ _ _ _ HI).
    + intros l b' z Hl [Hll Hld']%Hlk. rewrite unlink_succ. intros Hz. apply Hlk.
      case_decide; [subst l|].
      * split; [|congruence]. eapply (i_linked _ _ _ _ _ HI d); [done|by right|congruence].
      * split; [by eapply (i_linked _ _ _ _ _ HI l)|]. intros ->.
        destruct (i_inj _ _ _ _ _ HI l b' p b d); [done|apply Hp|done|by left|done..].
    + intros l b1 l' b2 z Hl Hl' [Hll Hn]%Hlk [Hll' Hn']%Hlk. rewrite !unlink_succ.
      assert (∀ z1 bz, home (w_aux w) !! z1 = Some bz → linked (w_aux w) z1 → z1 ≠ d →
        y = Some z → succ (w_mem w) z1 ≠ Some z) as Hx.
      { intros z1 bz Hz Hlz Hzd Hyz Hsz. destruct Hzd.
        eapply (i_inj _ _ _ _ _ HI z1 _ d); [done..|by right|done|congruence]. }
      destruct (decide (l = p)), (decide (l' = p)); intros Hz Hz'; [congruence|..].
      * by destruct (Hx _ _ Hl' Hll' Hn' Hz).
      * by destruct (Hx _ _ Hl Hll Hn Hz').
      * by eapply (i_inj _ _ _ _ _ HI l _ l').
    + eapply filled_mono; [by apply (i_filled _ _ _ _ _ HI)|done|].
      intros x _. unfold m'. by autorewrite with list_mem.
    + eapply pub_sig_mono; [apply HI|done|]. intros x _. unfold m'. by autorewrite with list_mem.
  - intros u Hu. split; simpl; unfold m'; autorewrite with list_mem; try done;
      auto with lockfree; fold m'.
    + intros l _. unfold m'. by autorewrite with list_mem.
    + intros l Hl. split; [done|]. apply Hnode. intros ->.
      destruct (i_own _ _ _ _ _ HI _ _ Hl), Hp. congruence.
    + naive_solver.
    + intros z [e Hz]. unfold m'. rewrite set_next_cell by by eapply pub_node, Hp.
      rewrite decide_False; [done|congruence].
    + intros _. split_and!; [done|lia|done|]. intros l _. right. unfold unrest. simpl. lia.
Qed.
End unlink.
(** ** Deleting a node *)

(** Two nodes of the map do not hold the same key. *)
Lemma alive_unique w l l' b b' s s' k k' :
  Inv w → pub l b s w → pub l' b' s' w → key_of less s = Some k → key_of less s' = Some k' →
  dead (w_aux w) !! l = None → dead (w_aux w) !! l' = None →
  same_key less k k' = true → l = l'.
Proof using Hbucket Hrange WeakOrder0.
  intros HI Hl Hl' Hs Hs' Hd Hd' Hk.
  destruct (pub_key_at _ _ _ _ _ HI Hl Hs) as [<- _].
  destruct (pub_key_at _ _ _ _ _ HI Hl' Hs') as [<- _]. rewrite <-(Hbucket _ _ Hk) in Hl'.
  destruct (lookup_lt_is_Some_2 (sh_heads (w_mem w)) (bucket k)) as [h Hh];
    [rewrite (i_lists _ _ _ _ _ HI); apply Hrange|].
  rewrite <-(same_keys _ _ _ _ (pub_kind _ _ _ _ HI Hl) (pub_kind _ _ _ _ HI Hl') Hs Hs') in Hk.
  apply same_key_spec in Hk as [Hk1 Hk2].
  destruct (reach_linear _ _ l l' (i_alive _ _ _ _ _ HI _ _ _ (proj1 Hl) Hd Hh)
    (i_alive _ _ _ _ _ HI _ _ _ (proj1 Hl') Hd' Hh)) as [Hr|Hr].
  - destruct (reach_less _ _ _ _ _ _ HI Hl (proj2 Hl') Hr) as [?|Hlt]; [done|congruence].
  - destruct (reach_less _ _ _ _ _ _ HI Hl' (proj2 Hl) Hr) as [?|Hlt]; [done|congruence].
Qed.

(** The pending updates of a key take effect, in any order. *)
Lemma lin_sets k (sets : list (nat * V)) (g : ghost (lmap_op K V) (lmap_resp K V)) vs0 :
  NoDup sets.*1 →
  (∀ u v, (u, v) ∈ sets → ∃ k', pending g u (MSet k' v) ∧ same_key less k' k = true) →
  st_now zeroV less (g_log g) k = Some vs0 →
  let g' := lins Sp sets.*1 g in
  (∀ u v, (u, v) ∈ sets → finished g' u MRDone ∧
     ∃ n vs, length (g_log g) ≤ n ≤ length (g_log g') ∧
       st_at zeroV less (g_log g') n k = Some (v :: vs)) ∧
  (∃ vs, st_now zeroV less (g_log g') k = Some (vs ++ vs0) ∧
     ∀ u v, (u, v) ∈ sets → v ∈ vs) ∧
  (∀ k', same_key less k' k = false →
     st_now zeroV less (g_log g') k' = st_now zeroV less (g_log g) k') ∧
  (∀ u, u ∉ sets.*1 → quiet u g g') ∧ (∀ u, helped u g g') ∧
  (∀ u, g_thr g' !! u = None → g_thr g !! u = None).
Proof.
  revert g vs0. induction sets as [|[u v] sets IH]; intros g vs0 Hnd Hp Hk; cbn zeta.
  { split_and!; try done; [by intros u v []%elem_of_nil|].
    exists []. split; [done|]. by intros u v []%elem_of_nil. }
  change (lins Sp ((u, v) :: sets).*1 g) with (lins Sp sets.*1 (lin1 Sp g u)).
  rewrite fmap_cons in Hnd |- *. apply NoDup_cons in Hnd as [Hu Hnd].
  destruct (Hp u v) as (ku & Hpu & Hku); [left|].
  destruct (lin1_pending Sp g u _ MRDone Hpu eq_refl) as (Hf & Hst & Hlen & Hdom).
  set (g1 := lin1 Sp g u) in *.
  assert (∀ x, x ≠ u → quiet x g g1) as Hq by (intros x Hx; by apply (quiet_lin1 Sp)).
  destruct (st_now_ok zeroV less (g_log g)) as [Hsm _].
  assert (st_now zeroV less (g_log g1) k = Some (v :: vs0)) as Hk1.
  { change (st_now zeroV less (g_log g1)) with (g_state Sp g1). rewrite Hst. simpl.
    rewrite same_key_sym, Hku. change (g_state Sp g) with (st_now zeroV less (g_log g)).
    by rewrite (Hsm _ _ Hku), Hk. }
  destruct (IH g1 (v :: vs0)) as (Hfin & (vs & Hnow & Hvs) & Hother & Hquiet & Hhelp & Hnone);
    [done| |done|].
  { intros u' v' Hin. destruct (Hp u' v') as (k' & ? & ?); [by right|]. exists k'.
    split; [|done]. eapply pending_quiet; [done|]. apply Hq. intros ->.
    apply Hu, list_elem_of_fmap. by exists (u, v'). }
  set (g' := lins Sp sets.*1 g1) in *.
  destruct (Hhelp 0) as [Hpre _]. pose proof (prefix_length _ _ Hpre) as Hle. split_and!.
  - intros u' v' [[= -> ->]|Hin]%elem_of_cons.
    + split; [by eapply finished_helped|]. exists (length (g_log g1)), vs0. split; [lia|].
      rewrite (st_at_prefix _ _ _ _ _ Hpre), st_at_now by done. done.
    + destruct (Hfin _ _ Hin) as (? & n & vs' & ? & ?). split; [done|].
      exists n, vs'. split; [lia|done].
  - exists (vs ++ [v]). split; [by rewrite <-app_assoc|].
    intros u' v' [[= -> ->]|Hin]%elem_of_cons; apply elem_of_app; [right; left|left; eauto].
  - intros k' Hk'. rewrite Hother by done.
    change (st_now zeroV less (g_log g1)) with (g_state Sp g1). rewrite Hst. simpl.
    destruct (same_key less k' ku) eqn:E; [|done].
    by rewrite (same_key_trans less _ _ _ E Hku) in Hk'.
  - intros x [Hx Hx']%not_elem_of_cons. trans g1; [by apply Hq|by apply Hquiet].
  - intros x. trans g1; [apply (helped_lin1 Sp)|apply Hhelp].
  - intros x Hx. by apply Hdom, Hnone.
Qed.

(** The goroutines that are about to update [d]. *)
Definition setters (d : loc) (cm : gmap nat (loc * V)) : list (nat * V) :=
  (λ e, (e.1, e.2.2)) <$> filter (λ e, e.2.1 = d) (map_to_list cm).

Lemma elem_of_setters d cm u v : (u, v) ∈ setters d cm ↔ cm !! u = Some (d, v).
Proof.
  unfold setters. rewrite list_elem_of_fmap. split.
  - intros ([u' [l v']] & [= -> ->] & [Hl Hin]%list_elem_of_filter). simpl in *. subst.
    by apply elem_of_map_to_list.
  - intros Hu. exists (u, (d, v)). split; [done|]. apply list_elem_of_filter.
    split; [done|]. by apply elem_of_map_to_list.
Qed.

Lemma NoDup_setters d cm : NoDup (setters d cm).*1.
Proof.
  unfold setters. rewrite <-list_fmap_compose.
  pose proof (NoDup_fst_map_to_list cm) as Hn. revert Hn. generalize (map_to_list cm).
  intros l. induction l as [|[u [x v]] l IH]; simpl; [done|].
  intros [Hu Hn]%NoDup_cons. rewrite filter_cons. case_decide; [|by apply IH].
  simpl. apply NoDup_cons. split; [|by apply IH].
  intros ([u' y] & Heq & [_ Hin]%list_elem_of_filter)%list_elem_of_fmap. simpl in Heq. subst.
  apply Hu, list_elem_of_fmap. by exists (u', y).
Qed.
(** The [CompareAndSwap] of [Del] marks [d]: the updates about to happen there
    take effect, and then the deletion. *)
Section mark.
Context (t : nat) (k kd : K) (sd : G) (d c : loc) (y : option loc) (b : nat) (w : world).
Context (HI : Inv w) (Hready : ready t (MDel k) w).
Context (Hd : pub d b sd w) (Hsd : key_of less sd = Some kd) (Hk : same_key less kd k = true).
Context (Hlink : link (w_mem w) d = Some (ListMarkable y false)).
Context (Hc : mark_at (Some c) (ListMarkable y true) w).

Let sets := setters d (commit (w_aux w)).
Let g1 := lins Sp sets.*1 (w_gh w).
Let d0 := length (g_log (w_gh w)).
Let dp := length (g_log g1).
Let a' : aux := ListAux (home (w_aux w)) (own (w_aux w)) (<[d := (d0, dp)]> (dead (w_aux w)))
  ({[d]} ∪ limbo (w_aux w)) (commit (w_aux w)) (blanks (w_aux w)) (spare (w_aux w)).
Let m' := set_next d c (w_mem w).
Let w' := upd Sp w m' (sets.*1 ++ [t]) a'.

Lemma mark_alive : dead (w_aux w) !! d = None.
Proof using All. by eapply pub_sentinel. Qed.

Lemma mark_key : key_at less (w_mem w) d = Some kd.
Proof using All. by apply (pub_key_at _ _ _ _ _ HI Hd Hsd). Qed.

Lemma mark_sets u v : (u, v) ∈ sets →
  ∃ k', pending (w_gh w) u (MSet k' v) ∧ same_key less k' kd = true.
Proof using All.
  intros Hu%elem_of_setters.
  destruct (i_commit _ _ _ _ _ HI _ _ _ Hu) as (k1 & k' & b' & Hs & Hk' & _ & Hp).
  rewrite mark_alive in Hp. rewrite mark_key in Hs. injection Hs as <-. by exists k'.
Qed.

(** The ghost state after the step. *)
Lemma mark_ghost :
  (∃ v vs, state_now zeroV less w kd = Some (v :: vs) ∧ val_of (w_mem w) d = Some v ∧
     was zeroV less (g_log (w_gh w')) kd d0 dp v) ∧
  (∀ u v, (u, v) ∈ sets → finished (w_gh w') u MRDone ∧
     was zeroV less (g_log (w_gh w')) kd d0 dp v) ∧
  (∀ k', state_now zeroV less w' k' =
     if same_key less k' kd then None else state_now zeroV less w k') ∧
  d0 ≤ dp ∧ w_len w' = S dp ∧ opened (w_gh w') t (MDel k) dp ∧
  (∀ u, u ≠ t → u ∉ sets.*1 → quiet u (w_gh w) (w_gh w')) ∧
  (∀ u, helped u (w_gh w) (w_gh w')) ∧
  (∀ u, g_thr (w_gh w') !! u = None → g_thr (w_gh w) !! u = None).
Proof using All.
  destruct (i_sound _ _ _ _ _ HI _ _ _ (proj1 Hd) mark_alive mark_key) as (v0 & vs0 & Hnow & Hval).
  destruct (lin_sets kd sets (w_gh w) (v0 :: vs0) (NoDup_setters _ _) mark_sets Hnow)
    as (Hfin & (vs & Hnow1 & Hvs) & Hother & Hq & Hh & Hnone).
  fold g1 in Hfin, Hnow1, Hother, Hq, Hh, Hnone.
  destruct Hready as [Hp Hcm].
  assert (t ∉ sets.*1) as Ht.
  { intros ([u v] & -> & Hu%elem_of_setters)%list_elem_of_fmap. simpl in *. congruence. }
  assert (pending g1 t (MDel k)) as Hp1 by (eapply pending_quiet; [exact Hp|by apply Hq]).
  destruct (st_now_ok zeroV less (g_log g1)) as [Hsm _].
  assert (st_now zeroV less (g_log g1) k = Some (vs ++ v0 :: vs0)) as Hnow1k
    by by rewrite <-(Hsm _ _ Hk).
  assert (∃ r, spec_pick Sp (g_state Sp g1) (MDel k) = Some r) as [r Hr].
  { simpl. unfold lmap_pick. change (g_state Sp g1) with (st_now zeroV less (g_log g1)).
    rewrite Hnow1k. destruct vs; by eexists. }
  destruct (lin1_open Sp g1 t (MDel k) r Hp1) as (Hopen & Hst & (e & Hlog) & Hdom); [|done|].
  { simpl. change (g_state Sp g1) with (st_now zeroV less (g_log g1)). by rewrite Hnow1k. }
  assert (w_gh w' = lin1 Sp g1 t) as Hg'.
  { unfold w', upd. simpl. unfold lins. by rewrite foldl_app. }
  rewrite Hg'. unfold w_len. rewrite Hg'.
  assert (g_log g1 `prefix_of` g_log (lin1 Sp g1 t)) as Hpre1 by (rewrite Hlog; apply prefix_snoc).
  destruct (Hh 0) as [Hpre _]. pose proof (prefix_length _ _ Hpre) as Hle.
  assert (∀ n, n ≤ dp → st_at zeroV less (g_log (lin1 Sp g1 t)) n = st_at zeroV less (g_log g1) n)
    as Hst1 by (intros n ?; by apply st_at_prefix).
  assert (st_at zeroV less (g_log (lin1 Sp g1 t)) dp kd = Some (vs ++ v0 :: vs0)) as Hdp.
  { rewrite Hst1 by done. unfold dp. by rewrite st_at_now. }
  split_and!; try done.
  - exists v0, vs0. split; [done|]. split; [done|]. split.
    + exists d0, vs0. split; [done|]. rewrite Hst1 by done.
      rewrite (st_at_prefix _ _ _ _ _ Hpre) by done. unfold d0. by rewrite st_at_now.
    + eexists. split; [exact Hdp|]. apply elem_of_app. right. left.
  - intros u v Hu. destruct (Hfin u v Hu) as (Hf & n & vs' & Hn & Hs). split.
    { eapply finished_helped; [done|]. apply (helped_lin1 Sp). }
    split; [exists n, vs'; split; [done|]; rewrite Hst1; [done|apply Hn]|].
    eexists. split; [exact Hdp|]. apply elem_of_app. left. by eapply Hvs.
  - intros k'. change (state_now zeroV less w' k') with (g_state Sp (w_gh w') k').
    rewrite Hg', Hst. simpl. change (g_state Sp g1) with (st_now zeroV less (g_log g1)).
    rewrite Hnow1k. simpl. destruct (same_key less k' kd) eqn:E.
    + by rewrite (same_key_trans less _ _ _ E Hk).
    + destruct (same_key less k' k) eqn:E'; [|by rewrite Hother].
      rewrite same_key_sym in Hk. by rewrite (same_key_trans less _ _ _ E' Hk) in E.
  - rewrite Hlog, length_app. simpl. fold dp. lia.
  - intros u Hu Hu'. trans g1; [by apply Hq|]. by apply (quiet_lin1 Sp).
  - intros u. trans g1; [apply Hh|apply (helped_lin1 Sp)].
  - intros u Hu. by apply Hnone, Hdom.
Qed.
Lemma mark_succ z : succ m' z = succ (w_mem w) z.
Proof using All.
  unfold m'. rewrite set_next_succ by by eapply pub_node, Hd. case_decide; [subst|done].
  rewrite (succ_link _ _ _ Hlink). unfold mark_at in Hc. simpl in Hc. by rewrite Hc.
Qed.

Lemma mark_reach z z' : reach m' z z' ↔ reach (w_mem w) z z'.
Proof using All.
  split; apply (reach_same (λ _, True)); try done; intros u u' _ Hu; (split; [done|]);
    [by rewrite <-mark_succ|by rewrite mark_succ].
Qed.

Lemma mark_linked l : linked a' l ↔ linked (w_aux w) l.
Proof using All.
  unfold linked. simpl. rewrite elem_of_union, elem_of_singleton.
  destruct (decide (l = d)) as [->|Hne].
  - rewrite lookup_insert_eq. pose proof mark_alive. naive_solver.
  - rewrite lookup_insert_ne by done. naive_solver.
Qed.

Lemma mark_pub l b' : home (w_aux w) !! l = Some b' → ∃ s mk, pub_ok less bucket m' a' l b' s mk.
Proof using All.
  intros Hl. destruct (decide (l = d)) as [->|Hne].
  - rewrite (proj1 Hd) in Hl. injection Hl as <-. exists sd, (ListMarkable y true).
    pose proof (pub_pub_ok _ _ _ _ _ HI Hd Hlink) as [Q1 Q2 Q3 Q4 Q5 Q6 Q7 Hn].
    unfold m'. split; simpl; try done.
    + by autorewrite with list_mem.
    + rewrite set_next_link by by eapply pub_node, Hd. by rewrite decide_True.
    + rewrite lookup_insert_eq. by split; [eexists|].
    + intros z Hz. destruct (Hn z Hz) as (? & s' & ? & ?). split; [done|]. exists s'.
      by autorewrite with list_mem.
  - eapply relink_other; [done|apply Hd|done..|]. simpl. by rewrite lookup_insert_ne.
Qed.

(** No other node of the map has the key. *)
Lemma mark_other l b' k' : home (w_aux w) !! l = Some b' → l ≠ d → dead (w_aux w) !! l = None →
  key_at less (w_mem w) l = Some k' → same_key less k' kd = false.
Proof using All.
  intros Hl Hne Hdl Hs. destruct (same_key less k' kd) eqn:E; [|done]. destruct Hne.
  destruct (key_at_sig _ _ _ Hs) as (s & Hsl & Hks).
  eapply alive_unique; [done|by split|exact Hd|done|exact Hsd|done|apply mark_alive|done].
Qed.

Lemma mark_step :
  good_step t w w' ∧ open_at t (MDel k) dp w' ∧ dead (w_aux w') !! d = Some (d0, dp) ∧
  after_call t d0 w'.
Proof using All.
  destruct mark_ghost as ((v & vs & Hnow & Hval & Hwas) & Hsets & Hstate & Hd0 & Hlen & Hopen
    & Hq & Hh & Hnone).
  destruct (Hh 0) as [Hpre _].
  assert (∀ k', same_key less k' kd = true → state_at zeroV less w' (S dp) k' = None) as Hgone.
  { intros k' E. unfold state_at. rewrite <-Hlen. unfold w_len. rewrite st_at_now.
    change (st_now zeroV less (g_log (w_gh w')) k') with (state_now zeroV less w' k').
    by rewrite Hstate, E. }
  assert (∀ u l v', commit (w_aux w) !! u = Some (l, v') → l ≠ d → u ≠ t ∧ u ∉ sets.*1) as Hns.
  { intros u l v' Hu Hne. split; [intros ->; destruct Hready; congruence|].
    intros ([u' v''] & -> & Hu'%elem_of_setters)%list_elem_of_fmap. simpl in *. congruence. }
  assert (∀ l, sig_of m' l = sig_of (w_mem w) l) as Hsig
    by (intros l; unfold m'; by autorewrite with list_mem).
  assert (∀ l, key_at less m' l = key_at less (w_mem w) l) as Hkey
    by (intros l; unfold m'; apply set_next_key).
  assert (∀ l, val_of m' l = val_of (w_mem w) l) as Hvals
    by (intros l; unfold m'; by autorewrite with list_mem).
  assert (∀ l, l ≠ d → node_at m' l = node_at (w_mem w) l) as Hnode.
  { intros l Hl. unfold m', set_next. by rewrite set_node_at, decide_False. }
  assert (sh_heads m' = sh_heads (w_mem w)) as Hheads by (unfold m'; by autorewrite with list_mem).
  assert (sh_rest m' = sh_rest (w_mem w)) as Hrest by (unfold m'; by autorewrite with list_mem).
  split; [split|].
  - split; simpl; try apply HI.
    + exact mark_pub.
    + rewrite Hheads. apply HI.
    + rewrite Hheads. intros b' h Hh'. rewrite Hsig. by apply (i_head _ _ _ _ _ HI).
    + rewrite Hheads. intros l b' h Hl [Hdl _]%lookup_insert_None Hh'.
      apply mark_reach. by eapply (i_alive _ _ _ _ _ HI).
    + intros l b' k' Hl [Hdl Hne]%lookup_insert_None. rewrite Hkey, Hvals.
      intros Hs. rewrite Hstate, (mark_other l b') by done. by eapply (i_sound _ _ _ _ _ HI).
    + intros k' Hk'. rewrite Hstate in Hk'.
      destruct (same_key less k' kd) eqn:E; [by destruct Hk'|].
      destruct (i_complete _ _ _ _ _ HI k' Hk') as (l & b' & k1 & ? & ? & Hs & Hsk).
      exists l, b', k1. rewrite Hkey. split_and!; [done| |done|done].
      rewrite lookup_insert_ne; [done|]. intros <-. rewrite mark_key in Hs. injection Hs as <-.
      rewrite same_key_sym in E. congruence.
    + intros l e0 ep. rewrite lookup_insert_Some. intros [[<- [= <- <-]]|[Hne Hdl]].
      * split; [eexists; apply Hd|]. exists kd, v. rewrite Hkey, Hvals.
        change (length (g_log (lins Sp (sets.*1 ++ [t]) (w_gh w)))) with (w_len w').
        rewrite Hlen. split; [apply mark_key|]. split; [done|]. split; [lia|]. split; [exact Hwas|].
        apply Hgone, same_key_refl. done.
      * destruct (i_dead _ _ _ _ _ HI _ _ _ Hdl) as [? Hok]. split; [done|].
        by eapply dead_ok_mono; [exact Hok|exact Hpre|..].
    + intros u l v' Hu. destruct (decide (l = d)) as [->|Hne].
      * destruct (i_commit _ _ _ _ _ HI _ _ _ Hu) as (k1 & k' & b' & Hs & ? & ? & _).
        rewrite mark_key in Hs. injection Hs as <-.
        exists kd, k', b'. simpl. rewrite Hkey.
        rewrite lookup_insert_eq. split; [apply mark_key|]. do 2 (split; [done|]).
        by apply Hsets, elem_of_setters.
      * destruct (Hns _ _ _ Hu Hne).
        eapply (commit_ok_mono w); [by eapply (i_commit _ _ _ _ _ HI)|..]; simpl;
          [done|done|by rewrite lookup_insert_ne|by apply Hq|done].
    + intros u Hu. by apply (i_idle _ _ _ _ _ HI), Hnone.
    + intros l u Hu. destruct (i_own _ _ _ _ _ HI _ _ Hu). split; [done|].
      rewrite Hnode; [done|]. intros ->. destruct Hd. congruence.
    + intros l [->%elem_of_singleton|Hl]%elem_of_union; [by rewrite lookup_insert_eq; eexists|].
      destruct (i_limbo _ _ _ _ _ HI _ Hl) as [e He]. destruct (decide (l = d)) as [->|].
      * rewrite lookup_insert_eq. by eexists.
      * rewrite lookup_insert_ne by done. by exists e.
    + intros l b' z Hl Hll. rewrite mark_succ. intros Hz. apply mark_linked.
      eapply (i_linked _ _ _ _ _ HI l); [done|by apply mark_linked|done].
    + intros l b1 l' b2 z Hl Hl' Hll Hll'. rewrite !mark_succ. intros Hz Hz'.
      eapply (i_inj _ _ _ _ _ HI l _ l'); [done|done|by apply mark_linked..|done|done].
    + change (w_len (upd Sp w m' (sets.*1 ++ [t]) a')) with (w_len w'). rewrite Hlen.
      pose proof (i_size _ _ _ _ _ HI). unfold w_len in *. unfold d0 in Hd0. lia.
    + change (w_len (upd Sp w m' (sets.*1 ++ [t]) a')) with (w_len w'). rewrite Hlen.
      rewrite map_size_insert_None by apply mark_alive.
      pose proof (i_deads _ _ _ _ _ HI). unfold w_len in *. unfold d0 in Hd0. lia.
    + by eapply filled_mono; [by apply (i_filled _ _ _ _ _ HI)|..].
    + rewrite Hrest. by eapply pub_sig_mono; [apply HI|..].
  - intros u Hu. split; simpl; rewrite ?Hheads, ?Hrest; try done.
    + unfold m'. by autorewrite with list_mem.
    + intros l Hl. split; [done|]. apply Hnode. intros ->.
      destruct (i_own _ _ _ _ _ HI _ _ Hl), Hd. congruence.
    + apply insert_subseteq, mark_alive.
    + intros z e0 ep k' [[<- [= <- <-]]|[Hne Hdy]]%lookup_insert_Some Hn _ Hs; [|congruence].
      rewrite mark_key in Hs. injection Hs as <-.
      change (w_len (upd Sp w m' (sets.*1 ++ [t]) a')) with (w_len w'). rewrite Hlen.
      split_and!; [done|done|lia|]. apply Hgone, same_key_refl. done.
    + intros z [e Hz]. unfold m'. rewrite set_next_cell by by eapply pub_node, Hd.
      rewrite decide_False; [done|]. intros ->. pose proof mark_alive. congruence.
    + intros l z _ Hr _. by apply mark_reach.
    + intros Hcu. apply Hq; [done|].
      intros ([u' v'] & -> & Hu'%elem_of_setters)%list_elem_of_fmap. simpl in *. congruence.
    + change (w_len (upd Sp w m' (sets.*1 ++ [t]) a')) with (w_len w'). rewrite Hlen.
      unfold w_len, d0 in *. lia.
  - split; [split; [exact Hopen|apply Hready]|]. simpl. rewrite lookup_insert_eq. split; [done|].
    destruct Hready as [(id & lo & Ht & Hlo) _]. destruct (Hh t) as [_ Hht]. rewrite Ht in Hht.
    destruct Hht as (p' & Hp' & _ & _ & Hlo' & _). intros pe Hpe.
    change (g_thr (w_gh w') !! t = Some pe) in Hpe. rewrite Hp' in Hpe. injection Hpe as <-.
    by rewrite Hlo'.
Qed.
End mark.
(** ** Updating a value *)

(** The ghost state [a] with other updates about to happen. *)
Definition with_cm (a : aux) cm : aux :=
  ListAux (home a) (own a) (dead a) (limbo a) cm (blanks a) (spare a).

(** [Set] found its key in the node [l], not marked. *)
Lemma commit_step t k k' v l b s w :
  Inv w → ready t (MSet k' v) w → pub l b s w → key_of less s = Some k →
  dead (w_aux w) !! l = None → same_key less k' k = true →
  let w' := upd Sp w (w_mem w) [] (with_cm (w_aux w) (<[t := (l, v)]> (commit (w_aux w)))) in
  good_step t w w' ∧ commit (w_aux w') !! t = Some (l, v).
Proof.
  intros HI [Hp Hc] Hl Hs Hd Hk w'. split; [|simpl; by rewrite lookup_insert_eq].
  destruct (pub_key_at _ _ _ _ _ HI Hl Hs) as [_ Hka]. split.
  - split; simpl; try apply HI.
    + intros x bx Hx. destruct (i_pub _ _ _ _ _ HI _ _ Hx) as (s' & mk & Hok). exists s', mk.
      by eapply pub_ok_mono; [exact Hok|..|apply Hok| |].
    + intros u x v'. rewrite lookup_insert_Some. intros [[<- [= <- <-]]|[Hne Hu]].
      * exists k, k', b. split_and!; [done|done|apply Hl|]. simpl. by rewrite Hd.
      * eapply (commit_ok_mono w); [by eapply (i_commit _ _ _ _ _ HI)|done..].
    + intros u Hu. rewrite lookup_insert_ne; [by apply (i_idle _ _ _ _ _ HI)|]. intros <-.
      destruct Hp as (? & ? & ? & _). congruence.
  - intros u Hu. split; simpl; try done; auto with lockfree.
    + naive_solver.
    + by rewrite lookup_insert_ne.
Qed.

Section store.
Context (t : nat) (l : loc) (v : V) (w : world).
Context (HI : Inv w) (Hcm : commit (w_aux w) !! t = Some (l, v)).

Let a' : aux := with_cm (w_aux w) (delete t (commit (w_aux w))).
Let m' := set_val l v (w_mem w).

(** All of the invariant that does not depend on the values. *)
Lemma store_step_with us :
  let w' := upd Sp w m' us a' in
  (∀ u, u ≠ t → quiet u (w_gh w) (w_gh w')) →
  (∀ u, g_thr (w_gh w') !! u = None → g_thr (w_gh w) !! u = None) →
  (∀ x b k, home (w_aux w) !! x = Some b → dead (w_aux w) !! x = None →
    key_at less (w_mem w) x = Some k →
    ∃ v vs, state_now zeroV less w' k = Some (v :: vs) ∧ val_of m' x = Some v) →
  (∀ k, is_Some (state_now zeroV less w' k) → is_Some (state_now zeroV less w k)) →
  (∀ x d0 dp, dead (w_aux w) !! x = Some (d0, dp) →
    dead_ok zeroV less m' (g_log (w_gh w')) x d0 dp) →
  good_step t w w'.
Proof using All.
  intros w' Hq Hnone Hsound Hcomplete Hdead.
  assert (g_log (w_gh w) `prefix_of` g_log (w_gh w')) as Hpre by apply (Hq (S t)), Nat.neq_succ_diag_l.
  pose proof (prefix_length _ _ Hpre) as Hle.
  assert (∀ x y, reach (w_mem w) x y → reach m' x y) as Hreach.
  { intros x y. apply (reach_same (λ _, True)); [|done]. intros u u' _ Hu. split; [done|].
    unfold m'. by autorewrite with list_mem. }
  assert (∀ x, key_at less m' x = key_at less (w_mem w) x) as Hkey
    by (intros x; unfold m'; apply set_val_key).
  assert (∀ x, sig_of m' x = sig_of (w_mem w) x) as Hsig
    by (intros x; unfold m'; by autorewrite with list_mem).
  assert (∀ x, x ≠ l → node_at m' x = node_at (w_mem w) x) as Hnode.
  { intros x Hx. unfold m', set_val. by rewrite set_node_at, decide_False. }
  destruct (i_commit _ _ _ _ _ HI _ _ _ Hcm) as (k0 & k' & b0 & Hsl & _ & Hl & _).
  split.
  - split; simpl; unfold m'; autorewrite with list_mem; try apply HI; fold m'.
    + intros x b Hx. destruct (i_pub _ _ _ _ _ HI _ _ Hx) as (s & mk & Hok). exists s, mk.
      eapply pub_ok_mono; [exact Hok|done|done| |done..].
      unfold m'. autorewrite with list_mem. apply Hok.
    + intros b h Hh. rewrite Hsig. by apply (i_head _ _ _ _ _ HI).
    + intros x b h Hx Hd Hh. apply Hreach. by eapply (i_alive _ _ _ _ _ HI).
    + intros x b k Hx Hd. rewrite Hkey. by eapply Hsound.
    + intros k Hk. destruct (i_complete _ _ _ _ _ HI k (Hcomplete _ Hk)) as (x & b & k1 & ? & ? & ? & ?).
      exists x, b, k1. by rewrite Hkey.
    + intros x d0 dp Hd. split; [by eapply (i_dead _ _ _ _ _ HI)|by apply Hdead].
    + intros u x v' [Hne Hu]%lookup_delete_Some.
      eapply (commit_ok_mono w); [by eapply (i_commit _ _ _ _ _ HI)|..]; simpl;
        [done|done|done|by apply Hq|done].
    + intros u Hu. rewrite lookup_delete. case_decide; [done|].
      by apply (i_idle _ _ _ _ _ HI), Hnone.
    + intros x u Hu. destruct (i_own _ _ _ _ _ HI _ _ Hu). split; [done|].
      rewrite Hnode; [done|congruence].
    + intros x b y Hx Hlx. unfold m'. autorewrite with list_mem. by eapply (i_linked _ _ _ _ _ HI).
    + intros x b x' b' y ????. unfold m'. autorewrite with list_mem.
      by eapply (i_inj _ _ _ _ _ HI).
    + etrans; [apply (i_size _ _ _ _ _ HI)|]. unfold w_len. by apply Nat.add_le_mono_l.
    + etrans; [apply (i_deads _ _ _ _ _ HI)|done].
    + by eapply filled_mono; [by apply (i_filled _ _ _ _ _ HI)|..].
    + by eapply pub_sig_mono; [apply HI|..].
  - intros u Hu. split; simpl; unfold m'; autorewrite with list_mem; try done; fold m'.
    + intros x Hx. split; [done|]. apply Hnode. intros ->.
      destruct (i_own _ _ _ _ _ HI _ _ Hx). congruence.
    + naive_solver.
    + intros x _. unfold m'. by autorewrite with list_mem.
    + intros x y _ Hr _. by apply Hreach.
    + by rewrite lookup_delete_ne.
    + by apply quiet_helped, Hq.
    + intros _. by apply Hq.
    + intros _. split_and!; [done..|]. intros x _. left. unfold m'. by autorewrite with list_mem.
Qed.

Lemma store_step : ∃ us,
  let w' := upd Sp w m' us a' in good_step t w w' ∧ done_with t MRDone w'.
Proof using All.
  destruct (i_commit _ _ _ _ _ HI _ _ _ Hcm) as (k & k' & b & Hs & Hk & Hl & Hcase).
  assert (is_Some (node_at (w_mem w) l)) as Hn by by eapply pub_node.
  destruct (key_at_sig _ _ _ Hs) as (s & Hsl & Hks).
  assert (commit a' !! t = None) as Hc' by (simpl; by rewrite lookup_delete_eq).
  destruct (dead (w_aux w) !! l) as [[e0 ep]|] eqn:Hd.
  - destruct Hcase as [Hf Hw]. exists []. split; [|by split]. apply store_step_with; simpl; try done.
    + intros x bx kx Hx Hdx Hsx. unfold m'. rewrite set_val_val by done.
      rewrite decide_False by congruence. by eapply (i_sound _ _ _ _ _ HI).
    + intros x d0 dp Hdx. destruct (i_dead _ _ _ _ _ HI _ _ _ Hdx) as [_ Hok].
      destruct (decide (x = l)) as [->|Hne].
      * simplify_eq. destruct Hok as (k1 & v1 & Hs1 & _ & ? & _ & ?).
        assert (k1 = k) as -> by congruence. exists k, v. unfold m'.
        by rewrite set_val_val, decide_True, set_val_key by done.
      * eapply dead_ok_mono; [exact Hok|done|apply set_val_key|].
        unfold m'. by rewrite set_val_val, decide_False.
  - exists [t]. destruct (lin1_pending Sp _ _ _ MRDone Hcase eq_refl) as (Hf & Hst & Hlen & Hdom).
    split; [|by split].
    assert (∀ k1, state_now zeroV less (upd Sp w m' [t] a') k1 = if same_key less k1 k' then
      Some (v :: default [] (state_now zeroV less w k')) else state_now zeroV less w k1) as Hnow.
    { intros k1. change (state_now zeroV less (upd Sp w m' [t] a'))
        with (g_state Sp (lin1 Sp (w_gh w) t)). by rewrite Hst. }
    destruct (i_sound _ _ _ _ _ HI _ _ _ Hl Hd Hs) as (v0 & vs0 & Hv0 & _).
    destruct (st_now_ok zeroV less (g_log (w_gh w))) as [Hsm _].
    apply store_step_with; simpl.
    + intros u Hu. by apply (quiet_lin1 Sp).
    + intros u. by rewrite Hdom.
    + intros x bx kx Hx Hdx Hsx. rewrite Hnow. unfold m'. rewrite set_val_val by done.
      destruct (decide (x = l)) as [->|Hne].
      * assert (kx = k) as -> by congruence. rewrite same_key_sym, Hk. by eexists _, _.
      * destruct (same_key less kx k') eqn:E; [|by eapply (i_sound _ _ _ _ _ HI)].
        destruct Hne. destruct (key_at_sig _ _ _ Hsx) as (sx & ? & ?).
        eapply alive_unique; [done|by split|by split|done..|].
        by apply (same_key_trans less _ k').
    + intros k1. rewrite Hnow. destruct (same_key less k1 k') eqn:E; [|done]. intros _.
      unfold state_now. rewrite (Hsm k1 k'), (Hsm k' k) by done. eexists. exact Hv0.
    + intros x d0 dp Hdx. destruct (i_dead _ _ _ _ _ HI _ _ _ Hdx) as [_ Hok].
      eapply dead_ok_mono; [exact Hok|apply (helped_lin1 Sp 0 t)|..];
        [apply set_val_key|]. unfold m'.
      rewrite set_val_val, decide_False; [done|congruence|done].
Qed.
End store.
End steps.

#[export] Hint Resolve pub_stable list_private_stable mark_stable dead_stable
  list_ready_stable done_with_stable open_at_stable since_call_stable absent_stable
  finds_stable can_retry_stable watch_stable alive_at_stable : lockfree.
