(* ===== verification/ListCommon.v ===== *)
(** The code that [lf/list.go] and [lf/splithashmap.go] have in common.

    Both spell it out, over nodes of their own type.  They are modelled on their
    own in ListCode.v and SplitCode.v, where each is shown to be an instance. *)

From S2P Require Export Prog ListShape.

Module Common.
Section code.
Context {Mem N G V X : Type} `{!Shape Mem N G V X}.

(** Reading an immutable pair; nil may stand for one. *)
Definition load_pair {A} (c : option loc) (f : listMarkable → A) : prog Mem A :=
  match c with
  | Some c => act (load_at (f_get sh_marks) c f)
  | None => match sh_nil with Some mk => Ret (f mk) | None => act (λ _, None) end
  end.

Definition get (n : option loc) : prog Mem (option loc * bool) :=
  let! cur := act (load_ptr (f_get sh_nodes) n (f_get sh_next)) in
  load_pair cur (λ c, (lm_ref c, lm_marked c)).

Definition getReference (n : option loc) : prog Mem (option loc) :=
  let! cur := act (load_ptr (f_get sh_nodes) n (f_get sh_next)) in
  load_pair cur lm_ref.

Definition set (n : loc) (ref : option loc) (marked : bool) : prog Mem unit :=
  let! c := act (new sh_marks (ListMarkable ref marked)) in
  act (store_at sh_nodes n sh_next (Some c)).

Definition compareAndSet (n expectRef newRef : option loc) (expectMark newMark : bool)
    : prog Mem bool :=
  let! cur := act (load_ptr (f_get sh_nodes) n (f_get sh_next)) in
  let! c := load_pair cur id in
  if negb (bool_decide (lm_ref c = expectRef) && eqb (lm_marked c) expectMark)
  then Ret false
  else if bool_decide (newRef = lm_ref c) && eqb newMark (lm_marked c) then Ret true
  else
    let! c' := act (new sh_marks (ListMarkable newRef newMark)) in
    act (cas_ptr sh_nodes n sh_next cur (Some c')).

(** The end of a list, where nil is one. *)
Definition at_end (c : option loc) : bool :=
  match sh_nil, c with Some _, None => true | _, _ => false end.

(** Unlink [curr] and the marked nodes behind it; nothing when an unlinking
    failed. *)
Definition unlink (pred curr succ : option loc) (marked : bool)
    : prog Mem (option (option loc * option loc)) :=
  loop (λ '(curr, succ, marked),
    if marked : bool then
      let! ok := compareAndSet pred curr succ false false in
      if negb ok then break None
      else if at_end succ then break (Some (None, None))
      else
        let! sm := get succ in
        continue (succ, sm.1, sm.2)
    else break (Some (curr, succ))) (curr, succ, marked).

(** One attempt to find the first node for which [passed] does not hold. *)
Definition traverse (passed : option loc → prog Mem bool) (pred curr : option loc)
    : prog Mem (option (option loc * option loc)) :=
  loop (λ '(pred, curr),
    if at_end curr then break (Some (pred, None))
    else
      let! sm := get curr in
      let! un := unlink pred curr sm.1 sm.2 in
      match un with
      | None => break None
      | Some (curr, succ) =>
          if at_end curr then break (Some (pred, None))
          else
            let! lt := passed curr in
            if lt : bool then continue (curr, succ) else break (Some (pred, curr))
      end) (pred, curr).

Definition search (start : prog Mem loc) (passed : option loc → prog Mem bool)
    : prog Mem (option loc * option loc) :=
  loop (λ _ : unit,
    let! pred := start in
    let! curr := getReference (Some pred) in
    let! found := traverse passed (Some pred) curr in
    match found with
    | None => continue tt
    | Some pc => break pc
    end) tt.
End code.
End Common.
