(* ===== verification/ListBudget.v ===== *)
(** The budgets of goroutines that walk a lock-free list, and verified accesses
    to its nodes. *)

From S2P Require Export ListCommon ListSteps.
Import Common.
Local Open Scope prog_scope.

Section proof.
Context {Mem N G K V X : Type} `{!Shape Mem N G V X} `{!Rest G X}.
Context (zeroV : V) (less : Less K) `{!WeakOrder less} `{!NodeOrder less G} `{!Capacity G}.
Context (bucket : K → nat) (nlists : nat).
(** The traversals an operation sets aside for later. *)
Context (e : nat).
Abbreviation Sp := (lmap_spec zeroV (same_key less) (ascending_range (V:=V) less)).
Abbreviation aux := (list_aux V).
Abbreviation world := (world Mem (lmap_op K V) (lmap_resp K V) aux).
Abbreviation Inv := (Inv zeroV less bucket nlists).
Abbreviation proto := (list_proto zeroV less bucket nlists).
Abbreviation rely := (pr_rely proto).
Abbreviation good_step := (good_step proto).
Abbreviation pg := (LockFreeIn allowance).
Implicit Types (w : world) (t u n : nat) (l x y p : loc) (k : K) (v : V) (m : Mem).
Implicit Types (o : lmap_op K V) (r : lmap_resp K V) (s : G) (c : option loc).

(** ** Budgets *)

Lemma spend n L : 1 ≤ n → budget_step (Refill n L) = Some (Refill (n - 1) L).
Proof. destruct n; [lia|]. intros _. simpl. by rewrite Nat.sub_0_r. Qed.

(** The linked nodes that come after [s], and the sentinels that may be added. *)
Definition later w s y : Prop :=
  match sig_of (w_mem w) y with Some s' => node_less less s s' = true | None => False end.

#[local] Instance later_dec w s y : Decision (later w s y).
Proof. unfold later. destruct (sig_of _ _); apply _. Defined.

Definition above w s : nat :=
  size (filter (later w s) (dom (home (w_aux w)))) + size (blanks (w_aux w)).

Lemma above_le w s : Inv w → above w s ≤ nbase + w_len w.
Proof.
  intros HI. etrans; [|apply (i_size _ _ _ _ _ HI)]. unfold above. rewrite <-size_dom.
  apply Nat.add_le_mono_r, subseteq_size. intros y. set_solver.
Qed.

Lemma above_lt w s x b sx :
  pub x b sx w → node_less less s sx = true → above w sx < above w s.
Proof.
  intros [Hx Hs] Hlt. apply Nat.add_lt_mono_r, subset_size. split.
  - intros y. rewrite !elem_of_filter. intros [Hl ?]. split; [|done]. unfold later in *.
    destruct (sig_of (w_mem w) y); [|done]. by eapply less_trans.
  - intros Hsub. specialize (Hsub x). rewrite !elem_of_filter in Hsub. unfold later in Hsub.
    rewrite Hs in Hsub. destruct Hsub as [Hl _].
    + split; [done|]. by apply elem_of_dom_2 in Hx.
    + by rewrite less_irrefl in Hl.
Qed.

Lemma above_stable t w w' s : rely t w w' → w_len w' = w_len w → above w' s ≤ above w s.
Proof.
  intros HR Hlen. destruct (r_still _ _ _ _ _ HR Hlen) as (_ & _ & Hsize & _).
  pose proof (subseteq_dom _ _ (r_home _ _ _ _ _ HR)) as Hsub.
  set (new := dom (home (w_aux w')) ∖ dom (home (w_aux w))).
  assert (size (filter (later w' s) (dom (home (w_aux w')))) ≤
    size (filter (later w s) (dom (home (w_aux w))) ∪ new)) as Hle.
  { apply subseteq_size. intros y. rewrite elem_of_union, !elem_of_filter. intros [Hl Hy].
    destruct (decide (y ∈ dom (home (w_aux w)))) as [Hin|Hnin]; [left|right; set_solver].
    split; [|done]. unfold later in *. rewrite (r_sig _ _ _ _ _ HR) in Hl; [done|].
    by apply elem_of_dom. }
  rewrite size_union_alt in Hle. rewrite <-!size_dom in Hsize.
  pose proof (size_difference _ _ Hsub) as Hnew. fold new in Hnew.
  pose proof (subseteq_size (new ∖ filter (later w s) (dom (home (w_aux w)))) new ltac:(set_solver)).
  pose proof (subseteq_size _ _ Hsub). unfold above. lia.
Qed.

Lemma unrest_le w : Inv w → unrest w ≤ nblanks + w_len w.
Proof.
  intros HI. unfold unrest. rewrite Nat.add_comm. apply Nat.add_le_mono.
  - rewrite <-(size_set_seq (C:=gset nat) 0 nblanks). apply subseteq_size. intros b Hb.
    apply elem_of_set_seq. split; [lia|]. by apply (i_blanks _ _ _ _ _ HI).
  - etrans; [|apply (i_deads _ _ _ _ _ HI)]. rewrite <-size_dom.
    apply subseteq_size. intros l Hl. by apply elem_of_dom, (i_limbo _ _ _ _ _ HI).
Qed.

(** While the log has length [L], [n] steps are left beyond the reserve [B]: [d]
    and what walking on behind a node [s] takes. *)
Definition walk s (d B n L : nat) w : Prop :=
  L ≤ w_len w ∧ (w_len w = L → B + 20 * above w s + d ≤ n).

Lemma walk_stable t w w' s d B n L : rely t w w' → walk s d B n L w → walk s d B n L w'.
Proof.
  intros HR (? & Hn). pose proof (r_len _ _ _ _ _ HR). split; [lia|]. intros ?.
  pose proof (above_stable t w w' s HR ltac:(lia)). specialize (Hn ltac:(lia)). lia.
Qed.

Lemma walk_spend s d d' B n n' L w :
  walk s d B n L w → n + d' ≤ n' + d → walk s d' B n' L w.
Proof. intros [? Hn] ?. split; [done|]. intros Hl. specialize (Hn Hl). lia. Qed.

Lemma walk_intro t w w' s d B n :
  rely t w w' → B + 20 * above w s + d ≤ n → walk s d B n (w_len w) w'.
Proof.
  intros HR ?. pose proof (r_len _ _ _ _ _ HR). split; [lia|]. intros ?.
  pose proof (above_stable t w w' s HR ltac:(lia)). lia.
Qed.

Lemma traversal_walk w s : Inv w → 20 * above w s + 100 ≤ traversal (w_len w).
Proof. intros HI. pose proof (above_le w s HI). unfold traversal. lia. Qed.

(** The reserve [B] for log length [L] is still good, or there is a new one. *)
Definition renewed (L B : nat) w (B' : nat) : Prop :=
  L = w_len w ∧ B' = B ∨ can_retry e (w_len w) B' w.

Lemma renewed_watch t L B w w' B' l b s c :
  rely t w w' → pub l b s w → renewed L B w' B' → watch e l c L B w →
  watch e l c (w_len w') B' w'.
Proof.
  intros HR Hl [[-> ->]|[_ Hc]] Hw.
  - exact (watch_stable _ _ _ _ HR _ _ _ _ _ _ _ Hl Hw).
  - split; [done|]. auto.
Qed.

(** At the head of a loop that starts over: a traversal and [d] more steps, a
    traversal for each change of links that others may make, and those set
    aside. *)
Definition retry (d n L : nat) w : Prop :=
  1 ≤ n ∧ L ≤ w_len w ∧ (w_len w = L → (unrest w + 1 + e) * traversal L + d ≤ n).

Lemma retry_stable t d n L w w' : rely t w w' → retry d n L w → retry d n L w'.
Proof.
  intros HR (? & ? & Hn). pose proof (r_len _ _ _ _ _ HR). split; [done|]. split; [lia|].
  intros ?. pose proof (unrest_stable _ _ _ _ HR ltac:(lia)). specialize (Hn ltac:(lia)). nia.
Qed.

Lemma can_retry_retry d n L B w : can_retry e L B w → B + S d ≤ n → retry d n L w.
Proof. intros [HL HN] ?. split; [lia|]. split; [done|]. intros Hl. specialize (HN Hl). lia. Qed.

Lemma watch_reserve l c L B w :
  watch e l c L B w → w_len w = L → (unrest w + e) * traversal L ≤ B.
Proof. intros [_ HN] Hl. destruct (HN Hl); nia. Qed.

(** [l] was not marked when the log had length [L], or one may start over. *)
Definition sure l (L B : nat) w : Prop := alive_at l L w ∨ can_retry e L B w.

Lemma sure_stable t w w' l L B : rely t w w' → sure l L B w → sure l L B w'.
Proof.
  intros HR [?|?]; [left; by apply (alive_at_stable _ _ _ _ HR)|right].
  by apply (can_retry_stable _ _ _ _ HR).
Qed.

Lemma renewed_sure t L B w w' B' l :
  rely t w w' → renewed L B w' B' → sure l L B w → sure l (w_len w') B' w'.
Proof. intros HR [[-> ->]|?] Hs; [|by right]. by apply (sure_stable t w w'). Qed.

(** Nothing but the marking of [l] can make it unsure. *)
Lemma sure_retry l L B w : sure l L B w → is_Some (dead (w_aux w) !! l) → can_retry e L B w.
Proof.
  intros [[? [Hd|?]]|?] [d Hl]; [congruence| |done]. split; [done|]. lia.
Qed.

Section thread.
Context (t : nat) {A : Type} (Q : budget → A → world → Prop).
Abbreviation wp := (Logic.wp Sp proto pg t Q).

(** If operations took effect since, there is a new allowance. *)
Lemma wp_refuel n L q w :
  L ≤ w_len w →
  (∀ w', rely t w w' → Inv w' → w_len w' = L → wp (Refill n L) q w') →
  (∀ w', rely t w w' → Inv w' →
     wp (Refill (allowance (w_len w')) (w_len w')) q w') →
  wp (Refill n L) q w.
Proof.
  intros HL Hsame Hmore. apply wp_usable. intros w' HR HI. pose proof (r_len _ _ _ _ _ HR).
  destruct (decide (w_len w' = L)) as [Heq|Hne].
  - exists (Refill n L). split; [apply usable_refl|auto].
  - exists (Refill (allowance (w_len w')) (w_len w')). split; [|auto].
    right. left. exists allowance, n, (allowance (w_len w')), L. split_and!; [done..|lia|done|done].
Qed.

Lemma wp_walk s d B n L q w :
  e + 2 ≤ nrounds → d ≤ 100 → walk s d B n L w →
  (∀ w' B' n', rely t w w' → Inv w' → renewed L B w' B' →
     B' + 20 * above w' s + d ≤ n' → wp (Refill n' (w_len w')) q w') →
  wp (Refill n L) q w.
Proof.
  intros He Hd (HL & Hn) Hq. apply wp_refuel; [done|..]; intros w' HR HI.
  - intros Hlen. rewrite <-Hlen. apply (Hq w' B n HR HI); [by left|].
    pose proof (r_len _ _ _ _ _ HR). pose proof (above_stable t w w' s HR ltac:(lia)).
    specialize (Hn ltac:(lia)). lia.
  - apply (Hq w' ((unrest w' + 1 + e) * traversal (w_len w')) _ HR HI).
    + right. split; [done|]. intros _. done.
    + pose proof (unrest_le w' HI). pose proof (traversal_walk w' s HI).
      unfold allowance. nia.
Qed.

Lemma wp_start d n L q w :
  e + 2 ≤ nrounds → d ≤ 100 → L ≤ w_len w →
  (w_len w = L → (unrest w + 1 + e) * traversal L + d ≤ n) →
  (∀ w' n', rely t w w' → Inv w' →
     (unrest w' + 1 + e) * traversal (w_len w') + d ≤ n' →
     wp (Refill n' (w_len w')) q w') →
  wp (Refill n L) q w.
Proof.
  intros He Hd HL Hn Hq. apply wp_refuel; [done|..]; intros w' HR HI.
  - intros <-. apply Hq; [done..|]. pose proof (r_len _ _ _ _ _ HR).
    pose proof (unrest_stable _ _ _ _ HR ltac:(lia)). specialize (Hn ltac:(lia)). nia.
  - apply Hq; [done..|]. pose proof (unrest_le w' HI).
    assert (100 ≤ traversal (w_len w')) by (unfold traversal; lia).
    unfold allowance. nia.
Qed.

Lemma wp_retry d n L q w :
  e + 2 ≤ nrounds → d ≤ 100 → retry (Datatypes.S d) n L w →
  (∀ w' n', rely t w w' → Inv w' →
     (unrest w' + 1 + e) * traversal (w_len w') + d ≤ n' →
     wp (Refill n' (w_len w')) q w') →
  wp (Refill (n - 1) L) q w.
Proof.
  intros He Hd (_ & ? & Hn) Hq. apply (wp_start d); [done..|intros E|done].
  specialize (Hn E). lia.
Qed.

(** ** Reading and writing nodes *)

Lemma wp_node {B} l b s n L (f : N → B) q w :
  1 ≤ n → pub l b s w →
  (∀ w' nd, rely t w w' → Inv w' → node_at (w_mem w') l = Some nd → sh_sig nd = s →
     wp (Refill (n - 1) L) (q (f nd)) w') →
  wp (Refill n L) (Act (load_at (f_get sh_nodes) l f) q) w.
Proof.
  intros Hn Hl Hq. eapply wp_load_at; [by apply spend|]. intros w' HR HI.
  destruct (pub_stable _ _ _ _ HR _ _ _ Hl) as [Hh Hs].
  unfold sig_of in Hs. destruct (node_at (w_mem w') l) as [nd|] eqn:E; [|done].
  exists nd. split; [done|]. apply Hq; [done..|]. by injection Hs.
Qed.

(** A key node has a value. *)
Lemma pub_value w l b s k :
  Inv w → pub l b s w → key_of less s = Some k → ∃ v, val_of (w_mem w) l = Some v.
Proof.
  intros HI Hl Hk. destruct (dead (w_aux w) !! l) as [[d0 dp]|] eqn:Hd.
  - destruct (i_dead _ _ _ _ _ HI _ _ _ Hd) as [_ (k' & v & _ & Hv & _)]. by exists v.
  - destruct (pub_key_at _ _ _ _ _ _ _ _ _ HI Hl Hk) as [_ Hka].
    destruct (i_sound _ _ _ _ _ HI _ _ _ (proj1 Hl) Hd Hka) as (v & _ & _ & Hv). by exists v.
Qed.

(** The world [w] with other pending updates. *)
Definition with_commit w cm : world := upd Sp w (w_mem w) [] (with_cm (w_aux w) cm).

Lemma with_commit_id w : with_commit w (commit (w_aux w)) = w.
Proof. by destruct w as [? ? []]. Qed.

(** Reading a pair that was seen before. *)
Lemma wp_pair {B} c mk n L (f : listMarkable → B) q w :
  1 ≤ n → mark_at c mk w → wp (Refill (n - 1) L) (q (f mk)) w →
  wp (Refill n L) (bind (load_pair c f) q) w.
Proof.
  intros Hn Hc Hq. unfold load_pair. destruct c as [c|].
  - cbn [bind act]. eapply wp_load_at; [by apply spend|]. intros w' HR HI. exists mk.
    split; [exact (mark_stable _ _ _ _ HR _ _ Hc)|]. by eapply wp_stable.
  - unfold mark_at, pair_of in Hc. rewrite Hc. cbn [bind]. by eapply wp_less; [|exact Hq]; lia.
Qed.

(** [n.get()]: the pair is read in the world [w']; something may take effect then. *)
Lemma wp_get l b s n L q w :
  2 ≤ n → pub l b s w →
  (∀ w' c mk, rely t w w' → Inv w' → pub l b s w' → cell (w_mem w') l = c →
     mark_at c mk w' → link (w_mem w') l = Some mk → ∃ cm,
     good_step t w' (with_commit w' cm) ∧
     wp (Refill (n - 2) L) (q (lm_ref mk, lm_marked mk)) (with_commit w' cm)) →
  wp (Refill n L) (bind (get (Some l)) q) w.
Proof.
  intros Hn Hl Hq. unfold get. wp_pure. eapply wp_step_to; [apply spend; lia|].
  intros w1 HR1 HI1. assert (pub l b s w1) as Hl1 by by eapply pub_stable.
  destruct (pub_link _ _ _ _ _ _ _ HI1 (proj1 Hl1)) as [mk Hmk].
  destruct (pub_node _ _ _ _ _ _ _ HI1 (proj1 Hl1)) as [nd Hnd].
  assert (cell (w_mem w1) l = f_get sh_next nd) as Hcell by (unfold cell; by rewrite Hnd).
  assert (mark_at (f_get sh_next nd) mk w1) as Hm.
  { unfold mark_at. rewrite <-Hcell, <-cell_link by by eexists. done. }
  destruct (Hq w1 _ mk HR1 HI1 Hl1 Hcell Hm Hmk) as (cm & Hgood & Hwp).
  exists (f_get sh_next nd), (w_mem w1), [], (w_aux (with_commit w1 cm)). split.
  { unfold load_at. unfold node_at in Hnd. by rewrite Hnd. }
  split; [exact Hgood|]. eapply wp_pair; [lia|exact Hm|].
  by replace (n - 1 - 1) with (n - 2) by lia.
Qed.

Lemma new_mark_step w mk u : Inv w → good_step u w (upd Sp w (add_mark mk (w_mem w)) [] (w_aux w)).
Proof.
  intros HI.
  enough (good_step u w (upd Sp w (add_mark mk (w_mem w)) [] (with_own (w_aux w) (own (w_aux w)) (spare (w_aux w)))))
    by by destruct (w_aux w).
  apply list_plain_step; try done.
  - intros l _. apply add_mark_node.
  - apply add_mark_prefix.
  - apply sh_marks_heads.
  - intros l u'. rewrite add_mark_node. apply HI.
  - intros u' l _ Hl. by rewrite add_mark_node.
  - unfold add_mark. rewrite sh_marks_rest. apply HI.
  - unfold add_mark. by rewrite sh_marks_rest.
Qed.

(** A failed [compareAndSet] of the pair [c] that was seen pays for a retry. *)
Lemma wp_compareAndSet p b s (e0 r' : option loc) (nm : bool) c n L B q w :
  4 ≤ n → pub p b s w → nm = true ∨ e0 ≠ r' →
  mark_at c (ListMarkable e0 false) w → watch e p c L B w →
  (∀ w' (c' : loc), rely t w w' → Inv w' → link (w_mem w') p = Some (ListMarkable e0 false) →
     mark_at (Some c') (ListMarkable r' nm) w' →
     ∃ us a, let w'' := upd Sp w' (set_next p c' (w_mem w')) us a in
     good_step t w' w'' ∧ wp (Refill (n - 4) L) (q true) w'') →
  (∀ w' n', rely t w w' → Inv w' → can_retry e L B w' → n - 4 ≤ n' → wp (Refill n' L) (q false) w') →
  wp (Refill n L) (bind (compareAndSet (Some p) e0 r' false nm) q) w.
Proof.
  intros Hn Hp Hnew Hc Hw Hok Hfail. unfold compareAndSet. wp_pure.
  eapply wp_node; [lia|done|]. intros w1 nd HR1 HI1 Hnd Hs.
  pose proof (pub_stable _ _ _ _ HR1 _ _ _ Hp) as Hp1.
  pose proof (mark_stable _ _ _ _ HR1 _ _ Hc) as Hc1.
  pose proof (watch_stable _ _ _ _ HR1 _ _ _ _ _ _ _ Hp Hw) as Hw1.
  destruct (pub_link _ _ _ _ _ _ _ HI1 (proj1 Hp1)) as [mk Hmk].
  assert (cell (w_mem w1) p = f_get sh_next nd) as Hcell1 by (unfold cell; by rewrite Hnd).
  assert (mark_at (f_get sh_next nd) mk w1) as Hm1.
  { unfold mark_at. rewrite <-Hcell1, <-cell_link by by eexists. done. }
  set (c1 := f_get sh_next nd) in *. clearbody c1. rewrite bind_bind.
  eapply wp_pair; [lia|exact Hm1|]. unfold id.
  destruct (decide (lm_ref mk = e0 ∧ lm_marked mk = false)) as [[He0 Hm]|Hne].
  - rewrite bool_decide_true, Hm by done. simpl.
    replace (bool_decide (r' = lm_ref mk) && eqb nm false) with false by
      (symmetry; apply andb_false_iff; rewrite bool_decide_eq_false; destruct nm; naive_solver).
    assert (mk = ListMarkable e0 false) as -> by (destruct mk; simpl in *; congruence).
    wp_pure. eapply wp_new; [apply spend; lia|]. intros w3 HR3 HI3.
    exists [], (w_aux w3). split; [by apply new_mark_step|]. simpl.
    destruct (new_mark_step w3 (ListMarkable r' nm) (Datatypes.S t) HI3) as [HI3' HR3'].
    specialize (HR3' t ltac:(lia)). fold (add_mark (ListMarkable r' nm) (w_mem w3)).
    set (c' := length (f_get sh_marks (w_mem w3))). set (w3' := upd Sp w3 _ [] _) in *.
    assert (mark_at (Some c') (ListMarkable r' nm) w3') as Hc' by apply add_mark_lookup.
    clearbody c' w3'. assert (rely t w1 w3') as HR13 by by trans w3.
    eapply wp_cas_at; [apply spend; lia|]. intros w4 HR4 HI4.
    assert (rely t w1 w4) as HR14 by by trans w3'.
    pose proof (pub_stable _ _ _ _ HR14 _ _ _ Hp1) as Hp4.
    destruct (pub_node _ _ _ _ _ _ _ HI4 (proj1 Hp4)) as [nd4 Hnd4].
    pose proof (mark_stable _ _ _ _ HR14 _ _ Hm1) as Hc14.
    assert (cell (w_mem w4) p = f_get sh_next nd4) as Hcell4 by (unfold cell; by rewrite Hnd4).
    exists nd4. split; [done|]. split; intros E.
    + destruct (Hok w4 c') as (us & x & Hgood & Hwp); [by trans w1|done| | |].
      * rewrite cell_link, Hcell4, E by by eexists. exact Hc14.
      * by apply (mark_stable _ _ _ _ HR4).
      * rewrite (set_next_eq _ _ _ _ Hnd4). exists us, x. split; [done|].
        by replace (n - 1 - 1 - 1 - 1) with (n - 4) by lia.
    + apply Hfail; [by trans w1|done| |lia].
      pose proof (watch_stable _ _ _ _ HR14 _ _ _ _ _ _ _ Hp1 Hw1) as [HL HN].
      split; [done|]. intros Hlen. destruct (HN Hlen) as [?|[_ Hcell]]; [done|].
      pose proof (r_len _ _ _ _ _ HR14). pose proof (unrest_stable _ _ _ _ HR14) as Hun.
      destruct Hw1 as [? HN1]. destruct (HN1 ltac:(lia)) as [?|[? Hcellc]];
        [specialize (Hun ltac:(lia)); nia|]. congruence.
  - replace (bool_decide (lm_ref mk = e0) && eqb (lm_marked mk) false) with false.
    2:{ symmetry. apply andb_false_iff. rewrite bool_decide_eq_false.
        destruct (decide (lm_ref mk = e0)); [right|by left].
        destruct (lm_marked mk); [done|naive_solver]. }
    simpl. apply Hfail; [done|done| |lia]. destruct Hw1 as [HL HN]. split; [done|].
    intros Hlen. destruct (HN Hlen) as [?|[_ Hcell]]; [done|].
    rewrite Hcell in Hcell1. subst c1. unfold mark_at in Hc1, Hm1. rewrite Hm1 in Hc1.
    simplify_eq. simpl in Hne. naive_solver.
Qed.
End thread.
End proof.
