(* ===== verification/ListSearch.v ===== *)
(** [search] of the lock-free lists is verified. *)

From S2P Require Export ListBudget.
Import Common.
Local Open Scope prog_scope.

Section proof.
Context {Mem N G K V X : Type} `{!Shape Mem N G V X} `{!Rest G X}.
Context (zeroV : V) (less : Less K) `{!WeakOrder less} `{!NodeOrder less G} `{!Capacity G}.
Context (bucket : K → nat) (nlists : nat).
Context (Hbucket : ∀ k1 k2, same_key less k1 k2 = true → bucket k1 = bucket k2).
Context (Hrange : ∀ k, bucket k < nlists).
Context (e : nat).
Abbreviation Sp := (lmap_spec zeroV (same_key less) (ascending_range (V:=V) less)).
Abbreviation aux := (list_aux V).
Abbreviation world := (world Mem (lmap_op K V) (lmap_resp K V) aux).
Abbreviation Inv := (Inv zeroV less bucket nlists).
Abbreviation proto := (list_proto zeroV less bucket nlists).
Abbreviation rely := (pr_rely proto).
Abbreviation good_step := (good_step proto).
Abbreviation absent := (absent zeroV less).
Abbreviation finds := (finds zeroV less).
Abbreviation with_commit := (with_commit zeroV less).
Abbreviation pg := (LockFreeIn allowance).
Implicit Types (w : world) (t u n : nat) (l x y p : loc) (k : K) (v : V) (m : Mem).
Implicit Types (o : lmap_op K V) (r : lmap_resp K V) (s tg : G) (c : option loc).

(** ** Finding a key *)

(** The key of [tg], if it stands for one, was not in the map at some moment since
    the call of [t]. *)
Definition missing t tg w : Prop := ∀ k, key_of less tg = Some k → absent t k w.

Lemma missing_stable t tg w w' : rely t w w' → missing t tg w → missing t tg w'.
Proof. intros HR Hm k Hk. exact (absent_stable _ _ _ _ HR _ (Hm k Hk)). Qed.

Lemma absent_now t o k w : ready t o w → state_now zeroV less w k = None → absent t k w.
Proof.
  intros [(id & lo & Ht & Hlo) Hc] Hk. exists id, o, lo, (w_len w). split; [done|].
  split; [done|]. split; [done|]. unfold state_at, w_len. by rewrite st_at_now.
Qed.

(** From a node of the map, or a sentinel, that comes before [tg]. *)
Lemma finds_alive t o tg b l s w :
  Inv w → ready t o w → pub l b s w → dead (w_aux w) !! l = None → node_less less s tg = true →
  node_ok less tg → (∀ k, key_of less tg = Some k → bucket k = b) → finds t tg l w.
Proof using Hbucket Hrange WeakOrder0.
  intros HI Hr Hl Hdl Hlt Hok Hb k Hk.
  destruct (state_now zeroV less w k) eqn:E; [|left; by eapply absent_now].
  right. destruct (i_complete _ _ _ _ _ HI k ltac:(by eexists)) as (x & b' & k' & Hx & Hd & Hk' & Hsk).
  destruct (key_at_sig _ _ _ _ Hk') as (sx & Hsx & Hkx).
  assert (pub x b' sx w) as Hpx by done.
  destruct (pub_key_at _ _ _ _ _ _ _ _ _ HI Hpx Hkx) as [<- _].
  rewrite (Hbucket _ _ Hsk), (Hb _ Hk) in Hpx.
  exists x, b, sx, k'. split; [done|]. do 3 (split; [done|]).
  assert (b < nlists) as Hn by (rewrite <-(Hb _ Hk); apply Hrange).
  destruct (lookup_lt_is_Some_2 (sh_heads (w_mem w)) b) as [h Hh];
    [by rewrite (i_lists _ _ _ _ _ HI)|].
  destruct (reach_linear _ _ l x (i_alive _ _ _ _ _ HI _ _ _ (proj1 Hl) Hdl Hh)
    (i_alive _ _ _ _ _ HI _ _ _ (proj1 Hpx) Hd Hh)) as [?|Hr']; [done|].
  destruct (reach_less _ _ _ _ _ _ _ _ _ _ HI Hpx (proj2 Hl) Hr') as [->|Hlt']; [done|].
  assert (holds less sx tg = true) as Hhx.
  { unfold holds. by rewrite (same_keys _ _ _ _ (pub_kind _ _ _ _ _ _ _ _ HI Hpx) Hok Hkx Hk). }
  pose proof (below_less _ _ _ _ Hlt Hhx) as Hlt2. by rewrite (less_asym _ _ _ Hlt2) in Hlt'.
Qed.

Lemma sentinel_alive b l s w :
  Inv w → pub l b s w → key_of less s = None → dead (w_aux w) !! l = None.
Proof.
  intros HI Hl Hs. destruct (pub_link _ _ _ _ _ _ _ HI (proj1 Hl)) as [mk Hmk].
  apply (pub_sentinel _ _ _ _ _ _ _ _ _ HI Hl Hmk). destruct (lm_marked mk) eqn:Em; [|done].
  destruct (p_sentinel _ _ _ _ _ _ _ _ (pub_pub_ok _ _ _ _ _ _ _ _ _ HI Hl Hmk) Em). congruence.
Qed.

(** The node that has the key lies beyond those that do not. *)
Lemma finds_skip t tg l b s mk w :
  Inv w → node_ok less tg → pub l b s w → link (w_mem w) l = Some mk →
  lm_marked mk = true ∨ node_less less s tg = true → finds t tg l w →
  match lm_ref mk with Some y => finds t tg y w | None => missing t tg w end.
Proof.
  intros HI Hok Hl Hmk Hcase Hf.
  assert (∀ k, key_of less tg = Some k → absent t k w ∨ ∃ y, lm_ref mk = Some y ∧
    ∃ x b s k', pub x b s w ∧ dead (w_aux w) !! x = None ∧ key_of less s = Some k' ∧
      same_key less k' k = true ∧ reach (w_mem w) y x) as Hnext.
  { intros k Hk. destruct (Hf k Hk) as [?|(x & bx & sx & k' & Hx & Hd & Hkx & Hsk & Hr)]; [by left|].
    right. inversion Hr as [|? z ? Hz Hr']; subst.
    - exfalso. destruct Hcase as [Hm|Hlt].
      + assert (lm_marked mk = false); [|congruence].
        by apply (pub_sentinel _ _ _ _ _ _ _ _ _ HI Hl Hmk).
      + destruct Hx as [Hhx Hs'], Hl as [Hh Hs]. rewrite Hs' in Hs. injection Hs as <-.
        apply below_not_holds in Hlt. unfold holds in Hlt.
        rewrite (same_keys _ _ _ _ (pub_kind _ _ _ _ _ _ _ _ HI (conj Hhx Hs')) Hok Hkx Hk) in Hlt.
        congruence.
    - rewrite (succ_link _ _ _ Hmk) in Hz. exists z. split; [done|]. by exists x, bx, sx, k'. }
  destruct (lm_ref mk) as [y|]; intros k Hk.
  - destruct (Hnext k Hk) as [?|(y' & [= <-] & ?)]; [by left|by right].
  - by destruct (Hnext k Hk) as [?|(? & ? & _)].
Qed.

Lemma finds_end t tg l b s w :
  Inv w → node_ok less tg → pub l b s w → node_less less s tg = false → holds less s tg = false →
  finds t tg l w → missing t tg w.
Proof.
  intros HI Hok Hl Hb Hh Hf k Hk.
  destruct (Hf k Hk) as [?|(x & bx & sx & k' & Hx & Hd & Hkx & Hsk & Hr)]; [done|]. exfalso.
  assert (holds less sx tg = true) as Hhx.
  { unfold holds. by rewrite (same_keys _ _ _ _ (pub_kind _ _ _ _ _ _ _ _ HI Hx) Hok Hkx Hk). }
  pose proof (not_below_less _ _ _ _ Hb Hh Hhx) as Hlt.
  destruct (reach_less _ _ _ _ _ _ _ _ _ _ HI Hl (proj2 Hx) Hr) as [->|Hlt'].
  - destruct Hl as [_ Hs'], Hx as [_ Hs]. rewrite Hs in Hs'. injection Hs' as <-. congruence.
  - by rewrite (less_asym _ _ _ Hlt) in Hlt'.
Qed.

(** The marked node [x] is unlinked: the reserve shrinks. *)
Lemma unlink_pair t p b sp (c' x : loc) (y : option loc) L B w :
  Inv w → pub p b sp w → link (w_mem w) p = Some (ListMarkable (Some x) false) →
  mark_at (Some c') (ListMarkable y false) w → link (w_mem w) x = Some (ListMarkable y true) →
  L ≤ w_len w → (w_len w = L → (unrest w + e) * traversal L ≤ B) →
  ∃ a, let w' := upd Sp w (set_next p c' (w_mem w)) [] a in
  good_step t w w' ∧ rely t w w' ∧ watch e p (Some c') L (B - traversal L) w' ∧
  (w_len w' = L → traversal L ≤ B ∧ (unrest w' + e) * traversal L ≤ B - traversal L).
Proof using Hbucket Hrange WeakOrder0.
  intros HI Hp Hl Hc' Hlx HL HN.
  destruct (unlink_step zeroV less bucket nlists Hbucket Hrange t p x c' y _ sp w HI Hp Hl Hlx Hc') as [Hgood Hlim].
  destruct (unlink_step zeroV less bucket nlists Hbucket Hrange (Datatypes.S t) p x c' y _ sp w
    HI Hp Hl Hlx Hc') as [[_ HR] _].
  eexists. split; [exact Hgood|]. split; [apply HR; lia|].
  match goal with |- context [watch e p (Some c') L _ ?w'] => set (w3 := w') in * end.
  assert (w_len w3 = L → traversal L ≤ B ∧ (unrest w3 + e) * traversal L ≤ B - traversal L) as Hres.
  { intros E. specialize (HN E). fold w3 in Hlim. nia. }
  split; [|done]. split; [done|]. intros E. right. split; [by apply Hres|].
  unfold w3, upd. simpl. rewrite set_next_cell by exact (pub_node _ _ _ _ _ _ _ HI (proj1 Hp)).
  by rewrite decide_True.
Qed.
Section search.
Context (t : nat) (o : lmap_op K V) (tg : G) (b : nat).
(** The keys that are looked for besides the one of [tg]. *)
Context (W : K → Prop).
Context (Htg : node_ok less tg).
Context (Hb : ∀ k, key_of less tg = Some k → bucket k = b).
(** Where nil is not the end, there is always a next node. *)
Context (Hends : (sh_nil : option listMarkable) = None → bounded less tg).
(** What else the goroutine knows all the time. *)
Context (S : world → Prop).
Context (HS : ∀ w w', rely t w w' → S w → S w').
Context (HScm : ∀ w cm, S w → S (with_commit w cm)).
Definition able w : Prop := ready t o w ∧ S w.

Lemma able_stable w w' : rely t w w' → able w → able w'.
Proof using HS. intros HR [? ?]. split; [by apply (list_ready_stable _ _ _ _ HR)|by eapply HS]. Qed.

(** Besides the key of [tg] those of [W] can be found from [l] that are not before it. *)
Definition finds_on l w : Prop := finds t tg l w ∧ ∀ k, W k → bucket k = b →
  node_less less (sig_for less k) tg = false → finds t (sig_for less k) l w.

Lemma finds_on_stable w w' l s :
  rely t w w' → ready t o w → pub l b s w → finds_on l w → finds_on l w'.
Proof using WeakOrder0.
  intros HR Hr Hl [Hf Hon]. split; [by apply (finds_stable _ _ _ _ HR _ _ _ _ _ Hr Hl)|].
  intros k HW Hk Hlt. apply (finds_stable _ _ _ _ HR _ _ _ _ _ Hr Hl). auto.
Qed.

Lemma before_later s k : node_less less s tg = true →
  node_less less (sig_for less k) tg = false → node_less less s (sig_for less k) = true.
Proof. intros Hs Hk. destruct (less_split _ (sig_for less k) _ Hs); [done|congruence]. Qed.

Lemma finds_on_alive l s w :
  Inv w → ready t o w → pub l b s w → dead (w_aux w) !! l = None → node_less less s tg = true →
  finds_on l w.
Proof using Hb Hbucket Hrange Htg WeakOrder0.
  intros HI Hr Hl Hd Hlt. split; [by apply (finds_alive t o tg b l s)|].
  intros k _ Hk Hkt. apply (finds_alive t o _ b l s); try done; [by apply before_later|apply sig_for_ok|].
  intros k'. rewrite sig_for_key. by intros [= <-].
Qed.

Lemma finds_on_start l s w :
  Inv w → ready t o w → pub l b s w → key_of less s = None → node_less less s tg = true →
  finds_on l w.
Proof using Hb Hbucket Hrange Htg WeakOrder0.
  intros HI Hr Hl Hs Hlt. apply (finds_on_alive l s w); try done. by eapply sentinel_alive.
Qed.

Lemma finds_on_skip l s mk w :
  Inv w → pub l b s w → link (w_mem w) l = Some mk →
  lm_marked mk = true ∨ node_less less s tg = true → finds_on l w →
  match lm_ref mk with Some y => finds_on y w | None => missing t tg w end.
Proof using Htg.
  intros HI Hl Hmk Hcase [Hf Hon]. pose proof (finds_skip _ _ _ _ _ _ _ HI Htg Hl Hmk Hcase Hf) as Hnext.
  destruct (lm_ref mk) as [y|] eqn:Hy; [|done]. split; [done|]. intros k HW Hk Hkt.
  assert (lm_marked mk = true ∨ node_less less s (sig_for less k) = true) as Hcase'
    by (destruct Hcase; [by left|right; by apply before_later]).
  pose proof (finds_skip _ _ _ _ _ _ _ HI (sig_for_ok k) Hl Hmk Hcase' (Hon k HW Hk Hkt)) as Hnext'.
  by rewrite Hy in Hnext'.
Qed.

(** What is established when the node for [tg] is read, before it is marked. *)
Context (P : loc → G → world → Prop).
Context (HP : ∀ x s w w', rely t w w' → P x s w → P x s w').
Context (Hhook : ∀ x s w, Inv w → able w → pub x b s w →
  dead (w_aux w) !! x = None → node_less less s tg = false →
  (holds less s tg = false → missing t tg w) → finds_on x w →
  ∃ cm, good_step t w (with_commit w cm) ∧ P x s (with_commit w cm)).

(** A node still to be visited. *)
Definition ahead x s w : Prop := pub x b s w ∧ able w ∧ finds_on x w.

Lemma ahead_stable w w' x s : rely t w w' → ahead x s w → ahead x s w'.
Proof using HS WeakOrder0.
  intros HR (Hx & Hr & Hf). split; [by apply (pub_stable _ _ _ _ HR)|].
  split; [by apply (able_stable w)|].
  by apply (finds_on_stable w w' x s HR (proj1 Hr) Hx).
Qed.

(** The next node, or the end of the list. *)
Definition next_of s (succ : option loc) w : Prop :=
  match succ with
  | Some y => ∃ sy, node_less less s sy = true ∧ ahead y sy w
  | None => (sh_nil : option listMarkable) ≠ None ∧ able w ∧ missing t tg w
  end.

Lemma next_of_stable w w' s succ : rely t w w' → next_of s succ w → next_of s succ w'.
Proof using HS WeakOrder0.
  intros HR. destruct succ as [y|].
  - intros (sy & ? & Ha). exists sy. split; [done|]. by apply (ahead_stable w).
  - intros (? & ? & ?). split; [done|].
    split; [by apply (able_stable w)|by apply (missing_stable t tg w)].
Qed.

Lemma next_of_later w s s' succ :
  node_less less s s' = true → next_of s' succ w → next_of s succ w.
Proof.
  intros Hlt. destruct succ as [y|]; [|done]. intros (sy & ? & ?). exists sy.
  split; [by eapply less_trans|done].
Qed.

Lemma next_at_end s succ w : next_of s succ w → at_end succ = true ↔ succ = None.
Proof.
  unfold at_end. destruct succ as [y|]; [by destruct (sh_nil : option listMarkable)|].
  intros [Hnil _]. by destruct (sh_nil : option listMarkable).
Qed.

(** What [x.next.get()] told about the node [x]. *)
Definition visited x s (succ : option loc) (marked : bool) (L B : nat) w : Prop :=
  pub x b s w ∧ S w ∧
  if marked then link (w_mem w) x = Some (ListMarkable succ true) ∧
    is_Some (dead (w_aux w) !! x) ∧ next_of s succ w
  else sure e x L B w ∧
    (∃ c, mark_at c (ListMarkable succ false) w ∧ watch e x c L B w) ∧
    (∀ y, succ = Some y → ∃ sy, node_less less s sy = true ∧ pub y b sy w) ∧
    if node_less less s tg then next_of s succ w else P x s w.

Lemma dead_link_stable w w' x mk :
  rely t w w' → is_Some (dead (w_aux w) !! x) → link (w_mem w) x = Some mk →
  is_Some (home (w_aux w) !! x) → link (w_mem w') x = Some mk.
Proof.
  intros HR Hd Hl Hx. eapply link_prefix; [exact Hl| | |apply (r_marks _ _ _ _ _ HR)].
  - destruct (link_is_node _ _ _ Hl) as [nd Hnd].
    assert (sig_of (w_mem w') x = Some (sh_sig nd)) as Hs.
    { rewrite (r_sig _ _ _ _ _ HR) by done. unfold sig_of. by rewrite Hnd. }
    by eapply sig_node.
  - by apply (r_frozen _ _ _ _ _ HR).
Qed.

Lemma visited_stable w w' x s succ marked L B :
  rely t w w' → visited x s succ marked L B w → visited x s succ marked L B w'.
Proof using HP HS WeakOrder0.
  intros HR (Hx & HSw & Hv). split; [by apply (pub_stable _ _ _ _ HR)|].
  split; [by eapply HS|]. destruct marked.
  - destruct Hv as (Hl & Hd & Hn). split.
    { apply (dead_link_stable w); [done..|]. eexists. apply Hx. }
    split; [|by apply (next_of_stable w)]. destruct Hd as [d Hd]. exists d.
    by apply (dead_stable _ _ _ _ HR).
  - destruct Hv as (Hs & (c & Hc & Hw) & Hy & Hbs). split; [exact (sure_stable _ _ _ _ _ t w w' x L B HR Hs)|].
    split; [exists c; split; [by apply (mark_stable _ _ _ _ HR)|]|].
    + exact (watch_stable _ _ _ _ HR _ _ _ _ _ _ _ Hx Hw).
    + split.
      { intros y Ey. destruct (Hy y Ey) as (sy & ? & ?). exists sy. split; [done|].
        by apply (pub_stable _ _ _ _ HR). }
      destruct (node_less less s tg); [by apply (next_of_stable w)|by apply (HP x s w)].
Qed.

Lemma visited_renewed w w' x s succ marked L B B' :
  rely t w w' → renewed e L B w' B' →
  visited x s succ marked L B w → visited x s succ marked (w_len w') B' w'.
Proof using HP HS WeakOrder0.
  intros HR Hnew Hv. pose proof (visited_stable _ _ _ _ _ _ _ _ HR Hv) as (Hx & HSw & Hv').
  destruct Hnew as [[-> ->]|Hc]; [done|]. split; [done|]. split; [done|]. destruct marked; [done|].
  destruct Hv' as (_ & (c & ? & _) & ?). split; [by right|]. split; [|done].
  exists c. split; [done|]. split; [done|]. intros Hl. left. by apply Hc.
Qed.

(** [x.next.get()] in a search; [B] is the reserve. *)
Lemma wp_visit {A} (Q : budget → A → world → Prop) x s n L B q w :
  2 ≤ n → ahead x s w → L ≤ w_len w →
  (w_len w = L → (unrest w + e) * traversal L ≤ B) →
  (∀ w' cm succ marked, rely t w w' → Inv w' → visited x s succ marked L B (with_commit w' cm) →
     Logic.wp Sp proto pg t Q (Refill (n - 2) L) (q (succ, marked)) (with_commit w' cm)) →
  Logic.wp Sp proto pg t Q (Refill n L) (bind (get (Some x)) q) w.
Proof using Hhook Hends HS HScm Htg WeakOrder0.
  intros Hn (Hx & Hr & Hf) HL HN Hq.
  eapply (wp_get zeroV less bucket nlists); [done..|].
  intros w1 c mk HR1 HI1 Hx1 Hcell Hc Hlink.
  destruct (ahead_stable _ _ x s HR1 (conj Hx (conj Hr Hf))) as (_ & Hr1 & Hf1).
  pose proof (pub_pub_ok _ _ _ _ _ _ _ _ _ HI1 Hx1 Hlink) as Hok.
  pose proof (r_len _ _ _ _ _ HR1) as Hlen.
  assert (lm_marked mk = true ∨ node_less less s tg = true → next_of s (lm_ref mk) w1) as Hnext.
  { intros Hcase. pose proof (finds_on_skip _ _ _ _ HI1 Hx1 Hlink Hcase Hf1) as Hf2.
    unfold next_of. destruct (lm_ref mk) as [y|] eqn:Ey.
    - destruct (p_next _ _ _ _ _ _ _ _ Hok _ Ey) as (Hhy & sy & Hsy & Hlt).
      exists sy. split; [done|]. by split; [split|].
    - split; [|done]. intros Hnil. specialize (Hends Hnil).
      destruct (p_bounded _ _ _ _ _ _ _ _ Hok) as [? ?]; [|congruence].
      destruct Hcase as [Hm|Hlt]; [|by eapply bounded_less].
      by apply (bounded_key tg); [done|apply Hok|apply (p_sentinel _ _ _ _ _ _ _ _ Hok Hm)]. }
  assert (∀ y, lm_ref mk = Some y → ∃ sy, node_less less s sy = true ∧ pub y b sy w1) as Hpub.
  { intros y Ey. destruct (p_next _ _ _ _ _ _ _ _ Hok _ Ey) as (? & sy & ? & ?). by exists sy. }
  assert (mk = ListMarkable (lm_ref mk) (lm_marked mk)) as Hmk by by destruct mk.
  destruct (lm_marked mk) eqn:Hm.
  - exists (commit (w_aux w1)). rewrite with_commit_id. split; [by apply good_step_refl|].
    rewrite <-(with_commit_id zeroV less w1). apply Hq; [done..|]. rewrite with_commit_id.
    split; [done|]. split; [apply Hr1|]. split; [by rewrite <-Hmk|]. split; [|apply Hnext; by left].
    by apply (p_marked _ _ _ _ _ _ _ _ Hok).
  - assert (dead (w_aux w1) !! x = None) as Hd by by apply (pub_sentinel _ _ _ _ _ _ _ _ _ HI1 Hx1 Hlink).
    assert (sure e x L B w1) as Hsure by (left; split; [lia|by left]).
    assert (watch e x c L B w1) as Hwatch.
    { split; [lia|]. intros Hl. right. split; [|done].
      pose proof (unrest_stable _ _ _ _ HR1 ltac:(lia)). specialize (HN ltac:(lia)). nia. }
    assert (mark_at c (ListMarkable (lm_ref mk) false) w1) as Hc1 by by rewrite <-Hmk.
    destruct (node_less less s tg) eqn:Hbs.
    + exists (commit (w_aux w1)). rewrite with_commit_id. split; [by apply good_step_refl|].
      rewrite <-(with_commit_id zeroV less w1). apply Hq; [done..|]. rewrite with_commit_id.
      split; [done|]. split; [apply Hr1|]. split; [done|]. split; [by exists c|].
      split; [done|]. rewrite Hbs. apply Hnext. by right.
    + destruct (Hhook x s w1 HI1 Hr1 Hx1 Hd Hbs) as (cm & Hgood & HPx).
      { intros Hh. exact (finds_end _ _ _ _ _ _ HI1 Htg Hx1 Hbs Hh (proj1 Hf1)). }
      { exact Hf1. }
      exists cm. split; [done|]. apply Hq; [done..|].
      split; [done|]. split; [apply HScm, Hr1|]. split; [done|]. split; [by exists c|].
      split; [done|]. by rewrite Hbs.
Qed.
Context (He : e + 2 ≤ nrounds).

(** [pred.next] was seen to be the pair [c], pointing to [x] unmarked. *)
Definition pair_at (p : loc) sp c (x : option loc) (d L B n : nat) w : Prop :=
  pub p b sp w ∧ node_less less sp tg = true ∧
  mark_at c (ListMarkable x false) w ∧ watch e p c L B w ∧ walk less sp d B n L w.

Lemma pair_at_stable w w' p sp c (x : option loc) d L B n :
  rely t w w' → pair_at p sp c x d L B n w → pair_at p sp c x d L B n w'.
Proof.
  intros HR (Hp & ? & ? & Hw & ?). split; [by apply (pub_stable _ _ _ _ HR)|].
  split; [done|]. split; [by apply (mark_stable _ _ _ _ HR)|].
  split; [exact (watch_stable _ _ _ _ HR _ _ _ _ _ _ _ Hp Hw)|].
  by apply (walk_stable zeroV less bucket nlists t w).
Qed.

(** In the loop of [unlink]. *)
Definition unlinking (d : nat) (p : loc) sp (bu : budget)
    (v : option loc * option loc * bool) w : Prop :=
  ∃ L B n c x sx, bu = Refill n L ∧ v.1.1 = Some x ∧ node_less less sp sx = true ∧
    pair_at p sp c (Some x) d L B n w ∧ visited x sx v.1.2 v.2 L B w.

Definition some_left (bu : budget) : Prop := ∃ n L, bu = Refill n L ∧ 1 ≤ n.

Lemma unlinking_stable d p sp (bu : budget) (v : option loc * option loc * bool) w w' :
  rely t w w' → unlinking d p sp bu v w → unlinking d p sp bu v w'.
Proof using HP HS WeakOrder0.
  intros HR (L & B & n & c & x & sx & ? & ? & ? & Hp & Hv).
  exists L, B, n, c, x, sx. do 3 (split; [done|]).
  split; [by apply (pair_at_stable w)|by apply (visited_stable w)].
Qed.

(** The traversal starts over. *)
Definition over (bu : budget) w : Prop := ∃ n L, bu = Refill n L ∧ retry e 12 n L w ∧ able w.

Lemma over_stable (bu : budget) w w' : rely t w w' → over bu w → over bu w'.
Proof using HS.
  intros HR (n & L & ? & ? & ?). exists n, L. split; [done|].
  split; [exact (retry_stable _ _ _ _ _ _ _ _ _ _ _ HR ltac:(done))|by apply (able_stable w)].
Qed.

(** The search ran into the end of the list behind [p]. *)
Definition ended (d : nat) p sp (bu : budget) w : Prop :=
  ∃ L B n c, bu = Refill n L ∧ pair_at p sp c None d L B n w ∧ next_of sp None w.

Lemma ended_stable d p sp (bu : budget) w w' :
  rely t w w' → ended d p sp bu w → ended d p sp bu w'.
Proof.
  intros HR (L & B & n & c & ? & ? & Hn). exists L, B, n, c. split; [done|].
  split; [by apply (pair_at_stable w)|exact (next_of_stable _ _ _ _ HR Hn)].
Qed.

Definition unlink_post p sp (bu : budget) (r : option (option loc * option loc)) w : Prop :=
  match r with
  | None => over bu w
  | Some (None, _) => ended 44 p sp bu w
  | Some (curr, succ) => unlinking 44 p sp bu (curr, succ, false) w
  end.

(** One round of [unlink]: the marked node [x] is unlinked. *)
Lemma wp_unlink_one p sp L B n c x sx succ w :
  pair_at p sp c (Some x) 44 L B n w → node_less less sp sx = true →
  visited x sx succ true L B w →
  Logic.wp Sp proto pg t (λ bu res w, match res with
    | inl v => unlinking 45 p sp bu v w ∧ some_left bu
    | inr r => unlink_post p sp bu r w
    end) (Refill n L)
    (let! ok := compareAndSet (Some p) (Some x) succ false false in
     if negb ok then break None
     else if at_end succ then break (Some (None, None))
     else let! sm := get succ in continue (succ, sm.1, sm.2)) w.
Proof using All.
  intros (Hp & Hbp & Hc & Hwatch & Hwalk) Hlt Hv.
  eapply (wp_walk zeroV less bucket nlists e); [done| |exact Hwalk|]; [lia|].
  clear Hwalk. intros w1 B1 n1 HR1 HI1 Hnew Hn1.
  apply (visited_renewed _ _ _ _ _ _ _ _ _ HR1 Hnew) in Hv.
  apply (renewed_watch _ _ _ _ _ _ _ _ _ _ _ _ _ _ _ HR1 Hp Hnew) in Hwatch.
  apply (pub_stable _ _ _ _ HR1) in Hp. apply (mark_stable _ _ _ _ HR1) in Hc.
  clear Hnew HR1 w L B n. set (L := w_len w1) in *.
  pose proof Hv as (Hx & _ & _ & _ & Hnext).
  assert (able w1) as Hready.
  { destruct succ as [y|]; [by destruct Hnext as (? & _ & _ & ? & _)|apply Hnext]. }
  eapply (wp_compareAndSet zeroV less bucket nlists e _ _ p b sp (Some x) succ false c n1 L B1);
    [lia|exact Hp| |exact Hc|exact Hwatch|..].
  { right. intros [= <-]. destruct Hnext as (sy & Hlt' & [_ Hsy] & _). destruct Hx as [_ Hsx].
    rewrite Hsx in Hsy. injection Hsy as <-. by rewrite less_irrefl in Hlt'. }
  - intros w2 c' HR2 HI2 Hl2 Hc2. exists [].
    assert (pub p b sp w2) as Hp2 by by apply (pub_stable _ _ _ _ HR2).
    assert (watch e p c L B1 w2) as Hwatch2
      by exact (watch_stable _ _ _ _ HR2 _ _ _ _ _ _ _ Hp Hwatch).
    destruct (unlink_pair t p b sp c' x succ L B1 w2 HI2 Hp2 Hl2 Hc2) as (a & Hgood & HR3 & Hwatch3 & Hres);
      [by apply (visited_stable w1 w2 _ _ _ _ _ _ HR2 Hv)|apply Hwatch2|
       intros E; exact (watch_reserve _ _ _ _ _ _ Hwatch2 E)|].
    exists a. split; [exact Hgood|]. cbn beta iota delta [negb].
    set (w3 := upd _ _ _ _ _) in *.
    assert (rely t w1 w3) as HR13 by by trans w2.
    assert (next_of sx succ w3) as Hnext3 by by apply (next_of_stable w1).
    assert (∀ w4, rely t w3 w4 → pair_at p sp (Some c') succ 45 L (B1 - traversal L) (n1 - 4 - 2) w4)
      as Hpair.
    { intros w4 HR4. apply (pair_at_stable w3); [done|].
      split; [exact (pub_stable _ _ _ _ HR13 _ _ _ Hp)|]. split; [done|].
      split; [unfold mark_at, w3, upd, pair_of; simpl; rewrite set_next_marks; exact Hc2|].
      split; [exact Hwatch3|]. split; [apply Hwatch3|]. intros E. destruct (Hres E).
      pose proof (above_stable _ _ _ _ t w1 w3 sp HR13 E). unfold traversal in *. lia. }
    destruct (at_end succ) eqn:Eend.
    + apply (next_at_end _ _ _ Hnext3) in Eend as ->.
      apply wp_ret. intros w4 HR4 _. exists L, (B1 - traversal L), (n1 - 4), (Some c').
      split; [done|]. split.
      * destruct (Hpair w4 HR4) as (? & ? & ? & ? & Hw). do 4 (split; [done|]).
        apply (walk_spend _ _ _ _ _ _ _ _ _ Hw). lia.
      * eapply next_of_stable; [exact HR4|]. by eapply next_of_later.
    + destruct succ as [y|]; [|by rewrite (proj2 (next_at_end _ _ _ Hnext3) eq_refl) in Eend].
      destruct Hnext3 as (sy & Hlt' & Hy3).
      eapply (wp_visit _ y sy _ L (B1 - traversal L));
        [lia|exact Hy3|apply Hwatch3|intros E; by apply Hres|].
      intros w4 cm succ marked HR4 HI4 Hv4. set (w5 := with_commit w4 cm) in *.
      assert (pair_at p sp (Some c') (Some y) 45 L (B1 - traversal L) (n1 - 4 - 2) w5) as Hp5
        by exact (Hpair w4 HR4).
      apply wp_ret. intros w6 HR6 _. split; [|eexists _, _; split; [done|lia]].
      exists L, (B1 - traversal L), (n1 - 4 - 2), (Some c'), y, sy. split; [done|]. split; [done|].
      split; [by eapply less_trans|].
      split; [by apply (pair_at_stable w5)|by apply (visited_stable w5)].
  - intros w2 n2 HR2 HI2 Hretry Hn2. cbn beta iota delta [negb].
    apply wp_ret. intros w3 HR3 _. apply (over_stable _ w2); [done|].
    exists n2, L. split; [done|]. split; [eapply can_retry_retry; [done|lia]|].
    exact (able_stable _ _ HR2 Hready).
Qed.

Lemma wp_unlink p sp (bu : budget) (curr succ : option loc) (marked : bool) w :
  unlinking 45 p sp bu (curr, succ, marked) w → some_left bu →
  Logic.wp Sp proto pg t (unlink_post p sp) bu (unlink (Some p) curr succ marked) w.
Proof using All.
  intros Hun Hbu. unfold unlink, loop.
  apply (wp_loop Sp proto pg t _ (λ (bu : budget) (v : option loc * option loc * bool) w,
    unlinking 45 p sp bu v w ∧ some_left bu));
    [|intros b1 v w1 w2 [? ?] ?; split; [by eapply unlinking_stable|done]|done].
  clear bu curr succ marked w Hun Hbu.
  intros bu [[curr succ] marked] w [(L & B & n & c & x & sx & -> & Hcx & Hlt & Hp & Hv)
    (? & ? & [= <- <-] & Hn)] _.
  simpl in Hcx, Hp, Hv. subst curr.
  eexists. split; [by apply spend|].
  assert (pair_at p sp c (Some x) 44 L B (n - 1) w) as Hp1.
  { destruct Hp as (? & ? & ? & ? & Hw). do 4 (split; [done|]).
    apply (walk_spend _ _ _ _ _ _ _ _ _ Hw). lia. }
  clear Hp. destruct marked; cbn beta iota.
  - eapply wp_mono; [|by eapply wp_unlink_one].
    intros bu [v|r] w1 _ Hpost; [done|]. apply wp_ret. intros w2 HR2 _.
    destruct r as [[[y|] succ']|]; [by eapply unlinking_stable|by eapply ended_stable|
      by eapply over_stable].
  - apply wp_ret. intros w3 HR3 _. apply wp_ret. intros w4 HR4 _.
    apply (unlinking_stable _ _ _ _ _ w3); [done|]. apply (unlinking_stable _ _ _ _ _ w); [done|].
    by exists L, B, (n - 1), c, x, sx.
Qed.

(** In the inner loop of [search]. *)
Definition traversing (bu : budget) (v : option loc * option loc) w : Prop :=
  ∃ L B n p sp c, bu = Refill n L ∧ 1 ≤ n ∧ v.1 = Some p ∧
    pair_at p sp c v.2 60 L B n w ∧ next_of sp v.2 w.

Lemma traversing_stable (bu : budget) (v : option loc * option loc) w w' :
  rely t w w' → traversing bu v w → traversing bu v w'.
Proof using HS WeakOrder0.
  intros HR (L & B & n & p & sp & c & ? & ? & ? & Hp & Ha).
  exists L, B, n, p, sp, c. do 3 (split; [done|]).
  split; [by apply (pair_at_stable w)|by apply (next_of_stable w)].
Qed.

(** The result of [search]: where [tg] belongs. *)
Definition located (p : loc) sp (curr : option loc) c (L B n : nat) w : Prop :=
  pair_at p sp c curr 30 L B n w ∧ S w ∧
  match curr with
  | Some x => ∃ sx, node_less less sp sx = true ∧ pub x b sx w ∧
      node_less less sx tg = false ∧ sure e x L B w ∧ P x sx w
  | None => next_of sp None w
  end.

Lemma located_stable w w' p sp (curr : option loc) c L B n :
  rely t w w' → located p sp curr c L B n w → located p sp curr c L B n w'.
Proof using HP HS WeakOrder0.
  intros HR (Hp & HSw & Hx). split; [by apply (pair_at_stable w)|]. split; [by eapply HS|].
  destruct curr as [x|].
  - destruct Hx as (sx & ? & ? & ? & Hs & ?). exists sx. split; [done|].
    split; [by apply (pub_stable _ _ _ _ HR)|]. split; [done|].
    split; [exact (sure_stable _ _ _ _ _ t w w' x L B HR Hs)|by apply (HP x sx w)].
  - exact (next_of_stable w w' sp None HR Hx).
Qed.

Definition search_post (bu : budget) (r : option loc * option loc) w : Prop :=
  ∃ L B n p sp c, bu = Refill n L ∧ r.1 = Some p ∧ located p sp r.2 c L B n w.

Lemma search_post_stable (bu : budget) (r : option loc * option loc) w w' :
  rely t w w' → search_post bu r w → search_post bu r w'.
Proof using HP HS WeakOrder0.
  intros HR (L & B & n & p & sp & c & ? & ? & ?).
  exists L, B, n, p, sp, c. do 2 (split; [done|]). by apply (located_stable w).
Qed.

Definition traverse_post (bu : budget) (r : option (option loc * option loc)) w : Prop :=
  match r with None => over bu w | Some pc => search_post bu pc w end.

Lemma traverse_post_stable (bu : budget) (r : option (option loc * option loc)) w w' :
  rely t w w' → traverse_post bu r w → traverse_post bu r w'.
Proof using HP HS WeakOrder0.
  intros HR. destruct r; [by apply search_post_stable|by apply over_stable].
Qed.

Lemma ended_post p sp d (bu : budget) w : 30 ≤ d → ended d p sp bu w → search_post bu (Some p, None) w.
Proof.
  intros Hd (L & B & n & c & -> & (? & ? & ? & ? & Hw) & Hn). exists L, B, n, p, sp, c.
  split; [done|]. split; [done|]. split; [|split; [apply Hn|exact Hn]]. do 4 (split; [done|]).
  eapply walk_spend; [exact Hw|by apply Nat.add_le_mono_l].
Qed.

(** [passed] is the test for the nodes to walk past. *)
Context (passed : option loc → prog Mem bool).
Context (Hpassed : ∀ {A} (Q : budget → A → world → Prop) x s n L q w,
  3 ≤ n → Inv w → pub x b s w → S w →
  Logic.wp Sp proto pg t Q (Refill (n - 3) L) (q (node_less less s tg)) w →
  Logic.wp Sp proto pg t Q (Refill n L) (bind (passed (Some x)) q) w).

(** After one round of the inner loop. *)
Definition round_post (bu : budget)
    (res : option loc * option loc + option (option loc * option loc)) w : Prop :=
  match res with
  | inl a => traversing bu a w
  | inr r => Logic.wp Sp proto pg t traverse_post bu (Ret r) w
  end.

(** Whether to walk on behind [p]. *)
Lemma wp_walk_on p sp (bu : budget) (curr succ : option loc) w :
  unlinking 44 p sp bu (curr, succ, false) w →
  Logic.wp Sp proto pg t round_post bu
    (let! lt := passed curr in
     if lt : bool then continue (curr, succ) else break (Some (Some p, curr))) w.
Proof using All.
  intros (L & B & n & c & x & sx & -> & Hcx & Hlt & Hp & Hv). simpl in Hcx, Hp, Hv. subst curr.
  pose proof Hp as (Hp' & Hbp & Hc & Hw & Hwalk).
  eapply (wp_walk zeroV less bucket nlists e); [done| |exact Hwalk|]; [lia|].
  intros w1 B1 n1 HR1 HI1 Hnew Hn1.
  apply (visited_renewed _ _ _ _ _ _ _ _ _ HR1 Hnew) in Hv.
  apply (renewed_watch _ _ _ _ _ _ _ _ _ _ _ _ _ _ _ HR1 Hp' Hnew) in Hw.
  apply (pub_stable _ _ _ _ HR1) in Hp'. apply (mark_stable _ _ _ _ HR1) in Hc.
  clear w L B n Hnew HR1 Hp Hwalk. set (L := w_len w1) in *.
  destruct Hv as (Hx & HSw & Hsure & (c2 & Hc2 & Hw2) & _ & Hcase).
  eapply Hpassed; [lia|done|exact Hx|exact HSw|].
  destruct (node_less less sx tg) eqn:Hbx.
  - apply wp_ret. intros w2 HR2 _. apply (traversing_stable _ _ w1); [done|].
    exists L, B1, (n1 - 3), x, sx, c2. split; [done|]. split; [lia|]. split; [done|].
    split; [|done]. do 4 (split; [done|]). split; [done|]. intros _.
    pose proof (above_lt less w1 sp x _ sx Hx Hlt). lia.
  - apply wp_ret. intros w2 HR2 _. apply wp_ret. intros w3 HR3 _.
    apply (search_post_stable _ _ w2); [done|]. apply (search_post_stable _ _ w1); [done|].
    exists L, B1, (n1 - 3), p, sp, c. do 2 (split; [done|]). split; [|split; [done|]].
    + do 4 (split; [done|]). split; [done|]. intros _. lia.
    + exists sx. by split_and!.
Qed.

(** One round of the inner loop, with the node [x] ahead. *)
Lemma wp_traverse_one p sp c x L B n w :
  pair_at p sp c (Some x) 59 L B n w → next_of sp (Some x) w →
  Logic.wp Sp proto pg t round_post (Refill n L)
    (let! sm := get (Some x) in
     let! un := unlink (Some p) (Some x) sm.1 sm.2 in
     match un with
     | None => break None
     | Some (curr, succ) =>
         if at_end curr then break (Some (Some p, None))
         else
           let! lt := passed curr in
           if lt : bool then continue (curr, succ) else break (Some (Some p, curr))
     end) w.
Proof using All.
  intros (Hp' & Hbp & Hc & Hw & Hwalk) (sx & Hlt & Ha).
  eapply (wp_walk zeroV less bucket nlists e); [done| |exact Hwalk|]; [lia|].
  intros w1 B1 n1 HR1 HI1 Hnew Hn1.
  apply (renewed_watch _ _ _ _ _ _ _ _ _ _ _ _ _ _ _ HR1 Hp' Hnew) in Hw.
  apply (pub_stable _ _ _ _ HR1) in Hp'. apply (mark_stable _ _ _ _ HR1) in Hc.
  apply (ahead_stable _ _ _ _ HR1) in Ha.
  clear w L B n Hnew HR1 Hwalk. set (L := w_len w1) in *.
  eapply (wp_visit _ x sx _ L B1); [lia|done|done|intros E; by eapply watch_reserve|].
  intros w2 cm succ marked HR2 HI2 Hv. set (w3 := with_commit w2 cm) in *.
  apply wp_bind. eapply wp_mono; [|apply (wp_unlink p sp)].
  - intros bu [[curr succ']|] w4 HI4 Hpost.
    + destruct curr as [y|]; simpl in Hpost.
      * replace (at_end (Some y)) with false by by unfold at_end; destruct sh_nil.
        by apply (wp_walk_on p sp).
      * assert (at_end None = true) as ->.
        { destruct Hpost as (? & ? & ? & ? & _ & _ & [Hnil _]). unfold at_end.
          by destruct (sh_nil : option listMarkable). }
        apply wp_ret. intros w5 HR5 _. apply wp_ret. intros w6 HR6 _.
        apply (search_post_stable _ _ w5); [done|]. apply (search_post_stable _ _ w4); [done|].
        apply (ended_post p sp 44); [lia|done].
    + apply wp_ret. intros w5 HR5 _. apply wp_ret. intros w6 HR6 _.
      apply (over_stable _ w5); [done|]. by apply (over_stable _ w4).
  - exists L, B1, (n1 - 2), c, x, sx. split; [done|]. split; [done|]. split; [done|]. split; [|done].
    assert (pair_at p sp c (Some x) 45 L B1 (n1 - 2) w1) as Hpair.
    { do 4 (split; [done|]). split; [done|]. intros _. lia. }
    exact (pair_at_stable _ _ _ _ _ _ _ _ _ _ HR2 Hpair).
  - eexists _, _. split; [done|lia].
Qed.

Lemma wp_traverse (bu : budget) (pred curr : option loc) w :
  traversing bu (pred, curr) w →
  Logic.wp Sp proto pg t traverse_post bu (traverse passed pred curr) w.
Proof using All.
  intros Htr. unfold traverse, loop.
  apply (wp_loop Sp proto pg t _ traversing);
    [|intros ? ? ? ? ? ?; by eapply traversing_stable|done].
  clear bu pred curr w Htr.
  intros bu [pred curr] w (L & B & n & p & sp & c & -> & Hn & Hpred & Hp & Ha) _.
  simpl in Hpred, Hp, Ha. subst pred.
  eexists. split; [by apply spend|]. cbn beta iota.
  assert (pair_at p sp c curr 59 L B (n - 1) w) as Hp1.
  { destruct Hp as (? & ? & ? & ? & Hw). do 4 (split; [done|]).
    apply (walk_spend _ _ _ _ _ _ _ _ _ Hw). lia. }
  destruct (at_end curr) eqn:Eend.
  - apply (next_at_end _ _ _ Ha) in Eend as ->.
    apply wp_ret. intros w5 HR5 _. apply wp_ret. intros w6 HR6 _.
    apply (search_post_stable _ _ w5); [done|]. apply (search_post_stable _ _ w); [done|].
    apply (ended_post p sp 59); [lia|]. by exists L, B, (n - 1), c.
  - destruct curr as [x|]; [|by rewrite (proj2 (next_at_end _ _ _ Ha) eq_refl) in Eend].
    by eapply wp_traverse_one.
Qed.
(** [start] finds a sentinel before [tg], given [S]. *)
Context (start : prog Mem loc).
Context (Hstart : ∀ {A} (Q : budget → A → world → Prop) n L q w, 1 ≤ n → S w → Inv w →
  (∀ w' p sp, rely t w w' → Inv w' → pub p b sp w' → key_of less sp = None →
     node_less less sp tg = true → Logic.wp Sp proto pg t Q (Refill (n - 1) L) (q p) w') →
  Logic.wp Sp proto pg t Q (Refill n L) (bind start q) w).

(** The sentinel to start from, and the node after it. *)
Lemma wp_from_start {A} (Q : budget → A → world → Prop) n q w :
  let L := w_len w in let B := (unrest w + e) * traversal L in
  Inv w → able w → B + traversal L + 9 ≤ n →
  (∀ w' bu (pred : loc) curr, Inv w' → traversing bu (Some pred, curr) w' →
     Logic.wp Sp proto pg t Q bu (q pred curr) w') →
  Logic.wp Sp proto pg t Q (Refill n L)
    (let! pred := start in let! curr := getReference (Some pred) in q pred curr) w.
Proof using HS Hstart Hb Hends Htg Hbucket Hrange WeakOrder0.
  clear He. intros L B HI Hr Hn Hq. eapply Hstart; [lia|apply Hr|done|].
  intros w1 p sp HR1 HI1 Hp1 Hkey Hlt.
  unfold getReference. wp_pure. eapply wp_node; [lia|exact Hp1|].
  intros w2 nd HR2 HI2 Hnd _.
  assert (rely t w w2) as HR12 by by trans w1.
  pose proof (able_stable _ _ HR12 Hr) as Hr2.
  pose proof (pub_stable _ _ _ _ HR2 _ _ _ Hp1) as Hp2.
  destruct (pub_link _ _ _ _ _ _ _ HI2 (proj1 Hp2)) as [mk Hmk].
  pose proof (pub_pub_ok _ _ _ _ _ _ _ _ _ HI2 Hp2 Hmk) as Hok.
  assert (lm_marked mk = false) as Hm.
  { destruct (lm_marked mk) eqn:E; [|done].
    destruct (p_sentinel _ _ _ _ _ _ _ _ Hok E). congruence. }
  assert (cell (w_mem w2) p = f_get sh_next nd) as Hcell by (unfold cell; by rewrite Hnd).
  assert (mark_at (f_get sh_next nd) mk w2) as Hc.
  { unfold mark_at. rewrite <-Hcell, <-cell_link by by eexists. done. }
  pose proof (finds_on_start _ _ _ HI2 (proj1 Hr2) Hp2 Hkey Hlt) as Hf2.
  assert (next_of sp (lm_ref mk) w2) as Hnext.
  { pose proof (finds_on_skip _ _ _ _ HI2 Hp2 Hmk (or_intror Hlt) Hf2) as Hf3.
    unfold next_of. destruct (lm_ref mk) as [y|] eqn:Ey.
    - destruct (p_next _ _ _ _ _ _ _ _ Hok _ Ey) as (Hhy & sy & Hsy & Hlty).
      exists sy. split; [done|]. by split; [split|].
    - split; [|done]. intros Hnil. specialize (Hends Hnil).
      destruct (p_bounded _ _ _ _ _ _ _ _ Hok) as [? ?]; [by eapply bounded_less|congruence]. }
  assert (traversing (Refill (n - 1 - 1 - 1) L) (Some p, lm_ref mk) w2) as Htr.
  { exists L, B, (n - 1 - 1 - 1), p, sp, (f_get sh_next nd). split; [done|]. split; [lia|].
    split; [done|]. split; [|done]. split; [done|]. split; [done|].
    split; [unfold mark_at in *; rewrite Hc; by rewrite <-Hm; destruct mk|].
    pose proof (r_len _ _ _ _ _ HR12).
    split; (split; [done|]); intros E; change (w_len w2 = w_len w) in E.
    - right. split; [|done]. pose proof (unrest_stable _ _ _ _ HR12 E). unfold B. nia.
    - pose proof (traversal_walk zeroV less bucket nlists w2 sp HI2) as Htw. rewrite E in Htw.
      fold L in Htw. lia. }
  eapply wp_pair; [lia|exact Hc|]. by eapply Hq.
Qed.

Lemma wp_search n L w :
  retry e 10 n L w → able w →
  Logic.wp Sp proto pg t search_post (Refill n L) (search start passed) w.
Proof using All.
  intros Hretry Hready. unfold search, loop.
  apply (wp_loop Sp proto pg t _ (λ bu _ w, ∃ n L, bu = Refill n L ∧ retry e 10 n L w ∧ able w));
    [|intros bu _ w1 w2 (n1 & L1 & ? & Hr & ?) HR; exists n1, L1; split; [done|]; split;
      [exact (retry_stable _ _ _ _ _ _ _ _ _ _ _ HR Hr)|by apply (able_stable w1)]|by exists n, L].
  clear n L w Hretry Hready. intros bu _ w (n & L & -> & Hretry & Hready) _.
  eexists. split; [apply spend, Hretry|].
  eapply (wp_retry zeroV less bucket nlists e t _ 9); [done|lia|done|]. intros w1 n1 HR1 HI1 Hn1.
  eapply wp_from_start; [done|by apply (able_stable w)|lia|].
  intros w2 bu pred curr HI2 Htr. apply wp_bind.
  eapply wp_mono; [|by apply wp_traverse]. intros b' [pc|] w3 HI3 Hpost.
  - apply wp_ret. intros w4 HR4 _. apply wp_ret. intros w5 HR5 _.
    apply (search_post_stable _ _ w4); [done|]. by apply (search_post_stable _ _ w3).
  - apply wp_ret. intros w4 HR4 _.
    apply (over_stable _ _ _ HR4) in Hpost.
    destruct Hpost as (n2 & L2 & -> & (? & ? & Hn2) & ?). exists n2, L2. split; [done|].
    split; [|done]. split; [done|]. split; [done|].
    intros E. specialize (Hn2 E). lia.
Qed.
End search.
End proof.
