(* ===== verification/ListCalls.v ===== *)
(** What the methods of the lock-free lists establish, step by step. *)

From S2P Require Export ListSearch.
Import Common.
Local Open Scope prog_scope.

Section calls.
Context {Mem N G K V X : Type} `{!Shape Mem N G V X} `{!Rest G X}.
Context (zeroV : V) (less : Less K) `{!WeakOrder less} `{!NodeOrder less G} `{!Capacity G}.
Context (bucket : K → nat) (nlists : nat).
Context (Hbucket : ∀ k1 k2, same_key less k1 k2 = true → bucket k1 = bucket k2).
Context (Hrange : ∀ k, bucket k < nlists).
Context (e : nat).
Abbreviation Sp := (lmap_spec zeroV (same_key less) (ascending_range (V:=V) less)).
Abbreviation aux := (list_aux V).
Abbreviation world := (world Mem (lmap_op K V) (lmap_resp K V) aux).
Abbreviation Inv := (Inv zeroV less bucket nlists).
Abbreviation proto := (list_proto zeroV less bucket nlists).
Abbreviation rely := (pr_rely proto).
Abbreviation good_step := (good_step proto).
Abbreviation absent := (absent zeroV less).
Abbreviation missing := (missing zeroV less).
Abbreviation with_commit := (with_commit zeroV less).
Abbreviation state_at := (state_at zeroV less).
Abbreviation pg := (LockFreeIn allowance).
Abbreviation wp t Q := (Logic.wp Sp proto pg t Q).
Implicit Types (w : world) (t u n : nat) (l x y p : loc) (k : K) (v : V) (m : Mem).
Implicit Types (o : lmap_op K V) (s tg : G) (c : option loc).

(** ** Returning *)

(** The value that a deletion of [t] returns was the current one at some moment
    since the call. *)
Definition current t o (r : lmap_resp K V) w : Prop :=
  match o, r with
  | MDel k, MRVal v true => ∃ n vs, after_call t n w ∧ n ≤ w_len w ∧
      state_at w n k = Some (v :: vs)
  | _, _ => True
  end.

Lemma current_stable t o r w w' : rely t w w' → current t o r w → current t o r w'.
Proof.
  intros HR. destruct o as [| | |k| |], r as [|v' [|]| | |]; try done.
  intros (n & vs & Hn & Hle & Hs). exists n, vs. split; [exact (after_call_stable _ _ _ _ HR _ Hn)|].
  rewrite (state_at_mono _ _ _ _ _ _ HR) by done. split; [|done].
  pose proof (r_len _ _ _ _ _ HR). lia.
Qed.

(** [o] of [t] may return [r]: it took effect with [r], it read the abstract
    state in which [r] is right, or it took effect as entry [n] of the log, which
    allows [r]. *)
Definition answered t o (r : lmap_resp K V) w : Prop :=
  commit (w_aux w) !! t = None ∧ current t o r w ∧
  (finished (w_gh w) t r ∨ observed Sp (w_gh w) t o r ∨
   ∃ n, opened (w_gh w) t o n ∧ answers Sp (state_at w n) o r).

Lemma answered_stable t o r w w' : rely t w w' → answered t o r w → answered t o r w'.
Proof.
  intros HR (Hc & Hcur & Ha). pose proof (r_quiet _ _ _ _ _ HR Hc) as Hq.
  split; [by rewrite (r_commit _ _ _ _ _ HR)|]. split; [by eapply current_stable|].
  destruct Ha as [?|[?|(n & Ho & ?)]];
    [left; by eapply finished_quiet|right; left; by eapply observed_quiet|].
  right. right. exists n. split; [by eapply opened_helped; [|apply (r_helped _ _ _ _ _ HR)]|].
  destruct Ho as (id & lo & _ & Hn). rewrite (state_at_mono _ _ _ _ _ _ HR) by (unfold w_len; lia).
  done.
Qed.

Lemma answered_same t o r w w' :
  w_gh w' = w_gh w → commit (w_aux w') = commit (w_aux w) → answered t o r w → answered t o r w'.
Proof.
  unfold answered, current, after_call, ListInv.state_at, w_len. by intros -> ->.
Qed.

Lemma list_return_world t r w :
  Inv w → commit (w_aux w) !! t = None →
  good_step t w (World (w_mem w) (g_ret t r (w_gh w)) (w_aux w)).
Proof.
  intros HI Hc. split.
  - split; simpl; try apply HI.
    + intros u l v Hu. assert (u ≠ t) by congruence.
      eapply (commit_ok_mono zeroV less bucket nlists w);
        [by eapply (i_commit _ _ _ _ _ HI)|done|done|done|by apply quiet_ret|done].
    + intros u [<-|Hu]%lookup_delete_None; [done|by apply (i_idle _ _ _ _ _ HI)].
  - intros u Hu. split; simpl; try done; auto with lockfree; naive_solver.
Qed.

Lemma list_post t o r (bu : budget) w : Inv w → answered t o r w → post Sp proto t bu r w.
Proof.
  intros HI (Hc & _ & Ha).
  assert (∃ pe, g_thr (w_gh w) !! t = Some pe ∧ ret_ok Sp (w_gh w) pe r) as (pe & Hp & Hok).
  { destruct Ha as [Hf|[Ho|(n & Ho & Hr)]].
    - by apply finished_ret_ok.
    - by eapply observed_ret_ok.
    - by eapply opened_ret_ok. }
  exists pe. split; [done|]. split; [done|]. exists (w_aux w).
  exact (list_return_world t r w HI Hc).
Qed.

Lemma del_fact t k r w pe : answered t (MDel k) r w → g_thr (w_gh w) !! t = Some pe →
  map_fact zeroV less (nth_state Sp (g_log (w_gh w))) (p_lo pe) (w_len w) (MDel k) r.
Proof.
  intros (_ & Hc & _) Hpe. destruct r as [|v' [|]| | |]; try done.
  destruct Hc as (n & vs & Hn & Hle & Hs). exists (state_at w n). split.
  - exists n. split; [by split; [apply Hn|]|done].
  - unfold lmap_get. by rewrite Hs.
Qed.

Lemma list_return t o r (bu : budget) w :
  answered t o r w → wp t (post Sp proto t) bu (Ret r) w.
Proof.
  intros Ha. apply wp_ret. intros w' HR HI. eapply list_post; [done|].
  exact (answered_stable _ _ _ _ _ HR Ha).
Qed.

Lemma del_return t k r (bu : budget) w : answered t (MDel k) r w →
  wp t (post_with Sp proto (map_fact zeroV less) t (MDel k)) bu (Ret r) w.
Proof.
  intros Ha. apply wp_ret. intros w' HR HI. apply (answered_stable _ _ _ _ _ HR) in Ha.
  split; [by eapply list_post|]. intros p Hp _. by eapply del_fact.
Qed.

(** A response the specification leaves open. *)
Lemma answered_open t o r w :
  ready t o w → (∀ st, (spec_step Sp st o).1 = st ∧ answers Sp st o r) → current t o r w →
  answered t o r w.
Proof. intros [Hp Hc] Ho Hcur. split; [done|]. split; [done|]. right. left. apply observed_now; [done|apply Ho..]. Qed.

(** ** Own steps *)

(** The steps of anyone, as seen by facts that no one spoils. *)
Definition evolves : relation world := rtc (λ w w', ∃ u, rely u w w').

Lemma rely_evolves u w w' : rely u w w' → evolves w w'.
Proof. intros HR. apply rtc_once. by exists u. Qed.

Lemma good_evolves t w w' : good_step t w w' → evolves w w'.
Proof. intros [_ HR]. eapply (rely_evolves (S t)), HR. lia. Qed.

Lemma pub_evolves w w' l b s : evolves w w' → pub l b s w → pub l b s w'.
Proof. induction 1 as [|? ? ? [u HR] _ IH]; [done|]. intros Hl. by apply IH, (pub_stable _ _ _ _ HR). Qed.

Lemma mark_evolves w w' c mk : evolves w w' → mark_at c mk w → mark_at c mk w'.
Proof. induction 1 as [|? ? ? [u HR] _ IH]; [done|]. intros Hl. by apply IH, (mark_stable _ _ _ _ HR). Qed.

Lemma watch_evolves w w' l b s c L B :
  evolves w w' → pub l b s w → watch e l c L B w → watch e l c L B w'.
Proof.
  induction 1 as [|? ? ? [u HR] _ IH]; [done|]. intros Hl Hw.
  apply IH; [by apply (pub_stable _ _ _ _ HR)|].
  exact (watch_stable _ _ _ _ HR _ _ _ _ _ _ _ Hl Hw).
Qed.

(** The steps of the others, and those of [t] without an effect on the map: they
    change no private node of [t] but [l]. *)
Definition own_step t l w w' : Prop :=
  good_step t w w' ∧ w_gh w' = w_gh w ∧ commit (w_aux w') = commit (w_aux w) ∧
  ∀ x nd, x ≠ l → private t x nd w → private t x nd w'.

Definition keeps t l : relation world := rtc (λ w w', rely t w w' ∨ own_step t l w w').

Lemma rely_keeps t l w w' : rely t w w' → keeps t l w w'.
Proof. intros HR. apply rtc_once. by left. Qed.

Lemma own_keeps t l w w' : own_step t l w w' → keeps t l w w'.
Proof. intros HR. apply rtc_once. by right. Qed.

Lemma private_keeps t l x nd w w' : keeps t l w w' → x ≠ l → private t x nd w → private t x nd w'.
Proof.
  intros Hk Hx. induction Hk as [|w w1 w2 [HR|Ho] _ IH]; [done|..]; intros Hp; apply IH.
  - by apply (list_private_stable _ _ _ _ HR).
  - by apply Ho.
Qed.

Lemma keeps_evolves t l w w' : keeps t l w w' → evolves w w'.
Proof.
  induction 1 as [w|w w1 w2 [HR|[Hg _]] _ IH]; [reflexivity|trans w1; [|done]..].
  - by eapply rely_evolves.
  - by eapply good_evolves.
Qed.

Lemma ready_keeps t l o w w' : keeps t l w w' → ready t o w → ready t o w'.
Proof.
  induction 1 as [|w w1 w2 [HR|(_ & Hgh & Hc & _)] _ IH]; [done|..]; intros Hr; apply IH.
  - by apply (list_ready_stable _ _ _ _ HR).
  - unfold ready. by rewrite Hgh, Hc.
Qed.

Lemma answered_keeps t l o r w w' : keeps t l w w' → answered t o r w → answered t o r w'.
Proof.
  induction 1 as [|w w1 w2 [HR|(_ & Hgh & Hc & _)] _ IH]; [done|..]; intros Ha; apply IH.
  - by apply (answered_stable _ _ _ _ _ HR).
  - by apply (answered_same _ _ _ w).
Qed.

(** ** Private nodes *)

(** A step that the others cannot see. *)
Lemma own_step_intro t l w m' (own' spare' : gmap loc nat) :
  Inv w →
  (∀ x, is_Some (home (w_aux w) !! x) → node_at m' x = node_at (w_mem w) x) →
  f_get sh_marks (w_mem w) `prefix_of` f_get sh_marks m' →
  sh_heads m' = sh_heads (w_mem w) →
  (∀ x u, own' !! x = Some u → home (w_aux w) !! x = None ∧ is_Some (node_at m' x)) →
  (∀ u x, u ≠ t ∨ x ≠ l → own (w_aux w) !! x = Some u →
     own' !! x = Some u ∧ node_at m' x = node_at (w_mem w) x) →
  (∀ u a, u ≠ t → spare (w_aux w) !! a = Some u → spare' !! a = Some u) →
  rest_ok (sh_rest m') spare' (pub_sig (w_mem w) (w_aux w)) →
  rest_le (sh_rest (w_mem w)) (sh_rest m') →
  own_step t l w (upd Sp w m' [] (with_own (w_aux w) own' spare')).
Proof.
  intros HI Hn Hm Hh Ho Hothers Hs Hr Hle. split; [|split; [done|split; [done|]]].
  - apply list_plain_step; try done. intros u x Hu. apply Hothers. by left.
  - intros x nd Hx [Hox Hnx]. destruct (Hothers t x (or_intror Hx) Hox) as [? E].
    split; [done|]. simpl. by rewrite E.
Qed.

(** A step that changes the rest only. *)
Lemma own_step_rest t l w m' (spare' : gmap loc nat) :
  Inv w → f_get sh_nodes m' = f_get sh_nodes (w_mem w) →
  f_get sh_marks (w_mem w) `prefix_of` f_get sh_marks m' →
  sh_heads m' = sh_heads (w_mem w) →
  (∀ u a, u ≠ t → spare (w_aux w) !! a = Some u → spare' !! a = Some u) →
  rest_ok (sh_rest m') spare' (pub_sig (w_mem w) (w_aux w)) →
  rest_le (sh_rest (w_mem w)) (sh_rest m') →
  own_step t l w (upd Sp w m' [] (with_own (w_aux w) (own (w_aux w)) spare')).
Proof.
  intros HI Hn Hm Hh Hs Hr Hle.
  assert (∀ l, node_at m' l = node_at (w_mem w) l) as Hnode by (intros x; unfold node_at; by rewrite Hn).
  apply own_step_intro; try done. intros x u Hx. rewrite Hnode. by apply (i_own _ _ _ _ _ HI _ u).
Qed.

Lemma own_step_same t l w m' :
  Inv w → f_get sh_nodes m' = f_get sh_nodes (w_mem w) →
  f_get sh_marks (w_mem w) `prefix_of` f_get sh_marks m' →
  sh_heads m' = sh_heads (w_mem w) →
  rest_ok (sh_rest m') (spare (w_aux w)) (pub_sig (w_mem w) (w_aux w)) →
  rest_le (sh_rest (w_mem w)) (sh_rest m') →
  own_step t l w (upd Sp w m' [] (w_aux w)).
Proof.
  intros HI Hn Hm Hh Hr Hle.
  enough (own_step t l w (upd Sp w m' [] (with_own (w_aux w) (own (w_aux w)) (spare (w_aux w)))))
    by by destruct (w_aux w).
  by apply own_step_rest.
Qed.

Lemma new_node_step t nd w :
  Inv w →
  let l := length (f_get sh_nodes (w_mem w)) in
  let w' := upd Sp w (f_set sh_nodes (f_get sh_nodes (w_mem w) ++ [nd]) (w_mem w)) []
    (with_own (w_aux w) (<[l := t]> (own (w_aux w))) (spare (w_aux w))) in
  own_step t l w w' ∧ private t l nd w' ∧ ∀ x nd', private t x nd' w → x ≠ l.
Proof.
  intros HI. set (l := length (f_get sh_nodes (w_mem w))).
  set (m' := f_set sh_nodes _ _).
  assert (∀ x, is_Some (node_at (w_mem w) x) → x ≠ l ∧ node_at m' x = node_at (w_mem w) x) as Hold.
  { intros x [nd' Hx]. unfold node_at in *. pose proof (lookup_lt_Some _ _ _ Hx).
    split; [unfold l; lia|]. unfold m'. by rewrite sh_nodes_get, lookup_app_l. }
  assert (node_at m' l = Some nd) as Hnew.
  { unfold node_at, m'. rewrite sh_nodes_get. by apply list_lookup_middle. }
  cbn zeta.
  split; [|split; [split; [simpl; by rewrite lookup_insert_eq|exact Hnew]|]].
  2:{ intros x nd' [_ Hx]. apply (Hold x). by eexists. }
  apply own_step_intro; try done.
  - intros x [b Hx]. apply Hold. exact (pub_node _ _ _ _ _ _ _ HI Hx).
  - unfold m'. by rewrite sh_nodes_marks.
  - apply sh_nodes_heads.
  - intros x u [[<- <-]|[_ Hx]]%lookup_insert_Some.
    + split; [|by eexists]. destruct (home (w_aux w) !! l) as [b|] eqn:E; [|done].
      by destruct (Hold l (pub_node _ _ _ _ _ _ _ HI E)).
    + destruct (i_own _ _ _ _ _ HI _ _ Hx) as [? Hs]. split; [done|]. by rewrite (proj2 (Hold x Hs)).
  - intros u x Hu Hx. destruct (i_own _ _ _ _ _ HI _ _ Hx) as [? Hs].
    destruct (Hold x Hs). by rewrite lookup_insert_ne.
  - unfold m'. rewrite sh_nodes_rest. apply HI.
  - unfold m'. by rewrite sh_nodes_rest.
Qed.

Lemma store_private_step t l nd nd' w :
  Inv w → private t l nd w →
  let w' := upd Sp w (f_set sh_nodes (<[l := nd']> (f_get sh_nodes (w_mem w))) (w_mem w)) []
    (w_aux w) in
  own_step t l w w' ∧ private t l nd' w'.
Proof.
  intros HI [Ho Hn]. set (m' := f_set sh_nodes _ _). cbn zeta.
  assert (node_at m' l = Some nd') as Hnew.
  { unfold node_at, m'. rewrite sh_nodes_get. apply list_lookup_insert_eq. by eapply lookup_lt_Some. }
  assert (∀ x, x ≠ l → node_at m' x = node_at (w_mem w) x) as Hold.
  { intros x Hx. unfold node_at, m'. by rewrite sh_nodes_get, list_lookup_insert_ne. }
  split; [|by split].
  enough (own_step t l w (upd Sp w m' [] (with_own (w_aux w) (own (w_aux w)) (spare (w_aux w)))))
    by by destruct (w_aux w).
  destruct (i_own _ _ _ _ _ HI _ _ Ho) as [Hh _]. apply own_step_intro; try done.
  - intros x [b Hx]. apply Hold. congruence.
  - unfold m'. by rewrite sh_nodes_marks.
  - apply sh_nodes_heads.
  - intros x u Hx. destruct (i_own _ _ _ _ _ HI _ _ Hx) as [? Hs]. split; [done|].
    destruct (decide (x = l)) as [->|]; [rewrite Hnew; by eexists|by rewrite Hold].
  - intros u x Hu Hx. split; [done|]. apply Hold. destruct Hu; congruence.
  - unfold m'. rewrite sh_nodes_rest. apply HI.
  - unfold m'. by rewrite sh_nodes_rest.
Qed.

Section thread.
Context (t : nat) {A : Type} (Q : budget → A → world → Prop).

(** [&N{...}] *)
Lemma wp_new_node nd n L q w :
  1 ≤ n →
  (∀ w' l, Inv w' → keeps t l w w' → private t l nd w' →
     (∀ x nd', private t x nd' w → x ≠ l) → wp t Q (Refill (n - 1) L) (q l) w') →
  wp t Q (Refill n L) (Act (new sh_nodes nd) q) w.
Proof.
  intros Hn Hq. eapply wp_new; [by apply spend|]. intros w1 HR1 HI1.
  destruct (new_node_step t nd w1 HI1) as (Hown & Hp & Hfresh). eexists [], _.
  split; [apply Hown|]. apply Hq; [apply Hown| |done|].
  - trans w1; [by apply rely_keeps|by apply own_keeps].
  - intros x nd' Hx. eapply Hfresh. by apply (list_private_stable _ _ _ _ HR1).
Qed.

(** A store to a field of a private node. *)
Lemma wp_store_private {B} l nd (f : field N B) z n L q w :
  1 ≤ n → private t l nd w →
  (∀ w', Inv w' → keeps t l w w' → private t l (f_set f z nd) w' →
     wp t Q (Refill (n - 1) L) (q tt) w') →
  wp t Q (Refill n L) (Act (store_at sh_nodes l f z) q) w.
Proof.
  intros Hn Hp Hq. eapply wp_store_at; [by apply spend|]. intros w1 HR1 HI1.
  pose proof (list_private_stable _ _ _ _ HR1 _ _ Hp) as Hp1.
  destruct (store_private_step t l nd (f_set f z nd) w1 HI1 Hp1) as [Hown Hp2].
  exists nd, [], (w_aux w1). split; [apply Hp1|]. split; [apply Hown|].
  apply Hq; [apply Hown| |done]. trans w1; [by apply rely_keeps|by apply own_keeps].
Qed.

(** [n.next.set(ref, false)] for a private node *)
Lemma wp_set_private l nd ref n L q w :
  2 ≤ n → private t l nd w →
  (∀ w' (c : loc), Inv w' → keeps t l w w' → private t l (f_set sh_next (Some c) nd) w' →
     mark_at (Some c) (ListMarkable ref false) w' → wp t Q (Refill (n - 2) L) (q tt) w') →
  wp t Q (Refill n L) (bind (set l ref false) q) w.
Proof.
  intros Hn Hp Hq. unfold set. wp_pure. eapply wp_new; [apply spend; lia|]. intros w1 HR1 HI1.
  pose proof (new_mark_step zeroV less bucket nlists w1 (ListMarkable ref false)) as Hstep.
  exists [], (w_aux w1). split; [by apply Hstep|]. fold (add_mark (ListMarkable ref false) (w_mem w1)).
  set (c := length (f_get sh_marks (w_mem w1))). set (w1' := upd Sp w1 _ [] _).
  assert (mark_at (Some c) (ListMarkable ref false) w1') as Hc by apply add_mark_lookup.
  assert (rely t w1 w1') as HR1' by (apply (Hstep (S t) HI1); lia).
  clearbody w1' c. assert (rely t w w1') as HR by by trans w1.
  eapply wp_store_private; [lia|exact (list_private_stable _ _ _ _ HR _ _ Hp)|].
  intros w2 HI2 Hk Hp2. replace (n - 1 - 1) with (n - 2) by lia.
  apply (Hq w2 c); [done| |done|].
  - trans w1'; [by apply rely_keeps|done].
  - by eapply mark_evolves; [eapply keeps_evolves|].
Qed.

(** ** Linking a node *)

(** [curr] is where [tg] belongs, behind [p]. *)
Definition spot b tg p sp c (curr : option loc) (L B : nat) w : Prop :=
  pub p b sp w ∧ node_less less sp tg = true ∧
  mark_at c (ListMarkable curr false) w ∧ watch e p c L B w ∧
  ∀ x, curr = Some x → ∃ sx, pub x b sx w ∧ node_less less sx tg = false ∧ holds less sx tg = false.

Lemma spot_keeps b tg p sp c (curr : option loc) L B l w w' :
  keeps t l w w' → spot b tg p sp c curr L B w → spot b tg p sp c curr L B w'.
Proof.
  intros Hk (Hp & ? & Hc & Hw & Hx). apply keeps_evolves in Hk.
  split; [exact (pub_evolves _ _ _ _ _ Hk Hp)|]. split; [done|].
  split; [exact (mark_evolves _ _ _ _ Hk Hc)|].
  split; [exact (watch_evolves _ _ _ _ _ _ _ _ Hk Hp Hw)|].
  intros x Ex. destruct (Hx x Ex) as (sx & Hpx & ? & ?). exists sx.
  split; [exact (pub_evolves _ _ _ _ _ Hk Hpx)|done].
Qed.

Lemma spot_gap b tg p sp c (curr : option loc) L B w :
  spot b tg p sp c curr L B w → link (w_mem w) p = Some (ListMarkable curr false) →
  gap less p b sp curr tg w.
Proof. intros (? & ? & _ & _ & ?) ?. by split_and!. Qed.

(** The private node [l] for [tg] is linked to [curr]. *)
Definition linkable l tg (curr : option loc) w : Prop :=
  ∃ nd (c : loc), private t l nd w ∧ sh_sig nd = tg ∧ f_get sh_next nd = Some c ∧
    mark_at (Some c) (ListMarkable curr false) w.

Lemma linkable_stable l tg (curr : option loc) w w' :
  rely t w w' → linkable l tg curr w → linkable l tg curr w'.
Proof.
  intros HR (nd & c & ? & ? & ? & ?). exists nd, c.
  split; [by apply (list_private_stable _ _ _ _ HR)|]. do 2 (split; [done|]).
  by apply (mark_stable _ _ _ _ HR).
Qed.

Lemma linkable_facts l tg (curr : option loc) w :
  linkable l tg curr w → own (w_aux w) !! l = Some t ∧ sig_of (w_mem w) l = Some tg ∧
    link (w_mem w) l = Some (ListMarkable curr false).
Proof.
  intros (nd & c & [Ho Hn] & <- & Hnx & Hc). split; [done|]. unfold sig_of, link. rewrite Hn.
  split; [done|]. simpl. by rewrite Hnx.
Qed.

(** [pred.next.compareAndSet(curr, n, false, false)], when it succeeds with
    [Hlink], an effect and a new ghost state. *)
Lemma wp_link b tg p sp c (curr : option loc) l n L B q w :
  4 ≤ n → Inv w → spot b tg p sp c curr L B w → linkable l tg curr w →
  (∀ w' (c' : loc), rely t w w' → Inv w' → gap less p b sp curr tg w' → linkable l tg curr w' →
     mark_at (Some c') (ListMarkable (Some l) false) w' →
     ∃ us a, let w'' := upd Sp w' (set_next p c' (w_mem w')) us a in
     good_step t w' w'' ∧ wp t Q (Refill (n - 4) L) (q true) w'') →
  (∀ w' n', rely t w w' → Inv w' → can_retry e L B w' → n - 4 ≤ n' →
     wp t Q (Refill n' L) (q false) w') →
  wp t Q (Refill n L) (bind (compareAndSet (Some p) curr (Some l) false false) q) w.
Proof.
  intros Hn HI Hspot Hl Hok Hfail. pose proof Hspot as (Hp & _ & Hc & Hw & Hx).
  eapply (wp_compareAndSet zeroV less bucket nlists e t _ p b sp curr (Some l) false c _ L B);
    [done|done| |done|done| |exact Hfail].
  - right. intros ->. destruct (Hx l eq_refl) as (sx & [Hh _] & _).
    destruct (linkable_facts _ _ _ _ Hl) as [Ho _].
    destruct (i_own _ _ _ _ _ HI _ _ Ho). congruence.
  - intros w' c' HR HI' Hlink Hc'. apply (Hok w' c'); [done..| | |done].
    + eapply spot_gap; [|exact Hlink]. by eapply (spot_keeps _ _ _ _ _ _ _ _ l); [apply rely_keeps|].
    + by eapply linkable_stable.
Qed.
End thread.
End calls.
