(* ===== verification/ListOps.v ===== *)
(** [Set], [Get], [Del] and [Range] of the lock-free lists: what a goroutine knows in
    the middle of them. *)

From S2P Require Export ListCalls.
Import Common.
Local Open Scope prog_scope.

Section ops.
Context {Mem N G K V X : Type} `{!Shape Mem N G V X} `{!Rest G X}.
Context (zeroV : V) (less : Less K) `{!WeakOrder less} `{!NodeOrder less G} `{!Capacity G}.
Context (bucket : K → nat) (nlists : nat).
Context (Hbucket : ∀ k1 k2, same_key less k1 k2 = true → bucket k1 = bucket k2).
Context (Hrange : ∀ k, bucket k < nlists).
Abbreviation Sp := (lmap_spec zeroV (same_key less) (ascending_range (V:=V) less)).
Abbreviation aux := (list_aux V).
Abbreviation world := (world Mem (lmap_op K V) (lmap_resp K V) aux).
Abbreviation Inv := (Inv zeroV less bucket nlists).
Abbreviation proto := (list_proto zeroV less bucket nlists).
Abbreviation rely := (pr_rely proto).
Abbreviation good_step := (good_step proto).
Abbreviation absent := (absent zeroV less).
Abbreviation missing := (missing zeroV less).
Abbreviation finds_on := (finds_on zeroV less bucket).
Abbreviation with_commit := (with_commit zeroV less).
Abbreviation state_at := (state_at zeroV less).
Abbreviation answered := (answered zeroV less).
Abbreviation keeps := (keeps zeroV less bucket nlists).
Abbreviation evolves := (evolves zeroV less bucket nlists).
Abbreviation spot := (spot less).
Abbreviation pg := (LockFreeIn allowance).
Abbreviation wp t Q := (Logic.wp Sp proto pg t Q).
Implicit Types (w : world) (t u n : nat) (l x y p : loc) (k : K) (v : V) (m : Mem).
Implicit Types (o : lmap_op K V) (s tg : G) (c : option loc).

(** ** A search *)

Section attempt.
Context (e : nat) (He : e + 2 ≤ nrounds).
Context (t : nat) (o : lmap_op K V) (tg : G) (b : nat).
Context (Htg : node_ok less tg) (Hb : ∀ k, key_of less tg = Some k → bucket k = b).
Context (Hends : (sh_nil : option listMarkable) = None → bounded less tg).
Context (S : world → Prop).
Context (HS : ∀ w w', rely t w w' → S w → S w').
Context (HScm : ∀ w cm, S w → S (with_commit w cm)).
Context (P : loc → G → world → Prop).
Context (HP : ∀ x s w w', rely t w w' → P x s w → P x s w').
Context (Hhook : ∀ x s w, Inv w → able t o S w → pub x b s w →
  dead (w_aux w) !! x = None → node_less less s tg = false →
  (holds less s tg = false → missing t tg w) → finds_on t tg b (λ _, True) x w →
  ∃ cm, good_step t w (with_commit w cm) ∧ P x s (with_commit w cm)).
Context (passed : option loc → prog Mem bool).
Context (Hpassed : ∀ {A} (Q : budget → A → world → Prop) x s n L q w,
  3 ≤ n → Inv w → pub x b s w → S w →
  wp t Q (Refill (n - 3) L) (q (node_less less s tg)) w →
  wp t Q (Refill n L) (bind (passed (Some x)) q) w).
Context (start : prog Mem loc).
Context (Hstart : ∀ {A} (Q : budget → A → world → Prop) n L q w, 1 ≤ n → S w → Inv w →
  (∀ w' p sp, rely t w w' → Inv w' → pub p b sp w' → key_of less sp = None →
     node_less less sp tg = true → wp t Q (Refill (n - 1) L) (q p) w') →
  wp t Q (Refill n L) (bind start q) w).

(** Where the search ended: at a node, or at the end of the list. *)
Definition hit (p : loc) sp c (curr : option loc) (L B n : nat) w : Prop :=
  pub p b sp w ∧ node_less less sp tg = true ∧
  mark_at c (ListMarkable curr false) w ∧ watch e p c L B w ∧
  match curr with
  | Some x => ∃ sx, pub x b sx w ∧ node_less less sx tg = false ∧ sure e x L B w ∧ P x sx w ∧
      B + 20 * above less w sx + 30 ≤ n
  | None => (sh_nil : option listMarkable) ≠ None ∧ ready t o w ∧ missing t tg w ∧ B + 30 ≤ n
  end.

Lemma hit_spot p sp c (curr : option loc) L B n w :
  hit p sp c curr L B n w →
  (∀ x s, curr = Some x → pub x b s w → holds less s tg = false) →
  spot e b tg p sp c curr L B w.
Proof.
  intros (? & ? & ? & ? & Hcase) Hh. split_and!; try done. intros x ->.
  destruct Hcase as (sx & ? & ? & _). exists sx. split; [done|]. split; [done|]. by eapply Hh.
Qed.

Lemma wp_attempt {A} (Q : budget → A → world → Prop) n L q w :
  ready t o w → S w → L ≤ w_len w →
  (w_len w = L → (unrest w + 1 + e) * traversal L + 11 ≤ n) →
  (∀ w' p sp c (curr : option loc) B n', Inv w' → S w' → hit p sp c curr (w_len w') B n' w' →
     wp t Q (Refill n' (w_len w')) (q (Some p, curr)) w') →
  wp t Q (Refill n L) (bind (search start passed) q) w.
Proof using All.
  intros Hready HSw HL Hn Hq.
  eapply (wp_start zeroV less bucket nlists e t Q 11); [done|lia|done|done|].
  intros w1 n1 HR1 HI1 Hn1. apply wp_bind. eapply wp_mono;
    [|apply (wp_search zeroV less bucket nlists Hbucket Hrange e t o tg b (λ _, True) Htg Hb Hends
        S HS HScm P HP Hhook He passed Hpassed start Hstart)].
  2:{ split; [lia|]. split; [done|]. intros _. lia. }
  2:{ split; [by apply (list_ready_stable _ _ _ _ HR1)|by eapply HS]. }
  intros bu r w2 HI2 (L2 & B2 & n2 & p & sp & c & -> & Hr1 & Hloc).
  destruct r as [pred curr]. simpl in Hr1, Hloc. subst pred.
  destruct Hloc as ((Hp & Hbp & Hc & Hw & Hwalk) & HS2 & Hcurr).
  eapply (wp_walk zeroV less bucket nlists e); [done| |exact Hwalk|]; [lia|].
  intros w3 B3 n3 HR3 HI3 Hnew Hn3. apply (Hq w3 p sp c curr B3 n3); [done|by eapply HS|].
  split; [by apply (pub_stable _ _ _ _ HR3)|]. split; [done|].
  split; [by apply (mark_stable _ _ _ _ HR3)|].
  split; [exact (renewed_watch _ _ _ _ _ _ _ _ _ _ _ _ _ _ _ HR3 Hp Hnew Hw)|].
  destruct curr as [x|].
  - destruct Hcurr as (sx & Hlt & Hx & Hbx & Hsure & HPx). exists sx.
    pose proof (pub_stable _ _ _ _ HR3 _ _ _ Hx) as Hx3. split; [done|]. split; [done|].
    split; [exact (renewed_sure _ _ _ _ _ _ _ _ _ _ _ _ HR3 Hnew Hsure)|].
    split; [by apply (HP x sx w2)|].
    pose proof (above_lt less w3 sp x b sx Hx3 Hlt). lia.
  - destruct Hcurr as (? & [? _] & ?). split; [done|].
    split; [by apply (list_ready_stable _ _ _ _ HR3)|].
    split; [exact (missing_stable _ _ _ _ _ _ _ _ HR3 ltac:(done))|lia].
Qed.
End attempt.

(** Starting over, with nothing else known. *)
Abbreviation over e t o := (ListSearch.over e t o (λ _, True)).

Lemma over_spend e t o n L w :
  over e t o (Refill n L) w → ready t o w ∧ L ≤ w_len w ∧ 1 ≤ n ∧
  (w_len w = L → (unrest w + 1 + e) * traversal L + 11 ≤ n - 1).
Proof.
  intros (n1 & L1 & [= <- <-] & (? & ? & Hn) & [? _]). split; [done|]. split; [done|]. split; [done|].
  intros E. specialize (Hn E). lia.
Qed.

(** Starting over after a failure. *)
Lemma over_again e t o n L B w w' :
  rely t w w' → ready t o w → can_retry e L B w → B + 13 ≤ n → over e t o (Refill n L) w'.
Proof.
  intros HR Hr Hc Hn. eapply over_stable; [done|exact HR|]. exists n, L. split; [done|].
  split; [|by split].
  eapply can_retry_retry; [exact Hc|lia].
Qed.

(** ** [Set] *)

(** What [Set] establishes when it reads the node where [k] belongs. *)
Definition set_found t k v x s w : Prop :=
  if holds less s (sig_for less k) then commit (w_aux w) !! t = Some (x, v)
  else ready t (MSet k v) w.

Lemma set_found_stable t k v x s w w' : rely t w w' → set_found t k v x s w → set_found t k v x s w'.
Proof.
  intros HR. unfold set_found. destruct (holds less s (sig_for less k)).
  - by rewrite (r_commit _ _ _ _ _ HR).
  - apply (list_ready_stable _ _ _ _ HR).
Qed.

Lemma set_hook t k v x b s w :
  Inv w → ready t (MSet k v) w → pub x b s w → dead (w_aux w) !! x = None →
  ∃ cm, good_step t w (with_commit w cm) ∧ set_found t k v x s (with_commit w cm).
Proof.
  intros HI Hr Hx Hd. unfold set_found. destruct (holds less s (sig_for less k)) eqn:Hh.
  - apply holds_key in Hh as (k' & Hk' & Hk); [|by eapply pub_kind].
    rewrite same_key_sym in Hk.
    destruct (commit_step zeroV less bucket nlists t k' k v x _ _ w HI Hr Hx Hk' Hd Hk). by eexists.
  - exists (commit (w_aux w)). rewrite with_commit_id. split; [by apply good_step_refl|done].
Qed.

(** The update of a value takes effect, unless its node was deleted before. *)
Lemma wp_set_value t {A} (Q : budget → A → world → Prop) k v x n L q w :
  1 ≤ n → commit (w_aux w) !! t = Some (x, v) →
  (∀ w', answered t (MSet k v) MRDone w' → wp t Q (Refill (n - 1) L) (q tt) w') →
  wp t Q (Refill n L) (Act (store_at sh_nodes x sh_val (Some v)) q) w.
Proof using Hbucket Hrange WeakOrder0.
  intros Hn Hcm Hq. eapply wp_store_at; [by apply spend|]. intros w1 HR1 HI1.
  rewrite <-(r_commit _ _ _ _ _ HR1) in Hcm.
  destruct (store_step zeroV less bucket nlists Hbucket Hrange t x v w1 HI1 Hcm)
    as (us & Hgood & [Hf Hc]).
  destruct (i_commit _ _ _ _ _ HI1 _ _ _ Hcm) as (k1 & k' & b1 & _ & _ & Hh & _).
  destruct (pub_node _ _ _ _ _ _ _ HI1 Hh) as [nd Hnd].
  eexists nd, us, _. split; [exact Hnd|]. cbn zeta. rewrite (set_val_eq _ _ _ _ Hnd).
  split; [exact Hgood|]. apply Hq. split; [exact Hc|]. split; [exact I|by left].
Qed.

(** The new node is linked. *)
Lemma wp_link_key e t {A} (Q : budget → A → world → Prop) k v p sp c (curr : option loc) l nd
    (cn : loc) n L B q w :
  4 ≤ n → Inv w → ready t (MSet k v) w → spot e (bucket k) (sig_for less k) p sp c curr L B w →
  private t l nd w → sh_sig nd = sig_for less k → f_get sh_val nd = Some v →
  f_get sh_next nd = Some cn → mark_at (Some cn) (ListMarkable curr false) w →
  (∀ w', Inv w' → answered t (MSet k v) MRDone w' → wp t Q (Refill (n - 4) L) (q true) w') →
  (∀ w' n', rely t w w' → Inv w' → can_retry e L B w' → n - 4 ≤ n' →
     wp t Q (Refill n' L) (q false) w') →
  wp t Q (Refill n L) (bind (compareAndSet (Some p) curr (Some l) false false) q) w.
Proof using Hbucket Hrange WeakOrder0.
  intros Hn HI Hr Hspot Hl Hs Hv Hnx Hcn Hok Hfail.
  eapply (wp_link zeroV less bucket nlists e); [done|done|exact Hspot| | |exact Hfail].
  { exists nd, cn. done. }
  intros w' c' HR HI' Hgap Hl' Hc'. destruct (linkable_facts _ _ _ _ _ Hl') as (Ho & Hsl & Hlink).
  pose proof (list_private_stable _ _ _ _ HR _ _ Hl) as [_ Hnd].
  destruct (insert_step zeroV less bucket nlists Hbucket Hrange t k v p l c' curr sp w' HI'
    (list_ready_stable _ _ _ _ HR _ Hr) Hgap Ho Hsl) as [Hgood [Hf Hcm]];
    [unfold val_of; by rewrite Hnd|done|done|].
  exists [t]. eexists. split; [exact Hgood|]. apply Hok; [apply Hgood|]. split; [exact Hcm|]. split; [exact I|by left].
Qed.
(** ** [Get] *)

(** The abstract state had [r] for [k] at some moment since the call of [t]. *)
Definition got t o k (r : V * bool) w : Prop :=
  ∃ id lo n, g_thr (w_gh w) !! t = Some (Pend id o lo None) ∧ lo ≤ n ≤ w_len w ∧
    commit (w_aux w) !! t = None ∧
    if r.2 then ∃ vs, state_at w n k = Some (r.1 :: vs)
    else r.1 = zeroV ∧ state_at w n k = None.

Lemma got_stable t o k r w w' : rely t w w' → got t o k r w → got t o k r w'.
Proof.
  intros HR (id & lo & n & Ht & Hn & Hc & Hr). exists id, lo, n.
  destruct (r_quiet _ _ _ _ _ HR Hc) as [-> _]. pose proof (r_len _ _ _ _ _ HR).
  rewrite (r_commit _ _ _ _ _ HR), (state_at_mono _ _ _ _ _ _ HR) by lia.
  split; [done|]. split; [lia|done].
Qed.

Lemma got_absent t o k w : ready t o w → absent t k w → got t o k (zeroV, false) w.
Proof.
  intros [(id & lo & Ht & _) _] (id' & o' & lo' & n & Ht' & Hn & Hc & Hs).
  rewrite Ht in Ht'. injection Ht' as <- <- <-. by exists id, lo, n.
Qed.

(** The value of a node that was in the map since the call. *)
Lemma got_value t o k b x s v w :
  Inv w → ready t o w → pub x b s w → holds less s (sig_for less k) = true →
  since_call t x w → val_of (w_mem w) x = Some v → got t o k (v, true) w.
Proof.
  intros HI [(id & lo & Ht & Hlo) Hc] Hx Hh (id' & o' & lo' & Ht' & _ & _ & Hd) Hv.
  rewrite Ht in Ht'. injection Ht' as <- <- <-.
  apply holds_key in Hh as (k' & Hk' & Hk); [|by eapply pub_kind].
  destruct (pub_key_at _ _ _ _ _ _ _ _ _ HI Hx Hk') as [_ Hka].
  destruct (dead (w_aux w) !! x) as [[d0 dp]|] eqn:E.
  - destruct (i_dead _ _ _ _ _ HI _ _ _ E) as [_ (k1 & v1 & Hs1 & Hv1 & Hdp & [(n & vs & Hn & Hst) _] & _)].
    assert (k1 = k' ∧ v1 = v) as [-> ->] by (split; congruence).
    specialize (Hd d0 dp eq_refl). exists id, lo, n. split; [done|]. split; [unfold w_len; lia|].
    split; [done|]. exists vs. simpl. rewrite <-Hst. symmetry.
    by apply (st_at_ok zeroV less (g_log (w_gh w)) n).
  - destruct (i_sound _ _ _ _ _ HI _ _ _ (proj1 Hx) E Hka) as (v1 & vs & Hst & Hv1).
    assert (v1 = v) as -> by congruence.
    exists id, lo, (w_len w). split; [done|]. split; [unfold w_len; lia|]. split; [done|].
    exists vs. simpl. unfold ListInv.state_at, w_len. rewrite st_at_now.
    unfold ListInv.state_now in Hst. rewrite <-Hst. symmetry.
    by apply (st_now_ok zeroV less (g_log (w_gh w))).
Qed.

Lemma got_answers t k r w :
  got t (MGet k) k r w → answered t (MGet k) (MRVal r.1 r.2) w.
Proof.
  intros (id & lo & n & Ht & Hn & Hc & Hr). split; [done|]. split; [exact I|]. right. left.
  exists id, lo, n. split; [done|]. split; [done|]. cbn zeta. split; [done|].
  change (run Sp _ _) with (state_at w n). unfold answers. simpl. unfold lmap_get.
  destruct r as [v [|]]; simpl in *.
  - by destruct Hr as [vs ->].
  - by destruct Hr as [-> ->].
Qed.

Lemma got_contains t k r w :
  got t (MContains k) k r w → answered t (MContains k) (MRBool r.2) w.
Proof.
  intros (id & lo & n & Ht & Hn & Hc & Hr). split; [done|]. split; [exact I|]. right. left.
  exists id, lo, n. split; [done|]. split; [done|]. cbn zeta. split; [done|].
  change (run Sp _ _) with (state_at w n). unfold answers. simpl. f_equal. f_equal.
  destruct r as [v [|]]; simpl in *.
  - destruct Hr as [vs ->]. by rewrite bool_decide_true by by eexists.
  - destruct Hr as [_ ->]. by rewrite bool_decide_false by by intros [? ?].
Qed.
Section get.
Context (t : nat) (o : lmap_op K V) (k : K) (b : nat).
Abbreviation tg := (sig_for less k).

(** What [Get] knows of the unmarked node where [k] belongs. *)
Definition get_found x s w : Prop :=
  ready t o w ∧ pub x b s w ∧ if holds less s tg then is_Some (key_of less s) ∧ since_call t x w
  else absent t k w.

Lemma get_found_stable x s w w' : rely t w w' → get_found x s w → get_found x s w'.
Proof.
  intros HR (Hr & Hx & Hf). split; [by apply (list_ready_stable _ _ _ _ HR)|].
  split; [by apply (pub_stable _ _ _ _ HR)|]. destruct (holds less s tg) eqn:Hh.
  - destruct Hf as [Hk Hf]. split; [done|]. exact (since_call_stable _ _ _ _ HR _ _ _ Hx Hk Hf).
  - exact (absent_stable _ _ _ _ HR _ Hf).
Qed.

Lemma get_hook x s w :
  Inv w → ready t o w → pub x b s w → dead (w_aux w) !! x = None →
  node_less less s tg = false → (holds less s tg = false → missing t tg w) →
  ∃ cm, good_step t w (with_commit w cm) ∧ get_found x s (with_commit w cm).
Proof.
  intros HI Hr Hx Hd _ Habs. exists (commit (w_aux w)). rewrite with_commit_id.
  split; [by apply good_step_refl|]. split; [done|]. split; [done|].
  destruct (holds less s tg) eqn:Hh; [|by apply Habs; [|apply sig_for_key]].
  apply holds_key in Hh as (k' & Hk' & _); [|by eapply pub_kind]. split; [by exists k'|].
  destruct Hr as [(id & lo & Ht & Hlo) Hc]. exists id, o, lo. split; [done|]. split; [done|].
  split; [done|]. intros d0 dp. by rewrite Hd.
Qed.
End get.

(** ** [Del] *)

Section del.
Context (t : nat) (k : K) (b : nat).
Abbreviation tg := (sig_for less k).

Definition del_found (x : loc) s w : Prop :=
  ready t (MDel k) w ∧ (holds less s tg = false → absent t k w).

Lemma del_found_stable x s w w' : rely t w w' → del_found x s w → del_found x s w'.
Proof.
  intros HR [Hr Ha]. split; [by apply (list_ready_stable _ _ _ _ HR)|].
  intros Hh. exact (absent_stable _ _ _ _ HR _ (Ha Hh)).
Qed.

Lemma del_hook x s w :
  Inv w → ready t (MDel k) w → pub x b s w → dead (w_aux w) !! x = None →
  node_less less s tg = false → (holds less s tg = false → missing t tg w) →
  ∃ cm, good_step t w (with_commit w cm) ∧ del_found x s (with_commit w cm).
Proof.
  intros HI Hr _ _ _ Habs. exists (commit (w_aux w)). rewrite with_commit_id.
  split; [by apply good_step_refl|]. split; [done|]. intros Hh. by apply Habs; [|apply sig_for_key].
Qed.

Definition del_post (_ : budget) (r : V * bool) w : Prop :=
  answered t (MDel k) (MRVal r.1 r.2) w.

Lemma del_finds_none w : ready t (MDel k) w → absent t k w → del_post Free (zeroV, false) w.
Proof.
  intros [(id & lo & Ht & _) _] (id' & o' & lo' & n & Ht' & Hn & Hc & Hs).
  rewrite Ht in Ht'. injection Ht' as <- <- <-. split; [done|]. split; [exact I|]. right. left.
  exists id, lo, n. split; [done|]. split; [done|]. cbn zeta.
  change (run Sp _ _) with (state_at w n). unfold answers. simpl. by rewrite Hs.
Qed.

(** The marked node [x] is entry [dp] of the log; its value is still to be read. *)
Definition removed (x : loc) d0 dp w : Prop :=
  open_at t (MDel k) dp w ∧ dead (w_aux w) !! x = Some (d0, dp) ∧ after_call t d0 w.

Lemma removed_stable x d0 dp w w' : rely t w w' → removed x d0 dp w → removed x d0 dp w'.
Proof.
  intros HR (Ho & Hd & Hn). split; [exact (open_at_stable _ _ _ _ HR _ _ Ho)|].
  split; [exact (dead_stable _ _ _ _ HR _ _ Hd)|exact (after_call_stable _ _ _ _ HR _ Hn)].
Qed.

Lemma removed_value x s d0 dp v w :
  Inv w → removed x d0 dp w → pub x b s w → holds less s tg = true →
  val_of (w_mem w) x = Some v → answered t (MDel k) (MRVal v true) w.
Proof.
  intros HI ([Ho Hc] & Hd & Hcall) Hx Hh Hv.
  apply holds_key in Hh as (kd & Hkd & Hk); [|by eapply pub_kind].
  destruct (pub_key_at _ _ _ _ _ _ _ _ _ HI Hx Hkd) as [_ Hka].
  destruct (i_dead _ _ _ _ _ HI _ _ _ Hd) as [_ (k1 & v1 & Hs1 & Hv1 & Hdp & [(n & vs1 & Hn & Hst1) (vs & Hst & Hin)] & _)].
  assert (k1 = kd ∧ v1 = v) as [-> ->] by (split; congruence).
  assert (∀ n, state_at w n k = state_at w n kd) as Hsame.
  { intros n'. symmetry. by apply (st_at_ok zeroV less (g_log (w_gh w)) n'). }
  split; [done|]. split.
  { exists n, vs1. split; [intros p Hp; specialize (Hcall p Hp); lia|].
    split; [unfold w_len; lia|]. by rewrite Hsame. }
  right. right. exists dp. split; [done|]. assert (state_at w dp k = Some vs) as Hst' by by rewrite Hsame.
  unfold answers. simpl. rewrite Hst'. simpl. by exists vs.
Qed.

(** [load_val] reads the value of a key node. *)
Context (load_val : option loc → prog Mem V).
Context (Hload : ∀ {A} (Q : budget → A → world → Prop) x s n L q w,
  1 ≤ n → pub x b s w → is_Some (key_of less s) →
  (∀ w' v, rely t w w' → Inv w' → val_of (w_mem w') x = Some v →
     wp t Q (Refill (n - 1) L) (q v) w') →
  wp t Q (Refill n L) (bind (load_val (Some x)) q) w).

(** [Del] after the node [x] was marked: reads the value, tries to unlink. *)
Lemma wp_del_finish {A} (Q : budget → A → world → Prop) p sp c x s d0 dp (y : option loc) n L B w
    (q : V → prog Mem A) :
  10 ≤ n → Inv w → removed x d0 dp w →
  pub p b sp w → mark_at c (ListMarkable (Some x) false) w → watch 0 p c L B w →
  pub x b s w → holds less s tg = true →
  link (w_mem w) x = Some (ListMarkable y true) → Some x ≠ y →
  (∀ w' n' v, answered t (MDel k) (MRVal v true) w' → n - 5 ≤ n' →
     wp t Q (Refill n' L) (q v) w') →
  wp t Q (Refill n L)
    (let! value := load_val (Some x) in
     compareAndSet (Some p) (Some x) y false false ;;; q value) w.
Proof using All.
  intros Hn HI Hrem Hp Hc Hw Hx Hh Hlx Hxy Hq.
  assert (is_Some (key_of less s)) as Hks.
  { apply holds_key in Hh as (k' & Hk' & _); [by eexists|by eapply pub_kind]. }
  eapply Hload; [lia|exact Hx|done|]. intros w1 v HR1 HI1 Hv.
  assert (answered t (MDel k) (MRVal v true) w1) as Hpost.
  { eapply (removed_value x s d0 dp); [done| |by eapply pub_stable|done|done].
    by eapply removed_stable. }
  pose proof (pub_stable _ _ _ _ HR1 _ _ _ Hp) as Hp1.
  assert (link (w_mem w1) x = Some (ListMarkable y true)) as Hlx1.
  { eapply dead_link_stable; [exact HR1| |exact Hlx|eexists; apply Hx].
    destruct Hrem as (_ & -> & _). by eexists. }
  eapply (wp_compareAndSet zeroV less bucket nlists 0 t _ p b sp (Some x) y false c _ L B);
    [lia|exact Hp1|by right|by eapply mark_stable|by eapply watch_stable|..].
  - intros w2 c' HR2 HI2 Hlink Hc'.
    assert (link (w_mem w2) x = Some (ListMarkable y true)) as Hlx2.
    { eapply dead_link_stable; [exact HR2| |exact Hlx1|].
      - exists (d0, dp). destruct Hrem as (_ & Hd & _). by apply (dead_stable _ _ _ _ HR1).
      - exists b. exact (proj1 (pub_stable _ _ _ _ HR1 _ _ _ Hx)). }
    assert (pub p b sp w2) as Hp2 by by eapply pub_stable.
    destruct (unlink_pair zeroV less bucket nlists Hbucket Hrange 0 t p b sp c' x y
      (w_len w2) ((unrest w2 + 0) * traversal (w_len w2)) w2 HI2 Hp2 Hlink Hc' Hlx2
      ltac:(done) ltac:(done)) as (a & Hgood & HR3 & _).
    exists [], a. split; [exact Hgood|]. apply Hq; [|lia].
    eapply answered_stable; [exact HR3|]. by eapply answered_stable.
  - intros w2 n2 HR2 HI2 _ Hn2. apply Hq; [|lia]. by eapply answered_stable.
Qed.

(** [Del] found its key in [x]: mark it, unless someone else does. *)
Lemma wp_del_mark {A} (Q : budget → A → world → Prop) p sp c x s B n w (again : prog Mem A)
    (q : V → prog Mem A) :
  Inv w → ready t (MDel k) w → pub p b sp w →
  mark_at c (ListMarkable (Some x) false) w → watch 0 p c (w_len w) B w →
  pub x b s w → holds less s tg = true → sure 0 x (w_len w) B w → B + 25 ≤ n →
  (∀ w' n', rely t w w' → over 0 t (MDel k) (Refill n' (w_len w)) w' →
     wp t Q (Refill n' (w_len w)) again w') →
  (∀ w' n' v, answered t (MDel k) (MRVal v true) w' → n - 11 ≤ n' →
     wp t Q (Refill n' (w_len w)) (q v) w') →
  wp t Q (Refill n (w_len w))
    (let! sm := get (Some x) in
     if sm.2 : bool then again
     else
       let! ok := compareAndSet (Some x) sm.1 sm.1 false true in
       if negb ok then again
       else
         let! value := load_val (Some x) in
         compareAndSet (Some p) (Some x) sm.1 false false ;;; q value) w.
Proof using All.
  intros HI Hr Hp Hc Hw Hx Hh Hsure Hn Hagain Hq. set (L := w_len w) in *.
  eapply (wp_get zeroV less bucket nlists); [lia|exact Hx|]. intros w1 cx mk HR1 HI1 Hx1 Hcell Hcx Hlink.
  exists (commit (w_aux w1)). rewrite with_commit_id. split; [by apply good_step_refl|].
  pose proof (pub_pub_ok _ _ _ _ _ _ _ _ _ HI1 Hx1 Hlink) as Hok.
  destruct mk as [y [|]]; cbn [lm_ref lm_marked fst snd].
  - apply Hagain; [done|].
    exists (n - 2), L. split; [done|]. split; [|split; [by eapply list_ready_stable|done]].
    eapply can_retry_retry; [|by apply (Nat.le_trans _ (B + 13)); [reflexivity|lia]].
    eapply sure_retry; [exact (sure_stable _ _ _ _ _ _ _ _ _ _ _ HR1 Hsure)|].
    by apply (p_marked _ _ _ _ _ _ _ _ Hok).
  - assert (Some x ≠ y) as Hxy.
    { intros <-. destruct (p_next _ _ _ _ _ _ _ _ Hok x eq_refl) as (_ & s' & Hs' & Hlt).
      destruct Hx1 as [_ Hs]. rewrite Hs in Hs'. injection Hs' as <-. by rewrite less_irrefl in Hlt. }
    assert (watch 0 x cx L B w1) as Hwx.
    { split; [exact (r_len _ _ _ _ _ HR1)|]. intros E. right. split; [|done].
      exact (watch_reserve _ _ _ _ _ _ (watch_stable _ _ _ _ HR1 _ _ _ _ _ _ _ Hp Hw) E). }
    eapply (wp_compareAndSet zeroV less bucket nlists 0 t _ x b s y y true cx _ L B);
      [lia|exact Hx1|by left|done|done|..].
    + intros w2 c' HR2 HI2 Hlink2 Hc'.
      assert (rely t w w2) as HR12 by by trans w1.
      assert (pub x b s w2) as Hx2 by by eapply pub_stable.
      pose proof Hh as (kd & Hkd & Hk)%holds_key; [|by eapply pub_kind].
      edestruct (mark_step zeroV less bucket nlists Hbucket Hrange t k kd s x c' y b w2 HI2)
        as (Hgood & Hopen & Hdead & Hcall); [by eapply list_ready_stable|done..|].
      eexists _, _. split; [exact Hgood|]. cbn beta iota delta [negb].
      match goal with |- context [upd ?S ?w ?m ?us ?a] => set (w3 := upd S w m us a) in * end.
      pose proof (proj2 Hgood (Datatypes.S t) ltac:(lia)) as HR3.
      assert (evolves w w3) as He by (trans w2; by eapply rely_evolves).
      eapply (wp_del_finish _ p sp c x s _ _ y _ L B); [lia|apply Hgood|by split|..].
      * exact (pub_evolves _ _ _ _ _ _ _ _ _ He Hp).
      * exact (mark_evolves _ _ _ _ _ _ _ _ He Hc).
      * exact (watch_evolves _ _ _ _ _ _ _ _ _ _ _ _ _ He Hp Hw).
      * exact (pub_evolves _ _ _ _ _ _ _ _ _ He Hx).
      * done.
      * unfold w3, upd. simpl.
        rewrite set_next_link by exact (pub_node _ _ _ _ _ _ _ HI2 (proj1 Hx2)).
        by rewrite decide_True.
      * done.
      * intros w4 n4 v Ha Hn4. apply Hq; [done|lia].
    + intros w2 n2 HR2 HI2 Hcan Hn2. cbn beta iota delta [negb]. apply Hagain; [by trans w1|].
      eapply over_again; [reflexivity| |exact Hcan|lia].
      eapply list_ready_stable; [exact HR2|]. by eapply list_ready_stable.
Qed.
End del.

(** ** Calls *)

Lemma list_call_world t id o w :
  2 ≤ nrounds → Inv w → g_thr (w_gh w) !! t = None →
  let w' := World (w_mem w) (g_call t id o (w_gh w)) (w_aux w) in
  good_step t w w' ∧ ready t o w' ∧
  ∀ d, d ≤ 100 → (unrest w' + 1 + (nrounds - 2)) * traversal (w_len w') + d ≤ allowance (w_len w).
Proof.
  intros Hnr HI Hnone. pose proof (i_idle _ _ _ _ _ HI _ Hnone) as Hc. split; [split|].
  - split; simpl; try apply HI.
    + intros u l v Hu. assert (u ≠ t) by congruence.
      eapply (commit_ok_mono zeroV less bucket nlists w);
        [by eapply (i_commit _ _ _ _ _ HI)|done|done|done|by apply quiet_call|done].
    + intros u [Hu _]%lookup_insert_None. by apply (i_idle _ _ _ _ _ HI).
  - intros u Hu. split; simpl; try done; auto with lockfree; naive_solver.
  - split; [split; [apply pending_call|done]|]. intros d Hd.
    pose proof (unrest_le zeroV less bucket nlists w HI) as Hl.
    assert (100 ≤ traversal (w_len w)) by (unfold traversal; lia).
    change (w_len (World _ _ _)) with (w_len w).
    change (unrest (World _ _ _)) with (unrest w).
    unfold allowance. nia.
Qed.
End ops.

(** ** [Range]: the keys that it has passed *)

Section range.
Context {Mem N G K V X : Type} `{!Shape Mem N G V X} `{!Rest G X}.
Context (zeroV : V) (less : Less K) `{!WeakOrder less} `{!NodeOrder less G} `{!Capacity G}.
Context (bucket : K → nat) (nlists : nat).
Context (Hbucket : ∀ k1 k2, same_key less k1 k2 = true → bucket k1 = bucket k2).
Context (Hrange : ∀ k, bucket k < nlists).
Abbreviation Sp := (lmap_spec zeroV (same_key less) (ascending_range (V:=V) less)).
Abbreviation aux := (list_aux V).
Abbreviation world := (world Mem (lmap_op K V) (lmap_resp K V) aux).
Abbreviation Inv := (Inv zeroV less bucket nlists).
Abbreviation proto := (list_proto zeroV less bucket nlists).
Abbreviation rely := (pr_rely proto).
Abbreviation absent := (absent zeroV less).
Abbreviation finds := (finds zeroV less).
Abbreviation finds_on := (finds_on zeroV less bucket).
Abbreviation got := (got zeroV less).
Abbreviation state_at := (state_at zeroV less).
Implicit Types (w : world) (t n b : nat) (l x y : loc) (k : K) (v : V) (s : G).
Implicit Types (calls : list (K * V)).

Context (t : nat) (from to : K) (b : nat).
Abbreviation o := (MRange from to : lmap_op K V).

(** The keys that the traversal has to account for. *)
Definition wanted k : Prop := bucket k = b ∧ less k from = false ∧ less k to = true.

Definition reported calls k : Prop := ∃ k' v, (k', v) ∈ calls ∧ same_key less k' k = true.

(** What was reported was there at some moment since the call. *)
Definition seen calls w : Prop := ∀ k v, (k, v) ∈ calls → got t o k (v, true) w.

(** A wanted key was reported or is still ahead, unless it was absent at some
    moment; at the end none is ahead. *)
Definition covers x calls w : Prop :=
  ∀ k, wanted k → reported calls k ∨ finds t (sig_for less k) x w.

Definition complete calls w : Prop := ∀ k, wanted k → reported calls k ∨ absent t k w.

Lemma range_seen_stable calls w w' : rely t w w' → seen calls w → seen calls w'.
Proof. intros HR Hs k v Hin. exact (got_stable _ _ _ _ _ _ _ _ _ _ HR (Hs k v Hin)). Qed.

Lemma seen_more calls k v w : seen calls w → got t o k (v, true) w → seen (calls ++ [(k, v)]) w.
Proof.
  intros Hs Hg k' v' [?| Heq%list_elem_of_singleton]%elem_of_app; [by apply Hs|by simplify_eq].
Qed.

Lemma covers_stable x s calls w w' :
  rely t w w' → ready t o w → pub x b s w → covers x calls w → covers x calls w'.
Proof using WeakOrder0.
  intros HR Hr Hx Hc k Hk. destruct (Hc k Hk) as [?|Hf]; [by left|right].
  exact (finds_stable _ _ _ _ HR _ _ _ _ _ Hr Hx Hf).
Qed.

Lemma range_complete_stable calls w w' : rely t w w' → complete calls w → complete calls w'.
Proof.
  intros HR Hc k Hk. destruct (Hc k Hk) as [?|Ha]; [by left|right].
  exact (absent_stable _ _ _ _ HR _ Ha).
Qed.

(** The search for [from] ends at [x]. *)
Lemma covers_start x w :
  (∀ k, node_less less (sig_for less k) (sig_for less from) = less k from) →
  finds_on t (sig_for less from) b (λ _, True) x w → covers x [] w.
Proof. intros Hless [_ Hon] k (Hk & Hf & _). right. apply Hon; [done..|by rewrite Hless]. Qed.

Lemma absent_finds x k w : absent t k w → finds t (sig_for less k) x w.
Proof. intros Ha k'. rewrite sig_for_key. intros [= <-]. by left. Qed.

(** On to the node [y] behind a marked node. *)
Lemma covers_marked x s mk y calls w :
  Inv w → pub x b s w → link (w_mem w) x = Some mk → lm_marked mk = true → lm_ref mk = Some y →
  covers x calls w → covers y calls w.
Proof.
  intros HI Hx Hmk Hm Hy Hc k Hk. destruct (Hc k Hk) as [?|Hf]; [by left|right].
  pose proof (finds_skip _ _ _ _ _ _ _ _ _ _ _ HI (sig_for_ok k) Hx Hmk (or_introl Hm) Hf) as Hnext.
  by rewrite Hy in Hnext.
Qed.

(** On to the node [y] behind a node with the key [k'], which is reported. *)
Lemma covers_next x s k' v mk y calls w :
  Inv w → pub x b s w → link (w_mem w) x = Some mk → lm_ref mk = Some y →
  key_of less s = Some k' → covers x calls w → covers y (calls ++ [(k', v)]) w.
Proof.
  intros HI Hx Hmk Hy Hk' Hc k Hk. destruct (holds less s (sig_for less k)) eqn:Hh.
  { apply holds_key in Hh as (k1 & Hk1 & Hsame); [|exact (pub_kind _ _ _ _ _ _ _ _ HI Hx)]. left. exists k', v.
    split; [apply elem_of_app; right; by apply list_elem_of_singleton|congruence]. }
  destruct (Hc k Hk) as [(k1 & v1 & Hin & ?)|Hf].
  { left. exists k1, v1. split; [apply elem_of_app; by left|done]. }
  right. destruct (node_less less s (sig_for less k)) eqn:Hlt.
  - pose proof (finds_skip _ _ _ _ _ _ _ _ _ _ _ HI (sig_for_ok k) Hx Hmk (or_intror Hlt) Hf) as Hnext.
    by rewrite Hy in Hnext.
  - apply absent_finds.
    by apply (finds_end _ _ _ _ _ _ _ _ _ _ HI (sig_for_ok k) Hx Hlt Hh Hf), sig_for_key.
Qed.

(** At a node that comes after all wanted keys. *)
Lemma covers_end x s calls w :
  Inv w → pub x b s w → (∀ k, wanted k → node_less less (sig_for less k) s = true) →
  covers x calls w → complete calls w.
Proof.
  intros HI Hx Hlast Hc k Hk. destruct (Hc k Hk) as [?|Hf]; [by left|right].
  pose proof (Hlast k Hk) as Hlt.
  apply (finds_end _ _ _ _ _ _ _ _ _ _ HI (sig_for_ok k) Hx); [exact (less_asym _ _ _ Hlt)| |exact Hf|apply sig_for_key].
  unfold holds. exact (proj2 (less_not_same _ _ _ Hlt)).
Qed.

(** An unmarked node is in the map, and its value is one since the call. *)
Lemma alive_since_call x w : ready t o w → dead (w_aux w) !! x = None → since_call t x w.
Proof.
  intros [(id & lo & Ht & Hlo) Hc] Hd. exists id, o, lo. split; [done|]. split; [done|].
  split; [done|]. intros d0 dp. by rewrite Hd.
Qed.

Lemma got_call x s k v w :
  Inv w → ready t o w → pub x b s w → key_of less s = Some k → since_call t x w →
  val_of (w_mem w) x = Some v → got t o k (v, true) w.
Proof.
  intros HI Hr Hx Hk Hs Hv. apply (got_value zeroV less bucket nlists t o k b x s v w HI Hr Hx); [|exact Hs|exact Hv].
  apply (holds_key less s k (pub_kind _ _ _ _ _ _ _ _ HI Hx)). exists k. split; [done|by apply same_key_refl].
Qed.

(** The traversal is over. *)
Record ranged calls w : Prop := {
  rg_ready : ready t o w;
  rg_ascending : ascending_range less from to calls;
  rg_seen : seen calls w;
  rg_complete : complete calls w
}.

Lemma ranged_stable calls w w' : rely t w w' → ranged calls w → ranged calls w'.
Proof.
  intros HR [Hr Ha Hs Hc]. split; [exact (list_ready_stable _ _ _ _ HR _ Hr)|done|..].
  - exact (range_seen_stable _ _ _ HR Hs).
  - exact (range_complete_stable _ _ _ HR Hc).
Qed.

Lemma ranged_answered calls w : ranged calls w → answered zeroV less t o (MRRange calls) w.
Proof. intros Hr. apply answered_open; [apply Hr| |exact I]. intros st. split; [done|]. apply Hr. Qed.

(** When this list has all keys, the response is a right one. *)
Lemma ranged_map_fact calls w p :
  (∀ k, bucket k = b) → ranged calls w → g_thr (w_gh w) !! t = Some p →
  map_fact zeroV less (nth_state Sp (g_log (w_gh w))) (p_lo p) (w_len w) o (MRRange calls).
Proof.
  intros Hall [[(id & lo & Ht & Hlo) _] _ Hs Hc] Hp. rewrite Ht in Hp. injection Hp as <-. simpl. split.
  - intros k v (id' & lo' & n & Ht' & Hn & _ & vs & Hst)%Hs. rewrite Ht in Ht'. injection Ht' as <- <-.
    eexists. split; [by exists n|]. unfold lmap_get.
    change (nth_state Sp _ n k) with (state_at w n k). by rewrite Hst.
  - intros k Hf Hto Hin. destruct (Hc k) as [?|(id' & o' & lo' & n & Ht' & Hn & _ & Hst)]; [done..|].
    rewrite Ht in Ht'. injection Ht' as <- _ <-. destruct (Hin (state_at w n)) as [vs Hvs]; [by exists n|].
    congruence.
Qed.
End range.
