(* ===== verification/ListCode.v ===== *)
(** [lf.List]: the code of the lock-free ordered list ([lf/list.go]).

    A [mem] holds any number of lists, so that a hash table can be built from
    them: a method has the address of its list, the receiver, as argument. *)

From S2P Require Export ListCommon.

Module MList.
Section list.
Context {K V : Type} (zeroK : K) (zeroV : V) (less : Less K).

(** [ln_next] is the [atomic.Pointer] inside the [listMarkableRef]; the value
    stands for the pointer to it in [ln_val]. *)
Record listNode := ListNode {
  ln_key : K;
  ln_val : option V;
  ln_kind : Z;
  ln_next : option loc
}.

Record list_ := List_ {
  l_head : loc;
  l_length : Z
}.

Record mem := Mem {
  nodes : list listNode;
  marks : list listMarkable;
  lists : list list_
}.

Definition nodes_f : field mem (list listNode) :=
  Field nodes (λ x m, Mem x (marks m) (lists m)).
Definition marks_f : field mem (list listMarkable) :=
  Field marks (λ x m, Mem (nodes m) x (lists m)).
Definition lists_f : field mem (list list_) :=
  Field lists (λ x m, Mem (nodes m) (marks m) x).
Definition val_f : field listNode (option V) :=
  Field ln_val (λ x n, ListNode (ln_key n) x (ln_kind n) (ln_next n)).
Definition next_f : field listNode (option loc) :=
  Field ln_next (λ x n, ListNode (ln_key n) (ln_val n) (ln_kind n) x).
Definition length_f : field list_ Z :=
  Field l_length (λ x l, List_ (l_head l) x).

(** ** Markable references; [n] is the node whose [next] is meant *)

Definition get (n : option loc) : prog mem (option loc * bool) :=
  let! cur := act (load_ptr nodes n ln_next) in
  act (load_ptr marks cur (λ c, (lm_ref c, lm_marked c))).

Definition getReference (n : option loc) : prog mem (option loc) :=
  let! cur := act (load_ptr nodes n ln_next) in
  act (load_ptr marks cur lm_ref).

Definition set (n : loc) (ref : option loc) (marked : bool) : prog mem unit :=
  let! c := act (new marks_f (ListMarkable ref marked)) in
  act (store_at nodes_f n next_f (Some c)).

Definition compareAndSet (n expectRef newRef : option loc) (expectMark newMark : bool)
    : prog mem bool :=
  let! cur := act (load_ptr nodes n ln_next) in
  let! c := act (load_ptr marks cur id) in
  if negb (bool_decide (lm_ref c = expectRef) && eqb (lm_marked c) expectMark)
  then Ret false
  else if bool_decide (newRef = lm_ref c) && eqb newMark (lm_marked c) then Ret true
  else
    let! c' := act (new marks_f (ListMarkable newRef newMark)) in
    act (cas_ptr nodes_f n next_f cur (Some c')).

(** ** The list *)

(** The address of the new list is the length of [lists]. *)
Definition NewList (m : mem) : mem :=
  let tail := length (nodes m) in
  let head := S tail in
  let c := length (marks m) in
  Mem (nodes m ++ [ListNode zeroK None 1 (Some c); ListNode zeroK None (-1) (Some (S c))])
      (marks m ++ [ListMarkable None false; ListMarkable (Some tail) false])
      (lists m ++ [List_ head 0]).

Definition keyLess (n : option loc) (x : K) : prog mem bool :=
  let! n := act (load_ptr nodes n (λ n, (ln_kind n, ln_key n))) in
  Ret (if bool_decide (n.1 = -1)%Z then true
       else if bool_decide (n.1 = 1)%Z then false
       else less n.2 x).

Definition keyEqual (n : option loc) (x : K) : prog mem bool :=
  let! n := act (load_ptr nodes n (λ n, (ln_kind n, ln_key n))) in
  Ret (if negb (bool_decide (n.1 = 0)%Z) then false
       else negb (less n.2 x) && negb (less x n.2)).

(** [for marked { ... }]: unlink [curr] and the marked nodes behind it; nothing
    when an unlinking failed. *)
Definition unlink (pred curr succ : option loc) (marked : bool)
    : prog mem (option (option loc * option loc)) :=
  loop (λ '(curr, succ, marked),
    if marked : bool then
      let! ok := compareAndSet pred curr succ false false in
      if negb ok then break None
      else
        let! sm := get succ in
        continue (succ, sm.1, sm.2)
    else break (Some (curr, succ))) (curr, succ, marked).

(** The inner loop of [search]; nothing when it has to be retried. *)
Definition traverse (x : K) (pred curr : option loc)
    : prog mem (option (option loc * option loc)) :=
  loop (λ '(pred, curr),
    let! sm := get curr in
    let! un := unlink pred curr sm.1 sm.2 in
    match un with
    | None => break None
    | Some (curr, succ) =>
        let! lt := keyLess curr x in
        if lt : bool then continue (curr, succ) else break (Some (pred, curr))
    end) (pred, curr).

Definition search (l : loc) (x : K) : prog mem (option loc * option loc) :=
  loop (λ _ : unit,
    let! pred := act (load_at lists l l_head) in
    let! curr := getReference (Some pred) in
    let! found := traverse x (Some pred) curr in
    match found with
    | None => continue tt
    | Some pc => break pc
    end) tt.

Definition Set_ (l : loc) (k : K) (v : V) : prog mem (lmap_resp K V) :=
  loop (λ _ : unit,
    let! pc := search l k in
    let! eq := keyEqual pc.2 k in
    if eq : bool then
      act (match pc.2 with
           | Some c => store_at nodes_f c val_f (Some v)
           | None => λ _, None
           end) ;;;
      break MRDone
    else
      let! n := act (new nodes_f (ListNode k None 0 None)) in
      act (store_at nodes_f n val_f (Some v)) ;;;
      set n pc.2 false ;;;
      let! ok := compareAndSet pc.1 pc.2 (Some n) false false in
      if ok : bool then
        act (add_u64_at lists_f l length_f 1) ;;;
        break MRDone
      else continue tt) tt.

(** [*n.val.Load()] *)
Definition load_val (n : option loc) : prog mem V :=
  let! v := act (load_ptr nodes n ln_val) in
  match v with
  | Some v => Ret v
  | None => panic
  end.

(** [for marked { ... }] of [Get]: skip marked nodes. *)
Definition skip_marked (curr succ : option loc) (marked : bool)
    : prog mem (option loc * option loc) :=
  loop (λ '(curr, succ, marked),
    if marked : bool then
      let! sm := get succ in
      continue (succ, sm.1, sm.2)
    else break (curr, succ)) (curr, succ, marked).

Definition Get (l : loc) (k : K) : prog mem (V * bool) :=
  let! head := act (load_at lists l l_head) in
  let! curr := getReference (Some head) in
  loop (λ curr : option loc,
    let! sm := get curr in
    let! cs := skip_marked curr sm.1 sm.2 in
    let! lt := keyLess cs.1 k in
    if lt : bool then continue (cs.2)
    else
      let! eq := keyEqual cs.1 k in
      if eq : bool then
        let! v := load_val cs.1 in
        break (v, true)
      else break (zeroV, false)) curr.

Definition Contains (l : loc) (k : K) : prog mem bool :=
  let! r := Get l k in
  Ret r.2.

Definition Del (l : loc) (k : K) : prog mem (V * bool) :=
  loop (λ _ : unit,
    let! pc := search l k in
    let! eq := keyEqual pc.2 k in
    if negb eq then break (zeroV, false)
    else
      let! sm := get pc.2 in
      if sm.2 : bool then continue tt
      else
        let! ok := compareAndSet pc.2 sm.1 sm.1 false true in
        if negb ok then continue tt
        else
          let! value := load_val pc.2 in
          compareAndSet pc.1 pc.2 sm.1 false false ;;;
          act (add_u64_at lists_f l length_f (two64 - 1)) ;;;
          break (value, true)) tt.

(** [int(l.length.Load())] *)
Definition Len (l : loc) : prog mem Z :=
  let! n := act (load_at lists l l_length) in
  Ret (i64 n).

(** The calls of [op], in order. *)
Definition Range (l : loc) (from to : K) : prog mem (list (K * V)) :=
  let! pc := search l from in
  loop (λ '(curr, calls),
    let! kind := act (load_ptr nodes curr ln_kind) in
    if bool_decide (kind = 0)%Z then
      let! sm := get curr in
      if sm.2 : bool then continue (sm.1, calls)
      else
        let! key := act (load_ptr nodes curr ln_key) in
        if negb (less key to) then break calls
        else
          let! v := load_val curr in
          continue (sm.1, calls ++ [(key, v)])
    else break calls) (pc.2, []).
End list.

(** ** An instance of the lists of ListShape.v *)

Section instances.
Context {K V : Type}.
Abbreviation mem := (mem (K:=K) (V:=V)).

(** The signature of a node is its kind and its key. *)
#[export] Instance list_shape : Shape mem (listNode (K:=K) (V:=V)) (Z * K) V unit.
Proof.
  refine {| sh_nodes := nodes_f; sh_marks := marks_f; sh_heads m := l_head <$> lists m;
    sh_rest _ := tt; sh_sig n := (ln_kind n, ln_key n); sh_val := val_f; sh_next := next_f;
    sh_nil := None |}; done.
Defined.

#[export] Instance list_rest : Rest (Z * K) unit.
Proof. refine {| rest_ok _ _ _ := True; rest_le _ _ := True |}; done. Defined.

Context (less : Less K).

(** Head, keys, tail. *)
Definition list_less : Less (Z * K) := λ s s',
  (s.1 <? s'.1)%Z || bool_decide (s.1 = 0%Z) && bool_decide (s'.1 = 0%Z) && less s.2 s'.2.

Lemma list_less_spec s s' : list_less s s' = true ↔
  (s.1 < s'.1)%Z ∨ s.1 = 0%Z ∧ s'.1 = 0%Z ∧ less s.2 s'.2 = true.
Proof.
  unfold list_less. rewrite orb_true_iff, !andb_true_iff, !bool_decide_eq_true, Z.ltb_lt. tauto.
Qed.

Lemma list_same_spec s s' : same_key list_less s s' = true ↔
  s.1 = s'.1 ∧ (s.1 = 0%Z → same_key less s.2 s'.2 = true).
Proof.
  rewrite !same_key_spec, <-!not_true_iff_false, !list_less_spec, !not_true_iff_false.
  destruct (less s.2 s'.2), (less s'.2 s.2); split; intros H; split_and!; try lia; intuition lia.
Qed.

Context `{!WeakOrder less}.

Lemma list_less_weak : WeakOrder list_less.
Proof.
  split.
  - intros a. apply not_true_iff_false. rewrite list_less_spec, less_irrefl. intros [?|(_ & _ & ?)]; [lia|done].
  - intros a b c. rewrite !list_less_spec. intros [?|(? & ? & H1)] [?|(? & ? & H2)]; try (left; lia).
    right. split; [done|]. split; [done|]. by eapply less_trans.
  - intros a b c. rewrite !list_less_spec. intros [?|(Ha & Hc & H)].
    + destruct (decide (a.1 < b.1)%Z); [by left; left|]. right. left. lia.
    + destruct (Z.lt_trichotomy b.1 0) as [?|[Hb|?]]; [right; left; lia| |left; left; lia].
      destruct (less_split a.2 b.2 c.2 H); [left|right]; by right.
Qed.

#[export] Instance list_order : NodeOrder less (Z * K).
Proof.
  refine {| node_less := list_less; key_of s := if bool_decide (s.1 = 0%Z) then Some s.2 else None;
    sig_for k := (0%Z, k); node_ok s := s.1 = (-1)%Z ∨ s.1 = 0%Z ∨ s.1 = 1%Z;
    bounded s := (s.1 < 1)%Z |}.
  - exact list_less_weak.
  - done.
  - intros k. by right; left.
  - intros s s' k k' _ _ Hs Hs'. repeat case_bool_decide; simplify_eq.
    apply eq_true_iff_eq. rewrite list_same_spec. split; [by intros [_ Hk]; apply Hk|].
    intros Hk. split; [congruence|done].
  - intros s s' _ _ [Hk _]%list_same_spec [k Hs]. repeat case_bool_decide; [by eexists|congruence|done..].
  - intros s s' [?|(? & ? & _)]%list_less_spec; lia.
  - intros s s' _ _ [k Hs]. case_bool_decide; [lia|done].
Defined.
End instances.

(** [NewList] adds two nodes for each list; an operation needs one traversal, and
    the allowance has one more for its other steps. *)
Definition list_capacity (nlists : nat) {K} : Capacity (Z * K) :=
  {| nbase := 2 * nlists; nblanks := 0; blank _ := None; nrounds := 2 |}.

(** The code is that of ListCommon.v. *)
Section common.
Context {K V : Type} (less : Less K).
Abbreviation mem := (mem (K:=K) (V:=V)).

Lemma get_eq n : get n = Common.get n :> prog mem _.
Proof. apply bind_ext. by intros []. Qed.

Lemma getReference_eq n : getReference n = Common.getReference n :> prog mem _.
Proof. apply bind_ext. by intros []. Qed.

Lemma compareAndSet_eq n e r em nm :
  compareAndSet n e r em nm = Common.compareAndSet n e r em nm :> prog mem _.
Proof. apply bind_ext. by intros []. Qed.

Lemma unlink_eq pred curr succ marked :
  unlink pred curr succ marked = Common.unlink pred curr succ marked :> prog mem _.
Proof.
  unfold unlink, Common.unlink. apply loop_ext.
  intros [[c s] [|]]; [|done]. rewrite compareAndSet_eq. apply bind_ext. intros [|]; [|done].
  cbn beta iota delta [negb]. by rewrite get_eq.
Qed.

Lemma search_eq l x :
  search less l x =
    Common.search (act (load_at lists l l_head)) (λ n, keyLess less n x) :> prog mem _.
Proof.
  unfold search, Common.search. apply loop_ext. intros _.
  apply bind_ext. intros pred. rewrite getReference_eq. apply bind_ext. intros curr.
  f_equal. unfold traverse, Common.traverse. apply loop_ext.
  intros [p c]. rewrite get_eq. apply bind_ext. intros sm. rewrite unlink_eq. done.
Qed.
End common.
End MList.
