(* ===== verification/ListMethods.v ===== *)
(** The methods of the lock-free list, proved against the abstract map. *)

From S2P Require Export ListOps ListCode.
Export MList.
Local Open Scope prog_scope.

Section methods.
Context {K V : Type} (zeroV : V) (less : Less K) `{!WeakOrder less}.
Context (bucket : K → nat) (nlists : nat).
Context (Hbucket : ∀ k1 k2, same_key less k1 k2 = true → bucket k1 = bucket k2).
Context (Hrange : ∀ k, bucket k < nlists).
#[local] Instance capacity : Capacity (Z * K) := list_capacity nlists.
Abbreviation Sp := (lmap_spec zeroV (same_key less) (ascending_range (V:=V) less)).
Abbreviation mem := (mem (K:=K) (V:=V)).
Abbreviation aux := (list_aux V).
Abbreviation world := (world mem (lmap_op K V) (lmap_resp K V) aux).
Abbreviation Inv := (Inv zeroV less bucket nlists).
Abbreviation proto := (list_proto zeroV less bucket nlists).
Abbreviation rely := (pr_rely proto).
Abbreviation good_step := (good_step proto).
Abbreviation missing := (missing zeroV less).
Abbreviation finds_on := (finds_on zeroV less bucket).
Abbreviation with_commit := (with_commit zeroV less).
Abbreviation answered := (answered zeroV less).
Abbreviation over t o := (over 0 t o (λ _, True)).
Abbreviation sig k := (sig_for less k : Z * K).
Abbreviation pg := (LockFreeIn allowance).
Abbreviation wp t Q := (Logic.wp Sp proto pg t Q).
Implicit Types (w : world) (t u n : nat) (l x y p : loc) (k : K) (v : V) (m : mem).
Implicit Types (o : lmap_op K V) (s : Z * K) (c : option loc).

(** ** The code meets the generic proofs *)

Section thread.
Context (t : nat) {A : Type} (Q : budget → A → world → Prop).

Lemma wp_listNode {B} l b s n L (f : listNode → B) q w :
  1 ≤ n → pub l b s w →
  (∀ w' nd, rely t w w' → Inv w' → nodes (w_mem w') !! l = Some nd → (ln_kind nd, ln_key nd) = s →
     wp t Q (Refill (n - 1) L) (q (f nd)) w') →
  wp t Q (Refill n L) (Act (load_at nodes l f) q) w.
Proof. exact (wp_node zeroV less bucket nlists t Q l b s n L f q w). Qed.

Lemma wp_keyLess l b s k n L q w :
  1 ≤ n → pub l b s w → wp t Q (Refill (n - 1) L) (q (node_less less s (sig k))) w →
  wp t Q (Refill n L) (bind (keyLess less (Some l) k) q) w.
Proof.
  intros Hn Hl Hq. unfold keyLess. wp_pure. eapply wp_listNode; [done|exact Hl|].
  intros w' nd HR HI _ Hs. cbn [bind fst snd].
  pose proof (pub_kind _ _ _ _ _ _ _ _ HI (pub_stable _ _ _ _ HR _ _ _ Hl)) as Hok.
  replace (if bool_decide (ln_kind nd = (-1)%Z) then true else
    if bool_decide (ln_kind nd = 1%Z) then false else less (ln_key nd) k)
    with (node_less less s (sig k)); [by eapply wp_stable|].
  rewrite <-Hs in Hok |- *. simpl. unfold list_less. simpl in *.
  destruct Hok as [->|[->| ->]]; simpl; done.
Qed.

Lemma wp_keyEqual l b s k n L q w :
  1 ≤ n → pub l b s w → wp t Q (Refill (n - 1) L) (q (holds less s (sig k))) w →
  wp t Q (Refill n L) (bind (keyEqual less (Some l) k) q) w.
Proof.
  intros Hn Hl Hq. unfold keyEqual. wp_pure. eapply wp_listNode; [done|exact Hl|].
  intros w' nd HR HI _ Hs. cbn [bind fst snd].
  pose proof (pub_kind _ _ _ _ _ _ _ _ HI (pub_stable _ _ _ _ HR _ _ _ Hl)) as Hok.
  replace (if negb (bool_decide (ln_kind nd = 0%Z)) then false else
    negb (less (ln_key nd) k) && negb (less k (ln_key nd)))
    with (holds less s (sig k)); [by eapply wp_stable|].
  rewrite <-Hs in Hok |- *. unfold holds, same_key. simpl. unfold list_less. simpl in *.
  destruct Hok as [->|[->| ->]]; simpl; done.
Qed.

Lemma wp_load_val l b s n L q w :
  1 ≤ n → pub l b s w → is_Some (key_of less s) →
  (∀ w' v, rely t w w' → Inv w' → val_of (w_mem w') l = Some v →
     wp t Q (Refill (n - 1) L) (q v) w') →
  wp t Q (Refill n L) (bind (load_val (Some l)) q) w.
Proof.
  intros Hn Hl [k Hk] Hq. unfold load_val. wp_pure. eapply wp_listNode; [done|exact Hl|].
  intros w' nd HR HI Hnd Hs.
  destruct (pub_value _ _ _ _ w' l b s k HI) as [v Hv]; [by eapply pub_stable|done|].
  specialize (Hq w' v HR HI Hv). change (node_at (w_mem w') l = Some nd) in Hnd.
  unfold val_of in Hv. rewrite Hnd in Hv. simpl in Hv.
  by rewrite Hv.
Qed.

(** The head is where a search starts. *)
Lemma wp_head b k n L q w :
  b = bucket k → 1 ≤ n → Inv w →
  (∀ w' p sp, rely t w w' → Inv w' → pub p b sp w' → key_of less sp = None →
     node_less less sp (sig k) = true → wp t Q (Refill (n - 1) L) (q p) w') →
  wp t Q (Refill n L) (bind (act (load_at lists b l_head)) q) w.
Proof using Hrange.
  intros -> Hn HI Hq. wp_pure. eapply wp_load_at; [by apply spend|]. intros w1 HR1 HI1.
  destruct (lookup_lt_is_Some_2 (lists (w_mem w1)) (bucket k)) as [lst Hlst].
  { pose proof (i_lists _ _ _ _ _ HI1) as Hlen. simpl in Hlen. rewrite length_fmap in Hlen.
    rewrite Hlen. apply Hrange. }
  exists lst. split; [done|].
  destruct (i_head _ _ _ _ _ HI1 (bucket k) (l_head lst)) as (Hh & s & Hs & Hk & Hlt).
  { simpl. by rewrite list_lookup_fmap, Hlst. }
  by eapply Hq.
Qed.

(** A change of the length of a list. *)
Lemma wp_list_length l d n L q w :
  1 ≤ n → l < nlists →
  (∀ w' z, (∀ x, keeps zeroV less bucket nlists t x w w') → Inv w' → wp t Q (Refill (n - 1) L) (q z) w') →
  wp t Q (Refill n L) (Act (add_u64_at lists_f l length_f d) q) w.
Proof.
  intros Hn Hl Hq. eapply wp_step_to; [by apply spend|]. intros w1 HR1 HI1.
  destruct (lookup_lt_is_Some_2 (lists (w_mem w1)) l) as [lst Hlst].
  { pose proof (i_lists _ _ _ _ _ HI1) as Hlen. simpl in Hlen. rewrite length_fmap in Hlen. lia. }
  set (m' := f_set lists_f (<[l := f_set length_f (u64 (l_length lst + d)) lst]>
    (lists (w_mem w1))) (w_mem w1)).
  assert (∀ x, own_step zeroV less bucket nlists t x w1 (upd Sp w1 m' [] (w_aux w1))) as Hown.
  { intros x. apply own_step_same; try done. unfold m'. simpl. rewrite list_fmap_insert. simpl.
    apply list_insert_id. by rewrite list_lookup_fmap, Hlst. }
  eexists _, m', [], (w_aux w1). split; [|split; [apply (Hown 0)|]].
  - unfold add_u64_at. simpl. by rewrite Hlst.
  - apply Hq; [|apply (Hown 0)]. intros x. trans w1; [by apply rely_keeps|by apply own_keeps].
Qed.
End thread.

(** A node comes after each key, the tail if no other. *)
Lemma ends_ok k : bounded less (sig k).
Proof. simpl. lia. Qed.

Lemma bucket_sig k k' : key_of less (sig k) = Some k' → bucket k' = bucket k.
Proof. rewrite sig_for_key. by intros [= ->]. Qed.

(** A search for a key ends at a node. *)
Lemma wp_search_key t o k P {A} (Q : budget → A → world → Prop) n L q w :
  (∀ x s w w', rely t w w' → P x s w → P x s w') →
  (∀ x s w, Inv w → ready t o w → pub x (bucket k) s w →
    dead (w_aux w) !! x = None → node_less less s (sig k) = false →
    (holds less s (sig k) = false → missing t (sig k) w) → finds_on t (sig k) (bucket k) (λ _, True) x w →
    ∃ cm, good_step t w (with_commit w cm) ∧ P x s (with_commit w cm)) →
  over t o (Refill (n + 1) L) w →
  (∀ w' p sp c x B n', Inv w' →
     hit zeroV less 0 t o (sig k) (bucket k) P p sp c (Some x) (w_len w') B n' w' →
     wp t Q (Refill n' (w_len w')) (q (Some p, Some x)) w') →
  wp t Q (Refill n L) (bind (search less (bucket k) k) q) w.
Proof using Hbucket Hrange WeakOrder0.
  intros HP Hhook Hov Hq. apply over_spend in Hov as (Hr & HL & _ & Hn).
  rewrite Nat.add_sub in Hn. rewrite search_eq.
  unshelve eapply (wp_attempt zeroV less bucket nlists Hbucket Hrange 0 _ t o (sig k) (bucket k)
    (sig_for_ok k) (bucket_sig k) _ (λ _, True) _ _ P HP); try done.
  { intros x s w1 HI1 [? _] ? ? ? ? ?. by apply Hhook. }
  { intros A' Q' x s n' L' q' w1 Hn' HI1 Hx _ Hq'. eapply wp_keyLess; [lia|exact Hx|].
    by eapply wp_less; [|exact Hq']; lia. }
  { intros. by eapply wp_head. }
  intros w' p sp c [x|] B n' HI _ Hhit; [by eapply Hq|].
  by destruct Hhit as (_ & _ & _ & _ & [] & _).
Qed.
(** ** [Set] *)

Lemma Set_wp t k v (bu : budget) w :
  over t (MSet k v) bu w → wp t (post Sp proto t) bu (Set_ less (bucket k) k v) w.
Proof using Hbucket Hrange WeakOrder0.
  intros Hov. unfold Set_, loop.
  apply (wp_loop Sp proto pg t _ (λ bu _ w, over t (MSet k v) bu w));
    [|intros ? _ ? ? ? ?; by eapply over_stable|done].
  clear bu w Hov. intros bu _ w Hov _. pose proof Hov as (n & L & -> & (Hn & _) & _).
  eexists. split; [by apply spend|].
  apply (wp_search_key t (MSet k v) k (set_found less t k v));
    [intros ????; by eapply set_found_stable|intros ??????? _ _ _; by eapply set_hook|
     by rewrite Nat.sub_add|].
  clear L n w Hn Hov. intros w p sp c x B n HI Hhit. set (L := w_len w) in *.
  pose proof Hhit as (_ & _ & _ & _ & (sx & Hx & Hbx & _ & HPx & Hn)).
  eapply wp_keyEqual; [lia|exact Hx|]. unfold set_found in HPx.
  destruct (holds less sx (sig k)) eqn:Hh; cbn [fst snd].
  { wp_pure. eapply (wp_set_value (Shape0:=list_shape) _ _ _ _ Hbucket Hrange t _ k v);
      [lia|done|]. intros w1 Ha.
    apply wp_ret. intros w2 HR2 _. apply list_return with (MSet k v).
    by eapply answered_stable. }
  assert (spot less 0 (bucket k) (sig k) p sp c (Some x) L B w) as Hspot.
  { eapply hit_spot; [exact Hhit|]. intros x' s [= <-] [_ Hs]. destruct Hx as [_ Hsx].
    rewrite Hsx in Hs. by injection Hs as <-. }
  wp_pure. eapply (wp_new_node (Shape0:=list_shape) zeroV less bucket nlists t _
    (ListNode k None 0 None)); [lia|].
  intros w1 l HI1 Hk1 Hl1 _.
  eapply (wp_store_private (Shape0:=list_shape) zeroV less bucket nlists t _ l _ val_f (Some v));
    [lia|exact Hl1|].
  intros w2 HI2 Hk2 Hl2.
  eapply (wp_set_private (Shape0:=list_shape) zeroV less bucket nlists t _ l _ (Some x));
    [lia|exact Hl2|].
  intros w3 cl HI3 Hk3 Hl3 Hcl. rewrite compareAndSet_eq.
  assert (keeps zeroV less bucket nlists t l w w3) as Hk by (trans w1; [done|by trans w2]).
  pose proof (ready_keeps _ _ _ _ _ _ _ _ _ Hk HPx) as Hr3.
  eapply (wp_link_key zeroV less bucket nlists Hbucket Hrange 0 t _ k v p sp c (Some x) l _ cl _ L B);
    [lia|done|done|exact (spot_keeps _ _ _ _ _ _ _ _ _ _ _ _ _ _ _ _ _ Hk Hspot)|exact Hl3|done..| |].
  - intros w4 HI4 Ha4. wp_pure. eapply wp_list_length; [lia|apply Hrange|].
    intros w5 _ Hk5 HI5. apply wp_ret. intros w6 HR6 _. apply list_return with (MSet k v).
    eapply answered_stable; [exact HR6|]. eapply answered_keeps; [exact (Hk5 l)|exact Ha4].
  - intros w4 n4 HR4 HI4 Hcan Hn4. cbn beta iota. apply wp_ret. intros w5 HR5 _.
    eapply over_again; [exact HR5| |exact Hcan|lia]. by eapply list_ready_stable.
Qed.

(** ** [Get] *)

Lemma from_head_eq {A} l (f : loc → option loc → prog mem A) :
  (let! p := act (load_at lists l l_head) in let! c := getReference (Some p) in f p c) =
  (let! p := act (load_at lists l l_head) in let! c := Common.getReference (Some p) in f p c).
Proof. apply bind_ext. intros p. by rewrite getReference_eq. Qed.

Section get.
Context (t : nat) (o : lmap_op K V) (k : K).
Abbreviation get_found := (get_found zeroV less t o k (bucket k)).
Abbreviation visited := (visited zeroV less bucket 0 t o (sig k) (bucket k) (λ _, True) (λ _, True) get_found).
Abbreviation ahead := (ahead zeroV less bucket t o (sig k) (bucket k) (λ _, True) (λ _, True)).
Abbreviation walk s d n L := (walk less s d 0 n L).
Abbreviation some_left := some_left.

Lemma get_visited_stable x s (succ : option loc) marked L B w w' :
  rely t w w' → visited x s succ marked L B w → visited x s succ marked L B w'.
Proof using WeakOrder0.
  exact (visited_stable zeroV less bucket nlists 0 t o (sig k) (bucket k) (λ _, True) (λ _, True)
    (λ _ _ _ _, I) get_found (get_found_stable zeroV less bucket nlists t o k (bucket k))
    w w' x s succ marked L B).
Qed.

(** Reading on: [curr] is ahead, or just read. *)
Definition reading (bu : budget) (curr : option loc) w : Prop :=
  ∃ n L x s, bu = Refill n L ∧ 1 ≤ n ∧ curr = Some x ∧ ahead x s w ∧ walk s 30 n L w.

Definition skipping d (bu : budget) (z : option loc * option loc * bool) w : Prop :=
  ∃ n L x s L' B', bu = Refill n L ∧ z.1.1 = Some x ∧ visited x s z.1.2 z.2 L' B' w ∧
    walk s d n L w.

Lemma reading_stable (bu : budget) (curr : option loc) w w' :
  rely t w w' → reading bu curr w → reading bu curr w'.
Proof using WeakOrder0.
  intros HR (n & L & x & s & ? & ? & ? & Ha & Hw). exists n, L, x, s. do 3 (split; [done|]).
  split; [by eapply (ahead_stable zeroV less bucket nlists)|by eapply walk_stable].
Qed.

Lemma skipping_stable d (bu : budget) (z : option loc * option loc * bool) w w' :
  rely t w w' → skipping d bu z w → skipping d bu z w'.
Proof using WeakOrder0.
  intros HR (n & L & x & s & L' & B' & ? & ? & Hv & Hw). exists n, L, x, s, L', B'.
  do 2 (split; [done|]).
  split; [by eapply get_visited_stable|by eapply walk_stable].
Qed.

(** Reading the node after [s]. *)
Lemma wp_read_next {A} (Q : budget → A → world → Prop) x s d n L q w :
  2 ≤ n → ahead x s w → w_len w = L → 20 * above less w s + d + 2 ≤ n →
  (∀ w' succ marked, skipping d (Refill (n - 2) L) (Some x, succ, marked) w' →
     wp t Q (Refill (n - 2) L) (q (succ, marked)) w') →
  wp t Q (Refill n L) (bind (get (Some x)) q) w.
Proof using WeakOrder0.
  intros Hn Ha HL Hd Hq. rewrite get_eq.
  eapply (wp_visit zeroV less bucket nlists 0 t o (sig k) (bucket k) (λ _, True) (sig_for_ok k)
    (λ _, ends_ok k) (λ _, True) ltac:(done) ltac:(done) get_found
    (λ x s w HI Ha Hx Hd Hlt Hm _, get_hook zeroV less bucket nlists t o k (bucket k) x s w HI
      (proj1 Ha) Hx Hd Hlt Hm)
    Q x s n L (unrest w * traversal L)); [lia|done|lia|by rewrite Nat.add_0_r|].
  intros w1 cm succ marked HR1 HI1 Hv. apply Hq.
  exists (n - 2), L, x, s, L, (unrest w * traversal L). do 3 (split; [done|]).
  subst L. assert (walk s d (n - 2) (w_len w) w1) as Hwalk.
  { eapply (walk_intro zeroV less bucket nlists); [exact HR1|lia]. }
  exact Hwalk.
Qed.

Lemma wp_skip_marked (bu : budget) (curr succ : option loc) (marked : bool) w :
  skipping 20 bu (curr, succ, marked) w → some_left bu →
  wp t (λ bu r w, skipping 19 bu (r.1, r.2, false) w) bu (skip_marked curr succ marked) w.
Proof using WeakOrder0.
  intros Hsk Hbu. unfold skip_marked, loop.
  apply (wp_loop Sp proto pg t _ (λ (bu : budget) (z : option loc * option loc * bool) w,
    skipping 20 bu z w ∧ some_left bu));
    [|intros b1 z w1 w2 [? ?] ?; split; [by eapply skipping_stable|done]|done].
  clear bu curr succ marked w Hsk Hbu. intros bu [[curr succ] marked] w
    [(n & L & x & s & L' & B' & -> & Hcx & Hv & Hw) (? & ? & [= <- <-] & Hn)] _.
  simpl in Hcx, Hv. subst curr. eexists. split; [by apply spend|]. cbn beta iota.
  apply (walk_spend _ _ _ 19 _ _ (n - 1)) in Hw; [|lia]. destruct marked.
  - destruct Hv as (Hx & _ & _ & _ & Hnext).
    destruct succ as [y|]; [destruct Hnext as (sy & Hlt & Hy)|by destruct Hnext].
    eapply (wp_walk zeroV less bucket nlists 0); [done| |exact Hw|]; [lia|].
    intros w1 B1 n1 HR1 HI1 _ Hn1.
    assert (ahead y sy w1) as Hy1 by by eapply (ahead_stable zeroV less bucket nlists).
    pose proof (above_lt less w1 s y _ sy (proj1 Hy1) Hlt).
    eapply (wp_read_next _ y sy 20); [lia|exact Hy1|done|lia|].
    intros w2 succ marked Hsk. apply wp_ret. intros w3 HR3 _. split.
    + by eapply skipping_stable.
    + eexists _, _. split; [done|lia].
  - apply wp_ret. intros w1 HR1 _. apply wp_ret. intros w2 HR2 _.
    apply (skipping_stable _ _ _ w1); [done|]. apply (skipping_stable _ _ _ w); [done|].
    by exists (n - 1), L, x, s, L', B'.
Qed.

(** Reading [k] itself. *)
Definition get_post (bu : budget) (r : V * bool) w : Prop :=
  ∃ n L, bu = Refill n L ∧ got zeroV less t o k r w.

Lemma get_post_stable (bu : budget) (r : V * bool) w w' :
  rely t w w' → get_post bu r w → get_post bu r w'.
Proof. intros HR (n & L & ? & ?). exists n, L. split; [done|]. by eapply got_stable. Qed.

Lemma wp_get_decide (bu : budget) (curr succ : option loc) w :
  skipping 19 bu (curr, succ, false) w →
  wp t (λ bu res w, match res with
      | inl a => reading bu a w
      | inr r => wp t get_post bu (Ret r) w
      end) bu
    (let! lt := keyLess less curr k in
     if lt : bool then continue succ
     else
       let! eq := keyEqual less curr k in
       if eq : bool then let! v := load_val curr in break (v, true)
       else break (zeroV, false)) w.
Proof using WeakOrder0.
  intros (n & L & x & s & L' & B' & -> & Hcx & Hv & Hw). simpl in Hcx, Hv. subst curr.
  eapply (wp_walk zeroV less bucket nlists 0); [done| |exact Hw|]; [lia|].
  intros w1 B1 n1 HR1 HI1 _ Hn1.
  assert (visited x s succ false L' B' w1) as (Hx & _ & _ & _ & _ & Hcase)
    by by eapply get_visited_stable.
  eapply wp_keyLess; [lia|exact Hx|]. destruct (node_less less s (sig k)).
  - destruct succ as [y|]; [destruct Hcase as (sy & Hlt & Hy)|by destruct Hcase].
    pose proof (above_lt less w1 s y _ sy (proj1 Hy) Hlt).
    apply wp_ret. intros w2 HR2 _. eapply reading_stable; [exact HR2|].
    exists (n1 - 1), (w_len w1), y, sy. split; [done|]. split; [lia|]. split; [done|].
    split; [done|]. split; [done|]. intros _. lia.
  - eapply wp_keyEqual; [lia|exact Hx|]. destruct Hcase as (Hr & _ & Hf).
    destruct (holds less s (sig k)) eqn:Hh.
    + destruct Hf as [Hks Hf].
      eapply wp_load_val; [lia|exact Hx|done|]. intros w2 v HR2 HI2 Hval.
      apply wp_ret. intros w3 HR3 _. apply wp_ret. intros w4 HR4 _.
      eapply get_post_stable; [exact HR4|]. eapply get_post_stable; [exact HR3|].
      eexists _, _. split; [done|]. eapply (got_value zeroV less bucket nlists); [exact HI2|..].
      * by eapply list_ready_stable.
      * by eapply pub_stable.
      * done.
      * by eapply since_call_stable.
      * done.
    + apply wp_ret. intros w3 HR3 _. apply wp_ret. intros w4 HR4 _.
      eapply get_post_stable; [exact HR4|]. eapply get_post_stable; [exact HR3|].
      eexists _, _. split; [done|]. by eapply got_absent.
Qed.

Lemma Get_wp n L w :
  over t o (Refill n L) w → wp t get_post (Refill n L) (Get zeroV less (bucket k) k) w.
Proof using Hbucket Hrange WeakOrder0.
  intros Hov. pose proof Hov as (n0 & L0 & [= <- <-] & (_ & HL & Hn) & [Hr0 _]).
  eapply (wp_start zeroV less bucket nlists 0 t _ 12); [done|lia|done|done|].
  intros w1 n1 HR1 HI1 Hn1.
  assert (ready t o w1) as Hr by (eapply list_ready_stable; [exact HR1|exact Hr0]).
  unfold Get. rewrite (from_head_eq _ (λ _ curr, loop _ curr)).
  eapply (wp_from_start zeroV less bucket nlists Hbucket Hrange 0 t o (sig k) (bucket k)
    (λ _, True) (sig_for_ok k) (bucket_sig k) (λ _, ends_ok k) (λ _, True) ltac:(done)
    (act (load_at lists (bucket k) l_head)));
    [intros; by eapply wp_head|done|done|lia|].
  clear n L w Hr0 Hov HL Hn w1 n1 HR1 HI1 Hn1 Hr.
  intros w bu p curr HI (L & B & n & ? & sp & c & -> & Hn & [= <-] & Hp & Hnext).
  destruct Hp as (_ & Hlt & _ & _ & Hwalk).
  destruct curr as [x|]; [destruct Hnext as (sx & Hlt' & Ha)|by destruct Hnext as [[] _]].
  apply (wp_loop Sp proto pg t _ reading); [|intros ? ? ? ? ? ?; by eapply reading_stable|].
  - clear L B n p sp c x sx HI Hn Ha Hlt Hlt' Hwalk w.
    intros bu curr w (n & L & x & s & -> & Hn & -> & Ha & Hw) HI.
    eexists. split; [by apply spend|]. apply (walk_spend _ _ _ 29 _ _ (n - 1)) in Hw; [|lia].
    eapply (wp_walk zeroV less bucket nlists 0); [done| |exact Hw|]; [lia|].
    intros w1 B1 n1 HR1 HI1 _ Hn1.
    assert (ahead x s w1) as Ha1 by by eapply (ahead_stable zeroV less bucket nlists).
    eapply (wp_read_next _ x s 20); [lia|exact Ha1|done|lia|].
    intros w2 succ marked Hsk. apply wp_bind.
    eapply wp_mono; [|apply (wp_skip_marked _ _ _ _ _ Hsk); eexists _, _; split; [done|lia]].
    intros b' [curr' succ'] w3 _ Hsk'. by apply wp_get_decide.
  - exists n, L, x, sx. split; [done|]. split; [done|]. split; [done|]. split; [done|].
    destruct Hwalk as [? Hwalk]. split; [done|]. intros E. specialize (Hwalk E).
    pose proof (above_lt less w sp x _ sx (proj1 Ha) Hlt'). lia.
Qed.
End get.

Lemma Contains_wp t k n L w :
  over t (MContains k) (Refill n L) w →
  wp t (λ (bu : budget) r w, answered t (MContains k) (MRBool r) w) (Refill n L)
    (Contains zeroV less (bucket k) k) w.
Proof using Hbucket Hrange WeakOrder0.
  intros Hov. unfold Contains. apply wp_bind. eapply wp_mono; [|by apply Get_wp].
  intros bu r w1 _ (? & ? & _ & Hg). apply wp_ret. intros w2 HR2 _.
  eapply answered_stable; [exact HR2|]. by apply got_contains.
Qed.

(** ** [Del] *)

Lemma mark_eq {A} (p c : option loc) (again : prog mem A) (q : V → prog mem A) :
  (let! sm := get c in
   if sm.2 : bool then again
   else
     let! ok := compareAndSet c sm.1 sm.1 false true in
     if negb ok then again
     else
       let! value := load_val c in
       compareAndSet p c sm.1 false false ;;; q value) =
  (let! sm := Common.get c in
   if sm.2 : bool then again
   else
     let! ok := Common.compareAndSet c sm.1 sm.1 false true in
     if negb ok then again
     else
       let! value := load_val c in
       Common.compareAndSet p c sm.1 false false ;;; q value).
Proof.
  rewrite get_eq. apply bind_ext. intros [r [|]]; [done|]. cbn beta iota delta [snd].
  rewrite compareAndSet_eq. apply bind_ext. intros [|]; [|done]. cbn beta iota delta [negb].
  apply bind_ext. intros v. by rewrite compareAndSet_eq.
Qed.

Lemma Del_wp t k (bu : budget) w :
  over t (MDel k) bu w → wp t (del_post zeroV less t k) bu (Del zeroV less (bucket k) k) w.
Proof using Hbucket Hrange WeakOrder0.
  intros Hov. unfold Del, loop.
  apply (wp_loop Sp proto pg t _ (λ bu _ w, over t (MDel k) bu w));
    [|intros ? _ ? ? ? ?; by eapply over_stable|done].
  clear bu w Hov. intros bu _ w Hov _. pose proof Hov as (n & L & -> & (Hn & _) & _).
  eexists. split; [by apply spend|].
  apply (wp_search_key t (MDel k) k (del_found zeroV less t k));
    [apply del_found_stable|intros * ? ? ? ? ? ? _; by eapply del_hook|by rewrite Nat.sub_add|].
  clear L n w Hn Hov. intros w p sp c x B n HI (Hp & _ & Hc & Hw & sx & Hx & _ & Hsure & [Hr Ha] & Hn).
  eapply wp_keyEqual; [lia|exact Hx|]. cbn [fst snd].
  destruct (holds less sx (sig k)) eqn:Hh; cbn beta iota delta [negb].
  - rewrite (mark_eq _ _ (continue tt) (λ value, act (add_u64_at lists_f (bucket k) length_f
      (two64 - 1)) ;;; break (value, true))).
    eapply (wp_del_mark zeroV less bucket nlists Hbucket Hrange t k (bucket k) load_val);
      [intros; by eapply wp_load_val|done|exact Hr|exact Hp|exact Hc|exact Hw|exact Hx|done|
       exact Hsure|lia|..].
    + intros w1 n1 _ Hov. apply wp_ret. intros w2 HR2 _. by eapply over_stable.
    + intros w1 n1 v Hans Hn1. wp_pure. eapply wp_list_length; [lia|apply Hrange|].
      intros w2 _ Hk2 _. apply wp_ret. intros w3 HR3 _. apply wp_ret. intros w4 HR4 _.
      eapply answered_stable; [exact HR4|]. eapply answered_stable; [exact HR3|].
      eapply answered_keeps; [exact (Hk2 0)|exact Hans].
  - apply wp_ret. intros w1 HR1 _. apply wp_ret. intros w2 HR2 _.
    eapply answered_stable; [exact HR2|]. eapply answered_stable; [exact HR1|].
    apply del_finds_none; [done|by apply Ha].
Qed.
(** ** [Len] and [Range] *)

Lemma wp_Len t {A} (Q : budget → A → world → Prop) l n L q w :
  1 ≤ n → l < nlists →
  (∀ w' z, rely t w w' → wp t Q (Refill (n - 1) L) (q z) w') →
  wp t Q (Refill n L) (bind (Len l) q) w.
Proof.
  intros Hn Hl Hq. unfold Len. wp_pure. eapply wp_load_at; [by apply spend|].
  intros w1 HR1 HI1.
  destruct (lookup_lt_is_Some_2 (lists (w_mem w1)) l) as [lst Hlst].
  { pose proof (i_lists _ _ _ _ _ HI1) as Hlen. simpl in Hlen. rewrite length_fmap in Hlen. lia. }
  exists lst. split; [done|]. by apply Hq.
Qed.

Section range.
Context (t : nat) (from to : K).
Abbreviation o := (MRange from to : lmap_op K V).

Abbreviation seen := (seen zeroV less t from to).
Abbreviation covers := (covers zeroV less bucket t from to (bucket from)).
Abbreviation ranged := (ranged zeroV less bucket t from to (bucket from)).

(** What the search finds. *)
Definition range_found (x : loc) (s : Z * K) w : Prop :=
  ready t o w ∧ pub x (bucket from) s w ∧ covers x [] w.

Lemma range_found_stable x s w w' : rely t w w' → range_found x s w → range_found x s w'.
Proof using WeakOrder0.
  intros HR (Hr & Hx & Hc). split; [by apply (list_ready_stable _ _ _ _ HR)|].
  split; [by apply (pub_stable _ _ _ _ HR)|].
  exact (covers_stable _ _ _ _ _ _ _ _ _ _ _ _ _ HR Hr Hx Hc).
Qed.

Lemma sig_less k1 k2 : node_less less (sig k1) (sig k2) = less k1 k2.
Proof. apply eq_true_iff_eq. simpl. rewrite list_less_spec. simpl. intuition lia. Qed.

(** The calls so far, with [x] the next node. *)
Definition called s (calls : list (K * V)) : Prop :=
  ascending_range less from to calls ∧ Forall (λ kv, node_less less (sig kv.1) s = true) calls.

Definition ranging (bu : budget) (z : option loc * list (K * V)) w : Prop :=
  ∃ n L x s, bu = Refill n L ∧ 1 ≤ n ∧ z.1 = Some x ∧ pub x (bucket from) s w ∧ ready t o w ∧
    node_less less s (sig from) = false ∧ called s z.2 ∧ walk less s 20 0 n L w ∧
    seen z.2 w ∧ covers x z.2 w.

Lemma ranging_stable (bu : budget) (z : option loc * list (K * V)) w w' :
  rely t w w' → ranging bu z w → ranging bu z w'.
Proof using WeakOrder0.
  intros HR (n & L & x & s & ? & ? & ? & Hx & Hr & ? & ? & Hw & Hs & Hc). exists n, L, x, s.
  do 3 (split; [done|]). split; [by eapply pub_stable|]. split; [by eapply list_ready_stable|].
  do 2 (split; [done|]). split; [by eapply walk_stable|].
  split; [exact (range_seen_stable _ _ _ _ _ _ _ _ _ _ HR Hs)|].
  exact (covers_stable _ _ _ _ _ _ _ _ _ _ _ _ _ HR Hr Hx Hc).
Qed.

(** After the tail, and after a key that is not below [to], nothing is wanted. *)
Lemma past_wanted (s : Z * K) k :
  (s.1 = 1%Z ∨ s.1 = 0%Z ∧ less s.2 to = false) →
  less k to = true → node_less less (sig k) s = true.
Proof using WeakOrder0.
  intros Hs Hk. simpl. apply list_less_spec. simpl. destruct Hs as [->|[-> Hto]]; [left; lia|right].
  split; [done|]. split; [done|]. destruct (less_split _ s.2 _ Hk); [done|congruence].
Qed.

Lemma past_head (s : Z * K) :
  node_ok less s → node_less less s (sig from) = false → s.1 ≠ 0%Z → s.1 = 1%Z.
Proof.
  intros Hok Hb H0. apply not_true_iff_false in Hb. simpl in Hok, Hb. rewrite list_less_spec in Hb.
  simpl in Hb. destruct Hok as [Hk|[?|?]]; [destruct Hb; left; lia|done|done].
Qed.

(** Going on to a later node. *)
Lemma called_next s s' calls : node_less less s s' = true → called s calls → called s' calls.
Proof using WeakOrder0.
  intros Hlt [? Hc]. split; [done|]. eapply Forall_impl; [exact Hc|].
  intros kv Hcs. exact (less_trans _ _ _ Hcs Hlt).
Qed.

Lemma below_next s s' : node_less less s s' = true →
  node_less less s (sig from) = false → node_less less s' (sig from) = false.
Proof using WeakOrder0.
  intros Hlt Hb. destruct (node_less less s' (sig from)) eqn:H; [|done].
  by rewrite (less_trans _ _ _ Hlt H) in Hb.
Qed.

Lemma called_more k' v calls s' :
  node_less less (sig k') (sig from) = false → less k' to = true →
  node_less less (sig k') s' = true → called (sig k') calls → called s' (calls ++ [(k', v)]).
Proof using WeakOrder0.
  intros Hf Ht Hlt [[Hsorted Hin] Hc]. split; [split|].
  - apply (sorted_app less calls (k', v) []). split; [done|]. split; [constructor|].
    split; [|done]. eapply Forall_impl; [exact Hc|].
    intros [kc vc]. rewrite sig_less. done.
  - apply Forall_app. split; [done|]. apply Forall_singleton. split; [|done].
    by rewrite sig_less in Hf.
  - apply Forall_app. split; [|by apply Forall_singleton]. eapply Forall_impl; [exact Hc|].
    intros kv Hcs. exact (less_trans _ _ _ Hcs Hlt).
Qed.
(** The traversal ends at [x]. *)
Lemma range_ends x s calls (bu : budget) w :
  Inv w → ready t o w → pub x (bucket from) s w → called s calls → seen calls w →
  covers x calls w → (s.1 = 1%Z ∨ s.1 = 0%Z ∧ less s.2 to = false) →
  wp t (λ _ calls w, ranged calls w) bu (Ret calls) w.
Proof using Hbucket Hrange WeakOrder0.
  intros HI Hr Hx [Ha _] Hs Hc Hlast. apply wp_ret. intros w' HR _.
  eapply ranged_stable; [exact HR|]. split; [done..|].
  eapply (covers_end zeroV less bucket nlists); [done|exact Hx| |done].
  intros k (_ & _ & Hto). by apply past_wanted.
Qed.

(** On to the node [y]. *)
Lemma ranging_next x s y sy calls n w w1 w' :
  rely t w w1 → rely t w1 w' → Inv w1 → ready t o w → pub x (bucket from) s w1 →
  pub y (bucket from) sy w1 → node_less less s sy = true → node_less less s (sig from) = false →
  called sy calls → seen calls w' → covers y calls w1 →
  20 * above less w s ≤ n → 1 ≤ n → ranging (Refill n (w_len w)) (Some y, calls) w'.
Proof using Hbucket Hrange WeakOrder0.
  intros HR1 HR HI Hr Hx Hy Hlt Hfrom Hc Hs Hcov Hn H1. exists n, (w_len w), y, sy.
  assert (ready t o w1) as Hr1 by by eapply list_ready_stable.
  do 3 (split; [done|]). split; [by eapply pub_stable|]. split; [by eapply list_ready_stable|].
  split; [by eapply below_next|]. split; [done|]. split.
  - eapply (walk_stable zeroV less bucket nlists); [exact HR|].
    split; [exact (r_len _ _ _ _ _ HR1)|]. intros E.
    pose proof (above_lt less w1 s y _ sy Hy Hlt).
    pose proof (above_stable zeroV less bucket nlists t w w1 s HR1 E). lia.
  - split; [done|]. exact (covers_stable _ _ _ _ _ _ _ _ _ _ _ _ _ HR Hr1 Hy Hcov).
Qed.

(** At the end of a round. *)
Definition range_round (bu : budget) (res : option loc * list (K * V) + list (K * V)) w : Prop :=
  match res with
  | inl z => ranging bu z w
  | inr calls => wp t (λ _ calls w, ranged calls w) bu (Ret calls) w
  end.

(** The node [x] with the key [k] is being visited; its pair is [mk]. *)
Lemma wp_range_node x k mk calls n w0 w :
  rely t w0 w → Inv w → ready t o w0 → pub x (bucket from) (0%Z, k) w0 →
  link (w_mem w) x = Some mk → node_less less (0%Z, k) (sig from) = false →
  called (0%Z, k) calls → seen calls w → covers x calls w →
  20 * above less w0 (0%Z, k) + 10 ≤ n →
  wp t range_round (Refill n (w_len w0))
    (if lm_marked mk then continue (lm_ref mk, calls)
     else
       let! key := act (load_at nodes x ln_key) in
       if negb (less key to) then break calls
       else
         let! v := load_val (Some x) in
         continue (lm_ref mk, calls ++ [(key, v)])) w.
Proof using Hbucket Hrange WeakOrder0.
  intros HR HI Hr0 Hx0 Hlink Hb Hcalled Hseen Hcov Hn.
  assert (ready t o w) as Hr by by eapply list_ready_stable.
  assert (pub x (bucket from) (0%Z, k) w) as Hx by by eapply pub_stable.
  pose proof (pub_pub_ok _ _ _ _ _ _ _ _ _ HI Hx Hlink) as Hok.
  destruct (p_bounded _ _ _ _ _ _ _ _ Hok (ends_ok k)) as [y Hy].
  destruct (p_next _ _ _ _ _ _ _ _ Hok _ Hy) as (Hhy & sy & Hsy & Hlt).
  assert (pub y (bucket from) sy w) as Hpy by done. rewrite Hy.
  destruct (lm_marked mk) eqn:Hm.
  - apply wp_ret. intros w1 HR1 _.
    eapply (ranging_next x (0%Z, k) y sy calls n w0 w w1); try done; [|..|lia].
    + by apply (called_next (0%Z, k)).
    + exact (range_seen_stable _ _ _ _ _ _ _ _ _ _ HR1 Hseen).
    + exact (covers_marked _ _ _ _ _ _ _ _ _ _ _ _ _ _ HI Hx Hlink Hm Hy Hcov).
    + lia.
  - assert (since_call t x w) as Hsince.
    { eapply (alive_since_call t from to); [exact Hr|].
      by apply (pub_sentinel _ _ _ _ _ _ _ _ _ HI Hx Hlink). }
    wp_pure. eapply wp_listNode; [lia|exact Hx|]. intros w1 nd HR1 HI1 _ Hs.
    replace (ln_key nd) with k by congruence.
    assert (pub x (bucket from) (0%Z, k) w1) as Hx1 by by eapply pub_stable.
    destruct (less k to) eqn:Hto; cbn beta iota delta [negb].
    + eapply wp_load_val; [lia|exact Hx1|by eexists|]. intros w2 v HR2 HI2 Hv.
      assert (rely t w w2) as HR02 by by trans w1.
      apply wp_ret. intros w3 HR3 _. assert (rely t w w3) as HR03 by by trans w2.
      eapply (ranging_next x (0%Z, k) y sy _ _ w0 w w3); try done; [|..|lia].
      * by apply called_more.
      * apply (range_seen_stable _ _ _ _ _ _ _ _ _ _ HR3), seen_more.
        { exact (range_seen_stable _ _ _ _ _ _ _ _ _ _ HR02 Hseen). }
        apply (got_call zeroV less bucket nlists t from to (bucket from) x (0%Z, k)); try done;
          [by eapply list_ready_stable|by eapply pub_stable|].
        exact (since_call_stable _ _ _ _ HR02 _ _ _ Hx ltac:(by eexists) Hsince).
      * exact (covers_next _ _ _ _ _ _ _ _ _ _ _ _ _ _ _ _ HI Hx Hlink Hy eq_refl Hcov).
      * lia.
    + apply wp_ret. intros w2 HR2 HI2. assert (rely t w w2) as HR02 by by trans w1.
      eapply (range_ends x (0%Z, k)); [done|by eapply list_ready_stable|by eapply pub_stable|done|..].
      * exact (range_seen_stable _ _ _ _ _ _ _ _ _ _ HR02 Hseen).
      * exact (covers_stable _ _ _ _ _ _ _ _ _ _ _ _ _ HR02 Hr Hx Hcov).
      * by right.
Qed.

(** One round of the loop. *)
Lemma wp_range_body (bu : budget) (z : option loc * list (K * V)) w :
  ranging bu z w → ∃ bu', budget_step bu = Some bu' ∧
  wp t range_round bu'
    (let '(curr, calls) := z in
     let! kind := act (load_ptr nodes curr ln_kind) in
     if bool_decide (kind = 0)%Z then
       let! sm := get curr in
       if sm.2 : bool then continue (sm.1, calls)
       else
         let! key := act (load_ptr nodes curr ln_key) in
         if negb (less key to) then break calls
         else
           let! v := load_val curr in
           continue (sm.1, calls ++ [(key, v)])
     else break calls) w.
Proof using Hbucket Hrange WeakOrder0.
  intros (n & L & x & s & -> & Hn & Hcx & Hx & Hr & Hb & Hcalled & Hw & Hseen & Hcov).
  destruct z as [curr calls]. simpl in Hcx, Hcalled, Hseen, Hcov. subst curr.
  eexists. split; [by apply spend|]. apply (walk_spend _ _ _ 19 _ _ (n - 1)) in Hw; [|lia].
  eapply (wp_walk zeroV less bucket nlists 0); [done| |exact Hw|]; [lia|].
  intros w1 B1 n1 HR1 HI1 _ Hn1.
  assert (pub x (bucket from) s w1) as Hx1 by by eapply pub_stable.
  assert (ready t o w1) as Hr1 by by eapply list_ready_stable.
  wp_pure. eapply wp_listNode; [lia|exact Hx1|]. intros w2 nd HR2 HI2 _ Hs.
  replace (ln_kind nd) with s.1 by by rewrite <-Hs.
  assert (rely t w w2) as HR02 by by trans w1.
  assert (ready t o w2) as Hr2 by by eapply list_ready_stable.
  assert (pub x (bucket from) s w2) as Hx2 by by eapply pub_stable.
  destruct (decide (s.1 = 0%Z)) as [H0|H0].
  2:{ rewrite bool_decide_false by done. apply wp_ret. intros w3 HR3 HI3.
      assert (rely t w w3) as HR03 by by trans w2.
      eapply (range_ends x s); [done|by eapply list_ready_stable|by eapply pub_stable|done|..].
      - exact (range_seen_stable _ _ _ _ _ _ _ _ _ _ HR03 Hseen).
      - exact (covers_stable _ _ _ _ _ _ _ _ _ _ _ _ _ HR03 Hr Hx Hcov).
      - left. by apply past_head; [eapply pub_kind|..]. }
  rewrite bool_decide_true by done. destruct s as [z k]. simpl in H0. subst z.
  change (Act (load_ptr nodes (Some x) ln_next) _) with
    (bind (get (Some x)) (λ sm, if sm.2 : bool then continue (sm.1, calls) else
      Act (load_at nodes x ln_key) (λ key, if negb (less key to) then break calls else
        let! v := load_val (Some x) in continue (sm.1, calls ++ [(key, v)])))).
  rewrite get_eq. eapply (wp_get zeroV less bucket nlists); [lia|exact Hx2|].
  intros w3 c mk HR3 HI3 Hx3 _ _ Hlink.
  exists (commit (w_aux w3)). rewrite with_commit_id. split; [by apply good_step_refl|].
  assert (rely t w w3) as HR03 by by trans w2. cbn [fst snd].
  apply (wp_range_node x k mk calls (n1 - 1 - 2) w1 w3); try done.
  - by trans w2.
  - exact (range_seen_stable _ _ _ _ _ _ _ _ _ _ HR03 Hseen).
  - exact (covers_stable _ _ _ _ _ _ _ _ _ _ _ _ _ HR03 Hr Hx Hcov).
  - lia.
Qed.
Lemma Range_wp n L w :
  over t o (Refill n L) w →
  wp t (λ _ calls w, ranged calls w) (Refill n L) (Range less (bucket from) from to) w.
Proof using Hbucket Hrange WeakOrder0.
  intros Hov. pose proof Hov as (n0 & L0 & [= <- <-] & (Hn & _) & _). unfold Range.
  apply wp_less with (n - 1); [lia|].
  apply (wp_search_key t o from range_found); [exact range_found_stable| |by rewrite Nat.sub_add|].
  { intros x s w1 HI1 Hr1 Hx _ _ _ Hon. exists (commit (w_aux w1)). rewrite with_commit_id.
    split; [by apply good_step_refl|]. split; [done|]. split; [done|].
    by apply covers_start; [intros; apply sig_less|]. }
  clear n L w Hov Hn.
  intros w p sp c x B n HI (_ & _ & _ & _ & sx & Hx & Hb & _ & (Hr & _ & Hcov) & Hn).
  apply (wp_loop Sp proto pg t _ ranging); [|intros ? ? ? ? ? ?; by eapply ranging_stable|].
  - intros bu z w1 Hz _. by apply wp_range_body.
  - exists n, (w_len w), x, sx. split; [done|]. split; [lia|]. split; [done|]. split; [done|].
    split; [done|]. split; [done|]. split; [by split; [split; constructor|]|]. split.
    + split; [done|]. intros _. lia.
    + split; [|done]. intros k v. by rewrite elem_of_nil.
Qed.
End range.

(** ** Calls *)

Lemma call_over t id o w :
  Inv w → g_thr (w_gh w) !! t = None →
  let w' := World (w_mem w) (g_call t id o (w_gh w)) (w_aux w) in
  good_step t w w' ∧ over t o (Refill (allowance (w_len w)) (w_len w)) w'.
Proof.
  intros HI Hnone. assert (2 ≤ nrounds) as Hrounds by done.
  destruct (list_call_world zeroV less bucket nlists t id o w Hrounds HI Hnone)
    as (Hgood & Hr & Hn). split; [exact Hgood|].
  specialize (Hn 12 ltac:(lia)). eexists _, _. split; [done|]. split; [|by split].
  split; [refine (Nat.le_trans _ _ _ _ (Nat.le_trans _ _ _ (Nat.le_add_l 12 _) Hn)); lia|].
  split; [done|]. intros _. exact Hn.
Qed.
End methods.
