(* ===== verification/ListObject.v ===== *)
(** Fresh lists, and objects made of them. *)

From S2P Require Export ListMethods.
Local Open Scope prog_scope.

Section init.
Context {K V : Type} (zeroK : K) (zeroV : V) (less : Less K) `{!WeakOrder less}.
Context (bucket : K → nat).
Abbreviation mem := (mem (K:=K) (V:=V)).

(** [n] calls of [NewList]. *)
Definition new_lists (n : nat) : mem := Nat.iter n (NewList zeroK) (Mem [] [] []).

(** The sentinels of list [b] are the nodes [2 * b] and [2 * b + 1]. *)
Fixpoint homes (n : nat) : gmap loc nat :=
  match n with
  | 0 => ∅
  | S n => <[2 * n := n]> (<[2 * n + 1 := n]> (homes n))
  end.

Lemma homes_inv n l b : homes n !! l = Some b → b < n ∧ (l = 2 * b ∨ l = 2 * b + 1).
Proof.
  induction n as [|n IH]; cbn [homes]; [by rewrite lookup_empty|].
  rewrite !lookup_insert_Some. intros [[<- <-]|[_ [[<- <-]|[_ Hl]]]]; [lia..|].
  apply IH in Hl. lia.
Qed.

Lemma homes_size n : size (homes n) = 2 * n.
Proof.
  induction n as [|n IH]; [done|]. cbn [homes].
  assert (∀ l, 2 * n ≤ l → homes n !! l = None) as Hnone.
  { intros l Hl. destruct (homes n !! l) as [b|] eqn:E; [|done]. apply homes_inv in E. lia. }
  rewrite !map_size_insert_None, IH; [lia| |].
  - apply Hnone. lia.
  - rewrite lookup_insert_ne by lia. apply Hnone. lia.
Qed.

(** What list [b] of [n] fresh ones looks like. *)
Record fresh_list (m : mem) (h : gmap loc nat) (b : nat) : Prop := {
  fr_tail : nodes m !! (2 * b) = Some (ListNode zeroK None 1 (Some (2 * b)));
  fr_head : nodes m !! (2 * b + 1) = Some (ListNode zeroK None (-1) (Some (2 * b + 1)));
  fr_nil : marks m !! (2 * b) = Some (ListMarkable None false);
  fr_ref : marks m !! (2 * b + 1) = Some (ListMarkable (Some (2 * b)) false);
  fr_list : lists m !! b = Some (List_ (2 * b + 1) 0);
  fr_home0 : h !! (2 * b) = Some b;
  fr_home1 : h !! (2 * b + 1) = Some b
}.

Lemma new_lists_fresh n :
  let m := new_lists n in
  length (nodes m) = 2 * n ∧ length (marks m) = 2 * n ∧ length (lists m) = n ∧
  ∀ b, b < n → fresh_list m (homes n) b.
Proof.
  induction n as [|n (Hn & Hm & Hl & Hf)]; [split_and!; try done; lia|].
  cbn zeta in *. change (new_lists (S n)) with (NewList zeroK (new_lists n)).
  set (m := new_lists n) in *. unfold NewList. simpl nodes. simpl marks. simpl lists.
  rewrite !length_app, Hn, Hm, Hl. cbn [length]. split; [lia|]. split; [lia|]. split; [lia|].
  intros b Hb. destruct (decide (b = n)) as [->|Hne].
  - assert (∀ {A} (l : list A) a a', length l = 2 * n →
      (l ++ [a; a']) !! (2 * n) = Some a ∧ (l ++ [a; a']) !! (2 * n + 1) = Some a') as Happ.
    { intros A l a a' Hlen. rewrite !lookup_app_r by lia. rewrite Hlen, Nat.sub_diag.
      by replace (2 * n + 1 - 2 * n) with 1 by lia. }
    split; simpl nodes; simpl marks; simpl lists; try apply Happ; try done.
    + replace (2 * n + 1) with (S (2 * n)) by lia.
      destruct (Happ _ (nodes m) (ListNode zeroK None 1 (Some (2 * n)))
        (ListNode zeroK None (-1) (Some (S (2 * n))) : listNode (V:=V)) Hn) as [_ <-].
      f_equal. lia.
    + rewrite lookup_app_r, Hl, Nat.sub_diag by lia. simpl. do 2 f_equal. lia.
    + cbn [homes]. by rewrite lookup_insert_eq.
    + cbn [homes]. rewrite lookup_insert_ne, lookup_insert_eq by lia. done.
  - destruct (Hf b ltac:(lia)).
    split; simpl nodes; simpl marks; simpl lists; try (by apply lookup_app_l_Some);
      cbn [homes]; by rewrite !lookup_insert_ne by lia.
Qed.

Lemma new_lists_inv n :
  Inv (Shape0:=list_shape) (Capacity0:=list_capacity n) zeroV less bucket n
    (World (new_lists n) (Ghost [] ∅ 0 []) (ListAux (homes n) ∅ ∅ ∅ ∅ ∅ ∅)).
Proof.
  destruct (new_lists_fresh n) as (Hn & Hm & Hl & Hf). set (m := new_lists n) in *.
  assert (∀ l, node_at (Shape0:=list_shape) m l = nodes m !! l) as Hnode by done.
  assert (∀ l b, homes n !! l = Some b →
    fresh_list m (homes n) b ∧ (l = 2 * b ∨ l = 2 * b + 1)) as Hcase.
  { intros l b Hb. apply homes_inv in Hb as [? ?]. split; [by apply Hf|done]. }
  assert (∀ l b, homes n !! l = Some b → sig_of (Shape0:=list_shape) m l =
    Some (if decide (l = 2 * b) then 1%Z else (-1)%Z, zeroK)) as Hsig.
  { intros l b Hb. destruct (Hcase _ _ Hb) as [Hfr [->| ->]]; unfold sig_of; rewrite Hnode.
    - by rewrite (fr_tail _ _ _ Hfr), decide_True.
    - rewrite (fr_head _ _ _ Hfr), decide_False by lia. done. }
  assert (∀ l b, homes n !! l = Some b → link (Shape0:=list_shape) m l =
    Some (ListMarkable (if decide (l = 2 * b) then None else Some (2 * b)) false)) as Hlink.
  { intros l b Hb. destruct (Hcase _ _ Hb) as [Hfr [->| ->]]; unfold link; rewrite Hnode.
    - rewrite (fr_tail _ _ _ Hfr), decide_True by done. simpl. apply (fr_nil _ _ _ Hfr).
    - rewrite (fr_head _ _ _ Hfr), decide_False by lia. simpl. apply (fr_ref _ _ _ Hfr). }
  assert (∀ l b y, homes n !! l = Some b → succ (Shape0:=list_shape) m l = Some y →
    l = 2 * b + 1 ∧ y = 2 * b) as Hsucc.
  { intros l b y Hb Hs. rewrite (succ_link _ _ _ (Hlink _ _ Hb)) in Hs. simpl in Hs.
    case_decide; [done|]. injection Hs as <-. destruct (Hcase _ _ Hb). split; [lia|done]. }
  assert (∀ b h, (l_head <$> lists m) !! b = Some h → h = 2 * b + 1 ∧ fresh_list m (homes n) b) as Hheads.
  { intros b h Hb. pose proof (lookup_lt_Some _ _ _ Hb) as Hlt. rewrite length_fmap, Hl in Hlt.
    pose proof (Hf b Hlt) as Hfr. split; [|done].
    rewrite list_lookup_fmap, (fr_list _ _ _ Hfr) in Hb. by injection Hb. }
  assert (∀ l b, homes n !! l = Some b → key_at (Shape0:=list_shape) less m l = None) as Hkey.
  { intros l b Hb. unfold key_at. rewrite (Hsig _ _ Hb). simpl. by repeat case_decide. }
  split; simpl; try done.
  - intros l b Hb. eexists _, _.
    split; [exact (Hsig _ _ Hb)|exact (Hlink _ _ Hb)|..]; simpl; try done.
    + case_decide; [by right; right|by left].
    + by case_decide.
    + rewrite lookup_empty. by split; [|intros [? ?]].
    + case_decide; [done|by eexists].
    + intros y Hy. case_decide; [done|]. injection Hy as <-.
      destruct (Hcase _ _ Hb) as [Hfr _]. split; [apply (fr_home0 _ _ _ Hfr)|].
      eexists. split; [exact (Hsig _ _ (fr_home0 _ _ _ Hfr))|]. by rewrite decide_True.
  - by rewrite length_fmap.
  - intros b h Hb. destruct (Hheads _ _ Hb) as [-> Hfr]. split; [apply (fr_home1 _ _ _ Hfr)|].
    eexists. split; [exact (Hsig _ _ (fr_home1 _ _ _ Hfr))|]. by rewrite decide_False by lia.
  - intros l b h Hb _ Hh. destruct (Hheads _ _ Hh) as [-> Hfr].
    destruct (Hcase _ _ Hb) as [_ [->| ->]]; [|reflexivity]. apply rtc_once.
    rewrite (succ_link _ _ _ (Hlink _ _ (fr_home1 _ _ _ Hfr))), decide_False by lia. done.
  - intros l b k Hb _. by rewrite (Hkey _ _ Hb).
  - by intros k [? ?].
  - intros l b l' b' y Hb Hb' _ _ Hy Hy'. destruct (Hsucc _ _ _ Hb Hy), (Hsucc _ _ _ Hb' Hy'). lia.
  - rewrite homes_size, Nat.add_0_r. apply Nat.le_add_r.
  - intros b. lia.
Qed.
End init.

(** ** Objects made of lists *)

Section object.
Context {K V : Type} (zeroK : K) (zeroV : V) (less : Less K) `{!WeakOrder less}.
Context (bucket : K → nat) (nlists : nat).
Context (Hbucket : ∀ k1 k2, same_key less k1 k2 = true → bucket k1 = bucket k2).
Context (Hrange : ∀ k, bucket k < nlists).
#[local] Instance capacity : Capacity (Z * K) := list_capacity nlists.
Abbreviation Sp := (lmap_spec zeroV (same_key less) (ascending_range (V:=V) less)).
Abbreviation mem := (mem (K:=K) (V:=V)).
Abbreviation aux := (list_aux V).
Abbreviation proto := (list_proto zeroV less bucket nlists).
Abbreviation pg := (LockFreeIn allowance).
Abbreviation wp t Q := (Logic.wp Sp proto pg t Q).
Abbreviation over t o := (over 0 t o (λ _, True)).
Implicit Types (t n L : nat) (k : K) (v : V).

(** The methods that go to the list of their key. *)
Lemma Set_method t k v n L w :
  over t (MSet k v) (Refill n L) w →
  wp t (post Sp proto t) (Refill n L) (Set_ less (bucket k) k v) w.
Proof using Hbucket Hrange WeakOrder0. by apply Set_wp. Qed.

Lemma Get_method t k n L w :
  over t (MGet k) (Refill n L) w →
  wp t (post Sp proto t) (Refill n L)
    (let! r := Get zeroV less (bucket k) k in Ret (MRVal r.1 r.2)) w.
Proof using Hbucket Hrange WeakOrder0.
  intros Hov. apply wp_bind. eapply wp_mono; [|by apply Get_wp].
  intros b r w1 _ (? & ? & _ & Hg). apply (list_return _ _ _ _ _ (MGet k)). by apply got_answers.
Qed.

Lemma Contains_method t k n L w :
  over t (MContains k) (Refill n L) w →
  wp t (post Sp proto t) (Refill n L)
    (let! b := Contains zeroV less (bucket k) k in Ret (MRBool b)) w.
Proof using Hbucket Hrange WeakOrder0.
  intros Hov. apply wp_bind. eapply wp_mono; [|by apply Contains_wp].
  intros b r w1 _ Ha. by apply (list_return _ _ _ _ _ (MContains k)).
Qed.

Lemma Del_method t k n L w :
  over t (MDel k) (Refill n L) w →
  wp t (post_with Sp proto (map_fact zeroV less) t (MDel k)) (Refill n L)
    (let! r := Del zeroV less (bucket k) k in Ret (MRVal r.1 r.2)) w.
Proof using Hbucket Hrange WeakOrder0.
  intros Hov. apply wp_bind. eapply wp_mono; [|by apply Del_wp].
  intros b r w1 _ Ha. by apply del_return.
Qed.

Lemma Range_method t from to n L w :
  (∀ k, bucket k = bucket from) → over t (MRange from to) (Refill n L) w →
  wp t (post_with Sp proto (map_fact zeroV less) t (MRange from to)) (Refill n L)
    (let! kvs := Range less (bucket from) from to in Ret (MRRange kvs)) w.
Proof using Hbucket Hrange WeakOrder0.
  intros Hall Hov. apply wp_bind. eapply wp_mono; [|by apply Range_wp].
  intros b kvs w1 _ Hr. apply wp_ret. intros w2 HR2 HI2.
  apply (ranged_stable _ _ _ nlists _ _ _ _ _ _ _ HR2) in Hr. split.
  - eapply list_post; [done|exact (ranged_answered _ _ _ _ _ _ _ _ _ Hr)].
  - intros p Hp _. exact (ranged_map_fact _ _ _ _ _ _ _ _ _ _ Hall Hr Hp).
Qed.

(** Any length will do. *)
Lemma return_len t z (b : budget) w :
  ready t MLen w → wp t (post Sp proto t) b (Ret (MRLen z)) w.
Proof. intros Hr. apply (list_return _ _ _ _ _ MLen), answered_open; [exact Hr|by intros st|exact I]. Qed.

(** A call. *)
Lemma list_object_call t id o w (p : prog mem (lmap_resp K V)) Q :
  Inv zeroV less bucket nlists w → g_thr (w_gh w) !! t = None →
  (∀ n L w, over t o (Refill n L) w → wp t Q (Refill n L) p w) →
  ∃ x, let w' := World (w_mem w) (g_call t id o (w_gh w)) x in
    Inv zeroV less bucket nlists w' ∧ (∀ u, u ≠ t → pr_rely proto u w w') ∧
    wp t Q (initial_budget pg (w_len w)) p w'.
Proof.
  intros HI Hnone Hp. exists (w_aux w).
  destruct (call_over zeroV less bucket nlists t id o w HI Hnone) as [[HI' HR'] Hov].
  split; [exact HI'|]. split; [exact HR'|]. by apply Hp.
Qed.

Lemma list_object_observes (I : object mem (lmap_op K V) (lmap_resp K V)) :
  ob_init I = new_lists zeroK nlists →
  (∀ t id o m, ob_allowed I t id o m = true → ∀ n L w, over t o (Refill n L) w →
     wp t (post_with Sp proto (map_fact zeroV less) t o) (Refill n L) (ob_code I t o) w) →
  verified_with Sp proto pg I (map_fact zeroV less).
Proof.
  intros Hinit Hcode. split; [eexists; rewrite Hinit; apply new_lists_inv|].
  intros t id o w HI Hnone _ Hok. apply list_object_call; [done..|]. by eapply Hcode.
Qed.
End object.
