(* ===== verification/LfList.v ===== *)
(** [lf.List] as a shared object ([lf/list.go]). *)

From S2P Require Export ListObject.
Local Open Scope prog_scope.

Module List.
Section list.
Context {K V : Type} (zeroK : K) (zeroV : V) (less : Less K).
Abbreviation mem := (mem (K:=K) (V:=V)).
Abbreviation Sp := (lmap_spec zeroV (same_key less) (ascending_range (V:=V) less)).

(** The only list of the memory has the address 0. *)
Definition the_list : loc := 0.

Definition list_code (o : lmap_op K V) : prog mem (lmap_resp K V) :=
  match o with
  | MSet k v => Set_ less the_list k v
  | MGet k => let! r := Get zeroV less the_list k in Ret (MRVal r.1 r.2)
  | MContains k => let! b := Contains zeroV less the_list k in Ret (MRBool b)
  | MDel k => let! r := Del zeroV less the_list k in Ret (MRVal r.1 r.2)
  | MLen => let! n := Len the_list in Ret (MRLen n)
  | MRange from to => let! kvs := Range less the_list from to in Ret (MRRange kvs)
  end.

(** Any goroutine may call any method. *)
Definition list_object : object mem (lmap_op K V) (lmap_resp K V) :=
  Object (NewList zeroK (Mem [] [] [])) (λ _, list_code) (λ _ _ _ _, true).

Context `{!WeakOrder less}.
Abbreviation bucket := (λ _ : K, 0).
Abbreviation proto := (list_proto zeroV less bucket 1).
#[local] Instance capacity : Capacity (Z * K) := list_capacity 1.
Abbreviation pg := (LockFreeIn allowance).

Lemma list_observes : verified_with Sp proto pg list_object (map_fact zeroV less).
Proof.
  assert (∀ k1 k2 : K, same_key less k1 k2 = true → bucket k1 = bucket k2) as Hbucket by done.
  assert (∀ k : K, bucket k < 1) as Hrange by (intros; lia).
  apply (list_object_observes zeroK); [done|]. intros t id o m _ n L w Hov.
  destruct (no_fact o) eqn:Ho.
  2:{ destruct o as [| | |k| |from to]; try done.
    - by apply (Del_method zeroV less bucket 1 Hbucket Hrange).
    - by apply (Range_method zeroV less bucket 1 Hbucket Hrange). }
  eapply wp_mono; [intros b r w1 _; by apply no_fact_post|].
  destruct o as [k v|k|k|k| |from to]; cbn [ob_code list_object list_code].
  - by apply (Set_method zeroV less bucket 1 Hbucket Hrange).
  - by apply (Get_method zeroV less bucket 1 Hbucket Hrange).
  - by apply (Contains_method zeroV less bucket 1 Hbucket Hrange).
  - done.
  - destruct Hov as (? & ? & [= <- <-] & (Hn & _) & [Hr _]).
    eapply wp_Len; [exact Hn|unfold the_list; lia|]. intros w1 z HR1. apply return_len. by eapply list_ready_stable.
  - done.
Qed.

Lemma list_verified : verified Sp proto pg list_object.
Proof. apply (verified_without _ _ _ _ _ list_observes). Qed.

(** C11. The lock-free list is linearizable: in some order [L] that respects real
    time, [Set], [Get] and [Contains] are those of a map and [Del] removes a
    present key; the value [Del] returns was set since the key was inserted, and
    was the current one at some moment between the call and the return, though it
    may have been updated before the deletion.  [Range] reports ascending keys
    within its bounds, each with the value that it had at some moment between
    the call and the return, and misses no key that was in the map all this time.
    [Len] is left open: it may return anything. *)
Theorem list_linearizable cs s :
  reaches list_object cs s → ∃ L,
  linearization Sp (sy_hist s) L ∧
  ranges_observed zeroV less (sy_hist s) L ∧ dels_observed zeroV less (sy_hist s) L.
Proof. eapply map_facts_linearization, list_observes. Qed.

(** No schedule makes a method of the list dereference a nil pointer. *)
Theorem list_no_panic cs : exec list_object cs (start list_object) ≠ Crash.
Proof. apply (verified_no_crash Sp proto _ pg), list_verified. Qed.

(** C12. Lock-freedom of the list: in a history of [n] calls, a pending operation
    has taken at most [allowance n] steps for each operation that overlaps it,
    and as many of its own: it cannot be kept from returning by others that do
    not return either. *)
Theorem list_lock_free cs s t r :
  reaches list_object cs s → sy_thr s !! t = Some r →
  r_steps r ≤ allowance (length (called_ids (sy_hist s))) *
    (1 + overlap (sy_hist s) (r_id r)).
Proof.
  intros Hc Ht. eapply (verified_lockfree_in Sp proto); [apply list_verified|done..|].
  intros n Hn. unfold allowance, traversal. nia.
Qed.

(** C13. In every reachable state [next] leads from the head to strictly larger
    keys only: the list is sorted, without duplicates and without cycles, marked
    nodes included. *)
Theorem list_ascending cs s lst x y sx sy :
  reaches list_object cs s → lists (sy_mem s) !! the_list = Some lst →
  reach (sy_mem s) (l_head lst) x → reach (sy_mem s) x y →
  sig_of (sy_mem s) x = Some sx → sig_of (sy_mem s) y = Some sy →
  x = y ∨ node_less less sx sy = true.
Proof.
  intros Hc Hlst Hx Hy Hsx Hsy.
  destruct (verified_inv Sp proto _ pg _ _ list_verified Hc) as (w & Hw & HI & _).
  rewrite <-Hw in *. destruct (i_head _ _ _ _ _ HI the_list (l_head lst)) as [Hh _].
  { simpl. by rewrite list_lookup_fmap, Hlst. }
  pose proof (reach_pub _ _ _ _ _ _ _ _ HI Hh Hx) as Hhx.
  exact (reach_less zeroV less bucket 1 w x 0 y sx sy HI (conj Hhx Hsx) Hsy Hy).
Qed.
End list.

Abbreviation demo_object := (list_object 0%Z 0%Z Z.ltb).

(** The [Set] of goroutine 1 finds the node of its key; before it stores the
    value, [Del] marks the node and returns the old value.  The update is lost:
    it took effect just before the deletion. *)
Definition demo_schedule : list (cmd (lmap_op Z Z)) :=
  [Call 0 (MSet 5%Z 50%Z)] ++ replicate 21 (Step 0) ++
  [Call 1 (MSet 5%Z 60%Z)] ++ replicate 11 (Step 1) ++
  [Call 2 (MDel 5%Z)] ++ replicate 24 (Step 2) ++ replicate 2 (Step 1) ++
  [Call 3 (MGet 5%Z)] ++ replicate 10 (Step 3).

(** The [Range] of goroutine 1 reads the key 5; before it goes on to 6, 5 is deleted
    and 7 added.  It reports all three keys, which were never there together. *)
Definition range_schedule : list (cmd (lmap_op Z Z)) :=
  [Call 0 (MSet 5%Z 50%Z)] ++ replicate 21 (Step 0) ++
  [Call 0 (MSet 6%Z 60%Z)] ++ replicate 26 (Step 0) ++
  [Call 1 (MRange 0%Z 9%Z)] ++ replicate 15 (Step 1) ++
  [Call 0 (MDel 5%Z)] ++ replicate 24 (Step 0) ++
  [Call 0 (MSet 7%Z 70%Z)] ++ replicate 26 (Step 0) ++ replicate 15 (Step 1).

Lemma list_linearizable_witness :
  (∃ s L, reaches demo_object demo_schedule s ∧
    sy_hist s = [EInv 0 0 (MSet 5%Z 50%Z); ERes 0 0 MRDone; EInv 1 2 (MSet 5%Z 60%Z);
                 EInv 2 3 (MDel 5%Z); ERes 2 3 (MRVal 50%Z true); ERes 1 2 MRDone;
                 EInv 3 6 (MGet 5%Z); ERes 3 6 (MRVal 0%Z false)] ∧
    linearization (lmap_spec 0%Z (same_key Z.ltb) (ascending_range Z.ltb)) (sy_hist s) L ∧
    dels_observed 0%Z Z.ltb (sy_hist s) L) ∧
  ∃ s L, reaches demo_object range_schedule s ∧
    sy_hist s = [EInv 0 0 (MSet 5%Z 50%Z); ERes 0 0 MRDone; EInv 0 2 (MSet 6%Z 60%Z);
                 ERes 0 2 MRDone; EInv 1 4 (MRange 0%Z 9%Z); EInv 0 5 (MDel 5%Z);
                 ERes 0 5 (MRVal 50%Z true); EInv 0 7 (MSet 7%Z 70%Z); ERes 0 7 MRDone;
                 ERes 1 4 (MRRange [(5%Z, 50%Z); (6%Z, 60%Z); (7%Z, 70%Z)])] ∧
    ranges_observed 0%Z Z.ltb (sy_hist s) L.
Proof.
  split.
  - destruct (run_history_reaches demo_object demo_schedule _
      ltac:(vm_compute; reflexivity)) as (s & Hs & Hh).
    destruct (list_linearizable 0%Z 0%Z Z.ltb demo_schedule s Hs)
      as (L & HL & _ & HD).
    exists s, L. split; [exact Hs|]. split; [exact Hh|]. by split.
  - destruct (run_history_reaches demo_object range_schedule _
      ltac:(vm_compute; reflexivity)) as (s & Hs & Hh).
    destruct (list_linearizable 0%Z 0%Z Z.ltb range_schedule s Hs) as (L & _ & HL & _).
    exists s, L. split; [exact Hs|]. by split.
Defined.

Lemma list_lock_free_witness : ∃ s r,
  reaches demo_object (take 55 demo_schedule) s ∧ sy_thr s !! 2 = Some r ∧
  r_steps r = 20 ∧
  r_steps r ≤ allowance (Capacity0:=list_capacity 1 (K:=Z)) (length (called_ids (sy_hist s))) *
    (1 + overlap (sy_hist s) (r_id r)).
Proof.
  destruct (run_steps_reaches demo_object (take 55 demo_schedule) 2 20
    ltac:(vm_compute; reflexivity)) as (s & r & Hs & Hr & Hn).
  exists s, r. split; [exact Hs|]. split; [exact Hr|]. split; [exact Hn|].
  exact (list_lock_free 0%Z 0%Z Z.ltb (take 55 demo_schedule) s 2 r Hs Hr).
Defined.

(** After the first [Set] the head (node 1) is followed by the key 5 (node 2). *)
Lemma list_ascending_witness : ∃ s lst,
  reaches demo_object (take 22 demo_schedule) s ∧ lists (sy_mem s) !! the_list = Some lst ∧
  l_head lst = 1 ∧ reach (sy_mem s) 1 2 ∧
  (1 = 2 ∨ node_less Z.ltb ((-1)%Z, 0%Z) (0%Z, 5%Z) = true).
Proof.
  destruct (run_mem_reaches demo_object (take 22 demo_schedule) _
    ltac:(vm_compute; reflexivity)) as (s & Hs & Hm).
  assert (reach (sy_mem s) 1 2) as Hr by (apply rtc_once; rewrite Hm; reflexivity).
  exists s, (List_ 1 1). split; [exact Hs|]. split; [rewrite Hm; reflexivity|].
  split; [reflexivity|]. split; [exact Hr|].
  apply (list_ascending 0%Z 0%Z Z.ltb (take 22 demo_schedule) s (List_ 1 1) 1 2 _ _ Hs);
    [rewrite Hm; reflexivity|reflexivity|exact Hr|rewrite Hm; reflexivity..].
Defined.
End List.
