(* ===== verification/LfHashMap.v ===== *)
(** [lf.HashMap] as a shared object ([lf/hashmap.go]): an array of lock-free
    lists. *)

From S2P Require Export ListObject.
Local Open Scope prog_scope.

Module HashMap.
Section hash_map.
Context {K V : Type} (zeroK : K) (zeroV : V) (less : Less K).
Abbreviation mem := (mem (K:=K) (V:=V)).
Abbreviation Sp := (lmap_spec zeroV (same_key less) (ascending_range (V:=V) less)).

(** The fields never change.  A [uint64] hash is taken modulo 2^64. *)
Record HashMap := HashMap_ {
  buckets : list loc;
  hash : K → Z;
  n : Z
}.

(** [for i := range buckets { buckets[i] = NewList(less) }] *)
Fixpoint make_buckets (count : nat) (m : mem) : list loc * mem :=
  match count with
  | 0 => ([], m)
  | S count =>
      let '(bs, m) := make_buckets count m in
      (bs ++ [length (lists m)], NewList zeroK m)
  end.

(** Nothing when it panics. *)
Definition NewHashMap (numBuckets : Z) (hash : K → Z) (m : mem) : option (HashMap * mem) :=
  if (numBuckets <? 1)%Z then None
  else
    let '(bs, m) := make_buckets (Z.to_nat numBuckets) m in
    Some (HashMap_ bs hash (u64 numBuckets), m).

Context (h : HashMap).

Definition bucket (k : K) : prog mem loc :=
  match buckets h !! Z.to_nat (u64 (hash h k) mod n h) with
  | Some b => Ret b
  | None => panic
  end.

Definition Set_ (k : K) (v : V) : prog mem (lmap_resp K V) :=
  let! b := bucket k in MList.Set_ less b k v.

Definition Get (k : K) : prog mem (V * bool) :=
  let! b := bucket k in MList.Get zeroV less b k.

Definition Del (k : K) : prog mem (V * bool) :=
  let! b := bucket k in MList.Del zeroV less b k.

Definition Contains (k : K) : prog mem bool :=
  let! b := bucket k in MList.Contains zeroV less b k.

Definition Len : prog mem Z :=
  loop (λ '(i, total),
    match buckets h !! i with
    | Some b =>
        let! c := MList.Len b in
        continue (S i, i64 (total + c))
    | None => break total
    end) (0, 0%Z).

Definition hash_map_code (o : lmap_op K V) : prog mem (lmap_resp K V) :=
  match o with
  | MSet k v => Set_ k v
  | MGet k => let! r := Get k in Ret (MRVal r.1 r.2)
  | MContains k => let! b := Contains k in Ret (MRBool b)
  | MDel k => let! r := Del k in Ret (MRVal r.1 r.2)
  | MLen => let! c := Len in Ret (MRLen c)
  | MRange _ _ => panic
  end.

(** A hash table has no [Range]. *)
Definition method_of (o : lmap_op K V) : bool :=
  match o with MRange _ _ => false | _ => true end.
End hash_map.

(** Any goroutine may call any method. *)
Definition hash_map_object {K V} (zeroV : V) (less : Less K) (h : HashMap) (m : mem)
    : object mem (lmap_op K V) (lmap_resp K V) :=
  Object m (λ _, hash_map_code zeroV less h) (λ _ _ o _, method_of o).

Section proof.
Context {K V : Type} (zeroK : K) (zeroV : V) (less : Less K) `{!WeakOrder less}.
Context (numBuckets : Z) (hash : K → Z).
(** Keys that [less] does not tell apart have the same hash. *)
Context (Hhash : ∀ k1 k2, same_key less k1 k2 = true → hash k1 = hash k2).
Context (Hmany : (numBuckets < two64)%Z).
Context (h : HashMap (K:=K)) (m : mem (K:=K) (V:=V)).
Context (Hnew : NewHashMap zeroK numBuckets hash (Mem [] [] []) = Some (h, m)).
Abbreviation mem := (mem (K:=K) (V:=V)).
Abbreviation Sp := (lmap_spec zeroV (same_key less) (ascending_range (V:=V) less)).
Abbreviation count := (Z.to_nat numBuckets).
Abbreviation bucket_of := (λ k, Z.to_nat (u64 (hash k) mod numBuckets)).
#[local] Instance capacity : Capacity (Z * K) := list_capacity count.
Abbreviation proto := (list_proto zeroV less bucket_of count).
Abbreviation pg := (LockFreeIn allowance).

Lemma make_buckets_new c : make_buckets zeroK c (Mem [] [] []) = (seq 0 c, new_lists zeroK c : mem).
Proof.
  induction c as [|c IH]; [done|]. cbn [make_buckets]. rewrite IH.
  destruct (new_lists_fresh zeroK c : _ ∧ _ ∧ length (lists (new_lists zeroK c : mem)) = c ∧ _)
    as (_ & _ & -> & _).
  by rewrite seq_S.
Qed.

Lemma new_facts :
  (1 ≤ numBuckets)%Z ∧ buckets h = seq 0 count ∧ HashMap.hash h = hash ∧ n h = numBuckets ∧
  m = new_lists zeroK count.
Proof using Hnew Hmany.
  unfold NewHashMap in Hnew. destruct (Z.ltb_spec numBuckets 1) as [?|Hge]; [done|].
  rewrite make_buckets_new in Hnew. injection Hnew as <- <-. simpl.
  rewrite u64_small; [done|]. lia.
Qed.

Lemma bucket_same k1 k2 : same_key less k1 k2 = true → bucket_of k1 = bucket_of k2.
Proof using Hhash. intros Hk. cbn beta. by rewrite (Hhash _ _ Hk). Qed.

Lemma bucket_range k : bucket_of k < count.
Proof using Hnew Hmany.
  destruct new_facts as (Hge & _). pose proof (Z.mod_pos_bound (u64 (hash k)) numBuckets). lia.
Qed.

Lemma bucket_eq k : bucket h k = Ret (bucket_of k) :> prog mem loc.
Proof using Hnew Hmany.
  pose proof (bucket_range k) as Hlt. destruct new_facts as (_ & Hb & Hh & Hn & _).
  unfold bucket. rewrite Hb, Hh, Hn, lookup_seq_lt by done. done.
Qed.

(** [Len] adds up the lengths of the buckets. *)
Lemma Len_wp t c L (w : world mem (lmap_op K V) (lmap_resp K V) (list_aux V)) :
  ready t MLen w → 3 * count + 3 ≤ c →
  Logic.wp Sp proto pg t (post Sp proto t) (Refill c L) (let! z := Len h in Ret (MRLen z)) w.
Proof using Hnew Hmany.
  intros Hr Hc. destruct new_facts as (_ & Hb & _).
  unfold Len, loop. cbn [bind].
  apply (wp_loop Sp proto pg t _ (λ b i w, ready t MLen w ∧
    ∃ c, b = Refill c L ∧ 3 * (count - i.1) + 3 ≤ c)).
  - clear c w Hc Hr. intros b [i total] w [Hr (c & -> & Hc)] _. cbn [fst] in Hc.
    eexists. split; [apply spend; lia|]. cbn beta iota. rewrite Hb.
    destruct (decide (i < count)) as [Hi|Hi].
    + rewrite lookup_seq_lt by done. eapply wp_Len; [lia|done|]. intros w1 z HR1.
      apply wp_ret. intros w2 HR2 _. split.
      * eapply list_ready_stable; [exact HR2|]. by eapply list_ready_stable.
      * eexists. split; [done|]. cbn [fst]. lia.
    + rewrite lookup_seq_ge by lia. apply wp_ret. intros w1 HR1 _.
      apply return_len. by eapply list_ready_stable.
  - intros b i w1 w2 [? ?] HR. split; [by eapply list_ready_stable|done].
  - split; [done|]. exists c. split; [done|]. cbn [fst]. lia.
Qed.

Lemma hash_map_observes :
  verified_with Sp proto pg (hash_map_object zeroV less h m) (map_fact zeroV less).
Proof using All.
  apply (list_object_observes zeroK); [apply new_facts|]. intros t id o m' Hok c L w Hov.
  destruct (no_fact o) eqn:Ho; [eapply wp_mono; [intros b r w1 _; by apply no_fact_post|]|].
  2:{ destruct o as [| | |k| |]; try done. cbn [ob_code hash_map_object hash_map_code].
    unfold Del. rewrite bucket_eq. by apply (Del_method zeroV less bucket_of count bucket_same bucket_range). }
  destruct o as [k v|k|k|k| |from to]; cbn [ob_code hash_map_object hash_map_code].
  - unfold Set_. rewrite bucket_eq. by apply (Set_method zeroV less bucket_of count bucket_same bucket_range).
  - unfold Get. rewrite bucket_eq. by apply (Get_method zeroV less bucket_of count bucket_same bucket_range).
  - unfold Contains. rewrite bucket_eq.
    by apply (Contains_method zeroV less bucket_of count bucket_same bucket_range).
  - done.
  - pose proof Hov as (n0 & L0 & [= <- <-] & (_ & HL & Hn) & [Hr _]).
    eapply (wp_start zeroV less bucket_of count 0 t _ 12); [done|lia|done|done|].
    intros w1 n1 HR1 HI1 Hn1. apply Len_wp; [by eapply list_ready_stable|].
    unfold traversal in Hn1. change nbase with (2 * count) in Hn1. lia.
  - done.
Qed.

Lemma hash_map_verified : verified Sp proto pg (hash_map_object zeroV less h m).
Proof using All. apply (verified_without _ _ _ _ _ hash_map_observes). Qed.

(** C19. The hash map is linearizable to the same map as the list, for any hash
    function that respects the equality of keys, and the value that a [Del] returns
    was the current one at some moment between its call and its return; [Len]
    may return anything. *)
Theorem hash_map_linearizable cs s :
  reaches (hash_map_object zeroV less h m) cs s → ∃ L,
  linearization Sp (sy_hist s) L ∧ dels_observed zeroV less (sy_hist s) L.
Proof using All.
  intros Hs. destruct (map_facts_linearization _ _ _ _ _ _ _ hash_map_observes Hs) as (L & ? & _ & ?).
  by exists L.
Qed.

(** Lock-freedom of the hash map: a pending operation has taken at most
    [allowance n] steps, [n] the number of calls so far, for each operation
    that overlaps it and as many of its own; the index into the buckets is
    always in range. *)
Theorem hash_map_lock_free cs s t r :
  reaches (hash_map_object zeroV less h m) cs s → sy_thr s !! t = Some r →
  r_steps r ≤ allowance (length (called_ids (sy_hist s))) *
    (1 + overlap (sy_hist s) (r_id r)).
Proof using All.
  intros Hc Ht. eapply (verified_lockfree_in Sp proto); [apply hash_map_verified|done..|].
  intros i Hi. unfold allowance, traversal. nia.
Qed.

(** No schedule makes a method panic. *)
Theorem hash_map_no_panic cs :
  exec (hash_map_object zeroV less h m) cs (start (hash_map_object zeroV less h m)) ≠ Crash.
Proof using All. apply (verified_no_crash Sp proto _ pg), hash_map_verified. Qed.
End proof.

(** C24. [NewHashMap] panics exactly when it is asked for fewer than one bucket;
    otherwise it makes that many different lists, each just a head and a tail. *)
Theorem new_hash_map_spec {K V} (zeroK : K) numBuckets hash :
  match NewHashMap zeroK numBuckets hash (Mem [] [] [] : mem (K:=K) (V:=V)) with
  | None => (numBuckets < 1)%Z
  | Some (h, m) => (1 ≤ numBuckets)%Z ∧ length (buckets h) = Z.to_nat numBuckets ∧
      NoDup (buckets h) ∧ ∀ b, b ∈ buckets h → ∃ head tail,
        lists m !! b = Some (List_ head 0) ∧ succ m head = Some tail ∧
        sig_of m tail = Some (1%Z, zeroK) ∧ succ m tail = None
  end.
Proof.
  unfold NewHashMap. destruct (Z.ltb_spec numBuckets 1) as [?|Hge]; [done|].
  rewrite make_buckets_new. set (c := Z.to_nat numBuckets). split; [done|].
  destruct (new_lists_fresh zeroK (V:=V) c) as (_ & _ & _ & Hf). simpl buckets.
  split; [apply length_seq|]. split; [apply NoDup_seq|].
  intros b Hb%elem_of_seq. destruct (Hf b ltac:(lia)) as [Ht Hh Hn Hr Hl _ _].
  exists (2 * b + 1), (2 * b). split; [exact Hl|].
  assert (∀ l, node_at (Shape0:=list_shape) (new_lists zeroK (V:=V) c) l =
    nodes (new_lists zeroK c) !! l) as Hnode by done.
  unfold succ, link, sig_of. rewrite !Hnode, Ht, Hh. cbn -[Nat.mul Nat.add].
  rewrite Hn, Hr. done.
Qed.

(** Two buckets, and two goroutines on different ones; both lists are counted. *)
Definition demo_hash (k : Z) : Z := k.

Definition demo_schedule : list (cmd (lmap_op Z Z)) :=
  [Call 0 (MSet 5%Z 50%Z); Call 1 (MSet 6%Z 60%Z)] ++
  flat_map (λ _, [Step 0; Step 1]) (seq 0 21) ++
  [Call 0 (MGet 6%Z)] ++ replicate 11 (Step 0) ++ [Call 1 MLen] ++ replicate 6 (Step 1).

Lemma demo_hash_same k1 k2 : same_key Z.ltb k1 k2 = true → demo_hash k1 = demo_hash k2.
Proof.
  intros [H1%Z.ltb_ge H2%Z.ltb_ge]%same_key_spec. unfold demo_hash. lia.
Qed.

Lemma demo_new : ∃ h m, NewHashMap 0%Z 2 demo_hash (Mem [] [] []) = Some (h, m : mem (V:=Z)) ∧
  run_history (hash_map_object 0%Z Z.ltb h m) demo_schedule =
    Some [EInv 0 0 (MSet 5%Z 50%Z); EInv 1 1 (MSet 6%Z 60%Z); ERes 0 0 MRDone; ERes 1 1 MRDone;
          EInv 0 4 (MGet 6%Z); ERes 0 4 (MRVal 60%Z true); EInv 1 6 MLen; ERes 1 6 (MRLen 2%Z)] ∧
  run_steps (hash_map_object 0%Z Z.ltb h m) (take 30 demo_schedule) 1 = Some 14.
Proof. eexists _, _. split; [vm_compute; reflexivity|]. split; vm_compute; reflexivity. Qed.

Lemma hash_map_linearizable_witness : ∃ h m s L,
  NewHashMap 0%Z 2 demo_hash (Mem [] [] []) = Some (h, m : mem (V:=Z)) ∧
  reaches (hash_map_object 0%Z Z.ltb h m) demo_schedule s ∧
  linearization (lmap_spec 0%Z (same_key Z.ltb) (ascending_range Z.ltb)) (sy_hist s) L ∧
  dels_observed 0%Z Z.ltb (sy_hist s) L.
Proof.
  destruct demo_new as (h & m & Hnew & Hrun & _).
  destruct (run_history_reaches _ _ _ Hrun) as (s & Hs & _).
  destruct (hash_map_linearizable 0%Z 0%Z Z.ltb 2 demo_hash demo_hash_same ltac:(reflexivity)
    h m Hnew demo_schedule s Hs) as (L & HL).
  exists h, m, s, L. split; [exact Hnew|]. split; [exact Hs|exact HL].
Defined.

Lemma hash_map_lock_free_witness : ∃ h m s r,
  NewHashMap 0%Z 2 demo_hash (Mem [] [] []) = Some (h, m : mem (V:=Z)) ∧
  reaches (hash_map_object 0%Z Z.ltb h m) (take 30 demo_schedule) s ∧
  sy_thr s !! 1 = Some r ∧ r_steps r = 14 ∧
  r_steps r ≤ allowance (Capacity0:=list_capacity 2 (K:=Z)) (length (called_ids (sy_hist s))) *
    (1 + overlap (sy_hist s) (r_id r)).
Proof.
  destruct demo_new as (h & m & Hnew & _ & Hrun).
  destruct (run_steps_reaches _ _ _ _ Hrun) as (s & r & Hs & Hr & Hn).
  exists h, m, s, r. split; [exact Hnew|]. split; [exact Hs|]. split; [exact Hr|].
  split; [exact Hn|].
  apply (hash_map_lock_free 0%Z 0%Z Z.ltb 2 demo_hash) with h m (take 30 demo_schedule) 1;
    [exact demo_hash_same|reflexivity|exact Hnew|exact Hs|exact Hr].
Defined.
End HashMap.
