(* ===== verification/SkipCode.v ===== *)
(** [lf.SkipList]: the code of the lock-free skip list ([lf/skiplist.go]), and
    its bottom level as an instance of ListShape.v. *)

From S2P Require Export ListCommon.
From S2P Require Import ListCode.

Module SkipList.

Definition skiplistMaxLevel : Z := 31.

Section skiplist.
Context {K V : Type} (zeroK : K) (zeroV : V) (less : Less K).

(** [sn_nexts] are the [atomic.Pointer]s inside the [markableRef]s of the slice;
    the value stands for the pointer to it in [sn_val]. *)
Record skipnode := SkipNode {
  sn_key : K;
  sn_val : option V;
  sn_topLevel : Z;
  sn_kind : Z;
  sn_nexts : list (option loc)
}.

(** [rng] are the random numbers to come. *)
Record mem := Mem {
  nodes : list skipnode;
  marks : list listMarkable;
  head : loc;
  length_ : Z;
  rng : nat → Z
}.

Definition nodes_f : field mem (list skipnode) :=
  Field nodes (λ x m, Mem x (marks m) (head m) (length_ m) (rng m)).
Definition marks_f : field mem (list listMarkable) :=
  Field marks (λ x m, Mem (nodes m) x (head m) (length_ m) (rng m)).
Definition length_f : field mem Z :=
  Field length_ (λ x m, Mem (nodes m) (marks m) (head m) x (rng m)).
Definition rng_f : field mem (nat → Z) :=
  Field rng (λ x m, Mem (nodes m) (marks m) (head m) (length_ m) x).
Definition val_f : field skipnode (option V) :=
  Field sn_val (λ x n, SkipNode (sn_key n) x (sn_topLevel n) (sn_kind n) (sn_nexts n)).
Definition nexts_f : field skipnode (list (option loc)) :=
  Field sn_nexts (λ x n, SkipNode (sn_key n) (sn_val n) (sn_topLevel n) (sn_kind n) x).

(** ** Markable references; the receiver is [n.nexts[level]] *)

Definition get (n : option loc) (level : Z) : prog mem (option loc * bool) :=
  let! cur := act (load_slot nodes n sn_nexts level) in
  act (load_ptr marks cur (λ c, (lm_ref c, lm_marked c))).

Definition getReference (n : option loc) (level : Z) : prog mem (option loc) :=
  let! cur := act (load_slot nodes n sn_nexts level) in
  act (load_ptr marks cur lm_ref).

Definition set (n : loc) (level : Z) (ref : option loc) (marked : bool) : prog mem unit :=
  let! c := act (new marks_f (ListMarkable ref marked)) in
  act (store_slot nodes_f n nexts_f level (Some c)).

Definition compareAndSet (n : option loc) (level : Z) (expectRef newRef : option loc)
    (expectMark newMark : bool) : prog mem bool :=
  let! cur := act (load_slot nodes n sn_nexts level) in
  let! c := act (load_ptr marks cur id) in
  if negb (bool_decide (lm_ref c = expectRef) && eqb (lm_marked c) expectMark)
  then Ret false
  else if bool_decide (newRef = lm_ref c) && eqb newMark (lm_marked c) then Ret true
  else
    let! c' := act (new marks_f (ListMarkable newRef newMark)) in
    act (cas_slot nodes_f n nexts_f level cur (Some c')).

Definition attemptMark (n : option loc) (level : Z) (expectRef : option loc) (newMark : bool)
    : prog mem bool :=
  let! cur := act (load_slot nodes n sn_nexts level) in
  let! c := act (load_ptr marks cur id) in
  if negb (bool_decide (lm_ref c = expectRef)) then Ret false
  else if eqb (lm_marked c) newMark then Ret true
  else
    let! c' := act (new marks_f (ListMarkable expectRef newMark)) in
    act (cas_slot nodes_f n nexts_f level cur (Some c')).

(** ** Nodes *)

Definition levels : nat := Z.to_nat (skiplistMaxLevel + 1).

(** The memory of a new skip list: the tail, and the head linked to it at every
    level. *)
Definition NewSkipList (rng : nat → Z) : mem :=
  Mem [SkipNode zeroK None skiplistMaxLevel 1 (Some <$> seq 0 levels);
       SkipNode zeroK None skiplistMaxLevel (-1) (Some <$> seq levels levels)]
      (replicate levels (ListMarkable None false) ++
       replicate levels (ListMarkable (Some 0) false))
      1 0 rng.

Definition newSkipnode (k : K) (v : V) (topLevel : Z) : prog mem loc :=
  let! n := act (new nodes_f (SkipNode k None topLevel 0 [])) in
  act (store_at nodes_f n val_f (Some v)) ;;;
  act (store_at nodes_f n nexts_f (replicate (Z.to_nat (topLevel + 1)) None)) ;;;
  loop (λ i,
    if bool_decide (i < topLevel + 1)%Z then
      set n i None false ;;;
      continue (i + 1)%Z
    else break tt) 0%Z ;;;
  Ret n.

Definition keyLess (n : option loc) (x : K) : prog mem bool :=
  let! n := act (load_ptr nodes n (λ n, (sn_kind n, sn_key n))) in
  Ret (if bool_decide (n.1 = -1)%Z then true
       else if bool_decide (n.1 = 1)%Z then false
       else less n.2 x).

Definition keyEqual (n : option loc) (x : K) : prog mem bool :=
  let! n := act (load_ptr nodes n (λ n, (sn_kind n, sn_key n))) in
  Ret (if negb (bool_decide (n.1 = 0)%Z) then false
       else negb (less n.2 x) && negb (less x n.2)).

(** [rand.Uint64()] *)
Definition randUint64 : mem → option (Z * mem) :=
  λ m, Some (u64 (rng m 0), f_set rng_f (λ i, rng m (S i)) m).

Definition randomLevel (max : Z) : prog mem Z :=
  loop (λ lvl,
    if bool_decide (lvl < max)%Z then
      let! r := act randUint64 in
      if bool_decide (Z.land r 1 = 0)%Z then continue (lvl + 1)%Z else break lvl
    else break lvl) 0%Z.

(** The local slices [preds] and [succs], read and written by index. *)
Abbreviation refs := (list (option loc)).

Definition at_level (l : refs) (i : Z) : prog mem (option loc) :=
  match (if in_range i l then l !! Z.to_nat i else None) with
  | Some x => Ret x
  | None => panic
  end.

Definition put_level (l : refs) (i : Z) (x : option loc) : prog mem refs :=
  if in_range i l then Ret (<[Z.to_nat i := x]> l) else panic.

(** [make([]*skipnode[K, V], s.maxLevel+1)] *)
Definition new_refs : refs := replicate levels None.

(** ** The search *)

(** [for marked { ... }]: unlink marked nodes; nothing when an unlinking failed. *)
Definition unlink (level : Z) (pred curr succ : option loc) (marked : bool)
    : prog mem (option (option loc * option loc)) :=
  loop (λ '(curr, succ, marked),
    if marked : bool then
      let! ok := compareAndSet pred level curr succ false false in
      if negb ok then break None
      else
        let! curr := getReference pred level in
        let! sm := get curr level in
        continue (curr, sm.1, sm.2)
    else break (Some (curr, succ))) (curr, succ, marked).

(** The walk along one level; nothing when the search has to be retried. *)
Definition traverse (level : Z) (x : K) (pred : option loc)
    : prog mem (option (option loc * option loc)) :=
  let! curr := getReference pred level in
  loop (λ '(pred, curr),
    let! sm := get curr level in
    let! un := unlink level pred curr sm.1 sm.2 in
    match un with
    | None => break None
    | Some (curr, succ) =>
        let! lt := keyLess curr x in
        if lt : bool then continue (curr, succ) else break (Some (pred, curr))
    end) (pred, curr).

(** One attempt, from the highest level to the lowest; whether it got there, and
    what it wrote to [preds] and [succs]. *)
Definition descend (x : K) (preds succs : refs) : prog mem (bool * (refs * refs)) :=
  let! pred := act (load head) in
  loop (λ '(pred, level, (preds, succs)),
    if bool_decide (level >= 0)%Z then
      let! found := traverse level x pred in
      match found with
      | None => break (false, (preds, succs))
      | Some (pred, curr) =>
          let! preds := put_level preds level pred in
          let! succs := put_level succs level curr in
          continue (pred, (level - 1)%Z, (preds, succs))
      end
    else break (true, (preds, succs))) (Some pred, skiplistMaxLevel, (preds, succs)).

Definition find (x : K) (preds succs : refs) : prog mem (bool * (refs * refs)) :=
  let! ps := loop (λ '(preds, succs),
    let! r := descend x preds succs in
    if r.1 : bool then break (r.2) else continue (r.2)) (preds, succs) in
  let! s := at_level ps.2 0 in
  let! eq := keyEqual s x in
  Ret (eq, ps).

(** ** The methods *)

(** The levels above the lowest of the new node [n]. *)
Definition link_levels (k : K) (n : loc) (topLevel : Z) (preds succs : refs) : prog mem unit :=
  loop (λ '(level, preds, succs),
    if bool_decide (level <= topLevel)%Z then
      let! ps := loop (λ '(preds, succs),
        let! pred := at_level preds level in
        let! succ := at_level succs level in
        let! ok := compareAndSet pred level succ (Some n) false false in
        if ok : bool then break (preds, succs)
        else
          let! r := find k preds succs in
          continue (r.2)) (preds, succs) in
      continue ((level + 1)%Z, ps.1, ps.2)
    else break tt) (1%Z, preds, succs).

Definition Set_ (k : K) (v : V) : prog mem (lmap_resp K V) :=
  let! topLevel := randomLevel skiplistMaxLevel in
  loop (λ '(preds, succs),
    let! r := find k preds succs in
    let '(found, (preds, succs)) := r in
    if found : bool then
      let! c := at_level succs 0 in
      act (match c with Some c => store_at nodes_f c val_f (Some v) | None => λ _, None end) ;;;
      break MRDone
    else
      let! n := newSkipnode k v topLevel in
      loop (λ level,
        if bool_decide (level <= topLevel)%Z then
          let! succ := at_level succs level in
          set n level succ false ;;;
          continue (level + 1)%Z
        else break tt) 0%Z ;;;
      let! pred := at_level preds 0 in
      let! succ := at_level succs 0 in
      let! ok := compareAndSet pred 0 succ (Some n) false false in
      if negb ok then continue (preds, succs)
      else
        link_levels k n topLevel preds succs ;;;
        act (add_u64 length_f 1) ;;;
        break MRDone) (new_refs, new_refs).

(** [*n.val.Load()] *)
Definition load_val (n : option loc) : prog mem V :=
  let! v := act (load_ptr nodes n sn_val) in
  match v with
  | Some v => Ret v
  | None => panic
  end.

(** [for !marked { ... }] at one level of the victim. *)
Definition mark_level (victim : option loc) (level : Z) : prog mem unit :=
  let! sm := get victim level in
  loop (λ '(succ, marked),
    if negb marked then
      attemptMark victim level succ true ;;;
      let! sm := get victim level in
      continue (sm.1, sm.2)
    else break tt) (sm.1, sm.2).

(** Its levels above the lowest, from the top. *)
Definition mark_levels (victim : option loc) : prog mem unit :=
  let! topLevel := act (load_ptr nodes victim sn_topLevel) in
  loop (λ level,
    if bool_decide (level >= 1)%Z then
      mark_level victim level ;;;
      continue (level - 1)%Z
    else break tt) topLevel.

(** The loop that ends when the lowest level is marked; true when by us. *)
Definition mark_lowest (victim : option loc) : prog mem bool :=
  let! sm := get victim 0 in
  loop (λ succ,
    let! iMarkedIt := compareAndSet victim 0 succ succ false true in
    let! sm := get victim 0 in
    if iMarkedIt : bool then break true
    else if sm.2 : bool then break false
    else continue (sm.1)) (sm.1).

(** Either way the outer [for] loop of the source ends in its first round. *)
Definition Del (k : K) : prog mem (V * bool) :=
  let! r := find k new_refs new_refs in
  let '(found, (preds, succs)) := r in
  if negb found then Ret (zeroV, false)
  else
    let! victim := at_level succs 0 in
    mark_levels victim ;;;
    let! mine := mark_lowest victim in
    if mine : bool then
      find k preds succs ;;;
      act (add_u64 length_f (two64 - 1)) ;;;
      let! v := load_val victim in
      Ret (v, true)
    else Ret (zeroV, false).

(** [for marked { ... }]: skip marked nodes. *)
Definition skip_marked (level : Z) (curr succ : option loc) (marked : bool)
    : prog mem (option loc * option loc) :=
  loop (λ '(curr, succ, marked),
    if marked : bool then
      let! sm := get succ level in
      continue (succ, sm.1, sm.2)
    else break (curr, succ)) (curr, succ, marked).

(** The descent that [findNode] and [Range] each spell out: where it ends at the
    lowest level. *)
Definition seek (k : K) : prog mem (option loc) :=
  let! pred := act (load head) in
  loop (λ '(pred, curr, level),
    if bool_decide (level >= 0)%Z then
      let! curr := getReference pred level in
      let! pc := loop (λ '(pred, curr),
        let! sm := get curr level in
        let! cs := skip_marked level curr sm.1 sm.2 in
        let! lt := keyLess cs.1 k in
        if lt : bool then continue cs else break (pred, cs.1)) (pred, curr) in
      continue (pc.1, pc.2, (level - 1)%Z)
    else break curr) (Some pred, None, skiplistMaxLevel).

Definition findNode (k : K) : prog mem (option loc) :=
  let! curr := seek k in
  let! eq := keyEqual curr k in
  Ret (if eq : bool then curr else None).

Definition Get (k : K) : prog mem (V * bool) :=
  let! n := findNode k in
  match n with
  | None => Ret (zeroV, false)
  | Some _ =>
      let! v := load_val n in
      Ret (v, true)
  end.

Definition Search (k : K) : prog mem bool :=
  let! n := findNode k in
  Ret (match n with Some _ => true | None => false end).

(** [int(s.length.Load())] *)
Definition Len : prog mem Z :=
  let! n := act (load length_) in
  Ret (i64 n).

(** The calls of [op], in order. *)
Definition Range (from to : K) : prog mem (list (K * V)) :=
  let! curr := seek from in
  loop (λ '(curr, calls),
    let! kind := act (load_ptr nodes curr sn_kind) in
    if bool_decide (kind = 0)%Z then
      let! sm := get curr 0 in
      if sm.2 : bool then continue (sm.1, calls)
      else
        let! key := act (load_ptr nodes curr sn_key) in
        if negb (less key to) then break calls
        else
          let! v := load_val curr in
          continue (sm.1, calls ++ [(key, v)])
    else break calls) (curr, []).
End skiplist.

Arguments skipnode : clear implicits.
Arguments mem : clear implicits.

(** ** The bottom level as an instance of the lists of ListShape.v *)

(** The first element of the slice. *)
Definition next_f {K V} : field (skipnode K V) (option loc) :=
  Field (λ n, mjoin (sn_nexts n !! 0))
    (λ c n, SkipNode (sn_key n) (sn_val n) (sn_topLevel n) (sn_kind n) (c :: tail (sn_nexts n))).

(** The signature of a node is its kind and its key, as for [lf.List]. *)
#[export] Instance skip_shape {K V} : Shape (mem K V) (skipnode K V) (Z * K) V unit.
Proof.
  refine {| sh_nodes := nodes_f; sh_marks := marks_f; sh_heads m := [head m];
    sh_rest _ := tt; sh_sig n := (sn_kind n, sn_key n); sh_val := val_f; sh_next := next_f;
    sh_nil := None |}; done.
Defined.
End SkipList.
