(* ===== verification/SkipInv.v ===== *)
(** The invariant of [lf.SkipList], and what goroutines rely on.

    The bottom level is a list in the sense of ListInv.v, whose invariant carries
    the meaning of the map.  The levels above are shortcuts: their pointers lead
    to linked nodes of enough levels that come later in the order of the keys or,
    for equal keys, are older.  A node is marked from its top level down, the
    bottom level last.  Where a pointer of a higher level is left out, or leads to
    a node that was deleted, only the length of the walk is affected. *)

From S2P Require Import ListCode.
From S2P Require Export ListOps SkipCode.
Export SkipList.

Section skip.
Context {K V : Type} (zeroV : V) (less : Less K) `{!WeakOrder less}.
#[local] Hint Extern 0 (NodeOrder _ _) => exact (MList.list_order less) : typeclass_instances.
#[local] Hint Extern 0 (Capacity _) => exact (MList.list_capacity 1) : typeclass_instances.
#[local] Hint Extern 0 (Rest _ _) => exact MList.list_rest : typeclass_instances.
Abbreviation Sp := (lmap_spec zeroV (same_key less) (ascending_range (V:=V) less)).
Abbreviation one := (λ _ : K, 0).
Abbreviation mem := (mem K V).
Abbreviation aux := (list_aux V).
Abbreviation world := (world mem (lmap_op K V) (lmap_resp K V) aux).
Abbreviation LInv := (ListInv.Inv zeroV less one 1).
Abbreviation LR := (ListInv.R zeroV less).
Abbreviation sig := (Z * K)%type.
Implicit Types (w : world) (t u n i j : nat) (l x y p : loc) (k : K) (v : V) (m : mem) (s : sig).

(** ** The levels *)

(** The pointer of [l] at level [i] to its pair, and the pair. *)
Definition slot m l i : option loc := n ← nodes m !! l; c ← sn_nexts n !! i; c.
Definition lpair m l i : option listMarkable := c ← slot m l i; marks m !! c.

(** The number of levels of a node, and its [topLevel]. *)
Definition tall m l : option (nat * Z) :=
  n ← nodes m !! l; Some (length (sn_nexts n), sn_topLevel n).
Definition height m l : nat := default 0 (fst <$> tall m l).

Lemma slot_cell m l : slot m l 0 = cell m l.
Proof. unfold slot, cell, node_at. simpl. destruct (nodes m !! l) as [n|]; [|done]. simpl. by destruct (sn_nexts n). Qed.

Lemma pair_link m l : lpair m l 0 = link m l.
Proof.
  unfold lpair. rewrite slot_cell. unfold link, cell. destruct (node_at m l) as [n|]; [|done].
  simpl. by destruct (mjoin _).
Qed.

Lemma pair_slot m l i mk : lpair m l i = Some mk → ∃ c, slot m l i = Some c ∧ marks m !! c = Some mk.
Proof. unfold lpair. destruct (slot m l i) as [c|]; [|done]. by exists c. Qed.

Lemma slot_height m l i c : slot m l i = Some c → i < height m l.
Proof.
  unfold slot, height, tall. destruct (nodes m !! l) as [n|]; [|done]. simpl.
  destruct (sn_nexts n !! i) eqn:E; [|done]. intros _. by eapply lookup_lt_Some.
Qed.

Lemma pair_mono m m' l i mk :
  lpair m l i = Some mk → slot m' l i = slot m l i → marks m `prefix_of` marks m' →
  lpair m' l i = Some mk.
Proof.
  intros (c & Hs & Hc)%pair_slot E Hp. unfold lpair. rewrite E, Hs. simpl.
  by eapply prefix_lookup_Some'.
Qed.

(** The order of the pointers: by key, and to older nodes. *)
Definition before m l y : Prop :=
  match sig_of m l, sig_of m y with
  | Some s, Some s' => node_less less s s' = true ∨ same_key (node_less less) s s' = true ∧ y < l
  | _, _ => False
  end.

#[export] Instance before_dec m l y : Decision (before m l y).
Proof. unfold before. destruct (sig_of m l), (sig_of m y); apply _. Defined.

Lemma before_irrefl m l : ¬ before m l l.
Proof.
  unfold before. destruct (sig_of m l); [|by intros []].
  rewrite (less_irrefl (less:=node_less less)). intros [?|[_ ?]]; [done|lia].
Qed.

Lemma before_trans m l y z : before m l y → before m y z → before m l z.
Proof.
  unfold before. destruct (sig_of m l) as [sl|], (sig_of m y) as [sy|], (sig_of m z) as [sz|]; try done.
  intros [H1|[H1 ?]] [H2|[H2 ?]].
  - left. by eapply less_trans.
  - left. exact (less_same_r _ _ _ _ H1 H2).
  - left. exact (less_same_l _ _ _ _ H2 H1).
  - right. split; [exact (same_key_trans _ _ _ _ H1 H2)|lia].
Qed.

Lemma before_same m m' l y :
  sig_of m' l = sig_of m l → sig_of m' y = sig_of m y → before m' l y ↔ before m l y.
Proof. unfold before. by intros -> ->. Qed.

(** ** The invariant *)

(** The pointer of the linked node [l] at level [i] may lead to [y]. *)
Definition goes w l i y : Prop :=
  is_Some (home (w_aux w) !! y) ∧ i < height (w_mem w) y ∧ before (w_mem w) l y.

Record pair_ok w l i (mk : listMarkable) : Prop := {
  q_marked : lm_marked mk = true → is_Some (key_at less (w_mem w) l);
  q_goes : ∀ y, lm_ref mk = Some y → goes w l i y;
  q_end : lm_ref mk = None → ∃ s, sig_of (w_mem w) l = Some s ∧ s.1 = 1%Z
}.

Definition marked m l i : Prop := ∃ mk, lpair m l i = Some mk ∧ lm_marked mk = true.

Record UInv w : Prop := {
  u_home : ∀ l b, home (w_aux w) !! l = Some b → b = 0;
  u_tall : ∀ l, is_Some (home (w_aux w) !! l) → ∃ h z, tall (w_mem w) l = Some (h, z) ∧
    Z.of_nat h = (z + 1)%Z ∧ 1 ≤ h ≤ levels ∧ (key_at less (w_mem w) l = None → h = levels);
  u_pair : ∀ l i, is_Some (home (w_aux w) !! l) → 1 ≤ i < height (w_mem w) l →
    ∃ mk, lpair (w_mem w) l i = Some mk ∧ pair_ok w l i mk;
  u_marks : ∀ l i j, is_Some (home (w_aux w) !! l) → i ≤ j < height (w_mem w) l →
    marked (w_mem w) l i → marked (w_mem w) l j;
  u_spare : ∀ a t, spare (w_aux w) !! a = Some t → ∃ l i, a = levels * l + i ∧
    is_Some (home (w_aux w) !! l) ∧ i < levels
}.

(** ** What is left to change at the higher levels

    Every pointer counts with the nodes beyond its target, a link still to be made
    with more than all nodes. *)
Definition above w l : nat := size (filter (before (w_mem w) l) (dom (home (w_aux w)))).

Definition pair_weight w (mk : listMarkable) : nat :=
  if lm_marked mk then 0 else match lm_ref mk with Some y => 2 + above w y | None => 1 end.

Definition slot_weight w l i : nat :=
  match lpair (w_mem w) l i with Some mk => pair_weight w mk | None => 0 end.

Definition positions w : list (loc * nat) :=
  l ← elements (dom (home (w_aux w))); (l,.) <$> seq 1 (height (w_mem w) l - 1).

Definition potential w : nat :=
  sum_list_with (λ z : loc * nat, slot_weight w z.1 z.2) (positions w) +
  (size (home (w_aux w)) + 1) * size (spare (w_aux w)).

Definition slack w : nat := unrest w + potential w.

(** ** The rely *)

Record UR w w' : Prop := {
  ur_tall : ∀ l, is_Some (home (w_aux w) !! l) → tall (w_mem w') l = tall (w_mem w) l;
  ur_frozen : ∀ l i, is_Some (home (w_aux w) !! l) → 1 ≤ i → marked (w_mem w) l i →
    slot (w_mem w') l i = slot (w_mem w) l i;
  ur_still : w_len w' = w_len w → home (w_aux w') = home (w_aux w) ∧ slack w' ≤ slack w ∧
    ∀ l i, is_Some (home (w_aux w) !! l) →
      slot (w_mem w') l i = slot (w_mem w) l i ∨ slack w' < slack w
}.

Lemma home_same t w w' : LInv w → LInv w' → LR t w w' → w_len w' = w_len w →
  home (w_aux w') = home (w_aux w).
Proof.
  intros HI HI' HR Hlen. symmetry. apply map_subseteq_size_eq; [apply (r_home _ _ _ _ _ HR)|].
  destruct (r_still _ _ _ _ _ HR Hlen) as (_ & _ & Hs & _).
  assert (∀ w, LInv w → blanks (w_aux w) = ∅) as Hb.
  { intros w1 HI1. apply set_eq. intros b. split; [|done]. intros Hb.
    pose proof (i_blanks _ _ _ _ _ HI1 b Hb) as Hlt. simpl in Hlt. lia. }
  rewrite (Hb w), (Hb w'), size_empty in Hs by done. lia.
Qed.

Lemma skip_R_order t : PreOrder (λ w w', LR t w w' ∧ UR w w').
Proof.
  split.
  - intros w. split; [by apply list_R_order|]. split; [done|done|]. intros _. split; [done|]. split; [done|by left].
  - intros w1 w2 w3 [H12 U12] [H23 U23]. split; [by eapply list_R_order|].
    assert (∀ l, is_Some (home (w_aux w1) !! l) → is_Some (home (w_aux w2) !! l)) as Hhome.
    { intros l [b Hl]. exists b. by eapply lookup_weaken; [|apply (r_home _ _ _ _ _ H12)]. }
    split.
    + intros l Hl. rewrite (ur_tall _ _ U23), (ur_tall _ _ U12); auto.
    + intros l i Hl Hi Hm. pose proof (ur_frozen _ _ U12 l i Hl Hi Hm) as E.
      rewrite (ur_frozen _ _ U23); auto. destruct Hm as (mk & Hp & Hmk). exists mk.
      split; [|done]. eapply pair_mono; [done..|]. apply (r_marks _ _ _ _ _ H12).
    + pose proof (r_len _ _ _ _ _ H12). pose proof (r_len _ _ _ _ _ H23). intros Hlen.
      destruct (ur_still _ _ U12 ltac:(lia)) as (E12 & L12 & C12).
      destruct (ur_still _ _ U23 ltac:(lia)) as (E23 & L23 & C23). split; [congruence|].
      split; [lia|].
      intros l i Hl. destruct (C12 l i Hl) as [<-|?]; [|right; lia].
      destruct (C23 l i (Hhome _ Hl)); [by left|right; lia].
Qed.

Definition skip_proto : protocol mem (lmap_op K V) (lmap_resp K V) aux :=
  Protocol (λ w, LInv w ∧ UInv w) (λ t w w', LR t w w' ∧ UR w w') skip_R_order.

(** ** Counting *)

Lemma sl_above_lt w l y : is_Some (home (w_aux w) !! y) → before (w_mem w) l y → above w y < above w l.
Proof.
  intros Hy Hb. apply subset_size. split.
  - intros z. rewrite !elem_of_filter. intros [Hz ?]. split; [by eapply before_trans|done].
  - intros Hsub. specialize (Hsub y). rewrite !elem_of_filter in Hsub.
    destruct Hsub as [Hyy _]; [by split; [|apply elem_of_dom]|]. by eapply before_irrefl.
Qed.

Lemma above_size w l : above w l ≤ size (home (w_aux w)).
Proof. rewrite <-size_dom. apply subseteq_size. set_solver. Qed.

Lemma above_size_lt w l : is_Some (home (w_aux w) !! l) → above w l < size (home (w_aux w)).
Proof.
  intros Hl. rewrite <-size_dom. apply subset_size. split; [set_solver|].
  intros Hsub. specialize (Hsub l). rewrite elem_of_filter, elem_of_dom in Hsub.
  destruct (Hsub Hl) as [Hll _]. by eapply before_irrefl.
Qed.

Lemma slot_weight_le w l i : UInv w → is_Some (home (w_aux w) !! l) →
  1 ≤ i → slot_weight w l i ≤ size (home (w_aux w)) + 1.
Proof.
  intros HU Hl Hi. unfold slot_weight, pair_weight. destruct (lpair (w_mem w) l i) as [mk|] eqn:E; [|lia].
  destruct (lm_marked mk); [lia|]. destruct (lm_ref mk) as [y|] eqn:Hy; [|lia].
  destruct (u_pair _ HU l i Hl) as (mk' & Hp & Hok).
  { split; [done|]. destruct (pair_slot _ _ _ _ E) as (c & Hc & _). by eapply slot_height. }
  rewrite E in Hp. injection Hp as <-. destruct (q_goes _ _ _ _ Hok y Hy) as (Hy' & _).
  pose proof (above_size_lt w y Hy'). lia.
Qed.

Lemma elem_of_positions w l i :
  (l, i) ∈ positions w ↔ is_Some (home (w_aux w) !! l) ∧ 1 ≤ i < height (w_mem w) l.
Proof.
  unfold positions. rewrite list_elem_of_bind. split.
  - intros (x & (i' & [= -> ->] & Hi%elem_of_seq)%list_elem_of_fmap & Hx%elem_of_elements).
    apply elem_of_dom in Hx. split; [done|lia].
  - intros [Hl Hi]. exists l. split.
    + apply list_elem_of_fmap. exists i. split; [done|]. apply elem_of_seq. lia.
    + by apply elem_of_elements, elem_of_dom.
Qed.

Lemma NoDup_positions w : NoDup (positions w).
Proof.
  unfold positions. apply NoDup_bind.
  - intros x y z _ _ (? & -> & _)%list_elem_of_fmap (? & [= -> _] & _)%list_elem_of_fmap. done.
  - intros x _. apply NoDup_fmap; [by intros ? ? [= ->]|apply NoDup_seq].
  - apply NoDup_elements.
Qed.

Lemma height_tall m m' l : tall m' l = tall m l → height m' l = height m l.
Proof. unfold height. by intros ->. Qed.

Lemma positions_same w w' :
  home (w_aux w') = home (w_aux w) →
  (∀ l, is_Some (home (w_aux w) !! l) → tall (w_mem w') l = tall (w_mem w) l) →
  positions w' = positions w.
Proof.
  intros Hh Ht. unfold positions. rewrite Hh.
  assert (∀ l, l ∈ elements (dom (home (w_aux w))) → height (w_mem w') l = height (w_mem w) l) as He.
  { intros l Hl. apply height_tall, Ht. by apply elem_of_dom, elem_of_elements. }
  induction (elements (dom (home (w_aux w)))) as [|l xs IH]; [done|]. simpl.
  rewrite (He l) by by left. f_equal. apply IH. intros y Hy. apply He. by right.
Qed.

Lemma above_same w w' l :
  home (w_aux w') = home (w_aux w) → is_Some (home (w_aux w) !! l) →
  (∀ x, is_Some (home (w_aux w) !! x) → sig_of (w_mem w') x = sig_of (w_mem w) x) →
  above w' l = above w l.
Proof.
  intros Hh Hl Hs. unfold above. rewrite Hh. f_equal. apply set_eq. intros y.
  rewrite !elem_of_filter, elem_of_dom.
  split; intros [Hb Hy]; (split; [|done]).
  - by apply (before_same (w_mem w) (w_mem w')); auto.
  - apply (before_same (w_mem w) (w_mem w')); auto.
Qed.

Lemma pair_weight_same w w' l i mk :
  pair_ok w l i mk → home (w_aux w') = home (w_aux w) →
  (∀ x, is_Some (home (w_aux w) !! x) → sig_of (w_mem w') x = sig_of (w_mem w) x) →
  pair_weight w' mk = pair_weight w mk.
Proof.
  intros Hok Hh Hs. unfold pair_weight. destruct (lm_marked mk); [done|].
  destruct (lm_ref mk) as [y|] eqn:Hy; [|done]. f_equal.
  destruct (q_goes _ _ _ _ Hok y Hy) as (Hy' & _). by rewrite (above_same w w').
Qed.

Lemma slot_weight_same w w' l i :
  UInv w → home (w_aux w') = home (w_aux w) → is_Some (home (w_aux w) !! l) → 1 ≤ i →
  (∀ x, is_Some (home (w_aux w) !! x) → sig_of (w_mem w') x = sig_of (w_mem w) x) →
  lpair (w_mem w') l i = lpair (w_mem w) l i → slot_weight w' l i = slot_weight w l i.
Proof.
  intros HU Hh Hl Hi Hs E. unfold slot_weight. rewrite E.
  destruct (lpair (w_mem w) l i) as [mk|] eqn:Hp; [|done].
  destruct (u_pair _ HU l i Hl) as (mk' & Hp' & Hok).
  { split; [done|]. destruct (pair_slot _ _ _ _ Hp) as (c & Hc & _). by eapply slot_height. }
  rewrite Hp in Hp'. injection Hp' as <-. by eapply pair_weight_same.
Qed.

Lemma potential_le w w' :
  home (w_aux w') = home (w_aux w) → size (spare (w_aux w')) ≤ size (spare (w_aux w)) →
  (∀ l, is_Some (home (w_aux w) !! l) → tall (w_mem w') l = tall (w_mem w) l) →
  (∀ l i, is_Some (home (w_aux w) !! l) → 1 ≤ i → slot_weight w' l i ≤ slot_weight w l i) →
  potential w' ≤ potential w.
Proof.
  intros Hh Hs Ht Hw. unfold potential. rewrite (positions_same w w'), Hh by done.
  apply Nat.add_le_mono; [|by apply Nat.mul_le_mono_l]. apply sum_list_le.
  intros [l i] [? [? _]]%elem_of_positions. by apply Hw.
Qed.

(** One pointer changes, and a link may be made. *)
Lemma potential_lt w w' l i :
  home (w_aux w') = home (w_aux w) → is_Some (home (w_aux w) !! l) → 1 ≤ i < height (w_mem w) l →
  (∀ l, is_Some (home (w_aux w) !! l) → tall (w_mem w') l = tall (w_mem w) l) →
  (∀ x j, is_Some (home (w_aux w) !! x) → 1 ≤ j → (x, j) ≠ (l, i) →
    slot_weight w' x j ≤ slot_weight w x j) →
  slot_weight w' l i + (size (home (w_aux w)) + 1) * size (spare (w_aux w')) <
    slot_weight w l i + (size (home (w_aux w)) + 1) * size (spare (w_aux w)) →
  potential w' < potential w.
Proof.
  intros Hh Hl Hi Ht Hw Hd. unfold potential. rewrite (positions_same w w'), Hh by done.
  pose proof (sum_list_change (λ z : loc * nat, slot_weight w' z.1 z.2)
    (λ z : loc * nat, slot_weight w z.1 z.2) (positions w) (l, i) (NoDup_positions w)) as Hc.
  cbn [fst snd] in Hc. enough (Hsum : ∀ a b c d : nat, a + d ≤ b + c → c + (size (home (w_aux w)) + 1) *
    size (spare (w_aux w')) < d + (size (home (w_aux w)) + 1) * size (spare (w_aux w)) →
    a + (size (home (w_aux w)) + 1) * size (spare (w_aux w')) <
    b + (size (home (w_aux w)) + 1) * size (spare (w_aux w))).
  - eapply Hsum; [|exact Hd]. apply Hc; [|by apply elem_of_positions].
    intros [x j] Hne [? [? _]]%elem_of_positions. by apply Hw.
  - intros. lia.
Qed.

(** A bound for a log of length [L]. *)
Definition max_slack (L : nat) : nat := L + (levels * (L + 2) + levels * (L + 2)) * (L + 3).

Lemma home_size w : LInv w → size (home (w_aux w)) ≤ 2 + w_len w.
Proof. intros HI. pose proof (i_size _ _ _ _ _ HI) as H. simpl in H. lia. Qed.

Lemma length_grid {A B} (f : A → nat → B) (xs : list A) n :
  length (l ← xs; f l <$> seq 0 n) = n * length xs.
Proof.
  induction xs as [|x xs IH]; [symmetry; apply Nat.mul_0_r|]. cbn [mbind list_bind length].
  rewrite length_app, length_fmap, length_seq, IH, Nat.mul_succ_r. apply Nat.add_comm.
Qed.

Lemma spare_size w : UInv w → size (spare (w_aux w)) ≤ levels * size (home (w_aux w)).
Proof.
  intros HU. set (ps := l ← elements (dom (home (w_aux w))); (λ i, levels * l + i) <$> seq 0 levels).
  assert (length ps = levels * size (home (w_aux w))) as <-.
  { unfold ps. rewrite length_grid, <-size_dom. done. }
  rewrite <-(size_dom (D:=gset nat)). apply submseteq_length, NoDup_submseteq; [apply NoDup_elements|].
  intros a Ha%elem_of_elements. apply elem_of_dom in Ha as [t Ha].
  destruct (u_spare _ HU a t Ha) as (l & i & -> & Hl & Hi). unfold ps.
  apply list_elem_of_bind. exists l. split.
  - apply list_elem_of_fmap. exists i. split; [done|]. apply elem_of_seq. lia.
  - by apply elem_of_elements, elem_of_dom.
Qed.

Lemma slack_le w : LInv w → UInv w → slack w ≤ max_slack (w_len w).
Proof.
  intros HI HU. unfold slack, max_slack, potential.
  pose proof (unrest_le zeroV less one 1 w HI) as Hun. simpl nblanks in Hun.
  pose proof (home_size w HI) as Hh. pose proof (spare_size w HU) as Hs.
  set (H := size (home (w_aux w))) in *. set (c := levels) in *.
  assert (sum_list_with (λ z : loc * nat, slot_weight w z.1 z.2) (positions w) ≤ c * H * (H + 1)) as Hsum.
  { etrans; [apply (sum_list_le _ (λ _, H + 1))|].
    - intros [l i] [Hl [Hi _]]%elem_of_positions. by apply slot_weight_le.
    - assert (∀ (xs : list (loc * nat)) n, sum_list_with (λ _, n) xs = length xs * n) as ->.
      { intros xs n. induction xs as [|x xs IH]; [done|]. simpl. by rewrite IH. }
      apply Nat.mul_le_mono_r. trans (length (l ← elements (dom (home (w_aux w))); (l,.) <$> seq 0 c)).
      + unfold positions. apply submseteq_length, NoDup_submseteq; [apply NoDup_positions|].
        intros [l i] [Hl Hi]%elem_of_positions. apply list_elem_of_bind. exists l. split.
        * apply list_elem_of_fmap. exists i. split; [done|]. apply elem_of_seq.
          destruct (u_tall _ HU l Hl) as (h & z & Ht & _ & Hb & _).
          unfold height in Hi. rewrite Ht in Hi. simpl in Hi. unfold c. lia.
        * by apply elem_of_elements, elem_of_dom.
      + rewrite length_grid. unfold H. by rewrite <-(size_dom (D:=gset nat)). }
  clearbody c. nia.
Qed.
End skip.
