(* ===== verification/SkipSteps.v ===== *)
(** The writes of [lf.SkipList] keep its invariant. *)

From S2P Require Import ListCode.
From S2P Require Export SkipInv.

Section steps.
Context {K V : Type} (zeroV : V) (less : Less K) `{!WeakOrder less}.
#[local] Hint Extern 0 (NodeOrder _ _) => exact (MList.list_order less) : typeclass_instances.
#[local] Hint Extern 0 (Capacity _) => exact (MList.list_capacity 1) : typeclass_instances.
#[local] Hint Extern 0 (Rest _ _) => exact MList.list_rest : typeclass_instances.
Abbreviation Sp := (lmap_spec zeroV (same_key less) (ascending_range (V:=V) less)).
Abbreviation one := (λ _ : K, 0).
Abbreviation mem := (mem K V).
Abbreviation aux := (list_aux V).
Abbreviation world := (world mem (lmap_op K V) (lmap_resp K V) aux).
Abbreviation LInv := (ListInv.Inv zeroV less one 1).
Abbreviation LR := (ListInv.R zeroV less).
Abbreviation lproto := (list_proto zeroV less one 1).
Abbreviation proto := (skip_proto zeroV less).
Abbreviation Inv := (pr_inv proto).
Abbreviation rely := (pr_rely proto).
Abbreviation good_step := (good_step proto).
Abbreviation list_step := (Rules.good_step lproto).
Abbreviation sig := (Z * K)%type.
Abbreviation UInv := (UInv less).
Abbreviation UR := (UR less).
Abbreviation slack := (slack less).
Abbreviation potential := (potential less).
Implicit Types (w : world) (t u n i j : nat) (l x y p : loc) (k : K) (v : V) (m : mem) (s : sig).

(** ** Writes that the higher levels do not see *)

Lemma step_facts t w w' : list_step t w w' → LR (S t) w w'.
Proof. intros [_ HR]. apply HR. lia. Qed.

Lemma pair_ok_mono w w' l i mk :
  pair_ok less w l i mk → is_Some (home (w_aux w) !! l) →
  (∀ x, is_Some (home (w_aux w) !! x) → is_Some (home (w_aux w') !! x)) →
  (∀ x, is_Some (home (w_aux w) !! x) → sig_of (w_mem w') x = sig_of (w_mem w) x) →
  (∀ x, is_Some (home (w_aux w) !! x) → tall (w_mem w') x = tall (w_mem w) x) →
  pair_ok less w' l i mk.
Proof.
  intros [Hm Hg He] Hl Hh Hs Ht. split.
  - unfold key_at. by rewrite (Hs l).
  - intros y Hy. destruct (Hg y Hy) as (Hy' & Hi & Hb). split; [auto|].
    split; [by rewrite (height_tall _ _ _ (Ht y Hy'))|]. by apply (before_same _ (w_mem w)); auto.
  - by rewrite (Hs l).
Qed.

(** A step of the bottom level that leaves the pointers of the higher levels of
    the linked nodes alone. *)
Definition calm w w' : Prop :=
  ∀ l, is_Some (home (w_aux w) !! l) → tall (w_mem w') l = tall (w_mem w) l ∧
    ∀ i, 1 ≤ i → slot (w_mem w') l i = slot (w_mem w) l i.

Lemma calm_pair w w' l i mk :
  calm w w' → marks (w_mem w) `prefix_of` marks (w_mem w') →
  is_Some (home (w_aux w) !! l) → 1 ≤ i →
  lpair (w_mem w) l i = Some mk → lpair (w_mem w') l i = Some mk.
Proof. intros Hc Hp Hl Hi Hm. eapply pair_mono; [done| |done]. by apply Hc. Qed.

Lemma calm_UR t w w' :
  LInv w → UInv w → LInv w' → LR t w w' → calm w w' →
  (w_len w' = w_len w → spare (w_aux w') = spare (w_aux w)) → UR w w'.
Proof.
  intros HI HU HI' HR Hc Hsp. split.
  - intros l Hl. by apply Hc.
  - intros l i Hl Hi _. by apply Hc.
  - intros Hlen. pose proof (home_same zeroV less t w w' HI HI' HR Hlen) as Hh.
    assert (potential w' ≤ potential w) as Hp.
    { apply potential_le; [done|by rewrite (Hsp Hlen)|by intros; apply Hc|]. intros l i Hl Hi.
      apply Nat.eq_le_incl, slot_weight_same; try done; [apply (r_sig _ _ _ _ _ HR)|].
      destruct (lpair (w_mem w) l i) as [mk|] eqn:E.
      - eapply calm_pair; [done|apply (r_marks _ _ _ _ _ HR)|done..].
      - unfold lpair in *. rewrite (proj2 (Hc l Hl) i Hi).
        destruct (slot (w_mem w) l i) as [c|] eqn:Es; [|done].
        destruct (u_pair _ _ HU l i Hl) as (mk & Hmk & _); [split; [done|by eapply slot_height]|].
        unfold lpair in Hmk. rewrite Es in Hmk. simpl in *. congruence. }
    destruct (r_still _ _ _ _ _ HR Hlen) as (_ & _ & _ & Hcell).
    pose proof (unrest_stable zeroV less one 1 HR Hlen) as Hun. unfold slack. split; [done|].
    split; [lia|].
    intros l [|i] Hl.
    + rewrite !slot_cell. destruct (Hcell l Hl); [by left|right; lia].
    + left. apply Hc; [done|lia].
Qed.

Lemma calm_UInv t w w' :
  UInv w → LInv w' → LR t w w' → calm w w' →
  home (w_aux w') = home (w_aux w) → spare (w_aux w') = spare (w_aux w) →
  (∀ l, is_Some (dead (w_aux w') !! l) → is_Some (home (w_aux w) !! l) →
     marked (w_mem w) l 0 ∨ ∀ j, 1 ≤ j < height (w_mem w) l → marked (w_mem w) l j) →
  UInv w'.
Proof.
  intros HU HI' HR Hc Hh Hsp Hdead.
  assert (∀ l i, is_Some (home (w_aux w) !! l) → 1 ≤ i → marked (w_mem w) l i →
    marked (w_mem w') l i) as Hmk.
  { intros l i Hl Hi (mk & Hp & Hm). exists mk. split; [|done].
    eapply calm_pair; [done|apply (r_marks _ _ _ _ _ HR)|done..]. }
  split; rewrite ?Hh, ?Hsp.
  - apply (u_home _ _ HU).
  - intros l Hl. destruct (u_tall _ _ HU l Hl) as (h & z & Ht & ? & ? & Hk).
    exists h, z. rewrite (proj1 (Hc l Hl)). split; [done|]. split; [done|]. split; [done|].
    unfold key_at. by rewrite (r_sig _ _ _ _ _ HR).
  - intros l i Hl Hi. rewrite (height_tall _ _ _ (proj1 (Hc l Hl))) in Hi.
    destruct (u_pair _ _ HU l i Hl Hi) as (mk & Hp & Hok). exists mk. split.
    + eapply calm_pair; [done|apply (r_marks _ _ _ _ _ HR)|done|lia|done].
    + eapply pair_ok_mono; [done|done|by rewrite Hh|apply (r_sig _ _ _ _ _ HR)|by intros; apply Hc].
  - intros l i j Hl Hij Hm. rewrite (height_tall _ _ _ (proj1 (Hc l Hl))) in Hij.
    destruct (decide (i = j)) as [->|Hne]; [done|]. apply Hmk; [done|lia|]. destruct i as [|i].
    + destruct Hm as (mk & Hp & Hm). rewrite pair_link in Hp.
      destruct Hl as [b Hb]. assert (home (w_aux w') !! l = Some b) as Hb' by by rewrite Hh.
      destruct (i_pub _ _ _ _ _ HI' _ _ Hb') as (s & mk' & Hok).
      pose proof (p_link _ _ _ _ _ _ _ _ Hok) as Hlk. rewrite Hp in Hlk. injection Hlk as <-.
      apply (p_marked _ _ _ _ _ _ _ _ Hok) in Hm.
      destruct (Hdead l Hm) as [Hm0|Hall]; [by eexists| |apply Hall; lia].
      apply (u_marks _ _ HU l 0 j); [by eexists|lia|done].
    + apply (u_marks _ _ HU l (S i) j); [done|lia|]. destruct Hm as (mk & Hp & Hm). exists mk.
      split; [|done]. destruct (u_pair _ _ HU l (S i) Hl) as (mk' & Hp' & _); [lia|].
      pose proof (calm_pair w w' l (S i) mk' Hc (r_marks _ _ _ _ _ HR) Hl ltac:(lia) Hp') as E.
      congruence.
  - apply (u_spare _ _ HU).
Qed.

Lemma calm_step t w w' :
  Inv w → list_step t w w' → calm w w' →
  home (w_aux w') = home (w_aux w) → spare (w_aux w') = spare (w_aux w) →
  (∀ l, is_Some (dead (w_aux w') !! l) → is_Some (home (w_aux w) !! l) →
     marked (w_mem w) l 0 ∨ ∀ j, 1 ≤ j < height (w_mem w) l → marked (w_mem w) l j) →
  good_step t w w'.
Proof.
  intros [HI HU] Hg Hc Hh Hsp Hd. pose proof (step_facts _ _ _ Hg) as HR. destruct Hg as [HI' HRs].
  split; [split; [done|by eapply calm_UInv]|].
  intros u Hu. split; [by apply HRs|]. by eapply (calm_UR (S t)).
Qed.

(** Nodes that are marked stay so. *)
Lemma dead_marked w l : LInv w → is_Some (home (w_aux w) !! l) →
  is_Some (dead (w_aux w) !! l) ↔ marked (w_mem w) l 0.
Proof.
  intros HI [b Hb]. destruct (i_pub _ _ _ _ _ HI _ _ Hb) as (s & mk & Hok).
  pose proof (p_link _ _ _ _ _ _ _ _ Hok) as Hlk. rewrite <-(p_marked _ _ _ _ _ _ _ _ Hok).
  unfold marked. rewrite pair_link, Hlk. split; [by eexists|by intros (? & [= <-] & ?)].
Qed.

Lemma calm_same_dead t w w' :
  Inv w → list_step t w w' → calm w w' →
  home (w_aux w') = home (w_aux w) → spare (w_aux w') = spare (w_aux w) →
  dead (w_aux w') = dead (w_aux w) → good_step t w w'.
Proof.
  intros HI Hg Hc Hh Hsp Hd. apply calm_step; try done. intros l Hl Hhl. left.
  rewrite Hd in Hl. by apply dead_marked; [apply HI|..].
Qed.
(** ** Changing a pointer of a higher level *)

Definition set_slot m l i (c : loc) : mem :=
  match nodes m !! l with
  | Some n => f_set nodes_f (<[l := f_set nexts_f (<[i := Some c]> (sn_nexts n)) n]> (nodes m)) m
  | None => m
  end.

Section set_slot.
Context m l i (c : loc).

Lemma set_slot_node x : nodes (set_slot m l i c) !! x =
  if decide (x = l) then (λ nd : skipnode K V, f_set nexts_f (<[i := Some c]> (sn_nexts nd)) nd) <$> nodes m !! l
  else nodes m !! x.
Proof.
  unfold set_slot. destruct (nodes m !! l) as [n|] eqn:Hl; simpl; case_decide as Hx; [subst..|].
  - apply list_lookup_insert_eq. by eapply lookup_lt_Some.
  - by rewrite list_lookup_insert_ne.
  - done.
  - done.
Qed.

Lemma set_slot_tall x : tall (set_slot m l i c) x = tall m x.
Proof.
  unfold tall. rewrite set_slot_node. case_decide; [subst|done].
  destruct (nodes m !! l); [|done]. simpl. by rewrite length_insert.
Qed.

Lemma set_slot_slot x j : i < height m l →
  slot (set_slot m l i c) x j = if decide (x = l ∧ j = i) then Some c else slot m x j.
Proof.
  intros Hi. unfold slot. rewrite set_slot_node. destruct (decide (x = l)) as [->|Hx].
  - unfold height, tall in Hi. destruct (nodes m !! l) as [n|]; [|simpl in Hi; lia]. simpl in *.
    destruct (decide (j = i)) as [->|Hj].
    + rewrite decide_True, list_lookup_insert_eq by done. done.
    + rewrite decide_False, list_lookup_insert_ne by naive_solver. done.
  - rewrite decide_False by naive_solver. done.
Qed.

Lemma set_slot_list x :
  sig_of (set_slot m l i c) x = sig_of m x ∧ val_of (set_slot m l i c) x = val_of m x.
Proof.
  unfold sig_of, val_of, node_at. simpl. rewrite set_slot_node. case_decide; [subst|done].
  by destruct (nodes m !! l).
Qed.

Lemma set_slot_some x : is_Some (nodes m !! x) → is_Some (nodes (set_slot m l i c) !! x).
Proof.
  intros [n Hn]. rewrite set_slot_node. case_decide; [subst|]; rewrite Hn; by eexists.
Qed.

Lemma set_slot_rest :
  marks (set_slot m l i c) = marks m ∧ head (set_slot m l i c) = head m.
Proof. unfold set_slot. by destruct (nodes m !! l). Qed.
End set_slot.

Section upper.
Context (t : nat) (w : world) (l i : nat) (c : loc) (mk0 mk : listMarkable) (spare' : gmap loc nat).
Context (HI : Inv w) (Hl : is_Some (home (w_aux w) !! l)) (Hi : 1 ≤ i).
Context (Hmk0 : lpair (w_mem w) l i = Some mk0) (Hold : lm_marked mk0 = false).
Context (Hc : marks (w_mem w) !! c = Some mk) (Hmk : pair_ok less w l i mk).
Context (Htop : lm_marked mk = true → ∀ j, i < j < height (w_mem w) l → marked (w_mem w) l j).
Context (Hsub : spare' ⊆ spare (w_aux w)).
Context (Hothers : ∀ u a, u ≠ t → spare (w_aux w) !! a = Some u → spare' !! a = Some u).
Context (Hless : pair_weight less w mk + (size (home (w_aux w)) + 1) * size spare' <
  pair_weight less w mk0 + (size (home (w_aux w)) + 1) * size (spare (w_aux w))).

Let w' := upd Sp w (set_slot (w_mem w) l i c) [] (with_own (w_aux w) (own (w_aux w)) spare').

Lemma upper_height : i < height (w_mem w) l.
Proof using Hmk0. destruct (pair_slot _ _ _ _ Hmk0) as (? & ? & _). by eapply slot_height. Qed.

Lemma upper_pair x j :
  lpair (w_mem w') x j = if decide (x = l ∧ j = i) then Some mk else lpair (w_mem w) x j.
Proof using Hmk0 Hc.
  unfold lpair. simpl. rewrite set_slot_slot by apply upper_height.
  rewrite (proj1 (set_slot_rest _ _ _ _)). case_decide; [exact Hc|done].
Qed.

Lemma upper_list_step : list_step t w w'.
Proof using All.
  destruct HI as [HL HU]. apply list_touch_step; simpl; try done.
  - intros x [b Hx]. destruct (set_slot_list (w_mem w) l i c x) as [-> ->].
    split; [|split; [done|split; [done|]]].
    + apply set_slot_some. exact (pub_node _ _ _ _ _ _ _ HL Hx).
    + rewrite <-!slot_cell, set_slot_slot by apply upper_height.
      rewrite decide_False; [done|]. intros [_ ?]. lia.
  - by rewrite (proj1 (set_slot_rest _ _ _ _)).
  - by rewrite (proj2 (set_slot_rest _ _ _ _)).
  - intros x u Hx. destruct (i_own _ _ _ _ _ HL _ _ Hx). split; [done|]. by apply set_slot_some.
  - intros u x _ Hx. split; [done|]. unfold node_at. simpl. rewrite set_slot_node.
    rewrite decide_False; [done|]. intros ->. destruct (i_own _ _ _ _ _ HL _ _ Hx) as [E _].
    destruct Hl as [b Hb]. congruence.
Qed.

Lemma upper_marked x j : marked (w_mem w) x j → marked (w_mem w') x j.
Proof using Hmk0 Hc Hold.
  intros (mk1 & Hp & Hm). unfold marked. rewrite upper_pair. case_decide as E.
  - destruct E as [-> ->]. rewrite Hmk0 in Hp. injection Hp as <-. congruence.
  - by exists mk1.
Qed.

Lemma upper_UInv : UInv w'.
Proof using All.
  destruct HI as [HL HU]. pose proof (step_facts _ _ _ upper_list_step) as HR.
  assert (∀ x, tall (w_mem w') x = tall (w_mem w) x) as Ht by (intros; apply set_slot_tall).
  assert (∀ x, is_Some (home (w_aux w) !! x) → sig_of (w_mem w') x = sig_of (w_mem w) x) as Hs
    by (intros; apply set_slot_list).
  assert (∀ x j mk, pair_ok less w x j mk → is_Some (home (w_aux w) !! x) → pair_ok less w' x j mk) as Hok.
  { intros x j mk1 H1 Hx. eapply pair_ok_mono; [done..|]. intros; apply Ht. }
  split.
  - apply (u_home _ _ HU).
  - intros x Hx. rewrite Ht. destruct (u_tall _ _ HU x Hx) as (h & z & ? & ? & ? & Hk).
    exists h, z. split; [done|]. split; [done|]. split; [done|]. unfold key_at. by rewrite Hs.
  - intros x j Hx Hj. rewrite (height_tall _ _ _ (Ht x)) in Hj. rewrite upper_pair. case_decide as E.
    + destruct E as [-> ->]. exists mk. split; [done|]. by apply Hok.
    + destruct (u_pair _ _ HU x j Hx Hj) as (mk1 & ? & ?). exists mk1. split; [done|]. by apply Hok.
  - intros x j j' Hx Hj Hm. rewrite (height_tall _ _ _ (Ht x)) in Hj.
    destruct (decide (j = j')) as [->|Hne]; [done|]. destruct (decide (x = l ∧ j = i)) as [[-> ->]|E].
    + apply upper_marked, Htop; [|lia]. destruct Hm as (mk1 & Hp & Hm). rewrite upper_pair in Hp.
      rewrite decide_True in Hp by done. by injection Hp as <-.
    + apply upper_marked, (u_marks _ _ HU x j); [done|done|]. destruct Hm as (mk1 & Hp & Hm).
      rewrite upper_pair, decide_False in Hp by done. by exists mk1.
  - intros a u Ha. apply (u_spare _ _ HU a u). exact (lookup_weaken _ _ _ _ Ha Hsub).
Qed.

Lemma upper_slack : slack w' < slack w.
Proof using All.
  destruct HI as [HL HU].
  assert (∀ x, is_Some (home (w_aux w) !! x) → sig_of (w_mem w') x = sig_of (w_mem w) x) as Hs
    by (intros; apply set_slot_list).
  unfold slack. change (unrest w') with (unrest w). apply Nat.add_lt_mono_l.
  apply (potential_lt less w w' l i); [done|done| |intros; apply set_slot_tall| |].
  - split; [done|apply upper_height].
  - intros x j Hx Hj Hne. apply Nat.eq_le_incl, slot_weight_same; try done.
    rewrite upper_pair, decide_False; [done|]. intros [-> ->]. done.
  - unfold slot_weight. rewrite upper_pair, decide_True, Hmk0 by done.
    by rewrite (pair_weight_same less w w' l i mk).
Qed.

Lemma upper_step : good_step t w w'.
Proof using All.
  pose proof upper_list_step as [HL' HR]. split; [split; [exact HL'|exact upper_UInv]|].
  intros u Hu. split; [by apply HR|]. split.
  - intros x _. apply set_slot_tall.
  - intros x j Hx Hj Hm. simpl. rewrite set_slot_slot by apply upper_height. case_decide as E; [|done].
    destruct E as [-> ->]. destruct Hm as (mk1 & Hp & Hm). rewrite Hmk0 in Hp. injection Hp as <-.
    congruence.
  - intros _. split; [done|]. split; [apply Nat.lt_le_incl, upper_slack|]. intros x j _. right.
    apply upper_slack.
Qed.
End upper.

(** A step without an effect that leaves the ghost state alone is one that its
    own goroutine may rely on as well. *)
Lemma with_own_same (a : aux) : with_own a (own a) (spare a) = a.
Proof. by destruct a. Qed.

Lemma goes_key w l i y : goes less w l i y → is_Some (sig_of (w_mem w) y).
Proof. intros (_ & _ & Hb). unfold before in Hb. destruct (sig_of _ l), (sig_of _ y); done. Qed.

(** [find] unlinks the marked node [d] behind [p]. *)
Lemma unlink_upper_step t w p i (c d : loc) (y : option loc) :
  Inv w → is_Some (home (w_aux w) !! p) → 1 ≤ i →
  lpair (w_mem w) p i = Some (ListMarkable (Some d) false) →
  lpair (w_mem w) d i = Some (ListMarkable y true) →
  marks (w_mem w) !! c = Some (ListMarkable y false) →
  let w' := upd Sp w (set_slot (w_mem w) p i c) [] (w_aux w) in
  good_step t w w' ∧ slack w' < slack w.
Proof.
  intros HI Hp Hi Hpd Hd Hc w'. pose proof HI as [HL HU].
  destruct (u_pair _ _ HU p i Hp) as (mk1 & Hp1 & Hok1).
  { destruct (pair_slot _ _ _ _ Hpd) as (? & ? & _). split; [done|by eapply slot_height]. }
  rewrite Hpd in Hp1. injection Hp1 as <-. destruct (q_goes _ _ _ _ _ Hok1 d eq_refl) as (Hhd & Hid & Hbd).
  destruct (u_pair _ _ HU d i Hhd ltac:(done)) as (mk2 & Hp2 & Hok2).
  rewrite Hd in Hp2. injection Hp2 as <-.
  assert (is_Some y) as [z ->].
  { destruct y as [z|]; [by eexists|]. destruct (q_end _ _ _ _ _ Hok2 eq_refl) as (s & Hs & Hk).
    destruct (q_marked _ _ _ _ _ Hok2 eq_refl) as [k Hkk]. unfold key_at in Hkk.
    rewrite Hs in Hkk. simpl in Hkk. case_bool_decide; [lia|done]. }
  destruct (q_goes _ _ _ _ _ Hok2 z eq_refl) as (Hhz & Hiz & Hbz).
  pose proof (sl_above_lt less w d z Hhz Hbz) as Hlt.
  assert (w' = upd Sp w (set_slot (w_mem w) p i c) [] (with_own (w_aux w) (own (w_aux w)) (spare (w_aux w))))
    as -> by by rewrite with_own_same.
  assert (pair_ok less w p i (ListMarkable (Some z) false)) as Hok.
  { split; [done| |done]. intros y [= <-]. split; [done|]. split; [done|]. by eapply before_trans. }
  split; [apply (upper_step t w p i c (ListMarkable (Some d) false) (ListMarkable (Some z) false))|
    apply (upper_slack t w p i c (ListMarkable (Some d) false) (ListMarkable (Some z) false))];
    try done; unfold pair_weight; simpl; lia.
Qed.

(** [Del] marks the key node [l] at level [i]. *)
Lemma mark_upper_step t w l i (c : loc) (r : option loc) :
  Inv w → is_Some (home (w_aux w) !! l) → is_Some (key_at less (w_mem w) l) → 1 ≤ i →
  lpair (w_mem w) l i = Some (ListMarkable r false) →
  (∀ j, i < j < height (w_mem w) l → marked (w_mem w) l j) →
  marks (w_mem w) !! c = Some (ListMarkable r true) →
  let w' := upd Sp w (set_slot (w_mem w) l i c) [] (w_aux w) in
  good_step t w w' ∧ slack w' < slack w.
Proof.
  intros HI Hl Hk Hi Hpd Htop Hc w'. pose proof HI as [HL HU].
  destruct (u_pair _ _ HU l i Hl) as (mk1 & Hp1 & Hok1).
  { destruct (pair_slot _ _ _ _ Hpd) as (? & ? & _). split; [done|by eapply slot_height]. }
  rewrite Hpd in Hp1. injection Hp1 as <-.
  assert (w' = upd Sp w (set_slot (w_mem w) l i c) [] (with_own (w_aux w) (own (w_aux w)) (spare (w_aux w))))
    as -> by by rewrite with_own_same.
  assert (pair_ok less w l i (ListMarkable r true)) as Hok by (split; [done|apply Hok1..]).
  split; [apply (upper_step t w l i c (ListMarkable r false) (ListMarkable r true))|
    apply (upper_slack t w l i c (ListMarkable r false) (ListMarkable r true))];
    try done; unfold pair_weight; simpl; destruct r; lia.
Qed.

(** [Set] links its node [n] at level [i]. *)
Lemma link_upper_step t w p i n (c : loc) (r : option loc) :
  Inv w → is_Some (home (w_aux w) !! p) → 1 ≤ i →
  lpair (w_mem w) p i = Some (ListMarkable r false) → goes less w p i n →
  marks (w_mem w) !! c = Some (ListMarkable (Some n) false) →
  spare (w_aux w) !! (levels * n + i) = Some t →
  let w' := upd Sp w (set_slot (w_mem w) p i c) []
    (with_own (w_aux w) (own (w_aux w)) (delete (levels * n + i) (spare (w_aux w)))) in
  good_step t w w'.
Proof.
  intros HI Hp Hi Hpd Hg Hc Hs w'.
  assert (pair_ok less w p i (ListMarkable (Some n) false)) as Hok by (split; [done|by intros ? [= <-]|done]).
  pose proof (above_size_lt less w n (proj1 Hg)) as Ha.
  assert (size (spare (w_aux w)) ≠ 0) as Hne.
  { apply map_size_ne_0_lookup. eexists. by rewrite Hs. }
  apply (upper_step t w p i c (ListMarkable r false) (ListMarkable (Some n) false)); try done.
  - apply delete_subseteq.
  - intros u a Hu Ha'. rewrite lookup_delete_ne; [done|]. intros <-. congruence.
  - rewrite map_size_delete_Some by by eexists. unfold pair_weight. simpl.
    destruct (size (spare (w_aux w))) as [|z]; [done|]. simpl. destruct r; nia.
Qed.

(** ** Writes of the bottom level *)

Lemma set_next_tall m p (c : loc) x : 1 ≤ height m p → tall (set_next p c m) x = tall m x.
Proof.
  intros Hp. unfold tall. change (nodes (set_next p c m) !! x) with (node_at (set_next p c m) x).
  unfold set_next. rewrite set_node_at. case_decide; [subst|done]. unfold height, tall in Hp.
  change (nodes m !! p) with (node_at m p) in *. destruct (node_at m p) as [n|]; [|done].
  simpl in *. destruct (sn_nexts n); simpl in *; [lia|done].
Qed.

Lemma set_next_slot m p (c : loc) x j : 1 ≤ height m p → 1 ≤ j →
  slot (set_next p c m) x j = slot m x j.
Proof.
  intros Hp Hj. unfold slot. change (nodes (set_next p c m) !! x) with (node_at (set_next p c m) x).
  unfold set_next. rewrite set_node_at. case_decide; [subst|done]. unfold height, tall in Hp.
  change (nodes m !! p) with (node_at m p) in *. destruct (node_at m p) as [n|]; [|done].
  destruct j as [|j]; [lia|]. simpl in *. by destruct (sn_nexts n).
Qed.

Lemma pub_height w l : UInv w → is_Some (home (w_aux w) !! l) → 1 ≤ height (w_mem w) l ≤ levels.
Proof.
  intros HU Hl. destruct (u_tall _ _ HU l Hl) as (h & z & Ht & _ & Hh & _).
  unfold height. by rewrite Ht.
Qed.

Lemma calm_next w w' p (c : loc) :
  UInv w → is_Some (home (w_aux w) !! p) → w_mem w' = set_next p c (w_mem w) → calm w w'.
Proof.
  intros HU Hp Hm l _. rewrite Hm. pose proof (pub_height w p HU Hp).
  split; [apply set_next_tall; lia|]. intros i Hi. apply set_next_slot; lia.
Qed.

Lemma calm_nodes w w' :
  (∀ l, is_Some (home (w_aux w) !! l) → nodes (w_mem w') !! l = nodes (w_mem w) !! l) → calm w w'.
Proof. intros Hn l Hl. unfold tall, slot. by rewrite Hn. Qed.

Lemma calm_val w w' l v :
  w_mem w' = set_val l v (w_mem w) → calm w w'.
Proof.
  intros Hm x _. unfold tall, slot. change (nodes (w_mem w') !! x) with (node_at (w_mem w') x).
  rewrite Hm. unfold set_val. rewrite set_node_at. case_decide; [subst|done].
  change (nodes (w_mem w) !! l) with (node_at (w_mem w) l). by destruct (node_at (w_mem w) l).
Qed.

(** [find] unlinks a node at the bottom level. *)
Lemma unlink_lowest_step p sp (c d : loc) (y : option loc) w :
  Inv w → pub p 0 sp w → link (w_mem w) p = Some (ListMarkable (Some d) false) →
  link (w_mem w) d = Some (ListMarkable y true) →
  mark_at (Some c) (ListMarkable y false) w → ∃ a,
  let w' := upd Sp w (set_next p c (w_mem w)) [] a in
  (∀ t, good_step t w w') ∧ slack w' < slack w.
Proof.
  intros [HL HU] Hp Hl Hd Hc.
  assert (∀ k1 k2 : K, same_key less k1 k2 = true → one k1 = one k2) as Hbucket by done.
  assert (∀ k : K, one k < 1) as Hrange by (intros; lia).
  set (a := ListAux (home (w_aux w)) (own (w_aux w)) (dead (w_aux w)) (limbo (w_aux w) ∖ {[d]})
    (commit (w_aux w)) (blanks (w_aux w)) (spare (w_aux w))).
  set (w1 := upd Sp w (set_next p c (w_mem w)) [] a).
  assert (∀ t, list_step t w w1 ∧ unrest w1 < unrest w) as Hs.
  { intros t'. exact (unlink_step zeroV less one 1 Hbucket Hrange t' p d c y 0 sp w HL Hp Hl Hd Hc). }
  exists a. cbn zeta. fold w1.
  pose proof (calm_next w w1 p c HU ltac:(eexists; apply Hp) eq_refl) as Hcalm. split.
  { intros t'. by apply calm_same_dead; [|apply Hs|..]. }
  destruct (Hs 0) as [_ Hun]. unfold slack. enough (potential w1 ≤ potential w) by lia.
  apply potential_le; [done..|by intros; apply Hcalm|]. intros l i Hll Hi.
  apply Nat.eq_le_incl, slot_weight_same; try done.
  { intros x _. simpl. by autorewrite with list_mem. }
  unfold lpair. rewrite (proj2 (Hcalm l Hll) i Hi). simpl.
  assert (marks (set_next p c (w_mem w)) = marks (w_mem w)) as ->; [|done].
  exact (set_next_marks (w_mem w) p c).
Qed.

(** [Del] marks the bottom level, the last one. *)
Lemma mark_lowest_step t k kd s d (c : loc) (y : option loc) w :
  Inv w → ready t (MDel k) w → pub d 0 s w → key_of less s = Some kd → same_key less kd k = true →
  (∀ j, 1 ≤ j < height (w_mem w) d → marked (w_mem w) d j) →
  link (w_mem w) d = Some (ListMarkable y false) →
  mark_at (Some c) (ListMarkable y true) w → ∃ us a d0 dp,
  let w' := upd Sp w (set_next d c (w_mem w)) us a in
  good_step t w w' ∧ open_at t (MDel k) dp w' ∧ dead (w_aux w') !! d = Some (d0, dp) ∧
  after_call t d0 w'.
Proof.
  intros [HL HU] Hr Hd Hs Hk Htop Hl Hc.
  assert (∀ k1 k2 : K, same_key less k1 k2 = true → one k1 = one k2) as Hbucket by done.
  assert (∀ k : K, one k < 1) as Hrange by (intros; lia).
  destruct (mark_step zeroV less one 1 Hbucket Hrange t k kd s d c y 0 w HL Hr Hd Hs Hk Hl Hc)
    as (Hg & Ho & Hdd).
  eexists _, _, _, _. split; [|split; [exact Ho|exact Hdd]].
  apply calm_step; try done.
  - eapply calm_next; [done|eexists; apply Hd|done].
  - intros l. simpl. rewrite lookup_insert_is_Some. intros [<-|[_ Hl']] Hhl; [by right|left].
    by apply dead_marked.
Qed.

(** The ghost component [spare] is no part of the list. *)
Lemma list_respare t w w' (sp : gmap loc nat) :
  list_step t w w' → (∀ u a, u ≠ t → spare (w_aux w) !! a = Some u → sp !! a = Some u) →
  list_step t w (World (w_mem w') (w_gh w') (with_own (w_aux w') (own (w_aux w')) sp)).
Proof.
  intros [HI HR] Hsp. split.
  - split; simpl; try apply HI.
    intros l b Hl. destruct (i_pub _ _ _ _ _ HI _ _ Hl) as (s & mk & Hok). exists s, mk.
    by eapply pub_ok_mono; [exact Hok|..|apply Hok| |].
  - intros u Hu. destruct (HR u Hu). split; try done. intros a Ha. by apply Hsp.
Qed.

(** [Set] publishes its node, and keeps the right to link it at the other levels. *)
Definition links t n h : gmap loc nat :=
  list_to_map ((λ i, (levels * n + i, t)) <$> seq 1 (h - 1)).

Lemma links_lookup t n h a u :
  links t n h !! a = Some u ↔ u = t ∧ ∃ i, a = levels * n + i ∧ 1 ≤ i < h.
Proof.
  unfold links. rewrite <-elem_of_list_to_map.
  - rewrite list_elem_of_fmap. split.
    + intros (i & [= -> ->] & Hi%elem_of_seq). split; [done|]. exists i. split; [done|lia].
    + intros [-> (i & -> & Hi)]. exists i. split; [done|]. apply elem_of_seq. lia.
  - rewrite <-list_fmap_compose. apply NoDup_fmap; [|apply NoDup_seq].
    intros i j. simpl. lia.
Qed.

Lemma level_inj n i l j : levels * n + i = levels * l + j → i < levels → j < levels → n = l ∧ i = j.
Proof. replace levels with 32 by reflexivity. lia. Qed.

Section publish.
Context t k v p n (c : loc) (y : option loc) (sp : sig) (nd : skipnode K V) w.
Context (HI : Inv w) (Hready : ready t (MSet k v) w) (Hgap : gap less p 0 sp y (sig_for less k) w).
Context (Hn : private t n nd w) (Hsig : sh_sig nd = (0%Z, k)) (Hval : sn_val nd = Some v).
Context (Hlink : link (w_mem w) n = Some (ListMarkable y false)).
Context (Hc : mark_at (Some c) (ListMarkable (Some n) false) w).
Context (Htop : Z.of_nat (length (sn_nexts nd)) = (sn_topLevel nd + 1)%Z).
Context (Hlevels : length (sn_nexts nd) ≤ levels).
Context (Hup : ∀ i, 1 ≤ i < length (sn_nexts nd) → ∃ r,
  lpair (w_mem w) n i = Some (ListMarkable (Some r) false) ∧ goes less w n i r).

Let m' : mem := set_next p c (w_mem w).
Let h := length (sn_nexts nd).
Let sp' := links t n h ∪ spare (w_aux w).
Let w' : world := upd Sp w m' [t] (ListAux (<[n := 0]> (home (w_aux w))) (delete n (own (w_aux w)))
  (dead (w_aux w)) (limbo (w_aux w)) (commit (w_aux w)) (blanks (w_aux w)) sp').

Lemma publish_fresh : home (w_aux w) !! n = None.
Proof using HI Hn. destruct HI as [HL _], Hn as [Ho _]. by destruct (i_own _ _ _ _ _ HL _ _ Ho). Qed.

Lemma publish_others u a : u ≠ t → spare (w_aux w) !! a = Some u → sp' !! a = Some u.
Proof using All.
  pose proof publish_fresh as Hfresh. intros Hu Ha. unfold sp'. rewrite lookup_union_r; [done|].
  destruct (links t n h !! a) as [u'|] eqn:E; [|done].
  apply links_lookup in E as [_ (i & -> & Hi)]. destruct HI as [HL HU].
  destruct (u_spare _ _ HU _ _ Ha) as (l & j & Hj & Hl & ?).
  apply level_inj in Hj as [-> _]; [|unfold h in Hi; lia|done].
  rewrite Hfresh in Hl. by destruct Hl.
Qed.

Lemma publish_list_step : list_step t w w' ∧ done_with t MRDone w' ∧ w_len w' = S (w_len w).
Proof using All.
  assert (∀ k1 k2 : K, same_key less k1 k2 = true → one k1 = one k2) as Hbucket by done.
  assert (∀ k : K, one k < 1) as Hrange by (intros; lia).
  destruct HI as [HL _], Hn as [Ho Hnd].
  destruct (insert_step zeroV less one 1 Hbucket Hrange t k v p n c y sp w HL Hready Hgap Ho)
    as [Hg Hd]; [unfold sig_of; rewrite Hnd; by apply (f_equal Some)|
      unfold val_of; by rewrite Hnd|done|done|].
  split; [|split; [exact Hd|]].
  - exact (list_respare t w _ sp' Hg publish_others).
  - destruct Hready as [Hp _]. by destruct (lin1_pending Sp _ _ _ MRDone Hp eq_refl) as (_ & _ & ? & _).
Qed.

Lemma publish_tall l : tall m' l = tall (w_mem w) l.
Proof using HI Hgap.
  apply set_next_tall. destruct Hgap as [[Hp _] _], HI as [_ HU].
  by pose proof (pub_height w p HU ltac:(by eexists)) as [? _].
Qed.

Lemma publish_slot l i : 1 ≤ i → slot m' l i = slot (w_mem w) l i.
Proof using HI Hgap.
  apply set_next_slot. destruct Hgap as [[Hp _] _], HI as [_ HU].
  by pose proof (pub_height w p HU ltac:(by eexists)) as [? _].
Qed.

Lemma publish_pair l i : 1 ≤ i → lpair m' l i = lpair (w_mem w) l i.
Proof using HI Hgap.
  intros Hi. unfold lpair. rewrite publish_slot by done.
  assert (marks m' = marks (w_mem w)) as ->; [|done]. exact (set_next_marks (w_mem w) p c).
Qed.

Lemma publish_UInv : UInv w'.
Proof using All.
  destruct publish_list_step as (Hg & _ & _). pose proof (step_facts _ _ _ Hg) as HR.
  destruct Hg as [HL' _]. pose proof HI as [HL HU].
  assert (tall (w_mem w) n = Some (h, sn_topLevel nd)) as Hnt.
  { destruct Hn as [_ E]. unfold tall. change (nodes (w_mem w) !! n) with (node_at (w_mem w) n).
    by rewrite E. }
  assert (∀ x, sig_of m' x = sig_of (w_mem w) x) as Hs
    by (intros x; unfold m'; by autorewrite with list_mem).
  assert (∀ x i r, goes less w x i r → goes less w' x i r) as Hgo.
  { intros x i r ([b Hr] & Hi & Hb). split; [|split].
    - simpl. apply lookup_insert_is_Some'. right. by exists b.
    - change (w_mem w') with m'. by rewrite (height_tall _ _ _ (publish_tall r)).
    - by apply (before_same _ (w_mem w)). }
  split; change (w_mem w') with m'; change (home (w_aux w')) with (<[n := 0]> (home (w_aux w))).
  - intros l b [[<- <-]|[_ Hb]]%lookup_insert_Some; [done|]. by apply (u_home _ _ HU) in Hb.
  - intros l [<-|Hl]%lookup_insert_is_Some'; rewrite publish_tall.
    + exists h, (sn_topLevel nd). split; [done|]. split; [done|]. split.
      * split; [|done]. rewrite <-pair_link in Hlink.
        destruct (pair_slot _ _ _ _ Hlink) as (? & Hc0 & _). apply slot_height in Hc0.
        unfold height in Hc0. rewrite Hnt in Hc0. exact Hc0.
      * unfold key_at. rewrite Hs. destruct Hn as [_ E]. unfold sig_of. rewrite E. simpl.
        by injection Hsig as -> ->.
    + destruct (u_tall _ _ HU l Hl) as (h1 & z & ? & ? & ? & Hk). exists h1, z.
      split; [done|]. split; [done|]. split; [done|]. unfold key_at. by rewrite Hs.
  - intros l i Hl Hi. rewrite (height_tall _ _ _ (publish_tall l)) in Hi.
    rewrite publish_pair by lia. apply lookup_insert_is_Some' in Hl as [<-|Hl].
    + unfold height in Hi. rewrite Hnt in Hi. destruct (Hup i Hi) as (r & Hr & Hgr).
      exists (ListMarkable (Some r) false). split; [done|]. split; [done| |done].
      intros ? [= <-]. by apply Hgo.
    + destruct (u_pair _ _ HU l i Hl Hi) as (mk & ? & [Q1 Q2 Q3]). exists mk. split; [done|].
      split; [unfold key_at; by rewrite Hs|intros; by apply Hgo, Q2|by rewrite Hs].
  - intros l i j Hl Hij Hm. rewrite (height_tall _ _ _ (publish_tall l)) in Hij.
    destruct (decide (i = j)) as [->|Hne]; [done|].
    assert (is_Some (home (w_aux w) !! l) → marked (w_mem w) l i → marked m' l j) as Hold.
    { intros Hl0 Hm0. destruct (u_marks _ _ HU l i j Hl0 Hij Hm0) as (mk & ? & ?). exists mk.
      rewrite publish_pair by lia. done. }
    destruct i as [|i].
    + apply (dead_marked w' l HL' Hl) in Hm. change (dead (w_aux w')) with (dead (w_aux w)) in Hm.
      assert (is_Some (home (w_aux w) !! l)) as Hl0.
      { destruct Hm as [[d0 dp] Hm]. by destruct (i_dead _ _ _ _ _ HL _ _ _ Hm). }
      by apply Hold, dead_marked.
    + apply lookup_insert_is_Some' in Hl as [<-|Hl].
      * destruct Hm as (mk & Hp & Hm). rewrite publish_pair in Hp by lia.
        unfold height in Hij. rewrite Hnt in Hij. simpl in Hij.
        destruct (Hup (S i) ltac:(unfold h in Hij; lia)) as (r & Hr & _).
        rewrite Hp in Hr. by injection Hr as ->.
      * apply Hold; [done|]. destruct Hm as (mk & Hp & Hm). exists mk.
        by rewrite publish_pair in Hp by lia.
  - intros a u. simpl. unfold sp'. rewrite lookup_union_Some_raw.
    intros [[_ (i & -> & Hi)]%links_lookup|[_ Ha]].
    + exists n, i. split; [done|]. split; [|unfold h in Hi; lia].
      rewrite lookup_insert_eq. by eexists.
    + destruct (u_spare _ _ HU a u Ha) as (l & i & ? & Hl & ?). exists l, i. split; [done|].
      split; [|done]. apply lookup_insert_is_Some'. by right.
Qed.

Lemma publish_step :
  good_step t w w' ∧ done_with t MRDone w' ∧ home (w_aux w') !! n = Some 0 ∧
  w_len w' = S (w_len w) ∧ ∀ i, 1 ≤ i < h → spare (w_aux w') !! (levels * n + i) = Some t.
Proof using All.
  destruct publish_list_step as ([HL' HR] & Hd & Hlen).
  split; [|split; [done|split; [|split; [done|]]]].
  - split; [split; [exact HL'|exact publish_UInv]|]. intros u Hu. split; [by apply HR|]. split.
    + intros l _. apply publish_tall.
    + intros l i _ Hi _. by apply publish_slot.
    + lia.
  - simpl. by rewrite lookup_insert_eq.
  - intros i Hi. simpl. unfold sp'. apply lookup_union_Some_l, links_lookup. split; [done|]. by exists i.
Qed.
End publish.
End steps.
