(* ===== verification/SkipWalk.v ===== *)
(** The budgets of goroutines that walk [lf.SkipList], and verified accesses to the
    levels of its nodes. *)

From S2P Require Import ListCode.
From S2P Require Export SkipSteps.
Local Open Scope prog_scope.

#[export] Instance listMarkable_eq : EqDecision listMarkable.
Proof. solve_decision. Defined.

Section walk.
Context {K V : Type} (zeroV : V) (less : Less K) `{!WeakOrder less}.
#[local] Hint Extern 0 (NodeOrder _ _) => exact (MList.list_order less) : typeclass_instances.
#[local] Hint Extern 0 (Capacity _) => exact (MList.list_capacity 1) : typeclass_instances.
#[local] Hint Extern 0 (Rest _ _) => exact MList.list_rest : typeclass_instances.
Abbreviation Sp := (lmap_spec zeroV (same_key less) (ascending_range (V:=V) less)).
Abbreviation one := (λ _ : K, 0).
Abbreviation mem := (mem K V).
Abbreviation aux := (list_aux V).
Abbreviation world := (world mem (lmap_op K V) (lmap_resp K V) aux).
Abbreviation LInv := (ListInv.Inv zeroV less one 1).
Abbreviation lproto := (list_proto zeroV less one 1).
Abbreviation proto := (skip_proto zeroV less).
Abbreviation Inv := (pr_inv proto).
Abbreviation rely := (pr_rely proto).
Abbreviation lrely := (pr_rely lproto).
Abbreviation good_step := (good_step proto).
Abbreviation list_step := (Rules.good_step lproto).
Abbreviation sig := (Z * K)%type.
Abbreviation slack := (slack less).
Abbreviation above := (above less).
Abbreviation with_commit := (with_commit zeroV less).
Implicit Types (w : world) (t u n i j : nat) (l x y p : loc) (k : K) (v : V) (m : mem) (s : sig).

(** ** Steps that concern the bottom level alone *)

Lemma commit_upper t w cm : Inv w → list_step t w (with_commit w cm) → good_step t w (with_commit w cm).
Proof. intros HI Hg. by apply calm_same_dead. Qed.

Lemma mark_added w mk : Inv w →
  let w' := upd Sp w (add_mark mk (w_mem w)) [] (w_aux w) in ∀ u, good_step u w w'.
Proof.
  intros HI w' u. apply calm_same_dead; try done.
  apply (new_mark_step zeroV less one 1). apply HI.
Qed.

(** A step of [t] without an effect, whose ghost state the others do not see. *)
Definition plain t w w' : Prop := good_step t w w' ∧ w_gh w' = w_gh w ∧
  commit (w_aux w') = commit (w_aux w).

Lemma plain_intro t l w m' (a' : aux) :
  Inv w →
  let w' := upd Sp w m' [] a' in
  own_step zeroV less one 1 t l w w' →
  home a' = home (w_aux w) → spare a' = spare (w_aux w) → dead a' = dead (w_aux w) →
  (∀ x, is_Some (home (w_aux w) !! x) → nodes m' !! x = nodes (w_mem w) !! x) → plain t w w'.
Proof.
  intros HI w' (Hg & Hgh & Hc & _) ? ? ? Hn. split; [|by split].
  apply calm_same_dead; try done. by apply calm_nodes.
Qed.

Lemma sl_linked_node w l : Inv w → is_Some (home (w_aux w) !! l) → is_Some (nodes (w_mem w) !! l).
Proof. intros [HI _] [b Hl]. exact (pub_node _ _ _ _ _ _ _ HI Hl). Qed.

Lemma node_added t nd w :
  Inv w →
  let l := length (nodes (w_mem w)) in
  let w' := upd Sp w (f_set nodes_f (nodes (w_mem w) ++ [nd]) (w_mem w)) []
    (with_own (w_aux w) (<[l := t]> (own (w_aux w))) (spare (w_aux w))) in
  plain t w w' ∧ private t l nd w' ∧ ∀ x, is_Some (home (w_aux w') !! x) → x < l.
Proof.
  intros HI l w'. destruct (new_node_step zeroV less one 1 t nd w (proj1 HI)) as (Ho & Hp & _).
  assert (∀ x, is_Some (home (w_aux w) !! x) → x < l) as Hlt.
  { intros x Hx. by apply lookup_lt_is_Some, sl_linked_node. }
  split; [|split; [exact Hp|exact Hlt]]. apply (plain_intro t l); try done.
  intros x Hx. simpl. apply lookup_app_l, Hlt, Hx.
Qed.

Lemma private_stored t l nd nd' w :
  Inv w → private t l nd w →
  let w' := upd Sp w (f_set nodes_f (<[l := nd']> (nodes (w_mem w))) (w_mem w)) [] (w_aux w) in
  plain t w w' ∧ private t l nd' w'.
Proof.
  intros HI Hp w'. destruct (store_private_step zeroV less one 1 t l nd nd' w (proj1 HI) Hp) as [Ho Hp'].
  split; [|exact Hp']. apply (plain_intro t l); try done. intros x [b Hx]. simpl.
  apply list_lookup_insert_ne. intros <-. destruct Hp as [Hl _].
  destruct (i_own _ _ _ _ _ (proj1 HI) _ _ Hl). congruence.
Qed.

(** The length and the random numbers. *)
Lemma rest_changed t w m' :
  Inv w → nodes m' = nodes (w_mem w) → marks m' = marks (w_mem w) → head m' = head (w_mem w) →
  plain t w (upd Sp w m' [] (w_aux w)).
Proof.
  intros HI Hn Hm Hh. apply (plain_intro t 0); try done; [|by rewrite Hn].
  apply own_step_same; try done; [apply HI|simpl; by rewrite Hm|simpl; by rewrite Hh].
Qed.

(** The steps of the others, and those of [t] that no one sees. *)
Definition kept t : relation world := rtc (λ w w', rely t w w' ∨ plain t w w').

Lemma rely_kept t w w' : rely t w w' → kept t w w'.
Proof. intros HR. apply rtc_once. by left. Qed.
Lemma plain_kept t w w' : plain t w w' → kept t w w'.
Proof. intros HR. apply rtc_once. by right. Qed.

Lemma plain_rely t w w' : plain t w w' → rely (S t) w w'.
Proof. intros [[_ HR] _]. apply HR. lia. Qed.

(** What no step spoils is kept, and so is the state of the own operation. *)
Lemma sl_kept_stable t (F : world → Prop) w w' :
  (∀ u w w', rely u w w' → F w → F w') → kept t w w' → F w → F w'.
Proof.
  intros HF. induction 1 as [|w w1 w2 [HR|HR%plain_rely] _ IH]; [done|..]; intros Hw;
    apply IH; by eapply HF.
Qed.

Lemma sl_ready_stable t o w w' : rely t w w' → ready t o w → ready t o w'.
Proof. intros [HR _]. exact (list_ready_stable zeroV less one 1 HR o). Qed.

Lemma ready_kept t o w w' : kept t w w' → ready t o w → ready t o w'.
Proof.
  induction 1 as [|w w1 w2 [HR|(_ & Hgh & Hc)] _ IH]; [done|..]; intros Hr; apply IH.
  - by eapply sl_ready_stable.
  - unfold ready. by rewrite Hgh, Hc.
Qed.

(** ** Budgets *)

(** The steps of a walk along one level when the log has length [L], of a search,
    and the allowance of an operation. *)
Definition hop (L : nat) : nat := 20 * (L + 4) + 100.
Definition cost (L : nat) : nat := 4 * (levels * hop L).
Definition skip_allowance (L : nat) : nat := (max_slack L + 4) * cost L.

Lemma above_bound w p : Inv w → above w p ≤ w_len w + 2.
Proof.
  intros [HI _]. pose proof (above_size less w p). pose proof (home_size zeroV less w HI). lia.
Qed.

Lemma sl_above_stable t w w' p :
  rely t w w' → w_len w' = w_len w → is_Some (home (w_aux w) !! p) → above w' p = above w p.
Proof.
  intros [HR HU] Hlen Hp. destruct (ur_still _ _ _ HU Hlen) as (Hh & _).
  apply above_same; [done|done|apply (r_sig _ _ _ _ _ HR)].
Qed.

(** While the log has length [L], at most [σ] changes of the links are to come,
    and [n] steps pay for a search after each, for walking on behind [p], and for
    [d]. *)
Definition onward w (p : option loc) : nat := match p with Some p => 20 * above w p | None => 0 end.
Definition linked_opt w (p : option loc) : Prop := ∀ l, p = Some l → is_Some (home (w_aux w) !! l).

Definition fuel (p : option loc) (σ : nat) (d : nat → nat) n (L : nat) w : Prop :=
  linked_opt w p ∧ L ≤ w_len w ∧
  (w_len w = L → slack w ≤ σ ∧ σ * cost L + onward w p + d L ≤ n).

(** The pair of [p] at level [i] is still as [φ] says, or fewer changes are to
    come. *)
Definition at_pair p i (φ : listMarkable → Prop) (σ L : nat) w : Prop :=
  is_Some (home (w_aux w) !! p) ∧ L ≤ w_len w ∧
  (w_len w = L → slack w ≤ σ ∧
    (slack w = σ → ∃ mk, lpair (w_mem w) p i = Some mk ∧ φ mk)).

Definition better (σ L : nat) w : Prop := L ≤ w_len w ∧ (w_len w = L → slack w < σ).

Lemma len_stable t w w' : rely t w w' → w_len w ≤ w_len w'.
Proof. intros [HR _]. by eapply r_len. Qed.

Lemma slack_stable t w w' : rely t w w' → w_len w' = w_len w → slack w' ≤ slack w.
Proof. intros [_ HU] E. by destruct (ur_still _ _ _ HU E) as (_ & ? & _). Qed.

Lemma home_stable t w w' l : rely t w w' → is_Some (home (w_aux w) !! l) → is_Some (home (w_aux w') !! l).
Proof. intros [HR _] [b Hl]. exists b. eapply lookup_weaken; [exact Hl|apply (r_home _ _ _ _ _ HR)]. Qed.

Lemma sl_onward_stable t w w' (p : option loc) :
  rely t w w' → w_len w' = w_len w → linked_opt w p → onward w' p = onward w p.
Proof.
  intros HR E Hp. destruct p as [p|]; [|done]. unfold onward.
  by rewrite (sl_above_stable _ _ _ p HR E (Hp p eq_refl)).
Qed.

Lemma onward_bound w (p : option loc) : Inv w → onward w p ≤ 20 * (w_len w + 2).
Proof. intros HI. destruct p as [p|]; [|unfold onward; lia]. pose proof (above_bound w p HI). unfold onward. lia. Qed.

Lemma fuel_stable t w w' (p : option loc) σ d n L : rely t w w' → fuel p σ d n L w → fuel p σ d n L w'.
Proof.
  intros HR (Hp & HL & Hf). pose proof (len_stable _ _ _ HR).
  split; [intros l Hl; eapply home_stable; [exact HR|auto]|]. split; [lia|]. intros E.
  destruct (Hf ltac:(lia)). pose proof (slack_stable _ _ _ HR ltac:(lia)).
  rewrite (sl_onward_stable _ _ _ p HR) by (done || lia). split; lia.
Qed.

Lemma fuel_spend (p : option loc) σ d d' n n' L w :
  fuel p σ d n L w → n + d' L ≤ n' + d L → fuel p σ d' n' L w.
Proof. intros (? & ? & Hf) Hle. split; [done|]. split; [done|]. intros E. destruct (Hf E). lia. Qed.

Lemma fuel_drop (p : option loc) σ d n L w : fuel p σ d n L w → fuel None σ d n L w.
Proof. intros (? & ? & Hf). split; [done|]. split; [done|]. intros E. destruct (Hf E). simpl. lia. Qed.

Lemma at_pair_stable t w w' p i φ σ L : rely t w w' → at_pair p i φ σ L w → at_pair p i φ σ L w'.
Proof.
  intros HR (Hp & HL & Hf). pose proof (len_stable _ _ _ HR).
  split; [by eapply home_stable|]. split; [lia|]. intros E. destruct (Hf ltac:(lia)) as [? Hs].
  pose proof HR as [HR1 HU]. destruct (ur_still _ _ _ HU ltac:(lia)) as (_ & ? & Hslot).
  split; [lia|]. intros Eσ. destruct Hs as (mk & Hmk & Hφ); [lia|]. exists mk. split; [|done].
  destruct (Hslot p i Hp) as [Hsame|]; [|lia].
  by eapply pair_mono; [exact Hmk|done|apply (r_marks _ _ _ _ _ HR1)].
Qed.

Lemma better_stable t w w' σ L : rely t w w' → better σ L w → better σ L w'.
Proof.
  intros HR [? Hb]. pose proof (len_stable _ _ _ HR). split; [lia|]. intros E.
  specialize (Hb ltac:(lia)). pose proof (slack_stable _ _ _ HR ltac:(lia)). lia.
Qed.

Lemma at_pair_weaken p i (φ ψ : listMarkable → Prop) σ L w :
  (∀ mk, φ mk → ψ mk) → at_pair p i φ σ L w → at_pair p i ψ σ L w.
Proof.
  intros Hφ (? & ? & Hf). split; [done|]. split; [done|]. intros E. destruct (Hf E) as [? Hs].
  split; [done|]. intros Eσ. destruct (Hs Eσ) as (mk & ? & ?). exists mk. auto.
Qed.

(** A better state pays for a search. *)
Lemma better_fuel (p : option loc) σ d d' n n' L w :
  fuel p σ d n L w → better σ L w → n + d' L ≤ n' + cost L + d L → fuel p (σ - 1) d' n' L w.
Proof.
  intros (? & HL & Hf) [_ Hb] Hd. split; [done|]. split; [done|]. intros E.
  specialize (Hf E). specialize (Hb E). destruct σ as [|σ]; [lia|]. simpl. rewrite Nat.sub_0_r. lia.
Qed.

(** The old account [σ] for log length [L] is still good, or there is a new one. *)
Definition renewed (σ L : nat) w (σ' : nat) : Prop := L = w_len w ∧ σ' = σ ∨ slack w < σ'.

Lemma renewed_at_pair t w w' p i φ σ σ' L :
  rely t w w' → renewed σ L w' σ' → at_pair p i φ σ L w → at_pair p i φ σ' (w_len w') w'.
Proof.
  intros HR Hn Hp. apply (at_pair_stable _ _ _ _ _ _ _ _ HR) in Hp.
  destruct Hn as [[-> ->]|?]; [done|]. destruct Hp as (? & _). split; [done|]. split; [done|]. lia.
Qed.

(** ** The pairs of linked nodes *)

Lemma pub_kept t w w' l s : rely t w w' → pub l 0 s w → pub l 0 s w'.
Proof. intros [HR _]. exact (pub_stable zeroV less one 1 HR l 0 s). Qed.

Lemma mark_kept t w w' (c : loc) mk :
  rely t w w' → marks (w_mem w) !! c = Some mk → marks (w_mem w') !! c = Some mk.
Proof. intros [HR _]. exact (mark_stable zeroV less one 1 HR (Some c) mk). Qed.

Lemma pub_tall l s w : Inv w → pub l 0 s w → 1 ≤ height (w_mem w) l ≤ levels.
Proof. intros [_ HU] [Hl _]. apply (pub_height less w); [done|by eexists]. Qed.

Lemma height_stable t w w' l : rely t w w' → is_Some (home (w_aux w) !! l) →
  height (w_mem w') l = height (w_mem w) l.
Proof. intros [_ HU] Hl. by apply height_tall, (ur_tall _ _ _ HU). Qed.

Lemma pair_exists l i s w : Inv w → pub l 0 s w → i < height (w_mem w) l →
  ∃ mk, lpair (w_mem w) l i = Some mk ∧ pair_ok less w l i mk.
Proof.
  intros HI Hl Hi. pose proof HI as [HL HU]. destruct i as [|i].
  2:{ apply (u_pair _ _ HU); [eexists; apply Hl|lia]. }
  destruct (pub_link _ _ _ _ _ _ _ HL (proj1 Hl)) as [mk Hmk].
  pose proof (pub_pub_ok _ _ _ _ _ _ _ _ _ HL Hl Hmk) as Hok.
  exists mk. rewrite pair_link. split; [done|]. destruct Hl as [Hh Hs]. split.
  - intros Hm. unfold key_at. rewrite Hs. by apply (p_sentinel _ _ _ _ _ _ _ _ Hok).
  - intros y Hy. destruct (p_next _ _ _ _ _ _ _ _ Hok y Hy) as (Hhy & sy & Hsy & Hlt).
    split; [by eexists|]. split; [by apply (pub_tall y sy)|]. unfold before. rewrite Hs, Hsy. by left.
  - intros Hnone. exists s. split; [done|]. destruct (decide (s.1 < 1)%Z) as [Hb|Hb].
    + destruct (p_bounded _ _ _ _ _ _ _ _ Hok Hb). congruence.
    + destruct (p_kind _ _ _ _ _ _ _ _ Hok) as [?|[?|?]]; lia.
Qed.

(** A marked pair is final, and so are those of the levels above. *)
Lemma marked_pair_stable t w w' l i (y : option loc) : rely t w w' → Inv w → is_Some (home (w_aux w) !! l) →
  lpair (w_mem w) l i = Some (ListMarkable y true) →
  lpair (w_mem w') l i = Some (ListMarkable y true).
Proof.
  intros [HR HU] [HL _] Hl Hp. destruct (pair_slot _ _ _ _ Hp) as (c & Hc & Hm).
  eapply pair_mono; [exact Hp| |apply (r_marks _ _ _ _ _ HR)]. destruct i as [|i].
  - rewrite !slot_cell. apply (r_frozen _ _ _ _ _ HR).
    apply (dead_marked zeroV less w l HL Hl). by eexists.
  - apply (ur_frozen _ _ _ HU); [done|lia|]. by eexists.
Qed.

Lemma unmarked_below l i j s w : Inv w → pub l 0 s w → j ≤ i < height (w_mem w) l →
  ¬ marked (w_mem w) l i → ¬ marked (w_mem w) l j.
Proof. intros [_ HU] Hl Hi Hm Hmj. apply Hm. eapply (u_marks _ _ HU); [by eexists; apply Hl|done|done]. Qed.

Lemma not_marked m l i mk : lpair m l i = Some mk → lm_marked mk = false → ¬ marked m l i.
Proof. intros Hp Hm (mk' & Hp' & Hm'). congruence. Qed.

Lemma alive_unmarked l i s w : Inv w → pub l 0 s w → i < height (w_mem w) l →
  ¬ marked (w_mem w) l i → dead (w_aux w) !! l = None.
Proof.
  intros HI Hl Hi Hm. destruct (dead (w_aux w) !! l) as [d|] eqn:E; [|done].
  destruct (unmarked_below l i 0 s w HI Hl ltac:(lia) Hm).
  apply (dead_marked zeroV less w l); [apply HI|eexists; apply Hl|by eexists].
Qed.

Lemma load_slot_eq m l i (c : loc) : slot m l i = Some c →
  load_slot nodes (Some l) sn_nexts (Z.of_nat i) m = Some (Some c, m).
Proof.
  unfold slot, load_slot, load_idx, in_range. destruct (nodes m !! l) as [nd|]; [|done]. simpl.
  destruct (sn_nexts nd !! i) as [c'|] eqn:E; [|done]. simpl. intros ->.
  pose proof (lookup_lt_Some _ _ _ E). rewrite bool_decide_true by lia.
  by rewrite Nat2Z.id, E.
Qed.

Lemma cas_slot_eq m l i (c c' c1 : loc) : slot m l i = Some c →
  cas_slot nodes_f (Some l) nexts_f (Z.of_nat i) (Some c1) (Some c') m =
    if decide (c = c1) then Some (true, set_slot m l i c') else Some (false, m).
Proof.
  unfold slot, cas_slot, cas_idx, in_range, set_slot. simpl.
  destruct (nodes m !! l) as [nd|] eqn:En; [|done]. simpl.
  destruct (sn_nexts nd !! i) as [c2|] eqn:E; [|done]. simpl. intros ->.
  pose proof (lookup_lt_Some _ _ _ E). rewrite bool_decide_true by lia.
  rewrite Nat2Z.id, E. destruct (decide (c = c1)) as [->|Hne].
  - by rewrite decide_True.
  - rewrite decide_False by congruence. simpl. rewrite list_insert_id by done. by destruct m.
Qed.

(** A marked pair, which does not change any more. *)
Definition final l i (r : option loc) w : Prop :=
  is_Some (home (w_aux w) !! l) ∧
  lpair (w_mem w) l i = Some (ListMarkable r true) ∧ (i = 0 → is_Some (dead (w_aux w) !! l)).

Lemma final_stable t w w' l i (r : option loc) : rely t w w' → final l i r w → final l i r w'.
Proof.
  intros HR (Hl & Hp & Hd). pose proof HR as [HR1 HU].
  assert (∀ x, is_Some (dead (w_aux w) !! x) → is_Some (dead (w_aux w') !! x)) as Hdead.
  { intros x [d Hx]. exists d. eapply lookup_weaken; [exact Hx|apply (r_dead _ _ _ _ _ HR1)]. }
  split; [by eapply home_stable|]. split; [|auto].
  eapply pair_mono; [exact Hp| |apply (r_marks _ _ _ _ _ HR1)]. destruct i as [|i].
  - rewrite !slot_cell. apply (r_frozen _ _ _ _ _ HR1). auto.
  - apply (ur_frozen _ _ _ HU); [done|lia|]. by eexists.
Qed.

Lemma final_intro l i s (r : option loc) w : Inv w → pub l 0 s w →
  lpair (w_mem w) l i = Some (ListMarkable r true) → final l i r w.
Proof.
  intros [HL _] Hl Hp. split; [eexists; apply Hl|]. split; [done|]. intros ->.
  apply (dead_marked zeroV less w l HL); [eexists; apply Hl|by eexists].
Qed.

(** The pointer of [l] at level [i] leads to [r], or fewer changes are to come. *)
Definition edge l i (r : option loc) (σ L : nat) w : Prop :=
  at_pair l i (λ mk, mk = ListMarkable r false) σ L w.
Definition clean l i (σ L : nat) w : Prop := at_pair l i (λ mk, lm_marked mk = false) σ L w.

Lemma edge_clean l i (r : option loc) σ L w : edge l i r σ L w → clean l i σ L w.
Proof. apply at_pair_weaken. by intros ? ->. Qed.

Lemma clean_edge l i σ L mk w :
  clean l i σ L w → lpair (w_mem w) l i = Some mk → edge l i (lm_ref mk) σ L w.
Proof.
  intros (? & ? & Hc) Hmk. split; [done|]. split; [done|]. intros E. destruct (Hc E) as [? Hs].
  split; [done|]. intros Eσ. destruct (Hs Eσ) as (mk' & Hmk' & Hm). exists mk. split; [done|].
  rewrite Hmk in Hmk'. injection Hmk' as <-. destruct mk. simpl in *. by subst.
Qed.

(** It was unmarked at a higher level. *)
Lemma clean_below l i j s σ L w : Inv w → pub l 0 s w → j ≤ i < height (w_mem w) l →
  clean l i σ L w → clean l j σ L w.
Proof.
  intros HI Hl Hj (? & ? & Hc). split; [done|]. split; [done|]. intros E. destruct (Hc E) as [? Hs].
  split; [done|]. intros Eσ. destruct (Hs Eσ) as (mk & Hmk & Hm).
  destruct (pair_exists l j s w HI Hl ltac:(lia)) as (mk' & Hmk' & _). exists mk'. split; [done|].
  destruct (lm_marked mk') eqn:E'; [|done].
  destruct (unmarked_below l i j s w HI Hl Hj (not_marked _ _ _ _ Hmk Hm)). by exists mk'.
Qed.

Lemma at_pair_gone l i (φ : listMarkable → Prop) σ L w :
  (∀ mk, ¬ φ mk) → at_pair l i φ σ L w → better σ L w.
Proof.
  intros Hφ (_ & HL & Hp). split; [done|]. intros E. destruct (Hp E) as [? Hs].
  destruct (decide (slack w = σ)) as [Eσ|]; [|lia]. destruct (Hs Eσ) as (mk & _ & ?). by destruct (Hφ mk).
Qed.

(** One step of the walker itself that is one change fewer to come. *)
Lemma at_pair_less l i (φ : listMarkable → Prop) σ L w w' :
  at_pair l i φ σ L w → is_Some (home (w_aux w') !! l) → w_len w' = w_len w →
  slack w' < slack w → lpair (w_mem w') l i = lpair (w_mem w) l i → at_pair l i φ (σ - 1) L w'.
Proof.
  intros (_ & ? & Hp) Hl Hlen Hlt Hsame. split; [done|]. split; [lia|]. intros E.
  destruct (Hp ltac:(lia)) as [? Hs]. split; [lia|]. intros Eσ. rewrite Hsame. apply Hs. lia.
Qed.

(** ** Unlinking *)

Lemma set_slot_0 m p (c : loc) : 1 ≤ height m p → set_slot m p 0 c = set_next p c m.
Proof.
  intros Hh. unfold set_slot, set_next, set_node. unfold height, tall in Hh.
  change (node_at m p) with (nodes m !! p). destruct (nodes m !! p) as [nd|]; [|done].
  simpl in *. destruct nd as [? ? ? ? [|? ?]]; simpl in *; [lia|done].
Qed.

(** The marked node [d] is unlinked behind [p] at level [i]. *)
Lemma unlink_any_step p sp i (c d : loc) (y : option loc) w :
  Inv w → pub p 0 sp w → lpair (w_mem w) p i = Some (ListMarkable (Some d) false) →
  lpair (w_mem w) d i = Some (ListMarkable y true) →
  marks (w_mem w) !! c = Some (ListMarkable y false) → ∃ a,
  let w' := upd Sp w (set_slot (w_mem w) p i c) [] a in
  (∀ u, good_step u w w') ∧ slack w' < slack w.
Proof.
  intros HI Hp Hpd Hd Hc. destruct i as [|i].
  - rewrite set_slot_0 by by apply (pub_tall p sp). rewrite pair_link in Hpd, Hd.
    by apply (unlink_lowest_step zeroV less p sp c d y w).
  - exists (w_aux w).
    pose proof (λ t, unlink_upper_step zeroV less t w p (S i) c d y HI ltac:(eexists; apply Hp)
      ltac:(lia) Hpd Hd Hc) as Hs.
    split; [intros u; apply (Hs u)|apply (Hs 0)].
Qed.

(** ** Verified code *)

Abbreviation pg := (LockFreeIn skip_allowance).

Section thread.
Context (t : nat) {A : Type} (Q : budget → A → world → Prop).
Abbreviation wp := (Logic.wp Sp proto pg t Q).

Lemma spend_one n L : 1 ≤ n → budget_step (Refill n L) = Some (Refill (n - 1) L).
Proof. destruct n; [lia|]. intros _. simpl. by rewrite Nat.sub_0_r. Qed.

Lemma wp_renew (p : option loc) σ d n L q w :
  (∀ L, d L ≤ 2 * cost L) → fuel p σ d n L w →
  (∀ w' σ' n', rely t w w' → Inv w' → renewed σ L w' σ' → slack w' ≤ σ' →
     σ' * cost (w_len w') + onward w' p + d (w_len w') ≤ n' →
     wp (Refill n' (w_len w')) q w') →
  wp (Refill n L) q w.
Proof.
  intros Hd (Hp & HL & Hf) Hq. apply wp_usable. intros w' HR HI.
  pose proof (len_stable _ _ _ HR) as Hlen. destruct (decide (w_len w' = L)) as [E|Hne].
  - exists (Refill n L). split; [apply usable_refl|]. destruct (Hf ltac:(lia)) as [Hs Hn].
    pose proof (slack_stable _ _ _ HR ltac:(lia)).
    pose proof (sl_onward_stable _ _ _ p HR ltac:(lia) Hp) as Ha. rewrite <-E.
    apply (Hq w' σ n HR HI); [by left|lia|]. by rewrite E, Ha.
  - set (L' := w_len w') in *. exists (Refill (skip_allowance L') L'). split.
    { right. left. exists skip_allowance, n, (skip_allowance L'), L. split_and!; [done..|lia|done|done]. }
    apply (Hq w' (S (slack w')) _ HR HI); [right; lia|lia|].
    pose proof (slack_le zeroV less w' (proj1 HI) (proj2 HI)) as Hsl.
    pose proof (onward_bound w' p HI) as Ha. fold L' in Hsl, Ha |- *.
    assert (20 * (L' + 2) ≤ cost L') as Hc.
    { unfold cost, hop. replace levels with 32 by reflexivity. lia. }
    specialize (Hd L'). unfold skip_allowance.
    pose proof (Nat.mul_le_mono_r _ _ (cost L') Hsl) as Hmul. lia.
Qed.

Lemma sl_wp_node {B} l s n L (f : skipnode K V → B) q w :
  1 ≤ n → pub l 0 s w →
  (∀ w' nd, rely t w w' → Inv w' → nodes (w_mem w') !! l = Some nd → (sn_kind nd, sn_key nd) = s →
     wp (Refill (n - 1) L) (q (f nd)) w') →
  wp (Refill n L) (Act (load_at nodes l f) q) w.
Proof.
  intros Hn Hl Hq. eapply wp_load_at; [by apply spend_one|]. intros w' HR HI.
  destruct (pub_kept _ _ _ _ _ HR Hl) as [Hh Hs].
  unfold sig_of in Hs. change (node_at (w_mem w') l) with (nodes (w_mem w') !! l) in Hs.
  destruct (nodes (w_mem w') !! l) as [nd|] eqn:E; [|done].
  exists nd. split; [done|]. apply Hq; [done..|]. by injection Hs.
Qed.

Lemma sl_wp_keyLess l s k n L q w :
  1 ≤ n → pub l 0 s w → wp (Refill (n - 1) L) (q (node_less less s (0%Z, k))) w →
  wp (Refill n L) (bind (keyLess less (Some l) k) q) w.
Proof.
  intros Hn Hl Hq. unfold keyLess. wp_pure. eapply sl_wp_node; [done|exact Hl|].
  intros w' nd HR HI _ Hs. cbn [bind fst snd].
  pose proof (pub_kind _ _ _ _ _ _ _ _ (proj1 HI) (pub_kept _ _ _ _ _ HR Hl)) as Hok.
  replace (if bool_decide (sn_kind nd = (-1)%Z) then true else
    if bool_decide (sn_kind nd = 1%Z) then false else less (sn_key nd) k)
    with (node_less less s (0%Z, k)); [by eapply wp_stable|].
  rewrite <-Hs in Hok |- *. simpl. unfold MList.list_less. simpl in *.
  destruct Hok as [->|[->| ->]]; simpl; done.
Qed.

Lemma sl_wp_keyEqual l s k n L q w :
  1 ≤ n → pub l 0 s w → wp (Refill (n - 1) L) (q (holds less s (0%Z, k))) w →
  wp (Refill n L) (bind (keyEqual less (Some l) k) q) w.
Proof.
  intros Hn Hl Hq. unfold keyEqual. wp_pure. eapply sl_wp_node; [done|exact Hl|].
  intros w' nd HR HI _ Hs. cbn [bind fst snd].
  pose proof (pub_kind _ _ _ _ _ _ _ _ (proj1 HI) (pub_kept _ _ _ _ _ HR Hl)) as Hok.
  replace (if negb (bool_decide (sn_kind nd = 0%Z)) then false else
    negb (less (sn_key nd) k) && negb (less k (sn_key nd)))
    with (holds less s (0%Z, k)); [by eapply wp_stable|].
  rewrite <-Hs in Hok |- *. unfold holds, same_key. simpl. unfold MList.list_less. simpl in *.
  destruct Hok as [->|[->| ->]]; simpl; done.
Qed.

Lemma sl_wp_load_val l s n L q w :
  1 ≤ n → pub l 0 s w → is_Some (key_of less s) →
  (∀ w' v, rely t w w' → Inv w' → val_of (w_mem w') l = Some v → wp (Refill (n - 1) L) (q v) w') →
  wp (Refill n L) (bind (load_val (Some l)) q) w.
Proof.
  intros Hn Hl [k Hk] Hq. unfold load_val. wp_pure. eapply sl_wp_node; [done|exact Hl|].
  intros w' nd HR HI Hnd Hs.
  destruct (pub_value _ _ _ _ w' l 0 s k (proj1 HI)) as [v Hv];
    [exact (pub_kept _ _ _ _ _ HR Hl)|done|].
  specialize (Hq w' v HR HI Hv). unfold val_of in Hv.
  change (node_at (w_mem w') l) with (nodes (w_mem w') !! l) in Hv.
  rewrite Hnd in Hv. simpl in Hv. by rewrite Hv.
Qed.

(** The pointer of [l] at level [i], and the pair it points to. *)
Lemma wp_slot l i s n L (q : option loc → prog mem A) w :
  1 ≤ n → pub l 0 s w → i < height (w_mem w) l →
  (∀ w' (c : loc) mk, rely t w w' → Inv w' → slot (w_mem w') l i = Some c →
     marks (w_mem w') !! c = Some mk → lpair (w_mem w') l i = Some mk → ∃ cm,
     good_step t w' (with_commit w' cm) ∧ wp (Refill (n - 1) L) (q (Some c)) (with_commit w' cm)) →
  wp (Refill n L) (Act (load_slot nodes (Some l) sn_nexts (Z.of_nat i)) q) w.
Proof.
  intros Hn Hl Hi Hq. eapply wp_step_to; [by apply spend_one|]. intros w' HR HI.
  destruct (pair_exists l i s w' HI) as (mk & Hmk & _).
  { exact (pub_kept _ _ _ _ _ HR Hl). }
  { rewrite (height_stable _ _ _ _ HR); [done|eexists; apply Hl]. }
  destruct (pair_slot _ _ _ _ Hmk) as (c & Hc & Hm).
  destruct (Hq w' c mk HR HI Hc Hm Hmk) as (cm & Hg & Hwp).
  exists (Some c), (w_mem w'), [], (w_aux (with_commit w' cm)).
  split; [by apply load_slot_eq|]. by split.
Qed.

Lemma sl_wp_pair {B} (c : loc) mk n L (f : listMarkable → B) q w :
  1 ≤ n → marks (w_mem w) !! c = Some mk → wp (Refill (n - 1) L) (q (f mk)) w →
  wp (Refill n L) (Act (load_at marks c f) q) w.
Proof.
  intros Hn Hc Hq. eapply wp_load_at; [by apply spend_one|]. intros w' HR HI. exists mk.
  split; [exact (mark_kept _ _ _ _ _ HR Hc)|]. by eapply wp_stable.
Qed.

(** [n.nexts[level].get()]: something may take effect when the pair is read. *)
Lemma sl_wp_get l i s n L q w :
  2 ≤ n → pub l 0 s w → i < height (w_mem w) l →
  (∀ w' mk, rely t w w' → Inv w' → lpair (w_mem w') l i = Some mk → ∃ cm,
     good_step t w' (with_commit w' cm) ∧
     wp (Refill (n - 2) L) (q (lm_ref mk, lm_marked mk)) (with_commit w' cm)) →
  wp (Refill n L) (bind (get (Some l) (Z.of_nat i)) q) w.
Proof.
  intros Hn Hl Hi Hq. unfold get. wp_pure. eapply wp_slot; [lia|exact Hl|done|].
  intros w' c mk HR HI Hc Hm Hmk. destruct (Hq w' mk HR HI Hmk) as (cm & Hg & Hwp).
  exists cm. split; [done|]. wp_pure. eapply sl_wp_pair; [lia|exact Hm|].
  by replace (n - 1 - 1) with (n - 2) by lia.
Qed.

Lemma wp_getReference l i s n L q w :
  2 ≤ n → pub l 0 s w → i < height (w_mem w) l →
  (∀ w' mk, rely t w w' → Inv w' → lpair (w_mem w') l i = Some mk →
     wp (Refill (n - 2) L) (q (lm_ref mk)) w') →
  wp (Refill n L) (bind (getReference (Some l) (Z.of_nat i)) q) w.
Proof.
  intros Hn Hl Hi Hq. unfold getReference. wp_pure. eapply wp_slot; [lia|exact Hl|done|].
  intros w' c mk HR HI Hc Hm Hmk. exists (commit (w_aux w')). rewrite with_commit_id.
  split; [by apply good_step_refl|]. wp_pure. eapply sl_wp_pair; [lia|exact Hm|].
  replace (n - 1 - 1) with (n - 2) by lia. auto.
Qed.

(** A fresh pair, for a CAS to come. *)
Lemma sl_wp_new_pair mk n L (q : loc → prog mem A) w :
  1 ≤ n →
  (∀ w' (c : loc), rely t w w' → Inv w' → marks (w_mem w') !! c = Some mk →
     wp (Refill (n - 1) L) (q c) w') →
  wp (Refill n L) (Act (new marks_f mk) q) w.
Proof.
  intros Hn Hq. eapply wp_new; [by apply spend_one|]. intros w1 HR1 HI1.
  exists [], (w_aux w1). pose proof (mark_added w1 mk HI1) as Hg. split; [apply Hg|].
  assert (rely t w1 (upd Sp w1 (add_mark mk (w_mem w1)) [] (w_aux w1))) as HR2
    by (apply (Hg (S t)); lia).
  apply Hq; [etrans; [exact HR1|exact HR2]|apply (Hg t)|]. simpl. by apply list_lookup_middle.
Qed.

(** The CAS at the end of [compareAndSet] and [attemptMark], when the pair [mk] that
    [c] points to was read at [L]. *)
Lemma wp_cas_pair l i s (c c' : loc) mk mk' n n0 σ L q w0 w :
  1 ≤ n0 → rely t w0 w → pub l 0 s w0 → slot (w_mem w0) l i = Some c →
  marks (w_mem w0) !! c = Some mk → marks (w_mem w) !! c' = Some mk' →
  L ≤ w_len w0 → (w_len w0 = L → slack w0 ≤ σ) → n ≤ n0 - 1 →
  (∀ w', rely t w w' → Inv w' → lpair (w_mem w') l i = Some mk →
     marks (w_mem w') !! c' = Some mk' → ∃ us a,
     let w'' := upd Sp w' (set_slot (w_mem w') l i c') us a in
     good_step t w' w'' ∧ wp (Refill n L) (q true) w'') →
  (∀ w', rely t w w' → Inv w' → better σ L w' → wp (Refill n L) (q false) w') →
  wp (Refill n0 L) (Act (cas_slot nodes_f (Some l) nexts_f (Z.of_nat i) (Some c) (Some c')) q) w.
Proof.
  intros Hn HR0 Hl Hc Hm Hm' HL Hσ Hle Hok Hfail. eapply wp_step_to; [by apply spend_one|].
  intros w' HR HI. assert (rely t w0 w') as HR' by by trans w.
  pose proof (pub_kept _ _ _ _ _ HR' Hl) as Hl'.
  destruct (pair_exists l i s w' HI Hl') as (mk1 & Hmk1 & _).
  { rewrite (height_stable _ _ _ _ HR'); [by eapply slot_height|eexists; apply Hl]. }
  destruct (pair_slot _ _ _ _ Hmk1) as (c1 & Hc1 & Hm1).
  destruct (decide (c1 = c)) as [->|Hne].
  - rewrite (mark_kept _ _ _ _ _ HR' Hm) in Hm1. injection Hm1 as <-.
    destruct (Hok w' HR HI Hmk1) as (us & a & Hg & Hwp); [exact (mark_kept _ _ _ _ _ HR Hm')|].
    exists true, (set_slot (w_mem w') l i c'), us, a. split; [|split; [done|]].
    + rewrite (cas_slot_eq _ _ _ c) by done. by rewrite decide_True.
    + by eapply wp_less; [|exact Hwp].
  - exists false, (w_mem w'), [], (w_aux w'). rewrite upd_id.
    split; [|split; [by apply good_step_refl|]].
    + rewrite (cas_slot_eq _ _ _ c1) by done. by rewrite decide_False.
    + eapply wp_less; [exact Hle|]. apply Hfail; [done..|].
      pose proof (len_stable _ _ _ HR'). split; [lia|]. intros E.
      destruct (ur_still _ _ _ (proj2 HR') ltac:(lia)) as (_ & Hs & Hslot).
      destruct (Hslot l i) as [Hsame|?]; [eexists; apply Hl|congruence|]. specialize (Hσ ltac:(lia)). lia.
Qed.

Lemma sl_wp_compareAndSet l i s (e r : option loc) nm (φ : listMarkable → Prop) σ n L q w :
  4 ≤ n → pub l 0 s w → i < height (w_mem w) l → nm = true ∨ e ≠ r →
  at_pair l i φ σ L w →
  (∀ w' (c : loc), rely t w w' → Inv w' → lpair (w_mem w') l i = Some (ListMarkable e false) →
     marks (w_mem w') !! c = Some (ListMarkable r nm) → ∃ us a,
     let w'' := upd Sp w' (set_slot (w_mem w') l i c) us a in
     good_step t w' w'' ∧ wp (Refill (n - 4) L) (q true) w'') →
  (∀ w', rely t w w' → Inv w' → at_pair l i (λ mk, φ mk ∧ mk ≠ ListMarkable e false) σ L w' →
     wp (Refill (n - 4) L) (q false) w') →
  wp (Refill n L) (bind (compareAndSet (Some l) (Z.of_nat i) e r false nm) q) w.
Proof.
  intros Hn Hl Hi Hnew Hp Hok Hfail. unfold compareAndSet. wp_pure.
  eapply wp_slot; [lia|exact Hl|done|]. intros w1 c mk HR1 HI1 Hc Hm Hmk.
  exists (commit (w_aux w1)). rewrite with_commit_id. split; [by apply good_step_refl|]. wp_pure.
  apply (at_pair_stable _ _ _ _ _ _ _ _ HR1) in Hp.
  eapply sl_wp_pair; [lia|exact Hm|]. unfold id.
  destruct (decide (mk = ListMarkable e false)) as [->|Hne]; cbn [lm_ref lm_marked].
  - rewrite bool_decide_true by done. cbn [andb eqb negb].
    replace (bool_decide (r = e) && eqb nm false) with false by
      (symmetry; apply andb_false_iff; rewrite bool_decide_eq_false; destruct nm; naive_solver).
    wp_pure. eapply sl_wp_new_pair; [lia|]. intros w2 c' HR2 HI2 Hc'. wp_pure.
    eapply (wp_cas_pair l i s c c' (ListMarkable e false) (ListMarkable r nm) (n - 4) _ σ L q w1 w2);
      [lia|done|by eapply pub_kept|done|done|done|apply Hp|intros; by apply Hp|lia|..].
    + intros w3 HR3 HI3 Hmk3 Hc3. apply Hok; [trans w1; [done|by trans w2]|done..].
    + intros w3 HR3 HI3 [HL Hb]. apply Hfail; [trans w1; [done|by trans w2]|done|].
      split; [eapply home_stable; [exact HR3|]; eapply home_stable; [exact HR2|apply Hp]|].
      split; [done|]. intros E. specialize (Hb E). lia.
  - replace (bool_decide (lm_ref mk = e) && eqb (lm_marked mk) false) with false.
    2:{ symmetry. apply andb_false_iff. rewrite bool_decide_eq_false.
        destruct (decide (lm_ref mk = e)) as [<-|]; [right|by left].
        destruct (lm_marked mk) eqn:E; [done|]. destruct Hne. rewrite <-E. by destruct mk. }
    simpl. eapply wp_less; [|apply (Hfail w1); [done..|]]; [lia|].
    destruct Hp as (? & ? & Hp). split; [done|]. split; [done|]. intros E.
    destruct (Hp E) as [? Hs]. split; [done|]. intros Eσ. destruct (Hs Eσ) as (mk2 & Hmk2 & ?).
    rewrite Hmk in Hmk2. injection Hmk2 as <-. by exists mk.
Qed.

(** Whatever [attemptMark] returns, a pair that was seen unmarked is no longer so. *)
Lemma wp_attemptMark l i s (r : option loc) σ n L q w :
  4 ≤ n → pub l 0 s w → i < height (w_mem w) l →
  at_pair l i (λ mk, mk = ListMarkable r false) σ L w →
  (∀ w' (c : loc), rely t w w' → Inv w' → lpair (w_mem w') l i = Some (ListMarkable r false) →
     marks (w_mem w') !! c = Some (ListMarkable r true) →
     let w'' := upd Sp w' (set_slot (w_mem w') l i c) [] (w_aux w') in
     (∀ u, good_step u w' w'') ∧ slack w'' < slack w') →
  (∀ w' b, rely t w w' → Inv w' → better σ L w' → wp (Refill (n - 4) L) (q b) w') →
  wp (Refill n L) (bind (attemptMark (Some l) (Z.of_nat i) r true) q) w.
Proof.
  intros Hn Hl Hi Hp Hstep Hq. unfold attemptMark. wp_pure.
  eapply wp_slot; [lia|exact Hl|done|]. intros w1 c mk HR1 HI1 Hc Hm Hmk.
  exists (commit (w_aux w1)). rewrite with_commit_id. split; [by apply good_step_refl|]. wp_pure.
  apply (at_pair_stable _ _ _ _ _ _ _ _ HR1) in Hp.
  eapply sl_wp_pair; [lia|exact Hm|]. unfold id.
  assert (∀ b, mk ≠ ListMarkable r false → wp (Refill (n - 1 - 1) L) (q b) w1) as Hgone.
  { intros b Hne. eapply wp_less; [|apply (Hq w1 b); [done..|]]; [lia|].
    destruct Hp as (_ & ? & Hp). split; [done|]. intros E. destruct (Hp E) as [? Hs].
    destruct (decide (slack w1 = σ)) as [Eσ|]; [|lia]. destruct (Hs Eσ) as (mk2 & Hmk2 & ->).
    congruence. }
  destruct (decide (lm_ref mk = r)) as [Hr|Hr].
  2:{ rewrite bool_decide_false by done. apply Hgone. intros ->. done. }
  rewrite bool_decide_true by done. cbn [negb].
  destruct (lm_marked mk) eqn:Em; cbn [eqb]; [apply Hgone; by intros ->|].
  assert (mk = ListMarkable r false) as -> by (destruct mk; simpl in *; congruence).
  wp_pure. eapply sl_wp_new_pair; [lia|]. intros w2 c' HR2 HI2 Hc'. wp_pure.
  eapply (wp_cas_pair l i s c c' (ListMarkable r false) (ListMarkable r true) (n - 4) _ σ L q w1 w2);
    [lia|done|by eapply pub_kept|done|done|done|apply Hp|intros; by apply Hp|lia|..].
  - intros w3 HR3 HI3 Hmk3 Hc3. assert (rely t w w3) as HR by (trans w1; [done|by trans w2]).
    destruct (Hstep w3 c' HR HI3 Hmk3 Hc3) as [Hg Hlt]. exists [], (w_aux w3). split; [apply Hg|].
    assert (rely t w3 (upd Sp w3 (set_slot (w_mem w3) l i c') [] (w_aux w3))) as HR4
      by (apply (Hg (S t)); lia).
    apply Hq; [etrans; [exact HR|exact HR4]|apply (Hg t)|].
    assert (at_pair l i (λ mk, mk = ListMarkable r false) σ L w3) as (_ & HL & Hs)
      by (eapply at_pair_stable; [|exact Hp]; by trans w2).
    split; [exact HL|]. intros E. destruct (Hs E). lia.
  - intros w3 HR3 HI3 Hb. apply Hq; [trans w1; [done|by trans w2]|done..].
Qed.
End thread.
End walk.
