(* ===== verification/SkipFind.v ===== *)
(** [find] of [lf.SkipList] is verified. *)

From S2P Require Import ListCode.
From S2P Require Export SkipWalk.
Local Open Scope prog_scope.

Section find.
Context {K V : Type} (zeroV : V) (less : Less K) `{!WeakOrder less}.
#[local] Hint Extern 0 (NodeOrder _ _) => exact (MList.list_order less) : typeclass_instances.
#[local] Hint Extern 0 (Capacity _) => exact (MList.list_capacity 1) : typeclass_instances.
#[local] Hint Extern 0 (Rest _ _) => exact MList.list_rest : typeclass_instances.
Abbreviation Sp := (lmap_spec zeroV (same_key less) (ascending_range (V:=V) less)).
Abbreviation mem := (mem K V).
Abbreviation aux := (list_aux V).
Abbreviation world := (world mem (lmap_op K V) (lmap_resp K V) aux).
Abbreviation proto := (skip_proto zeroV less).
Abbreviation Inv := (pr_inv proto).
Abbreviation rely := (pr_rely proto).
Abbreviation good_step := (good_step proto).
Abbreviation sig := (Z * K)%type.
Abbreviation slack := (slack less).
Abbreviation above := (above less).
Abbreviation edge := (edge less).
Abbreviation clean := (clean less).
Abbreviation fuel := (fuel less).
Abbreviation better := (better less).
Abbreviation renewed := (renewed less).
Abbreviation onward := (onward less).
Abbreviation with_commit := (with_commit zeroV less).
Abbreviation pg := (LockFreeIn (skip_allowance)).
Abbreviation wp t Q := (Logic.wp Sp proto pg t Q).
Implicit Types (w : world) (t u n i j : nat) (l x y p : loc) (k : K) (v : V) (m : mem) (s : sig).

(** ** What a search is for

    [f_able] holds until the search finds its place, [f_finds l] says that going on
    behind [l] will find it, [f_found x s] what is known once the unmarked node
    [x] was read there. *)
Record finder (t : nat) (k : K) := Finder {
  f_able : world → Prop;
  f_finds : loc → world → Prop;
  f_found : loc → sig → world → Prop;
  f_able_stable w w' : rely t w w' → f_able w → f_able w';
  f_finds_stable x s w w' : rely t w w' → f_able w → pub x 0 s w → f_finds x w → f_finds x w';
  f_found_stable x s w w' : rely t w w' → f_found x s w → f_found x s w';
  f_alive x s w : Inv w → f_able w → pub x 0 s w → dead (w_aux w) !! x = None →
    node_less less s (0%Z, k) = true → f_finds x w;
  f_next x y s mk w : Inv w → f_able w → pub x 0 s w → link (w_mem w) x = Some mk →
    lm_marked mk = true ∨ node_less less s (0%Z, k) = true → f_finds x w → lm_ref mk = Some y →
    f_finds y w;
  f_hook x s w : Inv w → f_able w → f_finds x w → pub x 0 s w → dead (w_aux w) !! x = None →
    node_less less s (0%Z, k) = false → ∃ cm,
    good_step t w (with_commit w cm) ∧ f_found x s (with_commit w cm)
}.

Section search.
Context (t : nat) (k : K) (X : finder t k).
(** What is kept for later. *)
Context (E : nat → nat) (HE : ∀ L, E L + 1000 ≤ cost L).
Abbreviation tg := ((0%Z, k) : sig).
Abbreviation able := (f_able t k X).
Abbreviation finds := (f_finds t k X).
Abbreviation found := (f_found t k X).

(** ** Places *)

(** The search is at [p], on level [i]. *)
Definition place p (sp : sig) i w : Prop :=
  pub p 0 sp w ∧ node_less less sp tg = true ∧ i < height (w_mem w) p.

Lemma place_stable u w w' p sp i : rely u w w' → place p sp i w → place p sp i w'.
Proof.
  intros HR (Hp & ? & ?). split; [by eapply pub_kept|]. split; [done|].
  rewrite (height_stable _ _ _ _ _ _ HR); [done|]. eexists. apply Hp.
Qed.

(** The node that comes after [p] on level [i]. *)
Definition next_to p i (r : option loc) w : Prop := ∃ y sy, r = Some y ∧ pub y 0 sy w ∧
  i < height (w_mem w) y ∧ before less (w_mem w) p y ∧ (i = 0 → finds y w).

Lemma next_to_stable w w' p i (r : option loc) : rely t w w' → able w → is_Some (home (w_aux w) !! p) →
  next_to p i r w → next_to p i r w'.
Proof.
  intros HR HA Hp (y & sy & -> & Hy & Hi & Hb & Hf).
  assert (is_Some (home (w_aux w) !! y)) as Hyh by (eexists; apply Hy).
  exists y, sy. split; [done|]. split; [by eapply pub_kept|].
  rewrite (height_stable _ _ _ _ _ _ HR) by done. split; [done|]. split.
  - apply (before_same less (w_mem w) (w_mem w')); [..|done]; by apply (r_sig _ _ _ _ _ (proj1 HR)).
  - intros Hi0. eapply (f_finds_stable _ _ X); [done..|auto].
Qed.

Lemma next_to_intro p s i mk w :
  Inv w → able w → pub p 0 s w → i < height (w_mem w) p → lpair (w_mem w) p i = Some mk →
  lm_marked mk = true ∨ node_less less s tg = true → (i = 0 → finds p w) →
  next_to p i (lm_ref mk) w.
Proof.
  intros HI HA Hp Hi Hmk Hcase Hf. destruct (pair_exists _ _ _ _ _ _ HI Hp Hi) as (mk' & Hmk' & Hok).
  rewrite Hmk in Hmk'. injection Hmk' as <-. destruct (lm_ref mk) as [y|] eqn:Hy.
  - destruct (q_goes _ _ _ _ _ Hok y Hy) as ([b Hhy] & Hiy & Hb).
    assert (b = 0) as -> by exact (u_home _ _ (proj2 HI) _ _ Hhy).
    destruct (i_pub _ _ _ _ _ (proj1 HI) _ _ Hhy) as (sy & mky & Hoky).
    exists y, sy. split; [done|]. split; [split; [done|apply Hoky]|]. split; [done|].
    split; [done|]. intros ->. rewrite pair_link in Hmk. apply (f_next _ _ X p y s mk w); auto.
  - destruct (q_end _ _ _ _ _ Hok Hy) as (s' & Hs' & Hk). destruct Hp as [Hh Hs].
    rewrite Hs in Hs'. injection Hs' as <-. exfalso. destruct Hcase as [Hm|Hlt].
    + destruct (q_marked _ _ _ _ _ Hok Hm) as [k' Hk']. unfold key_at in Hk'. rewrite Hs in Hk'.
      simpl in Hk'. case_bool_decide; [lia|done].
    + apply MList.list_less_spec in Hlt. simpl in Hlt. lia.
Qed.

(** Where a node was read for the last time, and the search is over. *)
Definition settled i (marked : bool) (s : sig) : bool :=
  negb marked && negb (node_less less s tg) && bool_decide (i = 0).

(** What [x.nexts[i].get()] told about the node [x]. *)
Definition visited x (s : sig) i (succ : option loc) (marked : bool) (σ L : nat) w : Prop :=
  pub x 0 s w ∧ i < height (w_mem w) x ∧
  (if settled i marked s then found x s w else able w) ∧
  if marked then final x i succ w
  else edge x i succ σ L w ∧ (node_less less s tg = true → finds x w ∧ next_to x i succ w).

Lemma sl_visited_stable w w' x s i (succ : option loc) marked σ L :
  rely t w w' → visited x s i succ marked σ L w → visited x s i succ marked σ L w'.
Proof.
  intros HR (Hx & Hi & HA & Hv). assert (is_Some (home (w_aux w) !! x)) as Hh by (eexists; apply Hx).
  split; [by eapply pub_kept|]. rewrite (height_stable _ _ _ _ _ _ HR) by done. split; [done|]. split.
  - destruct (settled i marked s); [by eapply (f_found_stable _ _ X)|by eapply (f_able_stable _ _ X)].
  - unfold settled in HA. destruct marked; [by eapply final_stable|]. destruct Hv as [He Hl].
    split; [by eapply at_pair_stable|]. intros Hlt. rewrite Hlt in HA. simpl in HA.
    destruct (Hl Hlt). split; [by eapply (f_finds_stable _ _ X)|by eapply next_to_stable].
Qed.

Lemma sl_visited_renewed w w' x s i (succ : option loc) marked σ σ' L :
  rely t w w' → renewed σ L w' σ' → visited x s i succ marked σ L w →
  visited x s i succ marked σ' (w_len w') w'.
Proof.
  intros HR Hn Hv. pose proof (sl_visited_stable _ _ _ _ _ _ _ _ _ HR Hv) as (Hx & Hi & HA & Hv').
  split; [done|]. split; [done|]. split; [done|]. destruct Hv as (_ & _ & _ & Hv).
  destruct marked; [done|]. split; [|apply Hv']. eapply renewed_at_pair; [done..|apply Hv].
Qed.

(** [x.nexts[i].get()] in a search. *)
Lemma sl_wp_visit {B} (Q : budget → B → world → Prop) x s i n σ L q w :
  2 ≤ n → pub x 0 s w → i < height (w_mem w) x → able w → (i = 0 → finds x w) →
  L ≤ w_len w → (w_len w = L → slack w ≤ σ) →
  (∀ w' cm succ marked, rely t w w' → Inv w' →
     (settled i marked s = false → with_commit w' cm = w') →
     visited x s i succ marked σ L (with_commit w' cm) →
     wp t Q (Refill (n - 2) L) (q (succ, marked)) (with_commit w' cm)) →
  wp t Q (Refill n L) (bind (get (Some x) (Z.of_nat i)) q) w.
Proof.
  intros Hn Hx Hi HA Hf HL Hσ Hq. eapply sl_wp_get; [done|exact Hx|done|].
  intros w1 mk HR HI Hmk.
  assert (is_Some (home (w_aux w) !! x)) as Hh by (eexists; apply Hx).
  assert (able w1) as HA1 by by eapply (f_able_stable _ _ X).
  assert (i = 0 → finds x w1) as Hf1 by (intros ->; eapply (f_finds_stable _ _ X); eauto).
  rewrite <-(height_stable _ _ _ _ _ _ HR) in Hi by done. eapply pub_kept in Hx; [|exact HR].
  pose proof (next_to_intro _ _ _ _ _ HI HA1 Hx Hi Hmk) as Hnext.
  assert (edge x i (lm_ref mk) σ L w1 ∨ lm_marked mk = true) as Hedge.
  { destruct mk as [r [|]]; [by right|left]. split; [eexists; apply Hx|].
    pose proof (len_stable _ _ _ _ _ HR). split; [lia|]. intros E1.
    pose proof (slack_stable _ _ _ _ _ HR ltac:(lia)). specialize (Hσ ltac:(lia)).
    split; [lia|]. intros _. by eexists. }
  destruct (settled i (lm_marked mk) s) eqn:Es.
  - unfold settled in Es. apply andb_true_iff in Es as [[Em Elt]%andb_true_iff E0].
    apply negb_true_iff in Em, Elt. apply bool_decide_eq_true in E0 as ->.
    pose proof (alive_unmarked _ _ _ _ _ _ HI Hx Hi (not_marked _ _ _ _ Hmk Em)) as Hd.
    destruct (f_hook _ _ X x s w1 HI HA1 (Hf1 eq_refl) Hx Hd Elt) as (cm & Hg & HP).
    exists cm. split; [done|]. rewrite Em. apply Hq; [done..| |].
    { unfold settled. by rewrite Elt, bool_decide_true. }
    split; [done|]. split; [done|]. unfold settled. rewrite Elt, bool_decide_true by done.
    split; [done|]. split; [by destruct Hedge as [?|?]; [|congruence]|done].
  - exists (commit (w_aux w1)). rewrite with_commit_id. split; [by apply good_step_refl|].
    rewrite <-(with_commit_id zeroV less w1). apply Hq; [done..| |].
    { intros _. by rewrite with_commit_id. }
    rewrite with_commit_id. split; [done|]. split; [done|]. rewrite Es. split; [done|].
    destruct (lm_marked mk) eqn:Em.
    + apply (final_intro zeroV less _ _ s); [done..|]. rewrite Hmk, <-Em. by destruct mk.
    + split; [by destruct Hedge|]. intros Hlt. split; [|auto].
      eapply (f_alive _ _ X); [done..| |done].
      eapply alive_unmarked; [done..|]. by eapply not_marked.
Qed.

(** ** The places found so far *)

Definition found_at j (preds succs : list (option loc)) (σ L : nat) w : Prop := ∃ p x sp sx,
  preds !! j = Some (Some p) ∧ succs !! j = Some (Some x) ∧ place p sp j w ∧
  pub x 0 sx w ∧ j < height (w_mem w) x ∧ node_less less sx tg = false ∧ edge p j (Some x) σ L w.

(** On the levels from [i]. *)
Definition filled i (preds succs : list (option loc)) (σ L : nat) w : Prop :=
  length preds = levels ∧ length succs = levels ∧
  ∀ j, i ≤ j < levels → found_at j preds succs σ L w.

Lemma found_at_renewed u w w' j (preds succs : list (option loc)) σ σ' L :
  rely u w w' → renewed σ L w' σ' → found_at j preds succs σ L w →
  found_at j preds succs σ' (w_len w') w'.
Proof.
  intros HR Hn (p & x & sp & sx & ? & ? & Hp & Hx & Hj & ? & He). exists p, x, sp, sx.
  split; [done|]. split; [done|]. split; [by eapply place_stable|].
  rewrite (height_stable _ _ _ _ _ _ HR) by (eexists; apply Hx).
  split; [by eapply pub_kept|]. split; [done|]. split; [done|]. by eapply renewed_at_pair.
Qed.

Lemma filled_renewed u w w' i (preds succs : list (option loc)) σ σ' L :
  rely u w w' → renewed σ L w' σ' → filled i preds succs σ L w →
  filled i preds succs σ' (w_len w') w'.
Proof.
  intros HR Hn (? & ? & Hf). split; [done|]. split; [done|]. intros j Hj.
  eapply found_at_renewed; eauto.
Qed.

Lemma filled_stable u w w' i (preds succs : list (option loc)) σ L :
  rely u w w' → filled i preds succs σ L w → filled i preds succs σ L w'.
Proof.
  intros HR (? & ? & Hf). split; [done|]. split; [done|]. intros j Hj.
  destruct (Hf j Hj) as (p & x & sp & sx & ? & ? & Hp & Hx & Hjx & ? & He). exists p, x, sp, sx.
  split; [done|]. split; [done|]. split; [by eapply place_stable|].
  rewrite (height_stable _ _ _ _ _ _ HR) by (eexists; apply Hx).
  split; [by eapply pub_kept|]. split; [done|]. split; [done|]. by eapply at_pair_stable.
Qed.

(** After a change of the pointer of [p] at level [i]. *)
Lemma filled_less u p i (c : loc) us (a : aux) (preds succs : list (option loc)) σ L w :
  let w' := upd Sp w (set_slot (w_mem w) p i c) us a in
  rely u w w' → w_len w' = w_len w → slack w' < slack w → i < height (w_mem w) p →
  filled (S i) preds succs σ L w → filled (S i) preds succs (σ - 1) L w'.
Proof.
  intros w' HR Hlen Hlt Hi (? & ? & Hf). split; [done|]. split; [done|]. intros j Hj.
  destruct (Hf j Hj) as (q & x & sq & sx & ? & ? & Hq & Hx & Hjx & ? & He). exists q, x, sq, sx.
  assert (is_Some (home (w_aux w) !! q)) as Hqh by apply He.
  split; [done|]. split; [done|]. split; [by eapply place_stable|].
  rewrite (height_stable _ _ _ _ _ _ HR) by (eexists; apply Hx).
  split; [by eapply pub_kept|]. split; [done|]. split; [done|].
  eapply at_pair_less; [exact He|by eapply home_stable|done..|].
  unfold lpair, w', upd. simpl. rewrite set_slot_slot by done.
  rewrite decide_False by (intros [_ ->]; lia).
  by rewrite (proj1 (set_slot_rest (w_mem w) p i c)).
Qed.

(** ** Walking along one level *)

Section level.
Context (i : nat) (Hlevel : i < levels) (preds succs : list (option loc)).

(** What is set aside for the levels below, and [c]. *)
Definition ahead_cost (i c : nat) (L : nat) : nat := E L + 50 * i + c.

Lemma ahead_cost_le j c L : j < levels → c ≤ 900 → ahead_cost j c L ≤ 2 * cost L.
Proof.
  intros Hj Hc. specialize (HE L). unfold ahead_cost, cost, hop in *.
  replace levels with 32 in * by reflexivity. lia.
Qed.

(** The search starts over: it takes half of what a change pays for. *)
Definition restart (L : nat) : nat := 2 * (levels * hop L) + E L + 20.

Lemma restart_le L : restart L ≤ 2 * cost L.
Proof using HE. clear i Hlevel. specialize (HE L). unfold restart, cost in *. lia. Qed.

Definition over (b : budget) w : Prop := ∃ σ n L, b = Refill n L ∧ 1 ≤ n ∧ able w ∧
  fuel None σ restart n L w.

Lemma sl_over_stable (b : budget) w w' : rely t w w' → over b w → over b w'.
Proof.
  intros HR (σ & n & L & ? & ? & ? & ?). exists σ, n, L. split; [done|]. split; [done|].
  split; [by eapply (f_able_stable _ _ X)|by eapply fuel_stable].
Qed.

(** Between [p] and [curr], where the log had length [L]. *)
Definition between p sp (curr : option loc) (c σ n L : nat) w : Prop :=
  place p sp i w ∧ edge p i curr σ L w ∧ filled (S i) preds succs σ L w ∧
  fuel (Some p) σ (ahead_cost i c) n L w.

Lemma between_stable w w' p sp (curr : option loc) c σ n L :
  rely t w w' → between p sp curr c σ n L w → between p sp curr c σ n L w'.
Proof.
  intros HR (? & ? & ? & ?). split; [by eapply place_stable|]. split; [by eapply at_pair_stable|].
  split; [by eapply filled_stable|by eapply fuel_stable].
Qed.

Lemma between_spend w p sp (curr : option loc) c c' σ n n' L :
  n + c' ≤ n' + c → between p sp curr c σ n L w → between p sp curr c' σ n' L w.
Proof.
  intros Hle (? & ? & ? & Hf). do 3 (split; [done|]). eapply fuel_spend; [exact Hf|].
  unfold ahead_cost. lia.
Qed.

(** With a new account where need be. *)
Lemma wp_between {B} (Q : budget → B → world → Prop) p sp (curr : option loc) c σ n L q w :
  c ≤ 900 → between p sp curr c σ n L w →
  (∀ w' σ' n', rely t w w' → Inv w' → renewed σ L w' σ' → slack w' ≤ σ' →
     between p sp curr c σ' n' (w_len w') w' →
     σ' * cost (w_len w') + 20 * above w' p + ahead_cost i c (w_len w') ≤ n' →
     wp t Q (Refill n' (w_len w')) q w') →
  wp t Q (Refill n L) q w.
Proof.
  intros Hc (Hp & He & Hf & Hfuel) Hq. eapply wp_renew; [|exact Hfuel|].
  { intros L'. by apply ahead_cost_le. }
  intros w' σ' n' HR HI Hn Hs Hn'. apply (Hq w' σ' n' HR HI Hn Hs); [|done].
  split; [by eapply place_stable|]. split; [by eapply renewed_at_pair|].
  split; [by eapply filled_renewed|]. split; [|split; [done|]; by intros _].
  intros l Hl. eapply home_stable; [exact HR|]. by apply Hfuel.
Qed.

(** In the loop of [unlink]. *)
Definition unlinking p sp (c : nat) (b : budget) (z : option loc * option loc * bool) w : Prop :=
  ∃ σ n L x sx, b = Refill n L ∧ z.1.1 = Some x ∧ before less (w_mem w) p x ∧
    visited x sx i z.1.2 z.2 σ L w ∧ (settled i z.2 sx = false → finds p w) ∧
    between p sp (Some x) c σ n L w.

Lemma sl_unlinking_stable p sp c (b : budget) (z : option loc * option loc * bool) w w' :
  rely t w w' → unlinking p sp c b z w → unlinking p sp c b z w'.
Proof.
  intros HR (σ & n & L & x & sx & ? & ? & Hb & Hv & Hf & Hbe).
  pose proof Hbe as ((Hp & _) & _). pose proof Hv as (Hx & _ & HA & _).
  exists σ, n, L, x, sx. split; [done|]. split; [done|]. split.
  { apply (before_same less (w_mem w) (w_mem w')); [..|done];
      apply (r_sig _ _ _ _ _ (proj1 HR)); eexists; [apply Hp|apply Hx]. }
  split; [by eapply sl_visited_stable|]. split; [|by eapply between_stable].
  intros Hs. rewrite Hs in HA. eapply (f_finds_stable _ _ X); eauto.
Qed.

Definition unlink_post p sp (b : budget) (r : option (option loc * option loc)) w : Prop :=
  match r with
  | None => over b w
  | Some (curr, succ) => unlinking p sp 25 b (curr, succ, false) w
  end.

Lemma between_commit w cm p sp (curr : option loc) c σ n L :
  between p sp curr c σ n L w → between p sp curr c σ n L (with_commit w cm).
Proof. done. Qed.

(** The marked node [x] is unlinked: one change fewer to come. *)
Lemma unlink_change p sp σ n n' (c : loc) x (succ : option loc) L w :
  Inv w → between p sp (Some x) 25 σ n L w →
  lpair (w_mem w) p i = Some (ListMarkable (Some x) false) → final x i succ w →
  marks (w_mem w) !! c = Some (ListMarkable succ false) → n ≤ n' + 200 → ∃ a,
  let w' := upd Sp w (set_slot (w_mem w) p i c) [] a in
  good_step t w w' ∧ rely t w w' ∧ between p sp succ 60 (σ - 1) n' L w'.
Proof using HE Hlevel.
  intros HI (Hp & He & Hfill & Hfuel) Hl (_ & Hfin & _) Hc Hn. pose proof Hp as (Hpp & _ & Hpi).
  destruct (unlink_any_step zeroV less p sp i c x succ w HI Hpp Hl Hfin Hc) as (a & Hg & Hless).
  exists a. set (w3 := upd Sp w (set_slot (w_mem w) p i c) [] a) in *.
  assert (rely t w w3) as HR by (apply (Hg (S t)); lia).
  split; [apply Hg|]. split; [done|]. split; [by eapply place_stable|]. split; [|split].
  - destruct He as (? & ? & Hs). split; [by eapply home_stable|]. split; [done|].
    intros E3. destruct (Hs E3). split; [lia|]. intros _. eexists. split; [|done].
    unfold lpair, w3, upd. simpl. rewrite set_slot_slot, decide_True by done. simpl.
    by rewrite (proj1 (set_slot_rest (w_mem w) p i c)).
  - by eapply filled_less.
  - eapply better_fuel; [by eapply fuel_stable| |].
    + destruct He as (_ & ? & Hs). split; [done|]. intros E3. destruct (Hs E3). lia.
    + unfold ahead_cost. specialize (HE L). lia.
Qed.

(** On to the node that now comes after [p]. *)
Lemma wp_reread p sp (curr : option loc) σ n L w :
  5 ≤ n → able w → finds p w → between p sp curr 60 σ n L w →
  wp t (λ b res w, match res with
      | inl z => unlinking p sp 26 b z w ∧ some_left b
      | inr r => unlink_post p sp b r w
      end) (Refill n L)
    (let! curr := getReference (Some p) (Z.of_nat i) in
     let! sm := get curr (Z.of_nat i) in
     continue (curr, sm.1, sm.2)) w.
Proof.
  intros Hn HA Hf Hbe. pose proof (proj1 Hbe) as (Hpp & _ & Hpi).
  eapply (wp_getReference zeroV less t _ p i sp); [lia|done|done|]. intros w1 mk HR1 HI1 Hmk.
  pose proof (between_stable _ _ _ _ _ _ _ _ _ HR1 Hbe) as Hbe1.
  pose proof Hbe1 as (Hp1 & He1 & _). pose proof Hp1 as (Hpp1 & _ & Hpi1).
  pose proof (f_finds_stable _ _ X _ _ _ _ HR1 HA Hpp Hf) as Hf1.
  apply (f_able_stable _ _ X _ _ HR1) in HA.
  destruct (next_to_intro p sp i mk w1) as (y & sy & Hy & Hpy & Hiy & Hby & Hfy); [done..| |done|].
  { right. apply Hp1. } rewrite Hy.
  apply edge_clean in He1. apply (clean_edge _ _ _ _ _ _ _ He1) in Hmk. rewrite Hy in Hmk.
  eapply (sl_wp_visit _ y sy i _ σ); [lia|done|done|done|done|apply Hmk|intros E1; by apply Hmk|].
  intros w2 cm succ marked HR2 HI2 Hsame Hv2.
  apply wp_ret. intros w3 HR3 _. split; [|eexists _, _; split; [done|lia]].
  eapply sl_unlinking_stable; [exact HR3|].
  exists σ, (n - 2 - 2), L, y, sy. split; [done|]. split; [done|]. split.
  { apply (before_same less (w_mem w1) (w_mem w2)); [..|done];
      apply (r_sig _ _ _ _ _ (proj1 HR2)); eexists; [apply Hpp1|apply Hpy]. }
  split; [exact Hv2|]. split.
  { intros Hs. rewrite (Hsame Hs). eapply (f_finds_stable _ _ X); eauto. }
  apply between_commit. eapply between_stable; [exact HR2|].
  apply (between_spend _ _ _ _ 60 _ _ n); [lia|].
  destruct Hbe1 as (? & _ & ? & ?). by split; [|split].
Qed.

(** One round of [unlink]. *)
Lemma sl_wp_unlink_one p sp σ n L x sx (succ : option loc) w :
  before less (w_mem w) p x → visited x sx i succ true σ L w → finds p w →
  between p sp (Some x) 25 σ n L w →
  wp t (λ b res w, match res with
      | inl z => unlinking p sp 26 b z w ∧ some_left b
      | inr r => unlink_post p sp b r w
      end) (Refill n L)
    (let! ok := compareAndSet (Some p) (Z.of_nat i) (Some x) succ false false in
     if negb ok then break None
     else
       let! curr := getReference (Some p) (Z.of_nat i) in
       let! sm := get curr (Z.of_nat i) in
       continue (curr, sm.1, sm.2)) w.
Proof using All.
  intros Hb (Hx & Hi & HA & Hfin) Hf Hbe. pose proof (proj1 (proj1 Hbe)) as Hpw.
  eapply wp_between; [|exact Hbe|]; [lia|]. clear Hbe.
  intros w1 σ1 n1 HR1 HI1 _ _ Hbe Hn1. pose proof Hbe as (Hp & He & _ & Hfuel).
  set (L1 := w_len w1) in *. pose proof Hp as (Hpp & _ & Hpi).
  pose proof (f_finds_stable _ _ X _ _ _ _ HR1 HA Hpw Hf) as Hf1.
  apply (f_able_stable _ _ X _ _ HR1) in HA. apply (final_stable _ _ _ _ _ _ _ _ HR1) in Hfin.
  apply (pub_kept _ _ _ _ _ _ _ HR1) in Hx. unfold ahead_cost in Hn1.
  eapply (sl_wp_compareAndSet zeroV less t _ p i sp (Some x) succ false); [lia|done|done| |exact He|..].
  { right. intros <-. destruct Hfin as (_ & Hfin & _).
    destruct (pair_exists zeroV less x i sx w1 HI1 Hx) as (mk & Hmk & Hok).
    - destruct (pair_slot _ _ _ _ Hfin) as (? & ? & _). by eapply slot_height.
    - rewrite Hfin in Hmk. injection Hmk as <-.
      destruct (q_goes _ _ _ _ _ Hok x eq_refl) as (_ & _ & Hbx). by eapply before_irrefl. }
  - intros w2 c' HR2 HI2 Hl2 Hc2. cbn beta iota delta [negb].
    destruct (unlink_change p sp σ1 n1 (n1 - 4) c' x succ L1 w2 HI2) as (a & Hg & HR3 & Hbe3);
      [by eapply between_stable|done|by eapply final_stable|done|lia|].
    exists [], a. split; [exact Hg|]. assert (rely t w1 (upd Sp w2 (set_slot (w_mem w2) p i c') [] a))
      as HR13 by (etrans; [exact HR2|exact HR3]).
    eapply wp_reread; [lia|by eapply (f_able_stable _ _ X)| |exact Hbe3].
    by eapply (f_finds_stable _ _ X).
  - intros w2 HR2 HI2 Hgone. cbn beta iota delta [negb]. apply at_pair_gone in Hgone; [|naive_solver].
    apply wp_ret. intros w3 HR3 _. apply (sl_over_stable _ w2); [done|].
    exists (σ1 - 1), (n1 - 4), L1. split; [done|]. split; [lia|].
    split; [by eapply (f_able_stable _ _ X)|]. eapply fuel_drop, better_fuel; [|exact Hgone|].
    + by eapply fuel_stable.
    + unfold restart, ahead_cost, cost. lia.
Qed.

Lemma sl_wp_unlink p sp (b : budget) (curr succ : option loc) (marked : bool) w :
  unlinking p sp 26 b (curr, succ, marked) w → some_left b →
  wp t (unlink_post p sp) b (unlink (Z.of_nat i) (Some p) curr succ marked) w.
Proof using All.
  intros Hun Hb. unfold unlink, loop.
  apply (wp_loop Sp proto pg t _ (λ (b : budget) (z : option loc * option loc * bool) w,
    unlinking p sp 26 b z w ∧ some_left b));
    [|intros b1 z w1 w2 [? ?] ?; split; [by eapply sl_unlinking_stable|done]|done].
  clear b curr succ marked w Hun Hb.
  intros b [[curr succ] marked] w [(σ & n & L & x & sx & -> & Hcx & Hbx & Hv & Hf & Hbe)
    (? & ? & [= <- <-] & Hn)] _.
  simpl in Hcx, Hv, Hf. subst curr. eexists. split; [by apply spend|].
  apply (between_spend _ _ _ _ 26 25 _ n (n - 1)) in Hbe; [|lia]. destruct marked; cbn beta iota.
  - eapply wp_mono; [|by eapply sl_wp_unlink_one; [..|apply Hf|]].
    intros b [z|r] w1 _ Hpost; [done|]. apply wp_ret. intros w2 HR2 _.
    destruct r as [[curr succ']|]; [by eapply sl_unlinking_stable|by eapply sl_over_stable].
  - apply wp_ret. intros w3 HR3 _. apply wp_ret. intros w4 HR4 _.
    eapply sl_unlinking_stable; [exact HR4|]. eapply sl_unlinking_stable; [exact HR3|].
    by exists σ, (n - 1), L, x, sx.
Qed.

(** In the loop of [traverse]. *)
Definition traversing (b : budget) (z : option loc * option loc) w : Prop := ∃ σ n L p sp,
  b = Refill n L ∧ 1 ≤ n ∧ z.1 = Some p ∧ able w ∧ finds p w ∧ next_to p i z.2 w ∧
  between p sp z.2 30 σ n L w.

Lemma sl_traversing_stable (b : budget) (z : option loc * option loc) w w' :
  rely t w w' → traversing b z w → traversing b z w'.
Proof.
  intros HR (σ & n & L & p & sp & ? & ? & ? & HA & Hf & Hn & Hbe).
  pose proof (proj1 (proj1 Hbe)) as Hp.
  exists σ, n, L, p, sp. do 3 (split; [done|]). split; [by eapply (f_able_stable _ _ X)|].
  split; [by eapply (f_finds_stable _ _ X)|].
  split; [eapply next_to_stable; [done..| |done]; eexists; apply Hp|by eapply between_stable].
Qed.

(** Where the walk ends. *)
Definition reached (b : budget) (z : option loc * option loc) w : Prop := ∃ σ n L p sp x sx,
  b = Refill n L ∧ z = (Some p, Some x) ∧ between p sp (Some x) 20 σ n L w ∧ pub x 0 sx w ∧
  i < height (w_mem w) x ∧ node_less less sx tg = false ∧
  if bool_decide (i = 0) then found x sx w else able w ∧ finds p w.

Lemma reached_stable (b : budget) (z : option loc * option loc) w w' :
  rely t w w' → reached b z w → reached b z w'.
Proof.
  intros HR (σ & n & L & p & sp & x & sx & ? & ? & Hbe & Hx & ? & ? & Hc).
  pose proof (proj1 (proj1 Hbe)) as Hp.
  exists σ, n, L, p, sp, x, sx. do 2 (split; [done|]). split; [by eapply between_stable|].
  rewrite (height_stable _ _ _ _ _ _ HR) by (eexists; apply Hx).
  split; [by eapply pub_kept|]. split; [done|]. split; [done|].
  case_bool_decide; [by eapply (f_found_stable _ _ X)|]. destruct Hc.
  split; [by eapply (f_able_stable _ _ X)|by eapply (f_finds_stable _ _ X)].
Qed.

Definition traverse_post (b : budget) (r : option (option loc * option loc)) w : Prop :=
  match r with None => over b w | Some z => reached b z w end.

Lemma sl_traverse_post_stable (b : budget) (r : option (option loc * option loc)) w w' :
  rely t w w' → traverse_post b r w → traverse_post b r w'.
Proof. destruct r; [apply reached_stable|apply sl_over_stable]. Qed.

Definition round_post (b : budget) (res : option loc * option loc + option (option loc * option loc))
    w : Prop :=
  match res with
  | inl z => traversing b z w
  | inr r => wp t traverse_post b (Ret r) w
  end.

(** Whether to walk on behind [p]. *)
Lemma sl_wp_walk_on p sp (b : budget) (curr succ : option loc) w :
  unlinking p sp 25 b (curr, succ, false) w →
  wp t round_post b
    (let! lt := keyLess less curr k in
     if lt : bool then continue (curr, succ) else break (Some (Some p, curr))) w.
Proof using All.
  intros (σ & n & L & x & sx & -> & Hcx & Hbx & Hv & Hf & Hbe). simpl in Hcx, Hv, Hf. subst curr.
  eapply (wp_between _ p sp (Some x) 25); [lia|exact Hbe|].
  intros w1 σ1 n1 HR1 HI1 Hren _ Hbe1 Hn1. pose proof (proj1 (proj1 Hbe)) as Hp.
  pose proof Hv as (Hxw & _ & HAw & _).
  apply (sl_visited_renewed _ _ _ _ _ _ _ _ _ _ HR1 Hren) in Hv as (Hx & Hi & HA & Hedge & Hv).
  assert (before less (w_mem w1) p x) as Hbx1.
  { apply (before_same less (w_mem w) (w_mem w1)); [..|done]; apply (r_sig _ _ _ _ _ (proj1 HR1));
      eexists; [apply Hp|apply Hxw]. }
  unfold ahead_cost in Hn1. eapply (sl_wp_keyLess zeroV less t _ x sx); [lia|exact Hx|].
  unfold settled in *. destruct (node_less less sx tg) eqn:Hlt; cbn [negb andb] in *.
  - destruct (Hv eq_refl) as [Hfx Hnext]. apply wp_ret. intros w2 HR2 _.
    eapply sl_traversing_stable; [exact HR2|]. exists σ1, (n1 - 1), (w_len w1), x, sx.
    split; [done|]. split; [lia|]. split; [done|]. split; [done|]. split; [done|]. split; [done|].
    destruct Hbe1 as (_ & _ & Hfill & Hfuel). split; [by split|]. split; [done|]. split; [done|].
    pose proof (sl_above_lt less w1 p x ltac:(eexists; apply Hx) Hbx1) as Hab.
    split; [intros ? [= <-]; eexists; apply Hx|]. split; [done|]. intros _.
    destruct Hfuel as (_ & _ & Hfuel). destruct (Hfuel eq_refl) as [? _]. split; [done|].
    unfold onward, ahead_cost. lia.
  - assert (i ≠ 0 → finds p w1) as Hfp.
    { intros Hi0. rewrite bool_decide_false in * by done. eapply (f_finds_stable _ _ X); [done..|auto]. }
    apply wp_ret. intros w2 HR2 _. apply wp_ret. intros w3 HR3 _.
    eapply reached_stable; [exact HR3|]. eapply reached_stable; [exact HR2|].
    exists σ1, (n1 - 1), (w_len w1), p, sp, x, sx. do 2 (split; [done|]).
    split; [eapply (between_spend _ _ _ _ 25 20); [|exact Hbe1]; lia|].
    do 3 (split; [done|]). case_bool_decide; [done|]. auto.
Qed.

(** One round of the inner loop. *)
Lemma sl_wp_traverse_one p sp (curr : option loc) σ n L w :
  able w → finds p w → next_to p i curr w → between p sp curr 29 σ n L w →
  wp t round_post (Refill n L)
    (let! sm := get curr (Z.of_nat i) in
     let! un := unlink (Z.of_nat i) (Some p) curr sm.1 sm.2 in
     match un with
     | None => break None
     | Some (curr, succ) =>
         let! lt := keyLess less curr k in
         if lt : bool then continue (curr, succ) else break (Some (Some p, curr))
     end) w.
Proof using All.
  intros HA Hf Hnext Hbe. pose proof (proj1 (proj1 Hbe)) as Hp.
  eapply (wp_between _ p sp curr 29); [lia|exact Hbe|].
  intros w1 σ1 n1 HR1 HI1 _ Hs1 Hbe1 Hn1. pose proof (proj1 (proj1 Hbe1)) as Hp1.
  apply (next_to_stable _ _ _ _ _ HR1 HA ltac:(eexists; apply Hp)) in Hnext.
  pose proof (f_finds_stable _ _ X _ _ _ _ HR1 HA Hp Hf) as Hf1.
  apply (f_able_stable _ _ X _ _ HR1) in HA.
  destruct Hnext as (x & sx & -> & Hx & Hi & Hbx & Hfx). unfold ahead_cost in Hn1.
  eapply (sl_wp_visit _ x sx i _ σ1); [lia|done|done|done|done|done|done|].
  intros w2 cm succ marked HR2 HI2 Hsame Hv.
  apply wp_bind. eapply wp_mono; [|apply (sl_wp_unlink p sp)].
  - intros b [[curr succ']|] w3 _ Hpost; [by apply (sl_wp_walk_on p sp)|].
    apply wp_ret. intros w5 HR5 _. apply wp_ret. intros w6 HR6 _.
    eapply sl_over_stable; [exact HR6|]. by eapply sl_over_stable.
  - exists σ1, (n1 - 2), (w_len w1), x, sx. split; [done|]. split; [done|]. split.
    { apply (before_same less (w_mem w1) (w_mem w2)); [..|done]; apply (r_sig _ _ _ _ _ (proj1 HR2));
        eexists; [apply Hp1|apply Hx]. }
    split; [exact Hv|]. split.
    { intros Hs. rewrite (Hsame Hs). by eapply (f_finds_stable _ _ X). }
    apply between_commit. eapply between_stable; [exact HR2|].
    eapply between_spend; [|exact Hbe1]. lia.
  - eexists _, _. split; [done|lia].
Qed.

Lemma wp_traverse_loop (b : budget) z w :
  traversing b z w →
  wp t traverse_post b
    (loop (λ '(pred, curr),
      let! sm := get curr (Z.of_nat i) in
      let! un := unlink (Z.of_nat i) pred curr sm.1 sm.2 in
      match un with
      | None => break None
      | Some (curr, succ) =>
          let! lt := keyLess less curr k in
          if lt : bool then continue (curr, succ) else break (Some (pred, curr))
      end) z) w.
Proof using All.
  intros Hz. apply (wp_loop Sp proto pg t _ traversing);
    [|intros ? ? ? ? ? ?; by eapply sl_traversing_stable|done].
  clear b z w Hz. intros b [pred curr] w (σ & n & L & p & sp & -> & Hn & Hpred & HA & Hf & Hnext & Hbe) _.
  simpl in Hpred, Hnext, Hbe. subst pred. eexists. split; [by apply spend|].
  apply (sl_wp_traverse_one p sp curr σ (n - 1) L); [done..|].
  eapply between_spend; [|exact Hbe]. lia.
Qed.

(** The walk along level [i]; [p] was not marked at a level [j]. *)
Lemma sl_wp_traverse p sp j σ n L w :
  able w → finds p w → place p sp j w → i ≤ j → clean p j σ L w →
  filled (S i) preds succs σ L w → fuel (Some p) σ (ahead_cost i 59) n L w →
  wp t traverse_post (Refill n L) (traverse less (Z.of_nat i) k (Some p)) w.
Proof using All.
  intros HA Hf Hp Hj Hc Hfill Hfuel. unfold traverse.
  eapply wp_renew; [|exact Hfuel|]; [intros L'; apply ahead_cost_le; [done|lia]|].
  intros w1 σ1 n1 HR1 HI1 Hren Hs1 Hn1.
  pose proof (f_finds_stable _ _ X _ _ _ _ HR1 HA (proj1 Hp) Hf) as Hf1.
  apply (f_able_stable _ _ X _ _ HR1) in HA.
  apply (place_stable _ _ _ _ _ _ HR1) in Hp. apply (renewed_at_pair _ _ _ _ _ _ _ _ _ _ _ HR1 Hren) in Hc.
  apply (filled_renewed _ _ _ _ _ _ _ _ _ HR1 Hren) in Hfill.
  destruct Hp as (Hp & Hlt & Hpj). unfold ahead_cost, onward in Hn1.
  eapply (wp_getReference zeroV less t _ p i sp); [lia|done|lia|]. intros w2 mk HR2 HI2 Hmk.
  assert (place p sp j w2) as (Hp2 & _ & Hpj2) by by eapply place_stable.
  pose proof (f_finds_stable _ _ X _ _ _ _ HR2 HA Hp Hf1) as Hf2.
  apply (f_able_stable _ _ X _ _ HR2) in HA. apply (at_pair_stable _ _ _ _ _ _ _ _ _ _ HR2) in Hc.
  eapply wp_mono; [|apply wp_traverse_loop]; [done|].
  exists σ1, (n1 - 2), (w_len w1), p, sp. split; [done|]. split; [lia|]. do 3 (split; [done|]).
  split; [eapply next_to_intro; [done|done|exact Hp2|lia|done|by right|done]|].
  split; [split; [done|split; [done|lia]]|]. split; [|split].
  - eapply clean_edge; [|exact Hmk]. eapply clean_below; [done|exact Hp2| |exact Hc]. lia.
  - by eapply filled_stable.
  - eapply fuel_stable; [exact HR2|]. split; [intros ? [= <-]; eexists; apply Hp|]. split; [done|].
    intros _. split; [done|]. unfold onward, ahead_cost. lia.
Qed.
End level.

(** ** From the head down *)

Lemma head_linked w : Inv w → ∃ s, pub (head (w_mem w)) 0 s w ∧ height (w_mem w) (head (w_mem w)) = levels ∧
  (∀ k', node_less less s (0%Z, k') = true) ∧ ∀ i, ¬ marked (w_mem w) (head (w_mem w)) i.
Proof.
  intros [HL HU]. destruct (i_head _ _ _ _ _ HL 0 (head (w_mem w)) eq_refl) as (Hh & s & Hs & Hk & Hlt).
  exists s. split; [done|]. destruct (u_tall _ _ HU (head (w_mem w)) ltac:(by eexists))
    as (h & z & Ht & _ & _ & Hlev).
  assert (key_at less (w_mem w) (head (w_mem w)) = None) as Hkey by (unfold key_at; by rewrite Hs).
  split; [unfold height; rewrite Ht; by apply Hlev|]. split; [done|].
  intros i (mk & Hmk & Hm). destruct (pair_slot _ _ _ _ Hmk) as (c & Hc & _).
  destruct (pair_exists zeroV less (head (w_mem w)) i s w (conj HL HU)) as (mk' & Hmk' & Hok);
    [done|by eapply slot_height|]. rewrite Hmk in Hmk'. injection Hmk' as <-.
  destruct (q_marked _ _ _ _ _ Hok Hm). congruence.
Qed.

Lemma head_place σ L w : Inv w → able w → L ≤ w_len w → (w_len w = L → slack w ≤ σ) →
  let h := head (w_mem w) in ∃ sp,
  place h sp (levels - 1) w ∧ finds h w ∧ clean h (levels - 1) σ L w.
Proof.
  intros HI HA HL Hs h. destruct (head_linked w HI) as (sp & Hp & Hh & Hlt & Hm). fold h in Hp, Hh, Hm.
  exists sp. assert (levels - 1 < height (w_mem w) h) as Hi
    by (rewrite Hh; replace levels with 32 by reflexivity; lia).
  split; [by split|]. split.
  - eapply (f_alive _ _ X); [done|done|exact Hp| |apply Hlt]. by eapply alive_unmarked.
  - destruct (pair_exists zeroV less h (levels - 1) sp w HI Hp Hi) as (mk & Hmk & _).
    split; [eexists; apply Hp|]. split; [done|]. intros E1. split; [auto|]. intros _. exists mk.
    split; [done|]. destruct (lm_marked mk) eqn:Em; [|done]. destruct (Hm (levels - 1)). by exists mk.
Qed.

(** What a search leaves behind; [c] pays for what is left to do. *)
Definition searched (c : nat) (b : budget) (z : list (option loc) * list (option loc)) w : Prop :=
  ∃ σ n L x sx, b = Refill n L ∧ filled 0 z.1 z.2 σ L w ∧ fuel None σ (λ L, E L + c) n L w ∧
    z.2 !! 0 = Some (Some x) ∧ pub x 0 sx w ∧ found x sx w.

Lemma searched_stable c (b : budget) z w w' : rely t w w' → searched c b z w → searched c b z w'.
Proof.
  intros HR (σ & n & L & x & sx & ? & ? & ? & ? & ? & ?). exists σ, n, L, x, sx. split; [done|].
  split; [by eapply filled_stable|]. split; [by eapply fuel_stable|]. split; [done|].
  split; [by eapply pub_kept|by eapply (f_found_stable _ _ X)].
Qed.

(** Before level [i - 1] is searched. *)
Definition descending (b : budget)
    (z : option loc * Z * (list (option loc) * list (option loc))) w : Prop :=
  some_left b ∧ ∃ i, z.1.2 = (Z.of_nat i - 1)%Z ∧ match i with
  | 0 => searched 10 b z.2 w
  | S i => i < levels ∧ ∃ σ n L p sp j, b = Refill n L ∧ filled (S i) z.2.1 z.2.2 σ L w ∧
      z.1.1 = Some p ∧ able w ∧ finds p w ∧ place p sp j w ∧ i ≤ j ∧ clean p j σ L w ∧
      fuel (Some p) σ (ahead_cost i 60) n L w
  end.

Lemma descending_stable (b : budget) z w w' : rely t w w' → descending b z w → descending b z w'.
Proof.
  intros HR (Hn & i & Hi & Hd). split; [done|]. exists i. split; [done|].
  destruct i as [|i]; [by eapply searched_stable|].
  destruct Hd as (? & σ & n & L & p & sp & j & ? & ? & ? & ? & Hf & Hp & ? & ? & ?).
  split; [done|]. exists σ, n, L, p, sp, j. split; [done|]. split; [by eapply filled_stable|].
  split; [done|]. split; [by eapply (f_able_stable _ _ X)|].
  split; [eapply (f_finds_stable _ _ X); [done|done|apply Hp|done]|].
  split; [by eapply place_stable|]. split; [done|]. split; [by eapply at_pair_stable|by eapply fuel_stable].
Qed.

Lemma put_level_eq {B} (l : list (option loc)) i (x : option loc) (q : list (option loc) → prog mem B) :
  i < length l → bind (put_level l (Z.of_nat i) x) q = q (<[i := x]> l).
Proof. intros Hi. unfold put_level, in_range. rewrite bool_decide_true by lia. by rewrite Nat2Z.id. Qed.

Lemma at_level_eq {B} (l : list (option loc)) i (x : option loc) (q : option loc → prog mem B) :
  l !! i = Some x → bind (at_level l (Z.of_nat i)) q = q x.
Proof.
  intros Hl. pose proof (lookup_lt_Some _ _ _ Hl). unfold at_level, in_range.
  rewrite bool_decide_true by lia. by rewrite Nat2Z.id, Hl.
Qed.

Lemma filled_put i (preds succs : list (option loc)) p x sp sx σ L w :
  i < levels → filled (S i) preds succs σ L w → place p sp i w → edge p i (Some x) σ L w →
  pub x 0 sx w → i < height (w_mem w) x → node_less less sx tg = false →
  filled i (<[i := Some p]> preds) (<[i := Some x]> succs) σ L w.
Proof.
  intros Hi (Hlp & Hls & Hf) Hp He Hx Hix Hlt. unfold filled. rewrite !length_insert.
  split; [done|]. split; [done|]. intros j Hj. destruct (decide (j = i)) as [->|Hne].
  - exists p, x, sp, sx. rewrite !list_lookup_insert_eq by lia. by split_and!.
  - unfold found_at. rewrite !list_lookup_insert_ne by done. apply Hf. lia.
Qed.

Definition descend_post (b : budget) (r : bool * (list (option loc) * list (option loc))) w : Prop :=
  if r.1 then searched 9 b r.2 w
  else over b w ∧ length r.2.1 = levels ∧ length r.2.2 = levels.

Lemma descend_post_stable (b : budget) r w w' : rely t w w' → descend_post b r w → descend_post b r w'.
Proof.
  unfold descend_post. intros HR. destruct r.1; [by apply searched_stable|].
  intros [? ?]. split; [by eapply sl_over_stable|done].
Qed.

Definition level_post (b : budget)
    (res : option loc * Z * (list (option loc) * list (option loc)) +
           bool * (list (option loc) * list (option loc))) w : Prop :=
  match res with
  | inl z => descending b z w
  | inr r => wp t descend_post b (Ret r) w
  end.

(** On to the next level. *)
Lemma wp_next_level i (preds succs : list (option loc)) (b : budget) (pred curr : option loc) w :
  i < levels → reached i preds succs b (pred, curr) w →
  wp t level_post b
    (let! preds := put_level preds (Z.of_nat i) pred in
     let! succs := put_level succs (Z.of_nat i) curr in
     continue (pred, (Z.of_nat i - 1)%Z, (preds, succs))) w.
Proof using All.
  intros Hi (σ & n & L & p & sp & x & sx & -> & [= -> ->] & Hbe & Hx & Hix & Hlt & Hc).
  eapply (wp_between i Hi preds succs _ p sp (Some x) 20); [lia|exact Hbe|].
  intros w1 σ1 n1 HR1 HI1 Hren Hs1 (Hp & He & Hfill & Hfuel) Hn1. unfold ahead_cost in Hn1.
  rewrite !put_level_eq by (destruct Hfill as (? & ? & _); lia).
  assert (pub x 0 sx w1) as Hx1 by by eapply pub_kept.
  assert (i < height (w_mem w1) x) as Hix1.
  { rewrite (height_stable _ _ _ _ _ _ HR1); [done|eexists; apply Hx]. }
  pose proof (filled_put i preds succs p x sp sx σ1 _ w1 Hi Hfill Hp He Hx1 Hix1 Hlt) as Hfill1.
  apply wp_ret. intros w2 HR2 _. eapply descending_stable; [exact HR2|].
  split; [eexists _, _; split; [done|lia]|]. exists i. split; [done|]. destruct i as [|i].
  - rewrite bool_decide_true in Hc by done. exists σ1, n1, (w_len w1), x, sx.
    split; [done|]. split; [done|]. split.
    { apply fuel_drop in Hfuel. eapply fuel_spend; [exact Hfuel|]. unfold ahead_cost. lia. }
    split; [|split; [done|by eapply (f_found_stable _ _ X)]].
    cbn [snd]. apply list_lookup_insert_eq. by destruct Hfill as (_ & -> & _).
  - rewrite bool_decide_false in Hc by done. destruct Hc as [HA Hf].
    pose proof (proj1 (proj1 Hbe)) as Hpw.
    split; [lia|]. exists σ1, n1, (w_len w1), p, sp, (S i). split; [done|]. split; [done|].
    split; [done|]. split; [by eapply (f_able_stable _ _ X)|].
    split; [by eapply (f_finds_stable _ _ X)|]. split; [done|]. split; [lia|].
    split; [by eapply edge_clean|]. eapply fuel_spend; [exact Hfuel|]. unfold ahead_cost. lia.
Qed.

(** One round of [descend]: a level, or the end. *)
Lemma wp_descend_one (b : budget) z w :
  descending b z w → ∃ b', budget_step b = Some b' ∧ wp t level_post b'
    (let '(pred, level, (preds, succs)) := z in
     if bool_decide (level >= 0)%Z then
       let! found := traverse less level k pred in
       match found with
       | None => break (false, (preds, succs))
       | Some (pred, curr) =>
           let! preds := put_level preds level pred in
           let! succs := put_level succs level curr in
           continue (pred, (level - 1)%Z, (preds, succs))
       end
     else break (true, (preds, succs))) w.
Proof using All.
  destruct z as [[pred level] [preds succs]]. intros ((n & L & -> & Hn) & i & Hi & Hd).
  cbn [fst snd] in *. subst level. eexists. split; [by apply spend|].
  destruct i as [|i].
  - rewrite bool_decide_false by lia. apply wp_ret. intros w1 HR1 _. apply wp_ret. intros w2 HR2 _.
    eapply descend_post_stable; [exact HR2|]. eapply descend_post_stable; [exact HR1|].
    destruct Hd as (σ & n' & L' & x & sx & [= <- <-] & ? & ? & ?). exists σ, (n - 1), L, x, sx.
    split; [done|]. split; [done|]. split; [|done]. eapply fuel_spend; [done|]. cbn beta. lia.
  - destruct Hd as (Hlev & σ & n' & L' & p & sp & j & [= <- <-] & Hfill & -> & HA & Hf & Hp & Hj & Hc & Hfuel).
    rewrite bool_decide_true by lia. replace (Z.of_nat (S i) - 1)%Z with (Z.of_nat i) by lia.
    apply wp_bind. eapply wp_mono; [|eapply (sl_wp_traverse i Hlev preds succs p sp j σ (n - 1) L);
      [done..|]; eapply fuel_spend; [exact Hfuel|unfold ahead_cost; lia]].
    intros b [[pred curr]|] w1 _ Hpost; cbn beta iota; [by apply wp_next_level|].
    apply wp_ret. intros w2 HR2 _. apply wp_ret. intros w3 HR3 _.
    eapply descend_post_stable; [exact HR3|]. eapply descend_post_stable; [exact HR2|].
    split; [exact Hpost|]. by destruct Hfill as (? & ? & _).
Qed.

Lemma wp_descend (preds succs : list (option loc)) σ n L w :
  length preds = levels → length succs = levels → able w →
  fuel None σ (λ L, restart L - 1) n L w →
  wp t descend_post (Refill n L) (descend less k preds succs) w.
Proof using All.
  intros Hlp Hls HA Hfuel. unfold descend.
  eapply wp_renew; [|exact Hfuel|]; [intros L'; pose proof (restart_le L'); cbn beta; lia|].
  intros w1 σ1 n1 HR1 HI1 _ Hs1 Hn1. apply (f_able_stable _ _ X _ _ HR1) in HA. unfold restart in Hn1.
  wp_pure. eapply wp_load; [apply spend; lia|]. intros w2 HR2 HI2.
  apply (f_able_stable _ _ X _ _ HR2) in HA.
  assert (w_len w1 ≤ w_len w2) as Hlen by by eapply len_stable.
  assert (w_len w2 = w_len w1 → slack w2 ≤ σ1) as Hs2.
  { intros E2. pose proof (slack_stable _ _ _ _ _ HR2 E2). lia. }
  destruct (head_place σ1 (w_len w1) w2 HI2 HA Hlen Hs2) as (sp & Hp & Hf & Hc).
  apply (wp_loop Sp proto pg t _ descending);
    [intros b z w3 Hz _; by apply wp_descend_one|intros ? ? ? ? ? ?; by eapply descending_stable|].
  split; [eexists _, _; split; [done|lia]|]. exists levels. split; [done|].
  change levels with (S (levels - 1)) at 1. cbn beta iota zeta. split; [apply Nat.lt_succ_diag_r|].
  exists σ1, (n1 - 1), (w_len w1), (head (w_mem w2)), sp, (levels - 1). split; [done|].
  split; [split; [done|split; [done|]]; intros j; change (S (levels - 1)) with levels; lia|].
  do 4 (split; [done|]). split; [done|]. split; [done|].
  split; [intros ? [= <-]; apply Hc|]. split; [done|]. intros E2. split; [auto|].
  pose proof (onward_bound zeroV less w2 (Some (head (w_mem w2))) HI2) as Hon.
  unfold ahead_cost. rewrite E2 in Hon. unfold cost, hop in *.
  replace levels with 32 in * by reflexivity. lia.
Qed.

(** [find] *)
Definition find_post (b : budget) (r : bool * (list (option loc) * list (option loc))) w : Prop :=
  ∃ σ n L x sx, b = Refill n L ∧ r.1 = holds less sx tg ∧ filled 0 r.2.1 r.2.2 σ L w ∧
    fuel None σ E n L w ∧ r.2.2 !! 0 = Some (Some x) ∧ pub x 0 sx w ∧ found x sx w.

Lemma find_post_stable (b : budget) r w w' : rely t w w' → find_post b r w → find_post b r w'.
Proof.
  intros HR (σ & n & L & x & sx & ? & ? & ? & ? & ? & ? & ?). exists σ, n, L, x, sx. split; [done|].
  split; [done|]. split; [by eapply filled_stable|]. split; [by eapply fuel_stable|]. split; [done|].
  split; [by eapply pub_kept|by eapply (f_found_stable _ _ X)].
Qed.

(** The attempts of [find]. *)
Definition attempting (b : budget) (z : list (option loc) * list (option loc)) w : Prop :=
  over b w ∧ length z.1 = levels ∧ length z.2 = levels.

Lemma wp_find (preds succs : list (option loc)) (b : budget) w :
  attempting b (preds, succs) w → wp t find_post b (find less k preds succs) w.
Proof using All.
  intros Hat. unfold find. apply wp_bind. unfold loop.
  apply (wp_loop Sp proto pg t _ attempting);
    [|intros ? ? ? ? [? ?] ?; split; [by eapply sl_over_stable|done]|done].
  clear b preds succs w Hat. intros b [preds succs] w [(σ & n & L & -> & Hn & HA & Hfuel) [Hlp Hls]] _.
  eexists. split; [by apply spend|]. apply wp_bind.
  eapply wp_mono; [|eapply (wp_descend preds succs σ); [done..|]].
  2:{ eapply fuel_spend; [exact Hfuel|]. cbn beta. specialize (HE L). unfold restart. lia. }
  clear n L σ w Hn HA Hfuel. intros b [[|] z] w _ Hpost; cbn [fst snd].
  - apply wp_ret. intros w1 HR1 _. apply wp_ret. intros w2 HR2 HI2.
    destruct Hpost as (σ & n & L & x & sx & -> & Hfill & Hfuel & Hx0 & Hx & Hfound).
    assert (rely t w w2) as HR by by trans w1.
    change 0%Z with (Z.of_nat 0). cbn [snd] in *. rewrite (at_level_eq _ _ _ _ Hx0).
    eapply wp_renew; [|eapply fuel_stable; [exact HR|exact Hfuel]|].
    { intros L'. cbn beta. specialize (HE L'). lia. }
    intros w3 σ3 n3 HR3 HI3 Hren Hs3 Hn3. cbn beta in Hn3. assert (rely t w w3) as HR' by by trans w2.
    eapply (sl_wp_keyEqual zeroV less t _ x sx); [lia|by eapply pub_kept|].
    apply wp_ret. intros w4 HR4 _. eapply find_post_stable; [exact HR4|].
    exists σ3, (n3 - 1), (w_len w3), x, sx. split; [done|]. split; [done|].
    split; [by eapply filled_renewed; [exact HR3|exact Hren|eapply filled_stable]|].
    split; [split; [done|split; [done|]]; intros _; split; [done|]; cbn beta; lia|].
    split; [done|]. split; [by eapply pub_kept|by eapply (f_found_stable _ _ X)].
  - apply wp_ret. intros w1 HR1 _. destruct Hpost as [Hov [? ?]].
    split; [by eapply sl_over_stable|done].
Qed.
End search.
End find.
