(* ===== verification/SkipSeek.v ===== *)
(** The searches of [lf.SkipList] that change nothing: [seek], [findNode] and
    [Range]. *)

From S2P Require Import ListCode.
From S2P Require Export SkipFind.
Local Open Scope prog_scope.

Section seek.
Context {K V : Type} (zeroV : V) (less : Less K) `{!WeakOrder less}.
#[local] Hint Extern 0 (NodeOrder _ _) => exact (MList.list_order less) : typeclass_instances.
#[local] Hint Extern 0 (Capacity _) => exact (MList.list_capacity 1) : typeclass_instances.
#[local] Hint Extern 0 (Rest _ _) => exact MList.list_rest : typeclass_instances.
Abbreviation Sp := (lmap_spec zeroV (same_key less) (ascending_range (V:=V) less)).
Abbreviation mem := (mem K V).
Abbreviation aux := (list_aux V).
Abbreviation world := (world mem (lmap_op K V) (lmap_resp K V) aux).
Abbreviation proto := (skip_proto zeroV less).
Abbreviation Inv := (pr_inv proto).
Abbreviation rely := (pr_rely proto).
Abbreviation good_step := (good_step proto).
Abbreviation sig := (Z * K)%type.
Abbreviation slack := (slack less).
Abbreviation above := (above less).
Abbreviation edge := (edge less).
Abbreviation clean := (clean less).
Abbreviation fuel := (fuel less).
Abbreviation better := (better less).
Abbreviation renewed := (renewed less).
Abbreviation onward := (onward less).
Abbreviation with_commit := (with_commit zeroV less).
Abbreviation pg := (LockFreeIn (skip_allowance)).
Abbreviation wp t Q := (Logic.wp Sp proto pg t Q).
Implicit Types (w : world) (t u n i j : nat) (l x y p : loc) (k : K) (v : V) (m : mem) (s : sig).

Abbreviation finder := (finder zeroV less).

Section search.
Context (t : nat) (k : K) (X : finder t k).
(** What is kept for later. *)
Context (E : nat → nat) (HE : ∀ L, E L + 1000 ≤ cost L).
Abbreviation tg := ((0%Z, k) : sig).
Abbreviation able := (f_able zeroV less t k X).
Abbreviation finds := (f_finds zeroV less t k X).
Abbreviation found := (f_found zeroV less t k X).
Abbreviation place := (place less k).
Abbreviation next_to := (next_to zeroV less t k X).
Abbreviation visited := (visited zeroV less t k X).
Abbreviation settled := (settled less k).

(** A walk along each level below [i], and [c] steps. *)
Definition seek_cost (i c : nat) (L : nat) : nat := E L + i * hop L + c.

Lemma seek_cost_le i c L : i ≤ levels → c ≤ 900 → seek_cost i c L ≤ 2 * cost L.
Proof.
  intros Hi Hc. specialize (HE L). pose proof (Nat.mul_le_mono_r _ _ (hop L) Hi).
  unfold seek_cost, cost in *. lia.
Qed.

Section level.
Context (i : nat) (Hlevel : i < levels).

(** Between [p] and the node [y]. *)
Definition scanning (c : nat) (b : budget) (z : option loc * option loc) w : Prop :=
  ∃ σ n L p sp y sy, b = Refill n L ∧ z = (Some p, Some y) ∧ able w ∧ finds p w ∧
    place p sp i w ∧ pub y 0 sy w ∧ i < height (w_mem w) y ∧ (i = 0 → finds y w) ∧
    fuel (Some y) σ (seek_cost i c) n L w.

Lemma scanning_stable c (b : budget) z w w' : rely t w w' → scanning c b z w → scanning c b z w'.
Proof.
  intros HR (σ & n & L & p & sp & y & sy & ? & ? & HA & Hf & Hp & Hy & Hi & Hfy & Hfuel).
  exists σ, n, L, p, sp, y, sy. do 2 (split; [done|]). split; [by eapply (f_able_stable _ _ _ _ X)|].
  split; [eapply (f_finds_stable _ _ _ _ X); [done|done|apply Hp|done]|].
  split; [by eapply place_stable|]. split; [by eapply pub_kept|].
  rewrite (height_stable _ _ _ _ _ _ HR) by (eexists; apply Hy). split; [done|].
  split; [intros Hi0; eapply (f_finds_stable _ _ _ _ X); eauto|by eapply fuel_stable].
Qed.

(** In the loop of [skip_marked], with [p] behind. *)
Definition skipping p sp (c : nat) (b : budget) (z : option loc * option loc * bool) w : Prop :=
  ∃ σ n L x sx σ' L', b = Refill n L ∧ z.1.1 = Some x ∧ visited x sx i z.1.2 z.2 σ' L' w ∧
    place p sp i w ∧ (settled i z.2 sx = false → finds p w ∧ (i = 0 → finds x w)) ∧
    fuel (Some x) σ (seek_cost i c) n L w.

Lemma sl_skipping_stable p sp c (b : budget) z w w' :
  rely t w w' → skipping p sp c b z w → skipping p sp c b z w'.
Proof.
  intros HR (σ & n & L & x & sx & σ' & L' & ? & ? & Hv & Hp & Hf & Hfuel).
  exists σ, n, L, x, sx, σ', L'. do 2 (split; [done|]). split; [by eapply sl_visited_stable|].
  split; [by eapply place_stable|]. split; [|by eapply fuel_stable].
  destruct Hv as (Hx & _ & HA & _). intros Hs. rewrite Hs in HA. destruct (Hf Hs) as [Hfp Hfx].
  split; [eapply (f_finds_stable _ _ _ _ X); [done|done|apply Hp|done]|].
  intros Hi0. eapply (f_finds_stable _ _ _ _ X); eauto.
Qed.

(** Reading the node [y] that comes next. *)
Lemma wp_scan {B} (Q : budget → B → world → Prop) p sp y sy σ c n L q w :
  2 ≤ n → able w → finds p w → place p sp i w → pub y 0 sy w → i < height (w_mem w) y →
  (i = 0 → finds y w) → fuel (Some y) σ (seek_cost i (c + 2)) n L w →
  (∀ w' succ marked, skipping p sp c (Refill (n - 2) L) (Some y, succ, marked) w' →
     wp t Q (Refill (n - 2) L) (q (succ, marked)) w') →
  wp t Q (Refill n L) (bind (get (Some y) (Z.of_nat i)) q) w.
Proof.
  intros Hn HA Hf Hp Hy Hi Hfy Hfuel Hq.
  eapply (sl_wp_visit zeroV less t k X _ y sy i n σ L); [done..|apply Hfuel|intros E1; by apply Hfuel|].
  intros w1 cm succ marked HR1 HI1 Hsame Hv. apply Hq.
  exists σ, (n - 2), L, y, sy, σ, L. do 2 (split; [done|]). split; [exact Hv|].
  split; [exact (place_stable _ _ _ _ _ _ _ _ _ HR1 Hp)|]. split.
  - intros Hs. rewrite (Hsame Hs).
    split; [eapply (f_finds_stable _ _ _ _ X); [done|done|apply Hp|done]|].
    intros Hi0. eapply (f_finds_stable _ _ _ _ X); eauto.
  - apply (fuel_stable _ _ _ _ _ _ _ _ _ _ HR1) in Hfuel.
    eapply fuel_spend; [exact Hfuel|]. unfold seek_cost. lia.
Qed.

Lemma sl_wp_skip_marked p sp (b : budget) (curr succ : option loc) (marked : bool) w :
  skipping p sp 26 b (curr, succ, marked) w → some_left b →
  wp t (λ b r w, skipping p sp 25 b (r.1, r.2, false) w) b
    (skip_marked (Z.of_nat i) curr succ marked) w.
Proof using All.
  intros Hsk Hb. unfold skip_marked, loop.
  apply (wp_loop Sp proto pg t _ (λ (b : budget) (z : option loc * option loc * bool) w,
    skipping p sp 26 b z w ∧ some_left b));
    [|intros b1 z w1 w2 [? ?] ?; split; [by eapply sl_skipping_stable|done]|done].
  clear b curr succ marked w Hsk Hb. intros b [[curr succ] marked] w
    [(σ & n & L & x & sx & σ' & L' & -> & Hcx & Hv & Hp & Hf & Hfuel) (? & ? & [= <- <-] & Hn)] HI.
  simpl in Hcx, Hv, Hf. subst curr. eexists. split; [by apply spend|]. cbn beta iota.
  assert (fuel (Some x) σ (seek_cost i 25) (n - 1) L w) as Hfuel1.
  { eapply fuel_spend; [exact Hfuel|]. unfold seek_cost. lia. }
  clear Hfuel. destruct marked.
  - destruct Hv as (Hx & Hi & HA & Hfin), (Hf eq_refl) as [Hfp Hfx]. simpl in HA.
    destruct (next_to_intro zeroV less t k X x sx i (ListMarkable succ true) w HI HA Hx Hi)
      as (y & sy & Hy & Hpy & Hiy & Hby & Hfy); [apply Hfin|by left|done|]. simpl in Hy. subst succ.
    eapply wp_renew; [|exact Hfuel1|]; [intros L1; apply seek_cost_le; lia|].
    intros w1 σ1 n1 HR1 HI1 _ Hs1 Hn1. unfold seek_cost, onward in Hn1.
    assert (is_Some (home (w_aux w) !! x)) as Hxh by (eexists; apply Hx).
    pose proof (sl_above_lt less w x y ltac:(eexists; apply Hpy) Hby) as Hab.
    assert (above w1 y < above w1 x) as Hab1.
    { apply (sl_above_lt less w1 x y); [eapply home_stable; [exact HR1|]; eexists; apply Hpy|].
      apply (before_same less (w_mem w) (w_mem w1)); [..|done]; apply (r_sig _ _ _ _ _ (proj1 HR1));
        [done|eexists; apply Hpy]. }
    pose proof (proj1 Hp) as Hpp.
    eapply (wp_scan _ p sp y sy σ1 26); [lia|by eapply (f_able_stable _ _ _ _ X)|
      by eapply (f_finds_stable _ _ _ _ X)|by eapply place_stable|by eapply pub_kept| | |..].
    + rewrite (height_stable _ _ _ _ _ _ HR1); [done|eexists; apply Hpy].
    + intros Hi0. eapply (f_finds_stable _ _ _ _ X); eauto.
    + split; [intros ? [= <-]; eapply home_stable; [exact HR1|]; eexists; apply Hpy|].
      split; [done|]. intros _. split; [done|]. unfold onward, seek_cost. lia.
    + intros w2 succ marked Hsk. apply wp_ret. intros w3 HR3 _. split.
      * by eapply sl_skipping_stable.
      * eexists _, _. split; [done|lia].
  - apply wp_ret. intros w1 HR1 _. apply wp_ret. intros w2 HR2 _.
    eapply sl_skipping_stable; [exact HR2|]. eapply sl_skipping_stable; [exact HR1|].
    exists σ, (n - 1), L, x, sx, σ', L'. by split_and!.
Qed.

(** Where the walk along the level ends: [pred] for the next level, or the node. *)
Definition scanned (b : budget) (z : option loc * option loc) w : Prop :=
  ∃ σ n L p sp x sx, b = Refill n L ∧ z = (Some p, Some x) ∧ place p sp i w ∧
    pub x 0 sx w ∧ fuel (Some x) σ (seek_cost i 20) n L w ∧
    if bool_decide (i = 0) then node_less less sx tg = false ∧ found x sx w
    else able w ∧ finds p w.

Lemma sl_scanned_stable (b : budget) z w w' : rely t w w' → scanned b z w → scanned b z w'.
Proof.
  intros HR (σ & n & L & p & sp & x & sx & ? & ? & Hp & Hx & ? & Hc).
  exists σ, n, L, p, sp, x, sx. do 2 (split; [done|]). split; [by eapply place_stable|].
  split; [by eapply pub_kept|]. split; [by eapply fuel_stable|].
  case_bool_decide; destruct Hc; (split; [|]); [done|by eapply (f_found_stable _ _ _ _ X)|
    by eapply (f_able_stable _ _ _ _ X)|eapply (f_finds_stable _ _ _ _ X); [done|done|apply Hp|done]].
Qed.

Definition scan_post (b : budget) (res : option loc * option loc + option loc * option loc) w : Prop :=
  match res with
  | inl z => scanning 30 b z w ∧ some_left b
  | inr z => wp t scanned b (Ret z) w
  end.

(** Whether to walk on behind [p]. *)
Lemma wp_scan_on p sp (b : budget) (cs : option loc * option loc) w :
  skipping p sp 25 b (cs.1, cs.2, false) w →
  wp t scan_post b
    (let! lt := keyLess less cs.1 k in
     if lt : bool then continue cs else break (Some p, cs.1)) w.
Proof using All.
  destruct cs as [curr succ]. cbn [fst snd].
  intros (σ & n & L & x & sx & σ' & L' & -> & Hcx & Hv & Hp & Hf & Hfuel). cbn [fst snd] in *. subst curr.
  eapply wp_renew; [|exact Hfuel|]; [intros L1; apply seek_cost_le; lia|].
  intros w1 σ1 n1 HR1 HI1 _ Hs1 Hn1. unfold seek_cost, onward in Hn1. pose proof (proj1 Hp) as Hpp.
  assert (settled i false sx = false → able w1 ∧ finds p w1) as Hf1.
  { intros Hs. destruct Hv as (_ & _ & HA & _). rewrite Hs in HA.
    split; [by eapply (f_able_stable _ _ _ _ X)|]. eapply (f_finds_stable _ _ _ _ X); [done..|].
    by apply Hf. }
  eapply sl_visited_stable in Hv as (Hx & Hi & HA & _ & Hv); [|exact HR1].
  apply (place_stable _ _ _ _ _ _ _ _ _ HR1) in Hp.
  eapply (sl_wp_keyLess zeroV less t _ x sx); [lia|exact Hx|]. unfold settled in *.
  destruct (node_less less sx tg) eqn:Hlt; cbn [negb andb] in *.
  - destruct (Hv eq_refl) as (Hfx & y & sy & -> & Hy & Hiy & Hby & Hfy).
    pose proof (sl_above_lt less w1 x y ltac:(eexists; apply Hy) Hby) as Hab.
    apply wp_ret. intros w2 HR2 _. split; [|eexists _, _; split; [done|lia]].
    eapply scanning_stable; [exact HR2|]. exists σ1, (n1 - 1), (w_len w1), x, sx, y, sy.
    do 2 (split; [done|]). split; [done|]. split; [done|]. split; [by split|].
    do 3 (split; [done|]). split; [intros ? [= <-]; eexists; apply Hy|]. split; [done|].
    intros _. split; [done|]. unfold onward, seek_cost. lia.
  - apply wp_ret. intros w2 HR2 _. apply wp_ret. intros w3 HR3 _.
    eapply sl_scanned_stable; [exact HR3|]. eapply sl_scanned_stable; [exact HR2|].
    exists σ1, (n1 - 1), (w_len w1), p, sp, x, sx. do 2 (split; [done|]). split; [done|].
    split; [done|]. split.
    { split; [intros ? [= <-]; eexists; apply Hx|]. split; [done|]. intros _. split; [done|].
      unfold onward, seek_cost. lia. }
    case_bool_decide; [done|]. by apply Hf1.
Qed.

Lemma wp_scan_loop (b : budget) z w :
  scanning 30 b z w → some_left b →
  wp t scanned b
    (loop (λ '(pred, curr),
      let! sm := get curr (Z.of_nat i) in
      let! cs := skip_marked (Z.of_nat i) curr sm.1 sm.2 in
      let! lt := keyLess less cs.1 k in
      if lt : bool then continue cs else break (pred, cs.1)) z) w.
Proof using All.
  intros Hz Hb. apply (wp_loop Sp proto pg t _ (λ (b : budget) (z : option loc * option loc) w,
    scanning 30 b z w ∧ some_left b));
    [|intros b1 z1 w1 w2 [? ?] ?; split; [by eapply scanning_stable|done]|done].
  clear b z w Hz Hb. intros b z w
    [(σ & n & L & p & sp & y & sy & -> & -> & HA & Hf & Hp & Hy & Hi & Hfy & Hfuel) (? & ? & [= <- <-] & Hn)] _.
  eexists. split; [by apply spend|].
  assert (fuel (Some y) σ (seek_cost i 29) (n - 1) L w) as Hfuel1.
  { eapply fuel_spend; [exact Hfuel|]. unfold seek_cost. lia. }
  eapply wp_renew; [|exact Hfuel1|]; [intros L1; apply seek_cost_le; lia|].
  intros w1 σ1 n1 HR1 HI1 _ Hs1 Hn1. unfold seek_cost in Hn1. pose proof (proj1 Hp) as Hpp.
  eapply (wp_scan _ p sp y sy σ1 26); [lia|by eapply (f_able_stable _ _ _ _ X)|
    by eapply (f_finds_stable _ _ _ _ X)|by eapply place_stable|by eapply pub_kept| | |..].
  - rewrite (height_stable _ _ _ _ _ _ HR1); [done|eexists; apply Hy].
  - intros Hi0. eapply (f_finds_stable _ _ _ _ X); eauto.
  - split; [intros ? [= <-]; eapply home_stable; [exact HR1|]; eexists; apply Hy|].
    split; [done|]. intros _. split; [done|]. unfold seek_cost. lia.
  - intros w2 succ marked Hsk. apply wp_bind.
    eapply wp_mono; [|apply (sl_wp_skip_marked p sp); [exact Hsk|eexists _, _; split; [done|lia]]].
    intros b cs w3 _ Hcs. by apply (wp_scan_on p sp).
Qed.
End level.

(** ** From the head down *)

(** Where [seek] ends. *)
Definition sought (c : nat) (b : budget) (curr : option loc) w : Prop :=
  ∃ σ n L x sx, b = Refill n L ∧ curr = Some x ∧ pub x 0 sx w ∧ node_less less sx tg = false ∧
    found x sx w ∧ fuel (Some x) σ (λ L, E L + c) n L w.

Lemma sought_stable c (b : budget) (curr : option loc) w w' :
  rely t w w' → sought c b curr w → sought c b curr w'.
Proof.
  intros HR (σ & n & L & x & sx & ? & ? & ? & ? & ? & ?). exists σ, n, L, x, sx.
  do 2 (split; [done|]). split; [by eapply pub_kept|]. split; [done|].
  split; [by eapply (f_found_stable _ _ _ _ X)|by eapply fuel_stable].
Qed.

(** Before level [i - 1]. *)
Definition seeking (b : budget) (z : option loc * option loc * Z) w : Prop :=
  some_left b ∧ ∃ i, z.2 = (Z.of_nat i - 1)%Z ∧ match i with
  | 0 => sought 5 b z.1.2 w
  | S i => i < levels ∧ ∃ σ n L p sp, b = Refill n L ∧ z.1.1 = Some p ∧ able w ∧ finds p w ∧
      place p sp i w ∧ fuel None σ (seek_cost (S i) 10) n L w
  end.

Lemma seeking_stable (b : budget) z w w' : rely t w w' → seeking b z w → seeking b z w'.
Proof.
  intros HR (Hn & i & Hi & Hd). split; [done|]. exists i. split; [done|].
  destruct i as [|i]; [by eapply sought_stable|].
  destruct Hd as (? & σ & n & L & p & sp & ? & ? & HA & Hf & Hp & ?).
  split; [done|]. exists σ, n, L, p, sp. do 2 (split; [done|]).
  split; [by eapply (f_able_stable _ _ _ _ X)|].
  split; [eapply (f_finds_stable _ _ _ _ X); [done|done|apply Hp|done]|].
  split; [by eapply place_stable|by eapply fuel_stable].
Qed.

Definition seek_post (b : budget) (res : option loc * option loc * Z + option loc) w : Prop :=
  match res with
  | inl z => seeking b z w
  | inr curr => wp t (sought 4) b (Ret curr) w
  end.

(** Down to level [i - 1]. *)
Lemma wp_seek_down i (b : budget) z w :
  i < levels → scanned i b z w →
  wp t seek_post b (continue (z.1, z.2, (Z.of_nat i - 1)%Z)) w.
Proof using All.
  intros Hi (σ & n & L & p & sp & x & sx & -> & -> & Hp & Hx & Hfuel & Hc). cbn [fst snd].
  eapply wp_renew; [|exact Hfuel|]; [intros L1; apply seek_cost_le; lia|].
  intros w1 σ1 n1 HR1 HI1 _ Hs1 Hn1. unfold seek_cost, onward in Hn1.
  apply wp_ret. intros w2 HR2 _. eapply seeking_stable; [exact HR2|].
  split; [eexists _, _; split; [done|lia]|]. exists i. split; [done|]. destruct i as [|i].
  - rewrite bool_decide_true in Hc by done. destruct Hc as [Hlt Hfound].
    exists σ1, n1, (w_len w1), x, sx. do 2 (split; [done|]). split; [by eapply pub_kept|].
    split; [done|]. split; [by eapply (f_found_stable _ _ _ _ X)|].
    split; [intros ? [= <-]; eapply home_stable; [exact HR1|]; eexists; apply Hx|].
    split; [done|]. intros _. split; [done|]. unfold onward. cbn beta. lia.
  - rewrite bool_decide_false in Hc by done. destruct Hc as [HA Hf]. pose proof (proj1 Hp) as Hpp.
    split; [lia|]. exists σ1, n1, (w_len w1), p, sp. do 2 (split; [done|]).
    split; [by eapply (f_able_stable _ _ _ _ X)|]. split; [by eapply (f_finds_stable _ _ _ _ X)|].
    split.
    { apply (place_stable _ _ _ _ _ _ _ _ _ HR1) in Hp as (? & ? & ?). split; [done|]. split; [done|lia]. }
    split; [done|]. split; [done|]. intros _. split; [done|]. unfold onward, seek_cost. lia.
Qed.

(** One round of [seek]. *)
Lemma wp_seek_one (b : budget) z w :
  seeking b z w → ∃ b', budget_step b = Some b' ∧ wp t seek_post b'
    (let '(pred, curr, level) := z in
     if bool_decide (level >= 0)%Z then
       let! curr := getReference pred level in
       let! pc := loop (λ '(pred, curr),
         let! sm := get curr level in
         let! cs := skip_marked level curr sm.1 sm.2 in
         let! lt := keyLess less cs.1 k in
         if lt : bool then continue cs else break (pred, cs.1)) (pred, curr) in
       continue (pc.1, pc.2, (level - 1)%Z)
     else break curr) w.
Proof using All.
  destruct z as [[pred curr] level]. intros ((n & L & -> & Hn) & i & Hi & Hd).
  cbn [fst snd] in *. subst level. eexists. split; [by apply spend|]. destruct i as [|i].
  - rewrite bool_decide_false by lia. apply wp_ret. intros w1 HR1 _. apply wp_ret. intros w2 HR2 _.
    eapply sought_stable; [exact HR2|]. eapply sought_stable; [exact HR1|].
    destruct Hd as (σ & n' & L' & x & sx & [= <- <-] & ? & ? & ? & ? & ?). exists σ, (n - 1), L, x, sx.
    do 5 (split; [done|]). eapply fuel_spend; [done|]. cbn beta. lia.
  - destruct Hd as (Hlev & σ & n' & L' & p & sp & [= <- <-] & -> & HA & Hf & Hp & Hfuel).
    rewrite bool_decide_true by lia. replace (Z.of_nat (S i) - 1)%Z with (Z.of_nat i) by lia.
    assert (fuel None σ (seek_cost (S i) 9) (n - 1) L w) as Hfuel1.
    { eapply fuel_spend; [exact Hfuel|]. unfold seek_cost. lia. }
    eapply wp_renew; [|exact Hfuel1|]; [intros L1; apply seek_cost_le; lia|].
    intros w1 σ1 n1 HR1 HI1 _ Hs1 Hn1. unfold seek_cost, onward in Hn1.
    pose proof (f_finds_stable _ _ _ _ X _ _ _ _ HR1 HA (proj1 Hp) Hf) as Hf1.
    apply (f_able_stable _ _ _ _ X _ _ HR1) in HA. apply (place_stable _ _ _ _ _ _ _ _ _ HR1) in Hp.
    pose proof Hp as (Hpp & Hlt & Hpi).
    eapply (wp_getReference zeroV less t _ p i sp); [lia|done|lia|]. intros w2 mk HR2 HI2 Hmk.
    pose proof (f_finds_stable _ _ _ _ X _ _ _ _ HR2 HA Hpp Hf1) as Hf2.
    apply (f_able_stable _ _ _ _ X _ _ HR2) in HA. apply (place_stable _ _ _ _ _ _ _ _ _ HR2) in Hp.
    pose proof Hp as (Hpp2 & _ & Hpi2).
    destruct (next_to_intro zeroV less t k X p sp i mk w2) as (y & sy & -> & Hy & Hiy & Hby & Hfy);
      [done..|by right|done|].
    apply wp_bind. eapply wp_mono; [|apply (wp_scan_loop i Hlev)].
    + intros b z w3 _ Hz. by apply wp_seek_down.
    + exists σ1, (n1 - 2), (w_len w1), p, sp, y, sy. do 8 (split; [done|]).
      split; [intros ? [= <-]; eexists; apply Hy|]. split; [by eapply len_stable|]. intros E2.
      pose proof (slack_stable _ _ _ _ _ HR2 E2). split; [lia|].
      pose proof (onward_bound zeroV less w2 (Some y) HI2) as Hon. rewrite E2 in Hon.
      unfold seek_cost, hop in *. lia.
    + eexists _, _. split; [done|]. unfold hop in *. lia.
Qed.

Lemma wp_seek σ n L w :
  able w → fuel None σ (λ L, cost L + E L) n L w →
  wp t (sought 4) (Refill n L) (seek less k) w.
Proof using All.
  intros HA Hfuel. unfold seek.
  eapply wp_renew; [|exact Hfuel|]; [intros L'; specialize (HE L'); cbn beta; lia|].
  intros w1 σ1 n1 HR1 HI1 _ Hs1 Hn1. apply (f_able_stable _ _ _ _ X _ _ HR1) in HA. cbn beta in Hn1.
  pose proof (HE (w_len w1)).
  wp_pure. eapply wp_load; [apply spend; lia|]. intros w2 HR2 HI2.
  apply (f_able_stable _ _ _ _ X _ _ HR2) in HA.
  assert (w_len w1 ≤ w_len w2) as Hlen by by eapply len_stable.
  assert (w_len w2 = w_len w1 → slack w2 ≤ σ1) as Hs2.
  { intros E2. pose proof (slack_stable _ _ _ _ _ HR2 E2). lia. }
  destruct (head_place zeroV less t k X σ1 (w_len w1) w2 HI2 HA Hlen Hs2) as (sp & Hp & Hf & _).
  apply (wp_loop Sp proto pg t _ seeking);
    [intros b z w3 Hz _; by apply wp_seek_one|intros ? ? ? ? ? ?; by eapply seeking_stable|].
  split; [eexists _, _; split; [done|lia]|]. exists levels. split; [done|].
  change levels with (S (levels - 1)) at 1. cbn beta iota zeta. split; [apply Nat.lt_succ_diag_r|].
  exists σ1, (n1 - 1), (w_len w1), (head (w_mem w2)), sp. do 5 (split; [done|]).
  split; [done|]. split; [done|]. intros E2. split; [auto|]. change (S (levels - 1)) with levels.
  unfold seek_cost, onward, cost, hop in *. replace levels with 32 in * by reflexivity. lia.
Qed.
End search.
End seek.
