(* ===== verification/SkipOps.v ===== *)
(** What the methods of [lf.SkipList] establish, step by step: their searches,
    their calls and returns, and the building of a node. *)

From S2P Require Import ListCode.
From S2P Require Export SkipSeek.
Local Open Scope prog_scope.

Section ops.
Context {K V : Type} (zeroV : V) (less : Less K) `{!WeakOrder less}.
#[local] Hint Extern 0 (NodeOrder _ _) => exact (MList.list_order less) : typeclass_instances.
#[local] Hint Extern 0 (Capacity _) => exact (MList.list_capacity 1) : typeclass_instances.
#[local] Hint Extern 0 (Rest _ _) => exact MList.list_rest : typeclass_instances.
Abbreviation Sp := (lmap_spec zeroV (same_key less) (ascending_range (V:=V) less)).
Abbreviation mem := (mem K V).
Abbreviation aux := (list_aux V).
Abbreviation world := (world mem (lmap_op K V) (lmap_resp K V) aux).
Abbreviation proto := (skip_proto zeroV less).
Abbreviation Inv := (pr_inv proto).
Abbreviation rely := (pr_rely proto).
Abbreviation good_step := (good_step proto).
Abbreviation sig := (Z * K)%type.
Abbreviation slack := (slack less).
Abbreviation above := (above less).
Abbreviation edge := (edge less).
Abbreviation clean := (clean less).
Abbreviation fuel := (fuel less).
Abbreviation better := (better less).
Abbreviation renewed := (renewed less).
Abbreviation onward := (onward less).
Abbreviation with_commit := (with_commit zeroV less).
Abbreviation pg := (LockFreeIn (skip_allowance)).
Abbreviation wp t Q := (Logic.wp Sp proto pg t Q).
Implicit Types (w : world) (t u n i j : nat) (l x y p : loc) (k : K) (v : V) (m : mem) (s : sig).

Abbreviation finder := (finder zeroV less).
Abbreviation one := (λ _ : K, 0).
Abbreviation LInv := (ListInv.Inv zeroV less one 1).
Abbreviation lproto := (list_proto zeroV less one 1).
Abbreviation lrely := (pr_rely lproto).
Abbreviation list_step := (Rules.good_step lproto).
Abbreviation missing := (missing zeroV less).
Abbreviation finds_on := (finds_on zeroV less one).
Abbreviation answered := (answered zeroV less).
Abbreviation kept := (kept zeroV less).
Implicit Types (o : lmap_op K V) (r : lmap_resp K V).

Lemma sl_one_same k1 k2 : same_key less k1 k2 = true → one k1 = one k2.
Proof. done. Qed.
Lemma sl_one_range k : one k < 1.
Proof. apply Nat.lt_0_succ. Qed.

Lemma cost_large L : 2000 ≤ cost L.
Proof. unfold cost, hop. replace levels with 32 by reflexivity. lia. Qed.

Lemma small_cost c : c ≤ 1000 → ∀ L, (λ _ : nat, c) L + 1000 ≤ cost L.
Proof. intros Hc L. pose proof (cost_large L). cbn beta. lia. Qed.

(** ** Searches *)

Section finders.
Context (t : nat) (k : K).

(** A search before the operation took effect; [P] is established by a hook as for
    the lists of ListSearch.v. *)
Section live.
Context (o : lmap_op K V) (P : loc → sig → world → Prop).
Context (HP : ∀ x s w w', lrely t w w' → P x s w → P x s w').
Context (Hhook : ∀ x s w, LInv w → ready t o w → pub x 0 s w → dead (w_aux w) !! x = None →
  node_less less s (0%Z, k) = false →
  (holds less s (0%Z, k) = false → missing t (0%Z, k) w) → finds_on t (0%Z, k) 0 (λ _, True) x w →
  ∃ cm, list_step t w (with_commit w cm) ∧ P x s (with_commit w cm)).

Definition live_finder : finder t k.
Proof using HP Hhook WeakOrder0.
  refine (Finder zeroV less t k (ready t o) (finds_on t (0%Z, k) 0 (λ _, True)) P _ _ _ _ _ _).
  - intros w w'. apply sl_ready_stable.
  - intros x s w w' [HR _] Hr Hx. exact (finds_on_stable zeroV less one 1 t o (0%Z, k) 0 (λ _, True) w w' x s HR Hr Hx).
  - intros x s w w' [HR _]. by apply HP.
  - intros x s w [HL _] Hr Hx Hd Hlt.
    exact (finds_on_alive zeroV less one 1 sl_one_same sl_one_range t o (0%Z, k) 0 (λ _, True) (sig_for_ok k)
      (λ _ _, eq_refl) x s w HL Hr Hx Hd Hlt).
  - intros x y s mk w [HL _] Hr Hx Hmk Hcase Hf Hy.
    pose proof (finds_on_skip zeroV less one 1 t (0%Z, k) 0 (λ _, True) (sig_for_ok k) x s mk w HL Hx Hmk Hcase Hf)
      as Hnext. by rewrite Hy in Hnext.
  - intros x s w HI Hr Hf Hx Hd Hlt. destruct (Hhook x s w (proj1 HI) Hr Hx Hd Hlt) as (cm & Hg & HPx).
    + intros Hh. exact (finds_end zeroV less one 1 t (0%Z, k) x 0 s w (proj1 HI) (sig_for_ok k) Hx Hlt Hh (proj1 Hf)).
    + exact Hf.
    + exists cm. split; [|done]. by apply commit_upper.
Defined.
End live.

(** A search afterwards, which only has to keep [S]. *)
Definition frame_finder (S : world → Prop) (HS : ∀ w w', rely t w w' → S w → S w') : finder t k.
Proof.
  refine (Finder zeroV less t k S (λ _ _, True) (λ _ _, S) _ _ _ _ _ _); try done.
  intros x s w HI HSw _ _ _ _. exists (commit (w_aux w)). rewrite with_commit_id.
  split; [by apply good_step_refl|done].
Defined.
End finders.

(** [Set] finds the node to update, [Del], [Get] and [Search] whether there is one. *)
Definition set_finder t k v : finder t k :=
  live_finder t k (MSet k v) (set_found less t k v)
    (λ x s w w' HR, set_found_stable zeroV less one 1 t k v x s w w' HR)
    (λ x s w HI Hr Hx Hd _ _ _, set_hook zeroV less one 1 t k v x 0 s w HI Hr Hx Hd).

Definition get_finder t k o : finder t k :=
  live_finder t k o (get_found zeroV less t o k 0)
    (λ x s w w' HR, get_found_stable zeroV less one 1 t o k 0 x s w w' HR)
    (λ x s w HI Hr Hx Hd Hlt Hm _, get_hook zeroV less one 1 t o k 0 x s w HI Hr Hx Hd Hlt Hm).

Lemma get_found_cases t o k x sx w : get_found zeroV less t o k 0 x sx w → ready t o w ∧
  (holds less sx (0%Z, k) = true → is_Some (key_of less sx) ∧ since_call t x w) ∧
  (holds less sx (0%Z, k) = false → ListSteps.absent zeroV less t k w).
Proof.
  intros (Hr & _ & Hf). change (sig_for less k) with ((0%Z, k) : sig) in Hf. split; [done|].
  by destruct (holds less sx (0%Z, k)).
Qed.

(** ** Calls and returns *)

Lemma answered_kept t o r w w' : kept t w w' → answered t o r w → answered t o r w'.
Proof.
  induction 1 as [|w w1 w2 [[HR _]|(_ & Hgh & Hc)] _ IH]; [done|..]; intros Ha; apply IH.
  - exact (answered_stable zeroV less one 1 t o r w w1 HR Ha).
  - exact (answered_same zeroV less t o r w w1 Hgh Hc Ha).
Qed.

Lemma answered_post t o r (b : budget) w : Inv w → answered t o r w → post Sp proto t b r w.
Proof.
  intros HI (Hc & _ & Ha).
  assert (∃ pe, g_thr (w_gh w) !! t = Some pe ∧ ret_ok Sp (w_gh w) pe r) as (pe & Hp & Hok).
  { destruct Ha as [Hf|[Ho|(n & Ho & Hr)]].
    - by apply finished_ret_ok.
    - by eapply observed_ret_ok.
    - by eapply opened_ret_ok. }
  exists pe. split; [done|]. split; [done|]. exists (w_aux w).
  apply (calm_same_dead zeroV less t); try done.
  apply (list_return_world zeroV less one 1); [apply HI|done].
Qed.

Lemma answered_done t k v w : done_with t MRDone w → answered t (MSet k v) MRDone w.
Proof. intros [? ?]. split; [done|]. split; [exact I|by left]. Qed.

(** Before the first search: two searches are paid for. *)
Definition begun t o (b : budget) w : Prop := ∃ σ n L, b = Refill n L ∧ ready t o w ∧
  fuel None σ (λ L, 2 * cost L) n L w.

Lemma begun_call t id o w :
  Inv w → g_thr (w_gh w) !! t = None →
  let w' := World (w_mem w) (g_call t id o (w_gh w)) (w_aux w) in
  good_step t w w' ∧ begun t o (Refill (skip_allowance (w_len w)) (w_len w)) w'.
Proof.
  intros HI Hnone w'.
  destruct (list_call_world (Capacity0:=MList.list_capacity 1) zeroV less one 1 t id o w (le_n 2) (proj1 HI) Hnone) as (Hg & Hr & _).
  split; [by apply (calm_same_dead zeroV less t)|].
  exists (slack w), (skip_allowance (w_len w)), (w_len w). split; [done|]. split; [exact Hr|].
  split; [done|]. split; [done|]. intros _. split; [done|]. simpl onward.
  pose proof (slack_le zeroV less w (proj1 HI) (proj2 HI)) as Hs. unfold skip_allowance. cbn beta.
  pose proof (Nat.mul_le_mono_r _ _ (cost (w_len w)) Hs). lia.
Qed.

(** The length counter. *)
Lemma wp_skip_length t d {A} (Q : budget → A → world → Prop) n L q w :
  1 ≤ n → (∀ w' z, kept t w w' → Inv w' → wp t Q (Refill (n - 1) L) (q z) w') →
  wp t Q (Refill n L) (Act (add_u64 length_f d) q) w.
Proof.
  intros Hn Hq. eapply wp_add_u64; [by apply spend|]. intros w1 HR1 HI1.
  exists [], (w_aux w1).
  pose proof (rest_changed zeroV less t w1 (f_set length_f (u64 (length_ (w_mem w1) + d)) (w_mem w1))
    HI1 eq_refl eq_refl eq_refl) as Hp.
  split; [apply Hp|]. apply Hq; [|apply Hp]. etrans; [by apply rely_kept|]. by apply plain_kept.
Qed.
End ops.
