(* ===== verification/SkipGets.v ===== *)
(** [Get], [Search], [Len] and [Range] of [lf.SkipList]. *)

From S2P Require Import ListMethods.
From S2P Require Export SkipOps.
Local Open Scope prog_scope.

Section gets.
Context {K V : Type} (zeroV : V) (less : Less K) `{!WeakOrder less}.
#[local] Hint Extern 0 (NodeOrder _ _) => exact (MList.list_order less) : typeclass_instances.
#[local] Hint Extern 0 (Capacity _) => exact (MList.list_capacity 1) : typeclass_instances.
#[local] Hint Extern 0 (Rest _ _) => exact MList.list_rest : typeclass_instances.
Abbreviation Sp := (lmap_spec zeroV (same_key less) (ascending_range (V:=V) less)).
Abbreviation mem := (mem K V).
Abbreviation aux := (list_aux V).
Abbreviation world := (world mem (lmap_op K V) (lmap_resp K V) aux).
Abbreviation proto := (skip_proto zeroV less).
Abbreviation Inv := (pr_inv proto).
Abbreviation rely := (pr_rely proto).
Abbreviation good_step := (good_step proto).
Abbreviation sig := (Z * K)%type.
Abbreviation slack := (slack less).
Abbreviation above := (above less).
Abbreviation edge := (edge less).
Abbreviation clean := (clean less).
Abbreviation fuel := (fuel less).
Abbreviation better := (better less).
Abbreviation renewed := (renewed less).
Abbreviation onward := (onward less).
Abbreviation with_commit := (with_commit zeroV less).
Abbreviation pg := (LockFreeIn (skip_allowance)).
Abbreviation wp t Q := (Logic.wp Sp proto pg t Q).
Implicit Types (w : world) (t u n i j : nat) (l x y p : loc) (k : K) (v : V) (m : mem) (s : sig).

Abbreviation finder := (finder zeroV less).
Abbreviation one := (λ _ : K, 0).
Abbreviation LInv := (ListInv.Inv zeroV less one 1).
Abbreviation lproto := (list_proto zeroV less one 1).
Abbreviation lrely := (pr_rely lproto).
Abbreviation list_step := (Rules.good_step lproto).
Abbreviation missing := (missing zeroV less).
Abbreviation answered := (answered zeroV less).
Abbreviation kept := (kept zeroV less).
Implicit Types (o : lmap_op K V) (r : lmap_resp K V).
Section get.
Context (t : nat) (o : lmap_op K V) (k : K).
Abbreviation tg := ((0%Z, k) : sig).
Abbreviation X := (get_finder zeroV less t k o).
Abbreviation get_found := (get_found zeroV less t o k 0).

(** What [findNode] returns. *)
Definition node_found (b : budget) (r : option loc) w : Prop := ∃ n L x sx,
  b = Refill n L ∧ 2 ≤ n ∧ pub x 0 sx w ∧ get_found x sx w ∧
  r = if holds less sx tg then Some x else None.

Lemma node_found_stable (b : budget) (r : option loc) w w' :
  rely t w w' → node_found b r w → node_found b r w'.
Proof.
  intros HR (n & L & x & sx & ? & ? & ? & ? & ?). exists n, L, x, sx. split; [done|]. split; [done|].
  split; [by eapply pub_kept|]. split; [|done]. exact (f_found_stable _ _ _ _ X x sx w w' HR ltac:(done)).
Qed.

Lemma wp_findNode (b : budget) w :
  begun less t o b w → wp t node_found b (findNode less k) w.
Proof.
  intros (σ & n & L & -> & Hr & Hfuel). unfold findNode. apply wp_bind.
  eapply wp_mono; [|apply (wp_seek zeroV less t k X (λ _, 10) (small_cost 10 ltac:(lia)) σ)].
  - clear. intros b curr w HI (σ & n & L & x & sx & -> & -> & Hx & _ & Hf & Hfuel).
    eapply wp_renew; [|exact Hfuel|]; [intros L'; pose proof (cost_large L'); cbn beta; lia|].
    intros w1 σ1 n1 HR1 HI1 _ _ Hn1. cbn beta in Hn1.
    eapply (sl_wp_keyEqual zeroV less t _ x sx); [lia|by eapply pub_kept|].
    apply wp_ret. intros w2 HR2 _. eapply node_found_stable; [exact HR2|].
    eapply node_found_stable; [exact HR1|]. exists (n1 - 1), (w_len w1), x, sx.
    split; [done|]. split; [lia|]. split; [done|]. split; [exact Hf|done].
  - exact Hr.
  - eapply fuel_spend; [exact Hfuel|]. pose proof (cost_large L). cbn beta. lia.
Qed.
End get.

Lemma sl_Get_wp t k (b : budget) w :
  begun less t (MGet k) b w →
  wp t (λ _ (r : V * bool) w, answered t (MGet k) (MRVal r.1 r.2) w) b (Get zeroV less k) w.
Proof.
  intros Hb. unfold Get. apply wp_bind. eapply wp_mono; [|by eapply wp_findNode].
  clear. intros b r w HI (n & L & x & sx & -> & Hn & Hx & (Hr & Hyes & Hno)%get_found_cases & ->).
  assert (∀ w w' (r : V * bool), rely t w w' → got zeroV less t (MGet k) k r w →
    answered t (MGet k) (MRVal r.1 r.2) w') as Hgot.
  { intros w1 w2 r HR Hg. apply got_answers. exact (got_stable zeroV less one 1 t _ k r w1 w2 (proj1 HR) Hg). }
  destruct (holds less sx (0%Z, k)) eqn:Hh.
  - destruct (Hyes eq_refl) as [Hks Hf]. eapply (sl_wp_load_val zeroV less t _ x sx); [lia|exact Hx|done|].
    intros w1 v HR1 HI1 Hv. apply wp_ret. intros w2 HR2 _. apply (Hgot w1 w2 (v, true) HR2).
    apply (got_value zeroV less one 1 t (MGet k) k 0 x sx v w1 (proj1 HI1)); [|by eapply pub_kept|done| |done].
    + by eapply sl_ready_stable.
    + by apply (since_call_stable zeroV less one 1 (proj1 HR1) x 0 sx).
  - apply wp_ret. intros w1 HR1 _. apply (Hgot w w1 (zeroV, false) HR1). apply got_absent; auto.
Qed.

Lemma Search_wp t k (b : budget) w :
  begun less t (MContains k) b w →
  wp t (λ _ (r : bool) w, answered t (MContains k) (MRBool r) w) b (Search less k) w.
Proof.
  intros Hb. unfold Search. apply wp_bind. eapply wp_mono; [|by eapply wp_findNode].
  clear. intros b r w HI (n & L & x & sx & -> & Hn & Hx & (Hr & Hyes & Hno)%get_found_cases & ->).
  assert (∀ w', ∃ v : V, rely t w w' → got zeroV less t (MContains k) k (v, holds less sx (0%Z, k)) w') as Hgot.
  { intros w'. destruct (holds less sx (0%Z, k)) eqn:Hh.
    - destruct (Hyes eq_refl) as [[k' Hk'] Hf]. destruct (pub_value _ _ _ _ w x 0 sx k' (proj1 HI) Hx Hk') as [v Hv].
      exists v. intros HR. apply (got_stable zeroV less one 1 t _ k _ w w' (proj1 HR)).
      exact (got_value zeroV less one 1 t (MContains k) k 0 x sx v w (proj1 HI) Hr Hx Hh Hf Hv).
    - exists zeroV. intros HR. apply (got_stable zeroV less one 1 t _ k _ w w' (proj1 HR)).
      apply got_absent; auto. }
  apply wp_ret. intros w1 HR1 _. destruct (Hgot w1) as [v Hv].
  pose proof (got_contains zeroV less t k _ _ (Hv HR1)) as Ha. cbn [snd] in Ha.
  by destruct (holds less sx (0%Z, k)).
Qed.

Lemma sl_Len_wp t (b : budget) w :
  begun less t MLen b w →
  wp t (λ _ (z : Z) w, answered t MLen (MRLen z) w) b Len w.
Proof.
  intros (σ & n & L & -> & Hr & Hfuel). unfold Len.
  eapply wp_renew; [|exact Hfuel|]; [by intros L'|].
  intros w1 σ1 n1 HR1 HI1 _ _ Hn1. pose proof (cost_large (w_len w1)). cbn beta in Hn1.
  wp_pure. eapply wp_load; [apply spend; lia|]. intros w2 HR2 HI2. apply wp_ret. intros w3 HR3 _.
  apply answered_open; [|by intros st|exact I]. eapply sl_ready_stable; [exact HR3|].
  eapply sl_ready_stable; [exact HR2|]. by eapply sl_ready_stable.
Qed.

(** ** [Range] *)

Section range.
Context (t : nat) (from to : K).
Abbreviation o := (MRange from to : lmap_op K V).
Abbreviation sig_ k := ((0%Z, k) : sig).

Abbreviation seen := (seen zeroV less t from to).
Abbreviation covers := (covers zeroV less one t from to 0).
Abbreviation ranged := (ranged zeroV less one t from to 0).

(** What the search finds. *)
Definition first_found (x : loc) (s : sig) w : Prop := ready t o w ∧ pub x 0 s w ∧ covers x [] w.

Lemma covers_kept x s calls w w' :
  rely t w w' → ready t o w → pub x 0 s w → covers x calls w → covers x calls w'.
Proof.
  intros [HR _] Hr Hx Hc. exact (covers_stable zeroV less one 1 t from to 0 x s calls w w' HR Hr Hx Hc).
Qed.

Lemma seen_kept calls w w' : rely t w w' → seen calls w → seen calls w'.
Proof. intros [HR _]. exact (range_seen_stable zeroV less one 1 t from to calls w w' HR). Qed.

Lemma first_found_stable x s w w' : lrely t w w' → first_found x s w → first_found x s w'.
Proof.
  intros HR (Hr & Hx & Hc). split; [by apply (list_ready_stable zeroV less one 1 HR)|].
  split; [by apply (pub_stable zeroV less one 1 HR)|].
  exact (covers_stable zeroV less one 1 t from to 0 x s [] w w' HR Hr Hx Hc).
Qed.

Lemma first_hook x s w : LInv w → ready t o w → pub x 0 s w →
  ListSearch.finds_on zeroV less one t (sig_ from) 0 (λ _, True) x w →
  ∃ cm, list_step t w (with_commit w cm) ∧ first_found x s (with_commit w cm).
Proof.
  intros HI Hr Hx Hon. exists (commit (w_aux w)). rewrite with_commit_id.
  split; [by apply good_step_refl|]. split; [done|]. split; [done|].
  apply covers_start; [intros; apply sig_less|exact Hon].
Qed.

Definition range_finder : finder t from :=
  live_finder zeroV less t from o first_found (λ x s w w' HR, first_found_stable x s w w' HR)
    (λ x s w HI Hr Hx _ _ _ Hon, first_hook x s w HI Hr Hx Hon).

(** The calls so far, with [curr] the next node. *)
Definition ranging (b : budget) (z : option loc * list (K * V)) w : Prop :=
  ∃ σ n L x s, b = Refill n L ∧ 1 ≤ n ∧ z.1 = Some x ∧ pub x 0 s w ∧ ready t o w ∧
    node_less less s (sig_ from) = false ∧ called less from to s z.2 ∧
    fuel (Some x) σ (λ _, 15) n L w ∧ seen z.2 w ∧ covers x z.2 w.

Lemma sl_ranging_stable (b : budget) (z : option loc * list (K * V)) w w' :
  rely t w w' → ranging b z w → ranging b z w'.
Proof.
  intros HR (σ & n & L & x & s & ? & ? & ? & Hx & Hr & ? & ? & Hw & Hs & Hc). exists σ, n, L, x, s.
  do 3 (split; [done|]). split; [by eapply pub_kept|]. split; [by eapply sl_ready_stable|].
  do 2 (split; [done|]). split; [by eapply fuel_stable|].
  split; [by eapply seen_kept|by eapply covers_kept].
Qed.

(** The traversal ends at [x]. *)
Definition range_post (b : budget) (calls : list (K * V)) w : Prop := ranged calls w.

Lemma sl_range_ends x s calls (b : budget) w :
  Inv w → ready t o w → pub x 0 s w → called less from to s calls → seen calls w →
  covers x calls w → (s.1 = 1%Z ∨ s.1 = 0%Z ∧ less s.2 to = false) →
  wp t range_post b (Ret calls) w.
Proof.
  intros HI Hr Hx [Ha _] Hs Hc Hlast. apply wp_ret. intros w' [HR _] _.
  apply (ranged_stable zeroV less one 1 t from to 0 calls w w' HR). split; [done..|].
  eapply (covers_end zeroV less one 1); [apply HI|exact Hx| |done].
  intros k (_ & _ & Hto). by apply past_wanted with to.
Qed.

(** On to the node [y] after [x]. *)
Lemma sl_ranging_next x s y sy calls σ n n' L w w1 w' :
  rely t w w1 → rely t w1 w' → Inv w1 → ready t o w → pub x 0 s w1 → pub y 0 sy w1 →
  node_less less s sy = true → node_less less s (sig_ from) = false → called less from to sy calls →
  L = w_len w → slack w ≤ σ → σ * cost L + 20 * above w x + 14 ≤ n' → n' ≤ n + 10 → 1 ≤ n →
  is_Some (home (w_aux w) !! x) → seen calls w' → covers y calls w1 →
  ranging (Refill n L) (Some y, calls) w'.
Proof.
  intros HR1 HR HI Hr Hx Hy Hlt Hfrom Hc -> Hs Hn' Hn H1 Hxh Hseen Hcov. exists σ, n, (w_len w), y, sy.
  do 3 (split; [done|]). split; [by eapply pub_kept|].
  split; [eapply sl_ready_stable; [exact HR|]; by eapply sl_ready_stable|].
  split; [exact (below_next less from s sy Hlt Hfrom)|]. split; [exact Hc|].
  split; [|split; [done|]].
  2:{ eapply (covers_kept y sy); [exact HR|by eapply sl_ready_stable|exact Hy|done]. }
  eapply fuel_stable; [exact HR|]. split; [intros ? [= <-]; eexists; apply Hy|].
  split; [by eapply len_stable|]. intros E1. pose proof (slack_stable _ _ _ _ _ HR1 E1).
  split; [lia|]. unfold onward. pose proof (sl_above_stable _ _ _ _ _ _ HR1 E1 Hxh) as Ea.
  assert (above w1 y < above w1 x); [|cbn beta; lia].
  apply sl_above_lt; [eexists; apply Hy|]. destruct Hx as [_ Hsx], Hy as [_ Hsy]. unfold before.
  rewrite Hsx, Hsy. by left.
Qed.

(** At the end of a round. *)
Definition sl_range_round (b : budget) (res : option loc * list (K * V) + list (K * V)) w : Prop :=
  match res with
  | inl z => ranging b z w
  | inr calls => wp t range_post b (Ret calls) w
  end.

(** The node [x] with the key [k] is being visited; its pair is [mk]. *)
Lemma sl_wp_range_node x k mk calls σ n n' w0 w :
  rely t w0 w → Inv w → ready t o w0 → pub x 0 (sig_ k) w0 → link (w_mem w) x = Some mk →
  node_less less (sig_ k) (sig_ from) = false → called less from to (sig_ k) calls →
  seen calls w → covers x calls w →
  slack w0 ≤ σ → σ * cost (w_len w0) + 20 * above w0 x + 14 ≤ n' → n' ≤ n + 6 → 10 ≤ n →
  wp t sl_range_round (Refill n (w_len w0))
    (if lm_marked mk then continue (lm_ref mk, calls)
     else
       let! key := act (load_ptr nodes (Some x) sn_key) in
       if negb (less key to) then break calls
       else
         let! v := load_val (Some x) in
         continue (lm_ref mk, calls ++ [(key, v)])) w.
Proof.
  intros HR HI Hr0 Hx0 Hlink Hb Hcalled Hseen Hcov Hσ Hn' Hn H1.
  assert (ready t o w) as Hr by by eapply sl_ready_stable.
  assert (pub x 0 (sig_ k) w) as Hx by by eapply pub_kept.
  assert (is_Some (home (w_aux w0) !! x)) as Hxh by (eexists; apply Hx0).
  pose proof (pub_pub_ok _ _ _ _ _ _ _ _ _ (proj1 HI) Hx Hlink) as Hok.
  destruct (p_bounded _ _ _ _ _ _ _ _ Hok) as [y Hy]; [simpl; lia|].
  destruct (p_next _ _ _ _ _ _ _ _ Hok _ Hy) as (Hhy & sy & Hsy & Hlt).
  assert (pub y 0 sy w) as Hpy by done. rewrite Hy.
  destruct (lm_marked mk) eqn:Hm.
  - apply wp_ret. intros w1 HR1 _.
    eapply (sl_ranging_next x (sig_ k) y sy calls σ n n' _ w0 w w1); try done; [|lia..| |].
    + exact (called_next less from to _ _ _ Hlt Hcalled).
    + by eapply seen_kept.
    + exact (covers_marked zeroV less one 1 t from to 0 x _ mk y calls w (proj1 HI) Hx Hlink Hm Hy Hcov).
  - assert (since_call t x w) as Hsince.
    { apply (alive_since_call t from to); [exact Hr|].
      by apply (pub_sentinel _ _ _ _ _ _ _ _ _ (proj1 HI) Hx Hlink). }
    wp_pure. eapply (sl_wp_node zeroV less t _ x (sig_ k)); [lia|exact Hx|]. intros w1 nd HR1 HI1 _ Hs.
    replace (sn_key nd) with k by congruence.
    assert (pub x 0 (sig_ k) w1) as Hx1 by by eapply pub_kept.
    destruct (less k to) eqn:Hto; cbn beta iota delta [negb].
    + eapply (sl_wp_load_val zeroV less t _ x (sig_ k)); [lia|exact Hx1|by eexists|].
      intros w2 v HR2 HI2 Hv. assert (rely t w w2) as HR02 by by trans w1.
      apply wp_ret. intros w3 HR3 _. assert (rely t w w3) as HR03 by by trans w2.
      eapply (sl_ranging_next x (sig_ k) y sy _ σ _ n' _ w0 w w3); try done; [|lia..| |].
      * exact (called_more less from to k v calls sy Hb Hto Hlt Hcalled).
      * eapply seen_kept; [exact HR3|]. apply seen_more; [by eapply seen_kept|].
        apply (got_call zeroV less one 1 t from to 0 x (sig_ k)); try done;
          [apply HI2|by eapply sl_ready_stable|by eapply pub_kept|].
        exact (since_call_stable zeroV less one 1 (proj1 HR02) x 0 (sig_ k) Hx ltac:(by eexists) Hsince).
      * exact (covers_next zeroV less one 1 t from to 0 x _ k v mk y calls w (proj1 HI) Hx Hlink Hy eq_refl Hcov).
    + apply wp_ret. intros w2 HR2 HI2. assert (rely t w w2) as HR02 by by trans w1.
      eapply (sl_range_ends x (sig_ k)); [done|by eapply sl_ready_stable|by eapply pub_kept|done|..].
      * by eapply seen_kept.
      * by eapply covers_kept.
      * by right.
Qed.

(** One round of the loop. *)
Lemma sl_wp_range_body (b : budget) (z : option loc * list (K * V)) w :
  ranging b z w → ∃ b', budget_step b = Some b' ∧
  wp t sl_range_round b'
    (let '(curr, calls) := z in
     let! kind := act (load_ptr nodes curr sn_kind) in
     if bool_decide (kind = 0)%Z then
       let! sm := get curr 0 in
       if sm.2 : bool then continue (sm.1, calls)
       else
         let! key := act (load_ptr nodes curr sn_key) in
         if negb (less key to) then break calls
         else
           let! v := load_val curr in
           continue (sm.1, calls ++ [(key, v)])
     else break calls) w.
Proof.
  intros (σ & n & L & x & s & -> & Hn & Hcx & Hx & Hr & Hb & Hcalled & Hfuel & Hseen & Hcov).
  destruct z as [curr calls]. simpl in Hcx, Hcalled, Hseen, Hcov. subst curr.
  eexists. split; [by apply spend|].
  assert (fuel (Some x) σ (λ _, 14) (n - 1) L w) as Hfuel1 by (eapply fuel_spend; [exact Hfuel|cbn beta; lia]).
  eapply wp_renew; [|exact Hfuel1|]; [intros L'; pose proof (cost_large L'); cbn beta; lia|].
  intros w1 σ1 n1 HR1 HI1 _ Hs1 Hn1. unfold onward in Hn1. cbn beta in Hn1.
  assert (ready t o w1) as Hr1 by by eapply sl_ready_stable.
  assert (pub x 0 s w1) as Hx1 by by eapply pub_kept.
  wp_pure. eapply (sl_wp_node zeroV less t _ x s); [lia|exact Hx1|]. intros w2 nd HR2 HI2 _ Hs.
  replace (sn_kind nd) with s.1 by by rewrite <-Hs. assert (rely t w w2) as HR02 by by trans w1.
  destruct (decide (s.1 = 0%Z)) as [Hk0|Hk0].
  2:{ rewrite bool_decide_false by done. apply wp_ret. intros w3 HR3 HI3.
      assert (rely t w w3) as HR03 by by trans w2.
      assert (pub x 0 s w3) as Hx3 by by eapply pub_kept.
      eapply (sl_range_ends x s); [done|by eapply sl_ready_stable|done|done|by eapply seen_kept|
        by eapply covers_kept|left].
      apply (past_head less from); [|done|done].
      exact (pub_kind _ _ _ _ _ _ _ _ (proj1 HI3) Hx3). }
  rewrite bool_decide_true by done. destruct s as [kd k]. simpl in Hk0. subst kd.
  assert (pub x 0 (0%Z, k) w2) as Hx2 by by eapply pub_kept.
  eapply (sl_wp_get zeroV less t _ x 0 (0%Z, k)); [lia|exact Hx2|by apply (pub_tall zeroV less x (0%Z, k))|].
  intros w3 mk HR3 HI3 Hmk. exists (commit (w_aux w3)). rewrite with_commit_id.
  split; [by apply good_step_refl|]. rewrite pair_link in Hmk.
  assert (rely t w w3) as HR03 by by trans w2. cbn [fst snd].
  apply (sl_wp_range_node x k mk calls σ1 (n1 - 1 - 2) n1 w1 w3); try done; [by trans w2|
    by eapply seen_kept|by eapply covers_kept|lia..].
Qed.

Lemma sl_Range_wp (b : budget) w :
  begun less t o b w → wp t range_post b (Range less from to) w.
Proof.
  intros (σ & n & L & -> & Hr & Hfuel). unfold Range. apply wp_bind.
  eapply wp_mono; [|apply (wp_seek zeroV less t from range_finder (λ _, 20) (small_cost 20 ltac:(lia)) σ)].
  - clear. intros b curr w HI (σ & n & L & x & sx & -> & -> & Hx & Hb & (Hr & _ & Hcov) & Hfuel).
    eapply wp_renew; [|exact Hfuel|]; [intros L'; pose proof (cost_large L'); cbn beta; lia|].
    intros w1 σ1 n1 HR1 HI1 _ Hs1 Hn1. cbn beta in Hn1.
    apply (wp_loop Sp proto pg t _ ranging); [|intros ? ? ? ? ? ?; by eapply sl_ranging_stable|].
    + intros b z w2 Hz _. by apply sl_wp_range_body.
    + exists σ1, n1, (w_len w1), x, sx. split; [done|]. split; [lia|]. split; [done|].
      split; [by eapply pub_kept|]. split; [by eapply sl_ready_stable|]. split; [done|].
      split; [by split; [split; constructor|]|]. split.
      { split; [intros ? [= <-]; eapply home_stable; [exact HR1|]; eexists; apply Hx|].
        split; [done|]. intros _. split; [done|]. cbn beta. lia. }
      split; [intros ? ?; by rewrite elem_of_nil|by eapply covers_kept].
  - exact Hr.
  - eapply fuel_spend; [exact Hfuel|]. pose proof (cost_large L). cbn beta. lia.
Qed.
End range.
End gets.
