(* ===== verification/SkipDel.v ===== *)
(** [Del] of [lf.SkipList]. *)

From S2P Require Import ListCode.
From S2P Require Export SkipOps.
Local Open Scope prog_scope.

Section del.
Context {K V : Type} (zeroV : V) (less : Less K) `{!WeakOrder less}.
#[local] Hint Extern 0 (NodeOrder _ _) => exact (MList.list_order less) : typeclass_instances.
#[local] Hint Extern 0 (Capacity _) => exact (MList.list_capacity 1) : typeclass_instances.
#[local] Hint Extern 0 (Rest _ _) => exact MList.list_rest : typeclass_instances.
Abbreviation Sp := (lmap_spec zeroV (same_key less) (ascending_range (V:=V) less)).
Abbreviation mem := (mem K V).
Abbreviation aux := (list_aux V).
Abbreviation world := (world mem (lmap_op K V) (lmap_resp K V) aux).
Abbreviation proto := (skip_proto zeroV less).
Abbreviation Inv := (pr_inv proto).
Abbreviation rely := (pr_rely proto).
Abbreviation good_step := (good_step proto).
Abbreviation sig := (Z * K)%type.
Abbreviation slack := (slack less).
Abbreviation above := (above less).
Abbreviation edge := (edge less).
Abbreviation clean := (clean less).
Abbreviation fuel := (fuel less).
Abbreviation better := (better less).
Abbreviation renewed := (renewed less).
Abbreviation onward := (onward less).
Abbreviation with_commit := (with_commit zeroV less).
Abbreviation pg := (LockFreeIn (skip_allowance)).
Abbreviation wp t Q := (Logic.wp Sp proto pg t Q).
Implicit Types (w : world) (t u n i j : nat) (l x y p : loc) (k : K) (v : V) (m : mem) (s : sig).

Abbreviation finder := (finder zeroV less).
Abbreviation one := (λ _ : K, 0).
Abbreviation LInv := (ListInv.Inv zeroV less one 1).
Abbreviation lproto := (list_proto zeroV less one 1).
Abbreviation lrely := (pr_rely lproto).
Abbreviation list_step := (Rules.good_step lproto).
Abbreviation missing := (missing zeroV less).
Abbreviation answered := (answered zeroV less).
Abbreviation kept := (kept zeroV less).
Implicit Types (o : lmap_op K V) (r : lmap_resp K V).

Section victim.
Context (t : nat) (k : K) (x : loc) (sx : sig).
Abbreviation tg := ((0%Z, k) : sig).
Context (Hkey : holds less sx tg = true) (Hks : is_Some (key_of less sx)).

(** [x], which has the key, was in the map since the call; its levels above [i] are
    marked. *)
Definition victim (i : nat) w : Prop :=
  pub x 0 sx w ∧ ready t (MDel k) w ∧ since_call t x w ∧ i < height (w_mem w) x ∧
  ∀ j, i < j < height (w_mem w) x → ∃ r : option loc, final x j r w.

Lemma victim_stable i w w' : rely t w w' → victim i w → victim i w'.
Proof using Hks.
  intros HR (Hx & Hr & Hs & Hi & Hf). unfold victim.
  rewrite (height_stable _ _ _ _ _ _ HR) by (eexists; apply Hx).
  split; [by eapply pub_kept|]. split; [by eapply sl_ready_stable|].
  split; [by apply (since_call_stable zeroV less one 1 (proj1 HR) x 0 sx)|]. split; [done|].
  intros j Hj. destruct (Hf j Hj) as [r Hr']. exists r. by eapply final_stable.
Qed.

Lemma victim_next i (r : option loc) w : final x (S i) r w → victim (S i) w → victim i w.
Proof.
  intros Hf (Hx & Hr & Hs & Hi & Hj). do 3 (split; [done|]). split; [lia|]. intros j Hj'.
  destruct (decide (j = S i)) as [->|]; [by exists r|]. apply Hj. lia.
Qed.

(** Once it is marked by another, the key was absent at some moment. *)
Lemma victim_dead i w : Inv w → victim i w → is_Some (dead (w_aux w) !! x) →
  ListSteps.absent zeroV less t k w.
Proof using Hkey.
  intros [HL _] (Hx & _ & (id & o & lo & Ht & Hlo & Hc & Hd) & _) [[d0 dp] Hdead].
  destruct (i_dead _ _ _ _ _ HL _ _ _ Hdead) as [_ (k1 & v & Hk1 & _ & Hdp & _ & Hst)].
  specialize (Hd _ _ Hdead). exists id, o, lo, (S dp). split; [done|].
  split; [unfold w_len in *; lia|]. split; [done|].
  destruct (proj1 (holds_key less sx k (pub_kind _ _ _ _ _ _ _ _ HL Hx)) Hkey) as (k' & Hk' & Hsk).
  destruct (pub_key_at _ _ _ _ _ _ _ _ _ HL Hx Hk') as [_ Hka].
  assert (k1 = k') as -> by congruence. unfold state_at.
  by rewrite <-(proj1 (st_at_ok zeroV less (g_log (w_gh w)) (S dp)) _ _ Hsk).
Qed.

(** What was just read at level [i]. *)
Definition read_at i (succ : option loc) (marked : bool) (σ L : nat) w : Prop :=
  if marked then final x i succ w else edge x i succ σ L w.

Lemma read_at_intro i mk σ L w : Inv w → pub x 0 sx w → lpair (w_mem w) x i = Some mk →
  L ≤ w_len w → (w_len w = L → slack w ≤ σ) → read_at i (lm_ref mk) (lm_marked mk) σ L w.
Proof.
  intros HI Hx Hmk HL Hs. destruct mk as [r [|]]; simpl.
  - by eapply final_intro.
  - split; [eexists; apply Hx|]. split; [done|]. intros E. split; [auto|]. intros _. by eexists.
Qed.

Definition del_cost (i c : nat) (_ : nat) : nat := 20 * i + c.

Lemma del_cost_le i c L : i < levels → c ≤ 900 → del_cost i c L ≤ 2 * cost L.
Proof.
  intros Hi Hc. unfold del_cost, cost, hop. replace levels with 32 in * by reflexivity. lia.
Qed.

(** In the loop of [mark_level]. *)
Definition marking i (b : budget) (z : option loc * bool) w : Prop := ∃ σ n L,
  b = Refill n L ∧ 1 ≤ n ∧ victim i w ∧ read_at i z.1 z.2 σ L w ∧ fuel None σ (del_cost i 80) n L w.

Lemma marking_stable i (b : budget) z w w' : rely t w w' → marking i b z w → marking i b z w'.
Proof using Hks.
  intros HR (σ & n & L & ? & ? & ? & Hr & ?). exists σ, n, L. do 2 (split; [done|]).
  split; [by eapply victim_stable|]. split; [|by eapply fuel_stable].
  unfold read_at in *. destruct z.2; [by eapply final_stable|by eapply at_pair_stable].
Qed.

(** Level [i] and those above are marked. *)
Definition marked_from i c (b : budget) w : Prop := ∃ σ n L, b = Refill n L ∧ 1 ≤ n ∧
  victim i w ∧ (∃ r : option loc, final x i r w) ∧ fuel None σ (del_cost i c) n L w.

Lemma marked_from_stable i c (b : budget) w w' :
  rely t w w' → marked_from i c b w → marked_from i c b w'.
Proof using Hks.
  intros HR (σ & n & L & ? & ? & ? & (r & ?) & ?). exists σ, n, L. do 2 (split; [done|]).
  split; [by eapply victim_stable|]. split; [exists r; by eapply final_stable|by eapply fuel_stable].
Qed.

Lemma victim_key i w : Inv w → victim i w → is_Some (key_at less (w_mem w) x).
Proof using Hks.
  intros [HL _] (Hx & _). destruct Hks as [k' Hk'].
  destruct (pub_key_at _ _ _ _ _ _ _ _ _ HL Hx Hk') as [_ ->]. by eexists.
Qed.

Definition mark_res i (b : budget) (res : option loc * bool + unit) w : Prop :=
  match res with
  | inl z => marking i b z w
  | inr r => wp t (λ b _ w, marked_from i 76 b w) b (Ret r) w
  end.

(** One round: whoever marks the level, it is no longer as it was. *)
Lemma wp_mark_one i (succ : option loc) σ n L w :
  1 ≤ i → i < levels → victim i w → edge x i succ σ L w → fuel None σ (del_cost i 79) n L w →
  wp t (mark_res i) (Refill n L)
    (attemptMark (Some x) (Z.of_nat i) succ true ;;;
     let! sm := get (Some x) (Z.of_nat i) in
     continue (sm.1, sm.2)) w.
Proof using Hks.
  intros Hi1 Hi Hv He Hfuel. eapply wp_renew; [|exact Hfuel|]; [intros L'; apply del_cost_le; lia|].
  intros w1 σ1 n1 HR1 HI1 Hren Hs1 Hn1. unfold del_cost in Hn1. simpl onward in Hn1.
  apply (victim_stable _ _ _ HR1) in Hv. pose proof Hv as (Hx & _ & _ & Hih & Hab).
  apply (renewed_at_pair _ _ _ _ _ _ _ _ _ _ _ HR1 Hren) in He.
  eapply (wp_attemptMark zeroV less t _ x i sx succ σ1); [lia|done|done|exact He|..].
  - intros w2 c HR2 HI2 Hl2 Hc2. pose proof (victim_stable _ _ _ HR2 Hv) as Hv2.
    pose proof Hv2 as (Hx2 & _ & _ & _ & Hab2).
    assert (∀ u, good_step u w2 (upd Sp w2 (set_slot (w_mem w2) x i c) [] (w_aux w2)) ∧
      slack (upd Sp w2 (set_slot (w_mem w2) x i c) [] (w_aux w2)) < slack w2) as Hm.
    { intros u. apply (mark_upper_step zeroV less u w2 x i c succ); [done|eexists; apply Hx2|
        by eapply victim_key|done|done| |done].
      intros j Hj. destruct (Hab2 j Hj) as (r & _ & Hr & _). by eexists. }
    split; [apply Hm|apply (Hm 0)].
  - intros w2 b HR2 HI2 Hb2. apply (victim_stable _ _ _ HR2) in Hv.
    pose proof Hv as (Hx2 & _ & _ & Hih2 & _).
    eapply (sl_wp_get zeroV less t _ x i sx); [lia|done|done|]. intros w3 mk HR3 HI3 Hmk.
    exists (commit (w_aux w3)). rewrite with_commit_id. split; [by apply good_step_refl|].
    apply wp_ret. intros w4 HR4 _. eapply marking_stable; [exact HR4|].
    assert (better σ1 (w_len w1) w3) as [Hlen Hb3] by by eapply better_stable.
    exists (σ1 - 1), (n1 - 4 - 2), (w_len w1). split; [done|]. split; [lia|].
    split; [by eapply victim_stable|]. split.
    + apply read_at_intro; [done|by eapply pub_kept|done|done|]. intros E3. specialize (Hb3 E3). lia.
    + assert (fuel None σ1 (del_cost i 79) n1 (w_len w1) w1) as Hf1 by done.
      eapply better_fuel; [|by split|].
      * eapply fuel_stable; [exact HR3|]. eapply fuel_stable; [exact HR2|exact Hf1].
      * pose proof (cost_large (w_len w1)). unfold del_cost. lia.
Qed.

(** [mark_level] *)
Lemma wp_mark_level i σ n L w :
  1 ≤ i → i < levels → victim i w → fuel None σ (del_cost i 94) n L w →
  wp t (λ b _ w, marked_from i 76 b w) (Refill n L) (mark_level (Some x) (Z.of_nat i)) w.
Proof using Hks.
  intros Hi1 Hi Hv Hfuel. unfold mark_level.
  eapply wp_renew; [|exact Hfuel|]; [intros L'; apply del_cost_le; lia|].
  intros w1 σ1 n1 HR1 HI1 _ Hs1 Hn1. unfold del_cost in Hn1. simpl onward in Hn1.
  apply (victim_stable _ _ _ HR1) in Hv. pose proof Hv as (Hx & _ & _ & Hih & _).
  eapply (sl_wp_get zeroV less t _ x i sx); [lia|done|done|]. intros w2 mk HR2 HI2 Hmk.
  exists (commit (w_aux w2)). rewrite with_commit_id. split; [by apply good_step_refl|].
  apply (victim_stable _ _ _ HR2) in Hv. pose proof (len_stable _ _ _ _ _ HR2) as Hlen.
  assert (w_len w2 = w_len w1 → slack w2 ≤ σ1) as Hs2.
  { intros E. pose proof (slack_stable _ _ _ _ _ HR2 E). lia. }
  apply (wp_loop Sp proto pg t _ (marking i)); [|intros ? ? ? ? ? ?; by eapply marking_stable|].
  - clear -Hks Hi Hi1. intros b [succ marked] w (σ & n & L & -> & Hn & Hv & Hr & Hfuel) _.
    eexists. split; [by apply spend|].
    assert (fuel None σ (del_cost i 79) (n - 1) L w) as Hfuel1
      by (eapply fuel_spend; [exact Hfuel|unfold del_cost; lia]).
    destruct marked; cbn [negb].
    + eapply wp_renew; [|exact Hfuel1|]; [intros L'; apply del_cost_le; lia|].
      intros w1 σ1 n1 HR1 _ _ Hs1 Hn1. unfold del_cost in Hn1. simpl onward in Hn1.
      apply wp_ret. intros w2 HR2 _. apply wp_ret. intros w3 HR3 _.
      eapply marked_from_stable; [exact HR3|]. eapply marked_from_stable; [exact HR2|].
      exists σ1, n1, (w_len w1). split; [done|]. split; [lia|].
      split; [by eapply victim_stable|]. split; [exists succ; by eapply final_stable|].
      split; [done|]. split; [done|]. intros _. split; [done|]. simpl onward. unfold del_cost. lia.
    + exact (wp_mark_one i succ σ (n - 1) L w Hi1 Hi Hv Hr Hfuel1).
  - exists σ1, (n1 - 2), (w_len w1). split; [done|]. split; [lia|]. split; [done|].
    split; [by apply read_at_intro; [|apply Hv|..]|]. split; [done|]. split; [done|]. intros E.
    split; [auto|]. simpl onward. unfold del_cost. rewrite E in *. lia.
Qed.

(** [mark_levels] *)
Definition levelling (b : budget) (level : Z) w : Prop := ∃ i σ n L, b = Refill n L ∧ 1 ≤ n ∧
  level = Z.of_nat i ∧ victim i w ∧ fuel None σ (del_cost i 95) n L w.

Lemma levelling_stable (b : budget) z w w' : rely t w w' → levelling b z w → levelling b z w'.
Proof using Hks.
  intros HR (i & σ & n & L & ? & ? & ? & ? & ?). exists i, σ, n, L. do 3 (split; [done|]).
  split; [by eapply victim_stable|by eapply fuel_stable].
Qed.

(** The levels above the lowest are marked. *)
Definition upper_marked (b : budget) w : Prop := ∃ σ n L, b = Refill n L ∧
  victim 0 w ∧ fuel None σ (del_cost 0 94) n L w.

Lemma upper_marked_stable (b : budget) w w' : rely t w w' → upper_marked b w → upper_marked b w'.
Proof using Hks.
  intros HR (σ & n & L & ? & ? & ?). exists σ, n, L. split; [done|].
  split; [by eapply victim_stable|by eapply fuel_stable].
Qed.

Lemma wp_mark_levels σ n L w :
  pub x 0 sx w → ready t (MDel k) w → since_call t x w → fuel None σ (del_cost levels 100) n L w →
  wp t (λ b _ w, upper_marked b w) (Refill n L) (mark_levels (Some x)) w.
Proof using Hks.
  intros Hx Hr Hs Hfuel. unfold mark_levels.
  eapply wp_renew; [|exact Hfuel|].
  { intros L'. unfold del_cost, cost, hop. replace levels with 32 by reflexivity. lia. }
  intros w1 σ1 n1 HR1 HI1 _ Hs1 Hn1. unfold del_cost in Hn1. simpl onward in Hn1.
  wp_pure. eapply (sl_wp_node zeroV less t _ x sx); [lia|by eapply pub_kept|].
  intros w2 nd HR2 HI2 Hnd _. assert (rely t w w2) as HR by by trans w1.
  assert (pub x 0 sx w2) as Hx2 by by eapply pub_kept.
  destruct (u_tall _ _ (proj2 HI2) x ltac:(eexists; apply Hx2)) as (h & z & Ht & Hz & Hh & _).
  assert (height (w_mem w2) x = h) as Hhx by (unfold height; by rewrite Ht).
  assert (sn_topLevel nd = Z.of_nat (h - 1)) as ->.
  { unfold tall in Ht. rewrite Hnd in Ht. simpl in Ht. injection Ht as _ ->. lia. }
  assert (victim (h - 1) w2) as Hv.
  { split; [done|]. split; [by eapply sl_ready_stable|].
    split; [by apply (since_call_stable zeroV less one 1 (proj1 HR) x 0 sx)|].
    rewrite Hhx. split; [lia|]. intros j Hj. lia. }
  apply (wp_loop Sp proto pg t _ levelling); [|intros ? ? ? ? ? ?; by eapply levelling_stable|].
  - clear -Hks. intros b level w (i & σ & n & L & -> & Hn & -> & Hv & Hfuel) HI.
    eexists. split; [by apply spend|].
    assert (fuel None σ (del_cost i 94) (n - 1) L w) as Hfuel1
      by (eapply fuel_spend; [exact Hfuel|unfold del_cost; lia]).
    destruct i as [|i].
    + rewrite bool_decide_false by lia. apply wp_ret. intros w1 HR1 _. apply wp_ret. intros w2 HR2 _.
      eapply upper_marked_stable; [exact HR2|]. eapply upper_marked_stable; [exact HR1|].
      by exists σ, (n - 1), L.
    + rewrite bool_decide_true by lia. apply wp_bind.
      assert (S i < levels) as Hi.
      { destruct Hv as (Hx & _ & _ & Hi & _). pose proof (pub_tall _ _ x sx w HI Hx). lia. }
      eapply wp_mono; [|apply (wp_mark_level (S i) σ); [lia|done..]].
      clear -Hks. intros b _ w HI (σ & n & L & -> & Hn & Hv & [r Hf] & Hfuel).
      apply wp_ret. intros w1 HR1 _. eapply levelling_stable; [exact HR1|].
      exists i, σ, n, L. split; [done|]. split; [done|]. split; [lia|].
      split; [by eapply victim_next|]. eapply fuel_spend; [exact Hfuel|]. unfold del_cost. lia.
  - exists (h - 1), σ1, (n1 - 1), (w_len w1). split; [done|]. split; [lia|]. split; [done|].
    split; [done|]. split; [done|]. split; [by eapply len_stable|]. intros E.
    split; [pose proof (slack_stable _ _ _ _ _ HR2 E); lia|]. simpl onward. unfold del_cost.
    rewrite ?E. lia.
Qed.

(** ** The lowest level *)

(** What is kept for the search that unlinks the node. *)
Definition unlink_cost (_ : nat) : nat := 100.
Definition unlink_kept (L : nat) : nat := restart unlink_cost L + 10.

Definition lowering (b : budget) (succ : option loc) w : Prop := ∃ σ n L, b = Refill n L ∧ 1 ≤ n ∧
  victim 0 w ∧ at_pair less x 0 (λ mk, lm_ref mk = succ) σ L w ∧ fuel None σ (del_cost 0 80) n L w.

Lemma lowering_stable (b : budget) (succ : option loc) w w' :
  rely t w w' → lowering b succ w → lowering b succ w'.
Proof using Hks.
  intros HR (σ & n & L & ? & ? & ? & ? & ?). exists σ, n, L. do 2 (split; [done|]).
  split; [by eapply victim_stable|]. split; [by eapply at_pair_stable|by eapply fuel_stable].
Qed.

(** Whether the node was marked by [t] or by another. *)
Definition marked_by (mine : bool) w : Prop :=
  if mine then ∃ d0 dp, removed t k x d0 dp w ∧ pub x 0 sx w
  else ready t (MDel k) w ∧ ListSteps.absent zeroV less t k w.

Definition lowest_post (b : budget) (mine : bool) w : Prop :=
  marked_by mine w ∧ if mine then ∃ σ n L, b = Refill n L ∧ 1 ≤ n ∧ fuel None σ unlink_kept n L w else True.

Lemma marked_by_stable mine w w' : rely t w w' → marked_by mine w → marked_by mine w'.
Proof.
  intros HR. destruct mine; simpl.
  - intros (d0 & dp & Hrem & Hx). exists d0, dp. split; [|by eapply pub_kept].
    exact (removed_stable zeroV less one 1 t k x d0 dp w w' (proj1 HR) Hrem).
  - intros [Hr Ha]. split; [by eapply sl_ready_stable|].
    exact (absent_stable zeroV less one 1 (proj1 HR) _ Ha).
Qed.

Lemma lowest_post_stable (b : budget) mine w w' :
  rely t w w' → lowest_post b mine w → lowest_post b mine w'.
Proof.
  intros HR [Hm Hf]. split; [by eapply marked_by_stable|]. destruct mine; [|done].
  destruct Hf as (σ & n & L & ? & ? & ?). exists σ, n, L. split; [done|]. split; [done|].
  by eapply fuel_stable.
Qed.

Definition lowest_res (b : budget) (res : option loc + bool) w : Prop :=
  match res with
  | inl succ => lowering b succ w
  | inr mine => wp t lowest_post b (Ret mine) w
  end.

(** The mark of the lowest level. *)
Lemma victim_marked w (c : loc) (y : option loc) :
  Inv w → victim 0 w → lpair (w_mem w) x 0 = Some (ListMarkable y false) →
  marks (w_mem w) !! c = Some (ListMarkable y true) → ∃ us a,
  let w' := upd Sp w (set_slot (w_mem w) x 0 c) us a in
  good_step t w w' ∧ marked_by true w' ∧ w_len w < w_len w'.
Proof using Hkey Hks.
  intros HI (Hx & Hr & _ & Hi & Hup) Hl Hc. pose proof HI as [HL _].
  destruct (proj1 (holds_key less sx k (pub_kind _ _ _ _ _ _ _ _ HL Hx)) Hkey) as (k' & Hk' & Hsk).
  destruct (pub_key_at _ _ _ _ _ _ _ _ _ HL Hx Hk') as [_ Hka].
  assert (dead (w_aux w) !! x = None) as Hnone.
  { apply (alive_unmarked zeroV less x 0 sx w HI Hx Hi). by eapply not_marked. }
  rewrite pair_link in Hl.
  destruct (mark_lowest_step zeroV less t k k' sx x c y w HI Hr Hx Hk' Hsk) as
    (us & a & d0 & dp & Hg & Ho & Hd & Hcall); [|done|done|].
  { intros j Hj. destruct (Hup j ltac:(lia)) as (r & _ & Hr' & _). by eexists. }
  exists us, a. rewrite set_slot_0 by lia. cbn zeta in *.
  pose proof (proj1 (proj2 Hg (S t) ltac:(lia))) as HR.
  split; [exact Hg|]. split.
  - exists d0, dp. split; [by split|]. by apply (pub_stable zeroV less one 1 HR).
  - destruct (r_death _ _ _ _ _ HR x d0 dp k' Hd Hnone ltac:(eexists; apply Hx) Hka) as (? & ? & _). lia.
Qed.

(** One round of the loop of [mark_lowest]. *)
Lemma wp_mark_lowest_one (b : budget) (succ : option loc) w :
  lowering b succ w → ∃ b', budget_step b = Some b' ∧ wp t lowest_res b'
    (let! iMarkedIt := compareAndSet (Some x) 0 succ succ false true in
     let! sm := get (Some x) 0 in
     if iMarkedIt : bool then break true
     else if sm.2 : bool then break false
     else continue (sm.1)) w.
Proof using Hkey Hks.
  intros (σ & n & L & -> & Hn & Hv & Hp & Hfuel). eexists. split; [by apply spend|].
  assert (fuel None σ (del_cost 0 79) (n - 1) L w) as Hfuel1
    by (eapply fuel_spend; [exact Hfuel|unfold del_cost; lia]).
  eapply wp_renew; [|exact Hfuel1|].
  { intros L'. apply del_cost_le; [replace levels with 32 by reflexivity|]; lia. }
  intros w1 σ1 n1 HR1 HI1 Hren Hs1 Hn1. unfold del_cost in Hn1. simpl onward in Hn1.
  apply (victim_stable _ _ _ HR1) in Hv. pose proof Hv as (Hx & _ & _ & Hih & _).
  apply (renewed_at_pair _ _ _ _ _ _ _ _ _ _ _ HR1 Hren) in Hp.
  change 0%Z with (Z.of_nat 0).
  eapply (sl_wp_compareAndSet zeroV less t _ x 0 sx succ succ true _ σ1);
    [lia|done|done|by left|exact Hp|..].
  - intros w2 c HR2 HI2 Hl2 Hc2. apply (victim_stable _ _ _ HR2) in Hv.
    destruct (victim_marked w2 c succ HI2 Hv Hl2 Hc2) as (us & a & Hg & Hm & Hlen).
    exists us, a. split; [exact Hg|]. cbn zeta in *.
    match goal with |- Logic.wp _ _ _ _ _ _ _ ?w => set (w3 := w) in * end.
    assert (fuel None 0 (λ L, unlink_kept L + 5) (n1 - 4) (w_len w1) w3) as Hf3.
    { split; [done|]. pose proof (len_stable _ _ _ _ _ HR2). split; [lia|]. lia. }
    eapply wp_renew; [|exact Hf3|].
    { intros L'. pose proof (cost_large L'). unfold unlink_kept, restart, unlink_cost, cost in *. lia. }
    intros w4 σ4 n4 HR4 HI4 _ Hs4 Hn4. cbn beta in Hn4. simpl onward in Hn4.
    apply (marked_by_stable _ _ _ HR4) in Hm. pose proof Hm as (d0 & dp & _ & Hx4).
    eapply (sl_wp_get zeroV less t _ x 0 sx); [lia|done|by apply (pub_tall zeroV less x sx)|].
    intros w5 mk HR5 HI5 _. exists (commit (w_aux w5)). rewrite with_commit_id.
    split; [by apply good_step_refl|]. apply wp_ret. intros w6 HR6 _. apply wp_ret. intros w7 HR7 _.
    eapply lowest_post_stable; [exact HR7|]. eapply lowest_post_stable; [exact HR6|].
    eapply lowest_post_stable; [exact HR5|]. split; [exact Hm|].
    exists σ4, (n4 - 2), (w_len w4). split; [done|]. split; [lia|]. split; [done|].
    split; [done|]. intros _. split; [done|]. simpl onward. lia.
  - intros w2 HR2 HI2 Hp2. apply (victim_stable _ _ _ HR2) in Hv. pose proof Hv as (Hx2 & _ & _ & Hih2 & _).
    eapply (sl_wp_get zeroV less t _ x 0 sx); [lia|done|done|]. intros w3 mk HR3 HI3 Hmk.
    exists (commit (w_aux w3)). rewrite with_commit_id. split; [by apply good_step_refl|].
    apply (victim_stable _ _ _ HR3) in Hv. apply (at_pair_stable _ _ _ _ _ _ _ _ _ _ HR3) in Hp2.
    pose proof Hv as (Hx3 & Hr3 & _).
    destruct mk as [y [|]]; cbn [snd lm_marked fst lm_ref]; apply wp_ret; intros w4 HR4 _.
    + apply wp_ret. intros w5 HR5 _. eapply lowest_post_stable; [exact HR5|].
      eapply lowest_post_stable; [exact HR4|]. split; [|done]. split; [done|].
      apply (victim_dead 0); [done|done|]. apply (dead_marked zeroV less w3 x); [apply HI3| |].
      * eexists; apply Hx3.
      * by eexists.
    + eapply lowering_stable; [exact HR4|].
      assert (better σ1 (w_len w1) w3) as Hb3.
      { destruct Hp2 as (_ & Hlen & Hp2). split; [done|]. intros E. destruct (Hp2 E) as [? Hs].
        destruct (decide (slack w3 = σ1)) as [Eσ|]; [|lia]. destruct (Hs Eσ) as (mk & Hmk' & Href & Hne).
        rewrite Hmk in Hmk'. injection Hmk' as <-. simpl in Href. by subst. }
      assert (fuel None σ1 (del_cost 0 79) n1 (w_len w1) w1) as Hf1 by done.
      exists (σ1 - 1), (n1 - 4 - 2), (w_len w1). split; [done|]. split; [lia|]. split; [done|]. split.
      * split; [eexists; apply Hx3|]. destruct Hb3 as [? Hb3]. split; [done|]. intros E.
        specialize (Hb3 E). split; [lia|]. intros _. by eexists.
      * eapply better_fuel; [|exact Hb3|].
        -- eapply fuel_stable; [exact HR3|]. eapply fuel_stable; [exact HR2|exact Hf1].
        -- pose proof (cost_large (w_len w1)). unfold del_cost. lia.
Qed.

Lemma wp_mark_lowest (b : budget) w :
  upper_marked b w → wp t lowest_post b (mark_lowest (Some x)) w.
Proof using Hkey Hks.
  intros (σ & n & L & -> & Hv & Hfuel). unfold mark_lowest.
  eapply wp_renew; [|exact Hfuel|].
  { intros L'. apply del_cost_le; [replace levels with 32 by reflexivity|]; lia. }
  intros w1 σ1 n1 HR1 HI1 _ Hs1 Hn1. unfold del_cost in Hn1. simpl onward in Hn1.
  apply (victim_stable _ _ _ HR1) in Hv. pose proof Hv as (Hx & _ & _ & Hih & _).
  eapply (sl_wp_get zeroV less t _ x 0 sx); [lia|done|done|]. intros w2 mk HR2 HI2 Hmk.
  exists (commit (w_aux w2)). rewrite with_commit_id. split; [by apply good_step_refl|].
  apply (victim_stable _ _ _ HR2) in Hv. pose proof (len_stable _ _ _ _ _ HR2) as Hlen.
  assert (w_len w2 = w_len w1 → slack w2 ≤ σ1) as Hs2.
  { intros E. pose proof (slack_stable _ _ _ _ _ HR2 E). lia. }
  apply (wp_loop Sp proto pg t _ lowering); [|intros ? ? ? ? ? ?; by eapply lowering_stable|].
  - intros b succ w3 Hz _. by apply wp_mark_lowest_one.
  - exists σ1, (n1 - 2), (w_len w1). split; [done|]. split; [lia|]. split; [done|]. split.
    + split; [eexists; apply Hv|]. split; [done|]. intros E. split; [auto|]. intros _. by exists mk.
    + split; [done|]. split; [done|]. intros E. split; [auto|]. simpl onward. unfold del_cost.
      rewrite E in *. lia.
Qed.
End victim.

Lemma removed_kept t k x sx w w' :
  kept t w w' → marked_by t k x sx true w → marked_by t k x sx true w'.
Proof.
  induction 1 as [|w w1 w2 [HR|Hp] _ IH]; [done|..]; intros Hm; apply IH.
  - by apply (marked_by_stable _ _ _ _ _ _ _ HR).
  - pose proof (plain_rely zeroV less t w w1 Hp) as HR. destruct Hp as (_ & Hgh & Hc).
    destruct Hm as (d0 & dp & ([Ho Hcm] & Hd & Hn) & Hx). exists d0, dp.
    split; [split; [|split]|by eapply pub_kept].
    + split; [by rewrite Hgh|by rewrite Hc].
    + exact (dead_stable zeroV less one 1 (proj1 HR) _ _ Hd).
    + unfold after_call. by rewrite Hgh.
Qed.

Definition find_kept (_ : nat) : nat := 20 * levels + 200.

Definition del_post t k (_ : budget) (r : V * bool) w : Prop :=
  answered t (MDel k) (MRVal r.1 r.2) w.

Lemma sl_del_none t k w : ready t (MDel k) w → ListSteps.absent zeroV less t k w →
  answered t (MDel k) (MRVal zeroV false) w.
Proof. exact (del_finds_none zeroV less t k w). Qed.

(** [Del] after it marked the node: the node is unlinked, the value is read. *)
Lemma wp_del_end t k x sx (preds succs : list (option loc)) (b : budget) w :
  holds less sx (0%Z, k) = true → is_Some (key_of less sx) →
  length preds = levels → length succs = levels → marked_by t k x sx true w →
  (∃ σ n L, b = Refill n L ∧ 1 ≤ n ∧ fuel None σ unlink_kept n L w) →
  wp t (del_post t k) b
    (find less k preds succs ;;; act (add_u64 length_f (two64 - 1)) ;;;
     let! v := load_val (Some x) in
     Ret (v, true)) w.
Proof.
  intros Hkey Hks Hlp Hls Hm (σ & n & L & -> & Hn & Hfuel).
  apply wp_bind. eapply wp_mono;
    [|apply (wp_find zeroV less t k (frame_finder zeroV less t k (marked_by t k x sx true)
        (marked_by_stable t k x sx true)) unlink_cost); [|]].
  - clear -Hkey Hks. intros b r w HI (σ & n & L & x1 & sx1 & -> & _ & _ & Hfuel & _ & _ & Hm).
    change (marked_by t k x sx true w) in Hm.
    eapply wp_renew; [|exact Hfuel|]; [intros L'; pose proof (cost_large L'); unfold unlink_cost; lia|].
    intros w1 σ1 n1 HR1 HI1 _ Hs1 Hn1. unfold unlink_cost in Hn1. simpl onward in Hn1.
    apply (marked_by_stable _ _ _ _ _ _ _ HR1) in Hm.
    wp_pure. apply wp_skip_length; [lia|]. intros w2 z Hkept HI2.
    apply (removed_kept _ _ _ _ _ _ Hkept) in Hm. pose proof Hm as (d0 & dp & _ & Hx).
    eapply (sl_wp_load_val zeroV less t _ x sx); [lia|exact Hx|done|].
    intros w3 v HR3 HI3 Hv. apply wp_ret. intros w4 HR4 _.
    apply (marked_by_stable _ _ _ _ _ _ _ HR3) in Hm as (d0' & dp' & Hrem & Hx3).
    apply (answered_stable zeroV less one 1 t _ _ w3 w4 (proj1 HR4)).
    exact (removed_value zeroV less one 1 t k 0 x sx d0' dp' v w3 (proj1 HI3) Hrem Hx3 Hkey Hv).
  - intros L'. pose proof (cost_large L'). unfold unlink_cost. lia.
  - split; [|done]. exists σ, n, L. split; [done|]. split; [done|]. split; [exact Hm|].
    eapply fuel_spend; [exact Hfuel|]. unfold unlink_kept. lia.
Qed.

Lemma sl_Del_wp t k (b : budget) w :
  begun less t (MDel k) b w → wp t (del_post t k) b (Del zeroV less k) w.
Proof.
  intros (σ & n & L & -> & Hr & Hfuel). unfold Del. apply wp_bind.
  eapply wp_renew; [|exact Hfuel|]; [by intros L'|].
  intros w1 σ1 n1 HR1 HI1 _ Hs1 Hn1. cbn beta in Hn1. simpl onward in Hn1.
  pose proof (cost_large (w_len w1)) as Hlarge.
  assert (∀ L, find_kept L + 1000 ≤ cost L) as HE.
  { intros L'. pose proof (cost_large L'). unfold find_kept. replace levels with 32 by reflexivity. lia. }
  eapply wp_mono; [|apply (wp_find zeroV less t k (get_finder zeroV less t k (MDel k)) find_kept HE)].
  - clear. intros b [eq [preds succs]] w HI
      (σ & n & L & x & sx & -> & Heq & (Hlp & Hls & _) & Hfuel & Hx0 & Hx & Hfound).
    cbn [fst snd] in *. apply get_found_cases in Hfound as (Hr & Hyes & Hno). subst eq.
    destruct (holds less sx (0%Z, k)) eqn:Hkey; cbn [negb].
    2:{ apply wp_ret. intros w1 HR1 _. apply (answered_stable zeroV less one 1 t _ _ w w1 (proj1 HR1)).
        by apply sl_del_none; [|apply Hno]. }
    destruct (Hyes eq_refl) as [Hks Hsince]. change 0%Z with (Z.of_nat 0).
    rewrite (at_level_eq _ _ _ _ Hx0). apply wp_bind.
    eapply wp_mono; [|apply (wp_mark_levels t k x sx Hks σ); [done..|]].
    2:{ eapply fuel_spend; [exact Hfuel|]. unfold find_kept, del_cost. lia. }
    clear -Hkey Hks Hlp Hls WeakOrder0. intros b [] w _ Hb. apply wp_bind.
    eapply wp_mono; [|by apply (wp_mark_lowest t k x sx Hkey Hks)].
    clear -Hkey Hks Hlp Hls WeakOrder0. intros b0 [|] w0 _ [Hm Hfuel].
    + by apply (wp_del_end t k x sx).
    + destruct Hm as [Hr Ha]. apply wp_ret. intros w1 HR1 _.
      apply (answered_stable zeroV less one 1 t _ _ w0 w1 (proj1 HR1)). by apply sl_del_none.
  - split; [|done]. exists σ1, n1, (w_len w1). split; [done|]. split; [lia|].
    split; [by eapply sl_ready_stable|]. split; [done|]. split; [done|]. intros _. split; [done|].
    simpl onward. pose proof (restart_le find_kept HE (w_len w1)). lia.
Qed.
End del.
