(* ===== verification/SkipBuild.v ===== *)
(** [Set] of [lf.SkipList]: the random level, and the building of the new node. *)

From S2P Require Import ListCode.
From S2P Require Export SkipOps.
Local Open Scope prog_scope.

Section build.
Context {K V : Type} (zeroV : V) (less : Less K) `{!WeakOrder less}.
#[local] Hint Extern 0 (NodeOrder _ _) => exact (MList.list_order less) : typeclass_instances.
#[local] Hint Extern 0 (Capacity _) => exact (MList.list_capacity 1) : typeclass_instances.
#[local] Hint Extern 0 (Rest _ _) => exact MList.list_rest : typeclass_instances.
Abbreviation Sp := (lmap_spec zeroV (same_key less) (ascending_range (V:=V) less)).
Abbreviation mem := (mem K V).
Abbreviation aux := (list_aux V).
Abbreviation world := (world mem (lmap_op K V) (lmap_resp K V) aux).
Abbreviation proto := (skip_proto zeroV less).
Abbreviation Inv := (pr_inv proto).
Abbreviation rely := (pr_rely proto).
Abbreviation good_step := (good_step proto).
Abbreviation sig := (Z * K)%type.
Abbreviation slack := (slack less).
Abbreviation above := (above less).
Abbreviation edge := (edge less).
Abbreviation clean := (clean less).
Abbreviation fuel := (fuel less).
Abbreviation better := (better less).
Abbreviation renewed := (renewed less).
Abbreviation onward := (onward less).
Abbreviation with_commit := (with_commit zeroV less).
Abbreviation pg := (LockFreeIn (skip_allowance)).
Abbreviation wp t Q := (Logic.wp Sp proto pg t Q).
Implicit Types (w : world) (t u n i j : nat) (l x y p : loc) (k : K) (v : V) (m : mem) (s : sig).

Abbreviation finder := (finder zeroV less).
Abbreviation one := (λ _ : K, 0).
Abbreviation LInv := (ListInv.Inv zeroV less one 1).
Abbreviation lproto := (list_proto zeroV less one 1).
Abbreviation lrely := (pr_rely lproto).
Abbreviation list_step := (Rules.good_step lproto).
Abbreviation missing := (missing zeroV less).
Abbreviation answered := (answered zeroV less).
Abbreviation kept := (kept zeroV less).
Implicit Types (o : lmap_op K V) (r : lmap_resp K V).


(** ** Random levels *)

Lemma fuel_kept t (p : option loc) σ d n L w w' : kept t w w' → fuel p σ d n L w → fuel p σ d n L w'.
Proof. apply sl_kept_stable. intros u w1 w2. apply fuel_stable. Qed.

Section random.
Context (t : nat) (o : lmap_op K V) (d : nat → nat) (Hd : ∀ L, d L + 100 ≤ 2 * cost L).

Definition rolling (b : budget) (lvl : Z) w : Prop := ∃ i σ n L, b = Refill n L ∧ 1 ≤ n ∧
  lvl = Z.of_nat i ∧ i < levels ∧ ready t o w ∧ fuel None σ (λ L, d L + 2 * (levels - i) + 10) n L w.

(** A level of the list. *)
Definition rolled (b : budget) (lvl : Z) w : Prop := ∃ i σ n L, b = Refill n L ∧
  lvl = Z.of_nat i ∧ i < levels ∧ ready t o w ∧ fuel None σ d n L w.

Lemma rolling_kept (b : budget) lvl w w' : kept t w w' → rolling b lvl w → rolling b lvl w'.
Proof.
  intros HR (i & σ & n & L & ? & ? & ? & ? & ? & ?). exists i, σ, n, L.
  do 4 (split; [done|]). split; [by eapply ready_kept|by eapply fuel_kept].
Qed.

Lemma rolled_stable (b : budget) lvl w w' : rely t w w' → rolled b lvl w → rolled b lvl w'.
Proof.
  intros HR (i & σ & n & L & ? & ? & ? & ? & ?). exists i, σ, n, L.
  do 3 (split; [done|]). split; [by eapply sl_ready_stable|by eapply fuel_stable].
Qed.

Lemma wp_rand {A} (Q : budget → A → world → Prop) n L q w :
  1 ≤ n → (∀ w' z, kept t w w' → Inv w' → wp t Q (Refill (n - 1) L) (q z) w') →
  wp t Q (Refill n L) (Act randUint64 q) w.
Proof.
  intros Hn Hq. eapply wp_step_to; [by apply spend|]. intros w1 HR1 HI1.
  eexists _, _, [], (w_aux w1). split; [done|].
  match goal with |- context [upd Sp w1 ?m' [] _] =>
    pose proof (rest_changed zeroV less t w1 m' HI1 eq_refl eq_refl eq_refl) as Hp end.
  split; [apply Hp|]. apply Hq; [|apply Hp]. etrans; [by apply rely_kept|]. by apply plain_kept.
Qed.

Lemma wp_randomLevel σ n L w :
  ready t o w → fuel None σ (λ L, d L + 100) n L w →
  wp t rolled (Refill n L) (randomLevel skiplistMaxLevel) w.
Proof using Hd.
  intros Hr Hfuel. eapply wp_renew; [|exact Hfuel|]; [done|].
  intros w1 σ1 n1 HR1 HI1 _ Hs1 Hn1. cbn beta in Hn1. simpl onward in Hn1. unfold randomLevel, loop.
  apply (wp_loop Sp proto pg t _ rolling);
    [|intros b lvl w2 w3 Hz HR; eapply rolling_kept; [by apply rely_kept|done]|].
  - clear -WeakOrder0 Hd. intros b lvl w (i & σ & n & L & -> & Hn & -> & Hi & Hr & Hfuel) _.
    eexists. split; [by apply spend|].
    assert (fuel None σ (λ L, d L + 2 * (levels - i) + 9) (n - 1) L w) as Hfuel1
      by (eapply fuel_spend; [exact Hfuel|cbn beta; lia]).
    eapply wp_renew; [|exact Hfuel1|].
    { intros L'. specialize (Hd L'). cbn beta. replace levels with 32 in * by reflexivity. lia. }
    intros w1 σ1 n1 HR1 HI1 _ Hs1 Hn1. cbn beta in Hn1. simpl onward in Hn1.
    assert (∀ w', kept t w1 w' → rolled (Refill (n1 - 1) (w_len w1)) (Z.of_nat i) w') as Hdone.
    { intros w' HR. exists i, σ1, (n1 - 1), (w_len w1). do 3 (split; [done|]).
      split; [eapply ready_kept; [exact HR|by eapply sl_ready_stable]|].
      eapply fuel_kept; [exact HR|]. split; [done|]. split; [done|]. intros _. split; [done|].
      simpl onward. lia. }
    case_bool_decide as Hlt.
    + apply wp_rand; [lia|]. intros w2 z HR2 HI2. case_bool_decide.
      * apply wp_ret. intros w3 HR3 _. eapply rolling_kept; [by apply rely_kept|].
        eapply rolling_kept; [exact HR2|]. exists (S i), σ1, (n1 - 1), (w_len w1).
        split; [done|]. split; [lia|]. split; [lia|].
        assert (S i < levels) by (unfold skiplistMaxLevel in Hlt; replace levels with 32 by reflexivity; lia).
        split; [done|]. split; [by eapply sl_ready_stable|]. split; [done|]. split; [done|].
        intros _. split; [done|]. simpl onward. lia.
      * apply wp_ret. intros w3 HR3 _. apply wp_ret. intros w4 HR4 _. apply Hdone.
        trans w2; [done|]. by apply rely_kept; trans w3.
    + eapply wp_less; [apply Nat.le_sub_l|]. apply wp_ret. intros w3 HR3 _. apply wp_ret.
      intros w4 HR4 _. apply Hdone, rely_kept. by trans w3.
  - exists 0, σ1, n1, (w_len w1). split; [done|]. split; [lia|]. split; [done|].
    split; [replace levels with 32 by reflexivity; lia|]. split; [by eapply sl_ready_stable|].
    split; [done|]. split; [done|]. intros _. split; [done|]. simpl onward.
    replace levels with 32 by reflexivity. lia.
Qed.
End random.

(** ** The new node *)

(** [n.nexts[level] = c] *)
Lemma store_slot_eq m l i (c : loc) nd : nodes m !! l = Some nd → i < length (sn_nexts nd) →
  store_slot nodes_f l nexts_f (Z.of_nat i) (Some c) m =
    Some (tt, f_set nodes_f (<[l := f_set nexts_f (<[i := Some c]> (sn_nexts nd)) nd]> (nodes m)) m).
Proof.
  intros Hl Hi. unfold store_slot, store_idx, in_range. simpl. rewrite Hl.
  rewrite bool_decide_true by lia. simpl. by rewrite Nat2Z.id.
Qed.

Lemma private_kept t l nd w w' : rely t w w' → private t l nd w → private t l nd w'.
Proof. intros [HR _]. exact (list_private_stable zeroV less one 1 HR l nd). Qed.

Section node.
Context (t : nat) (k : K) (v : V) (preds succs : list (option loc)).

(** The key was not found. *)
Definition vacant w : Prop := ∃ x sx, succs !! 0 = Some (Some x) ∧ pub x 0 sx w ∧
  holds less sx (0%Z, k) = false.

Lemma vacant_stable u w w' : rely u w w' → vacant w → vacant w'.
Proof. intros HR (x & sx & ? & ? & ?). exists x, sx. split; [done|]. split; [by eapply pub_kept|done]. Qed.

(** Between the search and the CAS. *)
Definition work (c : nat) σ n (L : nat) w : Prop :=
  ready t (MSet k v) w ∧ filled less k 0 preds succs σ L w ∧ vacant w ∧
  fuel None σ (λ _, c) n L w.

Lemma work_kept c σ n L w w' : kept t w w' → work c σ n L w → work c σ n L w'.
Proof.
  intros HR (? & ? & ? & ?). split; [by eapply ready_kept|].
  split; [|split; [|by eapply fuel_kept]].
  2:{ eapply sl_kept_stable; [|exact HR|done]. intros u w1 w2. apply vacant_stable. }
  eapply sl_kept_stable; [|exact HR|done]. intros u w1 w2. apply filled_stable.
Qed.

Lemma work_spend c c' σ n n' L w : n + c' ≤ n' + c → work c σ n L w → work c' σ n' L w.
Proof. intros Hle (? & ? & ? & ?). do 3 (split; [done|]). by eapply fuel_spend. Qed.

Lemma wp_work {A} (Q : budget → A → world → Prop) c σ n L q w :
  c ≤ 4000 → work c σ n L w →
  (∀ w' σ' n', rely t w w' → Inv w' → c ≤ n' → work c σ' n' (w_len w') w' →
     wp t Q (Refill n' (w_len w')) q w') →
  wp t Q (Refill n L) q w.
Proof.
  intros Hc (Hr & Hf & Hv & Hfuel) Hq.
  eapply wp_renew; [|exact Hfuel|]; [intros L'; pose proof (cost_large L'); lia|].
  intros w1 σ1 n1 HR1 HI1 Hren Hs1 Hn1. apply (Hq w1 σ1 n1 HR1 HI1); [lia|].
  split; [by eapply sl_ready_stable|]. split; [by eapply filled_renewed|].
  split; [by eapply vacant_stable|]. split; [done|]. split; [done|]. by intros _.
Qed.

(** A node as [newSkipnode] makes it, but for its pointers. *)
Definition fresh_node (d : nat) (nd : skipnode K V) : Prop :=
  sn_key nd = k ∧ sn_val nd = Some v ∧ sn_topLevel nd = Z.of_nat d ∧ sn_kind nd = 0%Z ∧
  length (sn_nexts nd) = S d.

Definition refers (f : nat → option loc) i (nd : skipnode K V) w : Prop :=
  ∀ j, j < i → ∃ c : loc, sn_nexts nd !! j = Some (Some c) ∧
    marks (w_mem w) !! c = Some (ListMarkable (f j) false).

Lemma refers_kept f i nd w w' : kept t w w' → refers f i nd w → refers f i nd w'.
Proof.
  apply sl_kept_stable. intros u w1 w2 HR Hf j Hj. destruct (Hf j Hj) as (c & ? & ?). exists c.
  split; [done|]. by eapply mark_kept.
Qed.

(** Private steps in between; the pointers of the first [i] levels are set. *)
Definition building d (f : nat → option loc) n i c (b : budget) w : Prop := ∃ σ n' L nd,
  b = Refill n' L ∧ 1 ≤ n' ∧ work c σ n' L w ∧ private t n nd w ∧ fresh_node d nd ∧ refers f i nd w.

Lemma building_stable d f n i c (b : budget) w w' :
  rely t w w' → building d f n i c b w → building d f n i c b w'.
Proof.
  intros HR (σ & n' & L & nd & ? & ? & ? & ? & ? & ?). exists σ, n', L, nd. do 2 (split; [done|]).
  split; [by eapply work_kept; [apply rely_kept|]|]. split; [by eapply private_kept|].
  split; [done|]. by eapply refers_kept; [apply rely_kept|].
Qed.

(** [n.nexts[level].set(ref, false)] for the private node [n] *)
Lemma wp_set_private_slot {A} (Q : budget → A → world → Prop) n i (r : option loc) nd n0 L q w :
  2 ≤ n0 → private t n nd w → i < length (sn_nexts nd) →
  (∀ w' (c : loc), kept t w w' → Inv w' →
     private t n (f_set nexts_f (<[i := Some c]> (sn_nexts nd)) nd) w' →
     marks (w_mem w') !! c = Some (ListMarkable r false) →
     wp t Q (Refill (n0 - 2) L) (q tt) w') →
  wp t Q (Refill n0 L) (bind (set n (Z.of_nat i) r false) q) w.
Proof.
  intros Hn Hp Hi Hq. unfold set. wp_pure. eapply sl_wp_new_pair; [lia|].
  intros w1 c HR1 HI1 Hc1. wp_pure. eapply wp_step_to; [apply spend; lia|]. intros w2 HR2 HI2.
  assert (rely t w w2) as HR by by trans w1. apply (private_kept _ _ _ _ _ HR) in Hp.
  pose proof (mark_kept _ _ _ _ _ _ _ HR2 Hc1) as Hc2.
  set (nd' := f_set nexts_f (<[i := Some c]> (sn_nexts nd)) nd).
  destruct (private_stored zeroV less t n nd nd' w2 HI2 Hp) as [Hpl Hp2].
  eexists tt, _, [], (w_aux w2). split; [apply store_slot_eq; [apply Hp|done]|].
  split; [apply Hpl|]. replace (n0 - 1 - 1) with (n0 - 2) by lia.
  apply (Hq _ c); [|apply Hpl|exact Hp2|exact Hc2].
  etrans; [by apply rely_kept|by apply plain_kept].
Qed.

(** The two loops that set the pointers of all levels. *)
Lemma wp_fill d (f f0 : nat → option loc) i0 n (test : Z → bool) (pick : Z → prog mem (option loc)) c
    (b : budget) w :
  d < levels → c ≤ 1000 →
  (∀ i, test (Z.of_nat i) = bool_decide (i < S d)) →
  (∀ i B (q : option loc → prog mem B), i < S d → bind (pick (Z.of_nat i)) q = q (f i)) →
  building d f0 n i0 (c + 4 * S d + 10) b w →
  wp t (λ b _ w, building d f n (S d) c b w) b
    (loop (λ level, if test level then
         let! succ := pick level in
         set n level succ false ;;; continue (level + 1)%Z
       else break tt) 0%Z) w.
Proof.
  intros Hd Hc Htest Hpick Hb. unfold loop.
  apply (wp_loop Sp proto pg t _ (λ b (level : Z) w, ∃ i, level = Z.of_nat i ∧ i ≤ S d ∧
    building d f n i (c + 4 * (S d - i) + 10) b w)).
  3:{ exists 0. split; [done|]. split; [lia|].
      destruct Hb as (σ & n' & L & nd & ? & ? & ? & ? & ? & _). exists σ, n', L, nd.
      rewrite Nat.sub_0_r. do 5 (split; [done|]). intros j Hj. lia. }
  2:{ intros b1 level w1 w2 (i & ? & ? & ?) HR. exists i. do 2 (split; [done|]).
      by eapply building_stable. }
  clear b w Hb. intros b level w (i & -> & Hi & σ & n' & L & nd & -> & Hn' & Hw & Hp & Hnd & Hr) _.
  eexists. split; [by apply spend|].
  apply (work_spend _ (c + 4 * (S d - i) + 9) _ _ (n' - 1)) in Hw; [|lia].
  eapply wp_work; [|exact Hw|]; [revert Hd; replace levels with 32 by reflexivity; lia|].
  intros w1 σ1 n1 HR1 HI1 Hn1 Hw1.
  apply (private_kept _ _ _ _ _ HR1) in Hp. apply (refers_kept _ _ _ _ _ (rely_kept _ _ _ _ _ HR1)) in Hr.
  rewrite Htest. case_bool_decide as Hlt.
  - rewrite Hpick by done. destruct Hnd as (? & ? & ? & ? & Hlen).
    apply (wp_set_private_slot _ n i (f i) nd); [lia|done|lia|].
    intros w2 c2 HR2 HI2 Hp2 Hc2. apply wp_ret. intros w3 HR3 _.
    exists (S i). split; [lia|]. split; [lia|]. eapply building_stable; [exact HR3|].
    exists σ1, (n1 - 2), (w_len w1). eexists. split; [done|]. split; [lia|].
    split; [|split; [exact Hp2|split]].
    + eapply work_kept; [exact HR2|]. eapply work_spend; [|exact Hw1]. lia.
    + split; [done|]. split; [done|]. split; [done|]. split; [done|]. simpl. by rewrite length_insert.
    + intros j Hj. simpl. destruct (decide (j = i)) as [->|Hne].
      * exists c2. by rewrite list_lookup_insert_eq by lia.
      * rewrite list_lookup_insert_ne by done. apply (refers_kept _ _ _ _ _ HR2 Hr). lia.
  - assert (i = S d) as -> by lia. apply wp_ret. intros w2 HR2 _. apply wp_ret. intros w3 HR3 _.
    eapply building_stable; [exact HR3|]. eapply building_stable; [exact HR2|].
    exists σ1, n1, (w_len w1), nd. split; [done|]. split; [lia|]. split; [|done].
    eapply work_spend; [|exact Hw1]. lia.
Qed.

(** [n] was created after the nodes that its pointers lead to. *)
Definition newer n : Prop := ∀ j y, j < levels → succs !! j = Some (Some y) → y < n.

Lemma wp_store_private_node {A B} (Q : budget → A → world → Prop) (f : field (skipnode K V) B) z n nd
    n0 L q w :
  1 ≤ n0 → private t n nd w →
  (∀ w', kept t w w' → Inv w' → private t n (f_set f z nd) w' →
     wp t Q (Refill (n0 - 1) L) (q tt) w') →
  wp t Q (Refill n0 L) (Act (store_at nodes_f n f z) q) w.
Proof.
  intros Hn Hp Hq. eapply wp_store_at; [by apply spend|]. intros w1 HR1 HI1.
  apply (private_kept _ _ _ _ _ HR1) in Hp.
  destruct (private_stored zeroV less t n nd (f_set f z nd) w1 HI1 Hp) as [Hpl Hp2].
  exists nd, [], (w_aux w1). split; [apply Hp|]. split; [apply Hpl|].
  apply Hq; [|apply Hpl|exact Hp2]. etrans; [by apply rely_kept|by apply plain_kept].
Qed.

Lemma wp_newSkipnode d c σ n0 L w :
  d < levels → c ≤ 1000 → work (c + 4 * S d + 20) σ n0 L w →
  wp t (λ b n w, newer n ∧ building d (λ _, None) n (S d) c b w) (Refill n0 L)
    (newSkipnode k v (Z.of_nat d)) w.
Proof.
  intros Hd Hc Hw. eapply wp_work; [|exact Hw|]; [revert Hd; replace levels with 32 by reflexivity; lia|].
  intros w' σ' n' _ HI Hn Hw'. clear σ n0 L w Hw.
  rename w' into w, σ' into σ, n' into n0, Hw' into Hw. unfold newSkipnode. wp_pure.
  eapply wp_new; [apply spend; lia|]. intros w1 HR1 HI1. eexists [], _.
  destruct (node_added zeroV less t (SkipNode k None (Z.of_nat d) 0 []) w1 HI1) as (Hpl & Hp & Hlt).
  split; [apply Hpl|]. set (n := length (f_get nodes_f (w_mem w1))) in *. cbn zeta.
  match goal with |- Logic.wp _ _ _ _ _ _ _ ?w => set (w2 := w) in * end.
  assert (kept t w w2) as Hk2 by (etrans; [by apply rely_kept|by apply plain_kept]).
  apply (work_kept _ _ _ _ _ _ Hk2) in Hw.
  assert (newer n) as Hnewer.
  { intros j y Hj Hy. destruct Hw as (_ & (_ & _ & Hf) & _ & _).
    destruct (Hf j ltac:(lia)) as (p & x & sp & sx & _ & Hx & _ & Hpx & _).
    rewrite Hy in Hx. injection Hx as ->. apply Hlt. eexists; apply Hpx. }
  apply wp_store_private_node with (nd := SkipNode k None (Z.of_nat d) 0 []); [lia|exact Hp|].
  intros w3 HR3 HI3 Hp3. wp_pure.
  apply wp_store_private_node with (nd := SkipNode k (Some v) (Z.of_nat d) 0 []); [lia|exact Hp3|].
  intros w4 HR4 HI4 Hp4.
  cbn beta. match goal with |- Logic.wp _ _ _ _ _ _ (Loop ?f ?a ?q) _ =>
    change (Loop f a q) with (bind (loop f a) q) end.
  apply wp_bind. eapply wp_mono; [|apply (wp_fill d (λ _, None) (λ _, None) 0 n
    (λ i : Z, bool_decide (i < Z.of_nat d + 1)%Z) (λ _, Ret None) c)].
  - intros b [] w5 _ Hb. apply wp_ret. intros w6 HR6 _. split; [done|].
    by eapply building_stable.
  - done.
  - done.
  - intros i. apply bool_decide_ext. lia.
  - done.
  - eexists σ, _, (w_len w), _. split; [done|]. split; [lia|]. split; [|split; [exact Hp4|]].
    + eapply work_kept; [trans w3; [exact HR3|exact HR4]|]. eapply work_spend; [|exact Hw]. lia.
    + split; [|intros j Hj; lia]. split_and!; try done.
      cbn [f_set nexts_f sn_nexts]. rewrite length_replicate. lia.
Qed.

(** The pointers of the new node lead to the nodes that were found. *)
Definition found_ref j : option loc := mjoin (succs !! j).

Lemma wp_fill_succs d n c (b : budget) w :
  d < levels → c ≤ 1000 → length succs = levels →
  building d (λ _, None) n (S d) (c + 4 * S d + 10) b w →
  wp t (λ b _ w, building d found_ref n (S d) c b w) b
    (loop (λ level,
      if bool_decide (level <= Z.of_nat d)%Z then
        let! succ := at_level succs level in
        set n level succ false ;;; continue (level + 1)%Z
      else break tt) 0%Z) w.
Proof.
  intros Hd Hc Hls Hb. apply (wp_fill d found_ref (λ _, None) (S d) n
    (λ level, bool_decide (level <= Z.of_nat d)%Z) (at_level succs) c); [done|done| | |done].
  - intros i. apply bool_decide_ext. lia.
  - intros i B q Hi. destruct (lookup_lt_is_Some_2 succs i) as [y Hy]; [lia|].
    rewrite (at_level_eq _ _ y) by done. unfold found_ref. by rewrite Hy.
Qed.
End node.
End build.
