(* ===== verification/SkipLink.v ===== *)
(** [Set] of [lf.SkipList]: the new node is linked. *)

From S2P Require Import ListCode.
From S2P Require Export SkipBuild.
Local Open Scope prog_scope.

Section link.
Context {K V : Type} (zeroV : V) (less : Less K) `{!WeakOrder less}.
#[local] Hint Extern 0 (NodeOrder _ _) => exact (MList.list_order less) : typeclass_instances.
#[local] Hint Extern 0 (Capacity _) => exact (MList.list_capacity 1) : typeclass_instances.
#[local] Hint Extern 0 (Rest _ _) => exact MList.list_rest : typeclass_instances.
Abbreviation Sp := (lmap_spec zeroV (same_key less) (ascending_range (V:=V) less)).
Abbreviation mem := (mem K V).
Abbreviation aux := (list_aux V).
Abbreviation world := (world mem (lmap_op K V) (lmap_resp K V) aux).
Abbreviation proto := (skip_proto zeroV less).
Abbreviation Inv := (pr_inv proto).
Abbreviation rely := (pr_rely proto).
Abbreviation good_step := (good_step proto).
Abbreviation sig := (Z * K)%type.
Abbreviation slack := (slack less).
Abbreviation above := (above less).
Abbreviation edge := (edge less).
Abbreviation clean := (clean less).
Abbreviation fuel := (fuel less).
Abbreviation better := (better less).
Abbreviation renewed := (renewed less).
Abbreviation onward := (onward less).
Abbreviation with_commit := (with_commit zeroV less).
Abbreviation pg := (LockFreeIn (skip_allowance)).
Abbreviation wp t Q := (Logic.wp Sp proto pg t Q).
Implicit Types (w : world) (t u n i j : nat) (l x y p : loc) (k : K) (v : V) (m : mem) (s : sig).

Abbreviation finder := (finder zeroV less).
Abbreviation one := (λ _ : K, 0).
Abbreviation LInv := (ListInv.Inv zeroV less one 1).
Abbreviation lproto := (list_proto zeroV less one 1).
Abbreviation lrely := (pr_rely lproto).
Abbreviation list_step := (Rules.good_step lproto).
Abbreviation missing := (missing zeroV less).
Abbreviation answered := (answered zeroV less).
Abbreviation kept := (kept zeroV less).
Implicit Types (o : lmap_op K V) (r : lmap_resp K V).


Section link.
Context (t : nat) (k : K) (v : V).
Abbreviation tg := ((0%Z, k) : sig).
Abbreviation filled := (filled less k).

(** The update of a value. *)
Lemma wp_store_value {A} (Q : budget → A → world → Prop) x n L q w :
  1 ≤ n → commit (w_aux w) !! t = Some (x, v) →
  (∀ w', answered t (MSet k v) MRDone w' → wp t Q (Refill (n - 1) L) (q tt) w') →
  wp t Q (Refill n L) (Act (store_at nodes_f x val_f (Some v)) q) w.
Proof.
  intros Hn Hcm Hq. eapply wp_store_at; [by apply spend|]. intros w1 HR1 HI1.
  rewrite <-(r_commit _ _ _ _ _ (proj1 HR1)) in Hcm. pose proof (proj1 HI1) as HL.
  destruct (store_step zeroV less one 1 (sl_one_same less) sl_one_range t x v w1 HL Hcm)
    as (us & Hgood & [Hf Hc]).
  destruct (i_commit _ _ _ _ _ HL _ _ _ Hcm) as (k1 & k' & b1 & _ & _ & Hh & _).
  destruct (pub_node _ _ _ _ _ _ _ HL Hh) as [nd Hnd].
  eexists nd, us, _. split; [exact Hnd|]. cbn zeta.
  change nodes_f with (sh_nodes : field mem (list (skipnode K V))).
  change (val_f : field (skipnode K V) (option V)) with (sh_val : field (skipnode K V) (option V)).
  rewrite (set_val_eq _ _ _ _ Hnd).
  split; [|apply Hq; split; [exact Hc|]; split; [exact I|by left]].
  apply calm_same_dead; [exact HI1|exact Hgood|by eapply calm_val|done..].
Qed.

(** The new node [n] is linked at the levels below [i]. *)
Definition linked d n i w : Prop :=
  done_with t MRDone w ∧ pub n 0 tg w ∧ height (w_mem w) n = S d ∧
  ∀ j, i ≤ j ≤ d → spare (w_aux w) !! (levels * n + j) = Some t.

Lemma sl_linked_stable d n i w w' : rely t w w' → linked d n i w → linked d n i w'.
Proof.
  intros HR (Hd & Hn & Hh & Hs). split; [|split; [by eapply pub_kept|split]].
  - exact (done_with_stable zeroV less one 1 (proj1 HR) _ Hd).
  - rewrite (height_stable _ _ _ _ _ _ HR); [done|eexists; apply Hn].
  - intros j Hj. apply (r_spare _ _ _ _ _ (proj1 HR)). auto.
Qed.

Lemma before_new n y sy w : sig_of (w_mem w) n = Some tg → sig_of (w_mem w) y = Some sy →
  node_less less sy tg = false → y < n → before less (w_mem w) n y.
Proof.
  intros Hn Hy Hlt Hyn. unfold before. rewrite Hn, Hy.
  destruct (node_less less tg sy) eqn:E; [by left|right]. split; [|done].
  unfold same_key. by rewrite E, Hlt.
Qed.

Lemma refers_pair f d n i j nd w :
  private t n nd w → fresh_node k v d nd → refers f i nd w → j < i →
  lpair (w_mem w) n j = Some (ListMarkable (f j) false).
Proof.
  intros [_ Hnd] _ Hr Hj. destruct (Hr j Hj) as (c & Hc & Hm). unfold lpair, slot.
  change (node_at (w_mem w) n) with (nodes (w_mem w) !! n) in Hnd. rewrite Hnd. simpl.
  rewrite Hc. simpl. by rewrite Hm.
Qed.

Section publish.
Context (preds succs : list (option loc)) (d n x : loc) (sx : sig) (nd : skipnode K V).
Context (Hd : d < levels) (Hnewer : newer succs n) (Hnd : fresh_node k v d nd).
Context (Hx0 : succs !! 0 = Some (Some x)) (Hh : holds less sx tg = false).

(** The CAS succeeds. *)
Lemma published p sp (c : loc) σ L w :
  Inv w → ready t (MSet k v) w → filled 0 preds succs σ L w →
  private t n nd w → refers (found_ref succs) (S d) nd w →
  pub x 0 sx w → pub p 0 sp w → node_less less sp tg = true →
  lpair (w_mem w) p 0 = Some (ListMarkable (Some x) false) →
  marks (w_mem w) !! c = Some (ListMarkable (Some n) false) → ∃ us a,
  let w' := upd Sp w (set_slot (w_mem w) p 0 c) us a in
  good_step t w w' ∧ linked d n 1 w' ∧ w_len w' = S (w_len w).
Proof using All.
  intros HI Hr Hfill Hn Href Hx Hp Hlt Hpx Hc.
  destruct Hnd as (Hk & Hv & HT & Hkind & Hlen). pose proof Hn as [_ Hnode].
  change (node_at (w_mem w) n) with (nodes (w_mem w) !! n) in Hnode.
  assert (sig_of (w_mem w) n = Some tg) as Hsn.
  { unfold sig_of. change (node_at (w_mem w) n) with (nodes (w_mem w) !! n). rewrite Hnode. simpl.
    by rewrite Hk, Hkind. }
  assert (∀ j, j ≤ d → lpair (w_mem w) n j = Some (ListMarkable (found_ref succs j) false)) as Hpair.
  { intros j Hj. eapply refers_pair; [done|done|done|lia]. }
  assert (∀ j, j ≤ d → ∃ y, found_ref succs j = Some y ∧ goes less w n j y ∧
    ∃ sy, pub y 0 sy w ∧ node_less less sy tg = false) as Hgo.
  { intros j Hj. destruct Hfill as (_ & _ & Hf).
    destruct (Hf j ltac:(lia)) as (q & y & sq & sy & _ & Hy & _ & Hpy & Hjy & Hlty & _).
    exists y. split; [unfold found_ref; by rewrite Hy|]. split; [|by exists sy].
    split; [eexists; apply Hpy|]. split; [done|]. eapply before_new; [done|apply Hpy|done|].
    apply (Hnewer j); [lia|done]. }
  destruct (Hgo 0 ltac:(lia)) as (x' & Hx' & _ & sx' & Hpx' & Hltx).
  unfold found_ref in Hx'. rewrite Hx0 in Hx'. injection Hx' as <-.
  assert (sx' = sx) as -> by (destruct Hx as [_ E1], Hpx' as [_ E2]; congruence).
  assert (gap less p 0 sp (Some x) (sig_for less k) w) as Hgap.
  { split; [done|]. split; [exact Hlt|]. split; [by rewrite <-pair_link|].
    intros ? [= <-]. by exists sx. }
  assert (link (w_mem w) n = Some (ListMarkable (Some x) false)) as Hlink.
  { rewrite <-pair_link, Hpair by lia. unfold found_ref. by rewrite Hx0. }
  assert (∀ i, 1 ≤ i < length (sn_nexts nd) → ∃ y,
    lpair (w_mem w) n i = Some (ListMarkable (Some y) false) ∧ goes less w n i y) as Hup.
  { intros i Hi. destruct (Hgo i ltac:(lia)) as (y & Hy & Hg & _). exists y.
    rewrite Hpair by lia. by rewrite Hy. }
  pose proof (publish_step zeroV less t k v p n c (Some x) sp nd w HI Hr Hgap Hn
    ltac:(simpl; by rewrite Hk, Hkind) Hv Hlink Hc ltac:(lia) ltac:(lia) Hup)
    as (Hg & Hdone & Hhome & Hwl & Hsp).
  rewrite set_slot_0 by apply (pub_tall zeroV less p sp w HI Hp).
  eexists _, _. cbn zeta. split; [exact Hg|]. split; [|exact Hwl].
  split; [exact Hdone|]. split; [split; [exact Hhome|]|split].
  - simpl. by autorewrite with list_mem.
  - unfold height. simpl. rewrite set_next_tall by apply (pub_tall zeroV less p sp w HI Hp).
    unfold tall. rewrite Hnode. simpl. done.
  - intros j Hj. apply Hsp. lia.
Qed.

Lemma sl_wp_publish {A} (Q : budget → A → world → Prop) p c σ n0 L q w :
  4 ≤ n0 → preds !! 0 = Some (Some p) → pub x 0 sx w →
  work less t k v preds succs c σ n0 L w → private t n nd w → refers (found_ref succs) (S d) nd w →
  (∀ w', Inv w' → linked d n 1 w' → filled 0 preds succs σ L w' → L < w_len w' →
     wp t Q (Refill (n0 - 4) L) (q true) w') →
  (∀ w', rely t w w' → Inv w' → better σ L w' → wp t Q (Refill (n0 - 4) L) (q false) w') →
  wp t Q (Refill n0 L) (bind (compareAndSet (Some p) 0 (Some x) (Some n) false false) q) w.
Proof using All.
  intros Hn0 Hp0 Hx (Hr & Hfill & _ & Hfuel) Hn Href Hok Hfail.
  pose proof (proj2 (proj2 Hfill) 0 ltac:(lia)) as
    (p' & x' & sp & sx' & Hp' & Hx' & (Hp & Hlt & Hh0) & Hpx & _ & _ & Hedge).
  rewrite Hp0 in Hp'. injection Hp' as <-. rewrite Hx0 in Hx'. injection Hx' as <-.
  pose proof (Hnewer 0 x ltac:(lia) Hx0) as Hxn. change 0%Z with (Z.of_nat 0).
  eapply (sl_wp_compareAndSet zeroV less t Q p 0 sp (Some x) (Some n) false); [lia|exact Hp|exact Hh0| |exact Hedge|..].
  { right. intros [= ->]. lia. }
  - intros w1 c1 HR1 HI1 Hp1 Hc1.
    destruct (published p sp c1 σ L w1) as (us & a & Hg & Hl & Hlen); try done.
    + by eapply sl_ready_stable.
    + by eapply filled_stable.
    + by eapply private_kept.
    + by eapply refers_kept; [apply rely_kept|].
    + by eapply pub_kept.
    + by eapply pub_kept.
    + exists us, a. split; [exact Hg|]. cbn zeta in *. apply Hok; [apply Hg|exact Hl| |].
      * eapply (filled_stable zeroV less k (S t)); [apply Hg; lia|]. by eapply filled_stable.
      * pose proof (len_stable _ _ _ _ _ HR1). destruct Hfuel as (_ & ? & _). lia.
  - intros w1 HR1 HI1 Hp1. apply Hfail; [done|done|]. eapply at_pair_gone; [|exact Hp1].
    by intros mk [-> ?].
Qed.
End publish.

(** ** The levels above the lowest *)

(** A CAS that changes nothing where it succeeds. *)
Lemma wp_compareAndSet_same {A} (Q : budget → A → world → Prop) p i sp (e : option loc) σ n L q w :
  2 ≤ n → pub p 0 sp w → i < height (w_mem w) p → edge p i e σ L w →
  (∀ w', rely t w w' → Inv w' → wp t Q (Refill (n - 2) L) (q true) w') →
  (∀ w', rely t w w' → Inv w' → better σ L w' → wp t Q (Refill (n - 2) L) (q false) w') →
  wp t Q (Refill n L) (bind (compareAndSet (Some p) (Z.of_nat i) e e false false) q) w.
Proof.
  intros Hn Hp Hi Hedge Hok Hfail. unfold compareAndSet. wp_pure.
  eapply wp_slot; [lia|exact Hp|done|]. intros w1 c mk HR1 HI1 Hc Hm Hmk.
  exists (commit (w_aux w1)). rewrite with_commit_id. split; [by apply good_step_refl|]. wp_pure.
  apply (at_pair_stable _ _ _ _ _ _ _ _ _ _ HR1) in Hedge.
  eapply sl_wp_pair; [lia|exact Hm|]. unfold id. replace (n - 1 - 1) with (n - 2) by lia.
  destruct (decide (mk = ListMarkable e false)) as [->|Hne]; cbn [lm_ref lm_marked].
  - rewrite !bool_decide_true by done. by apply Hok.
  - replace (bool_decide (lm_ref mk = e) && eqb (lm_marked mk) false) with false.
    2:{ symmetry. apply andb_false_iff. rewrite bool_decide_eq_false.
        destruct (decide (lm_ref mk = e)) as [<-|]; [right|by left].
        destruct (lm_marked mk) eqn:E; [done|]. destruct Hne. rewrite <-E. by destruct mk. }
    apply Hfail; [done|done|]. destruct Hedge as (_ & ? & Hp1). split; [done|]. intros E.
    destruct (Hp1 E) as [? Hs]. destruct (decide (slack w1 = σ)) as [Eσ|]; [|lia].
    destruct (Hs Eσ) as (mk' & Hmk' & ->). congruence.
Qed.

(** The link of [n] behind [p] at level [i] is made. *)
Lemma link_made d n i p sp (succ : option loc) (c : loc) w :
  d < levels → 1 ≤ i ≤ d → Inv w → linked d n i w → pub p 0 sp w → node_less less sp tg = true →
  lpair (w_mem w) p i = Some (ListMarkable succ false) →
  marks (w_mem w) !! c = Some (ListMarkable (Some n) false) → ∃ us a,
  let w' := upd Sp w (set_slot (w_mem w) p i c) us a in
  good_step t w w' ∧ linked d n (S i) w'.
Proof.
  intros Hd Hi HI (Hdone & Hn & Hh & Hs) Hp Hlt Hpi Hc.
  assert (goes less w p i n) as Hg.
  { split; [eexists; apply Hn|]. split; [lia|]. unfold before.
    destruct Hp as [_ ->], Hn as [_ ->]. by left. }
  pose proof (link_upper_step zeroV less t w p i n c succ HI ltac:(eexists; apply Hp) ltac:(lia) Hpi Hg Hc
    (Hs i ltac:(lia))) as Hstep.
  eexists [], _. cbn zeta in *. split; [exact Hstep|]. split; [exact Hdone|]. split; [|split].
  - destruct Hn as [Hhn Hsn]. split; [done|]. simpl. by rewrite (proj1 (set_slot_list _ _ _ _ n)).
  - unfold height. simpl. by rewrite set_slot_tall.
  - intros j Hj. simpl. rewrite lookup_delete_ne by lia. apply Hs. lia.
Qed.

Lemma wp_link_cas {A} (Q : budget → A → world → Prop) (preds succs : list (option loc)) d n i p
    (succ : option loc) sp σ e n0 n1 L q w :
  4 ≤ n0 → d < levels → 1 ≤ i ≤ d → linked d n i w → place less k p sp i w → edge p i succ σ L w →
  filled 0 preds succs σ L w → fuel None σ e n1 L w →
  (∀ w', linked d n (S i) w' → filled 0 preds succs σ L w' → fuel None σ e n1 L w' →
     wp t Q (Refill (n0 - 4) L) (q true) w') →
  (∀ w', rely t w w' → Inv w' → better σ L w' → wp t Q (Refill (n0 - 4) L) (q false) w') →
  wp t Q (Refill n0 L) (bind (compareAndSet (Some p) (Z.of_nat i) succ (Some n) false false) q) w.
Proof.
  intros Hn0 Hd Hi Hl (Hp & Hlt & Hpi) Hedge Hfill Hfuel Hok Hfail.
  destruct (decide (succ = Some n)) as [->|Hne].
  - eapply wp_compareAndSet_same; [lia|exact Hp|done|exact Hedge|..].
    + intros w1 HR1 _. eapply wp_less; [|apply Hok]; [lia| |by eapply filled_stable|by eapply fuel_stable].
      apply (sl_linked_stable _ _ _ _ _ HR1) in Hl as (? & ? & ? & Hs). do 3 (split; [done|]).
      intros j Hj. apply Hs. lia.
    + intros w1 HR1 HI1 Hb. eapply wp_less; [|by apply Hfail]. lia.
  - eapply (sl_wp_compareAndSet zeroV less t Q p i sp succ (Some n) false);
      [lia|exact Hp|exact Hpi|by right|exact Hedge|..].
    + intros w1 c1 HR1 HI1 Hp1 Hc1.
      destruct (link_made d n i p sp succ c1 w1) as (us & a & Hg & Hl1); try done.
      * by eapply sl_linked_stable.
      * by eapply pub_kept.
      * exists us, a. split; [exact Hg|]. cbn zeta in *.
        pose proof (proj2 Hg (S t) ltac:(lia)) as HR2. apply Hok; [exact Hl1| |].
        -- eapply filled_stable; [exact HR2|]. by eapply filled_stable.
        -- eapply fuel_stable; [exact HR2|]. by eapply fuel_stable.
    + intros w1 HR1 HI1 Hp1. apply Hfail; [done|done|]. eapply at_pair_gone; [|exact Hp1].
      by intros mk [-> ?].
Qed.

Definition link_kept i c (_ : nat) : nat := 20 * (levels - i) + c.

Lemma link_kept_le i c L : c ≤ 300 → link_kept i c L + 1000 ≤ cost L.
Proof.
  intros Hc. pose proof (cost_large L). unfold link_kept. replace levels with 32 by reflexivity. lia.
Qed.

Section levels_of.
Context (d n : nat) (Hd : d < levels).

Definition linking i c (b : budget) (z : list (option loc) * list (option loc)) w : Prop :=
  ∃ σ n0 L, b = Refill n0 L ∧ 1 ≤ n0 ∧ linked d n i w ∧ filled 0 z.1 z.2 σ L w ∧
    fuel None σ (link_kept i c) n0 L w.

Lemma linking_stable i c (b : budget) z w w' : rely t w w' → linking i c b z w → linking i c b z w'.
Proof.
  intros HR (σ & n0 & L & ? & ? & ? & ? & ?). exists σ, n0, L. do 2 (split; [done|]).
  split; [by eapply sl_linked_stable|]. split; [by eapply filled_stable|by eapply fuel_stable].
Qed.

(** One round at level [i]. *)
Lemma wp_link_one i (b : budget) (z : list (option loc) * list (option loc)) w :
  1 ≤ i ≤ d → linking i 60 b z w → ∃ b', budget_step b = Some b' ∧
  wp t (λ b res w, match res with
      | inl z => linking i 60 b z w
      | inr z => wp t (λ b z w, linking (S i) 70 b z w) b (Ret z) w
      end) b'
    (let '(preds, succs) := z in
     let! pred := at_level preds (Z.of_nat i) in
     let! succ := at_level succs (Z.of_nat i) in
     let! ok := compareAndSet pred (Z.of_nat i) succ (Some n) false false in
     if ok : bool then break (preds, succs)
     else
       let! r := find less k preds succs in
       continue (r.2)) w.
Proof using Hd.
  intros Hi (σ & n0 & L & -> & Hn0 & Hl & Hfill & Hfuel). eexists. split; [by apply spend|].
  destruct z as [preds succs]. cbn [fst snd] in *.
  assert (fuel None σ (link_kept i 59) (n0 - 1) L w) as Hfuel1
    by (eapply fuel_spend; [exact Hfuel|unfold link_kept; lia]).
  eapply wp_renew; [|exact Hfuel1|].
  { intros L'. pose proof (link_kept_le i 59 L'). lia. }
  intros w1 σ1 n1 HR1 HI1 Hren Hs1 Hn1. unfold link_kept in Hn1. simpl onward in Hn1.
  apply (sl_linked_stable _ _ _ _ _ HR1) in Hl.
  apply (filled_renewed _ _ _ _ _ _ _ _ _ _ _ _ HR1 Hren) in Hfill.
  pose proof Hfill as (Hlp & Hls & Hf).
  destruct (Hf i ltac:(lia)) as (p & x & sp & sx & Hp & Hx & Hpl & _ & _ & _ & Hedge).
  rewrite (at_level_eq _ _ _ _ Hp), (at_level_eq _ _ _ _ Hx).
  eapply (wp_link_cas _ preds succs d n i p (Some x) sp σ1 (link_kept i 54) n1 (n1 - 5));
    [lia|done|done|exact Hl|exact Hpl|exact Hedge|exact Hfill| | |].
  - split; [done|]. split; [done|]. intros _. split; [done|]. simpl onward. unfold link_kept. lia.
  - clear -Hd Hi Hn1. intros w2 Hl Hfill Hfuel. apply wp_ret. intros w3 HR3 _. apply wp_ret.
    intros w4 HR4 _. eapply linking_stable; [exact HR4|]. eapply linking_stable; [exact HR3|].
    exists σ1, (n1 - 4), (w_len w1). split; [done|]. split; [lia|]. split; [done|]. split; [done|].
    eapply fuel_spend; [exact Hfuel|]. unfold link_kept. lia.
  - intros w2 HR2 HI2 Hb2. apply (sl_linked_stable _ _ _ _ _ HR2) in Hl.
    apply wp_bind. eapply wp_mono;
      [|apply (wp_find zeroV less t k (frame_finder zeroV less t k (linked d n i)
          (sl_linked_stable d n i)) (link_kept i 60))].
    + clear -Hd. intros b [eq [preds succs]] w HI (σ & n0 & L & x & sx & -> & _ & Hfill & Hfuel & _ & _ & Hl).
      change (linked d n i w) in Hl. cbn [fst snd] in *.
      eapply wp_renew; [|exact Hfuel|].
      { intros L'. pose proof (link_kept_le i 60 L'). lia. }
      intros w1 σ1 n1 HR1 HI1 Hren Hs1 Hn1. simpl onward in Hn1.
      apply wp_ret. intros w2 HR2 _. eapply linking_stable; [exact HR2|].
      exists σ1, n1, (w_len w1). split; [done|]. split; [unfold link_kept in Hn1; lia|].
      split; [by eapply sl_linked_stable|]. split; [by eapply filled_renewed|].
      split; [done|]. split; [done|]. by intros _.
    + intros L'. apply link_kept_le. lia.
    + split; [|done]. exists (σ1 - 1), (n1 - 4), (w_len w1). split; [done|]. split; [lia|].
      split; [exact Hl|]. eapply (better_fuel less None σ1 (link_kept i 59)); [|exact Hb2|].
      * eapply fuel_stable; [exact HR2|]. split; [done|]. split; [done|]. intros _. split; [exact Hs1|].
        simpl onward. unfold link_kept. exact Hn1.
      * pose proof (cost_large (w_len w1)). unfold restart, link_kept, cost in *. lia.
Qed.

Definition all_linked (b : budget) w : Prop := linked d n (S d) w ∧
  ∃ σ n0 L, b = Refill n0 L ∧ fuel None σ (λ _, 20) n0 L w.

Lemma all_linked_stable (b : budget) w w' : rely t w w' → all_linked b w → all_linked b w'.
Proof.
  intros HR (Hl & σ & n0 & L & ? & ?). split; [by eapply sl_linked_stable|]. exists σ, n0, L.
  split; [done|]. by eapply fuel_stable.
Qed.

Lemma wp_link_levels (b : budget) (preds succs : list (option loc)) w :
  linking 1 70 b (preds, succs) w →
  wp t (λ b _ w, all_linked b w) b (link_levels less k n (Z.of_nat d) preds succs) w.
Proof using Hd.
  intros Hb. unfold link_levels, loop.
  apply (wp_loop Sp proto pg t _ (λ b (z : Z * list (option loc) * list (option loc)) w, ∃ i,
    z.1.1 = Z.of_nat i ∧ 1 ≤ i ≤ S d ∧ linking i 70 b (z.1.2, z.2) w)).
  3:{ exists 1. split; [done|]. split; [lia|done]. }
  2:{ intros b1 z w1 w2 (i & ? & ? & ?) HR. exists i. do 2 (split; [done|]). by eapply linking_stable. }
  clear b preds succs w Hb. intros b [[level preds] succs] w
    (i & Hi & Hid & σ & n0 & L & -> & Hn0 & Hl & Hfill & Hfuel) _. cbn [fst snd] in *. subst level.
  eexists. split; [by apply spend|].
  assert (fuel None σ (link_kept i 65) (n0 - 1) L w) as Hfuel1
    by (eapply fuel_spend; [exact Hfuel|unfold link_kept; lia]).
  eapply wp_renew; [|exact Hfuel1|].
  { intros L'. pose proof (link_kept_le i 65 L'). lia. }
  intros w1 σ1 n1 HR1 HI1 Hren Hs1 Hn1. simpl onward in Hn1. unfold link_kept in Hn1.
  assert (linking i 60 (Refill n1 (w_len w1)) (preds, succs) w1) as Hlink.
  { exists σ1, n1, (w_len w1). split; [done|]. split; [lia|].
    split; [by eapply sl_linked_stable|]. split; [by eapply filled_renewed|].
    split; [done|]. split; [done|]. intros _. split; [done|]. simpl onward. unfold link_kept. lia. }
  case_bool_decide as Hle.
  - change (Loop ?f ?a ?q) with (bind (loop f a) q). apply wp_bind.
    eapply wp_mono; [|apply (wp_loop Sp proto pg t (λ b z w, linking (S i) 70 b z w) (linking i 60));
      [|intros ? ? ? ? ? ?; by eapply linking_stable|exact Hlink]].
    + clear -Hle. intros b [preds succs] w _ Hb. apply wp_ret. intros w1 HR1 _.
      exists (S i). cbn [fst snd]. split; [lia|]. split; [lia|]. by eapply linking_stable.
    + intros b z w2 Hz _. apply wp_link_one; [lia|done].
  - assert (i = S d) as -> by lia. apply wp_ret. intros w2 HR2 _. apply wp_ret. intros w3 HR3 _.
    eapply all_linked_stable; [exact HR3|]. eapply all_linked_stable; [exact HR2|].
    split; [by eapply sl_linked_stable|]. exists σ1, n1, (w_len w1). split; [done|].
    split; [done|]. split; [done|]. intros _. split; [done|]. simpl onward. lia.
Qed.
End levels_of.
End link.
End link.
