(* ===== verification/SkipSet.v ===== *)
(** [Set] of [lf.SkipList] is verified. *)

From S2P Require Import ListCode.
From S2P Require Export SkipLink.
Local Open Scope prog_scope.

Section set.
Context {K V : Type} (zeroV : V) (less : Less K) `{!WeakOrder less}.
#[local] Hint Extern 0 (NodeOrder _ _) => exact (MList.list_order less) : typeclass_instances.
#[local] Hint Extern 0 (Capacity _) => exact (MList.list_capacity 1) : typeclass_instances.
#[local] Hint Extern 0 (Rest _ _) => exact MList.list_rest : typeclass_instances.
Abbreviation Sp := (lmap_spec zeroV (same_key less) (ascending_range (V:=V) less)).
Abbreviation mem := (mem K V).
Abbreviation aux := (list_aux V).
Abbreviation world := (world mem (lmap_op K V) (lmap_resp K V) aux).
Abbreviation proto := (skip_proto zeroV less).
Abbreviation Inv := (pr_inv proto).
Abbreviation rely := (pr_rely proto).
Abbreviation good_step := (good_step proto).
Abbreviation sig := (Z * K)%type.
Abbreviation slack := (slack less).
Abbreviation above := (above less).
Abbreviation edge := (edge less).
Abbreviation clean := (clean less).
Abbreviation fuel := (fuel less).
Abbreviation better := (better less).
Abbreviation renewed := (renewed less).
Abbreviation onward := (onward less).
Abbreviation with_commit := (with_commit zeroV less).
Abbreviation pg := (LockFreeIn (skip_allowance)).
Abbreviation wp t Q := (Logic.wp Sp proto pg t Q).
Implicit Types (w : world) (t u n i j : nat) (l x y p : loc) (k : K) (v : V) (m : mem) (s : sig).

Abbreviation finder := (finder zeroV less).
Abbreviation one := (λ _ : K, 0).
Abbreviation LInv := (ListInv.Inv zeroV less one 1).
Abbreviation lproto := (list_proto zeroV less one 1).
Abbreviation lrely := (pr_rely lproto).
Abbreviation list_step := (Rules.good_step lproto).
Abbreviation missing := (missing zeroV less).
Abbreviation answered := (answered zeroV less).
Abbreviation kept := (kept zeroV less).
Implicit Types (o : lmap_op K V) (r : lmap_resp K V).



Section set.
Context (t : nat) (k : K) (v : V).
Abbreviation tg := ((0%Z, k) : sig).
Abbreviation filled := (filled less k).
Abbreviation linked := (linked t k).
Abbreviation work := (work less t k v).
Abbreviation o := (MSet k v : lmap_op K V).

Definition set_kept (_ : nat) : nat := 700.

Lemma set_kept_small L : set_kept L + 1000 ≤ cost L.
Proof. pose proof (cost_large L). unfold set_kept. lia. Qed.

(** Before an attempt. *)
Definition setting (b : budget) (z : list (option loc) * list (option loc)) w : Prop :=
  ∃ σ n L, b = Refill n L ∧ 1 ≤ n ∧ ready t o w ∧ length z.1 = levels ∧ length z.2 = levels ∧
    fuel None σ (λ L, restart set_kept L + 5) n L w.

Lemma setting_stable (b : budget) z w w' : rely t w w' → setting b z w → setting b z w'.
Proof.
  intros HR (σ & n & L & ? & ? & ? & ? & ? & ?). exists σ, n, L. do 2 (split; [done|]).
  split; [by eapply sl_ready_stable|]. do 2 (split; [done|]). by eapply fuel_stable.
Qed.

Definition set_post (_ : budget) (r : lmap_resp K V) w : Prop := answered t o r w.

Definition set_res (b : budget)
    (res : list (option loc) * list (option loc) + lmap_resp K V) w : Prop :=
  match res with
  | inl z => setting b z w
  | inr r => wp t set_post b (Ret r) w
  end.

Lemma set_done (b : budget) w w' : rely t w w' → answered t o MRDone w → wp t set_res b (break MRDone) w'.
Proof.
  intros HR Ha. apply wp_ret. intros w1 HR1 _. apply wp_ret. intros w2 HR2 _.
  apply (answered_stable zeroV less one 1 t _ _ w w2); [|done].
  exact (proj1 (transitivity HR (transitivity HR1 HR2))).
Qed.

(** The higher levels of the new node are linked, and the length changes. *)
Lemma wp_set_link d n (preds succs : list (option loc)) σ n0 L w :
  d < levels → linked d n 1 w → filled 0 preds succs σ L w → L < w_len w →
  wp t set_res (Refill n0 L)
    (link_levels less k n (Z.of_nat d) preds succs ;;;
     act (add_u64 length_f 1) ;;;
     break MRDone) w.
Proof.
  intros Hd Hl Hfill HL.
  assert (fuel None σ (link_kept 1 75) n0 L w) as Hfuel by (split; [done|split; lia]).
  eapply wp_renew; [|exact Hfuel|].
  { intros L'. pose proof (link_kept_le 1 75 L'). lia. }
  intros w1 σ1 n1 HR1 HI1 Hren Hs1 Hn1. simpl onward in Hn1.
  apply wp_bind. eapply wp_mono; [|apply (wp_link_levels zeroV less t k d n Hd)].
  - clear. intros b [] w HI ([Hdone _] & σ & n0 & L & -> & Hfuel).
    eapply wp_renew; [|exact Hfuel|]; [intros L'; pose proof (cost_large L'); cbn beta; lia|].
    intros w1 σ1 n1 HR1 HI1 _ _ Hn1. cbn beta in Hn1. wp_pure. apply wp_skip_length; [lia|].
    intros w2 z HR2 HI2. apply (set_done _ w2); [done|].
    eapply answered_kept; [exact HR2|]. eapply answered_kept; [by apply rely_kept|].
    by apply answered_done.
  - exists σ1, n1, (w_len w1). split; [done|]. split; [unfold link_kept in Hn1; lia|].
    split; [by eapply sl_linked_stable|]. split; [by eapply filled_renewed|].
    split; [done|]. split; [done|]. intros _. split; [done|]. simpl onward.
    unfold link_kept in *. lia.
Qed.

(** [k] was not found: a new node. *)
Lemma wp_set_new d (preds succs : list (option loc)) σ n0 L w :
  d < levels → work preds succs 700 σ n0 L w →
  wp t set_res (Refill n0 L)
    (let! n := newSkipnode k v (Z.of_nat d) in
     loop (λ level,
       if bool_decide (level <= Z.of_nat d)%Z then
         let! succ := at_level succs level in
         set n level succ false ;;;
         continue (level + 1)%Z
       else break tt) 0%Z ;;;
     let! pred := at_level preds 0 in
     let! succ := at_level succs 0 in
     let! ok := compareAndSet pred 0 succ (Some n) false false in
     if negb ok then continue (preds, succs)
     else
       link_levels less k n (Z.of_nat d) preds succs ;;;
       act (add_u64 length_f 1) ;;;
       break MRDone) w.
Proof.
  intros Hd Hw. pose proof Hw as (_ & (Hlp & Hls & _) & _). apply wp_bind. eapply wp_mono;
    [|apply (wp_newSkipnode zeroV less t k v preds succs d 500 σ); [done|lia|]].
  2:{ eapply work_spend; [|exact Hw]. revert Hd. replace levels with 32 by reflexivity. lia. }
  clear σ n0 L w Hw. intros b n w HI [Hnewer Hb]. apply wp_bind.
  eapply wp_mono; [|apply (wp_fill_succs zeroV less t k v preds succs d n 200); [done|lia|done|]].
  2:{ destruct Hb as (σ & n0 & L & nd & ? & ? & Hw & ?). exists σ, n0, L, nd. do 2 (split; [done|]).
      split; [|done]. eapply work_spend; [|exact Hw]. revert Hd. replace levels with 32 by reflexivity. lia. }
  clear b w HI Hb. intros b [] w HI (σ & n0 & L & nd & -> & Hn0 & Hw & Hp & Hnd & Hr).
  eapply wp_work; [|exact Hw|]; [lia|]. intros w1 σ1 n1 HR1 HI1 Hn1 Hw1.
  pose proof Hw1 as (_ & (_ & _ & Hfill) & (x & sx & Hx0 & Hx & Hh) & _).
  destruct (Hfill 0 ltac:(lia)) as (p & _ & _ & _ & Hp0 & _).
  change 0%Z with (Z.of_nat 0). rewrite (at_level_eq _ _ _ _ Hp0), (at_level_eq _ _ _ _ Hx0).
  eapply (sl_wp_publish zeroV less t k v preds succs d n x sx nd); try done.
  - lia.
  - by eapply private_kept.
  - eapply refers_kept; [by apply rely_kept|done].
  - intros w2 HI2 Hl Hfill2 HL. cbn [negb]. by eapply wp_set_link.
  - intros w2 HR2 HI2 Hb2. cbn [negb]. apply wp_ret. intros w3 HR3 _.
    eapply setting_stable; [exact HR3|]. destruct Hw1 as (Hr1 & _ & _ & Hfuel1).
    exists (σ1 - 1), (n1 - 4), (w_len w1). split; [done|]. split; [lia|].
    split; [by eapply sl_ready_stable|]. split; [done|]. split; [done|].
    eapply (better_fuel less None σ1 (λ _, 200)); [by eapply fuel_stable|exact Hb2|].
    pose proof (cost_large (w_len w1)). unfold restart, set_kept, cost in *. lia.
Qed.

(** One attempt. *)
Lemma wp_set_one d (b : budget) (z : list (option loc) * list (option loc)) w :
  d < levels → setting b z w → ∃ b', budget_step b = Some b' ∧ wp t set_res b'
    (let '(preds, succs) := z in
     let! r := find less k preds succs in
     let '(found, (preds, succs)) := r in
     if found : bool then
       let! c := at_level succs 0 in
       act (match c with Some c => store_at nodes_f c val_f (Some v) | None => λ _, None end) ;;;
       break MRDone
     else
       let! n := newSkipnode k v (Z.of_nat d) in
       loop (λ level,
         if bool_decide (level <= Z.of_nat d)%Z then
           let! succ := at_level succs level in
           set n level succ false ;;;
           continue (level + 1)%Z
         else break tt) 0%Z ;;;
       let! pred := at_level preds 0 in
       let! succ := at_level succs 0 in
       let! ok := compareAndSet pred 0 succ (Some n) false false in
       if negb ok then continue (preds, succs)
       else
         link_levels less k n (Z.of_nat d) preds succs ;;;
         act (add_u64 length_f 1) ;;;
         break MRDone) w.
Proof.
  intros Hd (σ & n0 & L & -> & Hn0 & Hr & Hlp & Hls & Hfuel). destruct z as [preds succs].
  cbn [fst snd] in *. eexists. split; [by apply spend|].
  assert (fuel None σ (λ L, restart set_kept L + 4) (n0 - 1) L w) as Hfuel1
    by (eapply fuel_spend; [exact Hfuel|cbn beta; lia]).
  eapply wp_renew; [|exact Hfuel1|].
  { intros L'. pose proof (cost_large L'). unfold restart, set_kept, cost in *. lia. }
  intros w1 σ1 n1 HR1 HI1 _ Hs1 Hn1. cbn beta in Hn1. simpl onward in Hn1.
  apply wp_bind. eapply wp_mono;
    [|apply (wp_find zeroV less t k (set_finder zeroV less t k v) set_kept set_kept_small)].
  - clear -Hd. intros b [found [preds succs]] w HI
      (σ & n & L & x & sx & -> & Hfound & Hfill & Hfuel & Hx0 & Hx & Hset).
    cbn [fst snd] in *. change (set_found less t k v x sx w) in Hset.
    unfold set_found in Hset. change (sig_for less k) with ((0%Z, k) : sig) in Hset.
    subst found. destruct (holds less sx (0%Z, k)) eqn:Hh.
    + eapply wp_renew; [|exact Hfuel|]; [intros L'; pose proof (set_kept_small L'); lia|].
      intros w1 σ1 n1 HR1 HI1 _ _ Hn1. unfold set_kept in Hn1.
      change 0%Z with (Z.of_nat 0). rewrite (at_level_eq _ _ _ _ Hx0). wp_pure.
      eapply (wp_store_value zeroV less t k v _ x); [lia| |].
      * by rewrite (r_commit _ _ _ _ _ (proj1 HR1)).
      * intros w2 Ha. by apply (set_done _ w2).
    + eapply wp_set_new; [done|]. split; [exact Hset|]. split; [done|]. split; [by exists x, sx|done].
  - split; [|done]. exists σ1, n1, (w_len w1). split; [done|]. split; [lia|].
    split; [by eapply sl_ready_stable|]. split; [done|]. split; [done|]. intros _. split; [done|].
    simpl onward. lia.
Qed.

Lemma sl_Set_wp (b : budget) w :
  begun less t o b w → wp t set_post b (Set_ less k v) w.
Proof.
  intros (σ & n & L & -> & Hr & Hfuel). unfold Set_. apply wp_bind.
  set (d := λ L, restart set_kept L + 5).
  assert (∀ L, d L + 100 ≤ 2 * cost L) as Hd.
  { intros L'. pose proof (cost_large L'). unfold d, restart, set_kept, cost in *. lia. }
  eapply wp_mono; [|apply (wp_randomLevel zeroV less t o d Hd σ); [exact Hr|]].
  2:{ eapply fuel_spend; [exact Hfuel|]. specialize (Hd L). cbn beta. lia. }
  intros b level w1 HI1 (i & σ1 & n1 & L1 & -> & -> & Hi & Hr1 & Hfuel1).
  eapply wp_renew; [|exact Hfuel1|]; [intros L'; specialize (Hd L'); lia|].
  intros w2 σ2 n2 HR2 HI2 _ Hs2 Hn2. simpl onward in Hn2. unfold loop.
  apply (wp_loop Sp proto pg t set_post setting);
    [|intros ? ? ? ? ? ?; by eapply setting_stable|].
  - intros b z w3 Hz _. destruct (wp_set_one i b z w3 Hi Hz) as (b' & Hb' & Hwp). exists b'.
    split; [exact Hb'|exact Hwp].
  - exists σ2, n2, (w_len w2). split; [done|]. split; [unfold d in Hn2; lia|].
    split; [by eapply sl_ready_stable|]. split; [done|]. split; [done|]. split; [done|].
    split; [done|]. by intros _.
Qed.
End set.
End set.
