(* ===== verification/LfSkipList.v ===== *)
(** [lf.SkipList] as a shared object ([lf/skiplist.go]), and [lf.OrderedMap], which
    wraps it ([lf/orderedmap.go]). *)

From S2P Require Import ListCode ListOps.
From S2P Require Export SkipGets SkipDel SkipSet.
Local Open Scope prog_scope.

Section object.
Context {K V : Type} (zeroK : K) (zeroV : V) (less : Less K) `{!WeakOrder less}.
#[local] Hint Extern 0 (NodeOrder _ _) => exact (MList.list_order less) : typeclass_instances.
#[local] Hint Extern 0 (Capacity _) => exact (MList.list_capacity 1) : typeclass_instances.
#[local] Hint Extern 0 (Rest _ _) => exact MList.list_rest : typeclass_instances.
Abbreviation Sp := (lmap_spec zeroV (same_key less) (ascending_range (V:=V) less)).
Abbreviation mem := (mem K V).
Abbreviation aux := (list_aux V).
Abbreviation world := (world mem (lmap_op K V) (lmap_resp K V) aux).
Abbreviation proto := (skip_proto zeroV less).
Abbreviation Inv := (pr_inv proto).
Abbreviation rely := (pr_rely proto).
Abbreviation good_step := (good_step proto).
Abbreviation sig := (Z * K)%type.
Abbreviation slack := (slack less).
Abbreviation above := (above less).
Abbreviation edge := (edge less).
Abbreviation clean := (clean less).
Abbreviation fuel := (fuel less).
Abbreviation better := (better less).
Abbreviation renewed := (renewed less).
Abbreviation onward := (onward less).
Abbreviation with_commit := (with_commit zeroV less).
Abbreviation pg := (LockFreeIn (skip_allowance)).
Abbreviation wp t Q := (Logic.wp Sp proto pg t Q).
Implicit Types (w : world) (t u n i j : nat) (l x y p : loc) (k : K) (v : V) (m : mem).

Abbreviation finder := (finder zeroV less).
Abbreviation one := (λ _ : K, 0).
Abbreviation LInv := (ListInv.Inv zeroV less one 1).
Abbreviation lproto := (list_proto zeroV less one 1).
Abbreviation lrely := (pr_rely lproto).
Abbreviation list_step := (Rules.good_step lproto).
Abbreviation missing := (missing zeroV less).
Abbreviation answered := (answered zeroV less).
Abbreviation kept := (kept zeroV less).
Implicit Types (o : lmap_op K V) (r : lmap_resp K V).



(** ** A new skip list *)

Section init.
Context (rng : nat → Z).
Let m : mem := NewSkipList zeroK rng.
Let w0 : world := World m (Ghost [] ∅ 0 []) (ListAux {[0 := 0; 1 := 0]} ∅ ∅ ∅ ∅ ∅ ∅).

Lemma new_home l b : home (w_aux w0) !! l = Some b → b = 0 ∧ (l = 0 ∨ l = 1).
Proof.
  simpl. rewrite lookup_insert_Some, lookup_singleton_Some. intros [[<- <-]|(_ & <- & <-)]; auto.
Qed.

Lemma new_homes l : l = 0 ∨ l = 1 → home (w_aux w0) !! l = Some 0.
Proof. by intros [-> | ->]. Qed.

(** The sentinels and their pairs. *)
Definition sentinel_mark l : listMarkable :=
  ListMarkable (if decide (l = 0) then None else Some 0) false.

Lemma new_slot l i : l = 0 ∨ l = 1 → i < levels → slot m l i = Some (levels * l + i).
Proof.
  intros Hl Hi.
  assert (∀ j, ((Some <$> seq j levels) !! i : option (option loc)) = Some (Some (j + i))) as Hs.
  { intros j. by rewrite list_lookup_fmap, lookup_seq_lt. }
  destruct Hl as [-> | ->]; unfold slot.
  - change (nodes m !! 0) with (Some (SkipNode zeroK (None : option V) skiplistMaxLevel 1 (Some <$> seq 0 levels))).
    cbn [mbind option_bind sn_nexts]. by rewrite Hs.
  - change (nodes m !! 1) with (Some (SkipNode zeroK (None : option V) skiplistMaxLevel (-1) (Some <$> seq levels levels))).
    cbn [mbind option_bind sn_nexts]. by rewrite Hs.
Qed.

Lemma new_pair l i : l = 0 ∨ l = 1 → i < levels → lpair m l i = Some (sentinel_mark l).
Proof.
  intros Hl Hi. unfold lpair. rewrite new_slot by done. cbn [mbind option_bind].
  unfold m, NewSkipList. cbn [marks]. destruct Hl as [-> | ->].
  - rewrite lookup_app_l by (rewrite length_replicate; lia). by apply lookup_replicate_2; lia.
  - rewrite lookup_app_r by (rewrite length_replicate; lia). rewrite length_replicate.
    apply lookup_replicate_2. lia.
Qed.

Lemma new_tall l : l = 0 ∨ l = 1 → tall m l = Some (levels, skiplistMaxLevel).
Proof. by intros [-> | ->]. Qed.

Lemma new_height l : l = 0 ∨ l = 1 → height (w_mem w0) l = levels.
Proof. intros Hl. change (w_mem w0) with m. unfold height. by rewrite new_tall. Qed.

Lemma new_sig l : l = 0 ∨ l = 1 →
  sig_of m l = Some (if decide (l = 0) then 1%Z else (-1)%Z, zeroK).
Proof. by intros [-> | ->]. Qed.

Lemma new_key l : l = 0 ∨ l = 1 → key_at less m l = None.
Proof. by intros [-> | ->]. Qed.

Lemma new_link l : l = 0 ∨ l = 1 → link m l = Some (sentinel_mark l).
Proof. intros Hl. rewrite <-pair_link. apply new_pair; [done|]. replace levels with 32 by reflexivity. lia. Qed.

Lemma new_list_inv : LInv w0.
Proof.
  split; simpl; try done.
  - intros l b [-> Hl]%new_home. eexists _, _.
    split; [by apply new_sig|by apply new_link|..]; simpl; try done.
    + destruct Hl as [-> | ->]; [by right; right|by left].
    + rewrite lookup_empty. by split; [|intros [? ?]].
    + destruct Hl as [-> | ->]; [done|by eexists].
    + intros y Hy. destruct Hl as [-> | ->]; [done|]. injection Hy as <-. split; [done|].
      eexists. by split.
  - intros b h Hb. destruct b; [|done]. injection Hb as <-. split; [done|]. eexists.
    split; [by apply new_sig; right|done].
  - intros l b h [-> Hl]%new_home _ Hh. injection Hh as <-. destruct Hl as [-> | ->]; [|reflexivity].
    apply rtc_once. by rewrite (succ_link _ _ _ (new_link 1 ltac:(by right))).
  - intros l b k [-> Hl]%new_home _. by rewrite new_key.
  - by intros k [? ?].
  - intros l b l' b' y [-> Hl]%new_home [-> Hl']%new_home _ _ Hy Hy'.
    rewrite (succ_link _ _ _ (new_link _ Hl)) in Hy. rewrite (succ_link _ _ _ (new_link _ Hl')) in Hy'.
    by destruct Hl as [-> | ->], Hl' as [-> | ->].
  - intros b. lia.
Qed.

Lemma new_upper_inv : UInv less w0.
Proof.
  split.
  - by intros l b [-> _]%new_home.
  - intros l [b [-> Hl]%new_home]. exists levels, skiplistMaxLevel.
    split; [by apply new_tall|]. split; [done|]. split; [|done].
    replace levels with 32 by reflexivity. lia.
  - intros l i [b [-> Hl]%new_home] Hi. exists (sentinel_mark l).
    assert (i < levels) as Hil.
    { destruct Hi as [_ Hi]. by rewrite new_height in Hi. }
    split; [by apply new_pair|]. split; [done|..].
    + intros y Hy. destruct Hl as [-> | ->]; [done|]. injection Hy as <-.
      split; [by eexists|]. split; [rewrite new_height by auto; lia|].
      unfold before. change (w_mem w0) with m. rewrite !new_sig by auto. by left.
    + intros Hn. destruct Hl as [-> | ->]; [|done]. eexists. split; [apply new_sig; by left|done].
  - intros l i j [b [-> Hl]%new_home] Hij (mk & Hmk & Hm).
    assert (i < levels) as Hi.
    { destruct Hij as [? Hj]. rewrite new_height in Hj by done. lia. }
    simpl in Hmk. rewrite new_pair in Hmk by done. by injection Hmk as <-.
  - intros a t. simpl. by rewrite lookup_empty.
Qed.
End init.

(** ** The object *)

Definition skip_list_code (o : lmap_op K V) : prog mem (lmap_resp K V) :=
  match o with
  | MSet k v => Set_ less k v
  | MGet k => let! r := Get zeroV less k in Ret (MRVal r.1 r.2)
  | MContains k => let! b := Search less k in Ret (MRBool b)
  | MDel k => let! r := Del zeroV less k in Ret (MRVal r.1 r.2)
  | MLen => let! n := Len in Ret (MRLen n)
  | MRange from to => let! kvs := Range less from to in Ret (MRRange kvs)
  end.

(** Any goroutine may call any method; [rng] are the random numbers. *)
Definition skip_list_object (rng : nat → Z) : object mem (lmap_op K V) (lmap_resp K V) :=
  Object (NewSkipList zeroK rng) (λ _, skip_list_code) (λ _ _ _ _, true).

Lemma answered_ret t o {A} (f : A → lmap_resp K V) (b : budget) w (p : prog mem A) :
  wp t (λ _ a w, answered t o (f a) w) b p w →
  wp t (post Sp proto t) b (let! a := p in Ret (f a)) w.
Proof.
  intros Hp. apply wp_bind. eapply wp_mono; [|exact Hp]. clear. intros b a w _ Ha.
  apply wp_ret. intros w' HR HI. apply (answered_post _ _ _ o); [done|].
  exact (answered_stable zeroV less one 1 t o (f a) w w' (proj1 HR) Ha).
Qed.

Lemma Del_answers t k (b : budget) w :
  begun less t (MDel k) b w →
  wp t (post_with Sp proto (map_fact zeroV less) t (MDel k)) b
    (let! r := Del zeroV less k in Ret (MRVal r.1 r.2)) w.
Proof.
  intros Hb. apply wp_bind. eapply wp_mono; [|by apply sl_Del_wp]. clear. intros b r w _ Ha.
  apply wp_ret. intros w' HR HI. apply (answered_stable zeroV less one 1 t _ _ w w' (proj1 HR)) in Ha.
  split; [by apply (answered_post _ _ _ (MDel k))|]. intros p Hp _. by apply (del_fact zeroV less t).
Qed.

Lemma Range_answers t from to (b : budget) w :
  begun less t (MRange from to) b w →
  wp t (post_with Sp proto (map_fact zeroV less) t (MRange from to)) b
    (let! kvs := Range less from to in Ret (MRRange kvs)) w.
Proof.
  intros Hb. apply wp_bind. eapply wp_mono; [|by apply sl_Range_wp]. clear. intros b kvs w _ Hr.
  apply wp_ret. intros w' HR HI.
  apply (ranged_stable zeroV less one 1 t from to 0 kvs w w' (proj1 HR)) in Hr. split.
  - apply (answered_post _ _ _ (MRange from to)); [done|exact (ranged_answered _ _ _ _ _ _ _ _ _ Hr)].
  - intros p Hp _. exact (ranged_map_fact _ _ _ _ _ _ _ _ _ _ (λ _, eq_refl) Hr Hp).
Qed.

Lemma skip_list_observes rng : verified_with Sp proto pg (skip_list_object rng) (map_fact zeroV less).
Proof.
  split.
  - eexists. split; [apply new_list_inv|apply new_upper_inv].
  - intros t id o w HI Hnone _ _. exists (w_aux w). cbn zeta.
    destruct (begun_call zeroV less t id o w HI Hnone) as [[HI' HR'] Hb].
    split; [exact HI'|]. split; [exact HR'|].
    destruct (no_fact o) eqn:Ho;
      [|destruct o; try done; [by apply Del_answers|by apply Range_answers]].
    eapply wp_mono; [intros b r w1 _; by apply no_fact_post|].
    destruct o as [k v|k|k|k| |from to]; cbn [ob_code skip_list_object skip_list_code].
    + eapply wp_mono; [|by apply sl_Set_wp]. intros b r w1. by apply answered_post.
    + apply (answered_ret t (MGet k) (λ a : V * bool, MRVal a.1 a.2)). by apply sl_Get_wp.
    + apply (answered_ret t (MContains k)). by apply Search_wp.
    + done.
    + apply (answered_ret t MLen). by apply sl_Len_wp.
    + done.
Qed.

Lemma skip_list_verified rng : verified Sp proto pg (skip_list_object rng).
Proof. apply (verified_without _ _ _ _ _ (skip_list_observes rng)). Qed.

(** C14. The lock-free skip list is linearizable, for all random numbers: in some
    order [L] that respects real time, [Set], [Get] and [Search] are those of a map
    and [Del] removes a present key; the value [Del] returns was set since the key
    was inserted, and was the current one at some moment between the call and the
    return, though it may have been updated before the deletion.  [Range]
    reports ascending keys within its bounds, each with the value that it had at
    some moment between the call and the return, and misses no key that was in the
    map all this time, although it starts from the upper levels.  [Len] is left
    open: it may return anything. *)
Theorem skip_list_linearizable rng cs st :
  reaches (skip_list_object rng) cs st → ∃ L,
  linearization Sp (sy_hist st) L ∧
  ranges_observed zeroV less (sy_hist st) L ∧ dels_observed zeroV less (sy_hist st) L.
Proof. eapply map_facts_linearization, skip_list_observes. Qed.

(** No schedule makes a method of the skip list dereference a nil pointer or use an
    index out of range. *)
Theorem skip_list_no_panic rng cs :
  exec (skip_list_object rng) cs (start (skip_list_object rng)) ≠ Crash.
Proof. apply (verified_no_crash Sp proto _ pg), skip_list_verified. Qed.

Lemma skip_allowance_mono n n' : n ≤ n' → skip_allowance n ≤ skip_allowance n'.
Proof.
  intros Hn. unfold skip_allowance. apply Nat.mul_le_mono.
  - apply Nat.add_le_mono_r. unfold max_slack. apply Nat.add_le_mono; [done|].
    apply Nat.mul_le_mono; [|lia]. replace levels with 32 by reflexivity. lia.
  - unfold cost, hop. replace levels with 32 by reflexivity. lia.
Qed.

(** C15. Lock-freedom of the skip list, for all methods: in a history of [n] calls, a
    pending operation has taken at most [skip_allowance n] steps for each operation
    that overlaps it, and as many of its own. *)
Theorem skip_list_lock_free rng cs st t run :
  reaches (skip_list_object rng) cs st → sy_thr st !! t = Some run →
  r_steps run ≤ skip_allowance (length (called_ids (sy_hist st))) *
    (1 + overlap (sy_hist st) (r_id run)).
Proof.
  intros Hc Ht. eapply (verified_lockfree_in Sp proto); [apply skip_list_verified|done..|].
  intros n Hn. by apply skip_allowance_mono.
Qed.

(** ** The levels *)

(** Walking along level [i], over marked nodes as well. *)
Definition level_reach m i : relation loc :=
  rtc (λ x y, ∃ mk, lpair m x i = Some mk ∧ lm_ref mk = Some y).

Lemma level_reach_linked w i x y :
  Inv w → is_Some (home (w_aux w) !! x) → i < height (w_mem w) x → level_reach (w_mem w) i x y →
  (y = x ∨ before less (w_mem w) x y) ∧ is_Some (home (w_aux w) !! y) ∧ i < height (w_mem w) y.
Proof.
  intros HI Hx Hi Hr. revert Hx Hi. induction Hr as [x|x z y (mk & Hmk & Hz) _ IH]; [by auto|].
  intros [b Hx] Hi. assert (b = 0) as -> by exact (u_home _ _ (proj2 HI) _ _ Hx).
  destruct (i_pub _ _ _ _ _ (proj1 HI) _ _ Hx) as (sx & mk0 & Hok0).
  destruct (pair_exists zeroV less x i sx w HI) as (mk' & Hmk' & Hok);
    [split; [done|apply Hok0]|done|].
  rewrite Hmk in Hmk'. injection Hmk' as <-.
  destruct (q_goes _ _ _ _ _ Hok z Hz) as (Hhz & Hiz & Hb).
  destruct (IH Hhz Hiz) as ([-> |Hb'] & ? & ?); (split; [|done]); right; [done|].
  by eapply before_trans.
Qed.

(** C16. In every reachable state each level of the skip list leads from the head to
    nodes that have the level, later ones in the order of the keys or, for equal
    keys, older ones, so that no level has a cycle; and a node found on any level
    is in the list of the lowest level unless it is marked there. *)
Theorem skip_list_levels rng cs st i x y :
  reaches (skip_list_object rng) cs st → i < levels →
  level_reach (sy_mem st) i (head (sy_mem st)) x → level_reach (sy_mem st) i x y →
  (y = x ∨ before less (sy_mem st) x y) ∧ i < height (sy_mem st) y ∧
  (¬ marked (sy_mem st) y 0 → level_reach (sy_mem st) 0 (head (sy_mem st)) y).
Proof.
  intros Hc Hi Hx Hy.
  destruct (verified_inv Sp proto _ pg _ _ (skip_list_verified rng) Hc) as (w & Hw & HI & _).
  rewrite <-Hw in *. set (h := head (w_mem w)) in *.
  destruct (i_head _ _ _ _ _ (proj1 HI) 0 h eq_refl) as (Hhome & sh & Hsh & Hkey & _).
  assert (i < height (w_mem w) h) as Hih.
  { unfold height. destruct (u_tall _ _ (proj2 HI) h ltac:(by eexists)) as (n & z & -> & _ & _ & Hn).
    simpl. rewrite Hn; [done|]. unfold key_at. by rewrite Hsh. }
  destruct (level_reach_linked w i h x HI ltac:(by eexists) Hih Hx) as (_ & Hhx & Hix).
  destruct (level_reach_linked w i x y HI Hhx Hix Hy) as (Hb & [b Hhy] & Hiy).
  split; [done|]. split; [done|]. intros Hm.
  assert (b = 0) as -> by exact (u_home _ _ (proj2 HI) _ _ Hhy).
  assert (dead (w_aux w) !! y = None) as Hd.
  { apply eq_None_not_Some. intros Hd. apply Hm.
    by apply (dead_marked zeroV less w y); [apply HI|eexists|]. }
  pose proof (i_alive _ _ _ _ _ (proj1 HI) y 0 h Hhy Hd eq_refl) as Hr.
  eapply rtc_subrel; [|exact Hr]. intros z z' Hz. unfold succ in Hz. rewrite <-pair_link in Hz.
  destruct (lpair (w_mem w) z 0) as [mk|] eqn:E; [|done]. by exists mk.
Qed.
End object.

(** ** Examples *)

(** Every second random number is even: each new node has two levels. *)
Definition demo_rng : nat → Z := λ n, if Nat.even n then 0%Z else 1%Z.
Abbreviation demo_object := (skip_list_object 0%Z 0%Z Z.ltb demo_rng).

Definition demo_first : list (cmd (lmap_op Z Z)) := [Call 0 (MSet 5%Z 50%Z)] ++ replicate 295 (Step 0).

(** The [Set] of goroutine 1 finds the node of its key; before it stores the
    value, [Del] marks both levels of the node, unlinks it and returns the old value.
    The update is lost: it took effect just before the deletion. *)
Definition demo_schedule : list (cmd (lmap_op Z Z)) :=
  demo_first ++ [Call 1 (MSet 5%Z 60%Z)] ++ replicate 264 (Step 1) ++
  [Call 2 (MDel 5%Z)] ++ replicate 563 (Step 2) ++ replicate 3 (Step 1) ++
  [Call 3 (MGet 5%Z)] ++ replicate 260 (Step 3).

(** While a [Range] stands on the first node, the key 5 it has reported is deleted and
    the key 7 is inserted behind it: it reports 5, 6 and 7, which were never together. *)
Definition range_schedule : list (cmd (lmap_op Z Z)) :=
  demo_first ++ [Call 0 (MSet 6%Z 60%Z)] ++ replicate 300 (Step 0) ++
  [Call 1 (MRange 0%Z 9%Z)] ++ replicate 265 (Step 1) ++
  [Call 0 (MDel 5%Z)] ++ replicate 563 (Step 0) ++
  [Call 0 (MSet 7%Z 70%Z)] ++ replicate 300 (Step 0) ++ replicate 14 (Step 1).

Lemma skip_list_linearizable_witness :
  (∃ s L, reaches demo_object demo_schedule s ∧
    sy_hist s = [EInv 0 0 (MSet 5%Z 50%Z); ERes 0 0 MRDone; EInv 1 2 (MSet 5%Z 60%Z);
                 EInv 2 3 (MDel 5%Z); ERes 2 3 (MRVal 50%Z true); ERes 1 2 MRDone;
                 EInv 3 6 (MGet 5%Z); ERes 3 6 (MRVal 0%Z false)] ∧
    linearization (lmap_spec 0%Z (same_key Z.ltb) (ascending_range Z.ltb)) (sy_hist s) L ∧
    dels_observed 0%Z Z.ltb (sy_hist s) L) ∧
  ∃ s L, reaches demo_object range_schedule s ∧
    sy_hist s = [EInv 0 0 (MSet 5%Z 50%Z); ERes 0 0 MRDone; EInv 0 2 (MSet 6%Z 60%Z);
                 ERes 0 2 MRDone; EInv 1 4 (MRange 0%Z 9%Z); EInv 0 5 (MDel 5%Z);
                 ERes 0 5 (MRVal 50%Z true); EInv 0 7 (MSet 7%Z 70%Z); ERes 0 7 MRDone;
                 ERes 1 4 (MRRange [(5%Z, 50%Z); (6%Z, 60%Z); (7%Z, 70%Z)])] ∧
    ranges_observed 0%Z Z.ltb (sy_hist s) L.
Proof.
  split.
  - destruct (run_history_reaches demo_object demo_schedule _
      ltac:(vm_compute; reflexivity)) as (s & Hs & Hh).
    destruct (skip_list_linearizable 0%Z 0%Z Z.ltb demo_rng demo_schedule s Hs)
      as (L & HL & _ & HD).
    exists s, L. split; [exact Hs|]. split; [exact Hh|]. by split.
  - destruct (run_history_reaches demo_object range_schedule _
      ltac:(vm_compute; reflexivity)) as (s & Hs & Hh).
    destruct (skip_list_linearizable 0%Z 0%Z Z.ltb demo_rng range_schedule s Hs)
      as (L & _ & HL & _).
    exists s, L. split; [exact Hs|]. by split.
Defined.

Lemma skip_list_lock_free_witness : ∃ s r,
  reaches demo_object (take 962 demo_schedule) s ∧ sy_thr s !! 2 = Some r ∧ r_steps r = 400 ∧
  r_steps r ≤ skip_allowance (length (called_ids (sy_hist s))) * (1 + overlap (sy_hist s) (r_id r)).
Proof.
  destruct (run_steps_reaches demo_object (take 962 demo_schedule) 2 400
    ltac:(vm_compute; reflexivity)) as (s & r & Hs & Hr & Hn).
  exists s, r. split; [exact Hs|]. split; [exact Hr|]. split; [exact Hn|].
  exact (skip_list_lock_free 0%Z 0%Z Z.ltb demo_rng (take 962 demo_schedule) s 2 r Hs Hr).
Defined.

(** After the first [Set] level 1 leads from the head (node 1) over the key 5 (node 2)
    to the tail (node 0). *)
Lemma skip_list_levels_witness : ∃ s,
  reaches demo_object demo_first s ∧ level_reach (sy_mem s) 1 (head (sy_mem s)) 2 ∧
  level_reach (sy_mem s) 1 2 0 ∧
  (0 = 2 ∨ before Z.ltb (sy_mem s) 2 0) ∧ 1 < height (sy_mem s) 0 ∧
  (¬ marked (sy_mem s) 0 0 → level_reach (sy_mem s) 0 (head (sy_mem s)) 0).
Proof.
  destruct (run_mem_reaches demo_object demo_first _
    ltac:(vm_compute; reflexivity)) as (s & Hs & Hm).
  assert (level_reach (sy_mem s) 1 (head (sy_mem s)) 2) as Hx.
  { apply rtc_once. rewrite Hm. eexists. split; reflexivity. }
  assert (level_reach (sy_mem s) 1 2 0) as Hy.
  { apply rtc_once. rewrite Hm. eexists. split; reflexivity. }
  exists s. split; [exact Hs|]. split; [exact Hx|]. split; [exact Hy|].
  apply (skip_list_levels 0%Z 0%Z Z.ltb demo_rng demo_first s 1 2 0 Hs); [|exact Hx|exact Hy].
  apply Nat.ltb_lt. reflexivity.
Defined.

(** * [lf.OrderedMap] *)

Module OrderedMap.
Section ordered_map.
Context {K V : Type} (zeroK : K) (zeroV : V) (less : Less K).
Abbreviation mem := (mem K V).
Abbreviation Sp := (lmap_spec zeroV (same_key less) (ascending_range (V:=V) less)).

(** The only field is the skip list. *)
Definition NewOrderedMap (rng : nat → Z) : mem := SkipList.NewSkipList zeroK rng.
Definition Set_ (k : K) (v : V) : prog mem (lmap_resp K V) := SkipList.Set_ less k v.
Definition Get (k : K) : prog mem (V * bool) := SkipList.Get zeroV less k.
Definition Del (k : K) : prog mem (V * bool) := SkipList.Del zeroV less k.
Definition Len : prog mem Z := SkipList.Len.
Definition Range (from to : K) : prog mem (list (K * V)) := SkipList.Range less from to.

Definition ordered_map_code (o : lmap_op K V) : prog mem (lmap_resp K V) :=
  match o with
  | MSet k v => Set_ k v
  | MGet k => let! r := Get k in Ret (MRVal r.1 r.2)
  | MContains _ => panic
  | MDel k => let! r := Del k in Ret (MRVal r.1 r.2)
  | MLen => let! n := Len in Ret (MRLen n)
  | MRange from to => let! kvs := Range from to in Ret (MRRange kvs)
  end.

(** It has no [Search]. *)
Definition method_of (o : lmap_op K V) : bool :=
  match o with MContains _ => false | _ => true end.

Definition ordered_map_object (rng : nat → Z) : object mem (lmap_op K V) (lmap_resp K V) :=
  Object (NewOrderedMap rng) (λ _, ordered_map_code) (λ _ _ o _, method_of o).

Context `{!WeakOrder less}.
Abbreviation proto := (skip_proto zeroV less).
Abbreviation pg := (LockFreeIn (skip_allowance)).

Lemma ordered_map_observes rng :
  verified_with Sp proto pg (ordered_map_object rng) (map_fact zeroV less).
Proof.
  destruct (skip_list_observes zeroK zeroV less rng) as [Hinit Hcall]. split; [exact Hinit|].
  intros t id o w HI Hnone Hid Hok. specialize (Hcall t id o w HI Hnone Hid eq_refl).
  by destruct o.
Qed.

Lemma ordered_map_verified rng : verified Sp proto pg (ordered_map_object rng).
Proof. apply (verified_without _ _ _ _ _ (ordered_map_observes rng)). Qed.

(** The ordered map does what the skip list does that it wraps. *)
Corollary ordered_map_linearizable rng cs st :
  reaches (ordered_map_object rng) cs st → ∃ L,
  linearization Sp (sy_hist st) L ∧
  ranges_observed zeroV less (sy_hist st) L ∧ dels_observed zeroV less (sy_hist st) L.
Proof. eapply map_facts_linearization, ordered_map_observes. Qed.

Theorem ordered_map_no_panic rng cs :
  exec (ordered_map_object rng) cs (start (ordered_map_object rng)) ≠ Crash.
Proof. apply (verified_no_crash Sp proto _ pg), ordered_map_verified. Qed.
End ordered_map.

Abbreviation demo_map := (ordered_map_object 0%Z 0%Z Z.ltb demo_rng).
Definition demo_calls : list (cmd (lmap_op Z Z)) :=
  demo_first ++ [Call 1 (MRange 0%Z 9%Z)] ++ replicate 267 (Step 1).

Example ordered_map_range : ∃ s,
  reaches demo_map demo_calls s ∧
  sy_hist s = [EInv 0 0 (MSet 5%Z 50%Z); ERes 0 0 MRDone; EInv 1 2 (MRange 0%Z 9%Z);
               ERes 1 2 (MRRange [(5%Z, 50%Z)])].
Proof. apply run_history_reaches. vm_compute. reflexivity. Qed.
End OrderedMap.
