(* ===== verification/SplitCode.v ===== *)
(** [lf.SplitHashMap]: the code of the split-ordered hash table
    ([lf/splithashmap.go]), and the list inside it as an instance of
    ListShape.v. *)

From S2P Require Export ListCommon SplitOrder.

Module SplitMap.

Definition soSegmentShift : Z := 8.
Definition soSegmentSize : Z := Z.shiftl 1 soSegmentShift.
Definition soMaxBuckets : Z := Z.shiftl 1 16.
Definition soSegments : Z := soMaxBuckets / soSegmentSize.
Definition soLoadFactor : Z := 4.

(** An array of bucket pointers. *)
Definition bucketSegment : Type := list (option loc).
Definition slot_f (i : nat) : field bucketSegment (option loc) :=
  Field (λ s, default None (s !! i)) (λ x s, <[i := x]> s).
Definition empty_segment : bucketSegment := replicate (Z.to_nat soSegmentSize) None.
Arguments soSegmentSize : simpl never.
Arguments soSegments : simpl never.
Arguments empty_segment : simpl never.

Section code.
Context {K V : Type} (zeroK : K) (zeroV : V) (less : Less K) (hash : K → Z).

(** [so_next] is the [atomic.Pointer] inside the [atomicMarkable]. *)
Record soNode := SoNode {
  so_soKey : Z;
  so_key : K;
  so_val : option V;
  so_dummy : bool;
  so_next : option loc
}.

Record mem := Mem {
  nodes : list soNode;
  marks : list listMarkable;
  segs : list bucketSegment;
  segments : list (option loc);
  head : loc;
  size : Z;
  count : Z
}.

Definition nodes_f : field mem (list soNode) :=
  Field nodes (λ x m, Mem x (marks m) (segs m) (segments m) (head m) (size m) (count m)).
Definition marks_f : field mem (list listMarkable) :=
  Field marks (λ x m, Mem (nodes m) x (segs m) (segments m) (head m) (size m) (count m)).
Definition segs_f : field mem (list bucketSegment) :=
  Field segs (λ x m, Mem (nodes m) (marks m) x (segments m) (head m) (size m) (count m)).
Definition segments_f : field mem (list (option loc)) :=
  Field segments (λ x m, Mem (nodes m) (marks m) (segs m) x (head m) (size m) (count m)).
Definition size_f : field mem Z :=
  Field size (λ x m, Mem (nodes m) (marks m) (segs m) (segments m) (head m) x (count m)).
Definition count_f : field mem Z :=
  Field count (λ x m, Mem (nodes m) (marks m) (segs m) (segments m) (head m) (size m) x).
Definition val_f : field soNode (option V) :=
  Field so_val (λ x n, SoNode (so_soKey n) (so_key n) x (so_dummy n) (so_next n)).
Definition next_f : field soNode (option loc) :=
  Field so_next (λ x n, SoNode (so_soKey n) (so_key n) (so_val n) (so_dummy n) x).

(** ** Markable references; [n] is the node whose [next] is meant *)

Definition get (n : option loc) : prog mem (option loc * bool) :=
  let! c := act (load_ptr nodes n so_next) in
  match c with
  | Some c => act (load_at marks c (λ c, (lm_ref c, lm_marked c)))
  | None => Ret (None, false)
  end.

Definition reference (n : option loc) : prog mem (option loc) :=
  let! c := act (load_ptr nodes n so_next) in
  match c with
  | Some c => act (load_at marks c lm_ref)
  | None => Ret None
  end.

Definition set (n : loc) (ref : option loc) (mark : bool) : prog mem unit :=
  let! c := act (new marks_f (ListMarkable ref mark)) in
  act (store_at nodes_f n next_f (Some c)).

Definition compareAndSet (n expectRef newRef : option loc) (expectMark newMark : bool)
    : prog mem bool :=
  let! c := act (load_ptr nodes n so_next) in
  let! cur :=
    match c with
    | Some c => act (load_at marks c id)
    | None => Ret (ListMarkable None false)
    end in
  if negb (bool_decide (lm_ref cur = expectRef) && eqb (lm_marked cur) expectMark)
  then Ret false
  else if bool_decide (newRef = lm_ref cur) && eqb newMark (lm_marked cur) then Ret true
  else
    let! c' := act (new marks_f (ListMarkable newRef newMark)) in
    act (cas_ptr nodes_f n next_f c (Some c')).

(** ** The table *)

(** The first segment is allocated for the sentinel of bucket 0, the node 0. *)
Definition NewSplitHashMap : mem :=
  Mem [SoNode 0 zeroK None true None] [] [<[0 := Some 0]> empty_segment]
    (<[0 := Some 0]> (replicate (Z.to_nat soSegments) None)) 0 2 0.

(** The address of bucket [i]'s pointer: its segment and its index in it. *)
Definition bucketPtr (i : Z) : prog mem (loc * nat) :=
  let seg := Z.shiftr i soSegmentShift in
  let j := Z.to_nat (Z.land i (soSegmentSize - 1)) in
  let! s := act (load_idx segments seg) in
  match s with
  | Some s => Ret (s, j)
  | None =>
      let! s := act (new segs_f empty_segment) in
      let! ok := act (cas_idx segments_f seg None (Some s)) in
      if negb ok then
        let! s := act (load_idx segments seg) in
        match s with Some s => Ret (s, j) | None => panic end
      else Ret (s, j)
  end.

Definition load_bucket (p : loc * nat) : prog mem (option loc) :=
  act (load_at segs p.1 (f_get (slot_f p.2))).

Definition nodeLess (n : option loc) (soKey : Z) (key : K) : prog mem bool :=
  let! n := act (load_ptr nodes n (λ n, (so_soKey n, so_key n))) in
  Ret (if negb (bool_decide (n.1 = soKey)) then (n.1 <? soKey)%Z else less n.2 key).

Definition nodeEqual (n : option loc) (soKey : Z) (key : K) (dummy : bool) : prog mem bool :=
  match n with
  | None => Ret false
  | Some n =>
      let! n := act (load_at nodes n (λ n, (so_soKey n, so_key n, so_dummy n))) in
      Ret (if negb (bool_decide (n.1.1 = soKey)) then false
           else if dummy || n.2 then eqb n.2 dummy
           else negb (less n.1.2 key) && negb (less key n.1.2))
  end.

(** [for marked { ... }]: unlink [curr] and the marked nodes behind it; nothing
    when an unlinking failed. *)
Definition unlink (pred curr succ : option loc) (marked : bool)
    : prog mem (option (option loc * option loc)) :=
  loop (λ '(curr, succ, marked),
    if marked : bool then
      let! ok := compareAndSet pred curr succ false false in
      if negb ok then break None
      else
        match succ with
        | None => break (Some (None, None))
        | Some _ =>
            let! sm := get succ in
            continue (succ, sm.1, sm.2)
        end
    else break (Some (curr, succ))) (curr, succ, marked).

(** The inner loop of [search]; nothing when it has to be retried. *)
Definition traverse (target pred curr : option loc)
    : prog mem (option (option loc * option loc)) :=
  loop (λ '(pred, curr),
    match curr with
    | None => break (Some (pred, None))
    | Some _ =>
        let! sm := get curr in
        let! un := unlink pred curr sm.1 sm.2 in
        match un with
        | None => break None
        | Some (None, _) => break (Some (pred, None))
        | Some (Some _ as curr, succ) =>
            let! tg := act (load_ptr nodes target (λ n, (so_soKey n, so_key n))) in
            let! lt := nodeLess curr tg.1 tg.2 in
            if lt : bool then continue (curr, succ) else break (Some (pred, curr))
        end
    end) (pred, curr).

Definition search (start target : option loc) : prog mem (option loc * option loc) :=
  loop (λ _ : unit,
    let! curr := reference start in
    let! found := traverse target start curr in
    match found with
    | None => continue tt
    | Some pc => break pc
    end) tt.

Definition listInsert (start : option loc) (n : loc) : prog mem (option loc * bool) :=
  loop (λ _ : unit,
    let! pc := search start (Some n) in
    let! me := act (load_at nodes n (λ n, (so_soKey n, so_key n, so_dummy n))) in
    let! eq := nodeEqual pc.2 me.1.1 me.1.2 me.2 in
    if eq : bool then break (pc.2, false)
    else
      set n pc.2 false ;;;
      let! ok := compareAndSet pc.1 pc.2 (Some n) false false in
      if ok : bool then break (Some n, true) else continue tt) tt.

(** Each level of the recursion clears a bit of [b], so [fuel] is enough when it
    exceeds the number of bits. *)
Fixpoint initBucket (fuel : nat) (b : Z) : prog mem (option loc) :=
  match fuel with
  | O => panic
  | S fuel =>
      let! ptr := bucketPtr b in
      let! n := load_bucket ptr in
      match n with
      | Some _ => Ret n
      | None =>
          let! h := act (load head) in
          let! start :=
            if negb (bool_decide (b = 0%Z)) then
              match parentBucket b with Some p => initBucket fuel p | None => panic end
            else Ret (Some h) in
          let! dummy := act (new nodes_f (SoNode (soDummy b) zeroK None true None)) in
          let! gi := listInsert start dummy in
          act (cas_at segs_f ptr.1 (slot_f ptr.2) None gi.1) ;;;
          load_bucket ptr
      end
  end.

Definition bucket (hash : Z) : prog mem (option loc) :=
  let! size := act (load size) in
  if bool_decide (size = 0%Z) then panic
  else
    let b := (hash mod size)%Z in
    let! ptr := bucketPtr b in
    let! n := load_bucket ptr in
    match n with
    | None => initBucket 64 b
    | Some _ => Ret n
    end.

Definition Set_ (k : K) (v : V) : prog mem (lmap_resp K V) :=
  let hash := u32 (hash k) in
  let! n := act (new nodes_f (SoNode (soRegular hash) k None false None)) in
  act (store_at nodes_f n val_f (Some v)) ;;;
  let! b := bucket hash in
  let! gi := listInsert b n in
  if negb gi.2 then
    act (match gi.1 with
         | Some got => store_at nodes_f got val_f (Some v)
         | None => λ _, None
         end) ;;;
    Ret MRDone
  else
    let! c := act (add_u64 count_f 1) in
    let! csize := act (load size) in
    if bool_decide (u64 (csize * soLoadFactor) < c)%Z && bool_decide (csize < soMaxBuckets)%Z
    then act (cas size_f csize (u64 (csize * 2))) ;;; Ret MRDone
    else Ret MRDone.

(** [*curr.val.Load()] *)
Definition load_val (n : option loc) : prog mem V :=
  let! v := act (load_ptr nodes n so_val) in
  match v with
  | Some v => Ret v
  | None => panic
  end.

Definition Get (k : K) : prog mem (V * bool) :=
  let hash := u32 (hash k) in
  let soKey := soRegular hash in
  let! curr := bucket hash in
  loop (λ curr : option loc,
    match curr with
    | None => break (zeroV, false)
    | Some _ =>
        let! sm := get curr in
        if sm.2 : bool then continue (sm.1)
        else
          let! n := act (load_ptr nodes curr (λ n, (so_soKey n, so_key n, so_dummy n))) in
          if bool_decide (soKey < n.1.1)%Z then break (zeroV, false)
          else if negb n.2 && bool_decide (n.1.1 = soKey) && negb (less n.1.2 k) &&
            negb (less k n.1.2)
          then let! v := load_val curr in break (v, true)
          else continue (sm.1)
    end) curr.

Definition Contains (k : K) : prog mem bool :=
  let! r := Get k in
  Ret r.2.

Definition Del (k : K) : prog mem (V * bool) :=
  let hash := u32 (hash k) in
  let! target := act (new nodes_f (SoNode (soRegular hash) k None false None)) in
  let! start := bucket hash in
  loop (λ _ : unit,
    let! pc := search start (Some target) in
    let! soKey := act (load_at nodes target so_soKey) in
    let! eq := nodeEqual pc.2 soKey k false in
    if negb eq then break (zeroV, false)
    else
      let! sm := get pc.2 in
      if sm.2 : bool then continue tt
      else
        let! ok := compareAndSet pc.2 sm.1 sm.1 false true in
        if negb ok then continue tt
        else
          let! value := load_val pc.2 in
          compareAndSet pc.1 pc.2 sm.1 false false ;;;
          act (add_u64 count_f (two64 - 1)) ;;;
          break (value, true)) tt.

(** [int(h.count.Load())] *)
Definition Len : prog mem Z :=
  let! n := act (load count) in
  Ret (i64 n).
End code.

(** ** An instance of the lists of ListShape.v *)

Section shape.
Context {K V : Type}.
Abbreviation mem := (mem (K:=K) (V:=V)).

(** The table around the list. *)
Record table := Table {
  tb_segs : list bucketSegment;
  tb_segments : list (option loc);
  tb_size : Z
}.

(** The signature of a node is its [soKey], its key and whether it is a dummy. *)
#[export] Instance so_shape : Shape mem (soNode (K:=K) (V:=V)) (Z * K * bool) V table.
Proof.
  refine {| sh_nodes := nodes_f; sh_marks := marks_f; sh_heads m := [head m];
    sh_rest m := Table (segs m) (segments m) (size m);
    sh_sig n := (so_soKey n, so_key n, so_dummy n); sh_val := val_f; sh_next := next_f;
    sh_nil := Some (ListMarkable None false) |}; done.
Defined.
End shape.

(** Bucket numbers, as natural numbers where they are counted. *)
Definition max_buckets : nat := Z.to_nat soMaxBuckets.
Opaque max_buckets.

Lemma max_buckets_lt (b : Z) : (0 ≤ b)%Z → Z.to_nat b < max_buckets ↔ (b < 65536)%Z.
Proof.
  intros Hb. Transparent max_buckets. unfold max_buckets. Opaque max_buckets.
  change soMaxBuckets with 65536%Z. lia.
Qed.

Section order.
Context {K : Type} (zeroK : K) (less : Less K) `{!WeakOrder less} (hash : K → Z).
(** Keys that [less] does not tell apart have the same hash. *)
Context (Hhash : ∀ k1 k2, same_key less k1 k2 = true → hash k1 = hash k2).
Abbreviation sig := (Z * K * bool)%type.
Implicit Types s : sig.

Definition dummy_sig (b : Z) : sig := (soDummy b, zeroK, true).
Definition hash_of (k : K) : Z := u32 (hash k).

Definition so_less : Less sig := λ s s',
  (s.1.1 <? s'.1.1)%Z || bool_decide (s.1.1 = s'.1.1) && less s.1.2 s'.1.2.
Definition so_ok s : Prop :=
  if s.2 then ∃ b, (0 ≤ b < 65536)%Z ∧ s = dummy_sig b else s.1.1 = soRegular (hash_of s.1.2).

Lemma so_less_spec s s' : so_less s s' = true ↔
  (s.1.1 < s'.1.1)%Z ∨ s.1.1 = s'.1.1 ∧ less s.1.2 s'.1.2 = true.
Proof.
  unfold so_less. by rewrite orb_true_iff, andb_true_iff, bool_decide_eq_true, Z.ltb_lt.
Qed.

Lemma so_same_spec s s' : same_key so_less s s' = true ↔
  s.1.1 = s'.1.1 ∧ same_key less s.1.2 s'.1.2 = true.
Proof.
  rewrite !same_key_spec, <-!not_true_iff_false, !so_less_spec, !not_true_iff_false.
  destruct (less s.1.2 s'.1.2), (less s'.1.2 s.1.2); split; intros H; split_and!;
    intuition (lia || congruence).
Qed.

Lemma so_less_weak : WeakOrder so_less.
Proof using WeakOrder0.
  split.
  - intros a. apply not_true_iff_false. rewrite so_less_spec, less_irrefl. intros [?|[_ ?]]; [lia|done].
  - intros a b c. rewrite !so_less_spec. intros [?|[? H1]] [?|[? H2]]; try (left; lia).
    right. split; [congruence|]. by eapply less_trans.
  - intros a b c. rewrite !so_less_spec. intros [?|[Ha H]].
    + destruct (decide (a.1.1 < b.1.1)%Z); [by left; left|right; left; lia].
    + destruct (Z.lt_trichotomy a.1.1 b.1.1) as [?|[?|?]];
        [left; by left| |right; left; lia].
      destruct (less_split a.1.2 b.1.2 c.1.2 H); [left|right]; right; (split; [congruence|done]).
Qed.

Lemma hash_of_range k : (0 ≤ hash_of k < 2 ^ 32)%Z.
Proof. apply Z.mod_pos_bound. lia. Qed.

(** Sentinels and keys never share a place. *)
Lemma so_ok_dummy s s' : so_ok s → so_ok s' → s.1.1 = s'.1.1 → s.2 = s'.2.
Proof.
  unfold so_ok. destruct s as [[z k] []], s' as [[z' k'] []]; simpl; try done.
  - intros (b & Hb & [= -> ->]) -> E. pose proof (soDummy_even b ltac:(lia)) as H1.
    rewrite E, soRegular_odd in H1; [done|apply hash_of_range].
  - intros -> (b & Hb & [= -> ->]) E. pose proof (soDummy_even b ltac:(lia)) as H1.
    rewrite <-E, soRegular_odd in H1; [done|apply hash_of_range].
Qed.

Definition so_order : NodeOrder less sig.
Proof using zeroK Hhash WeakOrder0 hash.
  refine {| node_less := so_less; key_of s := if s.2 then None else Some s.1.2;
    sig_for k := (soRegular (hash_of k), k, false); node_ok := so_ok; bounded _ := False |};
    try done.
  - exact so_less_weak.
  - intros [[z k1] []] [[z' k2] []] ? ?; unfold so_ok; simpl; try done.
    intros -> -> [= ->] [= ->]. apply eq_true_iff_eq. rewrite so_same_spec. simpl.
    split; [by intros [_ ?]|]. intros Hk. split; [|done]. unfold hash_of. by rewrite (Hhash _ _ Hk).
  - intros s s' Hs Hs' [E _]%so_same_spec. rewrite (so_ok_dummy s s' Hs Hs' E).
    destruct s'.2; [done|]. by eexists.
Defined.

(** All sentinels but that of bucket 0 are added later.  An operation needs one
    traversal, and two for each of the 16 levels of [initBucket]. *)
Definition so_capacity : Capacity sig :=
  {| nbase := max_buckets; nblanks := max_buckets; blank b := Some (dummy_sig (Z.of_nat b));
     nrounds := 40 |}.

(** Each pointer of bucket [b] leads to the sentinel of [b]; a segment that is
    still private is empty, and that of bucket 0 is there. *)
Record table_ok (T : table) (free : gmap loc nat) (P : loc → nat → sig → Prop) : Prop := {
  tb_width : length (tb_segments T) = Z.to_nat soSegments;
  tb_segment a (sg : bucketSegment) : tb_segs T !! a = Some sg → length sg = Z.to_nat soSegmentSize;
  tb_used j a : tb_segments T !! j = Some (Some a) →
    is_Some (tb_segs T !! a) ∧ free !! a = None;
  tb_inj j j' a : tb_segments T !! j = Some (Some a) → tb_segments T !! j' = Some (Some a) → j = j';
  tb_free a u : free !! a = Some u → tb_segs T !! a = Some empty_segment;
  tb_bucket j a (sg : bucketSegment) i x : tb_segments T !! j = Some (Some a) →
    tb_segs T !! a = Some sg → sg !! i = Some (Some x) →
    P x 0 (dummy_sig (Z.of_nat j * soSegmentSize + Z.of_nat i));
  tb_first : ∃ a (sg : bucketSegment) x, tb_segments T !! 0 = Some (Some a) ∧
    tb_segs T !! a = Some sg ∧ sg !! 0 = Some (Some x);
  tb_pow2 : ∃ k : nat, k ≤ 16 ∧ tb_size T = (2 ^ Z.of_nat k)%Z
}.

(** Pointers are set once. *)
Definition table_le (T T' : table) : Prop :=
  (∀ j a, tb_segments T !! j = Some (Some a) → tb_segments T' !! j = Some (Some a)) ∧
  ∀ a (sg : bucketSegment) i x, tb_segs T !! a = Some sg → sg !! i = Some (Some x) →
    ∃ sg' : bucketSegment, tb_segs T' !! a = Some sg' ∧ sg' !! i = Some (Some x).

#[export] Instance table_le_order : PreOrder table_le.
Proof.
  split.
  - intros T. split; [done|]. intros. by eexists.
  - intros T1 T2 T3 [H1 H2] [H3 H4]. split; [auto|]. intros a sg i x Hs Hx.
    destruct (H2 _ _ _ _ Hs Hx) as (s' & ? & ?). by eapply H4.
Qed.

Definition so_rest : Rest sig table.
Proof using zeroK.
  refine {| rest_ok := table_ok; rest_le := table_le |}.
  intros T free P P' HP []. split; eauto.
Defined.
End order.

(** The code is that of ListCommon.v. *)
Section common.
Context {K V : Type} (less : Less K).
Abbreviation mem := (mem (K:=K) (V:=V)).

Lemma so_get_eq n : get n = Common.get n :> prog mem _.
Proof. apply bind_ext. by intros []. Qed.

Lemma reference_eq n : reference n = Common.getReference n :> prog mem _.
Proof. apply bind_ext. by intros []. Qed.

Lemma so_compareAndSet_eq n e r em nm :
  compareAndSet n e r em nm = Common.compareAndSet n e r em nm :> prog mem _.
Proof. apply bind_ext. by intros []. Qed.

Lemma so_unlink_eq pred curr succ marked :
  unlink pred curr succ marked = Common.unlink pred curr succ marked :> prog mem _.
Proof.
  unfold unlink, Common.unlink. apply loop_ext.
  intros [[c s] [|]]; [|done]. rewrite so_compareAndSet_eq. apply bind_ext. intros [|]; [|done].
  cbn beta iota delta [negb]. destruct s; [|done]. by rewrite so_get_eq.
Qed.

(** The test of [search] for the nodes to walk past. *)
Definition passed (target n : option loc) : prog mem bool :=
  let! tg := act (load_ptr nodes target (λ n, (so_soKey n, so_key n))) in
  nodeLess less n tg.1 tg.2.

Lemma so_search_eq (start : loc) target :
  search less (Some start) target =
    Common.search (Ret start) (passed target) :> prog mem _.
Proof.
  unfold search, Common.search. apply loop_ext. intros _. cbn [bind].
  rewrite reference_eq. apply bind_ext. intros curr.
  f_equal. unfold traverse, Common.traverse. apply loop_ext.
  intros [p [c|]]; [|done]. cbn beta iota delta [Common.at_end sh_nil so_shape].
  rewrite so_get_eq. apply bind_ext. intros sm. rewrite so_unlink_eq. apply bind_ext.
  intros [[[c'|] s]|]; [|done..]. unfold passed. by rewrite bind_bind.
Qed.
End common.
End SplitMap.
