(* ===== verification/SplitTable.v ===== *)
(** The bucket table of [lf.SplitHashMap]: its accesses are verified. *)

From S2P Require Export ListOps SplitCode.
Export SplitMap.
Local Open Scope prog_scope.

(** ** Changes of the table *)

Section table.
Context {K : Type} (zeroK : K).
Abbreviation sig := (Z * K * bool)%type.
Implicit Types (T : table) (free : gmap loc nat) (P : loc → nat → sig → Prop) (sg : bucketSegment).

Lemma empty_segment_none i (x : loc) : empty_segment !! i ≠ Some (Some x).
Proof. intros H%lookup_replicate. by destruct H. Qed.

Lemma table_new_segment T free P t :
  table_ok zeroK T free P →
  let T' := Table (tb_segs T ++ [empty_segment]) (tb_segments T) (tb_size T) in
  table_ok zeroK T' (<[length (tb_segs T) := t]> free) P ∧ table_le T T'.
Proof.
  intros [Hw Hs Hu Hi Hf Hb (a0 & sg0 & x0 & ? & Hsg0 & ?) Hp]. cbn zeta.
  assert (∀ a sg, tb_segs T !! a = Some sg → (tb_segs T ++ [empty_segment]) !! a = Some sg) as Hkeep.
  { intros a sg. apply lookup_app_l_Some. }
  split; [split|split]; simpl; try done.
  - intros a sg. rewrite lookup_snoc_Some. intros [[_ ?]|[_ <-]]; [by eapply Hs|apply length_replicate].
  - intros j a Hj. destruct (Hu j a Hj) as [[sg Ha] Hfr]. split; [exists sg; by apply Hkeep|].
    rewrite lookup_insert_ne; [done|]. apply lookup_lt_Some in Ha. lia.
  - intros a u [[<- _]|[_ Ha]]%lookup_insert_Some; [by apply list_lookup_middle|by eapply Hkeep, Hf].
  - intros j a sg i x Hj. rewrite lookup_snoc_Some. intros [[_ Ha]|[-> _]] Hx; [by eapply Hb|].
    destruct (Hu j _ Hj) as [[? ?%lookup_lt_Some] _]. lia.
  - exists a0, sg0, x0. split; [done|]. split; [by apply Hkeep|done].
  - intros a sg i x Ha Hx. exists sg. split; [by apply Hkeep|done].
Qed.

(** A private segment is installed. *)
Lemma table_publish T free P (j : nat) a t :
  table_ok zeroK T free P → tb_segments T !! j = Some None → free !! a = Some t →
  let T' := Table (tb_segs T) (<[j := Some a]> (tb_segments T)) (tb_size T) in
  table_ok zeroK T' (delete a free) P ∧ table_le T T'.
Proof.
  intros [Hw Hs Hu Hi Hf Hb (a0 & sg0 & x0 & H0 & ? & ?) Hp] Hj Ha. cbn zeta.
  pose proof (lookup_lt_Some _ _ _ Hj) as Hlt.
  assert (∀ j', tb_segments T !! j' = Some (Some a) → False) as Hfresh.
  { intros j' Hj'. destruct (Hu _ _ Hj'). congruence. }
  assert (∀ j' a', tb_segments T !! j' = Some (Some a') →
    <[j := Some a]> (tb_segments T) !! j' = Some (Some a')) as Hkeep.
  { intros j' a' Hj'. rewrite list_lookup_insert_ne; [done|congruence]. }
  assert (∀ j' a', <[j := Some a]> (tb_segments T) !! j' = Some (Some a') →
    j' = j ∧ a' = a ∨ tb_segments T !! j' = Some (Some a') ∧ a' ≠ a) as Hcase.
  { intros j' a' [(-> & [= <-] & _)|[_ Hj']]%list_lookup_insert_Some; [by left|right].
    split; [done|]. intros ->. by eapply Hfresh. }
  split; [split|split]; simpl; try done.
  - by rewrite length_insert.
  - intros j' a' [[-> ->]|[Hj' ?]]%Hcase.
    + split; [by eexists; eapply Hf|apply lookup_delete_eq].
    + rewrite lookup_delete_ne by done. by eapply Hu.
  - intros j1 j2 a' [[-> ->]|[Hj1 ?]]%Hcase [[-> ?]|[Hj2 ?]]%Hcase; try done. by eapply Hi.
  - intros a' u [_ Ha']%lookup_delete_Some. by eapply Hf.
  - intros j' a' sg i x [[-> ->]|[Hj' ?]]%Hcase Hsg Hx; [|by eapply Hb].
    rewrite (Hf _ _ Ha) in Hsg. injection Hsg as <-. by apply empty_segment_none in Hx.
  - exists a0, sg0, x0. split; [by apply Hkeep|done].
  - intros a' sg i x ? ?. by exists sg.
Qed.

(** The pointer of a bucket is set. *)
Lemma table_set_bucket T free P (j : nat) a sg i x :
  table_ok zeroK T free P → tb_segments T !! j = Some (Some a) → tb_segs T !! a = Some sg →
  sg !! i = Some None → P x 0 (dummy_sig zeroK (Z.of_nat j * soSegmentSize + Z.of_nat i)) →
  let T' := Table (<[a := <[i := Some x]> sg]> (tb_segs T)) (tb_segments T) (tb_size T) in
  table_ok zeroK T' free P ∧ table_le T T'.
Proof.
  intros [Hw Hs Hu Hi Hf Hb (a0 & sg0 & x0 & ? & Hsg0 & Hx0) Hp] Hj Ha Hsg HP. cbn zeta.
  set (sg' := <[i := Some x]> sg : bucketSegment).
  assert (∀ a1 sg1 i1 y, tb_segs T !! a1 = Some sg1 → sg1 !! i1 = Some (Some y) →
    ∃ sg2 : bucketSegment, <[a := sg']> (tb_segs T) !! a1 = Some sg2 ∧ sg2 !! i1 = Some (Some y)) as Hkeep.
  { intros a1 sg1 i1 y Ha1 Hy. destruct (decide (a1 = a)) as [->|].
    - exists sg'. rewrite list_lookup_insert_eq by by eapply lookup_lt_Some. split; [done|].
      unfold sg'. assert (sg1 = sg) as -> by congruence.
      rewrite (list_lookup_insert_ne sg); [done|]. intros ->. by rewrite Hsg in Hy.
    - exists sg1. by rewrite list_lookup_insert_ne. }
  split; [split|split]; simpl; try done.
  - intros a1 sg1 [(_ & <- & _)|[_ H1]]%list_lookup_insert_Some; [|by eapply Hs].
    unfold sg'. rewrite (length_insert sg). by eapply Hs.
  - intros j1 a1 Hj1. destruct (Hu _ _ Hj1) as [H1 ?]. split; [|done].
    apply lookup_lt_is_Some. rewrite length_insert. by apply lookup_lt_is_Some.
  - intros a1 u Ha1. rewrite list_lookup_insert_ne; [by eapply Hf|].
    intros ->. destruct (Hu _ _ Hj). congruence.
  - intros j1 a1 sg1 i1 y Hj1 [(-> & <- & _)|[_ H1]]%list_lookup_insert_Some Hy; [|by eapply Hb].
    rewrite (Hi _ _ _ Hj1 Hj). apply list_lookup_insert_Some in Hy as [(-> & [= <-] & _)|[_ Hy]];
      [done|by eapply Hb].
  - destruct (Hkeep _ _ _ _ Hsg0 Hx0) as (sg2 & ? & ?). by exists a0, sg2, x0.
Qed.

Lemma table_set_size T free P (k : nat) :
  table_ok zeroK T free P → k ≤ 16 →
  let T' := Table (tb_segs T) (tb_segments T) (2 ^ Z.of_nat k) in
  table_ok zeroK T' free P ∧ table_le T T'.
Proof.
  intros [] Hk. split; [split; try done; by exists k|].
  split; [done|]. intros a sg i x ? ?. by exists sg.
Qed.
End table.

(** ** The goroutines that use it *)

Section thread.
Context {K V : Type} (zeroK : K) (zeroV : V) (less : Less K) `{!WeakOrder less} (hash : K → Z).
Context (Hhash : ∀ k1 k2, same_key less k1 k2 = true → hash k1 = hash k2).
#[local] Hint Extern 0 (NodeOrder _ _) => exact (so_order zeroK less hash Hhash) : typeclass_instances.
#[local] Hint Extern 0 (Capacity _) => exact (so_capacity zeroK) : typeclass_instances.
#[local] Hint Extern 0 (Rest _ _) => exact (so_rest zeroK) : typeclass_instances.
Abbreviation Sp := (lmap_spec zeroV (same_key less) (ascending_range (V:=V) less)).
(** All keys are in one list. *)
Abbreviation one := (λ _ : K, 0).
Abbreviation mem := (mem (K:=K) (V:=V)).
Abbreviation aux := (list_aux V).
Abbreviation world := (world mem (lmap_op K V) (lmap_resp K V) aux).
Abbreviation Inv := (Inv zeroV less one 1).
Abbreviation proto := (list_proto zeroV less one 1).
Abbreviation rely := (pr_rely proto).
Abbreviation good_step := (good_step proto).
Abbreviation keeps := (keeps zeroV less one 1).
Abbreviation evolves := (evolves zeroV less one 1).
Abbreviation own_step := (own_step zeroV less one 1).
Abbreviation dummy_sig := (dummy_sig zeroK).
Abbreviation pg := (LockFreeIn allowance).
Abbreviation wp t Q := (Logic.wp Sp proto pg t Q).
Implicit Types (w : world) (t u n i j a : nat) (l x y : loc) (k : K) (v : V) (m : mem).
Implicit Types (o : lmap_op K V) (s : Z * K * bool) (sg : bucketSegment) (p : loc * nat).

(** *** Steps that keep what is known *)

(** Nothing that [t] may know is lost, except about its node [l]. *)
Definition fares t l w w' : Prop :=
  (∀ x nd, x ≠ l → private t x nd w → private t x nd w') ∧
  (∀ x b s, pub x b s w → pub x b s w') ∧ table_le (sh_rest (w_mem w)) (sh_rest (w_mem w')).

#[export] Instance fares_order t l : PreOrder (fares t l).
Proof.
  split.
  - intros w. split; [done|]. split; [done|]. reflexivity.
  - intros w1 w2 w3 (H1 & H2 & H3) (H4 & H5 & H6). split; [auto|]. split; [auto|].
    etrans; [exact H3|exact H6].
Qed.

Lemma rely_fares t l w w' : rely t w w' → fares t l w w'.
Proof.
  intros HR. split; [intros x nd _; by apply (list_private_stable _ _ _ _ HR)|].
  split; [intros x b s; by apply (pub_stable _ _ _ _ HR)|]. exact (r_rest _ _ _ _ _ HR).
Qed.

Lemma evolves_table w w' : evolves w w' → table_le (sh_rest (w_mem w)) (sh_rest (w_mem w')).
Proof.
  induction 1 as [|w1 w2 w3 [u HR] _ IH]; [reflexivity|].
  etrans; [exact (r_rest _ _ _ _ _ HR)|exact IH].
Qed.

Lemma keeps_fares t l w w' : keeps t l w w' → fares t l w w'.
Proof.
  intros Hk. split; [intros x nd Hx; by apply (private_keeps _ _ _ _ _ _ _ _ _ _ Hk)|].
  apply keeps_evolves in Hk. split; [|by apply evolves_table].
  intros x b s. by apply (pub_evolves _ _ _ _ _ _ _ _ _ Hk).
Qed.

(** The room for [r] traversals besides those that the others may cause, and [d]
    steps; after these, there is a new allowance if operations took effect. *)
Definition room (r d n L : nat) w : Prop :=
  d ≤ n ∧ L ≤ w_len w ∧ (w_len w = L → (unrest w + r) * traversal L + d ≤ n).

Lemma room_evolves r d n L w w' : evolves w w' → room r d n L w → room r d n L w'.
Proof.
  induction 1 as [|w1 w2 w3 [u HR] _ IH]; [done|]. intros (? & ? & Hn). apply IH.
  pose proof (r_len _ _ _ _ _ HR). split; [done|]. split; [lia|]. intros E.
  pose proof (unrest_stable _ _ _ _ HR ltac:(lia)). specialize (Hn ltac:(lia)). nia.
Qed.

Lemma room_spend r r' d d' n n' L w :
  room r d n L w → r' ≤ r → d' ≤ d → n + d' ≤ n' + d → room r' d' n' L w.
Proof.
  intros (? & ? & Hn) ? ? ?. split; [lia|]. split; [done|]. intros E. specialize (Hn E). nia.
Qed.

(** A traversal pays for a hundred steps. *)
Lemma room_pay r d n w : room (S r) d n (w_len w) w → room r (100 + d) n (w_len w) w.
Proof.
  intros (? & ? & Hn). specialize (Hn eq_refl).
  assert (100 ≤ traversal (w_len w)) by (unfold traversal; lia).
  split; [nia|]. split; [done|]. nia.
Qed.

Lemma wp_room t {A} (Q : budget → A → world → Prop) r d n L q w :
  room (S r) d n L w → r + 2 ≤ nrounds → d ≤ 100 →
  (∀ w' n', rely t w w' → Inv w' → room (S r) d n' (w_len w') w' →
     wp t Q (Refill n' (w_len w')) q w') →
  wp t Q (Refill n L) q w.
Proof.
  intros (? & HL & Hn) Hr Hd Hq.
  eapply (wp_start zeroV less one 1 r t Q d); [done..|intros E; specialize (Hn E); lia|].
  intros w1 n1 HR HI Hn1. apply Hq; [done..|]. split; [lia|]. split; [done|]. intros _. lia.
Qed.

(** *** The table *)

Definition slot_at (b : Z) p w : Prop :=
  segments (w_mem w) !! Z.to_nat (Z.shiftr b soSegmentShift) = Some (Some p.1) ∧
  p.2 = Z.to_nat (Z.land b (soSegmentSize - 1)).

(** The content of a slot. *)
Definition slot_is p (r : option loc) w : Prop :=
  ∃ sg, segs (w_mem w) !! p.1 = Some sg ∧ sg !! p.2 = Some r.

Lemma slot_at_fares t l b p w w' : fares t l w w' → slot_at b p w → slot_at b p w'.
Proof. intros (_ & _ & [Hs _]) [Hp ?]. split; [|done]. by apply Hs. Qed.

Lemma slot_filled_fares t l p x w w' :
  fares t l w w' → slot_is p (Some x) w → slot_is p (Some x) w'.
Proof. intros (_ & _ & [_ Hs]) (sg & ? & ?). by eapply Hs. Qed.

Lemma slot_split (b : Z) : (0 ≤ b < soMaxBuckets)%Z →
  let j := Z.to_nat (Z.shiftr b soSegmentShift) in
  let i := Z.to_nat (Z.land b (soSegmentSize - 1)) in
  Z.of_nat j = Z.shiftr b soSegmentShift ∧ j < Z.to_nat soSegments ∧
  i < Z.to_nat soSegmentSize ∧ b = (Z.of_nat j * soSegmentSize + Z.of_nat i)%Z.
Proof.
  change soMaxBuckets with 65536%Z. change soSegmentSize with 256%Z.
  change soSegments with 256%Z. change soSegmentShift with 8%Z. intros Hb.
  change (256 - 1)%Z with (Z.ones 8). rewrite Z.shiftr_div_pow2, Z.land_ones by lia.
  change (2 ^ 8)%Z with 256%Z. pose proof (Z.mod_pos_bound b 256 ltac:(lia)).
  pose proof (Z.div_mod b 256 ltac:(lia)). cbn zeta.
  assert (0 ≤ b / 256 < 256)%Z by (split; [apply Z.div_pos|apply Z.div_lt_upper_bound]; lia).
  lia.
Qed.

Lemma table_inv w : Inv w →
  table_ok zeroK (sh_rest (w_mem w)) (spare (w_aux w)) (pub_sig (w_mem w) (w_aux w)).
Proof. intros HI. exact (i_rest _ _ _ _ _ HI). Qed.

(** The slot of a bucket exists, and leads to its sentinel. *)
Lemma slot_exists b p w :
  Inv w → (0 ≤ b < soMaxBuckets)%Z → slot_at b p w → ∃ r, slot_is p r w.
Proof.
  intros HI Hb [Hp1 Hp2]. pose proof (table_inv w HI) as HT.
  destruct (tb_used _ _ _ _ HT _ _ Hp1) as [[sg Hsg] _].
  destruct (slot_split b Hb) as (_ & _ & Hi & _).
  destruct (lookup_lt_is_Some_2 sg p.2) as [r Hr].
  { rewrite (tb_segment _ _ _ _ HT _ _ Hsg), Hp2. exact Hi. }
  exists r, sg. split; [exact Hsg|exact Hr].
Qed.

Lemma slot_pub b p x w :
  Inv w → (0 ≤ b < soMaxBuckets)%Z → slot_at b p w → slot_is p (Some x) w →
  pub x 0 (dummy_sig b) w.
Proof.
  intros HI Hb [Hp1 Hp2] (sg & Hsg & Hx). pose proof (table_inv w HI) as HT.
  destruct (slot_split b Hb) as (_ & _ & _ & E). rewrite Hp2 in Hx.
  pose proof (tb_bucket _ _ _ _ HT _ _ _ _ _ Hp1 Hsg Hx) as H. by rewrite <-E in H.
Qed.

(** The slot of bucket 0 is filled from the start. *)
Lemma slot_first p w : Inv w → slot_at 0 p w → slot_is p None w → False.
Proof.
  intros HI [Hp1 Hp2] (sg & Hsg & Hnone).
  destruct (tb_first _ _ _ _ (table_inv w HI)) as (a & sg' & x & H1 & H2 & H3).
  change (segments (w_mem w) !! 0 = Some (Some a)) in H1. change (segs (w_mem w) !! a = Some sg') in H2.
  change (segments (w_mem w) !! 0 = Some (Some p.1)) in Hp1. change (p.2 = 0) in Hp2.
  rewrite Hp2 in Hnone. congruence.
Qed.

Section steps.
Context (t : nat) {A : Type} (Q : budget → A → world → Prop).

Definition moves w w' : Prop := ∀ l, keeps t l w w'.

Lemma rely_moves w w' : rely t w w' → moves w w'.
Proof. intros HR l. by apply rely_keeps. Qed.

Lemma moves_trans w1 w2 w3 : moves w1 w2 → moves w2 w3 → moves w1 w3.
Proof. intros H1 H2 l. by trans w2. Qed.

Lemma own_moves w w' : (∀ l, own_step t l w w') → moves w w'.
Proof. intros Ho l. by apply own_keeps. Qed.

(** A step that changes the table only. *)
Lemma table_step w m' (spare' : gmap loc nat) :
  Inv w → nodes m' = nodes (w_mem w) → marks m' = marks (w_mem w) → head m' = head (w_mem w) →
  (∀ u a, u ≠ t → spare (w_aux w) !! a = Some u → spare' !! a = Some u) →
  table_ok zeroK (sh_rest m') spare' (pub_sig (w_mem w) (w_aux w)) ∧
    table_le (sh_rest (w_mem w)) (sh_rest m') →
  let w' := upd Sp w m' [] (with_own (w_aux w) (own (w_aux w)) spare') in
  good_step t w w' ∧ moves w w'.
Proof.
  intros HI Hn Hm Hh Hs [Hok Hle].
  assert (∀ l, own_step t l w (upd Sp w m' [] (with_own (w_aux w) (own (w_aux w)) spare'))) as Ho.
  { intros l. apply own_step_rest; try done; simpl; [by rewrite Hm|by rewrite Hh]. }
  split; [apply (Ho 0)|by apply own_moves].
Qed.

Lemma segment_entry j w : Inv w → j < Z.to_nat soSegments →
  ∃ r, segments (w_mem w) !! j = Some r.
Proof.
  intros HI Hj. apply lookup_lt_is_Some_2.
  by rewrite (tb_width _ _ _ _ (table_inv w HI) : length (segments (w_mem w)) = _).
Qed.

Lemma wp_bucketPtr b n L q w :
  4 ≤ n → (0 ≤ b < soMaxBuckets)%Z →
  (∀ w' p, moves w w' → Inv w' → slot_at b p w' → wp t Q (Refill (n - 4) L) (q p) w') →
  wp t Q (Refill n L) (bind (bucketPtr b) q) w.
Proof.
  intros Hn Hb Hq. unfold bucketPtr. destruct (slot_split b Hb) as (Ej & Hj & _ & _).
  set (i := Z.to_nat (Z.land b (soSegmentSize - 1))).
  set (j := Z.to_nat (Z.shiftr b soSegmentShift)) in *. rewrite <-Ej.
  assert (∀ a w', moves w w' → Inv w' → segments (w_mem w') !! j = Some (Some a) →
    wp t Q (Refill (n - 4) L) (q (a, i)) w') as Hdone by (intros; by apply Hq).
  wp_pure. eapply wp_load_idx; [by apply spend; lia|]. intros w1 HR1 HI1.
  destruct (segment_entry j w1 HI1 Hj) as ([a|] & Ha); eexists; (split; [exact Ha|]).
  { apply wp_less with (n - 4); [lia|]. by apply Hdone; [apply rely_moves|..]. }
  wp_pure. eapply wp_new; [apply spend; lia|]. intros w2 HR2 HI2.
  pose proof (table_inv w2 HI2) as HT2.
  destruct (table_step w2 (f_set segs_f (segs (w_mem w2) ++ [empty_segment]) (w_mem w2))
    (<[length (segs (w_mem w2)) := t]> (spare (w_aux w2))) HI2) as [Hgood Hm2]; try done.
  { intros u a Hu Hs. rewrite lookup_insert_ne; [done|]. intros <-.
    pose proof (tb_free _ _ _ _ HT2 _ _ Hs) as Hl%lookup_lt_Some. simpl in Hl. lia. }
  { exact (table_new_segment zeroK _ _ _ t HT2). }
  eexists [], _. split; [exact Hgood|]. cbn zeta in *.
  set (s := length (f_get segs_f (w_mem w2))). set (w3 := upd _ _ _ _ _) in *.
  assert (spare (w_aux w3) !! s = Some t) as Hs3 by by simpl; rewrite lookup_insert_eq.
  assert (moves w w3) as Hm3.
  { eapply moves_trans; [|exact Hm2]. apply rely_moves. by trans w1. }
  clearbody s w3. eapply wp_cas_idx; [apply spend; lia|]. intros w4 HR4 HI4.
  destruct (segment_entry j w4 HI4 Hj) as (r & Hr). pose proof (r_spare _ _ _ _ _ HR4 _ Hs3) as Hs4.
  pose proof (moves_trans _ _ _ Hm3 (rely_moves _ _ HR4)) as Hm4.
  split; [by eapply lookup_lt_Some|]. split.
  - intros Hnone.
    destruct (table_step w4 (f_set segments_f (<[j := Some s]> (segments (w_mem w4))) (w_mem w4))
      (delete s (spare (w_aux w4))) HI4) as [Hgood4 Hm5]; try done.
    { intros u a Hu Ha4. rewrite lookup_delete_ne; [done|]. congruence. }
    { exact (table_publish zeroK _ _ _ j s t (table_inv w4 HI4) Hnone Hs4). }
    eexists [], _. split; [exact Hgood4|]. cbn beta iota delta [negb].
    replace (n - 1 - 1 - 1) with (n - 3) by lia. apply wp_less with (n - 4); [lia|].
    apply Hdone; [by eapply moves_trans|apply Hgood4|].
    simpl. apply list_lookup_insert_eq. by eapply lookup_lt_Some.
  - intros Hnn. cbn beta iota delta [negb]. wp_pure. eapply wp_load_idx; [apply spend; lia|].
    intros w5 HR5 HI5. destruct r as [a|]; [|by destruct Hnn].
    destruct (r_rest _ _ _ _ _ HR5) as [Hle _]. pose proof (Hle _ _ Hr) as Ha5.
    exists (Some a). split; [exact Ha5|]. replace (n - 1 - 1 - 1 - 1) with (n - 4) by lia.
    apply Hdone; [|done..]. eapply moves_trans; [exact Hm4|]. by apply rely_moves.
Qed.

(** [ptr.Load()] *)
Lemma wp_load_bucket b p n L q w :
  1 ≤ n → (0 ≤ b < soMaxBuckets)%Z → slot_at b p w →
  (∀ w' r, rely t w w' → Inv w' → slot_is p r w' → wp t Q (Refill (n - 1) L) (q r) w') →
  wp t Q (Refill n L) (bind (load_bucket p) q) w.
Proof.
  intros Hn Hb Hp Hq. unfold load_bucket. wp_pure. eapply wp_load_at; [by apply spend|].
  intros w1 HR1 HI1.
  destruct (slot_exists b p w1 HI1 Hb) as (r & sg & Hsg & Hr).
  { eapply (slot_at_fares t 0); [|exact Hp]. by apply rely_fares. }
  exists sg. split; [exact Hsg|]. simpl. rewrite Hr. apply Hq; [done..|]. by exists sg.
Qed.

(** [ptr.CompareAndSwap(nil, x)]: the slot is filled afterwards. *)
Lemma wp_cas_bucket b p x n L q w :
  1 ≤ n → (0 ≤ b < soMaxBuckets)%Z → slot_at b p w → pub x 0 (dummy_sig b) w →
  (∀ w' r y, moves w w' → Inv w' → slot_is p (Some y) w' →
     wp t Q (Refill (n - 1) L) (q r) w') →
  wp t Q (Refill n L) (bind (act (cas_at segs_f p.1 (slot_f p.2) None (Some x))) q) w.
Proof.
  intros Hn Hb Hp Hx Hq. wp_pure. eapply wp_cas_at; [by apply spend|]. intros w1 HR1 HI1.
  pose proof (slot_at_fares _ 0 _ _ _ _ (rely_fares t 0 _ _ HR1) Hp) as Hp1.
  destruct (slot_exists b p w1 HI1 Hb Hp1) as (r & sg & Hsg & Hr).
  exists sg. split; [exact Hsg|]. cbn [f_get slot_f]. rewrite Hr. split.
  - intros [= ->]. destruct Hp1 as [Hj Hi]. destruct (slot_split b Hb) as (_ & _ & _ & E).
    rewrite <-Hi in E.
    destruct (table_step w1 (f_set segs_f (<[p.1 := <[p.2 := Some x]> sg]> (segs (w_mem w1)))
      (w_mem w1)) (spare (w_aux w1)) HI1) as [Hgood Hm]; try done.
    { refine (table_set_bucket zeroK _ _ _ _ _ _ _ x (table_inv w1 HI1) Hj Hsg Hr _).
      rewrite <-E. by apply (pub_stable _ _ _ _ HR1). }
    eexists [], _. split; [exact Hgood|]. apply (Hq _ _ x); [|apply Hgood|].
    + eapply moves_trans; [by apply rely_moves|exact Hm].
    + exists (<[p.2 := Some x]> sg). split.
      * simpl. apply list_lookup_insert_eq. by eapply lookup_lt_Some.
      * apply (list_lookup_insert_eq sg). by eapply lookup_lt_Some.
  - intros Hne. destruct r as [y|]; [|done]. apply (Hq _ _ y); [by apply rely_moves|done|].
    by exists sg.
Qed.

(** *** The numbers *)

Lemma table_size w : Inv w → ∃ k : nat, k ≤ 16 ∧ size (w_mem w) = (2 ^ Z.of_nat k)%Z.
Proof. intros HI. exact (tb_pow2 _ _ _ _ (table_inv w HI)). Qed.

(** A change of the number of elements. *)
Lemma wp_count d n L q w :
  1 ≤ n → (∀ w' z, moves w w' → Inv w' → wp t Q (Refill (n - 1) L) (q z) w') →
  wp t Q (Refill n L) (bind (act (add_u64 count_f d)) q) w.
Proof.
  intros Hn Hq. wp_pure. eapply wp_add_u64; [by apply spend|]. intros w1 HR1 HI1.
  destruct (table_step w1 (f_set count_f (u64 (count (w_mem w1) + d)) (w_mem w1))
    (spare (w_aux w1)) HI1) as [Hgood Hm]; try done; [split; [by apply table_inv|reflexivity]|].
  eexists [], _. split; [exact Hgood|]. apply Hq; [|apply Hgood].
  eapply moves_trans; [by apply rely_moves|exact Hm].
Qed.

(** The table grows to twice its size, which is still a power of two. *)
Lemma wp_grow csize (k : nat) n L q w :
  1 ≤ n → csize = (2 ^ Z.of_nat k)%Z → (csize < soMaxBuckets)%Z →
  (∀ w' r, moves w w' → Inv w' → wp t Q (Refill (n - 1) L) (q r) w') →
  wp t Q (Refill n L) (bind (act (cas size_f csize (u64 (csize * 2)))) q) w.
Proof.
  intros Hn -> Hlt Hq. wp_pure. eapply wp_cas; [by apply spend|..]; intros w1 HR1 HI1 E.
  2:{ apply Hq; [by apply rely_moves|done]. }
  assert (k < 16) as Hk.
  { change soMaxBuckets with (2 ^ 16)%Z in Hlt. apply Z.pow_lt_mono_r_iff in Hlt; lia. }
  replace (u64 (2 ^ Z.of_nat k * 2)) with (2 ^ Z.of_nat (S k))%Z.
  2:{ rewrite Nat2Z.inj_succ, Z.pow_succ_r, Z.mul_comm, u64_small; [done| |lia].
      assert (2 ^ Z.of_nat k < 2 ^ 16)%Z by (by apply Z.pow_lt_mono_r_iff; lia).
      pose proof (Z.pow_nonneg 2 (Z.of_nat k)). unfold two64. lia. }
  destruct (table_step w1 (f_set size_f (2 ^ Z.of_nat (S k))%Z (w_mem w1)) (spare (w_aux w1)) HI1)
    as [Hgood Hm]; try done.
  { apply (table_set_size zeroK _ _ _ (S k) (table_inv w1 HI1)). lia. }
  eexists [], _. split; [exact Hgood|]. apply Hq; [|apply Hgood].
  eapply moves_trans; [by apply rely_moves|exact Hm].
Qed.
End steps.

Lemma moves_fares t l w w' : moves t w w' → fares t l w w'.
Proof. intros Hm. by apply keeps_fares. Qed.

Lemma moves_ready t o w w' : moves t w w' → ready t o w → ready t o w'.
Proof. intros Hm. exact (ready_keeps _ _ _ _ _ _ _ _ _ (Hm 0)). Qed.

Lemma moves_room t r d n L w w' : moves t w w' → room r d n L w → room r d n L w'.
Proof. intros Hm. apply room_evolves. exact (keeps_evolves _ _ _ _ _ _ _ _ (Hm 0)). Qed.
End thread.
