(* ===== verification/SplitInsert.v ===== *)
(** The list of [lf.SplitHashMap]: insertion, and the way to a bucket. *)

From S2P Require Export SplitTable.
Local Open Scope prog_scope.

Section insertion.
Context {K V : Type} (zeroK : K) (zeroV : V) (less : Less K) `{!WeakOrder less} (hash : K → Z).
Context (Hhash : ∀ k1 k2, same_key less k1 k2 = true → hash k1 = hash k2).
#[local] Hint Extern 0 (NodeOrder _ _) => exact (so_order zeroK less hash Hhash) : typeclass_instances.
#[local] Hint Extern 0 (Capacity _) => exact (so_capacity zeroK) : typeclass_instances.
#[local] Hint Extern 0 (Rest _ _) => exact (so_rest zeroK) : typeclass_instances.
Abbreviation Sp := (lmap_spec zeroV (same_key less) (ascending_range (V:=V) less)).
Abbreviation one := (λ _ : K, 0).
Abbreviation mem := (mem (K:=K) (V:=V)).
Abbreviation aux := (list_aux V).
Abbreviation world := (world mem (lmap_op K V) (lmap_resp K V) aux).
Abbreviation Inv := (Inv zeroV less one 1).
Abbreviation proto := (list_proto zeroV less one 1).
Abbreviation rely := (pr_rely proto).
Abbreviation good_step := (good_step proto).
Abbreviation keeps := (keeps zeroV less one 1).
Abbreviation missing := (missing zeroV less).
Abbreviation with_commit := (with_commit zeroV less).
Abbreviation dummy_sig := (dummy_sig zeroK).
Abbreviation room := (room zeroK).
Abbreviation pg := (LockFreeIn allowance).
Abbreviation wp t Q := (Logic.wp Sp proto pg t Q).
Implicit Types (w : world) (t u n L : nat) (l x y p : loc) (k : K) (v : V) (m : mem).
Implicit Types (o : lmap_op K V) (s tg : Z * K * bool).

Lemma one_same k1 k2 : same_key less k1 k2 = true → one k1 = one k2.
Proof. done. Qed.
Lemma one_range k : one k < 1.
Proof. apply Nat.lt_0_1. Qed.
Lemma one_sig tg k : key_of less tg = Some k → one k = 0.
Proof. done. Qed.
Lemma so_ends tg : (sh_nil (Shape:=so_shape (K:=K) (V:=V)) : option listMarkable) = None → bounded less tg.
Proof. done. Qed.

(** ** The code meets the generic proofs *)

Section thread.
Context (t : nat) {A : Type} (Q : budget → A → world → Prop).

Lemma wp_soNode {B} x b s n L (f : soNode → B) q w :
  1 ≤ n → pub x b s w →
  (∀ w' nd, rely t w w' → Inv w' → nodes (w_mem w') !! x = Some nd →
     (so_soKey nd, so_key nd, so_dummy nd) = s → wp t Q (Refill (n - 1) L) (q (f nd)) w') →
  wp t Q (Refill n L) (Act (load_at nodes x f) q) w.
Proof. exact (wp_node zeroV less one 1 t Q x b s n L f q w). Qed.

Lemma wp_own_node {B} l nd n L (f : soNode → B) q w :
  1 ≤ n → private t l nd w → wp t Q (Refill (n - 1) L) (q (f nd)) w →
  wp t Q (Refill n L) (Act (load_at nodes l f) q) w.
Proof.
  intros Hn Hl Hq. eapply wp_load_at; [by apply spend|]. intros w1 HR1 HI1.
  exists nd. split; [|by eapply wp_stable].
  exact (proj2 (list_private_stable _ _ _ _ HR1 _ _ Hl)).
Qed.

Lemma wp_passed l nd tg x b s n L q w :
  2 ≤ n → private t l nd w → sh_sig nd = tg → pub x b s w →
  wp t Q (Refill (n - 2) L) (q (node_less less s tg)) w →
  wp t Q (Refill n L) (bind (passed less (Some l) (Some x)) q) w.
Proof.
  intros Hn Hl <- Hx Hq. unfold passed, nodeLess. wp_pure. eapply wp_own_node; [lia|exact Hl|].
  wp_pure. eapply wp_soNode; [lia|exact Hx|]. intros w1 nx HR1 HI1 _ <-.
  cbn [bind fst snd]. replace (n - 1 - 1) with (n - 2) by lia.
  match goal with |- context [q ?b] =>
    replace b with (node_less less (so_soKey nx, so_key nx, so_dummy nx) (sh_sig nd))
  end; [by eapply wp_stable|].
  simpl. unfold so_less. simpl. case_bool_decide as E; simpl; [|by rewrite orb_false_r].
  by rewrite E, Z.ltb_irrefl.
Qed.

Lemma wp_nodeEqual x b s tg n L q w :
  1 ≤ n → pub x b s w → node_ok less tg →
  wp t Q (Refill (n - 1) L) (q (holds less s tg)) w →
  wp t Q (Refill n L) (bind (nodeEqual less (Some x) tg.1.1 tg.1.2 tg.2) q) w.
Proof.
  intros Hn Hx Htg Hq. unfold nodeEqual. wp_pure. eapply wp_soNode; [done|exact Hx|].
  intros w1 nx HR1 HI1 _ Hs. cbn [bind fst snd].
  pose proof (pub_kind _ _ _ _ _ _ _ _ HI1 (pub_stable _ _ _ _ HR1 _ _ _ Hx)) as Hok.
  match goal with |- context [q ?b] => replace b with (holds less s tg) end;
    [by eapply wp_stable|].
  apply eq_true_iff_eq. unfold holds. change (node_less less) with (so_less less).
  rewrite so_same_spec, <-Hs. simpl.
  case_bool_decide as E; simpl; [|by split; [intros [? _]|]].
  assert (so_dummy nx = tg.2) as Hd.
  { pose proof (so_ok_dummy zeroK hash s tg Hok Htg) as Hd. rewrite <-Hs in Hd. by apply Hd. }
  rewrite Hd, orb_diag. destruct tg.2 eqn:Etg.
  - split; [done|]. intros _. split; [done|]. rewrite <-Hs in Hok.
    change (so_ok zeroK hash (so_soKey nx, so_key nx, so_dummy nx)) in Hok.
    change (so_ok zeroK hash tg) in Htg. unfold so_ok in Hok, Htg. simpl in Hok.
    rewrite Hd in Hok. rewrite Etg in Htg. destruct Hok as (? & _ & [= _ ->]), Htg as (? & _ & ->).
    apply same_key_refl. apply _.
  - unfold same_key. by split; [intros [_ ?]|split].
Qed.

Lemma wp_so_val x b s n L q w :
  1 ≤ n → pub x b s w → is_Some (key_of less s) →
  (∀ w' v, rely t w w' → Inv w' → val_of (w_mem w') x = Some v →
     wp t Q (Refill (n - 1) L) (q v) w') →
  wp t Q (Refill n L) (bind (load_val (Some x)) q) w.
Proof.
  intros Hn Hx [k Hk] Hq. unfold load_val. wp_pure. eapply wp_soNode; [done|exact Hx|].
  intros w1 nx HR1 HI1 Hnd Hs.
  destruct (pub_value _ _ _ _ w1 x b s k HI1) as [v Hv]; [by eapply pub_stable|done|].
  specialize (Hq w1 v HR1 HI1 Hv). change (node_at (w_mem w1) x = Some nx) in Hnd.
  unfold val_of in Hv. rewrite Hnd in Hv. simpl in Hv. by rewrite Hv.
Qed.
End thread.

(** ** [listInsert] *)

Section insert.
(** [e] traversals are set aside for later; [w0] is where the call starts. *)
Context (e : nat) (He : e + 2 ≤ nrounds) (t : nat) (o : lmap_op K V).
Context (tg : Z * K * bool) (Htg : node_ok less tg) (l : loc) (v : option V).
Context (start : loc) (ss : Z * K * bool) (w0 : world).
Context (Hstart : pub start 0 ss w0) (Hss : key_of less ss = None).
Context (Hlt : node_less less ss tg = true).
Context (P : loc → Z * K * bool → world → Prop).
Context (HP : ∀ x s w w', rely t w w' → P x s w → P x s w').
Context (Hhook : ∀ x s w, Inv w → ready t o w → pub x 0 s w →
  dead (w_aux w) !! x = None → node_less less s tg = false →
  (holds less s tg = false → missing t tg w) →
  ∃ cm, good_step t w (with_commit w cm) ∧ P x s (with_commit w cm)).
Context (HPready : ∀ x s w, P x s w → holds less s tg = false → ready t o w).

(** The node [l] is still private, and nothing else was lost. *)
Definition inserting w : Prop :=
  fares t l w0 w ∧ ∃ nd, private t l nd w ∧ sh_sig nd = tg ∧ so_val nd = v.

Lemma inserting_stable w w' : rely t w w' → inserting w → inserting w'.
Proof using Type.
  intros HR [Hf (nd & Hl & ?)]. split; [trans w; [done|by apply (rely_fares zeroK zeroV less hash Hhash)]|].
  exists nd. split; [by apply (list_private_stable _ _ _ _ HR)|done].
Qed.

(** What linking [l] needs to know of it. *)
Definition to_link (curr : option loc) w : Prop :=
  own (w_aux w) !! l = Some t ∧ sig_of (w_mem w) l = Some tg ∧
  link (w_mem w) l = Some (ListMarkable curr false) ∧ val_of (w_mem w) l = v.

Section call.
Context {A : Type} (Q : budget → A → world → Prop) (q : option loc * bool → prog mem A).
Context (Hfound : ∀ w' x s n', Inv w' → inserting w' → pub x 0 s w' → holds less s tg = true →
  P x s w' → room e 20 n' (w_len w') w' →
  wp t Q (Refill n' (w_len w')) (q (Some x, false)) w').
Context (Hlink : ∀ w' p sp (curr : option loc) (c : loc) n' L', Inv w' → inserting w' →
  ready t o w' → gap less p 0 sp curr tg w' → to_link curr w' →
  mark_at (Some c) (ListMarkable (Some l) false) w' → room e 20 n' L' w' →
  ∃ us a, let w'' := upd Sp w' (set_next p c (w_mem w')) us a in
  good_step t w' w'' ∧ wp t Q (Refill n' L') (q (Some l, true)) w'').

(** At the end of a round. *)
Definition insert_round (bu : budget) (res : unit + option loc * bool) w : Prop :=
  match res with
  | inl _ => ListSearch.over e t o inserting bu w
  | inr gi => wp t Q bu (q gi) w
  end.

Lemma insert_done gi n L w :
  wp t Q (Refill n L) (q gi) w → wp t insert_round (Refill n L) (break gi) w.
Proof using Type. intros Hq. apply wp_ret. intros w1 HR1 _. by eapply wp_stable. Qed.

(** The node [l] belongs behind [p]. *)
Lemma wp_insert_link p sp c (curr : option loc) B n w :
  Inv w → inserting w → ready t o w → spot less e 0 tg p sp c curr (w_len w) B w → B + 28 ≤ n →
  wp t insert_round (Refill n (w_len w))
    (set l curr false ;;;
     let! ok := compareAndSet (Some p) curr (Some l) false false in
     if ok : bool then break (Some l, true) else continue tt) w.
Proof using All.
  intros HI [Hf (nd & Hl & Hs & Hv)] Hr Hspot Hn.
  eapply (wp_set_private (Shape0:=so_shape) zeroV less one 1 t _ l nd curr); [lia|exact Hl|].
  intros w1 cl HI1 Hk1 Hl1 Hcl. rewrite so_compareAndSet_eq.
  pose proof (ready_keeps _ _ _ _ _ _ _ _ _ Hk1 Hr) as Hr1.
  pose proof (spot_keeps _ _ _ _ _ _ _ _ _ _ _ _ _ _ _ _ _ Hk1 Hspot) as Hspot1.
  assert (inserting w1) as HS1.
  { split; [trans w; [done|by apply (keeps_fares zeroK zeroV less hash Hhash)]|].
    exists (f_set next_f (Some cl) nd). split; [exact Hl1|]. by rewrite <-Hs. }
  assert (∀ w' n', rely t w1 w' → B + 20 ≤ n' → room e 20 n' (w_len w) w') as Hroom.
  { intros w' n' HR Hn'. destruct Hspot as (Hp & _ & _ & Hw & _).
    pose proof (keeps_evolves _ _ _ _ _ _ _ _ Hk1) as He1.
    assert (evolves zeroV less one 1 w w') as He' by (trans w1; [done|by eapply rely_evolves]).
    pose proof (watch_evolves _ _ _ _ _ _ _ _ _ _ _ _ _ He' Hp Hw) as Hw'.
    split; [lia|]. split; [apply Hw'|]. intros E.
    pose proof (watch_reserve _ _ _ _ _ _ Hw' E). lia. }
  eapply (wp_link zeroV less one 1 e t _ 0 tg p sp c curr l _ _ B);
    [lia|done|exact Hspot1| | |].
  - exists (f_set next_f (Some cl) nd), cl. split; [exact Hl1|]. by rewrite <-Hs.
  - intros w2 c' HR2 HI2 Hgap Hlk Hc'. destruct (linkable_facts _ _ _ _ _ Hlk) as (Ho & Hsl & Hll).
    edestruct (Hlink w2 p sp curr c' (n - 2 - 4) (w_len w)) as (us & a & Hgood & Hwp);
      [done|by eapply inserting_stable|by eapply list_ready_stable|exact Hgap| |done| |].
    + do 3 (split; [done|]). destruct (list_private_stable _ _ _ _ HR2 _ _ Hl1) as [_ Hnd].
      unfold val_of. by rewrite Hnd.
    + apply Hroom; [done|lia].
    + exists us, a. split; [exact Hgood|]. by apply insert_done.
  - intros w2 n2 HR2 HI2 Hcan Hn2. cbn beta iota. apply wp_ret. intros w3 HR3 _.
    assert (rely t w1 w3) as HR13 by by trans w2.
    eexists n2, (w_len w). split; [done|]. split; [|split].
    + eapply can_retry_retry; [exact (can_retry_stable _ _ _ _ HR3 _ _ _ Hcan)|lia].
    + by eapply list_ready_stable.
    + by eapply inserting_stable.
Qed.

(** After a search. *)
Lemma wp_insert_at p sp c (curr : option loc) B n w :
  Inv w → inserting w → hit zeroV less e t o tg 0 P p sp c curr (w_len w) B n w →
  wp t insert_round (Refill n (w_len w))
    (let! me := act (load_at nodes l (λ me, (so_soKey me, so_key me, so_dummy me))) in
     let! eq := nodeEqual less curr me.1.1 me.1.2 me.2 in
     if eq : bool then break (curr, false)
     else
       set l curr false ;;;
       let! ok := compareAndSet (Some p) curr (Some l) false false in
       if ok : bool then break (Some l, true) else continue tt) w.
Proof using All.
  intros HI HS Hhit. pose proof HS as [Hf (nd & Hl & Hs & Hv)].
  pose proof Hhit as (Hp & _ & _ & Hw & Hcurr).
  assert (1 ≤ n) as Hn1.
  { destruct curr; [destruct Hcurr as (? & _ & _ & _ & _ & ?)|destruct Hcurr as (_ & _ & _ & ?)]; lia. }
  wp_pure. eapply wp_own_node; [done|exact Hl|].
  change (so_soKey nd, so_key nd, so_dummy nd) with (sh_sig nd). rewrite Hs.
  destruct curr as [x|].
  - destruct Hcurr as (sx & Hx & Hbx & _ & HPx & Hn).
    eapply wp_nodeEqual; [lia|exact Hx|done|].
    destruct (holds less sx tg) eqn:Hh; cbn beta iota.
    + apply insert_done, (Hfound w x sx); try done. split; [lia|]. split; [done|]. intros E.
      pose proof (watch_reserve _ _ _ _ _ _ Hw E). lia.
    + eapply (wp_insert_link p sp c _ B); [done|done|by eapply HPready| |lia].
      eapply hit_spot; [exact Hhit|]. intros x' s [= <-] [_ Hs'].
      destruct Hx as [_ Hsx]. rewrite Hsx in Hs'. by injection Hs' as <-.
  - destruct Hcurr as (_ & Hr & _ & Hn). cbn [nodeEqual bind].
    eapply (wp_insert_link p sp c _ B); [done..| |lia]. by eapply hit_spot.
Qed.

Lemma wp_listInsert n L w :
  ready t o w → inserting w → room (1 + e) 12 n L w →
  wp t Q (Refill n L) (bind (listInsert less (Some start) l) q) w.
Proof using All.
  intros Hr HS (Hd & HL & Hn). unfold listInsert, loop. cbn [bind].
  apply (wp_loop Sp proto pg t _ (λ bu _ w, ListSearch.over e t o inserting bu w)).
  2:{ intros bu _ w1 w2 Ho HR. by eapply (over_stable _ _ _ _ e t o inserting inserting_stable). }
  2:{ exists n, L. split; [done|]. split; [|by split]. split; [lia|]. split; [done|].
      intros E. specialize (Hn E). lia. }
  clear n L w Hr HS Hd HL Hn. intros bu _ w (n & L & -> & (Hn1 & HL & Hn) & Hr & HS) _.
  eexists. split; [by apply spend|]. rewrite so_search_eq.
  eapply (wp_attempt zeroV less one 1 one_same one_range e He t o tg 0 Htg (one_sig tg) (so_ends tg)
    inserting inserting_stable (λ w cm Hi, Hi) P HP
    (λ x s w HI Ha Hx Hd Hbs Hm _, Hhook x s w HI (proj1 Ha) Hx Hd Hbs Hm) (passed less (Some l))); [..|done|done|done| |].
  - intros A' Q' x s n' L' q' w' Hn' HI' Hx (_ & nd & Hl & Hs & _) Hq'.
    eapply wp_passed; [lia|exact Hl|exact Hs|exact Hx|]. by eapply wp_less; [|exact Hq']; lia.
  - intros A' Q' n' L' q' w' Hn' [Hf _] HI' Hq'. cbn [bind].
    eapply wp_less; [|apply (Hq' w' start ss); [reflexivity|done|by apply Hf|done..]]. lia.
  - intros E. specialize (Hn E). lia.
  - clear n L w Hr HS Hn1 HL Hn. intros w p sp c curr B n HI HS Hhit.
    eapply (wp_insert_at p sp c curr B n); done.
Qed.
End call.
End insert.

(** ** Sentinels *)

Lemma dummy_ok b : (0 ≤ b < soMaxBuckets)%Z → node_ok less (dummy_sig b).
Proof. intros Hb. exists b. split; [exact Hb|done]. Qed.

Lemma dummy_holds s b : (0 ≤ b < soMaxBuckets)%Z → node_ok less s →
  holds less s (dummy_sig b) = true → s = dummy_sig b.
Proof.
  change soMaxBuckets with 65536%Z. intros Hb Hs Hh.
  apply (so_same_spec less s (dummy_sig b)) in Hh as [Hk _].
  change (so_ok zeroK hash s) in Hs.
  assert (s.2 = true) as Hd by by apply (so_ok_dummy zeroK hash s (dummy_sig b)); [|apply dummy_ok|].
  unfold so_ok in Hs. rewrite Hd in Hs. destruct Hs as (b' & Hb' & ->).
  simpl in Hk. by rewrite (soDummy_inj b' b) by (done || lia).
Qed.

Lemma dummy_less b b' : (soDummy b < soDummy b')%Z →
  node_less less (dummy_sig b) (dummy_sig b') = true.
Proof. intros Hlt. apply so_less_spec. by left. Qed.

(** Linking a node spoils nothing but the private node. *)
Lemma link_fares t l us a p b sp (c : loc) w :
  let w' := upd Sp w (set_next p c (w_mem w)) us a in
  Inv w → good_step t w w' → pub p b sp w → own a = delete l (own (w_aux w)) → fares t l w w'.
Proof.
  cbn zeta. intros HI Hgood [Hp _] Ha. split; [|split].
  - intros x nd Hx [Ho Hnd]. destruct (i_own _ _ _ _ _ HI _ _ Ho) as [Hh _]. split.
    + simpl. by rewrite Ha, lookup_delete_ne.
    + cbn [w_mem upd]. unfold set_next. rewrite set_node_at, decide_False; [done|congruence].
  - intros x bx s. apply pub_evolves with (1 := good_evolves _ _ _ _ _ _ _ Hgood).
  - cbn [w_mem upd]. by rewrite set_next_rest.
Qed.

(** A new node is no node of before. *)
Lemma fares_fresh t l l' w w1 w2 :
  fares t l w w1 → (∀ x nd, private t x nd w1 → x ≠ l') → fares t l' w1 w2 → fares t l w w2.
Proof.
  intros (H1 & H2 & H3) Hfresh (H4 & H5 & H6). split; [|split; [auto|by etrans]].
  intros x nd Hx Hp. pose proof (H1 x nd Hx Hp) as Hp1. apply H4; [by eapply Hfresh|done].
Qed.

Section dummy.
Context (t : nat) (o : lmap_op K V) {A : Type} (Q : budget → A → world → Prop).

Lemma wp_insert_dummy e b l start ss n L q w :
  e + 2 ≤ nrounds → (0 ≤ b < soMaxBuckets)%Z →
  private t l (SoNode (soDummy b) zeroK None true None) w →
  pub start 0 ss w → key_of less ss = None → node_less less ss (dummy_sig b) = true →
  ready t o w → room (1 + e) 12 n L w →
  (∀ w' x r n' L', fares t l w w' → Inv w' → ready t o w' → pub x 0 (dummy_sig b) w' →
     room e 20 n' L' w' → wp t Q (Refill n' L') (q (Some x, r)) w') →
  wp t Q (Refill n L) (bind (listInsert less (Some start) l) q) w.
Proof.
  intros He Hb Hl Hstart Hss Hlt Hr Hroom Hq.
  eapply (wp_listInsert e He t o (dummy_sig b) (dummy_ok b Hb) l None start ss w Hstart Hss Hlt
    (λ _ _ w, ready t o w)); [..|exact Hr| |exact Hroom].
  - intros x s w1 w2 HR. apply (list_ready_stable _ _ _ _ HR).
  - intros x s w1 HI1 Hr1 _ _ _ _. exists (commit (w_aux w1)). rewrite with_commit_id.
    split; [by apply good_step_refl|done].
  - done.
  - intros w1 x s n1 HI1 [Hf _] Hx Hh Hr1 Hroom1. apply Hq; [done..| |done].
    by rewrite <-(dummy_holds s b Hb (pub_kind _ _ _ _ _ _ _ _ HI1 Hx) Hh).
  - intros w1 p sp curr c n1 L1 HI1 [Hf _] Hr1 Hgap (Ho & Hs & Hlink & _) Hc Hroom1.
    edestruct (sentinel_step zeroV less one 1 one_same one_range t (Z.to_nat b) p l c curr sp
      (dummy_sig b) w1) as [Hgood Hpub]; try done.
    { apply Hr1. }
    { apply one_range. exact zeroK. }
    { apply max_buckets_lt; [apply Hb|]. change soMaxBuckets with 65536%Z in Hb. lia. }
    { simpl. by rewrite Z2Nat.id by apply Hb. }
    { by apply dummy_ok. }
    eexists [], _. split; [exact Hgood|]. apply Hq; [|apply Hgood|exact Hr1|exact Hpub|].
    + trans w1; [done|]. by eapply link_fares; [|exact Hgood|apply Hgap|].
    + exact (room_evolves zeroK zeroV less hash Hhash _ _ _ _ _ _ (good_evolves _ _ _ _ _ _ _ Hgood) Hroom1).
  - split; [reflexivity|]. eexists. split; [exact Hl|done].
Qed.
End dummy.

(** ** The way to a bucket *)

(** The parent of a bucket below [2 ^ S l] is below [2 ^ l], and its sentinel
    comes before. *)
Lemma parent_below b (l : nat) : (0 ≤ b < 2 ^ Z.of_nat l)%Z → b ≠ 0%Z → l ≤ 16 → ∃ b' l',
  parentBucket b = Some b' ∧ l = S l' ∧ (0 ≤ b' < 2 ^ Z.of_nat l')%Z ∧ (soDummy b' < soDummy b)%Z.
Proof.
  intros Hb H0 Hl.
  assert (2 ^ Z.of_nat l ≤ 2 ^ 16)%Z by (apply Z.pow_le_mono_r; lia).
  destruct (parentBucket_spec b) as (b' & Hp & Hb' & Hlt); [lia|].
  assert (Z.log2 b < Z.of_nat l)%Z as Hlog by (apply Z.log2_lt_pow2; lia).
  pose proof (Z.log2_nonneg b). exists b', (l - 1). split; [done|]. split; [lia|].
  split; [|done]. split; [lia|]. eapply Z.lt_le_trans; [apply Hb'|]. apply Z.pow_le_mono_r; lia.
Qed.

Lemma bucket_bound b (l : nat) : (0 ≤ b < 2 ^ Z.of_nat l)%Z → l ≤ 16 → (0 ≤ b < soMaxBuckets)%Z.
Proof.
  intros Hb Hl. change soMaxBuckets with (2 ^ 16)%Z. split; [lia|].
  eapply Z.lt_le_trans; [apply Hb|]. apply Z.pow_le_mono_r; lia.
Qed.

(** The sentinel of bucket [b] is inserted behind that of [b'], and the pointer to
    it set. *)
Lemma wp_fill_bucket t o {A} (Q : budget → A → world → Prop) e b b' (ptr : loc * nat) start n L q w :
  e + 2 ≤ nrounds → (0 ≤ b < soMaxBuckets)%Z → (soDummy b' < soDummy b)%Z →
  slot_at b ptr w → pub start 0 (dummy_sig b') w → ready t o w → room (S e) 18 n L w →
  (∀ w' x n' L', (∀ l, fares t l w w') → Inv w' → ready t o w' → pub x 0 (dummy_sig b) w' →
     room e 18 n' L' w' → wp t Q (Refill n' L') (q (Some x)) w') →
  wp t Q (Refill n L)
    (bind (let! dummy := act (new nodes_f (SoNode (soDummy b) zeroK None true None)) in
           let! gi := listInsert less (Some start) dummy in
           act (cas_at segs_f ptr.1 (slot_f ptr.2) None gi.1) ;;;
           load_bucket ptr) q) w.
Proof.
  intros Hnr Hmax Hlt Hptr Hstart Hr Hroom Hq.
  pose proof (proj1 Hroom) as Hn. wp_pure.
  eapply (wp_new_node (Shape0:=so_shape) zeroV less one 1 t _
    (SoNode (soDummy b) zeroK None true None)); [lia|]. intros w6 l HI6 Hk6 Hl6 Hfresh.
  pose proof (keeps_fares zeroK zeroV less hash Hhash _ _ _ _ Hk6) as Hf6. rewrite bind_bind.
  eapply (wp_insert_dummy t o _ e b l start (dummy_sig b')); [lia|done|exact Hl6| |done|by apply dummy_less|..].
  { by apply Hf6. }
  { by eapply ready_keeps. }
  { eapply room_spend; [exact (room_evolves zeroK zeroV less hash Hhash _ _ _ _ _ _
      (keeps_evolves _ _ _ _ _ _ _ _ Hk6) Hroom)|lia..]. }
  clear Hroom Hn n L. intros w7 x ok n L Hf7 HI7 Hr7 Hx Hroom7. pose proof (proj1 Hroom7) as Hn.
  assert (slot_at b ptr w7) as Hptr7.
  { eapply slot_at_fares; [exact Hf7|]. by eapply slot_at_fares. }
  cbn [fst]. eapply (wp_cas_bucket zeroK zeroV less hash Hhash _ _ b ptr x);
    [lia|done|exact Hptr7|exact Hx|]. intros w8 r y Hm8 HI8 Hslot.
  pose proof (moves_fares zeroK zeroV less hash Hhash _ l _ _ Hm8) as Hf8.
  pose proof (slot_at_fares _ _ _ _ _ _ Hf8 Hptr7) as Hptr8.
  eapply (wp_load_bucket zeroK zeroV less hash Hhash _ _ b); [lia|done|exact Hptr8|].
  intros w9 r' HR9 HI9 Hslot9.
  pose proof (rely_fares zeroK zeroV less hash Hhash _ l _ _ HR9) as Hf9.
  assert (slot_is ptr (Some y) w9) as Hy by by eapply slot_filled_fares.
  assert (r' = Some y) as ->.
  { destruct Hslot9 as (sg & H1 & H2), Hy as (sg' & H3 & H4). congruence. }
  apply Hq; [|done| | |].
  - intros l'. eapply fares_fresh; [reflexivity|exact Hfresh|].
    trans w6; [done|]. trans w7; [done|]. by trans w8.
  - eapply list_ready_stable; [exact HR9|]. by eapply (moves_ready zeroK zeroV less hash Hhash).
  - eapply (slot_pub zeroK zeroV less hash Hhash); [done|done| |exact Hy]. by eapply slot_at_fares.
  - assert (evolves zeroV less one 1 w7 w9) as He9.
    { trans w8; [exact (keeps_evolves _ _ _ _ _ _ _ _ (Hm8 0))|by eapply rely_evolves]. }
    eapply room_spend; [exact (room_evolves zeroK zeroV less hash Hhash _ _ _ _ _ _ He9 Hroom7)|lia..].
Qed.

Lemma wp_initBucket t o fuel {A} (Q : budget → A → world → Prop) b lg e n L q w :
  (0 ≤ b < 2 ^ Z.of_nat lg)%Z → lg < fuel → lg ≤ 16 → 1 ≤ e → e + 2 * lg + 1 ≤ nrounds →
  ready t o w → room (e + 2 * lg) 30 n L w →
  (∀ w' x n' L', (∀ l, fares t l w w') → Inv w' → ready t o w' → pub x 0 (dummy_sig b) w' →
     room e 18 n' L' w' → wp t Q (Refill n' L') (q (Some x)) w') →
  wp t Q (Refill n L) (bind (initBucket zeroK less fuel b) q) w.
Proof.
  revert b lg e n L q w. induction fuel as [|fuel IH]; intros b lg e n L q w Hb Hlg H16 He Hnr Hr Hroom Hq;
    [lia|]. pose proof (bucket_bound b lg Hb H16) as Hmax.
  eapply (wp_room zeroK zeroV less hash Hhash t Q (e + 2 * lg - 1) 30); [|lia|lia|].
  { by replace (S (e + 2 * lg - 1)) with (e + 2 * lg) by lia. }
  clear n L Hroom. intros w1 n HR1 HI1 Hroom. set (L := w_len w1) in *.
  pose proof (proj1 Hroom) as Hn. cbn [initBucket]. rewrite bind_bind.
  eapply (wp_bucketPtr zeroK zeroV less hash Hhash); [lia|done|]. intros w2 ptr Hm2 HI2 Hptr.
  rewrite bind_bind. eapply (wp_load_bucket zeroK zeroV less hash Hhash _ _ b);
    [lia|done|exact Hptr|]. intros w3 r HR3 HI3 Hslot.
  pose proof (slot_at_fares t 0 _ _ _ _ (rely_fares zeroK zeroV less hash Hhash t 0 _ _ HR3) Hptr) as Hptr3.
  assert (moves zeroK zeroV less hash Hhash t w w3) as Hm3.
  { intros l. trans w1; [by apply rely_keeps|]. trans w2; [apply Hm2|by apply rely_keeps]. }
  assert (evolves zeroV less one 1 w1 w3) as He3.
  { trans w2; [exact (keeps_evolves _ _ _ _ _ _ _ _ (Hm2 0))|by eapply rely_evolves]. }
  destruct r as [x|].
  { cbn [bind]. apply Hq; [intros l; by apply (moves_fares zeroK zeroV less hash Hhash)|done| | |].
    - by eapply (moves_ready zeroK zeroV less hash Hhash).
    - by eapply slot_pub.
    - eapply room_spend; [exact (room_evolves zeroK zeroV less hash Hhash _ _ _ _ _ _ He3 Hroom)|lia..]. }
  rewrite bind_bind. wp_pure. eapply wp_load; [apply spend; lia|]. intros w4 HR4 HI4.
  destruct (decide (b = 0%Z)) as [->|H0]; [by destruct (slot_first zeroK zeroV less hash Hhash ptr w3)|].
  rewrite bool_decide_false by done. cbn [negb].
  destruct (parent_below b lg Hb H0 H16) as (b' & lg' & -> & -> & Hb' & Hlt).
  rewrite bind_bind. eapply (IH b' lg' (S e)); [exact Hb'|lia|lia|lia|lia| |..].
  { eapply list_ready_stable; [exact HR4|]. by eapply (moves_ready zeroK zeroV less hash Hhash). }
  { apply room_pay in Hroom.
    assert (evolves zeroV less one 1 w1 w4) as He4 by (trans w3; [done|by eapply rely_evolves]).
    eapply room_spend; [exact (room_evolves zeroK zeroV less hash Hhash _ _ _ _ _ _ He4 Hroom)|lia..]. }
  clear Hroom Hn n L. intros w5 start n L Hf5 HI5 Hr5 Hstart Hroom5.
  assert (∀ l, fares t l w w5) as Hf.
  { intros l. trans w3; [by apply (moves_fares zeroK zeroV less hash Hhash)|].
    trans w4; [by apply (rely_fares zeroK zeroV less hash Hhash)|done]. }
  pose proof (slot_at_fares _ 0 _ _ _ _ (Hf5 0)
    (slot_at_fares _ 0 _ _ _ _ (rely_fares zeroK zeroV less hash Hhash _ 0 _ _ HR4) Hptr3)) as Hptr5.
  eapply (wp_fill_bucket t o Q e b b' ptr start); [lia|done|exact Hlt|done|exact Hstart|done|exact Hroom5|].
  intros w6 x n6 L6 Hf6. apply Hq. intros l. by trans w5.
Qed.

(** The bucket of a hash: its sentinel comes before the keys with that hash. *)
Lemma wp_bucket t o {A} (Q : budget → A → world → Prop) h e n L q w :
  (0 ≤ h < 2 ^ 32)%Z → 1 ≤ e → e + 34 ≤ nrounds → ready t o w → room (e + 33) 30 n L w →
  (∀ w' x b n' L', (∀ l, fares t l w w') → Inv w' → ready t o w' → pub x 0 (dummy_sig b) w' →
     (soDummy b < soRegular h)%Z → room e 18 n' L' w' → wp t Q (Refill n' L') (q (Some x)) w') →
  wp t Q (Refill n L) (bind (bucket zeroK less h) q) w.
Proof.
  intros Hh He Hnr Hr Hroom Hq.
  eapply (wp_room zeroK zeroV less hash Hhash t Q (e + 32) 30); [|lia|lia|].
  { by replace (S (e + 32)) with (e + 33) by lia. }
  clear n L Hroom. intros w1 n HR1 HI1 Hroom. set (L := w_len w1) in *.
  pose proof (proj1 Hroom) as Hn. apply room_pay in Hroom.
  unfold bucket. wp_pure. eapply wp_load; [apply spend; lia|]. intros w2 HR2 HI2.
  destruct (table_size zeroK zeroV less hash Hhash w2 HI2) as (lg & Hlg & ->).
  assert (0 < 2 ^ Z.of_nat lg)%Z as Hpos by (apply Z.pow_pos_nonneg; lia).
  rewrite bool_decide_false by lia. set (b := (h mod 2 ^ Z.of_nat lg)%Z).
  assert (0 ≤ b < 2 ^ Z.of_nat lg)%Z as Hb by by apply Z.mod_pos_bound.
  assert (soDummy b < soRegular h)%Z as Hlt by (apply soDummy_before; [lia|done]).
  pose proof (bucket_bound b lg Hb Hlg) as Hmax. rewrite bind_bind.
  eapply (wp_bucketPtr zeroK zeroV less hash Hhash); [lia|done|]. intros w3 ptr Hm3 HI3 Hptr.
  rewrite bind_bind. eapply (wp_load_bucket zeroK zeroV less hash Hhash _ _ b);
    [lia|done|exact Hptr|]. intros w4 r HR4 HI4 Hslot.
  assert (moves zeroK zeroV less hash Hhash t w1 w4) as Hm4.
  { intros l. trans w2; [by apply rely_keeps|]. trans w3; [apply Hm3|by apply rely_keeps]. }
  apply (moves_room zeroK zeroV less hash Hhash _ _ _ _ _ _ _ Hm4) in Hroom.
  assert (∀ l, fares t l w w4) as Hf.
  { intros l. trans w1; [by apply (rely_fares zeroK zeroV less hash Hhash)|].
    by apply (moves_fares zeroK zeroV less hash Hhash). }
  assert (ready t o w4) as Hr4.
  { eapply (moves_ready zeroK zeroV less hash Hhash); [exact Hm4|]. by eapply list_ready_stable. }
  destruct r as [x|].
  - cbn [bind]. eapply Hq; [done|done|done| |exact Hlt|].
    + eapply (slot_pub zeroK zeroV less hash Hhash); [done|done| |exact Hslot].
      eapply (slot_at_fares t 0); [|exact Hptr]. by apply (rely_fares zeroK zeroV less hash Hhash).
    + eapply room_spend; [exact Hroom|lia..].
  - eapply (wp_initBucket t o 64 _ b lg e); [done|lia|lia|lia|lia|done| |].
    + eapply room_spend; [exact Hroom|lia..].
    + intros w5 x n5 L5 Hf5 HI5 Hr5 Hx Hroom5. eapply Hq; [|done|done|exact Hx|done|done].
      intros l. by trans w4.
Qed.
End insertion.
