(* ===== verification/SplitMethods.v ===== *)
(** The methods of [lf.SplitHashMap], proved against the abstract map. *)

From S2P Require Export SplitInsert.
Local Open Scope prog_scope.

Section methods.
Context {K V : Type} (zeroK : K) (zeroV : V) (less : Less K) `{!WeakOrder less} (hash : K → Z).
Context (Hhash : ∀ k1 k2, same_key less k1 k2 = true → hash k1 = hash k2).
#[local] Hint Extern 0 (NodeOrder _ _) => exact (so_order zeroK less hash Hhash) : typeclass_instances.
#[local] Hint Extern 0 (Capacity _) => exact (so_capacity zeroK) : typeclass_instances.
#[local] Hint Extern 0 (Rest _ _) => exact (so_rest zeroK) : typeclass_instances.
Abbreviation Sp := (lmap_spec zeroV (same_key less) (ascending_range (V:=V) less)).
Abbreviation one := (λ _ : K, 0).
Abbreviation mem := (mem (K:=K) (V:=V)).
Abbreviation aux := (list_aux V).
Abbreviation world := (world mem (lmap_op K V) (lmap_resp K V) aux).
Abbreviation Inv := (Inv zeroV less one 1).
Abbreviation proto := (list_proto zeroV less one 1).
Abbreviation rely := (pr_rely proto).
Abbreviation good_step := (good_step proto).
Abbreviation keeps := (keeps zeroV less one 1).
Abbreviation missing := (missing zeroV less).
Abbreviation absent := (ListSteps.absent zeroV less).
Abbreviation with_commit := (with_commit zeroV less).
Abbreviation answered := (answered zeroV less).
Abbreviation dummy_sig := (dummy_sig zeroK).
Abbreviation room := (room zeroK).
Abbreviation sig k := (sig_for less k : Z * K * bool).
Abbreviation pg := (LockFreeIn allowance).
Abbreviation wp t Q := (Logic.wp Sp proto pg t Q).
Implicit Types (w : world) (t u n L : nat) (l x y p : loc) (k : K) (v : V) (m : mem).
Implicit Types (o : lmap_op K V) (s tg : Z * K * bool).

(** The sentinel of its bucket comes before a key. *)
Lemma dummy_before b k : (soDummy b < soRegular (hash_of hash k))%Z →
  node_less less (dummy_sig b) (sig k) = true.
Proof. intros Hlt. apply so_less_spec. by left. Qed.

(** ** [Set] *)

(** After the new node was linked. *)
Lemma wp_set_count t k v n L w :
  3 ≤ n → answered t (MSet k v) MRDone w →
  wp t (post Sp proto t) (Refill n L)
    (let! c := act (add_u64 count_f 1) in
     let! csize := act (load size) in
     if bool_decide (u64 (csize * soLoadFactor) < c)%Z && bool_decide (csize < soMaxBuckets)%Z
     then act (cas size_f csize (u64 (csize * 2))) ;;; Ret MRDone
     else Ret MRDone) w.
Proof.
  intros Hn Ha. eapply (wp_count zeroK zeroV less hash Hhash); [lia|]. intros w1 c Hm1 HI1.
  apply (answered_keeps _ _ _ _ _ _ _ _ _ _ (Hm1 0)) in Ha.
  wp_pure. eapply wp_load; [apply spend; lia|]. intros w2 HR2 HI2.
  apply (answered_stable _ _ _ _ _ _ _ _ _ HR2) in Ha.
  destruct (table_size zeroK zeroV less hash Hhash w2 HI2) as (lg & _ & Hsize).
  destruct (_ && _) eqn:Hg; [|by apply (list_return _ _ _ _ _ (MSet k v))].
  apply andb_true_iff in Hg as [_ Hlt%bool_decide_eq_true].
  eapply (wp_grow zeroK zeroV less hash Hhash t _ _ lg); [lia|done|done|].
  intros w3 r Hm3 HI3. apply (list_return _ _ _ _ _ (MSet k v)).
  by apply (answered_keeps _ _ _ _ _ _ _ _ _ _ (Hm3 0)).
Qed.

Lemma split_Set_wp t k v n L w :
  ready t (MSet k v) w → room 34 40 n L w →
  wp t (post Sp proto t) (Refill n L) (Set_ zeroK less hash k v) w.
Proof.
  intros Hr Hroom. pose proof (proj1 Hroom) as Hn. unfold Set_. wp_pure.
  eapply (wp_new_node (Shape0:=so_shape) zeroV less one 1 t _
    (SoNode (soRegular (hash_of hash k)) k None false None)); [lia|]. intros w1 l HI1 Hk1 Hl1 _.
  eapply (wp_store_private (Shape0:=so_shape) zeroV less one 1 t _ l _ val_f (Some v));
    [lia|exact Hl1|]. intros w2 HI2 Hk2 Hl2.
  assert (keeps t l w w2) as Hk by by trans w1.
  eapply (wp_bucket zeroK zeroV less hash Hhash t (MSet k v) _ _ 1);
    [apply hash_of_range|lia| |by eapply ready_keeps| |].
  { by apply Nat.leb_le. }
  { eapply room_spend; [exact (room_evolves zeroK zeroV less hash Hhash _ _ _ _ _ _
      (keeps_evolves _ _ _ _ _ _ _ _ Hk) Hroom)|lia..]. }
  clear n L Hroom Hn. intros w3 x b n L Hf3 HI3 Hr3 Hx Hlt Hroom.
  eapply (wp_listInsert zeroK zeroV less hash Hhash 0 ltac:(by apply Nat.leb_le) t (MSet k v) (sig k)
    (sig_for_ok k) l (Some v) x (dummy_sig b) w3 Hx eq_refl (dummy_before b k Hlt)
    (set_found less t k v)); [..|exact Hr3| |eapply room_spend; [exact Hroom|lia..]].
  - intros y s w4 w5 HR. by apply (set_found_stable zeroV less one 1 t k v y s).
  - intros y s w4 HI4 Hr4 Hy Hd _ _. exact (set_hook zeroV less one 1 t k v y 0 s w4 HI4 Hr4 Hy Hd).
  - intros y s w4. unfold set_found. intros HP E. by rewrite E in HP.
  - clear n L Hroom. intros w4 y s n HI4 _ _ Hh HP Hroom. unfold set_found in HP. rewrite Hh in HP.
    pose proof (proj1 Hroom) as Hn. cbn [fst snd negb]. wp_pure.
    eapply (wp_set_value (Shape0:=so_shape) zeroV less one 1 (one_same less) one_range t _ k v y);
      [lia|exact HP|]. intros w5 Ha. by apply (list_return _ _ _ _ _ (MSet k v)).
  - clear n L Hroom. intros w4 p sp curr c n L HI4 _ Hr4 Hgap (Ho & Hs & Hlink & Hv) Hc Hroom.
    pose proof (proj1 Hroom) as Hn.
    destruct (insert_step zeroV less one 1 (one_same less) one_range t k v p l c curr sp w4 HI4 Hr4
      Hgap Ho Hs Hv Hlink Hc) as [Hgood [Hf Hcm]].
    exists [t]. eexists. split; [exact Hgood|]. cbn [snd negb].
    apply (wp_set_count t k v); [lia|]. split; [exact Hcm|]. split; [exact I|by left].
  - split; [reflexivity|]. eexists. split; [apply (Hf3 (S l)); [lia|exact Hl2]|done].
Qed.

(** ** [Get] *)

(** The test of [Get] is whether the node holds the key. *)
Lemma get_test s k : node_ok less s →
  negb s.2 && bool_decide (s.1.1 = soRegular (hash_of hash k)) && negb (less s.1.2 k) &&
    negb (less k s.1.2) = holds less s (sig k).
Proof.
  intros Hs. apply eq_true_iff_eq. unfold holds. change (node_less less) with (so_less less).
  rewrite so_same_spec. simpl. unfold same_key.
  rewrite <-!andb_assoc, andb_true_iff, (andb_true_iff (bool_decide _)), bool_decide_eq_true.
  split; [tauto|]. intros [E ?]. split; [|done].
  assert (node_ok less (sig k)) as Hk by apply sig_for_ok.
  by rewrite (so_ok_dummy zeroK hash s (sig k) Hs Hk E).
Qed.

Section get.
Context (t : nat) (o : lmap_op K V) (k : K).
Abbreviation get_found := (get_found zeroV less t o k 0).
Abbreviation visited := (visited zeroV less one 0 t o (sig k) 0 (λ _, False) (λ _, True) get_found).
Abbreviation ahead := (ahead zeroV less one t o (sig k) 0 (λ _, False) (λ _, True)).
Abbreviation got := (got zeroV less t o k).

(** What is left to read behind [s]. *)
Definition onward s (succ : option loc) w : Prop :=
  ready t o w ∧ match succ with
  | Some y => ∃ sy, node_less less s sy = true ∧ ahead y sy w
  | None => absent t k w
  end.

Lemma onward_stable s (succ : option loc) w w' : rely t w w' → onward s succ w → onward s succ w'.
Proof.
  intros HR [Hr Hs]. split; [by eapply list_ready_stable|]. destruct succ as [y|].
  - destruct Hs as (sy & ? & ?). exists sy. split; [done|].
    by eapply (ahead_stable zeroV less one 1).
  - by eapply absent_stable.
Qed.

Lemma onward_next s (succ : option loc) w :
  next_of zeroV less one t o (sig k) 0 (λ _, False) (λ _, True) s succ w → onward s succ w.
Proof.
  destruct succ as [y|].
  - intros (sy & Hlt & Ha). split; [apply Ha|]. by exists sy.
  - intros (_ & [Hr _] & Hm). split; [done|]. by apply Hm, sig_for_key.
Qed.

(** Once the key was absent, any node will do. *)
Lemma onward_absent s (succ : option loc) w :
  ready t o w → absent t k w →
  (∀ y, succ = Some y → ∃ sy, node_less less s sy = true ∧ pub y 0 sy w) → onward s succ w.
Proof.
  intros Hr Ha Hy. split; [done|]. destruct succ as [y|]; [|done].
  destruct (Hy y eq_refl) as (sy & ? & ?). exists sy. split; [done|]. split; [done|].
  split; [done|]. split; [|by intros ? []].
  intros k' Hk'. left. rewrite sig_for_key in Hk'. by injection Hk' as <-.
Qed.

(** Reading on: [curr] is ahead. *)
Definition reading (bu : budget) (curr : option loc) w : Prop :=
  ∃ n L, bu = Refill n L ∧ 1 ≤ n ∧ match curr with
  | Some x => ∃ s, ahead x s w ∧ walk less s 20 0 n L w
  | None => ready t o w ∧ absent t k w
  end.

Lemma split_reading_stable (bu : budget) (curr : option loc) w w' :
  rely t w w' → reading bu curr w → reading bu curr w'.
Proof.
  intros HR (n & L & -> & Hn & Hc). exists n, L. split; [done|]. split; [done|].
  destruct curr as [x|].
  - destruct Hc as (s & ? & ?). exists s.
    split; [by eapply (ahead_stable zeroV less one 1)|by eapply walk_stable].
  - destruct Hc. split; [by eapply list_ready_stable|by eapply absent_stable].
Qed.

(** Going on after the node [s] was read. *)
Lemma onward_reading s (succ : option loc) d n n' L w :
  walk less s d 0 n L w → onward s succ w → 1 ≤ n' → n ≤ n' + d → reading (Refill n' L) succ w.
Proof.
  intros [HL Hw] [Hr Hs] Hn1 Hn'. exists n', L. split; [done|]. split; [done|].
  destruct succ as [y|]; [|done]. destruct Hs as (sy & Hlt & Ha). exists sy. split; [done|].
  split; [done|]. intros E. specialize (Hw E).
  pose proof (above_lt less w s y 0 sy (proj1 Ha) Hlt). lia.
Qed.

Lemma got_return r (bu : budget) w : got r w → wp t (λ _ r w, got r w) bu (Ret r) w.
Proof. intros Hg. apply wp_ret. intros w1 HR1 _. by eapply got_stable. Qed.

(** After one round. *)
Definition get_round (bu : budget) (res : option loc + V * bool) w : Prop :=
  match res with
  | inl curr => reading bu curr w
  | inr r => wp t (λ _ r w, got r w) bu (Ret r) w
  end.

Lemma get_on (succ : option loc) (bu : budget) w :
  reading bu succ w → wp t get_round bu (continue succ) w.
Proof. intros Hr. apply wp_ret. intros w1 HR1 _. by eapply split_reading_stable. Qed.

Lemma get_done r (bu : budget) w : got r w → wp t get_round bu (break r) w.
Proof. intros Hg. apply wp_ret. intros w1 HR1 _. apply got_return. by eapply got_stable. Qed.

(** The node [x] is not marked: its key is compared. *)
Lemma wp_get_test x s (succ : option loc) L' B d n L w :
  ready t o w → visited x s succ false L' B w → walk less s d 0 n L w → 2 ≤ n → 2 ≤ d →
  wp t get_round (Refill n L)
    (let! nd := act (load_ptr nodes (Some x) (λ nd, (so_soKey nd, so_key nd, so_dummy nd))) in
     if bool_decide (soRegular (hash_of hash k) < nd.1.1)%Z then break (zeroV, false)
     else if negb nd.2 && bool_decide (nd.1.1 = soRegular (hash_of hash k)) &&
       negb (less nd.1.2 k) && negb (less k nd.1.2)
     then let! v := load_val (Some x) in break (v, true)
     else continue succ) w.
Proof.
  intros Hr (Hx & _ & _ & _ & Hy & Hcase) Hw Hn1 Hd1.
  wp_pure. eapply wp_soNode; [lia|exact Hx|]. intros w1 nd HR1 HI1 _ ->.
  pose proof (pub_stable _ _ _ _ HR1 _ _ _ Hx) as Hx1.
  pose proof (list_ready_stable _ _ _ _ HR1 _ Hr) as Hr1.
  rewrite get_test by exact (pub_kind _ _ _ _ _ _ _ _ HI1 Hx1).
  case_bool_decide as Hgt.
  { apply get_done. destruct (node_less less s (sig k)) eqn:Hlt.
    { apply (so_less_spec less s (sig k)) in Hlt. simpl in Hlt. lia. }
    destruct Hcase as (_ & _ & Hf). destruct (holds less s (sig k)) eqn:Hh.
    - apply (so_same_spec less s (sig k)) in Hh as [Hh _]. simpl in Hh. lia.
    - apply got_absent; [done|by eapply absent_stable]. }
  destruct (holds less s (sig k)) eqn:Hh.
  - destruct (node_less less s (sig k)) eqn:Hlt; [by rewrite (below_not_holds _ _ _ Hlt) in Hh|].
    destruct Hcase as (_ & _ & Hf). rewrite Hh in Hf. destruct Hf as [Hk Hsince].
    eapply (wp_so_val zeroK zeroV less hash Hhash); [lia|exact Hx1|done|].
    intros w2 v HR2 HI2 Hv. apply get_done. assert (rely t w w2) as HR12 by by trans w1.
    eapply (got_value zeroV less one 1); [exact HI2|by eapply list_ready_stable|
      by eapply pub_stable|done|by eapply since_call_stable|done].
  - apply get_on. apply (onward_reading s succ d n); [by eapply walk_stable| |lia|lia].
    apply (onward_stable _ _ w); [done|]. destruct (node_less less s (sig k)) eqn:Hlt.
    + by apply onward_next.
    + apply onward_absent; [done| |done]. destruct Hcase as (_ & _ & Hf). by rewrite Hh in Hf.
Qed.

Lemma wp_get_body (bu : budget) (curr : option loc) w :
  reading bu curr w → ∃ bu', budget_step bu = Some bu' ∧
  wp t get_round bu'
    match curr with
    | None => break (zeroV, false)
    | Some _ =>
        let! sm := get curr in
        if sm.2 : bool then continue (sm.1)
        else
          let! nd := act (load_ptr nodes curr (λ nd, (so_soKey nd, so_key nd, so_dummy nd))) in
          if bool_decide (soRegular (hash_of hash k) < nd.1.1)%Z then break (zeroV, false)
          else if negb nd.2 && bool_decide (nd.1.1 = soRegular (hash_of hash k)) &&
            negb (less nd.1.2 k) && negb (less k nd.1.2)
          then let! v := load_val curr in break (v, true)
          else continue (sm.1)
    end w.
Proof.
  intros (n & L & -> & Hn & Hcurr). eexists. split; [by apply spend|]. destruct curr as [x|].
  2:{ destruct Hcurr. apply get_done. by apply got_absent. }
  destruct Hcurr as (s & Ha & Hw). apply (walk_spend _ _ _ 19 _ _ (n - 1)) in Hw; [|lia].
  eapply (wp_walk zeroV less one 1 0); [by apply Nat.leb_le| |exact Hw|]; [lia|].
  intros w1 B1 n1 HR1 HI1 _ Hn1.
  assert (ahead x s w1) as Ha1 by by eapply (ahead_stable zeroV less one 1).
  rewrite so_get_eq.
  eapply (wp_visit zeroV less one 1 0 t o (sig k) 0 (λ _, False) (sig_for_ok k)
    (so_ends zeroK (V:=V) less hash Hhash (sig k)) (λ _, True) ltac:(done) ltac:(done) get_found
    (λ x s w HI Ha Hx Hd Hlt Hm _, get_hook zeroV less one 1 t o k 0 x s w HI (proj1 Ha) Hx Hd Hlt Hm)
    _ x s n1 _ (unrest w1 * traversal (w_len w1)));
    [lia|exact Ha1|done|by rewrite Nat.add_0_r|].
  intros w2 cm succ marked HR2 HI2 Hv. cbn [fst snd].
  assert (walk less s 19 0 n1 (w_len w1) w2) as Hwalk 
    by (eapply (walk_intro zeroV less one 1); [exact HR2|lia]).
  change (walk less s 19 0 n1 (w_len w1) (with_commit w2 cm)) in Hwalk.
  set (w3 := with_commit w2 cm) in *. pose proof Hv as (_ & _ & Hcase).
  assert (ready t o w3) as Hr3.
  { destruct marked; [by destruct (onward_next s succ w3 (proj2 (proj2 Hcase)))|].
    destruct Hcase as (_ & _ & _ & Hcase).
    destruct (node_less less s (sig k)); [by destruct (onward_next s succ w3 Hcase)|apply Hcase]. }
  destruct marked.
  - apply get_on. apply (onward_reading s succ 19 n1); [done| |lia|lia].
    apply onward_next, Hcase.
  - apply (wp_get_test x s succ _ _ 17 _ _ _ Hr3 Hv); [|lia..].
    apply (walk_spend _ _ _ _ _ _ _ _ _ Hwalk). lia.
Qed.

Lemma split_Get_wp n L w :
  ready t o w → room 34 30 n L w →
  wp t (λ _ r w, got r w) (Refill n L) (Get zeroK zeroV less hash k) w.
Proof.
  intros Hr Hroom. unfold Get.
  eapply (wp_bucket zeroK zeroV less hash Hhash t o _ _ 1); [apply hash_of_range|lia| |done|exact Hroom|].
  { by apply Nat.leb_le. }
  clear n L Hr Hroom. intros w0 x b n L _ HI Hr Hx Hlt Hroom. clear w.
  eapply (wp_room zeroK zeroV less hash Hhash t _ 0 18); [exact Hroom|by apply Nat.leb_le|lia|].
  clear n L Hroom. intros w1 n HR1 HI1 (_ & _ & Hn). specialize (Hn eq_refl).
  assert (pub x 0 (dummy_sig b) w1) as Hx1 by by eapply pub_stable.
  assert (ready t o w1) as Hr1 by by eapply list_ready_stable.
  unfold loop. apply (wp_loop Sp proto pg t _ reading).
  - intros bu curr w2 Hc _. destruct (wp_get_body bu curr w2 Hc) as (bu' & Hb & Hwp).
    exists bu'. split; [exact Hb|exact Hwp].
  - intros bu curr w2 w3 Hc HR. by eapply split_reading_stable.
  - pose proof (traversal_walk zeroV less one 1 w1 (dummy_sig b) HI1).
    exists n, (w_len w1). split; [done|]. split; [lia|]. exists (dummy_sig b). split.
    + split; [done|]. split; [done|].
      eapply (finds_on_start zeroV less one 1 (one_same less) one_range); [apply sig_for_ok|done..|exact Hx1|done|].
      by apply dummy_before.
    + split; [done|]. intros _. lia.
Qed.
End get.

Lemma split_Contains_wp t k n L w :
  ready t (MContains k) w → room 34 30 n L w →
  wp t (λ _ r w, answered t (MContains k) (MRBool r) w) (Refill n L)
    (Contains zeroK zeroV less hash k) w.
Proof.
  intros Hr Hroom. unfold Contains. apply wp_bind. eapply wp_mono; [|by apply split_Get_wp].
  intros bu r w1 _ Hg. apply wp_ret. intros w2 HR2 _.
  eapply answered_stable; [exact HR2|]. by apply got_contains.
Qed.

(** ** [Del] *)

Lemma so_mark_eq {A} (p c : option loc) (again : prog mem A) (q : V → prog mem A) :
  (let! sm := get c in
   if sm.2 : bool then again
   else
     let! ok := compareAndSet c sm.1 sm.1 false true in
     if negb ok then again
     else
       let! value := load_val c in
       compareAndSet p c sm.1 false false ;;; q value) =
  (let! sm := Common.get c in
   if sm.2 : bool then again
   else
     let! ok := Common.compareAndSet c sm.1 sm.1 false true in
     if negb ok then again
     else
       let! value := load_val c in
       Common.compareAndSet p c sm.1 false false ;;; q value).
Proof.
  rewrite so_get_eq. apply bind_ext. intros [r [|]]; [done|]. cbn beta iota delta [snd].
  rewrite so_compareAndSet_eq. apply bind_ext. intros [|]; [|done]. cbn beta iota delta [negb].
  apply bind_ext. intros v. by rewrite so_compareAndSet_eq.
Qed.

Section del.
Context (t : nat) (k : K) (target start : loc) (b : Z).
Context (Hlt : (soDummy b < soRegular (hash_of hash k))%Z).
Abbreviation target_node := (SoNode (soRegular (hash_of hash k)) k None false None).
Abbreviation del_post := (del_post zeroV less t k).

Definition deleting w : Prop := private t target target_node w ∧ pub start 0 (dummy_sig b) w.

Lemma deleting_stable w w' : rely t w w' → deleting w → deleting w'.
Proof using Type.
  intros HR [? ?]. split; [by eapply list_private_stable|by eapply pub_stable].
Qed.

Abbreviation over := (ListSearch.over 0 t (MDel k) deleting).

(** After one round. *)
Definition del_round (bu : budget) (res : unit + V * bool) w : Prop :=
  match res with
  | inl _ => over bu w
  | inr r => wp t del_post bu (Ret r) w
  end.

Lemma del_done r (bu : budget) w :
  answered t (MDel k) (MRVal r.1 r.2) w → wp t del_round bu (break r) w.
Proof using Type.
  intros Ha. apply wp_ret. intros w1 HR1 _. apply wp_ret. intros w2 HR2 _.
  eapply answered_stable; [exact HR2|]. by eapply answered_stable.
Qed.

(** The key was not there. *)
Lemma del_none (bu : budget) w :
  ready t (MDel k) w → absent t k w → wp t del_round bu (break (zeroV, false)) w.
Proof using Type. intros Hr Ha. apply del_done. exact (del_finds_none zeroV less t k w Hr Ha). Qed.

Lemma wp_del_at p sp c (curr : option loc) B n w :
  Inv w → deleting w →
  hit zeroV less 0 t (MDel k) (sig k) 0 (del_found zeroV less t k) p sp c curr (w_len w) B n w →
  wp t del_round (Refill n (w_len w))
    (let! soKey := act (load_at nodes target so_soKey) in
     let! eq := nodeEqual less curr soKey k false in
     if negb eq then break (zeroV, false)
     else
       let! sm := get curr in
       if sm.2 : bool then continue tt
       else
         let! ok := compareAndSet curr sm.1 sm.1 false true in
         if negb ok then continue tt
         else
           let! value := load_val curr in
           compareAndSet (Some p) curr sm.1 false false ;;;
           act (add_u64 count_f (two64 - 1)) ;;;
           break (value, true)) w.
Proof using All.
  intros HI HS (Hp & _ & Hc & Hw & Hcurr). destruct curr as [x|].
  2:{ destruct Hcurr as (_ & Hr & Hm & Hn). wp_pure. eapply wp_own_node; [lia|apply HS|].
      apply del_none; [done|]. by apply Hm, sig_for_key. }
  destruct Hcurr as (sx & Hx & _ & Hsure & [Hr Ha] & Hn).
  wp_pure. eapply wp_own_node; [lia|apply HS|]. cbn [so_soKey].
  change (nodeEqual less (Some x) (soRegular (hash_of hash k)) k false)
    with (nodeEqual (V:=V) less (Some x) (sig k).1.1 (sig k).1.2 (sig k).2).
  eapply (wp_nodeEqual zeroK zeroV less hash Hhash _ _ _ _ _ (sig k));
    [lia|exact Hx|apply sig_for_ok|].
  destruct (holds less sx (sig k)) eqn:Hh; cbn beta iota delta [negb]; [|by apply del_none; [|apply Ha]].
  rewrite (so_mark_eq _ _ (continue tt) (λ value, act (add_u64 count_f (two64 - 1)) ;;; break (value, true))).
  eapply (wp_del_mark zeroV less one 1 (one_same less) one_range t k 0 load_val);
    [intros; by eapply (wp_so_val zeroK zeroV less hash Hhash)|done|exact Hr|exact Hp|exact Hc|exact Hw|
     exact Hx|done|exact Hsure|lia|..].
  - intros w1 n1 HR1 (n2 & L2 & [= <- <-] & Hretry & [Hr1 _]). apply wp_ret. intros w2 HR2 _.
    exists n1, (w_len w). split; [done|]. split; [by eapply retry_stable|].
    split; [by eapply list_ready_stable|]. eapply deleting_stable; [exact HR2|].
    by eapply deleting_stable.
  - intros w1 n1 v Hans Hn1. eapply (wp_count zeroK zeroV less hash Hhash); [lia|].
    intros w2 _ Hm2 _. apply del_done. by apply (answered_keeps _ _ _ _ _ _ _ _ _ _ (Hm2 0)).
Qed.

Lemma wp_del_loop n L w :
  ready t (MDel k) w → deleting w → room 1 12 n L w →
  wp t del_post (Refill n L)
    (loop (λ _ : unit,
      let! pc := search less (Some start) (Some target) in
      let! soKey := act (load_at nodes target so_soKey) in
      let! eq := nodeEqual less pc.2 soKey k false in
      if negb eq then break (zeroV, false)
      else
        let! sm := get pc.2 in
        if sm.2 : bool then continue tt
        else
          let! ok := compareAndSet pc.2 sm.1 sm.1 false true in
          if negb ok then continue tt
          else
            let! value := load_val pc.2 in
            compareAndSet pc.1 pc.2 sm.1 false false ;;;
            act (add_u64 count_f (two64 - 1)) ;;;
            break (value, true)) tt) w.
Proof using All.
  intros Hr HS (Hd & HL & Hn). unfold loop.
  apply (wp_loop Sp proto pg t _ (λ bu _ w, over bu w)).
  2:{ intros bu _ w1 w2 Ho HR.
      by eapply (over_stable zeroV less one 1 0 t (MDel k) deleting deleting_stable). }
  2:{ exists n, L. split; [done|]. split; [|by split]. split; [lia|]. split; [done|].
      intros E. specialize (Hn E). lia. }
  clear n L w Hr HS Hd HL Hn. intros bu _ w (n & L & -> & (Hn1 & HL & Hn) & Hr & HS) _.
  eexists. split; [by apply spend|]. rewrite so_search_eq.
  eapply (wp_attempt zeroV less one 1 (one_same less) one_range 0 ltac:(by apply Nat.leb_le) t (MDel k)
    (sig k) 0 (sig_for_ok k) (one_sig zeroK less hash Hhash (sig k))
    (so_ends zeroK (V:=V) less hash Hhash (sig k)) deleting deleting_stable (λ w cm Hi, Hi)
    (del_found zeroV less t k) (del_found_stable zeroV less one 1 t k)
    (λ x s w HI Ha Hx Hd Hlt Hm _, del_hook zeroV less one 1 t k 0 x s w HI (proj1 Ha) Hx Hd Hlt Hm)
    (passed less (Some target))); [..|done|done|done| |].
  - intros A' Q' x s n' L' q' w' Hn' HI' Hx [Hl _] Hq'.
    eapply (wp_passed zeroK zeroV less hash Hhash); [lia|exact Hl|done|exact Hx|].
    by eapply wp_less; [|exact Hq']; lia.
  - intros A' Q' n' L' q' w' Hn' [_ Hs'] HI' Hq'. cbn [bind].
    eapply wp_less; [|apply (Hq' w' start (dummy_sig b)); [reflexivity|done..|by apply dummy_before]]. lia.
  - intros E. specialize (Hn E). lia.
  - intros w1 p sp c curr B n1 HI1 HS1 Hhit. cbn [fst snd]. by eapply wp_del_at.
Qed.
End del.

Lemma split_Del_wp t k n L w :
  ready t (MDel k) w → room 34 40 n L w →
  wp t (del_post zeroV less t k) (Refill n L) (Del zeroK zeroV less hash k) w.
Proof.
  intros Hr Hroom. pose proof (proj1 Hroom) as Hn. unfold Del. wp_pure.
  eapply (wp_new_node (Shape0:=so_shape) zeroV less one 1 t _
    (SoNode (soRegular (hash_of hash k)) k None false None)); [lia|]. intros w1 l HI1 Hk Hl _.
  eapply (wp_bucket zeroK zeroV less hash Hhash t (MDel k) _ _ 1);
    [apply hash_of_range|lia| |by eapply ready_keeps| |].
  { by apply Nat.leb_le. }
  { eapply room_spend; [exact (room_evolves zeroK zeroV less hash Hhash _ _ _ _ _ _
      (keeps_evolves _ _ _ _ _ _ _ _ Hk) Hroom)|lia..]. }
  clear n L Hroom Hn. intros w3 x b n L Hf3 HI3 Hr3 Hx Hlt Hroom.
  apply (wp_del_loop t k l x b Hlt); [done| |eapply room_spend; [exact Hroom|lia..]].
  split; [apply (Hf3 (S l)); [lia|exact Hl]|done].
Qed.
End methods.
