(* ===== verification/LfSplitHashMap.v ===== *)
(** [lf.SplitHashMap] as a shared object ([lf/splithashmap.go]): a resizable hash
    table whose elements are in one list, in split order. *)

From S2P Require Export LfHashMap SplitMethods.
Local Open Scope prog_scope.

Module SplitHashMap.
Section split_map.
Context {K V : Type} (zeroK : K) (zeroV : V) (less : Less K) (hash : K → Z).
Abbreviation mem := (SplitMap.mem (K:=K) (V:=V)).
Abbreviation Sp := (lmap_spec zeroV (same_key less) (ascending_range (V:=V) less)).

Definition split_code (o : lmap_op K V) : prog mem (lmap_resp K V) :=
  match o with
  | MSet k v => SplitMap.Set_ zeroK less hash k v
  | MGet k => let! r := SplitMap.Get zeroK zeroV less hash k in Ret (MRVal r.1 r.2)
  | MContains k => let! b := SplitMap.Contains zeroK zeroV less hash k in Ret (MRBool b)
  | MDel k => let! r := SplitMap.Del zeroK zeroV less hash k in Ret (MRVal r.1 r.2)
  | MLen => let! n := SplitMap.Len in Ret (MRLen n)
  | MRange _ _ => panic
  end.

(** Any goroutine may call any method; there is no [Range]. *)
Definition split_object : object mem (lmap_op K V) (lmap_resp K V) :=
  Object (NewSplitHashMap zeroK) (λ _, split_code) (λ _ _ o _, HashMap.method_of o).

Context `{!WeakOrder less}.
(** Keys that [less] does not tell apart have the same hash. *)
Context (Hhash : ∀ k1 k2, same_key less k1 k2 = true → hash k1 = hash k2).
#[local] Hint Extern 0 (NodeOrder _ _) => exact (so_order zeroK less hash Hhash) : typeclass_instances.
#[local] Hint Extern 0 (Capacity _) => exact (so_capacity zeroK) : typeclass_instances.
#[local] Hint Extern 0 (Rest _ _) => exact (so_rest zeroK) : typeclass_instances.
Abbreviation one := (λ _ : K, 0).
Abbreviation aux := (list_aux V).
Abbreviation world := (world mem (lmap_op K V) (lmap_resp K V) aux).
Abbreviation Inv := (Inv zeroV less one 1).
Abbreviation proto := (list_proto zeroV less one 1).
Abbreviation pg := (LockFreeIn allowance).

(** ** A new table *)

Definition new_aux : aux :=
  ListAux {[0 := 0]} ∅ ∅ ∅ ∅ (set_seq 1 (max_buckets - 1)) ∅.

Lemma max_buckets_pos : 0 < max_buckets.
Proof. apply (max_buckets_lt 0); lia. Qed.

Lemma new_size n : base.size (home new_aux) + base.size (blanks new_aux) ≤ nbase + n.
Proof.
  unfold new_aux. cbn [home blanks]. rewrite map_size_singleton, size_set_seq.
  pose proof max_buckets_pos as Hpos. revert Hpos. change nbase with max_buckets.
  generalize max_buckets. lia.
Qed.

Lemma new_blanks b : b ∈ blanks new_aux ↔ 1 ≤ b < max_buckets.
Proof.
  unfold new_aux. cbn [blanks]. rewrite elem_of_set_seq.
  pose proof max_buckets_pos as Hpos. revert Hpos. generalize max_buckets. lia.
Qed.

Lemma new_table_ok P :
  P 0 0 (dummy_sig zeroK 0) → table_ok zeroK (sh_rest (NewSplitHashMap zeroK : mem)) ∅ P.
Proof.
  intros HP. split.
  - reflexivity.
  - intros a sg Ha. destruct a; [injection Ha as <-; reflexivity|done].
  - intros j a [(_ & [= <-] & _)|[_ H]]%list_lookup_insert_Some; [by split; [eexists|]|].
    by apply lookup_replicate in H as [? _].
  - intros j j' a [(<- & _)|[_ H]]%list_lookup_insert_Some [(<- & _)|[_ H']]%list_lookup_insert_Some;
      [done|by apply lookup_replicate in H' as [? _]|by apply lookup_replicate in H as [? _]..].
  - intros a u. by rewrite lookup_empty.
  - intros j a sg i x [(<- & [= <-] & _)|[_ H]]%list_lookup_insert_Some;
      [|by apply lookup_replicate in H as [? _]].
    intros Hsg. change (Some (<[0 := Some 0]> empty_segment) = Some sg) in Hsg.
    apply (inj Some) in Hsg as <-. intros [(<- & [= <-] & _)|[_ H]]%(list_lookup_insert_Some empty_segment); [done|].
    by apply lookup_replicate in H as [? _].
  - by exists 0, (<[0 := Some 0]> empty_segment), 0.
  - exists 1. split; [lia|reflexivity].
Qed.

Lemma new_split_inv : Inv (World (NewSplitHashMap zeroK) (Ghost [] ∅ 0 []) new_aux).
Proof.
  set (m := NewSplitHashMap zeroK : mem).
  assert (∀ l b, home new_aux !! l = Some b → l = 0 ∧ b = 0) as Hhome.
  { intros l b Hl. by apply (lookup_singleton_Some 0 l 0 b) in Hl as [<- <-]. }
  assert (∀ l, key_at less m l = None) as Hkey.
  { intros [|l]; [reflexivity|done]. }
  assert (home new_aux !! 0 = Some 0) as H00 by exact (lookup_singleton_eq 0 0).
  assert (∀ z, soRegular (hash_of hash z) > 0)%Z as Hpos.
  { intros z. pose proof (soDummy_before (hash_of hash z) 0 ltac:(lia) (hash_of_range hash z)) as Hlt.
    rewrite Z.mod_1_r in Hlt. by apply Z.lt_gt. }
  split; cbn [w_mem w_aux w_gh g_log g_thr].
  - intros l b [-> ->]%Hhome. exists (dummy_sig zeroK 0), (ListMarkable None false).
    split; try done.
    + exists 0%Z. split; [lia|done].
    + split; [done|]. by intros [? ?].
  - done.
  - intros [|b] h; [|done]. intros [= <-]. split; [exact H00|]. exists (dummy_sig zeroK 0).
    split; [done|]. split; [done|]. intros k. apply so_less_spec. left. apply Z.gt_lt, Hpos.
  - intros l b h [-> ->]%Hhome _ [= <-]. reflexivity.
  - intros l b k _ _. by rewrite Hkey.
  - by intros k [? ?].
  - by intros l d0 dp Hd.
  - by intros t l v Ht.
  - done.
  - by intros l t Ho.
  - by intros l Hl.
  - by intros l b y [-> ->]%Hhome _ ?.
  - by intros l b l' b' y [-> ->]%Hhome [-> ->]%Hhome.
  - apply new_size.
  - apply Nat.le_0_l.
  - intros b Hb. by apply new_blanks in Hb as [_ Hb].
  - intros b Hlt Hb. exists 0. split; [exact H00|].
    replace b with 0; [reflexivity|]. destruct b as [|b]; [done|]. destruct Hb.
    apply new_blanks. split; [apply le_n_S, Nat.le_0_l|exact Hlt].
  - apply new_table_ok. split; [exact H00|reflexivity].
Qed.

(** ** The methods *)

Lemma call_room t id o w :
  Inv w → g_thr (w_gh w) !! t = None →
  let w' := World (w_mem w) (g_call t id o (w_gh w)) (w_aux w) in
  good_step proto t w w' ∧ ready t o w' ∧
  room zeroK 34 40 (allowance (w_len w)) (w_len w) w'.
Proof.
  intros HI Hnone. assert (2 ≤ nrounds) as Hr by by apply Nat.leb_le.
  destruct (list_call_world zeroV less one 1 t id o w Hr HI Hnone) as (Hgood & Hready & Hn).
  split; [exact Hgood|]. split; [exact Hready|]. specialize (Hn 40 ltac:(lia)).
  change (nrounds - 2) with 38 in Hn.
  apply (room_spend zeroK 39 34 40 40 (allowance (w_len w))); [|lia..].
  split; [|split; [done|intros _]].
  - eapply Nat.le_trans; [|exact Hn]. apply Nat.le_add_l.
  - eapply Nat.le_trans; [|exact Hn]. by rewrite <-Nat.add_assoc.
Qed.

Lemma split_observes : verified_with Sp proto pg split_object (map_fact zeroV less).
Proof.
  split; [by exists new_aux; apply new_split_inv|].
  intros t id o w HI Hnone _ Hok. exists (w_aux w).
  destruct (call_room t id o w HI Hnone) as ([HI' HR'] & Hr & Hroom).
  split; [exact HI'|]. split; [exact HR'|].
  destruct (no_fact o) eqn:Ho; [eapply wp_mono; [intros b r w1 _; by apply no_fact_post|]|].
  2:{ destruct o as [| | |k| |]; try done. apply wp_bind.
    eapply wp_mono; [|by apply (split_Del_wp zeroK zeroV less hash Hhash t k)].
    intros bu r w1 _ Ha. by apply del_return. }
  cbn [ob_code split_object split_code]. destruct o as [k v|k|k|k| |from to].
  - by apply (split_Set_wp zeroK zeroV less hash Hhash).
  - apply wp_bind. eapply wp_mono; [|apply (split_Get_wp zeroK zeroV less hash Hhash t (MGet k) k); [exact Hr|]].
    + intros bu r w1 _ Hg. apply (list_return _ _ _ _ _ (MGet k)). by apply got_answers.
    + eapply room_spend; [exact Hroom|lia..].
  - apply wp_bind. eapply wp_mono; [|apply (split_Contains_wp zeroK zeroV less hash Hhash t k); [exact Hr|]].
    + intros bu r w1 _ Ha. by apply (list_return _ _ _ _ _ (MContains k)).
    + eapply room_spend; [exact Hroom|lia..].
  - done.
  - unfold SplitMap.Len. wp_pure. eapply wp_load; [apply spend; destruct Hroom; lia|].
    intros w1 HR1 HI1. apply (list_return _ _ _ _ _ MLen), answered_open; [|by intros st|exact I].
    by eapply list_ready_stable.
  - done.
Qed.

Lemma split_verified : verified Sp proto pg split_object.
Proof. apply (verified_without _ _ _ _ _ split_observes). Qed.

(** C20. The resizable hash map is linearizable to the same map as the list and
    the fixed-size table, while buckets are added by any of the methods and the
    table grows, for any hash function that respects the equality of keys, and the
    value that a [Del] returns was the current one at some moment between its call
    and its return; [Len] may return anything. *)
Theorem split_map_linearizable cs s :
  reaches split_object cs s → ∃ L,
  linearization Sp (sy_hist s) L ∧ dels_observed zeroV less (sy_hist s) L.
Proof using All.
  intros Hs. destruct (map_facts_linearization _ _ _ _ _ _ _ split_observes Hs) as (L & ? & _ & ?).
  by exists L.
Qed.

(** C21. Lock-freedom of the resizable hash map: a pending operation has taken at
    most [allowance n] steps, [n] the number of calls so far, for each operation
    that overlaps it and as many of its own; adding the sentinel of a bucket and
    those of all its ancestors is within that bound. *)
Theorem split_map_lock_free cs s t r :
  reaches split_object cs s → sy_thr s !! t = Some r →
  r_steps r ≤ allowance (length (called_ids (sy_hist s))) *
    (1 + overlap (sy_hist s) (r_id r)).
Proof using All.
  intros Hc Ht. eapply (verified_lockfree_in Sp proto); [apply split_verified|done..|].
  intros i Hi. unfold allowance, traversal. nia.
Qed.

(** No schedule makes a method panic: no index is out of range, no division by
    zero, and the recursion of [initBucket] ends. *)
Theorem split_map_no_panic cs : exec split_object cs (start split_object) ≠ Crash.
Proof using All. apply (verified_no_crash Sp proto _ pg), split_verified. Qed.

End split_map.

(** Two goroutines add the sentinel of bucket 1 for their first keys, and one is
    too late.  The ninth key makes the table grow from two to four buckets; the
    operations on the keys 10 and 3 add the sentinels of the buckets 2 and 3. *)
Abbreviation demo_object := (split_object 0%Z 0%Z Z.ltb HashMap.demo_hash).

Definition demo_race : list (cmd (lmap_op Z Z)) :=
  [Call 0 (MSet 1%Z 10%Z); Call 1 (MSet 3%Z 30%Z)] ++
  flat_map (λ _, [Step 0; Step 1]) (seq 0 38) ++ replicate 18 (Step 1).

Definition demo_schedule : list (cmd (lmap_op Z Z)) :=
  demo_race ++
  flat_map (λ '(o, n), Call 0 o :: replicate n (Step 0))
    [(MSet 2%Z 20%Z, 26); (MSet 4%Z 40%Z, 26); (MSet 5%Z 50%Z, 32); (MSet 6%Z 60%Z, 38);
     (MSet 7%Z 70%Z, 38); (MSet 8%Z 80%Z, 26); (MSet 9%Z 90%Z, 33); (MSet 10%Z 100%Z, 70);
     (MGet 6%Z, 21); (MGet 3%Z, 57); (MDel 3%Z, 29); (MContains 3%Z, 12); (MLen, 2)].

Lemma split_map_linearizable_witness : ∃ s L,
  reaches demo_object demo_schedule s ∧
  drop 20 (sy_hist s) =
    [EInv 0 20 (MGet 6%Z); ERes 0 20 (MRVal 60%Z true); EInv 0 22 (MGet 3%Z);
     ERes 0 22 (MRVal 30%Z true); EInv 0 24 (MDel 3%Z); ERes 0 24 (MRVal 30%Z true);
     EInv 0 26 (MContains 3%Z); ERes 0 26 (MRBool false); EInv 0 28 MLen; ERes 0 28 (MRLen 9%Z)] ∧
  linearization (lmap_spec 0%Z (same_key Z.ltb) (ascending_range Z.ltb)) (sy_hist s) L ∧
  dels_observed 0%Z Z.ltb (sy_hist s) L.
Proof.
  destruct (run_history_reaches demo_object demo_schedule _
    ltac:(vm_compute; reflexivity)) as (s & Hs & Hh).
  destruct (split_map_linearizable 0%Z 0%Z Z.ltb HashMap.demo_hash HashMap.demo_hash_same
    demo_schedule s Hs) as (L & HL).
  exists s, L. split; [exact Hs|]. split; [rewrite Hh; reflexivity|exact HL].
Defined.

Lemma split_map_lock_free_witness : ∃ s r,
  reaches demo_object (take 90 demo_race) s ∧ sy_thr s !! 1 = Some r ∧ r_steps r = 50 ∧
  r_steps r ≤ allowance (Capacity0:=so_capacity 0%Z) (length (called_ids (sy_hist s))) *
    (1 + overlap (sy_hist s) (r_id r)).
Proof.
  destruct (run_steps_reaches demo_object (take 90 demo_race) 1 50
    ltac:(vm_compute; reflexivity)) as (s & r & Hs & Hr & Hn).
  exists s, r. split; [exact Hs|]. split; [exact Hr|]. split; [exact Hn|].
  exact (split_map_lock_free 0%Z 0%Z Z.ltb HashMap.demo_hash HashMap.demo_hash_same
    (take 90 demo_race) s 1 r Hs Hr).
Defined.

End SplitHashMap.
