(* ===== verification/Search.v ===== *)
(** [BinarySearch] of [search.go]. *)

From S2P Require Export Order.
Open Scope Z_scope.

(** A run of the loop: it is not done, it indexed out of range, or it returned. *)
Inductive outcome :=
  | Running
  | Panicked
  | Returned (i : Z).

Section search.
Context {T : Type} (less : Less T).
Implicit Types (arr : list T) (x : T) (l r i : Z).

(** [arr[i]] *)
Definition index arr i : option T :=
  if bool_decide (0 <= i) then arr !! Z.to_nat i else None.

Fixpoint search_loop (fuel : nat) arr x l r : outcome :=
  match fuel with
  | O => Running
  | S fuel =>
      if bool_decide (l <= r) then
        let mid := Z.quot (i64 (l + r)) 2 in
        match index arr mid with
        | None => Panicked
        | Some y =>
            if less y x then search_loop fuel arr x (mid + 1) r
            else if less x y then search_loop fuel arr x l (mid - 1)
            else Returned mid
        end
      else Returned (-1)
  end.

Definition BinarySearch (fuel : nat) arr x : outcome :=
  search_loop fuel arr x 0 (Z.of_nat (length arr) - 1).

(** ** Correctness *)

Lemma index_spec arr i y : index arr i = Some y ↔ 0 <= i ∧ arr !! Z.to_nat i = Some y.
Proof. unfold index. case_bool_decide; naive_solver. Qed.

Lemma index_lt arr i : 0 <= i < Z.of_nat (length arr) → is_Some (index arr i).
Proof.
  intros Hi. unfold index. rewrite bool_decide_true by lia. apply lookup_lt_is_Some. lia.
Qed.

(** The array ascends; equal keys may repeat. *)
Definition ascending arr : Prop :=
  ∀ i j a b, i < j → index arr i = Some a → index arr j = Some b → less b a = false.

(** The bounds enclose every occurrence of [x]. *)
Definition enclosed arr x l r : Prop :=
  (∀ i y, i < l → index arr i = Some y → less y x = true) ∧
  (∀ i y, r < i → index arr i = Some y → less x y = true).

(** What the search answers: an index of [x], or -1 and [x] does not occur. *)
Definition answers arr x (o : outcome) : Prop :=
  match o with
  | Returned i =>
      (∃ y, index arr i = Some y ∧ same_key less x y = true) ∨
      (i = -1 ∧ ∀ j y, index arr j = Some y → same_key less x y = false)
  | _ => False
  end.

Lemma middle l r fuel :
  0 <= l -> l <= r -> r < 2 ^ 62 -> r - l + 1 < 2 ^ Z.of_nat (S fuel) ->
  let mid := Z.quot (i64 (l + r)) 2 in
  l <= mid <= r ∧ r - (mid + 1) + 1 < 2 ^ Z.of_nat fuel ∧
  (mid - 1) - l + 1 < 2 ^ Z.of_nat fuel.
Proof.
  intros Hl Hlr Hr Hf mid. subst mid. rewrite i64_small, Z.quot_div_nonneg by lia.
  rewrite Nat2Z.inj_succ, Z.pow_succ_r in Hf by lia.
  pose proof (Z.div_mod (l + r) 2). pose proof (Z.mod_pos_bound (l + r) 2). lia.
Qed.

(** In any array, sorted or not, the loop ends with an index or -1. *)
Lemma search_loop_ends fuel arr x l r :
  Z.of_nat (length arr) < 2 ^ 62 → 0 <= l → r < Z.of_nat (length arr) →
  r - l + 1 < 2 ^ Z.of_nat fuel →
  ∃ i, search_loop (S fuel) arr x l r = Returned i ∧
    (i = -1 ∨ ∃ y, index arr i = Some y ∧ same_key less x y = true).
Proof.
  intros Hlen. revert l r. induction fuel as [|fuel IH]; intros l r Hl Hr Hf.
  { simpl in Hf. exists (-1). cbn [search_loop]. rewrite bool_decide_false by lia. auto. }
  remember (S fuel) as f eqn:Ef. cbn [search_loop]. case_bool_decide; [|by eauto].
  subst f. destruct (middle l r fuel) as (Hm & ? & ?); [lia..|].
  set (mid := Z.quot (i64 (l + r)) 2) in *. clearbody mid.
  destruct (index_lt arr mid) as [y Hy]; [lia|]. rewrite Hy.
  destruct (less y x) eqn:E1; [apply IH; lia|].
  destruct (less x y) eqn:E2; [apply IH; lia|].
  exists mid. split; [done|]. right. exists y. split; [done|]. by apply same_key_spec.
Qed.

Context `{!WeakOrder less}.

(** Moving a bound past the middle keeps the occurrences inside. *)
Lemma enclosed_right arr x l r mid y :
  ascending arr → enclosed arr x l r → index arr mid = Some y → less y x = true →
  enclosed arr x (mid + 1) r.
Proof.
  intros Ha [Hl Hr] Hm Hy. split; [|done]. intros i z Hi Hz.
  destruct (decide (i = mid)) as [->|]; [congruence|].
  pose proof (Ha i mid z y ltac:(lia) Hz Hm). destruct (less_split y z x Hy); congruence.
Qed.

Lemma enclosed_left arr x l r mid y :
  ascending arr → enclosed arr x l r → index arr mid = Some y → less x y = true →
  enclosed arr x l (mid - 1).
Proof.
  intros Ha [Hl Hr] Hm Hy. split; [done|]. intros i z Hi Hz.
  destruct (decide (i = mid)) as [->|]; [congruence|].
  pose proof (Ha mid i y z ltac:(lia) Hm Hz). destruct (less_split x z y Hy); congruence.
Qed.

Lemma search_loop_answers fuel arr x l r i :
  ascending arr → enclosed arr x l r → search_loop fuel arr x l r = Returned i →
  answers arr x (Returned i).
Proof.
  intros Ha. revert l r. induction fuel as [|fuel IH]; [done|]. intros l r He.
  cbn [search_loop]. set (mid := Z.quot _ _). clearbody mid. case_bool_decide.
  - destruct (index arr mid) as [y|] eqn:Hy; [|done].
    destruct (less y x) eqn:E1; [by apply IH; eapply enclosed_right|].
    destruct (less x y) eqn:E2; [by apply IH; eapply enclosed_left|].
    intros [= <-]. left. exists y. split; [done|]. by apply same_key_spec.
  - intros [= <-]. right. split; [done|]. intros j y Hy.
    destruct (decide (j < l)) as [Hj|].
    + by destruct (less_not_same less y x); [by eapply He|].
    + by destruct (less_not_same less x y); [eapply He; [|done]; lia|].
Qed.

(** A check of the neighbours suffices. *)
Fixpoint ascendingb arr : bool :=
  match arr with
  | a :: ((b :: _) as arr') => negb (less b a) && ascendingb arr'
  | _ => true
  end.

Lemma ascendingb_head a arr b :
  ascendingb (a :: arr) = true → b ∈ arr → less b a = false.
Proof.
  revert a. induction arr as [|c arr IH]; intros a Ha Hb; [by inversion Hb|].
  apply andb_true_iff in Ha as [Hca%negb_true_iff Ha].
  apply elem_of_cons in Hb as [->|Hb]; [done|]. specialize (IH c Ha Hb).
  destruct (less b a) eqn:E; [|done]. destruct (less_split b c a E); congruence.
Qed.

Lemma ascendingb_ok arr : ascendingb arr = true → ascending arr.
Proof.
  intros Ha i j a b Hij [Hi Ea]%index_spec [Hj Eb]%index_spec.
  assert (Z.to_nat i < Z.to_nat j)%nat as Hlt by lia. clear Hi Hj Hij.
  generalize dependent (Z.to_nat j). generalize dependent (Z.to_nat i). clear i j.
  induction arr as [|c arr IH]; intros [|i] Ea [|j] Eb Hlt; try done || lia; simpl in Ea, Eb.
  - simplify_eq. eapply ascendingb_head; [exact Ha|]. by eapply list_elem_of_lookup_2.
  - assert (ascendingb arr = true) as Ha'.
    { clear - Ha. simpl in Ha. destruct arr; [done|by apply andb_true_iff in Ha as [_ ?]]. }
    apply (IH Ha' i Ea j Eb). lia.
Qed.

(** C28. On a slice in ascending order, [BinarySearch] ends within
    [log2 (len + 1) + 2] rounds, at an index whose element is neither smaller
    nor larger than [x], or with -1 and then there is no such index; no index
    on the way is out of range. *)
Theorem binary_search_finds arr x fuel :
  Z.of_nat (length arr) < 2 ^ 62 → ascending arr →
  Z.log2 (Z.of_nat (length arr) + 1) + 2 <= Z.of_nat fuel →
  answers arr x (BinarySearch fuel arr x).
Proof.
  intros Hlen Ha Hf. unfold BinarySearch. pose proof (Z.log2_nonneg (Z.of_nat (length arr) + 1)).
  destruct fuel as [|fuel]; [lia|].
  destruct (search_loop_ends fuel arr x 0 (Z.of_nat (length arr) - 1)) as (i & E & _); [lia..| |].
  { pose proof (Z.log2_spec (Z.of_nat (length arr) + 1)) as [_ Hlog]; [lia|].
    pose proof (Z.pow_le_mono_r 2 (Z.succ (Z.log2 (Z.of_nat (length arr) + 1))) (Z.of_nat fuel)).
    lia. }
  rewrite E. eapply search_loop_answers; [done| |exact E]. split.
  - intros i' y Hi [? _]%index_spec. lia.
  - intros i' y Hi [_ Hy%lookup_lt_Some]%index_spec. lia.
Qed.
End search.

Lemma binary_search_finds_witness :
  BinarySearch Z.ltb 4 [10; 20; 20; 30; 50] 30 = Returned 3 ∧
  answers Z.ltb [10; 20; 20; 30; 50] 35 (BinarySearch Z.ltb 4 [10; 20; 20; 30; 50] 35).
Proof.
  split; [reflexivity|]. apply (binary_search_finds Z.ltb); [reflexivity| |vm_compute; discriminate].
  exact (ascendingb_ok Z.ltb [10; 20; 20; 30; 50] eq_refl).
Defined.
