(* ===== verification/Arithmetic.v ===== *)
(** [AddFloat64] of [arithmetic.go].

    A [float64] is its 64 bits, as in the memory the code works on;
    [math.Float64frombits] and [math.Float64bits] reinterpret them and change
    nothing.  The sum is the IEEE 754 addition of SpecFloat. *)

From S2P Require Export Rules.
From Stdlib Require Import SpecFloat.

(** ** [float64] *)

Section float64.
Open Scope Z_scope.

(** The platform chooses the bits of a sum that is not a number. *)
Context (nan : Z → Z → Z).

Definition of_bits (b : Z) : spec_float :=
  let s := Z.testbit b 63 in
  let e := Z.land (Z.shiftr b 52) (Z.ones 11) in
  let m := Z.land b (Z.ones 52) in
  if e =? 2047 then (if m =? 0 then S754_infinity s else S754_nan)
  else if e =? 0 then
    match m with Zpos m => S754_finite s m (-1074) | _ => S754_zero s end
  else S754_finite s (Z.to_pos (m + 2 ^ 52)) (e - 1075).

Definition sign_bit (s : bool) : Z := if s then 2 ^ 63 else 0.

(** The bits of a number; [None] for a NaN. *)
Definition to_bits (f : spec_float) : option Z :=
  match f with
  | S754_zero s => Some (sign_bit s)
  | S754_infinity s => Some (sign_bit s + Z.shiftl 2047 52)
  | S754_nan => None
  | S754_finite s m e =>
      Some (sign_bit s +
        (if Zpos m <? 2 ^ 52 then Zpos m
         else Z.shiftl (e + 1075) 52 + (Zpos m - 2 ^ 52)))
  end.

Definition fadd (a b : Z) : Z :=
  match to_bits (SFadd 53 1024 (of_bits a) (of_bits b)) with
  | Some r => r
  | None => nan a b
  end.
End float64.

(** Checks of the model: 1.5 + 2.25 = 3.75; 0.1 + 0.2 = 0.30000000000000004; the
    largest number doubled is infinite. *)
Example fadd_exact : fadd (λ a _, a) 0x3FF8000000000000 0x4002000000000000 = 0x400E000000000000%Z.
Proof. reflexivity. Qed.

Example fadd_rounds : fadd (λ a _, a) 0x3FB999999999999A 0x3FC999999999999A = 0x3FD3333333333334%Z.
Proof. reflexivity. Qed.

Example fadd_overflows : fadd (λ a _, a) 0x7FEFFFFFFFFFFFFF 0x7FEFFFFFFFFFFFFF = 0x7FF0000000000000%Z.
Proof. reflexivity. Qed.

(** ** [AddFloat64] *)

Section add_float64.
Context (nan : Z → Z → Z).

(** The memory is the variable at [addr]; an operation is its [delta]. *)
Definition addr : field Z Z := Field (λ m, m) (λ v _, v).

(** The result variable [new] is never assigned: it is 0. *)
Definition AddFloat64 (delta : Z) : prog Z Z :=
  loop (λ _ : unit,
    let! old := act (load (f_get addr)) in
    let! ok := act (cas addr old (fadd nan old delta)) in
    if ok : bool then break tt else continue tt) tt ;;;
  Ret 0%Z.

Definition float_object (init : Z) : object Z Z Z :=
  Object init (λ _, AddFloat64) (λ _ _ _ _, true).

(** The variable is added to atomically, and every call returns 0. *)
Definition float_spec (init : Z) : spec Z Z Z :=
  Spec init (λ v delta, (fadd nan v delta, Some 0%Z)).

Section proof.
Context (init : Z).
Abbreviation Sp := (float_spec init).
Abbreviation world := (world Z Z Z unit).
Implicit Types (w : world) (t L : nat).

Definition Inv w : Prop := w_mem w = g_state Sp (w_gh w).

(** A change of the variable is an addition that took effect. *)
Record R (t : nat) w w' : Prop := {
  r_mem : w_len w' = w_len w → w_mem w' = w_mem w;
  r_quiet : quiet t (w_gh w) (w_gh w')
}.

Lemma float_R_order t : PreOrder (R t).
Proof.
  split; [by split|]. intros w1 w2 w3 [M1 Q1] [M2 Q2]. split; [|by etrans].
  intros Hlen. destruct Q1 as [_ ?%prefix_length], Q2 as [_ ?%prefix_length].
  unfold w_len in *. rewrite M2, M1; [done|lia..].
Qed.

Definition proto : protocol Z Z Z unit := Protocol Inv R float_R_order.
Abbreviation rely := (pr_rely proto).
Definition steps : nat := 3.
Abbreviation pg := (LockFree steps).
Abbreviation wp t := (wp Sp proto pg t (post Sp proto t)).

(** The [CompareAndSwap] succeeds: the addition takes effect. *)
Lemma float_cas t delta w :
  Inv w → pending (w_gh w) t delta →
  let w' := upd Sp w (fadd nan (w_mem w) delta) [t] tt in
  good_step proto t w w' ∧ finished (w_gh w') t 0%Z.
Proof.
  intros HI Hp w'. destruct (lin1_pending Sp _ _ _ _ Hp eq_refl) as (Hf & Hst & Hlen & _).
  split; [split|exact Hf].
  - etrans; [|symmetry; exact Hst]. simpl. by rewrite HI.
  - intros u Hu. split; unfold w_len; simpl; [rewrite Hlen; lia|by apply quiet_lin1].
Qed.

Lemma float_return_world t r w :
  Inv w → good_step proto t w (World (w_mem w) (g_ret t r (w_gh w)) tt).
Proof.
  intros HI. split; [exact HI|]. intros u Hu. split; [done|by apply quiet_ret].
Qed.

Lemma float_return t b r w : finished (w_gh w) t r → wp t b (Ret r) w.
Proof.
  intros Hf. apply wp_ret. intros w1 HR HI.
  apply (finished_quiet _ _ _ _) with (2 := r_quiet _ _ _ HR) in Hf.
  destruct (finished_ret_ok Sp _ _ _ Hf) as (p & Hp & Hret).
  exists p. split; [done|]. split; [done|]. exists tt. by apply float_return_world.
Qed.

(** At the head of the loop. *)
Definition adding t delta (b : budget) (_ : unit) w : Prop :=
  pending (w_gh w) t delta ∧ ∃ n L, b = Refill (3 + n) L ∧ L ≤ w_len w.

Lemma adding_stable t delta b v w w' :
  adding t delta b v w → rely t w w' → adding t delta b v w'.
Proof.
  intros (Hp & n & L & -> & HL) HR. destruct (r_quiet _ _ _ HR) as [_ Hle%prefix_length].
  split; [eapply pending_quiet; [exact Hp|apply (r_quiet _ _ _ HR)]|].
  exists n, L. split; [done|]. unfold w_len in *. lia.
Qed.

Lemma AddFloat64_wp t delta b w : adding t delta b tt w → wp t b (AddFloat64 delta) w.
Proof.
  intros Hw. apply wp_bind. apply (wp_loop Sp proto pg t _ (adding t delta));
    [clear b w Hw|intros b' v w1 w2; apply adding_stable|done].
  intros b [] w (Hp & n & L & -> & HL) _. eexists. split; [reflexivity|].
  wp_go wp_load as w1 HR1 HI1. destruct (r_quiet _ _ _ HR1) as [_ Hle1%prefix_length].
  wp_go wp_cas as w2 HR2 HI2; intros Hmem; simpl in Hmem;
    destruct (r_quiet _ _ _ HR2) as [Hq2 Hle2%prefix_length];
    assert (rely t w w2) as HR by by etrans.
  - destruct (float_cas t delta w2 HI2) as [Hgood Hf];
      [eapply pending_quiet; [exact Hp|apply (r_quiet _ _ _ HR)]|].
    simpl. rewrite <-Hmem. eexists [t], tt. split; [exact Hgood|].
    apply wp_ret. intros w3 HR3 _. apply wp_ret. intros w4 HR4 _. apply float_return.
    eapply finished_quiet; [exact Hf|]. etrans; [apply (r_quiet _ _ _ HR3)|apply (r_quiet _ _ _ HR4)].
  - assert (L < w_len w2) as Hlt.
    { unfold w_len in *. enough (length (g_log (w_gh w2)) ≠ length (g_log (w_gh w1))) by lia.
      intros E. by apply Hmem, (r_mem _ _ _ HR2). }
    eapply wp_refill; [done|]. intros w3 HR3 _.
    destruct (r_quiet _ _ _ HR3) as [_ Hle3%prefix_length]. unfold w_len in *.
    split; [lia|]. apply wp_ret. intros w4 HR4 _.
    destruct (r_quiet _ _ _ HR4) as [_ Hle4%prefix_length].
    assert (rely t w w4) as HR' by (etrans; [exact HR|]; by etrans).
    split; [eapply pending_quiet; [exact Hp|apply (r_quiet _ _ _ HR')]|].
    exists 0, (length (g_log (w_gh w3))). split; [done|unfold w_len; lia].
Qed.

Lemma float_verified : verified Sp proto pg (float_object init).
Proof.
  split; [by exists tt|]. intros t id o w HI Hnone _ _. exists tt.
  split; [exact HI|]. split.
  - intros u Hu. split; [done|by apply quiet_call].
  - apply AddFloat64_wp. split; [apply pending_call|].
    exists 0, (w_len w). split; [done|]. unfold w_len. simpl. lia.
Qed.

(** C29. [AddFloat64] is atomic: under every schedule of concurrent calls the
    history is that of one addition after the other, each of which adds its
    delta to the variable, in some order that respects real time; but a call
    returns 0, not the new value. *)
Theorem add_float64_linearizable cs s :
  reaches (float_object init) cs s → linearizable Sp (sy_hist s).
Proof. apply (verified_linearizable Sp proto _ pg), float_verified. Qed.

(** It is lock-free: a pending call has taken at most three steps for each
    call that overlaps it, and three of its own. *)
Theorem add_float64_lock_free cs s t r :
  reaches (float_object init) cs s → sy_thr s !! t = Some r →
  r_steps r ≤ 3 * (1 + overlap (sy_hist s) (r_id r)).
Proof. apply (verified_lockfree Sp proto _ pg); [apply float_verified|done]. Qed.
End proof.
End add_float64.

(** Two concurrent additions of 1.5 and 2.25 to 0.0. *)
Definition add_schedule : list (cmd Z) :=
  [Call 0 0x3FF8000000000000%Z; Call 1 0x4002000000000000%Z] ++
  concat (replicate 3 [Step 0; Step 1]) ++ Step 0 :: replicate 4 (Step 1).

Definition demo_float : object Z Z Z := float_object (λ a _, a) 0%Z.

Lemma add_float64_linearizable_witness : ∃ s,
  reaches demo_float add_schedule s ∧
  sy_hist s = [EInv 0 0 0x3FF8000000000000%Z; EInv 1 1 0x4002000000000000%Z;
               ERes 0 0 0%Z; ERes 1 1 0%Z] ∧
  linearizable (float_spec (λ a _, a) 0%Z) (sy_hist s).
Proof.
  destruct (run_history_reaches demo_float add_schedule _
    ltac:(vm_compute; reflexivity)) as (s & Hs & Hh).
  exists s. split; [exact Hs|]. split; [exact Hh|].
  exact (add_float64_linearizable (λ a _, a) 0%Z add_schedule s Hs).
Defined.

Lemma add_float64_lock_free_witness : ∃ s r,
  reaches demo_float (take 9 add_schedule) s ∧ sy_thr s !! 1 = Some r ∧
  r_steps r = 3 ∧ r_steps r ≤ 3 * (1 + overlap (sy_hist s) (r_id r)).
Proof.
  destruct (run_steps_reaches demo_float (take 9 add_schedule) 1 3
    ltac:(vm_compute; reflexivity)) as (s & r & Hs & Hr & Hn).
  exists s, r. split; [exact Hs|]. split; [exact Hr|]. split; [exact Hn|].
  exact (add_float64_lock_free (λ a _, a) 0%Z (take 9 add_schedule) s 1 r Hs Hr).
Defined.

(** A call that adds 1.0 to a variable holding 0.0 leaves 1.0 there and returns 0.0. *)
Example add_float64_returns_zero (nan : Z → Z → Z) : ∃ s,
  reaches (float_object nan 0%Z) (Call 0 0x3FF0000000000000%Z :: replicate 4 (Step 0)) s ∧
  sy_mem s = 0x3FF0000000000000%Z ∧
  sy_hist s = [EInv 0 0 0x3FF0000000000000%Z; ERes 0 0 0%Z].
Proof. eexists. split; [vm_compute; reflexivity|]. by split. Qed.
