(* ===== verification/WfQueueCode.v ===== *)
(** [wf.Queue]: the wait-free queue of Kogan and Petrank ([wf/queue.go]).

    The code: each operation is announced as a descriptor with a phase in the
    slot of its participant, and everybody completes the announced operations
    with a phase not above their own.  The operations are [UApply tid op] as for
    the structures of Universal.v, and [UHandle] registers a participant. *)

From S2P Require Export Rules Adt Universal.

Module WfQueue.

(** A method called through a handle. *)
Inductive queueOp (T : Type) :=
  | enqueueOp (v : T)
  | dequeueOp.
Arguments enqueueOp {_}.
Arguments dequeueOp {_}.

(** A queue node; [noTid] marks one that no dequeuer has claimed. *)
Record node (T : Type) := Node {
  value : T;
  next : option loc;
  enqTid : Z;
  deqTid : Z
}.
Arguments Node {_}.
Arguments value {_}.
Arguments next {_}.
Arguments enqTid {_}.
Arguments deqTid {_}.

Definition noTid : Z := (-1)%Z.

(** An operation descriptor; it is never written after its allocation. *)
Record opDesc := OpDesc {
  phase : Z;
  od_pending : bool;
  enqueue : bool;
  od_node : option loc
}.

Record mem (T : Type) := Mem {
  nodes : list (node T);
  descs : list opDesc;
  head : option loc;
  tail : option loc;
  state : list (option loc);
  cursor : Z
}.
Arguments Mem {_}.
Arguments nodes {_}.
Arguments descs {_}.
Arguments head {_}.
Arguments tail {_}.
Arguments state {_}.
Arguments cursor {_}.

Section code.
Context {T : Type} (zero : T).
Abbreviation node := (node T).
Abbreviation mem := (mem T).

Definition next_f : field node (option loc) :=
  Field next (λ p x, Node (value x) p (enqTid x) (deqTid x)).
Definition deqTid_f : field node Z :=
  Field deqTid (λ i x, Node (value x) (next x) (enqTid x) i).

Definition nodes_f : field mem (list node) :=
  Field nodes (λ h m, Mem h (descs m) (head m) (tail m) (state m) (cursor m)).
Definition descs_f : field mem (list opDesc) :=
  Field descs (λ h m, Mem (nodes m) h (head m) (tail m) (state m) (cursor m)).
Definition head_f : field mem (option loc) :=
  Field head (λ p m, Mem (nodes m) (descs m) p (tail m) (state m) (cursor m)).
Definition tail_f : field mem (option loc) :=
  Field tail (λ p m, Mem (nodes m) (descs m) (head m) p (state m) (cursor m)).
Definition state_f : field mem (list (option loc)) :=
  Field state (λ l m, Mem (nodes m) (descs m) (head m) (tail m) l (cursor m)).
Definition cursor_f : field mem Z :=
  Field cursor (λ c m, Mem (nodes m) (descs m) (head m) (tail m) (state m) c).

Definition newNode (v : T) (tid : Z) : prog mem loc :=
  let! l := act (new nodes_f (Node v None tid 0)) in
  act (store_at nodes_f l deqTid_f noTid) ;;;
  Ret l.

(** The memory [NewQueue] sets up: the sentinel, and one descriptor of a
    completed operation per slot. *)
Definition new_mem (n : nat) : mem :=
  Mem [Node zero None noTid noTid] (replicate n (OpDesc (-1) false true None))
    (Some 0) (Some 0) (Some <$> seq 0 n) 0.

(** The constructor; [None] is its panic. *)
Definition NewQueue (maxHandles : Z) : option mem :=
  if bool_decide (maxHandles < 1)%Z then None
  else Some (new_mem (Z.to_nat maxHandles)).

(** [n] is [max], the length of the announce array. *)
Context (n : nat).

Definition Handle : prog mem (uresp (resp T)) :=
  let! c := act (add_i64 cursor_f 1) in
  let id := i64 (c - 1) in
  if bool_decide (id >= Z.of_nat n)%Z then Ret RPanic else Ret (RHandle id).

Definition maxPhase : prog mem Z :=
  loop (λ '(i, maxP),
    if bool_decide (i < Z.of_nat n)%Z then
      let! d := act (load_idx state i) in
      let! p := act (load_ptr descs d phase) in
      continue ((i + 1)%Z, if bool_decide (p > maxP)%Z then p else maxP)
    else break maxP) (0%Z, (-1)%Z).

Definition isStillPending (tid : Z) (ph : Z) : prog mem bool :=
  let! d := act (load_idx state tid) in
  let! b := act (load_ptr descs d od_pending) in
  if b : bool then
    let! p := act (load_ptr descs d phase) in
    Ret (bool_decide (p <= ph)%Z)
  else Ret false.

Definition helpFinishEnq : prog mem unit :=
  let! last := act (load tail) in
  let! nx := act (load_ptr nodes last next) in
  match nx with
  | None => Ret tt
  | Some _ =>
      let! tid := act (load_ptr nodes nx enqTid) in
      let! curDesc := act (load_idx state tid) in
      let! last' := act (load tail) in
      if decide (last = last') then
        let! d := act (load_idx state tid) in
        let! nd := act (load_ptr descs d od_node) in
        if decide (nd = nx) then
          let! ph := act (load_ptr descs curDesc phase) in
          let! newDesc := act (new descs_f (OpDesc ph false true nx)) in
          act (cas_idx state_f tid curDesc (Some newDesc)) ;;;
          act (cas tail_f last nx) ;;;
          Ret tt
        else Ret tt
      else Ret tt
  end.

Definition helpEnq (tid : Z) (ph : Z) : prog mem unit :=
  loop (λ _ : unit,
    let! go := isStillPending tid ph in
    if go : bool then
      let! last := act (load tail) in
      let! nx := act (load_ptr nodes last next) in
      let! last' := act (load tail) in
      if decide (last = last') then
        match nx with
        | None =>
            let! go := isStillPending tid ph in
            if go : bool then
              let! d := act (load_idx state tid) in
              let! nd := act (load_ptr descs d od_node) in
              let! ok := act (cas_ptr nodes_f last next_f None nd) in
              if ok : bool then
                helpFinishEnq ;;;
                break tt
              else continue tt
            else break tt
        | Some _ =>
            helpFinishEnq ;;;
            continue tt
        end
      else continue tt
    else break tt) tt.

Definition helpFinishDeq : prog mem unit :=
  let! first := act (load head) in
  let! nx := act (load_ptr nodes first next) in
  let! tid := act (load_ptr nodes first deqTid) in
  if bool_decide (tid = noTid) then Ret tt
  else
    let! curDesc := act (load_idx state tid) in
    let! first' := act (load head) in
    if decide (first = first') then
      match nx with
      | None => Ret tt
      | Some _ =>
          let! ph := act (load_ptr descs curDesc phase) in
          let! e := act (load_ptr descs curDesc enqueue) in
          let! nd := act (load_ptr descs curDesc od_node) in
          let! newDesc := act (new descs_f (OpDesc ph false e nd)) in
          act (cas_idx state_f tid curDesc (Some newDesc)) ;;;
          act (cas head_f first nx) ;;;
          Ret tt
      end
    else Ret tt.

(** The rest of a round of [helpDeq] that found the queue empty or its tail
    lagging. *)
Definition helpDeq_empty (tid ph : Z) (last nx : option loc) : prog mem unit :=
  match nx with
  | None =>
      let! curDesc := act (load_idx state tid) in
      let! last' := act (load tail) in
      if decide (last = last') then
        let! go := isStillPending tid ph in
        if go : bool then
          let! p := act (load_ptr descs curDesc phase) in
          let! newDesc := act (new descs_f (OpDesc p false false None)) in
          act (cas_idx state_f tid curDesc (Some newDesc)) ;;;
          Ret tt
        else Ret tt
      else Ret tt
  | Some _ => helpFinishEnq
  end.

(** The claim of the head node, after its candidate was recorded. *)
Definition helpDeq_claim (tid : Z) (first : option loc) : prog mem unit :=
  act (cas_ptr nodes_f first deqTid_f noTid tid) ;;;
  helpFinishDeq.

(** The rest of a round that found the queue nonempty; the result is whether
    the loop goes on. *)
Definition helpDeq_first (tid ph : Z) (first : option loc) : prog mem bool :=
  let! curDesc := act (load_idx state tid) in
  let! nd := act (load_ptr descs curDesc od_node) in
  let! go := isStillPending tid ph in
  if go : bool then
    let! first' := act (load head) in
    if decide (first = first') then
      if decide (nd = first) then
        helpDeq_claim tid first ;;;
        Ret true
      else
        let! p := act (load_ptr descs curDesc phase) in
        let! newDesc := act (new descs_f (OpDesc p true false first)) in
        let! ok := act (cas_idx state_f tid curDesc (Some newDesc)) in
        if ok : bool then
          helpDeq_claim tid first ;;;
          Ret true
        else Ret true
    else
      helpDeq_claim tid first ;;;
      Ret true
  else Ret false.

Definition helpDeq (tid : Z) (ph : Z) : prog mem unit :=
  loop (λ _ : unit,
    let! go := isStillPending tid ph in
    if go : bool then
      let! first := act (load head) in
      let! last := act (load tail) in
      let! nx := act (load_ptr nodes first next) in
      let! first' := act (load head) in
      if decide (first = first') then
        if decide (first = last) then
          helpDeq_empty tid ph last nx ;;;
          continue tt
        else
          let! more := helpDeq_first tid ph first in
          if more : bool then continue tt else break tt
      else continue tt
    else break tt) tt.

Definition help (ph : Z) : prog mem unit :=
  loop (λ i,
    if bool_decide (i < Z.of_nat n)%Z then
      let! desc := act (load_idx state i) in
      let! b := act (load_ptr descs desc od_pending) in
      if b : bool then
        let! p := act (load_ptr descs desc phase) in
        if bool_decide (p <= ph)%Z then
          let! e := act (load_ptr descs desc enqueue) in
          (if e : bool then helpEnq i ph else helpDeq i ph) ;;;
          continue (i + 1)%Z
        else continue (i + 1)%Z
      else continue (i + 1)%Z
    else break tt) 0%Z.

Definition enq (tid : nat) (v : T) : prog mem unit :=
  let! mp := maxPhase in
  let ph := i64 (mp + 1) in
  let! nd := newNode v (Z.of_nat tid) in
  let! d := act (new descs_f (OpDesc ph true true (Some nd))) in
  act (store_idx state_f (Z.of_nat tid) (Some d)) ;;;
  help ph ;;;
  helpFinishEnq.

Definition deq (tid : nat) : prog mem (T * bool) :=
  let! mp := maxPhase in
  let ph := i64 (mp + 1) in
  let! d := act (new descs_f (OpDesc ph true false None)) in
  act (store_idx state_f (Z.of_nat tid) (Some d)) ;;;
  help ph ;;;
  helpFinishDeq ;;;
  let! d := act (load_idx state (Z.of_nat tid)) in
  let! nd := act (load_ptr descs d od_node) in
  match nd with
  | None => Ret (zero, false)
  | Some _ =>
      let! nx := act (load_ptr nodes nd next) in
      let! v := act (load_ptr nodes nx value) in
      Ret (v, true)
  end.

Definition Enqueue (tid : nat) (v : T) : prog mem (uresp (resp T)) :=
  enq tid v ;;;
  Ret (RApply RDone).

Definition Dequeue (tid : nat) : prog mem (uresp (resp T)) :=
  let! r := deq tid in
  Ret (RApply (RVal r.1 r.2)).

Definition code (_ : nat) (o : uop (queueOp T)) : prog mem (uresp (resp T)) :=
  match o with
  | UHandle => Handle
  | UApply tid (enqueueOp v) => Enqueue tid v
  | UApply tid dequeueOp => Dequeue tid
  end.

(** The contract of the handles, as in Universal.v: a handle is used after the
    cursor gave it out, and by one goroutine at a time, which is then labelled with its
    id; a program calls fewer than 2^62 methods, so phases do not wrap. *)
Definition allowed (t calls : nat) (o : uop (queueOp T)) (m : mem) : bool :=
  bool_decide (Z.of_nat calls < 2 ^ 62)%Z &&
  match o with
  | UHandle => true
  | UApply tid _ =>
      bool_decide (t = tid) && bool_decide (tid < n) &&
      bool_decide (Z.of_nat tid < cursor m)%Z
  end.

Definition queue_object (m : mem) : object mem (uop (queueOp T)) (uresp (resp T)) :=
  Object m code allowed.

(** ** The abstract queue *)

Definition queue_adt (op : queueOp T) : Adt.queue_op T :=
  match op with enqueueOp v => Adt.Enqueue v | dequeueOp => Adt.Dequeue end.

Definition wf_queue_spec : spec (list T) (queueOp T) (resp T) :=
  Spec [] (λ s op, queue_step zero s (queue_adt op)).
End code.
End WfQueue.
