(* ===== verification/WfQueueInv.v ===== *)
(** The invariant of [wf.Queue], and what its participants rely on.

    The nodes ever linked form a chain; [front] and [back] are the positions of
    the head and the tail in it.  The nodes before [length claims] are claimed
    by dequeuers, so the queue holds the values behind the last claimed one.
    An announced operation is pending until its node is linked, or a node is
    claimed for it, or the queue was seen empty on its behalf. *)

From S2P Require Export WfQueueCode.
Import WfQueue.

Module WfQueueInv.
Section invariant.
Context {T : Type} (zero : T) (n : nat).
Abbreviation node := (node T).
Abbreviation mem := (mem T).
Abbreviation qop := (uop (queueOp T)).
Abbreviation qresp := (uresp (resp T)).
Abbreviation USp := (uspec (wf_queue_spec zero) n).

(** [claims] lists the dequeuer of each claimed node.  [ann] maps a participant
    whose operation is announced to the time of its announcement and the
    position of the head then; [flr] bounds from below the next candidate
    recorded for its dequeue.  [mine] is the node of its enqueue, [snap] the
    phases of all slots when its operation was called.  [todo] holds the
    called operations that did not yet announce, or add to the cursor. *)
Record aux := Aux {
  chain : list (loc * T);
  claims : list nat;
  front : nat;
  back : nat;
  ann : gmap nat (nat * nat);
  flr : nat → nat;
  mine : gmap nat loc;
  snap : nat → nat → Z;
  todo : gset nat;
  calls : nat
}.

Abbreviation world := (world mem qop qresp aux).
Implicit Types (w : world) (k t i j a h : nat) (l : loc) (X : opDesc).

(** ** Positions *)

Definition at_pos j l (v : T) w : Prop := chain (w_aux w) !! j = Some (l, v).

Definition linked l w : Prop := l ∈ (chain (w_aux w)).*1.

Global Instance linked_dec l w : Decision (linked l w).
Proof. unfold linked. apply _. Defined.

Definition succ j w : option loc := fst <$> chain (w_aux w) !! S j.

(** The tail has reached node [l]. *)
Definition past l w : Prop := ∃ j v, at_pos j l v w ∧ j ≤ back (w_aux w).

Definition claim_of (o : option nat) : Z :=
  match o with Some k => Z.of_nat k | None => noTid end.

(** ** Operations *)

Definition desc_of k w : option opDesc :=
  match state (w_mem w) !! k with Some (Some c) => descs (w_mem w) !! c | _ => None end.

Definition phase_of k w : Z :=
  match desc_of k w with Some X => phase X | None => (-1)%Z end.

(** Operation [i] of participant [k] is under way. *)
Definition running k i (o : qop) (lo : nat) w : Prop :=
  i < g_now (w_gh w) ∧ ∃ lin, g_thr (w_gh w) !! k = Some (Pend i o lo lin).

Definition on k i w : Prop := ∃ o lo, running k i o lo w.

(** It is announced; its descriptor is pending; it is not. *)
Definition annd k i w : Prop := on k i w ∧ is_Some (ann (w_aux w) !! k).

Definition waiting k w : Prop := ∃ X, desc_of k w = Some X ∧ od_pending X = true.

Definition settled k w : Prop := ∃ X, desc_of k w = Some X ∧ od_pending X = false.

Definition active k i w : Prop := annd k i w ∧ waiting k w.

(** ** Progress

    How many more nodes [v] may get linked or claimed while an operation
    announced at time [a] waits: one called later has to complete that operation
    before it returns. *)
Definition allow v a w : nat :=
  match g_thr (w_gh w) !! v with
  | Some (Pend id (UApply _ _) _ lin) =>
      (if lin is None then 1 else 0) + (if bool_decide (a ≤ id) then 0 else 1)
  | _ => 1
  end.

Definition allowance a w : nat := sum_list_with (λ v, allow v a w) (seq 0 n).

Definition ann_time k w : nat :=
  match ann (w_aux w) !! k with Some (a, _) => a | None => 0 end.

(** What bounds the rounds of helping the operation of [k]. *)
Definition pot k w : nat :=
  4 * allowance (ann_time k w) w + 2 * (length (chain (w_aux w)) - back (w_aux w)) +
  2 * (length (claims (w_aux w)) - front (w_aux w)) + (S (front (w_aux w)) - flr (w_aux w) k).

(** Every step towards settling it is paid for: the links, claims and moves of
    the ends, and the candidates recorded for it. *)
Definition events k w : nat :=
  length (chain (w_aux w)) + back (w_aux w) + length (claims (w_aux w)) +
  front (w_aux w) + flr (w_aux w) k.

Definition spent k w w' : Prop :=
  pot k w' + events k w' ≤ pot k w + events k w ∧ flr (w_aux w) k ≤ flr (w_aux w') k ∧
  (state (w_mem w') !! k = state (w_mem w) !! k ∨ flr (w_aux w) k < flr (w_aux w') k).

Definition max_pot : nat := 8 * n + 7.

(** ** The slots *)

(** An announced enqueue of [v] by [k]. *)
Definition enq_ok k (v : T) X w : Prop :=
  enqueue X = true ∧ ∃ N, od_node X = Some N ∧ mine (w_aux w) !! k = Some N ∧
  ((¬ linked N w ∧ od_pending X = true ∧ pending (w_gh w) k (UApply k (enqueueOp v))) ∨
   (linked N w ∧ finished (w_gh w) k (RApply RDone) ∧
    (od_pending X = true → ∃ u, at_pos (S (back (w_aux w))) N u w))).

(** An announced dequeue by [k], the head having been at position [h]. *)
Definition deq_ok k h X w : Prop :=
  enqueue X = false ∧ mine (w_aux w) !! k = None ∧ h ≤ front (w_aux w) ∧
  match od_node X with
  | None =>
      (∀ j, h ≤ j → claims (w_aux w) !! j ≠ Some k) ∧
      ((od_pending X = true ∧ flr (w_aux w) k = h ∧
        pending (w_gh w) k (UApply k dequeueOp)) ∨
       (od_pending X = false ∧
        observed USp (w_gh w) k (UApply k dequeueOp) (RApply (RVal zero false))))
  | Some F => ∃ j v, at_pos j F v w ∧ flr (w_aux w) k = S j ∧ h ≤ j ≤ front (w_aux w) ∧
      j < back (w_aux w) ∧
      (∀ j', h ≤ j' → j' ≠ j → claims (w_aux w) !! j' ≠ Some k) ∧
      ((claims (w_aux w) !! j ≠ Some k ∧ od_pending X = true ∧
        pending (w_gh w) k (UApply k dequeueOp)) ∨
       (claims (w_aux w) !! j = Some k ∧
        (∃ l u, at_pos (S j) l u w ∧ finished (w_gh w) k (RApply (RVal u true))) ∧
        (od_pending X = true → j = front (w_aux w))))
  end.

Definition op_ok k h (o : queueOp T) X w : Prop :=
  match o with
  | enqueueOp v => enq_ok k v X w
  | dequeueOp => deq_ok k h X w
  end.

Definition slot_ok k w : Prop := ∃ X, desc_of k w = Some X ∧
  match ann (w_aux w) !! k with
  | None => od_pending X = false
  | Some (a, h) => ∃ i o lo lin,
      g_thr (w_gh w) !! k = Some (Pend i (UApply k o) lo lin) ∧ i < a ≤ g_now (w_gh w) ∧
      flr (w_aux w) k ≤ S (front (w_aux w)) ∧ (∀ v, (snap (w_aux w) k v < phase X)%Z) ∧
      op_ok k h o X w
  end.

Definition g_st w : list T * Z := g_state USp (w_gh w).

(** The nodes, their claims and the abstract queue. *)
Record Nodes w : Prop := {
  i_chain : ∀ j l v, at_pos j l v w → ∃ e,
    nodes (w_mem w) !! l = Some (Node v (succ j w) e (claim_of (claims (w_aux w) !! j))) ∧
    (j = 0 ∨ ∃ k, k < n ∧ e = Z.of_nat k);
  i_nodup : NoDup (chain (w_aux w)).*1;
  i_head : ∃ l v, head (w_mem w) = Some l ∧ at_pos (front (w_aux w)) l v w;
  i_tail : ∃ l v, tail (w_mem w) = Some l ∧ at_pos (back (w_aux w)) l v w;
  i_pos : front (w_aux w) ≤ length (claims (w_aux w)) ≤ S (front (w_aux w)) ∧
    length (claims (w_aux w)) ≤ back (w_aux w) ∧
    back (w_aux w) < length (chain (w_aux w)) ≤ back (w_aux w) + 2;
  i_vals : (g_st w).1 = (drop (S (length (claims (w_aux w)))) (chain (w_aux w))).*2;
  i_lag : ∀ N v, at_pos (S (back (w_aux w))) N v w →
    ∃ k i, mine (w_aux w) !! k = Some N ∧ annd k i w;
  i_claims_lt : ∀ j k, claims (w_aux w) !! j = Some k → k < n;
  i_claimed : ∀ k, claims (w_aux w) !! front (w_aux w) = Some k → ∃ a h i lo lin,
    ann (w_aux w) !! k = Some (a, h) ∧ h ≤ front (w_aux w) ∧
    g_thr (w_gh w) !! k = Some (Pend i (UApply k dequeueOp) lo lin);
  i_mine : ∀ k N, mine (w_aux w) !! k = Some N → k < n ∧ ∃ v i lo lin x,
    g_thr (w_gh w) !! k = Some (Pend i (UApply k (enqueueOp v)) lo lin) ∧
    nodes (w_mem w) !! N = Some x ∧ value x = v ∧ enqTid x = Z.of_nat k ∧
    (¬ linked N w → next x = None ∧ (is_Some (ann (w_aux w) !! k) → deqTid x = noTid)) ∧
    (ann (w_aux w) !! k = None → ¬ linked N w);
  i_mine_inj : ∀ k k' N,
    mine (w_aux w) !! k = Some N → mine (w_aux w) !! k' = Some N → k = k'
}.

Record Inv w : Prop := {
  inv_nodes : Nodes w;
  (* the operations *)
  i_state : length (state (w_mem w)) = n;
  i_slots : ∀ k, k < n → slot_ok k w;
  i_ann : ∀ k, is_Some (ann (w_aux w) !! k) → k < n;
  i_ids : ∀ k p, g_thr (w_gh w) !! k = Some p → p_id p < g_now (w_gh w);
  i_lo : ∀ k p, g_thr (w_gh w) !! k = Some p → p_lo p ≤ length (g_log (w_gh w));
  i_uop : ∀ k i u o lo lin, g_thr (w_gh w) !! k = Some (Pend i (UApply u o) lo lin) →
    u = k ∧ k < n;
  i_gone : ∀ k, g_thr (w_gh w) !! k = None →
    ann (w_aux w) !! k = None ∧ mine (w_aux w) !! k = None ∧ k ∉ todo (w_aux w);
  (* helping *)
  i_late : ∀ v i o lo lin k a h, g_thr (w_gh w) !! v = Some (Pend i o lo lin) →
    ann (w_aux w) !! k = Some (a, h) → a ≤ i → (phase_of k w ≤ snap (w_aux w) v k)%Z;
  i_snap : ∀ v p, g_thr (w_gh w) !! v = Some p → ann (w_aux w) !! v = None →
    (phase_of v w ≤ snap (w_aux w) v v)%Z;
  i_pot : ∀ k, is_Some (ann (w_aux w) !! k) → waiting k w → pot k w ≤ max_pot;
  (* counters *)
  i_phase : ∀ k, (-1 ≤ phase_of k w)%Z ∧
    (phase_of k w + Z.of_nat (size (todo (w_aux w))) < Z.of_nat (calls (w_aux w)))%Z;
  i_todo : ∀ k, k ∈ todo (w_aux w) → ann (w_aux w) !! k = None;
  i_cursor : cursor (w_mem w) = (g_st w).2 ∧ (0 ≤ cursor (w_mem w))%Z ∧
    (cursor (w_mem w) + Z.of_nat (size (todo (w_aux w))) ≤ Z.of_nat (calls (w_aux w)))%Z;
  i_limit : calls (w_aux w) ≤ g_now (w_gh w) ∧ (Z.of_nat (calls (w_aux w)) ≤ 2 ^ 62)%Z
}.

(** ** What the others respect *)

(** Slot [k] is as it was, or its operation was settled. *)
Definition kept_or_settled k w w' : Prop :=
  state (w_mem w') !! k = state (w_mem w) !! k ∨ settled k w'.

Record R (t : nat) w w' : Prop := {
  r_helped : helped t (w_gh w) (w_gh w');
  r_quiet : ann (w_aux w) !! t = None → quiet t (w_gh w) (w_gh w');
  r_now : g_now (w_gh w) ≤ g_now (w_gh w');
  r_chain : chain (w_aux w) `prefix_of` chain (w_aux w');
  r_claims : claims (w_aux w) `prefix_of` claims (w_aux w');
  r_front : front (w_aux w) ≤ front (w_aux w');
  r_back : back (w_aux w) ≤ back (w_aux w');
  r_descs : descs (w_mem w) `prefix_of` descs (w_mem w');
  r_node : ∀ l x, nodes (w_mem w) !! l = Some x → ∃ x', nodes (w_mem w') !! l = Some x' ∧
    value x' = value x ∧ enqTid x' = enqTid x;
  r_mine : mine (w_aux w') !! t = mine (w_aux w) !! t ∧
    (ann (w_aux w) !! t = None → ∀ l, mine (w_aux w) !! t = Some l →
       nodes (w_mem w') !! l = nodes (w_mem w) !! l);
  r_todo : t ∈ todo (w_aux w') ↔ t ∈ todo (w_aux w);
  r_ann : ann (w_aux w') !! t = ann (w_aux w) !! t;
  r_snap : snap (w_aux w') t = snap (w_aux w) t;
  r_own : ∀ X, desc_of t w = Some X → od_pending X = false → desc_of t w' = Some X;
  r_phase : ∀ k, (phase_of k w ≤ phase_of k w')%Z;
  r_new : ∀ k i o lo, running k i o lo w' →
    (running k i o lo w ∧ snap (w_aux w') k = snap (w_aux w) k) ∨
    (g_now (w_gh w) ≤ i ∧ ∀ v, (phase_of v w ≤ snap (w_aux w') k v)%Z);
  r_annd : ∀ k i, annd k i w → on k i w' →
    ann (w_aux w') !! k = ann (w_aux w) !! k ∧ phase_of k w' = phase_of k w ∧
    (enqueue <$> desc_of k w') = (enqueue <$> desc_of k w) ∧
    mine (w_aux w') !! k = mine (w_aux w) !! k;
  r_act : ∀ k i, active k i w' →
    (active k i w ∧ ann (w_aux w') !! k = ann (w_aux w) !! k ∧ spent k w w') ∨
    (¬ annd k i w ∧ ∃ a h, ann (w_aux w') !! k = Some (a, h) ∧ g_now (w_gh w) ≤ a);
  r_enq : ∀ k i N, annd k i w → mine (w_aux w) !! k = Some N → ¬ past N w' →
    annd k i w' ∧ mine (w_aux w') !! k = Some N ∧ kept_or_settled k w w' ∧
    (¬ linked N w' → state (w_mem w') !! k = state (w_mem w) !! k);
  r_claim : ∀ k i X j F v, annd k i w → desc_of k w = Some X → od_pending X = true →
    od_node X = Some F → enqueue X = false → at_pos j F v w →
    length (claims (w_aux w')) ≤ j →
    annd k i w' ∧ state (w_mem w') !! k = state (w_mem w) !! k;
  r_fin : ∀ k i j, annd k i w → claims (w_aux w) !! j = Some k →
    front (w_aux w) ≤ j → front (w_aux w') ≤ j →
    annd k i w' ∧ kept_or_settled k w w'
}.

(** ** The relation is a preorder *)

Lemma spent_refl k w : spent k w w.
Proof. split; [done|]. split; [done|by left]. Qed.

Lemma spent_trans k w1 w2 w3 : spent k w1 w2 → spent k w2 w3 → spent k w1 w3.
Proof.
  intros (? & ? & H1) (? & ? & H2). split; [lia|]. split; [lia|].
  destruct H1 as [H1|]; [|right; lia]. destruct H2 as [H2|]; [left; congruence|right; lia].
Qed.

Lemma wfq_prefix_at_pos j l v w w' :
  chain (w_aux w) `prefix_of` chain (w_aux w') → at_pos j l v w → at_pos j l v w'.
Proof. intros Hp. by apply prefix_lookup_Some'. Qed.

Lemma prefix_linked l w w' :
  chain (w_aux w) `prefix_of` chain (w_aux w') → linked l w → linked l w'.
Proof. intros [ch Hch]. unfold linked. rewrite Hch, fmap_app. intros ?. apply elem_of_app. by left. Qed.

Lemma prefix_past l w w' :
  chain (w_aux w) `prefix_of` chain (w_aux w') → back (w_aux w) ≤ back (w_aux w') →
  past l w → past l w'.
Proof. intros Hp Hb (j & v & Hj & ?). exists j, v. split; [by eapply wfq_prefix_at_pos|lia]. Qed.

Lemma desc_of_kept k w w' :
  descs (w_mem w) `prefix_of` descs (w_mem w') →
  state (w_mem w') !! k = state (w_mem w) !! k → ∀ X, desc_of k w = Some X → desc_of k w' = Some X.
Proof.
  unfold desc_of. intros Hd ->. intros X. destruct (state (w_mem w) !! k) as [[c|]|]; try done.
  by apply prefix_lookup_Some'.
Qed.

Lemma on_running k i w : on k i w → i < g_now (w_gh w).
Proof. by intros (o & lo & ? & _). Qed.

(** An operation that was and is under way was under way in between. *)
Lemma on_between t k i w w1 w2 : R t w w1 → R t w1 w2 → on k i w → on k i w2 → on k i w1.
Proof.
  intros HR1 HR2 Hi%on_running (o & lo & Hrun).
  destruct (r_new _ _ _ HR2 _ _ _ _ Hrun) as [[? _]|[? _]]; [by exists o, lo|].
  pose proof (r_now _ _ _ HR1). lia.
Qed.

Section relied.
Context (t : nat) (w w' : world) (HR : R t w w').

Lemma annd_stable k i : annd k i w → on k i w' → annd k i w'.
Proof. intros Ha Hon. split; [done|]. destruct (r_annd _ _ _ HR _ _ Ha Hon) as (-> & _). apply Ha. Qed.

Lemma settled_stable k i : annd k i w → on k i w' → settled k w → settled k w'.
Proof.
  intros Ha Hon (X & HX & Hs). pose proof (annd_stable _ _ Ha Hon) as Ha'.
  destruct (r_annd _ _ _ HR _ _ Ha Hon) as (_ & _ & He & _). rewrite HX in He.
  destruct (desc_of k w') as [X'|] eqn:HX'; [|done].
  destruct (od_pending X') eqn:Hp; [|by exists X'].
  destruct (r_act _ _ _ HR k i) as [([_ (Y & ? & ?)] & _)|[? _]];
    [split; [done|by exists X']|congruence|done].
Qed.

Lemma kept_stable k i w0 :
  annd k i w → on k i w' → kept_or_settled k w0 w → kept_or_settled k w w' →
  kept_or_settled k w0 w'.
Proof.
  intros Ha Hon [H1|H1] [H2|H2]; try by right.
  - left. congruence.
  - right. by eapply settled_stable.
Qed.
End relied.

Lemma annd_on k i w : annd k i w → on k i w.
Proof. by intros [? _]. Qed.

Lemma wfq_queue_R_order t : PreOrder (R t).
Proof.
  split.
  - intros w. split; try done; try by auto.
    + intros l x Hl. by exists x.
    + intros k i Ha. left. split; [done|]. split; [done|apply spent_refl].
    + intros k i N Ha HN _. split_and!; try done. by left.
    + intros k i j Ha _ _ _. split; [done|by left].
  - intros w1 w2 w3 HR1 HR2.
    pose proof (r_chain _ _ _ HR1) as Hc1. pose proof (r_chain _ _ _ HR2) as Hc2.
    pose proof (r_claims _ _ _ HR1) as Hcl1. pose proof (r_claims _ _ _ HR2) as Hcl2.
    pose proof (r_back _ _ _ HR1). pose proof (r_back _ _ _ HR2).
    pose proof (r_front _ _ _ HR1). pose proof (r_front _ _ _ HR2).
    pose proof (r_now _ _ _ HR1). pose proof (r_now _ _ _ HR2).
    assert (∀ k i, annd k i w1 → on k i w3 → annd k i w2) as Hmid.
    { intros k i Ha Hon. eapply annd_stable; [done..|].
      eapply on_between; [exact HR1|exact HR2|apply Ha|done]. }
    split; try (by etrans); try lia.
    + etrans; [apply HR1|apply HR2].
    + intros Ha. etrans; [by apply (r_quiet _ _ _ HR1)|apply (r_quiet _ _ _ HR2)].
      by rewrite (r_ann _ _ _ HR1).
    + etrans; [apply HR1|apply HR2].
    + intros l x Hl. destruct (r_node _ _ _ HR1 _ _ Hl) as (x2 & Hl2 & <- & <-).
      by apply (r_node _ _ _ HR2).
    + destruct (r_mine _ _ _ HR1) as [Hm1 Hn1], (r_mine _ _ _ HR2) as [Hm2 Hn2].
      split; [congruence|]. intros Ha l Hl. rewrite Hn2, Hn1; try done.
      * by rewrite (r_ann _ _ _ HR1).
      * congruence.
    + by rewrite (r_todo _ _ _ HR2), (r_todo _ _ _ HR1).
    + by rewrite (r_ann _ _ _ HR2), (r_ann _ _ _ HR1).
    + by rewrite (r_snap _ _ _ HR2), (r_snap _ _ _ HR1).
    + intros X HX Hs. apply (r_own _ _ _ HR2); [|done]. by apply (r_own _ _ _ HR1).
    + intros k. etrans; [apply (r_phase _ _ _ HR1)|apply (r_phase _ _ _ HR2)].
    + intros k i o lo Hr. destruct (r_new _ _ _ HR2 _ _ _ _ Hr) as [[Hr2 Hs2]|[? Hs]].
      * rewrite Hs2. by apply (r_new _ _ _ HR1 k i o lo).
      * right. split; [lia|]. intros v. etrans; [apply (r_phase _ _ _ HR1)|apply Hs].
    + intros k i Ha Hon. pose proof (Hmid _ _ Ha Hon) as Ha2.
      destruct (r_annd _ _ _ HR1 _ _ Ha (annd_on _ _ _ Ha2)) as (<- & <- & <- & <-).
      by eapply r_annd.
    + intros k i Ha. destruct (r_act _ _ _ HR2 _ _ Ha) as [(Ha2 & -> & ?)|[Hn2 (a & h & ? & ?)]].
      * destruct (r_act _ _ _ HR1 _ _ Ha2) as [(? & ? & ?)|[? (a & h & ? & ?)]];
          [left; split_and!; [done..|by eapply spent_trans]|right; eauto].
      * right. split; [|exists a, h; split; [done|lia]].
        intros Ha1. apply Hn2, Hmid; [done|apply Ha].
    + intros k i N Ha HN Hp.
      assert (¬ past N w2) as Hp2 by (intros ?; apply Hp; by eapply prefix_past).
      destruct (r_enq _ _ _ HR1 _ _ _ Ha HN Hp2) as (Ha2 & HN2 & Hk2 & Hl2).
      destruct (r_enq _ _ _ HR2 _ _ _ Ha2 HN2 Hp) as (Ha3 & HN3 & Hk3 & Hl3).
      split_and!; [done..| |].
      * by eapply kept_stable; [exact HR2| |apply annd_on| |].
      * intros Hl. rewrite Hl3 by done. apply Hl2. intros ?. apply Hl. by eapply prefix_linked.
    + intros k i X j F v Ha HX Hpd HF He Hj Hc.
      pose proof (prefix_length _ _ Hcl2).
      destruct (r_claim _ _ _ HR1 _ _ _ _ _ _ Ha HX Hpd HF He Hj ltac:(lia)) as [Ha2 Hs2].
      destruct (r_claim _ _ _ HR2 k i X j F v) as [? ?]; try done; [|by eapply wfq_prefix_at_pos|].
      * eapply desc_of_kept; [apply HR1|done|done].
      * split; [done|congruence].
    + intros k i j Ha Hj Hf Hf3.
      destruct (r_fin _ _ _ HR1 _ _ _ Ha Hj Hf ltac:(lia)) as [Ha2 Hk2].
      destruct (r_fin _ _ _ HR2 k i j Ha2) as [Ha3 Hk3]; [by eapply prefix_lookup_Some'|lia|done|].
      split; [done|]. by eapply kept_stable; [exact HR2| |apply annd_on| |].
Qed.

Definition queue_protocol : protocol mem qop qresp aux := Protocol Inv R wfq_queue_R_order.
End invariant.
Coercion inv_nodes : Inv >-> Nodes.
End WfQueueInv.
