(* ===== verification/WfQueueSteps.v ===== *)
(** [wf.Queue]: every write of the code keeps the invariant of WfQueueInv.v and
    what the other participants rely on. *)

From S2P Require Export WfQueueInv.
Import WfQueue WfQueueInv.

Section steps.
Context {T : Type} (zero : T) (n : nat).
Abbreviation node := (node T).
Abbreviation mem := (mem T).
Abbreviation qop := (uop (queueOp T)).
Abbreviation qresp := (uresp (resp T)).
Abbreviation USp := (uspec (wf_queue_spec zero) n).
Abbreviation aux := (aux (T:=T)).
Abbreviation world := (world mem qop qresp aux).
Abbreviation Inv := (Inv zero n).
Abbreviation R := (R n).
Abbreviation proto := (queue_protocol zero n).
Abbreviation slot_ok := (slot_ok zero n).
Abbreviation pot := (pot n).
Abbreviation chainw w := (chain (w_aux w)).
Abbreviation claimsw w := (claims (w_aux w)).
Abbreviation frontw w := (front (w_aux w)).
Abbreviation backw w := (back (w_aux w)).
Abbreviation annw w := (ann (w_aux w)).
Abbreviation minew w := (mine (w_aux w)).
Abbreviation todow w := (todo (w_aux w)).
Implicit Types (w : world) (t k i j a h c d : nat) (X : opDesc) (v : T).

(** ** Positions *)

Lemma wfq_pos_fun j l l' v v' w : at_pos j l v w → at_pos j l' v' w → l = l' ∧ v = v'.
Proof. unfold at_pos. intros ? ?. by simplify_eq. Qed.

Lemma wfq_pos_inj j j' l v v' w : Inv w → at_pos j l v w → at_pos j' l v' w → j = j'.
Proof.
  intros HI Hj Hj'. eapply NoDup_lookup; [apply (i_nodup _ _ _ HI)|..];
    rewrite list_lookup_fmap; by rewrite ?Hj, ?Hj'.
Qed.

Lemma wfq_pos_linked j l v w : at_pos j l v w → linked l w.
Proof. intros Hj. apply list_elem_of_fmap. exists (l, v). by split; [|eapply list_elem_of_lookup_2]. Qed.

Lemma wfq_linked_pos l w : linked l w → ∃ j v, at_pos j l v w.
Proof.
  intros ([l' v] & -> & [k Hk]%list_elem_of_lookup)%list_elem_of_fmap. by exists k, v.
Qed.

Lemma wfq_pos_lt j l v w : at_pos j l v w → j < length (chainw w).
Proof. apply lookup_lt_Some. Qed.

Lemma wfq_pos_intro j w : j < length (chainw w) → ∃ l v, at_pos j l v w.
Proof. intros [[l v] ?]%lookup_lt_is_Some. by exists l, v. Qed.

Lemma wfq_succ_at j w l : succ j w = Some l ↔ ∃ v, at_pos (S j) l v w.
Proof.
  unfold succ, at_pos. rewrite fmap_Some. split.
  - intros ([l' v] & ? & ->). eauto.
  - intros [v ?]. by exists (l, v).
Qed.

Lemma wfq_succ_end j w : succ j w = None ↔ length (chainw w) ≤ S j.
Proof. unfold succ. by rewrite fmap_None, lookup_ge_None. Qed.

Lemma pos_node j l v w : Inv w → at_pos j l v w → ∃ x, nodes (w_mem w) !! l = Some x ∧
  value x = v ∧ next x = succ j w ∧ deqTid x = claim_of (claimsw w !! j) ∧
  (0 < j → ∃ k, k < n ∧ enqTid x = Z.of_nat k).
Proof.
  intros HI Hj. destruct (i_chain _ _ _ HI _ _ _ Hj) as (e & Hl & He).
  eexists. split; [done|]. split_and!; try done. intros ?. by destruct He as [->|?]; [lia|].
Qed.

Lemma linked_node l w : Inv w → linked l w → ∃ x, nodes (w_mem w) !! l = Some x.
Proof.
  intros HI (j & v & Hj)%wfq_linked_pos. destruct (pos_node _ _ _ _ HI Hj) as (x & ? & _). eauto.
Qed.

Lemma claim_of_inj o k : claim_of o = Z.of_nat k → o = Some k.
Proof. destruct o as [k'|]; simpl; [intros ?; f_equal; lia|unfold noTid; lia]. Qed.

Lemma claim_of_none o : claim_of o = noTid → o = None.
Proof. destruct o as [k'|]; simpl; [unfold noTid; lia|done]. Qed.

Lemma slot_desc k w : Inv w → k < n → ∃ c X, state (w_mem w) !! k = Some (Some c) ∧
  descs (w_mem w) !! c = Some X ∧ desc_of k w = Some X.
Proof.
  intros HI Hk. destruct (i_slots _ _ _ HI _ Hk) as (X & HX & _). pose proof HX as HX'.
  unfold desc_of in HX'. destruct (state (w_mem w) !! k) as [[c|]|]; try done. eauto.
Qed.

Lemma desc_at k c X w :
  state (w_mem w) !! k = Some (Some c) → descs (w_mem w) !! c = Some X → desc_of k w = Some X.
Proof. unfold desc_of. by intros ->. Qed.

Lemma phase_desc k X w : desc_of k w = Some X → phase_of k w = phase X.
Proof. unfold phase_of. by intros ->. Qed.

Lemma waiting_desc k X w : desc_of k w = Some X → waiting k w ↔ od_pending X = true.
Proof. unfold waiting. intros ->. split; [by intros (? & [= ->] & ?)|eauto]. Qed.

Lemma settled_desc k X w : desc_of k w = Some X → settled k w ↔ od_pending X = false.
Proof. unfold settled. intros ->. split; [by intros (? & [= ->] & ?)|eauto]. Qed.

Lemma settled_waiting k w : settled k w → ¬ waiting k w.
Proof. intros (X & HX & Hs). rewrite (waiting_desc _ _ _ HX). congruence. Qed.

(** ** Operations under way *)

Lemma thr_running k i o lo lin w :
  Inv w → g_thr (w_gh w) !! k = Some (Pend i o lo lin) → running k i o lo w.
Proof. intros HI Hk. split; [by apply (i_ids _ _ _ HI k (Pend i o lo lin))|by exists lin]. Qed.

Lemma on_fun k i i' w : on k i w → on k i' w → i = i'.
Proof. intros (? & ? & _ & ? & ?) (? & ? & _ & ? & ?). by simplify_eq. Qed.

Lemma ann_slot k a h w : Inv w → annw w !! k = Some (a, h) → ∃ X i o lo lin,
  desc_of k w = Some X ∧ annd k i w ∧
  g_thr (w_gh w) !! k = Some (Pend i (UApply k o) lo lin) ∧ i < a ≤ g_now (w_gh w) ∧
  flr (w_aux w) k ≤ S (frontw w) ∧ (∀ u, (snap (w_aux w) k u < phase X)%Z) ∧
  op_ok zero n k h o X w.
Proof.
  intros HI Ha. assert (k < n) as Hk by by apply (i_ann _ _ _ HI); rewrite Ha.
  destruct (i_slots _ _ _ HI _ Hk) as (X & HX & Hs). rewrite Ha in Hs.
  destruct Hs as (i & o & lo & lin & Hg & ?). exists X, i, o, lo, lin.
  split; [done|]. split; [|done]. split; [|by eexists]. exists (UApply k o), lo.
  by eapply thr_running.
Qed.

(** An enqueue whose node is not linked yet is pending. *)
Lemma mine_waiting k N w :
  Inv w → minew w !! k = Some N → is_Some (annw w !! k) → ∃ X v, desc_of k w = Some X ∧
    enq_ok k v X w ∧ od_node X = Some N ∧ ∃ i lo lin,
    g_thr (w_gh w) !! k = Some (Pend i (UApply k (enqueueOp v)) lo lin).
Proof.
  intros HI HN [[a h] Ha]. destruct (ann_slot _ _ _ _ HI Ha) as (X & i & o & lo & lin & HX & _ & Hg & _ & _ & _ & Ho).
  destruct (i_mine _ _ _ HI _ _ HN) as (_ & v & i' & lo' & lin' & x & Hg' & _). simplify_eq.
  exists X, v. split; [done|]. split; [done|]. split; [|eauto].
  destruct Ho as (_ & N' & ? & ? & _). by simplify_eq.
Qed.

(** ** Allowances *)

Lemma allowance_le a w w' :
  (∀ u, u < n → allow u a w' ≤ allow u a w) → allowance n a w' ≤ allowance n a w.
Proof. intros H. apply sum_list_le. intros u Hu%elem_of_seq. apply H. lia. Qed.

Lemma allowance_max a w : allowance n a w ≤ 2 * n.
Proof.
  transitivity (sum_list_with (λ _, 2) (seq 0 n)).
  - apply sum_list_le. intros u _. unfold allow.
    destruct (g_thr (w_gh w) !! u) as [[? [|? ?] ? [?|]]|]; try case_bool_decide; lia.
  - assert (∀ m s, sum_list_with (λ _, 2) (seq s m) ≤ 2 * m) as Hs; [|apply Hs].
    induction m as [|m IH]; intros s; simpl; [done|]. specialize (IH (S s)). lia.
Qed.

Lemma allowance_one a k w w' :
  k < n → (∀ u, u ≠ k → allow u a w' = allow u a w) →
  allowance n a w' + allow k a w = allowance n a w + allow k a w'.
Proof.
  intros Hk H. apply (sum_list_one (λ u, allow u a w') (λ u, allow u a w)); [apply NoDup_seq|apply elem_of_seq; lia|done].
Qed.

(** ** Steps that leave the slots alone *)

(** The operations under way are the same; some may have taken effect. *)
Definition same_ops w w' : Prop :=
  g_now (w_gh w') = g_now (w_gh w) ∧ g_log (w_gh w) `prefix_of` g_log (w_gh w') ∧
  ∀ k, (λ p, (p_id p, p_op p, p_lo p)) <$> g_thr (w_gh w') !! k =
       (λ p, (p_id p, p_op p, p_lo p)) <$> g_thr (w_gh w) !! k.

Lemma same_ops_running w w' k i o lo : same_ops w w' → running k i o lo w ↔ running k i o lo w'.
Proof.
  intros (Hn & _ & Hs). unfold running. rewrite Hn. specialize (Hs k).
  split; intros (? & lin & Hk); (split; [done|]); rewrite Hk in Hs; simpl in Hs.
  - destruct (g_thr (w_gh w') !! k) as [[]|]; simplify_eq/=. eauto.
  - destruct (g_thr (w_gh w) !! k) as [[]|]; simplify_eq/=. eauto.
Qed.

Lemma same_ops_on w w' k i : same_ops w w' → on k i w ↔ on k i w'.
Proof.
  intros Hs. unfold on. split; intros (o & lo & Hr); exists o, lo; by apply (same_ops_running w w' k i o lo Hs).
Qed.

(** A step of the helpers: it may be taken on anybody's behalf. *)
Definition free_step w w' : Prop := Inv w' ∧ ∀ u, R u w w'.

Lemma free_good t w w' : free_step w w' → good_step proto t w w'.
Proof. intros [? HR]. split; [done|]. intros u _. apply HR. Qed.

Lemma rely_slots_kept u w w' :
  helped u (w_gh w) (w_gh w') →
  (annw w !! u = None → quiet u (w_gh w) (w_gh w')) →
  same_ops w w' →
  state (w_mem w') = state (w_mem w) → descs (w_mem w) `prefix_of` descs (w_mem w') →
  (∀ k, desc_of k w' = desc_of k w) →
  annw w' = annw w → snap (w_aux w') = snap (w_aux w) →
  (∀ k, is_Some (annw w !! k) ∨ k = u → minew w' !! k = minew w !! k) →
  (u ∈ todow w' ↔ u ∈ todow w) →
  chainw w `prefix_of` chainw w' → claimsw w `prefix_of` claimsw w' →
  frontw w ≤ frontw w' → backw w ≤ backw w' →
  (∀ l x, nodes (w_mem w) !! l = Some x → ∃ x', nodes (w_mem w') !! l = Some x' ∧
     value x' = value x ∧ enqTid x' = enqTid x) →
  (annw w !! u = None → ∀ l, minew w !! u = Some l →
     nodes (w_mem w') !! l = nodes (w_mem w) !! l) →
  (∀ k i, active k i w → spent n k w w') →
  R u w w'.
Proof.
  intros Hh Hq Hso Hst Hds Hdo Han Hsn Hmi Hto Hch Hcl Hfr Hba Hno Hpr Hpo.
  assert (∀ k, phase_of k w' = phase_of k w) as Hph by (intros k; unfold phase_of; by rewrite Hdo).
  assert (∀ k i, annd k i w → annd k i w') as Hann.
  { intros k i [Hon Ha]. split; [by apply (same_ops_on w w')|by rewrite Han]. }
  assert (∀ k i, active k i w' → active k i w) as Hact.
  { intros k i [[Hon Ha] (X & HX & ?)]. split; [split|].
    - by apply (same_ops_on w w').
    - by rewrite <-Han.
    - exists X. by rewrite <-Hdo. }
  split; try done.
  - destruct Hso as [-> _]. done.
  - split; [by auto|done].
  - by rewrite Han.
  - by rewrite Hsn.
  - intros X ??. by rewrite Hdo.
  - intros k. by rewrite Hph.
  - intros k i o lo Hr. left. rewrite Hsn. split; [by apply (same_ops_running w w')|done].
  - intros k i Ha _. rewrite Han, Hph, Hdo, Hmi; [done|left; apply Ha].
  - intros k i Ha. left. split; [by auto|]. rewrite Han. split; [done|]. by eapply Hpo, Hact.
  - intros k i N Ha HN _. split_and!; [by auto|rewrite Hmi; [done|left; apply Ha]|left; by rewrite Hst|by rewrite Hst].
  - intros k i X j F u' Ha _ _ _ _ _ _. split; [by auto|by rewrite Hst].
  - intros k i j Ha _ _ _. split; [by auto|left; by rewrite Hst].
Qed.

(** A slot whose operation is not concerned by a step. *)
Lemma slot_kept k w w' :
  slot_ok k w → desc_of k w' = desc_of k w → annw w' !! k = annw w !! k →
  (is_Some (annw w !! k) → quiet k (w_gh w) (w_gh w')) → g_now (w_gh w) ≤ g_now (w_gh w') →
  (is_Some (annw w !! k) → flr (w_aux w') k = flr (w_aux w) k) →
  (is_Some (annw w !! k) → snap (w_aux w') k = snap (w_aux w) k) →
  (is_Some (annw w !! k) → minew w' !! k = minew w !! k) →
  chainw w `prefix_of` chainw w' → claimsw w `prefix_of` claimsw w' →
  frontw w ≤ frontw w' → backw w ≤ backw w' →
  (∀ N, minew w !! k = Some N → linked N w' → linked N w) →
  (∀ j, length (claimsw w) ≤ j → claimsw w' !! j ≠ Some k) →
  (∀ N v, minew w !! k = Some N → waiting k w → at_pos (S (backw w)) N v w →
     backw w' = backw w) →
  (claimsw w !! frontw w = Some k → waiting k w → frontw w' = frontw w) →
  slot_ok k w'.
Proof.
  intros (X & HX & Hs) HX' Ha Hq Hnow Hflr Hsnap Hmine Hch Hcl Hfr Hba Hlk Hnc Hback Hfront.
  exists X. split; [congruence|]. rewrite Ha. destruct (annw w !! k) as [[a h]|]; [|done].
  specialize (Hq ltac:(eauto)). specialize (Hflr ltac:(eauto)).
  specialize (Hsnap ltac:(eauto)). specialize (Hmine ltac:(eauto)).
  destruct Hs as (i & o & lo & lin & Hg & Hi & Hf & Hsn & Ho).
  exists i, o, lo, lin. split; [by rewrite (proj1 Hq)|]. split; [lia|].
  split; [lia|]. split; [by rewrite Hsnap|].
  assert (∀ j, claimsw w !! j ≠ Some k → claimsw w' !! j ≠ Some k) as Hncl.
  { intros j Hj. destruct (decide (j < length (claimsw w))) as [Hlt|]; [|apply Hnc; lia].
    apply lookup_lt_is_Some in Hlt as [k' Hk']. rewrite (prefix_lookup_Some' _ _ _ _ Hcl Hk').
    congruence. }
  destruct o as [v|].
  - destruct Ho as (He & N & HN & Hm & Hc). split; [done|]. exists N. split; [done|].
    split; [congruence|]. destruct Hc as [(Hl & Hp & Hpd)|(Hl & Hfin & Hp)]; [left|right].
    + split; [naive_solver|]. split; [done|]. by eapply pending_quiet.
    + split; [by eapply prefix_linked|]. split; [by eapply finished_quiet|].
      intros Hpd. destruct (Hp Hpd) as [u Hu]. exists u.
      rewrite (Hback N u); [by eapply wfq_prefix_at_pos|done|by exists X|done].
  - destruct Ho as (He & Hm & Hh & Ho). split; [done|]. split; [congruence|].
    split; [lia|]. rewrite Hflr. destruct (od_node X) as [F|].
    + destruct Ho as (j & v & Hj & Hfj & Hhj & Hjb & Hnj & Hc). exists j, v.
      split; [by eapply wfq_prefix_at_pos|]. split; [done|]. split; [lia|]. split; [lia|].
      split; [naive_solver|]. destruct Hc as [(? & ? & ?)|(Hcj & (l & u & Hl & Hfin) & Hpd)].
      * left. split; [naive_solver|]. split; [done|]. by eapply pending_quiet.
      * right. split; [by eapply prefix_lookup_Some'|]. split.
        { exists l, u. split; [by eapply wfq_prefix_at_pos|by eapply finished_quiet]. }
        intros Hp. rewrite (Hpd Hp) in *. rewrite Hfront; [done|done|by exists X].
    + destruct Ho as [Hnh Hc]. split; [naive_solver|].
      destruct Hc as [(? & ? & ?)|(? & ?)]; [left|right]; (split; [done|]).
      * split; [done|]. by eapply pending_quiet.
      * by eapply observed_quiet.
Qed.

(** The invariant after a step that leaves the slots alone. *)
Lemma inv_slots_kept w w' :
  Inv w → Nodes zero n w' → (∀ k, k < n → slot_ok k w') →
  same_ops w w' → state (w_mem w') = state (w_mem w) →
  (∀ k, desc_of k w' = desc_of k w) →
  annw w' = annw w → snap (w_aux w') = snap (w_aux w) →
  (∀ k, g_thr (w_gh w) !! k = None → minew w' !! k = minew w !! k) →
  (∀ k i, active k i w → spent n k w w') →
  length (chainw w) ≤ length (chainw w') → length (claimsw w) ≤ length (claimsw w') →
  frontw w ≤ frontw w' → backw w ≤ backw w' →
  todow w' ⊆ todow w → calls (w_aux w') = calls (w_aux w) →
  (cursor (w_mem w') = (g_st zero n w').2 ∧ (0 ≤ cursor (w_mem w'))%Z ∧
    (cursor (w_mem w') + Z.of_nat (size (todow w')) ≤ Z.of_nat (calls (w_aux w')))%Z) →
  Inv w'.
Proof.
  intros HI HN Hsl (Hnow & Hlog & Hso) Hst Hdo Han Hsn Hmi Hpo ? ? ? ? Hto Hca Hcu.
  assert (∀ k, phase_of k w' = phase_of k w) as Hph by (intros k; unfold phase_of; by rewrite Hdo).
  assert (∀ k i o lo lin, g_thr (w_gh w') !! k = Some (Pend i o lo lin) →
    ∃ lin', g_thr (w_gh w) !! k = Some (Pend i o lo lin')) as Hthr.
  { intros k i o lo lin Hk. specialize (Hso k). rewrite Hk in Hso.
    destruct (g_thr (w_gh w) !! k) as [[]|]; simplify_eq/=. eauto. }
  split; try done.
  - rewrite Hst. apply HI.
  - rewrite Han. apply HI.
  - intros k [i o lo lin] Hk. destruct (Hthr _ _ _ _ _ Hk) as [lin' Hk']. rewrite Hnow.
    apply (i_ids _ _ _ HI _ _ Hk').
  - intros k [i o lo lin] Hk. destruct (Hthr _ _ _ _ _ Hk) as [lin' Hk'].
    etrans; [apply (i_lo _ _ _ HI _ _ Hk')|by apply prefix_length].
  - intros k i u o lo lin Hk. destruct (Hthr _ _ _ _ _ Hk) as [lin' Hk'].
    by eapply (i_uop _ _ _ HI).
  - intros k Hk. specialize (Hso k). rewrite Hk in Hso.
    destruct (g_thr (w_gh w) !! k) eqn:E; [done|]. rewrite Han, Hmi by done.
    destruct (i_gone _ _ _ HI _ E) as (? & ? & ?). set_solver.
  - intros v i o lo lin k a h Hv. destruct (Hthr _ _ _ _ _ Hv) as [lin' Hv'].
    rewrite Han, Hph, Hsn. by eapply (i_late _ _ _ HI).
  - intros v [i o lo lin] Hv. destruct (Hthr _ _ _ _ _ Hv) as [lin' Hv'].
    rewrite Han, Hph, Hsn. by eapply (i_snap _ _ _ HI).
  - intros k Ha (X & HX & Hp). rewrite Han in Ha. rewrite Hdo in HX.
    destruct Ha as [[a h] Ha]. destruct (ann_slot _ _ _ _ HI Ha) as (X' & i & o & lo & lin & _ & Hon & _).
    etrans; [|apply (i_pot _ _ _ HI k); [by eexists|by exists X]].
    destruct (Hpo k i) as (? & ? & _); [split; [done|by exists X]|]. unfold events in *. lia.
  - intros k. rewrite Hph, Hca. destruct (i_phase _ _ _ HI k). split; [done|].
    pose proof (subseteq_size _ _ Hto). lia.
  - intros k Hk. rewrite Han. by apply (i_todo _ _ _ HI), Hto.
  - rewrite Hca, Hnow. apply HI.
Qed.
End steps.
