(* ===== verification/WfQueueWrites.v ===== *)
(** [wf.Queue]: the writes that leave the slots of the announce array alone.

    The allocations, the link of a node, the claim of the head node, and the
    moves of the tail and of the head. *)

From S2P Require Export WfQueueSteps.
Import WfQueue WfQueueInv.

Section writes.
Context {T : Type} (zero : T) (n : nat).
Abbreviation node := (node T).
Abbreviation mem := (mem T).
Abbreviation qop := (uop (queueOp T)).
Abbreviation qresp := (uresp (resp T)).
Abbreviation USp := (uspec (wf_queue_spec zero) n).
Abbreviation aux := (aux (T:=T)).
Abbreviation world := (world mem qop qresp aux).
Abbreviation Inv := (Inv zero n).
Abbreviation R := (R n).
Abbreviation proto := (queue_protocol zero n).
Abbreviation slot_ok := (slot_ok zero n).
Abbreviation pot := (pot n).
Abbreviation free_step := (free_step zero n).
Abbreviation chainw w := (chain (w_aux w)).
Abbreviation claimsw w := (claims (w_aux w)).
Abbreviation frontw w := (front (w_aux w)).
Abbreviation backw w := (back (w_aux w)).
Abbreviation annw w := (ann (w_aux w)).
Abbreviation minew w := (mine (w_aux w)).
Abbreviation todow w := (todo (w_aux w)).
Implicit Types (w : world) (t k i j a h c d : nat) (X : opDesc) (v : T).

Lemma desc_of_grow w w' :
  Inv w → state (w_mem w') = state (w_mem w) → descs (w_mem w) `prefix_of` descs (w_mem w') →
  ∀ k, desc_of k w' = desc_of k w.
Proof.
  intros HI Hs Hd k. destruct (decide (k < n)) as [Hk|Hk].
  - destruct (slot_desc _ _ _ _ HI Hk) as (c & X & _ & _ & HX). rewrite HX.
    eapply desc_of_kept; [done|by rewrite Hs|done].
  - unfold desc_of. rewrite Hs, lookup_ge_None_2; [done|]. rewrite (i_state _ _ _ HI). lia.
Qed.

Lemma same_ops_refl w w' : w_gh w' = w_gh w → same_ops w w'.
Proof. by intros Hg; unfold same_ops; rewrite Hg. Qed.

Lemma spent_same k w w' :
  w_gh w' = w_gh w → annw w' = annw w → flr (w_aux w') = flr (w_aux w) →
  chainw w' = chainw w → claimsw w' = claimsw w →
  state (w_mem w') = state (w_mem w) → flr (w_aux w) k ≤ S (frontw w) →
  frontw w ≤ frontw w' ≤ length (claimsw w) → backw w ≤ backw w' < length (chainw w) →
  spent n k w w'.
Proof.
  intros Hg Ha Hf Hch Hcl Hs ???. unfold spent, events, WfQueueInv.pot, ann_time, allowance, allow.
  rewrite Hg, Ha, Hf, Hch, Hcl, Hs. split; [lia|]. split; [done|by left].
Qed.

Lemma active_flr k i w : Inv w → active k i w → flr (w_aux w) k ≤ S (frontw w).
Proof.
  intros HI [[_ [[a h] Ha]] _].
  by destruct (ann_slot _ _ _ _ _ _ HI Ha) as (_ & _ & _ & _ & _ & _ & _ & _ & _ & ? & _).
Qed.

(** [&opDesc{...}] *)
Lemma newdesc_step w X :
  Inv w → free_step w (upd USp w (f_set descs_f (descs (w_mem w) ++ [X]) (w_mem w)) [] (w_aux w)).
Proof.
  intros HI. set (w' := upd _ _ _ _ _).
  assert (descs (w_mem w) `prefix_of` descs (w_mem w')) as Hd by apply prefix_snoc.
  pose proof (desc_of_grow w w' HI eq_refl Hd) as Hdo.
  assert (∀ k i, active k i w → spent n k w w') as Hpot
    by (intros ? ? Hfl%active_flr; [apply spent_same; simpl; pose proof (i_pos _ _ _ HI); lia || done|done]).
  split.
  - apply (inv_slots_kept _ _ w); try done; try (simpl; rewrite ?length_app; lia); [|..|apply HI].
    + destruct HI as [[] _ _ _ _ _ _ _ _ _ _ _ _ _]; by split.
    + intros k Hk. apply (slot_kept _ _ _ w); try done; [by apply HI|].
      intros j Hj. rewrite lookup_ge_None_2; done.
  - intros u. apply rely_slots_kept; try done.
    intros l x Hl. by exists x.
Qed.

(** [q.tail.CompareAndSwap(last, next)], the enqueue of the last node settled. *)
Definition move_tail (x : aux) : aux :=
  Aux (chain x) (claims x) (front x) (S (back x)) (ann x) (flr x) (mine x) (snap x) (todo x) (calls x).

Lemma tail_step w N v :
  Inv w → at_pos (S (backw w)) N v w → (∀ k, minew w !! k = Some N → settled k w) →
  free_step w (upd USp w (f_set tail_f (Some N) (w_mem w)) [] (move_tail (w_aux w))).
Proof.
  intros HI HN Hset. set (w' := upd _ _ _ _ _).
  pose proof (wfq_pos_lt _ _ _ _ HN) as Hlt. pose proof (i_pos _ _ _ HI) as Hpos.
  assert (∀ k i, active k i w → spent n k w w') as Hpot
    by (intros ? ? Hfl%active_flr; [apply spent_same; simpl; lia || done|done]).
  split.
  - apply (inv_slots_kept _ _ w); try done; try (simpl; rewrite ?length_app; lia); [|..|apply HI].
    + pose proof HI as [[] _ _ _ _ _ _ _ _ _ _ _ _ _]. split; try done; simpl.
      * by exists N, v.
      * lia.
      * intros N' v' HN'%wfq_pos_lt. simpl in HN'. lia.
    + intros k Hk. apply (slot_kept _ _ _ w); try done; simpl; [by apply HI|lia| |].
      * intros j Hj. rewrite lookup_ge_None_2; done.
      * intros N' v' HN' Hw Hat. destruct (wfq_pos_fun _ _ _ _ _ _ Hat HN) as [-> _].
        by destruct (settled_waiting _ _ (Hset _ HN')).
  - intros u. apply rely_slots_kept; try done; simpl; [lia|].
    intros l x Hl. by exists x.
Qed.

(** [q.head.CompareAndSwap(first, next)], the dequeue of the first node settled. *)
Definition move_head (x : aux) : aux :=
  Aux (chain x) (claims x) (S (front x)) (back x) (ann x) (flr x) (mine x) (snap x) (todo x) (calls x).

Lemma wfq_head_step w N v k :
  Inv w → at_pos (S (frontw w)) N v w → claimsw w !! frontw w = Some k → settled k w →
  free_step w (upd USp w (f_set head_f (Some N) (w_mem w)) [] (move_head (w_aux w))).
Proof.
  intros HI HN Hk Hset. set (w' := upd _ _ _ _ _).
  pose proof (lookup_lt_Some _ _ _ Hk) as Hlt. pose proof (i_pos _ _ _ HI) as Hpos.
  assert (∀ k i, active k i w → spent n k w w') as Hpot
    by (intros ? ? Hfl%active_flr; [apply spent_same; simpl; lia || done|done]).
  split.
  - apply (inv_slots_kept _ _ w); try done; try (simpl; rewrite ?length_app; lia); [|..|apply HI].
    + pose proof HI as [[] _ _ _ _ _ _ _ _ _ _ _ _ _]. split; try done; simpl.
      * by exists N, v.
      * lia.
      * intros k' Hk'%lookup_lt_Some. simpl in Hk'. lia.
    + intros k' Hk'. apply (slot_kept _ _ _ w); try done; simpl; [by apply HI|lia| |].
      * intros j Hj. rewrite lookup_ge_None_2; done.
      * rewrite Hk. intros [= ->] Hw. by destruct (settled_waiting _ _ Hset).
  - intros u. apply rely_slots_kept; try done; simpl; [lia|].
    intros l x Hl. by exists x.
Qed.

(** ** The effect of an operation *)

Section effect.
Context (w : world) (k : nat) (o : queueOp T) (r : resp T) (m : mem) (x : aux).
Context (HI : Inv w) (Hpend : pending (w_gh w) k (UApply k o)).
Context (Hresp : (spec_step (wf_queue_spec zero) (g_st zero n w).1 o).2 = Some r).
Let w' : world := upd USp w m [k] x.

Lemma effect_response :
  (spec_step USp (g_state USp (w_gh w)) (UApply k o)).2 = Some (RApply r).
Proof using Hresp.
  change (RApply <$> (spec_step (wf_queue_spec zero) (g_st zero n w).1 o).2 = Some (RApply r)).
  by rewrite Hresp.
Qed.

Lemma effect_pending :
  finished (w_gh w') k (RApply r) ∧
  g_st zero n w' = ((spec_step (wf_queue_spec zero) (g_st zero n w).1 o).1, (g_st zero n w).2).
Proof using Hpend Hresp.
  destruct (lin1_pending USp (w_gh w) k (UApply k o) (RApply r)) as (Hf & Hs & _);
    [done|apply effect_response|].
  split; [done|]. unfold g_st, w'. simpl. by rewrite Hs.
Qed.

Lemma effect_thr : ∃ i lo,
  g_thr (w_gh w) !! k = Some (Pend i (UApply k o) lo None) ∧
  g_thr (w_gh w') = <[k := Pend i (UApply k o) lo (Some (inl (RApply r)))]> (g_thr (w_gh w)) ∧
  g_now (w_gh w') = g_now (w_gh w).
Proof using Hpend Hresp.
  destruct Hpend as (i & lo & Hk & _). exists i, lo. split; [done|].
  unfold w', upd, lins. cbn [w_gh foldl]. unfold lin1. by rewrite Hk, effect_response.
Qed.

Lemma effect_same_ops : same_ops w w'.
Proof using Hpend Hresp.
  destruct effect_thr as (i & lo & Hk & Ht & Hn). split; [done|].
  split; [apply (helped_lin1 USp k)|]. intros u. rewrite Ht.
  destruct (decide (u = k)) as [->|]; [by rewrite lookup_insert_eq, Hk|by rewrite lookup_insert_ne by done].
Qed.

Lemma effect_quiet u : u ≠ k → quiet u (w_gh w) (w_gh w').
Proof using. intros. by apply quiet_lin1. Qed.

Lemma effect_helped u : helped u (w_gh w) (w_gh w').
Proof using. apply helped_lin1. Qed.

Lemma effect_allowance a : allowance n a w' + 1 = allowance n a w.
Proof using HI Hpend Hresp.
  destruct effect_thr as (i & lo & Hk & Ht & _).
  destruct (i_uop _ _ _ HI _ _ _ _ _ _ Hk) as [_ Hlt].
  assert (∀ u, u ≠ k → allow u a w' = allow u a w) as Heq.
  { intros u Hu. unfold allow. rewrite Ht. by rewrite lookup_insert_ne by done. }
  pose proof (allowance_one n a k w w' Hlt Heq) as Hone. unfold allow in Hone.
  rewrite Ht, lookup_insert_eq, Hk in Hone. lia.
Qed.

Lemma effect_thr_kept u i o' lo lin :
  g_thr (w_gh w) !! u = Some (Pend i o' lo lin) →
  ∃ lin', g_thr (w_gh w') !! u = Some (Pend i o' lo lin').
Proof using Hpend Hresp.
  intros Hu. destruct effect_same_ops as (_ & _ & Hs). specialize (Hs u). rewrite Hu in Hs.
  destruct (g_thr (w_gh w') !! u) as [[]|]; simplify_eq/=. eauto.
Qed.
End effect.

(** ** [last.next.CompareAndSwap(nil, node)]: an enqueue takes effect *)

Definition link_node (N : loc) v (x : aux) : aux :=
  Aux (chain x ++ [(N, v)]) (claims x) (front x) (back x) (ann x) (flr x) (mine x) (snap x)
    (todo x) (calls x).

Section link.
Context (w : world) (last N : loc) (v0 : T) (k : nat) (x0 : node).
Context (HI : Inv w) (Hlast : at_pos (backw w) last v0 w) (Hlen : length (chainw w) = S (backw w)).
Context (HN : minew w !! k = Some N) (Hann : is_Some (annw w !! k)) (Hnew : ¬ linked N w).
Context (Hx0 : nodes (w_mem w) !! last = Some x0).

Let w' v := upd USp w
  (f_set nodes_f (<[last := f_set next_f (Some N) x0]> (nodes (w_mem w))) (w_mem w)) [k]
  (link_node N v (w_aux w)).

Lemma link_value : ∃ X v, desc_of k w = Some X ∧ od_pending X = true ∧ od_node X = Some N ∧
  enqueue X = true ∧ pending (w_gh w) k (UApply k (enqueueOp v)).
Proof using HI HN Hann Hnew.
  destruct (mine_waiting _ _ _ _ _ HI HN Hann) as (X & v & HX & Ho & HXN & _).
  exists X, v. destruct Ho as (? & N' & ? & ? & [(? & ? & ?)|(? & _)]); [done|congruence].
Qed.

Lemma link_nodes v :
  pending (w_gh w) k (UApply k (enqueueOp v)) → Nodes zero n (w' v).
Proof using HI Hlast Hlen HN Hann Hnew Hx0.
  intros Hp. pose proof (i_pos _ _ _ HI) as Hpos.
  pose proof (effect_thr_kept w k _ RDone (w_mem (w' v)) (w_aux (w' v)) Hp eq_refl) as Hthr.
  pose proof (effect_same_ops w k _ RDone (w_mem (w' v)) (w_aux (w' v)) Hp eq_refl) as Hso.
  assert (last ≠ N) as Hne by (intros ->; by eapply Hnew, wfq_pos_linked).
  assert (∀ l, linked l (w' v) ↔ linked l w ∨ l = N) as Hlk.
  { intros l. unfold linked. simpl. rewrite fmap_app, elem_of_app. simpl. set_solver. }
  assert (∀ j l u, at_pos j l u w → at_pos j l u (w' v)) as Hat by (intros; by apply lookup_snoc_l).
  destruct (i_mine _ _ _ HI _ _ HN) as (Hk & v' & i & lo & lin & x & Hg & Hx & Hxv & Hxe & Hxn & _).
  destruct Hxn as [Hxn Hxd]; [done|]. specialize (Hxd Hann).
  assert (v' = v) as -> by (destruct Hp as (? & ? & ? & _); by simplify_eq).
  split; simpl; try apply HI.
  - intros j l u [Hj|[-> [= -> ->]]]%lookup_snoc_inv.
    + destruct (i_chain _ _ _ HI _ _ _ Hj) as (e & Hl & He). exists e. split; [|done].
      destruct (decide (l = last)) as [->|Hll].
      * assert (j = backw w) as -> by by eapply wfq_pos_inj.
        rewrite list_lookup_insert_eq by by eapply lookup_lt_Some.
        rewrite Hx0 in Hl. simplify_eq. simpl. do 2 f_equal.
        symmetry. apply wfq_succ_at. eexists. unfold at_pos. simpl. rewrite <-Hlen.
        apply lookup_snoc_eq.
      * rewrite list_lookup_insert_ne, Hl by done. do 2 f_equal.
        assert (j ≠ backw w) by (intros ->; by destruct (wfq_pos_fun _ _ _ _ _ _ Hj Hlast)).
        pose proof (wfq_pos_lt _ _ _ _ Hj). destruct (wfq_pos_intro (S j) w) as (l2 & u2 & H2); [lia|].
        transitivity (Some l2); [|symmetry]; apply wfq_succ_at; eauto.
    + exists (Z.of_nat k). split; [|right; by exists k].
      rewrite list_lookup_insert_ne, Hx by done. destruct x; simpl in *. subst. do 2 f_equal.
      * symmetry. apply wfq_succ_end. simpl. rewrite length_app. simpl. lia.
      * rewrite lookup_ge_None_2; [done|lia].
  - rewrite fmap_app. apply NoDup_app. split; [apply HI|]. split; [|apply NoDup_singleton].
    intros l Hl ->%list_elem_of_singleton. by apply Hnew.
  - destruct (i_head _ _ _ HI) as (l & u & ? & ?). eauto.
  - destruct (i_tail _ _ _ HI) as (l & u & ? & ?). eauto.
  - rewrite length_app. simpl. lia.
  - pose proof (proj2 (effect_pending w k _ RDone (w_mem (w' v)) (w_aux (w' v)) Hp eq_refl)) as Hst.
    change (g_st zero n (w' v) = (((g_st zero n w).1 ++ [v], (g_st zero n w).2))) in Hst.
    change ((g_st zero n (w' v)).1 = (drop (S (length (claimsw w))) (chainw w ++ [(N, v)])).*2).
    by rewrite Hst, drop_app_le, fmap_app, <-(i_vals _ _ _ HI) by lia.
  - intros N' u HN'. unfold at_pos in HN'. simpl in HN'. rewrite <-Hlen, lookup_snoc_eq in HN'.
    injection HN' as <- <-. destruct Hann as [[a h] Ha].
    destruct (ann_slot _ _ _ _ _ _ HI Ha) as (_ & i' & _ & _ & _ & _ & [Hon ?] & _).
    exists k, i'. split; [done|]. split; [by apply (same_ops_on w (w' v))|done].
  - intros k' Hk'. destruct (i_claimed _ _ _ HI _ Hk') as (a & h & i' & lo' & lin' & ? & ? & Hk2).
    destruct (Hthr _ _ _ _ _ Hk2) as [lin2 ?]. by exists a, h, i', lo', lin2.
  - intros k' N' HN'.
    destruct (i_mine _ _ _ HI _ _ HN') as (? & v' & i' & lo' & lin' & x' & Hg' & Hx' & ? & ? & Hn' & Hl').
    destruct (Hthr _ _ _ _ _ Hg') as [lin2 ?]. split; [done|]. exists v', i', lo', lin2.
    destruct (decide (N' = last)) as [->|Hll].
    + exists (f_set next_f (Some N) x'). rewrite Hx0 in Hx'. simplify_eq.
      rewrite list_lookup_insert_eq by by eapply lookup_lt_Some.
      pose proof (wfq_pos_linked _ _ _ _ Hlast) as Hlast'. split_and!; try done.
      * intros []. apply Hlk. by left.
      * intros Ha. by destruct (Hl' Ha).
    + exists x'. rewrite list_lookup_insert_ne by done. split_and!; try done.
      * intros Hnl. apply Hn'. intros ?. apply Hnl, Hlk. by left.
      * intros Ha [Hl| ->]%Hlk; [by apply (Hl' Ha)|].
        rewrite (i_mine_inj _ _ _ HI _ _ _ HN' HN) in Ha. rewrite Ha in Hann. by destruct Hann.
Qed.

Lemma link_spent v j i :
  pending (w_gh w) k (UApply k (enqueueOp v)) → active j i w → spent n j w (w' v).
Proof using HI Hlen.
  intros Hp Hac%active_flr; [|done].
  pose proof (effect_allowance w k _ RDone (w_mem (w' v)) (w_aux (w' v)) HI Hp eq_refl (ann_time j w)) as Ha.
  unfold spent, WfQueueInv.pot, events. change (ann_time j (w' v)) with (ann_time j w).
  change (allowance n (ann_time j w) (w' v) + 1 = allowance n (ann_time j w) w) in Ha.
  simpl. rewrite length_app. simpl. pose proof (i_pos _ _ _ HI). split; [lia|]. split; [done|by left].
Qed.

Lemma link_slots v j :
  pending (w_gh w) k (UApply k (enqueueOp v)) → j < n → slot_ok j (w' v).
Proof using HI Hlast Hlen HN Hann Hnew Hx0.
  intros Hp Hj.
  assert (g_now (w_gh (w' v)) = g_now (w_gh w)) as Hnow
    by apply (effect_same_ops w k _ RDone (w_mem (w' v)) (w_aux (w' v)) Hp eq_refl).
  destruct (decide (j = k)) as [->|Hne].
  - destruct (proj1 (effect_pending w k _ RDone (w_mem (w' v)) (w_aux (w' v)) Hp eq_refl))
      as (i' & o' & lo' & Hthr).
    destruct Hann as [[a h] Ha]. destruct link_value as (X & u & HX & HXp & HXN & HXe & Hpu).
    assert (u = v) as -> by (destruct Hp as (? & ? & ? & _), Hpu as (? & ? & ? & _); congruence).
    destruct (ann_slot _ _ _ _ _ _ HI Ha) as (X' & i & o & lo & lin & HX' & _ & Hg & Hi & Hf & Hs & _).
    destruct (effect_thr_kept w k _ RDone (w_mem (w' v)) (w_aux (w' v)) Hp eq_refl _ _ _ _ _ Hg)
      as [lin' Hg'].
    assert (o = enqueueOp v) as -> by (destruct Hp as (? & ? & ? & _); congruence).
    exists X. split; [done|]. change (annw (w' v)) with (annw w). rewrite Ha.
    exists i, (enqueueOp v), lo, lin'.
    split; [done|]. split; [by rewrite Hnow|].
    split; [done|]. assert (X' = X) as -> by congruence. split; [done|].
    split; [done|]. exists N. split; [done|]. split; [done|]. right.
    assert (at_pos (S (backw w)) N v (w' v)) as Hat by (unfold at_pos; simpl; rewrite <-Hlen; apply lookup_snoc_eq).
    split; [by eapply wfq_pos_linked|]. split; [by exists i', o', lo'|]. by exists v.
  - apply (slot_kept _ _ _ w); try done.
    + by apply (i_slots _ _ _ HI).
    + intros _. by apply quiet_lin1.
    + by rewrite Hnow.
    + apply prefix_snoc.
    + intros N' HN'. unfold linked. simpl. rewrite fmap_app, elem_of_app. simpl.
      intros [?| ->%list_elem_of_singleton]; [done|]. by destruct Hne, (i_mine_inj _ _ _ HI _ _ _ HN' HN).
    + intros i Hi. by rewrite lookup_ge_None_2.
Qed.

Lemma wfq_link_step : ∃ v, free_step w (w' v).
Proof using HI Hlast Hlen HN Hann Hnew Hx0.
  destruct link_value as (X & v & HX & _ & _ & _ & Hp). exists v.
  pose proof (effect_same_ops w k _ RDone (w_mem (w' v)) (w_aux (w' v)) Hp eq_refl) as Hso.
  split.
  - apply (inv_slots_kept _ _ w); try done; try (simpl; rewrite ?length_app; lia).
    + by apply link_nodes.
    + intros j. by apply link_slots.
    + intros j i. by apply link_spent.
    + pose proof (proj2 (effect_pending w k _ RDone (w_mem (w' v)) (w_aux (w' v)) Hp eq_refl)) as Hst.
      change (g_st zero n (w' v) = (((g_st zero n w).1 ++ [v], (g_st zero n w).2))) in Hst.
      rewrite Hst. apply HI.
  - intros u. apply rely_slots_kept; try done; simpl.
    + apply helped_lin1.
    + intros Ha. apply quiet_lin1. intros ->. rewrite Ha in Hann. by destruct Hann.
    + apply prefix_snoc.
    + intros l x Hl. destruct (decide (l = last)) as [->|Hll].
      * rewrite Hx0 in Hl. simplify_eq. exists (f_set next_f (Some N) x).
        by rewrite list_lookup_insert_eq by by eapply lookup_lt_Some.
      * exists x. by rewrite list_lookup_insert_ne by done.
    + intros Ha l Hl. destruct (i_mine _ _ _ HI _ _ Hl) as (_ & _ & _ & _ & _ & _ & _ & _ & _ & _ & _ & Hnl).
      rewrite list_lookup_insert_ne; [done|]. intros ->. apply Hnl; [done|].
      by eapply wfq_pos_linked.
    + intros j i. by apply link_spent.
Qed.
End link.

(** ** [first.deqTid.CompareAndSwap(noTid, tid)]: a dequeue takes effect *)

Definition claim_node (k : nat) (x : aux) : aux :=
  Aux (chain x) (claims x ++ [k]) (front x) (back x) (ann x) (flr x) (mine x) (snap x)
    (todo x) (calls x).

Section claim.
Context (w : world) (F : loc) (v0 : T) (k : nat) (X : opDesc) (x0 : node).
Context (HI : Inv w) (HF : at_pos (frontw w) F v0 w) (Hlen : length (claimsw w) = frontw w).
Context (Hann : is_Some (annw w !! k)) (HX : desc_of k w = Some X).
Context (Hpd : od_pending X = true) (Hdeq : enqueue X = false) (HXF : od_node X = Some F).
Context (Hx0 : nodes (w_mem w) !! F = Some x0).

Let w' := upd USp w
  (f_set nodes_f (<[F := f_set deqTid_f (Z.of_nat k) x0]> (nodes (w_mem w))) (w_mem w)) [k]
  (claim_node k (w_aux w)).

(** The operation that takes effect, and the value it gets. *)
Lemma claim_op : ∃ a h i lo N v,
  annw w !! k = Some (a, h) ∧ i < a ≤ g_now (w_gh w) ∧ h ≤ frontw w < backw w ∧ k < n ∧
  flr (w_aux w) k = S (frontw w) ∧ (∀ u, (snap (w_aux w) k u < phase X)%Z) ∧
  minew w !! k = None ∧
  (∀ j, h ≤ j → claimsw w !! j ≠ Some k) ∧
  g_thr (w_gh w) !! k = Some (Pend i (UApply k dequeueOp) lo None) ∧
  pending (w_gh w) k (UApply k dequeueOp) ∧ at_pos (S (frontw w)) N v w ∧
  drop (S (frontw w)) (chainw w) = (N, v) :: drop (S (S (frontw w))) (chainw w).
Proof using HI HF Hlen Hann HX Hpd Hdeq HXF.
  destruct Hann as [[a h] Ha].
  destruct (ann_slot _ _ _ _ _ _ HI Ha) as (X' & i & o & lo & lin & HX' & _ & Hg & Hi & Hf & Hs & Ho).
  assert (X' = X) as -> by congruence. destruct o as [|]; [destruct Ho; congruence|].
  destruct Ho as (_ & Hm & Hh & Ho). rewrite HXF in Ho.
  destruct Ho as (j & u & Hj & Hfl & Hhj & Hjb & Hnc & [(Hc & _ & Hp)|(Hc & _)]);
    rewrite (wfq_pos_inj _ _ _ _ _ _ _ _ HI Hj HF) in *.
  - pose proof (i_pos _ _ _ HI). destruct (wfq_pos_intro (S (frontw w)) w) as (N & v & HN); [lia|].
    exists a, h, i, lo, N, v. split_and!; try done; try lia.
    + apply (i_ann _ _ _ HI). by rewrite Ha.
    + intros j' Hj'. destruct (decide (j' = frontw w)) as [->|]; [done|by apply Hnc].
    + destruct Hp as (? & ? & Hp & _). congruence.
    + by apply drop_S.
  - apply lookup_lt_Some in Hc. lia.
Qed.

Lemma claim_effect : ∃ v, (spec_step (wf_queue_spec zero) (g_st zero n w).1 dequeueOp).2 =
    Some (RVal v true) ∧ (∃ N, at_pos (S (frontw w)) N v w) ∧
  g_st zero n w' = ((drop (S (S (frontw w))) (chainw w)).*2, (g_st zero n w).2) ∧
  finished (w_gh w') k (RApply (RVal v true)).
Proof using HI HF Hlen Hann HX Hpd Hdeq HXF.
  destruct claim_op as (a & h & i & lo & N & v & _ & _ & _ & _ & _ & _ & _ & _ & _ & Hp & HN & Hd).
  exists v. pose proof (i_vals _ _ _ HI) as Hv. rewrite Hlen, Hd in Hv.
  assert ((spec_step (wf_queue_spec zero) (g_st zero n w).1 dequeueOp).2 = Some (RVal v true)) as Hr
    by (simpl; by rewrite Hv).
  destruct (effect_pending w k _ (RVal v true) (w_mem w') (w_aux w') Hp Hr) as [Hf Hst].
  split; [done|]. split; [by exists N|]. split; [|done].
  change (g_st zero n w' = ((spec_step (wf_queue_spec zero) (g_st zero n w).1 dequeueOp).1, (g_st zero n w).2)) in Hst.
  rewrite Hst. simpl. by rewrite Hv.
Qed.

Lemma claim_keeps :
  same_ops w w' ∧ (∀ a, allowance n a w' + 1 = allowance n a w) ∧
  (∀ u i o lo lin, g_thr (w_gh w) !! u = Some (Pend i o lo lin) →
     ∃ lin', g_thr (w_gh w') !! u = Some (Pend i o lo lin')).
Proof using HI HF Hlen Hann HX Hpd Hdeq HXF.
  destruct claim_op as (a & h & i & lo & N & v & _ & _ & _ & _ & _ & _ & _ & _ & _ & Hp & _).
  destruct claim_effect as (v' & Hr & _). split; [|split].
  - by apply (effect_same_ops w k _ _ (w_mem w') (w_aux w') Hp Hr).
  - apply (effect_allowance w k _ _ (w_mem w') (w_aux w') HI Hp Hr).
  - apply (effect_thr_kept w k _ _ (w_mem w') (w_aux w') Hp Hr).
Qed.

Lemma claim_nodes : Nodes zero n w'.
Proof using HI HF Hlen Hann HX Hpd Hdeq HXF Hx0.
  destruct claim_op as (a & h & i & lo & N & v & Ha & Hi & Hh & Hk & Hfl & Hs & Hm & Hnc & Hg & Hp & HN & Hd).
  destruct claim_effect as (v' & Hr & _ & Hst & _). destruct claim_keeps as (Hso & _ & Hthr).
  pose proof (i_pos _ _ _ HI) as Hpos. pose proof (wfq_pos_linked _ _ _ _ HF) as HlF.
  split; try (by apply HI).
  - intros j l u Hj. destruct (i_chain _ _ _ HI _ _ _ Hj) as (e & Hl & He). exists e.
    split; [|done]. simpl. destruct (decide (l = F)) as [->|Hll].
    + assert (j = frontw w) as -> by by eapply wfq_pos_inj.
      rewrite list_lookup_insert_eq by by eapply lookup_lt_Some.
      rewrite Hx0 in Hl. simplify_eq. simpl. by rewrite <-Hlen, lookup_snoc_eq.
    + rewrite list_lookup_insert_ne, Hl by done. do 3 f_equal.
      assert (j ≠ frontw w) by (intros ->; by destruct (wfq_pos_fun _ _ _ _ _ _ Hj HF)).
      destruct (decide (j < length (claimsw w))); [by rewrite lookup_app_l|].
      rewrite !lookup_ge_None_2; [done|rewrite length_app; simpl; lia|lia].
  - simpl. rewrite length_app. simpl. lia.
  - rewrite Hst. simpl. rewrite length_app, Hlen. simpl. by rewrite Nat.add_1_r.
  - intros N' u HN'. destruct (i_lag _ _ _ HI _ _ HN') as (k' & i' & ? & Hon & ?).
    exists k', i'. split; [done|]. split; [|done]. by apply (same_ops_on w w').
  - intros j k' [Hj|[_ ->]]%lookup_snoc_inv; [by eapply (i_claims_lt _ _ _ HI)|done].
  - intros k' [Hk'|[_ ->]]%lookup_snoc_inv.
    + apply lookup_lt_Some in Hk'. simpl in Hk'. lia.
    + destruct (Hthr _ _ _ _ _ Hg) as [lin' ?]. exists a, h, i, lo, lin'. split; [done|].
      split; [simpl; lia|done].
  - intros k' N' HN'.
    destruct (i_mine _ _ _ HI _ _ HN') as (? & v2 & i2 & lo2 & lin2 & x' & Hg' & Hx' & ? & ? & Hn' & Hl').
    destruct (Hthr _ _ _ _ _ Hg') as [lin3 ?]. split; [done|]. exists v2, i2, lo2, lin3.
    destruct (decide (N' = F)) as [->|Hll].
    + exists (f_set deqTid_f (Z.of_nat k) x'). rewrite Hx0 in Hx'. simplify_eq. simpl.
      rewrite list_lookup_insert_eq by by eapply lookup_lt_Some. split_and!; done.
    + exists x'. simpl. rewrite list_lookup_insert_ne by done. by split_and!.
Qed.

Lemma claim_slots j : j < n → slot_ok j w'.
Proof using HI HF Hlen Hann HX Hpd Hdeq HXF.
  intros Hj. destruct claim_keeps as (Hso & _ & Hthr). pose proof (proj1 Hso) as Hnow.
  destruct (decide (j = k)) as [->|Hne].
  - destruct claim_op as (a & h & i & lo & N & v & Ha & Hi & Hh & Hk & Hfl & Hs & Hm & Hnc & Hg & Hp & HN & Hd).
    destruct claim_effect as (v' & Hr & (N' & HN') & _ & Hfin).
    destruct (Hthr _ _ _ _ _ Hg) as [lin' Hg']. exists X. split; [done|].
    change (annw w') with (annw w). rewrite Ha. exists i, dequeueOp, lo, lin'.
    split; [done|]. split; [by rewrite Hnow|]. split; [simpl; lia|]. split; [done|].
    split; [done|]. split; [done|]. split; [simpl; lia|]. rewrite HXF.
    exists (frontw w), v0. split; [done|]. split; [done|]. split; [simpl; lia|].
    split; [simpl; lia|]. split.
    + intros j Hhj Hjf [Hc|[-> _]]%lookup_snoc_inv; [by eapply Hnc|done].
    + right. split; [simpl; by rewrite <-Hlen, lookup_snoc_eq|]. split; [|done].
      by exists N', v'.
  - apply (slot_kept _ _ _ w); try done.
    + by apply (i_slots _ _ _ HI).
    + intros _. by apply quiet_lin1.
    + by rewrite Hnow.
    + apply prefix_snoc.
    + intros i Hi [Hc%lookup_lt_Some|[_ ->]]%lookup_snoc_inv; [lia|done].
Qed.

Lemma claim_spent j i : active j i w → spent n j w w'.
Proof using HI HF Hlen Hann HX Hpd Hdeq HXF.
  intros Hac%active_flr; [|done]. destruct claim_keeps as (_ & Ha & _). specialize (Ha (ann_time j w)).
  unfold spent, WfQueueInv.pot, events. change (ann_time j w') with (ann_time j w).
  simpl. rewrite length_app. simpl. pose proof (i_pos _ _ _ HI). split; [lia|]. split; [done|by left].
Qed.

Lemma claim_step : free_step w w'.
Proof using HI HF Hlen Hann HX Hpd Hdeq HXF Hx0.
  destruct claim_keeps as (Hso & _ & _). split.
  - apply (inv_slots_kept _ _ w); try done; try (simpl; rewrite ?length_app; lia).
    + apply claim_nodes.
    + apply claim_slots.
    + apply claim_spent.
    + destruct claim_effect as (? & _ & _ & -> & _). apply HI.
  - intros u. apply rely_slots_kept; try done; simpl.
    + apply helped_lin1.
    + intros Ha. apply quiet_lin1. intros ->. rewrite Ha in Hann. by destruct Hann.
    + apply prefix_snoc.
    + intros l x Hl. destruct (decide (l = F)) as [->|Hll].
      * rewrite Hx0 in Hl. simplify_eq. exists (f_set deqTid_f (Z.of_nat k) x).
        by rewrite list_lookup_insert_eq by by eapply lookup_lt_Some.
      * exists x. by rewrite list_lookup_insert_ne by done.
    + intros Ha l Hl. destruct (i_mine _ _ _ HI _ _ Hl) as (_ & _ & _ & _ & _ & _ & _ & _ & _ & _ & _ & Hnl).
      rewrite list_lookup_insert_ne; [done|]. intros ->. apply Hnl; [done|].
      by eapply wfq_pos_linked.
    + apply claim_spent.
Qed.
End claim.

(** ** The node of an enqueue before it is announced *)

Definition set_mine (t : nat) (l : loc) (x : aux) : aux :=
  Aux (chain x) (claims x) (front x) (back x) (ann x) (flr x) (<[t := l]> (mine x)) (snap x)
    (todo x) (calls x).

Lemma mine_lt k N w : Inv w → minew w !! k = Some N → N < length (nodes (w_mem w)).
Proof.
  intros HI HN. destruct (i_mine _ _ _ HI _ _ HN) as (_ & _ & _ & _ & _ & x & _ & Hx & _).
  by eapply lookup_lt_Some.
Qed.

Lemma newnode_step t v w :
  Inv w → pending (w_gh w) t (UApply t (enqueueOp v)) → annw w !! t = None →
  good_step proto t w (upd USp w
    (f_set nodes_f (nodes (w_mem w) ++ [Node v None (Z.of_nat t) 0]) (w_mem w)) []
    (set_mine t (length (nodes (w_mem w))) (w_aux w))).
Proof.
  intros HI (i & lo & Hg & _) Ha. set (w' := upd _ _ _ _ _).
  destruct (i_uop _ _ _ HI _ _ _ _ _ _ Hg) as [_ Ht].
  assert (∀ k, k ≠ t → minew w' !! k = minew w !! k) as Hmi
    by (intros k ?; simpl; by rewrite lookup_insert_ne).
  assert (∀ k, is_Some (annw w !! k) → k ≠ t) as Hk by (intros k [? ?] ->; congruence).
  assert (¬ linked (length (nodes (w_mem w))) w) as Hnl.
  { intros Hl. destruct (linked_node _ _ _ _ HI Hl) as [x ?%lookup_lt_Some]. lia. }
  assert (∀ k j, active k j w → spent n k w w') as Hpot
    by (intros ? ? Hfl%active_flr; [apply spent_same; simpl; pose proof (i_pos _ _ _ HI); lia || done|done]).
  split.
  - apply (inv_slots_kept _ _ w); try done; try (simpl; rewrite ?length_app; lia); [| | |apply HI].
    + split; try apply HI.
      * intros j l u Hj. destruct (i_chain _ _ _ HI _ _ _ Hj) as (e & ? & ?). exists e.
        split; [by apply lookup_snoc_l|done].
      * intros N u HN. destruct (i_lag _ _ _ HI _ _ HN) as (k & j & ? & Hon). exists k, j.
        split; [|done]. rewrite Hmi; [done|]. apply Hk, Hon.
      * intros k N. destruct (decide (k = t)) as [->|Hne].
        -- simpl. rewrite lookup_insert_eq. intros [= <-]. split; [done|].
           exists v, i, lo, None. eexists. split; [done|]. split; [by apply lookup_snoc_eq|].
           split; [done|]. split; [done|]. split; [|done].
           intros _. split; [done|]. rewrite Ha. by intros [].
        -- rewrite Hmi by done. intros HN.
           destruct (i_mine _ _ _ HI _ _ HN) as (? & v2 & i2 & lo2 & lin2 & x2 & ? & ? & ?).
           split; [done|]. exists v2, i2, lo2, lin2, x2. split; [done|].
           split; [by apply lookup_snoc_l|done].
      * intros k k' N HN HN'.
        destruct (decide (k = t)) as [->|Hne], (decide (k' = t)) as [->|Hne']; [done|..].
        -- rewrite Hmi in HN' by done. apply mine_lt in HN'; [|done].
           simpl in HN. apply lookup_insert_Some in HN as [[_ ?]|[? _]]; [lia|done].
        -- rewrite Hmi in HN by done. apply mine_lt in HN; [|done].
           simpl in HN'. apply lookup_insert_Some in HN' as [[_ ?]|[? _]]; [lia|done].
        -- rewrite Hmi in HN, HN' by done. by eapply (i_mine_inj _ _ _ HI).
    + intros k Hkn. apply (slot_kept _ _ _ w); try done; [by apply HI|by auto|].
      intros j Hj. rewrite lookup_ge_None_2; done.
    + intros k Hgk. rewrite Hmi; [done|]. intros ->. congruence.
  - intros u Hu. apply rely_slots_kept; try done.
    + intros k [?| ->]; apply Hmi; [by apply Hk|done].
    + intros l x Hl. exists x. split; [by apply lookup_snoc_l|done].
    + intros _ l Hl. pose proof (mine_lt _ _ _ HI Hl). simpl. by rewrite lookup_app_l.
Qed.

(** [n.deqTid.Store(noTid)] in [newNode]. *)
Lemma initnode_step t l x w :
  Inv w → minew w !! t = Some l → annw w !! t = None → nodes (w_mem w) !! l = Some x →
  good_step proto t w (upd USp w
    (f_set nodes_f (<[l := f_set deqTid_f noTid x]> (nodes (w_mem w))) (w_mem w)) [] (w_aux w)).
Proof.
  intros HI Hm Ha Hx. set (w' := upd _ _ _ _ _).
  assert (¬ linked l w) as Hnl.
  { destruct (i_mine _ _ _ HI _ _ Hm) as (_ & _ & _ & _ & _ & _ & _ & _ & _ & _ & _ & Hnl). by apply Hnl. }
  assert (∀ k j, active k j w → spent n k w w') as Hpot
    by (intros ? ? Hfl%active_flr; [apply spent_same; simpl; pose proof (i_pos _ _ _ HI); lia || done|done]).
  assert (l < length (nodes (w_mem w))) as Hlt by by eapply lookup_lt_Some.
  split.
  - apply (inv_slots_kept _ _ w); try done; try (simpl; rewrite ?length_app; lia); [| |apply HI].
    + split; try apply HI.
      * intros j l' u Hj. destruct (i_chain _ _ _ HI _ _ _ Hj) as (e & ? & ?). exists e.
        split; [|done]. simpl. rewrite list_lookup_insert_ne; [done|].
        intros ->. by eapply Hnl, wfq_pos_linked.
      * intros k N HN.
        destruct (i_mine _ _ _ HI _ _ HN) as (? & v2 & i2 & lo2 & lin2 & x2 & ? & Hx2 & ? & ? & Hl2 & ?).
        split; [done|]. exists v2, i2, lo2, lin2. simpl.
        destruct (decide (N = l)) as [->|Hne].
        -- exists (f_set deqTid_f noTid x2). rewrite Hx in Hx2. simplify_eq.
           rewrite list_lookup_insert_eq by done. split_and!; try done.
           intros ?. by destruct Hl2.
        -- exists x2. by rewrite list_lookup_insert_ne by done.
    + intros k Hkn. apply (slot_kept _ _ _ w); try done; [by apply HI|].
      intros j Hj. rewrite lookup_ge_None_2; done.
  - intros u Hu. apply rely_slots_kept; try done.
    + intros l' x' Hl'. simpl. destruct (decide (l' = l)) as [->|Hne].
      * exists (f_set deqTid_f noTid x'). rewrite Hx in Hl'. simplify_eq.
        by rewrite list_lookup_insert_eq by done.
      * exists x'. by rewrite list_lookup_insert_ne by done.
    + intros _ l' Hl'. simpl. rewrite list_lookup_insert_ne; [done|].
      intros <-. by destruct Hu, (i_mine_inj _ _ _ HI _ _ _ Hl' Hm).
Qed.

(** ** [Handle]: [q.next.Add(1)] *)

Definition leave_todo (t : nat) (x : aux) : aux :=
  Aux (chain x) (claims x) (front x) (back x) (ann x) (flr x) (mine x) (snap x)
    (todo x ∖ {[t]}) (calls x).

Definition handle_resp (c : Z) : qresp :=
  if bool_decide (c >= Z.of_nat n)%Z then RPanic else RHandle c.

Lemma size_leave t (s : gset nat) : t ∈ s → S (size (s ∖ {[t]})) = size s.
Proof.
  intros Ht. rewrite size_difference by set_solver. rewrite size_singleton.
  enough (0 < size s) by lia. apply Nat.neq_0_lt_0. intros H0%size_empty_inv. set_solver.
Qed.

Lemma cursor_step t w :
  Inv w → pending (w_gh w) t UHandle → t ∈ todow w →
  let c := cursor (w_mem w) in
  let w' := upd USp w (f_set cursor_f (i64 (c + 1)) (w_mem w)) [t] (leave_todo t (w_aux w)) in
  good_step proto t w w' ∧ i64 (i64 (c + 1) - 1) = c ∧
  finished (w_gh w') t (handle_resp c).
Proof.
  intros HI Hp Htd c w'. destruct (i_cursor _ _ _ HI) as (Hc & Hc0 & Hc1).
  destruct (i_limit _ _ _ HI) as [_ Hlim]. pose proof (size_leave _ _ Htd) as Hsz.
  pose proof (i_pos _ _ _ HI) as Hpos.
  assert (i64 (c + 1) = c + 1)%Z as Hi by (apply i64_small; unfold c; lia).
  assert (i64 (i64 (c + 1) - 1) = c)%Z as Hii.
  { rewrite Hi. replace (c + 1 - 1)%Z with c by lia. apply i64_small. unfold c. lia. }
  assert ((spec_step USp (g_state USp (w_gh w)) UHandle).2 = Some (handle_resp c)) as Hr.
  { unfold c. rewrite Hc. done. }
  pose proof Hp as (id & lo & Hg & _).
  assert (g_thr (w_gh w') = <[t := Pend id UHandle lo (Some (inl (handle_resp c)))]> (g_thr (w_gh w)) ∧
    g_now (w_gh w') = g_now (w_gh w)) as [Hthr Hnow].
  { unfold w', upd, lins. cbn [w_gh foldl]. unfold lin1. by rewrite Hg, Hr. }
  destruct (lin1_pending USp (w_gh w) t UHandle _ Hp Hr) as (Hfin & Hst & _).
  change (g_st zero n w' = ((g_st zero n w).1, ((g_st zero n w).2 + 1)%Z)) in Hst.
  assert (same_ops w w') as Hso.
  { split; [done|]. split; [apply (helped_lin1 USp t)|]. intros k. rewrite Hthr. destruct (decide (k = t)) as [->|].
    - by rewrite lookup_insert_eq, Hg.
    - by rewrite lookup_insert_ne. }
  assert (∀ k, is_Some (annw w !! k) → k ≠ t) as Hk.
  { intros k [[a h] Ha] ->. destruct (ann_slot _ _ _ _ _ _ HI Ha) as (?&?&?&?&?&?&?&?&_). congruence. }
  assert (∀ k j, active k j w → spent n k w w') as Hpot.
  { intros k j _. unfold spent, WfQueueInv.pot, events. change (ann_time k w') with (ann_time k w).
    assert (allowance n (ann_time k w) w' ≤ allowance n (ann_time k w) w);
      [|simpl; split; [lia|]; split; [done|by left]].
    apply allowance_le. intros u _. unfold allow. rewrite Hthr.
    destruct (decide (u = t)) as [->|]; [by rewrite lookup_insert_eq, Hg|by rewrite lookup_insert_ne]. }
  split; [|done]. split.
  - apply (inv_slots_kept _ _ w); try done; try (simpl; rewrite ?length_app; lia).
    + split; try apply HI.
      * by rewrite Hst; apply HI.
      * intros N u HN. destruct (i_lag _ _ _ HI _ _ HN) as (k & j & ? & [? ?]). exists k, j.
        split; [done|]. split; [|done]. by apply (same_ops_on w w').
      * intros k Hck. destruct (i_claimed _ _ _ HI _ Hck) as (a & h & i & lo' & lin & ? & ? & ?).
        exists a, h, i, lo', lin. rewrite Hthr, lookup_insert_ne; [done|]. intros ->. congruence.
      * intros k N HN. destruct (i_mine _ _ _ HI _ _ HN) as (? & v2 & i2 & lo2 & lin2 & x2 & ? & ?).
        split; [done|]. exists v2, i2, lo2, lin2, x2. rewrite Hthr, lookup_insert_ne; [done|].
        intros ->. congruence.
    + intros k Hkn. apply (slot_kept _ _ _ w); try done; [by apply HI|..].
      * intros Ha. apply quiet_lin1. intros ->. by eapply Hk.
      * by rewrite Hnow.
      * intros j Hj. rewrite lookup_ge_None_2; done.
    + simpl. set_solver.
    + rewrite Hst. simpl. rewrite Hi. unfold c. split; [lia|]. split; [lia|]. lia.
  - intros u Hu. apply rely_slots_kept; try done.
    + apply helped_lin1.
    + intros _. by apply quiet_lin1.
    + simpl. set_solver.
    + intros l x Hl. by exists x.
Qed.
End writes.
