(* ===== verification/WfQueueSlots.v ===== *)
(** [wf.Queue]: the helpers' writes to the slots of the announce array.

    A helper replaces a descriptor by one of the same operation ([wfq_swap_step] and
    its cases); only the owner announces a new one, in WfQueueCalls.v. *)

From S2P Require Export WfQueueWrites.
Import WfQueue WfQueueInv.

Section slots.
Context {T : Type} (zero : T) (n : nat).
Abbreviation node := (node T).
Abbreviation mem := (mem T).
Abbreviation qop := (uop (queueOp T)).
Abbreviation qresp := (uresp (resp T)).
Abbreviation USp := (uspec (wf_queue_spec zero) n).
Abbreviation aux := (aux (T:=T)).
Abbreviation world := (world mem qop qresp aux).
Abbreviation Inv := (Inv zero n).
Abbreviation R := (R n).
Abbreviation proto := (queue_protocol zero n).
Abbreviation slot_ok := (slot_ok zero n).
Abbreviation pot := (pot n).
Abbreviation free_step := (free_step zero n).
Abbreviation chainw w := (chain (w_aux w)).
Abbreviation claimsw w := (claims (w_aux w)).
Abbreviation frontw w := (front (w_aux w)).
Abbreviation backw w := (back (w_aux w)).
Abbreviation annw w := (ann (w_aux w)).
Abbreviation minew w := (mine (w_aux w)).
Abbreviation todow w := (todo (w_aux w)).
Implicit Types (w : world) (t k i j a h c d : nat) (X : opDesc) (v : T).

(** ** [q.state[k].CompareAndSwap(curDesc, newDesc)] *)

Definition set_flr (k f : nat) (x : aux) : aux :=
  Aux (chain x) (claims x) (front x) (back x) (ann x)
    (λ u, if decide (u = k) then f else flr x u) (mine x) (snap x) (todo x) (calls x).

Section swap.
Context (w : world) (k c d f : nat) (X X' : opDesc).
Context (HI : Inv w) (Hk : k < n) (Hc : state (w_mem w) !! k = Some (Some c)).
Context (HX : descs (w_mem w) !! c = Some X) (HX' : descs (w_mem w) !! d = Some X').
Context (Hph : phase X' = phase X) (Hen : enqueue X' = enqueue X).
Context (Hdone : od_pending X = false → X' = X).

Let w' := upd USp w (f_set state_f (<[k := Some d]> (state (w_mem w))) (w_mem w)) []
  (set_flr k f (w_aux w)).

Context (Hslot : slot_ok k w').
Context (Hflr : is_Some (annw w !! k) → od_pending X' = true →
  flr (w_aux w) k < f ≤ S (frontw w)).
Context (Hlinked : ∀ N, is_Some (annw w !! k) → minew w !! k = Some N →
  linked N w ∧ od_pending X' = false).
Context (Hcand : od_pending X = true → enqueue X = false → ∀ F j v,
  od_node X = Some F → at_pos j F v w → j < length (claimsw w)).
Context (Hclaimed : claimsw w !! frontw w = Some k → od_pending X' = false).

Lemma swap_state j : state (w_mem w') !! j = if decide (j = k) then Some (Some d) else state (w_mem w) !! j.
Proof using Hc.
  simpl. destruct (decide (j = k)) as [->|Hj]; [|by rewrite list_lookup_insert_ne].
  apply list_lookup_insert_eq. by eapply lookup_lt_Some.
Qed.

Lemma swap_desc j : desc_of j w' = if decide (j = k) then Some X' else desc_of j w.
Proof using Hc HX'.
  unfold desc_of. rewrite swap_state. by destruct (decide (j = k)).
Qed.

Lemma swap_old : desc_of k w = Some X.
Proof using Hc HX. by eapply desc_at. Qed.

Lemma swap_phase j : phase_of j w' = phase_of j w.
Proof using Hc HX HX' Hph.
  unfold phase_of. rewrite swap_desc. destruct (decide (j = k)) as [->|Hj]; [|done]. by rewrite swap_old.
Qed.

Lemma swap_waiting j : waiting j w' → waiting j w ∧ spent n j w w' ∨ annw w !! j = None.
Proof using Hk Hc HX HX' Hdone Hflr.
  intros (Y & HY & Hp). rewrite swap_desc in HY. destruct (decide (j = k)) as [->|Hj].
  - injection HY as <-. destruct (decide (annw w !! k = None)) as [|Ha%not_eq_None_Some]; [by right|left].
    split.
    + exists X. split; [apply swap_old|]. apply not_false_is_true. intros E.
      pose proof (Hdone E). congruence.
    + pose proof (Hflr Ha Hp). unfold spent, events, WfQueueInv.pot, ann_time. simpl.
      rewrite decide_True by done. unfold allowance, allow. simpl.
      split; [lia|]. split; [lia|right; lia].
  - left. split; [by exists Y|]. unfold spent. rewrite swap_state, decide_False by done.
    unfold events, WfQueueInv.pot, ann_time, allowance, allow. simpl.
    rewrite decide_False by done. split; [done|]. split; [done|by left].
Qed.

Lemma swap_inv : Inv w'.
Proof using HI Hk Hc HX HX' Hph Hdone Hslot Hflr.
  split; try by apply HI.
  - split; by apply HI.
  - simpl. rewrite length_insert. apply HI.
  - intros j Hj. destruct (decide (j = k)) as [->|Hne]; [done|].
    apply (slot_kept _ _ _ w); try done; [by apply HI|by rewrite swap_desc, decide_False|..].
    + intros _. simpl. by rewrite decide_False.
    + intros i Hi. by rewrite lookup_ge_None_2.
  - intros v i o lo lin j a h. rewrite swap_phase. by apply (i_late _ _ _ HI).
  - intros v p. rewrite swap_phase. by apply (i_snap _ _ _ HI).
  - intros j Ha Hw. destruct (swap_waiting _ Hw) as [[Hw' Hp]|Hn].
    + destruct Hp as (? & ? & _). unfold events in *. simpl in *.
      etrans; [|by apply (i_pot _ _ _ HI j)]. lia.
    + simpl in Ha. rewrite Hn in Ha. by destruct Ha.
  - intros j. rewrite swap_phase. apply (i_phase _ _ _ HI).
Qed.

Lemma swap_kept j : kept_or_settled j w w' ∨ j = k ∧ od_pending X' = true.
Proof using Hc HX'.
  destruct (decide (j = k)) as [->|Hne].
  - destruct (decide (od_pending X' = true)) as [|E%not_true_is_false]; [by right|left; right].
    exists X'. by rewrite swap_desc, decide_True.
  - left. left. rewrite swap_state. by rewrite decide_False.
Qed.

Lemma swap_rely u : R u w w'.
Proof using HI Hk Hc HX HX' Hph Hen Hdone Hflr Hlinked Hcand Hclaimed.
  split; try done.
  - intros l x Hl. by exists x.
  - intros Y HY Hs. rewrite swap_desc. destruct (decide (u = k)) as [->|Hj]; [|done].
    rewrite swap_old in HY. injection HY as <-. by rewrite Hdone.
  - intros j. by rewrite swap_phase.
  - intros j i o lo Hr. by left.
  - intros j i Ha _. rewrite swap_phase, swap_desc. split; [done|]. split; [done|].
    destruct (decide (j = k)) as [->|]; [|done]. rewrite swap_old. simpl. by rewrite Hen.
  - intros j i [[Hon Ha] Hw]. left. destruct (swap_waiting _ Hw) as [[? ?]|Hn]; [done|].
    simpl in Ha. rewrite Hn in Ha. by destruct Ha.
  - intros j i N Ha HN Hp. split; [done|]. split; [done|]. split.
    + destruct (swap_kept j) as [?|[-> Hpd]]; [done|].
      destruct (Hlinked N) as [_ ?]; [apply Ha|done|congruence].
    + intros Hnl. rewrite swap_state. destruct (decide (j = k)) as [->|]; [|done].
      by destruct (Hlinked N) as [? _]; [apply Ha|done|].
  - intros j i Y i' F v Ha HY Hp HF He Hi Hcl. split; [done|]. rewrite swap_state.
    destruct (decide (j = k)) as [->|]; [|done]. rewrite swap_old in HY. injection HY as <-.
    simpl in Hcl. pose proof (Hcand Hp He _ _ _ HF Hi). lia.
  - intros j i i' Ha Hi Hf Hf'. split; [done|].
    destruct (swap_kept j) as [?|[-> Hpd]]; [done|]. rewrite Hclaimed in Hpd; [done|].
    enough (i' = frontw w) as -> by done. apply lookup_lt_Some in Hi.
    pose proof (i_pos _ _ _ HI). lia.
Qed.

Lemma wfq_swap_step : free_step w w'.
Proof using HI Hk Hc HX HX' Hph Hen Hdone Hslot Hflr Hlinked Hcand Hclaimed.
  split; [apply swap_inv|intros u; apply swap_rely].
Qed.
End swap.

(** The memory and ghost state after [q.state[k].CompareAndSwap(_, d)]. *)
Definition swapped (k d f : nat) w : world :=
  upd USp w (f_set state_f (<[k := Some d]> (state (w_mem w))) (w_mem w)) []
    (set_flr k f (w_aux w)).

Lemma swapped_desc k c d f X w :
  state (w_mem w) !! k = Some (Some c) → descs (w_mem w) !! d = Some X →
  desc_of k (swapped k d f w) = Some X.
Proof. intros Hc Hd. rewrite (swap_desc w k c d f X Hc Hd). by rewrite decide_True. Qed.

Lemma slot_of_desc k X w :
  Inv w → k < n → desc_of k w = Some X → is_Some (annw w !! k) →
  ∃ a h i o lo lin, annw w !! k = Some (a, h) ∧
    g_thr (w_gh w) !! k = Some (Pend i (UApply k o) lo lin) ∧ i < a ≤ g_now (w_gh w) ∧
    flr (w_aux w) k ≤ S (frontw w) ∧ (∀ u, (snap (w_aux w) k u < phase X)%Z) ∧
    op_ok zero n k h o X w.
Proof.
  intros HI Hk HX [[a h] Ha].
  destruct (ann_slot _ _ _ _ _ _ HI Ha) as (X' & i & o & lo & lin & HX' & _ & Hrest).
  assert (X' = X) as -> by congruence. by exists a, h, i, o, lo, lin.
Qed.

Lemma unannounced_settled k X w :
  Inv w → k < n → desc_of k w = Some X → annw w !! k = None → od_pending X = false.
Proof.
  intros HI Hk HX Ha. destruct (i_slots _ _ _ HI _ Hk) as (Y & HY & Hs).
  rewrite Ha in Hs. congruence.
Qed.

(** [helpFinishEnq] settles the enqueue of a linked node. *)
Lemma finish_enq_step k c d X N w :
  Inv w → k < n → state (w_mem w) !! k = Some (Some c) → descs (w_mem w) !! c = Some X →
  enqueue X = true → od_node X = Some N → linked N w →
  descs (w_mem w) !! d = Some (OpDesc (phase X) false true (Some N)) →
  free_step w (swapped k d (flr (w_aux w) k) w).
Proof.
  intros HI Hk Hc HX He HN Hl Hd.
  assert (od_pending X = false → OpDesc (phase X) false true (Some N) = X) as Hdone
    by (destruct X; simpl in *; congruence).
  pose proof (desc_at _ _ _ _ Hc HX) as Hold.
  assert (∀ M, is_Some (annw w !! k) → minew w !! k = Some M → M = N) as Hmine.
  { intros M Ha HM. destruct (mine_waiting _ _ _ _ _ HI HM Ha) as (Y & v & HY & _ & HYN & _). congruence. }
  eapply wfq_swap_step; try done.
  - exists (OpDesc (phase X) false true (Some N)). split; [by eapply swapped_desc|].
    change (annw (upd _ _ _ _ _)) with (annw w).
    destruct (annw w !! k) as [[a h]|] eqn:Ha; [|done].
    destruct (slot_of_desc _ _ _ HI Hk Hold) as (a' & h' & i & o & lo & lin & Ha' & Hg & Hi & Hf & Hs & Ho);
      [by eexists|]. simplify_eq. exists i, o, lo, lin. split; [done|]. split; [done|].
    split; [simpl; by rewrite decide_True|]. split; [done|].
    destruct o as [v|]; [|destruct Ho; congruence].
    destruct Ho as (_ & M & HM & Hm & Ho). assert (M = N) as -> by congruence.
    split; [done|]. exists N. split; [done|]. split; [done|].
    destruct Ho as [(? & _)|(_ & ? & _)]; [done|]. right. split_and!; done.
  - intros M Ha HM. by rewrite (Hmine M Ha HM).
  - congruence.
Qed.

(** [helpFinishDeq] settles the dequeue that claimed a node. *)
Lemma finish_deq_step k c d X F j v w :
  Inv w → k < n → state (w_mem w) !! k = Some (Some c) → descs (w_mem w) !! c = Some X →
  enqueue X = false → od_node X = Some F → at_pos j F v w → claimsw w !! j = Some k →
  descs (w_mem w) !! d = Some (OpDesc (phase X) false (enqueue X) (od_node X)) →
  free_step w (swapped k d (flr (w_aux w) k) w).
Proof.
  intros HI Hk Hc HX He HF Hj Hcl Hd.
  assert (od_pending X = false → OpDesc (phase X) false (enqueue X) (od_node X) = X) as Hdone
    by (destruct X; simpl in *; congruence).
  pose proof (desc_at _ _ _ _ Hc HX) as Hold.
  eapply wfq_swap_step; try done.
  - exists (OpDesc (phase X) false (enqueue X) (od_node X)). split; [by eapply swapped_desc|].
    change (annw (upd _ _ _ _ _)) with (annw w).
    destruct (annw w !! k) as [[a h]|] eqn:Ha; [|done].
    destruct (slot_of_desc _ _ _ HI Hk Hold) as (a' & h' & i & o & lo & lin & Ha' & Hg & Hi & Hf & Hs & Ho);
      [by eexists|]. simplify_eq. exists i, o, lo, lin. split; [done|]. split; [done|].
    split; [simpl; by rewrite decide_True|]. split; [done|].
    destruct o as [u|]; [destruct Ho; congruence|].
    destruct Ho as (_ & Hm & Hh & Ho). split; [done|]. split; [done|]. split; [done|].
    simpl. rewrite HF in Ho |- *. rewrite decide_True by done.
    destruct Ho as (j' & v' & Hj' & ? & ? & ? & ? & Ho). exists j', v'.
    assert (j' = j) as -> by by eapply wfq_pos_inj.
    split_and!; try done; try lia. right. destruct Ho as [(? & _)|(? & ? & _)]; done.
  - intros M Ha HM. destruct (mine_waiting _ _ _ _ _ HI HM Ha) as (Y & u & HY & (HYe & _) & _).
    congruence.
  - intros _ _ F' j' v' HF' Hj'. assert (F' = F) as -> by congruence.
    rewrite (wfq_pos_inj _ _ _ _ _ _ _ _ HI Hj' Hj). by eapply lookup_lt_Some.
Qed.

(** What is known of the pending dequeue whose candidate is not the head. *)
Lemma waiting_deq k c X jf w :
  Inv w → k < n → state (w_mem w) !! k = Some (Some c) → descs (w_mem w) !! c = Some X →
  od_pending X = true → enqueue X = false → jf ≤ frontw w →
  (∀ F, od_node X = Some F → ∃ j v, at_pos j F v w ∧ j < jf) →
  ∃ a h i lo lin, annw w !! k = Some (a, h) ∧
    g_thr (w_gh w) !! k = Some (Pend i (UApply k dequeueOp) lo lin) ∧ i < a ≤ g_now (w_gh w) ∧
    flr (w_aux w) k ≤ S (frontw w) ∧ (∀ u, (snap (w_aux w) k u < phase X)%Z) ∧
    minew w !! k = None ∧ h ≤ frontw w ∧
    (∀ j, h ≤ j → claimsw w !! j ≠ Some k) ∧ pending (w_gh w) k (UApply k dequeueOp) ∧
    (flr (w_aux w) k ≤ jf ∨ od_node X = None ∧ flr (w_aux w) k = h).
Proof.
  intros HI Hk Hc HX Hp He Hjf HF. pose proof (desc_at _ _ _ _ Hc HX) as Hold.
  destruct (decide (annw w !! k = None)) as [Ha|Ha%not_eq_None_Some].
  { pose proof (unannounced_settled _ _ _ HI Hk Hold Ha). congruence. }
  destruct (slot_of_desc _ _ _ HI Hk Hold Ha) as (a & h & i & o & lo & lin & Ha' & Hg & Hi & Hf & Hs & Ho).
  destruct o as [v|]; [destruct Ho; congruence|]. destruct Ho as (_ & Hm & Hh & Ho).
  exists a, h, i, lo, lin. do 7 (split; [done|]). destruct (od_node X) as [F|].
  - destruct (HF F eq_refl) as (j & v & Hj & Hlt).
    destruct Ho as (j' & v' & Hj' & Hfl & Hhj & _ & Hnc & [(Hc' & _ & Hpd)|(_ & _ & Hfr)]);
      rewrite (wfq_pos_inj _ _ _ _ _ _ _ _ HI Hj' Hj) in *.
    + split; [|split; [done|left; lia]]. intros i' Hi'. destruct (decide (i' = j)) as [->|]; [done|by apply Hnc].
    + specialize (Hfr Hp). lia.
  - destruct Ho as [Hnc [(_ & ? & ?)|(? & _)]]; [|congruence]. split_and!; auto.
Qed.

(** [helpDeq] marks a dequeue that saw the queue empty. *)
Lemma mark_empty_step k c d X w :
  Inv w → k < n → state (w_mem w) !! k = Some (Some c) → descs (w_mem w) !! c = Some X →
  od_pending X = true → enqueue X = false →
  (∀ F, od_node X = Some F → ∃ j v, at_pos j F v w ∧ j < frontw w) →
  (pending (w_gh w) k (UApply k dequeueOp) →
     observed USp (w_gh w) k (UApply k dequeueOp) (RApply (RVal zero false))) →
  descs (w_mem w) !! d = Some (OpDesc (phase X) false false None) →
  free_step w (swapped k d (flr (w_aux w) k) w).
Proof.
  intros HI Hk Hc HX Hp He HF Hobs Hd.
  destruct (waiting_deq _ _ _ (frontw w) _ HI Hk Hc HX Hp He) as (a & h & i & lo & lin & Ha & Hg & Hi & Hf & Hs & Hm & Hh & Hnc & Hpd & _);
    [done|done|].
  eapply wfq_swap_step; try done; simpl; try congruence.
  - exists (OpDesc (phase X) false false None). split; [by eapply swapped_desc|].
    change (annw (upd _ _ _ _ _)) with (annw w). rewrite Ha.
    exists i, dequeueOp, lo, lin. split; [done|]. split; [done|].
    split; [simpl; by rewrite decide_True|]. split; [done|].
    split; [done|]. split; [done|]. split; [done|]. simpl. split; [done|].
    right. split; [done|]. by apply Hobs.
  - intros _ _ F j v HXF Hj. destruct (HF F HXF) as (j' & v' & Hj' & ?).
    rewrite (wfq_pos_inj _ _ _ _ _ _ _ _ HI Hj Hj'). pose proof (i_pos _ _ _ HI). lia.
Qed.

(** [helpDeq] records the candidate [F] for a dequeue. *)
Lemma record_step k c d X F jf v w :
  Inv w → k < n → state (w_mem w) !! k = Some (Some c) → descs (w_mem w) !! c = Some X →
  od_pending X = true → enqueue X = false → at_pos jf F v w → jf ≤ frontw w → jf < backw w →
  (∀ F', od_node X = Some F' → ∃ j v, at_pos j F' v w ∧ j < jf) →
  (∀ a h, annw w !! k = Some (a, h) → h ≤ jf) →
  descs (w_mem w) !! d = Some (OpDesc (phase X) true false (Some F)) →
  free_step w (swapped k d (S jf) w) ∧ flr (w_aux w) k ≤ jf.
Proof.
  intros HI Hk Hc HX Hp He Hjf Hf Hb HF Hha Hd.
  destruct (waiting_deq _ _ _ jf _ HI Hk Hc HX Hp He) as (a & h & i & lo & lin & Ha & Hg & Hi & Hfl & Hs & Hm & Hh & Hnc & Hpd & Hflr);
    [done|done|]. specialize (Hha _ _ Ha). assert (flr (w_aux w) k ≤ jf) as Hle by lia.
  split; [|done].
  eapply wfq_swap_step; try done; simpl; try congruence.
  - exists (OpDesc (phase X) true false (Some F)). split; [by eapply swapped_desc|].
    change (annw (upd _ _ _ _ _)) with (annw w). rewrite Ha.
    exists i, dequeueOp, lo, lin. split; [done|]. split; [done|].
    split; [simpl; rewrite decide_True by done; lia|]. split; [done|].
    split; [done|]. split; [done|]. split; [done|]. simpl.
    exists jf, v. rewrite decide_True by done. split; [done|]. split; [done|]. split; [lia|].
    split; [done|]. split; [by auto|]. left. split; [by apply Hnc|done].
  - intros _ _. lia.
  - intros _ _ F' j v' HXF Hj. destruct (HF F' HXF) as (j' & v2 & Hj' & ?).
    rewrite (wfq_pos_inj _ _ _ _ _ _ _ _ HI Hj Hj'). pose proof (i_pos _ _ _ HI). lia.
  - intros Hcl. by destruct (Hnc _ Hh Hcl).
Qed.
End slots.
