(* ===== verification/WfQueueCalls.v ===== *)
(** [wf.Queue]: the calls, the announcements and the returns.

    An announcement starts the wait of an operation, for which [max_pot] bounds
    the rounds of its helpers; an operation returns when everything announced
    before it was called is settled. *)

From S2P Require Export WfQueueSlots.
Import WfQueue WfQueueInv.

Section calls.
Context {T : Type} (zero : T) (n : nat).
Abbreviation node := (node T).
Abbreviation mem := (mem T).
Abbreviation qop := (uop (queueOp T)).
Abbreviation qresp := (uresp (resp T)).
Abbreviation USp := (uspec (wf_queue_spec zero) n).
Abbreviation aux := (aux (T:=T)).
Abbreviation world := (world mem qop qresp aux).
Abbreviation Inv := (Inv zero n).
Abbreviation R := (R n).
Abbreviation proto := (queue_protocol zero n).
Abbreviation slot_ok := (slot_ok zero n).
Abbreviation pot := (pot n).
Abbreviation chainw w := (chain (w_aux w)).
Abbreviation claimsw w := (claims (w_aux w)).
Abbreviation frontw w := (front (w_aux w)).
Abbreviation backw w := (back (w_aux w)).
Abbreviation annw w := (ann (w_aux w)).
Abbreviation minew w := (mine (w_aux w)).
Abbreviation todow w := (todo (w_aux w)).
Implicit Types (w : world) (t k i j a h c d : nat) (X : opDesc) (v : T).

(** ** [q.state[tid].Store(&opDesc{...})] *)

Definition announce (t now : nat) (x : aux) : aux :=
  Aux (chain x) (claims x) (front x) (back x) (<[t := (now, front x)]> (ann x))
    (λ u, if decide (u = t) then front x else flr x u) (mine x) (snap x) (todo x ∖ {[t]})
    (calls x).

(** The descriptor of a new operation. *)
Definition fresh_desc (t : nat) (o : queueOp T) X w : Prop :=
  od_pending X = true ∧
  match o with
  | enqueueOp _ => enqueue X = true ∧ ∃ N x, od_node X = Some N ∧ minew w !! t = Some N ∧
      nodes (w_mem w) !! N = Some x ∧ deqTid x = noTid
  | dequeueOp => enqueue X = false ∧ od_node X = None ∧ minew w !! t = None
  end.

Section announce.
Context (t d : nat) (o : queueOp T) (X : opDesc) (w : world).
Context (HI : Inv w) (Hp : pending (w_gh w) t (UApply t o)) (Ha : annw w !! t = None).
Context (Htd : t ∈ todow w) (HX : descs (w_mem w) !! d = Some X) (Hnew : fresh_desc t o X w).
Context (Hph0 : (0 ≤ phase X)%Z) (Hsnap : ∀ u, (snap (w_aux w) t u < phase X)%Z).
Context (Hph : ∃ j, (phase X ≤ phase_of j w + 1)%Z).

Let w' := upd USp w (f_set state_f (<[t := Some d]> (state (w_mem w))) (w_mem w)) []
  (announce t (g_now (w_gh w)) (w_aux w)).

Lemma announce_lt : t < n.
Proof using HI Hp. destruct Hp as (i & lo & Hg & _). by eapply i_uop. Qed.

Lemma announce_state j :
  state (w_mem w') !! j = if decide (j = t) then Some (Some d) else state (w_mem w) !! j.
Proof using HI Hp.
  simpl. destruct (decide (j = t)) as [->|Hj]; [|by rewrite list_lookup_insert_ne].
  apply list_lookup_insert_eq. rewrite (i_state _ _ _ HI). apply announce_lt.
Qed.

Lemma announce_desc j : desc_of j w' = if decide (j = t) then Some X else desc_of j w.
Proof using HI Hp HX. unfold desc_of. rewrite announce_state. by destruct (decide (j = t)). Qed.

Lemma announce_ann j : j ≠ t → annw w' !! j = annw w !! j.
Proof using. intros. simpl. by rewrite lookup_insert_ne. Qed.

Lemma announced_ne j : is_Some (annw w !! j) → j ≠ t.
Proof using Ha. intros Hs ->. rewrite Ha in Hs. by destruct Hs. Qed.

Lemma announce_phase j : phase_of j w' = if decide (j = t) then phase X else phase_of j w.
Proof using HI Hp HX. unfold phase_of. rewrite announce_desc. by destruct (decide (j = t)). Qed.

Lemma announce_pot j : j ≠ t → pot j w' = pot j w.
Proof using.
  intros Hj. unfold WfQueueInv.pot, ann_time. rewrite announce_ann by done. simpl.
  by rewrite decide_False.
Qed.

Lemma announce_spent j : j ≠ t → spent n j w w'.
Proof using HI Hp.
  intros Hj. unfold spent. rewrite announce_pot, announce_state, decide_False by done.
  unfold events. simpl. rewrite decide_False by done. split; [done|]. split; [done|by left].
Qed.

Lemma announce_slot : slot_ok t w'.
Proof using HI Hp Ha HX Hnew Hsnap.
  exists X. split; [by rewrite announce_desc, decide_True|].
  simpl. rewrite lookup_insert_eq. destruct Hp as (i & lo & Hg & Hlo).
  exists i, o, lo, None. split; [done|]. split; [by pose proof (i_ids _ _ _ HI _ _ Hg)|].
  split; [rewrite decide_True by done; lia|]. split; [done|].
  destruct Hnew as [Hpd Hn]. destruct o as [v|].
  - destruct Hn as (He & N & x & HN & Hm & Hx & Hd). split; [done|]. exists N.
    split; [done|]. split; [done|]. left. split; [|done].
    destruct (i_mine _ _ _ HI _ _ Hm) as (_ & _ & _ & _ & _ & _ & _ & _ & _ & _ & _ & Hl).
    by apply Hl.
  - destruct Hn as (He & HN & Hm). split; [done|]. split; [done|]. split; [done|].
    rewrite HN. split.
    + intros j Hj Hc. simpl in Hj, Hc. pose proof (lookup_lt_Some _ _ _ Hc) as Hlt.
      pose proof (i_pos _ _ _ HI). assert (j = frontw w) as -> by lia.
      destruct (i_claimed _ _ _ HI _ Hc) as (? & ? & ? & ? & ? & Ha' & _). congruence.
    + left. split; [done|]. split; [simpl; by rewrite decide_True|done].
Qed.

Lemma announce_inv : Inv w'.
Proof using HI Hp Ha Htd HX Hnew Hph0 Hsnap Hph.
  pose proof announce_lt as Ht. pose proof announced_ne as Hne. pose proof Hp as (i0 & lo0 & Hg & _).
  assert (∀ j, is_Some (annw w !! j) → annw w' !! j = annw w !! j) as Hold
    by (intros j Hj; apply announce_ann; by apply Hne).
  split; try by apply HI.
  - split; try by apply HI.
    + intros N v HN. destruct (i_lag _ _ _ HI _ _ HN) as (k & i & ? & Hon & Hs). exists k, i.
      split; [done|]. split; [done|]. by rewrite Hold.
    + intros k Hk. destruct (i_claimed _ _ _ HI _ Hk) as (a & h & i & lo & lin & Hak & ? & ?).
      exists a, h, i, lo, lin. split; [|done]. rewrite Hold; [done|by eexists].
    + intros k N HN. change (minew w !! k = Some N) in HN.
      destruct (i_mine _ _ _ HI _ _ HN) as (? & v & i & lo & lin & x & ? & Hx & ? & ? & Hl & Hl').
      split; [done|]. exists v, i, lo, lin, x. split_and!; try done.
      * intros Hnl. destruct (Hl Hnl) as [? Hd]. split; [done|]. intros Hak.
        destruct (decide (k = t)) as [->|Hk]; [|by apply Hd; rewrite <-announce_ann].
        destruct Hnew as [_ Hn]. destruct o as [v'|]; [|destruct Hn as (_ & _ & ?); congruence].
        destruct Hn as (_ & M & x' & _ & HM & Hx' & ?). congruence.
      * intros Hak. apply Hl'. destruct (decide (k = t)) as [->|Hk]; [done|].
        by rewrite <-announce_ann.
  - simpl. rewrite length_insert. apply HI.
  - intros k Hk. destruct (decide (k = t)) as [->|Hkt]; [apply announce_slot|].
    apply (slot_kept _ _ _ w); try done; [by apply HI|by rewrite announce_desc, decide_False|by apply announce_ann|..].
    + intros _. simpl. by rewrite decide_False.
    + intros i Hi. by rewrite lookup_ge_None_2.
  - intros k Hk. destruct (decide (k = t)) as [->|Hkt]; [done|].
    apply (i_ann _ _ _ HI). by rewrite <-announce_ann.
  - intros k Hk. destruct (decide (k = t)) as [->|Hkt].
    + change (g_thr (w_gh w) !! t = None) in Hk. congruence.
    + rewrite announce_ann by done. destruct (i_gone _ _ _ HI k Hk) as (? & ? & ?).
      split; [done|]. split; [done|]. simpl. set_solver.
  - intros v i lo o' lin k a h Hv Hak Hi. rewrite announce_phase.
    destruct (decide (k = t)) as [->|Hkt].
    + simpl in Hak. rewrite lookup_insert_eq in Hak. injection Hak as <- <-.
      pose proof (i_ids _ _ _ HI _ _ Hv). simpl in *. lia.
    + rewrite announce_ann in Hak by done. by eapply (i_late _ _ _ HI).
  - intros v p Hv Hav. rewrite announce_phase. destruct (decide (v = t)) as [->|Hvt].
    + simpl in Hav. by rewrite lookup_insert_eq in Hav.
    + rewrite announce_ann in Hav by done. by eapply (i_snap _ _ _ HI).
  - intros k Hak Hw. destruct (decide (k = t)) as [->|Hkt].
    + unfold WfQueueInv.pot, max_pot. simpl. rewrite decide_True by done.
      pose proof (allowance_max n (ann_time t w') w'). pose proof (i_pos _ _ _ HI). lia.
    + rewrite announce_pot by done. apply (i_pot _ _ _ HI); [by rewrite <-announce_ann|].
      destruct Hw as (Y & HY & ?). rewrite announce_desc, decide_False in HY by done. by exists Y.
  - intros k. rewrite announce_phase. simpl. pose proof (size_leave _ _ Htd) as Hsz.
    destruct (i_phase _ _ _ HI k). destruct (decide (k = t)) as [->|Hkt]; [|split; lia].
    split; [lia|]. destruct Hph as [j Hj]. destruct (i_phase _ _ _ HI j). lia.
  - intros k Hk. simpl in Hk. rewrite announce_ann by set_solver. apply (i_todo _ _ _ HI). set_solver.
  - destruct (i_cursor _ _ _ HI) as (? & ? & ?). split; [done|]. split; [done|]. simpl.
    pose proof (size_leave _ _ Htd). lia.
Qed.

Lemma wfq_announce_step : good_step proto t w w'.
Proof using HI Hp Ha Htd HX Hnew Hph0 Hsnap Hph.
  split; [apply announce_inv|]. intros u Hu. pose proof announced_ne as Hne.
  assert (∀ k i, annd k i w → annd k i w') as Hann.
  { intros k i [? Hs]. split; [done|]. rewrite announce_ann; [done|by apply Hne]. }
  assert (∀ k i, annd k i w → k ≠ t) as Hnt by (intros k i [_ ?]; by apply Hne).
  assert (∀ k, k ≠ t → state (w_mem w') !! k = state (w_mem w) !! k) as Hst
    by (intros k ?; by rewrite announce_state, decide_False).
  split; try done.
  - intros l x Hl. by exists x.
  - simpl. set_solver.
  - by apply announce_ann.
  - intros Y HY _. by rewrite announce_desc, decide_False.
  - intros k. rewrite announce_phase. destruct (decide (k = t)) as [->|]; [|done].
    destruct Hp as (i & lo & Hg & _). pose proof (i_snap _ _ _ HI _ _ Hg Ha).
    specialize (Hsnap t). lia.
  - intros k i o' lo Hr. by left.
  - intros k i Hk _. pose proof (Hnt _ _ Hk).
    by rewrite announce_ann, announce_phase, announce_desc, !decide_False.
  - intros k i [[Hon Hs] Hw]. destruct (decide (k = t)) as [->|Hkt].
    + right. split; [by intros ?%Hnt|]. simpl. rewrite lookup_insert_eq.
      by exists (g_now (w_gh w)), (frontw w).
    + left. rewrite announce_ann in Hs |- * by done.
      split; [|split; [done|by apply announce_spent]]. split; [done|]. destruct Hw as (Y & HY & ?).
      rewrite announce_desc, decide_False in HY by done. by exists Y.
  - intros k i N Hk HN _. pose proof (Hnt _ _ Hk). split; [by apply Hann|]. split; [done|].
    split; [left|intros _]; by apply Hst.
  - intros k i Y j F v Hk _ _ _ _ _ _. split; [by apply Hann|]. eapply Hst, Hnt, Hk.
  - intros k i j Hk _ _ _. split; [by apply Hann|]. left. eapply Hst, Hnt, Hk.
Qed.
End announce.

(** ** Calls *)

Definition called (t : nat) w : aux :=
  let x := w_aux w in
  Aux (chain x) (claims x) (front x) (back x) (ann x) (flr x) (mine x)
    (λ u, if decide (u = t) then (λ j, phase_of j w) else snap x u) ({[t]} ∪ todo x)
    (S (calls x)).

Section call.
Context (t : nat) (o : qop) (w : world).
Context (HI : Inv w) (Hidle : g_thr (w_gh w) !! t = None).
Context (Hcalls : (Z.of_nat (g_now (w_gh w)) < 2 ^ 62)%Z).
Context (Hop : match o with UHandle => True | UApply u _ => u = t ∧ t < n end).

Let w' : world := World (w_mem w) (g_call t (g_now (w_gh w)) o (w_gh w)) (called t w).

Lemma call_thr k : k ≠ t → g_thr (w_gh w') !! k = g_thr (w_gh w) !! k.
Proof using. intros. simpl. by rewrite lookup_insert_ne. Qed.

Lemma call_thr_t : g_thr (w_gh w') !! t = Some (Pend (g_now (w_gh w)) o (length (g_log (w_gh w))) None).
Proof using. simpl. by rewrite lookup_insert_eq. Qed.

Lemma call_idle : annw w !! t = None ∧ minew w !! t = None ∧ t ∉ todow w.
Proof using HI Hidle. by apply (i_gone _ _ _ HI). Qed.

Lemma call_on k i : on k i w → k ≠ t ∧ on k i w'.
Proof using Hidle.
  intros (o' & lo & Hi & lin & Hg). assert (k ≠ t) as Hk by (intros ->; congruence).
  split; [done|]. exists o', lo. split; [simpl; lia|]. exists lin. by rewrite call_thr.
Qed.

Lemma call_on_inv k i : k ≠ t → on k i w' → Inv w → on k i w.
Proof using.
  intros Hk (o' & lo & Hi & lin & Hg) HI'. rewrite call_thr in Hg by done.
  exists o', lo. by eapply thr_running.
Qed.

Lemma call_snap k : k ≠ t → snap (w_aux w') k = snap (w_aux w) k.
Proof using. intros. simpl. by rewrite decide_False. Qed.

Lemma call_pot k : is_Some (annw w !! k) → pot k w' ≤ pot k w.
Proof using HI Hidle Hop.
  intros [[a h] Ha]. destruct (ann_slot _ _ _ _ _ _ HI Ha) as (_ & i & _ & _ & _ & _ & _ & _ & Hi & _).
  unfold WfQueueInv.pot, ann_time. simpl. rewrite Ha.
  assert (allowance n a w' ≤ allowance n a w); [|simpl; lia].
  apply allowance_le. intros u _. destruct (decide (u = t)) as [->|Hu].
  - unfold allow. rewrite call_thr_t, Hidle. destruct o as [|? ?]; [done|].
    rewrite bool_decide_true; lia.
  - unfold allow. by rewrite call_thr.
Qed.

Lemma call_inv : Inv w'.
Proof using HI Hidle Hcalls Hop.
  destruct call_idle as (Ha & Hm & Htd).
  assert (size ({[t]} ∪ todow w) = S (size (todow w))) as Hsz.
  { rewrite size_union by set_solver. by rewrite size_singleton. }
  split; try by apply HI.
  - split; try by apply HI.
    + intros N v HN. destruct (i_lag _ _ _ HI _ _ HN) as (k & i & ? & [Hon Hs]). exists k, i.
      split; [done|]. by split; [apply call_on|].
    + intros k Hk. destruct (i_claimed _ _ _ HI _ Hk) as (a & h & i & lo & lin & Hak & ? & Hg).
      exists a, h, i, lo, lin. rewrite call_thr; [done|]. intros ->. congruence.
    + intros k N HN. destruct (i_mine _ _ _ HI _ _ HN) as (? & v & i & lo & lin & x & Hg & ?).
      split; [done|]. exists v, i, lo, lin, x. rewrite call_thr; [done|]. intros ->. congruence.
  - intros k Hk. assert (is_Some (annw w !! k) → k ≠ t) as Hne by (intros [? ?] ->; congruence).
    apply (slot_kept _ _ _ w); try done; [by apply HI|..].
    + intros Hs. apply quiet_call. intros ->. by apply Hne.
    + simpl. lia.
    + intros Hs. apply call_snap. by apply Hne.
    + intros i Hi. by rewrite lookup_ge_None_2.
  - intros k p. destruct (decide (k = t)) as [->|Hk].
    + rewrite call_thr_t. intros [= <-]. simpl. lia.
    + rewrite call_thr by done. intros ?%(i_ids _ _ _ HI). simpl. lia.
  - intros k p. destruct (decide (k = t)) as [->|Hk].
    + rewrite call_thr_t. intros [= <-]. done.
    + rewrite call_thr by done. apply (i_lo _ _ _ HI).
  - intros k i u o' lo lin. destruct (decide (k = t)) as [->|Hk].
    + rewrite call_thr_t. intros [= _ Ho _ _]. rewrite Ho in Hop. destruct Hop. by subst.
    + rewrite call_thr by done. apply (i_uop _ _ _ HI).
  - intros k. destruct (decide (k = t)) as [->|Hk]; [by rewrite call_thr_t|].
    rewrite call_thr by done. intros (? & ? & ?)%(i_gone _ _ _ HI). simpl. set_solver.
  - intros v i o' lo lin k a h. destruct (decide (v = t)) as [->|Hv].
    + intros _ _ _. simpl. by rewrite decide_True.
    + rewrite call_thr, call_snap by done. apply (i_late _ _ _ HI).
  - intros v p. destruct (decide (v = t)) as [->|Hv].
    + intros _ _. simpl. by rewrite decide_True.
    + rewrite call_thr, call_snap by done. apply (i_snap _ _ _ HI).
  - intros k Hs Hw. etrans; [by apply call_pot|]. by apply (i_pot _ _ _ HI).
  - intros k. destruct (i_phase _ _ _ HI k). split; [done|]. simpl. rewrite Hsz.
    change (phase_of k w') with (phase_of k w). lia.
  - intros k Hk. simpl in Hk. destruct (decide (k = t)) as [->|]; [done|].
    apply (i_todo _ _ _ HI). set_solver.
  - destruct (i_cursor _ _ _ HI) as (? & ? & ?). split; [done|]. split; [done|]. simpl. lia.
  - destruct (i_limit _ _ _ HI). simpl. lia.
Qed.

Lemma wfq_call_step : Inv w' ∧ ∀ u, u ≠ t → R u w w'.
Proof using HI Hidle Hcalls Hop.
  split; [apply call_inv|]. intros u Hu. destruct call_idle as (Ha & Hm & Htd).
  assert (∀ k i, annd k i w → annd k i w') as Hann by (intros k i [? ?]; by split; [apply call_on|]).
  split; try done.
  - apply quiet_helped. by apply quiet_call.
  - intros _. by apply quiet_call.
  - simpl. lia.
  - intros l x Hl. by exists x.
  - simpl. set_solver.
  - by apply call_snap.
  - intros k i o' lo Hr. destruct (decide (k = t)) as [->|Hk].
    + right. destruct Hr as (_ & lin & Hg). rewrite call_thr_t in Hg. simplify_eq.
      split; [done|]. intros v. simpl. by rewrite decide_True.
    + left. rewrite call_snap by done. split; [|done]. destruct Hr as (_ & lin & Hg).
      rewrite call_thr in Hg by done. by eapply thr_running.
  - intros k i [[Hon Hs] Hw]. left. assert (k ≠ t) as Hk by (intros ->; destruct Hs; simpl in *; congruence).
    split; [split; [split|]; [by apply call_on_inv|done|done]|]. split; [done|].
    pose proof (call_pot k Hs). split; [unfold events; simpl; lia|]. split; [done|by left].
  - intros k i N Hk HN _. split; [by apply Hann|]. split; [done|]. split; [by left|done].
  - intros k i X j F v Hk _ _ _ _ _ _. split; [by apply Hann|done].
  - intros k i j Hk _ _ _. split; [by apply Hann|by left].
Qed.
End call.

(** ** Returns *)

Definition returned (t : nat) (x : aux) : aux :=
  Aux (chain x) (claims x) (front x) (back x) (delete t (ann x)) (flr x) (delete t (mine x))
    (snap x) (todo x) (calls x).

Section return_.
Context (t i0 : nat) (r : uresp (resp T)) (w : world).
Context (HI : Inv w) (Hon0 : on t i0 w) (Htd : t ∉ todow w) (Hset : t < n → settled t w).
Context (Hpast : ∀ N, minew w !! t = Some N → past N w).
Context (Hfront : claimsw w !! frontw w ≠ Some t).
Context (Hhelped : ∀ k i u o lo, running t i0 (UApply u o) lo w → active k i w →
  i0 < ann_time k w).

Let w' : world := World (w_mem w) (g_ret t r (w_gh w)) (returned t (w_aux w)).

Lemma return_thr k : k ≠ t → g_thr (w_gh w') !! k = g_thr (w_gh w) !! k.
Proof using. intros. simpl. by rewrite lookup_delete_ne. Qed.

Lemma return_thr_t : g_thr (w_gh w') !! t = None.
Proof using. simpl. by rewrite lookup_delete_eq. Qed.

Lemma return_ann k : k ≠ t → annw w' !! k = annw w !! k.
Proof using. intros. simpl. by rewrite lookup_delete_ne. Qed.

Lemma return_ann_t : annw w' !! t = None.
Proof using. simpl. by rewrite lookup_delete_eq. Qed.

Lemma return_mine k : k ≠ t → minew w' !! k = minew w !! k.
Proof using. intros. simpl. by rewrite lookup_delete_ne. Qed.

Lemma return_mine_t : minew w' !! t = None.
Proof using. simpl. by rewrite lookup_delete_eq. Qed.

Lemma return_on k i : on k i w' ↔ k ≠ t ∧ on k i w.
Proof using HI Hset.
  unfold on, running. split.
  - intros (o & lo & Hi & lin & Hg). destruct (decide (k = t)) as [->|Hk]; [by rewrite return_thr_t in Hg|].
    rewrite return_thr in Hg by done. split; [done|]. exists o, lo.
    split; [by apply (i_ids _ _ _ HI _ _ Hg)|by exists lin].
  - intros [Hk (o & lo & Hi & lin & Hg)]. exists o, lo. split; [simpl; lia|]. exists lin.
    by rewrite return_thr.
Qed.

Lemma return_pot k i : active k i w → k ≠ t → pot k w' ≤ pot k w.
Proof using Hhelped Hon0 Hset.
  intros Hk Hkt. assert (ann_time k w' = ann_time k w) as Hat by (unfold ann_time; by rewrite return_ann).
  unfold WfQueueInv.pot. rewrite Hat.
  assert (allowance n (ann_time k w) w' ≤ allowance n (ann_time k w) w); [|simpl; lia].
  apply allowance_le. intros u _. unfold allow. destruct (decide (u = t)) as [->|Hu].
  - rewrite return_thr_t. destruct Hon0 as (o & lo & Hi & lin & Hg). rewrite Hg.
    destruct o as [|u o]; [done|].
    pose proof (Hhelped k i u o lo (conj Hi (ex_intro _ lin Hg)) Hk).
    rewrite bool_decide_false by lia. lia.
  - by rewrite return_thr.
Qed.

Lemma return_inv : Inv w'.
Proof using HI Hon0 Htd Hset Hpast Hfront Hhelped.
  split; try by apply HI.
  - split; try by apply HI.
    + intros N v HN. destruct (i_lag _ _ _ HI _ _ HN) as (k & i & HkN & [Hon Hs]).
      assert (k ≠ t) as Hk.
      { intros ->. change (at_pos (S (backw w)) N v w) in HN. destruct (Hpast _ HkN) as (j & u & Hj & Hle).
        rewrite (wfq_pos_inj _ _ _ _ _ _ _ _ HI Hj HN) in Hle. lia. }
      exists k, i. rewrite return_mine by done. split; [done|]. split; [by apply return_on|].
      by rewrite return_ann.
    + intros k Hk. destruct (i_claimed _ _ _ HI _ Hk) as (a & h & i & lo & lin & Hak & ? & Hg).
      assert (k ≠ t) by (intros ->; done).
      exists a, h, i, lo, lin. by rewrite return_thr, return_ann.
    + intros k N. destruct (decide (k = t)) as [->|Hk]; [by rewrite return_mine_t|].
      rewrite return_mine by done. intros HN.
      destruct (i_mine _ _ _ HI _ _ HN) as (? & v & i & lo & lin & x & Hg & ?).
      split; [done|]. exists v, i, lo, lin, x. by rewrite return_thr, return_ann.
    + intros k k' N Hk Hk'. simpl in Hk, Hk'. apply lookup_delete_Some in Hk as [_ Hk], Hk' as [_ Hk'].
      by eapply (i_mine_inj _ _ _ HI).
  - intros k Hk. destruct (decide (k = t)) as [->|Hkt].
    + destruct (Hset Hk) as (X & HX & Hs). exists X. split; [done|]. by rewrite return_ann_t.
    + apply (slot_kept _ _ _ w); try done; [by apply HI|by apply return_ann|..].
      * intros _. by apply quiet_ret.
      * simpl. lia.
      * intros _. by apply return_mine.
      * intros i Hi. by rewrite lookup_ge_None_2.
  - intros k. destruct (decide (k = t)) as [->|Hk]; [by rewrite return_ann_t; intros []|].
    rewrite return_ann by done. apply (i_ann _ _ _ HI).
  - intros k p. destruct (decide (k = t)) as [->|Hk]; [by rewrite return_thr_t|].
    rewrite return_thr by done. intros ?%(i_ids _ _ _ HI). simpl. lia.
  - intros k p. destruct (decide (k = t)) as [->|Hk]; [by rewrite return_thr_t|].
    rewrite return_thr by done. apply (i_lo _ _ _ HI).
  - intros k i u o lo lin. destruct (decide (k = t)) as [->|Hk]; [by rewrite return_thr_t|].
    rewrite return_thr by done. apply (i_uop _ _ _ HI).
  - intros k. destruct (decide (k = t)) as [->|Hk].
    + intros _. by rewrite return_ann_t, return_mine_t.
    + rewrite return_thr, return_ann, return_mine by done. apply (i_gone _ _ _ HI).
  - intros v i o lo lin k a h Hv Hak.
    destruct (decide (v = t)) as [->|Hvt]; [by rewrite return_thr_t in Hv|].
    destruct (decide (k = t)) as [->|Hkt]; [by rewrite return_ann_t in Hak|].
    rewrite return_thr in Hv by done. rewrite return_ann in Hak by done. by eapply (i_late _ _ _ HI).
  - intros v p Hv. destruct (decide (v = t)) as [->|Hvt]; [by rewrite return_thr_t in Hv|].
    rewrite return_thr in Hv by done. rewrite return_ann by done. by eapply (i_snap _ _ _ HI).
  - intros k Hs Hw. destruct (decide (k = t)) as [->|Hkt]; [by rewrite return_ann_t in Hs; destruct Hs|].
    rewrite return_ann in Hs by done. destruct Hs as [[a h] Ha].
    destruct (ann_slot _ _ _ _ _ _ HI Ha) as (_ & i & _ & _ & _ & _ & Hon & _).
    etrans; [apply (return_pot k i); [by split|done]|]. apply (i_pot _ _ _ HI); [by eexists|done].
  - intros k Hk. simpl in Hk. destruct (decide (k = t)) as [->|Hkt]; [done|].
    rewrite return_ann by done. by apply (i_todo _ _ _ HI).
  - destruct (i_limit _ _ _ HI). simpl. lia.
Qed.

Lemma wfq_return_step : Inv w' ∧ ∀ u, u ≠ t → R u w w'.
Proof using HI Hon0 Htd Hset Hpast Hfront Hhelped.
  split; [apply return_inv|]. intros u Hu.
  assert (∀ k i, annd k i w → k ≠ t → annd k i w') as Hann.
  { intros k i [? ?] Hk. split; [by apply return_on|by rewrite return_ann]. }
  split; try done.
  - apply quiet_helped. by apply quiet_ret.
  - intros _. by apply quiet_ret.
  - simpl. lia.
  - intros l x Hl. by exists x.
  - split; [by apply return_mine|done].
  - by apply return_ann.
  - intros k i o lo Hr. assert (on k i w') as [Hk _]%return_on by (by exists o, lo). left.
    split; [|done]. destruct Hr as (_ & lin & Hg). rewrite return_thr in Hg by done.
    by eapply thr_running.
  - intros k i Ha [Hk _]%return_on. by rewrite return_ann, return_mine.
  - intros k i [[[Hk Hon]%return_on Hs] Hw]. rewrite return_ann in Hs |- * by done.
    left. assert (active k i w) as Hac by done. split; [done|]. split; [done|].
    pose proof (return_pot _ _ Hac Hk). split; [unfold events; simpl; lia|]. split; [done|by left].
  - intros k i N Ha HN Hp. destruct (decide (k = t)) as [->|Hk]; [by destruct Hp; apply Hpast|].
    split; [by apply Hann|]. split; [by rewrite return_mine|]. split; [by left|done].
  - intros k i X j F v Ha HX Hpd _ _ _ _. split; [|done]. apply Hann; [done|]. intros ->.
    destruct Hset as (Y & HY & ?); [apply (i_ann _ _ _ HI), Ha|congruence].
  - intros k i j Ha Hj Hf _. split; [|by left]. apply Hann; [done|]. intros ->.
    apply Hfront. apply lookup_lt_Some in Hj as Hlt. pose proof (i_pos _ _ _ HI).
    assert (j = frontw w) as Hjf by lia. by rewrite <-Hjf.
Qed.
End return_.
End calls.
