(* ===== verification/WfQueueHelp.v ===== *)
(** [wf.Queue]: the helpers [isStillPending], [helpFinishEnq], [helpFinishDeq].

    What a participant knows about the operation that it helps, and the code
    that settles the last enqueue and the first dequeue. *)

From S2P Require Export WfQueueCalls.
Import WfQueue WfQueueInv.

Section help.
Context {T : Type} (zero : T) (n : nat).
Abbreviation node := (node T).
Abbreviation mem := (mem T).
Abbreviation qop := (uop (queueOp T)).
Abbreviation qresp := (uresp (resp T)).
Abbreviation USp := (uspec (wf_queue_spec zero) n).
Abbreviation aux := (aux (T:=T)).
Abbreviation world := (world mem qop qresp aux).
Abbreviation Inv := (Inv zero n).
Abbreviation R := (R n).
Abbreviation proto := (queue_protocol zero n).
Abbreviation slot_ok := (slot_ok zero n).
Abbreviation pot := (pot n).
Abbreviation chainw w := (chain (w_aux w)).
Abbreviation claimsw w := (claims (w_aux w)).
Abbreviation frontw w := (front (w_aux w)).
Abbreviation backw w := (back (w_aux w)).
Abbreviation annw w := (ann (w_aux w)).
Abbreviation minew w := (mine (w_aux w)).
Abbreviation todow w := (todo (w_aux w)).
Implicit Types (w : world) (t k i j a h c d : nat) (X : opDesc) (v : T).
Abbreviation free_step := (free_step zero n).
Context (pg : progress) (t : nat).
Abbreviation rely := (R t).
Abbreviation wp := (Logic.wp USp proto pg t).
#[local] Existing Instance wfq_queue_R_order.

(** ** Facts that the others respect *)

Section stability.
Context (w w' : world) (HR : rely w w').

Lemma wfq_pos_stable j l v : at_pos j l v w → at_pos j l v w'.
Proof. apply wfq_prefix_at_pos, (r_chain _ _ _ _ HR). Qed.

Lemma desc_stable c X : descs (w_mem w) !! c = Some X → descs (w_mem w') !! c = Some X.
Proof. apply prefix_lookup_Some', (r_descs _ _ _ _ HR). Qed.

Lemma claim_stable j k : claimsw w !! j = Some k → claimsw w' !! j = Some k.
Proof. apply prefix_lookup_Some', (r_claims _ _ _ _ HR). Qed.

Lemma linked_stable l : linked l w → linked l w'.
Proof. apply prefix_linked, (r_chain _ _ _ _ HR). Qed.

Lemma grows : length (chainw w) ≤ length (chainw w') ∧ length (claimsw w) ≤ length (claimsw w') ∧
  frontw w ≤ frontw w' ∧ backw w ≤ backw w' ∧ g_now (w_gh w) ≤ g_now (w_gh w').
Proof.
  split; [apply prefix_length, HR|]. split; [apply prefix_length, HR|]. split_and!; apply HR.
Qed.

Lemma kept_settled k : kept_or_settled k w w' → settled k w → settled k w'.
Proof.
  intros [Hs|?] (X & HX & ?); [|done]. exists X. split; [|done].
  eapply desc_of_kept; [apply HR|done|done].
Qed.

Lemma on_stable k i : on k i w' → i < g_now (w_gh w) → on k i w ∧ snap (w_aux w') k = snap (w_aux w) k.
Proof.
  intros (o & lo & Hr) Hi. destruct (r_new _ _ _ _ HR _ _ _ _ Hr) as [[? ?]|[? _]]; [|lia].
  split; [by exists o, lo|done].
Qed.

(** The slot of the enqueue that linked [N], while the tail is at position [j]. *)
Lemma lag_later k i N j v :
  Inv w' → annd k i w → minew w !! k = Some N → at_pos (S j) N v w → backw w' ≤ j →
  annd k i w' ∧ minew w' !! k = Some N ∧ kept_or_settled k w w'.
Proof.
  intros HI' Ha HN Hj Hb. destruct (r_enq _ _ _ _ HR _ _ _ Ha HN) as (? & ? & ? & _); [|done].
  intros (j' & v' & Hj' & Hle). rewrite (wfq_pos_inj _ _ _ _ _ _ _ _ HI' Hj' (wfq_pos_stable _ _ _ Hj)) in Hle. lia.
Qed.
End stability.

Lemma lag_slot N v w x k :
  Inv w → at_pos (S (backw w)) N v w → nodes (w_mem w) !! N = Some x → enqTid x = Z.of_nat k →
  ∃ i X, annd k i w ∧ minew w !! k = Some N ∧ desc_of k w = Some X ∧ enqueue X = true ∧
    od_node X = Some N.
Proof.
  intros HI HN Hx He. destruct (i_lag _ _ _ HI _ _ HN) as (k' & i & HkN & Ha).
  destruct (i_mine _ _ _ HI _ _ HkN) as (_ & u & _ & _ & _ & x' & _ & Hx' & _ & He' & _).
  assert (k' = k) as -> by (simplify_eq; lia).
  destruct (mine_waiting _ _ _ _ _ HI HkN (proj2 Ha)) as (X & u' & HX & Ho & HXN & _).
  exists i, X. split_and!; try done. apply Ho.
Qed.

(** ** Allocating a descriptor *)

Lemma wp_new_desc {A} (Q : budget → A → world → Prop) m X K w :
  (∀ w' d, rely w w' → Inv w' → descs (w_mem w') !! d = Some X → wp Q (Steps m) (K d) w') →
  wp Q (Steps (S m)) (Act (new descs_f X) K) w.
Proof.
  intros HK. wp_go wp_new as w1 HR1 HI1. exists [], (w_aux w1).
  destruct (newdesc_step zero n w1 X HI1) as [HI2 HR2].
  split; [by apply free_good|]. apply HK; [etrans; [exact HR1|apply HR2]|done|].
  by apply lookup_snoc_eq.
Qed.

(** ** [helpFinishEnq] *)

(** The tail swings over the node [N] when its enqueue is settled. *)
Lemma wp_swing_tail (Q : budget → unit → world → Prop) m k i N last v u j w :
  at_pos j last v w → at_pos (S j) N u w → j ≤ backw w →
  (backw w = j → annd k i w ∧ minew w !! k = Some N ∧ settled k w) →
  (∀ w', rely w w' → Inv w' → j < backw w' → Q (Steps m) tt w') →
  wp Q (Steps (S m)) (act (cas tail_f (Some last) (Some N)) ;;; Ret tt) w.
Proof.
  intros Hj HN Hjb Hlag HQ. wp_go wp_cas as w1 HR1 HI1.
  - intros Htail. simpl in Htail. exists [], (move_tail (w_aux w1)).
    destruct (i_tail _ _ _ HI1) as (l & v' & Hl & Hb). rewrite Htail in Hl. simplify_eq.
    assert (backw w1 = j) as Hbj
      by exact (wfq_pos_inj _ _ _ _ _ _ _ _ HI1 Hb (wfq_pos_stable _ _ HR1 _ _ _ Hj)).
    assert (at_pos (S (backw w1)) N u w1) as HN1 by (rewrite Hbj; by eapply wfq_pos_stable).
    destruct (grows _ _ HR1) as (_ & _ & _ & ? & _).
    destruct Hlag as (Ha & Hm & Hs); [lia|].
    destruct (lag_later _ _ HR1 _ _ _ _ _ HI1 Ha Hm HN) as (Ha1 & Hm1 & Hk1); [lia|].
    destruct (tail_step zero n w1 N u HI1 HN1) as [HI2 HR2].
    { intros k' Hk'. rewrite (i_mine_inj _ _ _ HI1 _ _ _ Hk' Hm1).
      by eapply kept_settled. }
    split; [by apply free_good|]. apply wp_ret. intros w3 HR3 HI3.
    destruct (grows _ _ HR3) as (_ & _ & _ & Hg & _). simpl in Hg.
    apply HQ; [etrans; [exact HR1|]; etrans; [apply HR2|exact HR3]|done|lia].
  - intros Htail. simpl in Htail. apply wp_ret. intros w3 HR3 HI3.
    destruct (grows _ _ HR1) as (_ & _ & _ & ? & _). destruct (grows _ _ HR3) as (_ & _ & _ & ? & _).
    apply HQ; [by etrans|done|].
    destruct (i_tail _ _ _ HI1) as (l & v' & Hl & Hb).
    assert (backw w1 ≠ j).
    { intros <-. destruct (wfq_pos_fun _ _ _ _ _ _ Hb (wfq_pos_stable _ _ HR1 _ _ _ Hj)). congruence. }
    lia.
Qed.

(** It settles the enqueue of [N], whose descriptor [X] was read at [c]. *)
Lemma wp_settle_enq (Q : budget → unit → world → Prop) m k c X N last v u j w0 w :
  at_pos j last v w0 → at_pos (S j) N u w0 → state (w_mem w0) !! k = Some (Some c) →
  descs (w_mem w0) !! c = Some X → k < n → rely w0 w → backw w0 = j →
  (∃ x, nodes (w_mem w0) !! N = Some x ∧ enqTid x = Z.of_nat k) → Inv w0 →
  (∀ w', rely w w' → Inv w' → j < backw w' → Q (Steps m) tt w') →
  wp Q (Steps (4 + m))
    (let! ph := act (load_ptr descs (Some c) phase) in
     let! newDesc := act (new descs_f (OpDesc ph false true (Some N))) in
     act (cas_idx state_f (Z.of_nat k) (Some c) (Some newDesc)) ;;;
     act (cas tail_f (Some last) (Some N)) ;;;
     Ret tt) w.
Proof.
  intros Hj HN Hc HX Hk HR Hb0 (x & Hx & Hxe) HI0 HQ.
  destruct (lag_slot N u w0 x k HI0) as (i & X' & Ha & Hm & HX' & He & HXN); [by rewrite Hb0|done|done|].
  assert (X' = X) as -> by (rewrite (desc_at _ _ _ _ Hc HX) in HX'; congruence).
  wp_go wp_load_at as w1 HR1 HI1. assert (rely w0 w1) as HR01 by (etrans; [exact HR|exact HR1]).
  exists X. split; [by eapply desc_stable|]. apply wp_new_desc. intros w2 d HR2 HI2 Hd2.
  assert (rely w0 w2) as HR02 by (etrans; [exact HR01|exact HR2]).
  wp_go wp_cas_idx as w3 HR3 HI3. assert (rely w0 w3) as HR03 by (etrans; [exact HR02|exact HR3]).
  assert (rely w w3) as HRw3 by (etrans; [exact HR1|]; etrans; [exact HR2|exact HR3]).
  destruct (grows _ _ HR03) as (_ & _ & _ & Hg3 & _).
  assert (backw w3 = j → annd k i w3 ∧ minew w3 !! k = Some N ∧ kept_or_settled k w0 w3) as Hlag.
  { intros Hb3. eapply lag_later; [done..|lia]. }
  split; [simpl; by rewrite (i_state _ _ _ HI3)|]. split.
  - intros Hs. simpl in Hs. exists [], (set_flr k (flr (w_aux w3) k) (w_aux w3)).
    pose proof (desc_stable _ _ HR03 _ _ HX) as HX3. pose proof (desc_stable _ _ HR3 _ _ Hd2) as Hd3.
    destruct (finish_enq_step zero n k c d X N w3 HI3 Hk Hs HX3 He HXN) as [HI4 HR4]; [|done|].
    { eapply linked_stable; [exact HR03|by eapply wfq_pos_linked]. }
    split; [by apply free_good|]. eapply wp_swing_tail with (j := j) (k := k).
    + exact (wfq_pos_stable _ _ HR03 _ _ _ Hj).
    + exact (wfq_pos_stable _ _ HR03 _ _ _ HN).
    + simpl. lia.
    + intros Hb4. destruct (Hlag Hb4) as (? & ? & _). split; [done|]. split; [done|].
      exists (OpDesc (phase X) false true (Some N)). split; [|done].
      apply (swapped_desc zero n k c d (flr (w_aux w3) k) _ w3 Hs Hd3).
    + intros w5 HR5 HI5. apply HQ; [|done]. etrans; [exact HRw3|]. etrans; [apply HR4|exact HR5].
  - intros Hs. simpl in Hs. eapply wp_swing_tail with (j := j) (k := k).
    + exact (wfq_pos_stable _ _ HR03 _ _ _ Hj).
    + exact (wfq_pos_stable _ _ HR03 _ _ _ HN).
    + lia.
    + intros Hb3. destruct (Hlag Hb3) as (? & ? & [Heq|?]); [|done]. congruence.
    + intros w5 HR5 HI5. apply HQ; [|done]. etrans; [exact HRw3|exact HR5].
Qed.

(** Afterwards the tail has reached every node that was linked before. *)
Lemma wp_helpFinishEnq (Q : budget → unit → world → Prop) m L w :
  L ≤ length (chainw w) →
  (∀ w', rely w w' → Inv w' → L ≤ S (backw w') → Q (Steps m) tt w') →
  wp Q (Steps (11 + m)) helpFinishEnq w.
Proof.
  intros HL HQ. wp_go wp_load as w1 HR1 HI1. destruct (grows _ _ HR1) as (Hg1 & _).
  destruct (i_tail _ _ _ HI1) as (last & v & -> & Hlast). pose proof (i_pos _ _ _ HI1) as Hpos1.
  set (j := backw w1) in *.
  wp_go wp_load_at as w2 HR2 HI2. pose proof (wfq_pos_stable _ _ HR2 _ _ _ Hlast) as Hlast2.
  destruct (pos_node _ _ _ _ _ _ HI2 Hlast2) as (x & Hx & _ & Hnx & _). exists x. split; [done|].
  rewrite Hnx.
  destruct (succ j w2) as [N|] eqn:HN; [apply wfq_succ_at in HN as [u HN]|].
  2:{ apply wfq_succ_end in HN. apply wp_give_up with (m := m); [lia|]. apply wp_ret. intros w3 HR3 HI3.
      destruct (grows _ _ HR2) as (? & _ & _ & ? & _). destruct (grows _ _ HR3) as (_ & _ & _ & ? & _).
      apply HQ; [by repeat (etrans; [eassumption|])|done|lia]. }
  wp_go wp_load_at as w3 HR3 HI3. pose proof (wfq_pos_stable _ _ HR3 _ _ _ HN) as HN3.
  destruct (pos_node _ _ _ _ _ _ HI3 HN3) as (xN & HxN & _ & _ & _ & HxE).
  destruct HxE as (k & Hk & HxE); [lia|]. exists xN. split; [done|]. rewrite HxE.
  wp_go wp_load_idx as w4 HR4 HI4.
  destruct (slot_desc _ _ _ _ HI4 Hk) as (c & X & Hc & HX & _). exists (Some c). split; [done|].
  assert (rely w1 w4) as HR14 by (etrans; [exact HR2|]; etrans; [exact HR3|exact HR4]).
  assert (rely w w4) as HRw4 by (etrans; [exact HR1|exact HR14]).
  pose proof (wfq_pos_stable _ _ HR4 _ _ _ HN3) as HN4. pose proof (wfq_pos_stable _ _ HR14 _ _ _ Hlast) as Hlast4.
  destruct (grows _ _ HR14) as (_ & _ & _ & Hb4 & _).
  assert (∃ x, nodes (w_mem w4) !! N = Some x ∧ enqTid x = Z.of_nat k) as HxN4.
  { destruct (r_node _ _ _ _ HR4 _ _ HxN) as (x' & ? & _ & He). exists x'. split; [done|congruence]. }
  wp_go wp_load as w5 HR5 HI5. pose proof (wfq_pos_stable _ _ HR5 _ _ _ Hlast4) as Hlast5.
  destruct (i_tail _ _ _ HI5) as (last5 & v5 & -> & Hl5). destruct (grows _ _ HR5) as (_ & _ & _ & Hb5 & _).
  assert (rely w w5) as HRw5 by (etrans; [exact HRw4|exact HR5]).
  case_decide as Hdec.
  2:{ apply wp_give_up with (m := m); [lia|]. apply wp_ret. intros w6 HR6 HI6.
      destruct (grows _ _ HR6) as (_ & _ & _ & ? & _).
      apply HQ; [by etrans|done|]. enough (backw w5 ≠ j) by lia. intros Hbj. apply Hdec.
      rewrite Hbj in Hl5. by destruct (wfq_pos_fun _ _ _ _ _ _ Hl5 Hlast5) as [-> _]. }
  injection Hdec as <-. assert (backw w5 = j) as Hbj by exact (wfq_pos_inj _ _ _ _ _ _ _ _ HI5 Hl5 Hlast5).
  wp_go wp_load_idx as w6 HR6 HI6.
  destruct (slot_desc _ _ _ _ HI6 Hk) as (c6 & X6 & Hc6 & HX6 & Hd6). exists (Some c6). split; [done|].
  wp_go wp_load_at as w7 HR7 HI7. exists X6. split; [by eapply desc_stable|].
  assert (rely w5 w7) as HR57 by (etrans; [exact HR6|exact HR7]).
  assert (rely w w7) as HRw7 by (etrans; [exact HRw5|exact HR57]).
  destruct (grows _ _ HR6) as (_ & _ & _ & Hb6 & _). destruct (grows _ _ HR7) as (_ & _ & _ & Hb7 & _).
  case_decide as Hdec6.
  2:{ apply wp_give_up with (m := m); [lia|]. apply wp_ret. intros w8 HR8 HI8.
      destruct (grows _ _ HR8) as (_ & _ & _ & ? & _). apply HQ; [by etrans|done|].
      enough (backw w6 ≠ j) by lia. intros Hbj6. apply Hdec6.
      assert (at_pos (S (backw w6)) N u w6) as HN6.
      { rewrite Hbj6. eapply wfq_pos_stable; [|exact HN4]. etrans; [exact HR5|exact HR6]. }
      destruct HxN4 as (x4 & Hx4 & He4).
      destruct (r_node _ _ _ _ (transitivity (R := rely) HR5 HR6) _ _ Hx4) as (x6 & Hx6 & _ & He6).
      destruct (lag_slot N u w6 x6 k HI6 HN6 Hx6) as (i6 & Y & _ & _ & HY & _ & HYN); congruence. }
  apply (wp_give_up _ _ _ _ _ _ (4 + m)); [lia|].
  eapply (wp_settle_enq Q m k c X N last v u j w4); try done.
  - etrans; [exact HR5|exact HR57].
  - unfold j in *. lia.
  - intros w' HR' HI' Hb'. apply HQ; [by etrans|done|unfold j in *; lia].
Qed.

(** ** [helpFinishDeq] *)

(** The slot of the dequeue that claimed the head node. *)
Lemma claimed_slot k F v w :
  Inv w → claimsw w !! frontw w = Some k → at_pos (frontw w) F v w →
  ∃ i X, annd k i w ∧ desc_of k w = Some X ∧ enqueue X = false ∧ od_node X = Some F.
Proof.
  intros HI Hk HF. destruct (i_claimed _ _ _ HI _ Hk) as (a & h & i & lo & lin & Ha & Hh & Hg).
  destruct (ann_slot _ _ _ _ _ _ HI Ha) as (X & i' & o & lo' & lin' & HX & Hon & Hg' & _ & _ & _ & Ho).
  assert (o = dequeueOp) as -> by congruence. destruct Ho as (He & _ & _ & Ho).
  exists i', X. split; [done|]. split; [done|]. split; [done|].
  destruct (od_node X) as [F'|]; [|by destruct (proj1 Ho _ Hh)].
  destruct Ho as (j & v' & Hj & _ & _ & _ & Hnc & _).
  destruct (decide (j = frontw w)) as [->|Hne].
  - by destruct (wfq_pos_fun _ _ _ _ _ _ Hj HF) as [-> _].
  - by destruct (Hnc (frontw w) Hh ltac:(lia)).
Qed.

(** The head swings over the node when its dequeue is settled. *)
Lemma wp_swing_head (Q : budget → unit → world → Prop) m k i N first v u j w :
  at_pos j first v w → at_pos (S j) N u w → j ≤ frontw w → claimsw w !! j = Some k →
  (frontw w = j → annd k i w ∧ settled k w) →
  (∀ w', rely w w' → Inv w' → j < frontw w' → Q (Steps m) tt w') →
  wp Q (Steps (S m)) (act (cas head_f (Some first) (Some N)) ;;; Ret tt) w.
Proof.
  intros Hj HN Hjf Hcl Hfin HQ. wp_go wp_cas as w1 HR1 HI1.
  - intros Hhead. simpl in Hhead. exists [], (move_head (w_aux w1)).
    destruct (i_head _ _ _ HI1) as (l & v' & Hl & Hb). rewrite Hhead in Hl. simplify_eq.
    assert (frontw w1 = j) as Hbj by exact (wfq_pos_inj _ _ _ _ _ _ _ _ HI1 Hb (wfq_pos_stable _ _ HR1 _ _ _ Hj)).
    assert (at_pos (S (frontw w1)) N u w1) as HN1 by (rewrite Hbj; by eapply wfq_pos_stable).
    destruct (grows _ _ HR1) as (_ & _ & ? & _ & _).
    destruct Hfin as (Ha & Hs); [lia|].
    destruct (r_fin _ _ _ _ HR1 _ _ _ Ha Hcl) as [_ Hk1]; [lia|lia|].
    destruct (wfq_head_step zero n w1 N u k HI1 HN1) as [HI2 HR2].
    { rewrite Hbj. by eapply claim_stable. }
    { by eapply kept_settled. }
    split; [by apply free_good|]. apply wp_ret. intros w3 HR3 HI3.
    destruct (grows _ _ HR3) as (_ & _ & Hg & _ & _). simpl in Hg.
    apply HQ; [etrans; [exact HR1|]; etrans; [apply HR2|exact HR3]|done|lia].
  - intros Hhead. simpl in Hhead. apply wp_ret. intros w3 HR3 HI3.
    destruct (grows _ _ HR1) as (_ & _ & ? & _ & _). destruct (grows _ _ HR3) as (_ & _ & ? & _ & _).
    apply HQ; [by etrans|done|].
    destruct (i_head _ _ _ HI1) as (l & v' & Hl & Hb).
    assert (frontw w1 ≠ j).
    { intros <-. destruct (wfq_pos_fun _ _ _ _ _ _ Hb (wfq_pos_stable _ _ HR1 _ _ _ Hj)). congruence. }
    lia.
Qed.

(** It settles the dequeue that claimed [first], its descriptor [X] read at [c]. *)
Lemma wp_settle_deq (Q : budget → unit → world → Prop) m k c X N first v u j w0 w :
  at_pos j first v w0 → at_pos (S j) N u w0 → state (w_mem w0) !! k = Some (Some c) →
  descs (w_mem w0) !! c = Some X → k < n → rely w0 w → frontw w0 = j →
  claimsw w0 !! j = Some k → Inv w0 →
  (∀ w', rely w w' → Inv w' → j < frontw w' → Q (Steps m) tt w') →
  wp Q (Steps (6 + m))
    (let! ph := act (load_ptr descs (Some c) phase) in
     let! e := act (load_ptr descs (Some c) enqueue) in
     let! nd := act (load_ptr descs (Some c) od_node) in
     let! newDesc := act (new descs_f (OpDesc ph false e nd)) in
     act (cas_idx state_f (Z.of_nat k) (Some c) (Some newDesc)) ;;;
     act (cas head_f (Some first) (Some N)) ;;;
     Ret tt) w.
Proof.
  intros Hj HN Hc HX Hk HR Hf0 Hcl HI0 HQ.
  destruct (claimed_slot k first v w0 HI0) as (i & X' & Ha & HX' & He & HXF); [by rewrite Hf0..|].
  assert (X' = X) as -> by (rewrite (desc_at _ _ _ _ Hc HX) in HX'; congruence).
  wp_go wp_load_at as w1 HR1 HI1. assert (rely w0 w1) as HR01 by (etrans; [exact HR|exact HR1]).
  exists X. split; [exact (desc_stable _ _ HR01 _ _ HX)|].
  wp_go wp_load_at as wa HRa HIa. assert (rely w0 wa) as HR0a by (etrans; [exact HR01|exact HRa]).
  exists X. split; [exact (desc_stable _ _ HR0a _ _ HX)|].
  wp_go wp_load_at as wb HRb HIb. assert (rely w0 wb) as HR0b by (etrans; [exact HR0a|exact HRb]).
  exists X. split; [exact (desc_stable _ _ HR0b _ _ HX)|].
  apply wp_new_desc. intros w2 d HR2 HI2 Hd2.
  assert (rely w0 w2) as HR02 by (etrans; [exact HR0b|exact HR2]).
  wp_go wp_cas_idx as w3 HR3 HI3. assert (rely w0 w3) as HR03 by (etrans; [exact HR02|exact HR3]).
  assert (rely w w3) as HRw3.
  { etrans; [exact HR1|]; etrans; [exact HRa|]; etrans; [exact HRb|]; etrans; [exact HR2|exact HR3]. }
  destruct (grows _ _ HR03) as (_ & _ & Hg3 & _ & _).
  assert (frontw w3 = j → annd k i w3 ∧ kept_or_settled k w0 w3) as Hfin.
  { intros Hf3. eapply (r_fin _ _ _ _ HR03); [done..|lia|lia]. }
  split; [simpl; by rewrite (i_state _ _ _ HI3)|].
  pose proof (wfq_pos_stable _ _ HR03 _ _ _ Hj) as Hj3. pose proof (claim_stable _ _ HR03 _ _ Hcl) as Hcl3.
  split.
  - intros Hs. simpl in Hs. exists [], (set_flr k (flr (w_aux w3) k) (w_aux w3)).
    pose proof (desc_stable _ _ HR03 _ _ HX) as HX3. pose proof (desc_stable _ _ HR3 _ _ Hd2) as Hd3.
    destruct (finish_deq_step zero n k c d X first j v w3 HI3 Hk Hs HX3 He HXF Hj3 Hcl3 Hd3) as [HI4 HR4].
    split; [by apply free_good|]. eapply wp_swing_head with (j := j) (k := k).
    + exact Hj3.
    + exact (wfq_pos_stable _ _ HR03 _ _ _ HN).
    + simpl. lia.
    + done.
    + intros Hf4. destruct (Hfin Hf4) as (? & _). split; [done|].
      exists (OpDesc (phase X) false (enqueue X) (od_node X)). split; [|done].
      apply (swapped_desc zero n k c d (flr (w_aux w3) k) _ w3 Hs Hd3).
    + intros w5 HR5 HI5. apply HQ; [|done]. etrans; [exact HRw3|]. etrans; [apply HR4|exact HR5].
  - intros Hs. simpl in Hs. eapply wp_swing_head with (j := j) (k := k).
    + exact Hj3.
    + exact (wfq_pos_stable _ _ HR03 _ _ _ HN).
    + lia.
    + done.
    + intros Hf3. destruct (Hfin Hf3) as (? & [Heq|?]); [congruence|done].
    + intros w5 HR5 HI5. apply HQ; [|done]. etrans; [exact HRw3|exact HR5].
Qed.

(** Afterwards the head has passed every node that was claimed before. *)
Lemma wp_helpFinishDeq (Q : budget → unit → world → Prop) m C w :
  C ≤ length (claimsw w) →
  (∀ w', rely w w' → Inv w' → C ≤ frontw w' → Q (Steps m) tt w') →
  wp Q (Steps (11 + m)) helpFinishDeq w.
Proof.
  intros HC HQ. wp_go wp_load as w1 HR1 HI1. destruct (grows _ _ HR1) as (_ & Hg1 & _).
  destruct (i_head _ _ _ HI1) as (first & v & -> & Hfirst). pose proof (i_pos _ _ _ HI1) as Hpos1.
  set (j := frontw w1) in *.
  wp_go wp_load_at as w2 HR2 HI2. pose proof (wfq_pos_stable _ _ HR2 _ _ _ Hfirst) as Hfirst2.
  destruct (pos_node _ _ _ _ _ _ HI2 Hfirst2) as (x & Hx & _ & Hnx & _). exists x. split; [done|].
  rewrite Hnx.
  wp_go wp_load_at as w3 HR3 HI3. pose proof (wfq_pos_stable _ _ HR3 _ _ _ Hfirst2) as Hfirst3.
  destruct (pos_node _ _ _ _ _ _ HI3 Hfirst3) as (x3 & Hx3 & _ & _ & Hd3 & _). exists x3. split; [done|].
  rewrite Hd3. destruct (grows _ _ HR2) as (_ & Hcl2 & Hf2 & _). destruct (grows _ _ HR3) as (_ & Hcl3 & Hf3 & _).
  assert (rely w w3) as HRw3 by (etrans; [exact HR1|]; etrans; [exact HR2|exact HR3]).
  case_bool_decide as Htid.
  { apply claim_of_none, lookup_ge_None in Htid. apply wp_give_up with (m := m); [lia|].
    apply wp_ret. intros w4 HR4 HI4. destruct (grows _ _ HR4) as (_ & _ & ? & _).
    apply HQ; [by etrans|done|lia]. }
  destruct (claimsw w3 !! j) as [k|] eqn:Hk; [simpl|done].
  pose proof (i_claims_lt _ _ _ HI3 _ _ Hk) as Hkn.
  wp_go wp_load_idx as w4 HR4 HI4.
  destruct (slot_desc _ _ _ _ HI4 Hkn) as (c & X & Hc & HX & _). exists (Some c). split; [done|].
  pose proof (wfq_pos_stable _ _ HR4 _ _ _ Hfirst3) as Hfirst4. destruct (grows _ _ HR4) as (_ & _ & Hf4 & _).
  wp_go wp_load as w5 HR5 HI5. pose proof (wfq_pos_stable _ _ HR5 _ _ _ Hfirst4) as Hfirst5.
  destruct (i_head _ _ _ HI5) as (first5 & v5 & -> & Hl5). destruct (grows _ _ HR5) as (_ & _ & Hf5 & _).
  assert (rely w w5) as HRw5 by (etrans; [exact HRw3|]; etrans; [exact HR4|exact HR5]).
  case_decide as Hdec.
  2:{ apply wp_give_up with (m := m); [lia|]. apply wp_ret. intros w6 HR6 HI6.
      destruct (grows _ _ HR6) as (_ & _ & ? & _).
      apply HQ; [by etrans|done|]. enough (frontw w5 ≠ j) by lia. intros Hbj. apply Hdec.
      rewrite Hbj in Hl5. by destruct (wfq_pos_fun _ _ _ _ _ _ Hl5 Hfirst5) as [-> _]. }
  injection Hdec as <-. assert (frontw w5 = j) as Hbj by exact (wfq_pos_inj _ _ _ _ _ _ _ _ HI5 Hl5 Hfirst5).
  destruct (succ j w2) as [N|] eqn:HN; [apply wfq_succ_at in HN as [u HN]|].
  - eapply (wp_settle_deq Q m k c X N first v u j w4); try done.
    + eapply wfq_pos_stable; [|exact HN]. etrans; [exact HR3|exact HR4].
    + lia.
    + by eapply claim_stable.
    + intros w' HR' HI' Hb'. apply HQ; [by etrans|done|lia].
  - apply wfq_succ_end in HN. apply wp_give_up with (m := m); [lia|]. apply wp_ret. intros w6 HR6 HI6.
    destruct (grows _ _ HR6) as (_ & _ & ? & _). pose proof (i_pos _ _ _ HI2).
    apply HQ; [by etrans|done|lia].
Qed.
End help.
