(* ===== verification/WfQueueLoops.v ===== *)
(** [wf.Queue]: the helping loops [helpEnq] and [helpDeq].

    A round of helping an operation either finds it settled, or something was
    linked, claimed, passed or recorded since the round began; so the potential
    of the operation bounds the rounds. *)

From S2P Require Export WfQueueHelp.
Import WfQueue WfQueueInv.

Section loops.
Context {T : Type} (zero : T) (n : nat).
Abbreviation node := (node T).
Abbreviation mem := (mem T).
Abbreviation qop := (uop (queueOp T)).
Abbreviation qresp := (uresp (resp T)).
Abbreviation USp := (uspec (wf_queue_spec zero) n).
Abbreviation aux := (aux (T:=T)).
Abbreviation world := (world mem qop qresp aux).
Abbreviation Inv := (Inv zero n).
Abbreviation R := (R n).
Abbreviation proto := (queue_protocol zero n).
Abbreviation slot_ok := (slot_ok zero n).
Abbreviation pot := (pot n).
Abbreviation chainw w := (chain (w_aux w)).
Abbreviation claimsw w := (claims (w_aux w)).
Abbreviation frontw w := (front (w_aux w)).
Abbreviation backw w := (back (w_aux w)).
Abbreviation annw w := (ann (w_aux w)).
Abbreviation minew w := (mine (w_aux w)).
Abbreviation todow w := (todo (w_aux w)).
Implicit Types (w : world) (t k i j a h c d : nat) (X : opDesc) (v : T).
Abbreviation free_step := (free_step zero n).
Context (pg : progress) (t : nat).
Abbreviation rely := (R t).
Abbreviation wp := (Logic.wp USp proto pg t).
#[local] Existing Instance wfq_queue_R_order.
Implicit Types (p : Z) (e : bool) (M m : nat).

(** ** What a helper knows of the operation it helps *)

(** Its own operation is [i0], announced with phase [p]. *)
Definition announced (i0 : nat) p w : Prop := annd t i0 w ∧ phase_of t w = p.

(** It helps operation [i] of [k]; a later operation of [k] has a phase above [p]. *)
Definition tracked p k i e w : Prop :=
  i < g_now (w_gh w) ∧
  (on k i w → annd k i w ∧ (phase_of k w ≤ p)%Z ∧ (enqueue <$> desc_of k w) = Some e) ∧
  ∀ i', on k i' w → i' = i ∨ (p ≤ snap (w_aux w) k t)%Z.

(** The operation is settled, and may have returned. *)
Definition over k i w : Prop := i < g_now (w_gh w) ∧ (on k i w → annd k i w ∧ settled k w).

Definition bounded k i M w : Prop := active k i w → pot k w < M.

Lemma own_on_stable i w w' : rely w w' → on t i w → on t i w'.
Proof.
  intros HR (o & lo & Hi & lin & Hg). destruct (r_helped _ _ _ _ HR) as [_ Hh].
  rewrite Hg in Hh. destruct Hh as ([i' o' lo' lin'] & Hg' & ? & ? & ? & _). simpl in *. subst.
  exists o, lo. split; [|by exists lin']. pose proof (r_now _ _ _ _ HR). lia.
Qed.

Lemma wfq_announced_stable i0 p w w' : rely w w' → announced i0 p w → announced i0 p w'.
Proof.
  intros HR [Ha <-]. pose proof (own_on_stable _ _ _ HR (proj1 Ha)) as Hon.
  split; [by eapply annd_stable|]. by apply (r_annd _ _ _ _ HR _ _ Ha Hon).
Qed.

Lemma tracked_stable i0 p k i e w w' :
  rely w w' → announced i0 p w → tracked p k i e w → tracked p k i e w'.
Proof.
  intros HR [_ Hp] (Hi & Ht & Hu). pose proof (r_now _ _ _ _ HR). split; [lia|]. split.
  - intros Hon. destruct (on_stable _ _ _ _ HR _ _ Hon Hi) as [Hon0 _].
    destruct (Ht Hon0) as (Ha & ? & ?). split; [by eapply annd_stable|].
    destruct (r_annd _ _ _ _ HR _ _ Ha Hon) as (_ & -> & -> & _). done.
  - intros i' (o & lo & Hr). destruct (r_new _ _ _ _ HR _ _ _ _ Hr) as [[Hr0 ->]|[_ Hs]].
    + apply Hu. by exists o, lo.
    + right. rewrite <-Hp. apply Hs.
Qed.

Lemma wfq_over_stable k i w w' : rely w w' → over k i w → over k i w'.
Proof.
  intros HR [Hi Ho]. pose proof (r_now _ _ _ _ HR). split; [lia|]. intros Hon.
  destruct (on_stable _ _ _ _ HR _ _ Hon Hi) as [Hon0 _]. destruct (Ho Hon0) as [Ha Hs].
  split; [by eapply annd_stable|by eapply settled_stable].
Qed.

Lemma over_inactive k i w : over k i w → ¬ active k i w.
Proof. intros [_ Ho] [[Hon _] Hw]. by eapply settled_waiting; [apply Ho|]. Qed.

(** A pending descriptor with a phase up to [p] is the one of the operation. *)
Lemma tracked_active p k i e X w :
  Inv w → k < n → tracked p k i e w → desc_of k w = Some X → od_pending X = true →
  (phase X ≤ p)%Z → active k i w ∧ enqueue X = e.
Proof.
  intros HI Hk (Hi & Ht & Hu) HX Hpd Hph.
  destruct (decide (annw w !! k = None)) as [Hn|[[a h] Ha]%not_eq_None_Some].
  { pose proof (unannounced_settled _ _ _ _ _ HI Hk HX Hn). congruence. }
  destruct (ann_slot _ _ _ _ _ _ HI Ha) as (X' & i' & o & lo & lin & HX' & Hon & _ & _ & _ & Hs & _).
  assert (X' = X) as -> by congruence. destruct (Hu i' (proj1 Hon)) as [->|Hlt].
  - destruct (Ht (proj1 Hon)) as (? & _ & He). rewrite HX in He. split; [|by injection He].
    split; [done|by exists X].
  - specialize (Hs t). lia.
Qed.

(** What the operation was announced as, at a moment at which it waits. *)
Lemma active_desc p k i e w :
  Inv w → tracked p k i e w → active k i w → ∃ X, desc_of k w = Some X ∧
    od_pending X = true ∧ enqueue X = e ∧ (phase X ≤ p)%Z.
Proof.
  intros HI (_ & Ht & _) [[Hon _] (X & HX & Hpd)]. destruct (Ht Hon) as (_ & Hph & He).
  rewrite HX in He. rewrite (phase_desc _ _ _ HX) in Hph. exists X. split_and!; try done.
  by injection He.
Qed.

Lemma active_or_over p k i e w :
  Inv w → k < n → tracked p k i e w → active k i w ∨ over k i w.
Proof.
  intros HI Hk (Hi & Ht & _). destruct (slot_desc _ _ _ _ HI Hk) as (c & X & _ & _ & HX).
  destruct (od_pending X) eqn:Hpd.
  - destruct (g_thr (w_gh w) !! k) as [[i' o lo lin]|] eqn:Hg.
    + destruct (decide (i' = i)) as [->|Hne].
      * left. assert (on k i w) as Hon by (exists o, lo; by eapply thr_running).
        split; [by apply Ht|by exists X].
      * right. split; [done|]. intros (? & ? & _ & ? & ?). congruence.
    + right. split; [done|]. intros (? & ? & _ & ? & ?). congruence.
  - right. split; [done|]. intros Hon. split; [by apply Ht|by exists X].
Qed.

Lemma act_spent p k i e w w' :
  rely w w' → tracked p k i e w → active k i w' → active k i w ∧ spent n k w w'.
Proof.
  intros HR (Hi & Ht & _) Hac. destruct (r_act _ _ _ _ HR _ _ Hac) as [(? & _ & ?)|[Hn _]]; [done|].
  destruct (on_stable _ _ _ _ HR _ _ (proj1 (proj1 Hac)) Hi) as [Hon _]. by destruct Hn, (Ht Hon).
Qed.

Lemma bounded_stable p k i e M w w' :
  rely w w' → tracked p k i e w → bounded k i M w → bounded k i M w'.
Proof.
  intros HR Ht Hb Hac. destruct (act_spent _ _ _ _ _ _ HR Ht Hac) as [Hac0 (Hsp & _ & _)].
  specialize (Hb Hac0). destruct (r_act _ _ _ _ HR _ _ Hac) as [(_ & _ & (? & ? & _))|[Hn _]].
  - destruct (grows _ _ _ _ HR) as (? & ? & ? & ? & _). unfold events in *. lia.
  - destruct Hn. apply Hac0.
Qed.

(** A round that made progress: something was linked, claimed, passed, or
    recorded. *)
Definition moved k w w' : Prop :=
  length (chainw w) < length (chainw w') ∨ backw w < backw w' ∨
  length (claimsw w) < length (claimsw w') ∨ frontw w < frontw w' ∨
  flr (w_aux w) k < flr (w_aux w') k.

Lemma bounded_step p k i e M w w' :
  rely w w' → tracked p k i e w → bounded k i (S M) w → (active k i w' → moved k w w') →
  bounded k i M w'.
Proof.
  intros HR Ht Hb Hev Hac. destruct (act_spent _ _ _ _ _ _ HR Ht Hac) as [Hac0 (Hsp & Hfl & _)].
  specialize (Hb Hac0). specialize (Hev Hac). destruct (grows _ _ _ _ HR) as (? & ? & ? & ? & _).
  unfold moved, events in *. lia.
Qed.

(** ** [isStillPending] *)

Lemma wp_isStillPending {i0 p k i e} (Q : budget → bool → world → Prop) m w :
  announced i0 p w → tracked p k i e w → k < n →
  (∀ w', rely w w' → Inv w' → over k i w' → Q (Steps m) false w') →
  (∀ w1 w', rely w w1 → Inv w1 → active k i w1 → rely w1 w' → Inv w' → Q (Steps m) true w') →
  wp Q (Steps (3 + m)) (isStillPending (Z.of_nat k) p) w.
Proof.
  intros Han Htr Hk Hf Ht. wp_go wp_load_idx as w1 HR1 HI1.
  pose proof (tracked_stable _ _ _ _ _ _ _ HR1 Han Htr) as Htr1.
  destruct (slot_desc _ _ _ _ HI1 Hk) as (c & X & Hc & HX & HXk). exists (Some c). split; [done|].
  assert (∀ w', rely w1 w' → Inv w' → od_pending X = false ∨ (p < phase X)%Z → Q (Steps m) false w') as Hfalse.
  { intros w' HR' HI' Hno. apply Hf; [by etrans|done|]. eapply wfq_over_stable; [exact HR'|].
    destruct Htr1 as (Hi & Hon & _). split; [done|]. intros Hon1.
    destruct (Hon Hon1) as (Ha & Hph & _). split; [done|]. rewrite (phase_desc _ _ _ HXk) in Hph.
    destruct Hno as [?|?]; [by exists X|lia]. }
  wp_go wp_load_at as w2 HR2 HI2. exists X. split; [exact (desc_stable _ _ _ _ HR2 _ _ HX)|].
  destruct (od_pending X) eqn:Hpd.
  - wp_go wp_load_at as w3 HR3 HI3. assert (rely w1 w3) as HR13 by (etrans; [exact HR2|exact HR3]).
    exists X. split; [exact (desc_stable _ _ _ _ HR13 _ _ HX)|].
    apply wp_ret. intros w4 HR4 HI4. assert (rely w1 w4) as HR14 by (etrans; [exact HR13|exact HR4]).
    case_bool_decide as Hph.
    + destruct (tracked_active _ _ _ _ _ _ HI1 Hk Htr1 HXk Hpd Hph) as [Hac _]. by eapply Ht.
    + apply Hfalse; [done|done|right; lia].
  - apply wp_give_up with (m := m); [lia|]. apply wp_ret. intros w3 HR3 HI3.
    apply Hfalse; [by etrans|done|by left].
Qed.

(** ** [helpEnq] *)

(** The enqueue that waits: its node is not linked, or the tail lags behind it. *)
Lemma active_enq p k i w :
  Inv w → tracked p k i true w → active k i w → ∃ X N, desc_of k w = Some X ∧
    od_pending X = true ∧ od_node X = Some N ∧ minew w !! k = Some N ∧
    (linked N w → ∃ u, at_pos (S (backw w)) N u w).
Proof.
  intros HI Ht Hac. destruct (active_desc _ _ _ _ _ HI Ht Hac) as (X & HX & Hpd & He & _).
  destruct Hac as [[_ [[a h] Ha]] _].
  destruct (ann_slot _ _ _ _ _ _ HI Ha) as (X' & i' & o & lo & lin & HX' & _ & _ & _ & _ & _ & Ho).
  assert (X' = X) as -> by congruence. destruct o as [v|]; [|destruct Ho; congruence].
  destruct Ho as (_ & N & HN & Hm & Ho). exists X, N. split_and!; try done.
  intros Hl. destruct Ho as [(? & _)|(_ & _ & Hlast)]; [done|by apply Hlast].
Qed.

(** The node is linked and the tail has passed it. *)
Lemma linked_over p k i N w w' :
  Inv w' → rely w w' → tracked p k i true w' → annd k i w → minew w !! k = Some N →
  past N w' → k < n → over k i w'.
Proof.
  intros HI' HR Ht' Ha HN (j & v & Hj & Hle) Hk.
  destruct (active_or_over _ _ _ _ _ HI' Hk Ht') as [Hac|]; [|done].
  destruct (active_enq _ _ _ _ HI' Ht' Hac) as (X & N' & _ & _ & _ & HN' & Hlast).
  destruct (r_annd _ _ _ _ HR _ _ Ha (proj1 (proj1 Hac))) as (_ & _ & _ & Hm).
  assert (N' = N) as -> by congruence.
  destruct Hlast as [u Hu]; [by eapply wfq_pos_linked|].
  rewrite (wfq_pos_inj _ _ _ _ _ _ _ _ HI' Hj Hu) in Hle. lia.
Qed.

(** [last.next.CompareAndSwap(nil, q.state[tid].Load().node)] links the node of
    the operation if [last], at position [j], still is the last one. *)
Lemma wfq_wp_link {A} (Q : budget → A → world → Prop) i0 p k i m j last v K w0 w :
  announced i0 p w0 → tracked p k i true w0 → k < n → Inv w0 → active k i w0 → rely w0 w →
  at_pos j last v w0 → j ≤ backw w0 →
  (∀ w1 w' N u, rely w0 w1 → rely w1 w' → Inv w' → annd k i w1 → minew w1 !! k = Some N →
     at_pos (S j) N u w' → wp Q (Steps m) (K true) w') →
  (∀ w', rely w0 w' → Inv w' → S j < length (chainw w') → wp Q (Steps m) (K false) w') →
  wp Q (Steps (3 + m))
    (let! d := act (load_idx state (Z.of_nat k)) in
     let! nd := act (load_ptr descs d od_node) in
     let! ok := act (cas_ptr nodes_f (Some last) next_f None nd) in
     K ok) w.
Proof.
  intros Han Ht Hk HI0 Hac HR Hj Hjb Htrue Hfalse.
  destruct (active_enq _ _ _ _ HI0 Ht Hac) as (X & N & HX & Hpd & HXN & HN & Hlast).
  wp_go wp_load_idx as w1 HR1 HI1. assert (rely w0 w1) as HR01 by (etrans; [exact HR|exact HR1]).
  destruct (slot_desc _ _ _ _ HI1 Hk) as (c1 & X1 & Hc1 & HX1 & HXk1). exists (Some c1). split; [done|].
  wp_go wp_load_at as w2 HR2 HI2. assert (rely w0 w2) as HR02 by (etrans; [exact HR01|exact HR2]).
  exists X1. split; [exact (desc_stable _ _ _ _ HR2 _ _ HX1)|].
  wp_go wp_cas_at as w3 HR3 HI3. assert (rely w0 w3) as HR03 by (etrans; [exact HR02|exact HR3]).
  pose proof (wfq_pos_stable _ _ _ _ HR03 _ _ _ Hj) as Hj3.
  destruct (pos_node _ _ _ _ _ _ HI3 Hj3) as (x & Hx & _ & Hnx & _). exists x. split; [done|].
  split.
  - intros Hnil. simpl in Hnil. rewrite Hnx in Hnil. apply wfq_succ_end in Hnil.
    pose proof (wfq_pos_lt _ _ _ _ Hj) as Hlt0. destruct (grows _ _ _ _ HR03) as (Hg3 & _ & _ & Hb3 & _).
    assert (¬ linked N w0) as Hnl0.
    { intros Hl. destruct (Hlast Hl) as [u Hu]. apply wfq_pos_lt in Hu. lia. }
    assert (chainw w3 = chainw w0) as Hch3.
    { destruct (r_chain _ _ _ _ HR03) as [ch Hch]. rewrite Hch in *. rewrite length_app in *.
      destruct ch; simpl in *; [by rewrite app_nil_r|lia]. }
    assert (¬ linked N w3) as Hnl3 by (unfold linked; by rewrite Hch3).
    assert (¬ linked N w1) as Hnl1.
    { intros Hl. apply Hnl3. eapply linked_stable; [|exact Hl]. etrans; [exact HR2|exact HR3]. }
    assert (∀ w, ¬ linked N w → ¬ past N w) as Hnp by (intros ? H (? & ? & ?%wfq_pos_linked & _); done).
    destruct (r_enq _ _ _ _ HR01 _ _ _ (proj1 Hac) HN (Hnp _ Hnl1)) as (_ & _ & _ & Hst1).
    specialize (Hst1 Hnl1).
    assert (X1 = X) as ->.
    { pose proof (desc_of_kept k w0 w1 (r_descs _ _ _ _ HR01) Hst1 _ HX). congruence. }
    destruct (r_enq _ _ _ _ HR03 _ _ _ (proj1 Hac) HN (Hnp _ Hnl3)) as (Ha3 & HN3 & _).
    pose proof (i_pos _ _ _ HI3) as Hpos3.
    assert (backw w3 = j) as Hbj by lia.
    rewrite HXN. destruct (wfq_link_step zero n w3 last N v k x HI3) as [u [HI4 HR4]]; try done.
    { by rewrite Hbj. } { lia. } { apply Ha3. }
    eexists [k], _. split; [by apply free_good|]. 
    assert (at_pos (S j) N u (upd USp w3 (f_set nodes_f (<[last:=f_set next_f (Some N) x]> (nodes (w_mem w3))) (w_mem w3)) [k] (link_node N u (w_aux w3)))) as HNj.
    { unfold at_pos. simpl. replace (S j) with (length (chainw w3)) by lia. apply lookup_snoc_eq. }
    by apply (Htrue w3 _ N u HR03 (HR4 t) HI4 Ha3 HN3).
  - intros Hnil. simpl in Hnil. rewrite Hnx in Hnil. apply Hfalse; [done|done|].
    destruct (decide (S j < length (chainw w3))) as [|Hge]; [done|].
    destruct Hnil. apply wfq_succ_end. lia.
Qed.

Lemma wp_helpEnq {i0 p k i M} (Q : budget → unit → world → Prop) m w :
  announced i0 p w → tracked p k i true w → k < n → bounded k i M w →
  (∀ w', rely w w' → Inv w' → over k i w' → Q (Steps m) tt w') →
  wp Q (Steps (4 + (24 * M + m))) (helpEnq (Z.of_nat k) p) w.
Proof.
  intros Han Htr Hk Hbd HQ.
  apply (wp_loop USp proto pg t _ (λ b _ w', ∃ M, b = Steps (4 + (24 * M + m)) ∧ rely w w' ∧
    bounded k i M w')); [|clear - Han Htr|by exists M].
  2:{ intros b [] w1 w2 (M1 & -> & HR & Hb) HR2. exists M1. split; [done|].
      split; [etrans; [exact HR|exact HR2]|]. by eapply bounded_stable, Hb; [|eapply tracked_stable]. }
  clear M Hbd. intros b [] w1 (M & -> & HR01 & Hb) HI1. eexists. split; [reflexivity|].
  pose proof (wfq_announced_stable _ _ _ _ HR01 Han) as Han1.
  pose proof (tracked_stable _ _ _ _ _ _ _ HR01 Han Htr) as Htr1.
  assert (∀ s w', rely w1 w' → Inv w' → over k i w' → m ≤ s → wp Q (Steps s) (Ret tt) w') as Hexit.
  { intros s w' HR' HI' Ho Hs. apply wp_give_up with (m := m); [done|]. apply wp_ret.
    intros w2 HR2 HI2. apply HQ; [by repeat (etrans; [eassumption|])|done|by eapply wfq_over_stable]. }
  apply wp_bind. eapply wp_isStillPending; [done..| |].
  { intros w2 HR2 HI2 Ho. apply wp_ret. intros w3 HR3 HI3.
    apply Hexit; [by etrans|done|by eapply wfq_over_stable|lia]. }
  intros w2 w3 HR2 HI2 Hac2 HR3 HI3.
  pose proof (bounded_stable _ _ _ _ _ _ _ HR2 Htr1 Hb) as Hb2.
  destruct M as [|M]; [specialize (Hb2 Hac2); lia|].
  pose proof (tracked_stable _ _ _ _ _ _ _ HR2 Han1 Htr1) as Htr2.
  pose proof (wfq_announced_stable _ _ _ _ HR2 Han1) as Han2.
  match goal with |- wp ?F _ _ _ => set (F' := F) end.
  assert (∀ s w', rely w2 w' → Inv w' → moved k w2 w' → 4 + (24 * M + m) ≤ s →
    wp F' (Steps s) (Ret (inl tt)) w') as Hcont.
  { intros s w' HR' HI' Hmv Hs. apply wp_give_up with (m := 4 + (24 * M + m)); [done|].
    apply wp_ret. intros w4 HR4 HI4. exists M. split; [done|].
    split; [by repeat (etrans; [eassumption|])|].
    eapply bounded_stable; [exact HR4|eapply tracked_stable; [exact HR'|done|done]|].
    by eapply bounded_step. }
  replace (24 * S M + m) with (3 + (3 + (3 + (11 + (4 + (24 * M + m)))))) by lia.
  wp_go wp_load as w4 HR4 HI4. destruct (i_tail _ _ _ HI4) as (last & v & -> & Hlast).
  set (j := backw w4) in *. assert (rely w2 w4) as HR24 by (etrans; [exact HR3|exact HR4]).
  destruct (grows _ _ _ _ HR24) as (Hl4 & _ & _ & Hb4 & _).
  wp_go wp_load_at as w5 HR5 HI5. pose proof (wfq_pos_stable _ _ _ _ HR5 _ _ _ Hlast) as Hlast5.
  destruct (pos_node _ _ _ _ _ _ HI5 Hlast5) as (x & Hx & _ & Hnx & _). exists x. split; [done|].
  rewrite Hnx. destruct (grows _ _ _ _ HR5) as (Hl5 & _ & _ & Hb5 & _).
  wp_go wp_load as w6 HR6 HI6. pose proof (wfq_pos_stable _ _ _ _ HR6 _ _ _ Hlast5) as Hlast6.
  destruct (i_tail _ _ _ HI6) as (last6 & v6 & -> & Hl6). destruct (grows _ _ _ _ HR6) as (? & _ & _ & Hb6 & _).
  assert (rely w2 w6) as HR26 by (etrans; [exact HR24|]; etrans; [exact HR5|exact HR6]).
  case_decide as Hdec.
  2:{ apply Hcont; [done|done| |lia]. right. left. enough (backw w6 ≠ j) by lia.
      intros Hbj. apply Hdec. rewrite Hbj in Hl6. by destruct (wfq_pos_fun _ _ _ _ _ _ Hl6 Hlast6) as [-> _]. }
  injection Hdec as <-. assert (backw w6 = j) as Hbj by exact (wfq_pos_inj _ _ _ _ _ _ _ _ HI6 Hl6 Hlast6).
  pose proof (wfq_announced_stable _ _ _ _ HR26 Han2) as Han6.
  pose proof (tracked_stable _ _ _ _ _ _ _ HR26 Han2 Htr2) as Htr6.
  destruct (succ j w5) as [N|] eqn:HN.
  - apply wfq_succ_at in HN as [u HN]. apply wfq_pos_lt in HN.
    replace (3 + (3 + (11 + (4 + (24 * M + m))))) with (11 + (10 + (24 * M + m))) by lia.
    apply wp_bind. apply wp_helpFinishEnq with (L := S (S j)); [lia|].
    intros w7 HR7 HI7 HL. apply Hcont; [by etrans|done| |lia]. right. left. lia.
  - apply wfq_succ_end in HN. apply wp_bind. eapply wp_isStillPending; [done..| |].
    { intros w7 HR7 HI7 Ho. apply wp_ret. intros w8 HR8 HI8.
      apply Hexit; [by repeat (etrans; [eassumption|])|done|by eapply wfq_over_stable|lia]. }
    intros w7 w8 HR7 HI7 Hac7 HR8 HI8. cbn beta iota.
    assert (rely w2 w7) as HR27 by (etrans; [exact HR26|exact HR7]).
    destruct (grows _ _ _ _ HR7) as (_ & _ & _ & Hb7 & _).
    apply (wfq_wp_link F' i0 p k i _ j last v
      (λ ok : bool, if ok then helpFinishEnq ;;; break tt else continue tt) w7 w8); try done.
    + by eapply wfq_announced_stable.
    + by eapply tracked_stable.
    + exact (wfq_pos_stable _ _ _ _ HR7 _ _ _ Hlast6).
    + lia.
    + intros wl w9 N u HR9 HR9' HI9 Ha9 HN9 Hat9. apply wp_bind.
      apply wp_helpFinishEnq with (L := S (S j)); [by apply wfq_pos_lt in Hat9|].
      intros w10 HR10 HI10 HL. apply wp_ret. intros w11 HR11 HI11.
      assert (rely wl w11) as HRl by (etrans; [exact HR9'|]; etrans; [exact HR10|exact HR11]).
      assert (rely w2 w11) as HR2b by (etrans; [exact HR27|]; etrans; [exact HR9|exact HRl]).
      apply Hexit; [by etrans|done| |lia].
      eapply linked_over; [done|exact HRl|by eapply tracked_stable|done|done| |done].
      exists (S j), u. destruct (grows _ _ _ _ HR11) as (_ & _ & _ & ? & _).
      split; [|lia]. eapply wfq_pos_stable; [|exact Hat9]. etrans; [exact HR10|exact HR11].
    + intros w9 HR9 HI9 Hl9. apply Hcont; [by etrans|done|left; lia|lia].
Qed.

(** ** [helpDeq] *)

(** The dequeue that waits: its candidate is not behind the head, and was not the
    tail. *)
Lemma active_deq p k i w :
  Inv w → tracked p k i false w → active k i w → ∃ X a h lo, desc_of k w = Some X ∧
    od_pending X = true ∧ enqueue X = false ∧ (phase X ≤ p)%Z ∧
    annw w !! k = Some (a, h) ∧ h ≤ frontw w ∧ running k i (UApply k dequeueOp) lo w ∧
    ∀ F, od_node X = Some F → ∃ j v, at_pos j F v w ∧ j ≤ frontw w ∧ j < backw w.
Proof.
  intros HI Ht Hac. destruct (active_desc _ _ _ _ _ HI Ht Hac) as (X & HX & Hpd & He & Hph).
  destruct Hac as [[Hon [[a h] Ha]] _].
  destruct (ann_slot _ _ _ _ _ _ HI Ha) as (X' & i' & o & lo & lin & HX' & [Hon' _] & Hg & _ & _ & _ & Ho).
  assert (X' = X) as -> by congruence. rewrite (on_fun _ _ _ _ Hon' Hon) in Hg.
  destruct o as [v|]; [destruct Ho; congruence|].
  destruct Ho as (_ & _ & Hh & Ho). exists X, a, h, lo. split_and!; try done.
  - by eapply thr_running.
  - intros F HF. rewrite HF in Ho. destruct Ho as (j & v & Hj & _ & ? & ? & _). exists j, v.
    split_and!; [done|lia|done].
Qed.

(** [first], at position [j], gets claimed, or is already. *)
Lemma wp_helpDeq_claim (Q : budget → unit → world → Prop) m k first v j w :
  at_pos j first v w →
  (j < length (claimsw w) ∨ ∃ i X, annd k i w ∧ desc_of k w = Some X ∧ od_pending X = true ∧
     enqueue X = false ∧ od_node X = Some first ∧ j ≤ frontw w) →
  (∀ w', rely w w' → Inv w' → j < frontw w' → Q (Steps m) tt w') →
  wp Q (Steps (12 + m)) (helpDeq_claim (Z.of_nat k) (Some first)) w.
Proof.
  intros Hj Hcase HQ. wp_go wp_cas_at as w1 HR1 HI1.
  pose proof (wfq_pos_stable _ _ _ _ HR1 _ _ _ Hj) as Hj1.
  destruct (pos_node _ _ _ _ _ _ HI1 Hj1) as (x & Hx & _ & _ & Hdx & _). exists x. split; [done|].
  destruct (grows _ _ _ _ HR1) as (_ & Hcl1 & Hf1 & _). pose proof (i_pos _ _ _ HI1) as Hpos1.
  assert (∀ w', rely w1 w' → j < length (claimsw w') → wp Q (Steps (11 + m)) helpFinishDeq w') as Hfin.
  { intros w' HR' Hc. apply wp_helpFinishDeq with (C := S j); [done|].
    intros w2 HR2 HI2 HC. apply HQ; [etrans; [exact HR1|]; by etrans|done|done]. }
  split.
  - intros Hno. simpl in Hno. rewrite Hdx in Hno. apply claim_of_none, lookup_ge_None in Hno.
    destruct Hcase as [?|(i & X & Ha & HX & Hpd & He & HXF & Hjf)]; [lia|].
    assert (frontw w1 = j) as Hfj by lia.
    destruct (r_claim _ _ _ _ HR1 _ _ _ _ _ _ Ha HX Hpd HXF He Hj Hno) as [Ha1 Hs1].
    pose proof (desc_of_kept _ _ _ (r_descs _ _ _ _ HR1) Hs1 _ HX) as HX1.
    exists [k], (claim_node k (w_aux w1)).
    destruct (claim_step zero n w1 first v k X x HI1) as [HI2 HR2]; try done.
    { by rewrite Hfj. } { lia. } { apply Ha1. }
    split; [by apply free_good|]. apply Hfin; [apply HR2|]. simpl. rewrite length_app. simpl. lia.
  - intros Hno. simpl in Hno. rewrite Hdx in Hno. apply Hfin; [reflexivity|].
    destruct (decide (j < length (claimsw w1))) as [|Hge]; [done|].
    destruct Hno. by rewrite lookup_ge_None_2 by lia.
Qed.

(** The compare-and-swap of the slot failed: the operation is settled, or a
    candidate was recorded. *)
Lemma swap_failed p k i e c w w' :
  rely w w' → tracked p k i e w → state (w_mem w) !! k = Some (Some c) →
  state (w_mem w') !! k ≠ Some (Some c) → active k i w' → moved k w w'.
Proof.
  intros HR Ht Hc Hc' Hac. destruct (act_spent _ _ _ _ _ _ HR Ht Hac) as (_ & _ & _ & [Heq|?]).
  - congruence.
  - by do 4 right.
Qed.

(** A round of [helpDeq] leaves the operation with a smaller potential. *)
Definition round_post k i (Q : budget → bool → world → Prop) m w0 : Prop :=
  (∀ s w', rely w0 w' → Inv w' → (active k i w' → moved k w0 w') → m ≤ s → Q (Steps s) true w') ∧
  (∀ s w', rely w0 w' → Inv w' → over k i w' → m ≤ s → Q (Steps s) false w').

Lemma wp_helpDeq_first {i0 p k i} (Q : budget → bool → world → Prop) m first v j w0 w :
  announced i0 p w0 → tracked p k i false w0 → k < n → rely w0 w →
  at_pos j first v w → frontw w0 ≤ j ≤ frontw w → j < backw w →
  round_post k i Q m w0 →
  wp Q (Steps (21 + m)) (helpDeq_first (Z.of_nat k) p (Some first)) w.
Proof.
  intros Han Htr Hk HR Hj Hjf Hjb [Htrue Hfalse].
  wp_go wp_load_idx as w1 HR1 HI1. assert (rely w0 w1) as HR01 by (etrans; [exact HR|exact HR1]).
  pose proof (wfq_announced_stable _ _ _ _ HR01 Han) as Han1.
  pose proof (tracked_stable _ _ _ _ _ _ _ HR01 Han Htr) as Htr1.
  destruct (slot_desc _ _ _ _ HI1 Hk) as (c & X & Hc & HX & HXk). exists (Some c). split; [done|].
  pose proof (wfq_pos_stable _ _ _ _ HR1 _ _ _ Hj) as Hj1. destruct (grows _ _ _ _ HR1) as (_ & _ & Hf1 & Hb1 & _).
  wp_go wp_load_at as w2 HR2 HI2. exists X. split; [exact (desc_stable _ _ _ _ HR2 _ _ HX)|].
  apply wp_bind. eapply (wp_isStillPending (i0 := i0) (i := i) (e := false));
    [eapply wfq_announced_stable; [exact HR2|done]|eapply tracked_stable; [exact HR2|done|done]|done|..].
  { intros w3 HR3 HI3 Ho. apply wp_ret. intros w4 HR4 HI4.
    apply Hfalse; [by repeat (etrans; [eassumption|])|done|by eapply wfq_over_stable|lia]. }
  intros w3' w3 HR3' HI3' Hac3 HR3 HI3.
  assert (active k i w1) as Hac1.
  { destruct (active_or_over _ _ _ _ _ HI1 Hk Htr1) as [|Ho]; [done|].
    destruct (over_inactive k i w3'); [|done]. eapply wfq_over_stable; [|exact Ho]. by etrans. }
  assert (rely w1 w3) as HR13 by (etrans; [exact HR2|]; etrans; [exact HR3'|exact HR3]).
  destruct (active_deq _ _ _ _ HI1 Htr1 Hac1) as (X' & a & h & lo & HX' & Hpd & He & Hph & Ha & Hh & _ & Hcand).
  assert (X' = X) as -> by congruence.
  wp_go wp_load as w4 HR4 HI4. assert (rely w1 w4) as HR14 by (etrans; [exact HR13|exact HR4]).
  destruct (i_head _ _ _ HI4) as (l4 & v4 & -> & Hl4). pose proof (wfq_pos_stable _ _ _ _ HR14 _ _ _ Hj1) as Hj4.
  assert (rely w0 w4) as HR04 by (etrans; [exact HR01|exact HR14]).
  destruct (grows _ _ _ _ HR14) as (_ & _ & Hf4 & Hb4 & _).
  assert (∀ s w', rely w0 w' → Inv w' → j < frontw w' → m ≤ s → Q (Steps s) true w') as Hpassed.
  { intros s w' HR' HI' Hlt Hs. apply Htrue; [done|done| |done]. intros _. right. right. right. left. lia. }
  case_decide as Hdec.
  2:{ apply wp_bind. replace (17 + m) with (12 + (5 + m)) by lia.
      apply (wp_give_up _ _ _ _ _ _ (12 + m)); [lia|].
      eapply wp_helpDeq_claim; [exact Hj4| |].
      - left. pose proof (i_pos _ _ _ HI4). enough (frontw w4 ≠ j) by lia.
        intros Hfj. apply Hdec. rewrite Hfj in Hl4. by destruct (wfq_pos_fun _ _ _ _ _ _ Hl4 Hj4) as [-> _].
      - intros w5 HR5 HI5 Hlt. apply wp_ret. intros w6 HR6 HI6. destruct (grows _ _ _ _ HR6) as (_ & _ & ? & _).
        apply Hpassed; [by repeat (etrans; [eassumption|])|done|lia|lia]. }
  injection Hdec as <-. assert (frontw w4 = j) as Hfj by exact (wfq_pos_inj _ _ _ _ _ _ _ _ HI4 Hl4 Hj4).
  assert (∀ s w', rely w0 w' → at_pos j first v w' →
    (j < length (claimsw w') ∨ ∃ i X, annd k i w' ∧ desc_of k w' = Some X ∧ od_pending X = true ∧
     enqueue X = false ∧ od_node X = Some first ∧ j ≤ frontw w') → 12 + m ≤ s →
    wp Q (Steps s) (helpDeq_claim (Z.of_nat k) (Some first) ;;; Ret true) w') as Hclaim.
  { intros s w' HR' Hj' Hcase Hs. apply (wp_give_up _ _ _ _ _ _ (12 + m)); [done|]. apply wp_bind.
    eapply wp_helpDeq_claim; [exact Hj'|exact Hcase|].
    intros w5 HR5 HI5 Hlt. apply wp_ret. intros w6 HR6 HI6. destruct (grows _ _ _ _ HR6) as (_ & _ & ? & _).
    apply Hpassed; [by repeat (etrans; [eassumption|])|done|lia|lia]. }
  case_decide as HXF.
  - apply Hclaim; [done|done| |lia].
    destruct (decide (j < length (claimsw w4))) as [|Hge]; [by left|right].
    destruct (r_claim _ _ _ _ HR14 _ _ _ _ _ _ (proj1 Hac1) HXk Hpd HXF He Hj1 ltac:(lia)) as [Ha4 Hs4].
    exists i, X. pose proof (desc_of_kept _ _ _ (r_descs _ _ _ _ HR14) Hs4 _ HXk).
    split_and!; try done; lia.
  - wp_go wp_load_at as w5 HR5 HI5. assert (rely w1 w5) as HR15 by (etrans; [exact HR14|exact HR5]).
    exists X. split; [exact (desc_stable _ _ _ _ HR15 _ _ HX)|].
    apply wp_new_desc. intros w6 d HR6 HI6 Hd6.
    wp_go wp_cas_idx as w7 HR7 HI7.
    assert (rely w1 w7) as HR17 by (etrans; [exact HR15|]; etrans; [exact HR6|exact HR7]).
    assert (rely w0 w7) as HR07 by (etrans; [exact HR01|exact HR17]).
    pose proof (desc_stable _ _ _ _ HR17 _ _ HX) as HX7. pose proof (desc_stable _ _ _ _ HR7 _ _ Hd6) as Hd7.
    pose proof (wfq_pos_stable _ _ _ _ HR17 _ _ _ Hj1) as Hj7. destruct (grows _ _ _ _ HR17) as (_ & _ & Hf7 & Hb7 & _).
    split; [simpl; by rewrite (i_state _ _ _ HI7)|]. split.
    + intros Hs. simpl in Hs. exists [], (set_flr k (S j) (w_aux w7)).
      assert (tracked p k i false w7) as Htr7 by (by eapply tracked_stable).
      destruct (tracked_active _ _ _ _ _ _ HI7 Hk Htr7 (desc_at _ _ _ _ Hs HX7) Hpd Hph) as [Hac7 _].
      destruct (record_step zero n k c d X first j v w7 HI7 Hk Hs HX7 Hpd He Hj7) as [[HI8 HR8] Hfl]; try done; try lia.
      { intros F HF. destruct (Hcand F HF) as (j' & v' & Hj' & ? & ?). exists j', v'.
        split; [exact (wfq_pos_stable _ _ _ _ HR17 _ _ _ Hj')|]. enough (j' ≠ j) by lia. intros ->.
        destruct (wfq_pos_fun _ _ _ _ _ _ Hj' Hj1). congruence. }
      { intros a' h' Ha'. destruct (r_annd _ _ _ _ HR17 _ _ (proj1 Hac1) (proj1 (proj1 Hac7))) as (Ha7 & _).
        assert (h' = h) as -> by congruence. lia. }
      split; [by apply free_good|]. apply Hclaim; [etrans; [exact HR07|apply HR8]|done| |lia].
      right. exists i, (OpDesc (phase X) true false (Some first)).
      pose proof (swapped_desc zero n k c d (S j) _ w7 Hs Hd7). split_and!; try done; [apply Hac7|simpl; lia].
    + intros Hs. simpl in Hs. apply wp_ret. intros w8 HR8 HI8.
      apply Htrue; [by etrans|done| |lia]. intros Hac8.
      assert (tracked p k i false w7) as Htr7 by (by eapply tracked_stable).
      destruct (act_spent _ _ _ _ _ _ HR8 Htr7 Hac8) as [Hac7 (_ & Hfl8 & _)].
      destruct (act_spent _ _ _ _ _ _ HR01 Htr Hac1) as [_ (_ & Hfl1 & _)].
      pose proof (swap_failed _ _ _ _ _ _ _ HR17 Htr1 Hc Hs Hac7) as Hmv. unfold moved in *.
      destruct (grows _ _ _ _ HR01) as (? & ? & ? & ? & _). destruct (grows _ _ _ _ HR8) as (? & ? & ? & ? & _).
      lia.
Qed.

(** The queue was empty at [w4], after the operation was called. *)
Lemma saw_empty i k j w4 w :
  Inv w4 → rely w4 w → length (chainw w4) ≤ S j → j ≤ frontw w4 → i < g_now (w_gh w4) →
  on k i w → pending (w_gh w) k (UApply k dequeueOp) →
  observed USp (w_gh w) k (UApply k dequeueOp) (RApply (RVal zero false)).
Proof.
  intros HI HR Hlen Hj Hi Hon (id & lo & Hg & _).
  pose proof (i_pos _ _ _ HI) as Hpos. pose proof (i_vals _ _ _ HI) as Hv.
  rewrite drop_ge in Hv by lia.
  destruct (r_helped _ _ _ _ HR) as [Hlog _]. exists id, lo, (length (g_log (w_gh w4))).
  split; [done|]. split.
  - split; [|by apply prefix_length].
    destruct Hon as (o & lo' & Hn & lin & Hg'). rewrite Hg in Hg'. simplify_eq.
    destruct (r_new _ _ _ _ HR k i (UApply k dequeueOp) lo') as [[(_ & lin & Hg4) _]|[? _]];
      [split; [done|by eexists]| |lia].
    apply (i_lo _ _ _ HI _ _ Hg4).
  - rewrite (take_of_prefix _ _ _ Hlog), firstn_all by done.
    change (run USp (spec_init USp) (g_log (w_gh w4))) with (g_st zero n w4).
    destruct (g_st zero n w4) as [vs c]. simpl in Hv. subst. by split.
Qed.

Lemma wp_helpDeq_empty {i0 p k i} (Q : budget → unit → world → Prop) m last j v w0 w4 w :
  announced i0 p w0 → tracked p k i false w0 → k < n → rely w0 w4 → rely w4 w → Inv w4 →
  at_pos j last v w4 → length (chainw w4) ≤ S j → j ≤ frontw w4 → backw w0 ≤ j →
  (∀ s w', rely w0 w' → Inv w' → (active k i w' → moved k w0 w') → m ≤ s → Q (Steps s) tt w') →
  wp Q (Steps (8 + m)) (helpDeq_empty (Z.of_nat k) p (Some last) None) w.
Proof.
  intros Han Htr Hk HR04 HR4 HI4 Hj Hlen Hjf Hbj HQ.
  wp_go wp_load_idx as w5 HR5 HI5. assert (rely w4 w5) as HR45 by (etrans; [exact HR4|exact HR5]).
  assert (rely w0 w5) as HR05 by (etrans; [exact HR04|exact HR45]).
  pose proof (wfq_announced_stable _ _ _ _ HR05 Han) as Han5.
  pose proof (tracked_stable _ _ _ _ _ _ _ HR05 Han Htr) as Htr5.
  destruct (slot_desc _ _ _ _ HI5 Hk) as (c & X & Hc & HX & HXk). exists (Some c). split; [done|].
  pose proof (i_pos _ _ _ HI4) as Hpos4. destruct (grows _ _ _ _ HR45) as (_ & _ & _ & Hb5 & _).
  wp_go wp_load as w6 HR6 HI6. assert (rely w0 w6) as HR06 by (etrans; [exact HR05|exact HR6]).
  destruct (i_tail _ _ _ HI6) as (l6 & v6 & -> & Hl6).
  assert (at_pos j last v w6) as Hj6 by (eapply wfq_pos_stable; [etrans; [exact HR45|exact HR6]|exact Hj]).
  destruct (grows _ _ _ _ HR6) as (_ & _ & _ & Hb6 & _).
  case_decide as Hdec.
  2:{ apply wp_ret. intros w7 HR7 HI7. apply HQ; [by etrans|done| |lia]. intros _. right. left.
      destruct (grows _ _ _ _ HR7) as (_ & _ & _ & ? & _). enough (backw w6 ≠ j) by lia.
      intros Hb. apply Hdec. rewrite Hb in Hl6. by destruct (wfq_pos_fun _ _ _ _ _ _ Hl6 Hj6) as [-> _]. }
  injection Hdec as <-. assert (backw w6 = j) as Hbk by exact (wfq_pos_inj _ _ _ _ _ _ _ _ HI6 Hl6 Hj6).
  apply wp_bind. eapply (wp_isStillPending (i0 := i0) (i := i) (e := false));
    [eapply wfq_announced_stable; [exact HR6|done]|eapply tracked_stable; [exact HR6|done|done]|done|..].
  { intros w7 HR7 HI7 Ho. apply wp_ret. intros w8 HR8 HI8.
    apply HQ; [by repeat (etrans; [eassumption|])|done| |lia]. intros Hac.
    destruct (over_inactive k i w8); [by eapply wfq_over_stable|done]. }
  intros w7' w7 HR7' HI7' Hac7 HR7 HI7.
  assert (active k i w5) as Hac5.
  { destruct (active_or_over _ _ _ _ _ HI5 Hk Htr5) as [|Ho]; [done|].
    destruct (over_inactive k i w7'); [|done]. eapply wfq_over_stable; [|exact Ho].
    etrans; [exact HR6|exact HR7']. }
  assert (rely w5 w7) as HR57 by (etrans; [exact HR6|]; etrans; [exact HR7'|exact HR7]).
  destruct (active_deq _ _ _ _ HI5 Htr5 Hac5) as (X' & a & h & lo & HX' & Hpd & He & Hph & _ & _ & Hrun & Hcand).
  assert (X' = X) as -> by congruence.
  wp_go wp_load_at as w8 HR8 HI8. assert (rely w5 w8) as HR58 by (etrans; [exact HR57|exact HR8]).
  exists X. split; [exact (desc_stable _ _ _ _ HR58 _ _ HX)|].
  apply wp_new_desc. intros w9 d HR9 HI9 Hd9.
  wp_go wp_cas_idx as w10 HR10 HI10.
  assert (rely w5 w10) as HR5x by (etrans; [exact HR58|]; etrans; [exact HR9|exact HR10]).
  assert (rely w0 w10) as HR0x by (etrans; [exact HR05|exact HR5x]).
  assert (rely w4 w10) as HR4x by (etrans; [exact HR45|exact HR5x]).
  pose proof (desc_stable _ _ _ _ HR5x _ _ HX) as HXx. pose proof (desc_stable _ _ _ _ HR10 _ _ Hd9) as Hdx.
  assert (tracked p k i false w10) as Htrx by exact (tracked_stable _ _ _ _ _ _ _ HR0x Han Htr).
  split; [simpl; by rewrite (i_state _ _ _ HI10)|]. split.
  - intros Hs. simpl in Hs. exists [], (set_flr k (flr (w_aux w10) k) (w_aux w10)).
    destruct (tracked_active _ _ _ _ _ _ HI10 Hk Htrx (desc_at _ _ _ _ Hs HXx) Hpd Hph) as [Hacx _].
    destruct (grows _ _ _ _ HR5x) as (_ & _ & Hf5x & _). destruct (grows _ _ _ _ HR45) as (_ & _ & Hf45 & _).
    destruct (mark_empty_step zero n k c d X w10 HI10 Hk Hs HXx Hpd He) as [HI11 HR11]; [| |done|].
    { intros F HF. destruct (Hcand F HF) as (j' & v' & Hj' & ? & ?). exists j', v'.
      split; [exact (wfq_pos_stable _ _ _ _ HR5x _ _ _ Hj')|]. lia. }
    { intros Hp. eapply (saw_empty i k j w4 w10); try done; [|apply Hacx].
      apply (tracked_stable _ _ _ _ _ _ _ HR04 Han Htr). }
    split; [by apply free_good|]. apply wp_ret. intros w12 HR12 HI12.
    apply HQ; [etrans; [exact HR0x|]; etrans; [apply HR11|exact HR12]|done| |lia].
    intros Hac. destruct (over_inactive k i w12); [|done]. eapply wfq_over_stable; [exact HR12|].
    destruct Htrx as (Hi & Hon & _). split; [done|]. intros Hon'. split; [by apply Hon|].
    exists (OpDesc (phase X) false false None). split; [|done].
    apply (swapped_desc zero n k c d (flr (w_aux w10) k) _ w10 Hs Hdx).
  - intros Hs. simpl in Hs. apply wp_ret. intros w12 HR12 HI12.
    apply HQ; [by etrans|done| |lia]. intros Hac12.
    destruct (act_spent _ _ _ _ _ _ HR12 Htrx Hac12) as [Hacx (_ & Hfl12 & _)].
    destruct (act_spent _ _ _ _ _ _ HR05 Htr Hac5) as [_ (_ & Hfl5 & _)].
    pose proof (swap_failed _ _ _ _ _ _ _ HR5x Htr5 Hc Hs Hacx) as Hmv. unfold moved in *.
    destruct (grows _ _ _ _ HR05) as (? & ? & ? & ? & _). destruct (grows _ _ _ _ HR12) as (? & ? & ? & ? & _).
    lia.
Qed.

Lemma wp_helpDeq {i0 p k i M} (Q : budget → unit → world → Prop) m w :
  announced i0 p w → tracked p k i false w → k < n → bounded k i M w →
  (∀ w', rely w w' → Inv w' → over k i w' → Q (Steps m) tt w') →
  wp Q (Steps (4 + (29 * M + m))) (helpDeq (Z.of_nat k) p) w.
Proof.
  intros Han Htr Hk Hbd HQ.
  apply (wp_loop USp proto pg t _ (λ b _ w', ∃ M, b = Steps (4 + (29 * M + m)) ∧ rely w w' ∧
    bounded k i M w')); [|clear - Han Htr|by exists M].
  2:{ intros b [] w1 w2 (M1 & -> & HR & Hb) HR2. exists M1. split; [done|].
      split; [etrans; [exact HR|exact HR2]|]. by eapply bounded_stable, Hb; [|eapply tracked_stable]. }
  clear M Hbd. intros b [] w1 (M & -> & HR01 & Hb) HI1. eexists. split; [reflexivity|].
  pose proof (wfq_announced_stable _ _ _ _ HR01 Han) as Han1.
  pose proof (tracked_stable _ _ _ _ _ _ _ HR01 Han Htr) as Htr1.
  assert (∀ s w', rely w1 w' → Inv w' → over k i w' → m ≤ s → wp Q (Steps s) (Ret tt) w') as Hexit.
  { intros s w' HR' HI' Ho Hs. apply wp_give_up with (m := m); [done|]. apply wp_ret.
    intros w2 HR2 HI2. apply HQ; [by repeat (etrans; [eassumption|])|done|by eapply wfq_over_stable]. }
  apply wp_bind. eapply wp_isStillPending; [done..| |].
  { intros w2 HR2 HI2 Ho. apply wp_ret. intros w3 HR3 HI3.
    apply Hexit; [by etrans|done|by eapply wfq_over_stable|lia]. }
  intros w2 w3 HR2 HI2 Hac2 HR3 HI3.
  pose proof (bounded_stable _ _ _ _ _ _ _ HR2 Htr1 Hb) as Hb2.
  destruct M as [|M]; [specialize (Hb2 Hac2); lia|].
  pose proof (tracked_stable _ _ _ _ _ _ _ HR2 Han1 Htr1) as Htr2.
  pose proof (wfq_announced_stable _ _ _ _ HR2 Han1) as Han2.
  match goal with |- wp ?F _ _ _ => set (F' := F) end.
  assert (∀ s w', rely w2 w' → Inv w' → (active k i w' → moved k w2 w') → 4 + (29 * M + m) ≤ s →
    wp F' (Steps s) (Ret (inl tt)) w') as Hcont.
  { intros s w' HR' HI' Hmv Hs. apply wp_give_up with (m := 4 + (29 * M + m)); [done|].
    apply wp_ret. intros w4 HR4 HI4. exists M. split; [done|].
    split; [by repeat (etrans; [eassumption|])|].
    eapply bounded_stable; [exact HR4|eapply tracked_stable; [exact HR'|done|done]|].
    by eapply bounded_step. }
  replace (29 * S M + m) with (4 + (21 + (4 + (29 * M + m)))) by lia.
  wp_go wp_load as w4 HR4 HI4. destruct (i_head _ _ _ HI4) as (first & v & -> & Hfirst).
  set (j := frontw w4) in *. assert (rely w2 w4) as HR24 by (etrans; [exact HR3|exact HR4]).
  destruct (grows _ _ _ _ HR24) as (_ & _ & Hf4 & Hb4 & _). pose proof (i_pos _ _ _ HI4) as Hpos4.
  wp_go wp_load as w5 HR5 HI5. destruct (i_tail _ _ _ HI5) as (last & v5 & -> & Hlast).
  set (jt := backw w5) in *. pose proof (wfq_pos_stable _ _ _ _ HR5 _ _ _ Hfirst) as Hfirst5.
  destruct (grows _ _ _ _ HR5) as (_ & _ & Hf5 & Hb5 & _).
  wp_go wp_load_at as w6 HR6 HI6. pose proof (wfq_pos_stable _ _ _ _ HR6 _ _ _ Hfirst5) as Hfirst6.
  destruct (pos_node _ _ _ _ _ _ HI6 Hfirst6) as (x & Hx & _ & Hnx & _). exists x. split; [done|].
  rewrite Hnx. destruct (grows _ _ _ _ HR6) as (_ & _ & Hf6 & Hb6 & _).
  assert (rely w2 w6) as HR26 by (etrans; [exact HR24|]; etrans; [exact HR5|exact HR6]).
  wp_go wp_load as w7 HR7 HI7. destruct (i_head _ _ _ HI7) as (l7 & v7 & -> & Hl7).
  pose proof (wfq_pos_stable _ _ _ _ HR7 _ _ _ Hfirst6) as Hfirst7.
  destruct (grows _ _ _ _ HR7) as (Hl7' & _ & Hf7 & Hb7 & _).
  assert (rely w2 w7) as HR27 by (etrans; [exact HR26|exact HR7]).
  case_decide as Hdec.
  2:{ apply Hcont; [done|done| |lia]. intros _. right. right. right. left.
      enough (frontw w7 ≠ j) by lia. intros Hfj. apply Hdec. rewrite Hfj in Hl7.
      by destruct (wfq_pos_fun _ _ _ _ _ _ Hl7 Hfirst7) as [-> _]. }
  injection Hdec as <-. assert (frontw w7 = j) as Hfj by exact (wfq_pos_inj _ _ _ _ _ _ _ _ HI7 Hl7 Hfirst7).
  case_decide as Heq.
  - injection Heq as <-. assert (j = jt) as Hjt by exact (wfq_pos_inj _ _ _ _ _ _ _ _ HI5 Hfirst5 Hlast).
    apply wp_bind. destruct (succ j w6) as [N|] eqn:HN.
    + apply wfq_succ_at in HN as [u HN]. apply wfq_pos_lt in HN.
      apply (wp_give_up _ _ _ _ _ _ (11 + (4 + (29 * M + m)))); [lia|].
      apply wp_helpFinishEnq with (L := S (S j)); [lia|].
      intros w8 HR8 HI8 HL. apply Hcont; [by etrans|done| |lia]. intros _. right. left. lia.
    + apply wfq_succ_end in HN. apply (wp_give_up _ _ _ _ _ _ (8 + (4 + (29 * M + m)))); [lia|].
      eapply (wp_helpDeq_empty (i0 := i0) (i := i) _ _ first j v w2 w6); try done; try lia.
  - apply wp_bind. eapply (wp_helpDeq_first (i0 := i0) (i := i) _ _ first v j w2); try done; [lia|..].
    + assert (j ≠ jt) as Hne by (intros Hjt; rewrite <-Hjt in Hlast; destruct (wfq_pos_fun _ _ _ _ _ _ Hfirst5 Hlast); congruence).
      lia.
    + split.
      * intros s w' HR' HI' Hmv Hs. by apply Hcont.
      * intros s w' HR' HI' Ho Hs. apply wp_ret. intros w8 HR8 HI8.
        apply Hexit; [by repeat (etrans; [eassumption|])|done|by eapply wfq_over_stable|lia].
Qed.
End loops.
