(* ===== verification/WfQueueMethods.v ===== *)
(** [wf.Queue]: the methods.

    [maxPhase] and the announcement, the pass [help] over the announce array,
    and [Enqueue], [Dequeue] and [Handle] with what they return. *)

From S2P Require Export WfQueueLoops.
Import WfQueue WfQueueInv.

Section methods.
Context {T : Type} (zero : T) (n : nat).
Abbreviation node := (node T).
Abbreviation mem := (mem T).
Abbreviation qop := (uop (queueOp T)).
Abbreviation qresp := (uresp (resp T)).
Abbreviation USp := (uspec (wf_queue_spec zero) n).
Abbreviation aux := (aux (T:=T)).
Abbreviation world := (world mem qop qresp aux).
Abbreviation Inv := (Inv zero n).
Abbreviation R := (R n).
Abbreviation proto := (queue_protocol zero n).
Abbreviation slot_ok := (slot_ok zero n).
Abbreviation pot := (pot n).
Abbreviation chainw w := (chain (w_aux w)).
Abbreviation claimsw w := (claims (w_aux w)).
Abbreviation frontw w := (front (w_aux w)).
Abbreviation backw w := (back (w_aux w)).
Abbreviation annw w := (ann (w_aux w)).
Abbreviation minew w := (mine (w_aux w)).
Abbreviation todow w := (todo (w_aux w)).
Implicit Types (w : world) (t k i j a h c d : nat) (X : opDesc) (v : T).
Abbreviation free_step := (free_step zero n).
Context (pg : progress) (t : nat).
Abbreviation rely := (R t).
Abbreviation wp := (Logic.wp USp proto pg t).
#[local] Existing Instance wfq_queue_R_order.
Implicit Types (p : Z) (e : bool) (M m : nat).
Abbreviation announced := (announced t).
Abbreviation tracked := (tracked t).

(** ** [help] *)

(** Slot [k] needs no help any more: what is announced there came after the call
    [i0] of [t], and the operation of [t] itself is settled. *)
Definition visited (i0 : nat) k w : Prop :=
  (∀ i, active k i w → i0 < ann_time k w) ∧ (k = t → settled t w).

Lemma wfq_visited_stable i0 p k w w' :
  rely w w' → announced i0 p w → visited i0 k w → visited i0 k w'.
Proof.
  intros HR [Ha Hp] [Hv Hs]. split.
  - intros i Hac. pose proof (on_running _ _ _ (proj1 Ha)). unfold ann_time.
    destruct (r_act _ _ _ _ HR _ _ Hac) as [(Hac0 & -> & _)|[_ (a & h & -> & ?)]]; [|lia].
    by apply Hv in Hac0.
  - intros ->. eapply settled_stable; [exact HR|exact Ha| |by apply Hs].
    eapply own_on_stable; [exact HR|apply Ha].
Qed.

Definition slot_steps : nat := 9 + 29 * S (max_pot n).

(** One slot of [help]. *)
Lemma wp_help {i0 p} (Q : budget → unit → world → Prop) m w :
  announced i0 p w → t < n →
  (∀ w', rely w w' → Inv w' → (∀ k, k < n → visited i0 k w') → Q (Steps m) tt w') →
  wp Q (Steps (1 + (n * slot_steps + m))) (help n p) w.
Proof.
  intros Han Ht HQ.
  apply (wp_loop USp proto pg t _ (λ b (z : Z) w', ∃ k, z = Z.of_nat k ∧ k ≤ n ∧
    b = Steps (1 + ((n - k) * slot_steps + m)) ∧ rely w w' ∧ ∀ k', k' < k → visited i0 k' w')).
  3:{ exists 0. rewrite Nat.sub_0_r. split_and!; try done; try lia. }
  2:{ intros b z w1 w2 (k & -> & Hk & -> & HR & Hv) HR2. exists k. split_and!; try done; [by etrans|].
      intros k' Hk'. eapply wfq_visited_stable; [exact HR2|by eapply wfq_announced_stable|by apply Hv]. }
  intros b z w1 (k & -> & Hk & -> & HR1 & Hv) HI1. eexists. split; [reflexivity|].
  pose proof (wfq_announced_stable _ _ _ _ _ _ HR1 Han) as Han1.
  case_bool_decide as Hin.
  2:{ apply wp_give_up with (m := m); [lia|]. apply wp_ret. intros w2 HR2 HI2.
      apply wp_ret. intros w3 HR3 HI3. assert (rely w1 w3) as HR13 by (etrans; [exact HR2|exact HR3]).
      apply HQ; [by etrans|done|]. intros k' Hk'.
      eapply wfq_visited_stable; [exact HR13|done|]. apply Hv. lia. }
  assert (k < n) as Hkn by lia.
  match goal with |- wp ?F _ _ _ => set (F' := F) end.
  assert (∀ s w', rely w1 w' → Inv w' → visited i0 k w' → 1 + ((n - S k) * slot_steps + m) ≤ s →
    wp F' (Steps s) (Ret (inl (Z.of_nat k + 1)%Z)) w') as Hnext.
  { intros s w' HR' HI' Hvk Hs. apply wp_give_up with (m := 1 + ((n - S k) * slot_steps + m)); [done|].
    apply wp_ret. intros w2 HR2 HI2. exists (S k). split; [lia|]. split; [lia|]. split; [done|].
    split; [by repeat (etrans; [eassumption|])|]. intros k' Hk'.
    eapply wfq_visited_stable; [exact HR2|by eapply wfq_announced_stable|].
    destruct (decide (k' = k)) as [->|]; [done|].
    eapply wfq_visited_stable; [exact HR'|done|]. apply Hv. lia. }
  replace ((n - k) * slot_steps + m) with (4 + ((4 + 29 * S (max_pot n)) + (1 + ((n - S k) * slot_steps + m))))
    by (replace (n - k) with (S (n - S k)) by lia; rewrite (Nat.mul_succ_l (n - S k));
        generalize ((n - S k) * slot_steps); unfold slot_steps; lia).
  wp_go wp_load_idx as w2 HR2 HI2.
  destruct (slot_desc _ _ _ _ HI2 Hkn) as (c & X & Hc & HX & HXk). exists (Some c). split; [done|].
  pose proof (wfq_announced_stable _ _ _ _ _ _ HR2 Han1) as Han2.
  assert (∀ s w', rely w2 w' → Inv w' → visited i0 k w2 → 1 + ((n - S k) * slot_steps + m) ≤ s →
    wp F' (Steps s) (Ret (inl (Z.of_nat k + 1)%Z)) w') as Hskip.
  { intros s w' HR' HI' Hvk Hs. apply Hnext; [by etrans|done| |done]. by eapply wfq_visited_stable. }
  wp_go wp_load_at as w3 HR3 HI3. exists X. split; [exact (desc_stable _ _ _ _ HR3 _ _ HX)|].
  destruct (od_pending X) eqn:Hpd.
  2:{ apply Hskip; [done|done| |lia]. split.
      - intros i Hac. exfalso. eapply settled_waiting; [by exists X|apply Hac].
      - intros ->. by exists X. }
  wp_go wp_load_at as w4 HR4 HI4. assert (rely w2 w4) as HR24 by (etrans; [exact HR3|exact HR4]).
  exists X. split; [exact (desc_stable _ _ _ _ HR24 _ _ HX)|].
  destruct (decide (annw w2 !! k = None)) as [Hn|[[a h] Ha]%not_eq_None_Some].
  { pose proof (unannounced_settled _ _ _ _ _ HI2 Hkn HXk Hn). congruence. }
  destruct (ann_slot _ _ _ _ _ _ HI2 Ha) as (X' & i & o & lo & lin & HX' & Hon & Hg & Hi & _ & Hs & _).
  assert (X' = X) as -> by congruence.
  destruct Han2 as [Hown Hp]. pose proof Hown as [_ [[at_ ht] Hat]].
  destruct (ann_slot _ _ _ _ _ _ HI2 Hat) as (Xt & it & ot & lot & lint & HXt & Hont & Hgt & Hit & _ & Hst & _).
  rewrite (phase_desc _ _ _ HXt) in Hp. rewrite (on_fun _ _ _ _ (proj1 Hont) (proj1 Hown)) in *.
  case_bool_decide as Hph.
  2:{ apply Hskip; [done|done| |lia]. split.
      - intros i' _. unfold ann_time. rewrite Ha. enough (¬ a ≤ i0) by lia. intros Hle.
        pose proof (i_late _ _ _ HI2 _ _ _ _ _ _ _ _ Hgt Ha Hle) as Hl.
        rewrite (phase_desc _ _ _ HXk) in Hl. specialize (Hst k). lia.
      - intros ->. assert (Xt = X) as -> by congruence. lia. }
  wp_go wp_load_at as w5 HR5 HI5. assert (rely w2 w5) as HR25 by (etrans; [exact HR24|exact HR5]).
  exists X. split; [exact (desc_stable _ _ _ _ HR25 _ _ HX)|].
  assert (tracked p k i (enqueue X) w2) as Htr.
  { split; [by eapply on_running, Hon|]. split.
    - intros _. rewrite (phase_desc _ _ _ HXk), HXk. split_and!; done.
    - intros i' Hon'. left. exact (on_fun _ _ _ _ Hon' (proj1 Hon)). }
  assert (bounded n k i (S (max_pot n)) w2) as Hb.
  { intros _. pose proof (i_pot _ _ _ HI2 k ltac:(by eexists) ltac:(by exists X)). lia. }
  assert (announced i0 p w2) as Han2 by (split; [done|by rewrite (phase_desc _ _ _ HXt)]).
  pose proof (wfq_announced_stable _ _ _ _ _ _ HR25 Han2) as Han5.
  pose proof (tracked_stable _ _ _ _ _ _ _ _ _ HR25 Han2 Htr) as Htr5.
  pose proof (bounded_stable _ _ _ _ _ _ _ _ _ HR25 Htr Hb) as Hb5.
  assert (∀ w', rely w5 w' → Inv w' → over k i w' →
    wp F' (Steps (1 + ((n - S k) * slot_steps + m))) (Ret (inl (Z.of_nat k + 1)%Z)) w') as Hdone.
  { intros w' HR' HI' Ho. assert (rely w2 w') as HR2' by (etrans; [exact HR25|exact HR']).
    apply Hnext; [by etrans|done| |done]. split.
    - intros i' Hac'. unfold ann_time.
      destruct (r_act _ _ _ _ HR2' _ _ Hac') as [(Hac & _)|[_ (a' & h' & -> & Hle)]].
      + rewrite (on_fun _ _ _ _ (proj1 (proj1 Hac)) (proj1 Hon)) in Hac'.
        by destruct (over_inactive _ _ _ Ho).
      + pose proof (on_running _ _ _ (proj1 Hown)). lia.
    - intros ->. rewrite (on_fun _ _ _ _ (proj1 Hon) (proj1 Hown)) in Ho.
      apply Ho. eapply own_on_stable; [exact HR2'|apply Hown]. }
  apply wp_bind. destruct (enqueue X) eqn:He.
  - apply (wp_give_up _ _ _ _ _ _ (4 + (24 * S (max_pot n) + (1 + ((n - S k) * slot_steps + m))))); [lia|].
    eapply (wp_helpEnq zero n pg t (i0 := i0) (i := i)); [done..|]. exact Hdone.
  - apply (wp_give_up _ _ _ _ _ _ (4 + (29 * S (max_pot n) + (1 + ((n - S k) * slot_steps + m))))); [lia|].
    eapply (wp_helpDeq zero n pg t (i0 := i0) (i := i)); [done..|]. exact Hdone.
Qed.

(** ** [maxPhase] *)

(** The operation of [t] is called and not announced. *)
Definition ready (o : qop) w : Prop :=
  pending (w_gh w) t o ∧ annw w !! t = None ∧ t ∈ todow w ∧
  ∀ u, (snap (w_aux w) t u ≤ phase_of u w)%Z.

Lemma ready_stable o w w' : rely w w' → ready o w → ready o w'.
Proof.
  intros HR (Hp & Ha & Htd & Hs). split; [eapply pending_quiet; [done|by apply (r_quiet _ _ _ _ HR)]|].
  rewrite (r_ann _ _ _ _ HR), (r_snap _ _ _ _ HR). split; [done|].
  split; [by apply (r_todo _ _ _ _ HR)|]. intros u. etrans; [apply Hs|apply (r_phase _ _ _ _ HR)].
Qed.

(** [x] is an upper bound of the phases of the first [k] slots at the call, and
    not above all of the present ones. *)
Definition scanned (k : nat) (x : Z) w : Prop :=
  (∀ u, u < k → (snap (w_aux w) t u ≤ x)%Z) ∧ (-1 ≤ x)%Z ∧ ∃ u, (x ≤ phase_of u w)%Z.

Lemma scanned_stable k x w w' : rely w w' → scanned k x w → scanned k x w'.
Proof.
  intros HR (Hs & Hx & u & Hu). rewrite <-(r_snap _ _ _ _ HR) in Hs. split; [done|]. split; [done|].
  exists u. etrans; [exact Hu|apply (r_phase _ _ _ _ HR)].
Qed.

Lemma wp_maxPhase {o} (Q : budget → Z → world → Prop) m w :
  ready o w → Inv w →
  (∀ w' x, rely w w' → Inv w' → scanned n x w' → Q (Steps m) x w') →
  wp Q (Steps (1 + (3 * n + m))) (maxPhase n) w.
Proof.
  intros Hr HI HQ.
  apply (wp_loop USp proto pg t _ (λ b z w', ∃ k x, z = (Z.of_nat k, x) ∧ k ≤ n ∧
    b = Steps (1 + (3 * (n - k) + m)) ∧ rely w w' ∧ scanned k x w')).
  3:{ exists 0, (-1)%Z. rewrite Nat.sub_0_r. split_and!; try done; try lia.
      split; [intros; lia|]. split; [done|]. exists 0. apply (i_phase _ _ _ HI). }
  2:{ intros b z w1 w2 (k & x & -> & Hk & -> & HR & Hs) HR2. exists k, x.
      split_and!; try done; [by etrans|by eapply scanned_stable]. }
  intros b z w1 (k & x & -> & Hk & -> & HR1 & Hs) HI1. eexists. split; [reflexivity|].
  cbn beta iota. case_bool_decide as Hin.
  - replace (3 * (n - k) + m) with (2 + (1 + (3 * (n - S k) + m))) by lia.
    pose proof (ready_stable _ _ _ HR1 Hr) as Hr1.
    wp_go wp_load_idx as w2 HR2 HI2.
    destruct (slot_desc _ _ k _ HI2) as (c & X & Hc & HX & HXk); [lia|]. exists (Some c). split; [done|].
    pose proof (ready_stable _ _ _ HR2 Hr1) as (_ & _ & _ & Hs2).
    pose proof (scanned_stable _ _ _ _ HR2 Hs) as (Hx & Hx1 & u & Hu).
    wp_go wp_load_at as w3 HR3 HI3. exists X. split; [exact (desc_stable _ _ _ _ HR3 _ _ HX)|].
    apply wp_ret. intros w4 HR4 HI4. eexists (S k), _. split; [f_equal; lia|]. split; [lia|].
    split; [done|]. split; [by repeat (etrans; [eassumption|])|].
    eapply scanned_stable; [etrans; [exact HR3|exact HR4]|].
    pose proof (Hs2 k) as Hsk. rewrite (phase_desc _ _ _ HXk) in Hsk.
    split; [|case_bool_decide; (split; [lia|])].
    + intros j Hj. destruct (decide (j = k)) as [->|]; [case_bool_decide; lia|].
      specialize (Hx j ltac:(lia)). case_bool_decide; lia.
    + exists k. by rewrite (phase_desc _ _ _ HXk).
    + by exists u.
  - assert (k = n) as -> by lia. replace (n - n) with 0 by lia. apply wp_ret. intros w2 HR2 HI2.
    apply wp_ret. intros w3 HR3 HI3. assert (rely w1 w3) as HR13 by (etrans; [exact HR2|exact HR3]).
    apply HQ; [by etrans|done|by eapply scanned_stable].
Qed.

(** ** The announcement *)

(** What [maxPhase + 1] is good for. *)
Lemma scanned_phase o x w :
  Inv w → ready o w → scanned n x w → i64 (x + 1) = (x + 1)%Z ∧ (0 ≤ x + 1)%Z ∧
  (∀ u, (snap (w_aux w) t u < x + 1)%Z) ∧ ∃ u, (x + 1 ≤ phase_of u w + 1)%Z.
Proof.
  intros HI (_ & _ & _ & Hs) (Hx & Hx1 & u & Hu). destruct (i_phase _ _ _ HI u) as [_ Hb].
  destruct (i_limit _ _ _ HI) as [_ Hl]. split; [apply i64_small; lia|]. split; [lia|]. split.
  - intros j. destruct (decide (j < n)) as [Hj|Hj]; [specialize (Hx j Hj); lia|].
    specialize (Hs j). unfold phase_of, desc_of in Hs.
    rewrite lookup_ge_None_2 in Hs by (rewrite (i_state _ _ _ HI); lia). lia.
  - exists u. lia.
Qed.

(** After the announcement of operation [i0]. *)
Definition under_way (i0 : nat) (o : queueOp T) p w : Prop :=
  announced i0 p w ∧ (∃ lo, running t i0 (UApply t o) lo w) ∧ t ∉ todow w.

Lemma under_way_stable i0 o p w w' : rely w w' → under_way i0 o p w → under_way i0 o p w'.
Proof.
  intros HR (Ha & (lo & Hi & lin & Hg) & Htd). split; [by eapply wfq_announced_stable|]. split.
  - destruct (r_helped _ _ _ _ HR) as [_ Hh]. rewrite Hg in Hh.
    destruct Hh as ([i' o' lo' lin'] & Hg' & ? & ? & ? & _). simpl in *. subst.
    exists lo. split; [|by exists lin']. pose proof (r_now _ _ _ _ HR). lia.
  - by rewrite (r_todo _ _ _ _ HR).
Qed.

Lemma wp_announce {o} (Q : budget → unit → world → Prop) m d X x w :
  ready (UApply t o) w → scanned n x w → descs (w_mem w) !! d = Some X → phase X = (x + 1)%Z →
  (∀ w', rely w w' → Inv w' → fresh_desc t o X w') →
  (∀ i0 w', under_way i0 o (x + 1) w' → Inv w' → Q (Steps m) tt w') →
  wp Q (Steps (S m)) (act (store_idx state_f (Z.of_nat t) (Some d))) w.
Proof.
  intros Hr Hs HX Hph Hfr HQ. wp_go wp_store_idx as w1 HR1 HI1.
  pose proof (ready_stable _ _ _ HR1 Hr) as Hr1. pose proof (scanned_stable _ _ _ _ HR1 Hs) as Hs1.
  destruct (scanned_phase _ _ _ HI1 Hr1 Hs1) as (_ & H0 & Hsn & Hmax).
  destruct Hr1 as (Hp & Ha & Htd & _). pose proof Hp as (i0 & lo & Hg & _).
  assert (t < n) as Ht by by eapply (i_uop _ _ _ HI1).
  split; [simpl; by rewrite (i_state _ _ _ HI1)|].
  exists [], (announce t (g_now (w_gh w1)) (w_aux w1)).
  pose proof (desc_stable _ _ _ _ HR1 _ _ HX) as HX1. rewrite <-Hph in H0, Hsn, Hmax.
  pose proof (wfq_announce_step zero n t d o X w1 HI1 Hp Ha Htd HX1 (Hfr _ HR1 HI1) H0 Hsn Hmax) as Hst.
  split; [exact Hst|]. apply wp_ret. intros w2 HR2 HI2. apply (HQ i0); [|done].
  eapply under_way_stable; [exact HR2|].
  assert (running t i0 (UApply t o) lo (upd USp w1 (f_set state_f (<[t := Some d]> (f_get state_f (w_mem w1))) (w_mem w1)) []
    (announce t (g_now (w_gh w1)) (w_aux w1)))) as Hrun.
  { split; [by apply (i_ids _ _ _ HI1 _ _ Hg)|by exists None]. }
  split; [split|].
  - split; [by eexists _, _|]. simpl. rewrite lookup_insert_eq. by eexists.
  - rewrite <-Hph. apply (phase_desc t X). eapply desc_at; [|exact HX1]. simpl.
    apply list_lookup_insert_eq. by rewrite (i_state _ _ _ HI1).
  - split; [by exists lo|]. simpl. set_solver.
Qed.

(** ** Returning *)

(** The slot of [t] when its operation is settled. *)
Lemma own_slot i0 o p w :
  Inv w → under_way i0 o p w → t < n → settled t w → ∃ X a h, desc_of t w = Some X ∧
    od_pending X = false ∧ annw w !! t = Some (a, h) ∧ op_ok zero n t h o X w.
Proof.
  intros HI ([[_ [[a h] Ha]] _] & (lo & _ & lin & Hg) & _) Ht (X & HX & Hpd).
  destruct (ann_slot _ _ _ _ _ _ HI Ha) as (X' & i & o' & lo' & lin' & HX' & _ & Hg' & _ & _ & _ & Ho).
  assert (X' = X) as -> by congruence. assert (o' = o) as -> by congruence.
  by exists X, a, h.
Qed.

Lemma post_return b i0 o p r w :
  Inv w → under_way i0 o p w → t < n → (∀ k, k < n → visited i0 k w) →
  (∀ N, minew w !! t = Some N → past N w) → claimsw w !! frontw w ≠ Some t →
  (∃ pd, g_thr (w_gh w) !! t = Some pd ∧ ret_ok USp (w_gh w) pd r) →
  post USp proto t b r w.
Proof.
  intros HI (_ & (lo & Hrun) & Htd) Ht Hv Hpast Hf (pd & Hpd & Hret). exists pd. split; [done|].
  split; [done|]. exists (returned t (w_aux w)).
  apply (wfq_return_step zero n t i0 r w HI); try done.
  - by exists (UApply t o), lo.
  - intros _. by apply (Hv t Ht).
  - intros k i u o' lo' _ Hac. apply (Hv k) with (i := i); [|done].
    apply (i_ann _ _ _ HI), Hac.
Qed.

Lemma enq_return b i0 v p w :
  Inv w → under_way i0 (enqueueOp v) p w → t < n → (∀ k, k < n → visited i0 k w) →
  (∀ N, minew w !! t = Some N → past N w) → post USp proto t b (RApply RDone) w.
Proof.
  intros HI Hu Ht Hv Hpast. assert (settled t w) as Hset by by apply (Hv t Ht).
  destruct (own_slot _ _ _ _ HI Hu Ht Hset) as (X & a & h & _ & Hpd & _ & _ & N & _ & _ & Ho).
  eapply post_return; try done.
  - intros Hc. destruct (i_claimed _ _ _ HI _ Hc) as (? & ? & ? & ? & ? & _ & _ & Hg).
    destruct Hu as (_ & (lo & _ & lin & Hg') & _). congruence.
  - destruct Ho as [(_ & ? & _)|(_ & Hf & _)]; [congruence|]. by eapply finished_ret_ok.
Qed.

(** What a settled dequeue found: nothing, or the value behind node [F]. *)
Definition dequeued X (r : qresp) w : Prop :=
  match od_node X with
  | None => r = RApply (RVal zero false)
  | Some F => ∃ j v l u, at_pos j F v w ∧ at_pos (S j) l u w ∧ r = RApply (RVal u true)
  end.

Lemma deq_claimed i0 p X w :
  Inv w → under_way i0 dequeueOp p w → t < n → desc_of t w = Some X → od_pending X = false →
  ∀ F, od_node X = Some F → ∃ j v l u, at_pos j F v w ∧ claimsw w !! j = Some t ∧
    at_pos (S j) l u w ∧ finished (w_gh w) t (RApply (RVal u true)) ∧
    (claimsw w !! frontw w = Some t → j = frontw w).
Proof.
  intros HI Hu Ht HX Hpd F HF.
  destruct (own_slot _ _ _ _ HI Hu Ht) as (X' & a & h & HX' & _ & _ & Ho); [by exists X|].
  assert (X' = X) as -> by congruence. destruct Ho as (_ & _ & Hh & Ho). rewrite HF in Ho.
  destruct Ho as (j & v & Hj & _ & _ & _ & Hnc & [(_ & ? & _)|(Hc & (l & u & Hl & Hf) & _)]); [congruence|].
  exists j, v, l, u. split_and!; try done. intros Hcf.
  destruct (decide (j = frontw w)) as [|Hne]; [done|]. destruct (Hnc (frontw w)); [lia|lia|done].
Qed.

Lemma deq_return b i0 p X r w :
  Inv w → under_way i0 dequeueOp p w → t < n → (∀ k, k < n → visited i0 k w) →
  desc_of t w = Some X → od_pending X = false → dequeued X r w →
  (∀ j F v, od_node X = Some F → at_pos j F v w → j < frontw w) →
  post USp proto t b r w.
Proof.
  intros HI Hu Ht Hv HX Hpd Hr Hfr.
  destruct (own_slot _ _ _ _ HI Hu Ht) as (X' & a & h & HX' & _ & _ & Ho); [by exists X|].
  assert (X' = X) as -> by congruence. destruct Ho as (_ & Hm & Hh & Ho). unfold dequeued in Hr.
  eapply post_return; try done.
  - intros N. congruence.
  - intros Hc. destruct (od_node X) as [F|] eqn:HF.
    + destruct (deq_claimed _ _ _ _ HI Hu Ht HX Hpd F HF) as (j & v & _ & _ & Hj & _ & _ & _ & Hjf).
      specialize (Hfr j F v eq_refl Hj). specialize (Hjf Hc). lia.
    + by destruct (proj1 Ho _ Hh).
  - destruct (od_node X) as [F|] eqn:HF.
    + destruct Hr as (j & v & l & u & Hj & Hl & ->).
      destruct (deq_claimed _ _ _ _ HI Hu Ht HX Hpd F HF) as (j' & v' & l' & u' & Hj' & _ & Hl' & Hf & _).
      rewrite (wfq_pos_inj _ _ _ _ _ _ _ _ HI Hj' Hj) in Hl'. destruct (wfq_pos_fun _ _ _ _ _ _ Hl Hl') as [_ ->].
      by eapply finished_ret_ok.
    + subst r. destruct Ho as [_ [(? & _)|(_ & Hobs)]]; [congruence|]. by eapply observed_ret_ok.
Qed.

(** ** [Enqueue] *)

(** The node of the enqueue before its announcement. *)
Definition node_ready (l : loc) w : Prop :=
  annw w !! t = None ∧ minew w !! t = Some l ∧
  ∃ x, nodes (w_mem w) !! l = Some x ∧ deqTid x = noTid.

Lemma node_ready_stable l w w' : rely w w' → node_ready l w → node_ready l w'.
Proof.
  intros HR (Ha & Hm & x & Hx & Hd). destruct (r_mine _ _ _ _ HR) as [Hm' Hn].
  split; [by rewrite (r_ann _ _ _ _ HR)|]. split; [congruence|]. exists x.
  split; [|done]. by rewrite (Hn Ha l Hm).
Qed.

Lemma wp_newNode (Q : budget → loc → world → Prop) m v x w :
  ready (UApply t (enqueueOp v)) w → scanned n x w →
  (∀ w' l, ready (UApply t (enqueueOp v)) w' → scanned n x w' → Inv w' → node_ready l w' →
     Q (Steps m) l w') →
  wp Q (Steps (2 + m)) (newNode v (Z.of_nat t)) w.
Proof.
  intros Hr Hs HQ. wp_go wp_new as w1 HR1 HI1.
  pose proof (ready_stable _ _ _ HR1 Hr) as Hr1. pose proof (scanned_stable _ _ _ _ HR1 Hs) as Hs1.
  pose proof Hr1 as (Hp & Ha & _).
  exists [], (set_mine t (length (nodes (w_mem w1))) (w_aux w1)).
  split; [by apply (newnode_step zero n t v w1)|].
  match goal with |- wp _ _ _ ?w => set (w2 := w) end.
  assert (ready (UApply t (enqueueOp v)) w2) as Hr2 by exact Hr1.
  assert (scanned n x w2) as Hs2 by exact Hs1.
  assert (minew w2 !! t = Some (length (nodes (w_mem w1)))) as Hm2 by (simpl; by rewrite lookup_insert_eq).
  assert (nodes (w_mem w2) !! length (nodes (w_mem w1)) = Some (Node v None (Z.of_nat t) 0)) as Hx2
    by apply lookup_snoc_eq.
  wp_go wp_store_at as w3 HR3 HI3. destruct (r_mine _ _ _ _ HR3) as [Hm3 Hn3].
  pose proof (ready_stable _ _ _ HR3 Hr2) as Hr3. pose proof (scanned_stable _ _ _ _ HR3 Hs2) as Hs3.
  eexists _, [], (w_aux w3). split; [rewrite Hn3; [exact Hx2|exact Ha|exact Hm2]|].
  split.
  - apply (initnode_step zero n t _ _ w3 HI3); [exact (eq_trans Hm3 Hm2)|apply Hr3|].
    rewrite Hn3; [exact Hx2|exact Ha|exact Hm2].
  - match goal with |- wp _ _ _ ?w => set (w4 := w) end.
    assert (node_ready (length (nodes (w_mem w1))) w4) as Hnr.
    { split; [apply Hr3|]. split; [exact (eq_trans Hm3 Hm2)|]. eexists.
      split; [apply list_lookup_insert_eq; eapply lookup_lt_Some|done].
      simpl. rewrite Hn3; [exact Hx2|exact Ha|exact Hm2]. }
    assert (ready (UApply t (enqueueOp v)) w4) as Hr4 by exact Hr3.
    assert (scanned n x w4) as Hs4 by exact Hs3.
    apply wp_ret. intros w5 HR5 HI5.
    apply HQ; [by eapply ready_stable|by eapply scanned_stable|done|by eapply node_ready_stable].
Qed.

Definition op_steps : nat := 1 + (3 * n + (5 + (n * slot_steps + 15))).

Lemma wp_Enqueue v w :
  ready (UApply t (enqueueOp v)) w → Inv w → t < n →
  wp (post USp proto t) (Steps op_steps) (Enqueue n t v) w.
Proof.
  intros Hr HI Ht. unfold Enqueue, enq. rewrite !bind_bind. apply wp_bind.
  eapply wp_maxPhase; [done..|]. intros w1 x HR1 HI1 Hs1.
  pose proof (ready_stable _ _ _ HR1 Hr) as Hr1.
  destruct (scanned_phase _ _ _ HI1 Hr1 Hs1) as (-> & _).
  rewrite bind_bind. apply wp_bind.
  apply (wp_newNode _ (3 + (n * slot_steps + 15)) v x); [done..|].
  intros w2 l Hr2 Hs2 HI2 Hn2. rewrite bind_bind. apply wp_new_desc. intros w3 d HR3 HI3 Hd3.
  cbn [bind]. rewrite bind_bind. apply wp_bind.
  eapply wp_announce; [by eapply ready_stable|by eapply scanned_stable|done|done|..].
  { intros w4 HR4 HI4. split; [done|]. split; [done|].
    assert (node_ready l w4) as (_ & Hm & y & Hy & Hdy).
    { eapply node_ready_stable; [exact HR4|]. by eapply node_ready_stable. }
    by exists l, y. }
  intros i0 w4 Hu4 HI4. apply wp_bind.
  replace (n * slot_steps + 15) with (n * slot_steps + (11 + 4)) by lia. apply wp_bind.
  apply (wp_help (i0 := i0) (p := (x + 1)%Z)); [apply Hu4|done|].
  intros w5 HR5 HI5 Hv5.
  apply wp_helpFinishEnq with (L := length (chainw w5)); [done|].
  intros w6 HR6 HI6 HL. apply wp_ret. intros w7 HR7 HI7.
  pose proof (under_way_stable _ _ _ _ _ HR5 Hu4) as Hu5.
  assert (rely w5 w7) as HR57 by (etrans; [exact HR6|exact HR7]).
  eapply enq_return; [done|by eapply under_way_stable|done|..].
  - intros k Hk. eapply wfq_visited_stable; [exact HR57|apply Hu5|by apply Hv5].
  - destruct (r_mine _ _ _ _ HR57) as [-> _]. intros N HN.
    assert (settled t w5) as Hset by by apply (Hv5 t Ht).
    destruct (own_slot _ _ _ _ HI5 Hu5 Ht Hset) as (X & a & h & _ & Hpd & _ & _ & M & _ & HM & Ho).
    assert (M = N) as -> by congruence.
    destruct Ho as [(_ & ? & _)|(Hl & _ & _)]; [congruence|].
    apply wfq_linked_pos in Hl as (j & u & Hj). exists j, u.
    split; [exact (wfq_pos_stable _ _ _ _ HR57 _ _ _ Hj)|]. pose proof (wfq_pos_lt _ _ _ _ Hj).
    destruct (grows _ _ _ _ HR7) as (_ & _ & _ & ? & _). lia.
Qed.

(** ** [Dequeue] *)

(** The value that a settled dequeue returns, and the return. *)
Lemma wp_dequeued i0 p w :
  under_way i0 dequeueOp p w → t < n → (∀ k, k < n → visited i0 k w) → Inv w →
  (∀ X, desc_of t w = Some X → ∀ j F v, od_node X = Some F → at_pos j F v w → j < frontw w) →
  wp (post USp proto t) (Steps 4)
    (let! d := act (load_idx state (Z.of_nat t)) in
     let! nd := act (load_ptr descs d od_node) in
     match nd with
     | None => Ret (RApply (RVal zero false))
     | Some _ =>
         let! nx := act (load_ptr nodes nd next) in
         let! v := act (load_ptr nodes nx value) in
         Ret (RApply (RVal v true))
     end) w.
Proof.
  intros Hu Ht Hv HI Hfr. assert (settled t w) as (X & HX & Hpd) by by apply (Hv t Ht).
  specialize (Hfr X HX).
  assert (∀ w' r b, rely w w' → Inv w' → dequeued X r w' → post USp proto t b r w') as Hret.
  { intros w' r b HR HI' Hr. eapply deq_return; [done|by eapply under_way_stable|done|..|done|exact Hr|].
    - intros k Hk. eapply wfq_visited_stable; [exact HR|apply Hu|by apply Hv].
    - by apply (r_own _ _ _ _ HR).
    - intros j F v HF Hj. destruct (deq_claimed _ _ _ _ HI Hu Ht HX Hpd F HF) as (j' & v' & _ & _ & Hj' & _).
      rewrite (wfq_pos_inj _ _ _ _ _ _ _ _ HI' Hj (wfq_pos_stable _ _ _ _ HR _ _ _ Hj')).
      destruct (grows _ _ _ _ HR) as (_ & _ & ? & _). specialize (Hfr _ _ _ HF Hj'). lia. }
  wp_go wp_load_idx as w1 HR1 HI1. pose proof (r_own _ _ _ _ HR1 _ HX Hpd) as HX1.
  destruct (slot_desc _ _ _ _ HI1 Ht) as (c & X1 & Hc & HXc & HXt). exists (Some c). split; [done|].
  assert (X1 = X) as -> by congruence.
  wp_go wp_load_at as w2 HR2 HI2. exists X. split; [exact (desc_stable _ _ _ _ HR2 _ _ HXc)|].
  assert (rely w w2) as HRw2 by (etrans; [exact HR1|exact HR2]).
  destruct (od_node X) as [F|] eqn:HF.
  - destruct (deq_claimed _ _ _ _ HI Hu Ht HX Hpd F HF) as (j & v & l & u & Hj & _ & Hl & _).
    wp_go wp_load_at as w3 HR3 HI3. assert (rely w w3) as HRw3 by (etrans; [exact HRw2|exact HR3]).
    pose proof (wfq_pos_stable _ _ _ _ HRw3 _ _ _ Hj) as Hj3. pose proof (wfq_pos_stable _ _ _ _ HRw3 _ _ _ Hl) as Hl3.
    destruct (pos_node _ _ _ _ _ _ HI3 Hj3) as (x & Hx & _ & Hnx & _). exists x. split; [done|].
    assert (succ j w3 = Some l) as Hsl by (apply wfq_succ_at; eauto). rewrite Hnx, Hsl.
    wp_go wp_load_at as w4 HR4 HI4. assert (rely w w4) as HRw4 by (etrans; [exact HRw3|exact HR4]).
    pose proof (wfq_pos_stable _ _ _ _ HR4 _ _ _ Hl3) as Hl4.
    destruct (pos_node _ _ _ _ _ _ HI4 Hl4) as (y & Hy & Hvy & _). exists y. split; [done|]. rewrite Hvy.
    apply wp_ret. intros w5 HR5 HI5. assert (rely w w5) as HRw5 by (etrans; [exact HRw4|exact HR5]).
    apply Hret; [done|done|]. unfold dequeued. rewrite HF. exists j, v, l, u.
    split_and!; [exact (wfq_pos_stable _ _ _ _ HRw5 _ _ _ Hj)|exact (wfq_pos_stable _ _ _ _ HRw5 _ _ _ Hl)|done].
  - apply wp_ret. intros w3 HR3 HI3. apply Hret; [by etrans|done|]. unfold dequeued. by rewrite HF.
Qed.

Lemma wp_Dequeue w :
  ready (UApply t dequeueOp) w → minew w !! t = None → Inv w → t < n →
  wp (post USp proto t) (Steps op_steps) (Dequeue zero n t) w.
Proof.
  intros Hr Hm HI Ht. unfold Dequeue, deq. rewrite !bind_bind. apply wp_bind.
  eapply wp_maxPhase; [done..|]. intros w1 x HR1 HI1 Hs1.
  pose proof (ready_stable _ _ _ HR1 Hr) as Hr1.
  destruct (scanned_phase _ _ _ HI1 Hr1 Hs1) as (-> & _).
  apply (wp_give_up _ _ _ _ _ _ (3 + (n * slot_steps + 15))); [lia|].
  rewrite bind_bind. apply wp_new_desc. intros w3 d HR3 HI3 Hd3.
  cbn [bind]. rewrite bind_bind. apply wp_bind.
  assert (minew w3 !! t = None) as Hm3.
  { by rewrite (proj1 (r_mine _ _ _ _ HR3)), (proj1 (r_mine _ _ _ _ HR1)). }
  eapply wp_announce; [by eapply ready_stable|by eapply scanned_stable|done|done|..].
  { intros w4 HR4 HI4. split; [done|]. split; [done|]. split; [done|].
    by rewrite (proj1 (r_mine _ _ _ _ HR4)). }
  intros i0 w4 Hu4 HI4.
  replace (n * slot_steps + 15) with (n * slot_steps + (11 + 4)) by lia.
  rewrite bind_bind. apply wp_bind.
  apply (wp_help (i0 := i0) (p := (x + 1)%Z)); [apply Hu4|done|].
  intros w5 HR5 HI5 Hv5. rewrite bind_bind. apply wp_bind.
  apply wp_helpFinishDeq with (C := length (claimsw w5)); [done|].
  intros w6 HR6 HI6 HC. pose proof (under_way_stable _ _ _ _ _ HR5 Hu4) as Hu5.
  pose proof (under_way_stable _ _ _ _ _ HR6 Hu5) as Hu6.
  match goal with |- wp _ _ ?q _ => enough (q = (let! d := act (load_idx state (Z.of_nat t)) in
     let! nd := act (load_ptr descs d od_node) in
     match nd with
     | None => Ret (RApply (RVal zero false))
     | Some _ =>
         let! nx := act (load_ptr nodes nd next) in
         let! v := act (load_ptr nodes nx value) in
         Ret (RApply (RVal v true))
     end)) as -> end.
  2:{ cbn [bind act]. apply Act_ext. intros d'. apply Act_ext. by intros [?|]. }
  eapply wp_dequeued; [done|done| |done|].
  - intros k Hk. eapply wfq_visited_stable; [exact HR6|apply Hu5|by apply Hv5].
  - intros X HX j F v HF Hj.
    assert (settled t w5) as (X5 & HX5 & Hpd5) by by apply (Hv5 t Ht).
    pose proof (r_own _ _ _ _ HR6 _ HX5 Hpd5) as HX6. assert (X5 = X) as -> by congruence.
    destruct (deq_claimed _ _ _ _ HI5 Hu5 Ht HX5 Hpd5 F HF) as (j' & v' & _ & _ & Hj' & Hcl & _).
    rewrite (wfq_pos_inj _ _ _ _ _ _ _ _ HI6 Hj (wfq_pos_stable _ _ _ _ HR6 _ _ _ Hj')).
    apply lookup_lt_Some in Hcl. lia.
Qed.

(** ** [Handle] *)

Lemma wp_Handle w :
  ready UHandle w → wp (post USp proto t) (Steps op_steps) (Handle n) w.
Proof.
  intros Hr. apply (wp_give_up _ _ _ _ _ _ 1); [unfold op_steps; lia|].
  wp_go wp_add_i64 as w1 HR1 HI1. pose proof (ready_stable _ _ _ HR1 Hr) as (Hp & Ha & Htd & _).
  pose proof Hp as (i0 & lo & Hg & _).
  destruct (cursor_step zero n t w1 HI1 Hp Htd) as (Hgood & Hc & Hfin).
  exists [t], (leave_todo t (w_aux w1)). split; [exact Hgood|]. simpl f_get in *. rewrite Hc.
  match goal with |- wp _ _ _ ?w => set (w2 := w) in * end.
  assert (∀ b w3, rely w2 w3 → Inv w3 → post USp proto t b (handle_resp n (cursor (w_mem w1))) w3) as Hpost.
  { intros b w3 HR3 HI3. pose proof (finished_helped _ _ _ _ Hfin (r_helped _ _ _ _ HR3)) as Hf3.
    destruct (finished_ret_ok USp _ _ _ Hf3) as (pd & Hpd & Hret). exists pd.
    split; [done|]. split; [done|]. exists (returned t (w_aux w3)).
    assert (∃ lo lin, g_thr (w_gh w3) !! t = Some (Pend i0 UHandle lo lin)) as (lo3 & lin3 & Hg3).
    { destruct (r_helped _ _ _ _ HR3) as [_ Hh]. destruct Hfin as (i2 & o2 & lo2 & Hg2).
      assert (∃ lo lin, g_thr (w_gh w2) !! t = Some (Pend i0 UHandle lo lin)) as (lo' & lin' & Hg').
      { destruct (helped_lin1 USp t t (w_gh w1)) as [_ Hl]. rewrite Hg in Hl.
        destruct Hl as ([i' o' lo' lin'] & Hg' & ? & ? & ? & _). simpl in *. subst. by eexists _, _. }
      rewrite Hg' in Hh. destruct Hh as ([i' o' lo'' lin''] & Hg'' & ? & ? & ? & _). simpl in *. subst.
      by eexists _, _. }
    assert (annw w3 !! t = None) as Ha3 by by rewrite (r_ann _ _ _ _ HR3).
    apply (wfq_return_step zero n t i0 _ w3 HI3).
    - exists UHandle, lo3. by eapply thr_running.
    - rewrite (r_todo _ _ _ _ HR3). simpl. set_solver.
    - intros Ht. destruct (slot_desc _ _ _ _ HI3 Ht) as (c & X & _ & _ & HX). exists X.
      split; [done|]. by eapply unannounced_settled.
    - intros N HN. destruct (i_mine _ _ _ HI3 _ _ HN) as (_ & ? & ? & ? & ? & ? & ? & _). congruence.
    - intros Hcl. destruct (i_claimed _ _ _ HI3 _ Hcl) as (? & ? & ? & ? & ? & ? & _). congruence.
    - intros k i u o lo' (_ & lin' & ?) _. congruence. }
  unfold handle_resp in Hpost. cbv zeta. destruct (bool_decide _); apply wp_ret; intros w3 HR3 HI3;
    by apply Hpost.
Qed.
End methods.
