(* ===== verification/WfQueueObject.v ===== *)
(** [wf.Queue] is a linearizable, wait-free queue ([wf/queue.go]). *)

From S2P Require Export WfQueueMethods.
Import WfQueue WfQueueInv.

Module WfQueueObject.
Section object.
Context {T : Type} (zero : T) (n : nat).
Abbreviation proto := (queue_protocol zero n).
Abbreviation USp := (uspec (wf_queue_spec zero) n).
Abbreviation pg := (WaitFree (op_steps n)).

Definition initial : aux (T:=T) :=
  Aux [(0, zero)] [] 0 0 ∅ (λ _, 0) ∅ (λ _ _, 0%Z) ∅ 0.

Lemma new_queue_inv : Inv zero n (World (new_mem zero n) (Ghost [] ∅ 0 []) initial).
Proof.
  set (w := World _ _ _).
  assert (∀ k, desc_of k w = if decide (k < n) then Some (OpDesc (-1) false true None) else None) as Hd.
  { intros k. unfold desc_of. simpl. rewrite list_lookup_fmap. case_decide as Hk.
    - rewrite lookup_seq_lt by done. simpl. by apply lookup_replicate_2.
    - rewrite lookup_seq_ge by lia. done. }
  assert (∀ k, phase_of k w = (-1)%Z) as Hp by (intros k; unfold phase_of; rewrite Hd; by case_decide).
  split; try done.
  - split; try done; simpl.
    + intros [|j] l v Hj; [|done]. unfold at_pos in Hj. simpl in Hj. simplify_eq.
      exists noTid. split; [done|by left].
    + apply NoDup_singleton.
    + by exists 0, zero.
    + by exists 0, zero.
    + lia.
  - simpl. by rewrite length_fmap, length_seq.
  - intros k Hk. eexists. split; [rewrite Hd; by rewrite decide_True|]. done.
  - intros k [a Ha]. done.
  - intros k [a Ha]. done.
  - intros k. rewrite Hp. split; [done|]. by vm_compute.
Qed.

Lemma wfq_queue_verified : verified USp proto pg (queue_object zero n (new_mem zero n)).
Proof.
  split.
  - exists initial. apply new_queue_inv.
  - intros t id o w HI Hidle -> Hal. simpl in Hal. unfold allowed in Hal.
    apply andb_true_iff in Hal as [Hc%bool_decide_eq_true Hop].
    assert (match o with UHandle => True | UApply u _ => u = t ∧ t < n end) as Hop'.
    { destruct o as [|u o]; [done|]. apply andb_true_iff in Hop as [[Ht Hu]%andb_true_iff _].
      apply bool_decide_eq_true in Ht, Hu. by subst. }
    exists (called t w). destruct (wfq_call_step zero n t o w HI Hidle Hc Hop') as [HI' HR'].
    split; [exact HI'|]. split; [exact HR'|]. intros.
    destruct (i_gone _ _ _ HI _ Hidle) as (Ha & Hm & _).
    assert (ready t o (World (w_mem w) (g_call t (g_now (w_gh w)) o (w_gh w)) (called t w))) as Hr.
    { split; [apply pending_call|]. split; [exact Ha|]. split; [simpl; set_solver|].
      intros u. simpl. by rewrite decide_True. }
    simpl. destruct o as [|u [v|]]; simpl.
    + by apply wp_Handle.
    + destruct Hop' as [-> Ht]. by apply wp_Enqueue.
    + destruct Hop' as [-> Ht]. by apply wp_Dequeue.
Qed.

Lemma NewQueue_mem m : NewQueue zero (Z.of_nat n) = Some m → m = new_mem zero n.
Proof. unfold NewQueue. case_bool_decide; [done|]. intros [= <-]. by rewrite Nat2Z.id. Qed.

(** C7. The wait-free queue is linearizable: whatever its at most [n] participants
    call and however their steps interleave, the calls and returns are those of
    a sequential FIFO queue in some order that respects real time, a [Dequeue]
    that returns [false] included; the [Handle] calls return 0, 1, ... and
    panic beyond [n]. *)
Theorem wf_queue_linearizable m cs s :
  NewQueue zero (Z.of_nat n) = Some m → reaches (queue_object zero n m) cs s →
  linearizable (uspec (wf_queue_spec zero) n) (sy_hist s).
Proof. intros ->%NewQueue_mem. by apply (verified_linearizable USp proto _ pg), wfq_queue_verified. Qed.

(** C8. It is wait-free: under any schedule an operation has returned, or is about
    to, after [232 * n * n + 244 * n + 21] steps of its own. *)
Theorem wf_queue_wait_free m cs s t r :
  NewQueue zero (Z.of_nat n) = Some m → reaches (queue_object zero n m) cs s →
  sy_thr s !! t = Some r →
  r_steps r ≤ 232 * n * n + 244 * n + 21 ∧
  (r_steps r = 232 * n * n + 244 * n + 21 → ∃ v, r_prog r = Ret v).
Proof.
  intros ->%NewQueue_mem Hs Ht.
  assert (op_steps n = 232 * n * n + 244 * n + 21) as <- by (unfold op_steps, slot_steps, max_pot; lia).
  exact (verified_waitfree USp proto _ pg cs s t r _ wfq_queue_verified eq_refl Hs Ht).
Qed.

(** No schedule makes a method of the wait-free queue dereference nil or index
    out of range. *)
Theorem wf_queue_no_panic m cs :
  NewQueue zero (Z.of_nat n) = Some m →
  exec (queue_object zero n m) cs (start (queue_object zero n m)) ≠ Crash.
Proof. intros ->%NewQueue_mem. by apply (verified_no_crash USp proto _ pg), wfq_queue_verified. Qed.
End object.

Definition demo_memory : mem nat := default (new_mem 0 0) (NewQueue 0 2).

Definition demo_object : object (mem nat) (uop (queueOp nat)) (uresp (resp nat)) :=
  queue_object 0 2 demo_memory.

(** Goroutine 0 stalls right after it announced its enqueue; goroutine 1
    completes it on its way to a dequeue; goroutine 0 resumes, and finds the
    queue empty when it dequeues.  A third participant is refused. *)
Definition demo_schedule : list (cmd (uop (queueOp nat))) :=
  Call 0 UHandle :: replicate 2 (Step 0) ++ Call 1 UHandle :: replicate 2 (Step 1) ++
  Call 0 (UApply 0 (enqueueOp 7)) :: replicate 11 (Step 0) ++
  Call 1 (UApply 1 dequeueOp) :: replicate 84 (Step 1) ++ replicate 10 (Step 0) ++
  Call 0 (UApply 0 dequeueOp) :: replicate 43 (Step 0) ++
  Call 2 UHandle :: replicate 2 (Step 2).

Lemma wf_queue_demo_new : NewQueue 0 (Z.of_nat 2) = Some demo_memory.
Proof. reflexivity. Qed.

Lemma wf_queue_linearizable_witness : ∃ s,
  reaches demo_object demo_schedule s ∧
  sy_hist s = [EInv 0 0 UHandle; ERes 0 0 (RHandle 0); EInv 1 2 UHandle;
               ERes 1 2 (RHandle 1); EInv 0 4 (UApply 0 (enqueueOp 7));
               EInv 1 5 (UApply 1 dequeueOp); ERes 1 5 (RApply (RVal 7 true));
               ERes 0 4 (RApply RDone); EInv 0 8 (UApply 0 dequeueOp);
               ERes 0 8 (RApply (RVal 0 false)); EInv 2 10 UHandle; ERes 2 10 RPanic] ∧
  linearizable (uspec (wf_queue_spec 0) 2) (sy_hist s).
Proof.
  destruct (run_history_reaches demo_object demo_schedule _
    ltac:(vm_compute; reflexivity)) as (s & Hs & Hh).
  exists s. split; [exact Hs|]. split; [exact Hh|].
  exact (wf_queue_linearizable 0 2 demo_memory demo_schedule s wf_queue_demo_new Hs).
Defined.

Lemma wf_queue_wait_free_witness : ∃ s r,
  reaches demo_object (take 102 demo_schedule) s ∧ sy_thr s !! 1 = Some r ∧
  r_steps r = 83 ∧ r_steps r ≤ 232 * 2 * 2 + 244 * 2 + 21.
Proof.
  destruct (run_steps_reaches demo_object (take 102 demo_schedule) 1 83
    ltac:(vm_compute; reflexivity)) as (s & r & Hs & Hr & Hn).
  exists s, r. split; [exact Hs|]. split; [exact Hr|]. split; [exact Hn|].
  exact (proj1 (wf_queue_wait_free 0 2 demo_memory _ s 1 r wf_queue_demo_new Hs Hr)).
Defined.

Lemma wf_queue_no_panic_witness :
  exec demo_object demo_schedule (start demo_object) ≠ Crash.
Proof. exact (wf_queue_no_panic 0 2 demo_memory demo_schedule wf_queue_demo_new). Defined.
End WfQueueObject.
