(* ===== verification/Chronicle.v ===== *)
(** Operations that take effect in the past.

    An operation may be decided after the moment at which it takes effect: what
    it did at its read counts once its [CompareAndSwap] succeeds.  The
    log of Logic.v only grows at its end.  A [chronicle] annotates the log with
    the response of each operation and the position at which it takes effect,
    somewhere between its call and its own place in the log; the object is run
    against [open_spec], which leaves every response open.  The operations sorted
    by these positions are a linearization, once they are shown legal. *)

From S2P Require Export Logic.
From stdpp Require Import sorting.

Lemma sorted_lookup {A} (R : relation A) l i j x y :
  StronglySorted R l → l !! i = Some x → l !! j = Some y → i < j → R x y.
Proof.
  intros Hs. revert i j. induction Hs as [|z l _ IH Hall]; intros i j Hi Hj ?; [done|].
  destruct j as [|j]; [lia|]. destruct i as [|i]; simplify_eq/=.
  - rewrite Forall_forall in Hall. eauto using list_elem_of_lookup_2.
  - eapply IH; eauto with lia.
Qed.

Section chronicle.
Context {Op Resp D : Type} (r0 : Resp).
Implicit Types (g : ghost Op Resp) (t : nat) (o : Op) (r : Resp).

(** The object without a state, for which every response is a right one. *)
Definition open_spec : spec unit Op Resp :=
  RelSpec tt (λ s _, (s, None)) (λ _ _ _, True) (λ _ _, Some r0) (λ _ _ _ _, I).

(** An operation of the log, the position at which it takes effect, and what
    else an object wants to remember of it. *)
Record deed := Deed {
  d_entry : entry Op Resp;
  d_at : nat;
  d_data : D
}.
Implicit Types (d : deed) (ds : list deed).

Definition d_id d : nat := e_id (d_entry d).
Definition ident (e : entry Op Resp) : nat * Op := (e_id e, e_op e).

Record kept g ds : Prop := {
  k_same : ident <$> g_log g = (λ d, ident (d_entry d)) <$> ds;
  k_now : length (g_hist g) = g_now g;
  k_calls : ∀ t p, g_thr g !! t = Some p →
    p_lo p ≤ length ds ∧ ∃ ev, g_hist g !! p_id p = Some (ev, p_lo p);
  k_open : ∀ t p, g_thr g !! t = Some p →
    match p_lin p with
    | None => True
    | Some (inl _) => False
    | Some (inr n) => ∃ d, ds !! n = Some d ∧ d_id d = p_id p
    end;
  k_rets : ∀ t id r a, (ERes t id r, a) ∈ g_hist g →
    ∃ d, d ∈ ds ∧ d_id d = id ∧ e_resp (d_entry d) = r;
  k_at : ∀ k d, ds !! k = Some d →
    d_at d ≤ k ∧ ∃ ev lo, g_hist g !! d_id d = Some (ev, lo) ∧ lo ≤ d_at d
}.

Lemma kept_length g ds : kept g ds → length ds = length (g_log g).
Proof. intros Hk. pose proof (f_equal length (k_same _ _ Hk)) as H. by rewrite !length_fmap in H. Qed.

(** The operation of [t] was pending when the chronicle had length [a]. *)
Definition since g t o a : Prop :=
  ∃ id lo, g_thr g !! t = Some (Pend id o lo None) ∧ lo ≤ a ≤ length (g_log g).

(** The operation of [t] is in the chronicle, with response [r]. *)
Definition settled g ds t r : Prop :=
  ∃ o n d, opened g t o n ∧ ds !! n = Some d ∧ e_resp (d_entry d) = r.

Lemma since_now g t o : pending g t o → since g t o (length (g_log g)).
Proof. intros (id & lo & ? & ?). exists id, lo. split; [done|lia]. Qed.

Lemma since_pending g t o a : since g t o a → pending g t o.
Proof. intros (id & lo & ? & ?). exists id, lo. split; [done|lia]. Qed.

Lemma since_quiet g g' t o a : since g t o a → quiet t g g' → since g' t o a.
Proof.
  intros (id & lo & Ht & Ha) [Heq Hp%prefix_length]. exists id, lo. rewrite Heq.
  split; [done|lia].
Qed.

Lemma settled_quiet g g' ds ds' t r :
  settled g ds t r → quiet t g g' → ds `prefix_of` ds' → settled g' ds' t r.
Proof.
  intros (o & n & d & Ho & Hd & Hr) Hq Hp. exists o, n, d.
  split; [by eapply opened_helped, quiet_helped|].
  split; [by eapply prefix_lookup_Some'|done].
Qed.

(** The operation of [t], answered [r], to take effect at [a]. *)
Definition deed_of g t o r (a : nat) (x : D) : deed :=
  Deed (Entry (from_option p_id 0 (g_thr g !! t)) o r) a x.

Lemma kept_nil : kept (Ghost [] ∅ 0 []) [].
Proof. split; try done; intros; set_solver. Qed.

Lemma kept_call g ds t id o :
  kept g ds → id = g_now g → kept (g_call t id o g) ds.
Proof.
  intros Hk ->. pose proof (kept_length _ _ Hk) as Hlen. split; simpl; try apply Hk.
  - rewrite length_app, (k_now _ _ Hk). simpl. lia.
  - intros u p [[<- <-]|[_ Hu]]%lookup_insert_Some; simpl.
    + split; [by rewrite Hlen|]. eexists. rewrite <-(k_now _ _ Hk). apply lookup_snoc_eq.
    + destruct (k_calls _ _ Hk _ _ Hu) as [? [ev ?]]. split; [done|].
      exists ev. by apply lookup_snoc_l.
  - intros u p [[<- <-]|[_ Hu]]%lookup_insert_Some; [done|by apply (k_open _ _ Hk _ _ Hu)].
  - intros u id' r a [?| ?%list_elem_of_singleton]%elem_of_app; [|done].
    by eapply (k_rets _ _ Hk).
  - intros k d Hd. destruct (k_at _ _ Hk _ _ Hd) as (? & ev & lo & ? & ?).
    split; [done|]. exists ev, lo. split; [by apply lookup_snoc_l|done].
Qed.

Lemma kept_ret g ds t r : kept g ds → settled g ds t r → kept (g_ret t r g) ds.
Proof.
  intros Hk (o & n & d & (id & lo & Ht & _) & Hd & Hr). split; simpl; try apply Hk.
  - rewrite length_app, (k_now _ _ Hk). simpl. lia.
  - intros u p [_ Hu]%lookup_delete_Some. destruct (k_calls _ _ Hk _ _ Hu) as [? [ev ?]].
    split; [done|]. exists ev. by apply lookup_snoc_l.
  - intros u p [_ Hu]%lookup_delete_Some. by apply (k_open _ _ Hk _ _ Hu).
  - intros u id' r' a [?| Heq%list_elem_of_singleton]%elem_of_app; [by eapply (k_rets _ _ Hk)|].
    rewrite Ht in Heq. simplify_eq/=. destruct (k_open _ _ Hk _ _ Ht) as (d' & Hd' & ?).
    simpl in *. simplify_eq. exists d. split; [by eapply list_elem_of_lookup_2|done].
  - intros k d' Hd'. destruct (k_at _ _ Hk _ _ Hd') as (? & ev & lo' & ? & ?).
    split; [done|]. exists ev, lo'. split; [by apply lookup_snoc_l|done].
Qed.

Lemma settled_ret_ok g ds t r :
  settled g ds t r → ∃ p, g_thr g !! t = Some p ∧ ret_ok open_spec g p r.
Proof. intros (o & n & d & Ho & _). by eapply opened_ret_ok. Qed.

(** The operation enters the log now, to take effect at [a]. *)
Lemma kept_lin g ds t o r a x :
  kept g ds → since g t o a → let d := deed_of g t o r a x in
  kept (lin1 open_spec g t) (ds ++ [d]) ∧ settled (lin1 open_spec g t) (ds ++ [d]) t r.
Proof.
  intros Hk Ho. pose proof (kept_length _ _ Hk) as Hlen.
  destruct (lin1_open open_spec g t o r0 (since_pending _ _ _ _ Ho)) as (Hop & _); [done..|].
  destruct Ho as (id & lo & Ht & Ha). unfold deed_of. rewrite Ht. simpl. split.
  - unfold lin1. rewrite Ht. simpl. split; simpl; try apply Hk.
    + rewrite !fmap_app, (k_same _ _ Hk). done.
    + intros u p [[<- <-]|[_ Hu]]%lookup_insert_Some.
      * destruct (k_calls _ _ Hk _ _ Ht) as [_ ?]. rewrite length_app. simpl in *. split; [lia|done].
      * destruct (k_calls _ _ Hk _ _ Hu) as [? ?]. rewrite length_app. split; [lia|done].
    + intros u p [[<- <-]|[_ Hu]]%lookup_insert_Some; simpl.
      * eexists. rewrite <-Hlen. split; [apply lookup_snoc_eq|done].
      * pose proof (k_open _ _ Hk _ _ Hu) as Hlin. destruct (p_lin p) as [[?|m]|]; [done| |done].
        destruct Hlin as (d' & ? & ?). exists d'. split; [by apply lookup_snoc_l|done].
    + intros u id' r' b Hin. destruct (k_rets _ _ Hk _ _ _ _ Hin) as (d' & ? & ?).
      exists d'. split; [apply elem_of_app; by left|done].
    + intros k d' [Hd'|[-> ->]]%lookup_snoc_inv; [by apply (k_at _ _ Hk _ _ Hd')|].
      simpl. split; [lia|]. destruct (k_calls _ _ Hk _ _ Ht) as [_ [ev ?]].
      exists ev, lo. split; [done|lia].
  - eexists o, (length (g_log g)), _. split; [exact Hop|]. rewrite <-Hlen.
    split; [apply lookup_snoc_eq|done].
Qed.

Lemma kept_log g ds log k d : kept g ds → same_ops log (g_log g) → ds !! k = Some d →
  ∃ e, log !! k = Some e ∧ e_id e = d_id d ∧ e_op e = e_op (d_entry d).
Proof.
  intros Hk Hsame Hd. pose proof (f_equal (lookup k) (k_same _ _ Hk)) as Heq.
  rewrite !list_lookup_fmap, Hd in Heq. destruct (g_log g !! k) as [e'|] eqn:Ee'; [|done].
  destruct (Forall2_lookup_r _ _ _ _ _ Hsame Ee') as (e & ? & ? & ?).
  unfold ident in Heq. simplify_eq/=. exists e. split; [done|]. split; [|congruence].
  unfold d_id. congruence.
Qed.

Lemma kept_ids H lens log reads g ds :
  kept g ds → same_ops log (g_log g) → stamped open_spec H lens log reads →
  NoDup (d_id <$> ds).
Proof.
  intros Hk Hsame Hst. apply NoDup_alt. intros i j x Hi Hj. rewrite list_lookup_fmap in Hi, Hj.
  destruct (ds !! i) as [d|] eqn:Ei, (ds !! j) as [d'|] eqn:Ej; simplify_eq/=.
  destruct (kept_log _ _ _ _ _ Hk Hsame Ei) as (e & He & ? & _),
    (kept_log _ _ _ _ _ Hk Hsame Ej) as (e' & He' & ? & _).
  eapply (st_log_ids _ _ _ _ _ Hst); eauto. congruence.
Qed.

Lemma kept_NoDup H lens log reads g ds :
  kept g ds → same_ops log (g_log g) → stamped open_spec H lens log reads → NoDup ds.
Proof. intros. eapply NoDup_fmap_1, kept_ids; eauto. Qed.

(** The chronicle in the order in which the operations take effect is a
    linearization, when it is legal. *)
Theorem chronicle_linearization {St} (Sp : spec St Op Resp) H lens log reads g ds L :
  kept g ds → same_ops log (g_log g) → stamped open_spec H lens log reads →
  g_hist g = zip H lens →
  L ≡ₚ ds → StronglySorted (λ d d', d_at d ≤ d_at d') L →
  legal Sp (spec_init Sp) (d_entry <$> L) → linearization Sp H (d_entry <$> L).
Proof.
  intros Hk Hsame Hst Hhist HL Hsort Hlegal. pose proof (st_length _ _ _ _ _ Hst) as Hlens.
  pose proof (λ k d, kept_log _ _ _ k d Hk Hsame) as Hlog.
  assert (∀ d, d ∈ L → ∃ k, ds !! k = Some d) as HinL.
  { intros d Hd. rewrite HL in Hd. by apply list_elem_of_lookup. }
  split; [done|..].
  - pose proof (kept_ids _ _ _ _ _ _ Hk Hsame Hst) as Hnd.
    rewrite <-list_fmap_compose. change (NoDup (d_id <$> L)). by rewrite HL.
  - intros e (d & -> & [k Hd]%HinL)%list_elem_of_fmap.
    destruct (Hlog _ _ Hd) as (e & He & Hid & Hop).
    destruct (st_log_inv _ _ _ _ _ Hst _ _ He) as (t & a & Hinv & _).
    exists t. unfold d_id in Hid. by rewrite <-Hid, <-Hop.
  - intros t id r [q Hq]%list_elem_of_lookup.
    destruct (lookup_lt_is_Some_2 lens q) as [a Ha]; [rewrite Hlens; by eapply lookup_lt_Some|].
    destruct (k_rets _ _ Hk t id r a) as (d & Hd & Hid & Hr).
    { rewrite Hhist. apply (list_elem_of_lookup_2 _ q). by rewrite lookup_zip_with, Hq, Ha. }
    exists (e_op (d_entry d)). apply list_elem_of_fmap. exists d. rewrite HL. split; [|done].
    rewrite <-Hid, <-Hr. unfold d_id. by destruct (d_entry d).
  - intros i j t t' r o a b e e' Hi Hj Hij Ha Hb. rewrite list_lookup_fmap in Ha, Hb.
    destruct (L !! a) as [d|] eqn:Ea, (L !! b) as [d'|] eqn:Eb; simplify_eq/=.
    destruct (HinL d) as [m Hm]; [by eapply list_elem_of_lookup_2|].
    destruct (HinL d') as [m' Hm']; [by eapply list_elem_of_lookup_2|].
    destruct (Hlog _ _ Hm) as (e & He & Hid & _). unfold d_id in Hid. rewrite <-Hid in Hi.
    destruct (st_log_res _ _ _ _ _ Hst _ _ _ _ _ He Hi) as (_ & la & Hla & ?).
    destruct (k_at _ _ Hk _ _ Hm) as [? _], (k_at _ _ Hk _ _ Hm') as (_ & ev & lo & Hlo & ?).
    rewrite Hhist, lookup_zip_with in Hlo. apply (st_inv_pos _ _ _ _ _ Hst) in Hj as Heq.
    subst j. unfold d_id in Hlo. rewrite Hj in Hlo. simpl in Hlo.
    destruct (lens !! e_id (d_entry d')) as [lo'|] eqn:Elo; simplify_eq/=.
    pose proof (st_mono _ _ _ _ _ Hst _ _ _ _ Hla Elo ltac:(lia)).
    destruct (decide (a < b)) as [|Hge]; [done|exfalso].
    destruct (decide (a = b)) as [->|Hne]; [simplify_eq; lia|].
    pose proof (sorted_lookup _ _ b a _ _ Hsort Eb Ea ltac:(lia)). simpl in *. lia.
Qed.
End chronicle.

Arguments deed : clear implicits.
Arguments Deed {_ _ _}.
Arguments d_entry {_ _ _}.
Arguments d_at {_ _ _}.
Arguments d_data {_ _ _}.
Arguments kept : clear implicits.
Arguments kept {_ _ _}.

#[export] Hint Resolve since_quiet settled_quiet since_now since_pending : lockfree.
