(* ===== verification/DequeOrder.v ===== *)
(** The order in which the operations of [lf.Deque] take effect.

    A [PopFront] of [lf/deque.go] removes the node it read first, but finds out
    only when it marks the node, when that need not be the first one any more.  The
    chronicle of a run (Chronicle.v) lists the operations in the order of their
    writes; [rrun] is the list of nodes they leave.  When each operation is
    [justified], sorting the chronicle by the moments of the reads gives a
    legal history of a deque. *)

From S2P Require Export Chronicle Adt.
From S2P Require Import Atomics.
From stdpp Require Import sorting.

Lemma filter_iff_in {A} (P1 P2 : A → Prop) `{!∀ x, Decision (P1 x), !∀ x, Decision (P2 x)} (l : list A) :
  (∀ x, x ∈ l → P1 x ↔ P2 x) → filter P1 l = filter P2 l.
Proof.
  induction l as [|x l IH]; intros Hl; [done|]. rewrite !filter_cons, IH.
  - pose proof (Hl x ltac:(by left)). repeat case_decide; tauto.
  - intros y ?. apply Hl. by right.
Qed.

Lemma filter_all {A} (P : A → Prop) `{!∀ x, Decision (P x)} (l : list A) :
  (∀ x, x ∈ l → P x) → filter P l = l.
Proof.
  induction l as [|x l IH]; intros Hl; [done|]. rewrite filter_cons_True, IH; [done| |].
  - intros y ?. apply Hl. by right.
  - apply Hl. by left.
Qed.

Section order.
Context {T : Type} (zero : T).
Abbreviation deed := (deed (deque_op T) (resp T) (option loc)).
Implicit Types (d : deed) (ds : list deed) (s : list (loc * T)) (n : loc) (y : loc * T).

Definition d_op d : deque_op T := e_op (d_entry d).
Definition d_resp d : resp T := e_resp (d_entry d).

(** What the write of an operation does to the nodes of the deque. *)
Definition rstep s d : list (loc * T) :=
  match d_op d, d_data d with
  | PushFront v, Some n => (n, v) :: s
  | PushBack v, Some n => s ++ [(n, v)]
  | (PopFront | PopBack), Some n => filter (λ y, y.1 ≠ n) s
  | _, None => s
  end.

Definition rrun ds : list (loc * T) := foldl rstep [] ds.

Definition unused n ds : Prop := ∀ d, d ∈ ds → d_data d ≠ Some n.

(** What the operation at position [k] has to be: a push of a new node; a
    [PopBack] of the last node; a [PopFront] of the node that was the first when
    [d_at d] operations had written; or a pop of an empty deque. *)
Definition justified ds (k : nat) d : Prop :=
  match d_op d, d_data d with
  | (PushFront _ | PushBack _), Some n =>
      d_resp d = RDone ∧ d_at d = k ∧ unused n (take k ds)
  | PopFront, Some n => ∃ v, d_resp d = RVal v true ∧ d_at d ≤ k ∧
      head (rrun (take (d_at d) ds)) = Some (n, v) ∧ n ∈ (rrun (take k ds)).*1
  | PopBack, Some n => ∃ v, d_resp d = RVal v true ∧ d_at d = k ∧
      last (rrun (take k ds)) = Some (n, v)
  | (PopFront | PopBack), None =>
      d_resp d = RVal zero false ∧ d_at d = k ∧ rrun (take k ds) = []
  | _, None => False
  end.

Definition all_justified ds : Prop := ∀ k d, ds !! k = Some d → justified ds k d.

Definition is_pop d : bool :=
  match d_op d with PopFront | PopBack => true | _ => false end.

(** The operations that take effect before their write. *)
Definition early d : bool :=
  match d_op d, d_data d with PopFront, Some _ => true | _, _ => false end.

Lemma elem_of_rstep s d n :
  n ∈ (rstep s d).*1 → n ∈ s.*1 ∨ d_data d = Some n ∧ is_pop d = false.
Proof.
  unfold rstep, is_pop. destruct (d_op d), (d_data d) as [n'|]; auto; simpl.
  - intros [->|?]%elem_of_cons; auto.
  - rewrite fmap_app. intros [?| ->%list_elem_of_singleton]%elem_of_app; auto.
  - intros (y & -> & [_ ?]%list_elem_of_filter)%list_elem_of_fmap. left.
    apply list_elem_of_fmap. eauto.
  - intros (y & -> & [_ ?]%list_elem_of_filter)%list_elem_of_fmap. left.
    apply list_elem_of_fmap. eauto.
Qed.

Lemma rrun_snoc ds d : rrun (ds ++ [d]) = rstep (rrun ds) d.
Proof. apply foldl_snoc. Qed.

Lemma justified_take ds k d : justified ds k d → d_at d ≤ k.
Proof. unfold justified. destruct (d_op d), (d_data d); naive_solver lia. Qed.

Lemma justified_prefix ds ds' k d :
  k ≤ length ds → ds `prefix_of` ds' → justified ds k d → justified ds' k d.
Proof.
  intros Hk Hp Hj. pose proof (justified_take _ _ _ Hj). unfold justified in *.
  destruct (d_op d), (d_data d); rewrite ?(take_of_prefix _ _ _ Hp) by lia; done.
Qed.

Lemma justified_snoc ds d :
  all_justified ds → justified ds (length ds) d → all_justified (ds ++ [d]).
Proof.
  intros Hall Hd k d' [Hk|[-> ->]]%lookup_snoc_inv.
  - eapply justified_prefix; [|apply prefix_snoc|by apply Hall].
    apply lookup_lt_Some in Hk. lia.
  - by eapply justified_prefix; [|apply prefix_snoc|].
Qed.

Section sorted.
Context (ds : list deed) (Hds : all_justified ds).

Definition nodes_at (k : nat) : list (loc * T) := rrun (take k ds).

Lemma nodes_at_S k d : ds !! k = Some d → nodes_at (S k) = rstep (nodes_at k) d.
Proof using. intros Hd. unfold nodes_at. by rewrite (take_S_r _ _ _ Hd), rrun_snoc. Qed.

Lemma nodes_at_past k : length ds ≤ k → nodes_at (S k) = nodes_at k.
Proof using. intros. unfold nodes_at. by rewrite !take_ge by lia. Qed.

(** An induction over the positions of the chronicle. *)
Lemma nodes_at_ind (P : nat → list (loc * T) → Prop) k0 :
  P k0 (nodes_at k0) →
  (∀ k d, k0 ≤ k → ds !! k = Some d → P k (nodes_at k) → P (S k) (rstep (nodes_at k) d)) →
  (∀ k s, P k s → P (S k) s) →
  ∀ k, k0 ≤ k → P k (nodes_at k).
Proof using.
  intros H0 HS Hm k Hk. induction Hk as [|k Hk IH]; [done|].
  destruct (ds !! k) as [d|] eqn:E.
  - rewrite (nodes_at_S _ _ E). by apply HS.
  - rewrite nodes_at_past by by apply lookup_ge_None. auto.
Qed.

(** What is in the deque was pushed. *)
Lemma node_pushed k n : n ∈ (nodes_at k).*1 →
  ∃ j d, j < k ∧ ds !! j = Some d ∧ d_data d = Some n ∧ is_pop d = false.
Proof using Hds.
  revert n. apply (nodes_at_ind (λ k s, ∀ n, n ∈ s.*1 →
    ∃ j d, j < k ∧ ds !! j = Some d ∧ d_data d = Some n ∧ is_pop d = false) 0); [| | |lia].
  - intros n. by rewrite elem_of_nil.
  - clear k. intros k d _ Hd IH n Hn.
    apply elem_of_rstep in Hn as [Hn'|[? ?]].
    + destruct (IH _ Hn') as (j & d' & ? & ?). exists j, d'. split; [lia|done].
    + exists k, d. auto with lia.
  - intros k' s IH n Hn. destruct (IH _ Hn) as (j & d' & ? & ?). exists j, d'. split; [lia|done].
Qed.

Lemma pushed_fresh k d n : ds !! k = Some d → d_data d = Some n → is_pop d = false →
  ∀ j d', j < k → ds !! j = Some d' → d_data d' ≠ Some n.
Proof using Hds.
  intros Hk Hn Hp j d' Hj Hd'. pose proof (Hds _ _ Hk) as HJ. unfold justified, is_pop in *.
  assert (d' ∈ take k ds) as Hin.
  { apply list_elem_of_lookup. exists j. by rewrite lookup_take_lt. }
  rewrite Hn in HJ. destruct (d_op d); try done; by apply HJ.
Qed.

Lemma pushed_new k d n : ds !! k = Some d → d_data d = Some n → is_pop d = false →
  n ∉ (nodes_at k).*1.
Proof using Hds.
  intros Hk Hn Hp (j & d' & ? & Hj & Hn' & _)%node_pushed.
  by eapply pushed_fresh in Hj; [|exact Hk|..].
Qed.

Lemma nodes_NoDup k : NoDup (nodes_at k).*1.
Proof using Hds.
  apply (nodes_at_ind (λ _ s, NoDup s.*1) 0); [constructor| |done|lia].
  clear k. intros k d _ Hd IH.
  assert (∀ n, d_data d = Some n → is_pop d = false → n ∉ (nodes_at k).*1) as Hnew.
  { intros. by eapply pushed_new. }
  unfold rstep, is_pop in *. destruct (d_op d), (d_data d) as [n|]; try done; simpl.
  - constructor; [by apply Hnew|done].
  - rewrite fmap_app. apply NoDup_app. split; [done|]. split; [|apply NoDup_singleton].
    intros x Hx ->%list_elem_of_singleton. by eapply Hnew.
  - eapply sublist_NoDup; [exact IH|]. apply fmap_sublist, sublist_filter.
  - eapply sublist_NoDup; [exact IH|]. apply fmap_sublist, sublist_filter.
Qed.

Definition popped_at (m : nat) n : Prop :=
  ∃ d, ds !! m = Some d ∧ is_pop d = true ∧ d_data d = Some n.

Lemma popped_member m n : popped_at m n → n ∈ (nodes_at m).*1.
Proof using Hds.
  intros (d & Hm & Hp & Hn). pose proof (Hds _ _ Hm) as HJ. unfold justified, is_pop in *.
  rewrite Hn in HJ. destruct (d_op d); try done; destruct HJ as (v & _ & _ & HJ); [apply HJ|].
  apply list_elem_of_fmap. exists (n, v). split; [done|]. by apply last_Some_elem_of.
Qed.

Lemma popped_gone m n k : popped_at m n → m < k → n ∉ (nodes_at k).*1.
Proof using Hds.
  intros (d & Hm & Hp & Hn). apply (nodes_at_ind (λ _ s, n ∉ s.*1) (S m)); [| |done].
  - rewrite (nodes_at_S _ _ Hm). unfold rstep, is_pop in *. rewrite Hn.
    destruct (d_op d); try done; intros (y & -> & [? _]%list_elem_of_filter)%list_elem_of_fmap; done.
  - intros j d' Hj Hd' IH.
    intros [?|[Hn' Hp']]%elem_of_rstep; [done|].
    by eapply (pushed_fresh j d' n) in Hm; [|..|lia].
Qed.

Lemma popped_once m m' n : popped_at m n → popped_at m' n → m = m'.
Proof using Hds.
  intros Hm Hm'. destruct (decide (m < m')); [|destruct (decide (m' < m)); [|lia]].
  - by eapply popped_gone in Hm; [destruct Hm; by apply popped_member|].
  - by eapply popped_gone in Hm'; [destruct Hm'; by apply popped_member|].
Qed.

Lemma early_popped m d : ds !! m = Some d → early d = true →
  ∃ n v, popped_at m n ∧ d_op d = PopFront ∧ d_data d = Some n ∧ d_resp d = RVal v true ∧
    d_at d ≤ m ∧ head (nodes_at (d_at d)) = Some (n, v).
Proof using Hds.
  intros Hm He. pose proof (Hds _ _ Hm) as HJ. unfold justified, early in *.
  destruct (d_op d) eqn:Eo, (d_data d) as [n|] eqn:En; try done.
  destruct HJ as (v & ? & ? & ? & _). exists n, v. split; [|done].
  exists d. split; [done|]. unfold is_pop. by rewrite Eo.
Qed.

Lemma early_at_inj m m' d d' : ds !! m = Some d → ds !! m' = Some d' →
  early d = true → early d' = true → d_at d = d_at d' → m = m'.
Proof using Hds.
  intros Hm Hm' He He' Heq.
  destruct (early_popped _ _ Hm He) as (n & v & Hp & _ & _ & _ & _ & Hh).
  destruct (early_popped _ _ Hm' He') as (n' & v' & Hp' & _ & _ & _ & _ & Hh').
  rewrite Heq, Hh' in Hh. simplify_eq. by eapply popped_once.
Qed.

(** ** The sorted chronicle *)

(** What takes effect at position [i]: an early operation that read there, then
    the write at [i] itself. *)
Definition block (i : nat) : list deed :=
  match list_find (λ d, early d = true ∧ d_at d = i) ds with
  | Some (_, d) => [d]
  | None => []
  end ++
  match ds !! i with
  | Some d => if early d then [] else [d]
  | None => []
  end.

Fixpoint blocks (i k : nat) : list deed :=
  match k with
  | 0 => []
  | S k => block i ++ blocks (S i) k
  end.

Lemma elem_of_block i d :
  d ∈ block i ↔ ∃ m, ds !! m = Some d ∧ d_at d = i ∧ (early d = true ∨ m = i).
Proof using Hds.
  unfold block. rewrite elem_of_app. split.
  - intros [Hd|Hd].
    + destruct (list_find _ ds) as [[m d']|] eqn:E; [|by apply elem_of_nil in Hd].
      apply list_elem_of_singleton in Hd as ->. apply list_find_Some in E as (Hm & [? ?] & _).
      exists m. auto.
    + destruct (ds !! i) as [d'|] eqn:E; [|by apply elem_of_nil in Hd].
      destruct (early d') eqn:Ee; [by apply elem_of_nil in Hd|].
      apply list_elem_of_singleton in Hd as ->. exists i. split; [done|]. split; [|by right].
      pose proof (Hds _ _ E) as HJ. unfold justified, early in *.
      destruct (d_op d'), (d_data d'); naive_solver.
  - intros (m & Hm & <- & Hor). destruct (early d) eqn:Ee.
    + left. destruct (list_find _ ds) as [[m' d']|] eqn:E.
      * apply list_find_Some in E as (Hm' & [? ?] & _).
        replace m' with m in * by by eapply early_at_inj. simplify_eq. by left.
      * apply list_find_None in E. rewrite Forall_forall in E.
        destruct (E d); [by eapply list_elem_of_lookup_2|done].
    + right. destruct Hor as [?| ->]; [done|]. rewrite Hm, Ee. by left.
Qed.

Lemma elem_of_blocks i k d :
  d ∈ blocks i k ↔ ∃ j, i ≤ j < i + k ∧ d ∈ block j.
Proof using.
  revert i. induction k as [|k IH]; intros i; simpl.
  - rewrite elem_of_nil. split; [done|]. intros (j & ? & _). lia.
  - rewrite elem_of_app, IH. split.
    + intros [?|(j & ? & ?)]; [exists i|exists j]; (split; [lia|done]).
    + intros (j & ? & ?). destruct (decide (j = i)) as [->|]; [by left|right].
      exists j. split; [lia|done].
Qed.

Lemma block_at i d : d ∈ block i → d_at d = i.
Proof using Hds. by intros (m & _ & ? & _)%elem_of_block. Qed.

Lemma blocks_sorted i k : StronglySorted (λ d d', d_at d ≤ d_at d') (blocks i k).
Proof using Hds.
  revert i. induction k as [|k IH]; intros i; simpl; [constructor|].
  apply StronglySorted_app_2; [|..|apply IH].
  - intros d d' ->%block_at (j & ? & ->%block_at)%elem_of_blocks. lia.
  - pose proof (block_at i) as Hb. induction (block i) as [|d l IHl]; constructor.
    + apply IHl. intros d' ?. apply Hb. by right.
    + apply Forall_forall. intros d' ?. rewrite (Hb d), (Hb d'); [done|by right|by left].
Qed.

Lemma block_NoDup i : NoDup (block i).
Proof using Hds.
  unfold block. destruct (list_find _ ds) as [[m d]|] eqn:E; simpl.
  - apply list_find_Some in E as (_ & [? _] & _).
    destruct (ds !! i) as [d'|]; [|apply NoDup_singleton].
    destruct (early d') eqn:?; [apply NoDup_singleton|].
    apply NoDup_cons. split; [|apply NoDup_singleton].
    intros ->%list_elem_of_singleton. congruence.
  - destruct (ds !! i) as [d'|]; [|constructor]. destruct (early d'); [constructor|].
    apply NoDup_singleton.
Qed.

Lemma blocks_NoDup i k : NoDup (blocks i k).
Proof using Hds.
  revert i. induction k as [|k IH]; intros i; simpl; [constructor|].
  apply NoDup_app. split; [apply block_NoDup|]. split; [|apply IH].
  intros d Hd%block_at (j & ? & Hj%block_at)%elem_of_blocks. lia.
Qed.

Definition sorted : list deed := blocks 0 (length ds).

Lemma sorted_perm : NoDup ds → sorted ≡ₚ ds.
Proof using Hds.
  intros Hnd. apply NoDup_Permutation; [apply blocks_NoDup|done|]. intros d. split.
  - intros (j & _ & (m & ? & _)%elem_of_block)%elem_of_blocks. by eapply list_elem_of_lookup_2.
  - intros [m Hm]%list_elem_of_lookup. apply lookup_lt_Some in Hm as Hlt.
    pose proof (justified_take _ _ _ (Hds _ _ Hm)). apply elem_of_blocks. exists (d_at d).
    split; [lia|]. apply elem_of_block. exists m. split; [done|]. split; [done|].
    destruct (early d) eqn:He; [by left|right]. pose proof (Hds _ _ Hm) as HJ.
    unfold justified, early in *. destruct (d_op d), (d_data d); naive_solver.
Qed.

(** ** It is legal *)

(** The nodes popped from position [i] on by an operation that takes effect
    before [a]; the deque is what the writes left, without them. *)
Definition pops (a i : nat) : list loc :=
  omap (λ d, if early d && bool_decide (d_at d < a) then d_data d else None) (drop i ds).

Definition left_at (a i : nat) : list (loc * T) :=
  filter (λ y, y.1 ∉ pops a i) (nodes_at i).

Lemma elem_of_pops a i n :
  n ∈ pops a i ↔
    ∃ m d, i ≤ m ∧ ds !! m = Some d ∧ early d = true ∧ d_at d < a ∧ d_data d = Some n.
Proof using.
  unfold pops. rewrite list_elem_of_omap. split.
  - intros (d & [m Hm]%list_elem_of_lookup & Hd). rewrite lookup_drop in Hm.
    destruct (early d) eqn:?; [|done]. simpl in Hd. case_bool_decide; [|done].
    exists (i + m), d. auto with lia.
  - intros (m & d & ? & Hm & He & Ha & Hn). exists d. split.
    + apply list_elem_of_lookup. exists (m - i). rewrite lookup_drop.
      by replace (i + (m - i)) with m by lia.
    + by rewrite He, bool_decide_true.
Qed.

Lemma pops_popped a i n : n ∈ pops a i → ∃ m, i ≤ m ∧ popped_at m n.
Proof using.
  intros (m & d & ? & Hm & He & _ & Hn)%elem_of_pops. exists m. split; [done|]. exists d.
  unfold early, is_pop in *. by destruct (d_op d).
Qed.

Lemma left_same a a' i i' :
  nodes_at i = nodes_at i' → (∀ n, n ∈ pops a i ↔ n ∈ pops a' i') → left_at a i = left_at a' i'.
Proof using.
  intros Hn Hp. unfold left_at. rewrite Hn. apply list_filter_iff. intros y. by rewrite Hp.
Qed.

Abbreviation Sp := (deque_spec zero).

(** The entries [es] of the specification lead from [s] to [s']. *)
Definition leads (s : list T) (l : list deed) (s' : list T) : Prop :=
  legal Sp s (d_entry <$> l) ∧ run Sp s (d_entry <$> l) = s'.

Lemma leads_nil (s : list T) : leads s [] s.
Proof using. by split. Qed.

Lemma leads_app (s s1 s2 : list T) l1 l2 : leads s l1 s1 → leads s1 l2 s2 → leads s (l1 ++ l2) s2.
Proof using.
  intros [? <-] [? <-]. unfold leads. by rewrite fmap_app, legal_app, run_app.
Qed.

Lemma leads_one (s s1 : list T) d : deque_step zero s (d_op d) = (s1, Some (d_resp d)) → leads s [d] s1.
Proof using.
  intros Hs. unfold leads, d_op, d_resp in *. simpl. unfold answers. simpl. by rewrite Hs.
Qed.

(** The early operation that read at position [i]. *)
Lemma block_early i :
  leads (left_at i i).*2
    match list_find (λ d, early d = true ∧ d_at d = i) ds with
    | Some (_, d) => [d]
    | None => []
    end (left_at (S i) i).*2.
Proof using Hds.
  destruct (list_find _ ds) as [[m d]|] eqn:E.
  - apply list_find_Some in E as (Hm & [He Hi] & _).
    destruct (early_popped _ _ Hm He) as (n & v & Hpop & Ho & Hn & Hr & Hle & Hh).
    rewrite Hi in Hle, Hh.
    destruct (nodes_at i) as [|y s] eqn:Es; [done|]. injection Hh as ->.
    assert (n ∉ pops i i) as Hnot.
    { intros (m' & d' & _ & Hm' & He' & Ha & Hn')%elem_of_pops.
      assert (m' = m) as ->; [|simplify_eq; lia].
      eapply (popped_once _ _ n); [|done]. exists d'. split; [done|]. split; [|done].
      unfold early, is_pop in *. by destruct (d_op d'). }
    assert (left_at i i = (n, v) :: left_at (S i) i) as ->.
    { unfold left_at. rewrite Es, filter_cons_True by done. f_equal.
      rewrite filter_cons_False.
      2:{ intros Hno. apply Hno. apply elem_of_pops. exists m, d. auto with lia. }
      assert (n ∉ s.*1) as Hns.
      { pose proof (nodes_NoDup i) as Hnd. rewrite Es in Hnd. by apply NoDup_cons in Hnd as [? _]. }
      apply filter_iff_in. intros [n' v'] Hin. simpl.
      assert (n' ≠ n) by (intros ->; apply Hns, list_elem_of_fmap; by exists (n, v')).
      rewrite !elem_of_pops. split; intros Hno (m' & d' & ? & ? & ? & ? & ?); apply Hno;
        exists m', d'; (split_and!; [done..| |done]).
      - destruct (decide (d_at d' = i)); [|lia].
        assert (m' = m) as -> by (eapply early_at_inj; eauto; congruence). congruence.
      - lia. }
    apply leads_one. rewrite Ho, Hr. done.
  - rewrite (left_same i (S i) i i); [apply leads_nil|done|]. intros n. rewrite !elem_of_pops.
    apply list_find_None in E. rewrite Forall_forall in E.
    split; intros (m & d & ? & Hm & ? & ? & ?); exists m, d; (split_and!; [done..| |done]); [lia|].
    destruct (decide (d_at d = i)); [|lia]. destruct (E d); [by eapply list_elem_of_lookup_2|done].
Qed.

Lemma pops_S i d n : ds !! i = Some d →
  n ∈ pops (S i) i ↔ n ∈ pops (S i) (S i) ∨ early d = true ∧ d_data d = Some n.
Proof using Hds.
  intros Hd. rewrite !elem_of_pops. split.
  - intros (m & d' & ? & Hm & ? & ? & ?). destruct (decide (m = i)) as [->|].
    + simplify_eq. by right.
    + left. exists m, d'. split; [lia|done].
  - intros [(m & d' & ? & ?)|[He Hn]]; [exists m, d'; split; [lia|done]|].
    exists i, d. pose proof (justified_take _ _ _ (Hds _ _ Hd)). split_and!; auto with lia.
Qed.

(** A new node is not popped by an operation that read before. *)
Lemma pops_new i d n : ds !! i = Some d → d_data d = Some n → is_pop d = false →
  n ∉ pops (S i) (S i).
Proof using Hds.
  intros Hd Hn Hp (m & d' & ? & Hm & He & Ha & Hn')%elem_of_pops.
  destruct (early_popped _ _ Hm He) as (n' & v & _ & _ & Hn'' & _ & _ & Hh). simplify_eq.
  assert (n ∈ (nodes_at (d_at d')).*1) as (j & d0 & ? & Hj & Hn0 & _)%node_pushed.
  { destruct (nodes_at _) as [|[n' v'] l]; simplify_eq/=. by left. }
  eapply (pushed_fresh i d n); [done..| |exact Hj|done]. lia.
Qed.

Lemma left_same_here i d : ds !! i = Some d → early d = false →
  left_at (S i) i = filter (λ y, y.1 ∉ pops (S i) (S i)) (nodes_at i).
Proof using Hds.
  intros Hd He. apply list_filter_iff. intros y. rewrite (pops_S _ _ _ Hd), He. naive_solver.
Qed.

Lemma snoc_cut {A} (l : list A) (x : A) :
  last (l ++ [x]) = Some x ∧ take (pred (length (l ++ [x]))) (l ++ [x]) = l.
Proof using.
  split; [by rewrite last_snoc|]. rewrite length_app. simpl.
  by replace (pred (length l + 1)) with (length l) by lia; rewrite take_app_length.
Qed.

(** Removing the last of distinct nodes. *)
Lemma filter_last (l : list (loc * T)) n v : NoDup (l ++ [(n, v)]).*1 →
  filter (λ y, y.1 ≠ n) (l ++ [(n, v)]) = l.
Proof using.
  rewrite fmap_app. intros (_ & Hd & _)%NoDup_app.
  rewrite filter_app, filter_cons_False, filter_nil, app_nil_r by naive_solver.
  apply filter_all. intros y Hy Heq. apply (Hd y.1); [by apply list_elem_of_fmap_2|].
  rewrite Heq. by left.
Qed.

(** The write at position [i]. *)
Lemma block_late i d : ds !! i = Some d →
  leads (left_at (S i) i).*2 (if early d then [] else [d]) (left_at (S i) (S i)).*2.
Proof using Hds.
  intros Hd. pose proof (Hds _ _ Hd) as HJ. pose proof (nodes_at_S _ _ Hd) as HS.
  pose proof (nodes_NoDup i) as Hnd. fold (nodes_at i) in HJ.
  destruct (early d) eqn:He.
  - assert (left_at (S i) i = left_at (S i) (S i)) as ->; [|apply leads_nil].
    unfold left_at. rewrite HS. unfold rstep, early in *.
    destruct (d_op d) eqn:Eo, (d_data d) as [n|] eqn:En; try done.
    rewrite list_filter_filter. apply list_filter_iff. intros y.
    rewrite (pops_S _ _ _ Hd), En. unfold early. rewrite Eo, En.
    split; [intros Hno; split; [tauto|intros Heq; apply Hno; right; by rewrite Heq]|].
    intros [? Hne] [?|[_ [= Heq]]]; [done|by rewrite Heq in Hne].
  - rewrite (left_same_here _ _ Hd He). unfold left_at. rewrite HS. apply leads_one.
    unfold justified, rstep, early in *. set (P := pops (S i) (S i)) in *.
    destruct (d_op d) as [v|v| |] eqn:Eo, (d_data d) as [n|] eqn:En; try done.
    + destruct HJ as (-> & _ & _). simpl. rewrite filter_cons_True; [done|].
      eapply pops_new; [done..|]. unfold is_pop. by rewrite Eo.
    + destruct HJ as (-> & _ & _). simpl.
      rewrite filter_app, filter_cons_True, filter_nil, fmap_app; [done|].
      eapply pops_new; [done..|]. unfold is_pop. by rewrite Eo.
    + destruct HJ as (-> & _ & HJ). change (rrun (take i ds)) with (nodes_at i) in HJ.
      by rewrite HJ.
    + destruct HJ as (v & -> & _ & HJ). change (rrun (take i ds)) with (nodes_at i) in HJ.
      apply last_Some in HJ as [l Hl]. rewrite Hl in *. rewrite filter_last by done.
      rewrite filter_app, filter_cons_True, filter_nil, fmap_app.
      * simpl. destruct (snoc_cut (filter (λ y, y.1 ∉ P) l).*2 v) as [-> ->]. done.
      * intros (m & ? & Hm)%pops_popped. assert (m = i); [|lia].
        eapply popped_once; [done|]. exists d. split; [done|]. split; [|done].
        unfold is_pop. by rewrite Eo.
    + destruct HJ as (-> & _ & HJ). change (rrun (take i ds)) with (nodes_at i) in HJ.
      by rewrite HJ.
Qed.

Lemma block_leads i : i < length ds → leads (left_at i i).*2 (block i) (left_at (S i) (S i)).*2.
Proof using Hds.
  intros [d Hd]%lookup_lt_is_Some_2. unfold block. rewrite Hd.
  eapply leads_app; [apply block_early|by apply block_late].
Qed.

Lemma blocks_lead i k : i + k = length ds →
  leads (left_at i i).*2 (blocks i k) (left_at (i + k) (i + k)).*2.
Proof using Hds.
  revert i. induction k as [|k IH]; intros i Hle; simpl.
  - rewrite Nat.add_0_r. apply leads_nil.
  - eapply leads_app; [apply block_leads; lia|].
    replace (i + S k) with (S i + k) by lia. apply IH. lia.
Qed.

(** The sorted chronicle is legal, and ends in what the writes left. *)
Lemma sorted_leads : leads (spec_init Sp) sorted (rrun ds).*2.
Proof using Hds.
  pose proof (blocks_lead 0 (length ds) ltac:(lia)) as Hl. simpl in Hl.
  assert (∀ a, (left_at a (length ds)) = rrun ds) as Hend.
  { intros a. unfold left_at, pops, nodes_at. rewrite firstn_all, drop_all.
    apply filter_all. intros y _. apply not_elem_of_nil. }
  by rewrite Hend in Hl.
Qed.
End sorted.
End order.

(** A justified chronicle gives the history of the run a linearization, after
    which the deque holds the values of the nodes that the writes left. *)
Theorem justified_linearization {T} (zero : T) r0 H lens log reads g ds :
  kept g ds → same_ops log (g_log g) → stamped (open_spec r0) H lens log reads →
  g_hist g = zip H lens → all_justified zero ds →
  ∃ L, linearization (deque_spec zero) H L ∧
    run (deque_spec zero) (spec_init (deque_spec zero)) L = (rrun ds).*2.
Proof.
  intros Hk Hsame Hst Hhist Hj. exists (d_entry <$> sorted ds).
  destruct (sorted_leads zero ds Hj) as [Hlegal Hrun]. split; [|done].
  eapply (chronicle_linearization r0); try done.
  - eapply sorted_perm; [done|]. by eapply kept_NoDup.
  - by eapply blocks_sorted.
Qed.
