(* ===== verification/DequeCode.v ===== *)
(** [lf.Deque]: the code of the lock-free deque ([lf/deque.go]). *)

From S2P Require Export Machine Adt Atomics.

Module Deque.

(** [markedVal] of [lf/splithashmap.go], an immutable pair. *)
Record markedVal := MarkedVal {
  mv_ref : option loc;
  mv_mark : bool
}.

Section deque.
Context {T : Type} (zero : T).

(** [dn_prev] and [dn_next] are the [atomic.Pointer]s inside the [atomicMarkable]s. *)
Record denode := Denode {
  dn_value : T;
  dn_prev : option loc;
  dn_next : option loc
}.

Record mem := Mem {
  nodes : list denode;
  marks : list markedVal;
  head : loc;
  tail : loc
}.

Definition nodes_f : field mem (list denode) :=
  Field nodes (λ x m, Mem x (marks m) (head m) (tail m)).
Definition marks_f : field mem (list markedVal) :=
  Field marks (λ x m, Mem (nodes m) x (head m) (tail m)).
Definition prev_f : field denode (option loc) :=
  Field dn_prev (λ x n, Denode (dn_value n) x (dn_next n)).
Definition next_f : field denode (option loc) :=
  Field dn_next (λ x n, Denode (dn_value n) (dn_prev n) x).

(** ** Markable references

    The receiver is the field [f] of the node at [n], a panic when [n] is nil;
    in the field, a nil pointer reads as nil without a mark. *)
Implicit Types (f : field denode (option loc)) (n : option loc).

Definition load_mark (c : option loc) : prog mem (option loc * bool) :=
  match c with
  | Some c => act (load_at marks c (λ v, (mv_ref v, mv_mark v)))
  | None => Ret (None, false)
  end.

Definition get f n : prog mem (option loc * bool) :=
  let! c := act (load_ptr nodes n (f_get f)) in
  load_mark c.

Definition reference f n : prog mem (option loc) :=
  let! c := act (load_ptr nodes n (f_get f)) in
  let! v := load_mark c in
  Ret (v.1).

Definition set f (n : loc) (ref : option loc) (mark : bool) : prog mem unit :=
  let! c := act (new marks_f (MarkedVal ref mark)) in
  act (store_at nodes_f n f (Some c)).

Definition compareAndSet f n (expectRef newRef : option loc) (expectMark newMark : bool)
    : prog mem bool :=
  let! c := act (load_ptr nodes n (f_get f)) in
  let! v := load_mark c in
  if negb (bool_decide (v.1 = expectRef) && eqb v.2 expectMark) then Ret false
  else if bool_decide (newRef = v.1) && eqb newMark v.2 then Ret true
  else
    let! c' := act (new marks_f (MarkedVal newRef newMark)) in
    act (cas_ptr nodes_f n f c (Some c')).

Definition derefActive f n : prog mem (option loc) :=
  let! v := get f n in
  Ret (if v.2 : bool then None else v.1).

(** ** The deque *)

(** [head.next], [head.prev], [tail.prev] and [tail.next]. *)
Definition NewDeque : mem :=
  Mem [Denode zero (Some 1) (Some 0); Denode zero (Some 2) (Some 3)]
    [MarkedVal (Some 1) false; MarkedVal (Some 0) false;
     MarkedVal (Some 0) false; MarkedVal (Some 1) false] 0 1.

Definition markPrev (node : option loc) : prog mem unit :=
  loop (λ _ : unit,
    let! link1 := get prev_f node in
    if link1.2 : bool then break tt
    else
      let! ok := compareAndSet prev_f node link1.1 link1.1 false true in
      if ok : bool then break tt else continue tt) tt.

(** [if prev2 == nil { ... }], which [helpDelete] and [helpInsert] share: the new
    [prev]; [last] becomes nil. *)
Definition step_back (last prev : option loc) : prog mem (option loc) :=
  match last with
  | Some _ =>
      markPrev prev ;;;
      let! next2 := reference next_f prev in
      compareAndSet next_f last prev next2 false false ;;;
      Ret last
  | None => reference prev_f prev
  end.

(** One round of the loop of [helpDelete]; the variables are [last], [prev] and
    [next]. *)
Definition helpDelete_round (node : option loc) (vars : option loc * option loc * option loc)
    : prog mem (option loc * option loc * option loc + unit) :=
  let '(last, prev, next) := vars in
  if bool_decide (prev = next) then break tt
  else
    let! nn := get next_f next in
    if nn.2 : bool then
      markPrev next ;;;
      let! next := reference next_f next in
      continue (last, prev, next)
    else
      let! prev2 := derefActive next_f prev in
      match prev2 with
      | None =>
          let! prev := step_back last prev in
          continue (None, prev, next)
      | Some _ =>
          if negb (bool_decide (prev2 = node)) then continue (prev, prev2, next)
          else
            let! ok := compareAndSet next_f prev node next false false in
            if ok : bool then break tt else continue (last, prev, next)
      end.

Definition helpDelete (node : option loc) : prog mem unit :=
  markPrev node ;;;
  let! prev := reference prev_f node in
  let! next := reference next_f node in
  loop (helpDelete_round node) (None, prev, next).

(** One round of the loop of [helpInsert]; the variables are [last] and [prev]. *)
Definition helpInsert_round (node : option loc) (vars : option loc * option loc)
    : prog mem (option loc * option loc + option loc) :=
  let '(last, prev) := vars in
  let! prev2 := derefActive next_f prev in
  match prev2 with
  | None =>
      let! prev := step_back last prev in
      continue (None, prev)
  | Some _ =>
      let! link1 := get prev_f node in
      if link1.2 : bool then break prev
      else if negb (bool_decide (prev2 = node)) then continue (prev, prev2)
      else if bool_decide (link1.1 = prev) then break prev
      else
        let! pn := get next_f prev in
        let! ok := (if bool_decide (pn.1 = node)
                    then compareAndSet prev_f node link1.1 prev false false
                    else Ret false) in
        if ok : bool then
          let! pp := get prev_f prev in
          if pp.2 : bool then continue (last, prev) else break prev
        else continue (last, prev)
  end.

Definition helpInsert (prev node : option loc) : prog mem (option loc) :=
  loop (helpInsert_round node) (None, prev).

Definition pushCommon (node next : option loc) : prog mem unit :=
  loop (λ _ : unit,
    let! link1 := get prev_f next in
    let! nr := get next_f node in
    if link1.2 || negb (bool_decide (nr.1 = next)) || nr.2 then break tt
    else
      let! ok := compareAndSet prev_f next link1.1 node false false in
      if ok : bool then
        let! pm := get prev_f node in
        if pm.2 : bool then helpInsert node next ;;; break tt else break tt
      else continue tt) tt.

(** ** The methods *)

Definition PushFront (v : T) : prog mem (resp T) :=
  let! node := act (new nodes_f (Denode v None None)) in
  let! prev := act (load head) in
  let! next := derefActive next_f (Some prev) in
  let! next := loop (λ next,
    let! rm := get next_f (Some prev) in
    if negb (bool_decide (rm.1 = next)) || rm.2 then
      let! next := derefActive next_f (Some prev) in
      continue next
    else
      set prev_f node (Some prev) false ;;;
      set next_f node next false ;;;
      let! ok := compareAndSet next_f (Some prev) next (Some node) false false in
      if ok : bool then break next else continue next) next in
  pushCommon (Some node) next ;;;
  Ret RDone.

Definition PushBack (v : T) : prog mem (resp T) :=
  let! node := act (new nodes_f (Denode v None None)) in
  let! next := act (load tail) in
  let! prev := derefActive prev_f (Some next) in
  loop (λ prev,
    let! rm := get next_f prev in
    if negb (bool_decide (rm.1 = Some next)) || rm.2 then
      let! prev := helpInsert prev (Some next) in
      continue prev
    else
      set prev_f node prev false ;;;
      set next_f node (Some next) false ;;;
      let! ok := compareAndSet next_f prev (Some next) (Some node) false false in
      if ok : bool then break tt else continue prev) prev ;;;
  pushCommon (Some node) (Some next) ;;;
  Ret RDone.

Definition PopFront : prog mem (resp T) :=
  let! prev := act (load head) in
  loop (λ _ : unit,
    let! node := derefActive next_f (Some prev) in
    let! tl := act (load tail) in
    if bool_decide (node = Some tl) then break (RVal zero false)
    else
      let! link1 := get next_f node in
      if link1.2 : bool then
        helpDelete node ;;;
        continue tt
      else
        let! ok := compareAndSet next_f node link1.1 link1.1 false true in
        if ok : bool then
          helpDelete node ;;;
          let! next := reference next_f node in
          helpInsert (Some prev) next ;;;
          let! v := act (load_ptr nodes node dn_value) in
          break (RVal v true)
        else continue tt) tt.

Definition PopBack : prog mem (resp T) :=
  let! next := act (load tail) in
  let! node := derefActive prev_f (Some next) in
  loop (λ node,
    let! rm := get next_f node in
    if negb (bool_decide (rm.1 = Some next)) || rm.2 then
      let! node := helpInsert node (Some next) in
      continue node
    else
      let! hd := act (load head) in
      if bool_decide (node = Some hd) then break (RVal zero false)
      else
        let! ok := compareAndSet next_f node (Some next) (Some next) false true in
        if ok : bool then
          helpDelete node ;;;
          let! prev := reference prev_f node in
          helpInsert prev (Some next) ;;;
          let! v := act (load_ptr nodes node dn_value) in
          break (RVal v true)
        else continue node) node.

(** Any goroutine may call any method. *)
Definition lf_deque_code (_ : nat) (o : deque_op T) : prog mem (resp T) :=
  match o with
  | Adt.PushFront v => PushFront v
  | Adt.PushBack v => PushBack v
  | Adt.PopFront => PopFront
  | Adt.PopBack => PopBack
  end.

Definition lf_deque_object : object mem (deque_op T) (resp T) :=
  Object NewDeque lf_deque_code (λ _ _ _ _, true).
End deque.

Arguments denode : clear implicits.
Arguments mem : clear implicits.
End Deque.
