(* ===== verification/DequeInv.v ===== *)
(** [lf.Deque]: the invariant of its memory, and what a goroutine may rely on.

    The nodes linked by [next] from [head] to [tail] form the chain; marked
    nodes leave it when a neighbour is made to point past them, with their [next]
    frozen.  Every other node is still owned by the push that made it.  The
    [prev] pointers only lead to linked nodes; which ones is left open. *)

From S2P Require Export Rules DequeOrder DequeCode.
Export Deque.

Inductive side := Prev | Next.
#[export] Instance side_eq_dec : EqDecision side.
Proof. solve_decision. Defined.

Section inv.
Context {T : Type} (zero : T).
Abbreviation mem := (mem T).
Abbreviation deed := (deed (deque_op T) (resp T) (option loc)).
Abbreviation Sp := (open_spec (@RDone T)).
Implicit Types (m : mem) (s : side) (l n : loc).

Definition fld s : field (denode T) (option loc) :=
  match s with Prev => prev_f | Next => next_f end.

(** The node and the mark in a link of [l], and its value. *)
Definition lk s m l : option (loc * bool) :=
  nd ← nodes m !! l; c ← f_get (fld s) nd; v ← marks m !! c; r ← mv_ref v; Some (r, mv_mark v).

Definition value m l : option T := dn_value <$> nodes m !! l.

(** What a node of the chain contributes to the deque. *)
Definition content m l : option (loc * T) :=
  if decide (l = head m ∨ l = tail m) then None
  else match lk Next m l with
       | Some (_, false) => (λ v, (l, v)) <$> value m l
       | _ => None
       end.

(** [own] maps the nodes not linked yet to the goroutine that made them;
    [deeds] is the chronicle of the operations. *)
Record aux := Aux {
  chain : list loc;
  own : gmap loc nat;
  deeds : list deed
}.

Abbreviation world := (Machine.world mem (deque_op T) (resp T) aux).
Implicit Types (w : world).

Definition linked w l : Prop := l < length (nodes (w_mem w)) ∧ own (w_aux w) !! l = None.

Definition link w s l : option (loc * bool) := lk s (w_mem w) l.

Definition dead w l : Prop := linked w l ∧ ∃ r, link w Next l = Some (r, true).

Record shape w : Prop := {
  s_ends : ∃ mid, chain (w_aux w) = head (w_mem w) :: mid ++ [tail (w_mem w)];
  s_nodup : NoDup (chain (w_aux w));
  s_adj : ∀ i a b, chain (w_aux w) !! i = Some a → chain (w_aux w) !! S i = Some b →
    ∃ mk, link w Next a = Some (b, mk);
  s_in : ∀ l, l ∈ chain (w_aux w) → linked w l;
  s_out : ∀ l, linked w l → l ∉ chain (w_aux w) → dead w l;
  s_next : ∀ l, linked w l → ∃ r mk, link w Next l = Some (r, mk) ∧ linked w r;
  s_prev : ∀ l, linked w l → ∃ r mk, link w Prev l = Some (r, mk) ∧ linked w r ∧
    r ≠ tail (w_mem w) ∧ (mk = true → dead w l);
  s_head : ∃ r, link w Next (head (w_mem w)) = Some (r, false);
  s_tail : link w Next (tail (w_mem w)) = Some (tail (w_mem w), false);
  s_own : ∀ l t, own (w_aux w) !! l = Some t → is_Some (nodes (w_mem w) !! l)
}.

Record Inv w : Prop := {
  i_kept : kept (w_gh w) (deeds (w_aux w));
  i_deeds : all_justified zero (deeds (w_aux w));
  i_pushed : ∀ d n, d ∈ deeds (w_aux w) → d_data d = Some n → linked w n;
  i_contents : rrun (deeds (w_aux w)) = omap (content (w_mem w)) (chain (w_aux w));
  i_shape : shape w
}.

(** What goroutine [t] relies on the others to respect. *)
Record rely (t : nat) w w' : Prop := {
  r_quiet : quiet t (w_gh w) (w_gh w');
  r_deeds : deeds (w_aux w) `prefix_of` deeds (w_aux w');
  r_marks : marks (w_mem w) `prefix_of` marks (w_mem w');
  r_linked : ∀ l, linked w l → linked w' l;
  r_frozen : ∀ l r, linked w l → link w Next l = Some (r, true) → link w' Next l = Some (r, true);
  r_own : ∀ l, own (w_aux w) !! l = Some t →
    own (w_aux w') !! l = Some t ∧ nodes (w_mem w') !! l = nodes (w_mem w) !! l;
  r_value : ∀ l v, value (w_mem w) l = Some v → value (w_mem w') l = Some v;
  r_ends : head (w_mem w') = head (w_mem w) ∧ tail (w_mem w') = tail (w_mem w)
}.

Global Instance rely_preorder t : PreOrder (rely t).
Proof.
  split.
  - intros w. by split.
  - intros w1 w2 w3 H1 H2. split.
    + etrans; [apply H1|apply H2].
    + etrans; [apply H1|apply H2].
    + etrans; [apply H1|apply H2].
    + intros l ?. by apply H2, H1.
    + intros l r ? ?. apply H2; [by apply H1|]. by apply H1.
    + intros l Hl. destruct (r_own _ _ _ H1 _ Hl) as [Hl' Heq].
      destruct (r_own _ _ _ H2 _ Hl') as [? Heq']. split; [done|congruence].
    + intros l v Hv. by apply (r_value _ _ _ H2), (r_value _ _ _ H1).
    + destruct (r_ends _ _ _ H1), (r_ends _ _ _ H2). split; congruence.
Qed.

Definition proto : protocol mem (deque_op T) (resp T) aux := Protocol Inv rely rely_preorder.

(** ** Links *)

Lemma lk_some s m l x : lk s m l = Some x ↔ ∃ nd c,
  nodes m !! l = Some nd ∧ f_get (fld s) nd = Some c ∧
  marks m !! c = Some (MarkedVal (Some x.1) x.2).
Proof.
  unfold lk. destruct x as [r b]. simpl. split.
  - intros (nd & Hn & (c & Hc & ([o b'] & Hv & (r' & Hr & Hx)%bind_Some)%bind_Some)
      %bind_Some)%bind_Some. simpl in *. simplify_eq. eauto 10.
  - intros (nd & c & -> & Hc & Hv). simpl. rewrite Hc. simpl. by rewrite Hv.
Qed.

Lemma lk_mono s m m' l x :
  lk s m l = Some x → nodes m' !! l = nodes m !! l → marks m `prefix_of` marks m' →
  lk s m' l = Some x.
Proof.
  rewrite !lk_some. intros (nd & c & Hn & Hc & Hv) Heq Hp. rewrite Heq.
  exists nd, c. split; [done|]. split; [done|]. by eapply prefix_lookup_Some'.
Qed.

Lemma dq_linked_node w l : linked w l → ∃ nd, nodes (w_mem w) !! l = Some nd.
Proof. intros [[nd ?]%lookup_lt_is_Some_2 _]. eauto. Qed.

Lemma linked_value w l : linked w l → ∃ v, value (w_mem w) l = Some v.
Proof. intros (nd & Hn)%dq_linked_node. exists (dn_value nd). unfold value. by rewrite Hn. Qed.

Lemma dead_linked w l : dead w l → linked w l.
Proof. by intros [? _]. Qed.

Section shape.
Context (w : world) (Hs : shape w).

Lemma dq_head_linked : linked w (head (w_mem w)).
Proof using Hs. destruct (s_ends _ Hs) as [mid Hc]. apply (s_in _ Hs). rewrite Hc. by left. Qed.

Lemma tail_linked : linked w (tail (w_mem w)).
Proof using Hs. destruct (s_ends _ Hs) as [mid Hc]. apply (s_in _ Hs). rewrite Hc. set_solver. Qed.

Lemma head_tail : head (w_mem w) ≠ tail (w_mem w).
Proof using Hs.
  destruct (s_ends _ Hs) as [mid Hc]. pose proof (s_nodup _ Hs) as Hnd. rewrite Hc in Hnd.
  apply NoDup_cons in Hnd as [Hnot _]. intros Heq. apply Hnot. rewrite Heq. set_solver.
Qed.

Lemma head_alive : ¬ dead w (head (w_mem w)).
Proof using Hs. intros [_ [r Hr]]. destruct (s_head _ Hs) as [r' Hr']. congruence. Qed.

Lemma tail_alive : ¬ dead w (tail (w_mem w)).
Proof using Hs. intros [_ [r Hr]]. pose proof (s_tail _ Hs). congruence. Qed.

(** A node that is not marked is in the chain, and what it points to comes next. *)
Lemma alive_chain l r : linked w l → link w Next l = Some (r, false) → l ∈ chain (w_aux w).
Proof using Hs.
  intros Hl Hr. destruct (decide (l ∈ chain (w_aux w))) as [|Hno]; [done|].
  destruct (s_out _ Hs _ Hl Hno) as [_ [r' ?]]. congruence.
Qed.

Lemma chain_succ i l r mk :
  chain (w_aux w) !! i = Some l → l ≠ tail (w_mem w) → link w Next l = Some (r, mk) →
  chain (w_aux w) !! S i = Some r.
Proof using Hs.
  intros Hi Hne Hr. destruct (s_ends _ Hs) as [mid Hc].
  destruct (chain (w_aux w) !! S i) as [b|] eqn:Eb.
  - destruct (s_adj _ Hs _ _ _ Hi Eb) as [mk' ?]. congruence.
  - exfalso. apply Hne. apply lookup_ge_None in Eb. apply lookup_lt_Some in Hi as Hlt.
    rewrite Hc in *. change (head (w_mem w) :: mid ++ [tail (w_mem w)]) with
      ((head (w_mem w) :: mid) ++ [tail (w_mem w)]) in Hi.
    apply lookup_snoc_inv in Hi as [Hi|[_ ?]]; [|done].
    apply lookup_lt_Some in Hi. rewrite length_cons, length_app in Eb. simpl in *. lia.
Qed.
End shape.

(** The neighbours of the chain, as a list. *)
Lemma chain_split w p b mk : shape w → p ∈ chain (w_aux w) → p ≠ tail (w_mem w) →
  link w Next p = Some (b, mk) → ∃ A B, chain (w_aux w) = A ++ p :: b :: B.
Proof.
  intros Hs [i Hi]%list_elem_of_lookup Hne Hp. pose proof (chain_succ _ Hs _ _ _ _ Hi Hne Hp) as Hb.
  exists (take i (chain (w_aux w))), (drop (S (S i)) (chain (w_aux w))).
  rewrite <-(take_drop i (chain (w_aux w))) at 1. f_equal.
  by rewrite (drop_S _ _ _ Hi), (drop_S _ _ _ Hb).
Qed.

(** Marked nodes, whose links are frozen, lead from [a] to [b]. *)
Definition path w : relation loc := tc (λ x y, linked w x ∧ link w Next x = Some (y, true)).

(** Such a path runs along the chain. *)
Lemma path_chain w a b A B : shape w → path w a b → chain (w_aux w) = A ++ a :: B →
  ∃ seg B', a :: B = seg ++ b :: B' ∧ ∀ l, l ∈ seg → dead w l.
Proof.
  intros Hs Hp. revert A B.
  assert (∀ x y A B, linked w x → link w Next x = Some (y, true) →
    chain (w_aux w) = A ++ x :: B → ∃ B', B = y :: B' ∧ dead w x) as Hstep.
  { intros x y A B Hl Hx Hc.
    assert (dead w x) as Hd by (split; [done|by exists y]).
    assert (x ≠ tail (w_mem w)) as Hne by (intros ->; by apply tail_alive in Hd).
    assert (chain (w_aux w) !! length A = Some x) as Hi by by rewrite Hc, list_lookup_middle.
    pose proof (chain_succ _ Hs _ _ _ _ Hi Hne Hx) as Hy. rewrite Hc in Hy.
    rewrite lookup_app_r in Hy by lia. replace (S (length A) - length A) with 1 in Hy by lia.
    destruct B as [|y' B']; simplify_eq/=. by exists B'. }
  induction Hp as [a b [Hl Ha]|a a1 b [Hl Ha] _ IH]; intros A B Hc.
  - destruct (Hstep _ _ _ _ Hl Ha Hc) as (B' & -> & Hd). exists [a], B'. split; [done|].
    by intros l ->%list_elem_of_singleton.
  - destruct (Hstep _ _ _ _ Hl Ha Hc) as (B1 & -> & Hd).
    destruct (IH (A ++ [a]) B1) as (seg & B' & Heq & Hseg); [by rewrite Hc, <-app_assoc|].
    exists (a :: seg), B'. split; [simpl; by rewrite Heq|].
    intros l [->|?]%elem_of_cons; [done|by apply Hseg].
Qed.

Lemma path_stable t w w' a b : rely t w w' → path w a b → path w' a b.
Proof.
  intros HR. apply tc_congruence with (f := id). intros x y [? ?].
  split; [by apply HR|by apply HR].
Qed.

Lemma dq_dead_stable t w w' l : rely t w w' → dead w l → dead w' l.
Proof. intros HR [? [r ?]]. split; [by apply HR|]. exists r. by apply HR. Qed.

Lemma dq_linked_stable t w w' l : rely t w w' → linked w l → linked w' l.
Proof. intros HR. apply HR. Qed.

(** A node [l] of goroutine [t] with value [v]. *)
Definition mine t w l (v : T) : Prop :=
  own (w_aux w) !! l = Some t ∧ value (w_mem w) l = Some v.

Lemma mine_stable t w w' l v : rely t w w' → mine t w l v → mine t w' l v.
Proof. intros HR [? ?]. split; by apply HR. Qed.

Lemma mine_link_stable t w w' s l v x :
  rely t w w' → mine t w l v → link w s l = Some x → link w' s l = Some x.
Proof.
  intros HR [Ho _] Hl. eapply lk_mono; [exact Hl|by apply HR|by apply HR].
Qed.

(** The operation [o] of [t] is pending, or done with response [r]. *)
Definition ready t o w : Prop := pending (w_gh w) t o.
Definition finished t r w : Prop := settled (w_gh w) (deeds (w_aux w)) t r.

Lemma deque_ready_stable t o w w' : rely t w w' → ready t o w → ready t o w'.
Proof. intros HR Hp. eapply pending_quiet; [exact Hp|apply HR]. Qed.

Lemma deque_finished_stable t r w w' : rely t w w' → finished t r w → finished t r w'.
Proof. intros HR Hf. eapply settled_quiet; [exact Hf|apply HR|apply HR]. Qed.

(** Node [n] was the first one when the chronicle had length [a], since the call
    of [PopFront] by [t]; or it is marked by now. *)
Definition was_first t n v (a : nat) w : Prop :=
  since (w_gh w) t Adt.PopFront a ∧ linked w n ∧ value (w_mem w) n = Some v ∧
  n ≠ head (w_mem w) ∧ n ≠ tail (w_mem w) ∧
  (dead w n ∨ a ≤ length (deeds (w_aux w)) ∧
    list.head (rrun (take a (deeds (w_aux w)))) = Some (n, v)).

Lemma was_first_stable t n v a w w' : rely t w w' → was_first t n v a w → was_first t n v a w'.
Proof.
  intros HR (Hs & Hl & Hv & Hh & Ht & Hor). unfold was_first.
  destruct (r_ends _ _ _ HR) as [-> ->].
  split; [eapply since_quiet; [done|apply HR]|]. split; [by apply HR|].
  split; [by apply HR|]. split; [done|]. split; [done|].
  destruct Hor as [?|[Ha Hn]]; [left; by eapply dq_dead_stable|right].
  pose proof (r_deeds _ _ _ HR) as Hp. apply prefix_length in Hp as ?.
  split; [lia|]. by rewrite (take_of_prefix _ _ _ Hp) by done.
Qed.
End inv.

Arguments aux : clear implicits.
Arguments Aux {_}.

#[export] Hint Resolve path_stable dq_dead_stable dq_linked_stable mine_stable deque_ready_stable
  deque_finished_stable was_first_stable dead_linked : lockfree.
