(* ===== verification/DequeSteps.v ===== *)
(** [lf.Deque]: the writes of the code keep the invariant. *)

From S2P Require Export DequeInv.

Section steps.
Context {T : Type} (zero : T).
Abbreviation mem := (mem T).
Abbreviation world := (Machine.world mem (deque_op T) (resp T) (aux T)).
Abbreviation Sp := (open_spec (@RDone T)).
Abbreviation Inv := (Inv zero).
Abbreviation proto := (proto zero).
Implicit Types (m : mem) (s : side) (l n : loc) (w : world).

(** ** A write to a link of [l] *)

Record wrote s l (x : loc * bool) m m' : Prop := {
  wr_lk : ∀ s' l', lk s' m' l' = if decide (s' = s ∧ l' = l) then Some x else lk s' m l';
  wr_value : ∀ l', value m' l' = value m l';
  wr_marks : marks m' = marks m;
  wr_len : length (nodes m') = length (nodes m);
  wr_other : ∀ l', l' ≠ l → nodes m' !! l' = nodes m !! l';
  wr_ends : head m' = head m ∧ tail m' = tail m
}.

Lemma put_wrote s l c r b nd m :
  nodes m !! l = Some nd → marks m !! c = Some (MarkedVal (Some r) b) →
  wrote s l (r, b) m (f_set nodes_f (<[l := f_set (fld s) (Some c) nd]> (nodes m)) m).
Proof.
  intros Hn Hc. set (m' := f_set nodes_f _ m).
  assert (∀ l', l' ≠ l → nodes m' !! l' = nodes m !! l') as Hother.
  { intros l' ?. simpl. by rewrite list_lookup_insert_ne. }
  assert (nodes m' !! l = Some (f_set (fld s) (Some c) nd)) as Hl.
  { apply list_lookup_insert_eq. by eapply lookup_lt_Some. }
  split; [|..|done|by simpl; rewrite length_insert|exact Hother|done].
  - intros s' l'. destruct (decide (l' = l)) as [->|Hne].
    + destruct (decide (s' = s)) as [->|Hs].
      * rewrite decide_True by done. apply lk_some. eexists _, c. split; [exact Hl|].
        split; [by destruct s|done].
      * rewrite decide_False by naive_solver. unfold lk. rewrite Hl, Hn. simpl.
        by destruct s, s'.
    + rewrite decide_False by naive_solver. unfold lk. by rewrite Hother.
  - intros l'. unfold value. destruct (decide (l' = l)) as [->|]; [|by rewrite Hother].
    rewrite Hl, Hn. simpl. by destruct s.
Qed.

Lemma wrote_here s l x m m' : wrote s l x m m' → lk s m' l = Some x.
Proof. intros Hw. by rewrite (wr_lk _ _ _ _ _ Hw), decide_True by done. Qed.

Lemma wrote_other s l x m m' s' l' : wrote s l x m m' → s' ≠ s ∨ l' ≠ l → lk s' m' l' = lk s' m l'.
Proof. intros Hw ?. by rewrite (wr_lk _ _ _ _ _ Hw), decide_False by naive_solver. Qed.

(** A write leaves the chain's contents alone when it marks nothing in it. *)
Lemma content_ext m m' l : head m' = head m → tail m' = tail m →
  lk Next m' l = lk Next m l → value m' l = value m l → content m' l = content m l.
Proof. unfold content. by intros -> -> -> ->. Qed.

(** ** Steps that keep the chain *)

(** The steps without effect: the links of the chain stay, the [prev] pointers
    go to linked nodes. *)
Section same.
Context (w w' : world) (HI : Inv w).
Context (Hgh : w_gh w' = w_gh w) (Hchain : chain (w_aux w') = chain (w_aux w)).
Context (Hdeeds : deeds (w_aux w') = deeds (w_aux w)).
Context (Hlinked : ∀ l, linked w' l ↔ linked w l).
Context (Hnext : ∀ l, linked w l → link w' Next l = link w Next l).
Context (Hprev : ∀ l, linked w l → ∃ r mk, link w' Prev l = Some (r, mk) ∧ linked w r ∧
  r ≠ tail (w_mem w) ∧ (mk = true → dead w l)).
Context (Hvalue : ∀ l, linked w l → value (w_mem w') l = value (w_mem w) l).
Context (Hends : head (w_mem w') = head (w_mem w) ∧ tail (w_mem w') = tail (w_mem w)).
Context (Hown : ∀ l t, own (w_aux w') !! l = Some t → is_Some (nodes (w_mem w') !! l)).

Lemma same_dead l : dead w' l ↔ dead w l.
Proof using Hlinked Hnext.
  unfold dead. rewrite Hlinked. split; intros [Hl [r Hr]]; (split; [done|]); exists r;
    [by rewrite <-Hnext|by rewrite Hnext].
Qed.

Lemma inv_same : Inv w'.
Proof using All.
  pose proof (i_shape _ _ HI) as Hs. destruct Hends as [Hhd Htl].
  split; rewrite ?Hgh, ?Hdeeds; try apply HI.
  - intros d n ? ?. apply Hlinked. by eapply (i_pushed _ _ HI).
  - rewrite (i_contents _ _ HI), Hchain. apply list_omap_ext, Forall_Forall2_diag, Forall_forall.
    intros l Hl. symmetry. pose proof (s_in _ Hs _ Hl). apply content_ext; auto.
    by apply Hnext.
  - split; rewrite ?Hchain, ?Hhd, ?Htl; try apply Hs.
    + intros i a b Ha Hb. rewrite Hnext by (apply (s_in _ Hs); by eapply list_elem_of_lookup_2).
      by apply (s_adj _ Hs _ _ _ Ha).
    + intros l ?. by apply Hlinked, (s_in _ Hs).
    + intros l ? ?. apply same_dead, (s_out _ Hs); [by apply Hlinked|done].
    + intros l Hl. apply Hlinked in Hl. rewrite Hnext by done.
      destruct (s_next _ Hs _ Hl) as (r & mk & ? & ?). exists r, mk.
      split; [done|]. by apply Hlinked.
    + intros l Hl. apply Hlinked in Hl. destruct (Hprev _ Hl) as (r & mk & ? & ? & ? & ?).
      exists r, mk. split; [done|]. split; [by apply Hlinked|]. split; [done|].
      intros ?. apply same_dead. auto.
    + rewrite Hnext by by apply dq_head_linked. apply Hs.
    + rewrite Hnext by by apply tail_linked. apply Hs.
    + exact Hown.
Qed.

Lemma dq_rely_same u :
  marks (w_mem w) `prefix_of` marks (w_mem w') →
  (∀ l, own (w_aux w) !! l = Some u →
    own (w_aux w') !! l = Some u ∧ nodes (w_mem w') !! l = nodes (w_mem w) !! l) →
  (∀ l v, value (w_mem w) l = Some v → value (w_mem w') l = Some v) → rely u w w'.
Proof using Hgh Hdeeds Hlinked Hnext Hends.
  intros. split; rewrite ?Hgh, ?Hdeeds; try done.
  - intros l ?. by apply Hlinked.
  - intros l r ? ?. by rewrite Hnext.
Qed.
End same.

(** Writing a [prev] pointer. *)
Lemma prev_write u w l r b m' :
  Inv w → linked w l → wrote Prev l (r, b) (w_mem w) m' → linked w r →
  r ≠ tail (w_mem w) → (b = true → dead w l) →
  let w' := upd Sp w m' [] (w_aux w) in Inv w' ∧ rely u w w'.
Proof.
  intros HI Hl Hw Hr Hne Hb w'. pose proof (i_shape _ _ HI) as Hs.
  assert (∀ l', linked w' l' ↔ linked w l') as Hlinked.
  { intros l'. unfold linked. simpl. by rewrite (wr_len _ _ _ _ _ Hw). }
  assert (∀ l', link w' Next l' = link w Next l') as Hnext.
  { intros l'. eapply wrote_other; [exact Hw|by left]. }
  split.
  - eapply (inv_same w); try done.
    + intros l' Hl'. destruct (decide (l' = l)) as [->|].
      * exists r, b. split; [by eapply wrote_here|done].
      * unfold link. simpl. rewrite (wrote_other _ _ _ _ _ _ _ Hw) by by right.
        by apply (s_prev _ Hs).
    + intros l' _. apply (wr_value _ _ _ _ _ Hw).
    + apply (wr_ends _ _ _ _ _ Hw).
    + intros l' t Ho. simpl in Ho |- *. destruct (s_own _ Hs _ _ Ho) as [nd ?].
      apply lookup_lt_is_Some. rewrite (wr_len _ _ _ _ _ Hw). by eapply lookup_lt_Some.
  - eapply (dq_rely_same w); try done.
    + apply (wr_ends _ _ _ _ _ Hw).
    + simpl. by rewrite (wr_marks _ _ _ _ _ Hw).
    + intros l' Ho. split; [done|]. apply (wr_other _ _ _ _ _ Hw). intros ->.
      destruct Hl as [_ Hl]. simpl in *. congruence.
    + intros l' v ?. simpl. by rewrite (wr_value _ _ _ _ _ Hw).
Qed.

(** Writing a link of a node nobody else has. *)
Lemma own_write t u w l v s x m' :
  Inv w → mine t w l v → wrote s l x (w_mem w) m' → u ≠ t →
  let w' := upd Sp w m' [] (w_aux w) in
  Inv w' ∧ rely u w w' ∧ mine t w' l v ∧ link w' s l = Some x ∧
  (∀ s', s' ≠ s → link w' s' l = link w s' l) ∧
  (∀ l', linked w l' → linked w' l') ∧ (∀ l', dead w l' → dead w' l') ∧
  head (w_mem w') = head (w_mem w) ∧ tail (w_mem w') = tail (w_mem w) ∧ w_gh w' = w_gh w.
Proof.
  intros HI [Ho Hv] Hw Hu w'. pose proof (i_shape _ _ HI) as Hs.
  assert (∀ l', linked w' l' ↔ linked w l') as Hlinked.
  { intros l'. unfold linked. simpl. by rewrite (wr_len _ _ _ _ _ Hw). }
  assert (∀ s' l', linked w l' → link w' s' l' = link w s' l') as Hlk.
  { intros s' l' [_ Hl']. eapply wrote_other; [exact Hw|right]. congruence. }
  assert (∀ l' u', own (w_aux w') !! l' = Some u' → is_Some (nodes (w_mem w') !! l')) as Hown.
  { intros l' u' Ho'. simpl in Ho' |- *. destruct (s_own _ Hs _ _ Ho') as [nd ?].
    apply lookup_lt_is_Some. rewrite (wr_len _ _ _ _ _ Hw). by eapply lookup_lt_Some. }
  pose proof (wr_ends _ _ _ _ _ Hw) as Hends.
  assert (Inv w') as HI'.
  { eapply (inv_same w); try done.
    - intros l' ?. by apply Hlk.
    - intros l' Hl'. rewrite Hlk by done. by apply (s_prev _ Hs).
    - intros l' _. apply (wr_value _ _ _ _ _ Hw). }
  split; [exact HI'|]. split; [|split; [|split; [by eapply wrote_here|split; [|split; [|split]]]]].
  - eapply (dq_rely_same w); try done.
    + intros l' ?. by apply Hlk.
    + simpl. by rewrite (wr_marks _ _ _ _ _ Hw).
    + intros l' Ho'. split; [done|]. apply (wr_other _ _ _ _ _ Hw). intros ->. congruence.
    + intros l' v' ?. simpl. by rewrite (wr_value _ _ _ _ _ Hw).
  - split; [done|]. simpl. by rewrite (wr_value _ _ _ _ _ Hw).
  - intros s' Hs'. eapply wrote_other; [exact Hw|by left].
  - intros l'. apply Hlinked.
  - intros l' [Hl' [r Hr]]. split; [by apply Hlinked|]. exists r. by rewrite Hlk.
  - split; [apply Hends|split; [apply Hends|done]].
Qed.

(** [&markedVal{...}] *)
Lemma new_mark t w v :
  Inv w → let w' := upd Sp w (f_set marks_f (marks (w_mem w) ++ [v]) (w_mem w)) [] (w_aux w) in
  Inv w' ∧ rely t w w' ∧ marks (w_mem w') !! length (marks (w_mem w)) = Some v.
Proof.
  intros HI w'. pose proof (i_shape _ _ HI) as Hs.
  assert (∀ s l x, link w s l = Some x → link w' s l = Some x) as Hlk.
  { intros s l x Hl. eapply lk_mono; [exact Hl|done|]. apply prefix_snoc. }
  assert (∀ l, linked w l → link w' Next l = link w Next l) as Hnext.
  { intros l (r & mk & Hr & _)%(s_next _ Hs). rewrite Hr. by apply Hlk. }
  split; [|split].
  - eapply (inv_same w); try done.
    + intros l (r & mk & Hr & ?)%(s_prev _ Hs). exists r, mk. split; [by apply Hlk|done].
    + apply (s_own _ Hs).
  - eapply (dq_rely_same w); try done. apply prefix_snoc.
  - apply lookup_snoc_eq.
Qed.

(** [&denode[T]{value: v}] *)
Lemma new_node t u w v :
  Inv w → u ≠ t → let n := length (nodes (w_mem w)) in
  let w' := upd Sp w (f_set nodes_f (nodes (w_mem w) ++ [Denode v None None]) (w_mem w)) []
    (Aux (chain (w_aux w)) (<[n := t]> (own (w_aux w))) (deeds (w_aux w))) in
  Inv w' ∧ rely u w w' ∧ mine t w' n v.
Proof.
  intros HI Hu n w'. pose proof (i_shape _ _ HI) as Hs.
  assert (∀ l, l ≠ n → nodes (w_mem w') !! l = nodes (w_mem w) !! l) as Hold.
  { intros l Hl. simpl. destruct (decide (l < n)); [by rewrite lookup_app_l|].
    rewrite lookup_app_r, !lookup_ge_None_2; [done|unfold n in *; simpl; lia..]. }
  assert (∀ l, linked w' l ↔ linked w l) as Hlinked.
  { intros l. unfold linked. simpl. rewrite length_app. simpl. fold n. split.
    - intros [? [? ?]%lookup_insert_None]. split; [lia|done].
    - intros [? ?]. rewrite lookup_insert_ne by lia. split; [lia|done]. }
  assert (∀ s l, linked w l → link w' s l = link w s l) as Hlk.
  { intros s l [Hl _]. unfold link, lk. rewrite Hold by (unfold n; lia). done. }
  assert (own (w_aux w) !! n = None) as Hnone.
  { destruct (own (w_aux w) !! n) eqn:E; [|done].
    destruct (s_own _ Hs _ _ E) as [? ?%lookup_lt_Some]. unfold n in *. lia. }
  split; [|split; [|split]].
  - eapply (inv_same w); try done.
    + intros l ?. by apply Hlk.
    + intros l ?. rewrite Hlk by done. by apply (s_prev _ Hs).
    + intros l [Hl _]. unfold value. by rewrite Hold by (unfold n; lia).
    + intros l t' Hot. simpl in Hot. apply lookup_insert_Some in Hot as [[<- _]|[? Ho]]; [exists (Denode v None None); apply lookup_snoc_eq|].
      rewrite Hold by done. by apply (s_own _ Hs _ t').
  - eapply (dq_rely_same w); try done.
    + intros l ?. by apply Hlk.
    + intros l Ho. simpl. assert (l ≠ n) by congruence. rewrite lookup_insert_ne by done.
      split; [done|]. by apply Hold.
    + intros l v'. unfold value. destruct (decide (l = n)) as [->|]; [|by rewrite Hold].
      rewrite (lookup_ge_None_2 (nodes (w_mem w))); [done|unfold n; lia].
  - apply lookup_insert_eq.
  - unfold value. simpl. unfold n. by rewrite lookup_snoc_eq.
Qed.
End steps.
