(* ===== verification/DequeWrites.v ===== *)
(** [lf.Deque]: the writes that change the deque or its chain. *)

From S2P Require Export DequeSteps.

(** ** Neighbours in a list *)

Section adjacent.
Context {A : Type}.
Implicit Types (R : A → A → Prop) (l : list A).

Fixpoint adjacent R l : Prop :=
  match l with
  | [] => True
  | a :: l' => match l' with b :: _ => R a b | [] => True end ∧ adjacent R l'
  end.

Lemma adjacent_lookup R l :
  adjacent R l ↔ ∀ i a b, l !! i = Some a → l !! S i = Some b → R a b.
Proof.
  induction l as [|x l IH]; simpl; [naive_solver|]. rewrite IH. split.
  - intros [Hx Hl] [|i] a b; simpl; [|apply Hl]. intros. destruct l; by simplify_eq/=.
  - intros Hl. split; [destruct l as [|y l]; [done|by apply (Hl 0)]|].
    intros i. apply (Hl (S i)).
Qed.

Lemma adjacent_app R l1 p l2 :
  adjacent R (l1 ++ p :: l2) ↔ adjacent R (l1 ++ [p]) ∧ adjacent R (p :: l2).
Proof.
  induction l1 as [|x l1 IH]; [simpl; naive_solver|].
  change ((x :: l1) ++ p :: l2) with (x :: l1 ++ p :: l2).
  change ((x :: l1) ++ [p]) with (x :: l1 ++ [p]).
  destruct l1 as [|y l1]; simpl in *; [naive_solver|]. rewrite IH. naive_solver.
Qed.

Lemma adjacent_impl R R' l p :
  (∀ a b, a ∈ l → R a b → R' a b) → adjacent R (l ++ [p]) → adjacent R' (l ++ [p]).
Proof.
  induction l as [|x l IH]; intros Himp; [done|].
  change ((x :: l) ++ [p]) with (x :: l ++ [p]). simpl. intros [Hx Hl]. split.
  - destruct (l ++ [p]); [done|]. apply Himp; [by left|done].
  - apply IH; [|done]. intros a b ?. apply Himp. by right.
Qed.

Lemma adjacent_all R R' l : (∀ a b, a ∈ l → R a b → R' a b) → adjacent R l → adjacent R' l.
Proof.
  destruct l as [|p l _] using rev_ind; [done|]. intros Himp. apply adjacent_impl.
  intros a b ?. apply Himp. set_solver.
Qed.

(** A list from [h] to [t]. *)
Definition from_to (h t : A) (l : list A) : Prop := ∃ mid, l = h :: mid ++ [t].

Lemma from_to_iff h t l : from_to h t l ↔ list.head l = Some h ∧ last l = Some t ∧ 2 ≤ length l.
Proof.
  split.
  - intros [mid ->]. split; [done|]. split.
    + change (h :: mid ++ [t]) with ((h :: mid) ++ [t]). apply last_snoc.
    + simpl. rewrite length_app. simpl. lia.
  - intros (Hh & Ht & Hlen). destruct l as [|x l]; [done|]. simplify_eq/=.
    destruct l as [|y l _] using rev_ind; [simpl in *; lia|].
    change (h :: l ++ [y]) with ((h :: l) ++ [y]) in Ht. rewrite last_snoc in Ht.
    simplify_eq. by exists l.
Qed.

Lemma from_to_mid h t l1 l l' p q l2 :
  from_to h t (l1 ++ p :: l ++ q :: l2) → from_to h t (l1 ++ p :: l' ++ q :: l2).
Proof.
  rewrite !from_to_iff. intros (Hh & Ht & _).
  rewrite last_app_cons, app_comm_cons, last_app_cons in Ht.
  rewrite last_app_cons, app_comm_cons, last_app_cons.
  split; [by destruct l1|]. split; [done|]. rewrite length_app. simpl.
  rewrite length_app. simpl. lia.
Qed.
End adjacent.

Lemma omap_filter {A B} (f f' : A → option B) (P : B → Prop) `{!∀ y, Decision (P y)} (l : list A) :
  (∀ x, x ∈ l → f' x = (y ← f x; if decide (P y) then Some y else None)) →
  omap f' l = filter P (omap f l).
Proof.
  induction l as [|x l IH]; intros Hf; [done|]. cbn [omap list_omap]. rewrite (Hf x) by by left.
  fold (omap f' l). fold (omap f l). rewrite IH by (intros; apply Hf; by right).
  destruct (f x) as [y|]; simpl; [|done]. rewrite filter_cons. by destruct (decide (P y)).
Qed.

Lemma omap_cons_app {A B} (f : A → option B) (x : A) (l : list A) :
  omap f (x :: l) = omap f [x] ++ omap f l.
Proof. apply (omap_app f [x] l). Qed.

Lemma omap_none {A B} (f : A → option B) (l : list A) : (∀ x, x ∈ l → f x = None) → omap f l = [].
Proof.
  induction l as [|x l IH]; intros Hf; [done|]. cbn [omap list_omap].
  rewrite Hf by by left. apply IH. intros y ?. apply Hf. by right.
Qed.

Lemma omap_ext_in {A B} (f g : A → option B) (l : list A) :
  (∀ x, x ∈ l → f x = g x) → omap f l = omap g l.
Proof. intros Hf. by apply list_omap_ext, Forall_Forall2_diag, Forall_forall. Qed.

(** Inserting an element. *)
Lemma omap_two {A B} (f : A → option B) (l1 l2 : list A) (p : A) :
  omap f (l1 ++ p :: l2) = omap f (l1 ++ [p]) ++ omap f l2.
Proof. by rewrite <-omap_app, <-app_assoc. Qed.

Lemma omap_insert {A B} (f f' : A → option B) (l1 l2 : list A) (p n : A) y :
  (∀ x, x ∈ l1 ++ p :: l2 → f' x = f x) → f' n = Some y →
  omap f' (l1 ++ p :: n :: l2) = omap f (l1 ++ [p]) ++ y :: omap f l2.
Proof.
  intros Hf Hn. rewrite omap_two, omap_cons_app. cbn [omap list_omap]. rewrite Hn. simpl.
  f_equal; [|f_equal]; apply omap_ext_in; intros x ?; apply Hf; set_solver.
Qed.

Section writes.
Context {T : Type} (zero : T).
Abbreviation mem := (mem T).
Abbreviation world := (Machine.world mem (deque_op T) (resp T) (aux T)).
Abbreviation Sp := (open_spec (@RDone T)).
Abbreviation Inv := (Inv zero).
Abbreviation proto := (proto zero).
Implicit Types (m : mem) (s : side) (l n p : loc) (w : world) (o : deque_op T) (r : resp T).

Lemma content_fst m l y : content m l = Some y → y.1 = l.
Proof.
  unfold content. case_decide; [done|]. destruct (lk Next m l) as [[? []]|]; try done.
  by destruct (value m l); intros; simplify_eq/=.
Qed.

Lemma content_dead w l : dead w l → content (w_mem w) l = None.
Proof. intros [_ [r Hr]]. unfold content, link in *. rewrite Hr. by case_decide. Qed.

Lemma content_end m l : l = head m ∨ l = tail m → content m l = None.
Proof. intros. unfold content. by rewrite decide_True. Qed.

Lemma content_alive m l v b :
  l ≠ head m → l ≠ tail m → lk Next m l = Some (b, false) → value m l = Some v →
  content m l = Some (l, v).
Proof. intros ? ? Hl Hv. unfold content. rewrite decide_False by naive_solver. by rewrite Hl, Hv. Qed.

Lemma adj_iff w : shape w →
  adjacent (λ a b, ∃ mk, link w Next a = Some (b, mk)) (chain (w_aux w)).
Proof. intros Hs. apply adjacent_lookup. apply (s_adj _ Hs). Qed.

(** ** The deque in terms of the chain *)

Lemma chain_head w : shape w → ∃ c, chain (w_aux w) = head (w_mem w) :: c.
Proof. intros Hs. destruct (s_ends _ Hs) as [mid ->]. eauto. Qed.

Lemma chain_tail w : shape w → ∃ c, chain (w_aux w) = c ++ [tail (w_mem w)].
Proof. intros Hs. destruct (s_ends _ Hs) as [mid ->]. by exists (head (w_mem w) :: mid). Qed.

(** [head] is only followed by [tail] when the deque is empty. *)
Lemma contents_empty w : Inv w → link w Next (head (w_mem w)) = Some (tail (w_mem w), false) →
  rrun (deeds (w_aux w)) = [].
Proof.
  intros HI Hh. pose proof (i_shape _ _ HI) as Hs. rewrite (i_contents _ _ HI).
  destruct (chain_head _ Hs) as [c Hc].
  pose proof (chain_succ _ Hs 0 _ _ _ ltac:(by rewrite Hc) (head_tail _ Hs) Hh) as Hn.
  destruct (chain_tail _ Hs) as [c' Hc']. rewrite Hc in Hn, Hc'. destruct c as [|x c]; [done|].
  simplify_eq/=. assert (c = []) as ->.
  { destruct c' as [|y c']; simplify_eq/=. destruct c' as [|z c']; simplify_eq/=; [done|].
    exfalso. pose proof (s_nodup _ Hs) as Hnd. rewrite Hc in Hnd.
    apply NoDup_cons in Hnd as [_ Hnd]. apply NoDup_cons in Hnd as [Hnot _]. apply Hnot. set_solver. }
  rewrite Hc. apply omap_none. intros x Hx. apply content_end. set_solver.
Qed.

(** The node after [head], when not marked, is the first of the deque. *)
Lemma contents_first w n b v :
  Inv w → link w Next (head (w_mem w)) = Some (n, false) → n ≠ tail (w_mem w) →
  link w Next n = Some (b, false) → value (w_mem w) n = Some v →
  n ≠ head (w_mem w) ∧ list.head (rrun (deeds (w_aux w))) = Some (n, v).
Proof.
  intros HI Hh Hne Hn Hv. pose proof (i_shape _ _ HI) as Hs. rewrite (i_contents _ _ HI).
  destruct (chain_head _ Hs) as [c Hc].
  pose proof (chain_succ _ Hs 0 _ _ _ ltac:(by rewrite Hc) (head_tail _ Hs) Hh) as Hi.
  rewrite Hc in Hi. destruct c as [|x c]; simplify_eq/=.
  assert (n ≠ head (w_mem w)) as Hnh.
  { intros ->. pose proof (s_nodup _ Hs) as Hnd. rewrite Hc in Hnd.
    apply NoDup_cons in Hnd as [Hnot _]. apply Hnot. by left. }
  split; [done|]. rewrite Hc. cbn [omap list_omap]. rewrite (content_end _ (head _)) by by left.
  by rewrite (content_alive _ n v b).
Qed.

(** The unmarked node before [tail] is the last of the deque. *)
Lemma contents_last w n v :
  Inv w → linked w n → link w Next n = Some (tail (w_mem w), false) →
  n ≠ head (w_mem w) → n ≠ tail (w_mem w) → value (w_mem w) n = Some v →
  last (rrun (deeds (w_aux w))) = Some (n, v).
Proof.
  intros HI Hl Hn Hnh Hnt Hv. pose proof (i_shape _ _ HI) as Hs. rewrite (i_contents _ _ HI).
  destruct (chain_split _ _ _ _ Hs (alive_chain _ Hs _ _ Hl Hn) Hnt Hn) as (c & B & Hc).
  assert (B = []) as ->.
  { destruct (chain_tail _ Hs) as [c' Hc']. destruct B as [|y B _] using rev_ind; [done|exfalso].
    rewrite !app_comm_cons, app_assoc, Hc' in Hc. apply app_inj_tail in Hc as [-> <-].
    pose proof (s_nodup _ Hs) as Hnd. rewrite Hc' in Hnd. apply NoDup_app in Hnd as (_ & Hnd & _).
    eapply Hnd; [|by left]. set_solver. }
  rewrite Hc, omap_app. cbn [omap list_omap]. rewrite (content_end _ (tail _)) by by right.
  rewrite (content_alive _ n v (tail (w_mem w))) by done. apply last_snoc.
Qed.

(** ** Taking effect *)

(** The parts of the invariant that an operation taking effect changes. *)
Lemma deed_kept t o r a x w :
  Inv w → since (w_gh w) t o a → let d := deed_of (w_gh w) t o r a x in
  justified zero (deeds (w_aux w)) (length (deeds (w_aux w))) d →
  kept (lins Sp [t] (w_gh w)) (deeds (w_aux w) ++ [d]) ∧
  settled (lins Sp [t] (w_gh w)) (deeds (w_aux w) ++ [d]) t r ∧
  all_justified zero (deeds (w_aux w) ++ [d]) ∧
  ∀ u, u ≠ t → quiet u (w_gh w) (lins Sp [t] (w_gh w)).
Proof.
  intros HI Ha d Hd. destruct (kept_lin (@RDone T) _ _ _ _ r _ x (i_kept _ _ HI) Ha) as [? ?].
  split; [done|]. split; [done|]. split; [apply justified_snoc; [apply HI|done]|].
  intros u ?. by apply quiet_lin1.
Qed.

Lemma now_length t o w : Inv w → ready t o w → since (w_gh w) t o (length (deeds (w_aux w))).
Proof. intros HI Hr. rewrite (kept_length _ _ (i_kept _ _ HI)). by apply since_now. Qed.

(** A pop finds the deque empty. *)
Lemma empty_step t o w :
  Inv w → ready t o w → o = Adt.PopFront ∨ o = Adt.PopBack → rrun (deeds (w_aux w)) = [] →
  let d := deed_of (w_gh w) t o (RVal zero false) (length (deeds (w_aux w))) None in
  let w' := upd Sp w (w_mem w) [t] (Aux (chain (w_aux w)) (own (w_aux w)) (deeds (w_aux w) ++ [d])) in
  good_step proto t w w' ∧ finished t (RVal zero false) w'.
Proof.
  intros HI Hr Ho Hempty d w'.
  assert (justified zero (deeds (w_aux w)) (length (deeds (w_aux w))) d) as Hd.
  { unfold justified, d_op, d_resp. simpl. rewrite firstn_all, Hempty. by destruct Ho as [-> | ->]. }
  destruct (deed_kept _ _ _ _ _ _ HI (now_length _ _ _ HI Hr) Hd) as (Hk & Hset & Hj & Hq).
  split; [split|exact Hset].
  - split; [exact Hk|exact Hj|..|].
    + intros d' n [?| ->%list_elem_of_singleton]%elem_of_app ?; [|done].
      by eapply (i_pushed _ _ HI).
    + simpl. rewrite rrun_snoc, <-(i_contents _ _ HI). unfold rstep, d_op. simpl.
      by destruct Ho as [-> | ->].
    + destruct (i_shape _ _ HI). by split.
  - intros u Hu. split; simpl; auto. apply prefix_snoc.
Qed.

(** ** A pop marks its node *)

Section mark.
Context (w : world) (n b : loc) (t : nat) (r : resp T) (d : deed (deque_op T) (resp T) (option loc)).
Context (m' : mem) (HI : Inv w) (Hl : linked w n) (Hn : link w Next n = Some (b, false)).
Context (Hnh : n ≠ head (w_mem w)) (Hnt : n ≠ tail (w_mem w)).
Context (Hw : wrote Next n (b, true) (w_mem w) m').
Context (Hd : d_op d = Adt.PopFront ∨ d_op d = Adt.PopBack) (Hdn : d_data d = Some n).

Let w' : world :=
  upd Sp w m' [t] (Aux (chain (w_aux w)) (own (w_aux w)) (deeds (w_aux w) ++ [d])).

Lemma dq_mark_linked l : linked w' l ↔ linked w l.
Proof using Hw. unfold linked. simpl. by rewrite (wr_len _ _ _ _ _ Hw). Qed.

Lemma dq_mark_other l : l ≠ n → link w' Next l = link w Next l.
Proof using Hw. intros ?. eapply wrote_other; [exact Hw|by right]. Qed.

Lemma mark_here : dead w' n.
Proof using Hl Hw. split; [by apply dq_mark_linked|]. exists b. by eapply wrote_here. Qed.

Lemma mark_dead l : dead w l → dead w' l.
Proof using Hl Hw.
  intros [? [r0 Hr0]]. destruct (decide (l = n)) as [->|]; [apply mark_here|].
  split; [by apply dq_mark_linked|]. exists r0. by rewrite dq_mark_other.
Qed.

Lemma mark_shape : shape w'.
Proof using HI Hl Hn Hnh Hnt Hw.
  pose proof (i_shape _ _ HI) as Hs. destruct (wr_ends _ _ _ _ _ Hw) as [Hhd Htl].
  assert (link w' Next n = Some (b, true)) as Hn' by by eapply wrote_here.
  split; simpl; rewrite ?Hhd, ?Htl; try apply Hs.
  - intros i x y Hx Hy. destruct (s_adj _ Hs _ _ _ Hx Hy) as [mk Hmk].
    destruct (decide (x = n)) as [->|]; [|exists mk; by rewrite dq_mark_other].
    exists true. rewrite Hmk in Hn. by simplify_eq.
  - intros l ?. by apply dq_mark_linked, (s_in _ Hs).
  - intros l Hll ?. by apply mark_dead, (s_out _ Hs); [apply dq_mark_linked|].
  - intros l Hll. apply dq_mark_linked, (s_next _ Hs) in Hll as (r0 & mk & ? & ?).
    destruct (decide (l = n)) as [->|].
    + exists b, true. split; [done|]. apply dq_mark_linked. by simplify_eq.
    + exists r0, mk. rewrite dq_mark_other by done. split; [done|]. by apply dq_mark_linked.
  - intros l Hll. apply dq_mark_linked, (s_prev _ Hs) in Hll as (r0 & mk & ? & ? & ? & ?).
    exists r0, mk. split; [|split; [by apply dq_mark_linked|auto using mark_dead]].
    unfold link. simpl. rewrite (wrote_other _ _ _ _ _ Prev l Hw); [done|by left].
  - rewrite dq_mark_other by done. apply Hs.
  - rewrite dq_mark_other by done. apply Hs.
  - intros l u Hlu. destruct (s_own _ Hs _ _ Hlu) as [nd ?].
    apply lookup_lt_is_Some. rewrite (wr_len _ _ _ _ _ Hw). by eapply lookup_lt_Some.
Qed.

(** The node leaves the deque, wherever it is. *)
Lemma mark_contents : rrun (deeds (w_aux w) ++ [d]) = omap (content m') (chain (w_aux w)).
Proof using All.
  destruct (wr_ends _ _ _ _ _ Hw) as [Hhd Htl]. rewrite rrun_snoc, (i_contents _ _ HI).
  trans (filter (λ y, y.1 ≠ n) (omap (content (w_mem w)) (chain (w_aux w)))).
  { unfold rstep. rewrite Hdn. by destruct Hd as [-> | ->]. }
  symmetry. apply omap_filter. intros l Hlc. destruct (decide (l = n)) as [->|Hne].
  - change (content m' n) with (content (w_mem w') n). rewrite (content_dead w' n) by apply mark_here.
    destruct (content (w_mem w) n) as [y|] eqn:Ey; [|done]. simpl.
    by rewrite decide_False by (intros Hy; apply Hy; by eapply content_fst).
  - rewrite (content_ext (w_mem w)); [|done|done|by apply dq_mark_other|apply (wr_value _ _ _ _ _ Hw)].
    destruct (content (w_mem w) l) as [y|] eqn:Ey; [|done]. simpl.
    by rewrite decide_True by (rewrite (content_fst _ _ _ Ey); done).
Qed.

Lemma mark_rely u :
  quiet u (w_gh w) (lins Sp [t] (w_gh w)) → rely u w w'.
Proof using HI Hl Hn Hw.
  intros Hq. split; simpl; auto.
  - apply prefix_snoc.
  - by rewrite (wr_marks _ _ _ _ _ Hw).
  - intros l ?. by apply dq_mark_linked.
  - intros l r0 ? Hlr. rewrite dq_mark_other; [done|]. intros ->. congruence.
  - intros l Hlu. split; [done|]. apply (wr_other _ _ _ _ _ Hw). intros ->.
    destruct Hl as [_ Hl']. simpl in *. congruence.
  - intros l v ?. by rewrite (wr_value _ _ _ _ _ Hw).
  - apply (wr_ends _ _ _ _ _ Hw).
Qed.
End mark.

Lemma dq_mark_step t o r a w n b m' :
  Inv w → linked w n → link w Next n = Some (b, false) →
  n ≠ head (w_mem w) → n ≠ tail (w_mem w) → wrote Next n (b, true) (w_mem w) m' →
  since (w_gh w) t o a → o = Adt.PopFront ∨ o = Adt.PopBack →
  let d := deed_of (w_gh w) t o r a (Some n) in
  justified zero (deeds (w_aux w)) (length (deeds (w_aux w))) d →
  let w' := upd Sp w m' [t] (Aux (chain (w_aux w)) (own (w_aux w)) (deeds (w_aux w) ++ [d])) in
  good_step proto t w w' ∧ finished t r w' ∧ dead w' n ∧
  head m' = head (w_mem w) ∧ tail m' = tail (w_mem w) ∧
  ∀ l v, value (w_mem w) l = Some v → value m' l = Some v.
Proof.
  intros HI Hl Hn Hnh Hnt Hw Ha Ho d Hd w'.
  destruct (deed_kept _ _ _ _ _ _ HI Ha Hd) as (Hk & Hset & Hj & Hq).
  destruct (wr_ends _ _ _ _ _ Hw) as [Hhd Htl].
  split; [split|split; [exact Hset|split; [by eapply mark_here|]]].
  - split; [exact Hk|exact Hj|..|by eapply mark_shape].
    + intros d' l [?| ->%list_elem_of_singleton]%elem_of_app Hdn;
        apply (dq_mark_linked w n b t d m' Hw); [by eapply (i_pushed _ _ HI)|]. by simplify_eq/=.
    + by apply (mark_contents w n b t r d).
  - intros u Hu. eapply mark_rely; eauto.
  - split; [done|]. split; [done|]. intros l v ?. by rewrite (wr_value _ _ _ _ _ Hw).
Qed.
End writes.
