(* ===== verification/DequeLinks.v ===== *)
(** [lf.Deque]: linking a new node, and unlinking marked ones. *)

From S2P Require Export DequeWrites.

Section links.
Context {T : Type} (zero : T).
Abbreviation mem := (mem T).
Abbreviation world := (Machine.world mem (deque_op T) (resp T) (aux T)).
Abbreviation Sp := (open_spec (@RDone T)).
Abbreviation Inv := (Inv zero).
Abbreviation proto := (proto zero).
Implicit Types (m : mem) (s : side) (l n p : loc) (w : world) (o : deque_op T) (r : resp T).

Abbreviation next_is w := (λ a b, ∃ mk, link w Next a = Some (b, mk)).

(** ** The [next] of a node that is not marked changes *)

Section next.
Context (w w' : world) (p q r : loc).
Context (HI : Inv w) (Hl : linked w p) (Hp : link w Next p = Some (q, false)).
Context (Hw : wrote Next p (r, false) (w_mem w) (w_mem w')).

Lemma next_other l : l ≠ p → link w' Next l = link w Next l.
Proof using Hw. intros ?. eapply wrote_other; [exact Hw|by right]. Qed.

Lemma next_prev l : link w' Prev l = link w Prev l.
Proof using Hw. eapply wrote_other; [exact Hw|by left]. Qed.

Lemma next_marked l (x : loc) : link w Next l = Some (x, true) → link w' Next l = Some (x, true).
Proof using Hp Hw. intros Hx. rewrite next_other; [done|]. intros ->. congruence. Qed.

Lemma next_contents l : content (w_mem w') l = content (w_mem w) l.
Proof using Hp Hw.
  destruct (wr_ends _ _ _ _ _ Hw) as [Hhd Htl].
  destruct (decide (l = p)) as [->|]; [|apply content_ext; try done;
    [by apply next_other|apply (wr_value _ _ _ _ _ Hw)]].
  unfold content. rewrite Hhd, Htl, (wr_value _ _ _ _ _ Hw), (wrote_here _ _ _ _ _ Hw).
  unfold link in Hp. by rewrite Hp.
Qed.

(** The nodes of [own] are still there, and were not written to. *)
Lemma next_own : ∀ l t, own (w_aux w) !! l = Some t →
  is_Some (nodes (w_mem w') !! l) ∧ nodes (w_mem w') !! l = nodes (w_mem w) !! l.
Proof using HI Hl Hw.
  intros l t Ho. destruct (s_own _ (i_shape _ _ HI) _ _ Ho) as [nd ?]. split.
  - apply lookup_lt_is_Some. rewrite (wr_len _ _ _ _ _ Hw). by eapply lookup_lt_Some.
  - apply (wr_other _ _ _ _ _ Hw). intros ->. destruct Hl as [_ Hl']. congruence.
Qed.

(** Outside of the chain nothing changes for a node that was linked before. *)
Lemma next_old l : linked w l → (∀ x, linked w x → linked w' x) → linked w' r →
  (∃ x mk, link w' Next l = Some (x, mk) ∧ linked w' x) ∧
  (∃ x mk, link w' Prev l = Some (x, mk) ∧ linked w' x ∧ x ≠ tail (w_mem w) ∧
     (mk = true → dead w' l)).
Proof using HI Hp Hw.
  intros Hll Hin Hr. pose proof (i_shape _ _ HI) as Hs. split.
  - destruct (decide (l = p)) as [->|]; [exists r, false; split; [by eapply wrote_here|done]|].
    destruct (s_next _ Hs _ Hll) as (x & mk & ? & ?). exists x, mk.
    rewrite next_other by done. auto.
  - destruct (s_prev _ Hs _ Hll) as (x & mk & ? & ? & ? & Hd). exists x, mk.
    rewrite next_prev. split; [done|]. split; [auto|]. split; [done|].
    intros [_ [y Hy]]%Hd. split; [auto|]. exists y. by apply next_marked.
Qed.

(** The chain may be cut after [p] and before any other node of it. *)
Lemma next_adjacent A B C :
  chain (w_aux w) = A ++ p :: B → NoDup (A ++ p :: B) → adjacent (next_is w') (p :: C) →
  adjacent (next_is w') (A ++ p :: C).
Proof using HI Hw.
  intros Hc Hnd HC. pose proof (adj_iff _ (i_shape _ _ HI)) as Hadj. rewrite Hc in Hadj.
  apply adjacent_app in Hadj as [H1 _]. apply adjacent_app. split; [|done].
  apply (adjacent_impl (next_is w)); [|done]. intros x y Hx [mk Hmk]. exists mk.
  rewrite next_other; [done|]. intros ->. apply NoDup_app in Hnd as (_ & Hnd & _).
  eapply Hnd; [exact Hx|by left].
Qed.

Lemma next_rely u :
  quiet u (w_gh w) (w_gh w') → deeds (w_aux w) `prefix_of` deeds (w_aux w') →
  (∀ l, linked w l → linked w' l) →
  (∀ l, own (w_aux w) !! l = Some u → own (w_aux w') !! l = Some u) → rely u w w'.
Proof using HI Hl Hp Hw.
  intros. destruct (wr_ends _ _ _ _ _ Hw) as [Hhd Htl]. split; try done.
  - by rewrite (wr_marks _ _ _ _ _ Hw).
  - intros l x _. apply next_marked.
  - intros l Hlu. split; [auto|]. by eapply next_own.
  - intros l v. by rewrite (wr_value _ _ _ _ _ Hw).
Qed.
End next.

(** ** Unlinking *)

Section unlink.
Context (w : world) (p a b : loc) (A seg B : list loc) (m' : mem).
Context (HI : Inv w) (Hl : linked w p) (Hp : link w Next p = Some (a, false)).
Context (Hc : chain (w_aux w) = A ++ p :: seg ++ b :: B) (Hseg : ∀ l, l ∈ seg → dead w l).
Context (Hw : wrote Next p (b, false) (w_mem w) m').

Let w' : world := upd Sp w m' [] (Aux (A ++ p :: b :: B) (own (w_aux w)) (deeds (w_aux w))).

Lemma unlink_linked l : linked w' l ↔ linked w l.
Proof using All. unfold linked. simpl. by rewrite (wr_len _ _ _ _ _ Hw). Qed.

Lemma unlink_dead l : dead w l → dead w' l.
Proof using All.
  intros [? [x Hx]]. split; [by apply unlink_linked|]. exists x.
  by apply (next_marked w w' p a b).
Qed.

Lemma unlink_NoDup : NoDup (A ++ p :: b :: B) ∧ ¬ (p ∈ b :: B).
Proof using All.
  pose proof (s_nodup _ (i_shape _ _ HI)) as Hnd. rewrite Hc in Hnd.
  apply NoDup_app in Hnd as (HA & HAr & Hr). apply NoDup_cons in Hr as [Hpr Hr].
  apply NoDup_app in Hr as (_ & _ & Hr). split; [|set_solver].
  apply NoDup_app. split; [done|]. split; [set_solver|]. apply NoDup_cons. split; [set_solver|done].
Qed.

Lemma unlink_shape : shape w'.
Proof using All.
  pose proof (i_shape _ _ HI) as Hs. destruct (wr_ends _ _ _ _ _ Hw) as [Hhd Htl].
  pose proof (s_nodup _ Hs) as Hnd. rewrite Hc in Hnd. destruct unlink_NoDup as [Hnd' HpB].
  assert (linked w' b) as Hb by (apply unlink_linked, (s_in _ Hs); rewrite Hc; set_solver).
  assert (∀ l, linked w l → linked w' l) as Hin by (intros; by apply unlink_linked).
  split; simpl; rewrite ?Hhd, ?Htl; [|exact Hnd'|..].
  - destruct (s_ends _ Hs) as [mid Hmid]. rewrite Hc in Hmid.
    apply (from_to_mid _ _ A seg [] p b B). by exists mid.
  - apply adjacent_lookup. apply (next_adjacent w w' p b HI Hw A _ _ Hc Hnd).
    split; [exists false; by eapply wrote_here|]. pose proof (adj_iff _ Hs) as Hadj.
    rewrite Hc, app_comm_cons, app_assoc in Hadj. apply adjacent_app in Hadj as [_ Hadj].
    refine (adjacent_all (next_is w) _ (b :: B) _ Hadj). intros x y Hx [mk Hmk].
    exists mk. rewrite (next_other w w' p b); [done|done|by intros ->].
  - intros l Hlc. apply Hin, (s_in _ Hs). rewrite Hc. set_solver.
  - intros l Hll%unlink_linked Hno. apply unlink_dead.
    destruct (decide (l ∈ seg)); [by apply Hseg|]. apply (s_out _ Hs); [done|].
    rewrite Hc. set_solver.
  - intros l Hll%unlink_linked. by apply (next_old w w' p a b HI Hp Hw l Hll Hin).
  - intros l Hll%unlink_linked. by apply (next_old w w' p a b HI Hp Hw l Hll Hin).
  - destruct (decide (head (w_mem w) = p)) as [->|]; [exists b; by eapply wrote_here|].
    rewrite (next_other w w' p b) by done. apply Hs.
  - rewrite (next_other w w' p b); [apply Hs|done|]. intros Heq. rewrite <-Heq in HpB.
    destruct (chain_tail _ Hs) as [c Hc']. rewrite Hc in Hc'.
    rewrite (app_comm_cons seg), app_assoc in Hc'.
    apply (f_equal last) in Hc'. rewrite last_app_cons, last_snoc in Hc'.
    by apply HpB, last_Some_elem_of.
  - intros l u Hlu. by eapply (next_own w w' p b HI Hl Hw).
Qed.

Lemma unlink_inv : Inv w'.
Proof using All.
  split; [apply HI|apply HI|..|apply unlink_shape].
  - intros d n ? ?. apply unlink_linked. by eapply (i_pushed _ _ HI).
  - simpl. rewrite (i_contents _ _ HI), Hc.
    pose proof (next_contents w w' p a b Hp Hw : ∀ l, content m' l = _) as Hct.
    rewrite (omap_ext_in (content m') (content (w_mem w))) by (intros; apply Hct).
    rewrite (omap_two _ A (seg ++ _)), (omap_two _ A (b :: B)), (omap_app _ seg).
    rewrite (omap_none _ seg) by (intros x ?; by apply content_dead, Hseg). done.
Qed.
End unlink.

(** [prev.next] is made to point past a run of marked nodes. *)
Lemma dq_unlink_step w p a b m' :
  Inv w → linked w p → link w Next p = Some (a, false) → path w a b →
  wrote Next p (b, false) (w_mem w) m' →
  ∃ c, let w' := upd Sp w m' [] (Aux c (own (w_aux w)) (deeds (w_aux w))) in
  Inv w' ∧ ∀ u, rely u w w'.
Proof.
  intros HI Hl Hp Hpath Hw. pose proof (i_shape _ _ HI) as Hs.
  assert (dead w a) as Ha.
  { destruct Hpath as [? ? [? ?]|? ? ? [? ?]]; (split; [done|by eexists]). }
  assert (p ≠ tail (w_mem w)) as Hne.
  { intros ->. pose proof (s_tail _ Hs) as Ht. assert (a = tail (w_mem w)) as -> by congruence.
    by apply tail_alive in Ha. }
  destruct (chain_split _ _ _ _ Hs (alive_chain _ Hs _ _ Hl Hp) Hne Hp) as (A & B & Hc).
  destruct (path_chain _ _ _ (A ++ [p]) B Hs Hpath) as (seg & B' & HB & Hseg);
    [by rewrite Hc, <-app_assoc|]. rewrite HB in Hc.
  exists (A ++ p :: b :: B'). split; [by eapply unlink_inv|].
  intros u. eapply (next_rely w _ p a b); simpl; try done. intros l. by eapply unlink_linked.
Qed.

(** ** Linking *)

Section link.
Context (w : world) (p b n : loc) (v : T) (t : nat) (A B : list loc) (m' : mem).
Context (o : deque_op T) (HI : Inv w) (Hr : ready t o w).
Context (Hl : linked w p) (Hp : link w Next p = Some (b, false)) (Hmine : mine t w n v).
Context (Hn : link w Next n = Some (b, false)).
Context (Hq : ∃ q, link w Prev n = Some (q, false) ∧ linked w q ∧ q ≠ tail (w_mem w)).
Context (Hc : chain (w_aux w) = A ++ p :: b :: B).
Context (Hw : wrote Next p (n, false) (w_mem w) m').
Context (Ho : (o = Adt.PushFront v ∧ p = head (w_mem w)) ∨
  (o = Adt.PushBack v ∧ b = tail (w_mem w))).

Let d : deed (deque_op T) (resp T) (option loc) :=
  deed_of (w_gh w) t o RDone (length (deeds (w_aux w))) (Some n).
Let w' : world := upd Sp w m' [t] (Aux (A ++ p :: n :: b :: B) (delete n (own (w_aux w)))
  (deeds (w_aux w) ++ [d])).

Lemma dq_link_new l : linked w l → l ≠ n.
Proof using Hmine. intros [_ ?] ->. destruct Hmine as [? _]. congruence. Qed.

Lemma link_chain l : l ∈ A ++ p :: b :: B → linked w l.
Proof using All. intros ?. apply (s_in _ (i_shape _ _ HI)). by rewrite Hc. Qed.

Lemma dq_link_linked l : linked w' l ↔ linked w l ∨ l = n.
Proof using All.
  destruct Hmine as [Hown _]. destruct (s_own _ (i_shape _ _ HI) _ _ Hown) as [nd Hnd].
  apply lookup_lt_Some in Hnd. unfold linked. simpl.
  rewrite (wr_len _ _ _ _ _ Hw), lookup_delete_None. split; [|naive_solver].
  intros [? [->|?]]; auto.
Qed.

Lemma link_dead l : dead w l → dead w' l.
Proof using All.
  intros [? [x Hx]]. split; [apply dq_link_linked; by left|]. exists x.
  by apply (next_marked w w' p b n).
Qed.

Lemma link_next_n : link w' Next n = Some (b, false).
Proof using All.
  rewrite (next_other w w' p n); [done|done|]. intros Heq. by apply (dq_link_new p).
Qed.

Lemma link_NoDup : NoDup (A ++ p :: b :: B) ∧ NoDup (A ++ p :: n :: b :: B).
Proof using All.
  pose proof (s_nodup _ (i_shape _ _ HI)) as Hnd. rewrite Hc in Hnd. split; [done|].
  assert (¬ (n ∈ A ++ p :: b :: B)) as Hnn by (by intros ?%link_chain%dq_link_new).
  apply NoDup_app in Hnd as (HA & HAr & Hr'). apply NoDup_cons in Hr' as [? Hr'].
  apply NoDup_app. split; [done|]. split; [set_solver|].
  apply NoDup_cons. split; [set_solver|]. apply NoDup_cons. split; [set_solver|done].
Qed.

Lemma link_justified : justified zero (deeds (w_aux w)) (length (deeds (w_aux w))) d.
Proof using All.
  unfold justified, d_op, d_resp. simpl. rewrite firstn_all.
  assert (unused n (deeds (w_aux w))) as Hf.
  { intros d' Hd' Hdn. by destruct (dq_link_new n (i_pushed _ _ HI _ _ Hd' Hdn)). }
  by destruct Ho as [[-> _]|[-> _]].
Qed.

Lemma link_shape : shape w'.
Proof using All.
  pose proof (i_shape _ _ HI) as Hs. destruct (wr_ends _ _ _ _ _ Hw) as [Hhd Htl].
  destruct link_NoDup as [Hnd Hnd'].
  assert (linked w' n) as Hn' by (apply dq_link_linked; by right).
  assert (∀ l, linked w l → linked w' l) as Hin by (intros; apply dq_link_linked; by left).
  assert (∀ l, linked w l → l ≠ p → link w' Next l = link w Next l) as Hnext.
  { intros l _ ?. by apply (next_other w w' p n). }
  assert (¬ (p ∈ b :: B)) as HpB.
  { apply NoDup_app in Hnd as (_ & _ & Hnd). by apply NoDup_cons in Hnd as [? _]. }
  split; simpl; rewrite ?Hhd, ?Htl; [|exact Hnd'|..].
  - destruct (s_ends _ Hs) as [mid Hmid]. rewrite Hc in Hmid.
    apply (from_to_mid _ _ A [] [n] p b B). by exists mid.
  - apply adjacent_lookup. apply (next_adjacent w w' p n HI Hw A _ _ Hc Hnd).
    split; [exists false; by eapply wrote_here|]. split; [exists false; apply link_next_n|].
    pose proof (adj_iff _ Hs) as Hadj. rewrite Hc in Hadj. apply adjacent_app in Hadj as [_ [_ Hadj]].
    refine (adjacent_all (next_is w) _ (b :: B) _ Hadj). intros x y Hx [mk Hmk].
    exists mk. rewrite Hnext; [done|apply link_chain; set_solver|by intros ->].
  - intros l Hlc. apply dq_link_linked. destruct (decide (l = n)); [by right|left].
    apply link_chain. set_solver.
  - intros l [Hll| ->]%dq_link_linked Hno; [|set_solver]. apply link_dead, (s_out _ Hs); [done|].
    rewrite Hc. set_solver.
  - intros l [Hll| ->]%dq_link_linked; [by apply (next_old w w' p b n HI Hp Hw l Hll Hin)|].
    exists b, false. split; [apply link_next_n|]. apply Hin, link_chain. set_solver.
  - intros l [Hll| ->]%dq_link_linked; [by apply (next_old w w' p b n HI Hp Hw l Hll Hin)|].
    destruct Hq as (q & ? & ? & ?). exists q, false.
    rewrite (next_prev w w' p n) by done. split; [done|]. split; [by apply Hin|by split].
  - destruct (decide (head (w_mem w) = p)) as [->|]; [exists n; by eapply wrote_here|].
    rewrite Hnext; [apply Hs|by apply dq_head_linked|done].
  - rewrite Hnext; [apply Hs|by apply tail_linked|]. intros Heq. rewrite <-Heq in HpB.
    destruct (chain_tail _ Hs) as [c Hc']. rewrite Hc in Hc'.
    rewrite (app_assoc A [p] (b :: B) : A ++ p :: b :: B = _) in Hc'.
    apply (f_equal last) in Hc'. rewrite last_app_cons, last_snoc in Hc'.
    by apply HpB, last_Some_elem_of.
  - intros l u [_ Hlu]%lookup_delete_Some. by eapply (next_own w w' p n HI Hl Hw).
Qed.

(** The node [n] enters the deque at the end the push is for. *)
Lemma link_contents : rstep (omap (content (w_mem w)) (A ++ p :: b :: B)) d =
  omap (content m') (A ++ p :: n :: b :: B).
Proof using All.
  pose proof (i_shape _ _ HI) as Hs. destruct link_NoDup as [Hnd _].
  destruct (wr_ends _ _ _ _ _ Hw) as [Hhd Htl].
  rewrite (omap_insert (content (w_mem w)) (content m') A (b :: B) p n (n, v)), (omap_two _ A (b :: B)).
  - destruct Ho as [[Ho' Hp']|[Ho' Hb']].
    + assert (∀ c, rstep c d = (n, v) :: c) as -> by (intros; unfold rstep, d_op; simpl; by rewrite Ho').
      assert (A = []) as ->.
      { destruct (chain_head _ Hs) as [c Hc']. destruct A as [|x A']; [done|exfalso].
        rewrite Hc', <-Hp' in Hc. simplify_eq/=. apply NoDup_cons in Hnd as [Hno _]. set_solver. }
      rewrite (omap_none (content (w_mem w)) ([] ++ [p])); [done|]. intros x ->%list_elem_of_singleton.
      apply content_end. by left.
    + assert (∀ c, rstep c d = c ++ [(n, v)]) as -> by (intros; unfold rstep, d_op; simpl; by rewrite Ho').
      assert (omap (content (w_mem w)) (b :: B) = []) as ->; [|by rewrite app_nil_r].
      destruct (chain_tail _ Hs) as [c Hc']. rewrite Hc, <-Hb' in Hc'.
      destruct B as [|x B' _] using rev_ind.
      * apply omap_none. intros x ->%list_elem_of_singleton. apply content_end. by right.
      * exfalso. rewrite (app_assoc A [p] _ : A ++ p :: _ = _), app_comm_cons, app_assoc in Hc', Hnd.
        apply app_inj_tail in Hc' as [_ ->]. apply NoDup_app in Hnd as (_ & Hnd & _).
        eapply (Hnd b); [|by left]. set_solver.
  - intros x _. exact (next_contents w w' p b n Hp Hw x).
  - apply (content_alive _ _ _ b); rewrite ?Hhd, ?Htl.
    + apply not_eq_sym, dq_link_new. by apply dq_head_linked.
    + apply not_eq_sym, dq_link_new. by apply tail_linked.
    + apply link_next_n.
    + rewrite (wr_value _ _ _ _ _ Hw). apply Hmine.
Qed.

Lemma link_done : good_step proto t w w' ∧ finished t RDone w' ∧ linked w' n ∧ linked w' b.
Proof using All.
  destruct (deed_kept _ _ _ _ _ _ _ HI (now_length _ _ _ _ HI Hr) link_justified)
    as (Hk & Hset & Hj & Hquiet).
  assert (∀ l, linked w l → linked w' l) as Hin by (intros; apply dq_link_linked; by left).
  split; [split|split; [exact Hset|split; [apply dq_link_linked; by right|]]].
  - split; [exact Hk|exact Hj|..|apply link_shape].
    + intros d' l [?| ->%list_elem_of_singleton]%elem_of_app Hdn; apply dq_link_linked;
        [left; by eapply (i_pushed _ _ HI)|]. right. by simplify_eq/=.
    + simpl. rewrite rrun_snoc, (i_contents _ _ HI), Hc. apply link_contents.
  - intros u Hu. eapply (next_rely w w' p b n); simpl; auto using prefix_snoc.
    intros l Hlu. rewrite lookup_delete_ne; [done|]. intros ->. destruct Hmine. congruence.
  - apply Hin, link_chain. set_solver.
Qed.
End link.

(** A push links its node [n] between [p] and [b]. *)
Lemma dq_link_step t o v p b n m' w :
  Inv w → ready t o w → linked w p → link w Next p = Some (b, false) → p ≠ tail (w_mem w) →
  mine t w n v → link w Next n = Some (b, false) →
  (∃ q, link w Prev n = Some (q, false) ∧ linked w q ∧ q ≠ tail (w_mem w)) →
  wrote Next p (n, false) (w_mem w) m' →
  (o = Adt.PushFront v ∧ p = head (w_mem w)) ∨ (o = Adt.PushBack v ∧ b = tail (w_mem w)) →
  ∃ x, let w' := upd Sp w m' [t] x in
  good_step proto t w w' ∧ finished t RDone w' ∧ linked w' n ∧ linked w' b.
Proof.
  intros HI Hr Hl Hp Hne Hm Hn Hq Hw Ho. pose proof (i_shape _ _ HI) as Hs.
  destruct (chain_split _ _ _ _ Hs (alive_chain _ Hs _ _ Hl Hp) Hne Hp) as (A & B & Hc).
  eexists. by eapply link_done.
Qed.
End links.
