(* ===== verification/DequeWalk.v ===== *)
(** [lf.Deque]: the markable references and the helping routines.

    [helpDelete], [helpInsert] and [pushCommon] take no effect, so each is
    proved to respect what its own goroutine relies on, whatever they find. *)

From S2P Require Export DequeLinks.
From Stdlib Require Import FunctionalExtensionality.

Lemma bind_ret_r {Mem R} (c : prog Mem R) : bind c Ret = c.
Proof.
  induction c as [R r|R X a k IH|R A B body _ a k IH]; simpl; [done|by apply Act_ext|].
  f_equal. by apply functional_extensionality.
Qed.

(** Worlds that follow one another are related. *)
Ltac chase :=
  match goal with
  | |- rely _ ?w ?w => reflexivity
  | H : rely _ ?w1 ?w2 |- rely _ ?w1 ?w2 => exact H
  | H : rely _ ?w' ?w2 |- rely _ ?w1 ?w2 => transitivity w'; [chase|exact H]
  | H : pr_rely _ _ ?w' ?w2 |- rely _ ?w1 ?w2 => transitivity w'; [chase|exact H]
  end.

Section walk.
Context {T : Type} (zero : T) (t : nat).
Abbreviation mem := (mem T).
Abbreviation world := (Machine.world mem (deque_op T) (resp T) (aux T)).
Abbreviation Sp := (open_spec (@RDone T)).
Abbreviation Inv := (Inv zero).
Abbreviation proto := (proto zero).
Abbreviation wp := (Logic.wp Sp proto Blocking t).
Implicit Types (m : mem) (s : side) (l n p : loc) (w : world).

(** ** Specifications of code without effect *)

(** Started in [w], the code ends in a world that [t] may rely on to be related. *)
Definition to {A} w (Φ : A → world → Prop) (b : budget) (r : A) (w' : world) : Prop :=
  b = Free ∧ rely t w w' ∧ Φ r w'.

Lemma wp_use {A B} (Q : budget → B → world → Prop) (Φ : A → world → Prop)
    (c : prog mem A) (k : A → prog mem B) w :
  wp (to w Φ) Free c w →
  (∀ r w1, rely t w w1 → Inv w1 → Φ r w1 → wp Q Free (k r) w1) →
  wp Q Free (bind c k) w.
Proof.
  intros Hc Hk. apply wp_bind. eapply wp_mono; [|exact Hc].
  intros b r w1 HI (-> & ? & ?). by apply Hk.
Qed.

Lemma to_ret {A} (Φ : A → world → Prop) r w w1 :
  rely t w w1 → (∀ w2, rely t w1 w2 → Inv w2 → Φ r w2) → wp (to w Φ) Free (Ret r) w1.
Proof.
  intros HR HΦ. apply wp_ret. intros w2 HR2 HI2. split; [done|]. split; [by etrans|by apply HΦ].
Qed.

(** A loop without effect. *)
Lemma to_loop {A B} (LI : A → world → Prop) (Φ : B → world → Prop)
    (body : A → prog mem (A + B)) a w :
  (∀ a w w', LI a w → rely t w w' → LI a w') →
  (∀ a w1, rely t w w1 → Inv w1 → LI a w1 →
    wp (to w1 (λ x w2, match x with inl a' => LI a' w2 | inr c => Φ c w2 end)) Free (body a) w1) →
  (∀ c w1 w2, Φ c w1 → rely t w1 w2 → Φ c w2) →
  LI a w → wp (to w Φ) Free (loop body a) w.
Proof.
  intros Hst Hbody HΦ Ha.
  apply (wp_loop Sp proto Blocking t _ (λ b a w1, b = Free ∧ rely t w w1 ∧ LI a w1)).
  - intros b a1 w1 (-> & HR & HL) HI. exists Free. split; [done|].
    eapply wp_mono; [|by apply Hbody]. intros b x w2 HI2 (-> & HR2 & Hx).
    assert (rely t w w2) by by etrans. destruct x as [a2|c]; [done|].
    apply to_ret; [done|]. intros w3 HR3 _. by eapply HΦ.
  - intros b a1 w1 w2 (? & ? & ?) ?. split; [done|]. split; [by etrans|by eapply Hst].
  - split; [done|]. split; [reflexivity|done].
Qed.

(** A loop whose body may take effect. *)
Lemma effect_loop {A B C} (LI : A → world → Prop) (Q : budget → C → world → Prop)
    (body : A → prog mem (A + B)) k a w :
  (∀ a w w', LI a w → rely t w w' → LI a w') →
  (∀ a w1, Inv w1 → LI a w1 →
    wp (λ b x w2, b = Free ∧ match x with inl a' => LI a' w2 | inr c => wp Q Free (k c) w2 end)
      Free (body a) w1) →
  LI a w → wp Q Free (Loop body a k) w.
Proof.
  intros Hst Hbody Ha.
  apply (wp_loop Sp proto Blocking t _ (λ b a w1, b = Free ∧ LI a w1)).
  - intros b a1 w1 [-> HL] HI. exists Free. split; [done|].
    eapply wp_mono; [|by apply Hbody]. intros b x w2 _ [-> Hx]. by destruct x.
  - intros b a1 w1 w2 [? ?] ?. split; [done|by eapply Hst].
  - done.
Qed.

(** ** Markable references *)

Lemma wp_load_mark {A} (Q : budget → A → world → Prop) k s w l nd r b w1 :
  nodes (w_mem w) !! l = Some nd → link w s l = Some (r, b) → rely t w w1 →
  (∀ w2, rely t w w2 → Inv w2 → wp Q Free (k (Some r, b)) w2) →
  wp Q Free (bind (load_mark (f_get (fld s) nd)) k) w1.
Proof.
  intros Hn Hl HR Hk. apply lk_some in Hl as (nd' & c & ? & Hc & Hv). simplify_eq. rewrite Hc.
  wp_go wp_load_at as w2 HR2 HI2. exists (MarkedVal (Some r) b).
  assert (rely t w w2) as HR' by by etrans.
  split; [eapply prefix_lookup_Some'; [apply HR'|exact Hv]|]. by apply Hk.
Qed.

(** [m.get()]; the load of the pointer may be the moment an operation takes effect. *)
Lemma wp_get_lin {A} (Q : budget → A → world → Prop) k s n w :
  linked w n →
  (∀ w1 r b, rely t w w1 → Inv w1 → link w1 s n = Some (r, b) → ∃ us x,
    good_step proto t w1 (upd Sp w1 (w_mem w1) us x) ∧
    ∀ w2, rely t (upd Sp w1 (w_mem w1) us x) w2 → Inv w2 → wp Q Free (k (Some r, b)) w2) →
  wp Q Free (bind (get (fld s) (Some n)) k) w.
Proof.
  intros Hl Hk. unfold get. wp_pure. eapply wp_step_to; [reflexivity|]. intros w1 HR1 HI1.
  eapply dq_linked_stable in Hl; [|exact HR1]. destruct (dq_linked_node _ _ Hl) as [nd Hn].
  unfold load_at. rewrite Hn.
  assert (∃ r b, link w1 s n = Some (r, b)) as (r & b & Hrb).
  { pose proof (i_shape _ _ HI1) as Hs. destruct s.
    - destruct (s_prev _ Hs _ Hl) as (r & b & ? & _). eauto.
    - destruct (s_next _ Hs _ Hl) as (r & b & ? & _). eauto. }
  destruct (Hk w1 r b HR1 HI1 Hrb) as (us & x & Hgood & Hk').
  eexists _, (w_mem w1), us, x. split; [reflexivity|]. split; [exact Hgood|].
  by eapply (wp_load_mark Q k s (upd Sp w1 (w_mem w1) us x)); [exact Hn|exact Hrb|reflexivity|].
Qed.

Lemma dq_wp_get {A} (Q : budget → A → world → Prop) k s n w :
  linked w n →
  (∀ w1 r b, rely t w w1 → Inv w1 → link w1 s n = Some (r, b) →
    ∀ w2, rely t w1 w2 → Inv w2 → wp Q Free (k (Some r, b)) w2) →
  wp Q Free (bind (get (fld s) (Some n)) k) w.
Proof.
  intros Hl Hk. apply wp_get_lin; [done|]. intros w1 r b HR1 HI1 Hrb.
  exists [], (w_aux w1). rewrite upd_id. split; [by apply good_step_refl|]. by eapply Hk.
Qed.

Lemma reference_get (f : field (denode T) (option loc)) (n : option loc) :
  reference f n = bind (get f n) (λ v, Ret (v.1)).
Proof. reflexivity. Qed.

Lemma wp_reference {A} (Q : budget → A → world → Prop) k s n w :
  linked w n →
  (∀ w1 r b, rely t w w1 → Inv w1 → link w1 s n = Some (r, b) →
    ∀ w2, rely t w1 w2 → Inv w2 → wp Q Free (k (Some r)) w2) →
  wp Q Free (bind (reference (fld s) (Some n)) k) w.
Proof. intros Hl Hk. rewrite reference_get, bind_bind. by apply dq_wp_get. Qed.

Lemma wp_deref {A} (Q : budget → A → world → Prop) k s n w :
  linked w n →
  (∀ w1 r b, rely t w w1 → Inv w1 → link w1 s n = Some (r, b) →
    ∀ w2, rely t w1 w2 → Inv w2 → wp Q Free (k (if b then None else Some r)) w2) →
  wp Q Free (bind (derefActive (fld s) (Some n)) k) w.
Proof. intros Hl Hk. unfold derefActive. rewrite bind_bind. by apply dq_wp_get. Qed.

(** [m.compareAndSet(...)] fails, finds the new value in place, or writes it. *)
Lemma dq_wp_compareAndSet {A} (Q : budget → A → world → Prop) k s n e r em nm w :
  linked w n →
  (∀ w1, rely t w w1 → Inv w1 → wp Q Free (k false) w1) →
  (r = e → nm = em → ∀ w1, rely t w w1 → Inv w1 → wp Q Free (k true) w1) →
  (∀ w1 m', rely t w w1 → Inv w1 → link w1 s n = Some (e, em) →
    wrote s n (r, nm) (w_mem w1) m' → ∃ us x,
    good_step proto t w1 (upd Sp w1 m' us x) ∧ wp Q Free (k true) (upd Sp w1 m' us x)) →
  wp Q Free (bind (compareAndSet (fld s) (Some n) (Some e) (Some r) em nm) k) w.
Proof.
  intros Hl Hfalse Hsame Htrue. unfold compareAndSet.
  wp_go wp_load_at as w1 HR1 HI1. eapply dq_linked_stable in Hl; [|exact HR1].
  destruct (dq_linked_node _ _ Hl) as [nd Hn]. exists nd. split; [done|].
  assert (∃ r b, link w1 s n = Some (r, b)) as (r1 & b1 & Hrb).
  { pose proof (i_shape _ _ HI1) as Hs. destruct s.
    - destruct (s_prev _ Hs _ Hl) as (? & ? & ? & _). eauto.
    - destruct (s_next _ Hs _ Hl) as (? & ? & ? & _). eauto. }
  rewrite bind_bind. eapply wp_load_mark; [exact Hn|exact Hrb|reflexivity|].
  intros w2 HR2 HI2. assert (rely t w w2) as HR02 by by etrans. simpl fst. simpl snd.
  destruct (negb _) eqn:E1; [by apply Hfalse|].
  apply negb_false_iff, andb_true_iff in E1 as [Er Em].
  apply bool_decide_eq_true in Er. apply eqb_prop in Em. simplify_eq.
  destruct (_ && _) eqn:E2.
  { apply andb_true_iff in E2 as [Er Em]. apply bool_decide_eq_true in Er. apply eqb_prop in Em.
    simplify_eq. by apply Hsame. }
  clear E2. apply lk_some in Hrb as (nd' & c & ? & Hc & Hv). simplify_eq. rewrite Hc.
  wp_go wp_new as w3 HR3 HI3.
  destruct (new_mark zero t w3 (MarkedVal (Some r) nm) HI3) as (HI3' & HR3' & Hnew).
  eexists [], _. split; [split; [exact HI3'|]|].
  { intros u _. apply (new_mark zero u w3 _ HI3). }
  set (c' := length _) in *. clearbody c'.
  wp_go wp_cas_at as w4 HR4 HI4.
  assert (rely t w2 w4) as HR24 by (etrans; [exact HR3|by etrans]).
  assert (rely t w w4) as HR04 by by etrans.
  assert (linked w4 n) as Hl4 by (apply (dq_linked_stable t w2); [done|by apply (dq_linked_stable t w1)]).
  destruct (dq_linked_node _ _ Hl4) as [nd4 Hn4]. exists nd4. split; [done|]. split.
  - intros Hcur. eapply Htrue; [done|done|..].
    + apply lk_some. exists nd4, c. split; [done|]. split; [done|].
      eapply prefix_lookup_Some'; [apply HR24|]. eapply prefix_lookup_Some'; [apply HR2|exact Hv].
    + apply put_wrote; [done|]. eapply prefix_lookup_Some'; [apply HR4|exact Hnew].
  - intros _. by apply Hfalse.
Qed.

(** [m.set(...)] on a link of a node that is not linked yet. *)
Lemma wp_set {A} (Q : budget → A → world → Prop) k s n v r b w :
  mine t w n v →
  (∀ w1 w2, rely t w w1 → Inv w1 → Inv w2 → mine t w2 n v → link w2 s n = Some (r, b) →
     (∀ s', s' ≠ s → link w2 s' n = link w1 s' n) →
     (∀ l, linked w1 l → linked w2 l) →
     head (w_mem w2) = head (w_mem w1) → tail (w_mem w2) = tail (w_mem w1) →
     w_gh w2 = w_gh w1 → wp Q Free (k tt) w2) →
  wp Q Free (bind (set (fld s) n (Some r) b) k) w.
Proof.
  intros Hm Hk. unfold set. wp_go wp_new as w1 HR1 HI1.
  destruct (new_mark zero t w1 (MarkedVal (Some r) b) HI1) as (HI1' & HR1' & Hnew).
  eexists [], _. split; [split; [exact HI1'|]|].
  { intros u _. apply (new_mark zero u w1 _ HI1). }
  set (c' := length _) in *. clearbody c'. wp_go wp_store_at as w2 HR2 HI2.
  assert (rely t w w2) as HR02 by (etrans; [exact HR1|by etrans]).
  assert (mine t w2 n v) as Hm2 by by eapply mine_stable.
  destruct (s_own _ (i_shape _ _ HI2) _ _ (proj1 Hm2)) as [nd Hn].
  assert (marks (w_mem w2) !! c' = Some (MarkedVal (Some r) b)) as Hc'
    by (eapply prefix_lookup_Some'; [apply HR2|exact Hnew]).
  pose proof (put_wrote s n c' r b nd _ Hn Hc') as Hw.
  destruct (own_write zero t (S t) w2 n v s (r, b) _ HI2 Hm2 Hw)
    as (HI3 & _ & ? & ? & ? & ? & _ & ? & ? & ?); [lia|].
  eexists nd, [], (w_aux w2). split; [done|]. split; [split; [exact HI3|]|by eapply (Hk w2)].
  intros u Hu. by apply (own_write zero t u w2 n v s (r, b) _ HI2 Hm2 Hw).
Qed.
End walk.
