(* ===== verification/DequeHelp.v ===== *)
(** [lf.Deque]: the helping routines. *)

From S2P Require Export DequeWalk.

Section help.
Context {T : Type} (zero : T) (t : nat).
Abbreviation mem := (mem T).
Abbreviation world := (Machine.world mem (deque_op T) (resp T) (aux T)).
Abbreviation Sp := (open_spec (@RDone T)).
Abbreviation Inv := (Inv zero).
Abbreviation proto := (proto zero).
Abbreviation wp := (Logic.wp Sp proto Blocking t).
Abbreviation any := (λ _ _, True).
Implicit Types (m : mem) (s : side) (l n p : loc) (w : world).

(** The end of the chain stays the same. *)
Lemma tail_stable w w' : rely t w w' → tail (w_mem w') = tail (w_mem w).
Proof. intros HR. apply HR. Qed.

Lemma head_stable w w' : rely t w w' → head (w_mem w') = head (w_mem w).
Proof. intros HR. apply HR. Qed.

Lemma frozen_link w w' l r : rely t w w' → linked w l → link w Next l = Some (r, true) →
  linked w' l ∧ link w' Next l = Some (r, true).
Proof. intros HR ? ?. split; by apply HR. Qed.

(** A write that [t] and the others may rely on to change nothing for them. *)
Lemma dq_calm_step w m' x : Inv (upd Sp w m' [] x) → (∀ u, rely u w (upd Sp w m' [] x)) →
  good_step proto t w (upd Sp w m' [] x).
Proof. intros ? HR. split; [done|]. intros u _. apply HR. Qed.

Lemma markPrev_to n w : dead w n → wp (to t w any) Free (markPrev (Some n)) w.
Proof.
  intros Hd. apply (to_loop zero t (λ _ w1, dead w1 n)); [by eauto with lockfree| |done..].
  intros [] w0 _ HI0 Hd0. clear w Hd. rename w0 into w, Hd0 into Hd.
  apply (dq_wp_get zero t _ _ Prev); [by apply dead_linked|]. intros w1 p b HR1 HI1 Hpb w2 HR2 HI2.
  assert (rely t w w2) as HR02 by chase.
  destruct b; [by apply to_ret; [done|]|]. simpl fst.
  apply (dq_wp_compareAndSet zero t _ _ Prev); [by apply dead_linked, (dq_dead_stable t w)|..].
  - intros w3 HR3 HI3. apply to_ret; [chase|]. intros w4 HR4 _.
    apply (dq_dead_stable t w); [|done]. chase.
  - done.
  - intros w3 m' HR3 HI3 Hp Hw.
    assert (dead w3 n) as Hd3 by (apply (dq_dead_stable t w); [chase|done]).
    destruct (s_prev _ (i_shape _ _ HI3) n) as (p' & b' & Hp' & Hlp & Hpt & _);
      [by apply dead_linked|]. rewrite Hp in Hp'. simplify_eq.
    pose proof (λ u, prev_write zero u w3 n p' true m' HI3 (dead_linked _ _ Hd3) Hw Hlp Hpt
      (λ _, Hd3)) as Hstep.
    exists [], (w_aux w3). split; [apply dq_calm_step; [apply (Hstep t)|intros u; apply Hstep]|].
    apply to_ret; [|done]. etrans; [exact HR02|]. etrans; [exact HR3|]. apply (Hstep t).
Qed.

(** Where [helpDelete] and [helpInsert] go from a marked node: back to a linked
    one, which is not the last unless it was before. *)
Lemma step_back_to last p w :
  dead w p → (∀ l, last = Some l → linked w l) →
  wp (to t w (λ r w', ∃ q, r = Some q ∧ linked w' q ∧ (q ≠ tail (w_mem w') ∨ last = Some q)))
    Free (step_back last (Some p)) w.
Proof.
  intros Hd Hlast. destruct last as [l|].
  - specialize (Hlast l eq_refl). unfold step_back.
    eapply wp_use; [by apply markPrev_to|]. intros [] w1 HR1 HI1 _.
    apply (wp_reference zero t _ _ Next); [by apply dead_linked, (dq_dead_stable t w)|].
    intros w2 q b HR2 HI2 Hq w3 HR3 HI3.
    assert (rely t w w2) as HR02 by chase. assert (rely t w w3) as HR03 by chase.
    assert (b = true) as ->.
    { destruct Hd as [Hl [q' Hq']]. destruct (frozen_link _ _ _ _ HR02 Hl Hq'). congruence. }
    assert (linked w2 p) as Hlp by by apply dead_linked, (dq_dead_stable t w).
    destruct (frozen_link _ _ _ _ HR3 Hlp Hq) as [Hlp3 Hq3].
    assert (∀ w4, rely t w3 w4 → wp (to t w (λ r w', ∃ q, r = Some q ∧ linked w' q ∧
      (q ≠ tail (w_mem w') ∨ Some l = Some q))) Free (Ret (Some l)) w4) as Hend.
    { intros w4 HR4. assert (rely t w w4) as HR04 by chase.
      apply to_ret; [done|]. intros w5 HR5 _. exists l. split; [done|]. split; [|by right].
      apply (dq_linked_stable t w); [chase|done]. }
    apply (dq_wp_compareAndSet zero t _ _ Next); [by apply (dq_linked_stable t w)|..].
    + intros w4 HR4 HI4. by apply Hend.
    + intros _ _ w4 HR4 HI4. by apply Hend.
    + intros w4 m' HR4 HI4 Hl4 Hw.
      destruct (frozen_link _ _ _ _ HR4 Hlp3 Hq3) as [Hlp4 Hq4].
      assert (linked w4 l) as Hll by (apply (dq_linked_stable t w); [chase|done]).
      destruct (dq_unlink_step zero w4 l p q m' HI4 Hll Hl4) as (c & HI5 & HR5); [by apply tc_once|done|].
      eexists [], _. split; [by apply dq_calm_step|]. apply Hend. etrans; [exact HR4|apply HR5].
  - unfold step_back. rewrite <-(bind_ret_r (reference _ _)).
    apply (wp_reference zero t _ _ Prev); [by apply dead_linked|].
    intros w1 q b HR1 HI1 Hq w2 HR2 HI2. apply to_ret; [chase|]. intros w3 HR3 HI3.
    destruct (s_prev _ (i_shape _ _ HI1) p) as (q' & b' & Hq' & Hlq & Hqt & _);
      [by apply dead_linked, (dq_dead_stable t w)|]. rewrite Hq in Hq'. simplify_eq.
    assert (rely t w1 w3) as HR13 by chase.
    exists q'. split; [done|]. split; [by apply (dq_linked_stable t w1)|]. left.
    by rewrite (tail_stable _ _ HR13).
Qed.

(** ** [helpInsert] *)

(** [prev], and [last] when it is not nil, are linked, and not the tail when the
    predecessor of the tail is looked for. *)
Definition before (x : loc) (q : option loc) w : Prop :=
  ∃ p, q = Some p ∧ linked w p ∧ (x = tail (w_mem w) → p ≠ x).

Definition seeking (x : loc) (a : option loc * option loc) w : Prop :=
  linked w x ∧ before x a.2 w ∧ ∀ l, a.1 = Some l → before x a.1 w.

Lemma before_stable x q w w' : rely t w w' → before x q w → before x q w'.
Proof.
  intros HR (p & -> & ? & Hne). exists p. split; [done|]. split; [by apply (dq_linked_stable t w)|].
  by rewrite (tail_stable _ _ HR).
Qed.

Lemma dq_seeking_stable x a w w' : rely t w w' → seeking x a w → seeking x a w'.
Proof.
  intros HR (? & ? & Hl). split; [by apply (dq_linked_stable t w)|].
  split; [by eapply before_stable|]. intros l Hll. eapply before_stable; [done|by eapply Hl].
Qed.

(** The correction of [node.prev]. *)
Lemma correct_prev w p x e b m' :
  Inv w → linked w p → linked w x → link w Prev x = Some (e, b) → b = false →
  p ≠ tail (w_mem w) → wrote Prev x (p, b) (w_mem w) m' →
  good_step proto t w (upd Sp w m' [] (w_aux w)) ∧ rely t w (upd Sp w m' [] (w_aux w)).
Proof.
  intros HI Hp Hx _ -> Hne Hw.
  pose proof (λ u, prev_write zero u w x p false m' HI Hx Hw Hp Hne ltac:(done)) as Hstep.
  split; [apply dq_calm_step; [apply (Hstep t)|intros u; apply Hstep]|apply (Hstep t)].
Qed.

(** What a round leaves: the variables of the next one, or the predecessor. *)
Definition sought x (z : option loc * option loc + option loc) w : Prop :=
  match z with inl a => seeking x a w | inr c => before x c w end.

(** The round ends where it began. *)
Lemma seek_again x last p w w' :
  seeking x (last, Some p) w → rely t w w' →
  wp (to t w (sought x)) Free (continue (last, Some p)) w' ∧
  wp (to t w (sought x)) Free (break (Some p)) w'.
Proof.
  intros Hs HR. split; (apply to_ret; [done|]; intros w2 HR2 _; assert (rely t w w2) as HR02 by chase).
  - by eapply dq_seeking_stable.
  - destruct Hs as (_ & Hb & _). by eapply before_stable.
Qed.

(** [prev] is marked. *)
Lemma seek_back x last p w w1 :
  seeking x (last, Some p) w → rely t w w1 → dead w1 p →
  wp (to t w (sought x)) Free
    (let! prev := step_back last (Some p) in continue (None, prev)) w1.
Proof.
  intros (Hx & _ & Hlast) HR1 Hd. eapply wp_use.
  { apply step_back_to; [exact Hd|]. intros l Hl. destruct (Hlast l Hl) as (l' & Hl' & ? & _).
    simpl in Hl'. simplify_eq. by apply (dq_linked_stable t w). }
  intros o w3 HR3 HI3 (q & -> & Hq & Hor). apply to_ret; [chase|]. intros w4 HR4 HI4.
  assert (rely t w w4) as HR04 by chase. assert (rely t w w3) as HR03 by chase.
  split; [by apply (dq_linked_stable t w)|]. split; [|by intros]. exists q. split; [done|].
  split; [by apply (dq_linked_stable t w3)|]. intros Hxt Hqx.
  rewrite (tail_stable _ _ HR04) in Hxt. destruct Hor as [Hne|Hl].
  - apply Hne. rewrite (tail_stable _ _ HR03). congruence.
  - destruct (Hlast q Hl) as (q' & Hq' & _ & Hqt). simpl in Hq'. simplify_eq. by apply Hqt.
Qed.

(** [prev] still precedes the node: the node's [prev] is made to say so. *)
Lemma seek_correct x last p e w w1 :
  seeking x (last, Some p) w → rely t w w1 → e ≠ p →
  wp (to t w (sought x)) Free
    (let! pn := get next_f (Some p) in
     let! ok := (if bool_decide (pn.1 = Some x)
                 then compareAndSet prev_f (Some x) (Some e) (Some p) false false
                 else Ret false) in
     if ok : bool then
       let! pp := get prev_f (Some p) in
       if pp.2 : bool then continue (last, Some p) else break (Some p)
     else continue (last, Some p)) w1.
Proof.
  intros Hseek HR1 Hep. pose proof Hseek as (Hx & (p' & [= <-] & Hp & Hpt) & _).
  pose proof (λ w' HR, seek_again x last p w w' Hseek HR) as Hagain.
  apply (dq_wp_get zero t _ _ Next); [by apply (dq_linked_stable t w)|].
  intros w5 r' b' HR5 HI5 Hr' w6 HR6 HI6.
  assert (rely t w w6) as HR06 by chase. assert (rely t w w5) as HR05 by chase.
  simpl fst. case_bool_decide as Hrx; [|by apply Hagain].
  assert (p ≠ tail (w_mem w)) as Hpt'.
  { intros ->. pose proof (s_tail _ (i_shape _ _ HI5)) as Ht.
    rewrite (tail_stable _ _ HR05), Hr' in Ht. simplify_eq. by apply Hpt. }
  apply (dq_wp_compareAndSet zero t _ _ Prev); [by apply (dq_linked_stable t w)|..].
  - intros w7 HR7 HI7. apply Hagain. chase.
  - intros -> _ w7 HR7 HI7. by destruct Hep.
  - intros w7 m' HR7 HI7 Hxe Hw. assert (rely t w w7) as HR07 by chase.
    destruct (correct_prev w7 p x e false m' HI7) as [Hgood HR8]; try done;
      [by apply (dq_linked_stable t w)..|by rewrite (tail_stable _ _ HR07)|].
    exists [], (w_aux w7). split; [exact Hgood|].
    assert (rely t w (upd Sp w7 m' [] (w_aux w7))) as HR08 by (etrans; [exact HR07|exact HR8]).
    apply (dq_wp_get zero t _ _ Prev); [by apply (dq_linked_stable t w)|].
    intros w9 q b HR9 HI9 _ w10 HR10 HI10. simpl snd. destruct b; apply Hagain; chase.
Qed.

Lemma helpInsert_round_to x a w :
  seeking x a w → wp (to t w (sought x)) Free (helpInsert_round (Some x) a) w.
Proof.
  destruct a as [last prev]. intros Hseek. pose proof Hseek as (Hx & (p & Hprev & Hp & Hpt) & _).
  simpl in Hprev. subst prev. cbn [helpInsert_round].
  pose proof (λ w' HR, seek_again x last p w w' Hseek HR) as Hagain.
  apply (wp_deref zero t _ _ Next); [done|]. intros w1 r b HR1 HI1 Hr w2 HR2 HI2.
  assert (rely t w w2) as HR02 by chase.
  assert (linked w1 p) as Hp1 by by apply (dq_linked_stable t w).
  destruct b.
  { apply seek_back; [done|done|]. apply (dq_dead_stable t w1); [done|]. split; [done|by exists r]. }
  apply (dq_wp_get zero t _ _ Prev); [by apply (dq_linked_stable t w)|].
  intros w3 e b HR3 HI3 He w4 HR4 HI4. assert (rely t w w4) as HR04 by chase.
  simpl fst. simpl snd. destruct b; [by apply Hagain|].
  case_bool_decide as Hrx; simpl negb; cbn match.
  - simplify_eq. case_bool_decide as Hep; simplify_eq; [by apply Hagain|].
    apply seek_correct; [done|done|]. intros ->. by apply Hep.
  - apply to_ret; [done|]. intros w5 HR5 HI5. assert (rely t w w5) as HR05 by chase.
    destruct (dq_seeking_stable _ _ _ _ HR05 Hseek) as (? & Hb & _).
    split; [done|]. split; [|intros l _; exact Hb].
    exists r. split; [done|]. destruct (s_next _ (i_shape _ _ HI1) _ Hp1) as (r' & ? & Hr' & Hlr).
    rewrite Hr in Hr'. simplify_eq. split; [|by intros _ ->].
    apply (dq_linked_stable t w1); [chase|done].
Qed.

Lemma helpInsert_to prev x w :
  linked w x → before x prev w →
  wp (to t w (before x)) Free (helpInsert prev (Some x)) w.
Proof.
  intros Hx Hp. apply (to_loop zero t (seeking x)).
  - intros. by eapply dq_seeking_stable.
  - intros a w1 _ _ Hs. by apply helpInsert_round_to.
  - intros. by eapply before_stable.
  - split; [done|]. by split.
Qed.

(** ** [helpDelete] *)

(** [prev], and [last] when it is not nil, are linked; marked nodes lead from the
    node to [next]. *)
Definition unlinking (n : loc) (a : option loc * option loc * option loc) w : Prop :=
  dead w n ∧ (∃ p, a.1.2 = Some p ∧ linked w p) ∧
  (∃ x, a.2 = Some x ∧ linked w x ∧ path w n x) ∧ ∀ l, a.1.1 = Some l → linked w l.

Lemma dq_unlinking_stable n a w w' : rely t w w' → unlinking n a w → unlinking n a w'.
Proof.
  intros HR (? & (p & ? & ?) & (x & ? & ? & ?) & Hl).
  split; [by apply (dq_dead_stable t w)|]. split; [exists p; eauto using dq_linked_stable|].
  split; [exists x; eauto using dq_linked_stable, path_stable|].
  intros l ?. apply (dq_linked_stable t w); [done|by apply Hl].
Qed.

(** [next] is marked as well: on to the node after it. *)
Lemma path_next w w' n x r b : Inv w' → rely t w w' → path w n x → dead w x →
  link w' Next x = Some (r, b) → linked w' r ∧ path w' n r.
Proof.
  intros HI HR Hp [Hx [r' Hr']] Hr. destruct (frozen_link _ _ _ _ HR Hx Hr') as [Hx' Hr''].
  rewrite Hr in Hr''. simplify_eq. split.
  - destruct (s_next _ (i_shape _ _ HI) _ Hx') as (r & ? & Hr'' & ?). by simplify_eq.
  - eapply tc_r; [by eapply path_stable|]. by split.
Qed.

(** The write that unlinks [n] behind [p]. *)
Lemma unlink_write w p n x m' :
  Inv w → linked w p → link w Next p = Some (n, false) → path w n x →
  wrote Next p (x, false) (w_mem w) m' →
  ∃ y, good_step proto t w (upd Sp w m' [] y) ∧ rely t w (upd Sp w m' [] y).
Proof.
  intros HI Hp Hpn Hpath Hw. destruct (dq_unlink_step zero w p n x m') as (c & ? & HR); try done.
  eexists. split; [by apply dq_calm_step|apply HR].
Qed.

Lemma helpDelete_round_to n a w : unlinking n a w →
  wp (to t w (λ z w2, match z with inl a' => unlinking n a' w2 | inr _ => True end)) Free
    (helpDelete_round (Some n) a) w.
Proof.
  destruct a as [[last prev] next]. intros Hun.
  pose proof Hun as (Hd & (p & Hprev & Hp) & (x & Hnext & Hx & Hpath) & Hlast).
  simpl in Hprev, Hnext, Hlast. subst prev next. cbn [helpDelete_round].
  assert (∀ w' a, rely t w w' → unlinking n a w' →
    wp (to t w (λ (z : option loc * option loc * option loc + unit) w2,
      match z with inl a' => unlinking n a' w2 | inr _ => True end)) Free (continue a) w') as Hcont.
  { intros w' a HR' Ha. apply to_ret; [done|]. intros w2 HR2 _. by eapply dq_unlinking_stable. }
  case_bool_decide; [apply to_ret; [reflexivity|done]|].
  apply (dq_wp_get zero t _ _ Next); [done|]. intros w1 r b HR1 HI1 Hr w2 HR2 HI2. simpl snd.
  destruct b.
  { assert (dead w1 x) as Hdx by (split; [by apply (dq_linked_stable t w)|by exists r]).
    eapply wp_use; [apply markPrev_to; by apply (dq_dead_stable t w1)|]. intros [] w3 HR3 HI3 _.
    apply (wp_reference zero t _ _ Next); [apply (dq_linked_stable t w); [chase|done]|].
    intros w4 r' b' HR4 HI4 Hr' w5 HR5 HI5. assert (rely t w1 w4) as HR14 by chase.
    destruct (path_next w1 w4 n x r' b' HI4 HR14) as [Hlr Hp']; [by apply (path_stable t w)|done..|].
    apply Hcont; [chase|]. split; [apply (dq_dead_stable t w); [chase|done]|].
    split; [exists p; split; [done|]; apply (dq_linked_stable t w); [chase|done]|].
    split; [|intros l Hl; apply (dq_linked_stable t w); [chase|by apply Hlast]].
    exists r'. split; [done|]. split; [by apply (dq_linked_stable t w4)|by apply (path_stable t w4)]. }
  apply (wp_deref zero t _ _ Next); [apply (dq_linked_stable t w); [chase|done]|].
  intros w3 r' b' HR3 HI3 Hr' w4 HR4 HI4.
  assert (linked w3 p) as Hp3 by (apply (dq_linked_stable t w); [chase|done]).
  assert (rely t w w4) as HR04 by chase.
  assert (∀ q w', rely t w w' → linked w' q → unlinking n (None, Some q, Some x) w') as Hback.
  { intros q w' HR' Hq. destruct (dq_unlinking_stable _ _ _ _ HR' Hun) as (? & _ & ? & _).
    split; [done|]. split; [by exists q|]. split; [done|by intros]. }
  destruct b'.
  { eapply wp_use.
    { apply step_back_to; [apply (dq_dead_stable t w3); [chase|]; split; [done|by exists r']|].
      intros l Hl. apply (dq_linked_stable t w); [chase|by apply Hlast]. }
    intros o w5 HR5 HI5 (q & -> & Hq & _). apply Hcont; [chase|]. apply Hback; [chase|done]. }
  case_bool_decide as Hrn; simpl negb; cbn match.
  2:{ apply Hcont; [done|]. destruct (dq_unlinking_stable _ _ _ _ HR04 Hun) as (? & (? & ? & ?) & ? & _).
      destruct (s_next _ (i_shape _ _ HI3) _ Hp3) as (r1 & ? & Hr1 & Hlr). rewrite Hr' in Hr1. simplify_eq.
      split; [done|]. split; [exists r1; split; [done|by apply (dq_linked_stable t w3)]|].
      split; [done|]. intros l [= <-]. apply (dq_linked_stable t w); [chase|done]. }
  apply (dq_wp_compareAndSet zero t _ _ Next); [apply (dq_linked_stable t w); [chase|done]|..].
  - intros w5 HR5 HI5. apply Hcont; [chase|]. apply (dq_unlinking_stable _ _ w); [chase|done].
  - intros _ _ w5 HR5 HI5. apply to_ret; [chase|done].
  - intros w5 m' HR5 HI5 Hpn Hw. assert (rely t w w5) as HR05 by chase.
    destruct (unlink_write w5 p n x m') as (y & Hgood & HR6); try done;
      [by apply (dq_linked_stable t w)|by apply (path_stable t w)|].
    exists [], y. split; [exact Hgood|]. apply to_ret; [etrans; [exact HR05|exact HR6]|done].
Qed.

Lemma helpDelete_to n w : dead w n → wp (to t w any) Free (helpDelete (Some n)) w.
Proof.
  intros Hd. unfold helpDelete. eapply wp_use; [by apply markPrev_to|]. intros [] w1 HR1 HI1 _.
  assert (dead w1 n) as Hd1 by by apply (dq_dead_stable t w).
  apply (wp_reference zero t _ _ Prev); [by apply dead_linked|].
  intros w2 p b HR2 HI2 Hp w3 HR3 HI3.
  apply (wp_reference zero t _ _ Next); [apply dead_linked, (dq_dead_stable t w1); [chase|done]|].
  intros w4 x b' HR4 HI4 Hx w5 HR5 HI5.
  assert (dead w4 n) as Hd4 by (apply (dq_dead_stable t w1); [chase|done]).
  destruct (s_prev _ (i_shape _ _ HI2) n) as (p' & ? & Hp' & Hlp & _);
    [apply dead_linked, (dq_dead_stable t w1); [chase|done]|]. rewrite Hp in Hp'. simplify_eq.
  assert (linked w4 x ∧ path w4 n x) as [Hlx Hpath].
  { destruct Hd4 as [Hl4 [r Hr]]. rewrite Hx in Hr. simplify_eq.
    destruct (s_next _ (i_shape _ _ HI4) n Hl4) as (r' & ? & Hr' & ?). rewrite Hx in Hr'. simplify_eq.
    split; [done|]. by apply tc_once. }
  assert (unlinking n (None, Some p', Some x) w5) as Hun.
  { split; [apply (dq_dead_stable t w4); [chase|done]|].
    split; [exists p'; split; [done|]; apply (dq_linked_stable t w2); [chase|done]|].
    split; [|by intros]. exists x. split; [done|].
    split; [apply (dq_linked_stable t w4); [chase|done]|apply (path_stable t w4); [chase|done]]. }
  assert (rely t w w5) as HR05 by chase.
  eapply wp_mono; [|apply (to_loop zero t (unlinking n) any);
    [intros; by eapply dq_unlinking_stable|intros; by apply helpDelete_round_to|done|exact Hun]].
  intros bu r w6 _ (-> & HR6 & _). split; [done|]. split; [chase|done].
Qed.

(** ** [pushCommon] *)

(** After [next.prev] was written. *)
Lemma pushCommon_end n x w w1 (Φ : unit + unit → world → Prop) :
  rely t w w1 → linked w1 n → linked w1 x → (x = tail (w_mem w1) → n ≠ x) →
  (∀ w2, Φ (inr tt) w2) →
  wp (to t w Φ) Free (let! pm := get prev_f (Some n) in
    if pm.2 : bool then helpInsert (Some n) (Some x) ;;; break tt else break tt) w1.
Proof.
  intros HR Hn Hx Hne HΦ. apply (dq_wp_get zero t _ _ Prev); [done|].
  intros w2 q b HR2 HI2 _ w3 HR3 HI3. simpl snd.
  destruct b; [|apply to_ret; [chase|done]].
  assert (rely t w1 w3) as HR13 by chase.
  eapply wp_use.
  { apply helpInsert_to; [by apply (dq_linked_stable t w1)|]. exists n. split; [done|].
    split; [by apply (dq_linked_stable t w1)|]. by rewrite (tail_stable _ _ HR13). }
  intros o w4 HR4 HI4 _. apply to_ret; [chase|done].
Qed.

Lemma pushCommon_to n x w :
  linked w n → n ≠ tail (w_mem w) → linked w x →
  wp (to t w any) Free (pushCommon (Some n) (Some x)) w.
Proof.
  intros Hn Hnt Hx.
  apply (to_loop zero t (λ _ w1, linked w1 n ∧ n ≠ tail (w_mem w1) ∧ linked w1 x)); [| |done..].
  { intros _ w1 w2 (? & ? & ?) HR. rewrite (tail_stable _ _ HR). eauto using dq_linked_stable. }
  intros [] w0 _ _ (Hn0 & Hnt0 & Hx0). clear w Hn Hnt Hx. rename w0 into w.
  assert (∀ w' (P : Prop), rely t w w' → wp (to t w (λ (z : unit + unit) w2,
    match z with inl _ => linked w2 n ∧ n ≠ tail (w_mem w2) ∧ linked w2 x | inr _ => True end))
    Free (continue tt) w') as Hcont.
  { intros w' _ HR'. apply to_ret; [done|]. intros w2 HR2 _. assert (rely t w w2) as HR02 by chase.
    rewrite (tail_stable _ _ HR02). eauto using dq_linked_stable. }
  apply (dq_wp_get zero t _ _ Prev); [done|]. intros w1 e b HR1 HI1 He w2 HR2 HI2.
  apply (dq_wp_get zero t _ _ Next); [apply (dq_linked_stable t w); [chase|done]|].
  intros w3 r b' HR3 HI3 Hr w4 HR4 HI4. simpl fst. simpl snd.
  destruct (b || _ || b') eqn:Eb; [by apply to_ret; [chase|]|].
  apply (dq_wp_compareAndSet zero t _ _ Prev); [apply (dq_linked_stable t w); [chase|done]|..].
  - intros w5 HR5 HI5. apply (Hcont _ True). chase.
  - intros _ _ w5 HR5 HI5. assert (rely t w w5) as HR05 by chase.
    apply pushCommon_end; [done|by apply (dq_linked_stable t w)..| |done].
    rewrite (tail_stable _ _ HR05). congruence.
  - intros w5 m' HR5 HI5 Hxe Hw. assert (rely t w w5) as HR05 by chase.
    destruct (correct_prev w5 n x e false m' HI5) as [Hgood HR6]; try done;
      [by apply (dq_linked_stable t w)..|by rewrite (tail_stable _ _ HR05)|].
    exists [], (w_aux w5). split; [exact Hgood|].
    assert (rely t w (upd Sp w5 m' [] (w_aux w5))) as HR06 by (etrans; [exact HR05|exact HR6]).
    apply pushCommon_end; [done|by apply (dq_linked_stable t w)..| |done].
    rewrite (tail_stable _ _ HR06). congruence.
Qed.
End help.
