(* ===== verification/LfDeque.v ===== *)
(** [lf.Deque]: its methods, and what follows for every schedule.

    The deque of [lf/deque.go] is linearizable, does not panic, and keeps its
    nodes doubly linked. *)

From S2P Require Export DequeHelp.

Module LfDeque.
Section methods.
Context {T : Type} (zero : T) (t : nat).
Abbreviation mem := (mem T).
Abbreviation world := (Machine.world mem (deque_op T) (resp T) (aux T)).
Abbreviation Sp := (open_spec (@RDone T)).
Abbreviation Inv := (Inv zero).
Abbreviation proto := (proto zero).
Abbreviation wp := (Logic.wp Sp proto Blocking t).
Abbreviation any := (λ _ _, True).
Implicit Types (m : mem) (s : side) (l n p : loc) (w : world) (r : resp T).

(** ** Calls and returns *)

Lemma ghost_step w g :
  Inv w → kept g (deeds (w_aux w)) → (∀ u, u ≠ t → quiet u (w_gh w) g) →
  let w' := World (w_mem w) g (w_aux w) in Inv w' ∧ ∀ u, u ≠ t → rely u w w'.
Proof.
  intros HI Hk Hq w'. split.
  - destruct HI as [? ? ? ? Hs]. split; try done. destruct Hs. by split.
  - intros u Hu. split; try done. by apply Hq.
Qed.

Lemma deque_return r b w : finished t r w → wp (post Sp proto t) b (Ret r) w.
Proof.
  intros Hf. apply wp_ret. intros w1 HR HI. eapply deque_finished_stable in Hf; [|exact HR].
  destruct (settled_ret_ok (@RDone T) _ _ _ _ Hf) as (pe & Hpe & Hok).
  exists pe. split; [done|]. split; [done|]. exists (w_aux w1).
  apply ghost_step; [done|apply kept_ret; [apply HI|exact Hf]|].
  intros u Hu. by apply quiet_ret.
Qed.

(** ** Taking effect *)

(** A node that is not marked is in the deque. *)
Lemma in_contents w n b v :
  Inv w → linked w n → link w Next n = Some (b, false) → n ≠ head (w_mem w) →
  n ≠ tail (w_mem w) → value (w_mem w) n = Some v → n ∈ (rrun (deeds (w_aux w))).*1.
Proof.
  intros HI Hl Hn Hh Ht Hv. rewrite (i_contents _ _ HI). apply list_elem_of_fmap.
  exists (n, v). split; [done|]. apply list_elem_of_omap. exists n.
  split; [by eapply alive_chain, Hn; [apply HI|]|]. by eapply content_alive.
Qed.

(** The mark of [PopFront] succeeds: it took effect at its read of [head.next]. *)
Lemma pop_front_mark w n b v a m' :
  Inv w → was_first t n v a w → link w Next n = Some (b, false) →
  wrote Next n (b, true) (w_mem w) m' →
  ∃ x, let w' := upd Sp w m' [t] x in
  good_step proto t w w' ∧ finished t (RVal v true) w' ∧ dead w' n ∧
  value m' n = Some v ∧ linked w' b ∧ linked w' (head (w_mem w)) ∧
  head m' = head (w_mem w) ∧ tail m' = tail (w_mem w).
Proof.
  intros HI (Hs & Hl & Hv & Hh & Ht & Hor) Hn Hw. pose proof (i_shape _ _ HI) as Hsh.
  destruct Hor as [[_ [r Hr]]|[Ha Hhd]]; [congruence|].
  destruct (dq_mark_step zero t Adt.PopFront (RVal v true) a w n b m')
    as (Hgood & Hf & Hd & ? & ? & Hval); try done; [by left| |].
  { unfold justified, d_op, d_resp. simpl. exists v. split; [done|]. split; [done|].
    split; [done|]. rewrite firstn_all. by eapply in_contents. }
  eexists. split; [exact Hgood|]. split; [exact Hf|]. split; [exact Hd|].
  destruct (s_next _ Hsh _ Hl) as (b' & ? & Hb & Hlb). rewrite Hn in Hb. simplify_eq.
  destruct Hgood as [_ HR]. specialize (HR (S t) ltac:(lia)).
  split; [auto|]. split; [by eapply dq_linked_stable|]. split; [|done].
  eapply dq_linked_stable; [exact HR|by apply dq_head_linked].
Qed.

(** The mark of [PopBack] succeeds: the node is the last one. *)
Lemma pop_back_mark w n v m' :
  Inv w → ready t Adt.PopBack w → linked w n → n ≠ head (w_mem w) → n ≠ tail (w_mem w) →
  value (w_mem w) n = Some v → link w Next n = Some (tail (w_mem w), false) →
  wrote Next n (tail (w_mem w), true) (w_mem w) m' →
  ∃ x, let w' := upd Sp w m' [t] x in
  good_step proto t w w' ∧ finished t (RVal v true) w' ∧ dead w' n ∧
  value m' n = Some v ∧ tail m' = tail (w_mem w).
Proof.
  intros HI Hr Hl Hh Ht Hv Hn Hw.
  destruct (dq_mark_step zero t Adt.PopBack (RVal v true) (length (deeds (w_aux w))) w n
    (tail (w_mem w)) m') as (Hgood & Hf & Hd & ? & ? & Hval); try done;
    [by eapply now_length|by right| |].
  { unfold justified, d_op, d_resp. simpl. exists v. split; [done|]. split; [done|].
    rewrite firstn_all. by eapply contents_last. }
  eexists. split; [exact Hgood|]. split; [exact Hf|]. split; [exact Hd|]. split; [auto|done].
Qed.

(** What [PopFront] reads at [head.next]: the end of an empty deque, or a node
    that it may return. *)
Lemma read_first w n :
  Inv w → ready t Adt.PopFront w → link w Next (head (w_mem w)) = Some (n, false) →
  n ≠ tail (w_mem w) → ∃ v a, was_first t n v a w.
Proof.
  intros HI Hr Hh Hne. pose proof (i_shape _ _ HI) as Hs.
  destruct (s_next _ Hs _ (dq_head_linked _ Hs)) as (n' & ? & Hn' & Hl). rewrite Hh in Hn'. simplify_eq.
  destruct (linked_value _ _ Hl) as [v Hv]. exists v, (length (deeds (w_aux w))).
  split; [by eapply now_length|]. split; [done|]. split; [done|].
  destruct (s_next _ Hs _ Hl) as (b & mk & Hb & _). destruct mk.
  - assert (n' ≠ head (w_mem w)).
    { intros ->. destruct (s_head _ Hs) as [? ?]. congruence. }
    split; [done|]. split; [done|]. left. split; [done|by exists b].
  - destruct (contents_first zero w n' b v HI Hh Hne Hb Hv) as [? Hfirst].
    split; [done|]. split; [done|]. right. rewrite firstn_all. done.
Qed.

(** ** Pushes *)

(** A push has made its node, which nobody else knows. *)
Definition pushing o n v w : Prop := ready t o w ∧ mine t w n v.

Lemma pushing_stable o n v w w' : rely t w w' → pushing o n v w → pushing o n v w'.
Proof.
  intros HR [? ?]. split; [by eapply deque_ready_stable|by eapply mine_stable].
Qed.

(** [&denode[T]{value: v}] *)
Lemma dq_push_new {A} (Q : budget → A → world → Prop) k o v w :
  ready t o w →
  (∀ n w1, Inv w1 → pushing o n v w1 → wp Q Free (k n) w1) →
  wp Q Free (bind (act (new nodes_f (Denode v None None))) k) w.
Proof.
  intros Hr Hk. wp_go wp_new as w1 HR1 HI1.
  pose proof (λ u, new_node zero t u w1 v HI1) as Hnew. simpl in Hnew.
  destruct (Hnew (S t) ltac:(lia)) as (HI2 & _ & Hm).
  eexists [], _. split; [split; [exact HI2|intros u Hu; by apply Hnew]|].
  apply Hk; [done|]. split; [|done]. exact (deque_ready_stable t o w w1 HR1 Hr).
Qed.

(** [node.prev] and [node.next] are set, and the node is linked behind [p]; the
    code [retry] goes round. *)
Lemma push_link {A} (Q : budget → A → world → Prop) (k : bool → prog mem A) o n v p x w :
  pushing o n v w → linked w p → linked w x → p ≠ tail (w_mem w) →
  (o = Adt.PushFront v ∧ p = head (w_mem w)) ∨ (o = Adt.PushBack v ∧ x = tail (w_mem w)) →
  (∀ w1, Inv w1 → pushing o n v w1 → linked w1 p → linked w1 x →
     tail (w_mem w1) = tail (w_mem w) → head (w_mem w1) = head (w_mem w) →
     wp Q Free (k false) w1) →
  (∀ w1, finished t RDone w1 → linked w1 n → linked w1 x → n ≠ tail (w_mem w1) →
     wp Q Free (k true) w1) →
  wp Q Free (bind (set prev_f n (Some p) false) (λ _,
    bind (set next_f n (Some x) false) (λ _,
      bind (compareAndSet next_f (Some p) (Some x) (Some n) false false) k))) w.
Proof.
  intros [Hr Hm] Hp Hx Hpt Hend Hfalse Htrue.
  apply (wp_set zero t _ _ Prev n v); [done|].
  intros w1 w2 HR1 HI1 HI2 Hm2 Hpn2 _ Hlk2 Hhd2 Htl2 Hgh2.
  apply (wp_set zero t _ _ Next n v); [done|].
  intros w3 w4 HR3 HI3 HI4 Hm4 Hnx4 Hpn4 Hlk4 Hhd4 Htl4 Hgh4.
  assert (head (w_mem w4) = head (w_mem w) ∧ tail (w_mem w4) = tail (w_mem w)) as [Hhd Htl].
  { rewrite Hhd4, Htl4, (head_stable t _ _ HR3), (tail_stable t _ _ HR3), Hhd2, Htl2,
      (head_stable t _ _ HR1), (tail_stable t _ _ HR1). done. }
  assert (∀ l, linked w l → linked w4 l) as Hlk.
  { intros l ?. apply Hlk4, (dq_linked_stable t w2), Hlk2, (dq_linked_stable t w); done. }
  assert (ready t o w4) as Hr4.
  { unfold ready. rewrite Hgh4. apply (deque_ready_stable t o w2); [done|].
    unfold ready. rewrite Hgh2. by apply (deque_ready_stable t o w). }
  assert (link w4 Prev n = Some (p, false)) as Hpn.
  { rewrite Hpn4 by done. by eapply mine_link_stable. }
  assert (∀ w5, rely t w4 w5 → pushing o n v w5 ∧ linked w5 p ∧ linked w5 x ∧
    head (w_mem w5) = head (w_mem w) ∧ tail (w_mem w5) = tail (w_mem w)) as H5.
  { intros w5 HR5. split; [by apply (pushing_stable _ _ _ w4)|].
    split; [by apply (dq_linked_stable t w4), Hlk|]. split; [by apply (dq_linked_stable t w4), Hlk|].
    rewrite (head_stable t _ _ HR5), (tail_stable t _ _ HR5). done. }
  apply (dq_wp_compareAndSet zero t _ _ Next); [by apply Hlk|..].
  - intros w5 HR5 HI5. destruct (H5 w5 HR5) as (? & ? & ? & ? & ?). by apply Hfalse.
  - intros <- _. destruct (Hlk _ Hx) as [_ Hown], Hm4. congruence.
  - intros w5 m' HR5 HI5 Hpx Hw. destruct (H5 w5 HR5) as ([Hr5 Hm5] & Hp5 & Hx5 & Hhd5 & Htl5).
    destruct (dq_link_step zero t o v p x n m' w5) as (y & Hgood & Hf & Hln & Hlx); try done.
    + by rewrite Htl5.
    + by eapply mine_link_stable.
    + exists p. split; [by eapply mine_link_stable|]. split; [done|by rewrite Htl5].
    + by rewrite Hhd5, Htl5.
    + exists [t], y. split; [exact Hgood|]. apply Htrue; [done..|].
      simpl. destruct (wr_ends _ _ _ _ _ Hw) as [_ ->]. intros ->.
      destruct (tail_linked _ (i_shape _ _ HI5)) as [_ Hown]. destruct Hm5. congruence.
Qed.

Lemma wp_push_end n x w :
  finished t RDone w → linked w n → linked w x → n ≠ tail (w_mem w) →
  wp (post Sp proto t) Free (bind (pushCommon (Some n) (Some x)) (λ _, Ret RDone)) w.
Proof.
  intros Hf Hn Hx Hne. eapply wp_use; [by apply pushCommon_to|]. intros [] w1 HR1 HI1 _.
  apply deque_return. by apply (deque_finished_stable t _ w).
Qed.

Definition front_loop v n hd (next : option loc) w : Prop :=
  pushing (Adt.PushFront v) n v w ∧ hd = head (w_mem w) ∧
  ∃ x, next = Some x ∧ linked w x.

Lemma front_loop_stable v n hd next w w' :
  front_loop v n hd next w → rely t w w' → front_loop v n hd next w'.
Proof.
  intros (? & ? & x & ? & ?) HR. split; [by apply (pushing_stable _ _ _ w)|].
  split; [by rewrite (head_stable t _ _ HR)|]. exists x. split; [done|by apply (dq_linked_stable t w)].
Qed.

(** [head.next] is never marked. *)
Lemma head_next w (r : loc) b : Inv w → link w Next (head (w_mem w)) = Some (r, b) → b = false ∧ linked w r.
Proof.
  intros HI Hr. pose proof (i_shape _ _ HI) as Hs.
  destruct (s_head _ Hs) as [r' Hr'], (s_next _ Hs _ (dq_head_linked _ Hs)) as (r2 & ? & Hr2 & ?).
  rewrite Hr in Hr', Hr2. by simplify_eq.
Qed.

Lemma PushFront_wp v w : ready t (Adt.PushFront v) w → wp (post Sp proto t) Free (PushFront v) w.
Proof.
  intros Hr. unfold PushFront. apply (dq_push_new _ _ (Adt.PushFront v)); [done|].
  intros n w1 HI1 Hpush. wp_go wp_load as w2 HR2 HI2.
  assert (linked w2 (head (w_mem w2))) as Hlh by apply dq_head_linked, HI2.
  apply (wp_deref zero t _ _ Next); [done|]. intros w3 x b HR3 HI3 Hx w4 HR4 HI4.
  assert (rely t w1 w4) as HR14 by chase. assert (rely t w2 w4) as HR24 by chase.
  rewrite <-(head_stable t _ _ HR3) in Hx. destruct (head_next _ _ _ HI3 Hx) as [-> Hlx].
  rewrite <-(head_stable t _ _ HR24). wp_pure.
  apply (effect_loop zero t (front_loop v n (head (w_mem w4)))).
  { intros. by eapply front_loop_stable. }
  2:{ split; [by apply (pushing_stable _ _ _ w1)|]. split; [done|].
      exists x. split; [done|by apply (dq_linked_stable t w3)]. }
  generalize (head (w_mem w4)). clear. intros hd next w HI (Hpush & -> & x & -> & Hx).
  apply (dq_wp_get zero t _ _ Next); [apply dq_head_linked, HI|].
  intros w1 r b HR1 HI1 Hrb w2 HR2 HI2. simpl fst. simpl snd.
  assert (rely t w w2) as HR02 by chase.
  destruct (negb _ || b) eqn:Etest.
  - apply (wp_deref zero t _ _ Next); [apply (dq_linked_stable t w); [done|]; apply dq_head_linked, HI|].
    intros w3 y b' HR3 HI3 Hy w4 HR4 HI4. assert (rely t w w4) as HR04 by chase.
    assert (rely t w w3) as HR03 by chase. rewrite <-(head_stable t _ _ HR03) in Hy.
    destruct (head_next _ _ _ HI3 Hy) as [-> Hly].
    apply wp_ret. intros w5 HR5 HI5. split; [done|]. assert (rely t w w5) as HR05 by chase.
    split; [by apply (pushing_stable _ _ _ w)|]. split; [by rewrite (head_stable t _ _ HR05)|].
    exists y. split; [done|]. apply (dq_linked_stable t w3); [chase|done].
  - apply (push_link _ _ (Adt.PushFront v) n v _ x).
    + by apply (pushing_stable _ _ _ w).
    + apply (dq_linked_stable t w); [done|]. apply dq_head_linked, HI.
    + by apply (dq_linked_stable t w).
    + rewrite (tail_stable t _ _ HR02). apply head_tail, HI.
    + left. by rewrite (head_stable t _ _ HR02).
    + intros w3 HI3 Hpush3 Hlh Hlx Htl Hhd. apply wp_ret. intros w4 HR4 HI4. split; [done|].
      apply (front_loop_stable _ _ _ _ w3); [|done]. split; [done|].
      split; [by rewrite Hhd, (head_stable t _ _ HR02)|]. by exists x.
    + intros w3 Hf Hn Hlx Hne. apply wp_ret. intros w4 HR4 HI4. split; [done|].
      apply wp_push_end; [by apply (deque_finished_stable t _ w3)|by apply (dq_linked_stable t w3)..|].
      by rewrite (tail_stable t _ _ HR4).
Qed.

(** A linked node that is not the tail. *)
Definition inner (q : option loc) w : Prop := ∃ p, q = Some p ∧ linked w p ∧ p ≠ tail (w_mem w).

Lemma inner_stable q w w' : rely t w w' → inner q w → inner q w'.
Proof.
  intros HR (p & -> & ? & ?). exists p. rewrite (tail_stable t _ _ HR).
  split; [done|]. split; [by apply (dq_linked_stable t w)|done].
Qed.

(** [tail.prev] is never marked, and not the tail. *)
Lemma wp_tail_prev {A} (Q : budget → A → world → Prop) k w tl :
  Inv w → tl = tail (w_mem w) →
  (∀ q w1, rely t w w1 → Inv w1 → inner q w1 → wp Q Free (k q) w1) →
  wp Q Free (bind (derefActive prev_f (Some tl)) k) w.
Proof.
  intros HI -> Hk. apply (wp_deref zero t _ _ Prev); [apply tail_linked, HI|].
  intros w1 p b HR1 HI1 Hp w2 HR2 HI2. pose proof (i_shape _ _ HI1) as Hs.
  rewrite <-(tail_stable t _ _ HR1) in Hp.
  destruct (s_prev _ Hs _ (tail_linked _ Hs)) as (p' & b' & Hp' & Hl & Hne & Hd).
  rewrite Hp in Hp'. simplify_eq. destruct b'; [by destruct (tail_alive _ Hs); apply Hd|].
  apply Hk; [chase|done|]. apply (inner_stable _ w1); [done|]. by exists p'.
Qed.

(** [helpInsert(node, tail)] *)
Lemma helpInsert_inner q w tl : tl = tail (w_mem w) → Inv w → inner q w →
  wp (to t w inner) Free (helpInsert q (Some tl)) w.
Proof.
  intros -> HI (p & -> & Hp & Hne). eapply wp_mono; [|apply helpInsert_to].
  - intros b r w1 HI1 (-> & HR & p' & -> & Hl' & Hne'). split; [done|]. split; [done|].
    exists p'. split; [done|]. split; [done|]. rewrite (tail_stable t _ _ HR) in *. by apply Hne'.
  - apply tail_linked, HI.
  - exists p. auto.
Qed.

Definition back_loop v n tl (q : option loc) w : Prop :=
  pushing (Adt.PushBack v) n v w ∧ tl = tail (w_mem w) ∧ inner q w.

Lemma back_loop_stable v n tl q w w' : back_loop v n tl q w → rely t w w' → back_loop v n tl q w'.
Proof.
  intros (? & ? & ?) HR. split; [by apply (pushing_stable _ _ _ w)|].
  split; [by rewrite (tail_stable t _ _ HR)|by apply (inner_stable _ w)].
Qed.

Lemma PushBack_wp v w : ready t (Adt.PushBack v) w → wp (post Sp proto t) Free (PushBack v) w.
Proof.
  intros Hr. unfold PushBack. apply (dq_push_new _ _ (Adt.PushBack v)); [done|].
  intros n w1 HI1 Hpush. wp_go wp_load as w2 HR2 HI2.
  apply wp_tail_prev; [done|done|]. intros q w3 HR3 HI3 Hq.
  rewrite <-(tail_stable t _ _ HR3). wp_pure.
  apply (effect_loop zero t (back_loop v n (tail (w_mem w3)))).
  { intros. by eapply back_loop_stable. }
  2:{ split; [apply (pushing_stable _ _ _ w1); [chase|done]|done]. }
  generalize (tail (w_mem w3)). clear. intros tl q w HI (Hpush & -> & p & -> & Hp & Hpt).
  apply (dq_wp_get zero t _ _ Next); [done|].
  intros w1 r b HR1 HI1 Hrb w2 HR2 HI2. simpl fst. simpl snd.
  assert (rely t w w2) as HR02 by chase. rewrite <-(tail_stable t _ _ HR02).
  destruct (negb _ || b) eqn:Etest.
  - eapply wp_use; [apply helpInsert_inner; [done|done|]|].
    { apply (inner_stable _ w); [done|]. by exists p. }
    intros q w3 HR3 HI3 Hq. apply wp_ret. intros w4 HR4 HI4. split; [done|].
    assert (rely t w2 w4) as HR24 by chase.
    split; [apply (pushing_stable _ _ _ w); [chase|done]|].
    split; [by rewrite (tail_stable t _ _ HR24)|by apply (inner_stable _ w3)].
  - apply (push_link _ _ (Adt.PushBack v) n v).
    + by apply (pushing_stable _ _ _ w).
    + by apply (dq_linked_stable t w).
    + apply tail_linked, HI2.
    + by rewrite (tail_stable t _ _ HR02).
    + by right.
    + intros w3 HI3 Hpush3 Hlp Hlx Htl Hhd. apply wp_ret. intros w4 HR4 HI4. split; [done|].
      apply (back_loop_stable _ _ _ _ w3); [|done]. split; [done|].
      split; [done|]. exists p. by rewrite Htl, (tail_stable t _ _ HR02).
    + intros w3 Hf Hn Hlx Hne. apply wp_ret. intros w4 HR4 HI4. split; [done|].
      apply wp_push_end; [by apply (deque_finished_stable t _ w3)|by apply (dq_linked_stable t w3)..|].
      by rewrite (tail_stable t _ _ HR4).
Qed.

(** ** Pops *)

(** The end of a pop that has marked [n]. *)
Lemma pop_end {A} n v w (Q : budget → A + resp T → world → Prop) :
  linked w n → value (w_mem w) n = Some v →
  (∀ w1, rely t w w1 → Inv w1 → Q Free (inr (RVal v true)) w1) →
  wp Q Free (bind (act (load_ptr nodes (Some n) dn_value)) (λ v, break (RVal v true))) w.
Proof.
  intros Hl Hv HQ. wp_go wp_load_at as w1 HR1 HI1.
  apply (r_value _ _ _ HR1) in Hv. unfold value in Hv.
  destruct (nodes (w_mem w1) !! n) as [nd|] eqn:En; [|done]. simplify_eq/=.
  exists nd. split; [done|]. apply wp_ret. intros w2 HR2 HI2. apply HQ; [chase|done].
Qed.

(** What the rounds of a pop leave: to go round again, or the response. *)
Definition popped (LI : option loc → world → Prop) (b : budget) (z : option loc + resp T) w : Prop :=
  b = Free ∧ match z with inl a => LI a w | inr r => wp (post Sp proto t) Free (Ret r) w end.

Lemma popped_done LI r w : finished t r w → popped LI Free (inr r) w.
Proof. intros Hf. split; [done|]. by apply deque_return. Qed.

Definition front_pop hd w : Prop := ready t Adt.PopFront w ∧ hd = head (w_mem w).

Lemma front_pop_stable hd w w' : rely t w w' → front_pop hd w → front_pop hd w'.
Proof.
  intros HR [? ?]. split; [by apply (deque_ready_stable t _ w)|by rewrite (head_stable t _ _ HR)].
Qed.

(** The node read first is marked by now, or is the one to mark. *)
Lemma PopFront_node n v a hd w (Q : budget → unit + resp T → world → Prop) :
  was_first t n v a w → front_pop hd w → Inv w →
  (∀ w1, front_pop hd w1 → Q Free (inl tt) w1) →
  (∀ w1, finished t (RVal v true) w1 → Q Free (inr (RVal v true)) w1) →
  wp Q Free (
    let! link1 := get next_f (Some n) in
    if link1.2 : bool then
      helpDelete (Some n) ;;;
      continue tt
    else
      let! ok := compareAndSet next_f (Some n) link1.1 link1.1 false true in
      if ok : bool then
        helpDelete (Some n) ;;;
        let! next := reference next_f (Some n) in
        helpInsert (Some hd) next ;;;
        let! v := act (load_ptr nodes (Some n) dn_value) in
        break (RVal v true)
      else continue tt) w.
Proof.
  intros Hfirst Hpop HI Hagain Hdone. pose proof Hfirst as (_ & Hl & _).
  apply (dq_wp_get zero t _ _ Next); [done|]. intros w1 x b HR1 HI1 Hx w2 HR2 HI2. simpl snd. simpl fst.
  destruct b.
  { eapply wp_use.
    { apply helpDelete_to, (dq_dead_stable t w1); [done|]. split; [by apply (dq_linked_stable t w)|by exists x]. }
    intros [] w3 HR3 HI3 _. apply wp_ret. intros w4 HR4 HI4. apply Hagain.
    apply (front_pop_stable _ w); [chase|done]. }
  apply (dq_wp_compareAndSet zero t _ _ Next); [apply (dq_linked_stable t w); [chase|done]|..|].
  - intros w3 HR3 HI3. apply wp_ret. intros w4 HR4 HI4. apply Hagain.
    apply (front_pop_stable _ w); [chase|done].
  - done.
  - intros w3 m' HR3 HI3 Hx3 Hw. assert (rely t w w3) as HR03 by chase.
    destruct (pop_front_mark w3 n x v a m' HI3) as (y & Hgood & Hf & Hd & Hv & Hlx & Hlh & Hhd & Htl);
      [by apply (was_first_stable t _ _ _ w)|done..|].
    exists [t], y. split; [exact Hgood|]. set (w4 := upd _ _ _ _ _) in *.
    destruct Hgood as [HI4 _].
    eapply wp_use; [by apply helpDelete_to|]. intros [] w5 HR5 HI5 _.
    apply (wp_reference zero t _ _ Next); [apply (dq_linked_stable t w4); [done|apply Hd]|].
    intros w6 x' b HR6 HI6 Hx6 w7 HR7 HI7.
    destruct (s_next _ (i_shape _ _ HI6) n) as (x2 & ? & Hx2 & Hlx6);
      [apply (dq_linked_stable t w4); [chase|apply Hd]|]. rewrite Hx6 in Hx2. simplify_eq.
    assert (rely t w4 w7) as HR47 by chase.
    destruct Hpop as [_ ->]. rewrite <-(head_stable t _ _ HR03).
    eapply wp_use.
    { apply helpInsert_to; [by apply (dq_linked_stable t w6)|]. eexists. split; [done|].
      split; [by apply (dq_linked_stable t w4)|]. intros Htx. rewrite (tail_stable t _ _ HR47) in Htx.
      simpl in Htx. rewrite Htx, Htl. apply head_tail, HI3. }
    intros o w8 HR8 HI8 _. apply (pop_end n v).
    + apply (dq_linked_stable t w4); [chase|apply Hd].
    + assert (rely t w4 w8) as HR48 by chase. by apply (r_value _ _ _ HR48).
    + intros w9 HR9 HI9. apply Hdone, (deque_finished_stable t _ w4); [chase|done].
Qed.

Lemma PopFront_wp w : ready t Adt.PopFront w → wp (post Sp proto t) Free (PopFront zero) w.
Proof.
  intros Hr. unfold PopFront. wp_go wp_load as w1 HR1 HI1.
  apply (effect_loop zero t (λ _, front_pop (head (w_mem w1)))).
  { intros. by eapply front_pop_stable. }
  2:{ split; [by apply (deque_ready_stable t _ w)|done]. }
  generalize (head (w_mem w1)). clear. intros hd [] w HI [Hr ->].
  unfold derefActive. rewrite bind_bind.
  apply (wp_get_lin zero t _ _ Next); [apply dq_head_linked, HI|]. intros w1 n b HR1 HI1 Hn.
  rewrite <-(head_stable t _ _ HR1) in Hn. destruct (head_next _ _ _ HI1 Hn) as [-> Hln].
  assert (ready t Adt.PopFront w1) as Hr1 by by apply (deque_ready_stable t _ w).
  destruct (decide (n = tail (w_mem w1))) as [->|Hne].
  - destruct (empty_step zero t Adt.PopFront w1) as [Hgood Hf];
      [done|done|by left|by apply (contents_empty zero)|].
    eexists [t], _. split; [exact Hgood|]. intros w2 HR2 HI2. cbn [bind].
    wp_go wp_load as w3 HR3 HI3.
    rewrite bool_decide_true by (rewrite (tail_stable t _ _ HR3), (tail_stable t _ _ HR2); done).
    apply wp_ret. intros w4 HR4 HI4. split; [done|].
    apply deque_return. eapply (deque_finished_stable t _ _ w4); [|exact Hf]. chase.
  - destruct (read_first w1 n HI1 Hr1 Hn Hne) as (v & a & Hfirst).
    exists [], (w_aux w1). rewrite upd_id. split; [by apply good_step_refl|].
    intros w2 HR2 HI2. cbn [bind]. wp_go wp_load as w3 HR3 HI3.
    assert (rely t w1 w3) as HR13 by chase. assert (rely t w w3) as HR03 by chase.
    rewrite bool_decide_false by (intros [= Heq]; rewrite (tail_stable t _ _ HR13) in Heq; done).
    apply (PopFront_node n v a).
    + by apply (was_first_stable t _ _ _ w1).
    + by apply (front_pop_stable _ w).
    + done.
    + intros w4 ?. done.
    + intros w4 Hf. split; [done|]. by apply deque_return.
Qed.

Definition back_pop tl (q : option loc) w : Prop :=
  ready t Adt.PopBack w ∧ tl = tail (w_mem w) ∧ inner q w.

Lemma back_pop_stable tl q w w' : rely t w w' → back_pop tl q w → back_pop tl q w'.
Proof.
  intros HR (? & ? & ?). split; [by apply (deque_ready_stable t _ w)|].
  split; [by rewrite (tail_stable t _ _ HR)|by apply (inner_stable _ w)].
Qed.

(** The mark of the last node, and the end of the method. *)
Lemma PopBack_node n tl w (Q : budget → option loc + resp T → world → Prop) :
  back_pop tl (Some n) w → n ≠ head (w_mem w) → Inv w →
  (∀ w1, back_pop tl (Some n) w1 → Q Free (inl (Some n)) w1) →
  (∀ w1 v, finished t (RVal v true) w1 → Q Free (inr (RVal v true)) w1) →
  wp Q Free (
    let! ok := compareAndSet next_f (Some n) (Some tl) (Some tl) false true in
    if ok : bool then
      helpDelete (Some n) ;;;
      let! prev := reference prev_f (Some n) in
      helpInsert prev (Some tl) ;;;
      let! v := act (load_ptr nodes (Some n) dn_value) in
      break (RVal v true)
    else continue (Some n)) w.
Proof.
  intros Hpop Hnh HI Hagain Hdone. pose proof Hpop as (Hr & -> & n' & [= <-] & Hl & Hnt).
  apply (dq_wp_compareAndSet zero t _ _ Next); [done|..].
  - intros w1 HR1 HI1. apply wp_ret. intros w2 HR2 HI2. apply Hagain.
    apply (back_pop_stable _ _ w); [chase|done].
  - done.
  - intros w1 m' HR1 HI1 Hn1 Hw. destruct (linked_value w1 n) as [v Hv]; [by apply (dq_linked_stable t w)|].
    rewrite <-(tail_stable t _ _ HR1) in *.
    destruct (pop_back_mark w1 n v m') as (y & Hgood & Hf & Hd & Hv1 & Htl); try done.
    + by apply (deque_ready_stable t _ w).
    + by apply (dq_linked_stable t w).
    + by rewrite (head_stable t _ _ HR1).
    + exists [t], y. split; [exact Hgood|]. set (w2 := upd _ _ _ _ _) in *.
      destruct Hgood as [HI2 _].
      eapply wp_use; [by apply helpDelete_to|]. intros [] w3 HR3 HI3 _.
      apply (wp_reference zero t _ _ Prev); [apply (dq_linked_stable t w2); [done|apply Hd]|].
      intros w4 p b HR4 HI4 Hp w5 HR5 HI5.
      destruct (s_prev _ (i_shape _ _ HI4) n) as (p' & ? & Hp' & Hlp & Hpt & _);
        [apply (dq_linked_stable t w2); [chase|apply Hd]|]. rewrite Hp in Hp'. simplify_eq.
      assert (rely t w2 w5) as HR25 by chase.
      assert (tail (w_mem w1) = tail (w_mem w5)) as ->.
      { rewrite (tail_stable t _ _ HR25). simpl. done. }
      eapply wp_use; [apply helpInsert_inner; [done|done|]|].
      { apply (inner_stable _ w4); [done|]. by exists p'. }
      intros o w6 HR6 HI6 _. apply (pop_end n v).
      * apply (dq_linked_stable t w2); [chase|apply Hd].
      * assert (rely t w2 w6) as HR26 by chase. by apply (r_value _ _ _ HR26).
      * intros w7 HR7 HI7. apply Hdone, (deque_finished_stable t _ w2); [chase|done].
Qed.

Lemma PopBack_wp w : ready t Adt.PopBack w → wp (post Sp proto t) Free (PopBack zero) w.
Proof.
  intros Hr. unfold PopBack. wp_go wp_load as w1 HR1 HI1.
  apply wp_tail_prev; [done|done|]. intros q w2 HR2 HI2 Hq. rewrite <-(tail_stable t _ _ HR2). wp_pure.
  apply (effect_loop zero t (back_pop (tail (w_mem w2)))).
  { intros. by eapply back_pop_stable. }
  2:{ split; [apply (deque_ready_stable t _ w); [chase|done]|done]. }
  generalize (tail (w_mem w2)). clear. intros tl q w HI (Hr & -> & n & -> & Hn & Hnt).
  apply (wp_get_lin zero t _ _ Next); [done|]. intros w1 x b HR1 HI1 Hx.
  assert (ready t Adt.PopBack w1) as Hr1 by by apply (deque_ready_stable t _ w).
  assert (back_pop (tail (w_mem w)) (Some n) w) as Hpop.
  { split; [done|]. split; [done|]. by exists n. }
  destruct (decide (n = head (w_mem w1) ∧ x = tail (w_mem w1) ∧ b = false)) as [(-> & -> & ->)|Hno].
  - destruct (empty_step zero t Adt.PopBack w1) as [Hgood Hf];
      [done|done|by right|by apply (contents_empty zero)|].
    eexists [t], _. split; [exact Hgood|]. intros w2 HR2 HI2. simpl fst. simpl snd.
    rewrite bool_decide_true by by rewrite (tail_stable t _ _ HR1). cbn [negb orb bind].
    wp_go wp_load as w3 HR3 HI3.
    rewrite bool_decide_true by (rewrite (head_stable t _ _ HR3), (head_stable t _ _ HR2); done).
    apply wp_ret. intros w4 HR4 HI4. split; [done|].
    apply deque_return. eapply (deque_finished_stable t _ _ w4); [|exact Hf]. chase.
  - exists [], (w_aux w1). rewrite upd_id. split; [by apply good_step_refl|].
    intros w2 HR2 HI2. simpl fst. simpl snd. assert (rely t w w2) as HR02 by chase.
    destruct (negb _ || b) eqn:Etest.
    + assert (tail (w_mem w) = tail (w_mem w2)) as -> by by rewrite (tail_stable t _ _ HR02).
      eapply wp_use; [apply helpInsert_inner; [done|done|]|].
      { apply (inner_stable _ w); [done|]. by exists n. }
      intros q w3 HR3 HI3 Hq. apply wp_ret. intros w4 HR4 HI4. split; [done|].
      assert (rely t w2 w4) as HR24 by chase.
      split; [apply (deque_ready_stable t _ w); [chase|done]|].
      split; [by rewrite (tail_stable t _ _ HR24)|by apply (inner_stable _ w3)].
    + apply orb_false_iff in Etest as [Ex ->]. apply negb_false_iff, bool_decide_eq_true in Ex.
      simplify_eq. cbn [bind]. wp_go wp_load as w3 HR3 HI3.
      assert (rely t w1 w3) as HR13 by chase. assert (rely t w w3) as HR03 by chase.
      assert (n ≠ head (w_mem w3)) as Hnh.
      { rewrite (head_stable t _ _ HR13). intros ->. apply Hno.
        by rewrite (tail_stable t _ _ HR1). }
      rewrite bool_decide_false by by intros [= Heq].
      apply (PopBack_node n (tail (w_mem w))).
      * by apply (back_pop_stable _ _ w).
      * done.
      * done.
      * intros w4 ?. done.
      * intros w4 v Hf. split; [done|]. by apply deque_return.
Qed.
End methods.

(** ** The object *)

Section object.
Context {T : Type} (zero : T).
Abbreviation Sp := (open_spec (@RDone T)).
Abbreviation obj := (lf_deque_object zero).

(** The new deque: the chain is [head] and [tail]. *)
Lemma new_deque_inv :
  Inv zero (World (NewDeque zero) (Ghost [] ∅ 0 []) (Aux [0; 1] ∅ [])).
Proof.
  assert (∀ l, linked (World (NewDeque zero) (Ghost [] ∅ 0 []) (Aux [0; 1] ∅ [])) l →
    l = 0 ∨ l = 1) as H01.
  { intros l [Hl _]. simpl in Hl. lia. }
  split; simpl; try done.
  - apply kept_nil.
  - intros d n. by rewrite elem_of_nil.
  - split; simpl; try done.
    + by exists [].
    + repeat constructor; set_solver.
    + intros [|[|i]] a b Ha Hb; simplify_eq/=. by exists false.
    + intros l Hl. split; [|done]. simpl. set_unfold in Hl. lia.
    + intros l [->| ->]%H01 Hno; set_solver.
    + intros l [->| ->]%H01; exists 1, false; (split; [done|]); (split; [simpl; lia|done]).
    + intros l [->| ->]%H01; exists 0, false; (split; [done|]); (split; [split; [simpl; lia|done]|done]).
    + by exists 1.
Qed.

Lemma deque_verified : verified Sp (proto zero) Blocking obj.
Proof.
  split; [exists (Aux [0; 1] ∅ []); exact new_deque_inv|].
  intros t id o w HI Hnone -> _. exists (w_aux w).
  destruct (ghost_step zero t w (g_call t (g_now (w_gh w)) o (w_gh w)) HI) as [HI' HR].
  { by apply kept_call; [apply HI|]. }
  { intros u Hu. by apply quiet_call. }
  split; [exact HI'|]. split; [exact HR|].
  assert (ready t o (World (w_mem w) (g_call t (g_now (w_gh w)) o (w_gh w)) (w_aux w))) as Hr
    by apply pending_call.
  destruct o as [v|v| |]; simpl.
  - by apply PushFront_wp.
  - by apply PushBack_wp.
  - by apply PopFront_wp.
  - by apply PopBack_wp.
Qed.

(** No schedule makes a method dereference nil. *)
Theorem lf_deque_no_panic cs : exec obj cs (start obj) ≠ Crash.
Proof. eapply verified_no_crash, deque_verified. Qed.

(** C17. Under every schedule the history of lf.Deque is linearizable with respect
    to the double-ended queue.  A PopFront takes effect when it reads the first
    node, although only its later CompareAndSwap on that node tells, when other
    nodes may have been pushed before it. *)
Theorem lf_deque_linearizable cs s :
  reaches obj cs s → linearizable (deque_spec zero) (sy_hist s).
Proof.
  intros Hs. destruct (verified_world Sp _ _ _ _ _ deque_verified Hs)
    as (w & lens & reads & log & _ & HI & Hsame & Hst & Hhist).
  destruct (justified_linearization zero (@RDone T) _ _ _ _ _ _ (i_kept _ _ HI) Hsame Hst Hhist
    (i_deeds _ _ HI)) as (L & HL & _). by exists L.
Qed.

(** C18. In every reachable state the nodes from head to tail form a chain without
    repetition along next; prev of each of them is set to a node of the deque, and
    carries a mark only when the node is deleted.  The nodes of the chain that are
    not marked hold, front first, the deque that is left by a linearization of the
    history so far. *)
Theorem lf_deque_chain cs s :
  reaches obj cs s → ∃ c L, let m := sy_mem s in
  from_to (head m) (tail m) c ∧ NoDup c ∧
  adjacent (λ a b, ∃ mk, lk Next m a = Some (b, mk)) c ∧
  (∀ l, l ∈ c → ∃ p mk, lk Prev m l = Some (p, mk) ∧ p ≠ tail m ∧
     (mk = true → ∃ r, lk Next m l = Some (r, true))) ∧
  linearization (deque_spec zero) (sy_hist s) L ∧
  run (deque_spec zero) [] L = (omap (content m) c).*2.
Proof.
  intros Hs. destruct (verified_world Sp _ _ _ _ _ deque_verified Hs)
    as (w & lens & reads & log & <- & HI & Hsame & Hst & Hhist).
  destruct (justified_linearization zero (@RDone T) _ _ _ _ _ _ (i_kept _ _ HI) Hsame Hst Hhist
    (i_deeds _ _ HI)) as (L & HL & Hrun). pose proof (i_shape _ _ HI) as Hsh.
  exists (chain (w_aux w)), L. split; [apply (s_ends _ Hsh)|]. split; [apply Hsh|].
  split; [by apply adj_iff|]. split.
  - intros l Hl. destruct (s_prev _ Hsh l) as (p & mk & Hp & _ & Hne & Hd); [by apply Hsh|].
    exists p, mk. split; [done|]. split; [done|]. intros Hmk. by destruct (Hd Hmk) as [_ ?].
  - split; [done|]. by rewrite <-(i_contents _ _ HI).
Qed.
End object.

(** ** Examples *)

(** Goroutine 1 pops from the front: it reads the node of 7, then 8 is pushed
    before that node, and only then is the node marked. *)
Definition demo_schedule : list (cmd (deque_op nat)) :=
  Call 0 (Adt.PushBack 7) :: replicate 27 (Step 0) ++
  Call 1 Adt.PopFront :: replicate 5 (Step 1) ++
  Call 0 (Adt.PushFront 8) :: replicate 27 (Step 0) ++ replicate 48 (Step 1) ++
  Call 1 Adt.PopBack :: replicate 48 (Step 1).

Lemma lf_deque_linearizable_witness : ∃ s,
  reaches (lf_deque_object 0) demo_schedule s ∧
  sy_hist s = [EInv 0 0 (Adt.PushBack 7); ERes 0 0 RDone; EInv 1 2 Adt.PopFront;
               EInv 0 3 (Adt.PushFront 8); ERes 0 3 RDone; ERes 1 2 (RVal 7 true);
               EInv 1 6 Adt.PopBack; ERes 1 6 (RVal 8 true)] ∧
  linearizable (deque_spec 0) (sy_hist s).
Proof.
  destruct (run_history_reaches (lf_deque_object 0) demo_schedule _
    ltac:(vm_compute; reflexivity)) as (s & Hs & Hh).
  exists s. split; [exact Hs|]. split; [exact Hh|].
  exact (lf_deque_linearizable 0 demo_schedule s Hs).
Defined.

Lemma lf_deque_chain_witness : ∃ s c,
  reaches (lf_deque_object 0) demo_schedule s ∧ from_to (head (sy_mem s)) (tail (sy_mem s)) c.
Proof.
  destruct (run_history_reaches (lf_deque_object 0) demo_schedule _
    ltac:(vm_compute; reflexivity)) as (s & Hs & _).
  destruct (lf_deque_chain 0 demo_schedule s Hs) as (c & L & Hc & _).
  exists s, c. split; [exact Hs|exact Hc].
Defined.
End LfDeque.
